(* ===== verification/_CoqProject ===== *)
-Q . S2P
Prelude.v
GoErrors.v
GoHeap.v
GoStrconv.v
GoUtf8.v
GoFloat.v
GoSlices.v
GoCase.v
Redis.v
LuaNum.v
Period.v
RateLimit.v
RateLimitMemory.v
RateLimitRedis.v
Strings.v
Retry.v
Poll.v
Slices.v
Idempotency.v
IdempotencyMemory.v
IdempotencyRedis.v
Batcher.v
Lifecycle.v
Queue.v
QueueMemory.v
QueueWorker.v
Debounce.v
Event.v
Signal.v
Locker.v
LockerRedis.v
Cache.v
CacheRedis.v
Snapshot.v
GoBase64.v
GoSHA256.v
GoRunes.v
GoDigests.v
RedisStreams.v
Programs.v
QueueRedis.v
Webhook.v
WebhookSender.v
Filesystem.v
FilesystemLocal.v
FilesystemObject.v
Parallel.v
ParallelPool.v
ParallelStream.v
Health.v
Pagination.v
JsonRpc.v
Jet.v
Errors.v
Support.v
RedisTimed.v
Embedding.v
Fanout.v
Canal.v
CanalRedis.v
QueueRabbit.v
Slog.v
Udp.v
CloudEvents.v
Otlp.v
Multidriver.v
GormScope.v
Crypto.v
StringsText.v
GoNet.v
Recovery.v
Tracing.v
JetTracing.v
Kratos.v
GormLogger.v
Globals.v
