(* ===== verification/Prelude.v ===== *)
(** * A verification of the go-fries packages

    The repository is a collection of Go packages that services are built from:
    rate limiting, retrying, polling, idempotent execution, batching,
    debouncing, task queues, concurrent groups and pools, events, signals,
    application lifecycle, health checks, locks, caches, webhooks, filesystems,
    JSON-RPC clients, a UDP server, log handlers, cached embeddings, binlog
    positions, telemetry clients, database drivers and scopes, message bindings,
    encryption, and helpers for slices, strings, errors and time periods, next to
    adapters for third-party systems.  This library models the packages that carry logic of
    their own as executable Rocq definitions and proves what makes them correct.

    ** Parts and files

    - [Prelude] (this file): 64-bit integers with wrap-around, durations and
      instants as nanoseconds, the tactics and the [go] hint databases, list
      lemmas.
    - [GoErrors]: error values with [errors.Is], [errors.As] and [errors.Join];
      a context is what its successive checks see.
    - [GoHeap]: [container/heap] over an abstract [Len]/[Less]/[Swap] interface.
      [GoStrconv], [GoUtf8], [GoFloat], [GoBase64], [GoSHA256], [GoCase]: decimal
      integers, UTF-8 and white space, [float64], standard base64, HMAC-SHA-256
      and the case of ASCII text as the packages use them; [GoRunes]: strings and
      their runes; [GoDigests]: MD5 and SHA-1; [GoNet]: hosts and ports.  [GoSlices]: slices over arrays they may share, and the
      class [SeqOps] of what packages do with them, with a second instance on
      lists.
    - [Redis]: what a Redis server promises its clients, as the class [RedisLaws]
      over an abstract server state, the commands and scripts the packages send,
      a client whose attempts at a call fail before or after the server acted and
      are repeated after pauses, with the options it makes of durations, and a
      server that meets the laws.  [LuaNum]: the double-precision numbers of its scripts;
      [RedisTimed]: requests that take time.  [Programs]: operations as trees of
      requests and answers.
    - [Period] ([src/time/period]): half-open periods, [Merge], [Subtract],
      [Gaps].
    - [RateLimit] ([src/ratelimit]): limits, the limiter, and the contract of a
      store as the class [StoreLaws] (one GCRA cell per key); [RateLimitMemory]
      ([src/ratelimit/memory]) is the in-process store with its expiration heap
      and [RateLimitRedis] ([src/ratelimit/redis]) the store on a script: both are
      instances of the class.
    - [Strings] ([src/strings]): wildcard matching, cutting, replacing on bytes;
      [StringsText]: the functions on characters, random draws and digests.
    - [Retry] ([src/retry]): backoffs, error markers, the retry loop.
    - [Poll] ([src/poll]): the polling loop.
    - [Slices] ([src/slices]): every function of the package.
    - [Idempotency] ([src/idempotency]): the store contract as the class
      [StoreLaws] (an expiring cell per key) and the executor;
      [IdempotencyMemory] ([src/idempotency/memory]) and [IdempotencyRedis]
      ([src/idempotency/redis]) are the stores, instances of the class.
    - [Batcher] ([src/batcher]): producers, request channel, worker and shutdown
      as a transition system.
    - [Lifecycle] ([src/lifecycle]): provider startup and shutdown, sequential
      and with concurrent callers.
    - [Queue] ([src/queue]): envelope, producer, settlement, worker loop, and the
      contract of a queue as the class [QueueLaws]; [QueueMemory]
      ([src/queue/adapter/memory]) is the in-memory adapter, an instance of it;
      [QueueRedis] ([src/queue/adapter/redis]) is the adapter on Redis Streams,
      its operations programs of requests that interleave, over the commands of
      [RedisStreams]; [QueueRabbit] ([src/queue/adapter/rabbitmq]) is the adapter
      on RabbitMQ, programs against every broker; [QueueWorker]: [Run] and [Stop] of a worker with their
      goroutines as a transition system.
    - [Debounce] ([src/debounce]): callers, slots, timer and worker of the
      trailing-edge debouncer as a transition system.
    - [Event] ([src/event]): subscriptions, serial dispatch, and the worker pool
      of concurrent dispatch as a transition system in which claiming an index,
      the checks of the context and the start of a handler are separate moves.
    - [Signal] ([src/signal]): the signal router, its receiving loop, workers and
      shutdown as a transition system.
    - [Locker] ([src/locker]): the contract of a lock, [Do] and [Try];
      [LockerRedis] ([src/locker/redis]): leases under tokens, with waiting.
    - [Cache] ([src/cache]): the contract of a backend, repository, typed view;
      [CacheRedis] ([src/cache/redis]) is the backend, and its locks are those of
      a locker; [Snapshot] ([src/cache/snapshot.go]): read and write sections of
      the three snapshots, and their interleavings.
    - [Webhook] ([src/webhook]): secrets, signing, verification;
      [WebhookSender] ([src/webhook/sender]): endpoints, requests, responses.
    - [Filesystem] ([src/filesystem]): paths, prefixes, content lengths, the
      driver contract as the class [Driver], the repository;
      [FilesystemLocal] ([src/filesystem/local]) is the driver on an operating
      system that meets [OSLaws], with pagination; [FilesystemObject]
      ([src/filesystem/s3], [src/filesystem/oss]) are the drivers on object
      storage that meets [ObjectLaws].
    - [Parallel] ([parallel.go], [collection.go] of [src/parallel]): [execute]
      over an error group that meets [ErrGroupLaws], and the collections on it;
      [ParallelPool] ([pool.go], [value.go]): submitters, queue, workers and
      shutdown; [ParallelStream] ([stream.go]): producers, workers, consumers; all
      three as transition systems.
    - [Health] ([src/health]): registration, runs of checks as a transition
      system, reports and the HTTP handler.
    - [Pagination] ([src/x/pagination]): the arithmetic of pages.
    - [JsonRpc] ([src/jsonrpc]): request IDs, middleware chains, clients and their
      namespaces over [SeqOps], calls and the HTTP transport; [Jet]
      ([src/hyperf/jet]): the client of another protocol, whose calls append to a
      shared slice, its formatter, paths and middlewares.
    - [Errors] ([src/errors]): grouped and timeout errors; [Support]
      ([src/support]): pipes of functions, values, proxies, the coordinator,
      collections, maps and sizes.
    - [Embedding] ([src/eino/components/embedding/cached]): an embedder in front of
      another, its keys, and the contract of a cacher as the class [CacherLaws],
      with the cachers on Redis and on a table as instances.
    - [Fanout]: one task per listener in an error group, as a transition system
      that two packages share.
    - [Canal] ([src/mysql/canal]): listeners, their dispatch over [Fanout], the
      start position; [CanalRedis] ([src/mysql/canal/positioner/redis]): positions
      in Redis, and the buffered positioner as a transition system.
    - [Slog] ([src/log/slog]): the handlers [enrich], [multi] and [syslog] over the
      handler interface of the standard library.
    - [Udp] ([src/udp]): calls, reading loop and worker as a transition system.
    - [CloudEvents] ([src/cloudevents]): the writer and reader of the AMQP 0.9.1
      binding, sender, receiver and protocol, and the event dispatcher over
      [Fanout].
    - [Otlp] ([src/otel/otlp]): options and environment of the exporters, the
      construction and shutdown of the client, with callers at the same time.
    - [Multidriver] ([src/ent/multidriver]): reads and writes over several
      drivers, the policies that choose, and [Close].
    - [GormScope] ([src/gorm/scope], [src/gorm/logger/multi]): query scopes and
      the logger that writes to several; [GormLogger] ([src/gorm/logger/otel]): the
      records of the logger for OpenTelemetry.
    - [Tracing] ([src/kratos/middleware/otel]), [JetTracing]
      ([src/hyperf/jet/middleware/otel]): attributes of spans, the name of the
      calling service, and the calls made on spans; [Kratos]
      ([src/kratos/middleware/cors], [src/kratos/middleware/protovalidate]): headers
      of replies and validation of requests.
    - [Crypto] ([src/hashing], [src/encrypter]): digests of values and streams,
      encryption in counter mode with a random vector.
    - [Recovery] ([src/recovery] and the recovery middlewares of [src/event] and
      [src/queue]); [Globals] (the default dispatcher, context and provider of
      [src/event], [src/x/container], [src/env]): process-wide values.

    A definition has the name of the function it translates where the language
    allows it; a method of a store or queue is a function of the store's state,
    and a method guarded by a mutex is one step.  Clocks, random sources,
    codecs, handlers and other callbacks are arguments.  Options are the
    constructors of an inductive type with an [apply] function, or functions on
    the configuration, since the packages do not export the method that would
    allow others.

    What is not in the repository is a parameter with laws: the Redis server
    ([RedisLaws], [StreamLaws]) and the client's options, the operating system
    ([OSLaws]), object storage ([ObjectLaws]), tables ([GormLaws]), hashes
    ([HashLaws]), block ciphers, the CloudEvents SDK, the exporters,
    providers and spans of OpenTelemetry ([OtelLaws]), regular expressions, database drivers, query builders, the error
    group library ([ErrGroupLaws]), the text of JSON
    ([JSONLaws], [JetJSONLaws]), codecs, URL parsing, HTTP dates, quoting,
    embedders, replication and random tokens; the RabbitMQ broker is not
    restricted at all.  Each class has an instance that shows the
    laws can be met, and the witnesses evaluate on it.

    ** What the theorems show

    - Safety over time: the limiter never admits more than its burst plus the
      refill ([RateLimit.limiter_rate_bound]), over connections to Redis that fail
      too ([RateLimitRedis.redis_rate_bound_faults]); a live claim or result of a key
      stands through every sequence of operations that does not own it
      ([Idempotency.claim_exclusive]), and so does a lease
      ([LockerRedis.lock_exclusive]); batches lose, duplicate and reorder
      nothing under any interleaving ([Batcher.batcher_safety]); providers are
      started and stopped once, in order and in reverse
      ([Lifecycle.lifecycle_interleavings]); a debounced value reaches the handler
      once, as triggered last and after its delay
      ([Debounce.debounce_invocations]); signal handlers run in order and only
      while the router does ([Signal.signal_safety]); pools and streams run every
      accepted input once and lose none ([ParallelPool.pool_safety],
      [ParallelStream.stream_safety]); a snapshot computes a key once
      ([Snapshot.snapshot_once]); a task in Redis is stored, pending or settled
      for a reason, whatever requests and answers are lost and repeated
      ([QueueRedis.redis_queue_at_least_once]); a worker runs once at a time and
      settles each delivery once ([QueueWorker.worker_run_stop]); calls at the
      same time keep their middlewares apart while the client's array is full
      ([Jet.jet_calls_full]); a delivery is acknowledged only after the broker has
      confirmed the task's next message ([QueueRabbit.settle_confirmed]); the
      position in Redis is boundedly behind the one in memory
      ([CanalRedis.saved_lag]); the UDP server serves once, leaks no connection and
      handles messages in order, losing none before it is stopped
      ([Udp.udp_safety]); a telemetry client that is built
      keeps every provider it made and shuts each down once
      ([Otlp.otlp_lifecycle]), and drivers are closed once
      ([Multidriver.close_once]).
    - Refinement and equivalence: the memory and Redis stores answer like the
      abstract tables of the contracts
      ([RateLimitMemory.mem_store_refines_gcra],
      [IdempotencyMemory.mem_store_refines], [IdempotencyRedis.redis_idem_refines],
      [CacheRedis.cache_redis_refines]), and the two limiter stores like each
      other ([RateLimitRedis.redis_memory_agree]); JSON-RPC clients that share
      arrays behave as clients that share nothing ([JsonRpc.clients_isolated]); a
      group of errors is their join ([Errors.group_join]); concurrent dispatch of events,
      whose handlers start in any order, and concurrent [Map] and [Filter] return
      what the serial ones do
      ([Event.event_pool], [Parallel.map_filter_sequential]); a cached embedder
      returns what the one behind it does ([Embedding.embed_transparent]); derived
      log handlers write what their derivation stands for ([Slog.enrich_syslog]);
      shuffling yields all permutations and nothing else
      ([StringsText.Shuffle_permutations]).
    - Authenticity: what is signed is accepted and determines the message
      ([Webhook.sign_verify], [Webhook.signed_content_injective]), the exact
      condition of acceptance ([Webhook.Verify_accepts]), and the sender's
      requests meet it ([WebhookSender.delivered_verifies]).
    - Round trips: written files are read back, path prefixes are stripped, pages
      make up the listing ([FilesystemLocal.local_write_read],
      [FilesystemObject.object_write_read], [Filesystem.prefix_strip_roundtrip],
      [FilesystemLocal.pages_complete], and, keys that start with a slash aside,
      [FilesystemObject.object_pages_complete]);
      a canal continues where another stopped ([CanalRedis.restart_position]);
      a string is restored by reversing it twice ([StringsText.Reverse_reverses]);
      request IDs that are valid UTF-8, requests and remote errors survive the wire
      ([JsonRpc.id_roundtrip], [Jet.jet_request_roundtrip],
      [Jet.jet_response_roundtrip]), and so does an event sent over AMQP, but for
      its content type and fractions of a second ([CloudEvents.amqp_roundtrip]); what is encrypted is decrypted
      ([Crypto.encrypt_roundtrip]).
    - Outcomes: the loops of [Retry] and [Poll], [DoValue] of [Idempotency],
      [Run] of [Lifecycle], [process] of [Queue], [Try] and [Remember], reports of
      [Health], a JSON-RPC call ([JsonRpc.http_call_once]), on every branch, with
      the calls they make; the calls on a span, which is ended once
      ([Tracing.span_calls], [JetTracing.jet_span]); claims
      whose answers are lost or repeated
      ([IdempotencyRedis.redis_begin_lost], [IdempotencyRedis.redis_begin_retried]).
    - Liveness and termination: a rejected request is accepted after exactly
      [RetryAfter]; batcher, pool and stream drain after shutdown
      ([Batcher.batcher_drains], [ParallelPool.pool_drains],
      [ParallelStream.stream_ends]); [execute] returns
      ([Parallel.execute_terminates]); a worker finishes every task of its queue
      within its attempts ([Queue.worker_drains]), and its goroutines end
      ([QueueWorker.worker_ends]), as do those of a stopped UDP server
      ([Udp.udp_ends]) and a dispatch ([Fanout.dispatch_progress]); no wake-up of the debouncer is
      lost ([Debounce.debounce_wakes]); a stopping router finishes
      ([Signal.signal_stops]); [Acquire] takes a lock that is free
      ([LockerRedis.acquire_when_free]).
    - Exactness: 64-bit arithmetic of limits, backoffs and counters never wraps;
      [Merge] and [Subtract] are union and difference in normal form; [Is] decides
      wildcard matching; searches, grouping and chunking of [Slices] equal their
      specifications; a row of a query is on the page of its number
      ([GormScope.page_window]); reads take their drivers in turn
      ([Multidriver.round_robin_fair]); sizes below [2^53] bytes are shown exactly
      ([Support.size_exact]).

    Theorems about the limits of the code: [Strings.SubstrCount_overflow] (a
    length near the largest integer panics), [FilesystemLocal.copy_onto_itself]
    (a copy of a file onto itself empties it), [CacheRedis.flush_pattern_prefix]
    (a prefix with pattern characters flushes other prefixes),
    [Cache.utils_Get_order] (a result that depends on an evaluation order the
    language leaves open), [QueueRedis.redis_delay_early] (a delayed task moves
    before its time, by less than a microsecond: [QueueRedis.redis_delay_bounds]),
    [Pagination.last_page_overflow], [Jet.jet_call_race] (two calls at the same
    time run the middleware of one of them), [Support.pipe_error_lost] (a call
    loses its error to another), [JsonRpc.id_collision] (integers above [2^53]
    share an ID), [FilesystemObject.move_onto_itself] (a file moved to its own path
    is deleted), [QueueRabbit.delay_args_conflict] (two delays share a queue but
    not its arguments), [QueueRabbit.delay_early] (a delayed task is due up to a
    millisecond early), [CanalRedis.PositionDemo.get_overwrites] and
    [CanalRedis.PositionDemo.close_timer_again] (races of the buffered positioner),
    [Embedding.simple_keys_collide] (two models share a key),
    [Embedding.redis_get_order] (an evaluation order the language leaves open),
    [FilesystemObject.slash_key_listed] (a key that starts with a slash is listed as
    another), [IdempotencyRedis.redis_begin_retried] (a claim repeated by the client
    is refused to its owner), [CloudEvents.CloudEventsDemo.fraction_lost] (a time
    loses its fraction of a second),
    [CloudEvents.CloudEventsDemo.content_type_unread] and
    [CloudEvents.CloudEventsDemo.reopened_panics] (a content type the reader does
    not find, a receiver opened twice), [Otlp.hook_blocks_shutdown],
    [Multidriver.strict_overflow] (a call panics once its counter has wrapped),
    [GormScope.where_in_empty], [GormScope.page_overflow],
    [StringsText.replace_splits_runes] (an empty pattern is found between the bytes
    of a character), [Tracing.TracingDemo.panicked_span_ok] (a call that panics is
    traced as a success),
    [Crypto.encrypt_malleable] (a text changed on its way is decrypted) and
    [Globals.global_set_lost].

    ** Bounds and fuel

    Loops that the code runs to a condition take fuel.  [Retry.DoValue] uses the
    attempt limit, [Strings.Is] a bound proved sufficient, [Slices.Chunk] the
    length, [FilesystemLocal.LocalPut] the content length, of which every turn
    copies at least a byte, [QueueMemory.MemReceive] two turns, since the second
    finds the task the first waited for; [Poll.untilValue], [Queue.loop],
    [LockerRedis.Lock_Acquire], [CacheRedis.RedisFlush] and [QueueRedis.Receive],
    which spends one unit a turn, are stated for every fuel above the turn they
    stop at.  Theorems about them conclude that they
    return.  Transition systems end by a measure that every move decreases, and a
    proof that some move is possible until the end.  Integers are unbounded
    except where the code depends on their width; delivery attempts and indices
    stay far from the limits.  Instants are nanoseconds since Go's zero time, and
    [time.Time.Sub] saturates.  Numbers in Redis scripts are rounded to 53 bits;
    the theorems about the limiter's script hold for instants below [2^52]
    microseconds, where that is exact.

    ** What is not modelled

    Adapters whose behaviour is that of a library or a remote system (Gin, Chi,
    HTTP, cron and Kratos servers, configuration, and log output), codecs that only call libraries,
    package-level pointers, constraints and time zones, reflection, tools,
    generated code and examples.  Goroutine scheduling
    is modelled only as the order of the steps above; panics of callbacks only
    where the code recovers them.  Cluster and ring clients of the cache are left
    out, and so are nil functions and interfaces where the code would call them. *)

From stdpp Require Export base decidable option list list_numbers gmap strings sorting.
From stdpp Require Import options.
From Stdlib Require Export ZArith Lia.

(** ** Machine integers

    Go's [int], [int64] and [time.Duration] are 64-bit two's complement.  An
    operation whose overflow matters is written with [wrap64] around the exact
    result; division and remainder truncate towards zero ([Z.quot], [Z.rem]). *)

Declare Scope go_scope.
Delimit Scope go_scope with go.

Definition maxInt64 : Z := 9223372036854775807.
Definition minInt64 : Z := -9223372036854775808.

Definition wrap64 (z : Z) : Z :=
  (z + 9223372036854775808) mod 18446744073709551616 - 9223372036854775808.

Definition int64_ok (z : Z) : Prop := (minInt64 <= z <= maxInt64)%Z.

Notation "a +₆₄ b" := (wrap64 (a + b)%Z) (at level 50, left associativity) : go_scope.
Notation "a -₆₄ b" := (wrap64 (a - b)%Z) (at level 50, left associativity) : go_scope.
Notation "a *₆₄ b" := (wrap64 (a * b)%Z) (at level 40, left associativity) : go_scope.

(** Durations in nanoseconds. *)
Definition Microsecond : Z := 1000.
Definition Millisecond : Z := 1000000.
Definition Second : Z := 1000000000.
Definition Minute : Z := 60000000000.
Definition Hour : Z := 3600000000000.

(** A [time.Time] is the number of nanoseconds since Go's zero time, so
    [zeroTime] is the value [time.Time{}] and [IsZero] is [= zeroTime].  The
    calendar and the monotonic clock play no part in any modelled comparison. *)
Definition zeroTime : Z := 0.

(** [time.Time.Sub] saturates at the ends of the [Duration] range. *)
Definition time_sub (t u : Z) : Z :=
  if decide (int64_ok (t - u)) then (t - u)%Z
  else if (t <? u)%Z then minInt64 else maxInt64.

(** ** Tactics *)

(** Split on every boolean comparison of integers or naturals in sight. *)
Ltac bcase_one :=
  match goal with
  | |- context [Z.ltb ?a ?b] => destruct (Z.ltb_spec a b)
  | |- context [Z.leb ?a ?b] => destruct (Z.leb_spec a b)
  | |- context [Z.gtb ?a ?b] => rewrite (Z.gtb_ltb a b)
  | |- context [Z.geb ?a ?b] => rewrite (Z.geb_leb a b)
  | |- context [Z.eqb ?a ?b] => destruct (Z.eqb_spec a b)
  | |- context [Nat.ltb ?a ?b] => destruct (Nat.ltb_spec a b)
  | |- context [Nat.leb ?a ?b] => destruct (Nat.leb_spec a b)
  | |- context [Nat.eqb ?a ?b] => destruct (Nat.eqb_spec a b)
  | H : context [Z.ltb ?a ?b] |- _ => destruct (Z.ltb_spec a b)
  | H : context [Z.leb ?a ?b] |- _ => destruct (Z.leb_spec a b)
  | H : context [Z.gtb ?a ?b] |- _ => rewrite (Z.gtb_ltb a b) in H
  | H : context [Z.geb ?a ?b] |- _ => rewrite (Z.geb_leb a b) in H
  | H : context [Z.eqb ?a ?b] |- _ => destruct (Z.eqb_spec a b)
  | H : context [Nat.ltb ?a ?b] |- _ => destruct (Nat.ltb_spec a b)
  | H : context [Nat.leb ?a ?b] |- _ => destruct (Nat.leb_spec a b)
  | H : context [Nat.eqb ?a ?b] |- _ => destruct (Nat.eqb_spec a b)
  end.
Ltac bcase := repeat (bcase_one; simpl in *).

(** Close the arithmetic left over by a case split. *)
Ltac bsolve := bcase; try congruence; try lia; auto.

(** Unfold the machine-integer bounds so that [lia] sees numerals. *)
Ltac int64_unfold := unfold int64_ok, minInt64, maxInt64 in *.
Ltac int_lia := int64_unfold; lia.

Create HintDb go.
Create Rewrite HintDb go.

(** ** Integers *)

Lemma wrap64_id z : int64_ok z -> wrap64 z = z.
Proof. int64_unfold; intros; unfold wrap64. rewrite Z.mod_small; lia. Qed.

Lemma wrap64_ok z : int64_ok (wrap64 z).
Proof.
  unfold wrap64. int64_unfold.
  pose proof (Z.mod_pos_bound (z + 9223372036854775808) 18446744073709551616).
  lia.
Qed.

#[export] Hint Rewrite wrap64_id using (int64_unfold; lia) : go.
#[export] Hint Resolve wrap64_ok : go.

Lemma time_sub_small t u : int64_ok (t - u) -> time_sub t u = (t - u)%Z.
Proof. intros. unfold time_sub. by rewrite decide_True. Qed.

(** Truncated division agrees with floor division on the non-negative values
    the code divides. *)
Lemma quot_div_nonneg a b : (0 <= a)%Z -> (0 < b)%Z -> Z.quot a b = (a / b)%Z.
Proof. intros. by apply Z.quot_div_nonneg. Qed.

Lemma rem_mod_nonneg a b : (0 <= a)%Z -> (0 < b)%Z -> Z.rem a b = (a mod b)%Z.
Proof. intros. by apply Z.rem_mod_nonneg. Qed.

(** ** Lists *)

Section Lists.
Context {A B : Type}.

(** A loop that only appends is a left fold that extends its accumulator. *)
Lemma foldl_append (f : A -> list B) (l : list A) (acc : list B) :
  foldl (fun r x => r ++ f x) acc l = acc ++ concat (f <$> l).
Proof.
  revert acc. induction l as [|x l IH]; intros acc; simpl.
  - by rewrite app_nil_r.
  - by rewrite IH, <- (assoc_L (++)).
Qed.

Lemma Sorted_app_r (R : A -> A -> Prop) (l1 l2 : list A) :
  Sorted R (l1 ++ l2) -> Sorted R l2.
Proof.
  induction l1 as [|x l1 IH]; simpl; [done|]. intros H. inversion H; auto.
Qed.

Lemma Sorted_app_l (R : A -> A -> Prop) (l1 l2 : list A) :
  Sorted R (l1 ++ l2) -> Sorted R l1.
Proof.
  induction l1 as [|x l1 IH]; simpl; [constructor|].
  intros H. inversion H as [|?? Hs Hh]; subst. constructor; [auto|].
  destruct l1; constructor. by inversion Hh.
Qed.

Lemma Sorted_snoc (R : A -> A -> Prop) (l : list A) (x : A) :
  Sorted R l -> (forall y, last l = Some y -> R y x) -> Sorted R (l ++ [x]).
Proof.
  intros Hs Hl. induction l as [|y l IH]; simpl; [repeat constructor|].
  inversion Hs as [|?? Hs' Hh]; subst. constructor.
  - apply IH; [done|]. intros z Hz. apply Hl. destruct l; done.
  - destruct l; simpl; constructor; [by apply Hl|by inversion Hh].
Qed.

(** Updating the element just after a prefix. *)
Lemma insert_app_snoc (l r : list A) (x y : A) :
  <[length l:=y]> (l ++ x :: r) = l ++ y :: r.
Proof. induction l; simpl; congruence. Qed.

(** Replacing an element, in the sum of a measure and in a concatenation. *)
Lemma sum_list_with_insert (f : A -> nat) (l : list A) i x y :
  l !! i = Some x -> sum_list_with f (<[i := y]> l) + f x = sum_list_with f l + f y.
Proof.
  revert i. induction l as [|z l IH]; intros [|i]; simpl; [done|done|intros [= ->]; lia|].
  intros H%IH. lia.
Qed.

Lemma bind_insert_perm (f : A -> list B) (l : list A) i x y :
  l !! i = Some x -> Permutation (f x ++ (<[i := y]> l ≫= f)) (f y ++ (l ≫= f)).
Proof.
  revert i. induction l as [|z l IH]; intros [|i]; [done|done| |]; cbn [insert list_insert lookup list_lookup].
  - intros [= ->]. rewrite !bind_cons, !app_assoc. apply Permutation_app_tail, Permutation_app_comm.
  - intros H%IH. rewrite !bind_cons, !app_assoc. rewrite (Permutation_app_comm (f x)), (Permutation_app_comm (f y)).
    rewrite <- !app_assoc. by apply Permutation_app_head.
Qed.

Lemma lookup_snoc_length (l r : list A) (x : A) :
  (l ++ x :: r) !! length l = Some x.
Proof. induction l; simpl; auto. Qed.
End Lists.

(** ** Strings *)

Lemma length_append (a b : string) : String.length (a +:+ b) = (String.length a + String.length b)%nat.
Proof. induction a as [|x a IH]; simpl; [done|]. by rewrite IH. Qed.

Lemma append_assoc (a b c : string) : (a +:+ b) +:+ c = a +:+ (b +:+ c).
Proof. induction a as [|x a IH]; [done|]. change (String x ((a +:+ b) +:+ c) = String x (a +:+ (b +:+ c))). by rewrite IH. Qed.

Lemma append_nil_r (a : string) : a +:+ "" = a.
Proof. induction a as [|x a IH]; [done|]. change (String x (a +:+ "") = String x a). by rewrite IH. Qed.

Lemma append_inv_r (a b s : string) : a +:+ s = b +:+ s -> a = b.
Proof.
  revert b. induction a as [|x a IH]; intros [|y b] Heq; [done| | |].
  1, 2: apply (f_equal String.length) in Heq; rewrite !length_append in Heq; cbn [String.length] in Heq; lia.
  simpl in Heq. injection Heq as -> Heq. by rewrite (IH _ Heq).
Qed.
