(* ===== verification/GoErrors.v ===== *)
(** * Go errors and contexts

    The error values the packages create and inspect, with the traversals of
    the standard [errors] package, and contexts as what successive checks of
    them observe.  Used by every component that returns errors. *)

From S2P Require Import Prelude.
From stdpp Require Import options.

(** ** Error values

    [ErrNew] is a package-level [errors.New] value, identified by its name, so
    that equality of the model is the identity the code compares.  [ErrMsg] is
    an error made on the spot without [%w], [ErrWrapf] one made by
    [fmt.Errorf] with a [%w], [ErrJoin] a non-empty [errors.Join].  [ErrStruct]
    is a pointer to an error type that wraps another error and carries a code.
    The other constructors are the error types of [src/retry] and [src/queue]. *)
#[warnings="-register-all"]
Inductive error :=
| ErrNew (name : string)
| ErrMsg (msg : string)
| ErrWrapf (msg : string) (err : error)
| ErrJoin (errs : list error)
| ErrStruct (type : string) (code : Z) (msg : string) (err : error)
| permanentError (err : error)
| afterError (delay : Z) (err : error)
| retryAfterError (delay : Z)
| deadLetterError (reason : string).

Definition Canceled : error := ErrNew "context canceled".
Definition DeadlineExceeded : error := ErrNew "context deadline exceeded".

(** [errors.Is(err, target)] for a package-level target: pre-order search of
    the tree of wrapped errors. *)
Fixpoint errors_Is (err : error) (target : string) : bool :=
  match err with
  | ErrNew name => bool_decide (name = target)
  | ErrMsg _ | retryAfterError _ | deadLetterError _ => false
  | ErrWrapf _ e | ErrStruct _ _ _ e | permanentError e | afterError _ e => errors_Is e target
  | ErrJoin es => existsb (fun e => errors_Is e target) es
  end.

(** [errors.AsType[E](err)]: the first error in pre-order that [is_e] accepts. *)
Fixpoint errors_As {A} (is_e : error -> option A) (err : error) : option A :=
  match is_e err with
  | Some a => Some a
  | None =>
      match err with
      | ErrWrapf _ e | ErrStruct _ _ _ e | permanentError e | afterError _ e => errors_As is_e e
      | ErrJoin es =>
          fold_right (fun e rest => match errors_As is_e e with Some a => Some a | None => rest end)
            None es
      | _ => None
      end
  end.

(** [errors.Join(errs...)]: nil errors are dropped, and an empty join is nil. *)
Definition errors_Join (errs : list (option error)) : option error :=
  match omap id errs with
  | [] => None
  | es => Some (ErrJoin es)
  end.

(** ** Contexts

    A context is read at successive points of a call; it is modelled by what
    the [n]-th check sees: nothing, or that it is done, with the values of
    [ctx.Err()] and [context.Cause(ctx)]. *)
Record ctx_done := mkDone { done_err : error; done_cause : error }.
Definition context := nat -> option ctx_done.

Definition Background : context := fun _ => None.
Definition ctx_Err (c : context) (n : nat) : option error := done_err <$> c n.
Definition Cause (c : context) (n : nat) : option error := done_cause <$> c n.

(** A done context stays done, with the same error. *)
Definition ctx_stable (c : context) : Prop :=
  forall n m d, n <= m -> c n = Some d -> c m = Some d.

(** The context seen from the [n]-th check on. *)
Definition ctx_from (c : context) (n : nat) : context := fun k => c (n + k).

(** [context.WithoutCancel]: values only. *)
Definition WithoutCancel (c : context) : context := fun _ => None.

Lemma Background_stable : ctx_stable Background.
Proof. intros n m d _ H. done. Qed.

Lemma ctx_from_stable c n : ctx_stable c -> ctx_stable (ctx_from c n).
Proof. intros H i j d Hij. apply H. lia. Qed.

#[export] Hint Resolve Background_stable ctx_from_stable : go.

Section Induction.
Variable P : error -> Prop.
Hypothesis P_new : forall n, P (ErrNew n).
Hypothesis P_msg : forall m, P (ErrMsg m).
Hypothesis P_wrap : forall m e, P e -> P (ErrWrapf m e).
Hypothesis P_join : forall es, Forall P es -> P (ErrJoin es).
Hypothesis P_struct : forall t c m e, P e -> P (ErrStruct t c m e).
Hypothesis P_perm : forall e, P e -> P (permanentError e).
Hypothesis P_after : forall d e, P e -> P (afterError d e).
Hypothesis P_retry : forall d, P (retryAfterError d).
Hypothesis P_dead : forall r, P (deadLetterError r).

Fixpoint error_tree_ind (e : error) : P e :=
  match e with
  | ErrNew n => P_new n
  | ErrMsg m => P_msg m
  | ErrWrapf m e => P_wrap m e (error_tree_ind e)
  | ErrJoin es =>
      P_join es ((fix all (l : list error) : Forall P l :=
                    match l with
                    | [] => Forall_nil_2 _
                    | x :: l' => Forall_cons_2 _ x l' (error_tree_ind x) (all l')
                    end) es)
  | ErrStruct t c m e => P_struct t c m e (error_tree_ind e)
  | permanentError e => P_perm e (error_tree_ind e)
  | afterError d e => P_after d e (error_tree_ind e)
  | retryAfterError d => P_retry d
  | deadLetterError r => P_dead r
  end.
End Induction.

(** The values wrapped by an error, as a relation; [errors_Is] decides
    reachability of the target along it. *)
Inductive wraps : error -> error -> Prop :=
| wraps_refl e : wraps e e
| wraps_wrapf m e e' : wraps e e' -> wraps (ErrWrapf m e) e'
| wraps_join es e e' : e ∈ es -> wraps e e' -> wraps (ErrJoin es) e'
| wraps_struct t c m e e' : wraps e e' -> wraps (ErrStruct t c m e) e'
| wraps_perm e e' : wraps e e' -> wraps (permanentError e) e'
| wraps_after d e e' : wraps e e' -> wraps (afterError d e) e'.

#[export] Hint Constructors wraps : go.

Lemma errors_Is_spec err target :
  errors_Is err target = true <-> wraps err (ErrNew target).
Proof.
  induction err using error_tree_ind; simpl;
    try (split; [done|intros Hw; by inversion Hw]).
  - rewrite bool_decide_eq_true. split; [intros ->; constructor|].
    intros Hw. by inversion Hw.
  - rewrite IHerr. split; [auto with go|]. intros Hw; by inversion Hw.
  - rewrite existsb_exists. setoid_rewrite <- list_elem_of_In.
    rewrite Forall_forall in H. split.
    + intros (e & He & Hi). apply wraps_join with e; [done|]. by apply H.
    + intros Hw. inversion Hw; subst. eexists. split; [done|]. by apply H.
  - rewrite IHerr. split; [auto with go|]. intros Hw; by inversion Hw.
  - rewrite IHerr. split; [auto with go|]. intros Hw; by inversion Hw.
  - rewrite IHerr. split; [auto with go|]. intros Hw; by inversion Hw.
Qed.

Lemma errors_As_None {A} (is_e : error -> option A) err :
  errors_As is_e err = None <-> (forall e, wraps err e -> is_e e = None).
Proof.
  split.
  - intros H e Hw. revert H.
    assert (Hhead : forall x, errors_As is_e x = None -> is_e x = None).
    { intros x Hx. destruct x; simpl in Hx; destruct (is_e _); congruence. }
    induction Hw as [|m e e' _ IH|es e e' Hin _ IH|t c m e e' _ IH|e e' _ IH|d e e' _ IH]; intros H;
      [by apply Hhead|..]; pose proof (Hhead _ H) as E; simpl in H; rewrite E in H;
      apply IH; try done.
    clear -H Hin. induction es as [|x es IH]; [by apply not_elem_of_nil in Hin|].
    simpl in *. destruct (errors_As is_e x) eqn:Ex; [done|].
    apply elem_of_cons in Hin as [->|Hin]; auto.
  - induction err using error_tree_ind; intros Hall; simpl; rewrite (Hall _ (wraps_refl _)); auto;
      try (apply IHerr; intros; apply Hall; auto with go).
    assert (Hes : forall e, e ∈ es -> errors_As is_e e = None).
    { intros e He. rewrite Forall_forall in H. apply H; [done|].
      intros e' He'. apply Hall. by apply wraps_join with e. }
    clear H Hall. induction es as [|x es IH]; [done|]. simpl.
    rewrite (Hes x) by left. apply IH. intros e He. apply Hes. by right.
Qed.

Lemma errors_Join_None errs : errors_Join errs = None <-> Forall (fun e => e = None) errs.
Proof.
  unfold errors_Join. induction errs as [|[e|] errs IH]; simpl.
  - by split; [constructor|].
  - split; [done|]. intros Hf. inversion Hf. done.
  - rewrite Forall_cons, <- IH. by intuition.
Qed.
