(* ===== verification/GoHeap.v ===== *)
(** * Go's [container/heap] over an interface

    [src/ratelimit/memory/store.go] keeps its expirations in a slice ordered by
    the standard library's [container/heap], which drives the slice only through
    [Len], [Less], [Swap], [Push] and [Pop].  The algorithms are written here
    against that interface ([heap_interface]); the theorems need only that
    [Less] compares a list of integer keys and that [Swap] exchanges two of
    them ([HeapLaws]), which the store discharges for its own operations. *)

From S2P Require Import Prelude.
From stdpp Require Import options.
Set Default Proof Using "Type*".

(** ** The algorithms *)

Record heap_interface (S : Type) := {
  hLen : S -> nat;
  hLess : S -> nat -> nat -> bool;
  hSwap : S -> nat -> nat -> S
}.
Arguments hLen {_} _ _.
Arguments hLess {_} _ _ _ _.
Arguments hSwap {_} _ _ _ _.

Definition parent (j : nat) : nat := (j - 1) / 2.

Section Algorithms.
Context {S : Type} (H : heap_interface S).

(** The loop of [up]; [j] strictly decreases, so [j] iterations suffice. *)
Fixpoint up_loop (fuel : nat) (h : S) (j : nat) : S :=
  match fuel with
  | 0 => h
  | Datatypes.S fuel =>
      let i := parent j in
      if (i =? j) || negb (hLess H h j i) then h
      else up_loop fuel (hSwap H h i j) i
  end.
Definition up (h : S) (j : nat) : S := up_loop (Datatypes.S j) h j.

(** The child [down] compares with: the right one if it is smaller. *)
Definition smaller_child (h : S) (i n : nat) : nat :=
  let j1 := 2 * i + 1 in
  if (j1 + 1 <? n) && hLess H h (j1 + 1) j1 then j1 + 1 else j1.

(** The loop of [down]; [i] strictly increases and stays below [n]. *)
Fixpoint down_loop (fuel : nat) (h : S) (i n : nat) : S * nat :=
  match fuel with
  | 0 => (h, i)
  | Datatypes.S fuel =>
      if n <=? 2 * i + 1 then (h, i)
      else
        let j := smaller_child h i n in
        if negb (hLess H h j i) then (h, i)
        else down_loop fuel (hSwap H h i j) j n
  end.
Definition down (h : S) (i0 n : nat) : S * bool :=
  let '(h', i) := down_loop n h i0 n in (h', i0 <? i).

(** [heap.Fix], and the parts of [heap.Push], [heap.Pop] and [heap.Remove]
    that run before or after the interface's own [Push] and [Pop]. *)
Definition Fix (h : S) (i : nat) : S :=
  let '(h', moved) := down h i (hLen H h) in
  if moved then h' else up h' i.

Definition push_fix (h : S) : S := up h (hLen H h - 1).

Definition pop_prepare (h : S) : S :=
  let n := hLen H h - 1 in
  fst (down (hSwap H h 0 n) 0 n).

Definition remove_prepare (h : S) (i : nat) : S :=
  let n := hLen H h - 1 in
  if n =? i then h
  else
    let '(h', moved) := down (hSwap H h i n) i n in
    if moved then h' else up h' i.
End Algorithms.

(** ** Keys and heap order *)

Definition swap_list {A} (l : list A) (i j : nat) : list A :=
  match l !! i, l !! j with
  | Some x, Some y => <[j := x]> (<[i := y]> l)
  | _, _ => l
  end.

(** [n] leading keys in heap order. *)
Definition heap_upto (k : list Z) (n : nat) : Prop :=
  forall c, 0 < c < n -> (k !!! parent c <= k !!! c)%Z.
Definition heap_ordered (k : list Z) : Prop := heap_upto k (length k).

Class HeapLaws {S} (H : heap_interface S) (keys : S -> list Z) (I : S -> Prop) := {
  law_len s : I s -> hLen H s = length (keys s);
  law_less s i j : I s -> i < length (keys s) -> j < length (keys s) ->
    hLess H s i j = (keys s !!! i <? keys s !!! j)%Z;
  law_swap s i j : I s -> i < length (keys s) -> j < length (keys s) ->
    I (hSwap H s i j) /\ keys (hSwap H s i j) = swap_list (keys s) i j
}.

Lemma parent_lt c : 0 < c -> parent c < c.
Proof. unfold parent. intros. apply Nat.Div0.div_lt_upper_bound; lia. Qed.

Lemma parent_child c : 0 < c -> c = 2 * parent c + 1 \/ c = 2 * parent c + 2.
Proof.
  unfold parent. intros. pose proof (Nat.div_mod_eq (c - 1) 2).
  pose proof (Nat.mod_upper_bound (c - 1) 2). lia.
Qed.

Lemma parent_left i : parent (2 * i + 1) = i.
Proof. unfold parent. replace (2 * i + 1 - 1) with (i * 2) by lia. by apply Nat.div_mul. Qed.

Lemma parent_right i : parent (2 * i + 1 + 1) = i.
Proof.
  destruct (parent_child (2 * i + 1 + 1)); lia.
Qed.

Lemma swap_list_length {A} (l : list A) i j : length (swap_list l i j) = length l.
Proof. unfold swap_list. repeat case_match; rewrite ?length_insert; done. Qed.

Lemma swap_list_lookup (l : list Z) i j c :
  i < length l -> j < length l ->
  swap_list l i j !!! c =
    if decide (c = j) then l !!! i else if decide (c = i) then l !!! j else l !!! c.
Proof.
  intros Hi Hj. unfold swap_list.
  destruct (lookup_lt_is_Some_2 l i Hi) as [x Hx], (lookup_lt_is_Some_2 l j Hj) as [y Hy].
  rewrite Hx, Hy, (list_lookup_total_correct _ _ _ Hx), (list_lookup_total_correct _ _ _ Hy).
  repeat case_decide; subst.
  - apply list_lookup_total_insert_eq. rewrite length_insert. done.
  - rewrite list_lookup_total_insert_ne by done. by apply list_lookup_total_insert_eq.
  - by rewrite !list_lookup_total_insert_ne by done.
Qed.

Lemma swap_list_perm {A} (l : list A) i j : swap_list l i j ≡ₚ l.
Proof.
  unfold swap_list. repeat case_match; try done. by apply Permutation_insert_swap.
Qed.

(** Order conditions around one displaced position [i]: everything else is in
    order, and the children of [i] are in order with the parent of [i]. *)
Definition grand_ok (k : list Z) (n i : nat) : Prop :=
  forall c, 0 < c < n -> parent c = i -> 0 < i -> (k !!! parent i <= k !!! c)%Z.
(** ... displaced towards its parent, *)
Definition above_at (k : list Z) (n j : nat) : Prop :=
  (forall c, 0 < c < n -> c <> j -> (k !!! parent c <= k !!! c)%Z) /\ grand_ok k n j.
(** ... towards its children, *)
Definition below_at (k : list Z) (n i : nat) : Prop :=
  (forall c, 0 < c < n -> parent c <> i -> (k !!! parent c <= k !!! c)%Z) /\ grand_ok k n i.
(** ... or in either direction. *)
Definition around (k : list Z) (n i : nat) : Prop :=
  (forall c, 0 < c < n -> c <> i -> parent c <> i -> (k !!! parent c <= k !!! c)%Z)
  /\ grand_ok k n i.

Lemma above_swap k n j :
  0 < j < n -> n <= length k -> above_at k n j -> (k !!! j < k !!! parent j)%Z ->
  above_at (swap_list k (parent j) j) n (parent j).
Proof.
  intros Hj Hn [Hord Hg] Hlt. pose proof (parent_lt j).
  assert (Hl : forall c, swap_list k (parent j) j !!! c =
     if decide (c = j) then k !!! parent j else if decide (c = parent j) then k !!! j else k !!! c)
    by (intros; apply swap_list_lookup; lia).
  split.
  - intros c Hc Hne. rewrite !Hl. pose proof (parent_lt c).
    repeat case_decide; subst; try lia.
    + apply Hg; auto; lia.
    + specialize (Hord c Hc ltac:(lia)). replace (parent c) with (parent j) in Hord by done. lia.
    + apply Hord; lia.
  - intros c Hc Hpc Hpos. rewrite !Hl. pose proof (parent_lt (parent j)).
    assert (parent (parent j) <> j) by lia.
    assert (k !!! parent (parent j) <= k !!! parent j)%Z by (apply Hord; lia).
    repeat case_decide; subst; try lia.
    assert (Hcc : (k !!! parent c <= k !!! c)%Z) by (apply Hord; lia).
    rewrite Hpc in Hcc. lia.
Qed.

Lemma below_swap k n i j :
  j < n -> n <= length k -> parent j = i -> 0 < j ->
  (forall c, 0 < c < n -> c <> i -> parent c <> i -> (k !!! parent c <= k !!! c)%Z) ->
  grand_ok k n i ->
  (forall c, 0 < c < n -> parent c = i -> (k !!! j <= k !!! c)%Z) ->
  (k !!! j < k !!! i)%Z ->
  below_at (swap_list k i j) n j.
Proof.
  intros Hj Hn Hp Hpos Hord Hg Hmin Hlt. pose proof (parent_lt j).
  assert (Hl : forall c, swap_list k i j !!! c =
     if decide (c = j) then k !!! i else if decide (c = i) then k !!! j else k !!! c)
    by (intros; apply swap_list_lookup; lia).
  split.
  - intros c Hc Hne. rewrite !Hl. pose proof (parent_lt c).
    repeat case_decide; subst; try lia.
    + apply Hmin; [lia|done].
    + apply Hg; [lia|done|lia].
    + apply Hord; [lia|congruence|congruence].
  - intros c Hc Hpc _. rewrite !Hl, Hp. pose proof (parent_lt c).
    repeat case_decide; subst; try lia.
    apply Hord; lia.
Qed.

Section Correct.
Context {S : Type} (H : heap_interface S) (keys : S -> list Z) (I : S -> Prop).
Context `{!HeapLaws H keys I}.

(** What a run of [up] or [down] that swaps only below [n] may do. *)
Definition swaps_below (n : nat) (s s' : S) : Prop :=
  I s' /\ length (keys s') = length (keys s) /\ keys s' ≡ₚ keys s /\
  (forall P : S -> Prop,
     (forall x i j, I x -> P x -> length (keys x) = length (keys s) ->
                    i < n -> j < n -> P (hSwap H x i j)) ->
     P s -> P s').

Lemma swaps_refl n s : I s -> swaps_below n s s.
Proof. unfold swaps_below. auto. Qed.

Lemma swaps_step n s s' i j :
  I s -> i < n -> j < n -> n <= length (keys s) ->
  swaps_below n (hSwap H s i j) s' -> swaps_below n s s'.
Proof.
  intros Hs Hi Hj Hn (Hs' & Hl & Hp & HP).
  destruct (law_swap s i j Hs) as [_ Hk]; [lia..|]. rewrite Hk in *.
  rewrite swap_list_length in Hl. split_and!; [done|done| |].
  - rewrite Hp. apply swap_list_perm.
  - intros P Hstep HPs. apply HP; [|by apply Hstep].
    intros x a b Hx HPx Hlx Ha Hb. apply Hstep; auto. by rewrite swap_list_length in Hlx.
Qed.

Lemma swaps_trans n s1 s2 s3 :
  swaps_below n s1 s2 -> swaps_below n s2 s3 -> swaps_below n s1 s3.
Proof.
  intros (I2 & L2 & P2 & Q2) (I3 & L3 & P3 & Q3). split_and!; [done|congruence| |].
  - by rewrite P3.
  - intros P Hstep HP. apply Q3; [|by apply Q2].
    intros x i j Hx HPx Hlx. apply Hstep; auto. congruence.
Qed.

Lemma up_loop_spec fuel s j n :
  I s -> j < fuel -> j < n -> n <= length (keys s) -> above_at (keys s) n j ->
  swaps_below n s (up_loop H fuel s j) /\ heap_upto (keys (up_loop H fuel s j)) n.
Proof.
  revert s j. induction fuel as [|fuel IH]; intros s j Hs Hf Hj Hn Hab; [lia|]. simpl.
  destruct (Nat.eqb_spec (parent j) j) as [E|E]; simpl.
  { split; [by apply swaps_refl|]. destruct Hab as [Hord _]. intros c Hc. apply Hord; [done|].
    pose proof (parent_lt c). intros ->. lia. }
  assert (0 < j) by (destruct j; [done|lia]). pose proof (parent_lt j).
  rewrite law_less by (done || lia).
  destruct (Z.ltb_spec (keys s !!! j) (keys s !!! parent j)); simpl.
  - destruct (law_swap s (parent j) j Hs) as [Hi Hk]; [lia..|].
    destruct (IH (hSwap H s (parent j) j) (parent j)) as [Hsw Hh];
      [done|lia|lia|rewrite Hk, swap_list_length; lia|rewrite Hk; apply above_swap; auto; lia|].
    split; [|done]. eapply swaps_step, Hsw; done || lia.
  - split; [by apply swaps_refl|]. destruct Hab as [Hord _]. intros c Hc.
    destruct (decide (c = j)) as [->|]; [lia|by apply Hord].
Qed.

Lemma up_spec s j n :
  I s -> j < n -> n <= length (keys s) -> above_at (keys s) n j ->
  swaps_below n s (up H s j) /\ heap_upto (keys (up H s j)) n.
Proof. intros. apply up_loop_spec; auto; lia. Qed.

Lemma min_child s i n :
  I s -> n <= length (keys s) -> 2 * i + 1 < n ->
  let j := smaller_child H s i n in
  j < n /\ parent j = i /\ i < j /\
  (forall c, 0 < c < n -> parent c = i -> (keys s !!! j <= keys s !!! c)%Z).
Proof.
  intros Hs Hn Hj.
  assert (Hc : forall c, 0 < c -> parent c = i -> c = 2 * i + 1 \/ c = 2 * i + 1 + 1).
  { intros c Hc <-. pose proof (parent_child c Hc). lia. }
  unfold smaller_child. cbv zeta. destruct (Nat.ltb_spec (2 * i + 1 + 1) n); cbn [andb].
  - rewrite law_less by (done || lia).
    destruct (Z.ltb_spec (keys s !!! (2 * i + 1 + 1)) (keys s !!! (2 * i + 1)));
      (split_and!; [lia|auto using parent_left, parent_right|lia|]);
      intros c Hc1 Hc2; destruct (Hc c ltac:(lia) Hc2) as [->| ->]; lia.
  - split_and!; [lia|apply parent_left|lia|].
    intros c Hc1 Hc2. destruct (Hc c ltac:(lia) Hc2) as [->| ->]; lia.
Qed.

Lemma down_loop_spec fuel s i n :
  I s -> n <= fuel + i -> n <= length (keys s) -> below_at (keys s) n i ->
  let '(s', i') := down_loop H fuel s i n in
  swaps_below n s s' /\ heap_upto (keys s') n /\ i <= i'.
Proof.
  revert s i. induction fuel as [|fuel IH]; intros s i Hs Hf Hn [Hord Hg]; simpl.
  { split_and!; [by apply swaps_refl| |lia]. intros c Hc. apply Hord; [done|].
    pose proof (parent_lt c). lia. }
  destruct (Nat.leb_spec n (i + (i + 0) + 1)).
  { split_and!; [by apply swaps_refl| |lia]. intros c Hc. apply Hord; [done|].
    pose proof (parent_child c). lia. }
  pose proof (min_child s i n Hs Hn ltac:(lia)) as (Hj & Hp & Hij & Hmin).
  set (j := smaller_child H s i _) in *.
  rewrite law_less by (done || lia).
  destruct (Z.ltb_spec (keys s !!! j) (keys s !!! i)); simpl.
  - destruct (law_swap s i j Hs) as [Hi' Hk]; [lia..|].
    specialize (IH (hSwap H s i j) j). destruct (down_loop _ _ _ _ _) as [s' i'].
    destruct IH as (Hsw & Hh & Hle); [done|lia|rewrite Hk, swap_list_length; lia| |].
    { rewrite Hk. apply below_swap; auto; lia. }
    split_and!; [eapply swaps_step, Hsw; done || lia|done|lia].
  - split_and!; [by apply swaps_refl| |lia]. intros c Hc.
    destruct (decide (parent c = i)) as [Hpc|]; [|by apply Hord].
    specialize (Hmin c Hc Hpc). rewrite Hpc. lia.
Qed.

(** [down] from a displaced position: either it moved and the order holds, or
    nothing changed and only the link to the parent may be wrong. *)
Lemma down_spec s i n :
  I s -> i < n -> n <= length (keys s) -> around (keys s) n i ->
  let '(s', moved) := down H s i n in
  swaps_below n s s' /\
  (moved = true -> heap_upto (keys s') n) /\
  (moved = false -> s' = s /\ above_at (keys s) n i).
Proof.
  intros Hs Hi Hn [Hord Hg]. unfold down.
  destruct n as [|n]; [lia|]. cbn [down_loop].
  destruct (Nat.leb_spec (Datatypes.S n) (2 * i + 1)).
  { rewrite Nat.ltb_irrefl. split_and!; [by apply swaps_refl|done|]. intros _. split; [done|].
    split; [|done]. intros c Hc Hne. apply Hord; [done|done|].
    pose proof (parent_child c). lia. }
  pose proof (min_child s i (Datatypes.S n) Hs Hn ltac:(lia)) as (Hj & Hp & Hij & Hmin).
  set (j := smaller_child H s i _) in *.
  rewrite law_less by (done || lia).
  destruct (Z.ltb_spec (keys s !!! j) (keys s !!! i)); cbn [negb].
  - destruct (law_swap s i j Hs) as [Hi' Hk]; [lia..|].
    pose proof (down_loop_spec n (hSwap H s i j) j (Datatypes.S n)) as D.
    destruct (down_loop _ _ _ _ _) as [s' i'].
    destruct D as (Hsw & Hh & Hle); [done|lia|rewrite Hk, swap_list_length; lia| |].
    { rewrite Hk. apply below_swap; auto; lia. }
    destruct (Nat.ltb_spec i i'); [|lia].
    split_and!; [eapply swaps_step, Hsw; done || lia|done|done].
  - rewrite Nat.ltb_irrefl. split_and!; [by apply swaps_refl|done|]. intros _. split; [done|].
    split; [|done]. intros c Hc Hne.
    destruct (decide (parent c = i)) as [Hpc|]; [|by apply Hord].
    specialize (Hmin c Hc Hpc). rewrite Hpc. lia.
Qed.

Lemma down_up_spec s i n :
  I s -> i < n -> n <= length (keys s) -> around (keys s) n i ->
  let r := let '(s', moved) := down H s i n in if moved then s' else up H s' i in
  swaps_below n s r /\ heap_upto (keys r) n.
Proof.
  intros Hs Hi Hn Har. pose proof (down_spec s i n Hs Hi Hn Har) as D.
  destruct (down H s i n) as [s' moved]. destruct D as (Hsw & Ht & Hf).
  destruct moved; simpl; [auto|]. destruct Hf as [-> Hab]; [done|]. by apply up_spec.
Qed.

(** ** The interface functions *)

Lemma Fix_spec s i :
  I s -> i < length (keys s) -> around (keys s) (length (keys s)) i ->
  swaps_below (length (keys s)) s (Fix H s i) /\ heap_ordered (keys (Fix H s i)).
Proof.
  intros Hs Hi Har. unfold Fix. rewrite law_len by done.
  destruct (down_up_spec s i (length (keys s))) as [Hsw Hh]; [done..|].
  split; [done|]. unfold heap_ordered. destruct Hsw as (_ & -> & _). done.
Qed.

Lemma push_fix_spec s :
  I s -> 0 < length (keys s) -> heap_upto (keys s) (length (keys s) - 1) ->
  swaps_below (length (keys s)) s (push_fix H s) /\ heap_ordered (keys (push_fix H s)).
Proof.
  intros Hs Hlen Hh. unfold push_fix. rewrite law_len by done.
  destruct (up_spec s (length (keys s) - 1) (length (keys s))) as [Hsw Hu]; [done|lia|lia| |].
  { split.
    - intros c Hc Hne. apply Hh. lia.
    - intros c Hc Hpc. pose proof (parent_lt c). lia. }
  split; [done|]. unfold heap_ordered. destruct Hsw as (_ & -> & _). done.
Qed.

(** Exchanging position [i] with the last one displaces only [i] among the
    rest. *)
Lemma around_swap_last k i :
  heap_ordered k -> i < length k - 1 ->
  around (swap_list k i (length k - 1)) (length k - 1) i.
Proof.
  intros Hh Hi. set (n := length k - 1).
  assert (Hl : forall c, swap_list k i n !!! c =
     if decide (c = n) then k !!! i else if decide (c = i) then k !!! n else k !!! c)
    by (intros; apply swap_list_lookup; lia).
  split.
  - intros c Hc Hne Hpc. rewrite !Hl. pose proof (parent_lt c).
    repeat case_decide; try lia. apply Hh. lia.
  - intros c Hc Hpc Hpos. rewrite !Hl. pose proof (parent_lt c). pose proof (parent_lt i).
    repeat case_decide; try lia. apply Z.le_trans with (k !!! i); [apply Hh; lia|].
    rewrite <- Hpc. apply Hh. lia.
Qed.

Lemma remove_prepare_spec s i :
  I s -> i < length (keys s) -> heap_ordered (keys s) ->
  let n := length (keys s) - 1 in
  let s1 := if n =? i then s else hSwap H s i n in
  let r := remove_prepare H s i in
  I s1 /\ length (keys s1) = length (keys s) /\
  swaps_below n s1 r /\ heap_upto (keys r) n.
Proof.
  intros Hs Hi Hh n s1 r. subst s1 r. unfold remove_prepare. rewrite law_len by done. fold n.
  destruct (Nat.eqb_spec n i) as [E|E].
  - split_and!; [done|done|by apply swaps_refl|]. intros c Hc. apply Hh. lia.
  - destruct (law_swap s i n Hs) as [Hs1 Hk]; [lia..|].
    destruct (down_up_spec (hSwap H s i n) i n) as [Hsw Hu];
      [done|lia|rewrite Hk, swap_list_length; lia|rewrite Hk; apply around_swap_last; lia || done|].
    split_and!; [done|by rewrite Hk, swap_list_length|done|done].
Qed.

Lemma pop_prepare_spec s :
  I s -> 0 < length (keys s) -> heap_ordered (keys s) ->
  let n := length (keys s) - 1 in
  I (hSwap H s 0 n) /\ length (keys (hSwap H s 0 n)) = length (keys s) /\
  swaps_below n (hSwap H s 0 n) (pop_prepare H s) /\ heap_upto (keys (pop_prepare H s)) n.
Proof.
  intros Hs Hlen Hh n. unfold pop_prepare. rewrite law_len by done. fold n.
  destruct (law_swap s 0 n Hs) as [Hs1 Hk]; [lia..|].
  split_and!; [done|by rewrite Hk, swap_list_length| |].
  all: destruct (decide (n = 0)) as [E|E].
  - rewrite E in Hs1 |- *. by apply swaps_refl.
  - pose proof (down_spec (hSwap H s 0 n) 0 n Hs1) as D.
    destruct (down H _ 0 n) as [s' m]. destruct D as (? & _);
      [lia|rewrite Hk, swap_list_length; lia|rewrite Hk; apply around_swap_last; lia || done|].
    done.
  - rewrite E. intros c Hc. lia.
  - pose proof (down_spec (hSwap H s 0 n) 0 n Hs1) as D.
    destruct (down H _ 0 n) as [s' m]. destruct D as (_ & Ht & Hf);
      [lia|rewrite Hk, swap_list_length; lia|rewrite Hk; apply around_swap_last; lia || done|].
    simpl. destruct m; [auto|]. destruct Hf as [-> [Hord _]]; [done|].
    intros c Hc. apply Hord; lia.
Qed.
End Correct.

(** The root of a heap is a minimum. *)
Lemma heap_root_min k c :
  heap_ordered k -> c < length k -> (k !!! 0%nat <= k !!! c)%Z.
Proof.
  intros Hh. induction c as [c IH] using lt_wf_ind. intros Hc.
  destruct (decide (c = 0)) as [->|]; [done|].
  pose proof (parent_lt c). apply Z.le_trans with (k !!! parent c); [apply IH; lia|]. apply Hh. lia.
Qed.

(** Changing one key displaces only its position. *)
Lemma around_insert k i x :
  heap_ordered k -> i < length k -> around (<[i:=x]> k) (length k) i.
Proof.
  intros Hh Hi. split.
  - intros c Hc Hne Hpc. rewrite !list_lookup_total_insert_ne by done. by apply Hh.
  - intros c Hc Hpc Hpos. pose proof (parent_lt c). pose proof (parent_lt i).
    rewrite !list_lookup_total_insert_ne by lia.
    apply Z.le_trans with (k !!! i); [apply Hh; lia|]. rewrite <- Hpc. apply Hh. lia.
Qed.

Lemma heap_upto_app k x : heap_ordered k -> heap_upto (k ++ [x]) (length k).
Proof.
  intros Hh c Hc. pose proof (parent_lt c). rewrite !lookup_total_app_l by lia. by apply Hh.
Qed.
