(* ===== verification/GoStrconv.v ===== *)
(** * Decimal integers as strings: [strconv.FormatInt] and [strconv.ParseInt]

    The conversions the packages use between 64-bit integers and text, in base
    ten.  [ParseInt] takes an optional sign and at least one digit, leading zeros
    included, and fails on anything else and on values out of range. *)

From S2P Require Import Prelude.
From Stdlib Require Import DecimalString DecimalZ Decimal DecimalFacts.
From stdpp Require Import options.

Definition minus : Ascii.ascii := Ascii.ascii_of_nat 45.
Definition plus : Ascii.ascii := Ascii.ascii_of_nat 43.

Definition FormatInt (z : Z) : string := NilZero.string_of_int (Z.to_int z).

(** The digits of a string, or [None] if it is empty or has another character. *)
Definition parseUint (s : string) : option Z := Z.of_uint <$> NilZero.uint_of_string s.

Definition ParseInt (s : string) : option Z :=
  let parsed :=
    match s with
    | EmptyString => None
    | String a rest =>
        if Ascii.eqb a minus then Z.opp <$> parseUint rest
        else if Ascii.eqb a plus then parseUint rest
        else parseUint s
    end in
  z ← parsed; if decide (int64_ok z) then Some z else None.

Lemma to_int_nonnil z : Z.to_int z <> Decimal.Pos Decimal.Nil /\ Z.to_int z <> Decimal.Neg Decimal.Nil.
Proof.
  split; intros H; pose proof (f_equal Z.of_int H) as H0; rewrite DecimalZ.of_to in H0; simpl in H0; by subst z.
Qed.

Lemma parse_format z : int64_ok z -> ParseInt (FormatInt z) = Some z.
Proof.
  intros Hz. unfold ParseInt, FormatInt. destruct (to_int_nonnil z) as [Hp Hn].
  assert (Hof : Z.of_int (Z.to_int z) = z) by apply DecimalZ.of_to.
  destruct (Z.to_int z) as [d|d] eqn:E; simpl.
  - assert (Hd : d <> Decimal.Nil) by congruence. pose proof (NilZero.usu d Hd) as Hu.
    destruct (NilZero.string_of_uint d) as [|a s] eqn:Es; [done|].
    assert (Ha : Ascii.eqb a minus = false /\ Ascii.eqb a plus = false).
    { destruct d; simpl in Es; try done; injection Es as <- _; done. }
    destruct Ha as [-> ->]. unfold parseUint. rewrite Hu. simpl. simpl in Hof. rewrite Hof. by rewrite decide_True.
  - assert (Hd : d <> Decimal.Nil) by congruence. unfold parseUint. rewrite (NilZero.usu d Hd). simpl.
    simpl in Hof. rewrite Hof. by rewrite decide_True.
Qed.

Lemma ParseInt_range s z : ParseInt s = Some z -> int64_ok z.
Proof.
  unfold ParseInt. destruct s as [|a s]; simpl; [done|].
  intros H. destruct (if Ascii.eqb a minus then _ else _) as [x|]; [|done]. simpl in H. by case_decide; simplify_eq.
Qed.

(** A character that is no digit and no sign is in no number. *)
Lemma parseUint_char (c : Ascii.ascii) s :
  (forall d, uint_of_char c (Some d) = None) -> c ∈ String.list_ascii_of_string s -> parseUint s = None.
Proof.
  intros Hc Hin. unfold parseUint.
  assert (H : forall s', c ∈ String.list_ascii_of_string s' -> NilEmpty.uint_of_string s' = None).
  { intros s'. induction s' as [|a s' IH]; simpl; [by intros ?%elem_of_nil|].
    intros [->|Hs]%elem_of_cons.
    - by destruct (NilEmpty.uint_of_string s').
    - rewrite IH by done. done. }
  destruct s as [|a s]; [by apply elem_of_nil in Hin|].
  unfold NilZero.uint_of_string. by rewrite (H (String a s) Hin).
Qed.

Lemma ParseInt_char (c : Ascii.ascii) s z :
  (forall d, uint_of_char c (Some d) = None) -> c <> minus -> c <> plus ->
  ParseInt s = Some z -> c ∉ String.list_ascii_of_string s.
Proof.
  intros Hc Hm Hp H Hin. unfold ParseInt in H. destruct s as [|a s]; [done|].
  pose proof (parseUint_char c (String a s) Hc Hin) as Hall. simpl in Hin.
  destruct (Ascii.eqb_spec a minus) as [->|Ha].
  - apply elem_of_cons in Hin as [->|Hin]; [done|]. by rewrite (parseUint_char c s Hc Hin) in H.
  - destruct (Ascii.eqb_spec a plus) as [->|Ha'].
    + apply elem_of_cons in Hin as [->|Hin]; [done|]. by rewrite (parseUint_char c s Hc Hin) in H.
    + by rewrite Hall in H.
Qed.

Example format_ex : FormatInt 1712 = "1712"%string /\ FormatInt (-40) = "-40"%string /\ FormatInt 0 = "0"%string.
Proof. done. Qed.
Example parse_ex : ParseInt "+007"%string = Some 7%Z /\ ParseInt "-" = None /\ ParseInt "1_0" = None /\
  ParseInt "9223372036854775808" = None /\ ParseInt "" = None.
Proof. done. Qed.
