(* ===== verification/GoUtf8.v ===== *)
(** * UTF-8: [unicode/utf8]

    Which byte strings are valid UTF-8, and white space at their ends. *)

From S2P Require Import Prelude.
From Stdlib Require Import Ascii.
From stdpp Require Import options.

Local Abbreviation bytes := (list ascii).

(** The well-formed sequences: shortest forms, no surrogates, at most U+10FFFF. *)
Definition cont (c : nat) : bool := (128 <=? c)%nat && (c <=? 191)%nat.
Fixpoint utf8_valid (fuel : nat) (s : list nat) : bool :=
  match fuel with
  | O => true
  | S fuel =>
      match s with
      | [] => true
      | c :: s =>
          if (c <? 128)%nat then utf8_valid fuel s
          else if (194 <=? c)%nat && (c <=? 223)%nat then
            match s with d :: s => cont d && utf8_valid fuel s | [] => false end
          else if (224 <=? c)%nat && (c <=? 239)%nat then
            match s with
            | d :: e :: s =>
                cont d && cont e && (negb (c =? 224)%nat || (160 <=? d)%nat) &&
                (negb (c =? 237)%nat || (d <=? 159)%nat) && utf8_valid fuel s
            | _ => false
            end
          else if (240 <=? c)%nat && (c <=? 244)%nat then
            match s with
            | d :: e :: f :: s =>
                cont d && cont e && cont f && (negb (c =? 240)%nat || (144 <=? d)%nat) &&
                (negb (c =? 244)%nat || (d <=? 143)%nat) && utf8_valid fuel s
            | _ => false
            end
          else false
      end
  end.

(** [utf8.ValidString] *)
Definition ValidString (s : string) : bool :=
  utf8_valid (S (String.length s)) (nat_of_ascii <$> String.list_ascii_of_string s).

Definition code (a : ascii) : nat := nat_of_ascii a.

(** The length of the white space at the head of a string, zero if there is
    none: ASCII spaces, and the UTF-8 of the other Unicode ones. *)
Definition space_at (s : bytes) : nat :=
  match code <$> s with
  | c :: rest =>
      let d := default 0 (rest !! 0) in
      let e := default 0 (rest !! 1) in
      if ((9 <=? c) && (c <=? 13)) || (c =? 32) then 1
      else if (c =? 194) && ((d =? 133) || (d =? 160)) then 2
      else if ((c =? 225) && (d =? 154) && (e =? 128)) ||
              ((c =? 226) && (d =? 128) &&
                 (((128 <=? e) && (e <=? 138)) || (e =? 168) || (e =? 169) || (e =? 175))) ||
              ((c =? 226) && (d =? 129) && (e =? 159)) ||
              ((c =? 227) && (d =? 128) && (e =? 128)) then 3
      else 0
  | [] => 0
  end%nat.

(** [strings.TrimSpace] *)
Fixpoint trim_left (fuel : nat) (s : bytes) : bytes :=
  match fuel, space_at s with
  | S fuel, S n => trim_left fuel (drop (S n) s)
  | _, _ => s
  end.
Definition is_blank (s : bytes) : bool := bool_decide (trim_left (length s) s = []).
Fixpoint trim_right (s : bytes) : bytes :=
  match s with
  | [] => []
  | a :: rest => if is_blank s then [] else a :: trim_right rest
  end.
Definition TrimSpace (s : bytes) : bytes := trim_right (trim_left (length s) s).

(** Text of visible ASCII characters has no white space. *)
Definition printable (a : ascii) : bool := (33 <=? nat_of_ascii a)%nat && (nat_of_ascii a <=? 126)%nat.

Lemma space_at_printable a s : printable a = true -> space_at (a :: s) = 0.
Proof.
  unfold printable, space_at, code. cbn [fmap list_fmap]. set (c := nat_of_ascii a).
  rewrite andb_true_iff. intros [Hlo%Nat.leb_le Hhi%Nat.leb_le].
  assert (H1 : (c <=? 13) = false) by (apply Nat.leb_gt; lia).
  assert (H2 : forall n, (n = 32 \/ 127 <= n)%nat -> (c =? n) = false) by (intros n Hn; apply Nat.eqb_neq; lia).
  cbv zeta. rewrite H1, andb_false_r, !H2 by lia. done.
Qed.

Lemma TrimSpace_printable s : forallb printable s = true -> TrimSpace s = s.
Proof.
  assert (Hl : forall s, forallb printable s = true -> trim_left (length s) s = s).
  { intros [|a t]; [done|]. cbn [forallb length trim_left]. intros [Ha _]%andb_true_iff. by rewrite space_at_printable. }
  intros Hs. unfold TrimSpace. rewrite Hl by done. induction s as [|a s IH]; [done|].
  cbn [trim_right]. unfold is_blank. rewrite Hl, bool_decide_false by done. f_equal. apply IH.
  by apply andb_true_iff in Hs as [_ Hs].
Qed.
