(* ===== verification/GoFloat.v ===== *)
(** * [float64]

    Binary64 numbers are the Standard Library's [spec_float].  Conversions from
    integers and [float32], and division by a power of two; integers of at most 53
    bits are converted exactly, and such quotients of them are exact. *)

From S2P Require Import Prelude.
From Stdlib Require Import SpecFloat.
From stdpp Require Import options.
Local Open Scope Z_scope.

(** The conversions to [float64] of the language. *)
Definition prec64 : Z := 53.
Definition emax64 : Z := 1024.
Definition float64_of_int (z : Z) : spec_float := binary_normalize prec64 emax64 z 0 false.
Definition float64_of_float32 (f : spec_float) : spec_float :=
  match f with
  | S754_finite s m e => binary_round prec64 emax64 s m e
  | f => f
  end.

Definition is_finite (f : spec_float) : bool :=
  match f with S754_zero _ | S754_finite _ _ _ => true | _ => false end.

(** An integer of at most 53 bits is kept exactly: its mantissa is shifted to 53
    bits. *)
Lemma digits2_log2 p : Zpos (digits2_pos p) = Z.log2 (Zpos p) + 1.
Proof. induction p as [p IH|p IH|]; cbn [digits2_pos]; [| |done]; rewrite Pos2Z.inj_succ, IH.
  - change (Zpos p~1) with (2 * Zpos p + 1). rewrite Z.log2_succ_double by lia. lia.
  - change (Zpos p~0) with (2 * Zpos p). rewrite Z.log2_double by lia. lia.
Qed.

Lemma iter_xO p n : Zpos (Pos.iter xO p n) = Zpos p * 2 ^ Zpos n.
Proof.
  revert p. induction n as [|n IH] using Pos.peano_ind; intros p; [cbn; lia|].
  rewrite Pos.iter_succ, Pos2Z.inj_xO, IH, Pos2Z.inj_succ, Z.pow_succ_r by lia. lia.
Qed.

Lemma round_exact s p :
  Zpos p < 2 ^ 53 ->
  exists m, let e := Z.log2 (Zpos p) - 52 in
    binary_round prec64 emax64 s p 0 = S754_finite s m e /\ Zpos m = Zpos p * 2 ^ (- e) /\
    bounded prec64 emax64 m e = true.
Proof.
  intros Hp. set (e := Z.log2 (Zpos p) - 52).
  assert (Hlog : 0 <= Z.log2 (Zpos p) <= 52).
  { split; [apply Z.log2_nonneg|]. assert (Z.log2 (Zpos p) < 53) by (apply Z.log2_lt_pow2; lia). lia. }
  assert (Hal : exists m, shl_align p 0 (fexp prec64 emax64 (Zpos (digits2_pos p) + 0)) = (m, e) /\ Zpos m = Zpos p * 2 ^ (- e)).
  { assert (Hf : fexp prec64 emax64 (Zpos (digits2_pos p) + 0) = e).
    { unfold fexp, emin, prec64, emax64. rewrite digits2_log2. lia. }
    unfold shl_align. rewrite Hf, Z.sub_0_r. destruct e as [|d|d] eqn:Ee; [|lia|].
    - exists p. split; [done|]. cbn. lia.
    - eexists. split; [done|]. by rewrite iter_xO. }
  destruct Hal as (m & Ha & Hm). exists m.
  assert (Hdig : Zpos (digits2_pos m) = 53).
  { rewrite digits2_log2, Hm, Z.log2_mul_pow2 by lia. lia. }
  assert (Hfe : fexp prec64 emax64 (Zpos (digits2_pos m) + e) = e).
  { unfold fexp, emin, prec64, emax64. rewrite Hdig. lia. }
  split_and!; [|done|].
  - unfold binary_round. rewrite Ha. unfold binary_round_aux, shr_fexp. cbn [Zdigits2].
    rewrite Hfe, Z.sub_diag. cbn [shr shr_record_of_loc shr_m loc_of_shr_record round_nearest_even Zdigits2].
    rewrite Hfe, Z.sub_diag. cbn [shr shr_m].
    assert ((e <=? emax64 - prec64) = true) as -> by (unfold emax64, prec64; lia). done.
  - unfold bounded, canonical_mantissa. rewrite Hfe, Z.eqb_refl. unfold emax64, prec64. lia.
Qed.

(** The number of a small integer is that integer: [m * 2^e]. *)
Lemma float64_exact z :
  z <> 0 -> Z.abs z < 2 ^ 53 ->
  exists m, let e := Z.log2 (Z.abs z) - 52 in
    float64_of_int z = S754_finite (z <? 0) m e /\ Zpos m = Z.abs z * 2 ^ (- e) /\
    bounded prec64 emax64 m e = true.
Proof.
  intros Hz Hb. destruct z as [|p|p]; [done| |].
  - apply (round_exact false p Hb).
  - apply (round_exact true p Hb).
Qed.

Lemma float64_valid z : Z.abs z < 2 ^ 53 -> valid_binary prec64 emax64 (float64_of_int z) = true.
Proof.
  intros Hb. destruct (decide (z = 0)) as [->|Hz]; [done|].
  destruct (float64_exact z Hz Hb) as (m & E & _ & Hv). by rewrite E.
Qed.

(** Powers of two: the mantissa is that of one. *)
Lemma float64_pow2 k : 0 <= k <= 52 -> float64_of_int (2 ^ k) = S754_finite false (2 ^ 52) (k - 52).
Proof.
  intros Hk. assert (Hpos : 0 < 2 ^ k) by (apply Z.pow_pos_nonneg; lia).
  assert (Hlt : 2 ^ k < 2 ^ 53) by (apply Z.pow_lt_mono_r; lia).
  destruct (float64_exact (2 ^ k)) as (m & E & Hm & _); [lia|rewrite Z.abs_eq by lia; lia|].
  rewrite Z.abs_eq, Z.log2_pow2 in * by lia. rewrite E. destruct (Z.ltb_spec (2 ^ k) 0); [lia|]. f_equal.
  apply Pos2Z.inj. rewrite Hm, <- Z.pow_add_r by lia. replace (k + - (k - 52)) with 52 by lia. reflexivity.
Qed.

(** Dividing by a power of two subtracts from the exponent. *)
Lemma div_pow2 s m e k :
  Zpos (digits2_pos m) = 53 -> -900 <= e <= 900 -> 0 <= k <= 52 ->
  SFdiv prec64 emax64 (S754_finite s m e) (float64_of_int (2 ^ k)) = S754_finite s m (e - k).
Proof.
  intros Hd He Hk. rewrite float64_pow2 by done. unfold SFdiv, SFdiv_core_binary.
  change (Zdigits2 (Zpos (2 ^ 52))) with 53. cbn [Zdigits2]. rewrite Hd.
  assert (Hmin : Z.min (fexp prec64 emax64 (53 + e - (53 + (k - 52)))) (e - (k - 52)) = e - k - 1)
    by (unfold fexp, emin, prec64, emax64; lia).
  rewrite Hmin. replace (e - (k - 52) - (e - k - 1)) with 53 by lia.
  assert (Hdiv : Z.div_eucl (Z.shiftl (Zpos m) 53) (Zpos (2 ^ 52)) = (Zpos m~0, 0)).
  { pose proof (Z_div_mod_full (Z.shiftl (Zpos m) 53) (Zpos (2 ^ 52)) ltac:(done)) as Hq.
    destruct (Z.div_eucl _ _) as [q r]. destruct Hq as [Hq [Hr|Hr]]; [|lia].
    rewrite Z.shiftl_mul_pow2 in Hq by lia. change (Zpos (2 ^ 52)) with (2 ^ 52) in *.
    change (2 ^ 53) with (2 ^ 52 * 2) in Hq. assert (q = Zpos m * 2) as -> by nia. f_equal; lia. }
  rewrite Hdiv. change (new_location (Zpos (2 ^ 52)) 0) with loc_Exact. rewrite xorb_false_r.
  unfold binary_round_aux, shr_fexp. cbn [Zdigits2 digits2_pos]. rewrite Pos2Z.inj_succ, Hd.
  assert (Hf1 : fexp prec64 emax64 (Z.succ 53 + (e - k - 1)) - (e - k - 1) = 1) by (unfold fexp, emin, prec64, emax64; lia).
  rewrite Hf1. cbn [shr shr_record_of_loc iter_pos shr_1 shr_m loc_of_shr_record round_nearest_even orb Zdigits2].
  replace (e - k - 1 + 1) with (e - k) by lia. rewrite Hd.
  assert (Hf2 : fexp prec64 emax64 (53 + (e - k)) - (e - k) = 0) by (unfold fexp, emin, prec64, emax64; lia).
  rewrite Hf2. cbn [shr shr_m]. assert ((e - k <=? emax64 - prec64) = true) as -> by (unfold emax64, prec64; lia). done.
Qed.
