(* ===== verification/GoSlices.v ===== *)
(** * Slices and the arrays behind them

    [append] writes into the array of its argument while there is room, and only
    otherwise into a new one, so that two slices may share elements.  This file
    models the arrays as a store; it is used where the code appends to a slice
    that others may hold ([JsonRpc], [Jet]).  Every slice here begins at the start
    of its array. *)

From S2P Require Import Prelude.
From stdpp Require Import options.
Set Default Proof Using "Type*".

(** The runtime's choice of capacity for a new array of at least [n] elements,
    from the old capacity. *)
Class Growth := { grow : nat -> nat -> nat; grow_enough c n : n <= grow c n }.

(** The choice for short slices: twice the old capacity. *)
#[export, refine] Instance double_growth : Growth := {| grow c n := max (2 * c) n |}.
Proof. intros c n. lia. Defined.

(** Arrays never change their length; [None] is an element not yet written. *)
Abbreviation arrays A := (list (list (option A))).

Section Slices.
Context {A : Type} {growth : Growth}.

Record slice := mkSlice { arr : nat; len : nat; cap : nat }.

(** The nil slice. *)
Definition nil_slice : slice := mkSlice 0 0 0.

Definition contents (h : arrays A) (s : slice) : list A :=
  omap id (take (len s) (default [] (h !! arr s))).

(** A literal, with as many elements as its array has. *)
Definition literal (xs : list A) (h : arrays A) : arrays A * slice :=
  (h ++ [Some <$> xs], mkSlice (length h) (length xs) (length xs)).

(** Writing [xs] into an array from index [i] on. *)
Definition overwrite (i : nat) (xs : list A) (l : list (option A)) : list (option A) :=
  take i l ++ (Some <$> xs) ++ drop (i + length xs) l.

(** [append(s, xs...)] *)
Definition append (s : slice) (xs : list A) (h : arrays A) : arrays A * slice :=
  let n := len s + length xs in
  if n <=? cap s then (alter (overwrite (len s) xs) (arr s) h, mkSlice (arr s) n (cap s))
  else
    let c := grow (cap s) n in
    (h ++ [(Some <$> (contents h s ++ xs)) ++ replicate (c - n) None], mkSlice (length h) n c).

(** [s[i] = x], for [i] in range. *)
Definition set_at (i : nat) (x : A) (s : slice) (h : arrays A) : arrays A :=
  if i <? len s then alter (overwrite i [x]) (arr s) h else h.

(** [slices.Clone(s)] appends to an empty slice without capacity. *)
Definition Clone (s : slice) (h : arrays A) : arrays A * slice := append nil_slice (contents h s) h.

(** [slices.Concat(a, b)] *)
Definition Concat (a b : slice) (h : arrays A) : arrays A * slice :=
  append nil_slice (contents h a ++ contents h b) h.

(** [s] holds the elements [xs], and its array has room for [cap s] of them. *)
Definition holds (h : arrays A) (s : slice) (xs : list A) : Prop :=
  len s = length xs /\
  (cap s = 0 /\ xs = [] \/
   exists rest, h !! arr s = Some ((Some <$> xs) ++ rest) /\ cap s = length xs + length rest).

Lemma omap_Some (xs : list A) : omap id (Some <$> xs) = xs.
Proof using Type. induction xs as [|x xs IH]; cbn; [done|]. by rewrite IH. Qed.

Lemma holds_nil h : holds h nil_slice [].
Proof using Type. split; [done|by left]. Qed.

Lemma holds_contents h s xs : holds h s xs -> contents h s = xs.
Proof using Type.
  intros [Hlen [[Hc ->]|(rest & E & Hc)]]; unfold contents; rewrite Hlen; [by rewrite take_0|].
  rewrite E. cbn. rewrite take_app_le, firstn_all2 by (rewrite length_fmap; lia). apply omap_Some.
Qed.

Lemma holds_literal h xs : let '(h', s) := literal xs h in holds h' s xs.
Proof using Type.
  unfold literal. split; [done|]. right. exists []. cbn [arr len cap].
  split; [by rewrite list_lookup_middle, app_nil_r|cbn; lia].
Qed.

(** New arrays leave the old ones alone. *)
Lemma holds_grow h s xs l : holds h s xs -> holds (h ++ l) s xs.
Proof using Type.
  intros [Hlen [Hz|(rest & E & Hc)]]; split; try done; [by left|]. right. exists rest.
  split; [|done]. by apply lookup_app_l_Some.
Qed.

Lemma append_holds h s xs ys :
  holds h s xs -> let '(h', s') := append s ys h in holds h' s' (xs ++ ys).
Proof using Type.
  intros Hs. pose proof (holds_contents _ _ _ Hs) as Hco. destruct Hs as [Hlen Hs]. unfold append.
  destruct (Nat.leb_spec (len s + length ys) (cap s)) as [Hle|Hgt]; (split; [cbn; rewrite length_app; lia|]).
  - destruct Hs as [[Hc ->]|(rest & E & Hc)].
    + left. destruct ys; [done|]. cbn in Hle. lia.
    + right. exists (drop (length ys) rest). cbn. rewrite list_lookup_alter, E, decide_True by done. cbn.
      rewrite length_app, length_drop. split; [|lia]. f_equal. unfold overwrite.
      rewrite take_app_le, firstn_all2 by (rewrite length_fmap; lia).
      rewrite fmap_app, <- (assoc_L (++)). do 2 f_equal.
      rewrite drop_app_ge by (rewrite length_fmap; lia). f_equal. rewrite length_fmap. lia.
  - right. eexists. cbn. rewrite Hco. split; [by rewrite list_lookup_middle|].
    rewrite length_replicate, length_app. pose proof (grow_enough (cap s) (len s + length ys)). lia.
Qed.

(** No two of them write into the same array. *)
Definition apart (s t : slice) : Prop := cap s = 0 \/ cap t = 0 \/ arr s <> arr t.

(** The result shares the array of [s], or has a new one. *)
Lemma append_shares s ys h :
  let '(h', s') := append s ys h in
  length h <= length h' /\ (arr s' = arr s /\ cap s' = cap s \/ arr s' = length h /\ length h < length h').
Proof using Type.
  unfold append. destruct (_ <=? _); cbn; [rewrite length_alter; split; [done|by left]|].
  rewrite length_app. cbn. split; [lia|]. right. lia.
Qed.

(** [append] is not seen by a slice that has its own array, nor by one that ends
    where the new elements begin. *)
Lemma append_frame h s xs ys t zs :
  holds h s xs -> holds h t zs -> apart s t \/ len t <= len s ->
  let '(h', _) := append s ys h in holds h' t zs.
Proof using Type.
  intros Hs Ht Hap. unfold append.
  destruct (Nat.leb_spec (len s + length ys) (cap s)) as [Hle|Hgt]; [|by apply holds_grow].
  destruct Ht as [Hlen [Hz|(rest & E & Hc)]]; split; try done; [by left|].
  destruct (decide (cap t = 0)) as [Hct|Hct]; [left; split; [done|]; apply nil_length_inv; lia|].
  right. destruct (decide (arr s = arr t)) as [Ea|Hne].
  2: { exists rest. rewrite list_lookup_alter, decide_False by done. done. }
  rewrite list_lookup_alter, decide_True, Ea, E by done. cbn.
  destruct Hs as [Hls [[Hcs ->]|(rest' & E' & Hcs)]].
  - assert (ys = []) as -> by (apply nil_length_inv; lia). exists rest. unfold overwrite. split; [|done].
    by rewrite Hls.
  - assert (cap s = cap t).
    { rewrite Ea, E in E'. injection E' as E'. apply (f_equal length) in E'. rewrite !length_app, !length_fmap in E'. lia. }
    assert (Hle2 : length zs <= len s) by (destruct Hap as [[|[|]]|]; [lia|done|done|lia]).
    exists (overwrite (len s - length zs) ys rest). unfold overwrite.
    rewrite !length_app, length_fmap, length_take, length_drop. split; [|lia].
    f_equal. rewrite take_app_ge, drop_app_ge by (rewrite length_fmap; lia). rewrite length_fmap, <- (assoc_L (++)).
    do 4 f_equal. lia.
Qed.

(** A copy holds the same elements in an array of its own. *)
Lemma Clone_holds h s xs :
  holds h s xs -> let '(h', s') := Clone s h in holds h' s' xs.
Proof using Type.
  intros Hs. unfold Clone. rewrite (holds_contents _ _ _ Hs). apply (append_holds h nil_slice [] xs), holds_nil.
Qed.

Lemma Clone_frame h s t zs : holds h t zs -> let '(h', _) := Clone s h in holds h' t zs.
Proof using Type.
  intros Ht. unfold Clone. eapply (append_frame h nil_slice [] _ t zs); [apply holds_nil|done|]. by left; left.
Qed.

Lemma Concat_holds h a b xs ys :
  holds h a xs -> holds h b ys -> let '(h', s') := Concat a b h in holds h' s' (xs ++ ys).
Proof using Type.
  intros Ha Hb. unfold Concat. rewrite (holds_contents _ _ _ Ha), (holds_contents _ _ _ Hb).
  apply (append_holds h nil_slice [] (xs ++ ys)), holds_nil.
Qed.

Lemma Concat_frame h a b t zs : holds h t zs -> let '(h', _) := Concat a b h in holds h' t zs.
Proof using Type.
  intros Ht. unfold Concat. eapply (append_frame h nil_slice [] _ t zs); [apply holds_nil|done|]. by left; left.
Qed.

(** An assignment is seen by the slice it is made through only. *)
Lemma set_at_holds h s xs i x : holds h s xs -> holds (set_at i x s h) s (<[i:=x]> xs).
Proof using Type.
  intros [Hlen Hs]. unfold set_at. destruct (Nat.ltb_spec i (len s)) as [Hi|Hi].
  - split; [by rewrite length_insert|]. destruct Hs as [[_ ->]|(rest & E & Hc)]; [cbn in Hlen; lia|].
    right. exists rest. rewrite list_lookup_alter, decide_True, E, length_insert by done. split; [|done]. cbn. f_equal.
    unfold overwrite. rewrite list_fmap_insert. cbn. rewrite Nat.add_1_r.
    rewrite <- (insert_take_drop ((Some <$> xs) ++ rest) i (Some x)) by (rewrite length_app, length_fmap; lia).
    by rewrite insert_app_l by (rewrite length_fmap; lia).
  - rewrite list_insert_ge by lia. by split.
Qed.

Lemma set_at_frame h s t zs i x : holds h t zs -> apart s t -> len s <= cap s -> holds (set_at i x s h) t zs.
Proof using Type.
  intros [Hlen Ht] Hap Hsc. unfold set_at. destruct (Nat.ltb_spec i (len s)) as [Hi|Hi]; [|by split].
  split; [done|]. destruct Ht as [Hz|(rest & E & Hc)]; [by left|].
  destruct Hap as [Hap|[Hap|Hne]]; [lia| |].
  - left. split; [done|]. apply nil_length_inv. lia.
  - right. exists rest. by rewrite list_lookup_alter, decide_False.
Qed.

(** ** Many slices, each with an array of its own *)

Definition separate (h : arrays A) (ps : list (slice * list A)) : Prop :=
  Forall (fun p => holds h p.1 p.2) ps /\ ForallOrdPairs (fun p q => apart p.1 q.1) ps.

Lemma apart_sym s t : apart s t -> apart t s.
Proof using Type. unfold apart. intuition. Qed.

Lemma separate_cons h p ps :
  separate h (p :: ps) <-> holds h p.1 p.2 /\ Forall (fun q => apart p.1 q.1) ps /\ separate h ps.
Proof using Type.
  unfold separate. rewrite Forall_cons. split.
  - intros [[H1 H2] H3]. inversion H3; subst. done.
  - intros (H1 & H2 & H3 & H4). split; [done|]. by constructor.
Qed.

Lemma separate_nil h : separate h [].
Proof using Type. split; constructor. Qed.

Lemma separate_perm h ps qs : ps ≡ₚ qs -> separate h ps -> separate h qs.
Proof using Type.
  intros HP. induction HP as [|p ps qs HP IH|p q ps|ps qs rs H1 IH1 H2 IH2]; [done| | |by auto].
  - rewrite !separate_cons. intros (Hh & Ha & Hs). split_and!; [done| |by apply IH]. by rewrite <- HP.
  - rewrite !separate_cons, !Forall_cons. cbn. intros (? & [? ?] & ? & ? & ?). split_and!; try done. by apply apart_sym.
Qed.
#[export] Instance separate_proper h : Proper ((≡ₚ) ==> iff) (separate h).
Proof using Type. intros ps qs HP. split; by apply separate_perm. Qed.

(** Where a slice with elements lies, in a store that is separate. *)
Lemma holds_arr h t zs : holds h t zs -> cap t <> 0 -> arr t < length h.
Proof using Type.
  intros [_ [[Hz _]|(rest & E & _)]] Hc; [done|]. by eapply lookup_lt_Some.
Qed.

Lemma separate_append h s xs ys ps :
  separate h ((s, xs) :: ps) -> let '(h', s') := append s ys h in separate h' ((s', xs ++ ys) :: ps).
Proof using Type.
  rewrite separate_cons. cbn. intros (Hs & Ha & Hps & Hord).
  pose proof (append_holds h s xs ys Hs) as Hh. pose proof (append_shares s ys h) as Hsh.
  assert (Hfr : Forall (fun p => let '(h', _) := append s ys h in holds h' p.1 p.2) ps).
  { rewrite Forall_forall in *. intros [t zs] Hin. apply (append_frame h s xs ys t zs); [done|by apply (Hps _ Hin)|].
    left. by apply (Ha _ Hin). }
  destruct (append s ys h) as [h' s']. apply separate_cons. cbn. split_and!; [done| |by split].
  rewrite Forall_forall in *. intros [t zs] Hin. cbn. specialize (Ha _ Hin). specialize (Hps _ Hin). cbn in *.
  destruct Hsh as [_ [[Harr Hcap]|[Harr _]]]; unfold apart in *; rewrite Harr; [by rewrite Hcap|].
  destruct (decide (cap t = 0)); [by right; left|]. right; right. pose proof (holds_arr h t zs Hps). lia.
Qed.

(** Replacing one of the slices, in lists known up to order. *)
Lemma separate_replace h h' p q ps qs :
  p ∈ ps -> q :: ps ≡ₚ p :: qs -> separate h ps ->
  (forall rs, separate h (p :: rs) -> separate h' (q :: rs)) -> separate h' qs.
Proof using Type.
  intros [rs Hrs]%elem_of_Permutation HP Hs Hstep. rewrite Hrs in Hs, HP.
  rewrite (Permutation_swap p q) in HP. apply (Permutation_cons_inv (a := p)) in HP. rewrite <- HP. by apply Hstep.
Qed.

Lemma separate_fresh h ys ps :
  separate h ps -> let '(h', s') := append nil_slice ys h in separate h' ((s', ys) :: ps).
Proof using Type.
  intros Hs. apply (separate_append h nil_slice [] ys ps). apply separate_cons. split_and!; [apply holds_nil| |done].
  apply Forall_forall. intros q _. by left.
Qed.

Lemma separate_literal h xs ps : separate h ps -> let '(h', s) := literal xs h in separate h' ((s, xs) :: ps).
Proof using Type.
  intros [Hp Ho]. pose proof (holds_literal h xs) as Hl. unfold literal in *. apply separate_cons. cbn.
  split_and!; [done| |split; [|done]].
  - rewrite Forall_forall in *. intros [t zs] Hin. specialize (Hp _ Hin). cbn in *. unfold apart. cbn.
    destruct (decide (cap t = 0)); [by right; left|]. right; right. pose proof (holds_arr h t zs Hp). lia.
  - eapply Forall_impl; [exact Hp|]. intros [t zs] H. by apply holds_grow.
Qed.

Lemma separate_set h s xs i x ps :
  separate h ((s, xs) :: ps) -> separate (set_at i x s h) ((s, <[i:=x]> xs) :: ps).
Proof using Type.
  rewrite !separate_cons. cbn. intros (Hs & Ha & Hps & Hord). split_and!; [by apply set_at_holds|done|]. split; [|done].
  rewrite Forall_forall in *. intros [t zs] Hin. apply set_at_frame; [by apply (Hps _ Hin)|by apply (Ha _ Hin)|].
  destruct Hs as [Hl [[Hc ->]|(rest & _ & Hc)]]; cbn in *; lia.
Qed.
End Slices.

(** ** Sequences, as the code uses them

    What a package does with its slices: build one, append the elements of
    another, copy, concatenate, assign an element, read.  [slice_seq] is Go's
    implementation; [list_seq], where nothing is shared, is what it should amount
    to. *)
Class SeqOps (E H S : Type) := {
  seq_nil : S;
  seq_make : list E -> H -> H * S;
  seq_append : S -> S -> H -> H * S;
  seq_clone : S -> H -> H * S;
  seq_concat : S -> S -> H -> H * S;
  seq_set : nat -> E -> S -> H -> H * S;
  seq_len : S -> nat;
  seq_list : S -> H -> list E
}.

#[export] Instance slice_seq E {growth : Growth} : SeqOps E (arrays E) slice := {|
  seq_nil := nil_slice;
  seq_make := literal;
  seq_append s t h := append s (contents h t) h;
  seq_clone := Clone;
  seq_concat := Concat;
  seq_set i x s h := (set_at i x s h, s);
  seq_len := len;
  seq_list s h := contents h s
|}.

#[export] Instance list_seq E : SeqOps E unit (list E) := {|
  seq_nil := [];
  seq_make xs h := (h, xs);
  seq_append s t h := (h, s ++ t);
  seq_clone s h := (h, s);
  seq_concat s t h := (h, s ++ t);
  seq_set i x s h := (h, <[i:=x]> s);
  seq_len := length;
  seq_list s _ := s
|}.
