(* ===== verification/GoCase.v ===== *)
(** * Upper and lower case

    [strings.ToLower] and [strings.ToUpper] as the packages use them.  Strings of
    bytes below 128 are mapped byte by byte; what happens to the others is a table
    of Unicode, an argument. *)

From S2P Require Import Prelude.
From stdpp Require Import strings.
From stdpp Require Import options.
From Stdlib Require Import Ascii.
Set Default Proof Using "Type*".
Local Open Scope string_scope.

Definition is_ascii (a : ascii) : bool := (nat_of_ascii a <? 128)%nat.
Definition between_ascii (lo hi : nat) (a : ascii) : bool := ((lo <=? nat_of_ascii a) && (nat_of_ascii a <=? hi))%nat.

Definition lower_ascii (a : ascii) : ascii := if between_ascii 65 90 a then ascii_of_nat (nat_of_ascii a + 32) else a.
Definition upper_ascii (a : ascii) : ascii := if between_ascii 97 122 a then ascii_of_nat (nat_of_ascii a - 32) else a.

Fixpoint string_forallb (f : ascii -> bool) (s : string) : bool :=
  match s with EmptyString => true | String a s => f a && string_forallb f s end.
Fixpoint string_map (f : ascii -> ascii) (s : string) : string :=
  match s with EmptyString => "" | String a s => String (f a) (string_map f s) end.

Definition ToLower (lower_unicode : string -> string) (s : string) : string :=
  if string_forallb is_ascii s then string_map lower_ascii s else lower_unicode s.
Definition ToUpper (upper_unicode : string -> string) (s : string) : string :=
  if string_forallb is_ascii s then string_map upper_ascii s else upper_unicode s.
