(* ===== verification/Redis.v ===== *)
(** * The Redis server and its client, as the packages see them

    The server is not part of the repository: it is a parameter, a type with
    the [RedisServer] operations, and [RedisLaws] states the documented
    behaviour of the single-key commands the packages send.  A script runs on
    the server as one step, at one reading of its clock; the Lua of the scripts
    is translated where the Go code that owns them is modelled, over the [script]
    monad below.  [MapServer] is a server that meets the laws.

    The server's clock is in nanoseconds. *)

From S2P Require Import Prelude GoErrors GoStrconv.
From stdpp Require Import gmap strings.
From stdpp Require Import options.
Set Default Proof Using "Type*".
Local Open Scope Z_scope.

(** ** Values and commands *)

Inductive rvalue := VStr (s : string) | VHash (h : gmap string string).

(** A key's value with the instant it ends, if it has one. *)
Record entry := mkEntry { val : rvalue; due : option Z }.

(** What a write does to the key's end: none, so many milliseconds from now, or
    the one it has. *)
Inductive lifetime := NoEnd | PX (ms : Z) | KEEPTTL.

Inductive cmd :=
| GET
| SET (v : string) (px : lifetime)
| SETNX (v : string) (px : lifetime)
| DEL
| EXISTS
| PEXPIRE (ms : Z)
| INCRBY (n : Z)
| DECRBY (n : Z)
| HGET (f : string)
| HSET (fs : list (string * string))
| HDEL (f : string).

Inductive reply := RNil | ROK | RStr (s : string) | RInt (z : Z) | RErr (e : error).

Definition WRONGTYPE : reply :=
  RErr (ErrNew "WRONGTYPE Operation against a key holding the wrong kind of value").
Definition NOTINT : reply := RErr (ErrNew "ERR value is not an integer or out of range").
Definition BADEXPIRE : reply := RErr (ErrNew "ERR invalid expire time in 'set' command").

Definition count {A} (x : option A) : Z := match x with Some _ => 1 | None => 0 end.

(** What is left of an entry at [t]. *)
Definition unexpired (t : Z) (e : option entry) : option entry :=
  en ← e;
  match due en with
  | Some d => if t <? d then Some en else None
  | None => Some en
  end.

Definition new_due (ends : Z -> Z) (px : lifetime) (e : option entry) : option Z :=
  match px with
  | NoEnd => None
  | PX ms => Some (ends ms)
  | KEEPTTL => en ← e; due en
  end.

(** A time to live that is not positive is refused, before the key is looked at. *)
Definition bad_px (px : lifetime) : bool := match px with PX ms => ms <=? 0 | _ => false end.

(** Adding to a decimal number; an absent key counts from zero. *)
Definition add_spec (n : Z) (e : option entry) : option entry * reply :=
  match e with
  | None => (Some (mkEntry (VStr (FormatInt n)) None), RInt n)
  | Some (mkEntry (VStr s) d) =>
      match ParseInt s with
      | None => (e, NOTINT)
      | Some z =>
          if decide (int64_ok (z + n))
          then (Some (mkEntry (VStr (FormatInt (z + n))) d), RInt (z + n))
          else (e, RErr (ErrNew "ERR increment or decrement would overflow"))
      end
  | Some (mkEntry (VHash _) _) => (e, WRONGTYPE)
  end.

(** One command on the live entry of its key: the new entry and the answer.
    [ends ms] is the instant a time to live of [ms] milliseconds ends. *)
Definition cmd_spec (ends : Z -> Z) (c : cmd) (e : option entry) : option entry * reply :=
  match c with
  | GET =>
      (e, match e with
          | None => RNil
          | Some (mkEntry (VStr s) _) => RStr s
          | Some (mkEntry (VHash _) _) => WRONGTYPE
          end)
  | SET v px => if bad_px px then (e, BADEXPIRE) else (Some (mkEntry (VStr v) (new_due ends px e)), ROK)
  | SETNX v px =>
      if bad_px px then (e, BADEXPIRE)
      else
        match e with
        | Some _ => (e, RNil)
        | None => (Some (mkEntry (VStr v) (new_due ends px e)), ROK)
        end
  | DEL => (None, RInt (count e))
  | EXISTS => (e, RInt (count e))
  | PEXPIRE ms =>
      match e with
      | None => (None, RInt 0)
      | Some en => (if ms <=? 0 then None else Some (mkEntry (val en) (Some (ends ms))), RInt 1)
      end
  | INCRBY n => add_spec n e
  | DECRBY n =>
      if n =? minInt64 then (e, RErr (ErrNew "ERR decrement would overflow")) else add_spec (- n) e
  | HGET f =>
      (e, match e with
          | None => RNil
          | Some (mkEntry (VHash h) _) => from_option RStr RNil (h !! f)
          | Some (mkEntry (VStr _) _) => WRONGTYPE
          end)
  | HSET fs =>
      let write h := foldl (fun h p => <[p.1 := p.2]> h) h fs in
      match e with
      | None => (Some (mkEntry (VHash (write ∅)) None), RInt (Z.of_nat (size (write ∅))))
      | Some (mkEntry (VHash h) d) =>
          (Some (mkEntry (VHash (write h)) d), RInt (Z.of_nat (size (write h)) - Z.of_nat (size h)))
      | Some (mkEntry (VStr _) _) => (e, WRONGTYPE)
      end
  | HDEL f =>
      match e with
      | None => (None, RInt 0)
      | Some (mkEntry (VHash h) d) =>
          (if decide (delete f h = ∅) then None else Some (mkEntry (VHash (delete f h)) d),
           RInt (count (h !! f)))
      | Some (mkEntry (VStr _) _) => (e, WRONGTYPE)
      end
  end.

(** ** The server *)

(** [exec t k c r]: the server [r] runs command [c] on key [k] when its clock
    reads [t]; [ends t ms]: when a time to live of [ms] given at [t] ends. *)
Class RedisServer (R : Type) := {
  exec : Z -> string -> cmd -> R -> R * reply;
  ends : Z -> Z -> Z
}.

(** The documented behaviour, in terms of the live entry of each key.  A time
    to live is kept with the server's millisecond clock: it ends no earlier than
    asked and at most a millisecond later. *)
Class RedisLaws (R : Type) `{!RedisServer R} := {
  lookup_at : R -> Z -> string -> option entry;
  lookup_later r t t' k : t <= t' -> lookup_at r t' k = unexpired t' (lookup_at r t k);
  ends_bounds t ms : t + ms * 1000000 <= ends t ms <= t + ms * 1000000 + 1000000;
  exec_reply r t k c : (exec t k c r).2 = (cmd_spec (ends t) c (lookup_at r t k)).2;
  exec_lookup r t k c :
    lookup_at (exec t k c r).1 t k = unexpired t (cmd_spec (ends t) c (lookup_at r t k)).1;
  exec_frame r t k c t' k' :
    k' <> k -> t <= t' -> lookup_at (exec t k c r).1 t' k' = lookup_at r t' k'
}.

Lemma unexpired_later t t' e : t <= t' -> unexpired t' (unexpired t e) = unexpired t' e.
Proof.
  intros Ht. destruct e as [[v [d|]]|]; simpl; try done.
  destruct (Z.ltb_spec t d); simpl; [done|]. by destruct (Z.ltb_spec t' d); [lia|].
Qed.

Lemma unexpired_Some t e en : unexpired t e = Some en -> e = Some en /\ unexpired t (Some en) = Some en.
Proof.
  destruct e as [[v [d|]]|]; simpl; [|by intros [= <-]|done].
  destruct (Z.ltb_spec t d); [|done]. intros [= <-]. simpl. by destruct (Z.ltb_spec t d); [|lia].
Qed.

Section Server.
Context {R : Type} `{!RedisServer R, !RedisLaws R}.

Lemma lookup_live r t k : unexpired t (lookup_at r t k) = lookup_at r t k.
Proof. symmetry. by apply lookup_later. Qed.

(** A command whose new entry is the old one changes nothing. *)
Lemma exec_same r t k c :
  (cmd_spec (ends t) c (lookup_at r t k)).1 = lookup_at r t k ->
  forall t' k', t <= t' -> lookup_at (exec t k c r).1 t' k' = lookup_at r t' k'.
Proof.
  intros E t' k' Ht. destruct (decide (k' = k)) as [->|Hne]; [|by apply exec_frame].
  rewrite (lookup_later _ t t') by done. rewrite exec_lookup, E, lookup_live.
  symmetry. by apply lookup_later.
Qed.

Lemma exec_later r t k c t' : t <= t' ->
  lookup_at (exec t k c r).1 t' k = unexpired t' (cmd_spec (ends t) c (lookup_at r t k)).1.
Proof. intros Ht. rewrite (lookup_later _ t t') by done. rewrite exec_lookup. by apply unexpired_later. Qed.
End Server.

(** ** Scripts

    A script is a server step made of commands; an error reply ends it and
    keeps the effects of the commands before. *)
Definition script (R A : Type) : Type := Z -> R -> R * (A + error).

Section Script.
Context {R : Type} `{!RedisServer R}.

Definition sret {A} (a : A) : script R A := fun _ r => (r, inl a).
Definition sbind {A B} (m : script R A) (f : A -> script R B) : script R B := fun t r =>
  match m t r with
  | (r', inl a) => f a t r'
  | (r', inr e) => (r', inr e)
  end.
(** [redis.call(...)] *)
Definition redis_call (k : string) (c : cmd) : script R reply := fun t r =>
  match exec t k c r with
  | (r', RErr e) => (r', inr e)
  | (r', rep) => (r', inl rep)
  end.
End Script.

Declare Scope lua_scope.
Notation "'local' x <- m 'in' k" := (sbind m (fun x => k))
  (at level 10, x name, m at level 100, k at level 200) : lua_scope.
Notation "'call' m 'then' k" := (sbind m (fun _ => k))
  (at level 10, m at level 100, k at level 200) : lua_scope.

Section Calls.
Context {R : Type} `{!RedisServer R, !RedisLaws R}.

(** One call of a script, by the live entry of its key. *)
Lemma redis_call_step (r : R) t k c e :
  lookup_at r t k = e ->
  exists r', redis_call k c t r
             = (r', match (cmd_spec (ends t) c e).2 with RErr x => inr x | rep => inl rep end) /\
    lookup_at r' t k = unexpired t (cmd_spec (ends t) c e).1 /\
    (forall k' t', k' <> k -> t <= t' -> lookup_at r' t' k' = lookup_at r t' k').
Proof.
  intros <-. unfold redis_call. pose proof (exec_reply r t k c) as Hr.
  pose proof (exec_lookup r t k c) as Hl. pose proof (exec_frame r t k c) as Hf.
  destruct (exec t k c r) as [r' rep]. simpl in *. rewrite <- Hr. exists r'.
  split_and!; [by destruct rep|done|]. intros k' t' Hk Ht. by apply Hf.
Qed.

(** A call that only reads. *)
Lemma redis_call_read (r : R) t k c e :
  lookup_at r t k = e -> (cmd_spec (ends t) c e).1 = e ->
  exists r', redis_call k c t r
             = (r', match (cmd_spec (ends t) c e).2 with RErr x => inr x | rep => inl rep end) /\
    (forall k' t', t <= t' -> lookup_at r' t' k' = lookup_at r t' k').
Proof.
  intros <- Hsame. unfold redis_call. pose proof (exec_reply r t k c) as Hr.
  pose proof (exec_same r t k c Hsame) as Hf.
  destruct (exec t k c r) as [r' rep]. simpl in *. rewrite <- Hr. exists r'.
  split; [by destruct rep|]. intros k' t' Ht. by apply Hf.
Qed.
End Calls.

(** ** The client

    A call is sent until an attempt is answered or the client gives up: go-redis
    repeats a command after a pause when the connection failed or the server could
    not serve it, and runs a script by its digest first and by its text when the
    server does not know it.  An attempt the server did not run is [Unsent] (it
    was not reached, or it refused the attempt as a whole); one whose answer was
    lost is [NoReply].  [faults] says what happens to the next calls; the calls
    past its end succeed at once. *)
Inductive fault := Unsent (e : error) | NoReply (e : error).

(** The attempts of a call that failed and were repeated, each with the pause
    after it in nanoseconds, and how the last one ended. *)
Record fate := mkFate { retried : list (fault * N); final : option fault }.

(** A call with one attempt. *)
Definition once (f : option fault) : fate := mkFate [] f.

Record Client (R : Type) := mkClient { server : R; faults : list fate }.
Arguments mkClient {R} _ _.
Arguments server {R} _.
Arguments faults {R} _.

(** What the server is left with by an attempt that fails. *)
Definition attempt {R A} (run : script R A) (f : fault) (t : Z) (r : R) : R :=
  match f with Unsent _ => r | NoReply _ => (run t r).1 end.

Fixpoint attempts {R A} (run : script R A) (tries : list (fault * N)) (t : Z) (r : R) : Z * R :=
  match tries with
  | [] => (t, r)
  | (f, pause) :: tries => attempts run tries (t + Z.of_N pause) (attempt run f t r)
  end.

Definition fault_error (f : fault) : error := match f with Unsent e | NoReply e => e end.

(** A call at [t]. *)
Definition roundtrip {R A} (c : Client R) (run : script R A) (t : Z) : Client R * (A + error) :=
  match faults c with
  | [] => let '(r, a) := run t (server c) in (mkClient r [], a)
  | f :: fs =>
      let '(t, r) := attempts run (retried f) t (server c) in
      match final f with
      | None => let '(r, a) := run t r in (mkClient r fs, a)
      | Some e => (mkClient (attempt run e t r) fs, inr (fault_error e))
      end
  end.

(** The time the next call takes for its pauses. *)
Definition pauses (f : fate) : Z := foldr (fun p n => Z.of_N p.2 + n) 0 (retried f).
Definition spent {R} (c : Client R) : Z := match faults c with f :: _ => pauses f | [] => 0 end.

(** The dynamic values of a script's reply, and the client's conversion of one
    to an integer. *)
#[warnings="-register-all"]
Inductive any := AInt (z : Z) | AStr (s : string) | ANil | AList (l : list any).

Definition Int64 (a : any) : Z + error :=
  match a with
  | AInt z => inl z
  | AStr s => match ParseInt s with Some z => inl z | None => inr (ErrMsg "strconv.ParseInt") end
  | ANil => inr (ErrNew "redis: nil")
  | AList _ => inr (ErrMsg "redis: unexpected type for Int64")
  end.

(** A single command, as the client sends it. *)
Definition command {R} `{!RedisServer R} (c : Client R) (t : Z) (k : string) (co : cmd)
    : Client R * (reply + error) :=
  roundtrip c (redis_call k co) t.

Lemma roundtrip_ok {R A} (r : R) (run : script R A) t :
  roundtrip (mkClient r []) run t = (mkClient (run t r).1 [], (run t r).2).
Proof. unfold roundtrip. simpl. by destruct (run t r). Qed.

Lemma pauses_nonneg f : 0 <= pauses f.
Proof. unfold pauses. induction (retried f) as [|[e p] l IH]; simpl; lia. Qed.

Lemma spent_nonneg {R} (c : Client R) : 0 <= spent c.
Proof. unfold spent. destruct (faults c); [done|apply pauses_nonneg]. Qed.

Lemma attempts_time {R A} (run : script R A) tries t (r : R) :
  (attempts run tries t r).1 = t + foldr (fun p n => Z.of_N p.2 + n) 0 tries.
Proof. revert t r. induction tries as [|[f p] l IH]; intros t r; simpl; [lia|]. rewrite IH. lia. Qed.

(** What every run of the call keeps, the call keeps, whatever its fate: [P t r]
    holds of the server at [t], and the answer is that of the last run. *)
Lemma attempts_keep {R A} (run : script R A) (P : Z -> R -> Prop) tries : forall t r,
  (forall u v x, t <= u <= v -> v <= (attempts run tries t r).1 -> P u x -> P v x) ->
  (forall u x, t <= u <= (attempts run tries t r).1 -> P u x -> P u (run u x).1) ->
  P t r -> P (attempts run tries t r).1 (attempts run tries t r).2.
Proof.
  induction tries as [|[f p] l IH]; intros t r Hmono Hrun Hp; [done|]. simpl in *.
  pose proof (attempts_time run l (t + Z.of_N p) (attempt run f t r)) as Ht.
  assert (0 <= foldr (fun (q : fault * N) n => Z.of_N q.2 + n) 0 l) by (clear; induction l as [|[f p] l IH]; simpl; lia).
  apply IH; [intros u v x Hu Hv; apply Hmono; lia|intros u x Hu; apply Hrun; lia|].
  apply (Hmono t); [lia|lia|]. destruct f; simpl; [done|]. apply Hrun; [lia|done].
Qed.

Lemma roundtrip_keep {R A} (run : script R A) (P : Z -> R -> Prop) (c : Client R) t :
  let t' := t + spent c in
  (forall u v x, t <= u <= v -> v <= t' -> P u x -> P v x) ->
  (forall u x, t <= u <= t' -> P u x -> P u (run u x).1) ->
  P t (server c) ->
  let '(c', a) := roundtrip c run t in
  faults c' = tail (faults c) /\
  ((P t' (server c') /\ exists e, a = inr e) \/ exists x, P t' x /\ server c' = (run t' x).1 /\ a = (run t' x).2).
Proof.
  intros t' Hmono Hrun Hp. unfold roundtrip, t', spent in *. destruct (faults c) as [|f fs].
  - rewrite Z.add_0_r in *. destruct (run t (server c)) as [r a] eqn:E. split; [done|]. right.
    exists (server c). by rewrite E.
  - pose proof (attempts_time run (retried f) t (server c)) as Ht. fold (pauses f) in Ht.
    pose proof (attempts_keep run P (retried f) t (server c)) as Hk. rewrite Ht in Hk. specialize (Hk Hmono Hrun Hp).
    destruct (attempts run (retried f) t (server c)) as [u r]. simpl in Ht, Hk. subst u.
    pose proof (pauses_nonneg f). destruct (final f) as [e|].
    + split; [done|]. left. simpl. split; [|by eauto]. destruct e; simpl; [done|]. apply Hrun; [lia|done].
    + destruct (run _ r) as [r' a] eqn:E. split; [done|]. right. exists r. by rewrite E.
Qed.

(** Go durations become milliseconds on the wire: [time.Duration.Milliseconds]. *)
Definition Milliseconds (d : Z) : Z := Z.quot d 1000000.

Definition milliseconds (ttl : Z) : Z :=
  let value := Milliseconds ttl in
  if value <? 1 then 1 else value.

Lemma milliseconds_pos ttl : 1 <= milliseconds ttl.
Proof. unfold milliseconds. bcase; lia. Qed.

(** The client turns a [time.Duration] into milliseconds: rounded towards zero, but
    a positive one never to zero.  [Set] asks for no end when its expiration is
    not positive, or for [KEEPTTL] when it is -1; [SetNX] asks for no end when it
    is zero, for [KEEPTTL] when it is -1, and sends any other as it is. *)
Class ClientOptions := {
  client_ms : Z -> Z;
  client_ms_bounds d : 0 < d -> 1 <= client_ms d /\ d - 1000000 < client_ms d * 1000000 <= Z.max d 1000000;
  client_ms_neg d : d < 0 -> client_ms d <= 0
}.

Definition expiration `{!ClientOptions} (d : Z) : lifetime :=
  if 0 <? d then PX (client_ms d) else if d =? -1 then KEEPTTL else NoEnd.

Definition expiration_nx `{!ClientOptions} (d : Z) : lifetime :=
  if d =? 0 then NoEnd else if d =? -1 then KEEPTTL else PX (client_ms d).

#[export, refine] Instance client_milliseconds : ClientOptions :=
  {| client_ms d := if (0 <? d) && (d <? 1000000) then 1 else Milliseconds d |}.
Proof.
  - intros d Hd. unfold Milliseconds. rewrite Z.quot_div_nonneg by lia.
    pose proof (Z.div_mod d 1000000). pose proof (Z.mod_pos_bound d 1000000).
    destruct (Z.ltb_spec 0 d), (Z.ltb_spec d 1000000); simpl; lia.
  - intros d Hd. unfold Milliseconds. destruct (Z.ltb_spec 0 d); simpl; [lia|].
    apply Z.quot_le_upper_bound; lia.
Defined.

(** Neither asks for an end the server refuses, but for [SetNX] with a negative
    expiration. *)
Lemma expiration_good `{!ClientOptions} d : bad_px (expiration d) = false.
Proof.
  unfold expiration. destruct (Z.ltb_spec 0 d); [|by destruct (d =? -1)]. simpl.
  pose proof (client_ms_bounds d ltac:(lia)). apply Z.leb_gt. lia.
Qed.

Lemma expiration_nx_bad `{!ClientOptions} d : bad_px (expiration_nx d) = (d <? -1).
Proof.
  unfold expiration_nx. destruct (Z.eqb_spec d 0) as [->|]; [done|]. destruct (Z.eqb_spec d (-1)) as [->|]; [done|]. simpl.
  destruct (Z.ltb_spec d (-1)); [apply Z.leb_le, client_ms_neg; lia|].
  pose proof (client_ms_bounds d ltac:(lia)). apply Z.leb_gt. lia.
Qed.

Lemma expiration_nx_same `{!ClientOptions} d : -1 <= d -> expiration_nx d = expiration d.
Proof.
  intros Hd. unfold expiration_nx, expiration. destruct (Z.eqb_spec d 0) as [->|]; [done|].
  destruct (Z.eqb_spec d (-1)) as [->|]; [done|]. by destruct (Z.ltb_spec 0 d); [|lia].
Qed.

Lemma expiration_nx_pos `{!ClientOptions} d : 0 < d -> expiration_nx d = PX (client_ms d).
Proof. intros Hd. unfold expiration_nx. destruct (Z.eqb_spec d 0); [lia|]. by destruct (Z.eqb_spec d (-1)); [lia|]. Qed.

(** [strings.TrimRight(s, ":")] and [strings.TrimSuffix(s, ":")]. *)
Definition colon : Ascii.ascii := Ascii.ascii_of_nat 58.
Fixpoint TrimRight (s : string) : string :=
  match s with
  | EmptyString => EmptyString
  | String a s' =>
      let r := TrimRight s' in
      if Ascii.eqb a colon && bool_decide (r = EmptyString) then EmptyString else String a r
  end.
Fixpoint TrimSuffix (s : string) : string :=
  match s with
  | EmptyString => EmptyString
  | String a EmptyString => if Ascii.eqb a colon then EmptyString else s
  | String a s' => String a (TrimSuffix s')
  end.

(** Two keys under a prefix are two keys of the server. *)
Lemma prefix_ne p k k' : k <> k' -> p +:+ k <> p +:+ k'.
Proof. intros Hne Heq. apply Hne. by apply (inj (String.append p)) in Heq. Qed.

(** Applying options in order; a nil option is skipped. *)
Definition apply_options {C} (options : list (option (C -> C))) (c : C) : C :=
  foldl (fun c o => match o with Some f => f c | None => c end) c options.

(** ** A server that meets the laws *)

Record MapServer := mkMapServer { cells : gmap string entry }.

#[export] Instance map_server : RedisServer MapServer := {|
  exec t k c r :=
    let '(e, rep) := cmd_spec (fun ms => (t / 1000000 + ms + 1) * 1000000) c
                       (unexpired t (cells r !! k)) in
    (mkMapServer (partial_alter (fun _ => e) k (cells r)), rep);
  ends t ms := (t / 1000000 + ms + 1) * 1000000
|}.

#[export, refine] Instance map_server_laws : RedisLaws MapServer := {|
  lookup_at r t k := unexpired t (cells r !! k)
|}.
Proof.
  - intros r t t' k Ht. by rewrite unexpired_later.
  - intros t ms. simpl. pose proof (Z.div_mod t 1000000). pose proof (Z.mod_pos_bound t 1000000). lia.
  - intros r t k c. simpl. by destruct (cmd_spec _ _ _).
  - intros r t k c. simpl. destruct (cmd_spec _ _ _) as [e rep]. simpl. by rewrite lookup_partial_alter_eq.
  - intros r t k c t' k' Hne Ht. simpl. destruct (cmd_spec _ _ _) as [e rep]. simpl.
    by rewrite lookup_partial_alter_ne.
Defined.

Definition empty_server : MapServer := mkMapServer ∅.

Lemma empty_server_lookup t k : lookup_at empty_server t k = None.
Proof. simpl. by rewrite lookup_empty. Qed.
