(* ===== verification/LuaNum.v ===== *)
(** * Lua numbers

    The scripts run by Redis compute with doubles.  Every number they handle is
    an integer, or the quotient of two integers on the way to [math.floor] or
    [math.ceil]; both are rounded to 53 bits, half to even.  Integers of at most
    53 bits are exact, and so are the floor and the ceiling of a quotient whose
    dividend is below [2^53]: the rounding never carries it over an integer. *)

From S2P Require Import Prelude.
From stdpp Require Import options.
Local Open Scope Z_scope.

(** [a / b] to the nearest integer, half to even. *)
Definition nearest (a b : Z) : Z :=
  let q := a / b in
  let r := a mod b in
  if 2 * r <? b then q else if b <? 2 * r then q + 1 else if Z.even q then q else q + 1.

(** The exponent of [a / b], for positive [a] and [b]:
    [2^52 <= a / (b * 2^e) < 2^53]. *)
Definition exponent (a b : Z) : Z :=
  let e := Z.log2 a - Z.log2 b - 52 in
  if a * 2 ^ Z.max 0 (- (e + 52)) <? b * 2 ^ Z.max 0 (e + 52) then e - 1 else e.

(** The double nearest to [a / b], for [a >= 0] and [b > 0], as a fraction. *)
Definition lua_quot (a b : Z) : Z * Z :=
  if a =? 0 then (0, 1) else
  let e := exponent a b in
  (nearest (a * 2 ^ Z.max 0 (- e)) (b * 2 ^ Z.max 0 e) * 2 ^ Z.max 0 e, 2 ^ Z.max 0 (- e)).

(** [math.floor(a / b)] and [math.ceil(a / b)] for [b > 0]; rounding is
    symmetric. *)
Definition ceil_div (n d : Z) : Z := - ((- n) / d).
Definition lua_floor_div (a b : Z) : Z :=
  let '(n, d) := lua_quot (Z.abs a) b in
  if a <? 0 then (- n) / d else n / d.
Definition lua_ceil_div (a b : Z) : Z :=
  let '(n, d) := lua_quot (Z.abs a) b in
  if a <? 0 then ceil_div (- n) d else ceil_div n d.

(** The double nearest to an integer. *)
Definition lua_num (z : Z) : Z := lua_floor_div z 1.

Lemma nearest_bounds a b : 0 < b -> a / b <= nearest a b <= a / b + 1.
Proof. intros Hb. unfold nearest. repeat destruct (_ <? _); try destruct (Z.even _); lia. Qed.

(** A rounded quotient is within half a unit. *)
Lemma nearest_half a b : 0 < b -> 2 * Z.abs (b * nearest a b - a) <= b.
Proof.
  intros Hb. unfold nearest. pose proof (Z.div_mod a b ltac:(lia)). pose proof (Z.mod_pos_bound a b Hb).
  destruct (Z.ltb_spec (2 * (a mod b)) b); [nia|]. destruct (Z.ltb_spec b (2 * (a mod b))); [nia|].
  destruct (Z.even _); nia.
Qed.

Lemma nearest_exact q b : 0 < b -> nearest (q * b) b = q.
Proof.
  intros Hb. unfold nearest. rewrite Z.div_mul, Z.mod_mul by lia.
  by destruct (Z.ltb_spec (2 * 0) b); [|lia].
Qed.

(** The unit of [a / b] is small: [a / b >= 2^52 * 2^e]. *)
Lemma exponent_low a b : 0 < a -> 0 < b ->
  b * 2 ^ Z.max 0 (exponent a b + 52) <= a * 2 ^ Z.max 0 (- (exponent a b + 52)).
Proof.
  intros Ha Hb. unfold exponent. set (e := Z.log2 a - Z.log2 b - 52).
  destruct (Z.ltb_spec (a * 2 ^ Z.max 0 (- (e + 52))) (b * 2 ^ Z.max 0 (e + 52))) as [H|H]; [|done].
  destruct (Z.log2_spec a Ha) as [Ha1 Ha2]. destruct (Z.log2_spec b Hb) as [Hb1 Hb2].
  pose proof (Z.log2_nonneg a). pose proof (Z.log2_nonneg b).
  set (d := Z.log2 a - Z.log2 b) in *. replace (e - 1 + 52) with (d - 1) by lia.
  destruct (Z.le_gt_cases 1 d) as [Hd|Hd].
  - rewrite (Z.max_r 0 (d - 1)), (Z.max_l 0 (- (d - 1))) by lia. rewrite Z.pow_0_r, Z.mul_1_r.
    assert (2 ^ Z.log2 a = 2 ^ Z.succ (Z.log2 b) * 2 ^ (d - 1)) as E
      by (rewrite <- Z.pow_add_r by lia; f_equal; lia).
    assert (0 < 2 ^ (d - 1)) by (apply Z.pow_pos_nonneg; lia). nia.
  - rewrite (Z.max_l 0 (d - 1)), (Z.max_r 0 (- (d - 1))) by lia. rewrite Z.pow_0_r, Z.mul_1_r.
    assert (2 ^ Z.succ (Z.log2 b) = 2 ^ Z.log2 a * 2 ^ (- (d - 1))) as E
      by (rewrite <- Z.pow_add_r by lia; f_equal; lia).
    assert (0 < 2 ^ (- (d - 1))) by (apply Z.pow_pos_nonneg; lia). nia.
Qed.

(** With a dividend below [2^53] a quotient keeps its distance to the integers: the double is
    an integer exactly when the quotient is, and lies between the same two. *)
Lemma lua_quot_between a b n d k :
  0 <= a -> 0 < b -> a < 2 ^ 53 -> lua_quot a b = (n, d) ->
  0 < d /\ (k * b <= a -> k * d <= n) /\ (k * b < a -> k * d < n) /\
  (a <= k * b -> n <= k * d) /\ (a < k * b -> n < k * d).
Proof.
  intros Ha Hb Hab. unfold lua_quot. destruct (Z.eqb_spec a 0) as [->|Hne].
  { intros [= <- <-]. split_and!; try lia; intros; nia. }
  assert (Ha' : 0 < a) by lia. pose proof (exponent_low a b Ha' Hb) as Hlow.
  set (e := exponent a b) in *.
  assert (He : e <= 0).
  { destruct (Z.le_gt_cases 1 e) as [He|]; [|lia]. rewrite Z.max_r in Hlow by lia.
    rewrite (Z.max_l 0 (- (e + 52))) in Hlow by lia. rewrite Z.pow_0_r, Z.mul_1_r in Hlow.
    pose proof (Z.pow_le_mono_r 2 53 (e + 52) ltac:(lia) ltac:(lia)). nia. }
  rewrite (Z.max_l 0 e), (Z.max_r 0 (- e)) by lia. rewrite Z.pow_0_r, !Z.mul_1_r.
  set (D := 2 ^ (- e)) in *. assert (HD : 0 < D) by (apply Z.pow_pos_nonneg; lia).
  assert (HDa : b * 2 ^ 52 <= a * D).
  { destruct (Z.le_gt_cases 0 (e + 52)) as [H1|H1].
    - rewrite Z.max_r, (Z.max_l 0 (- (e + 52))) in Hlow by lia. rewrite Z.pow_0_r, Z.mul_1_r in Hlow.
      assert (2 ^ 52 = 2 ^ (e + 52) * D) as -> by (unfold D; rewrite <- Z.pow_add_r by lia; f_equal; lia). nia.
    - rewrite Z.max_l, (Z.max_r 0 (- (e + 52))) in Hlow by lia. rewrite Z.pow_0_r, Z.mul_1_r in Hlow.
      assert (D = 2 ^ 52 * 2 ^ (- (e + 52))) as -> by (unfold D; rewrite <- Z.pow_add_r by lia; f_equal; lia). nia. }
  intros [= <- <-]. pose proof (nearest_half (a * D) b Hb) as Hh.
  set (m := nearest (a * D) b) in *.
  assert (Hbig : b < 2 * D) by nia.
  split; [done|]. destruct (decide (a = k * b)) as [->|Hk].
  { assert (m = k * D) as -> by (unfold m; replace (k * b * D) with (k * D * b) by lia; by apply nearest_exact).
    split_and!; intros; nia. }
  split_and!; intros Hc; try (assert (k * b < a \/ a < k * b) as [|] by lia; nia).
Qed.

Lemma lua_floor_div_exact a b :
  0 < b -> Z.abs a < 2 ^ 53 -> lua_floor_div a b = a / b.
Proof.
  intros Hb Hab. unfold lua_floor_div. destruct (lua_quot (Z.abs a) b) as [n d] eqn:E.
  pose proof (fun k => lua_quot_between _ _ n d k (Z.abs_nonneg a) Hb Hab E) as L.
  destruct (L 0) as (Hd & _). pose proof (Z.div_mod a b ltac:(lia)). pose proof (Z.mod_pos_bound a b Hb).
  destruct (Z.ltb_spec a 0).
  - symmetry. apply (Z.div_unique_pos _ d _ (- n - d * (a / b))); [|lia].
    destruct (L (- (a / b))) as (_ & _ & _ & L1 & _). destruct (L (- (a / b) - 1)) as (_ & _ & L2 & _ & _).
    rewrite Z.abs_neq in * by lia. specialize (L1 ltac:(nia)). specialize (L2 ltac:(nia)). nia.
  - symmetry. apply (Z.div_unique_pos _ d _ (n - d * (a / b))); [|lia].
    destruct (L (a / b)) as (_ & L1 & _). destruct (L (a / b + 1)) as (_ & _ & _ & _ & L2).
    rewrite Z.abs_eq in * by lia. specialize (L1 ltac:(nia)). specialize (L2 ltac:(nia)). nia.
Qed.

Lemma lua_ceil_div_exact a b :
  0 < b -> Z.abs a < 2 ^ 53 -> lua_ceil_div a b = ceil_div a b.
Proof.
  intros Hb Hab. pose proof (lua_floor_div_exact (- a) b Hb ltac:(lia)) as F.
  unfold lua_ceil_div, lua_floor_div, ceil_div in *. rewrite Z.abs_opp in F.
  destruct (lua_quot (Z.abs a) b) as [n d] eqn:E.
  pose proof (lua_quot_between _ _ n d 0 (Z.abs_nonneg a) Hb Hab E) as (Hd & L1 & _ & L2 & _).
  destruct (Z.ltb_spec a 0), (Z.ltb_spec (- a) 0); try lia.
  - by rewrite Z.opp_involutive, F.
  - assert (a = 0) as -> by lia. assert (n = 0) as -> by lia. done.
Qed.

Lemma lua_num_exact z : Z.abs z < 2 ^ 53 -> lua_num z = z.
Proof. intros Hz. unfold lua_num. rewrite lua_floor_div_exact by lia. apply Z.div_1_r. Qed.

Example lua_num_ex :
  lua_num (2 ^ 53 + 1) = 2 ^ 53 /\ lua_num (2 ^ 53 + 3) = 2 ^ 53 + 4 /\ lua_num (- (2 ^ 53 + 1)) = - 2 ^ 53 /\
  lua_floor_div 7 2 = 3 /\ lua_floor_div (-7) 2 = -4 /\ lua_ceil_div 1001 1000 = 2 /\
  lua_floor_div (2 ^ 60 - 1) (2 ^ 60) = 1.
Proof. vm_compute. split_and!; reflexivity. Qed.

(** ** Integers beyond 53 bits *)

Lemma nearest_mono a a' b : 0 < b -> a <= a' -> nearest a b <= nearest a' b.
Proof.
  intros Hb Ha. pose proof (nearest_half a b Hb) as H1. pose proof (nearest_half a' b Hb) as H2.
  destruct (Z.le_gt_cases (nearest a b) (nearest a' b)) as [|Hgt]; [done|].
  (* both are half way between the same two integers *)
  assert (a' = a) as -> by nia. lia.
Qed.

Lemma nearest_le a b k : 0 < b -> a <= k * b -> nearest a b <= k.
Proof. intros Hb Ha. rewrite <- (nearest_exact k b Hb). by apply nearest_mono. Qed.
Lemma nearest_ge a b k : 0 < b -> k * b <= a -> k <= nearest a b.
Proof. intros Hb Ha. rewrite <- (nearest_exact k b Hb). by apply nearest_mono. Qed.

(** An integer of more than 53 bits is rounded to a multiple of the unit of its
    highest bit. *)
Definition unit_of (z : Z) : Z := 2 ^ Z.max 0 (Z.log2 z - 52).

Lemma lua_num_large z : 0 < z -> lua_num z = nearest z (unit_of z) * unit_of z.
Proof.
  intros Hz. unfold lua_num, lua_floor_div. rewrite Z.abs_eq by lia.
  destruct (Z.ltb_spec z 0); [lia|]. unfold lua_quot. destruct (Z.eqb_spec z 0); [lia|].
  assert (He : exponent z 1 = Z.log2 z - 52).
  { unfold exponent. change (Z.log2 1) with 0. rewrite Z.sub_0_r. pose proof (Z.log2_nonneg z).
    destruct (Z.log2_spec z Hz) as [Hl _]. replace (Z.log2 z - 52 + 52) with (Z.log2 z) by lia.
    rewrite (Z.max_l 0 (- Z.log2 z)), (Z.max_r 0 (Z.log2 z)) by lia.
    destruct (Z.ltb_spec (z * 2 ^ 0) (1 * 2 ^ Z.log2 z)); lia. }
  rewrite He. unfold unit_of. set (e := Z.log2 z - 52). rewrite Z.mul_1_l.
  destruct (Z.le_gt_cases 0 e) as [H0|H0].
  - rewrite (Z.max_l 0 (- e)), (Z.max_r 0 e) by lia. rewrite Z.pow_0_r, Z.mul_1_r. apply Z.div_1_r.
  - rewrite (Z.max_r 0 (- e)), (Z.max_l 0 e) by lia. rewrite Z.pow_0_r, !Z.mul_1_r.
    assert (0 < 2 ^ (- e)) by (apply Z.pow_pos_nonneg; lia).
    pose proof (nearest_exact (z * 2 ^ (- e)) 1 ltac:(lia)) as E1. rewrite Z.mul_1_r in E1. rewrite E1.
    pose proof (nearest_exact z 1 ltac:(lia)) as E2. rewrite Z.mul_1_r in E2. rewrite E2. by apply Z.div_mul; lia.
Qed.

Lemma unit_pos z : 0 < unit_of z.
Proof. apply Z.pow_pos_nonneg; lia. Qed.

(** Rounding moves by at most half a unit. *)
Lemma lua_num_near z : 0 < z -> 2 * Z.abs (lua_num z - z) <= unit_of z.
Proof.
  intros Hz. rewrite lua_num_large by done. pose proof (nearest_half z (unit_of z) (unit_pos z)). lia.
Qed.

(** Rounding keeps the order. *)
Lemma lua_num_mono a b : 0 < a -> a <= b -> lua_num a <= lua_num b.
Proof.
  intros Ha Hab. rewrite !lua_num_large by lia. pose proof (unit_pos a) as Hua. pose proof (unit_pos b) as Hub.
  assert (Hl : Z.log2 a <= Z.log2 b) by (apply Z.log2_le_mono; lia).
  destruct (Z.eq_dec (unit_of a) (unit_of b)) as [E|Hne].
  { rewrite E. apply Z.mul_le_mono_nonneg_r; [lia|]. by apply nearest_mono. }
  assert (Hlt : Z.log2 a < Z.log2 b /\ 52 < Z.log2 b).
  { unfold unit_of in Hne. destruct (Z.eq_dec (Z.log2 a) (Z.log2 b)) as [E|]; [by rewrite E in Hne|].
    split; [lia|]. destruct (Z.le_gt_cases (Z.log2 b) 52); [|lia]. exfalso. apply Hne.
    by rewrite !Z.max_l by lia. }
  (* a power of two lies between them, a multiple of both units *)
  set (P := 2 ^ Z.log2 b). assert (HaP : a <= P).
  { destruct (Z.log2_spec a Ha) as [_ Ha2]. unfold P. pose proof (Z.pow_le_mono_r 2 (Z.succ (Z.log2 a)) (Z.log2 b)). lia. }
  assert (HbP : P <= b) by (apply Z.log2_spec; lia).
  assert (Hmul : forall x, Z.log2 x <= Z.log2 b -> exists k, P = k * unit_of x).
  { intros x Hx. exists (2 ^ (Z.log2 b - Z.max 0 (Z.log2 x - 52))). unfold P, unit_of.
    rewrite <- Z.pow_add_r by lia. f_equal. lia. }
  destruct (Hmul a Hl) as [k Hk]. destruct (Hmul b ltac:(lia)) as [k' Hk'].
  assert (nearest a (unit_of a) <= k) by (apply nearest_le; lia).
  assert (k' <= nearest b (unit_of b)) by (apply nearest_ge; lia). nia.
Qed.

(** In the range of 64-bit integers the unit is at most 1024. *)
Lemma unit_int64 z : 0 < z -> z <= maxInt64 -> unit_of z <= 1024.
Proof.
  intros Hz Hm. assert (Z.log2 z <= 62).
  { apply Z.lt_succ_r, Z.log2_lt_pow2; [done|]. unfold maxInt64 in Hm. change (2 ^ Z.succ 62) with 9223372036854775808. lia. }
  unfold unit_of. change 1024 with (2 ^ 10). apply Z.pow_le_mono_r; lia.
Qed.
