(* ===== verification/Period.v ===== *)
(** * Half-open time intervals: [src/time/period]

    [Period] is the interval [[start, end)] over instants, [Merge], [Gaps] and
    [Subtract] the set operations on slices of them.  The theorems read a slice
    of periods as the set of instants it covers ([covers]) and show that the
    operations compute union, gaps and difference of those sets, and that their
    results are in the one canonical form a set has. *)

From S2P Require Import Prelude.
From stdpp Require Import options.
Local Open Scope Z_scope.

(** ** Data and operations of [period.go] *)

Record Period := mkPeriod { start : Z; end_ : Z }.

#[export] Instance Period_eq_dec : EqDecision Period.
Proof. solve_decision. Defined.

(** [Period{}]: both endpoints are the zero time. *)
Definition zeroPeriod : Period := mkPeriod zeroTime zeroTime.

#[export] Instance Period_inhabited : Inhabited Period := populate zeroPeriod.

Inductive period_error := ErrInvalidRange.

Definition New (start end_ : Z) : Period * option period_error :=
  if end_ <? start then (zeroPeriod, Some ErrInvalidRange)
  else (mkPeriod start end_, None).

Definition IsEmpty (p : Period) : bool := start p =? end_ p.

Definition Duration (p : Period) : Z := time_sub (end_ p) (start p).

Definition Equal (p other : Period) : bool :=
  if IsEmpty p && IsEmpty other then true
  else (start p =? start other) && (end_ p =? end_ other).

Definition Contains (p : Period) (t : Z) : bool :=
  negb (t <? start p) && (t <? end_ p).

Definition ContainsPeriod (p other : Period) : bool :=
  if IsEmpty other then true
  else negb (IsEmpty p) && negb (start other <? start p) && negb (end_ other >? end_ p).

Definition Overlaps (p other : Period) : bool :=
  negb (IsEmpty p) && negb (IsEmpty other)
  && (start p <? end_ other) && (start other <? end_ p).

Definition Adjacent (p other : Period) : bool :=
  negb (IsEmpty p) && negb (IsEmpty other)
  && ((end_ p =? start other) || (end_ other =? start p)).

Definition Intersect (p other : Period) : Period * bool :=
  if negb (Overlaps p other) then (zeroPeriod, false)
  else
    let s := if start other >? start p then start other else start p in
    let e := if end_ other <? end_ p then end_ other else end_ p in
    (mkPeriod s e, true).

(** ** [set.go] *)

(** The comparison function handed to [slices.SortFunc]: by start, then by end. *)
Definition compare_period (a b : Period) : comparison :=
  match start a ?= start b with
  | Eq => end_ a ?= end_ b
  | c => c
  end.

Definition period_le (a b : Period) : Prop := compare_period a b <> Gt.

#[export] Instance period_le_dec : RelDecision period_le.
Proof. intros a b. unfold period_le. destruct (compare_period a b); solve_decision. Defined.

(** One iteration of the compaction loop of [Merge].  The loop ranges over
    [result[1:]] and writes [result[last]] in the same backing array, so the
    element is read from the array of this iteration; [result[last]] is
    [zeroPeriod] only for an index the loop never has. *)
Definition merge_step (st : list Period * nat) (i : nat) : list Period * nat :=
  let '(result, last) := st in
  let p := result !!! i in
  let cur := result !!! last in
  if start p >? end_ cur then (<[S last := p]> result, S last)
  else if end_ p >? end_ cur then (<[last := mkPeriod (start cur) (end_ p)]> result, last)
  else (result, last).

Definition merge_compact (sorted : list Period) : list Period * nat :=
  foldl merge_step (sorted, 0%nat) (seq 1 (length sorted - 1)).

Definition Merge (periods : list Period) : list Period :=
  let result := filter (fun p => IsEmpty p = false) periods in
  match result with
  | [] => []
  | _ =>
      let sorted := merge_sort period_le result in
      let '(compacted, last) := merge_compact sorted in
      let cleared := take (S last) compacted
                     ++ replicate (length compacted - S last) zeroPeriod in
      take (S last) cleared
  end.

Definition Gaps (periods : list Period) : list Period :=
  let merged := Merge periods in
  if (length merged <? 2)%nat then []
  else (fun i => mkPeriod (end_ (merged !!! (i - 1)%nat)) (start (merged !!! i)))
       <$> seq 1 (length merged - 1).

Fixpoint subtract_loop (p : Period) (cuts : list Period) (result : list Period)
    (cursor : Z) : list Period :=
  match cuts with
  | [] => result ++ [mkPeriod cursor (end_ p)]
  | cut :: rest =>
      if negb (end_ cut >? cursor) then subtract_loop p rest result cursor
      else if negb (start cut <? end_ p) then result ++ [mkPeriod cursor (end_ p)]
      else
        let result := if start cut >? cursor
                      then result ++ [mkPeriod cursor (start cut)] else result in
        let cursor := end_ cut in
        if negb (cursor <? end_ p) then result
        else subtract_loop p rest result cursor
  end.

Definition Subtract (p : Period) (others : list Period) : list Period :=
  if IsEmpty p then []
  else subtract_loop p (Merge others) [] (start p).

Example merge_ex :
  Merge [mkPeriod 5 9; mkPeriod 1 3; mkPeriod 4 4; mkPeriod 3 4; mkPeriod 6 7]
  = [mkPeriod 1 4; mkPeriod 5 9].
Proof. vm_compute. reflexivity. Qed.

Example subtract_ex :
  Subtract (mkPeriod 0 10) [mkPeriod 2 3; mkPeriod 3 5; mkPeriod 8 20]
  = [mkPeriod 0 2; mkPeriod 5 8].
Proof. vm_compute. reflexivity. Qed.

(** ** The sets of instants behind the slices *)

(** Values built by [New] (or the zero value) have ordered endpoints. *)
Definition wf (p : Period) : Prop := start p <= end_ p.

Definition instant_in (t : Z) (p : Period) : Prop := start p <= t < end_ p.

Definition covers (l : list Period) (t : Z) : Prop := Exists (instant_in t) l.

(** Canonical form: non-empty intervals in ascending order that neither overlap
    nor touch. *)
Definition apart (a b : Period) : Prop := end_ a < start b.
Definition canonical (l : list Period) : Prop :=
  Forall (fun p => start p < end_ p) l /\ Sorted apart l.

Lemma New_wf s e p : New s e = (p, None) -> wf p.
Proof. unfold New, wf. bcase; intros [= <-]; simpl; lia. Qed.

Lemma Contains_spec p t : Contains p t = true <-> instant_in t p.
Proof.
  unfold Contains, instant_in. rewrite andb_true_iff, negb_true_iff.
  rewrite Z.ltb_ge, Z.ltb_lt. lia.
Qed.

Lemma covers_nil t : covers [] t <-> False.
Proof. apply Exists_nil. Qed.
Lemma covers_cons p l t : covers (p :: l) t <-> instant_in t p \/ covers l t.
Proof. apply Exists_cons. Qed.
Lemma covers_app l1 l2 t : covers (l1 ++ l2) t <-> covers l1 t \/ covers l2 t.
Proof. apply Exists_app. Qed.

#[export] Hint Rewrite covers_nil covers_cons covers_app : go.

Lemma covers_perm l1 l2 t : l1 ≡ₚ l2 -> covers l1 t <-> covers l2 t.
Proof. intros H. unfold covers. by rewrite H. Qed.

Lemma covers_filter l t :
  Forall wf l -> covers (filter (fun p => IsEmpty p = false) l) t <-> covers l t.
Proof.
  induction 1 as [|p l Hp Hl IH]; [done|]. rewrite filter_cons.
  unfold IsEmpty, wf, instant_in in *. case_decide as He.
  - autorewrite with go. by rewrite IH.
  - autorewrite with go. rewrite IH. unfold instant_in.
    apply not_false_is_true, Z.eqb_eq in He. split; [tauto|]. intros [?|?]; [lia|done].
Qed.

Lemma canonical_cons p l :
  start p < end_ p -> canonical l ->
  (forall q, head l = Some q -> apart p q) -> canonical (p :: l).
Proof.
  intros Hp [Hne Hs] Hh. split; [by constructor|]. constructor; [done|].
  destruct l; constructor. by apply Hh.
Qed.

Lemma canonical_inv p l :
  canonical (p :: l) -> start p < end_ p /\ canonical l /\ (forall q, q ∈ l -> apart p q).
Proof.
  intros [Hne Hs]. inversion Hne as [|?? Hp Hne']; subst.
  split; [done|]. split; [split; [done|by inversion Hs]|].
  assert (Hss : Sorted (fun a b => end_ a < start b /\ start a < end_ a /\ start b < end_ b) (p :: l)).
  { clear Hp. revert p Hne Hs. induction l as [|q l IH]; intros p Hne Hs; [repeat constructor|].
    inversion Hne; inversion Hs as [|?? Hs' Hh]; subst.
    inversion Hh; subst. inversion Hne'; subst. constructor.
    - apply IH; done.
    - constructor. unfold apart in *. done. }
  apply Sorted_StronglySorted in Hss; [|intros ??? (?&?&?) (?&?&?); lia].
  inversion Hss as [|?? _ Hall]; subst. rewrite Forall_forall in Hall.
  intros q Hq. by destruct (Hall q Hq).
Qed.

Lemma canonical_covers_after p l t :
  canonical (p :: l) -> covers l t -> end_ p < t.
Proof.
  intros Hc Ht. apply canonical_inv in Hc as (_ & _ & Hap).
  apply Exists_exists in Ht as (q & Hq & Hin). specialize (Hap q Hq).
  unfold apart, instant_in in *. lia.
Qed.

(** The set determines the canonical slice. *)
Lemma canonical_unique l1 l2 :
  canonical l1 -> canonical l2 -> (forall t, covers l1 t <-> covers l2 t) -> l1 = l2.
Proof.
  revert l2. induction l1 as [|p l1 IH]; intros [|q l2] H1 H2 Hcov.
  - done.
  - destruct (canonical_inv _ _ H2) as (Hq & _).
    exfalso. apply (covers_nil (start q)), Hcov, covers_cons. unfold instant_in. lia.
  - destruct (canonical_inv _ _ H1) as (Hp & _).
    exfalso. apply (covers_nil (start p)), Hcov, covers_cons. unfold instant_in. lia.
  - pose proof (canonical_covers_after p l1) as Ap. pose proof (canonical_covers_after q l2) as Aq.
    destruct (canonical_inv _ _ H1) as (Hp & Hc1 & _).
    destruct (canonical_inv _ _ H2) as (Hq & Hc2 & _).
    assert (Hins : forall t, (instant_in t p \/ covers l1 t) <-> (instant_in t q \/ covers l2 t)).
    { intros t. rewrite <- !covers_cons. apply Hcov. }
    unfold instant_in in *.
    assert (Hst : start p = start q).
    { destruct (Hins (start p)) as [F _]. destruct (Hins (start q)) as [_ G].
      destruct F as [F|F]; [lia| |]; destruct G as [G|G]; try lia;
        try specialize (Ap _ H1 G); try specialize (Aq _ H2 F); lia. }
    assert (Hen : end_ p = end_ q).
    { destruct (Z.lt_trichotomy (end_ p) (end_ q)) as [Hlt|[?|Hlt]]; [|done|].
      - destruct (Hins (end_ p)) as [_ G]. destruct G as [G|G]; [lia|lia|].
        specialize (Ap _ H1 G). lia.
      - destruct (Hins (end_ q)) as [F _]. destruct F as [F|F]; [lia|lia|].
        specialize (Aq _ H2 F). lia. }
    destruct p, q; simpl in *; subst. f_equal. apply IH; [done..|].
    intros t. specialize (Hins t). split; intros Ht.
    + specialize (Ap _ H1 Ht). destruct (proj1 Hins) as [?|?]; auto; lia.
    + specialize (Aq _ H2 Ht). destruct (proj2 Hins) as [?|?]; auto; lia.
Qed.

(** ** The in-place compaction computes a structural merge *)

Fixpoint merge_ref (cur : Period) (rest : list Period) : list Period :=
  match rest with
  | [] => [cur]
  | p :: ps =>
      if start p >? end_ cur then cur :: merge_ref p ps
      else if end_ p >? end_ cur then merge_ref (mkPeriod (start cur) (end_ p)) ps
      else merge_ref cur ps
  end.

Lemma merge_compact_ref k i last result :
  (i + k = length result)%nat -> (last < i)%nat ->
  let '(r, l) := foldl merge_step (result, last) (seq i k) in
  (l < length r)%nat /\
  take (S l) r = take last result ++ merge_ref (result !!! last) (drop i result).
Proof.
  revert i last result. induction k as [|k IH]; intros i last result Hlen Hlt.
  - simpl. split; [lia|]. rewrite drop_ge by lia. simpl.
    destruct (lookup_lt_is_Some_2 result last) as [c Hc]; [lia|].
    rewrite (list_lookup_total_correct _ _ _ Hc). by apply take_S_r.
  - simpl. destruct (lookup_lt_is_Some_2 result i) as [p Hp]; [lia|].
    destruct (lookup_lt_is_Some_2 result last) as [c Hc]; [lia|].
    rewrite (drop_S _ _ _ Hp). rewrite !(list_lookup_total_correct _ _ _ Hp).
    rewrite !(list_lookup_total_correct _ _ _ Hc).
    simpl. destruct (start p >? end_ c) eqn:E1; [|destruct (end_ p >? end_ c) eqn:E2].
    + specialize (IH (S i) (S last) (<[S last:=p]> result)).
      destruct (foldl _ _ _) as [r l]. destruct IH as [? IH];
        [rewrite length_insert; lia|lia|]. split; [done|]. rewrite IH.
      rewrite list_lookup_total_insert_eq by lia. rewrite drop_insert_lt by lia.
      rewrite take_insert_ge by lia. rewrite (take_S_r _ _ _ Hc), <- (assoc_L (++)). done.
    + specialize (IH (S i) last (<[last:=mkPeriod (start c) (end_ p)]> result)).
      destruct (foldl _ _ _) as [r l]. destruct IH as [? IH];
        [rewrite length_insert; lia|lia|]. split; [done|]. rewrite IH.
      rewrite list_lookup_total_insert_eq by lia. rewrite drop_insert_lt by lia.
      by rewrite take_insert_ge by lia.
    + specialize (IH (S i) last result).
      destruct (foldl _ _ _) as [r l]. destruct IH as [? IH]; [lia|lia|].
      split; [done|]. rewrite IH. by rewrite (list_lookup_total_correct _ _ _ Hc).
Qed.

Lemma Merge_ref_eq ps c rest :
  merge_sort period_le (filter (fun p => IsEmpty p = false) ps) = c :: rest ->
  Merge ps = merge_ref c rest.
Proof.
  intros Hs. unfold Merge.
  destruct (filter _ ps) as [|x l] eqn:Hf; [discriminate|].
  rewrite Hs. unfold merge_compact.
  pose proof (merge_compact_ref (length (c :: rest) - 1) 1 0 (c :: rest)) as H.
  destruct (foldl _ _ _) as [r k]. simpl in H. destruct H as [Hk Htake]; [lia..|].
  rewrite take_app_le by (rewrite length_take; lia). rewrite take_take, Nat.min_id, Htake. done.
Qed.

Lemma period_le_start a b : period_le a b -> start a <= start b.
Proof.
  unfold period_le, compare_period.
  destruct (Z.compare_spec (start a) (start b)); intros; lia || congruence.
Qed.

#[export] Instance period_le_trans : Transitive period_le.
Proof.
  intros a b c. unfold period_le, compare_period.
  repeat match goal with |- context [?x ?= ?y] => destruct (Z.compare_spec x y) end;
    intros; try congruence; try lia.
Qed.

#[export] Instance period_le_total : Total period_le.
Proof.
  intros a b. unfold period_le, compare_period.
  repeat match goal with |- context [?x ?= ?y] => destruct (Z.compare_spec x y) end;
    try (left; congruence); try (right; congruence); lia.
Qed.

Definition by_start (a b : Period) : Prop := start a <= start b.

Lemma merge_ref_covers cur rest t :
  Forall (fun p => start p < end_ p) (cur :: rest) ->
  StronglySorted by_start (cur :: rest) ->
  covers (merge_ref cur rest) t <-> covers (cur :: rest) t.
Proof.
  revert cur. induction rest as [|p ps IH]; intros cur Hne Hs; [done|].
  inversion Hne as [|?? Hc Hne1]; subst. inversion Hne1 as [|?? Hp Hne2]; subst.
  inversion Hs as [|?? Hs1 Hall]; subst. inversion Hall as [|?? Hcp Hall']; subst.
  inversion Hs1 as [|?? Hs2 Hallp]; subst. unfold by_start in *. simpl.
  destruct (Z.gtb_spec (start p) (end_ cur)); [|destruct (Z.gtb_spec (end_ p) (end_ cur))].
  - autorewrite with go. rewrite IH by (by constructor). by autorewrite with go.
  - rewrite IH; [|by repeat (constructor; simpl; [lia|])|by constructor].
    autorewrite with go. unfold instant_in. simpl. split; [|intuition lia].
    intros [?|?]; [|by auto]. destruct (decide (t < end_ cur)); [left|right; left]; lia.
  - rewrite IH; [|by constructor|by constructor]. autorewrite with go.
    unfold instant_in. intuition lia.
Qed.

Lemma merge_ref_head cur rest : exists e tl, merge_ref cur rest = mkPeriod (start cur) e :: tl.
Proof.
  revert cur. induction rest as [|p ps IH]; intros cur; simpl; [destruct cur; eauto|].
  destruct cur. repeat case_match; simpl; eauto.
Qed.

Lemma merge_ref_canonical cur rest :
  Forall (fun p => start p < end_ p) (cur :: rest) ->
  StronglySorted by_start (cur :: rest) ->
  canonical (merge_ref cur rest).
Proof.
  revert cur. induction rest as [|p ps IH]; intros cur Hne Hs.
  { split; [done|]. repeat constructor. }
  inversion Hne as [|?? Hc Hne1]; subst. inversion Hne1 as [|?? Hp Hne2]; subst.
  inversion Hs as [|?? Hs1 Hall]; subst. inversion Hall as [|?? Hcp Hall']; subst.
  inversion Hs1 as [|?? Hs2 Hallp]; subst. unfold by_start in *. simpl.
  destruct (Z.gtb_spec (start p) (end_ cur)); [|destruct (Z.gtb_spec (end_ p) (end_ cur))].
  - apply canonical_cons; [done|by apply IH|].
    destruct (merge_ref_head p ps) as (e & tl & ->). intros q [= <-]. unfold apart; simpl; lia.
  - apply IH; [by repeat (constructor; simpl; [lia|])|by constructor].
  - apply IH; [by constructor|by constructor].
Qed.

Lemma sorted_nonempty ps :
  Forall wf ps ->
  let s := merge_sort period_le (filter (fun p => IsEmpty p = false) ps) in
  Forall (fun p => start p < end_ p) s /\ StronglySorted by_start s /\
  (forall t, covers s t <-> covers ps t).
Proof.
  intros Hwf s. assert (Hp : s ≡ₚ filter (fun p => IsEmpty p = false) ps)
    by apply merge_sort_Permutation.
  split_and!.
  - rewrite Hp. apply Forall_forall. intros p [He Hin]%list_elem_of_filter.
    rewrite Forall_forall in Hwf. specialize (Hwf p Hin). unfold IsEmpty, wf in *.
    apply Z.eqb_neq in He. lia.
  - assert (StronglySorted period_le s) as Hss by (apply (StronglySorted_merge_sort _)).
    clear -Hss. induction Hss as [|a l ? IH Hall]; constructor; [done|].
    eapply Forall_impl; [exact Hall|]. apply period_le_start.
  - intros t. rewrite (covers_perm _ _ _ Hp). by apply covers_filter.
Qed.

Lemma Merge_facts ps :
  Forall wf ps -> canonical (Merge ps) /\ (forall t, covers (Merge ps) t <-> covers ps t).
Proof.
  intros Hwf. destruct (sorted_nonempty ps Hwf) as (Hne & Hs & Hcov).
  destruct (merge_sort period_le (filter _ ps)) as [|c rest] eqn:E.
  - assert (Merge ps = []) as ->.
    { unfold Merge. destruct (filter _ ps) as [|x l] eqn:Hf; [done|].
      assert (Hp := merge_sort_Permutation period_le (x :: l)). rewrite E in Hp.
      by apply Permutation_nil_cons in Hp. }
    split; [split; constructor|]. done.
  - rewrite (Merge_ref_eq _ _ _ E). split; [by apply merge_ref_canonical|].
    intros t. rewrite merge_ref_covers by done. apply Hcov.
Qed.

(** ** Subtraction *)

Lemma subtract_loop_app p cuts result cursor :
  subtract_loop p cuts result cursor = result ++ subtract_loop p cuts [] cursor.
Proof.
  revert result cursor. induction cuts as [|cut rest IH]; intros result cursor; simpl; [done|].
  destruct (end_ cut >? cursor), (start cut <? end_ p), (start cut >? cursor),
    (end_ cut <? end_ p); simpl; rewrite ?app_nil_r; try done;
    rewrite IH; try done; rewrite (IH [_]), (assoc_L (++)); done.
Qed.

Lemma subtract_loop_spec p cuts cursor :
  canonical cuts -> cursor < end_ p ->
  let out := subtract_loop p cuts [] cursor in
  canonical out /\ Forall (fun q => cursor <= start q) out /\
  (forall t, covers out t <-> (cursor <= t < end_ p /\ ~ covers cuts t)).
Proof.
  revert cursor. induction cuts as [|cut rest IH]; intros cursor Hcan Hcur; simpl.
  { split_and!; [split; repeat constructor; done|repeat constructor; simpl; lia|].
    intros t. autorewrite with go. unfold instant_in; simpl. tauto. }
  pose proof (canonical_covers_after cut rest) as Haft.
  destruct (canonical_inv _ _ Hcan) as (Hcut & Hrest & _).
  destruct (Z.gtb_spec (end_ cut) cursor); simpl.
  2:{ destruct (IH cursor Hrest Hcur) as (Hc & Hs & Hcov). split_and!; [done..|].
      intros t. rewrite Hcov, covers_cons. unfold instant_in. intuition lia. }
  destruct (Z.ltb_spec (start cut) (end_ p)); simpl.
  2:{ split_and!; [split; repeat constructor; done|repeat constructor; simpl; lia|].
      intros t. autorewrite with go. unfold instant_in; simpl.
      split; [|tauto]. intros [?|[]]. split; [lia|]. intros [?|Hr]; [lia|].
      specialize (Haft t Hcan Hr). lia. }
  destruct (Z.ltb_spec (end_ cut) (end_ p)) as [Hlt|Hge]; simpl.
  - destruct (IH (end_ cut) Hrest Hlt) as (Hc & Hs & Hcov).
    destruct (Z.gtb_spec (start cut) cursor).
    + rewrite subtract_loop_app. simpl. split_and!.
      * apply canonical_cons; [simpl; lia|done|]. intros q Hq.
        assert (q ∈ subtract_loop p rest [] (end_ cut)) as Hin.
        { destruct (subtract_loop p rest [] (end_ cut)); [done|]. injection Hq as ->. left. }
        rewrite Forall_forall in Hs. specialize (Hs q Hin). unfold apart; simpl; lia.
      * constructor; [simpl; lia|]. eapply Forall_impl; [exact Hs|]. simpl; intros; lia.
      * intros t. rewrite !covers_cons, Hcov. unfold instant_in. simpl.
        specialize (Haft t Hcan).
        destruct (decide (t < start cut)), (decide (t < end_ cut)); intuition lia.
    + split_and!; [done| |].
      * eapply Forall_impl; [exact Hs|]. simpl; intros; lia.
      * intros t. rewrite !covers_cons, Hcov. unfold instant_in. simpl.
        specialize (Haft t Hcan).
        destruct (decide (t < start cut)), (decide (t < end_ cut)); intuition lia.
  - destruct (Z.gtb_spec (start cut) cursor); simpl.
    + split_and!; [split; repeat constructor; done|repeat constructor; simpl; lia|].
      intros t. autorewrite with go. unfold instant_in; simpl.
      specialize (Haft t Hcan).
        destruct (decide (t < start cut)), (decide (t < end_ cut)); intuition lia.
    + split_and!; [split; constructor|constructor|].
      intros t. autorewrite with go. unfold instant_in. intuition lia.
Qed.

(** ** Gaps *)

Fixpoint gaps_ref (a : Period) (l : list Period) : list Period :=
  match l with
  | [] => []
  | b :: l' => mkPeriod (end_ a) (start b) :: gaps_ref b l'
  end.

Lemma gaps_loop_ref (pre : list Period) a l :
  (fun i => mkPeriod (end_ ((pre ++ a :: l) !!! (i - 1)%nat)) (start ((pre ++ a :: l) !!! i)))
    <$> seq (S (length pre)) (length l) = gaps_ref a l.
Proof.
  revert pre a. induction l as [|b l IH]; intros pre a; [done|].
  simpl. f_equal.
  - rewrite Nat.sub_0_r. f_equal; f_equal; apply list_lookup_total_correct.
    + apply lookup_snoc_length.
    + rewrite lookup_app_r by lia. by replace (S (length pre) - length pre)%nat with 1%nat by lia.
  - specialize (IH (pre ++ [a]) b). rewrite <- (assoc_L (++)) in IH. simpl in IH.
    rewrite length_app in IH. simpl in IH. rewrite Nat.add_1_r in IH. exact IH.
Qed.

Lemma Gaps_ref_eq ps :
  Gaps ps = match Merge ps with [] => [] | a :: l => gaps_ref a l end.
Proof.
  unfold Gaps. destruct (Merge ps) as [|a l]; [done|].
  replace (length (a :: l) - 1)%nat with (length l) by (simpl; lia).
  rewrite <- (gaps_loop_ref [] a l). destruct l; done.
Qed.

Lemma gaps_ref_spec a l :
  canonical (a :: l) ->
  canonical (gaps_ref a l) /\ Forall (fun q => end_ a <= start q) (gaps_ref a l) /\
  (forall t, covers (gaps_ref a l) t <->
     (end_ a <= t /\ ~ covers l t /\ exists b, covers l b /\ t < b)).
Proof.
  revert a. induction l as [|b l IH]; intros a Hcan; simpl.
  { split_and!; [split; constructor|constructor|]. intros t. rewrite covers_nil.
    split; [done|]. intros (_ & _ & x & Hx%covers_nil & _). done. }
  pose proof (canonical_inv _ _ Hcan) as (Ha & Hbl & Hap).
  destruct (IH b Hbl) as (Hc & Hs & Hcov). pose proof (canonical_inv _ _ Hbl) as (Hb & _).
  pose proof (Hap b ltac:(left)) as Hab. unfold apart in Hab.
  pose proof (fun t => canonical_covers_after b l t Hbl) as Haft.
  split_and!.
  - apply canonical_cons; [done|done|]. intros q Hq.
    destruct (gaps_ref b l); [done|]. injection Hq as ->. inversion Hs; subst.
    unfold apart; simpl; lia.
  - constructor; [simpl; lia|]. eapply Forall_impl; [exact Hs|]. simpl; intros; lia.
  - intros t. rewrite covers_cons, Hcov. setoid_rewrite covers_cons.
    unfold instant_in; simpl. split.
    + intros [Ht|(Ht & Hn & x & Hx & Hlt)].
      * split_and!; [lia| |exists (start b); lia]. intros [?|Hl]; [lia|].
        specialize (Haft t Hl). lia.
      * split_and!; [lia| |exists x; auto]. intros [?|?]; [lia|done].
    + intros (Ht & Hn & x & Hx & Hlt).
      destruct (decide (t < start b)); [left; lia|]. right.
      destruct Hx as [?|Hx]; [exfalso; apply Hn; left; lia|].
      split_and!; [|tauto|eauto]. destruct (decide (t < end_ b)); [|lia].
      exfalso. apply Hn. left. lia.
Qed.

(** ** Properties *)

(** C30: [Merge] returns the union of its arguments: the same instants are
    covered before and after, and the result is non-empty intervals in
    ascending order that neither overlap nor touch. *)
Theorem Merge_union ps :
  Forall wf ps ->
  canonical (Merge ps) /\ (forall t, covers (Merge ps) t <-> covers ps t).
Proof. apply Merge_facts. Qed.

Lemma Merge_union_witness :
  Forall wf [mkPeriod 5 9; mkPeriod 1 3; mkPeriod 3 4] /\
  canonical (Merge [mkPeriod 5 9; mkPeriod 1 3; mkPeriod 3 4]) /\
  (forall t, covers (Merge [mkPeriod 5 9; mkPeriod 1 3; mkPeriod 3 4]) t
             <-> covers [mkPeriod 5 9; mkPeriod 1 3; mkPeriod 3 4] t).
Proof.
  assert (H : Forall wf [mkPeriod 5 9; mkPeriod 1 3; mkPeriod 3 4])
    by (repeat constructor; unfold wf; simpl; lia).
  split; [exact H|]. apply (Merge_union _ H).
Defined.

(** The result of [Merge] depends only on the set of instants its argument
    covers, not on the order, multiplicity or splitting of the intervals:
    two arguments have the same [Merge] exactly when they cover the same set. *)
Theorem Merge_normal_form ps qs :
  Forall wf ps -> Forall wf qs ->
  Merge ps = Merge qs <-> (forall t, covers ps t <-> covers qs t).
Proof.
  intros Hp Hq. destruct (Merge_facts ps Hp) as [Hcp Hvp].
  destruct (Merge_facts qs Hq) as [Hcq Hvq]. split.
  - intros E t. by rewrite <- Hvp, <- Hvq, E.
  - intros E. apply canonical_unique; [done..|]. intros t. rewrite Hvp, Hvq. apply E.
Qed.

Lemma Merge_normal_form_witness :
  Merge [mkPeriod 3 5; mkPeriod 1 3] = Merge [mkPeriod 1 5] /\
  (forall t, covers [mkPeriod 3 5; mkPeriod 1 3] t <-> covers [mkPeriod 1 5] t).
Proof.
  assert (E : Merge [mkPeriod 3 5; mkPeriod 1 3] = Merge [mkPeriod 1 5])
    by (vm_compute; reflexivity).
  split; [exact E|].
  apply (Merge_normal_form [mkPeriod 3 5; mkPeriod 1 3] [mkPeriod 1 5]);
    [repeat constructor; unfold wf; simpl; lia..|exact E].
Defined.

(** [Subtract] is set difference: an instant is covered by the result exactly
    when it lies in the period and in none of the cuts, and the result is in
    canonical form. *)
Theorem Subtract_difference p others :
  wf p -> Forall wf others ->
  canonical (Subtract p others) /\
  (forall t, covers (Subtract p others) t <-> (instant_in t p /\ ~ covers others t)).
Proof.
  intros Hp Ho. destruct (Merge_facts others Ho) as [Hcan Hcov]. unfold Subtract, IsEmpty, wf in *.
  destruct (Z.eqb_spec (start p) (end_ p)).
  - split; [split; constructor|]. intros t. rewrite covers_nil. unfold instant_in. intuition lia.
  - destruct (subtract_loop_spec p (Merge others) (start p)) as (Hc & _ & Hv); [done|lia|].
    split; [done|]. intros t. rewrite Hv. unfold instant_in. by rewrite Hcov.
Qed.

Lemma Subtract_difference_witness :
  Subtract (mkPeriod 0 10) [mkPeriod 2 3; mkPeriod 3 5] = [mkPeriod 0 2; mkPeriod 5 10] /\
  (forall t, covers (Subtract (mkPeriod 0 10) [mkPeriod 2 3; mkPeriod 3 5]) t <->
     (instant_in t (mkPeriod 0 10) /\ ~ covers [mkPeriod 2 3; mkPeriod 3 5] t)).
Proof.
  split; [vm_compute; reflexivity|].
  apply (Subtract_difference (mkPeriod 0 10) [mkPeriod 2 3; mkPeriod 3 5]);
    [unfold wf; simpl; lia|repeat constructor; unfold wf; simpl; lia].
Defined.

(** [Gaps] returns exactly the uncovered instants that have covered instants
    on both sides, as canonical intervals. *)
Theorem Gaps_uncovered ps :
  Forall wf ps ->
  canonical (Gaps ps) /\
  (forall t, covers (Gaps ps) t <->
     (~ covers ps t /\ exists a b, covers ps a /\ covers ps b /\ a < t < b)).
Proof.
  intros Hwf. destruct (Merge_facts ps Hwf) as [Hcan Hcov]. rewrite Gaps_ref_eq.
  setoid_rewrite <- Hcov. destruct (Merge ps) as [|a l].
  { split; [split; constructor|]. intros t. rewrite covers_nil. split; [done|].
    intros (_ & x & y & Hx%covers_nil & _). done. }
  destruct (gaps_ref_spec a l Hcan) as (Hc & _ & Hv). split; [done|].
  pose proof (canonical_inv _ _ Hcan) as (Ha & _).
  pose proof (fun t => canonical_covers_after a l t Hcan) as Haft.
  intros t. rewrite Hv. setoid_rewrite covers_cons. unfold instant_in. split.
  - intros (Ht & Hn & b & Hb & Hlt). split; [intros [?|?]; [lia|done]|].
    exists (start a), b. split_and!; [left; lia|by right|lia|lia].
  - intros (Hn & x & y & Hx & Hy & Hlt).
    assert (end_ a <= t).
    { destruct (decide (t < end_ a)); [|lia]. exfalso. apply Hn. left.
      destruct Hx as [?|Hx]; [lia|]. specialize (Haft x Hx). lia. }
    split_and!; [lia|tauto|]. exists y. split; [|lia].
    destruct Hy as [?|?]; [lia|done].
Qed.

Lemma Gaps_uncovered_witness :
  Gaps [mkPeriod 7 9; mkPeriod 1 3] = [mkPeriod 3 7] /\
  canonical (Gaps [mkPeriod 7 9; mkPeriod 1 3]).
Proof.
  split; [vm_compute; reflexivity|].
  apply (Gaps_uncovered [mkPeriod 7 9; mkPeriod 1 3]).
  repeat constructor; unfold wf; simpl; lia.
Defined.

(** The predicates agree with the sets of instants: [Overlaps] is a common
    instant, [ContainsPeriod] inclusion, [Equal] equality of sets, and
    [Intersect] succeeds exactly on overlap and returns the common instants. *)
Theorem Period_predicates p q :
  wf p -> wf q ->
  (Overlaps p q = true <-> exists t, instant_in t p /\ instant_in t q) /\
  (ContainsPeriod p q = true <-> forall t, instant_in t q -> instant_in t p) /\
  (Equal p q = true <-> forall t, instant_in t p <-> instant_in t q) /\
  (match Intersect p q with
   | (r, true) => forall t, instant_in t r <-> (instant_in t p /\ instant_in t q)
   | (r, false) => r = zeroPeriod /\ forall t, ~ (instant_in t p /\ instant_in t q)
   end).
Proof.
  intros Hp Hq. unfold wf, instant_in in *. destruct p as [s e], q as [s' e']. simpl in *.
  assert (Hov : Overlaps (mkPeriod s e) (mkPeriod s' e') = true
                <-> s < e /\ s' < e' /\ s < e' /\ s' < e).
  { unfold Overlaps, IsEmpty; simpl. bcase; intuition (congruence || lia). }
  split_and!.
  - rewrite Hov. split; [|intros (t & ? & ?); lia].
    intros. exists (Z.max s s'). lia.
  - unfold ContainsPeriod, IsEmpty; simpl. bcase; split; intros H'; try done; try (intros; lia);
      try (specialize (H' s'); lia); specialize (H' (e' - 1)); lia.
  - unfold Equal, IsEmpty; simpl. bcase; split; intros H'; try done; try (intros; lia); exfalso;
      pose proof (H' s); pose proof (H' s'); pose proof (H' (e - 1)); pose proof (H' (e' - 1)); lia.
  - unfold Intersect. destruct (Overlaps _ _); simpl.
    + intros t. bcase; lia.
    + split; [done|]. intros t Ht. assert (false = true); [|done]. apply Hov. lia.
Qed.

Lemma Period_predicates_witness :
  Intersect (mkPeriod 1 5) (mkPeriod 3 9) = (mkPeriod 3 5, true) /\
  (Overlaps (mkPeriod 1 5) (mkPeriod 3 9) = true <->
     exists t, instant_in t (mkPeriod 1 5) /\ instant_in t (mkPeriod 3 9)).
Proof.
  split; [reflexivity|].
  apply (Period_predicates (mkPeriod 1 5) (mkPeriod 3 9)); unfold wf; simpl; lia.
Defined.
