(* ===== verification/RateLimit.v ===== *)
(** * Rate limits and the limiter: [src/ratelimit]

    [Limit] and its validation, the [Limiter] in front of a [Store], and the
    contract a store owes it.  The contract is the GCRA cell: one theoretical
    arrival time per key, moved forward by [interval * cost] on every admitted
    request. *)

From S2P Require Import Prelude GoErrors.
From stdpp Require Import options.
Set Default Proof Using "Type*".
Local Open Scope Z_scope.
Local Open Scope go_scope.

(** ** [limit.go] *)

Definition microsecond : Z := Microsecond.

Record Limit := mkLimit { Rate : Z; Period : Z; Burst : Z }.

Definition PerSecond (rate : Z) : Limit := mkLimit rate Second rate.
Definition PerMinute (rate : Z) : Limit := mkLimit rate Minute rate.
Definition PerHour (rate : Z) : Limit := mkLimit rate Hour rate.

Definition ErrNilStore : error := ErrNew "ratelimit: nil store".
Definition ErrInvalidContext : error := ErrNew "ratelimit: invalid context".
Definition ErrInvalidKey : error := ErrNew "ratelimit: invalid key".
Definition ErrInvalidLimit : error := ErrNew "ratelimit: invalid limit".
Definition ErrInvalidCost : error := ErrNew "ratelimit: invalid cost".

Definition divideRoundUp (value divisor : Z) : Z :=
  let result := Z.quot value divisor in
  if negb (Z.rem value divisor =? 0) then result +₆₄ 1 else result.

Definition validateLimit (limit : Limit) : option error :=
  if Rate limit <=? 0 then Some (ErrWrapf "rate must be greater than zero" ErrInvalidLimit)
  else if Period limit <=? 0 then
    Some (ErrWrapf "period must be greater than zero" ErrInvalidLimit)
  else if Burst limit <=? 0 then
    Some (ErrWrapf "burst must be greater than zero" ErrInvalidLimit)
  else
    let rate := Rate limit in
    let periodNanos := Period limit in
    if rate >? Z.quot periodNanos Microsecond then
      Some (ErrWrapf "replenishment interval must be at least one microsecond" ErrInvalidLimit)
    else
      let intervalNanos := divideRoundUp periodNanos rate in
      let interval := divideRoundUp intervalNanos Microsecond in
      if (Burst limit >? Z.quot maxInt64 interval)
         || ((interval *₆₄ Burst limit) >? Z.quot maxInt64 microsecond)
      then Some (ErrWrapf "burst duration overflows time.Duration" ErrInvalidLimit)
      else None.

(** ** [store.go] *)

Record Decision := mkDecision {
  dLimit : Limit;
  Allowed : bool;
  Remaining : Z;
  RetryAfter : Z;
  ResetAfter : Z
}.

Record TakeRequest := mkTakeRequest { rKey : string; rLimit : Limit; rCost : Z }.

Definition zeroDecision : Decision := mkDecision (mkLimit 0 0 0) false 0 0 0.

(** The [Store] interface.  [now] is the clock reading, in microseconds, an
    operation makes when it runs. *)
Class Store (S : Type) := {
  Take : option context -> Z -> TakeRequest -> S -> S * (Decision * option error);
  Reset : option context -> Z -> string -> S -> S * option error
}.

(** ** [limiter.go] *)

Definition validateContext (ctx : option context) (n : nat) : option error :=
  match ctx with
  | None => Some ErrInvalidContext
  | Some c => Cause c n
  end.

Section Limiter.
Context {S : Type} `{!Store S}.

Record Limiter := mkLimiter { store : S; limit : Limit }.

Definition New (st : option S) (lim : Limit) : option Limiter * option error :=
  match st with
  | None => (None, Some ErrNilStore)
  | Some st =>
      match validateLimit lim with
      | Some err => (None, Some err)
      | None => (Some (mkLimiter st lim), None)
      end
  end.

Definition AllowN (l : Limiter) (ctx : option context) (now : Z) (key : string) (cost : Z)
    : Limiter * (Decision * option error) :=
  match validateContext ctx 0 with
  | Some err => (l, (zeroDecision, Some err))
  | None =>
      if bool_decide (key = EmptyString) then (l, (zeroDecision, Some ErrInvalidKey))
      else if (cost <? 1) || (cost >? Burst (limit l))
      then (l, (zeroDecision, Some ErrInvalidCost))
      else
        let '(st, (decision, err)) :=
          Take (flip ctx_from 1%nat <$> ctx) now (mkTakeRequest key (limit l) cost) (store l) in
        let l' := mkLimiter st (limit l) in
        match err with
        | Some e => (l', (zeroDecision, Some (ErrWrapf "ratelimit: take" e)))
        | None =>
            (l', (mkDecision (limit l) (Allowed decision) (Remaining decision)
                    (RetryAfter decision) (ResetAfter decision), None))
        end
  end.

Definition Allow (l : Limiter) (ctx : option context) (now : Z) (key : string) :=
  AllowN l ctx now key 1.

Definition LimiterReset (l : Limiter) (ctx : option context) (now : Z) (key : string)
    : Limiter * option error :=
  match validateContext ctx 0 with
  | Some err => (l, Some err)
  | None =>
      if bool_decide (key = EmptyString) then (l, Some ErrInvalidKey)
      else
        let '(st, err) := Reset (flip ctx_from 1%nat <$> ctx) now key (store l) in
        (mkLimiter st (limit l), ErrWrapf "ratelimit: reset" <$> err)
  end.
End Limiter.
Arguments Limiter : clear implicits.

(** ** The store's helpers, written twice in the source *)

Definition emissionInterval (limit : Limit) : Z :=
  let period := Period limit in
  let rate := Rate limit in
  let interval := Z.quot period rate in
  let interval := if negb (Z.rem period rate =? 0) then interval +₆₄ 1 else interval in
  let microsecond := Microsecond in
  let result := Z.quot interval microsecond in
  if negb (Z.rem interval microsecond =? 0) then result +₆₄ 1 else result.

Definition remaining (now tat interval burstOffset : Z) : Z :=
  let available := (now +₆₄ burstOffset) -₆₄ tat in
  if available <=? 0 then 0 else Z.quot available interval.

Definition microseconds (value : Z) : Z :=
  if value <=? 0 then 0 else value *₆₄ Microsecond.

(** ** Limits that pass validation *)

Definition valid_limit (l : Limit) : Prop :=
  int64_ok (Rate l) /\ int64_ok (Period l) /\ int64_ok (Burst l) /\ validateLimit l = None.

Lemma divideRoundUp_spec a b :
  0 < a <= maxInt64 -> 0 < b -> 
  b * (divideRoundUp a b - 1) < a <= b * divideRoundUp a b /\ 0 < divideRoundUp a b <= a.
Proof.
  intros Ha Hb. unfold divideRoundUp.
  rewrite Z.quot_div_nonneg, Z.rem_mod_nonneg by lia.
  pose proof (Z.div_mod a b). pose proof (Z.mod_pos_bound a b).
  pose proof (Z.div_pos a b ltac:(lia) Hb).
  destruct (Z.eqb_spec (a mod b) 0); simpl.
  - nia.
  - assert (a / b <= a - 1) by (apply Z.lt_le_pred, Z.div_lt; nia).
    rewrite wrap64_id by int_lia. nia.
Qed.

Lemma emissionInterval_eq l :
  emissionInterval l = divideRoundUp (divideRoundUp (Period l) (Rate l)) Microsecond.
Proof. done. Qed.

Lemma valid_limit_bounds l :
  valid_limit l ->
  let i := emissionInterval l in
  0 < Rate l /\ 0 < Period l <= maxInt64 /\ 0 < Burst l /\ 1 <= i /\
  i * Burst l <= 9223372036854775 /\
  Period l <= Rate l * (i * 1000) /\ Rate l * (i * 1000) < Period l + Rate l * 1000.
Proof.
  intros (HR & HP & HB & Hv) i. unfold validateLimit in Hv.
  destruct (Z.leb_spec (Rate l) 0); [done|]. destruct (Z.leb_spec (Period l) 0); [done|].
  destruct (Z.leb_spec (Burst l) 0); [done|].
  rewrite Z.gtb_ltb in Hv. destruct (Z.ltb_spec (Z.quot (Period l) Microsecond) (Rate l)); [done|].
  rewrite <- emissionInterval_eq in Hv. fold i in Hv.
  destruct (divideRoundUp_spec (Period l) (Rate l)) as (D1 & D2); [int_lia|done|].
  destruct (divideRoundUp_spec (divideRoundUp (Period l) (Rate l)) Microsecond) as (D3 & D4);
    [int_lia|done|]. rewrite <- emissionInterval_eq in D3, D4. fold i in D3, D4.
  destruct (_ || _) eqn:Hor in Hv; [done|]. apply orb_false_iff in Hor as [Hb Hw].
  rewrite Z.gtb_ltb, Z.ltb_ge in Hb, Hw. unfold maxInt64, microsecond, Microsecond in *.
  rewrite Z.quot_div_nonneg in Hb by lia. change (Z.quot _ 1000) with 9223372036854775 in Hw.
  assert (Hib : i * Burst l <= 9223372036854775807).
  { pose proof (Z.mul_div_le 9223372036854775807 i ltac:(lia)). nia. }
  rewrite wrap64_id in Hw by (int64_unfold; nia).
  split_and!; try (int_lia || nia).
Qed.

(** ** The GCRA cell *)

(** A theoretical arrival time matters while it lies in the future. *)
Definition live (now : Z) (tat : option Z) : option Z :=
  match tat with
  | Some t => if now <? t then Some t else None
  | None => None
  end.

(** The theoretical arrival time a request at [now] starts from. *)
Definition gcra_tat (now : Z) (stored : option Z) : Z :=
  match stored with Some t => Z.max now t | None => now end.

(** One decision: the answer, and the arrival time stored if it is admitted. *)
Definition gcra (lim : Limit) (now : Z) (stored : option Z) (cost : Z)
    : Decision * option Z :=
  let i := emissionInterval lim in
  let tat := gcra_tat now stored in
  let newTAT := tat + i * cost in
  if newTAT <=? now + i * Burst lim then
    (mkDecision lim true ((now + i * Burst lim - newTAT) / i) 0 ((newTAT - now) * 1000),
     Some newTAT)
  else
    (mkDecision lim false (Z.max 0 (now + i * Burst lim - tat) / i)
       ((newTAT - i * Burst lim - now) * 1000) ((tat - now) * 1000),
     None).

(** Clock readings the arithmetic is safe for: microseconds from the epoch to
    the year 75,000. *)
Definition clock_ok (now : Z) : Prop := 0 <= now <= 2305843009213693952.
Definition ctx_open (c : context) : Prop := forall n, c n = None.

(** What a store promises: per key it behaves as one GCRA cell.  [inv s t] says
    the store is consistent for a clock that reads [t] or later; [in_range lim
    now], that the store's arithmetic is exact for a limit at an instant. *)
Class StoreLaws (S : Type) `{!Store S} := {
  inv : S -> Z -> Prop;
  tat : S -> Z -> string -> option Z;
  in_range : Limit -> Z -> Prop;
  inv_later s t t' : inv s t -> t <= t' -> inv s t';
  tat_later s t t' k : inv s t -> t <= t' -> tat s t' k = live t' (tat s t k);
  tat_live s t k : tat s t k = live t (tat s t k);
  take_law s c now key lim cost :
    inv s now -> ctx_open c -> valid_limit lim -> 1 <= cost <= Burst lim -> in_range lim now ->
    let '(s', r) := Take (Some c) now (mkTakeRequest key lim cost) s in
    let '(d, new) := gcra lim now (tat s now key) cost in
    r = (d, None) /\ inv s' now /\
    forall t k, now <= t ->
      tat s' t k = match new with
                   | Some x => if decide (k = key) then live t (Some x) else tat s t k
                   | None => tat s t k
                   end;
  reset_law s c now key :
    inv s now -> ctx_open c ->
    let '(s', e) := Reset (Some c) now key s in
    e = None /\ inv s' now /\
    forall t k, now <= t -> tat s' t k = if decide (k = key) then None else tat s t k
}.

Lemma ctx_open_from c n : ctx_open c -> ctx_open (ctx_from c n).
Proof. intros H k. apply H. Qed.
Lemma Background_open : ctx_open Background.
Proof. done. Qed.
#[export] Hint Resolve ctx_open_from Background_open : go.

Section LimiterCorrect.
Context {S : Type} `{!Store S, !StoreLaws S}.

(** The limiter is consistent for a clock that reads [t] or later. *)
Definition limiter_ok (l : Limiter S) (t : Z) : Prop :=
  inv (store l) t /\ valid_limit (limit l).

Lemma limiter_ok_later l t t' : limiter_ok l t -> t <= t' -> limiter_ok l t'.
Proof. intros [Hi Hv] Hle. split; [by eapply inv_later|done]. Qed.

(** One admitted or rejected call, seen through the store's contract. *)
Lemma AllowN_law l c now key cost :
  limiter_ok l now -> ctx_open c -> in_range (limit l) now -> key <> EmptyString ->
  1 <= cost <= Burst (limit l) ->
  let '(l', r) := AllowN l (Some c) now key cost in
  let '(d, new) := gcra (limit l) now (tat (store l) now key) cost in
  r = (d, None) /\ limiter_ok l' now /\ limit l' = limit l /\
  forall t k, now <= t ->
    tat (store l') t k = match new with
                         | Some x => if decide (k = key) then live t (Some x)
                                     else tat (store l) t k
                         | None => tat (store l) t k
                         end.
Proof.
  intros [Hinv Hv] Hc Hclk Hkey Hcost. unfold AllowN. simpl. unfold Cause. rewrite Hc. simpl.
  rewrite bool_decide_eq_false_2 by done.
  destruct (Z.ltb_spec cost 1); [lia|]. rewrite Z.gtb_ltb.
  destruct (Z.ltb_spec (Burst (limit l)) cost); [lia|]. simpl.
  pose proof (take_law (store l) (ctx_from c 1) now key (limit l) cost Hinv
                (ctx_open_from c 1 Hc) Hv Hcost Hclk) as T.
  unfold flip. destruct (Take _ _ _ _) as [st [d e]]. 
  assert (Hlim : dLimit (fst (gcra (limit l) now (tat (store l) now key) cost)) = limit l)
    by (unfold gcra; destruct (_ <=? _); done).
  destruct (gcra _ _ _ _) as [d' new]. destruct T as ([= -> ->] & Hi & Ht).
  split_and!; [destruct d'; simpl in *; by subst|split; done|done|done].
Qed.

(** A run of calls; [total key] sums the costs admitted for [key]. *)
Fixpoint run_calls (l : Limiter S) (calls : list (Z * string * Z)) (key : string) : Z :=
  match calls with
  | [] => 0
  | (now, k, cost) :: rest =>
      let '(l', (d, _)) := AllowN l (Some Background) now k cost in
      (if Allowed d && bool_decide (k = key) then cost else 0) + run_calls l' rest key
  end.

(** Calls made with a clock that does not go back, between [t0] and [t1]. *)
Fixpoint calls_within (lim : Limit) (t0 t1 : Z) (calls : list (Z * string * Z)) : Prop :=
  match calls with
  | [] => t0 <= t1
  | (now, k, cost) :: rest =>
      t0 <= now /\ in_range lim now /\ k <> EmptyString /\ 1 <= cost <= Burst lim /\
      calls_within lim now t1 rest
  end.

Lemma calls_within_le lim t0 t1 calls : calls_within lim t0 t1 calls -> t0 <= t1.
Proof.
  revert t0. induction calls as [|[[now k] cost] rest IH]; intros t0; simpl; [done|].
  intros (? & _ & _ & _ & ?%IH). lia.
Qed.

Lemma run_calls_bound calls l key t0 t1 :
  limiter_ok l t0 -> calls_within (limit l) t0 t1 calls ->
  let i := emissionInterval (limit l) in
  run_calls l calls key = 0 \/
  gcra_tat t0 (tat (store l) t0 key) + i * run_calls l calls key <= t1 + i * Burst (limit l).
Proof.
  revert l t0. induction calls as [|[[now k] cost] rest IH]; intros l t0 Hl Hw i; simpl; [by left|].
  destruct Hw as (Hnow & Hclk & Hk & Hcost & Hrest).
  pose proof (AllowN_law l Background now k cost (limiter_ok_later _ _ _ Hl Hnow)
                Background_open Hclk Hk Hcost) as L.
  destruct (AllowN l _ now k cost) as [l' r] eqn:EA.
  unfold gcra in L. fold i in L. destruct (Z.leb_spec
    (gcra_tat now (tat (store l) now k) + i * cost) (now + i * Burst (limit l)))
    as [Hle|Hgt]; destruct L as (-> & Hl' & Hlim & Htat); simpl.
  all: pose proof (calls_within_le _ _ _ _ Hrest) as Hnt.
  all: rewrite <- Hlim in Hrest; specialize (IH l' now Hl' Hrest); simpl in IH;
    rewrite Hlim in IH; fold i in IH; specialize (Htat now key ltac:(lia)); rewrite Htat in IH.
  all: assert (Hlater : gcra_tat t0 (tat (store l) t0 key) <= gcra_tat now (tat (store l) now key))
    by (rewrite (tat_later _ t0 now key (proj1 Hl)) by lia;
        destruct (tat (store l) t0 key) as [x|]; simpl; bcase; simpl; lia).
  - destruct (decide (key = k)) as [->|Hne].
    + rewrite bool_decide_eq_true_2 by done. destruct IH as [-> |IH]; [right; lia|].
      right. simpl in IH. destruct (Z.ltb_spec now (gcra_tat now (tat (store l) now k) + i * cost));
        simpl in IH; lia.
    + rewrite bool_decide_eq_false_2 by congruence.
      destruct IH as [->|IH]; [by left|right; lia].
  - rewrite Z.add_0_l. destruct IH as [->|IH]; [by left|right; lia].
Qed.

(** Two calls in a row, the second one at [now'] on the state the first left:
    what the second one is decided from. *)
Lemma second_call l now now' key cost cost' :
  limiter_ok l now -> in_range (limit l) now -> in_range (limit l) now' -> now <= now' -> key <> EmptyString ->
  1 <= cost <= Burst (limit l) -> 1 <= cost' <= Burst (limit l) ->
  let '(l1, (d1, _)) := AllowN l (Some Background) now key cost in
  let '(_, (d2, _)) := AllowN l1 (Some Background) now' key cost' in
  let stored := match snd (gcra (limit l) now (tat (store l) now key) cost) with
                | Some x => Some x | None => tat (store l) now key end in
  d1 = fst (gcra (limit l) now (tat (store l) now key) cost) /\
  d2 = fst (gcra (limit l) now' (live now' stored) cost').
Proof.
  intros Hl Hclk Hclk' Hle Hkey Hc Hc'.
  pose proof (AllowN_law l Background now key cost Hl Background_open Hclk Hkey Hc) as L.
  destruct (AllowN l _ now key cost) as [l1 r1].
  destruct (gcra (limit l) now _ cost) as [d1 new] eqn:Eg. destruct L as (-> & Hl1 & Hlim & Ht).
  pose proof (AllowN_law l1 Background now' key cost' (limiter_ok_later _ _ _ Hl1 Hle)
                Background_open) as L2.
  rewrite Hlim in L2. specialize (L2 Hclk' Hkey Hc').
  destruct (AllowN l1 _ now' key cost') as [l2 r2].
  specialize (Ht now' key Hle). simpl.
  assert (tat (store l1) now' key
          = live now' match new with Some x => Some x | None => tat (store l) now key end) as E.
  { rewrite Ht. destruct new; [by rewrite decide_True|]. apply tat_later; [apply Hl|done]. }
  rewrite E in L2. destruct (gcra (limit l) now' _ cost') as [d2 new2].
  destruct L2 as (-> & _). done.
Qed.

(** C1: over any run of calls with a non-decreasing clock between [t0] and [t1]
    (microseconds), the units admitted for one key exceed the burst by no more
    than the rate allows for the elapsed time:
    [(total - Burst) * Period <= Rate * elapsed], both sides in nanoseconds.
    This holds for every store that meets the contract. *)
Theorem limiter_rate_bound l calls key t0 t1 :
  limiter_ok l t0 -> calls_within (limit l) t0 t1 calls ->
  (run_calls l calls key - Burst (limit l)) * Period (limit l)
    <= Rate (limit l) * ((t1 - t0) * 1000).
Proof.
  intros Hl Hw. pose proof (run_calls_bound calls l key t0 t1 Hl Hw) as Hb.
  pose proof (calls_within_le _ _ _ _ Hw).
  destruct (valid_limit_bounds (limit l) (proj2 Hl)) as (HR & HP & HB & Hi & _ & Hper & _).
  assert (t0 <= gcra_tat t0 (tat (store l) t0 key))
    by (destruct (tat (store l) t0 key); simpl; lia).
  destruct (decide (run_calls l calls key <= Burst (limit l))); [nia|].
  destruct Hb as [Hb|Hb]; [lia|].
  set (x := run_calls l calls key - Burst (limit l)) in *.
  set (i := emissionInterval (limit l)) in *.
  assert (i * x <= t1 - t0) by (unfold x; nia).
  apply Z.le_trans with (x * (Rate (limit l) * (i * 1000))); nia.
Qed.

(** [RetryAfter] is exact: after a rejection, the same request repeated at a
    later instant [now'] with nothing admitted in between is accepted exactly
    when at least [RetryAfter] has passed. *)
Theorem limiter_retry_after_exact l now now' key cost :
  limiter_ok l now -> in_range (limit l) now -> in_range (limit l) now' -> now <= now' -> key <> EmptyString ->
  1 <= cost <= Burst (limit l) ->
  let '(l1, (d1, _)) := AllowN l (Some Background) now key cost in
  let '(_, (d2, _)) := AllowN l1 (Some Background) now' key cost in
  Allowed d1 = false ->
  0 < RetryAfter d1 /\ (Allowed d2 = true <-> now * 1000 + RetryAfter d1 <= now' * 1000).
Proof.
  intros Hl Hclk Hclk' Hle Hkey Hc.
  pose proof (second_call l now now' key cost cost Hl Hclk Hclk' Hle Hkey Hc Hc) as L.
  destruct (AllowN l _ now key cost) as [l1 [d1 e1]].
  destruct (AllowN l1 _ now' key cost) as [l2 [d2 e2]]. destruct L as [-> ->].
  destruct (valid_limit_bounds (limit l) (proj2 Hl)) as (_ & _ & HB & Hi & _).
  unfold gcra. set (i := emissionInterval (limit l)) in *.
  destruct (Z.leb_spec (gcra_tat now (tat (store l) now key) + i * cost)
              (now + i * Burst (limit l))); simpl; [done|].
  intros _. split; [nia|].
  set (T := tat (store l) now key) in *.
  assert (E : gcra_tat now' (live now' T) = Z.max now' (gcra_tat now T))
    by (destruct T as [x|]; simpl; bcase; simpl; lia).
  rewrite E. destruct (Z.leb_spec (Z.max now' (gcra_tat now T) + i * cost)
                         (now' + i * Burst (limit l))); simpl; split; intros; try done; nia.
Qed.

(** [Remaining] is exact: it lies between zero and the burst, and a further
    request at the same instant is accepted exactly when its cost is at most
    [Remaining]. *)
Theorem limiter_remaining_exact l now key cost cost' :
  limiter_ok l now -> in_range (limit l) now -> key <> EmptyString ->
  1 <= cost <= Burst (limit l) -> 1 <= cost' <= Burst (limit l) ->
  let '(l1, (d1, _)) := AllowN l (Some Background) now key cost in
  let '(_, (d2, _)) := AllowN l1 (Some Background) now key cost' in
  0 <= Remaining d1 <= Burst (limit l) /\
  (Allowed d2 = true <-> cost' <= Remaining d1).
Proof.
  intros Hl Hclk Hkey Hc Hc'.
  pose proof (second_call l now now key cost cost' Hl Hclk Hclk ltac:(lia) Hkey Hc Hc') as L.
  destruct (AllowN l _ now key cost) as [l1 [d1 e1]].
  destruct (AllowN l1 _ now key cost') as [l2 [d2 e2]]. destruct L as [-> ->].
  destruct (valid_limit_bounds (limit l) (proj2 Hl)) as (_ & _ & HB & Hi & _).
  assert (Hdiv : forall a b, (emissionInterval (limit l) * b <= a)
                             <-> b <= a / emissionInterval (limit l)).
  { intros a b. split; [intros; apply Z.div_le_lower_bound; lia|].
    intros Hb. pose proof (Z.mul_div_le a (emissionInterval (limit l)) ltac:(lia)). nia. }
  assert (Hlive : gcra_tat now (live now (tat (store l) now key))
                  = gcra_tat now (tat (store l) now key)) by (by rewrite <- tat_live).
  assert (Hge : now <= gcra_tat now (tat (store l) now key))
    by (destruct (tat (store l) now key); simpl; lia).
  unfold gcra. set (i := emissionInterval (limit l)) in *.
  set (T := gcra_tat now (tat (store l) now key)) in *.
  destruct (Z.leb_spec (T + i * cost) (now + i * Burst (limit l))) as [Ha|Hr]; simpl.
  - assert (E : gcra_tat now (if now <? T + i * cost then Some (T + i * cost) else None)
            = T + i * cost) by (destruct (Z.ltb_spec now (T + i * cost)); simpl; nia).
    rewrite E.
    assert (HR : 0 <= (now + i * Burst (limit l) - (T + i * cost)) / i <= Burst (limit l)).
    { split; [apply Hdiv; lia|]. apply Z.div_le_upper_bound; nia. }
    split; [done|]. rewrite <- Hdiv.
    destruct (Z.leb_spec (T + i * cost + i * cost') (now + i * Burst (limit l))); simpl;
      split; intros; done || lia.
  - rewrite Hlive. fold T. split.
    + split; [apply Z.div_pos; lia|]. apply Z.div_le_upper_bound; nia.
    + rewrite <- Hdiv.
      destruct (Z.leb_spec (T + i * cost') (now + i * Burst (limit l))); simpl; split; intros;
        try done; nia.
Qed.
End LimiterCorrect.

Section Agreement.
Context {S1 S2 : Type} `{!Store S1, !StoreLaws S1, !Store S2, !StoreLaws S2}.

(** The answers of a run of calls. *)
Fixpoint run_answers {S} `{!Store S} (l : Limiter S) (calls : list (Z * string * Z))
    : list (Decision * option error) :=
  match calls with
  | [] => []
  | (now, k, cost) :: rest =>
      let '(l', r) := AllowN l (Some Background) now k cost in
      r :: run_answers l' rest
  end.

(** The limiter does not depend on its store: two stores that meet the
    contract and start with the same arrival times give the same answers to
    every run of calls that is in the exact range of both. *)
Lemma stores_agree (l1 : Limiter S1) (l2 : Limiter S2) calls t0 t1 :
  limiter_ok l1 t0 -> limiter_ok l2 t0 -> limit l1 = limit l2 ->
  (forall k, tat (store l1) t0 k = tat (store l2) t0 k) ->
  calls_within (S := S1) (limit l1) t0 t1 calls -> calls_within (S := S2) (limit l2) t0 t1 calls ->
  run_answers l1 calls = run_answers l2 calls.
Proof.
  revert l1 l2 t0. induction calls as [|[[now k] cost] rest IH]; intros l1 l2 t0 H1 H2 Hlim Ht W1 W2; [done|].
  simpl in W1, W2. destruct W1 as (Hn & R1 & Hk & Hc1 & W1). destruct W2 as (_ & R2 & _ & Hc2 & W2).
  assert (Ht' : forall t k, t0 <= t -> tat (store l1) t k = tat (store l2) t k).
  { intros t k' Hle. rewrite (tat_later _ t0 t k' (proj1 H1) Hle), (tat_later _ t0 t k' (proj1 H2) Hle).
    by rewrite Ht. }
  pose proof (AllowN_law l1 Background now k cost (limiter_ok_later _ _ _ H1 Hn) Background_open R1 Hk Hc1) as L1.
  pose proof (AllowN_law l2 Background now k cost (limiter_ok_later _ _ _ H2 Hn) Background_open R2 Hk Hc2) as L2.
  simpl. rewrite <- Hlim, (Ht' now k Hn) in *.
  destruct (AllowN l1 _ now k cost) as [l1' r1], (AllowN l2 _ now k cost) as [l2' r2].
  destruct (gcra _ _ _ _) as [d new]. destruct L1 as (-> & Hl1 & E1 & T1), L2 as (-> & Hl2 & E2 & T2).
  f_equal. apply (IH l1' l2' now); [done|done|by rewrite E1, E2| |by rewrite E1|by rewrite E2].
  intros k'. rewrite T1, T2 by lia. destruct new; [case_decide; [done|]|]; by rewrite Ht'.
Qed.
End Agreement.

(** A limit accepted by [validateLimit] makes the store's arithmetic exact:
    the emission interval is at least one microsecond and the burst offset, in
    microseconds and in nanoseconds, fits in 64 bits without wrapping; one
    interval per unit never replenishes faster than [Rate] per [Period] and
    loses less than a microsecond per unit to rounding. *)
Theorem validateLimit_no_overflow l :
  valid_limit l ->
  1 <= emissionInterval l /\
  (emissionInterval l *₆₄ Burst l) = emissionInterval l * Burst l /\
  (emissionInterval l * Burst l *₆₄ microsecond) = emissionInterval l * Burst l * 1000 /\
  Period l <= Rate l * (emissionInterval l * 1000) < Period l + Rate l * 1000.
Proof.
  intros Hv. destruct (valid_limit_bounds l Hv) as (HR & HP & HB & Hi & Hm & H1 & H2).
  split_and!; [done| | |done|done]; unfold microsecond, Microsecond;
    rewrite wrap64_id; int64_unfold; nia.
Qed.

Lemma validateLimit_no_overflow_witness :
  valid_limit (PerSecond 3) /\
  Period (PerSecond 3) <= Rate (PerSecond 3) * (emissionInterval (PerSecond 3) * 1000).
Proof.
  assert (H : valid_limit (PerSecond 3))
    by (unfold valid_limit; int64_unfold; vm_compute; split_and!; congruence).
  split; [exact H|]. apply (validateLimit_no_overflow (PerSecond 3) H).
Defined.

(** the limiter's own guards: a nil or done context, an empty key and a
    cost outside [1..Burst] are answered with their error, in that order, before
    the store is touched; a store error is wrapped and its decision dropped. *)
Theorem AllowN_guards {S} `{!Store S} (l : Limiter S) ctx now key cost :
  let '(l', (d, err)) := AllowN l ctx now key cost in
  match validateContext ctx 0 with
  | Some e => l' = l /\ d = zeroDecision /\ err = Some e
  | None =>
      if decide (key = EmptyString) then l' = l /\ d = zeroDecision /\ err = Some ErrInvalidKey
      else if decide (1 <= cost <= Burst (limit l)) then
        exists c d0 e0, ctx = Some c /\
          Take (Some (ctx_from c 1)) now (mkTakeRequest key (limit l) cost) (store l)
            = (store l', (d0, e0)) /\
          limit l' = limit l /\ dLimit d = (if e0 is Some _ then mkLimit 0 0 0 else limit l) /\
          err = ErrWrapf "ratelimit: take" <$> e0
      else l' = l /\ d = zeroDecision /\ err = Some ErrInvalidCost
  end.
Proof.
  unfold AllowN. destruct ctx as [c|]; simpl; [|done].
  destruct (Cause c 0); [done|].
  destruct (decide (key = EmptyString)) as [->|Hk]; [done|].
  rewrite bool_decide_eq_false_2 by done. rewrite Z.gtb_ltb.
  destruct (decide (1 <= cost <= Burst (limit l))) as [Hc|Hc].
  - destruct (Z.ltb_spec cost 1); [lia|]. destruct (Z.ltb_spec (Burst (limit l)) cost); [lia|].
    simpl. unfold flip. destruct (Take _ _ _ _) as [st [d0 [e0|]]] eqn:E;
      exists c, d0; eexists; split_and!; try done; by rewrite E.
  - destruct (Z.ltb_spec cost 1); [done|]. destruct (Z.ltb_spec (Burst (limit l)) cost); [done|lia].
Qed.
