(* ===== verification/RateLimitMemory.v ===== *)
(** * The in-process rate-limit store: [src/ratelimit/memory/store.go]

    The store keeps one [*record] per key, reachable both from the map and from
    a binary heap ordered by arrival time; the record remembers its own heap
    index.  The model has the records in an explicit memory, so that the aliasing
    between map, heap and index is the code's.  The theorems show that the three
    stay consistent and that the store meets the contract of [RateLimit]. *)

From S2P Require Import Prelude GoErrors GoHeap RateLimit.
From stdpp Require Import options.
Set Default Proof Using "Type*".
Local Open Scope Z_scope.
Local Open Scope go_scope.

(** ** Data *)

Record record := mkRecord { key : string; rtat : Z; index : Z }.

#[export] Instance record_inhabited : Inhabited record := populate (mkRecord EmptyString 0 0).

(** [mem] holds the allocated records; [next] is the next free address. *)
Record MemStore := mkStore {
  mem : gmap nat record;
  next : nat;
  records : gmap string nat;
  expirations : list nat
}.

Definition set_index (i : Z) (r : record) : record := mkRecord (key r) (rtat r) i.
Definition set_tat (t : Z) (r : record) : record := mkRecord (key r) t (index r).

Definition new_store : MemStore := mkStore ∅ 0 ∅ [].

(** ** [expirationHeap] *)

Definition Len (s : MemStore) : nat := length (expirations s).

Definition Less (s : MemStore) (i j : nat) : bool :=
  rtat (mem s !!! (expirations s !!! i)) <? rtat (mem s !!! (expirations s !!! j)).

Definition Swap (s : MemStore) (i j : nat) : MemStore :=
  let h := swap_list (expirations s) i j in
  let m := alter (set_index (Z.of_nat i)) (h !!! i) (mem s) in
  let m := alter (set_index (Z.of_nat j)) (h !!! j) m in
  mkStore m (next s) (records s) h.

Definition Push (current : nat) (s : MemStore) : MemStore :=
  mkStore (alter (set_index (Z.of_nat (Len s))) current (mem s)) (next s) (records s)
    (expirations s ++ [current]).

(** [Pop] removes the last record of the slice and returns it. *)
Definition Pop (s : MemStore) : MemStore * nat :=
  let last := (Len s - 1)%nat in
  let current := expirations s !!! last in
  (mkStore (alter (set_index (-1)) current (mem s)) (next s) (records s)
     (take last (expirations s)), current).

Definition expirationHeap : heap_interface MemStore :=
  {| hLen := Len; hLess := Less; hSwap := Swap |}.

Definition heap_Push (current : nat) (s : MemStore) : MemStore :=
  push_fix expirationHeap (Push current s).
Definition heap_Pop (s : MemStore) : MemStore * nat :=
  Pop (pop_prepare expirationHeap s).
Definition heap_Remove (s : MemStore) (i : nat) : MemStore * nat :=
  Pop (remove_prepare expirationHeap s i).
Definition heap_Fix (s : MemStore) (i : nat) : MemStore := Fix expirationHeap s i.

Arguments heap_Push : simpl never.
Arguments heap_Pop : simpl never.
Arguments heap_Remove : simpl never.
Arguments heap_Fix : simpl never.

(** ** Operations *)

Definition delete_key (k : string) (s : MemStore) : MemStore :=
  mkStore (mem s) (next s) (delete k (records s)) (expirations s).

(** The loop of [cleanup]; every iteration pops one record, so the length of the
    heap bounds them. *)
Fixpoint cleanup_loop (fuel : nat) (now : Z) (s : MemStore) : MemStore :=
  match fuel with
  | 0%nat => s
  | S fuel =>
      if (0 <? Len s)%nat && (rtat (mem s !!! (expirations s !!! 0%nat)) <=? now) then
        let '(s, current) := heap_Pop s in
        cleanup_loop fuel now (delete_key (key (mem s !!! current)) s)
      else s
  end.
Definition cleanup (now : Z) (s : MemStore) : MemStore := cleanup_loop (Len s) now s.

Definition MemTake (ctx : option context) (clock : Z) (request : TakeRequest) (s : MemStore)
    : MemStore * (Decision * option error) :=
  match validateContext ctx 0 with
  | Some err => (s, (zeroDecision, Some err))
  | None =>
  match ctx ≫= flip Cause 1%nat with
  | Some err => (s, (zeroDecision, Some err))
  | None =>
      let now := clock in
      let s := cleanup now s in
      let interval := emissionInterval (rLimit request) in
      let burstOffset := interval *₆₄ Burst (rLimit request) in
      let increment := interval *₆₄ rCost request in
      let current := records s !! rKey request in
      let tat := match current with
                 | Some l => if rtat (mem s !!! l) >? now then rtat (mem s !!! l) else now
                 | None => now
                 end in
      let newTAT := tat +₆₄ increment in
      if newTAT >? (now +₆₄ burstOffset) then
        (s, (mkDecision (rLimit request) false (remaining now tat interval burstOffset)
               (microseconds ((newTAT -₆₄ burstOffset) -₆₄ now))
               (microseconds (tat -₆₄ now)), None))
      else
        let s :=
          match current with
          | Some l =>
              let s := mkStore (alter (set_tat newTAT) l (mem s)) (next s) (records s)
                         (expirations s) in
              heap_Fix s (Z.to_nat (index (mem s !!! l)))
          | None =>
              let l := next s in
              let s := mkStore (<[l := mkRecord (rKey request) newTAT 0]> (mem s)) (S (next s))
                         (<[rKey request := l]> (records s)) (expirations s) in
              heap_Push l s
          end in
        (s, (mkDecision (rLimit request) true (remaining now newTAT interval burstOffset) 0
               (microseconds (newTAT -₆₄ now)), None))
  end
  end.

Definition MemReset (ctx : option context) (clock : Z) (k : string) (s : MemStore)
    : MemStore * option error :=
  match validateContext ctx 0 with
  | Some err => (s, Some err)
  | None =>
  match ctx ≫= flip Cause 1%nat with
  | Some err => (s, Some err)
  | None =>
      let s := cleanup clock s in
      match records s !! k with
      | Some l =>
          let '(s, _) := heap_Remove s (Z.to_nat (index (mem s !!! l))) in
          (delete_key k s, None)
      | None => (s, None)
      end
  end
  end.

#[export] Instance mem_store : Store MemStore := { Take := MemTake; Reset := MemReset }.

(** Three units per second, one burst of three at one instant, then a rejection. *)
Example mem_burst :
  let lim := PerSecond 3 in
  let l := mkLimiter new_store lim in
  let '(l, (d1, _)) := AllowN l (Some Background) 1000 "a" 2 in
  let '(l, (d2, _)) := AllowN l (Some Background) 1000 "a" 1 in
  let '(l, (d3, _)) := AllowN l (Some Background) 1000 "a" 1 in
  let '(_, (d4, _)) := AllowN l (Some Background) 334334 "a" 1 in
  (Allowed d1, Remaining d1, Allowed d2, Allowed d3, RetryAfter d3, Allowed d4)
  = (true, 1, true, false, 333334000, true).
Proof. vm_compute. reflexivity. Qed.

(** ** Consistency of map, heap and indices *)

Definition shape (s : MemStore) : Prop :=
  (forall i l, expirations s !! i = Some l ->
     exists r, mem s !! l = Some r /\ index r = Z.of_nat i /\ records s !! key r = Some l) /\
  (forall k l, records s !! k = Some l ->
     l ∈ expirations s /\ exists r, mem s !! l = Some r /\ key r = k) /\
  (forall l r, mem s !! l = Some r -> (l < next s)%nat).

(** The arrival times in heap order. *)
Definition keys (s : MemStore) : list Z := (fun l => rtat (mem s !!! l)) <$> expirations s.

(** Key and arrival time of the record at an address, and the time stored for a
    key. *)
Definition data (s : MemStore) (l : nat) : option (string * Z) :=
  (fun r => (key r, rtat r)) <$> mem s !! l.
Definition stored (s : MemStore) (k : string) : option Z :=
  l ← records s !! k; snd <$> data s l.

(** States that differ only in heap positions. *)
Definition same_data (s s' : MemStore) : Prop :=
  records s' = records s /\ next s' = next s /\ forall l, data s' l = data s l.

#[export] Instance same_data_preorder : PreOrder same_data.
Proof.
  split; [done|]. intros s1 s2 s3 (R1 & N1 & D1) (R2 & N2 & D2).
  split_and!; [congruence|congruence|]. intros l. by rewrite D2.
Qed.

Lemma same_data_stored s s' k : same_data s s' -> stored s' k = stored s k.
Proof. intros (R & _ & D). unfold stored. rewrite R. destruct (records s !! k); simpl; [|done]. by rewrite D. Qed.

Lemma data_lookup s l k t : data s l = Some (k, t) <-> exists r, mem s !! l = Some r /\ key r = k /\ rtat r = t.
Proof.
  unfold data. rewrite fmap_Some. split.
  - intros (r & ? & [= -> ->]). eauto.
  - intros (r & ? & <- & <-). eauto.
Qed.

Lemma shape_nodup s : shape s -> NoDup (expirations s).
Proof.
  intros (H1 & _). apply NoDup_alt. intros i j l Hi Hj.
  destruct (H1 i l Hi) as (r & Hr & Ei & _), (H1 j l Hj) as (r' & Hr' & Ej & _).
  rewrite Hr in Hr'. injection Hr' as <-. lia.
Qed.

Lemma shape_stored s i l :
  shape s -> expirations s !! i = Some l ->
  exists k t, data s l = Some (k, t) /\ stored s k = Some t /\ keys s !! i = Some t.
Proof.
  intros (H1 & _) Hi. destruct (H1 i l Hi) as (r & Hr & _ & Hk).
  exists (key r), (rtat r). unfold stored, data, keys. rewrite Hk. simpl. rewrite Hr. simpl.
  split_and!; [done|done|]. rewrite list_lookup_fmap, Hi. simpl.
  by rewrite (lookup_total_correct _ _ _ Hr).
Qed.

Lemma stored_position s k t :
  shape s -> stored s k = Some t ->
  exists i l, records s !! k = Some l /\ expirations s !! i = Some l /\ keys s !! i = Some t /\
    index (mem s !!! l) = Z.of_nat i /\ rtat (mem s !!! l) = t /\ data s l = Some (k, t).
Proof.
  intros Hs. unfold stored. rewrite bind_Some. intros (l & Hl & Ht).
  destruct Hs as (H1 & H2 & _). destruct (H2 k l Hl) as ([i Hi]%list_elem_of_lookup & r & Hr & Hk).
  destruct (H1 i l Hi) as (r' & Hr' & Hix & _). rewrite Hr in Hr'. injection Hr' as <-.
  unfold data in *. rewrite Hr in Ht. simpl in Ht. injection Ht as <-.
  exists i, l. rewrite Hr. simpl. rewrite (lookup_total_correct _ _ _ Hr). subst k.
  split_and!; try done. unfold keys. rewrite list_lookup_fmap, Hi. simpl.
  by rewrite (lookup_total_correct _ _ _ Hr).
Qed.

(** Changing indices only: the effect of [alter (set_index i) l]. *)
Lemma data_alter_index m i l l' :
  (fun r => (key r, rtat r)) <$> alter (set_index i) l m !! l'
  = (fun r => (key r, rtat r)) <$> (m : gmap nat record) !! l'.
Proof. rewrite lookup_alter. case_decide; [|done]. subst. by destruct (m !! l'). Qed.

Lemma Swap_same_data s i j : same_data s (Swap s i j).
Proof.
  split_and!; [done|done|]. intros l. unfold data, Swap. simpl. by rewrite !data_alter_index.
Qed.

Lemma mem_total_data s s' l :
  data s' l = data s l -> rtat (mem s' !!! l) = rtat (mem s !!! l).
Proof.
  unfold data. rewrite !lookup_total_alt. destruct (mem s' !! l), (mem s !! l); simpl; congruence.
Qed.

Lemma keys_same_data s s' : (forall l, data s' l = data s l) ->
  keys s' = (fun l => rtat (mem s !!! l)) <$> expirations s'.
Proof. intros H. unfold keys. apply list_fmap_ext. intros _ l _. by apply mem_total_data. Qed.

Lemma swap_list_fmap {A B} (f : A -> B) l i j : swap_list (f <$> l) i j = f <$> swap_list l i j.
Proof.
  unfold swap_list. rewrite !list_lookup_fmap.
  destruct (l !! i), (l !! j); simpl; try done. by rewrite !list_fmap_insert.
Qed.

Lemma swap_list_lookup_Some {A} (l : list A) i j p x :
  (i < length l)%nat -> (j < length l)%nat ->
  swap_list l i j !! p = Some x <->
  l !! (if decide (p = j) then i else if decide (p = i) then j else p) = Some x.
Proof.
  intros Hi Hj. unfold swap_list.
  destruct (lookup_lt_is_Some_2 l i Hi) as [a Ha], (lookup_lt_is_Some_2 l j Hj) as [b Hb].
  rewrite Ha, Hb. case_decide; subst.
  - rewrite list_lookup_insert_eq by (rewrite length_insert; done). by rewrite Ha.
  - rewrite list_lookup_insert_ne by done. case_decide; subst.
    + rewrite list_lookup_insert_eq by done. by rewrite Hb.
    + by rewrite list_lookup_insert_ne by done.
Qed.

Lemma Swap_shape s i j :
  shape s -> (i < length (expirations s))%nat -> (j < length (expirations s))%nat ->
  shape (Swap s i j).
Proof.
  intros Hs Hi Hj. pose proof (shape_nodup s Hs) as Hnd. destruct Hs as (H1 & H2 & H3).
  set (h := swap_list (expirations s) i j).
  assert (Hndh : NoDup h) by (unfold h; by rewrite swap_list_perm).
  assert (Hlen : length h = length (expirations s)) by apply swap_list_length.
  split_and!.
  - intros p l Hp. change (h !! p = Some l) in Hp.
    pose proof Hp as Hq. unfold h in Hq. rewrite swap_list_lookup_Some in Hq by done.
    destruct (H1 _ l Hq) as (r & Hr & Hix & Hk).
    destruct (lookup_lt_is_Some_2 h i) as [li Hli]; [lia|].
    destruct (lookup_lt_is_Some_2 h j) as [lj Hlj]; [lia|].
    assert (Hl : forall q lq, h !! q = Some lq -> l = lq -> p = q)
      by (intros q lq Hq' ->; by eapply NoDup_lookup).
    exists (set_index (Z.of_nat p) r). unfold Swap. simpl. fold h.
    rewrite (list_lookup_total_correct _ _ _ Hli), (list_lookup_total_correct _ _ _ Hlj).
    split_and!; [|done|done]. rewrite !lookup_alter.
    destruct (decide (lj = l)) as [->|Hjl].
    + rewrite (Hl j l Hlj eq_refl). destruct (decide (li = l)); subst; by rewrite Hr.
    + destruct (decide (li = l)) as [->|Hil].
      * rewrite (Hl i l Hli eq_refl), Hr. done.
      * assert (p <> j) by (intros ->; congruence). assert (p <> i) by (intros ->; congruence).
        rewrite !decide_False in Hix by done. rewrite Hr. destruct r; unfold set_index; simpl in *. by subst.
  - intros k l Hk. destruct (H2 k l Hk) as (Hin & r & Hr & Hkr). split.
    + change (l ∈ h). unfold h. by rewrite swap_list_perm.
    + assert (Hd : data (Swap s i j) l = data s l) by apply Swap_same_data.
      unfold data in Hd. rewrite Hr in Hd. apply fmap_Some in Hd as (r' & Hr' & E).
      exists r'. split; [done|]. congruence.
  - intros l r Hr. assert (Hd : data (Swap s i j) l = data s l) by apply Swap_same_data.
    unfold data in Hd. rewrite Hr in Hd. symmetry in Hd. apply fmap_Some in Hd as (r' & Hr' & _).
    by apply (H3 l r').
Qed.

Lemma keys_lookup s i :
  (i < length (expirations s))%nat -> keys s !!! i = rtat (mem s !!! (expirations s !!! i)).
Proof.
  intros Hi. destruct (lookup_lt_is_Some_2 _ _ Hi) as [l Hl].
  rewrite (list_lookup_total_correct _ _ _ Hl). apply list_lookup_total_correct.
  unfold keys. by rewrite list_lookup_fmap, Hl.
Qed.

Lemma keys_length s : length (keys s) = length (expirations s).
Proof. unfold keys. by rewrite length_fmap. Qed.

#[export] Instance expirationHeap_laws : HeapLaws expirationHeap keys shape.
Proof.
  split.
  - intros s _. by rewrite keys_length.
  - intros s i j _ Hi Hj. rewrite keys_length in Hi, Hj. simpl. unfold Less.
    by rewrite !keys_lookup by done.
  - intros s i j Hs Hi Hj. rewrite keys_length in Hi, Hj. simpl.
    split; [by apply Swap_shape|].
    rewrite (keys_same_data s (Swap s i j)) by apply Swap_same_data.
    unfold keys. by rewrite swap_list_fmap.
Qed.

Lemma swaps_same_data n s s' : swaps_below expirationHeap keys shape n s s' -> same_data s s'.
Proof.
  intros (_ & _ & _ & HP). apply (HP (same_data s)); [|done].
  intros x i j _ Hx _ _ _. etrans; [exact Hx|]. apply Swap_same_data.
Qed.

(** Positions at or above [n] keep their record. *)
Lemma swaps_keep_last n s s' p :
  (n <= p)%nat -> (n <= length (expirations s))%nat ->
  swaps_below expirationHeap keys shape n s s' -> expirations s' !! p = expirations s !! p.
Proof.
  intros Hnp Hn (_ & _ & _ & HP). apply (HP (fun x => expirations x !! p = expirations s !! p)); [|done].
  intros x i j _ Hx Hlen Hi Hj. simpl. rewrite <- Hx. unfold swap_list.
  unfold keys in Hlen. rewrite !length_fmap in Hlen.
  destruct (expirations x !! i), (expirations x !! j); try done.
  by rewrite !list_lookup_insert_ne by lia.
Qed.

(** ** Removing the last record *)

Lemma Pop_delete_spec s l k t :
  shape s -> heap_upto (keys s) (length (expirations s) - 1) ->
  expirations s !! (length (expirations s) - 1)%nat = Some l -> data s l = Some (k, t) ->
  let '(s2, l') := Pop s in
  let s3 := delete_key k s2 in
  l' = l /\ key (mem s2 !!! l) = k /\ shape s3 /\ heap_ordered (keys s3) /\
  Len s3 = (Len s - 1)%nat /\
  (forall k', stored s3 k' = if decide (k' = k) then None else stored s k').
Proof.
  intros Hs Hheap Hl Hd. unfold Pop, Len. simpl.
  rewrite (list_lookup_total_correct _ _ _ Hl).
  pose proof (shape_nodup s Hs) as Hnd. destruct Hs as (H1 & H2 & H3).
  apply data_lookup in Hd as (r & Hr & Hkr & Htr).
  destruct (H1 _ l Hl) as (r' & Hr' & _ & Hrec). rewrite Hr in Hr'. injection Hr' as <-.
  rewrite Hkr in Hrec.
  set (n := (length (expirations s) - 1)%nat) in *.
  set (m := alter (set_index (-1)) l (mem s)).
  assert (Hm : forall x, x <> l -> m !! x = mem s !! x)
    by (intros; unfold m; by rewrite lookup_alter_ne).
  assert (Hmd : forall x, (fun r => (key r, rtat r)) <$> m !! x
                = (fun r => (key r, rtat r)) <$> mem s !! x) by apply data_alter_index.
  assert (Hneq : forall p x, take n (expirations s) !! p = Some x ->
            x <> l /\ expirations s !! p = Some x /\ (p < n)%nat).
  { intros p x Hp. apply lookup_take_Some in Hp as [Hp Hlt]. split_and!; [|done|done].
    intros ->. pose proof (NoDup_lookup _ _ _ _ Hnd Hp Hl). lia. }
  split_and!.
  - done.
  - rewrite lookup_total_alt. unfold m. by rewrite lookup_alter_eq, Hr.
  - split_and!; simpl.
    + intros p x Hp. destruct (Hneq p x Hp) as (Hx & Hp' & _). rewrite Hm by done.
      destruct (H1 p x Hp') as (rx & Hrx & Hix & Hkx). exists rx. split_and!; [done|done|].
      rewrite lookup_delete_ne; [done|]. intros E. rewrite <- E in Hkx. congruence.
    + intros k' x Hk'. apply lookup_delete_Some in Hk' as [Hne Hk'].
      destruct (H2 k' x Hk') as (Hin & rx & Hrx & Hkx).
      assert (x <> l) by (intros ->; congruence). split.
      * apply list_elem_of_lookup in Hin as [p Hp]. apply list_elem_of_lookup. exists p.
        apply lookup_take_Some. split; [done|]. pose proof (lookup_lt_Some _ _ _ Hp).
        assert (p <> n) by (intros ->; congruence). unfold n in *. lia.
      * exists rx. by rewrite Hm.
    + intros x rx Hx. destruct (decide (x = l)) as [->|]; [by apply (H3 l r)|].
      rewrite Hm in Hx by done. by apply (H3 x rx).
  - assert (keys (delete_key k (mkStore m (next s) (records s) (take n (expirations s))))
            = take n (keys s)) as ->.
    { unfold keys. simpl. rewrite <- fmap_take. apply list_fmap_ext. intros p x Hp.
      destruct (Hneq p x Hp) as (Hx & _). by rewrite !lookup_total_alt, Hm. }
    intros c Hc. rewrite length_take, keys_length in Hc. pose proof (parent_lt c ltac:(lia)).
    specialize (Hheap c ltac:(lia)).
    rewrite !list_lookup_total_alt in Hheap |- *. rewrite !lookup_take_lt by lia. done.
  - simpl. rewrite length_take. lia.
  - intros k'. unfold stored, data. simpl. rewrite lookup_delete. case_decide as E.
    + subst. by rewrite decide_True.
    + rewrite decide_False by congruence. destruct (records s !! k'); simpl; [|done].
      by rewrite Hmd.
Qed.

Lemma heap_Pop_spec s l k t :
  shape s -> heap_ordered (keys s) -> expirations s !! 0%nat = Some l -> data s l = Some (k, t) ->
  let '(s2, l') := heap_Pop s in
  let s3 := delete_key k s2 in
  key (mem s2 !!! l') = k /\ shape s3 /\ heap_ordered (keys s3) /\ Len s3 = (Len s - 1)%nat /\
  (forall k', stored s3 k' = if decide (k' = k) then None else stored s k').
Proof.
  intros Hs Hh Hl Hd. unfold heap_Pop. pose proof (lookup_lt_Some _ _ _ Hl) as Hlen.
  destruct (pop_prepare_spec expirationHeap keys shape s Hs) as (Hs1 & Hl1 & Hsw & Hup);
    [rewrite keys_length; lia|done|].
  simpl in Hs1, Hl1, Hsw. rewrite keys_length in *.
  set (n := (length (expirations s) - 1)%nat) in *.
  pose proof (swaps_same_data _ _ _ Hsw) as Hsd. pose proof (Swap_same_data s 0 n) as Hsd0.
  destruct (Hsw) as (Hsh & Hlen2 & _). rewrite !keys_length in *.
  assert (Hlast : expirations (pop_prepare expirationHeap s) !! n = Some l).
  { rewrite (swaps_keep_last n (Swap s 0 n) _ n);
      [|done|simpl; rewrite swap_list_length; lia|done]. simpl. rewrite swap_list_lookup_Some by (unfold n; lia). by rewrite decide_True. }
  set (s1 := pop_prepare expirationHeap s) in *.
  assert (Hlen1 : length (expirations s1) = length (expirations s)) by (unfold n in Hlen2; lia).
  pose proof (Pop_delete_spec s1 l k t Hsh) as P. rewrite Hlen1 in P. fold n in P.
  destruct (Pop s1) as [s2 l']. destruct P as (-> & Hk & Hs3 & Hh3 & HL & Hst).
  - done.
  - done.
  - rewrite (proj2 (proj2 Hsd)), (proj2 (proj2 Hsd0)). done.
  - split_and!; [done|done|done|unfold Len in *; lia|]. intros k'. rewrite Hst.
    by rewrite (same_data_stored _ _ _ Hsd), (same_data_stored _ _ _ Hsd0).
Qed.

Lemma heap_Remove_spec s i l k t :
  shape s -> heap_ordered (keys s) -> expirations s !! i = Some l -> data s l = Some (k, t) ->
  let s3 := delete_key k (fst (heap_Remove s i)) in
  shape s3 /\ heap_ordered (keys s3) /\
  (forall k', stored s3 k' = if decide (k' = k) then None else stored s k').
Proof.
  intros Hs Hh Hl Hd. unfold heap_Remove. pose proof (lookup_lt_Some _ _ _ Hl) as Hlen.
  destruct (remove_prepare_spec expirationHeap keys shape s i Hs) as (Hs1 & Hl1 & Hsw & Hup);
    [rewrite keys_length; lia|done|].
  rewrite (keys_length s) in *. set (n := (length (expirations s) - 1)%nat) in *.
  set (s0 := if (n =? i)%nat then s else hSwap expirationHeap s i n) in *.
  assert (Hsd0 : same_data s s0) by (unfold s0; destruct (n =? i)%nat; [reflexivity|apply Swap_same_data]).
  pose proof (swaps_same_data _ _ _ Hsw) as Hsd.
  destruct (Hsw) as (Hsh & Hlen2 & _). rewrite !keys_length in Hlen2, Hl1.
  set (s1 := remove_prepare expirationHeap s i) in *.
  assert (Hlen1 : length (expirations s1) = length (expirations s)) by (rewrite (keys_length s0) in Hlen2; lia).
  assert (Hlast : expirations s1 !! n = Some l).
  { rewrite (swaps_keep_last n s0 _ n); [|done|lia|done]. unfold s0.
    destruct (Nat.eqb_spec n i) as [E|E]; [by rewrite E|]. simpl.
    rewrite swap_list_lookup_Some by (unfold n; lia). by rewrite decide_True. }
  pose proof (Pop_delete_spec s1 l k t Hsh) as P. rewrite Hlen1 in P. fold n in P.
  destruct (Pop s1) as [s2 l']. destruct P as (-> & Hk & Hs3 & Hh3 & HL & Hst).
  - done.
  - done.
  - rewrite (proj2 (proj2 Hsd)), (proj2 (proj2 Hsd0)). done.
  - split_and!; [done|done|]. intros k'. simpl. rewrite Hst.
    by rewrite (same_data_stored _ _ _ Hsd), (same_data_stored _ _ _ Hsd0).
Qed.

(** ** [cleanup] removes exactly the arrival times that have passed *)

Lemma cleanup_loop_spec fuel now s :
  shape s -> heap_ordered (keys s) -> (Len s <= fuel)%nat ->
  let s' := cleanup_loop fuel now s in
  shape s' /\ heap_ordered (keys s') /\ (forall k, stored s' k = live now (stored s k)).
Proof.
  revert s. induction fuel as [|fuel IH]; intros s Hs Hh Hf; cbv zeta; cbn [cleanup_loop].
  - split_and!; [done..|]. intros k. destruct (stored s k) as [t|] eqn:E; [|done].
    apply stored_position in E as (i & l & _ & Hi & _); [|done].
    apply lookup_lt_Some in Hi. unfold Len in Hf. lia.
  - destruct (Nat.ltb_spec 0 (Len s)) as [Hpos|]; cbn [andb].
    + destruct (lookup_lt_is_Some_2 (expirations s) 0 Hpos) as [l Hl].
      rewrite (list_lookup_total_correct _ _ _ Hl).
      destruct (shape_stored s 0 l Hs Hl) as (k0 & t0 & Hd & Hst0 & Hk0).
      assert (rtat (mem s !!! l) = t0) as ->.
      { apply data_lookup in Hd as (r & Hr & _ & <-). by rewrite (lookup_total_correct _ _ _ Hr). }
      destruct (Z.leb_spec t0 now) as [Hle|Hgt].
      * pose proof (heap_Pop_spec s l k0 t0 Hs Hh Hl Hd) as P.
        destruct (heap_Pop s) as [s2 l']. destruct P as (-> & Hs3 & Hh3 & HL & Hst).
        destruct (IH _ Hs3 Hh3) as (? & ? & Hst'); [unfold Len in *; lia|].
        split_and!; [done..|]. intros k. rewrite Hst', Hst.
        case_decide; [|done]. subst. rewrite Hst0. simpl. bsolve.
      * split_and!; [done..|]. intros k. destruct (stored s k) as [t|] eqn:E; [|done].
        apply stored_position in E as (i & l' & _ & Hi & Hki & _); [|done].
        apply lookup_lt_Some in Hi. rewrite <- keys_length in Hi.
        pose proof (heap_root_min (keys s) i Hh Hi) as Hmin.
        rewrite (list_lookup_total_correct _ _ _ Hki), (list_lookup_total_correct _ _ _ Hk0) in Hmin.
        simpl. bsolve.
    + split_and!; [done..|]. intros k. destruct (stored s k) as [t|] eqn:E; [|done].
      apply stored_position in E as (i & l & _ & Hi & _); [|done].
      apply lookup_lt_Some in Hi. unfold Len in *. lia.
Qed.

Lemma cleanup_spec now s :
  shape s -> heap_ordered (keys s) ->
  let s' := cleanup now s in
  shape s' /\ heap_ordered (keys s') /\ (forall k, stored s' k = live now (stored s k)).
Proof. intros. by apply cleanup_loop_spec. Qed.

(** ** Moving and adding a record *)

Lemma update_tat_spec s k l t x i :
  shape s -> heap_ordered (keys s) -> expirations s !! i = Some l -> data s l = Some (k, t) ->
  index (mem s !!! l) = Z.of_nat i ->
  let s1 := mkStore (alter (set_tat x) l (mem s)) (next s) (records s) (expirations s) in
  let s2 := heap_Fix s1 (Z.to_nat (index (mem s1 !!! l))) in
  shape s2 /\ heap_ordered (keys s2) /\
  (forall k', stored s2 k' = if decide (k' = k) then Some x else stored s k').
Proof.
  intros Hs Hh Hi Hd Hix s1 s2. pose proof (shape_nodup s Hs) as Hnd.
  apply data_lookup in Hd as (r & Hr & Hkr & Htr). subst k t.
  assert (Hm : forall y, mem s1 !! y = if decide (y = l) then Some (set_tat x r) else mem s !! y).
  { intros y. simpl. rewrite lookup_alter. case_decide; subst.
    - by rewrite decide_True, Hr.
    - by rewrite decide_False. }
  assert (Hs1 : shape s1).
  { destruct Hs as (H1 & H2 & H3). split_and!; simpl.
    - intros p y Hp. destruct (H1 p y Hp) as (ry & Hry & Hiy & Hky). fold (mem s1).
      change (alter (set_tat x) l (mem s)) with (mem s1). rewrite Hm.
      case_decide; subst; [|eauto]. rewrite Hr in Hry. injection Hry as <-. eauto.
    - intros k y Hk. destruct (H2 k y Hk) as (Hin & ry & Hry & Hky). split; [done|].
      change (alter (set_tat x) l (mem s)) with (mem s1). rewrite Hm.
      case_decide; subst; [|eauto]. rewrite Hr in Hry. injection Hry as <-. eauto.
    - intros y ry. change (alter (set_tat x) l (mem s)) with (mem s1). rewrite Hm.
      case_decide; subst; intros Hy; [by apply (H3 l r)|by apply (H3 y ry)]. }
  assert (Hkeys : keys s1 = <[i := x]> (keys s)).
  { apply list_eq. intros p. unfold keys. rewrite list_lookup_fmap.
    change (expirations s1) with (expirations s).
    destruct (decide (p = i)) as [->|Hne].
    - rewrite Hi. simpl fmap. rewrite lookup_total_alt, Hm, decide_True by done. simpl.
      rewrite list_lookup_insert_eq; [done|]. rewrite length_fmap. by eapply lookup_lt_Some.
    - rewrite list_lookup_insert_ne, list_lookup_fmap by done.
      destruct (expirations s !! p) as [y|] eqn:Hp; [|done]. simpl fmap. f_equal.
      rewrite !lookup_total_alt, Hm, decide_False; [done|]. intros ->.
      by pose proof (NoDup_lookup _ _ _ _ Hnd Hp Hi). }
  assert (Hix1 : Z.to_nat (index (mem s1 !!! l)) = i).
  { rewrite lookup_total_alt, Hm, decide_True by done. simpl.
    rewrite lookup_total_alt, Hr in Hix. simpl in Hix. lia. }
  subst s2. rewrite Hix1. apply lookup_lt_Some in Hi as Hlt.
  destruct (Fix_spec expirationHeap keys shape s1 i) as [Hsw Hord]; [done| | |].
  { rewrite keys_length. done. }
  { rewrite Hkeys, length_insert. apply around_insert; [done|]. by rewrite keys_length. }
  split_and!; [by destruct Hsw|done|]. intros k'.
  unfold heap_Fix. rewrite (same_data_stored _ _ _ (swaps_same_data _ _ _ Hsw)).
  unfold stored, data. change (records s1) with (records s).
  destruct Hs as (H1 & H2 & _). destruct (H1 i l Hi) as (r' & Hr' & _ & Hrec).
  rewrite Hr in Hr'. injection Hr' as <-.
  case_decide as E.
  - subst. rewrite Hrec. cbn [mbind option_bind]. by rewrite Hm, decide_True.
  - destruct (records s !! k') as [y|] eqn:Hy; [|done]. cbn [mbind option_bind].
    rewrite Hm, decide_False; [done|]. intros ->.
    destruct (H2 k' l Hy) as (_ & r' & Hr' & Hk'). congruence.
Qed.

Lemma insert_tat_spec s k x :
  shape s -> heap_ordered (keys s) -> records s !! k = None ->
  let l := next s in
  let s1 := mkStore (<[l := mkRecord k x 0]> (mem s)) (S (next s)) (<[k := l]> (records s))
              (expirations s) in
  let s2 := heap_Push l s1 in
  shape s2 /\ heap_ordered (keys s2) /\
  (forall k', stored s2 k' = if decide (k' = k) then Some x else stored s k').
Proof.
  intros Hs Hh Hk l s1 s2. destruct Hs as (H1 & H2 & H3).
  assert (Hfresh : mem s !! l = None).
  { destruct (mem s !! l) as [r|] eqn:E; [|done]. apply H3 in E. unfold l in E. lia. }
  assert (Hm : forall y, mem (Push l s1) !! y
     = if decide (y = l) then Some (mkRecord k x (Z.of_nat (length (expirations s)))) else mem s !! y).
  { intros y. simpl. rewrite lookup_alter. case_decide; subst.
    - rewrite decide_True by done. by rewrite lookup_insert_eq.
    - rewrite decide_False by done. by rewrite lookup_insert_ne. }
  assert (Hs1 : shape (Push l s1)).
  { split_and!.
    - intros p y Hp. rewrite Hm. simpl in Hp |- *. apply lookup_app_Some in Hp as [Hp|[Hge Hp]].
      + destruct (H1 p y Hp) as (ry & Hry & Hiy & Hky). exists ry.
        rewrite decide_False by congruence. split_and!; [done|done|].
        rewrite lookup_insert_ne; [done|]. intros ->. congruence.
      + apply list_lookup_singleton_Some in Hp as [Hp <-]. eexists.
        rewrite decide_True by done. split_and!; [done|simpl; lia|]. simpl. by rewrite lookup_insert_eq.
    - intros k' y Hk'. rewrite Hm. simpl in Hk' |- *. rewrite lookup_insert in Hk'.
      case_decide as E.
      + injection Hk' as <-. split; [apply elem_of_app; right; by apply list_elem_of_singleton|].
        rewrite decide_True by done. eauto.
      + destruct (H2 k' y Hk') as (Hin & ry & Hry & Hky). split; [by apply elem_of_app; left|].
        rewrite decide_False by congruence. eauto.
    - intros y ry. rewrite Hm. simpl. case_decide; subst; [lia|]. intros Hy.
      pose proof (H3 y ry Hy). lia. }
  assert (Hkeys : keys (Push l s1) = keys s ++ [x]).
  { unfold keys. simpl expirations. rewrite fmap_app. f_equal.
    - apply list_fmap_ext. intros p y Hp. destruct (H1 p y Hp) as (ry & Hry & _).
      rewrite !lookup_total_alt, Hm, decide_False; [done|]. congruence.
    - simpl fmap. by rewrite lookup_total_alt, Hm, decide_True. }
  destruct (push_fix_spec expirationHeap keys shape (Push l s1)) as [Hsw Hord]; [done| | |].
  { rewrite Hkeys, length_app. simpl. lia. }
  { rewrite Hkeys, length_app. simpl. rewrite Nat.add_sub. by apply heap_upto_app. }
  split_and!; [by destruct Hsw|done|]. intros k'.
  unfold s2, heap_Push. rewrite (same_data_stored _ _ _ (swaps_same_data _ _ _ Hsw)).
  unfold stored, data. change (records (Push l s1)) with (<[k := l]> (records s)).
  rewrite lookup_insert. destruct (decide (k = k')) as [->|Hne].
  - rewrite decide_True by done. cbn [mbind option_bind]. by rewrite Hm, decide_True.
  - rewrite decide_False by congruence. destruct (records s !! k') as [y|] eqn:Hy; [|done].
    cbn [mbind option_bind]. destruct (H2 k' y Hy) as (_ & ry & Hry & _).
    rewrite Hm, decide_False by congruence. done.
Qed.

(** ** The store meets the contract *)

(** At time [now]: consistent, and no arrival time further ahead than the
    longest burst a valid limit can have. *)
Definition store_inv (s : MemStore) (now : Z) : Prop :=
  shape s /\ heap_ordered (keys s) /\
  (forall k t, stored s k = Some t -> t <= now + 9223372036854775).

Lemma live_live t t' o : t <= t' -> live t' (live t o) = live t' o.
Proof. intros. destruct o as [x|]; simpl; [|done]. bcase; simpl; bsolve. Qed.

Lemma store_inv_cleanup now s :
  store_inv s now -> store_inv (cleanup now s) now /\ (forall k, stored (cleanup now s) k = live now (stored s k)).
Proof.
  intros (Hs & Hh & Hb). destruct (cleanup_spec now s Hs Hh) as (Hs' & Hh' & Hst).
  split; [|done]. split_and!; [done..|]. intros k t. rewrite Hst. intros E.
  apply (Hb k). destruct (stored s k); simpl in E; [|done]. by case_match.
Qed.

Lemma store_inv_set s s' now k x :
  store_inv s now -> shape s' -> heap_ordered (keys s') -> x <= now + 9223372036854775 ->
  (forall k', stored s' k' = if decide (k' = k) then Some x else stored s k') ->
  store_inv s' now.
Proof.
  intros (_ & _ & Hb) Hs Hh Hx Hst. split_and!; [done..|]. intros k' t. rewrite Hst.
  case_decide; [intros [= <-]; lia|apply Hb].
Qed.

(** The current arrival time as the code computes it, on a cleaned store. *)
Lemma current_tat s k now :
  shape s -> (forall t, stored s k = Some t -> now < t) ->
  match records s !! k with
  | Some l => if rtat (mem s !!! l) >? now then rtat (mem s !!! l) else now
  | None => now
  end = gcra_tat now (stored s k).
Proof.
  intros Hs Hlive. unfold stored. destruct (records s !! k) as [l|] eqn:E; [|done]. simpl.
  destruct Hs as (_ & H2 & _). destruct (H2 k l E) as (_ & r & Hr & _).
  unfold data. rewrite Hr, (lookup_total_correct _ _ _ Hr). simpl. bcase; lia.
Qed.

Lemma MemTake_law s c now k lim cost :
  store_inv s now -> ctx_open c -> valid_limit lim -> 1 <= cost <= Burst lim -> clock_ok now ->
  let '(s', r) := MemTake (Some c) now (mkTakeRequest k lim cost) s in
  let '(d, new) := gcra lim now (live now (stored s k)) cost in
  r = (d, None) /\ store_inv s' now /\
  (forall k', stored s' k' = match new with
                             | Some x => if decide (k' = k) then Some x else live now (stored s k')
                             | None => live now (stored s k')
                             end).
Proof.
  intros Hinv Hc Hv Hcost Hclk. unfold MemTake. simpl. unfold flip, Cause. rewrite !Hc. simpl.
  destruct (store_inv_cleanup now s Hinv) as [Hinv1 Hst]. set (s1 := cleanup now s) in *.
  destruct (valid_limit_bounds lim Hv) as (HR & HP & HB & Hi & Hm & _).
  set (i := emissionInterval lim) in *. unfold clock_ok in Hclk.
  rewrite current_tat; [|apply Hinv1|].
  2:{ intros t. rewrite Hst. destruct (stored s k); simpl; [|done]. bcase; [|done]. by intros [= <-]. }
  rewrite Hst. unfold gcra. fold i. set (T := gcra_tat now (live now (stored s k))).
  assert (HT : now <= T <= now + 9223372036854775).
  { unfold T. destruct Hinv as (_ & _ & Hb). destruct (stored s k) as [t|] eqn:E; simpl; [|lia].
    specialize (Hb k t E). bcase; simpl; lia. }
  assert (Hic : 0 < i * cost <= i * Burst lim) by nia.
  rewrite !(wrap64_id (i * _)) by (int64_unfold; lia).
  rewrite (wrap64_id (T + i * cost)), (wrap64_id (now + i * Burst lim)) by (int64_unfold; lia).
  rewrite Z.gtb_ltb. destruct (Z.ltb_spec (now + i * Burst lim) (T + i * cost)) as [Hrej|Hacc].
  - destruct (Z.leb_spec (T + i * cost) (now + i * Burst lim)); [lia|].
    split_and!; [|done|done]. unfold remaining, microseconds, Microsecond.
    rewrite !(wrap64_id (now + _)) by (int64_unfold; lia).
    rewrite !(wrap64_id (T + i * cost - i * Burst lim)) by (int64_unfold; lia).
    rewrite !(wrap64_id (now + i * Burst lim - T)), !(wrap64_id (T + i * cost - i * Burst lim - now)),
      !(wrap64_id (T - now)) by (int64_unfold; lia).
    rewrite !(wrap64_id (_ * 1000)) by (int64_unfold; nia).
    f_equal. f_equal.
    + destruct (Z.leb_spec (now + i * Burst lim - T) 0).
      * rewrite Z.max_l by lia. done.
      * rewrite Z.max_r by lia. apply Z.quot_div_nonneg; lia.
    + bcase; lia.
    + bcase; lia.
  - destruct (Z.leb_spec (T + i * cost) (now + i * Burst lim)); [|lia].
    assert (Hdec : mkDecision lim true (remaining now (T + i * cost) i (i * Burst lim)) 0
                     (microseconds (wrap64 (T + i * cost - now)))
                   = mkDecision lim true ((now + i * Burst lim - (T + i * cost)) / i) 0
                       ((T + i * cost - now) * 1000)).
    { unfold remaining, microseconds, Microsecond.
      rewrite !(wrap64_id (now + _)) by (int64_unfold; lia).
      rewrite !(wrap64_id (now + _ - _)), !(wrap64_id (T + i * cost - now)) by (int64_unfold; lia).
      rewrite !(wrap64_id (_ * 1000)) by (int64_unfold; nia).
      f_equal; [|bcase; lia].
      destruct (Z.leb_spec (now + i * Burst lim - (T + i * cost)) 0).
      - replace (now + i * Burst lim - (T + i * cost)) with 0 by lia. done.
      - apply Z.quot_div_nonneg; lia. }
    rewrite Hdec. clear Hdec. destruct (Hinv1) as (Hsh1 & Hh1 & _).
    destruct (records s1 !! k) as [l|] eqn:Hrec.
    + destruct (proj1 (proj2 Hsh1) k l Hrec) as ([p Hp]%list_elem_of_lookup & r & Hr & Hkr).
      destruct (proj1 Hsh1 p l Hp) as (r' & Hr' & Hix & _). rewrite Hr in Hr'. injection Hr' as <-.
      destruct (update_tat_spec s1 k l (rtat r) (T + i * cost) p) as (Hs2 & Hh2 & Hst2); [done..| | |].
      { unfold data. rewrite Hr. simpl. by rewrite Hkr. }
      { by rewrite (lookup_total_correct _ _ _ Hr). }
      split_and!; [done| |].
      * apply (store_inv_set s1 _ now k (T + i * cost)); done || lia.
      * intros k'. rewrite Hst2. case_decide; [done|apply Hst].
    + destruct (insert_tat_spec s1 k (T + i * cost)) as (Hs2 & Hh2 & Hst2); [done..|].
      split_and!; [done| |].
      * apply (store_inv_set s1 _ now k (T + i * cost)); done || lia.
      * intros k'. rewrite Hst2. case_decide; [done|apply Hst].
Qed.

Lemma MemReset_law s c now k :
  store_inv s now -> ctx_open c ->
  let '(s', e) := MemReset (Some c) now k s in
  e = None /\ store_inv s' now /\
  (forall k', stored s' k' = if decide (k' = k) then None else live now (stored s k')).
Proof.
  intros Hinv Hc. unfold MemReset. cbn [validateContext mbind option_bind].
  unfold flip, Cause. rewrite !Hc. cbn [fmap option_fmap option_map].
  destruct (store_inv_cleanup now s Hinv) as [Hinv1 Hst]. set (s1 := cleanup now s) in *.
  destruct (records s1 !! k) as [l|] eqn:Hrec.
  - destruct (Hinv1) as (Hsh1 & Hh1 & Hb1).
    destruct (proj1 (proj2 Hsh1) k l Hrec) as ([p Hp]%list_elem_of_lookup & r & Hr & Hkr).
    destruct (proj1 Hsh1 p l Hp) as (r' & Hr' & Hix & _). rewrite Hr in Hr'. injection Hr' as <-.
    rewrite (lookup_total_correct _ _ _ Hr), Hix, Nat2Z.id.
    destruct (heap_Remove_spec s1 p l k (rtat r)) as (Hs2 & Hh2 & Hst2); [done..| |].
    { unfold data. rewrite Hr. simpl. by rewrite Hkr. }
    destruct (heap_Remove s1 p) as [s2 l2]. simpl in *. split_and!; [done| |].
    + split_and!; [done..|]. intros k' t. rewrite Hst2. case_decide; [done|apply Hb1].
    + intros k'. rewrite Hst2. case_decide; [done|apply Hst].
  - split_and!; [done|done|]. intros k'. rewrite Hst. case_decide; [|done]. subst.
    rewrite <- Hst. unfold stored. by rewrite Hrec.
Qed.

#[export, refine] Instance mem_store_laws : StoreLaws MemStore := {|
  inv := store_inv;
  RateLimit.tat s t k := live t (stored s k);
  in_range _ := clock_ok
|}.
Proof.
  - intros s t t' (Hs & Hh & Hb) Hle. split_and!; [done..|]. intros k x E. specialize (Hb k x E). lia.
  - intros s t t' k _ Hle. by rewrite live_live.
  - intros s t k. by rewrite live_live.
  - intros s c now k lim cost Hinv Hc Hv Hcost Hclk. simpl.
    pose proof (MemTake_law s c now k lim cost Hinv Hc Hv Hcost Hclk) as L.
    destruct (MemTake _ _ _ _) as [s' r]. destruct (gcra _ _ _ _) as [d [x|]];
      destruct L as (-> & Hi & Hst); split_and!; try done; intros t k' Ht; rewrite Hst.
    + case_decide; [done|]. by apply live_live.
    + by apply live_live.
  - intros s c now k Hinv Hc. simpl. pose proof (MemReset_law s c now k Hinv Hc) as L.
    destruct (MemReset _ _ _ _) as [s' e]. destruct L as (-> & Hi & Hst).
    split_and!; try done. intros t k' Ht. rewrite Hst. case_decide; [done|]. by apply live_live.
Defined.

(** ** Properties *)

(** The memory store is consistent in every reachable state: map, heap and
    heap indices agree, the heap is ordered, and each operation ([Take], [Reset],
    cleanup included) preserves it. *)
Theorem mem_store_consistent s c now k lim cost :
  store_inv s now -> ctx_open c -> valid_limit lim -> 1 <= cost <= Burst lim -> clock_ok now ->
  store_inv new_store now /\
  store_inv (fst (MemTake (Some c) now (mkTakeRequest k lim cost) s)) now /\
  store_inv (fst (MemReset (Some c) now k s)) now.
Proof.
  intros Hinv Hc Hv Hcost Hclk. split_and!.
  - split_and!; [split_and!|by intros ? ?; simpl in *; lia|]; by intros.
  - pose proof (MemTake_law s c now k lim cost Hinv Hc Hv Hcost Hclk) as L.
    destruct (MemTake _ _ _ _), (gcra _ _ _ _). by destruct L as (_ & ? & _).
  - pose proof (MemReset_law s c now k Hinv Hc) as L.
    destruct (MemReset _ _ _ _). by destruct L as (_ & ? & _).
Qed.

(** C2: the memory store implements one GCRA cell per key: [Take] answers with
    the decision of the cell on the key's live arrival time, stores the new time
    exactly when it admits, and touches no other key's live time; a done context
    changes nothing. *)
Theorem mem_store_refines_gcra s c now k lim cost :
  store_inv s now -> ctx_stable c -> valid_limit lim -> 1 <= cost <= Burst lim -> clock_ok now ->
  let '(s', (d, err)) := MemTake (Some c) now (mkTakeRequest k lim cost) s in
  match c 1%nat with
  | Some dn => s' = s /\ err = Some (done_cause dn)
  | None =>
      let '(d', new) := gcra lim now (live now (stored s k)) cost in
      d = d' /\ err = None /\
      (forall k', live now (stored s' k') =
         if decide (k' = k) then match new with Some x => live now (Some x)
                                 | None => live now (stored s k) end
         else live now (stored s k'))
  end.
Proof.
  intros Hinv Hstab Hv Hcost Hclk. destruct (c 1%nat) as [dn|] eqn:E1.
  - unfold MemTake. simpl. unfold flip, Cause. rewrite E1. simpl.
    destruct (c 0%nat) as [d0|] eqn:E0; simpl; [|done].
    rewrite (Hstab 0%nat 1%nat d0 ltac:(lia) E0) in E1. by injection E1 as ->.
  - set (c' := fun n => if decide (n <= 1)%nat then c n else None).
    assert (Hc' : ctx_open c').
    { intros n. unfold c'. case_decide; [|done]. destruct (c n) eqn:E; [|done].
      rewrite (Hstab n 1%nat _ ltac:(lia) E) in E1. done. }
    assert (Heq : MemTake (Some c) now (mkTakeRequest k lim cost) s
                  = MemTake (Some c') now (mkTakeRequest k lim cost) s) by done.
    rewrite Heq. pose proof (MemTake_law s c' now k lim cost Hinv Hc' Hv Hcost Hclk) as L.
    destruct (MemTake _ _ _ _) as [s' [d err]]. destruct (gcra _ _ _ _) as [d' new].
    destruct L as ([= -> ->] & _ & Hst). split_and!; [done|done|]. intros k'. rewrite Hst.
    destruct new; case_decide; subst; try done; by rewrite live_live.
Qed.

Local Ltac clock_lia := cbn [in_range mem_store_laws]; unfold clock_ok; simpl; lia.

(** A store with one key at its limit, used by the witnesses. *)
Definition full_limiter : Limiter MemStore :=
  fst (AllowN (mkLimiter new_store (PerSecond 3)) (Some Background) 1000 "a" 3).

Lemma per_second_valid : valid_limit (PerSecond 3).
Proof. unfold valid_limit. int64_unfold. vm_compute. split_and!; congruence. Qed.

Lemma new_store_inv now : store_inv new_store now.
Proof. split_and!; [split_and!|intros ? ?; simpl in *; lia|]; by intros. Qed.

Lemma full_limiter_ok : limiter_ok full_limiter 1000.
Proof.
  pose proof (AllowN_law (mkLimiter new_store (PerSecond 3)) Background 1000 "a" 3) as L.
  unfold full_limiter. destruct (AllowN _ _ _ _ _) as [l r]. destruct (gcra _ _ _ _).
  destruct L as (_ & H & _);
    [split; [apply new_store_inv|apply per_second_valid]|done|clock_lia|done|simpl; lia|].
  done.
Qed.

Lemma mem_store_consistent_witness :
  store_inv (fst (MemTake (Some Background) 5 (mkTakeRequest "a" (PerSecond 3) 2) new_store)) 5.
Proof.
  apply (mem_store_consistent new_store Background 5 "a" (PerSecond 3) 2);
    [apply new_store_inv|done|apply per_second_valid|simpl; lia|clock_lia].
Defined.

Lemma mem_store_refines_gcra_witness :
  let '(s', (d, err)) := MemTake (Some Background) 5 (mkTakeRequest "a" (PerSecond 3) 2) new_store in
  let '(d', new) := gcra (PerSecond 3) 5 (live 5 (stored new_store "a")) 2 in
  d = d' /\ err = None /\
  (forall k', live 5 (stored s' k') =
     if decide (k' = "a"%string) then match new with Some x => live 5 (Some x)
                               | None => live 5 (stored new_store "a") end
     else live 5 (stored new_store k')).
Proof.
  apply (mem_store_refines_gcra new_store Background 5 "a" (PerSecond 3) 2);
    [apply new_store_inv|apply Background_stable|apply per_second_valid|simpl; lia|clock_lia].
Defined.

Lemma limiter_rate_bound_witness :
  (run_calls full_limiter [(1000, "a", 1); (400000, "a", 1)]%string "a" - 3) * Second
    <= 3 * ((1000000 - 1000) * 1000).
Proof.
  apply (limiter_rate_bound full_limiter [(1000, "a", 1); (400000, "a", 1)]%string "a" 1000 1000000).
  - apply full_limiter_ok.
  - repeat (split; [done || clock_lia|]). simpl. lia.
Defined.

Lemma limiter_retry_after_exact_witness :
  let '(l1, (d1, _)) := AllowN full_limiter (Some Background) 1000 "a" 1 in
  let '(_, (d2, _)) := AllowN l1 (Some Background) 334334 "a" 1 in
  Allowed d1 = false /\ Allowed d2 = true /\ 0 < RetryAfter d1.
Proof.
  pose proof (limiter_retry_after_exact full_limiter 1000 334334 "a" 1 full_limiter_ok
                ltac:(clock_lia) ltac:(clock_lia) ltac:(lia) ltac:(done)
                ltac:(vm_compute; split; congruence)) as H.
  vm_compute in H. vm_compute. destruct H as [H _]; [reflexivity|].
  split; [reflexivity|split; [reflexivity|exact H]].
Defined.

Lemma limiter_remaining_exact_witness :
  let '(l1, (d1, _)) := AllowN (mkLimiter new_store (PerSecond 3)) (Some Background) 1000 "a" 1 in
  let '(_, (d2, _)) := AllowN l1 (Some Background) 1000 "a" 2 in
  Remaining d1 = 2 /\ Allowed d2 = true /\ (Allowed d2 = true <-> 2 <= Remaining d1).
Proof.
  pose proof (limiter_remaining_exact (mkLimiter new_store (PerSecond 3)) 1000 "a" 1 2
                (conj (new_store_inv 1000) per_second_valid) ltac:(clock_lia) ltac:(done)
                ltac:(simpl; lia) ltac:(simpl; lia)) as H.
  vm_compute in H. vm_compute. destruct H as [_ H].
  split; [reflexivity|split; [reflexivity|exact H]].
Defined.
