(* ===== verification/RateLimitRedis.v ===== *)
(** * The Redis rate-limit store: [src/ratelimit/redis]

    The store runs one Lua script per decision, with the server's clock and the
    doubles of Lua.  It meets the contract of [RateLimit.StoreLaws] while the
    instants it computes stay below [2^52] microseconds, where doubles are exact,
    so the theorems about the limiter hold for it as for the memory store; over
    connections that fail, the bound on admitted units still holds. *)

From S2P Require Import Prelude GoErrors GoStrconv Redis LuaNum RateLimit RateLimitMemory.
From stdpp Require Import options.
Set Default Proof Using "Type*".
Local Open Scope Z_scope.
Local Open Scope string_scope.
Local Open Scope Z_scope.
Local Open Scope lua_scope.

(** ** [config.go] *)

Definition defaultPrefix : string := "fries:ratelimit:".

Record config := mkConfig { cprefix : string }.

Definition WithPrefix (prefix : string) : config -> config := fun c =>
  let prefix := TrimRight prefix in
  if negb (bool_decide (prefix = EmptyString)) then mkConfig (prefix +:+ ":") else c.

Definition newConfig (options : list (option (config -> config))) : config :=
  apply_options options (mkConfig defaultPrefix).

(** ** [scripts.go] *)

(** What [tonumber] makes of a string: for the decimal integers the client and
    the script write, the nearest double. *)
Class LuaStrings := {
  tonumber : string -> option Z;
  tonumber_format z : int64_ok z -> tonumber (FormatInt z) = Some (lua_num z)
}.

#[export, refine] Instance lua_decimal : LuaStrings := {| tonumber s := lua_num <$> ParseInt s |}.
Proof. intros z Hz. by rewrite parse_format. Defined.

Definition nil_arithmetic : error :=
  ErrMsg "user_script: attempt to perform arithmetic on a nil value".

Section Store.
Context {R : Type} `{!RedisServer R, !LuaStrings}.

Definition takeScript (KEYS1 ARGV1 ARGV2 ARGV3 : string) : script R (list any) := fun time =>
  let current_time := (time / 1000 / 1000000, (time / 1000) mod 1000000) in
  let now := lua_num (lua_num (lua_num (fst current_time) * 1000000) + lua_num (snd current_time)) in
  match tonumber ARGV1, tonumber ARGV2, tonumber ARGV3 with
  | Some interval, Some burst, Some cost =>
      let burst_offset := lua_num (interval * burst) in
      let increment := lua_num (interval * cost) in
      (local got <- redis_call KEYS1 GET in
       let tat := match got with RStr s => default now (tonumber s) | _ => now end in
       let tat := if tat <? now then now else tat in
       let new_tat := lua_num (tat + increment) in
       let allow_at := lua_num (new_tat - burst_offset) in
       if allow_at >? now then
         let remaining :=
           lua_floor_div (lua_num (lua_num (now + burst_offset) - tat)) interval in
         let remaining := if remaining <? 0 then 0 else remaining in
         sret [AInt 0; AInt remaining; AInt (lua_num (allow_at - now)); AInt (lua_num (tat - now))]
       else
         let remaining :=
           lua_floor_div (lua_num (lua_num (now + burst_offset) - new_tat)) interval in
         let remaining := if remaining <? 0 then 0 else remaining in
         let reset_after := lua_num (new_tat - now) in
         let ttl := Z.max 1 (lua_ceil_div reset_after 1000) in
         call redis_call KEYS1 (SET (FormatInt new_tat) (PX ttl)) then
         sret [AInt 1; AInt remaining; AInt 0; AInt reset_after]) time
  | _, _, _ => fun r => (r, inr nil_arithmetic)
  end.

(** ** [store.go] *)

Record RedisStore := mkStore { client : Client R; prefix : string }.

(** [New] panics on a nil client: no store. *)
Definition New (client : option (Client R)) (options : list (option (config -> config)))
    : option RedisStore :=
  match client with
  | None => None
  | Some cl =>
      let c := newConfig options in
      Some (mkStore cl (cprefix c))
  end.

(** The values of the reply as integers, or the first that is not one. *)
Fixpoint integers (raw : list any) : list Z + error :=
  match raw with
  | [] => inl []
  | AInt z :: raw => match integers raw with inl zs => inl (z :: zs) | inr e => inr e end
  | _ :: _ => inr (ErrMsg "invalid script result value type")
  end.

Definition parseDecision (raw : list any) (limit : Limit) : Decision + error :=
  if negb (length raw =? 4)%nat then inr (ErrMsg "invalid script result length")
  else
    match integers raw with
    | inr e => inr e
    | inl values =>
        let v i := nth i values 0 in
        if negb (v 0%nat =? 0) && negb (v 0%nat =? 1)
        then inr (ErrMsg "invalid script allowed value")
        else
          let maxDurationMicros := Z.quot maxInt64 Microsecond in
          if (v 1%nat <? 0) || (v 1%nat >? Burst limit) ||
             (v 2%nat <? 0) || (v 2%nat >? maxDurationMicros) ||
             (v 3%nat <? 0) || (v 3%nat >? maxDurationMicros)
          then inr (ErrMsg "invalid script result values")
          else inl (mkDecision limit (v 0%nat =? 1) (v 1%nat)
                      (wrap64 (v 2%nat * Microsecond)) (wrap64 (v 3%nat * Microsecond)))
    end.

Definition RedisTake (ctx : option context) (now : Z) (request : TakeRequest) (s : RedisStore)
    : RedisStore * (Decision * option error) :=
  match validateContext ctx 0 with
  | Some err => (s, (zeroDecision, Some err))
  | None =>
      let key := prefix s +:+ rKey request in
      let '(cl, raw) :=
        roundtrip (client s)
          (takeScript key (FormatInt (emissionInterval (rLimit request)))
             (FormatInt (Burst (rLimit request))) (FormatInt (rCost request))) (now * 1000) in
      let s := mkStore cl (prefix s) in
      match raw with
      | inr err => (s, (zeroDecision, Some (ErrWrapf "ratelimit/redis: take" err)))
      | inl raw =>
          match parseDecision raw (rLimit request) with
          | inr err => (s, (zeroDecision, Some (ErrWrapf "ratelimit/redis: take" err)))
          | inl decision => (s, (decision, None))
          end
      end
  end.

Definition RedisReset (ctx : option context) (now : Z) (key : string) (s : RedisStore)
    : RedisStore * option error :=
  match validateContext ctx 0 with
  | Some err => (s, Some err)
  | None =>
      let redisKey := prefix s +:+ key in
      let '(cl, res) := command (client s) (now * 1000) redisKey DEL in
      let s := mkStore cl (prefix s) in
      match res with
      | inr err => (s, Some (ErrWrapf "ratelimit/redis: reset" err))
      | inl _ => (s, None)
      end
  end.

#[export] Instance redis_store : Store RedisStore := {|
  Take := RedisTake;
  Reset := RedisReset
|}.
End Store.
Arguments RedisStore : clear implicits.

(** ** The contract *)

(** The arrival time a key's entry holds. *)
Definition stored_tat (e : option entry) : option Z :=
  en ← e; match val en with VStr s => ParseInt s | VHash _ => None end.

(** An entry the script wrote: an arrival time below [2^52], kept until then. *)
Definition tat_entry (en : entry) : Prop :=
  exists x d, en = mkEntry (VStr (FormatInt x)) (Some d) /\ 0 <= x < 2 ^ 52 /\ x * 1000 <= d.

Definition exact_range (lim : Limit) (now : Z) : Prop :=
  0 <= now /\ now + emissionInterval lim * Burst lim < 2 ^ 52.

Lemma stored_tat_entry x d :
  0 <= x < 2 ^ 52 -> stored_tat (Some (mkEntry (VStr (FormatInt x)) d)) = Some x.
Proof. intros Hx. simpl. apply parse_format. int_lia. Qed.

(** [parseDecision] accepts exactly the replies that encode a decision within
    the ranges of the limit. *)
Lemma parseDecision_ok lim a b c d :
  (a = 0 \/ a = 1) -> 0 <= b <= Burst lim -> 0 <= c <= 9223372036854775 -> 0 <= d <= 9223372036854775 ->
  parseDecision [AInt a; AInt b; AInt c; AInt d] lim
  = inl (mkDecision lim (a =? 1) b (c * 1000) (d * 1000)).
Proof.
  intros Ha Hb Hc Hd. unfold parseDecision. simpl.
  change (Z.quot maxInt64 Microsecond) with 9223372036854775. unfold Microsecond.
  rewrite !(wrap64_id (_ * 1000)) by int_lia.
  destruct (Z.eqb_spec a 0), (Z.eqb_spec a 1); try lia; simpl;
    repeat (rewrite Z.gtb_ltb || match goal with
            | |- context [?x <? ?y] => destruct (Z.ltb_spec x y); [lia|]
            end; simpl); done.
Qed.

Section Laws.
Context {R : Type} `{!RedisServer R, !RedisLaws R, !LuaStrings}.

Definition store_inv (s : RedisStore R) (now : Z) : Prop :=
  faults (client s) = [] /\
  forall k en, lookup_at (server (client s)) (now * 1000) (prefix s +:+ k) = Some en -> tat_entry en.

Definition key_tat (s : RedisStore R) (now : Z) (k : string) : option Z :=
  live now (stored_tat (lookup_at (server (client s)) (now * 1000) (prefix s +:+ k))).

(** The clock the script reads. *)
Lemma script_now now : 0 <= now < 2 ^ 52 ->
  lua_num (lua_num (lua_num (now / 1000000) * 1000000) + lua_num (now mod 1000000)) = now.
Proof.
  intros Hn. pose proof (Z.div_mod now 1000000). pose proof (Z.mod_pos_bound now 1000000).
  assert (0 <= now / 1000000) by (apply Z.div_pos; lia).
  rewrite (lua_num_exact (now / 1000000)), (lua_num_exact (now mod 1000000)) by lia.
  rewrite (lua_num_exact (now / 1000000 * 1000000)), lua_num_exact by lia. lia.
Qed.

(** What the script reads of its key. *)
Lemma script_get r t k : 
  (forall en, lookup_at r t k = Some en -> tat_entry en) ->
  exists rep, redis_call k GET t r = ((exec t k GET r).1, inl rep) /\
  forall now, match rep with RStr s => default now (tonumber s) | _ => now end
              = default now (stored_tat (lookup_at r t k)).
Proof.
  intros Hen. unfold redis_call. pose proof (exec_reply r t k GET) as Hr.
  destruct (exec t k GET r) as [r' rep]. simpl in *. subst rep.
  destruct (lookup_at r t k) as [en|] eqn:E.
  - destruct (Hen en eq_refl) as (x & d & -> & Hx & _).
    exists (RStr (FormatInt x)). split; [done|]. intros now.
    rewrite tonumber_format, lua_num_exact by int_lia. by rewrite stored_tat_entry.
  - exists RNil. split; done.
Qed.

(** A quotient that is not below zero. *)
Lemma clamped_div x i : 0 < i -> (if x / i <? 0 then 0 else x / i) = Z.max 0 x / i.
Proof.
  intros Hi. destruct (Z.le_gt_cases 0 x).
  - rewrite Z.max_r by lia. pose proof (Z.div_pos x i). bcase; lia.
  - rewrite Z.max_l by lia. rewrite Z.div_0_l by lia.
    assert (x / i < 0) by (apply Z.div_lt_upper_bound; lia). bcase; lia.
Qed.

(** The instants a decision is about are exact doubles. *)
Lemma takeScript_spec r t k lim cost :
  let now := t / 1000 in
  let e := lookup_at r t k in
  (forall en, e = Some en -> tat_entry en) ->
  valid_limit lim -> 1 <= cost <= Burst lim -> exact_range lim now ->
  let '(d, new) := gcra lim now (stored_tat e) cost in
  let '(r', res) := takeScript k (FormatInt (emissionInterval lim)) (FormatInt (Burst lim))
                      (FormatInt cost) t r in
  (exists raw, res = inl raw /\ parseDecision raw lim = inl d) /\
  match new with
  | None => r' = (exec t k GET r).1
  | Some x => now < x <= now + emissionInterval lim * Burst lim /\
      r' = (exec t k (SET (FormatInt x) (PX (Z.max 1 (ceil_div (x - now) 1000)))) (exec t k GET r).1).1
  end.
Proof.
  intros now e Hen Hv Hcost [Hn Hr].
  destruct (valid_limit_bounds lim Hv) as (HR & HP & HB & Hi & Hm & _).
  unfold takeScript. set (i := emissionInterval lim) in *.
  assert (Hic : 0 < i * cost <= i * Burst lim) by nia.
  assert (Hs : i <= i * Burst lim /\ Burst lim <= i * Burst lim /\ cost <= i * cost) by nia.
  rewrite !tonumber_format by int_lia. cbv zeta. cbn [fst snd]. fold now.
  rewrite script_now by nia.
  rewrite (lua_num_exact i), (lua_num_exact (Burst lim)), (lua_num_exact cost) by lia.
  rewrite (lua_num_exact (i * Burst lim)), (lua_num_exact (i * cost)) by lia.
  unfold sbind. destruct (script_get r t k Hen) as (rep & -> & Hrep). rewrite Hrep. fold e.
  assert (HT : (if default now (stored_tat e) <? now then now else default now (stored_tat e))
               = gcra_tat now (stored_tat e)).
  { destruct (stored_tat e) as [x|]; simpl; bcase; lia. }
  rewrite HT. clear HT Hrep.
  assert (HT : now <= gcra_tat now (stored_tat e) < 2 ^ 52).
  { destruct e as [en|] eqn:Ee; [|simpl; lia].
    destruct (Hen en eq_refl) as (x & d & -> & Hx & _). rewrite stored_tat_entry by done. simpl. lia. }
  unfold gcra. fold i. set (T := gcra_tat now (stored_tat e)) in *.
  rewrite (lua_num_exact (T + i * cost)) by lia.
  rewrite (lua_num_exact (T + i * cost - i * Burst lim)), (lua_num_exact (now + i * Burst lim)) by lia.
  rewrite Z.gtb_ltb.
  destruct (Z.ltb_spec now (T + i * cost - i * Burst lim)), (Z.leb_spec (T + i * cost) (now + i * Burst lim)); try lia.
  - rewrite !(lua_num_exact (_ - now)), !(lua_num_exact (_ - T)) by lia.
    rewrite lua_floor_div_exact by lia. split; [|done]. eexists. split; [done|].
    rewrite (clamped_div _ i) by lia. rewrite parseDecision_ok; [|lia| |lia|lia].
    + by f_equal.
    + split; [apply Z.div_pos; lia|]. apply Z.div_le_upper_bound; nia.
  - rewrite (lua_num_exact (T + i * cost - now)), (lua_num_exact (_ - (T + i * cost))) by lia.
    rewrite lua_floor_div_exact, lua_ceil_div_exact by lia.
    unfold redis_call. pose proof (exec_reply (exec t k GET r).1 t k
      (SET (FormatInt (T + i * cost)) (PX (Z.max 1 (ceil_div (T + i * cost - now) 1000))))) as Hset.
    assert (Hbad : bad_px (PX (Z.max 1 (ceil_div (T + i * cost - now) 1000))) = false) by (apply Z.leb_gt; lia).
    destruct (exec t k (SET _ _) _) as [r' rep']. cbn [cmd_spec] in Hset. rewrite Hbad in Hset. simpl in Hset. subst rep'. simpl.
    split; [|split; [lia|done]]. eexists. split; [done|].
    assert (Hrem : 0 <= (now + i * Burst lim - (T + i * cost)) / i <= Burst lim).
    { split; [apply Z.div_pos; lia|]. apply Z.div_le_upper_bound; nia. }
    destruct (Z.ltb_spec ((now + i * Burst lim - (T + i * cost)) / i) 0); [lia|].
    rewrite parseDecision_ok; [done|lia..].
Qed.

(** An admitted arrival time outlives its own instant on the server. *)
Lemma set_tat_entry t now x :
  now = t / 1000 -> 0 <= now < x -> x < 2 ^ 52 ->
  tat_entry (mkEntry (VStr (FormatInt x)) (Some (ends t (Z.max 1 (ceil_div (x - now) 1000))))).
Proof.
  intros -> Hn Hx. do 2 eexists. split_and!; [done|lia|lia|].
  pose proof (ends_bounds t (Z.max 1 (ceil_div (x - t / 1000) 1000))) as [Hb _].
  pose proof (Z.mul_div_le t 1000 ltac:(lia)).
  unfold ceil_div in *. pose proof (Z.mul_div_le (- (x - t / 1000)) 1000 ltac:(lia)). lia.
Qed.

(** While an entry of the script is on the server its time is exact; once it is
    gone its time has passed. *)
Lemma unexpired_tat t now en :
  now = t / 1000 -> tat_entry en ->
  live now (stored_tat (unexpired t (Some en))) = live now (stored_tat (Some en)).
Proof.
  intros -> (x & d & -> & Hx & Hd). simpl. destruct (Z.ltb_spec t d); [done|]. simpl.
  rewrite parse_format by int_lia. simpl. assert (x <= t / 1000) by (apply Z.div_le_lower_bound; lia).
  by destruct (Z.ltb_spec (t / 1000) x); [lia|].
Qed.

Lemma key_tat_later s now t k :
  store_inv s now -> now <= t -> key_tat s t k = live t (key_tat s now k).
Proof.
  intros [_ Hs] Ht. unfold key_tat. rewrite (lookup_later _ (now * 1000) (t * 1000)) by lia.
  specialize (Hs k). destruct (lookup_at _ _ _) as [en|]; [|done].
  rewrite (unexpired_tat _ t) by (by rewrite Z.div_mul || by apply Hs).
  destruct (stored_tat _) as [x|]; simpl; [|done].
  destruct (Z.ltb_spec now x), (Z.ltb_spec t x); simpl; bcase; done || lia.
Qed.

Lemma store_inv_later s t t' : store_inv s t -> t <= t' -> store_inv s t'.
Proof.
  intros [Hf Hs] Ht. split; [done|]. intros k en. rewrite (lookup_later _ (t * 1000)) by lia.
  intros [Hu _]%unexpired_Some. by apply (Hs k).
Qed.

Lemma RedisTake_law s c now key lim cost :
  store_inv s now -> ctx_open c -> valid_limit lim -> 1 <= cost <= Burst lim -> exact_range lim now ->
  let '(s', r) := RedisTake (Some c) now (mkTakeRequest key lim cost) s in
  let '(d, new) := gcra lim now (key_tat s now key) cost in
  r = (d, None) /\ store_inv s' now /\
  forall t k, now <= t ->
    key_tat s' t k = match new with
                     | Some x => if decide (k = key) then live t (Some x) else key_tat s t k
                     | None => key_tat s t k
                     end.
Proof.
  intros Hinv Hc Hv Hcost Hr. destruct s as [[r fs] p]. destruct (Hinv) as [Hf Hs]. simpl in Hf, Hs. subst fs.
  pose proof (takeScript_spec r (now * 1000) (p +:+ key) lim cost (Hs key) Hv Hcost) as L.
  rewrite Z.div_mul in L by done. specialize (L Hr).
  unfold RedisTake. simpl. unfold Cause. rewrite Hc. simpl. rewrite roundtrip_ok.
  assert (Hg : gcra lim now (key_tat (mkStore (mkClient r []) p) now key) cost
               = gcra lim now (stored_tat (lookup_at r (now * 1000) (p +:+ key))) cost).
  { unfold gcra. replace (gcra_tat now (key_tat _ now key))
      with (gcra_tat now (stored_tat (lookup_at r (now * 1000) (p +:+ key)))); [done|].
    unfold key_tat. simpl. destruct (stored_tat _) as [x|]; simpl; [|done].
    destruct (Z.ltb_spec now x); simpl; lia. }
  rewrite Hg. clear Hg. destruct (gcra _ _ _ _) as [d new].
  destruct (takeScript _ _ _ _ _ _) as [r' res]. destruct L as ((raw & -> & Hp) & Hr'). simpl.
  rewrite Hp. split; [done|]. destruct new as [x|].
  - destruct Hr' as [Hx ->]. set (r1 := (exec (now * 1000) (p +:+ key) GET r).1).
    assert (Hget : forall t k, now * 1000 <= t -> lookup_at r1 t k = lookup_at r t k) by (by apply exec_same).
    assert (Hen := set_tat_entry (now * 1000) now x ltac:(by rewrite Z.div_mul)).
    specialize (Hen ltac:(destruct Hr; lia) ltac:(destruct Hr; lia)).
    assert (Hbad : bad_px (PX (Z.max 1 (ceil_div (x - now) 1000))) = false) by (apply Z.leb_gt; lia). split.
    + split; [done|]. simpl. intros k en. destruct (decide (k = key)) as [->|Hne].
      * rewrite exec_lookup. cbn [cmd_spec]. rewrite Hbad. intros [[= <-] _]%unexpired_Some. done.
      * rewrite exec_frame by (done || by apply prefix_ne). rewrite Hget by lia. apply Hs.
    + intros t k Ht. unfold key_tat. simpl. case_decide as Hk; [subst k|].
      * rewrite exec_later by lia. cbn [cmd_spec]. rewrite Hbad. cbn [fst new_due]. rewrite (unexpired_tat _ t) by (by rewrite Z.div_mul || done).
        rewrite stored_tat_entry by (destruct Hr; lia). done.
      * rewrite exec_frame by (lia || by apply prefix_ne). by rewrite Hget by lia.
  - subst r'. assert (Hget : forall t k, now * 1000 <= t ->
      lookup_at (exec (now * 1000) (p +:+ key) GET r).1 t k = lookup_at r t k) by (by apply exec_same).
    split; [split; [done|]; simpl; intros k en; rewrite Hget by lia; apply Hs|].
    intros t k Ht. unfold key_tat. simpl. by rewrite Hget by lia.
Qed.

Lemma RedisReset_law s c now key :
  store_inv s now -> ctx_open c ->
  let '(s', e) := RedisReset (Some c) now key s in
  e = None /\ store_inv s' now /\
  forall t k, now <= t -> key_tat s' t k = if decide (k = key) then None else key_tat s t k.
Proof.
  intros Hinv Hc. destruct s as [[r fs] p]. destruct (Hinv) as [Hf Hs]. simpl in Hf, Hs. subst fs.
  unfold RedisReset, command. simpl. unfold Cause. rewrite Hc. simpl. rewrite roundtrip_ok.
  unfold redis_call. pose proof (exec_reply r (now * 1000) (p +:+ key) DEL) as Hrep.
  pose proof (fun t => exec_later r (now * 1000) (p +:+ key) DEL (t * 1000)) as Hk.
  pose proof (fun t k => exec_frame r (now * 1000) (p +:+ key) DEL (t * 1000) k) as Hfr.
  destruct (exec _ _ _ _) as [r' rep]. simpl in *. subst rep. simpl. split_and!; [done|split; [done|]|].
  - simpl. intros k en. destruct (decide (k = key)) as [->|Hne]; [by rewrite Hk|].
    rewrite Hfr by (done || by apply prefix_ne). apply Hs.
  - intros t k Ht. unfold key_tat. simpl. case_decide as Hd; [subst; by rewrite Hk by lia|].
    by rewrite Hfr by (lia || by apply prefix_ne).
Qed.

#[export, refine] Instance redis_store_laws : StoreLaws (RedisStore R) := {|
  inv := store_inv;
  tat := key_tat;
  in_range := exact_range
|}.
Proof.
  - apply store_inv_later.
  - intros s t t' k. apply key_tat_later.
  - intros s t k. unfold key_tat. destruct (stored_tat _) as [x|]; simpl; [|done].
    destruct (Z.ltb_spec t x); simpl; bcase; done || lia.
  - intros s c now key lim cost. apply RedisTake_law.
  - intros s c now key. apply RedisReset_law.
Defined.
End Laws.

(** ** Properties *)

(** *** Connections that fail *)

Section Faults.
Context {R : Type} `{!RedisServer R, !RedisLaws R, !LuaStrings}.
Variables (lim : Limit) (p : string).
Hypothesis Hlim : valid_limit lim.
Local Abbreviation i := (emissionInterval lim).

(** The server holds only what the script writes under the prefix. *)
Definition tats_ok (t : Z) (r : R) : Prop :=
  forall k en, lookup_at r t (p +:+ k) = Some en -> tat_entry en.

(** The arrival time of a key on the server's clock, in microseconds. *)
Definition arrival (t : Z) (r : R) (k : string) : Z := gcra_tat (t / 1000) (stored_tat (lookup_at r t (p +:+ k))).

Lemma arrival_now t r k : t / 1000 <= arrival t r k.
Proof using Type. unfold arrival. destruct (stored_tat _); simpl; lia. Qed.

(** Time only raises it. *)
Lemma later_ok t u r k : t <= u -> tats_ok t r -> tats_ok u r /\ arrival t r k <= arrival u r k.
Proof using Type.
  intros Hu Hok. split.
  - intros k' en. rewrite (lookup_later _ t u) by done. intros [E _]%unexpired_Some. by apply (Hok k').
  - pose proof (Z.div_le_mono t u 1000 ltac:(lia) Hu). unfold arrival. rewrite (lookup_later _ t u) by done.
    specialize (Hok k). destruct (lookup_at r t (p +:+ k)) as [en|]; [|simpl; lia].
    destruct (Hok en eq_refl) as (x & d & -> & Hx & Hd). cbn [unexpired mbind option_bind due].
    destruct (Z.ltb_spec u d); rewrite ?stored_tat_entry by done; simpl; [lia|].
    assert (x <= u / 1000) by (apply Z.div_le_lower_bound; lia). lia.
Qed.

(** One run of the script: what it stores is an arrival time, the one of every key
    is raised by what was admitted for it, and an admission respects the burst. *)
Lemma take_step r t key cost k :
  tats_ok t r -> 1 <= cost <= Burst lim -> exact_range lim (t / 1000) ->
  let '(r', res) := takeScript (p +:+ key) (FormatInt i) (FormatInt (Burst lim)) (FormatInt cost) t r in
  tats_ok t r' /\
  exists raw d, res = inl raw /\ parseDecision raw lim = inl d /\
    if Allowed d && bool_decide (key = k)
    then arrival t r' k = arrival t r k + i * cost /\ arrival t r' k <= t / 1000 + i * Burst lim
    else arrival t r' k = arrival t r k.
Proof.
  intros Hok Hcost Hr. pose proof (takeScript_spec r t (p +:+ key) lim cost (Hok key) Hlim Hcost Hr) as L. cbv zeta in L.
  unfold gcra in L. fold (arrival t r key) in L. destruct (takeScript _ _ _ _ _ _) as [r' res].
  set (r1 := (exec t (p +:+ key) GET r).1) in *.
  assert (Hget : forall k', lookup_at r1 t k' = lookup_at r t k') by (intros k'; by apply exec_same).
  destruct (Z.leb_spec (arrival t r key + i * cost) (t / 1000 + i * Burst lim)) as [Hle|Hgt];
    destruct L as ((raw & -> & Hp) & L).
  - destruct L as [Hx ->]. set (x := arrival t r key + i * cost) in *. destruct Hr as [Hn Hr].
    assert (Hset := exec_lookup r1 t (p +:+ key) (SET (FormatInt x) (PX (Z.max 1 (ceil_div (x - t / 1000) 1000))))).
    assert (Hbad : bad_px (PX (Z.max 1 (ceil_div (x - t / 1000) 1000))) = false) by (apply Z.leb_gt; lia).
    cbn [cmd_spec] in Hset. rewrite Hbad in Hset. cbn [fst new_due] in Hset.
    assert (Hen := set_tat_entry t (t / 1000) x eq_refl ltac:(lia) ltac:(lia)). split.
    + intros k' en. destruct (decide (k' = key)) as [->|Hne].
      * rewrite Hset. intros [[= <-] _]%unexpired_Some. done.
      * rewrite exec_frame by (done || by apply prefix_ne). rewrite Hget. apply Hok.
    + eexists raw, _. split; [done|]. split; [exact Hp|]. cbn [Allowed andb]. case_bool_decide as Hk.
      * subst k. assert (E : arrival t (exec t (p +:+ key) (SET (FormatInt x) (PX (Z.max 1 (ceil_div (x - t / 1000) 1000)))) r1).1 key = x).
        { assert (Hxt : t < x * 1000) by (pose proof (Z.mul_succ_div_gt t 1000 ltac:(lia)); lia).
          unfold arrival. rewrite Hset. destruct Hen as (y & d & [= E ->] & Hy & Hd).
          assert (y = x) as -> by (apply (f_equal ParseInt) in E; rewrite !parse_format in E by int_lia; congruence).
          cbn [unexpired mbind option_bind due]. destruct (Z.ltb_spec t d); [|lia].
          rewrite stored_tat_entry by lia. simpl. lia. }
        rewrite E. unfold x. split; [done|]. lia.
      * unfold arrival. rewrite exec_frame by (done || by apply prefix_ne). by rewrite Hget.
  - subst r'. split; [intros k' en; rewrite Hget; apply Hok|]. eexists raw, _. split; [done|]. split; [exact Hp|].
    cbn [Allowed andb]. unfold arrival. by rewrite Hget.
Qed.

(** A call with any fate: at its end the arrival time is no earlier than before,
    and past it by the cost if the call reports that it was admitted. *)
Lemma take_fate (c : Client R) t key cost k :
  tats_ok t (server c) -> 0 <= t -> 1 <= cost <= Burst lim -> exact_range lim ((t + spent c) / 1000) ->
  let '(c', a) := roundtrip c (takeScript (p +:+ key) (FormatInt i) (FormatInt (Burst lim)) (FormatInt cost)) t in
  let t' := t + spent c in
  faults c' = tail (faults c) /\ tats_ok t' (server c') /\
  match a with
  | inr _ => arrival t (server c) k <= arrival t' (server c') k
  | inl raw => exists d, parseDecision raw lim = inl d /\
      if Allowed d && bool_decide (key = k)
      then arrival t (server c) k + i * cost <= arrival t' (server c') k <= t' / 1000 + i * Burst lim
      else arrival t (server c) k <= arrival t' (server c') k
  end.
Proof.
  intros Hok Ht Hcost Hr. set (run := takeScript _ _ _ _).
  assert (Hrange : forall u, t <= u <= t + spent c -> exact_range lim (u / 1000)).
  { intros u Hu. destruct Hr as [_ Hr]. pose proof (Z.div_le_mono u (t + spent c) 1000 ltac:(lia) ltac:(lia)).
    split; [apply Z.div_pos; lia|lia]. }
  set (P := fun u x => tats_ok u x /\ arrival t (server c) k <= arrival u x k).
  assert (Hstep : forall u x, t <= u <= t + spent c -> P u x ->
    P u (run u x).1 /\ exists raw d, (run u x).2 = inl raw /\ parseDecision raw lim = inl d /\
      if Allowed d && bool_decide (key = k)
      then arrival t (server c) k + i * cost <= arrival u (run u x).1 k <= u / 1000 + i * Burst lim
      else arrival t (server c) k <= arrival u (run u x).1 k).
  { intros u x Hu [Hx Ha]. pose proof (take_step x u key cost k Hx Hcost (Hrange u Hu)) as L. fold run in L.
    destruct (run u x) as [x' res]. cbn [fst snd]. destruct L as (Hx' & raw & d & -> & Hd & L).
    destruct (valid_limit_bounds lim Hlim) as (_ & _ & _ & Hi & _).
    split; [split; [done|]; destruct (_ && _); nia|]. exists raw, d. split_and!; [done|done|].
    destruct (_ && _); lia. }
  pose proof (roundtrip_keep run P c t) as K. cbv zeta in K. destruct (roundtrip c run t) as [c' a].
  destruct K as [Hf K].
  - intros u v x Hu Hv [Hx Ha]. destruct (later_ok u v x k ltac:(lia) Hx). split; [done|lia].
  - intros u x Hu Hx. by apply Hstep.
  - split; [done|lia].
  - split; [done|]. pose proof (spent_nonneg c). destruct K as [[[Hok' Ha] [e ->]]|(x & Hx & -> & ->)]; [done|].
    destruct (Hstep (t + spent c) x ltac:(lia) Hx) as [[Hok' _] (raw & d & -> & Hd & L)]. split; [done|]. by exists d.
Qed.

(** Calls made one after the other: each starts when the one before, with its
    pauses, is over; all end before [t1] (microseconds). *)
Fixpoint calls_after (fs : list fate) (t t1 : Z) (calls : list (Z * string * Z)) : Prop :=
  match calls with
  | [] => t <= t1 * 1000
  | (now, k, cost) :: rest =>
      let over := now * 1000 + match fs with f :: _ => pauses f | [] => 0 end in
      t <= now * 1000 /\ exact_range lim (over / 1000) /\ k <> EmptyString /\ 1 <= cost <= Burst lim /\
      calls_after (tail fs) over t1 rest
  end.

Lemma calls_after_le fs t t1 calls : calls_after fs t t1 calls -> t <= t1 * 1000.
Proof using Type.
  revert fs t. induction calls as [|[[now k] cost] rest IH]; intros fs t; [done|]. simpl.
  intros (Ht & _ & _ & _ & Hle%IH). destruct fs as [|f fs]; [lia|]. pose proof (pauses_nonneg f). lia.
Qed.

Lemma faulty_bound calls : forall (c : Client R) t t1 key,
  tats_ok t (server c) -> 0 <= t -> calls_after (faults c) t t1 calls ->
  let total := run_calls (mkLimiter (mkStore c p) lim) calls key in
  total = 0 \/ arrival t (server c) key + i * total <= t1 + i * Burst lim.
Proof.
  induction calls as [|[[now k] cost] rest IH]; intros c t t1 key Hok Ht; [by left|].
  cbn [calls_after run_calls]. intros (Hn & Hr & Hk & Hcost & Hrest).
  change (match faults c with f :: _ => pauses f | [] => 0 end) with (spent c) in *.
  pose proof (take_fate c (now * 1000) k cost key) as L.
  destruct (later_ok t (now * 1000) (server c) key Hn Hok) as [Hok' Hup]. specialize (L Hok' ltac:(lia) Hcost Hr).
  unfold AllowN. cbn [validateContext Cause Background]. rewrite bool_decide_eq_false_2 by done.
  cbn [limit]. destruct (Z.ltb_spec cost 1); [lia|]. rewrite Z.gtb_ltb. destruct (Z.ltb_spec (Burst lim) cost); [lia|]. cbn [orb store].
  change (Take ?a ?b ?d ?e) with (RedisTake a b d e). unfold RedisTake. cbn [flip fmap option_fmap option_map validateContext Cause ctx_from Background rKey rLimit rCost prefix client].
  destruct (roundtrip c _ _) as [c' a]. destruct L as (Hf & Hok'' & L). rewrite <- Hf in Hrest.
  pose proof (spent_nonneg c) as Hsp. specialize (IH c' _ t1 key Hok'' ltac:(lia) Hrest). cbv zeta in IH.
  assert (Hend : (now * 1000 + spent c) / 1000 <= t1).
  { pose proof (calls_after_le _ _ _ _ Hrest). apply Z.div_le_upper_bound; lia. }
  destruct (valid_limit_bounds lim Hlim) as (_ & _ & _ & Hi & _).
  destruct a as [raw|e]; [|cbn; destruct IH as [->|IH]; [by left|right; lia]].
  destruct L as (d & -> & L). cbn [Allowed].
  destruct (Allowed d && bool_decide (k = key)); cbn [limit].
  - right. destruct IH as [->|IH]; nia.
  - destruct IH as [->|IH]; [by left|right; lia].
Qed.
End Faults.

(** C34: the limit holds through connections that fail.  For every fate of every
    call (attempts that never reach the server, attempts whose answer is lost,
    both repeated any number of times after any pause, the digest of the script
    unknown to the server, a last attempt that fails), the units of the calls
    that report an admission for one key exceed the burst by no more than the
    rate allows for the elapsed time: a lost admission is never handed out again.
    The calls are made one after the other, and their instants stay below [2^52]
    microseconds. *)
Theorem redis_rate_bound_faults {R} `{!RedisServer R, !RedisLaws R, !LuaStrings} (r : R) fs p lim calls key t0 t1 :
  valid_limit lim -> 0 <= t0 ->
  (forall k en, lookup_at r (t0 * 1000) (p +:+ k) = Some en -> tat_entry en) ->
  calls_after lim fs (t0 * 1000) t1 calls ->
  (run_calls (mkLimiter (mkStore (mkClient r fs) p) lim) calls key - Burst lim) * Period lim
    <= Rate lim * ((t1 - t0) * 1000).
Proof.
  intros Hv Ht Hok Hw. pose proof (faulty_bound lim p Hv calls (mkClient r fs) (t0 * 1000) t1 key Hok ltac:(lia) Hw) as Hb.
  cbv zeta in Hb. cbn [server] in Hb. pose proof (calls_after_le lim _ _ _ _ Hw).
  destruct (valid_limit_bounds lim Hv) as (HR & HP & HB & Hi & _ & Hper & _).
  pose proof (arrival_now p (t0 * 1000) r key) as Ha. rewrite Z.div_mul in Ha by done.
  set (total := run_calls _ calls key) in *. destruct (decide (total <= Burst lim)); [nia|].
  destruct Hb as [Hb|Hb]; [lia|].
  assert (emissionInterval lim * (total - Burst lim) <= t1 - t0) by nia.
  apply Z.le_trans with ((total - Burst lim) * (Rate lim * (emissionInterval lim * 1000))); nia.
Qed.

(** A reply becomes a decision exactly when it is four integers, an allowed
    flag of 0 or 1, at most [Burst] units remaining, and two durations that fit
    in a [time.Duration]; the decision then holds their values. *)
Theorem parseDecision_accepts raw lim d :
  parseDecision raw lim = inl d <->
  exists a b c e, raw = [AInt a; AInt b; AInt c; AInt e] /\ (a = 0 \/ a = 1) /\
    0 <= b <= Burst lim /\ 0 <= c <= maxInt64 / 1000 /\ 0 <= e <= maxInt64 / 1000 /\
    d = mkDecision lim (a =? 1) b (c * 1000) (e * 1000).
Proof.
  change (maxInt64 / 1000) with 9223372036854775. split.
  - intros H. destruct raw as [|x1 [|x2 [|x3 [|x4 [|]]]]]; try done.
    unfold parseDecision in H. cbn [length Nat.eqb negb] in H.
    destruct x1 as [a| | |]; [|done..]. destruct x2 as [b| | |]; [|done..].
    destruct x3 as [c| | |]; [|done..]. destruct x4 as [e| | |]; [|done..].
    cbn [integers nth] in H. change (Z.quot maxInt64 Microsecond) with 9223372036854775 in H.
    destruct (negb _ && negb _) eqn:Ha; [done|]. destruct (_ || _) eqn:Hr; [done|].
    rewrite !orb_false_iff, !Z.gtb_ltb, !Z.ltb_ge in Hr. rewrite andb_false_iff, !negb_false_iff, !Z.eqb_eq in Ha.
    injection H as <-. unfold Microsecond. rewrite !(wrap64_id (_ * 1000)) by int_lia.
    exists a, b, c, e. split_and!; done || lia.
  - intros (a & b & c & e & -> & Ha & Hb & Hc & He & ->). by apply parseDecision_ok.
Qed.

(** Calls whose instants are exact in doubles are in range of both stores. *)
Lemma calls_within_both {R} `{!RedisServer R, !RedisLaws R, !LuaStrings} lim t0 t1 calls :
  valid_limit lim -> calls_within (S := RedisStore R) lim t0 t1 calls ->
  calls_within (S := RateLimitMemory.MemStore) lim t0 t1 calls.
Proof.
  intros Hv. destruct (valid_limit_bounds lim Hv) as (_ & _ & HB & Hi & _).
  revert t0. induction calls as [|[[now k] cost] rest IH]; intros t0; [done|]. simpl.
  intros (H1 & [H2 H2'] & H3 & H4 & H5). split_and!; try done; try lia; [|by apply IH].
  split; [done|]. nia.
Qed.

(** C11: the two stores are interchangeable: a limiter on a Redis server with no
    entry under its prefix and one on a fresh memory store give the same
    answers, decision by decision, to every run of calls with a non-decreasing
    clock whose instants stay below [2^52] microseconds. *)
Theorem redis_memory_agree {R} `{!RedisServer R, !RedisLaws R, !LuaStrings} (r : R) p lim calls t0 t1 :
  (forall k, lookup_at r (t0 * 1000) (p +:+ k) = None) -> valid_limit lim ->
  calls_within (S := RedisStore R) lim t0 t1 calls ->
  run_answers (mkLimiter (mkStore (mkClient r []) p) lim) calls
  = run_answers (mkLimiter RateLimitMemory.new_store lim) calls.
Proof.
  intros Hempty Hv Hw. apply (stores_agree _ _ calls t0 t1).
  - split; [|done]. split; [done|]. simpl. intros k en. by rewrite Hempty.
  - split; [apply RateLimitMemory.new_store_inv|done].
  - done.
  - intros k. simpl. unfold key_tat. simpl. by rewrite Hempty.
  - done.
  - by apply (calls_within_both (R := R)).
Qed.

Lemma redis_memory_agree_witness :
  let calls := [(1000, "a", 2); (2000, "a", 1); (2000, "a", 1); (3000, "b", 3); (400000, "a", 1)]%string in
  run_answers (mkLimiter (mkStore (mkClient empty_server []) defaultPrefix) (PerSecond 3)) calls
  = run_answers (mkLimiter RateLimitMemory.new_store (PerSecond 3)) calls /\
  Allowed <$> (fst <$> run_answers (mkLimiter RateLimitMemory.new_store (PerSecond 3)) calls)
  = [true; true; false; true; true].
Proof.
  split; [|vm_compute; reflexivity].
  apply (redis_memory_agree empty_server defaultPrefix (PerSecond 3) _ 0 1000000).
  - intros k. simpl. by rewrite lookup_empty.
  - apply RateLimitMemory.per_second_valid.
  - assert (emissionInterval (PerSecond 3) = 333334) as E by (vm_compute; reflexivity).
    repeat (split; [lia|]; split; [split; [lia|rewrite E; simpl; lia]|]; split; [done|]; split; [simpl; lia|]).
    simpl. lia.
Defined.

(** The first call is repeated after its answer was lost, and takes twice; the
    second one gives up; the third is answered. *)
Definition demo_fates : list fate :=
  [mkFate [(NoReply DeadlineExceeded, 8000%N); (Unsent (ErrNew "NOSCRIPT"), 0%N)] None; once (Some (NoReply Canceled))].
Definition demo_calls : list (Z * string * Z) := [(1000, "a", 1); (2000, "a", 1); (3000, "a", 1)]%string.

Lemma redis_rate_bound_faults_witness :
  let l := mkLimiter (mkStore (mkClient empty_server demo_fates) defaultPrefix) (PerSecond 3) in
  (run_calls l demo_calls "a" - 3) * 1000000000 <= 3 * ((1000000 - 0) * 1000) /\
  Allowed <$> (fst <$> run_answers l demo_calls) = [true; false; false].
Proof.
  split; [|vm_compute; reflexivity].
  apply (redis_rate_bound_faults empty_server demo_fates defaultPrefix (PerSecond 3) demo_calls "a" 0 1000000).
  - apply RateLimitMemory.per_second_valid.
  - done.
  - intros k en. simpl. by rewrite lookup_empty.
  - assert (emissionInterval (PerSecond 3) = 333334) as E by (vm_compute; reflexivity).
    assert (B : Burst (PerSecond 3) = 3) by reflexivity.
    unfold demo_calls, demo_fates, calls_after, exact_range. rewrite E, B. cbn. 
    repeat (split; [done || lia|]). repeat split; done || lia.
Defined.
