(* ===== verification/Strings.v ===== *)
(** * String helpers: [src/strings/strings.go]

    Strings are byte sequences, as in Go.  The centre is [Is], the wildcard
    matcher with its single backtracking point, shown equal to the textbook
    meaning of [*]; around it the helpers that cut a string at the first or last
    occurrence of another one. *)

From S2P Require Import Prelude.
From stdpp Require Import options.
From Stdlib Require Import Ascii.
Local Open Scope nat_scope.

(** ** Strings as bytes, and the part of Go's [strings] package used here *)

Abbreviation bytes := (list ascii).
Definition star : ascii := "*"%char.

(** A literal of the source. *)
Definition lit (s : string) : bytes := String.list_ascii_of_string s.

Fixpoint HasPrefix (s prefix : bytes) : bool :=
  match prefix, s with
  | [], _ => true
  | p :: prefix, c :: s => bool_decide (p = c) && HasPrefix s prefix
  | _ :: _, [] => false
  end.

Definition HasSuffix (s suffix : bytes) : bool :=
  HasPrefix (reverse s) (reverse suffix).

(** First and last index of an occurrence; [None] is Go's [-1]. *)
Fixpoint Index (s sub : bytes) : option nat :=
  if HasPrefix s sub then Some 0
  else match s with
       | [] => None
       | _ :: s' => S <$> Index s' sub
       end.

Fixpoint LastIndex (s sub : bytes) : option nat :=
  match s with
  | [] => if HasPrefix [] sub then Some 0 else None
  | _ :: s' =>
      match LastIndex s' sub with
      | Some i => Some (S i)
      | None => if HasPrefix s sub then Some 0 else None
      end
  end.

(** [strings.Count] of a non-empty needle: non-overlapping occurrences from the
    left.  Every step consumes at least one byte. *)
Fixpoint count_loop (fuel : nat) (s sub : bytes) : nat :=
  match fuel with
  | 0 => 0
  | S fuel =>
      match Index s sub with
      | None => 0
      | Some i => S (count_loop fuel (drop (i + length sub) s) sub)
      end
  end.
(** The byte-string case of [strings.Count]: an empty needle counts the code
    points plus one, which is the [runes] argument. *)
Definition Count (runes : bytes -> nat) (s sub : bytes) : nat :=
  match sub with
  | [] => S (runes s)
  | _ => count_loop (S (length s)) s sub
  end.

(** ** [Is] *)

Record is_state := mkIs {
  patternIndex : nat; valueIndex : nat;
  starIndex : option nat;   (* [None] is [-1] *)
  matchIndex : nat
}.

(** The loop [for valueIndex < len(value)].  [inl] is an early return, [inr] the
    state at the exit, [None] fuel exhausted. *)
Fixpoint is_loop (fuel : nat) (pattern value : bytes) (st : is_state)
    : option (bool + is_state) :=
  match fuel with
  | 0 => None
  | S fuel =>
      if valueIndex st <? length value then
        if (patternIndex st <? length pattern)
           && bool_decide (pattern !! patternIndex st = Some star) then
          is_loop fuel pattern value
            (mkIs (S (patternIndex st)) (valueIndex st) (Some (patternIndex st)) (valueIndex st))
        else if (patternIndex st <? length pattern)
           && bool_decide (pattern !! patternIndex st = value !! valueIndex st) then
          is_loop fuel pattern value
            (mkIs (S (patternIndex st)) (S (valueIndex st)) (starIndex st) (matchIndex st))
        else
          match starIndex st with
          | None => Some (inl false)
          | Some s =>
              is_loop fuel pattern value
                (mkIs (S s) (S (matchIndex st)) (Some s) (S (matchIndex st)))
          end
      else Some (inr st)
  end.

(** The trailing loop over stars, on the rest of the pattern. *)
Fixpoint skip_stars (pattern : bytes) (patternIndex : nat) (fuel : nat) : nat :=
  match fuel with
  | 0 => patternIndex
  | S fuel =>
      if (patternIndex <? length pattern) && bool_decide (pattern !! patternIndex = Some star)
      then skip_stars pattern (S patternIndex) fuel
      else patternIndex
  end.

Definition is_fuel (pattern value : bytes) : nat :=
  (length value + 2) * (length pattern + length value + 2).

Definition Is (pattern value : bytes) : option bool :=
  if bool_decide (pattern = value) then Some true
  else
    match is_loop (is_fuel pattern value) pattern value (mkIs 0 0 None 0) with
    | None => None
    | Some (inl b) => Some b
    | Some (inr st) =>
        let i := skip_stars pattern (patternIndex st) (length pattern) in
        Some (i =? length pattern)
    end.

(** ** Cutting at an occurrence *)

Definition ReplaceFirst (s from to : bytes) : bytes :=
  match from with
  | [] => s
  | _ => match Index s from with
         | None => s
         | Some i => take i s ++ to ++ drop (i + length from) s
         end
  end.

Definition ReplaceLast (s from to : bytes) : bytes :=
  match from with
  | [] => s
  | _ => match LastIndex s from with
         | None => s
         | Some index => take index s ++ to ++ drop (index + length from) s
         end
  end.

Definition EnsurePrefix (s prefix : bytes) : bytes :=
  if bool_decide (prefix = []) || HasPrefix s prefix then s else prefix ++ s.

Definition EnsureSuffix (s suffix : bytes) : bytes :=
  if bool_decide (suffix = []) || HasSuffix s suffix then s else s ++ suffix.

Definition After (subject search : bytes) : bytes :=
  match search with
  | [] => subject
  | _ => match Index subject search with
         | None => subject
         | Some i => drop (i + length search) subject
         end
  end.

Definition AfterLast (subject search : bytes) : bytes :=
  match search with
  | [] => subject
  | _ => match LastIndex subject search with
         | None => subject
         | Some i => drop (i + length search) subject
         end
  end.

Definition Before (subject search : bytes) : bytes :=
  match search with
  | [] => subject
  | _ => match Index subject search with
         | None => subject
         | Some i => take i subject
         end
  end.

Definition BeforeLast (subject search : bytes) : bytes :=
  match search with
  | [] => subject
  | _ => match LastIndex subject search with
         | None => subject
         | Some i => take i subject
         end
  end.

Definition between (subject from to : bytes) (last : bool) : bytes :=
  if bool_decide (from = []) || bool_decide (to = []) then subject
  else
    match Index subject from with
    | None => subject
    | Some start =>
        let offset := start + length from in
        let after := drop offset subject in
        let end_ := if last then LastIndex after to else Index after to in
        match end_ with
        | None => subject
        | Some e => take e after
        end
    end.

Definition Between (subject from to : bytes) : bytes := between subject from to true.
Definition BetweenFirst (subject from to : bytes) : bytes := between subject from to false.

(** [SubstrCount]: [inl] is the count, [inr tt] the run-time panic of slicing
    [haystack[offset:end]] with [end < offset]; [offset+lengths[0]] is 64-bit. *)
Definition SubstrCount (runes : bytes -> nat) (haystack needle : bytes) (offset : Z)
    (lengths : list Z) : nat + unit :=
  let len := Z.of_nat (length haystack) in
  if ((offset <? 0) || (offset >=? len))%Z then inl 0
  else
    let slice (e : Z) :=
      if (e <? offset)%Z then inr tt
      else inl (Count runes (take (Z.to_nat (e - offset)) (drop (Z.to_nat offset) haystack)) needle) in
    match lengths with
    | l :: _ => if (l <? 0)%Z then inl 0 else slice (Z.min (wrap64 (offset + l)) len)
    | [] => slice len
    end.

Example is_ex :
  (Is (lit "*.example.com") (lit "www.example.com"), Is (lit "*.example.com") (lit "example.com"),
   Is (lit "a*b*c") (lit "aXbXbYc"), Is (lit "a*b") (lit "abc"))
  = (Some true, Some false, Some true, Some false).
Proof. vm_compute. reflexivity. Qed.

Example between_ex :
  (Between (lit "[a] [b]") (lit "[") (lit "]"), BetweenFirst (lit "[a] [b]") (lit "[") (lit "]"))
  = (lit "a] [b", lit "a").
Proof. vm_compute. reflexivity. Qed.

(** ** Meaning of a pattern *)

Inductive glob : bytes -> bytes -> Prop :=
| glob_nil : glob [] []
| glob_char c p v : c <> star -> glob p v -> glob (c :: p) (c :: v)
| glob_star p v w : glob p w -> glob (star :: p) (v ++ w).

#[export] Hint Constructors glob : go.

Lemma glob_star_inv p v : glob (star :: p) v <-> exists w u, v = w ++ u /\ glob p u.
Proof.
  split; [|intros (w & u & -> & H); by constructor].
  intros H. inversion H; subst; [done|eauto].
Qed.

Lemma glob_cons_inv c p v : c <> star -> glob (c :: p) v <-> exists v', v = c :: v' /\ glob p v'.
Proof.
  intros Hc. split; [|intros (v' & -> & H); by constructor].
  intros H. inversion H; subst; [eauto|done].
Qed.

Lemma glob_nil_inv v : glob [] v <-> v = [].
Proof. split; [by inversion 1|intros ->; constructor]. Qed.

Lemma glob_refl p : glob p p.
Proof.
  induction p as [|c p IH]; [constructor|]. destruct (decide (c = star)) as [->|].
  - apply (glob_star p [star] p IH).
  - by constructor.
Qed.

(** A star-free run matches itself only. *)
Lemma glob_literal l p v :
  star ∉ l -> glob (l ++ p) v <-> exists v', v = l ++ v' /\ glob p v'.
Proof.
  revert v. induction l as [|c l IH]; intros v Hl; simpl.
  - split; [eauto|]. by intros (v' & -> & H).
  - apply not_elem_of_cons in Hl as [Hc Hl]. rewrite glob_cons_inv by done. split.
    + intros (v1 & -> & (v' & -> & H)%IH); eauto.
    + intros (v' & -> & H). eexists. split; [done|]. apply IH; eauto.
Qed.

(** The rest of a pattern matches the empty string when it is all stars. *)
Lemma skip_stars_glob pattern k i :
  length pattern <= i + k -> i <= length pattern ->
  (skip_stars pattern i k =? length pattern) = true <-> glob (drop i pattern) [].
Proof.
  revert i. induction k as [|k IH]; intros i Hk Hi; simpl.
  - rewrite Nat.eqb_eq, drop_ge by lia. split; [constructor|]. lia.
  - destruct (Nat.ltb_spec i (length pattern)); simpl.
    + destruct (lookup_lt_is_Some_2 pattern i) as [c Hc]; [done|].
      rewrite Hc, (drop_S _ _ _ Hc). case_bool_decide as E.
      * injection E as ->. rewrite IH by lia. rewrite glob_star_inv. split.
        -- intros Hg. by exists [], [].
        -- intros (w & u & Huw & Hg). symmetry in Huw. by apply app_nil in Huw as [-> ->].
      * rewrite Nat.eqb_eq. split; [lia|]. intros Hg. inversion Hg; subst; done.
    + rewrite Nat.eqb_eq. rewrite drop_ge by lia. split; [constructor|]. lia.
Qed.

(** ** The loop invariant

    Before any star, the rest of the pattern against the rest of the value
    decides the match.  After a star at [s], the pattern from [s] against the
    value from [matchIndex] does, and the text consumed since is a star-free run
    [l] of the pattern. *)
Definition is_inv (p v : bytes) (st : is_state) : Prop :=
  patternIndex st <= length p /\ valueIndex st <= length v /\
  match starIndex st with
  | None => glob p v <-> glob (drop (patternIndex st) p) (drop (valueIndex st) v)
  | Some s =>
      exists l, (star ∉ l) /\ p !! s = Some star /\ s < length p /\
        drop (S s) p = l ++ drop (patternIndex st) p /\
        matchIndex st <= valueIndex st /\
        drop (matchIndex st) v = l ++ drop (valueIndex st) v /\
        (glob p v <-> glob (drop s p) (drop (matchIndex st) v))
  end.

Definition is_measure (p v : bytes) (st : is_state) : nat :=
  ((match starIndex st with None => S (length v) | Some _ => length v - matchIndex st end)
    * (length p + length v + 2))
  + (length p - patternIndex st) + (length v - valueIndex st).

(** A run that fits later in the text fits after dropping the first one. *)
Lemma run_shift (l v w u : bytes) : l ++ v = w ++ l ++ u -> exists z, v = z ++ u.
Proof.
  intros E. exists (drop (length l) (w ++ l)).
  assert (drop (length l) (l ++ v) = v) as <- by apply drop_app_length.
  rewrite E, (assoc_L (++)). rewrite drop_app_le; [done|]. rewrite length_app. lia.
Qed.

(** With a second star the first one need not be revisited. *)
Lemma glob_commit l p v :
  star ∉ l -> glob (star :: l ++ star :: p) (l ++ v) <-> glob (star :: p) v.
Proof.
  intros Hl. split.
  - rewrite glob_star_inv. intros (w & u & Hwu & Hg). rewrite glob_literal in Hg by done.
    destruct Hg as (u' & -> & (w2 & u2 & -> & Hg)%glob_star_inv).
    destruct (run_shift _ _ _ _ Hwu) as [z ->]. rewrite (assoc_L (++)). by constructor.
  - intros Hg. rewrite glob_star_inv. exists [], (l ++ v). split; [done|].
    apply glob_literal; [done|]. eauto.
Qed.

(** The rest of the pattern cannot match here. *)
Lemma glob_mismatch p v i j :
  j < length v -> p !! i <> Some star ->
  ~ (i < length p /\ p !! i = v !! j) -> ~ glob (drop i p) (drop j v).
Proof.
  intros Hj Hstar Hne Hg. destruct (lookup_lt_is_Some_2 v j Hj) as [d Hd].
  rewrite (drop_S _ _ _ Hd) in Hg. destruct (p !! i) as [c|] eqn:Hc.
  - rewrite (drop_S _ _ _ Hc) in Hg. rewrite glob_cons_inv in Hg by congruence.
    destruct Hg as (v' & [= -> _] & _). apply Hne. split; [by eapply lookup_lt_Some|congruence].
  - rewrite drop_ge in Hg by (by apply lookup_ge_None). by apply glob_nil_inv in Hg.
Qed.

Lemma is_inv_star p v st :
  is_inv p v st -> p !! patternIndex st = Some star ->
  is_inv p v (mkIs (S (patternIndex st)) (valueIndex st) (Some (patternIndex st)) (valueIndex st)).
Proof.
  intros (Hp & Hv & Hi) Hs. apply lookup_lt_Some in Hs as Hlt.
  split_and!; simpl; [lia|done|]. exists []. split_and!; try done; [apply not_elem_of_nil|].
  destruct (starIndex st) as [s|]; [|done].
  destruct Hi as (l & Hl & Hss & Hsl & Hd & Hm & Hdv & ->).
  rewrite (drop_S _ _ _ Hss), Hd, Hdv, (drop_S _ _ _ Hs). by apply glob_commit.
Qed.

Lemma is_inv_char p v st c :
  is_inv p v st -> c <> star ->
  p !! patternIndex st = Some c -> v !! valueIndex st = Some c ->
  is_inv p v (mkIs (S (patternIndex st)) (S (valueIndex st)) (starIndex st) (matchIndex st)).
Proof.
  intros (Hp & Hv & Hi) Hc Hpc Hvc. apply lookup_lt_Some in Hpc as Hlt. apply lookup_lt_Some in Hvc as Hlv.
  split_and!; simpl; [lia|lia|].
  destruct (starIndex st) as [s|].
  - destruct Hi as (l & Hl & Hss & Hsl & Hd & Hm & Hdv & Hg). exists (l ++ [c]).
    rewrite (drop_S _ _ _ Hpc) in Hd. rewrite (drop_S _ _ _ Hvc) in Hdv.
    rewrite <- !(assoc_L (++)). split_and!; try done; [|lia].
    rewrite elem_of_app, list_elem_of_singleton. intros [?|?]; congruence.
  - rewrite Hi, (drop_S _ _ _ Hpc), (drop_S _ _ _ Hvc). rewrite glob_cons_inv by done.
    split; [by intros (v' & [= <-] & ?)|eauto].
Qed.

Lemma is_inv_backtrack p v st s :
  is_inv p v st -> starIndex st = Some s -> valueIndex st < length v ->
  ~ glob (drop (patternIndex st) p) (drop (valueIndex st) v) ->
  is_inv p v (mkIs (S s) (S (matchIndex st)) (Some s) (S (matchIndex st))).
Proof.
  intros (Hp & Hv & Hi) Hs Hlt Hno. rewrite Hs in Hi.
  destruct Hi as (l & Hl & Hss & Hsl & Hd & Hm & Hdv & Hg).
  split_and!; simpl; [lia|lia|]. exists []. split_and!; try done; [apply not_elem_of_nil|].
  rewrite Hg. destruct (lookup_lt_is_Some_2 v (matchIndex st)) as [d Hd']; [lia|].
  rewrite (drop_S _ _ _ Hss), (drop_S _ _ _ Hd'). rewrite !glob_star_inv. split.
  - intros (w & u & Hwu & Hu). destruct w as [|x w]; simpl in Hwu.
    + subst u. exfalso. rewrite <- (drop_S _ _ _ Hd') in Hu. rewrite Hdv, Hd in Hu.
      apply glob_literal in Hu as (v' & E & Hv'); [|done]. by apply app_inv_head in E as <-.
    + injection Hwu as -> ->. eauto.
  - intros (w & u & -> & Hu). exists (d :: w), u. done.
Qed.

Lemma is_loop_spec p v fuel st :
  is_inv p v st -> is_measure p v st < fuel ->
  (is_loop fuel p v st = Some (inl false) /\ ~ glob p v) \/
  (exists st', is_loop fuel p v st = Some (inr st') /\ is_inv p v st' /\ valueIndex st' = length v).
Proof.
  revert st. induction fuel as [|fuel IH]; intros st Hinv Hf; [lia|]. simpl.
  pose proof Hinv as (Hp & Hv & Hi).
  destruct (Nat.ltb_spec (valueIndex st) (length v)) as [Hlt|Hge]; [|right; exists st; split_and!; done || lia].
  destruct (lookup_lt_is_Some_2 v (valueIndex st) Hlt) as [d Hd].
  assert (Hmis : p !! patternIndex st <> Some star ->
      ~ (patternIndex st < length p /\ p !! patternIndex st = v !! valueIndex st) ->
      (match starIndex st with
       | Some s => is_loop fuel p v (mkIs (S s) (S (matchIndex st)) (Some s) (S (matchIndex st)))
       | None => Some (inl false)
       end = Some (inl false) /\ ~ glob p v) \/
      (exists st', match starIndex st with
       | Some s => is_loop fuel p v (mkIs (S s) (S (matchIndex st)) (Some s) (S (matchIndex st)))
       | None => Some (inl false)
       end = Some (inr st') /\ is_inv p v st' /\ valueIndex st' = length v)).
  { intros H1 H2. pose proof (glob_mismatch p v _ _ Hlt H1 H2) as Hno.
    destruct (starIndex st) as [s|] eqn:Hs; [|left; rewrite Hi; done].
    apply IH; [by apply (is_inv_backtrack p v st)|].
    destruct Hi as (l & _ & _ & Hsl & _ & Hm & _). unfold is_measure in *. rewrite Hs in Hf. simpl in *.
    assert (length v - S (matchIndex st) = length v - matchIndex st - 1) as -> by lia.
    assert (0 < length v - matchIndex st) by lia. nia. }
  destruct (Nat.ltb_spec (patternIndex st) (length p)) as [Hpl|Hpl]; cbn [andb].
  - destruct (lookup_lt_is_Some_2 p _ Hpl) as [c Hc].
    destruct (decide (c = star)) as [->|Hcs].
    + rewrite bool_decide_eq_true_2 by done. apply IH; [by apply is_inv_star|].
      unfold is_measure in *. simpl. destruct (starIndex st) as [s|]; [|nia].
      destruct Hi as (l & _ & _ & _ & _ & Hm & _). nia.
    + rewrite bool_decide_eq_false_2 by congruence. rewrite Hd, Hc.
      destruct (decide (c = d)) as [->|Hcd].
      * rewrite bool_decide_eq_true_2 by done. apply IH; [by apply (is_inv_char p v st d)|].
        unfold is_measure in *. simpl. lia.
      * rewrite bool_decide_eq_false_2 by congruence. apply Hmis; [congruence|]. rewrite Hd, Hc.
        intros [_ ?]; congruence.
  - apply Hmis; [|lia]. rewrite lookup_ge_None_2 by done. done.
Qed.

(** ** Occurrences *)

(** [sub] occurs in [s] at byte [i]. *)
Definition occurs (s sub : bytes) (i : nat) : Prop := exists b a, s = b ++ sub ++ a /\ length b = i.

Lemma HasPrefix_spec s prefix : HasPrefix s prefix = true <-> exists a, s = prefix ++ a.
Proof.
  revert s. induction prefix as [|c prefix IH]; intros s.
  - destruct s; simpl; split; eauto.
  - destruct s as [|d s]; [split; [done|by intros [a ?]]|].
    cbn [HasPrefix]. rewrite andb_true_iff, bool_decide_eq_true, IH. split.
    + intros [-> [a ->]]. by exists a.
    + intros [a [= -> ->]]. split; [done|by exists a].
Qed.

Lemma HasPrefix_occurs s sub : HasPrefix s sub = true <-> occurs s sub 0.
Proof.
  rewrite HasPrefix_spec. split.
  - intros [a ->]. by exists [], a.
  - intros ([|x y] & a & -> & Hb); [eauto|done].
Qed.

Lemma occurs_cons c s sub i : occurs (c :: s) sub (S i) <-> occurs s sub i.
Proof.
  split.
  - intros ([|d b] & a & E & Hb); [done|]. injection E as -> ->. exists b, a. by injection Hb.
  - intros (b & a & -> & <-). by exists (c :: b), a.
Qed.

Lemma occurs_nil sub i : occurs [] sub i -> i = 0 /\ sub = [].
Proof. intros (b & a & E & <-). by destruct b, sub. Qed.

Lemma Index_Some s sub i :
  Index s sub = Some i <-> occurs s sub i /\ (forall j, j < i -> ~ occurs s sub j).
Proof.
  revert i. induction s as [|c s IH]; intros i; cbn [Index].
  - destruct (HasPrefix [] sub) eqn:E; [rewrite HasPrefix_occurs in E|].
    + split; [intros [= <-]; split; [done|lia]|].
      intros [Hi _]. f_equal. symmetry. by apply occurs_nil in Hi as [-> _].
    + split; [done|]. intros [Hi _]. pose proof (occurs_nil _ _ Hi) as [-> _].
      apply HasPrefix_occurs in Hi. congruence.
  - destruct (HasPrefix (c :: s) sub) eqn:E.
    + apply HasPrefix_occurs in E. split; [intros [= <-]; split; [done|lia]|].
      intros [Hi Hmin]. destruct i; [done|]. destruct (Hmin 0); [lia|done].
    + assert (Hz : ~ occurs (c :: s) sub 0) by (rewrite <- HasPrefix_occurs; congruence).
      rewrite fmap_Some. split.
      * intros (k & [Hk Hmin]%IH & ->). rewrite occurs_cons. split; [done|].
        intros [|j] Hj; [done|]. rewrite occurs_cons. apply Hmin. lia.
      * intros [Hi Hmin]. destruct i as [|i]; [done|]. exists i. split; [|done]. apply IH.
        rewrite occurs_cons in Hi. split; [done|]. intros j Hj Ho. apply (Hmin (S j)); [lia|].
        by rewrite occurs_cons.
Qed.

Lemma Index_None s sub : Index s sub = None <-> (forall j, ~ occurs s sub j).
Proof.
  split.
  - intros H. induction s as [|c s IH]; cbn [Index] in H.
    + destruct (HasPrefix [] sub) eqn:E; [done|]. intros j Hj.
      pose proof (occurs_nil _ _ Hj) as [-> _]. apply HasPrefix_occurs in Hj. congruence.
    + destruct (HasPrefix (c :: s) sub) eqn:E; [done|]. apply fmap_None in H.
      intros [|j]; [rewrite <- HasPrefix_occurs; congruence|]. rewrite occurs_cons. by apply IH.
  - intros H. destruct (Index s sub) as [i|] eqn:E; [|done].
    apply Index_Some in E as [Ho _]. by destruct (H i).
Qed.

Lemma LastIndex_Some s sub i :
  LastIndex s sub = Some i <-> occurs s sub i /\ (forall j, i < j -> ~ occurs s sub j).
Proof.
  assert (Hfun : forall i' j', (occurs s sub i' /\ (forall j, i' < j -> ~ occurs s sub j)) ->
    (occurs s sub j' /\ (forall j, j' < j -> ~ occurs s sub j)) -> i' = j').
  { intros i' j' [H1 H2] [H3 H4]. destruct (Nat.lt_trichotomy i' j') as [?|[?|?]]; [|done|];
      exfalso; [by apply (H2 j')|by apply (H4 i')]. }
  enough (match LastIndex s sub with
          | Some i => occurs s sub i /\ (forall j, i < j -> ~ occurs s sub j)
          | None => forall j, ~ occurs s sub j end) as H.
  { destruct (LastIndex s sub) as [k|]; split; try done.
    - by intros [= <-].
    - intros Hi. f_equal. by apply Hfun.
    - intros [Ho _]. by destruct (H i). }
  clear i Hfun. induction s as [|c s IH]; cbn [LastIndex].
  - destruct (HasPrefix [] sub) eqn:E.
    + apply HasPrefix_occurs in E. split; [done|]. intros j Hj Ho. apply occurs_nil in Ho. lia.
    + intros j Hj. pose proof (occurs_nil _ _ Hj) as [-> _]. apply HasPrefix_occurs in Hj. congruence.
  - destruct (LastIndex s sub) as [k|].
    + destruct IH as [Ho Hmax]. rewrite occurs_cons. split; [done|].
      intros [|j] Hj; [lia|]. rewrite occurs_cons. apply Hmax. lia.
    + destruct (HasPrefix (c :: s) sub) eqn:E.
      * apply HasPrefix_occurs in E. split; [done|]. intros [|j] Hj; [lia|]. rewrite occurs_cons. apply IH.
      * intros [|j]; [rewrite <- HasPrefix_occurs; congruence|]. rewrite occurs_cons. apply IH.
Qed.

Lemma LastIndex_None s sub : LastIndex s sub = None <-> (forall j, ~ occurs s sub j).
Proof.
  split.
  - induction s as [|c s IH]; cbn [LastIndex].
    + destruct (HasPrefix [] sub) eqn:E; [done|]. intros _ j Hj.
      pose proof (occurs_nil _ _ Hj) as [-> _]. apply HasPrefix_occurs in Hj. congruence.
    + destruct (LastIndex s sub) as [k|]; [done|]. destruct (HasPrefix (c :: s) sub) eqn:E; [done|].
      intros _ [|j]; [rewrite <- HasPrefix_occurs; congruence|]. rewrite occurs_cons. by apply IH.
  - intros H. destruct (LastIndex s sub) as [i|] eqn:E; [|done].
    apply LastIndex_Some in E as [Ho _]. by destruct (H i).
Qed.

(** Cutting at an occurrence. *)
Lemma occurs_cut s sub i : occurs s sub i -> s = take i s ++ sub ++ drop (i + length sub) s.
Proof.
  intros (b & a & -> & <-). rewrite take_app_length.
  rewrite <- drop_drop, drop_app_length, drop_app_length. done.
Qed.

(** ** Properties *)

(** C31: [Is] always returns, and it reports exactly whether the value matches the
    pattern in which every [*] stands for any, possibly empty, sequence of bytes
    and every other byte for itself. *)
Theorem Is_correct pattern value :
  exists b, Is pattern value = Some b /\ (b = true <-> glob pattern value).
Proof.
  unfold Is. case_bool_decide as E; [subst; exists true; split; [done|]; split; [|done]; intros; apply glob_refl|].
  destruct (is_loop_spec pattern value (is_fuel pattern value) (mkIs 0 0 None 0))
    as [[-> Hno]|(st & -> & (Hp & Hv & Hi) & Hlast)].
  - split_and!; simpl; try lia. by rewrite !drop_0.
  - unfold is_measure, is_fuel. simpl. nia.
  - exists false. split; [done|]. split; [done|]. by intros.
  - eexists. split; [done|]. rewrite skip_stars_glob by lia.
    rewrite Hlast in Hi. destruct (starIndex st) as [s|].
    + destruct Hi as (l & Hl & Hss & Hsl & Hd & Hm & Hdv & ->).
      rewrite (drop_S _ _ _ Hss), Hd, Hdv, drop_all, app_nil_r, glob_star_inv. split.
      * intros Hg. exists [], l. split; [done|]. apply glob_literal; [done|]. exists [].
        by rewrite app_nil_r.
      * intros (w & u & Hwu & (u' & -> & Hg)%glob_literal); [|done].
        assert (length l = length w + length l + length u') by (rewrite Hwu at 1; rewrite !length_app; lia).
        by destruct u'; [|simpl in *; lia].
    + rewrite Hi, drop_all. done.
Qed.

(** Cutting at the first occurrence: when the search string occurs,
    [Before], it and [After] reassemble the subject around its first occurrence
    and [ReplaceFirst] puts the replacement there; when it does not, all three
    return the subject. *)
Theorem cut_first subject search to :
  search <> [] ->
  (exists i, occurs subject search i) /\
    subject = Before subject search ++ search ++ After subject search /\
    ReplaceFirst subject search to = Before subject search ++ to ++ After subject search /\
    (forall j, j < length (Before subject search) -> ~ occurs subject search j)
  \/ (forall i, ~ occurs subject search i) /\
    Before subject search = subject /\ After subject search = subject /\
    ReplaceFirst subject search to = subject.
Proof.
  intros Hne. unfold Before, After, ReplaceFirst. destruct search as [|c search]; [done|].
  set (sub := c :: search). destruct (Index subject sub) as [i|] eqn:E.
  - apply Index_Some in E as [Ho Hmin]. left. split_and!; [by exists i|by apply occurs_cut|done|].
    intros j Hj. apply Hmin. rewrite length_take in Hj. lia.
  - rewrite Index_None in E. by right.
Qed.

Lemma cut_first_witness :
  Before (lit "a,b,c") (lit ",") = lit "a" /\
  lit "a,b,c" = Before (lit "a,b,c") (lit ",") ++ lit "," ++ After (lit "a,b,c") (lit ",").
Proof.
  split; [reflexivity|].
  destruct (cut_first (lit "a,b,c") (lit ",") []) as [(_ & H & _)|(H & _)]; [done|exact H|].
  destruct (H 1). exists (lit "a"), (lit "b,c"). done.
Defined.

(** cutting at the last occurrence, likewise with [BeforeLast], [AfterLast]
    and [ReplaceLast]. *)
Theorem cut_last subject search to :
  search <> [] ->
  (exists i, occurs subject search i) /\
    subject = BeforeLast subject search ++ search ++ AfterLast subject search /\
    ReplaceLast subject search to = BeforeLast subject search ++ to ++ AfterLast subject search /\
    (forall j, length (BeforeLast subject search) < j -> ~ occurs subject search j)
  \/ (forall i, ~ occurs subject search i) /\
    BeforeLast subject search = subject /\ AfterLast subject search = subject /\
    ReplaceLast subject search to = subject.
Proof.
  intros Hne. unfold BeforeLast, AfterLast, ReplaceLast. destruct search as [|c search]; [done|].
  set (sub := c :: search). destruct (LastIndex subject sub) as [i|] eqn:E.
  - apply LastIndex_Some in E as [Ho Hmax]. left. split_and!; [by exists i|by apply occurs_cut|done|].
    destruct Ho as (b & a & Es & Hb). intros j Hj. apply Hmax. rewrite length_take in Hj.
    subst subject. rewrite !length_app in Hj. lia.
  - rewrite LastIndex_None in E. by right.
Qed.

Lemma cut_last_witness :
  AfterLast (lit "path/to/f") (lit "/") = lit "f" /\
  lit "path/to/f" = BeforeLast (lit "path/to/f") (lit "/") ++ lit "/" ++ AfterLast (lit "path/to/f") (lit "/").
Proof.
  split; [reflexivity|].
  destruct (cut_last (lit "path/to/f") (lit "/") []) as [(_ & H & _)|(H & _)]; [done|exact H|].
  destruct (H 4). exists (lit "path"), (lit "to/f"). done.
Defined.

(** [SubstrCount] panics on a valid offset when [offset + length] overflows
    64 bits, although its documentation bounds neither argument; with any length
    that does not overflow it counts within the bytes of the haystack. *)
Theorem SubstrCount_overflow runes haystack needle offset l :
  (0 <= offset < Z.of_nat (length haystack))%Z -> (0 <= l <= maxInt64)%Z ->
  (Z.of_nat (length haystack) <= maxInt64)%Z ->
  SubstrCount runes haystack needle offset [l] =
    if decide (offset + l <= maxInt64)%Z
    then inl (Count runes (take (Z.to_nat l) (drop (Z.to_nat offset) haystack)) needle)
    else inr tt.
Proof.
  intros Ho Hl Hh. unfold SubstrCount. set (len := Z.of_nat (length haystack)) in *.
  destruct (Z.ltb_spec offset 0); [lia|]. rewrite Z.geb_leb.
  destruct (Z.leb_spec len offset); [lia|]. simpl. destruct (Z.ltb_spec l 0); [lia|].
  case_decide as Hov.
  - rewrite wrap64_id by int_lia. destruct (Z.ltb_spec (Z.min (offset + l) len) offset); [lia|].
    do 2 f_equal. destruct (decide (offset + l <= len)%Z).
    + by replace (Z.min (offset + l) len - offset)%Z with l by lia.
    + rewrite Z.min_r by lia. rewrite !take_ge; [done|rewrite length_drop; lia..].
  - assert (wrap64 (offset + l) = offset + l - 18446744073709551616)%Z as ->.
    { unfold wrap64, maxInt64 in *.
      replace (offset + l + 9223372036854775808)%Z
        with ((offset + l - 9223372036854775808) + 1 * 18446744073709551616)%Z by lia.
      rewrite Z.mod_add by lia. rewrite Z.mod_small by lia. lia. }
    unfold maxInt64 in *. destruct (Z.ltb_spec (Z.min (offset + l - 18446744073709551616) len) offset); [done|lia].
Qed.

Lemma SubstrCount_overflow_witness :
  SubstrCount length (lit "abc") (lit "a") 1 [maxInt64] = inr tt.
Proof.
  apply (SubstrCount_overflow length (lit "abc") (lit "a") 1 maxInt64); int64_unfold; simpl; lia.
Defined.
