(* ===== verification/Retry.v ===== *)
(** * Retrying operations: [src/retry]

    Backoff strategies on 64-bit durations, error markers, and the loop of
    [DoValue].  The operation is what its executions return, one after the
    other; the context is what the loop's checks of it see. *)

From S2P Require Import Prelude GoErrors.
From stdpp Require Import options.
Set Default Proof Using "Type*".
Local Open Scope Z_scope.
Local Open Scope go_scope.

(** ** [backoff.go]

    A constructor that panics on its arguments returns [None]. *)

Definition Backoff := Z -> Z.

Definition validateDelay (delay : Z) : bool := negb (delay <? 0).

Definition NoBackoff : Backoff := fun _ => 0.

Definition Fixed (delay : Z) : option Backoff :=
  if validateDelay delay then Some (fun _ => delay) else None.

Definition multiplyDuration (delay multiplier : Z) : Z :=
  if multiplier >? maxInt64 / delay then maxInt64 else delay *₆₄ multiplier.

Definition Linear (delay : Z) : option Backoff :=
  if validateDelay delay then
    Some (fun attempt =>
            if (attempt <? 1) || (delay =? 0) then 0 else multiplyDuration delay attempt)
  else None.

(** The loop [for range attempt - 1]: [inl] is a return from inside it. *)
Fixpoint exponential_loop (n : nat) (maximum delay : Z) : Z + Z :=
  match n with
  | 0%nat => inr delay
  | S n =>
      if (maximum >? 0) && (delay >=? maximum) then inl maximum
      else if delay >? Z.quot maxInt64 2 then
        inl (if maximum >? 0 then maximum else maxInt64)
      else exponential_loop n maximum (delay *₆₄ 2)
  end.

Definition Exponential (initial maximum : Z) : option Backoff :=
  if validateDelay initial && validateDelay maximum
     && negb ((maximum >? 0) && (maximum <? initial)) then
    Some (fun attempt =>
            if (attempt <? 1) || (initial =? 0) then 0
            else
              match exponential_loop (Z.to_nat (attempt - 1)) maximum initial with
              | inl d => d
              | inr delay => if (maximum >? 0) && (delay >? maximum) then maximum else delay
              end)
  else None.

(** [rnd n attempt] is the draw of [rand.Uint64N(n)] made for that attempt. *)
Definition Jitter (rnd : Z -> Z -> Z) (backoff : option Backoff) (maximum : Z) : option Backoff :=
  let backoff := default NoBackoff backoff in
  if validateDelay maximum then
    if maximum =? 0 then Some backoff
    else
      Some (fun attempt =>
              let delay := backoff attempt in
              if delay <=? 0 then delay
              else
                let jitter := rnd (maximum + 1) attempt in
                if delay >? (maxInt64 -₆₄ jitter) then maxInt64 else delay +₆₄ jitter)
  else None.

(** ** [config.go] *)

Record Event := mkEvent { Attempt : Z; MaxAttempts : Z; EvErr : error; Delay : Z }.

Record config := mkConfig {
  maxAttempts : Z;
  backoff : Backoff;
  retryIf : error -> bool;
  notify : bool   (* a notify function is set *)
}.

(** The options of the package; [Option] has an unexported method, so there are
    no others. *)
Inductive Option_ :=
| WithMaxAttempts (attempts : Z)
| WithBackoff (b : option Backoff)
| WithRetryIf (predicate : option (error -> bool))
| WithNotify (set : bool).

Definition apply (o : Option_) (c : config) : config :=
  match o with
  | WithMaxAttempts attempts =>
      if attempts >=? 1 then mkConfig attempts (backoff c) (retryIf c) (notify c) else c
  | WithBackoff b =>
      match b with Some b => mkConfig (maxAttempts c) b (retryIf c) (notify c) | None => c end
  | WithRetryIf predicate =>
      match predicate with
      | Some p => mkConfig (maxAttempts c) (backoff c) p (notify c)
      | None => c
      end
  | WithNotify set => mkConfig (maxAttempts c) (backoff c) (retryIf c) set
  end.

Definition defaultRetryIf (err : error) : bool :=
  negb (errors_Is err "context canceled") && negb (errors_Is err "context deadline exceeded").

(** [Exponential(defaultInitialDelay, defaultMaximumDelay)] does not panic. *)
Definition defaultBackoff : Backoff := default NoBackoff (Exponential (100 * Millisecond) Second).

Definition newConfig (options : list (option Option_)) : config :=
  foldl (fun c o => match o with Some o => apply o c | None => c end)
    (mkConfig 3 defaultBackoff defaultRetryIf false) options.

(** ** [retry.go] *)

Definition Permanent (err : option error) : option error := permanentError <$> err.

Definition After (delay : Z) (err : option error) : option (option error) :=
  if validateDelay delay then Some (afterError delay <$> err) else None.

Record errorInfo := mkInfo {
  cause : error; permanent : bool; override : bool; overrideDelay : Z
}.

(** The loop that removes root markers. *)
Fixpoint strip_markers (err : error) : error :=
  match err with
  | permanentError e | afterError _ e => strip_markers e
  | _ => err
  end.

Definition as_permanent (e : error) : option unit :=
  match e with permanentError _ => Some tt | _ => None end.
Definition as_after (e : error) : option Z :=
  match e with afterError d _ => Some d | _ => None end.

Definition inspectError (err : error) : errorInfo :=
  let permanent := if errors_As as_permanent err is Some _ then true else false in
  match errors_As as_after err with
  | Some d => mkInfo (strip_markers err) permanent true d
  | None => mkInfo (strip_markers err) permanent false 0
  end.

(** What a call does, in order. *)
Inductive action := Exec (attempt : Z) | Notify (e : Event) | Wait (delay : Z).

Section Do.
Context {T : Type}.
(** [op k] is what the [k]-th execution returns; [timer_first k] whether the
    timer wins a race with a done context in the [k]-th wait. *)
Variables (op : Z -> T * option error) (ctx : context) (timer_first : Z -> bool).

(** [wait(ctx, delay)] as seen by the check with index [n]. *)
Definition wait (attempt delay : Z) (n : nat) : option error :=
  if delay =? 0 then ctx_Err ctx n
  else if timer_first attempt then None else ctx_Err ctx n.

(** The delay chosen after a failed attempt. *)
Definition next_delay (c : config) (attempt : Z) (info : errorInfo) : Z :=
  if override info then overrideDelay info else Z.max (backoff c attempt) 0.

(** The loop of [DoValue].  Attempt [k] checks the context at [n], [n+1] and, in
    its wait, [n+2]; the result is the value, the error and the actions. *)
Fixpoint DoValue_loop (fuel : nat) (c : config) (attempt : Z) (n : nat) (result : T)
    : option (T * option error * list action) :=
  match fuel with
  | 0%nat => None
  | S fuel =>
      match ctx_Err ctx n with
      | Some err => Some (result, Some err, [])
      | None =>
          let '(result, err) := op attempt in
          match err with
          | None => Some (result, None, [Exec attempt])
          | Some err =>
              match ctx_Err ctx (S n) with
              | Some err => Some (result, Some err, [Exec attempt])
              | None =>
                  let info := inspectError err in
                  if permanent info then Some (result, Some (cause info), [Exec attempt])
                  else if (attempt =? maxAttempts c) || negb (retryIf c (cause info)) then
                    Some (result, Some (cause info), [Exec attempt])
                  else
                    let delay := next_delay c attempt info in
                    let acts := Exec attempt
                      :: (if notify c
                          then [Notify (mkEvent attempt (maxAttempts c) (cause info) delay)] else [])
                      ++ [Wait delay] in
                    match wait attempt delay (S (S n)) with
                    | Some err => Some (result, Some err, acts)
                    | None =>
                        match DoValue_loop fuel c (attempt + 1) (n + 3) result with
                        | Some (r, e, rest) => Some (r, e, acts ++ rest)
                        | None => None
                        end
                    end
              end
          end
      end
  end.

(** [maxAttempts] iterations suffice, since the last allowed attempt returns. *)
Definition DoValue (zero : T) (options : list (option Option_))
    : option (T * option error * list action) :=
  let c := newConfig options in
  DoValue_loop (Z.to_nat (maxAttempts c)) c 1 0 zero.
End Do.

(** [Do] is [DoValue] at the empty struct. *)
Definition Do (op : Z -> option error) (ctx : context) (timer_first : Z -> bool)
    (options : list (option Option_)) : option (option error * list action) :=
  (fun r => (snd (fst r), snd r))
    <$> DoValue (fun k => (tt, op k)) ctx timer_first tt options.

Definition opt_attempt (b : option Backoff) (k : Z) : option Z := (fun f => f k) <$> b.

Example exponential_ex :
  (fun k => opt_attempt (Exponential 100 1000) k) <$> [0; 1; 2; 3; 4; 5; 6]
  = [Some 0; Some 100; Some 200; Some 400; Some 800; Some 1000; Some 1000].
Proof. vm_compute. reflexivity. Qed.

Example do_ex :
  Do (fun k => if k <? 3 then Some (ErrMsg "again") else None) Background (fun _ => true)
    [Some (WithBackoff (Linear 7)); Some (WithNotify true)]
  = Some (None, [Exec 1; Notify (mkEvent 1 3 (ErrMsg "again") 7); Wait 7;
                 Exec 2; Notify (mkEvent 2 3 (ErrMsg "again") 14); Wait 14; Exec 3]).
Proof. vm_compute. reflexivity. Qed.

(** ** Backoffs *)

Lemma exponential_loop_min n maximum delay :
  0 < delay <= maxInt64 -> 0 <= maximum <= maxInt64 -> (maximum > 0 -> delay <= 2 * maximum) ->
  let cap := if maximum >? 0 then maximum else maxInt64 in
  match exponential_loop n maximum delay with
  | inl d => d
  | inr d => if (maximum >? 0) && (d >? maximum) then maximum else d
  end = Z.min (delay * 2 ^ Z.of_nat n) cap.
Proof.
  revert delay. induction n as [|n IH]; intros delay Hd Hm Hc cap; subst cap; cbn [exponential_loop].
  - change (2 ^ Z.of_nat 0) with 1. bsolve.
  - rewrite Nat2Z.inj_succ, Z.pow_succ_r by lia.
    assert (0 < 2 ^ Z.of_nat n) by (apply Z.pow_pos_nonneg; lia).
    destruct ((maximum >? 0) && (delay >=? maximum)) eqn:E1;
      [|destruct (delay >? Z.quot maxInt64 2) eqn:E2].
    + apply andb_true_iff in E1 as [E1 E1']. rewrite E1. bcase; nia.
    + change (Z.quot maxInt64 2) with 4611686018427387903 in E2. int64_unfold. bcase; nia.
    + change (Z.quot maxInt64 2) with 4611686018427387903 in E2.
      assert (E3 : delay *₆₄ 2 = delay * 2) by (apply wrap64_id; int64_unfold; bcase; lia).
      rewrite E3, IH; [f_equal; lia|int64_unfold; bcase; lia|done|].
      intros Hp. destruct (Z.gtb_spec maximum 0); [|lia]. simpl in E1. bcase; lia.
Qed.

(** The cap of an exponential backoff: its maximum, or the largest duration. *)
Definition exponential_cap (maximum : Z) : Z := if maximum >? 0 then maximum else maxInt64.

(** [Exponential] and [Linear] return exactly the mathematical delay,
    [initial * 2^(attempt-1)] and [delay * attempt], capped at the maximum or
    at the largest duration: no 64-bit product on the way wraps around, and the
    early exits of the doubling loop change nothing. *)
Theorem backoff_exact initial maximum attempt f g :
  int64_ok initial -> int64_ok maximum -> 1 <= attempt <= maxInt64 ->
  Exponential initial maximum = Some f -> Linear initial = Some g ->
  f attempt = Z.min (initial * 2 ^ (attempt - 1)) (exponential_cap maximum) /\
  g attempt = Z.min (initial * attempt) maxInt64.
Proof.
  intros Hi Hm Ha Hf Hg. unfold Exponential, Linear, validateDelay, exponential_cap in *.
  destruct (initial <? 0) eqn:Ei; simpl in *; [done|]. simplify_eq.
  destruct (maximum <? 0) eqn:Em; simpl in *; [done|].
  destruct ((maximum >? 0) && (maximum <? initial)) eqn:Emi; simpl in *; [done|]. simplify_eq.
  destruct (Z.ltb_spec attempt 1); [lia|]. simpl. split.
  - destruct (Z.eqb_spec initial 0) as [->|].
    { rewrite Z.mul_0_l. int64_unfold. bsolve. }
    rewrite exponential_loop_min, Z2Nat.id; [done|lia|int64_unfold; bcase; lia..].
  - destruct (Z.eqb_spec initial 0) as [->|].
    { rewrite Z.mul_0_l. int64_unfold. lia. }
    unfold multiplyDuration. assert (0 < initial) by bsolve.
    pose proof (Z.mul_div_le maxInt64 initial). pose proof (Z.mul_succ_div_gt maxInt64 initial).
    rewrite Z.gtb_ltb. destruct (Z.ltb_spec (maxInt64 / initial) attempt); [nia|].
    rewrite wrap64_id; [nia|]. int64_unfold. nia.
Qed.

Lemma backoff_exact_witness :
  (forall f g, Exponential (3 * Second) (10 * Second) = Some f -> Linear (3 * Second) = Some g ->
    f 2 = 6 * Second /\ g 2 = 6 * Second) /\
  Exponential (3 * Second) (10 * Second) <> None.
Proof.
  split; [|discriminate]. intros f g Hf Hg.
  pose proof (backoff_exact (3 * Second) (10 * Second) 2 f g) as H.
  destruct H as [H1 H2]; [unfold Second; int_lia..|exact Hf|exact Hg|]. rewrite H1, H2. by split; vm_compute.
Defined.

(** [Jitter] leaves a non-positive delay alone and adds to a positive one
    between nothing and its maximum, clamped at the largest duration, whatever
    the random source draws below its bound. *)
Theorem jitter_bounds rnd b maximum j attempt :
  int64_ok (b attempt) -> 0 <= maximum <= maxInt64 ->
  (forall n k, 0 < n -> 0 <= rnd n k < n) ->
  Jitter rnd (Some b) maximum = Some j ->
  (b attempt <= 0 -> j attempt = b attempt) /\
  (0 < b attempt -> b attempt <= j attempt <= Z.min (b attempt + maximum) maxInt64).
Proof.
  intros Hb Hm Hr. unfold Jitter, validateDelay. simpl.
  destruct (Z.ltb_spec maximum 0); [lia|]. simpl.
  destruct (Z.eqb_spec maximum 0) as [->|]; intros; simplify_eq; [int_lia|].
  pose proof (Hr (maximum + 1) attempt). cbv zeta.
  destruct (Z.leb_spec (b attempt) 0); [lia|]. split; [lia|]. intros _.
  rewrite (wrap64_id (maxInt64 - _)) by int_lia.
  destruct (Z.gtb_spec (b attempt) (maxInt64 - rnd (maximum + 1) attempt)); [int_lia|].
  rewrite wrap64_id; int_lia.
Qed.

Lemma jitter_bounds_witness :
  exists j, Jitter (fun n _ => n - 1) (Some (fun _ => 5)) 3 = Some j /\ 5 <= j 1 <= 8.
Proof.
  eexists. split; [reflexivity|].
  pose proof (jitter_bounds (fun n _ => n - 1) (fun _ => 5) 3 _ 1
                ltac:(int_lia) ltac:(int_lia) ltac:(intros; lia) eq_refl) as [_ H].
  specialize (H ltac:(lia)). exact H.
Defined.

(** ** The loop *)

Lemma newConfig_maxAttempts options : 1 <= maxAttempts (newConfig options).
Proof.
  unfold newConfig.
  assert (Hc : 1 <= maxAttempts (mkConfig 3 defaultBackoff defaultRetryIf false)) by (simpl; lia).
  revert Hc. generalize (mkConfig 3 defaultBackoff defaultRetryIf false) as c.
  induction options as [|[[]|] options IH]; intros c Hc; simpl; auto; apply IH; simpl; auto.
  - destruct (Z.geb_spec attempts 1); simpl; lia.
  - by destruct b.
  - by destruct predicate.
Qed.

Section Outcome.
Context {T : Type}.
Variables (op : Z -> T * option error) (ctx : context) (timer_first : Z -> bool).

(** Whether attempt [k] is the last one when the context stays open. *)
Definition stops (c : config) (k : Z) : bool :=
  match snd (op k) with
  | None => true
  | Some e =>
      permanent (inspectError e) || (k =? maxAttempts c)
      || negb (retryIf c (cause (inspectError e)))
  end.

(** The error attempt [k] returns to the caller: root markers are removed. *)
Definition verdict (k : Z) : option error := (fun e => cause (inspectError e)) <$> snd (op k).

(** What the loop does around a failed attempt it retries. *)
Definition retry_actions (c : config) (k : Z) : list action :=
  match snd (op k) with
  | None => []
  | Some e =>
      let info := inspectError e in
      Exec k :: (if notify c
                 then [Notify (mkEvent k (maxAttempts c) (cause info) (next_delay c k info))] else [])
        ++ [Wait (next_delay c k info)]
  end.

Definition executions (acts : list action) : list Z :=
  omap (fun a => match a with Exec k => Some k | _ => None end) acts.

(** One turn of the loop, by what the checks of the context see. *)
Lemma DoValue_loop_step fuel c k n r :
  DoValue_loop op ctx timer_first (S fuel) c k n r =
  match ctx_Err ctx n with
  | Some err => Some (r, Some err, [])
  | None =>
      match (if snd (op k) is Some _ then ctx_Err ctx (S n) else None) with
      | Some err => Some (fst (op k), Some err, [Exec k])
      | None =>
          if stops c k then Some (fst (op k), verdict k, [Exec k])
          else
            match wait ctx timer_first k
                    (if snd (op k) is Some e then next_delay c k (inspectError e) else 0) (S (S n)) with
            | Some err => Some (fst (op k), Some err, retry_actions c k)
            | None =>
                match DoValue_loop op ctx timer_first fuel c (k + 1) (n + 3) (fst (op k)) with
                | Some (r, e, rest) => Some (r, e, retry_actions c k ++ rest)
                | None => None
                end
            end
      end
  end.
Proof.
  cbn [DoValue_loop]. destruct (ctx_Err ctx n); [done|].
  unfold stops, verdict, retry_actions. destruct (op k) as [v [e|]]; cbn [fst snd fmap option_fmap option_map]; [|done].
  destruct (ctx_Err ctx (S n)); [done|].
  destruct (permanent (inspectError e)); [done|]. cbn [orb].
  by destruct ((k =? maxAttempts c) || negb (retryIf c (cause (inspectError e)))).
Qed.

Lemma stops_max c : stops c (maxAttempts c) = true.
Proof. unfold stops. destruct (snd _); [|done]. by rewrite Z.eqb_refl, orb_true_r. Qed.

Lemma DoValue_loop_open c (Hopen : forall n, ctx n = None) fuel k n r :
  k <= maxAttempts c -> Z.of_nat fuel = maxAttempts c - k + 1 ->
  exists m, k <= m <= maxAttempts c /\ (forall j, k <= j < m -> stops c j = false) /\
    stops c m = true /\
    DoValue_loop op ctx timer_first fuel c k n r =
      Some (fst (op m), verdict m, concat (retry_actions c <$> seqZ k (m - k)) ++ [Exec m]).
Proof.
  assert (Herr : forall i, ctx_Err ctx i = None) by (intros i; unfold ctx_Err; by rewrite Hopen).
  revert k n r. induction fuel as [|fuel IH]; intros k n r Hk Hf; [lia|].
  rewrite DoValue_loop_step, !Herr.
  replace (match snd (op k) with Some _ => None | None => None end) with (@None error)
    by (by destruct (snd (op k))).
  destruct (stops c k) eqn:Es.
  - exists k. rewrite Z.sub_diag. split_and!; [lia|lia|intros; lia|done|done].
  - assert (k <> maxAttempts c) by (intros ->; by rewrite stops_max in Es).
    replace (wait _ _ _ _ _) with (@None error)
      by (unfold wait; rewrite Herr; repeat case_match; done).
    destruct (IH (k + 1) (n + 3)%nat (fst (op k))) as (m & Hm & Hj & Hs & ->); [lia..|].
    exists m. split_and!; [lia|lia| |done|].
    + intros j Hj'. destruct (decide (j = k)) as [->|]; [done|]. apply Hj. lia.
    + rewrite (seqZ_cons k (m - k)) by lia. cbn [fmap list_fmap concat].
      replace (Z.pred (m - k)) with (m - (k + 1)) by lia. replace (Z.succ k) with (k + 1) by lia.
      by rewrite <- (assoc_L (++)).
Qed.
End Outcome.

Section Cancellation.
Context {T : Type}.
Variables (op : Z -> T * option error) (ctx : context) (timer_first : Z -> bool).

Lemma executions_app a b : executions (a ++ b) = executions a ++ executions b.
Proof. apply omap_app. Qed.

Lemma executions_retry c k : stops op c k = false -> executions (retry_actions op c k) = [k].
Proof.
  unfold stops, retry_actions. destruct (snd (op k)); [|done]. intros _.
  by destruct (notify c).
Qed.

Lemma DoValue_loop_cancel c fuel k n r :
  k <= maxAttempts c -> Z.of_nat fuel = maxAttempts c - k + 1 ->
  exists v e acts m,
    DoValue_loop op ctx timer_first fuel c k n r = Some (v, e, acts) /\
    k - 1 <= m <= maxAttempts c /\ executions acts = seqZ k (m - k + 1) /\
    (forall j, k <= j <= m -> ctx (n + 3 * Z.to_nat (j - k))%nat = None) /\
    v = (if m =? k - 1 then r else fst (op m)) /\
    ((k <= m /\ stops op c m = true /\ e = verdict op m) \/
     (exists i err, (i <= n + 3 * Z.to_nat (m - k + 1))%nat /\ ctx_Err ctx i = Some err /\ e = Some err)).
Proof.
  revert k n r. induction fuel as [|fuel IH]; intros k n r Hk Hf; [lia|].
  rewrite DoValue_loop_step. destruct (ctx_Err ctx n) as [err|] eqn:E0.
  { exists r, (Some err), [], (k - 1). rewrite Z.eqb_refl. replace (k - 1 - k + 1) with 0 by lia.
    split_and!; [done|lia|lia|done|intros; lia|done|]. right. exists n, err. split_and!; [lia|done|done]. }
  assert (Hn : ctx n = None) by (unfold ctx_Err in E0; by destruct (ctx n)).
  assert (Hone : forall e, (stops op c k = true /\ e = verdict op k \/
     (exists i err, (i <= n + 3)%nat /\ ctx_Err ctx i = Some err /\ e = Some err)) ->
     forall acts, executions acts = [k] ->
     exists v e' acts' m, Some (fst (op k), e, acts) = Some (v, e', acts') /\
       k - 1 <= m <= maxAttempts c /\ executions acts' = seqZ k (m - k + 1) /\
       (forall j, k <= j <= m -> ctx (n + 3 * Z.to_nat (j - k))%nat = None) /\
       v = (if m =? k - 1 then r else fst (op m)) /\
       ((k <= m /\ stops op c m = true /\ e' = verdict op m) \/
        (exists i err, (i <= n + 3 * Z.to_nat (m - k + 1))%nat /\ ctx_Err ctx i = Some err /\ e' = Some err))).
  { intros e He acts Hacts. exists (fst (op k)), e, acts, k. replace (k - k + 1) with 1 by lia.
    split_and!; [done|lia|lia|done| | |].
    - intros j Hj. replace (j - k) with 0 by lia. by rewrite Nat.add_0_r.
    - destruct (Z.eqb_spec k (k - 1)); [lia|done].
    - destruct He as [[? ?]|He]; [left; split_and!; [lia|done|done]|by right]. }
  destruct (match snd (op k) with Some _ => _ | None => _ end) as [err|] eqn:E1.
  { apply Hone; [|done]. right. exists (S n), err. split_and!; [lia| |done].
    by destruct (snd (op k)). }
  destruct (stops op c k) eqn:Es; [apply Hone; [by left|done]|].
  assert (k <> maxAttempts c) by (intros ->; by rewrite stops_max in Es).
  destruct (wait _ _ _ _ _) as [err|] eqn:Ew.
  { apply Hone; [|by apply executions_retry]. right. exists (S (S n)), err.
    unfold wait in Ew. split_and!; [lia|repeat case_match; simplify_eq; done|done]. }
  destruct (IH (k + 1) (n + 3)%nat (fst (op k))) as (v & e & acts & m & -> & Hm & Hex & Hc & Hv & He);
    [lia..|].
  exists v, e, (retry_actions op c k ++ acts), m. split_and!; [done|lia|lia|..].
  - rewrite executions_app, Hex, executions_retry by done.
    rewrite (seqZ_cons k) by lia. simpl. f_equal. f_equal; lia.
  - intros j Hj. destruct (decide (j = k)) as [->|].
    { by rewrite Z.sub_diag, Nat.add_0_r. }
    specialize (Hc j ltac:(lia)). replace (n + 3 * Z.to_nat (j - k))%nat
      with (n + 3 + 3 * Z.to_nat (j - (k + 1)))%nat by lia. done.
  - rewrite Hv. bcase; try lia; auto. f_equal; f_equal; lia.
  - destruct He as [(? & ? & ?)|(i & err & Hi & ? & ?)]; [left; split_and!; [lia|done|done]|].
    right. exists i, err. split_and!; [lia|done|done].
Qed.
End Cancellation.

(** C29: While the context stays open, [DoValue] executes the operation exactly
    up to its first attempt that succeeds, fails permanently, fails with an
    error the predicate refuses, or is the last one allowed; it returns that
    attempt's value and, without its root markers, that attempt's error; and
    before each earlier attempt's successor it notifies and waits exactly the
    delay of the override or of the backoff.  At least one execution is made
    and never more than the configured maximum. *)
Theorem DoValue_outcome {T} (op : Z -> T * option error) ctx timer_first zero options :
  (forall n, ctx n = None) ->
  let c := newConfig options in
  exists m, 1 <= m <= maxAttempts c /\ (forall j, 1 <= j < m -> stops op c j = false) /\
    stops op c m = true /\
    DoValue op ctx timer_first zero options =
      Some (fst (op m), verdict op m, concat (retry_actions op c <$> seqZ 1 (m - 1)) ++ [Exec m]).
Proof.
  intros Hopen c. pose proof (newConfig_maxAttempts options) as Hc.
  apply (DoValue_loop_open op ctx timer_first c Hopen); subst c; lia.
Qed.

Lemma DoValue_outcome_witness :
  exists m, 1 <= m <= 5 /\
    DoValue (fun k => (k, if k <? 4 then Some (ErrMsg "busy") else None)) Background (fun _ => true) 0
      [Some (WithMaxAttempts 5); Some (WithBackoff (Some NoBackoff))]
    = Some (m, None, [Exec 1; Wait 0; Exec 2; Wait 0; Exec 3; Wait 0; Exec 4]).
Proof.
  destruct (DoValue_outcome (fun k => (k, if k <? 4 then Some (ErrMsg "busy") else None))
    Background (fun _ => true) 0 [Some (WithMaxAttempts 5); Some (WithBackoff (Some NoBackoff))]
    (fun _ => eq_refl)) as (m & Hm & _ & _ & H).
  exists m. split; [exact Hm|]. rewrite H. revert H. vm_compute (DoValue _ _ _ _ _).
  intros [= <- _]. reflexivity.
Defined.

(** Whatever the context does, [DoValue] returns, having executed attempts
    1 to [m] in order with [m] at most the maximum; each of them started after
    a check that saw the context open, so nothing is executed once it has been
    seen done; the value returned is the last execution's (the zero value if
    there was none); and the error is the last attempt's verdict or the error
    of the context, observed done. *)
Theorem DoValue_cancellation {T} (op : Z -> T * option error) ctx timer_first zero options :
  let c := newConfig options in
  exists v e acts m,
    DoValue op ctx timer_first zero options = Some (v, e, acts) /\
    0 <= m <= maxAttempts c /\ executions acts = seqZ 1 m /\
    (forall j, 1 <= j <= m -> ctx (3 * Z.to_nat (j - 1))%nat = None) /\
    v = (if m =? 0 then zero else fst (op m)) /\
    ((1 <= m /\ stops op c m = true /\ e = verdict op m) \/
     (exists i err, (i <= 3 * Z.to_nat m)%nat /\ ctx_Err ctx i = Some err /\ e = Some err)).
Proof.
  intros c. pose proof (newConfig_maxAttempts options) as Hc.
  destruct (DoValue_loop_cancel op ctx timer_first c (Z.to_nat (maxAttempts c)) 1 0 zero)
    as (v & e & acts & m & H & Hm & Hx & Hj & Hv & He); [subst c; lia..|].
  exists v, e, acts, m. replace (m - 1 + 1) with m in Hx, He by lia.
  split_and!; [done|lia|lia|done|done|done|done].
Qed.
