(* ===== verification/Poll.v ===== *)
(** * Polling a condition: [src/poll]

    [untilValue] has no bound on its turns, so its loop runs on fuel; the
    theorem gives the turn it stops at, and any fuel beyond it suffices. *)

From S2P Require Import Prelude GoErrors.
From stdpp Require Import options.
Set Default Proof Using "Type*".
Local Open Scope Z_scope.

(** How a call ends: a panic on its arguments, or a value and an error with the
    number of times the condition was called. *)
Inductive outcome (T : Type) :=
| Panics (msg : string)
| Returns (value : T) (err : option error) (calls : nat).
Arguments Panics {T} msg.
Arguments Returns {T} value err calls.

Section Poll.
Context {T : Type}.
(** [condition k] is what the [k]-th call returns; [timer_first k] whether the
    timer wins a race with a done context in the [k]-th wait. *)
Variables (condition : nat -> T * bool * option error) (ctx : context)
  (timer_first : nat -> bool).

Definition wait (k n : nat) : option error :=
  if timer_first k then None else ctx_Err ctx n.

(** The loop of [untilValue]: turn [k] checks the context at [3k], [3k+1] and,
    in its wait, [3k+2]. *)
Fixpoint untilValue_loop (fuel k : nat) (value : T) : option (outcome T) :=
  match fuel with
  | 0%nat => None
  | S fuel =>
      match ctx_Err ctx (3 * k) with
      | Some err => Some (Returns value (Some err) k)
      | None =>
          let '(value, done, err) := condition k in
          match ctx_Err ctx (3 * k + 1) with
          | Some ctxErr => Some (Returns value (Some ctxErr) (S k))
          | None =>
              match err with
              | Some err => Some (Returns value (Some err) (S k))
              | None =>
                  if done then Some (Returns value None (S k))
                  else
                    match wait k (3 * k + 2) with
                    | Some err => Some (Returns value (Some err) (S k))
                    | None => untilValue_loop fuel (S k) value
                    end
              end
          end
      end
  end.

Definition untilValue (fuel : nat) (zero : T) (interval : Z) : option (outcome T) :=
  if interval <=? 0 then Some (Panics "poll: interval must be greater than zero")
  else untilValue_loop fuel 0 zero.

(** What turn [k] ends the polling with, given the value before it. *)
Definition turn_stop (k : nat) (before : T) : option (outcome T) :=
  let '(value, done, err) := condition k in
  match ctx_Err ctx (3 * k) with
  | Some e => Some (Returns before (Some e) k)
  | None =>
      match ctx_Err ctx (3 * k + 1), err with
      | Some e, _ | None, Some e => Some (Returns value (Some e) (S k))
      | None, None =>
          if done then Some (Returns value None (S k))
          else match wait k (3 * k + 2) with
               | Some e => Some (Returns value (Some e) (S k))
               | None => None
               end
      end
  end.

(** The latest value before turn [k]. *)
Definition latest (zero : T) (k : nat) : T :=
  match k with 0%nat => zero | S j => fst (fst (condition j)) end.

Lemma untilValue_loop_S fuel k value :
  untilValue_loop (S fuel) k value =
  match turn_stop k value with
  | Some r => Some r
  | None => untilValue_loop fuel (S k) (fst (fst (condition k)))
  end.
Proof.
  cbn [untilValue_loop]. unfold turn_stop. destruct (condition k) as [[v d] e].
  destruct (ctx_Err ctx (3 * k)); [done|]. destruct (ctx_Err ctx (3 * k + 1)); [done|].
  destruct e; [done|]. destruct d; [done|]. by destruct (wait k (3 * k + 2)).
Qed.

Lemma untilValue_loop_stops fuel k j zero r :
  (forall i, k <= i < k + j -> turn_stop i (latest zero i) = None)%nat ->
  turn_stop (k + j) (latest zero (k + j)) = Some r -> (j < fuel)%nat ->
  untilValue_loop fuel k (latest zero k) = Some r.
Proof.
  revert fuel k. induction j as [|j IH]; intros fuel k Hi Hr Hf;
    (destruct fuel as [|fuel]; [lia|]); rewrite untilValue_loop_S.
  - rewrite Nat.add_0_r in Hr. by rewrite Hr.
  - rewrite Hi by lia. apply (IH fuel (S k)).
    + intros i Hk. apply Hi. lia.
    + by rewrite Nat.add_succ_comm.
    + lia.
Qed.
End Poll.

(** [Until] polls for the empty struct, [UntilValue] hands its condition on.
    Both panic on a nil condition. *)
Definition Until (condition : option (nat -> bool * option error)) (ctx : context)
    (timer_first : nat -> bool) (fuel : nat) (interval : Z) : option (outcome unit) :=
  match condition with
  | None => Some (Panics "poll: nil condition")
  | Some c => untilValue (fun k => (tt, fst (c k), snd (c k))) ctx timer_first fuel tt interval
  end.

Definition UntilValue {T} (condition : option (nat -> T * bool * option error)) (ctx : context)
    (timer_first : nat -> bool) (fuel : nat) (zero : T) (interval : Z) : option (outcome T) :=
  match condition with
  | None => Some (Panics "poll: nil condition")
  | Some c => untilValue c ctx timer_first fuel zero interval
  end.

(** If the first turn that completes, fails or sees the context done is
    turn [j], [UntilValue] returns with what that turn says, whatever fuel
    above [j]: it calls the condition once per earlier turn, returns the latest
    value (the zero value if the condition never ran), the context's error in
    preference to the condition's, and nil only when the condition reported
    completion under an open context. *)
Theorem UntilValue_outcome {T} (condition : nat -> T * bool * option error) ctx timer_first
    zero interval j r fuel :
  0 < interval ->
  (forall i, i < j -> turn_stop condition ctx timer_first i (latest condition zero i) = None)%nat ->
  turn_stop condition ctx timer_first j (latest condition zero j) = Some r -> (j < fuel)%nat ->
  UntilValue (Some condition) ctx timer_first fuel zero interval = Some r /\
  exists v e calls, r = Returns v e calls /\ v = latest condition zero calls /\
    (calls = j \/ calls = S j) /\
    (forall err, (ctx_Err ctx (3 * j) = Some err \/
       ctx_Err ctx (3 * j) = None /\ ctx_Err ctx (3 * j + 1) = Some err) -> e = Some err) /\
    (e = None -> calls = S j /\ snd (fst (condition j)) = true /\ snd (condition j) = None /\
       ctx_Err ctx (3 * j + 1) = None).
Proof.
  intros Hint Hi Hr Hf. unfold UntilValue, untilValue. destruct (Z.leb_spec interval 0); [lia|].
  split; [apply (untilValue_loop_stops condition ctx timer_first fuel 0 j zero r);
          [intros i ?; apply Hi; lia|done|done]|].
  unfold turn_stop in Hr. destruct (condition j) as [[v d] e] eqn:Ec.
  destruct (ctx_Err ctx (3 * j)) as [err|] eqn:E0.
  { simplify_eq. do 3 eexists. split_and!; [done|done|by left| |done]. intros ? [?|[? ?]]; congruence. }
  assert (Hv : v = latest condition zero (S j)) by (simpl; by rewrite Ec).
  destruct (ctx_Err ctx (3 * j + 1)) as [err|] eqn:E1.
  { simplify_eq. do 3 eexists. split_and!; [done|done|by right| |done]. intros ? [?|[? ?]]; congruence. }
  destruct e as [err|];
    [|destruct d; [|destruct (wait _ _ _ _) as [err|] eqn:Ew; [|done]]]; simplify_eq; do 3 eexists;
    (split_and!; [done|done|by right|intros ? [?|[? ?]]; congruence|done]).
Qed.

Lemma UntilValue_outcome_witness :
  UntilValue (Some (fun k => (k, Nat.eqb k 2, None))) Background (fun _ => true) 10 7%nat 5
  = Some (Returns 2%nat None 3).
Proof.
  apply (UntilValue_outcome (fun k => (k, Nat.eqb k 2, None)) Background (fun _ => true) 7%nat 5 2
    (Returns 2%nat None 3) 10); [lia| |reflexivity|lia].
  intros i Hi. destruct i as [|[|i]]; [reflexivity..|lia].
Defined.
