(* ===== verification/Slices.v ===== *)
(** * Generic slice helpers: [src/slices]

    A slice is the list of its elements; a nil and an empty slice are the same
    list.  A function that appends in a loop is a left fold over what it ranges
    over, a loop that returns early is a recursion on the remaining elements or
    on the descending index.  Elements used as map keys are comparable with
    themselves (no NaN), as [EqDecision] and [Countable] say. *)

From S2P Require Import Prelude.
From stdpp Require Import options.
Set Default Proof Using "Type*".

(** ** Loops *)

(** [for i, item := range s { acc = f(acc, i, item) }] from index [i]. *)
Fixpoint range_from {A E} (f : A -> nat -> E -> A) (i : nat) (acc : A) (s : list E) : A :=
  match s with
  | [] => acc
  | x :: s => range_from f (S i) (f acc i x) s
  end.

Definition range {A E} (f : A -> nat -> E -> A) (acc : A) (s : list E) : A := range_from f 0 acc s.

(** ** Mapping and folding *)

Section Mapping.
Context {E R : Type}.

Definition Map (s : list E) (fn : E -> R) : list R :=
  foldl (fun result item => result ++ [fn item]) [] s.

Definition MapN (s : list E) (fn : E -> nat -> R) : list R :=
  range (fun result i item => result ++ [fn item i]) [] s.

Definition FlatMap (s : list E) (fn : E -> list R) : list R :=
  foldl (fun result item => result ++ fn item) [] s.

Definition KeyBy `{Countable K} (s : list E) (fn : E -> K) : gmap K E :=
  foldl (fun result item => <[fn item := item]> result) ∅ s.

Definition KeyByN `{Countable K} (s : list E) (fn : E -> nat -> K) : gmap K E :=
  range (fun result i item => <[fn item i := item]> result) ∅ s.

Definition KeyMap `{Countable K} (s : list E) (fn : E -> nat -> K * R) : gmap K R :=
  range (fun result i item => let '(key, value) := fn item i in <[key := value]> result) ∅ s.

(** [Each] and [EachN] run [fn] for its effect on a state. *)
Definition Each (s : list E) (fn : E -> R -> R) (st : R) : R := foldl (fun st item => fn item st) st s.
Definition EachN (s : list E) (fn : E -> nat -> R -> R) (st : R) : R :=
  range (fun st i item => fn item i st) st s.

(** [defaults ...R]: only the first one counts. *)
Definition Reduce (zero : R) (s : list E) (fn : R -> E -> R) (defaults : list R) : R :=
  let result := match defaults with d :: _ => d | [] => zero end in
  foldl fn result s.

Definition ReduceN (zero : R) (s : list E) (fn : R -> E -> nat -> R) (defaults : list R) : R :=
  let result := match defaults with d :: _ => d | [] => zero end in
  range (fun result i item => fn result item i) result s.
End Mapping.

(** ** Building slices *)

Section Building.
Context {E : Type}.

Definition Prepend (s items : list E) : list E := items ++ s.
Definition Append (s items : list E) : list E := s ++ items.

(** [for i := 0; i < len(s); i++ { result[i] = s[len(s)-1-i] }] on a fresh slice. *)
Fixpoint reverse_loop (n i : nat) (s result : list E) : list E :=
  match n with
  | 0 => result
  | S n =>
      let result := match s !! (length s - 1 - i) with Some x => <[i := x]> result | None => result end in
      reverse_loop n (S i) s result
  end.

Definition Reverse (zero : E) (s : list E) : list E :=
  reverse_loop (length s) 0 s (replicate (length s) zero).

Definition Concat (slices : list (list E)) : list E :=
  foldl (fun result slice => result ++ slice) [] slices.

Definition IsEmpty (s : list E) : bool := Nat.eqb (length s) 0.
Definition IsNotEmpty (s : list E) : bool := Nat.ltb 0 (length s).

(** [for i := range s { s[i] = value }]. *)
Definition Fill (s : list E) (value : E) : list E :=
  range (fun s i _ => <[i := value]> s) s s.

(** The loop of [Chunk] over the index [i], which advances by [size]; on
    machine integers [i+size] is computed with wrap-around. *)
Fixpoint chunk_loop (fuel : nat) (s : list E) (size i : Z) (result : list (list E))
    : option (list (list E)) :=
  match fuel with
  | 0 => None
  | S fuel =>
      let length := Z.of_nat (length s) in
      if (i <? length)%Z then
        let end_ := Z.min (wrap64 (i + size)) length in
        if (i <=? end_)%Z then
          chunk_loop fuel s size (wrap64 (i + size))
            (result ++ [take (Z.to_nat end_ - Z.to_nat i) (drop (Z.to_nat i) s)])
        else None (* s[i:end] panics *)
      else Some result
  end.

Definition Chunk (s : list E) (size : Z) : option (list (list E)) :=
  if (size <=? 0)%Z then Some []
  else chunk_loop (S (length s)) s size 0 [].

Definition Random (zero : E) (rnd : nat -> nat) (s : list E) : E :=
  match s with
  | [] => zero
  | _ => default zero (s !! rnd (length s))
  end.

Definition swap (i j : nat) (l : list E) : list E :=
  match l !! i, l !! j with
  | Some a, Some b => <[j := a]> (<[i := b]> l)
  | _, _ => l
  end.

(** [rand.Shuffle(n, swap)] of [math/rand/v2] swaps [i] with a draw in [0..i],
    for [i] from [n-1] down to 1. *)
Fixpoint shuffle_loop (rnd : nat -> nat) (i : nat) (l : list E) : list E :=
  match i with
  | 0 => l
  | S i' => shuffle_loop rnd i' (swap i (rnd (S i)) l)
  end.

Definition Shuffle (rnd : nat -> nat) (s : list E) : list E :=
  shuffle_loop rnd (length s - 1) s.

Definition Length (s : list E) : nat := length s.

(** [zero, false] is [None]. *)
Definition First (s : list E) : option E := s !! 0.
Definition Last (s : list E) : option E :=
  if Nat.eqb (length s) 0 then None else s !! (length s - 1).
End Building.

(** ** Selecting *)

Section Selecting.
Context {E : Type}.

Definition Filter (s : list E) (fn : E -> bool) : list E :=
  foldl (fun result item => if fn item then result ++ [item] else result) [] s.

Definition FilterN (s : list E) (fn : E -> nat -> bool) : list E :=
  range (fun result i item => if fn item i then result ++ [item] else result) [] s.

Fixpoint Any (s : list E) (fn : E -> bool) : bool :=
  match s with
  | [] => false
  | item :: s => if fn item then true else Any s fn
  end.

Fixpoint Every (s : list E) (fn : E -> bool) : bool :=
  match s with
  | [] => true
  | item :: s => if negb (fn item) then false else Every s fn
  end.

Definition Partition (s : list E) (fn : E -> bool) : list E * list E :=
  foldl (fun '(yes, no) item => if fn item then (yes ++ [item], no) else (yes, no ++ [item]))
    ([], []) s.

Definition PartitionN (s : list E) (fn : E -> nat -> bool) : list E * list E :=
  range (fun '(yes, no) i item => if fn item i then (yes ++ [item], no) else (yes, no ++ [item]))
    ([], []) s.

Context `{Countable E}.

Definition indexSet (s : list E) : gset E := foldl (fun result item => {[item]} ∪ result) ∅ s.

Fixpoint Contains (s : list E) (e : E) : bool :=
  match s with
  | [] => false
  | item :: s => if decide (item = e) then true else Contains s e
  end.

Definition Difference (s1 s2 : list E) : list E :=
  if Nat.eqb (length s1) 0 then []
  else if Nat.eqb (length s2) 0 then s1
  else
    let excluded := indexSet s2 in
    foldl (fun result item => if decide (item ∈ excluded) then result else result ++ [item]) [] s1.

Definition Intersect (s1 s2 : list E) : list E :=
  if Nat.eqb (length s1) 0 || Nat.eqb (length s2) 0 then []
  else
    let included := indexSet s2 in
    foldl (fun result item => if decide (item ∈ included) then result ++ [item] else result) [] s1.

Definition Only (s items : list E) : list E :=
  if Nat.eqb (length s) 0 || Nat.eqb (length items) 0 then []
  else
    let included := indexSet items in
    foldl (fun result item => if decide (item ∈ included) then result ++ [item] else result) [] s.

Definition Without (s items : list E) : list E :=
  if Nat.eqb (length s) 0 then []
  else if Nat.eqb (length items) 0 then s
  else
    let excluded := indexSet items in
    foldl (fun result item => if decide (item ∈ excluded) then result else result ++ [item]) [] s.

Definition Remove (s items : list E) : list E := Without s items.

Definition Unique (s : list E) : list E :=
  snd (foldl (fun '(seeds, result) item =>
                if decide (item ∈ seeds) then (seeds, result)
                else ({[item]} ∪ seeds, result ++ [item])) ((∅ : gset E), []) s).
End Selecting.

(** ** Grouping *)

Section Grouping.
Context {E : Type} `{Countable K}.

Definition UniqueBy (s : list E) (fn : E -> K) : list E :=
  snd (foldl (fun '(seeds, result) item =>
                let key := fn item in
                if decide (key ∈ seeds) then (seeds, result)
                else ({[key]} ∪ seeds, result ++ [item])) ((∅ : gset K), []) s).

Definition UniqueByN (s : list E) (fn : E -> nat -> K) : list E :=
  snd (range (fun '(seeds, result) i item =>
                let key := fn item i in
                if decide (key ∈ seeds) then (seeds, result)
                else ({[key]} ∪ seeds, result ++ [item])) ((∅ : gset K), []) s).

(** [append(result[key], item)] of a missing key appends to nil. *)
Definition GroupBy (s : list E) (fn : E -> K) : gmap K (list E) :=
  foldl (fun result item =>
           let key := fn item in <[key := default [] (result !! key) ++ [item]]> result) ∅ s.

Definition GroupByN (s : list E) (fn : E -> nat -> K) : gmap K (list E) :=
  range (fun result i item =>
           let key := fn item i in <[key := default [] (result !! key) ++ [item]]> result) ∅ s.

Definition CountBy (s : list E) (fn : E -> K) : gmap K nat :=
  foldl (fun result item =>
           let key := fn item in <[key := S (default 0 (result !! key))]> result) ∅ s.

Definition CountByN (s : list E) (fn : E -> nat -> K) : gmap K nat :=
  range (fun result i item =>
           let key := fn item i in <[key := S (default 0 (result !! key))]> result) ∅ s.
End Grouping.

(** ** Searching

    [(zero, false)] and [(-1, false)] are [None]. *)

Section Searching.
Context {E : Type}.

Fixpoint Find (s : list E) (fn : E -> bool) : option E :=
  match s with
  | [] => None
  | item :: s => if fn item then Some item else Find s fn
  end.

Fixpoint FindN_loop (i : nat) (s : list E) (fn : E -> nat -> bool) : option E :=
  match s with
  | [] => None
  | item :: s => if fn item i then Some item else FindN_loop (S i) s fn
  end.
Definition FindN (s : list E) (fn : E -> nat -> bool) : option E := FindN_loop 0 s fn.

(** [for i := len(s) - 1; i >= 0; i--], with [i+1] items left to look at. *)
Fixpoint FindLastN_loop (i : nat) (s : list E) (fn : E -> nat -> bool) : option E :=
  match i with
  | 0 => None
  | S i =>
      match s !! i with
      | Some item => if fn item i then Some item else FindLastN_loop i s fn
      | None => None
      end
  end.
Definition FindLastN (s : list E) (fn : E -> nat -> bool) : option E :=
  FindLastN_loop (length s) s fn.
Definition FindLast (s : list E) (fn : E -> bool) : option E :=
  FindLastN_loop (length s) s (fun item _ => fn item).

Fixpoint IndexN_loop (i : nat) (s : list E) (fn : E -> nat -> bool) : option nat :=
  match s with
  | [] => None
  | item :: s => if fn item i then Some i else IndexN_loop (S i) s fn
  end.
Definition IndexN (s : list E) (fn : E -> nat -> bool) : option nat := IndexN_loop 0 s fn.
Definition Index (s : list E) (fn : E -> bool) : option nat := IndexN_loop 0 s (fun item _ => fn item).

Fixpoint LastIndexN_loop (i : nat) (s : list E) (fn : E -> nat -> bool) : option nat :=
  match i with
  | 0 => None
  | S i =>
      match s !! i with
      | Some item => if fn item i then Some i else LastIndexN_loop i s fn
      | None => None
      end
  end.
Definition LastIndexN (s : list E) (fn : E -> nat -> bool) : option nat :=
  LastIndexN_loop (length s) s fn.
Definition LastIndex (s : list E) (fn : E -> bool) : option nat :=
  LastIndexN_loop (length s) s (fun item _ => fn item).

Context `{EqDecision E}.

Definition IndexOf (s : list E) (e : E) : option nat :=
  IndexN_loop 0 s (fun item _ => bool_decide (item = e)).
Definition LastIndexOf (s : list E) (e : E) : option nat :=
  LastIndexN_loop (length s) s (fun item _ => bool_decide (item = e)).
End Searching.

(** ** Ordered and numeric elements *)

Section Ordered.
Context {E : Type} (zero : E) (lt : E -> E -> bool).

Definition Min (s : list E) : E :=
  match s with
  | [] => zero
  | x :: _ => foldl (fun m item => if lt item m then item else m) x s
  end.

Definition Max (s : list E) : E :=
  match s with
  | [] => zero
  | x :: _ => foldl (fun m item => if lt m item then item else m) x s
  end.
End Ordered.

(** [Sum] at [int64]. *)
Definition Sum (s : list Z) : Z := foldl (fun sum item => wrap64 (sum + item)) 0%Z s.

(** ** Loops as folds *)

Lemma range_from_imap {A E} (f : A -> nat -> E -> A) i acc s :
  range_from f i acc s = foldl (fun a '(j, x) => f a j x) acc (imap (fun j x => (i + j, x)) s).
Proof.
  revert i acc. induction s as [|x s IH]; intros i acc; simpl; [done|].
  rewrite IH, Nat.add_0_r. f_equal. apply imap_ext. intros; simpl; f_equal; lia.
Qed.

(** The items with their indices, as a range loop sees them. *)
Definition indexed {E} (s : list E) : list (nat * E) := imap pair s.

Lemma range_indexed {A E} (f : A -> nat -> E -> A) acc s :
  range f acc s = foldl (fun a '(j, x) => f a j x) acc (indexed s).
Proof. apply range_from_imap. Qed.

(** A loop that ignores the index is a fold. *)
Lemma range_const {A E} (f : A -> E -> A) acc s :
  range (fun a _ x => f a x) acc s = foldl f acc s.
Proof. unfold range. generalize 0. revert acc. induction s; intros; simpl; auto. Qed.

Lemma foldl_map {A B C} (f : A -> C -> A) (g : B -> C) (l : list B) acc :
  foldl (fun a x => f a (g x)) acc l = foldl f acc (g <$> l).
Proof. revert acc. induction l; intros; simpl; auto. Qed.

Lemma foldl_filter {E} (P : E -> Prop) `{forall x, Decision (P x)} (l acc : list E) :
  foldl (fun r x => if decide (P x) then r ++ [x] else r) acc l = acc ++ filter P l.
Proof.
  revert acc. induction l as [|x l IH]; intros acc; simpl; [by rewrite app_nil_r|].
  rewrite IH, filter_cons. destruct (decide (P x)); [by rewrite <- (assoc_L (++))|done].
Qed.

Lemma foldl_filter_not {E} (P : E -> Prop) `{forall x, Decision (P x)} (l acc : list E) :
  foldl (fun r x => if decide (P x) then r else r ++ [x]) acc l = acc ++ filter (fun x => ~ P x) l.
Proof.
  revert acc. induction l as [|x l IH]; intros acc; simpl; [by rewrite app_nil_r|].
  rewrite IH, filter_cons.
  destruct (decide (P x)), (decide (~ P x)); try done. by rewrite <- (assoc_L (++)).
Qed.

Lemma elem_of_indexSet `{Countable E} (s : list E) x : x ∈ indexSet s <-> x ∈ s.
Proof.
  unfold indexSet. enough (forall acc, x ∈ foldl (fun r y => {[y]} ∪ r) acc s <-> x ∈ acc \/ x ∈ s)
    as Hx by (rewrite Hx; rewrite elem_of_empty; tauto).
  induction s as [|y s IH]; intros acc; simpl; [rewrite elem_of_nil; tauto|].
  rewrite IH, elem_of_union, elem_of_singleton, elem_of_cons. tauto.
Qed.

(** ** Selection *)

Section Selection.
Context `{Countable E}.
Implicit Types s : list E.

Lemma filter_none s (P : E -> Prop) `{forall x, Decision (P x)} :
  (forall x, ~ P x) -> filter P s = [].
Proof. intros Hn. induction s as [|x s IH]; [done|]. rewrite filter_cons_False; auto. Qed.

Lemma filter_everything s (P : E -> Prop) `{forall x, Decision (P x)} :
  (forall x, P x) -> filter P s = s.
Proof. intros Hn. induction s as [|x s IH]; [done|]. rewrite filter_cons_True, IH; auto. Qed.

Lemma Difference_filter s1 s2 : Difference s1 s2 = filter (fun x => x ∉ s2) s1.
Proof.
  unfold Difference. destruct s1 as [|x s1]; [done|]. cbn [length Nat.eqb].
  destruct s2 as [|y s2]; cbn [length Nat.eqb].
  { by rewrite filter_everything by (intros z; apply not_elem_of_nil). }
  rewrite foldl_filter_not. simpl. apply list_filter_iff. intros z. by rewrite elem_of_indexSet.
Qed.

Lemma Intersect_filter s1 s2 : Intersect s1 s2 = filter (fun x => x ∈ s2) s1.
Proof.
  unfold Intersect. destruct s1 as [|x s1]; [done|]. cbn [length Nat.eqb orb].
  destruct s2 as [|y s2]; cbn [length Nat.eqb].
  { by rewrite filter_none by (intros z; apply not_elem_of_nil). }
  rewrite foldl_filter. simpl. apply list_filter_iff. intros z. by rewrite elem_of_indexSet.
Qed.

Lemma Filter_filter s (fn : E -> bool) : Filter s fn = filter (fun x => fn x = true) s.
Proof.
  unfold Filter.
  enough (forall acc, foldl (fun r x => if fn x then r ++ [x] else r) acc s
            = acc ++ filter (fun x => fn x = true) s) as Hg by apply Hg.
  induction s as [|x s IH]; intros acc; simpl; [by rewrite app_nil_r|].
  rewrite IH, filter_cons. destruct (fn x) eqn:Ex.
  - rewrite decide_True by done. by rewrite <- (assoc_L (++)).
  - by rewrite decide_False.
Qed.

Lemma Partition_filter s (fn : E -> bool) :
  Partition s fn = (filter (fun x => fn x = true) s, filter (fun x => fn x = false) s).
Proof.
  unfold Partition.
  enough (forall y n, foldl (fun '(yes, no) item => if fn item then (yes ++ [item], no) else (yes, no ++ [item]))
     (y, n) s = (y ++ filter (fun x => fn x = true) s, n ++ filter (fun x => fn x = false) s)) as Hg by apply Hg.
  induction s as [|x s IH]; intros y n; simpl; [by rewrite !app_nil_r|].
  rewrite !filter_cons. destruct (fn x) eqn:Ex; rewrite IH.
  - rewrite decide_True, decide_False by done. by rewrite <- (assoc_L (++)).
  - rewrite decide_False, decide_True by done. by rewrite <- (assoc_L (++)).
Qed.
End Selection.

(** The set-like selections keep exactly the items they promise, in the
    order and with the multiplicity of the first slice, whichever shortcut is
    taken: [Difference], [Without] and [Remove] drop the listed items,
    [Intersect] and [Only] keep them, and [Partition] splits by the predicate
    without losing an item. *)
Theorem selection_spec `{Countable E} (s t : list E) (fn : E -> bool) :
  Difference s t = filter (fun x => x ∉ t) s /\ Without s t = filter (fun x => x ∉ t) s /\
  Remove s t = filter (fun x => x ∉ t) s /\
  Intersect s t = filter (fun x => x ∈ t) s /\ Only s t = filter (fun x => x ∈ t) s /\
  Partition s fn = (Filter s fn, Filter s (fun x => negb (fn x))) /\
  (fst (Partition s fn) ++ snd (Partition s fn)) ≡ₚ s.
Proof.
  split_and!; [apply Difference_filter|apply Difference_filter|apply Difference_filter|
    apply Intersect_filter|apply Intersect_filter|..].
  - rewrite Partition_filter, !Filter_filter. f_equal.
    apply list_filter_iff. intros x. by destruct (fn x).
  - rewrite Partition_filter. simpl. induction s as [|x s IH]; [done|].
    rewrite !filter_cons. destruct (fn x); simpl; [by rewrite IH|].
    rewrite <- Permutation_middle. by rewrite IH.
Qed.

(** ** Keys *)

Section Keyed.
Context {E : Type} `{Countable K}.
Implicit Types l : list (K * E).

(** The items with the keys a loop computes for them. *)
Definition keyed (s : list E) (fn : E -> nat -> K) : list (K * E) := imap (fun i x => (fn x i, x)) s.

Lemma range_keyed {A} (f : A -> K -> E -> A) (fn : E -> nat -> K) acc s :
  range (fun a i x => f a (fn x i) x) acc s = foldl (fun a p => f a p.1 p.2) acc (keyed s fn).
Proof.
  rewrite range_indexed. unfold keyed.
  assert (Hk : imap (fun i x => (fn x i, x)) s = (fun p : nat * E => (fn p.2 p.1, p.2)) <$> indexed s)
    by (unfold indexed; by rewrite fmap_imap).
  rewrite Hk, <- foldl_map. clear Hk.
  generalize (indexed s). intros l. revert acc.
  induction l as [|[] l IH]; intros acc; simpl; auto.
Qed.

Definition unique_step (st : gset K * list E) (p : K * E) : gset K * list E :=
  if decide (p.1 ∈ st.1) then st else ({[p.1]} ∪ st.1, st.2 ++ [p.2]).

(** [p] is the first item of [l] with its key. *)
Definition first_with_key l (p : K * E) : Prop :=
  exists i, l !! i = Some p /\ forall j q, j < i -> l !! j = Some q -> q.1 <> p.1.

Lemma first_with_key_app l l' p : first_with_key l p -> first_with_key (l ++ l') p.
Proof.
  intros (i & Hi & Hj). exists i. split; [by apply lookup_app_l_Some|].
  intros j q Hji Hq. apply (Hj j q Hji). rewrite lookup_app_l in Hq; [done|].
  apply lookup_lt_Some in Hi. lia.
Qed.

Lemma unique_fold l :
  exists kl, (foldl unique_step (∅, []) l).2 = kl.*2 /\
    (forall k, k ∈ (foldl unique_step (∅, []) l).1 <-> k ∈ l.*1) /\
    kl `sublist_of` l /\ NoDup kl.*1 /\ (forall k, k ∈ kl.*1 <-> k ∈ l.*1) /\
    Forall (first_with_key l) kl.
Proof.
  induction l as [|[k x] l (kl & Hr & Hs & Hsub & Hnd & Hk & Hf)] using rev_ind.
  { exists []. split_and!; try constructor; cbn [foldl fst fmap list_fmap];
      rewrite ?elem_of_empty, ?elem_of_nil; done. }
  rewrite foldl_snoc. unfold unique_step at 1 3. cbn [fst snd].
  assert (Hmono : Forall (first_with_key (l ++ [(k, x)])) kl)
    by (eapply Forall_impl; [done|]; apply first_with_key_app).
  destruct (decide (k ∈ _)) as [Hin|Hin].
  - exists kl. apply Hs in Hin. split_and!.
    + done.
    + intros k'. rewrite Hs, fmap_app, elem_of_app. simpl. rewrite list_elem_of_singleton.
      intuition congruence.
    + by apply sublist_inserts_r.
    + done.
    + intros k'. rewrite Hk, fmap_app, elem_of_app. simpl. rewrite list_elem_of_singleton.
      intuition congruence.
    + done.
  - exists (kl ++ [(k, x)]). rewrite Hs in Hin. split_and!.
    + by rewrite fmap_app, Hr.
    + intros k'. cbn [fst]. rewrite elem_of_union, elem_of_singleton, Hs, fmap_app, elem_of_app. simpl.
      rewrite list_elem_of_singleton. tauto.
    + by apply sublist_app.
    + rewrite fmap_app. apply NoDup_app. split_and!; [done| |apply NoDup_singleton].
      intros k' Hk'. simpl. rewrite list_elem_of_singleton. intros ->. by apply Hin, Hk.
    + intros k'. rewrite !fmap_app, !elem_of_app, Hk. done.
    + apply Forall_app. split; [done|]. constructor; [|constructor].
      exists (length l). split; [apply lookup_snoc_length|].
      intros j q Hj Hq Heq. apply Hin. rewrite lookup_app_l in Hq by done.
      apply list_elem_of_fmap. exists q. split; [done|]. by eapply list_elem_of_lookup_2.
Qed.

Lemma UniqueByN_fold s fn : UniqueByN s fn = (foldl unique_step (∅, []) (keyed s fn)).2.
Proof.
  unfold UniqueByN. f_equal. rewrite <- (range_keyed (fun st k x => unique_step st (k, x))).
  unfold range. generalize 0. generalize ((∅ : gset K), @nil E).
  induction s as [|x s IH]; intros [seeds r] i; simpl; [done|]. rewrite IH.
  unfold unique_step; simpl. by destruct (decide _).
Qed.

(** The values of [l] with key [k], in order. *)
Definition with_key l (k : K) : list E := (filter (fun p => p.1 = k) l).*2.

Lemma with_key_snoc l k x k' :
  with_key (l ++ [(k, x)]) k' = with_key l k' ++ (if decide (k = k') then [x] else []).
Proof.
  unfold with_key. rewrite filter_app, fmap_app. f_equal. destruct (decide (k = k')).
  - by rewrite filter_cons_True.
  - by rewrite filter_cons_False.
Qed.

Lemma group_fold l k :
  foldl (fun (r : gmap K (list E)) p => <[p.1 := default [] (r !! p.1) ++ [p.2]]> r) ∅ l !! k
  = match with_key l k with [] => None | g => Some g end.
Proof.
  revert k. induction l as [|[k x] l IH] using rev_ind; intros k'; [done|].
  rewrite foldl_snoc, with_key_snoc. simpl. destruct (decide (k = k')) as [->|Hne].
  - rewrite lookup_insert_eq, IH. by destruct (with_key l k').
  - by rewrite lookup_insert_ne, IH, app_nil_r.
Qed.

Lemma count_fold l k :
  foldl (fun (r : gmap K nat) p => <[p.1 := S (default 0 (r !! p.1))]> r) ∅ l !! k
  = match length (with_key l k) with 0 => None | n => Some n end.
Proof.
  revert k. induction l as [|[k x] l IH] using rev_ind; intros k'; [done|].
  rewrite foldl_snoc, with_key_snoc, length_app. simpl. destruct (decide (k = k')) as [->|Hne].
  - rewrite lookup_insert_eq, IH. cbn [length]. rewrite Nat.add_1_r.
    by destruct (length (with_key l k')).
  - by rewrite lookup_insert_ne, IH, Nat.add_0_r.
Qed.

Lemma keyby_fold l k :
  foldl (fun (r : gmap K E) p => <[p.1 := p.2]> r) ∅ l !! k = last (with_key l k).
Proof.
  revert k. induction l as [|[k x] l IH] using rev_ind; intros k'; [done|].
  rewrite foldl_snoc, with_key_snoc. simpl. destruct (decide (k = k')) as [->|Hne].
  - by rewrite lookup_insert_eq, last_snoc.
  - by rewrite lookup_insert_ne, IH, app_nil_r.
Qed.
End Keyed.

(** [UniqueByN] (and [UniqueBy], [Unique] through it) keeps a sub-sequence
    of the slice with one item per key: no key twice, no key lost, and each
    item kept is the first one with its key. *)
Theorem unique_spec {E} `{Countable K} (s : list E) (fn : E -> nat -> K) :
  (exists kl, UniqueByN s fn = kl.*2 /\ kl `sublist_of` keyed s fn /\ NoDup kl.*1 /\
    (forall k, k ∈ kl.*1 <-> k ∈ (keyed s fn).*1) /\ Forall (first_with_key (keyed s fn)) kl) /\
  (forall g : E -> K, UniqueBy s g = UniqueByN s (fun x _ => g x)) /\
  (forall t : list K, Unique t = UniqueByN t (fun x _ => x)).
Proof.
  split_and!.
  - rewrite UniqueByN_fold. destruct (unique_fold (keyed s fn)) as (kl & ? & ? & ?). by exists kl.
  - intros g. unfold UniqueBy, UniqueByN. f_equal. symmetry.
    rewrite <- range_const. unfold range. generalize 0. generalize ((∅ : gset K), @nil E).
    clear. induction s as [|x s IH]; intros [] i; simpl; auto.
  - intros t. unfold Unique, UniqueByN. f_equal. symmetry.
    rewrite <- range_const. unfold range. generalize 0. generalize ((∅ : gset K), @nil K).
    induction t as [|x t IH]; intros [] i; simpl; auto.
Qed.

(** Grouping is filtering by key: [GroupByN] maps a key to the items that
    have it, in order, [CountByN] to their number, [KeyByN] to the last of
    them, and none of the three has a key that no item has; the variants
    without the index agree. *)
Theorem grouping_spec {E} `{Countable K} (s : list E) (fn : E -> nat -> K) (k : K) :
  let g := with_key (keyed s fn) k in
  GroupByN s fn !! k = match g with [] => None | _ => Some g end /\
  CountByN s fn !! k = match g with [] => None | _ => Some (length g) end /\
  KeyByN s fn !! k = last g /\
  (forall h : E -> K, GroupBy s h = GroupByN s (fun x _ => h x) /\
     CountBy s h = CountByN s (fun x _ => h x) /\ KeyBy s h = KeyByN s (fun x _ => h x)).
Proof.
  intros g. split_and!.
  - unfold GroupByN. cbv zeta.
    rewrite (range_keyed (fun r k x => <[k := default [] (r !! k) ++ [x]]> r) fn), group_fold.
    fold g. by destruct g.
  - unfold CountByN. cbv zeta.
    rewrite (range_keyed (fun r k (x : E) => <[k := S (default 0 (r !! k))]> r) fn), count_fold.
    fold g. by destruct g.
  - unfold KeyByN. rewrite (range_keyed (fun r k x => <[k := x]> r) fn). apply keyby_fold.
  - intros h. unfold GroupBy, CountBy, KeyBy, GroupByN, CountByN, KeyByN.
    by rewrite !range_const.
Qed.

(** ** Chunks *)

Section Chunks.
Context {E : Type}.
Implicit Types s : list E.

(** The reference: cut [size] items off the front while there are any. *)
Fixpoint chunks (fuel size : nat) s : list (list E) :=
  match fuel, s with
  | S fuel, _ :: _ => take size s :: chunks fuel size (drop size s)
  | _, _ => []
  end.

Lemma chunk_loop_chunks fuel s size i result :
  (0 < size)%Z -> (Z.of_nat (length s) + size <= maxInt64)%Z -> length s - i < fuel ->
  (i <= length s \/ i < length s + Z.to_nat size) ->
  chunk_loop fuel s size (Z.of_nat i) result
  = Some (result ++ chunks fuel (Z.to_nat size) (drop i s)).
Proof.
  intros Hs Hl. revert i result. induction fuel as [|fuel IH]; intros i result Hf Hi; [lia|].
  cbn [chunk_loop]. cbv zeta. destruct (Z.ltb_spec (Z.of_nat i) (Z.of_nat (length s))).
  - rewrite wrap64_id by (int64_unfold; lia).
    destruct (Z.leb_spec (Z.of_nat i) (Z.min (Z.of_nat i + size) (Z.of_nat (length s)))); [|lia].
    replace (Z.of_nat i + size)%Z with (Z.of_nat (i + Z.to_nat size)) by lia.
    rewrite IH by lia. rewrite <- (assoc_L (++)), <- drop_drop. f_equal. f_equal.
    destruct (drop i s) as [|x t] eqn:Ed.
    { apply (f_equal length) in Ed. rewrite length_drop in Ed. simpl in Ed. lia. }
    cbn [chunks app]. f_equal. rewrite Nat2Z.id, <- Ed.
    destruct (decide (i + Z.to_nat size <= length s)).
    + f_equal. lia.
    + rewrite !take_ge; [done|rewrite length_drop; lia..].
  - rewrite drop_ge by lia. cbn [chunks]. by rewrite app_nil_r.
Qed.

Lemma chunks_spec fuel size s :
  0 < size -> length s <= fuel ->
  concat (chunks fuel size s) = s /\
  Forall (fun c => 1 <= length c <= size) (chunks fuel size s) /\
  (forall i c, chunks fuel size s !! i = Some c -> S i < length (chunks fuel size s) -> length c = size).
Proof.
  intros Hs. revert s. induction fuel as [|fuel IH]; intros s Hf.
  { destruct s; [|simpl in Hf; lia]. simpl. split_and!; [done|constructor|done]. }
  destruct s as [|x s]; [simpl; split_and!; [done|constructor|done]|].
  cbn [chunks]. destruct (IH (drop size (x :: s))) as (Hc & Ha & Hm).
  { rewrite length_drop. simpl in *. lia. }
  split_and!.
  - simpl concat. by rewrite Hc, take_drop.
  - constructor; [|done]. rewrite length_take. simpl. lia.
  - intros [|i] c Hi Hlt; simpl in Hi, Hlt; [|apply (Hm i); [done|lia]].
    simplify_eq. rewrite length_take. apply Nat.min_l.
    destruct (decide (size <= length (x :: s))) as [|Hn]; [done|]. exfalso.
    rewrite (drop_ge (x :: s)) in Hlt by lia. destruct fuel; simpl in Hlt; lia.
Qed.
End Chunks.

(** For a positive size, [Chunk] never slices out of range (the index
    arithmetic does not wrap) and cuts the slice into consecutive pieces whose
    concatenation is the slice, none empty or longer than [size] and all but
    the last exactly [size] long; for other sizes it returns nil. *)
Theorem Chunk_spec {E} (s : list E) (size : Z) :
  (Z.of_nat (length s) + size <= maxInt64)%Z ->
  exists cs, Chunk s size = Some cs /\
    ((size <= 0)%Z -> cs = []) /\
    ((0 < size)%Z -> concat cs = s /\ Forall (fun c => 1 <= length c <= Z.to_nat size) cs /\
       forall i c, cs !! i = Some c -> S i < length cs -> length c = Z.to_nat size).
Proof.
  intros Hl. unfold Chunk. destruct (Z.leb_spec size 0).
  { exists []. split_and!; [done|done|lia]. }
  change 0%Z with (Z.of_nat 0). rewrite chunk_loop_chunks by lia.
  eexists. split; [done|]. split; [lia|]. intros _. apply chunks_spec; [lia|].
  rewrite drop_0. lia.
Qed.

Lemma Chunk_spec_witness :
  exists cs, Chunk [1; 2; 3; 4; 5] 2 = Some cs /\ concat cs = [1; 2; 3; 4; 5] /\ length cs = 3.
Proof.
  destruct (Chunk_spec [1; 2; 3; 4; 5] 2 ltac:(int64_unfold; simpl; lia)) as (cs & Hc & _ & Hs).
  exists cs. split; [exact Hc|]. split; [apply Hs; lia|].
  revert Hc. vm_compute. by intros [= <-].
Defined.

(** ** Searches *)

Section Searches.
Context {E : Type}.
Implicit Types (s : list E) (fn : E -> nat -> bool).

(** [i] is a hit. *)
Definition hit s fn (i : nat) : Prop := exists x, s !! i = Some x /\ fn x i = true.

Lemma IndexN_loop_spec s fn k :
  match IndexN_loop k s fn with
  | Some i => exists j x, i = k + j /\ s !! j = Some x /\ fn x i = true /\
      forall j', j' < j -> ~ exists x, s !! j' = Some x /\ fn x (k + j') = true
  | None => forall j, ~ exists x, s !! j = Some x /\ fn x (k + j) = true
  end.
Proof.
  revert k. induction s as [|x s IH]; intros k; simpl.
  { intros j (y & Hy & _). by rewrite lookup_nil in Hy. }
  destruct (fn x k) eqn:Ex.
  { exists 0, x. rewrite Nat.add_0_r. split_and!; [done..|intros; lia]. }
  assert (H0 : ~ exists y, (x :: s) !! 0 = Some y /\ fn y (k + 0) = true).
  { intros (y & [= <-] & Hy). rewrite Nat.add_0_r in Hy. congruence. }
  specialize (IH (S k)). destruct (IndexN_loop (S k) s fn) as [i|].
  - destruct IH as (j & y & -> & Hy & Hfn & Hj). exists (S j), y.
    split_and!; [lia|done|done|]. intros [|j'] Hlt; [done|]. simpl.
    rewrite Nat.add_succ_r. apply Hj. lia.
  - intros [|j]; [done|]. simpl. rewrite Nat.add_succ_r. apply IH.
Qed.

Lemma IndexN_spec s fn :
  match IndexN s fn with
  | Some i => hit s fn i /\ forall j, j < i -> ~ hit s fn j
  | None => forall j, ~ hit s fn j
  end.
Proof.
  unfold IndexN, hit. pose proof (IndexN_loop_spec s fn 0) as H. simpl in H.
  destruct (IndexN_loop 0 s fn) as [i|]; [|done].
  destruct H as (j & x & -> & Hx & Hf & Hj). split; [by exists x|done].
Qed.

Lemma LastIndexN_loop_spec s fn k :
  k <= length s ->
  match LastIndexN_loop k s fn with
  | Some i => i < k /\ hit s fn i /\ forall j, i < j < k -> ~ hit s fn j
  | None => forall j, j < k -> ~ hit s fn j
  end.
Proof.
  induction k as [|k IH]; intros Hk; simpl; [intros; lia|].
  destruct (s !! k) as [x|] eqn:Ex; [|apply lookup_ge_None in Ex; lia].
  destruct (fn x k) eqn:Ef.
  { split_and!; [lia|by exists x|intros; lia]. }
  assert (Hk' : ~ hit s fn k) by (intros (y & Hy & Hf); congruence).
  specialize (IH ltac:(lia)). destruct (LastIndexN_loop k s fn) as [i|].
  - destruct IH as (? & ? & Hj). split_and!; [lia|done|]. intros j Hj'.
    destruct (decide (j = k)) as [->|]; [done|]. apply Hj. lia.
  - intros j Hj. destruct (decide (j = k)) as [->|]; [done|]. apply IH. lia.
Qed.

Lemma FindN_loop_IndexN s fn k :
  FindN_loop k s fn = i ← IndexN_loop k s fn; s !! (i - k).
Proof.
  revert k. induction s as [|x s IH]; intros k; simpl; [done|].
  destruct (fn x k); simpl; [by rewrite Nat.sub_diag|]. rewrite IH.
  pose proof (IndexN_loop_spec s fn (S k)) as Hs.
  destruct (IndexN_loop (S k) s fn) as [i|]; simpl; [|done].
  destruct Hs as (j & y & -> & _). replace (S k + j - k) with (S (S k + j - S k)) by lia. done.
Qed.

Lemma FindLastN_loop_LastIndexN s fn k :
  FindLastN_loop k s fn = i ← LastIndexN_loop k s fn; s !! i.
Proof.
  induction k as [|k IH]; simpl; [done|]. destruct (s !! k) as [x|] eqn:Ex; [|done].
  destruct (fn x k); simpl; [done|apply IH].
Qed.

Lemma LastIndexN_spec s fn :
  match LastIndexN s fn with
  | Some i => hit s fn i /\ forall j, i < j -> ~ hit s fn j
  | None => forall j, ~ hit s fn j
  end.
Proof.
  assert (Hout : forall j, hit s fn j -> j < length s) by (intros j (x & Hx & _); by eapply lookup_lt_Some).
  unfold LastIndexN. pose proof (LastIndexN_loop_spec s fn (length s) ltac:(lia)) as H.
  destruct (LastIndexN_loop _ s fn) as [i|].
  - destruct H as (? & ? & Hj). split; [done|]. intros j Hij Hh. pose proof (Hout j Hh).
    by apply (Hj j); [lia|].
  - intros j Hh. by apply (H j); [apply Hout|].
Qed.

Lemma Find_FindN s (g : E -> bool) k : Find s g = FindN_loop k s (fun x _ => g x).
Proof. revert k. induction s as [|x s IH]; intros k; simpl; [done|]. by destruct (g x). Qed.
End Searches.

(** The searches return the first, respectively the last, index that
    satisfies the predicate and nothing when there is none; the item searches
    return the item at that index; the variants without the index and
    [IndexOf]/[LastIndexOf] are instances. *)
Theorem search_spec `{EqDecision E} (s : list E) (fn : E -> nat -> bool) :
  (match IndexN s fn with
   | Some i => hit s fn i /\ forall j, j < i -> ~ hit s fn j
   | None => forall j, ~ hit s fn j
   end) /\
  (match LastIndexN s fn with
   | Some i => hit s fn i /\ forall j, i < j -> ~ hit s fn j
   | None => forall j, ~ hit s fn j
   end) /\
  FindN s fn = (i ← IndexN s fn; s !! i) /\ FindLastN s fn = (i ← LastIndexN s fn; s !! i) /\
  (forall g : E -> bool, let gn := fun x (_ : nat) => g x in
     Find s g = FindN s gn /\ FindLast s g = FindLastN s gn /\
     Index s g = IndexN s gn /\ LastIndex s g = LastIndexN s gn) /\
  (forall e, IndexOf s e = Index s (fun x => bool_decide (x = e)) /\
     LastIndexOf s e = LastIndex s (fun x => bool_decide (x = e))).
Proof.
  split_and!; [apply IndexN_spec|apply LastIndexN_spec|..].
  - unfold FindN, IndexN. rewrite FindN_loop_IndexN.
    destruct (IndexN_loop 0 s fn) as [i|]; simpl; [by rewrite Nat.sub_0_r|done].
  - apply FindLastN_loop_LastIndexN.
  - intros g gn. split_and!; [exact (Find_FindN s g 0)|done..].
  - intros e. done.
Qed.

(** ** Whole-slice results *)

Section Whole.
Context {E : Type}.

Lemma Map_fmap {R} (s : list E) (fn : E -> R) : Map s fn = fn <$> s.
Proof.
  unfold Map. rewrite (foldl_append (fun x => [fn x]) s []). cbn [app].
  induction s as [|x s IH]; [done|]. rewrite !fmap_cons. simpl. by rewrite IH.
Qed.

Lemma FlatMap_concat {R} (s : list E) (fn : E -> list R) : FlatMap s fn = concat (fn <$> s).
Proof. unfold FlatMap. by rewrite foldl_append. Qed.

Lemma Concat_concat (ss : list (list E)) : Concat ss = concat ss.
Proof.
  unfold Concat. rewrite (foldl_append (fun x : list E => x) ss []). simpl. by rewrite list_fmap_id.
Qed.

Lemma reverse_loop_lookup n i (s r : list E) j :
  i + n <= length s -> length r = length s ->
  reverse_loop n i s r !! j = if decide (i <= j < i + n) then reverse s !! j else r !! j.
Proof.
  revert i r. induction n as [|n IH]; intros i r Hi Hr; cbn [reverse_loop].
  { rewrite decide_False; [done|lia]. }
  destruct (lookup_lt_is_Some_2 s (length s - 1 - i)) as [x Hx]; [lia|]. rewrite Hx.
  rewrite IH by (rewrite ?length_insert; lia).
  destruct (decide (j = i)) as [->|Hne].
  - rewrite decide_False, decide_True by lia. rewrite list_lookup_insert_eq by lia.
    rewrite reverse_lookup by lia. rewrite <- Hx. f_equal. lia.
  - rewrite list_lookup_insert_ne by done. repeat case_decide; auto; lia.
Qed.

Lemma Reverse_reverse (zero : E) s : Reverse zero s = reverse s.
Proof.
  apply list_eq. intros j. unfold Reverse.
  rewrite reverse_loop_lookup; [|lia|by rewrite length_replicate].
  case_decide; [done|]. rewrite !lookup_ge_None_2; [done|rewrite ?length_reverse, ?length_replicate; lia..].
Qed.

Lemma swap_perm i j (l : list E) : swap i j l ≡ₚ l.
Proof. unfold swap. repeat case_match; try done. by apply Permutation_insert_swap. Qed.

Lemma shuffle_loop_perm rnd i (l : list E) : shuffle_loop rnd i l ≡ₚ l.
Proof. revert l. induction i as [|i IH]; intros l; simpl; [done|]. by rewrite IH, swap_perm. Qed.

Lemma Fill_replicate s (v : E) : Fill s v = replicate (length s) v.
Proof.
  unfold Fill, range.
  enough (forall pre t, range_from (fun s i _ => <[i := v]> s) (length pre) (pre ++ t) t
            = pre ++ replicate (length t) v) as Hg by exact (Hg [] s).
  intros pre t. revert pre. induction t as [|x t IH]; intros pre; simpl; [done|].
  rewrite insert_app_snoc. specialize (IH (pre ++ [v])). rewrite length_app, Nat.add_1_r in IH.
  rewrite <- !(assoc_L (++)) in IH. exact IH.
Qed.
End Whole.

Section Extremes.
Context {E : Type} (zero : E) (lt : E -> E -> bool).
(** [<] on the elements is a strict weak order. *)
Context (lt_asym : forall x y, lt x y = true -> lt y x = false)
  (lt_negtrans : forall x y z, lt x y = false -> lt y z = false -> lt x z = false).

Lemma lt_irrefl x : lt x x = false.
Proof. destruct (lt x x) eqn:Ex; [|done]. by rewrite <- Ex, lt_asym. Qed.

Lemma min_fold (s : list E) x :
  let m := foldl (fun m item => if lt item m then item else m) x s in
  m ∈ x :: s /\ Forall (fun y => lt y m = false) (x :: s).
Proof.
  revert x. induction s as [|y s IH]; intros x; cbn [foldl].
  { split; [by left|]. constructor; [apply lt_irrefl|constructor]. }
  destruct (lt y x) eqn:Ey.
  - destruct (IH y) as [Hin Hall]. split; [by right|].
    inversion Hall as [|?? Hy Hs]; subst. constructor; [|done]. by eapply lt_negtrans; [apply lt_asym|].
  - destruct (IH x) as [Hin Hall]. inversion Hall as [|?? Hy Hs]; subst. split.
    + apply elem_of_cons in Hin as [->|Hin]; [by left|by do 2 right].
    + constructor; [done|]. constructor; [|done]. by eapply lt_negtrans.
Qed.

Lemma Min_least s : s <> [] -> Min zero lt s ∈ s /\ Forall (fun y => lt y (Min zero lt s) = false) s.
Proof.
  destruct s as [|x s]; [done|]. intros _. cbn [Min]. destruct (min_fold (x :: s) x) as [Hin Hall].
  inversion Hall; subst. split; [|done]. apply elem_of_cons in Hin as [->|]; [by left|done].
Qed.
End Extremes.

Lemma Max_Min {E} (zero : E) lt s : Max zero lt s = Min zero (fun x y => lt y x) s.
Proof. done. Qed.

(** Whole-slice results: [Reverse] is reversal, [Shuffle] a permutation of
    its input whatever is drawn, [Fill] keeps the length and sets every item,
    [Concat] and [FlatMap] concatenate, and for an order on the elements [Min]
    and [Max] return an item of a non-empty slice that no item is below,
    respectively above. *)
Theorem whole_slice_spec {E} (zero : E) (lt : E -> E -> bool) (rnd : nat -> nat) (s : list E) (v : E) :
  (forall x y, lt x y = true -> lt y x = false) ->
  (forall x y z, lt x y = false -> lt y z = false -> lt x z = false) ->
  Reverse zero s = reverse s /\ Shuffle rnd s ≡ₚ s /\ Fill s v = replicate (length s) v /\
  (forall ss : list (list E), Concat ss = concat ss) /\
  (forall fn : E -> list E, FlatMap s fn = concat (Map s fn)) /\
  (s <> [] -> Min zero lt s ∈ s /\ Forall (fun y => lt y (Min zero lt s) = false) s /\
              Max zero lt s ∈ s /\ Forall (fun y => lt (Max zero lt s) y = false) s).
Proof.
  intros Ha Ht. split_and!; [apply Reverse_reverse|apply shuffle_loop_perm|apply Fill_replicate|
    apply Concat_concat|intros; by rewrite FlatMap_concat, Map_fmap|].
  intros Hs. destruct (Min_least zero lt Ha Ht s Hs). rewrite Max_Min.
  destruct (Min_least zero (fun x y => lt y x) (fun x y => Ha y x) (fun x y z H1 H2 => Ht _ _ _ H2 H1) s Hs).
  done.
Qed.

Lemma whole_slice_spec_witness :
  Min 0%Z Z.ltb [3; 1; 2]%Z ∈ [3; 1; 2]%Z /\ Shuffle (fun n => n / 2) [3; 1; 2]%Z ≡ₚ [3; 1; 2]%Z.
Proof.
  destruct (whole_slice_spec 0%Z Z.ltb (fun n => n / 2) [3; 1; 2]%Z 7%Z) as (_ & H1 & _ & _ & _ & H2).
  - intros x y. lia.
  - intros x y z. lia.
  - split; [apply H2; discriminate|exact H1].
Defined.

(** [Sum] at 64 bits is the exact sum reduced once. *)
Lemma Sum_wrap s : Sum s = wrap64 (foldr Z.add 0%Z s).
Proof.
  unfold Sum. enough (forall acc, wrap64 (foldl (fun a x => wrap64 (a + x)) (wrap64 acc) s)
    = wrap64 (acc + foldr Z.add 0 s))%Z as Hg.
  { specialize (Hg 0%Z). rewrite Z.add_0_l in Hg. rewrite <- Hg. 
    change (wrap64 0) with 0%Z. destruct s as [|x s] using rev_ind; [done|].
    rewrite foldl_snoc. symmetry. apply wrap64_id. apply wrap64_ok. }
  induction s as [|x s IH]; intros acc; simpl.
  - rewrite Z.add_0_r. apply wrap64_id, wrap64_ok.
  - replace (wrap64 (wrap64 acc + x)) with (wrap64 (acc + x)).
    + by rewrite IH, Z.add_assoc.
    + unfold wrap64. f_equal.
      replace ((acc + 9223372036854775808) mod 18446744073709551616 - 9223372036854775808 + x
               + 9223372036854775808)%Z
        with ((acc + 9223372036854775808) mod 18446744073709551616 + x)%Z by lia.
      rewrite Z.add_mod_idemp_l by lia. f_equal. lia.
Qed.
