(* ===== verification/Idempotency.v ===== *)
(** * Idempotent execution: [src/idempotency]

    The contract of a store of claims and results, and the executor built on
    it.  The executor is verified against the contract ([StoreLaws]); the
    in-process store discharges it in [IdempotencyMemory]. *)

From S2P Require Import Prelude GoErrors.
From Stdlib Require Import Ascii.
From stdpp Require Import options.
Set Default Proof Using "Type*".
Local Open Scope Z_scope.

(** ** [store.go] *)

(** Other values of the underlying [uint8], which a store must not return. *)
Inductive BeginStatus := BeginAcquired | BeginInProgress | BeginCompleted | BeginInvalid (code : Z).

#[export] Instance BeginStatus_eq_dec : EqDecision BeginStatus.
Proof. solve_decision. Defined.

Abbreviation bytes := (list ascii).

Record BeginRequest := mkBegin { bKey : string; bToken : string; bFingerprint : string; bTTL : Z }.
Record BeginResult := mkResult { Status : BeginStatus; bResult : bytes }.
Record CompleteRequest := mkComplete { cKey : string; cToken : string; cResult : bytes; cTTL : Z }.
Record AbortRequest := mkAbort { aKey : string; aToken : string }.

Definition ErrInvalidContext : error := ErrNew "idempotency: invalid context".
Definition ErrInvalidKey : error := ErrNew "idempotency: invalid key".
Definition ErrInProgress : error := ErrNew "idempotency: operation in progress".
Definition ErrKeyConflict : error := ErrNew "idempotency: key reused with different input".
Definition ErrClaimLost : error := ErrNew "idempotency: execution claim lost".

(** An operation gets its context, the check of it the store makes, and the
    time of the store's clock. *)
Class Store (S : Type) := {
  Begin : option context -> nat -> Z -> BeginRequest -> S -> S * (BeginResult + error);
  Complete : option context -> nat -> Z -> CompleteRequest -> S -> S * option error;
  Abort : option context -> nat -> Z -> AbortRequest -> S -> S * option error
}.

Definition validateContext (ctx : option context) (n : nat) : option error :=
  match ctx with
  | None => Some ErrInvalidContext
  | Some c => Cause c n
  end.

(** ** The contract

    A key is unused, claimed by a token, or completed with a result; claims and
    results end at their expiry. *)
Inductive cell :=
| Claimed (token fingerprint : string) (expiry : Z)
| Done (result : bytes) (fingerprint : string) (expiry : Z).

Definition expiry (c : cell) : Z := match c with Claimed _ _ e | Done _ _ e => e end.
Definition fingerprint_of (c : cell) : string := match c with Claimed _ f _ | Done _ f _ => f end.

(** What is left of a cell at time [t]. *)
Definition live (t : Z) (c : option cell) : option cell :=
  c ← c; if t <? expiry c then Some c else None.

(** A fingerprint contradicts the one of the record. *)
Definition conflicts (f : string) (c : cell) : bool :=
  bool_decide (f <> ""%string /\ f <> fingerprint_of c).

Arguments conflicts : simpl never.

Lemma live_again t t' c : t <= t' -> live t' (live t c) = live t' c.
Proof.
  intros Ht. unfold live. destruct c as [c|]; [|done]. simpl.
  destruct (Z.ltb_spec t (expiry c)); [done|]. simpl. by destruct (Z.ltb_spec t' (expiry c)); [lia|].
Qed.

(** [Begin] on the live cell of its key: the new cell and the answer.
    [until ttl] is the instant a lifetime of [ttl] that starts now ends. *)
Definition begin_spec (until : Z -> Z) (r : BeginRequest) (c : option cell)
    : option cell * (BeginResult + error) :=
  match c with
  | None => (Some (Claimed (bToken r) (bFingerprint r) (until (bTTL r))),
             inl (mkResult BeginAcquired []))
  | Some d =>
      if conflicts (bFingerprint r) d then (c, inr ErrKeyConflict)
      else match d with
           | Claimed _ _ _ => (c, inl (mkResult BeginInProgress []))
           | Done data _ _ => (c, inl (mkResult BeginCompleted data))
           end
  end.

Definition complete_spec (until : Z -> Z) (r : CompleteRequest) (c : option cell)
    : option cell * option error :=
  match c with
  | Some (Claimed token f _) =>
      if bool_decide (token = cToken r) then (Some (Done (cResult r) f (until (cTTL r))), None)
      else (c, Some ErrClaimLost)
  | _ => (c, Some ErrClaimLost)
  end.

Definition abort_spec (r : AbortRequest) (c : option cell) : option cell * option error :=
  match c with
  | Some (Claimed token _ _) =>
      if bool_decide (token = aToken r) then (None, None) else (c, Some ErrClaimLost)
  | _ => (c, Some ErrClaimLost)
  end.

(** [view s now] is what the store holds for each key at [now]; [inv s now]
    that the store is well-formed and was last used no later than [now];
    [deadline now ttl] is when a lifetime given at [now] ends on the store's
    clock. *)
Class StoreLaws (S : Type) `{Store S} := {
  inv : S -> Z -> Prop;
  view : S -> Z -> string -> option cell;
  deadline : Z -> Z -> Z;
  inv_mono s t t' : inv s t -> t <= t' -> inv s t';
  view_live s t k : live t (view s t k) = view s t k;
  view_mono s t t' k : inv s t -> t <= t' -> view s t' k = live t' (view s t k);
  begin_law ctx n now r s s' res :
    inv s now -> 0 < bTTL r -> Begin ctx n now r s = (s', res) ->
    inv s' now /\
    match validateContext ctx n with
    | Some err => s' = s /\ res = inr err
    | None => view s' now (bKey r) = fst (begin_spec (deadline now) r (view s now (bKey r))) /\
              res = snd (begin_spec (deadline now) r (view s now (bKey r))) /\
              (forall k, k <> bKey r -> view s' now k = view s now k)
    end;
  complete_law ctx n now r s s' res :
    inv s now -> 0 < cTTL r -> Complete ctx n now r s = (s', res) ->
    inv s' now /\
    match validateContext ctx n with
    | Some err => s' = s /\ res = Some err
    | None => view s' now (cKey r) = fst (complete_spec (deadline now) r (view s now (cKey r))) /\
              res = snd (complete_spec (deadline now) r (view s now (cKey r))) /\
              (forall k, k <> cKey r -> view s' now k = view s now k)
    end;
  abort_law ctx n now r s s' res :
    inv s now -> Abort ctx n now r s = (s', res) ->
    inv s' now /\
    match validateContext ctx n with
    | Some err => s' = s /\ res = Some err
    | None => view s' now (aKey r) = fst (abort_spec r (view s now (aKey r))) /\
              res = snd (abort_spec r (view s now (aKey r))) /\
              (forall k, k <> aKey r -> view s' now k = view s now k)
    end
}.

(** ** [config.go] *)

Record config := mkConfig { executionTTL : Z; resultTTL : Z; finalizationTimeout : Z }.
Record executeConfig := mkExecute { xExecutionTTL : Z; xResultTTL : Z; fingerprint : string }.

Definition defaultExecutionTTL : Z := 30 * Second.
Definition defaultResultTTL : Z := 24 * Hour.
Definition defaultFinalizationTimeout : Z := 5 * Second.

(** The options of the package; both TTL options configure an executor and a
    single call.  The codec is an argument of [DoValue]. *)
Inductive Option_ := WithFinalizationTimeout (timeout : Z) | WithExecutionTTL (ttl : Z) | WithResultTTL (ttl : Z).
Inductive ExecuteOption := XExecutionTTL (ttl : Z) | XResultTTL (ttl : Z) | WithFingerprint (f : string).

Definition apply (o : Option_) (c : config) : config :=
  match o with
  | WithFinalizationTimeout timeout =>
      if timeout >? 0 then mkConfig (executionTTL c) (resultTTL c) timeout else c
  | WithExecutionTTL ttl => if ttl >? 0 then mkConfig ttl (resultTTL c) (finalizationTimeout c) else c
  | WithResultTTL ttl => if ttl >? 0 then mkConfig (executionTTL c) ttl (finalizationTimeout c) else c
  end.

Definition applyExecute (o : ExecuteOption) (c : executeConfig) : executeConfig :=
  match o with
  | XExecutionTTL ttl => if ttl >? 0 then mkExecute ttl (xResultTTL c) (fingerprint c) else c
  | XResultTTL ttl => if ttl >? 0 then mkExecute (xExecutionTTL c) ttl (fingerprint c) else c
  | WithFingerprint f => mkExecute (xExecutionTTL c) (xResultTTL c) f
  end.

Definition newConfig (options : list (option Option_)) : config :=
  foldl (fun c o => match o with Some o => apply o c | None => c end)
    (mkConfig defaultExecutionTTL defaultResultTTL defaultFinalizationTimeout) options.

Definition newExecuteConfig (c : config) (options : list (option ExecuteOption)) : executeConfig :=
  foldl (fun c o => match o with Some o => applyExecute o c | None => c end)
    (mkExecute (executionTTL c) (resultTTL c) "") options.

(** ** [executor.go] *)

Record claim := mkClaim { clKey : string; clToken : string; clResultTTL : Z }.
Record beginResult := mkBeginResult { brClaim : claim; brResult : bytes; replayed : bool }.

Definition zeroClaim : claim := mkClaim "" "" 0.

(** What one call meets: the times the store's clock shows at [Begin] and at the
    final [Complete] or [Abort], whether the finalization context has timed out
    by then, and the random token (or the error of the random source). *)
Record run := mkRun { tBegin : Z; tFinal : Z; timedOut : bool; newTokenResult : string + error }.

Definition newToken (r : run) : string + error :=
  match newTokenResult r with
  | inl t => inl t
  | inr e => inr (ErrWrapf "idempotency: generate token" e)
  end.

(** Detached from the caller's cancellation; only its own timeout ends it. *)
Definition finalizationContext (ctx : context) (timed_out : bool) : context :=
  fun n => if timed_out then Some (mkDone DeadlineExceeded DeadlineExceeded)
           else WithoutCancel ctx n.

Definition validateExecution (ctx : option context) (key : string) : option error :=
  match ctx with
  | None => Some ErrInvalidContext
  | Some _ => if String.eqb key "" then Some ErrInvalidKey else None
  end.

Section Executor.
Context {S : Type} `{Store S}.

Definition complete (c : claim) (ctx : context) (r : run) (result : bytes) (s : S) : S * option error :=
  Complete (Some (finalizationContext ctx (timedOut r))) 0 (tFinal r)
    (mkComplete (clKey c) (clToken c) result (clResultTTL c)) s.

Definition abort (c : claim) (ctx : context) (r : run) (s : S) : S * option error :=
  Abort (Some (finalizationContext ctx (timedOut r))) 0 (tFinal r) (mkAbort (clKey c) (clToken c)) s.

(** [begin] checks the context at 0, the store at 1, [begin] again at 2. *)
Definition begin (cfg : config) (ctx : context) (key : string)
    (options : list (option ExecuteOption)) (r : run) (s : S) : S * (beginResult + error) :=
  match Cause ctx 0 with
  | Some err => (s, inr err)
  | None =>
      let execution := newExecuteConfig cfg options in
      match newToken r with
      | inr err => (s, inr err)
      | inl token =>
          let currentClaim := mkClaim key token (xResultTTL execution) in
          let '(s, result) :=
            Begin (Some ctx) 1 (tBegin r)
              (mkBegin key token (fingerprint execution) (xExecutionTTL execution)) s in
          match result with
          | inr err => (s, inr err)
          | inl result =>
              match Cause ctx 2 with
              | Some err =>
                  if decide (Status result = BeginAcquired) then
                    let '(s, aerr) := abort currentClaim ctx r s in
                    (s, inr (default err (errors_Join [Some err; aerr])))
                  else (s, inr err)
              | None =>
                  match Status result with
                  | BeginAcquired => (s, inl (mkBeginResult currentClaim [] false))
                  | BeginInProgress => (s, inr ErrInProgress)
                  | BeginCompleted => (s, inl (mkBeginResult zeroClaim (bResult result) true))
                  | BeginInvalid code => (s, inr (ErrMsg "idempotency: invalid begin status"))
                  end
              end
          end
      end
  end.

(** How a call ends: a panic, or its result and whether the handler ran. *)
Inductive outcome (R : Type) := Panic | Return (result : R) (err : option error) (ran : bool).
Arguments Panic {R}.
Arguments Return {R} result err ran.

(** [Executor.Do]; [handler] is what the handler returns if it is called, or
    [None] for a nil handler. *)
Definition Do (cfg : config) (ctx : option context) (key : string) (handler : option (option error))
    (options : list (option ExecuteOption)) (r : run) (s : S) : S * outcome unit :=
  match validateExecution ctx key, ctx with
  | Some err, _ => (s, Return tt (Some err) false)
  | None, None => (s, Panic) (* excluded by the validation *)
  | None, Some ctx =>
      match handler with
      | None => (s, Panic)
      | Some handler =>
          let '(s, b) := begin cfg ctx key options r s in
          match b with
          | inr err => (s, Return tt (Some err) false)
          | inl b =>
              if replayed b then (s, Return tt None false)
              else
                match handler with
                | Some err =>
                    let '(s, aerr) := abort (brClaim b) ctx r s in
                    (s, Return tt (errors_Join [Some err; aerr]) true)
                | None =>
                    let '(s, cerr) := complete (brClaim b) ctx r [] s in
                    (s, Return tt cerr true)
                end
          end
      end
  end.

(** ** [value.go] *)

Record Result (T : Type) := mkRes { Value : T; Replayed : bool }.
Arguments mkRes {T}.
Arguments Value {T}.
Arguments Replayed {T}.

Section Value.
Context {T : Type} (zero : T).
(** The codec of the executor, an interface of [src/codec]. *)
Variables (Marshal : T -> bytes + error) (Unmarshal : bytes -> T + error).

Definition decodeValue (data : bytes) : T + error := Unmarshal data.

Definition DoValue (cfg : config) (ctx : option context) (key : string)
    (handler : option (T * option error)) (options : list (option ExecuteOption)) (r : run) (s : S)
    : S * outcome (Result T) :=
  match validateExecution ctx key, ctx with
  | Some err, _ => (s, Return (mkRes zero false) (Some err) false)
  | None, None => (s, Panic)
  | None, Some ctx =>
      match handler with
      | None => (s, Panic)
      | Some (value, herr) =>
          let '(s, b) := begin cfg ctx key options r s in
          match b with
          | inr err => (s, Return (mkRes zero false) (Some err) false)
          | inl b =>
              if replayed b then
                match decodeValue (brResult b) with
                | inr err => (s, Return (mkRes zero true) (Some (ErrWrapf "idempotency: decode result" err)) false)
                | inl v => (s, Return (mkRes v true) None false)
                end
              else
                let result := mkRes value false in
                match herr with
                | Some err =>
                    let '(s, aerr) := abort (brClaim b) ctx r s in
                    (s, Return result (errors_Join [Some err; aerr]) true)
                | None =>
                    match Marshal value with
                    | inr err => (s, Return result (Some (ErrWrapf "idempotency: encode result" err)) true)
                    | inl encoded =>
                        let '(s, cerr) := complete (brClaim b) ctx r encoded s in
                        (s, Return result cerr true)
                    end
                end
          end
      end
  end.
End Value.
End Executor.

Arguments Panic {R}.
Arguments Return {R} result err ran.
Arguments mkRes {T}.
Arguments Value {T}.
Arguments Replayed {T}.

(** ** Sequences of store operations *)

Inductive op :=
| OBegin (ctx : option context) (n : nat) (r : BeginRequest)
| OComplete (ctx : option context) (n : nat) (r : CompleteRequest)
| OAbort (ctx : option context) (n : nat) (r : AbortRequest).

Inductive answer := ABegin (r : BeginResult + error) | AEnd (err : option error).

Definition op_key (o : op) : string :=
  match o with OBegin _ _ r => bKey r | OComplete _ _ r => cKey r | OAbort _ _ r => aKey r end.

Definition ttl_pos (o : op) : Prop :=
  match o with OBegin _ _ r => 0 < bTTL r | OComplete _ _ r => 0 < cTTL r | OAbort _ _ _ => True end.

(** [o] ends the claim in [c]: it carries the claim's token. *)
Definition owner_op (c : cell) (o : op) : Prop :=
  match c, o with
  | Claimed token _ _, OComplete _ _ r => cToken r = token
  | Claimed token _ _, OAbort _ _ r => aToken r = token
  | _, _ => False
  end.

(** What an operation on the key of [c] may answer while [c] stands. *)
Definition answer_while (c : cell) (o : op) (a : answer) : Prop :=
  match o, a with
  | OBegin ctx n r, ABegin res =>
      match validateContext ctx n with
      | Some err => res = inr err
      | None => res = snd (begin_spec id r (Some c))
      end
  | OComplete ctx n _, AEnd err | OAbort ctx n _, AEnd err =>
      err = Some (default ErrClaimLost (validateContext ctx n))
  | _, _ => False
  end.

Section Sequences.
Context {S : Type} `{StoreLaws S}.

Definition store_step (now : Z) (o : op) (s : S) : S * answer :=
  match o with
  | OBegin ctx n r => let '(s, a) := Begin ctx n now r s in (s, ABegin a)
  | OComplete ctx n r => let '(s, a) := Complete ctx n now r s in (s, AEnd a)
  | OAbort ctx n r => let '(s, a) := Abort ctx n now r s in (s, AEnd a)
  end.

Fixpoint store_run (ops : list (Z * op)) (s : S) : S * list answer :=
  match ops with
  | [] => (s, [])
  | (now, o) :: ops =>
      let '(s, a) := store_step now o s in
      let '(s, l) := store_run ops s in
      (s, a :: l)
  end.

(** Times never go back, and stay below [e]. *)
Fixpoint times_in (t e : Z) (ops : list (Z * op)) : Prop :=
  match ops with
  | [] => True
  | (now, _) :: ops => t <= now < e /\ times_in now e ops
  end.

Lemma live_Some t c : t < expiry c -> live t (Some c) = Some c.
Proof. intros Ht. unfold live. simpl. by destruct (Z.ltb_spec t (expiry c)); [|lia]. Qed.

Lemma view_keep s t t' k c :
  inv s t -> t <= t' -> view s t k = Some c -> t' < expiry c -> view s t' k = Some c.
Proof. intros Hi Ht Hv Hc. rewrite (view_mono s t t' k Hi Ht), Hv. by apply live_Some. Qed.

Lemma begin_spec_Some until r c : fst (begin_spec until r (Some c)) = Some c.
Proof. unfold begin_spec. destruct (conflicts _ _); [done|]. by destruct c. Qed.

Lemma begin_spec_time f g r c : snd (begin_spec f r (Some c)) = snd (begin_spec g r (Some c)).
Proof. unfold begin_spec. destruct (conflicts _ _); [done|]. by destruct c. Qed.

Lemma complete_spec_other until r c :
  (forall tok f e, c = Claimed tok f e -> cToken r <> tok) ->
  complete_spec until r (Some c) = (Some c, Some ErrClaimLost).
Proof.
  intros Hc. destruct c as [tok f e|]; [|done]. simpl.
  rewrite bool_decide_eq_false_2; [done|]. intros E. by apply (Hc tok f e).
Qed.

Lemma abort_spec_other r c :
  (forall tok f e, c = Claimed tok f e -> aToken r <> tok) ->
  abort_spec r (Some c) = (Some c, Some ErrClaimLost).
Proof.
  intros Hc. destruct c as [tok f e|]; [|done]. simpl.
  rewrite bool_decide_eq_false_2; [done|]. intros E. by apply (Hc tok f e).
Qed.

(** The contract as a machine: a table of cells, read at the current time. *)
Definition spec_step (until : Z -> Z -> Z) (now : Z) (o : op) (m : string -> option cell) : (string -> option cell) * answer :=
  let update k c := fun k' => if decide (k' = k) then c else m k' in
  match o with
  | OBegin ctx n r =>
      match validateContext ctx n with
      | Some err => (m, ABegin (inr err))
      | None => let '(c, a) := begin_spec (until now) r (live now (m (bKey r))) in (update (bKey r) c, ABegin a)
      end
  | OComplete ctx n r =>
      match validateContext ctx n with
      | Some err => (m, AEnd (Some err))
      | None => let '(c, a) := complete_spec (until now) r (live now (m (cKey r))) in (update (cKey r) c, AEnd a)
      end
  | OAbort ctx n r =>
      match validateContext ctx n with
      | Some err => (m, AEnd (Some err))
      | None => let '(c, a) := abort_spec r (live now (m (aKey r))) in (update (aKey r) c, AEnd a)
      end
  end.

Fixpoint spec_run (until : Z -> Z -> Z) (ops : list (Z * op)) (m : string -> option cell)
    : (string -> option cell) * list answer :=
  match ops with
  | [] => (m, [])
  | (now, o) :: ops =>
      let '(m, a) := spec_step until now o m in
      let '(m, l) := spec_run until ops m in
      (m, a :: l)
  end.

(** The new table read at [now] is what the store shows, key by key. *)
Lemma view_update s s' now k c (m : string -> option cell) :
  (forall k', view s now k' = live now (m k')) -> view s' now k = c ->
  (forall k', k' <> k -> view s' now k' = view s now k') ->
  forall k', view s' now k' = live now (if decide (k' = k) then c else m k').
Proof.
  intros Hm Hk Hne k'. case_decide as E; [|by rewrite Hne, Hm]. subst. symmetry. apply view_live.
Qed.

Lemma store_step_spec t now o s s' a m :
  inv s t -> t <= now -> ttl_pos o -> (forall k, view s t k = live t (m k)) ->
  store_step now o s = (s', a) ->
  inv s' now /\ a = snd (spec_step deadline now o m) /\
  forall k, view s' now k = live now (fst (spec_step deadline now o m) k).
Proof.
  intros Hi Ht Hp Hm Hs.
  assert (Hnow : forall k, view s now k = live now (m k)).
  { intros k. by rewrite (view_mono s t now k Hi Ht), Hm, live_again. }
  assert (Hi' : inv s now) by (by eapply inv_mono).
  destruct o as [ctx n r|ctx n r|ctx n r]; cbn [store_step spec_step ttl_pos] in *.
  - destruct (Begin _ _ _ _ _) eqn:E. simplify_eq. apply begin_law in E as [? E]; [|done..].
    split; [done|]. destruct (validateContext ctx n); [by destruct E as [-> ->]|].
    destruct E as (Hk & -> & Hne). rewrite Hnow in *.
    destruct (begin_spec _ _ _) as [c a]. split; [done|]. by apply (view_update s).
  - destruct (Complete _ _ _ _ _) eqn:E. simplify_eq. apply complete_law in E as [? E]; [|done..].
    split; [done|]. destruct (validateContext ctx n); [by destruct E as [-> ->]|].
    destruct E as (Hk & -> & Hne). rewrite Hnow in *.
    destruct (complete_spec _ _ _) as [c a]. split; [done|]. by apply (view_update s).
  - destruct (Abort _ _ _ _ _) eqn:E. simplify_eq. apply abort_law in E as [? E]; [|done..].
    split; [done|]. destruct (validateContext ctx n); [by destruct E as [-> ->]|].
    destruct E as (Hk & -> & Hne). rewrite Hnow in *.
    destruct (abort_spec _ _) as [c a]. split; [done|]. by apply (view_update s).
Qed.

Lemma store_run_spec t e ops s m :
  inv s t -> (forall k, view s t k = live t (m k)) -> times_in t e ops ->
  Forall (fun p => ttl_pos (snd p)) ops ->
  snd (store_run ops s) = snd (spec_run deadline ops m).
Proof.
  revert t s m. induction ops as [|[now o] ops IH]; intros t s m Hi Hm Hts Hall; [done|].
  apply Forall_cons in Hall as [Hp Hall]. destruct Hts as [Hnow Hts]. cbn [store_run spec_run].
  destruct (store_step now o s) as [s1 a] eqn:E.
  destruct (store_step_spec t now o s s1 a m) as (Hi1 & -> & Hv); try done; [lia|].
  destruct (spec_step deadline now o m) as [m1 a1]. cbn [fst snd] in *.
  specialize (IH now s1 m1 Hi1 Hv Hts Hall).
  destruct (store_run ops s1), (spec_run deadline ops m1). simpl in *. by rewrite IH.
Qed.

Lemma store_step_keep now k c o s s' a :
  inv s now -> ttl_pos o -> view s now k = Some c ->
  (op_key o = k -> ~ owner_op c o) -> store_step now o s = (s', a) ->
  inv s' now /\ view s' now k = Some c /\ (op_key o = k -> answer_while c o a).
Proof.
  intros Hi Ht Hv Ho Hs. destruct o as [ctx n r|ctx n r|ctx n r]; simpl in *.
  - destruct (Begin ctx n now r s) as [s1 res] eqn:E. simplify_eq.
    destruct (begin_law ctx n now r s s' res Hi Ht E) as [Hi' Hb]. split; [done|].
    destruct (validateContext ctx n); [by destruct Hb as [-> ->]|].
    destruct Hb as (Hk & -> & Hk'). destruct (decide (k = bKey r)) as [->|Hne].
    + rewrite Hv, begin_spec_Some in Hk. split; [done|]. intros _. rewrite Hv. by rewrite (begin_spec_time _ id).
    + split; [by rewrite Hk'|congruence].
  - destruct (Complete ctx n now r s) as [s1 res] eqn:E. simplify_eq.
    destruct (complete_law ctx n now r s s' res Hi Ht E) as [Hi' Hb]. split; [done|].
    destruct (validateContext ctx n); [by destruct Hb as [-> ->]|].
    destruct Hb as (Hk & -> & Hk'). destruct (decide (k = cKey r)) as [->|Hne].
    + rewrite Hv in *. rewrite complete_spec_other in *; [done|..];
        intros tok f e ->; by apply Ho.
    + split; [by rewrite Hk'|congruence].
  - destruct (Abort ctx n now r s) as [s1 res] eqn:E. simplify_eq.
    destruct (abort_law ctx n now r s s' res Hi E) as [Hi' Hb]. split; [done|].
    destruct (validateContext ctx n); [by destruct Hb as [-> ->]|].
    destruct Hb as (Hk & -> & Hk'). destruct (decide (k = aKey r)) as [->|Hne].
    + rewrite Hv in *. rewrite abort_spec_other in *; [done|..];
        intros tok f e ->; by apply Ho.
    + split; [by rewrite Hk'|congruence].
Qed.

Lemma store_run_keep t k c ops s s' ans :
  inv s t -> view s t k = Some c -> times_in t (expiry c) ops ->
  Forall (fun p => ttl_pos (snd p) /\ (op_key (snd p) = k -> ~ owner_op c (snd p))) ops ->
  store_run ops s = (s', ans) ->
  let t' := default t (fst <$> last ops) in
  inv s' t' /\ t <= t' /\ view s' t' k = Some c /\
  Forall2 (fun p a => op_key (snd p) = k -> answer_while c (snd p) a) ops ans.
Proof.
  revert t s ans. induction ops as [|[now o] ops IH]; intros t s ans Hi Hv Hts Hall Hr; simpl in Hr.
  { simplify_eq. simpl. split_and!; [done|lia|done|constructor]. }
  inversion Hall as [|?? [Htp Hown] Hrest]; subst. destruct Hts as [Hnow Hts].
  destruct (store_step now o s) as [s1 a] eqn:E1. destruct (store_run ops s1) as [s2 l] eqn:E2.
  simplify_eq. destruct (store_step_keep now k c o s s1 a) as (Hi1 & Hv1 & Ha); try done.
  { by eapply inv_mono; [|apply Hnow]. }
  { apply (view_keep s t); [done|lia|done|lia]. }
  destruct (IH now s1 l Hi1 Hv1 Hts Hrest E2) as (Hi2 & Ht2 & Hv2 & Hf).
  assert (Hlast : default t (fst <$> last ((now, o) :: ops)) = default now (fst <$> last ops)).
  { destruct ops as [|p ops]; [done|]. rewrite last_cons. by destruct (last (p :: ops)) eqn:El;
      [|apply last_None in El]. }
  rewrite Hlast. split_and!; [done|lia|done|]. by constructor.
Qed.
End Sequences.

(** While a claim has not expired and no operation carries its token, or
    while a result has not expired, every sequence of store operations leaves
    it in place: each [Begin] on the key answers in-progress (respectively
    completed with that same result) or the fingerprint conflict, never a
    second claim, and each [Complete] or [Abort] on the key answers
    [ErrClaimLost]; a done context changes nothing and returns its cause. *)
Theorem claim_exclusive {S : Type} `{StoreLaws S} t k c ops (s s' : S) ans :
  inv s t -> view s t k = Some c -> times_in t (expiry c) ops ->
  Forall (fun p => ttl_pos (snd p) /\ (op_key (snd p) = k -> ~ owner_op c (snd p))) ops ->
  store_run ops s = (s', ans) ->
  view s' (default t (fst <$> last ops)) k = Some c /\
  Forall2 (fun p a => op_key (snd p) = k -> answer_while c (snd p) a) ops ans.
Proof.
  intros Hi Hv Ht Hall Hr. destruct (store_run_keep t k c ops s s' ans Hi Hv Ht Hall Hr) as (_ & _ & ? & ?).
  done.
Qed.

(** ** The executor *)

Lemma newConfig_pos options :
  0 < executionTTL (newConfig options) /\ 0 < resultTTL (newConfig options) /\
  0 < finalizationTimeout (newConfig options).
Proof.
  unfold newConfig. set (c := mkConfig _ _ _).
  assert (Hc : 0 < executionTTL c /\ 0 < resultTTL c /\ 0 < finalizationTimeout c) by done.
  revert Hc. generalize c. clear c. induction options as [|[[]|] options IH]; intros c Hc; simpl; auto;
    apply IH; bsolve.
Qed.

Lemma newExecuteConfig_pos cfg options :
  0 < executionTTL cfg -> 0 < resultTTL cfg ->
  0 < xExecutionTTL (newExecuteConfig cfg options) /\ 0 < xResultTTL (newExecuteConfig cfg options).
Proof.
  intros H1 H2. unfold newExecuteConfig. set (c := mkExecute _ _ _).
  assert (Hc : 0 < xExecutionTTL c /\ 0 < xResultTTL c) by done.
  revert Hc. generalize c. clear c. induction options as [|[[]|] options IH]; intros c Hc; simpl; auto;
    apply IH; bsolve.
Qed.

Set Default Proof Using "All".

Section Execution.
Context {S : Type} `{StoreLaws S}.
Context (cfg : config) (ctx : context) (key : string) (options : list (option ExecuteOption)).
Context (r : run) (tok : string).
Hypothesis (Hopen : forall n, ctx n = None) (Htok : newTokenResult r = inl tok).
Hypothesis (Hcfg : 0 < executionTTL cfg /\ 0 < resultTTL cfg) (Htime : tBegin r <= tFinal r).

Let x := newExecuteConfig cfg options.
Let my_claim := mkClaim key tok (xResultTTL x).
Let my_cell := Claimed tok (fingerprint x) (deadline (tBegin r) (xExecutionTTL x)).

Lemma x_pos : 0 < xExecutionTTL x /\ 0 < xResultTTL x.
Proof. destruct Hcfg. by apply newExecuteConfig_pos. Qed.

Lemma begin_open s s1 b :
  inv s (tBegin r) -> begin cfg ctx key options r s = (s1, b) ->
  inv s1 (tBegin r) /\
  match view s (tBegin r) key with
  | None => b = inl (mkBeginResult my_claim [] false) /\ view s1 (tBegin r) key = Some my_cell
  | Some c =>
      view s1 (tBegin r) key = Some c /\
      b = (if conflicts (fingerprint x) c then inr ErrKeyConflict
           else match c with
                | Claimed _ _ _ => inr ErrInProgress
                | Done data _ _ => inl (mkBeginResult zeroClaim data true)
                end)
  end.
Proof.
  intros Hi. unfold begin, newToken, Cause. rewrite !Hopen, Htok. simpl.
  destruct (Begin _ _ _ _ _) as [s2 res] eqn:E.
  apply begin_law in E; [|done|by apply x_pos].
  destruct E as [Hi2 E]. unfold validateContext, Cause in E. rewrite Hopen in E. simpl in E.
  destruct E as (Hk & -> & _). unfold begin_spec in *. simpl in *.
  destruct (view s (tBegin r) key) as [c|]; simpl in *.
  - fold x. destruct (conflicts _ c); simpl in *; [intros; by simplify_eq|].
    destruct c; simpl in *; intros; by simplify_eq.
  - intros; by simplify_eq.
Qed.

(** The error of the store when the call no longer owns the claim, or its
    finalization has timed out. *)
Definition lost : error := if timedOut r then DeadlineExceeded else ErrClaimLost.

(** At the end of the call its claim still stands and can be ended. *)
Definition alive : bool := (tFinal r <? deadline (tBegin r) (xExecutionTTL x)) && negb (timedOut r).

Lemma view_final s1 :
  inv s1 (tBegin r) -> view s1 (tBegin r) key = Some my_cell ->
  inv s1 (tFinal r) /\
  view s1 (tFinal r) key = if tFinal r <? deadline (tBegin r) (xExecutionTTL x) then Some my_cell else None.
Proof.
  intros Hi Hv. split; [by eapply inv_mono|].
  rewrite (view_mono s1 (tBegin r) (tFinal r) key Hi Htime), Hv. unfold live. simpl. done.
Qed.

Lemma complete_alive data s1 s2 err :
  inv s1 (tBegin r) -> view s1 (tBegin r) key = Some my_cell ->
  complete my_claim ctx r data s1 = (s2, err) ->
  inv s2 (tFinal r) /\ err = (if alive then None else Some lost) /\
  (alive = true -> view s2 (tFinal r) key
     = Some (Done data (fingerprint x) (deadline (tFinal r) (xResultTTL x)))).
Proof.
  intros Hi Hv. destruct (view_final s1 Hi Hv) as [Hi1 Hv1]. unfold complete. intros E.
  apply complete_law in E; [|done|by apply x_pos].
  destruct E as [Hi2 E]. split; [done|]. unfold alive, lost.
  unfold validateContext, Cause, finalizationContext, WithoutCancel in E.
  destruct (timedOut r); simpl in E.
  { destruct E as [-> ->]. rewrite andb_false_r. done. }
  destruct E as (Hk & -> & _). rewrite Hv1 in *.
  destruct (tFinal r <? deadline (tBegin r) (xExecutionTTL x)); simpl in *; [|done].
  by rewrite bool_decide_eq_true_2 in *.
Qed.

Lemma abort_alive s1 s2 err :
  inv s1 (tBegin r) -> view s1 (tBegin r) key = Some my_cell ->
  abort my_claim ctx r s1 = (s2, err) ->
  inv s2 (tFinal r) /\ err = (if alive then None else Some lost) /\
  (alive = true -> view s2 (tFinal r) key = None).
Proof.
  intros Hi Hv. destruct (view_final s1 Hi Hv) as [Hi1 Hv1]. unfold abort. intros E.
  apply abort_law in E; [|done].
  destruct E as [Hi2 E]. split; [done|]. unfold alive, lost.
  unfold validateContext, Cause, finalizationContext, WithoutCancel in E.
  destruct (timedOut r); simpl in E.
  { destruct E as [-> ->]. rewrite andb_false_r. done. }
  destruct E as (Hk & -> & _). rewrite Hv1 in *.
  destruct (tFinal r <? deadline (tBegin r) (xExecutionTTL x)); simpl in *; [|done].
  by rewrite bool_decide_eq_true_2 in *.
Qed.

Section Values.
Context {T : Type} (zero : T).
Variables (Marshal : T -> bytes + error) (Unmarshal : bytes -> T + error).

(** What [DoValue] owes its caller, by the state of the key when it begins. *)
Definition value_contract (value : T) (herr : option error) (s s' : S) (out : outcome (Result T)) : Prop :=
  match view s (tBegin r) key with
  | Some c =>
      view s' (tBegin r) key = Some c /\ inv s' (tBegin r) /\
      out = if conflicts (fingerprint x) c then Return (mkRes zero false) (Some ErrKeyConflict) false
            else match c with
                 | Claimed _ _ _ => Return (mkRes zero false) (Some ErrInProgress) false
                 | Done data _ _ =>
                     match Unmarshal data with
                     | inl v => Return (mkRes v true) None false
                     | inr e => Return (mkRes zero true) (Some (ErrWrapf "idempotency: decode result" e)) false
                     end
                 end
  | None =>
      exists err, out = Return (mkRes value false) err true /\
      match herr, Marshal value with
      | Some e, _ =>
          err = Some (ErrJoin (e :: if alive then [] else [lost])) /\ inv s' (tFinal r) /\
          (alive = true -> view s' (tFinal r) key = None)
      | None, inr e =>
          err = Some (ErrWrapf "idempotency: encode result" e) /\ inv s' (tBegin r) /\
          view s' (tBegin r) key = Some my_cell
      | None, inl data =>
          err = (if alive then None else Some lost) /\ inv s' (tFinal r) /\
          (alive = true -> view s' (tFinal r) key
             = Some (Done data (fingerprint x) (deadline (tFinal r) (xResultTTL x))))
      end
  end.

Lemma DoValue_contract value herr s s' out :
  key <> ""%string -> inv s (tBegin r) ->
  DoValue zero Marshal Unmarshal cfg (Some ctx) key (Some (value, herr)) options r s = (s', out) ->
  value_contract value herr s s' out.
Proof.
  intros Hkey Hi. unfold DoValue, validateExecution, value_contract.
  destruct (String.eqb_spec key ""); [done|].
  destruct (begin cfg ctx key options r s) as [s1 b] eqn:Eb.
  destruct (begin_open s s1 b Hi Eb) as [Hi1 Hb].
  destruct (view s (tBegin r) key) as [c|].
  - destruct Hb as [Hv ->]. destruct (conflicts _ c); [intros; by simplify_eq|].
    destruct c; [intros; by simplify_eq|]. cbn [replayed brResult]. unfold decodeValue.
    destruct (Unmarshal result); intros; by simplify_eq.
  - destruct Hb as [-> Hv]. cbn [replayed brClaim]. destruct herr as [e|]; [|destruct (Marshal value) as [data|e]].
    + destruct (abort _ _ _ _) as [s2 aerr] eqn:Ea. intros; simplify_eq. eexists. split; [done|].
      destruct (abort_alive s1 s' aerr Hi1 Hv Ea) as (? & -> & ?).
      unfold errors_Join. by destruct alive.
    + destruct (complete _ _ _ _ _) as [s2 cerr] eqn:Ec. intros; simplify_eq. eexists. split; [done|].
      by destruct (complete_alive data s1 s' cerr Hi1 Hv Ec) as (? & -> & ?).
    + intros; simplify_eq. by eexists.
Qed.
End Values.
End Execution.

(** [Do] is [DoValue] with a codec that stores nothing. *)
Definition unit_marshal (_ : unit) : bytes + error := inl [].
Definition unit_unmarshal (_ : bytes) : unit + error := inl tt.

Definition forget {T} (o : outcome (Result T)) : outcome unit :=
  match o with Panic => Panic | Return _ err ran => Return tt err ran end.

(** Every outcome of [DoValue] under an open context, against any store
    that meets the contract.  On a live record the handler is not run and the
    record stays: a fingerprint that differs is a conflict, a claim is
    [ErrInProgress], a result is decoded and returned as replayed.  On an unused
    key the handler runs once, and its value is returned; on its error the claim
    is aborted, on an encoding error it is left to expire, and otherwise the
    encoded value is stored, the error being nil exactly when the claim had not
    expired and the finalization had not timed out.  [Do] is the case of an
    empty value. *)
Theorem DoValue_outcomes {S T : Type} `{StoreLaws S} (zero : T) Marshal Unmarshal
    options cfg_options ctx key value herr r tok (s s' : S) out :
  key <> ""%string -> (forall n, ctx n = None) -> newTokenResult r = inl tok -> tBegin r <= tFinal r ->
  inv s (tBegin r) ->
  let cfg := newConfig cfg_options in
  DoValue zero Marshal Unmarshal cfg (Some ctx) key (Some (value, herr)) options r s = (s', out) ->
  value_contract cfg key options r tok zero Marshal Unmarshal value herr s s' out /\
  Do cfg (Some ctx) key (Some herr) options r s =
    (let '(s2, o) := DoValue tt unit_marshal unit_unmarshal cfg (Some ctx) key (Some (tt, herr)) options r s
     in (s2, forget o)).
Proof.
  intros Hk Ho Ht Htime Hi cfg E. pose proof (newConfig_pos cfg_options) as (? & ? & _). split.
  - by eapply DoValue_contract.
  - clear E. unfold Do, DoValue. destruct (validateExecution (Some ctx) key); [done|].
    destruct (begin _ _ _ _ _ _) as [s1 [b|e]]; [|done]. destruct (replayed b); [done|].
    destruct herr as [e|]; simpl.
    + by destruct (abort _ _ _ _).
    + by destruct (complete _ _ _ _ _).
Qed.

(** C4: Replay.  Once a call has returned its value without an error, every
    later call for the key within the result's lifetime, whatever operations on
    the store came between and whatever its own handler would do, returns the
    same value marked as replayed and does not run its handler, provided its
    fingerprint does not differ and the codec decodes what it encodes. *)
Theorem DoValue_replay {S T : Type} `{StoreLaws S} (zero : T) Marshal Unmarshal cfg_options
    options1 options2 ctx1 ctx2 key value handler2 r1 r2 tok1 tok2 ops (s s1 s2 : S) ans :
  (forall v data, Marshal v = inl data -> Unmarshal data = inl v) ->
  let cfg := newConfig cfg_options in
  let x1 := newExecuteConfig cfg options1 in let x2 := newExecuteConfig cfg options2 in
  key <> ""%string -> (forall n, ctx1 n = None) -> (forall n, ctx2 n = None) ->
  newTokenResult r1 = inl tok1 -> newTokenResult r2 = inl tok2 ->
  tBegin r1 <= tFinal r1 -> tBegin r2 <= tFinal r2 -> inv s (tBegin r1) ->
  DoValue zero Marshal Unmarshal cfg (Some ctx1) key (Some (value, None)) options1 r1 s
    = (s1, Return (mkRes value false) None true) ->
  store_run ops s1 = (s2, ans) -> Forall (fun p => ttl_pos (snd p)) ops ->
  let e := deadline (tFinal r1) (xResultTTL x1) in
  times_in (tFinal r1) e ops -> default (tFinal r1) (fst <$> last ops) <= tBegin r2 < e ->
  (fingerprint x2 = ""%string \/ fingerprint x2 = fingerprint x1) ->
  snd (DoValue zero Marshal Unmarshal cfg (Some ctx2) key (Some handler2) options2 r2 s2)
    = Return (mkRes value true) None false.
Proof.
  intros Hcodec cfg x1 x2 Hk Ho1 Ho2 Ht1 Ht2 Hr1 Hr2 Hi E1 Er Hops e Hts Hlast Hfp.
  pose proof (newConfig_pos cfg_options) as (? & ? & _).
  pose proof (DoValue_contract cfg ctx1 key options1 r1 tok1 Ho1 Ht1 ltac:(done) Hr1
                zero Marshal Unmarshal value None s s1 _ Hk Hi E1) as C1.
  unfold value_contract in C1.
  destruct (view s (tBegin r1) key) as [c|].
  { destruct C1 as (_ & _ & C1). repeat case_match; simplify_eq. }
  destruct C1 as (err & [= <-] & C1). destruct (Marshal value) as [data|] eqn:Em; [|by destruct C1].
  destruct C1 as (Herr & Hi1 & Hv1). destruct (alive cfg options1 r1); [|done]. specialize (Hv1 eq_refl).
  destruct (store_run_keep (tFinal r1) key _ ops s1 s2 ans Hi1 Hv1 Hts) as (Hi2 & Hle & Hv2 & _); [|done|].
  { eapply Forall_impl; [done|]. intros p Hp. split; [done|]. by intros _ ?. }
  destruct (DoValue _ _ _ _ _ _ (Some handler2) _ _ _) as [s3 out] eqn:E2. destruct handler2 as [v2 h2].
  pose proof (DoValue_contract cfg ctx2 key options2 r2 tok2 Ho2 Ht2 ltac:(done) Hr2
                zero Marshal Unmarshal v2 h2 s2 s3 out Hk) as C2.
  specialize (C2 ltac:(by eapply inv_mono; [|apply Hlast]) E2). unfold value_contract in C2.
  rewrite (view_keep s2 _ (tBegin r2) key _ Hi2 ltac:(apply Hlast) Hv2) in C2 by (simpl; apply Hlast).
  destruct C2 as (_ & _ & ->). unfold conflicts. rewrite bool_decide_eq_false_2.
  - by rewrite (Hcodec _ _ Em).
  - simpl. fold x1 x2. intros [? ?]. by destruct Hfp.
Qed.
