(* ===== verification/IdempotencyMemory.v ===== *)
(** * The in-process idempotency store: [src/idempotency/memory/store.go]

    Records are removed lazily: [nextCleanup] is a time before which no record
    has expired, so that most operations skip the sweep.  The theorems show that
    this bound is kept and that the store meets the contract of [Idempotency].
    The mutex makes each method one step. *)

From S2P Require Import Prelude GoErrors Idempotency.
From Stdlib Require Import Ascii.
From stdpp Require Import options.
Set Default Proof Using "Type*".
Local Open Scope Z_scope.

Record record := mkRecord {
  status : BeginStatus; token : string; rfingerprint : string; data : bytes; expiresAt : Z
}.

(** [nextCleanup = zeroTime] is the zero time: no sweep is due. *)
Record MemStore := mkStore { records : gmap string record; nextCleanup : Z }.

Definition new_store : MemStore := mkStore ∅ zeroTime.

Definition scheduleCleanup (expires : Z) (s : MemStore) : MemStore :=
  if (nextCleanup s =? zeroTime) || (expires <? nextCleanup s)
  then mkStore (records s) expires else s.

(** The sweep, over the entries of the map in some order. *)
Definition cleanup_step (now : Z) (s : MemStore) (e : string * record) : MemStore :=
  let '(key, current) := e in
  if negb (now <? expiresAt current) then mkStore (delete key (records s)) (nextCleanup s)
  else scheduleCleanup (expiresAt current) s.

Definition cleanup (now : Z) (s : MemStore) : MemStore :=
  if (nextCleanup s =? zeroTime) || (now <? nextCleanup s) then s
  else foldl (cleanup_step now) (mkStore (records s) zeroTime) (map_to_list (records s)).

Definition MemBegin (ctx : option context) (n : nat) (clock : Z) (request : BeginRequest) (s : MemStore)
    : MemStore * (BeginResult + error) :=
  match validateContext ctx n with
  | Some err => (s, inr err)
  | None =>
      let now := clock in
      let s := cleanup now s in
      match records s !! bKey request with
      | None =>
          let current := mkRecord BeginInProgress (bToken request) (bFingerprint request) []
                           (now + bTTL request) in
          let s := mkStore (<[bKey request := current]> (records s)) (nextCleanup s) in
          (scheduleCleanup (expiresAt current) s, inl (mkResult BeginAcquired []))
      | Some current =>
          if negb (String.eqb (bFingerprint request) "")
             && negb (String.eqb (bFingerprint request) (rfingerprint current))
          then (s, inr ErrKeyConflict)
          else (s, inl (mkResult (status current) (data current)))
      end
  end.

(** The claim of the request's token is the active one. *)
Definition owned (current : option record) (tok : string) : bool :=
  match current with
  | None => false
  | Some r => bool_decide (status r = BeginInProgress) && String.eqb (token r) tok
  end.

Definition MemComplete (ctx : option context) (n : nat) (clock : Z) (request : CompleteRequest)
    (s : MemStore) : MemStore * option error :=
  match validateContext ctx n with
  | Some err => (s, Some err)
  | None =>
      let now := clock in
      let s := cleanup now s in
      match records s !! cKey request with
      | None => (s, Some ErrClaimLost)
      | Some current =>
          if negb (owned (Some current) (cToken request)) then (s, Some ErrClaimLost)
          else
            let current := mkRecord BeginCompleted "" (rfingerprint current) (cResult request)
                             (now + cTTL request) in
            let s := mkStore (<[cKey request := current]> (records s)) (nextCleanup s) in
            (scheduleCleanup (expiresAt current) s, None)
      end
  end.

Definition MemAbort (ctx : option context) (n : nat) (clock : Z) (request : AbortRequest)
    (s : MemStore) : MemStore * option error :=
  match validateContext ctx n with
  | Some err => (s, Some err)
  | None =>
      let s := cleanup clock s in
      if negb (owned (records s !! aKey request) (aToken request)) then (s, Some ErrClaimLost)
      else (mkStore (delete (aKey request) (records s)) (nextCleanup s), None)
  end.

#[export] Instance mem_store : Store MemStore :=
  {| Begin := MemBegin; Complete := MemComplete; Abort := MemAbort |}.

(** ** Invariant *)

(** A sweep is due no later than the first expiry. *)
Definition scheduled (s : MemStore) : Prop :=
  forall k r, records s !! k = Some r -> nextCleanup s <> zeroTime /\ nextCleanup s <= expiresAt r.

(** Records are claims without data or results without a token, and expire after
    the zero time. *)
Definition wf_record (r : record) : Prop :=
  zeroTime < expiresAt r /\
  (status r = BeginInProgress /\ data r = [] \/ status r = BeginCompleted).

Definition mem_inv (s : MemStore) (t : Z) : Prop :=
  zeroTime < t /\ scheduled s /\ map_Forall (fun _ => wf_record) (records s).

Definition cell_of (r : record) : cell :=
  if decide (status r = BeginInProgress) then Claimed (token r) (rfingerprint r) (expiresAt r)
  else Done (data r) (rfingerprint r) (expiresAt r).

Definition mem_view (s : MemStore) (t : Z) (k : string) : option cell :=
  live t (cell_of <$> records s !! k).

Lemma expiry_cell_of r : expiry (cell_of r) = expiresAt r.
Proof. unfold cell_of. by case_decide. Qed.

Lemma fingerprint_cell_of r : fingerprint_of (cell_of r) = rfingerprint r.
Proof. unfold cell_of. by case_decide. Qed.

Lemma schedule_keeps e s : records (scheduleCleanup e s) = records s.
Proof. unfold scheduleCleanup. by case_match. Qed.

Lemma schedule_bound e s :
  zeroTime < e -> (nextCleanup s = zeroTime \/ zeroTime < nextCleanup s) ->
  zeroTime < nextCleanup (scheduleCleanup e s) <= e /\
  (nextCleanup s <> zeroTime -> nextCleanup (scheduleCleanup e s) <= nextCleanup s).
Proof. unfold scheduleCleanup, zeroTime. intros. bcase; lia. Qed.

(** The bound after adding a record, for the records a store keeps. *)
Lemma schedule_insert s k r :
  scheduled s -> map_Forall (fun _ => wf_record) (records s) -> zeroTime < expiresAt r ->
  (nextCleanup s = zeroTime \/ zeroTime < nextCleanup s) ->
  scheduled (scheduleCleanup (expiresAt r) (mkStore (<[k := r]> (records s)) (nextCleanup s))).
Proof.
  intros Hs Hw Hr Hn k' r' Hk. rewrite schedule_keeps in Hk. cbn [records] in Hk.
  destruct (schedule_bound (expiresAt r) (mkStore (<[k := r]> (records s)) (nextCleanup s)) Hr Hn) as [? Hb].
  cbn [nextCleanup] in *. split; [unfold zeroTime in *; lia|].
  destruct (decide (k = k')) as [->|Hne].
  - rewrite lookup_insert_eq in Hk. simplify_eq. lia.
  - rewrite lookup_insert_ne in Hk by done. destruct (Hs _ _ Hk). specialize (Hb ltac:(done)). lia.
Qed.

(** *** The sweep *)

Lemma cleanup_step_spec now s k r :
  zeroTime < expiresAt r -> (nextCleanup s = zeroTime \/ zeroTime < nextCleanup s) ->
  let s' := cleanup_step now s (k, r) in
  records s' = (if now <? expiresAt r then records s else delete k (records s)) /\
  (nextCleanup s' = zeroTime \/ zeroTime < nextCleanup s') /\
  (nextCleanup s <> zeroTime -> nextCleanup s' <> zeroTime /\ nextCleanup s' <= nextCleanup s) /\
  (now < expiresAt r -> nextCleanup s' <> zeroTime /\ nextCleanup s' <= expiresAt r).
Proof.
  intros Hr Hn. cbn [cleanup_step]. destruct (Z.ltb_spec now (expiresAt r)); cbn [negb].
  - rewrite schedule_keeps. destruct (schedule_bound (expiresAt r) s Hr Hn) as [? ?].
    unfold zeroTime in *. split_and!; [done|lia|lia|lia].
  - cbn [records nextCleanup]. unfold zeroTime in *. split_and!; [done|lia|lia|lia].
Qed.

(** What sweeping the entries [l] leaves of the record of [k]. *)
Definition swept (now : Z) (l : list (string * record)) (k : string) (o : option record) : option record :=
  r ← o; if bool_decide (k ∈ l.*1) && negb (now <? expiresAt r) then None else Some r.

Lemma cleanup_fold now l s :
  NoDup l.*1 -> Forall (fun e => wf_record e.2) l ->
  (forall k r, (k, r) ∈ l -> records s !! k = Some r) ->
  (nextCleanup s = zeroTime \/ zeroTime < nextCleanup s) ->
  let s' := foldl (cleanup_step now) s l in
  (forall k, records s' !! k = swept now l k (records s !! k)) /\
  (nextCleanup s' = zeroTime \/ zeroTime < nextCleanup s') /\
  (nextCleanup s <> zeroTime -> nextCleanup s' <> zeroTime /\ nextCleanup s' <= nextCleanup s) /\
  (forall k r, (k, r) ∈ l -> now < expiresAt r -> nextCleanup s' <> zeroTime /\ nextCleanup s' <= expiresAt r).
Proof.
  revert s. induction l as [|[k0 r0] l IH]; intros s Hnd Hw Hl Hn; cbn [foldl].
  { split_and!; [|done|done|intros ?? Hin; by apply not_elem_of_nil in Hin].
    intros k. unfold swept. destruct (records s !! k); [|done]. cbn [mbind option_bind].
    by rewrite bool_decide_eq_false_2 by apply not_elem_of_nil. }
  rewrite fmap_cons in Hnd. apply NoDup_cons in Hnd as [Hni Hnd]. cbn [fst] in Hni.
  apply Forall_cons in Hw as [[Hw0 _] Hwl]. cbn [snd] in Hw0.
  destruct (cleanup_step_spec now s k0 r0 Hw0 Hn) as (Hr1 & Hn1 & Hm1 & He1).
  set (s1 := cleanup_step now s (k0, r0)) in *.
  assert (Hne : forall k r, (k, r) ∈ l -> k0 <> k).
  { intros k r Hin ->. apply Hni. apply list_elem_of_fmap. by exists (k, r). }
  destruct (IH s1 Hnd Hwl) as (Hr2 & Hn2 & Hm2 & He2); [|done|].
  { intros k r Hin. rewrite Hr1. destruct (now <? expiresAt r0); [apply Hl; by right|].
    rewrite lookup_delete_ne by (by eapply Hne). apply Hl. by right. }
  split_and!.
  - intros k. rewrite Hr2, Hr1. unfold swept. rewrite fmap_cons. cbn [fst].
    destruct (decide (k = k0)) as [->|Hk].
    + rewrite (Hl k0 r0) by left. rewrite (bool_decide_eq_false_2 (k0 ∈ l.*1)) by done.
      rewrite (bool_decide_eq_true_2 (k0 ∈ k0 :: l.*1)) by left.
      destruct (now <? expiresAt r0) eqn:E.
      * rewrite (Hl k0 r0) by left. cbn [mbind option_bind]. by rewrite E.
      * rewrite lookup_delete_eq. cbn [mbind option_bind]. by rewrite E.
    + assert (Heq : bool_decide (k ∈ k0 :: l.*1) = bool_decide (k ∈ l.*1)).
      { apply bool_decide_ext. rewrite elem_of_cons. intuition congruence. }
      rewrite Heq. by destruct (now <? expiresAt r0); [|rewrite lookup_delete_ne].
  - done.
  - intros Hz. destruct (Hm1 Hz). destruct (Hm2 ltac:(done)). split; [done|lia].
  - intros k r Hin Hlt. apply elem_of_cons in Hin as [[= -> ->]|Hin]; [|by eapply He2].
    destruct (He1 Hlt). destruct (Hm2 ltac:(done)). split; [done|lia].
Qed.

(** After the sweep the store holds exactly the records that have not expired,
    and the bound is right again. *)
Lemma sweep_spec now s :
  mem_inv s now ->
  mem_inv (cleanup now s) now /\
  (nextCleanup (cleanup now s) = zeroTime \/ zeroTime < nextCleanup (cleanup now s)) /\
  (forall k, records (cleanup now s) !! k =
     r ← records s !! k; if now <? expiresAt r then Some r else None).
Proof.
  intros (Hnow & Hs & Hw). unfold cleanup.
  destruct (Z.eqb_spec (nextCleanup s) zeroTime) as [Hz|Hz]; cbn [orb];
    [|destruct (Z.ltb_spec now (nextCleanup s))].
  - split_and!; [done..|by left|]. intros k. destruct (records s !! k) eqn:E; [|done].
    by destruct (Hs _ _ E).
  - split_and!; [done..|right; unfold zeroTime in *; lia|]. intros k.
    destruct (records s !! k) as [r|] eqn:E; [|done]. destruct (Hs _ _ E). simpl.
    by destruct (Z.ltb_spec now (expiresAt r)); [|lia].
  - destruct (cleanup_fold now (map_to_list (records s)) (mkStore (records s) zeroTime))
      as (Hr & Hn & _ & He); [apply NoDup_fst_map_to_list| | |by left|].
    { apply Forall_forall. intros [k r] Hin. apply elem_of_map_to_list in Hin. by apply (Hw k). }
    { intros k r. apply elem_of_map_to_list. }
    set (s' := foldl _ _ _) in *.
    assert (Hrec : forall k, records s' !! k = r ← records s !! k; if now <? expiresAt r then Some r else None).
    { intros k. rewrite Hr. cbn [records]. unfold swept. destruct (records s !! k) as [r|] eqn:E; [|done].
      cbn [mbind option_bind]. rewrite bool_decide_eq_true_2; [by destruct (now <? expiresAt r)|].
      apply list_elem_of_fmap. exists (k, r). split; [done|]. by apply elem_of_map_to_list. }
    unfold mem_inv. split_and!; [done| | |done|done].
    + intros k r Hk. rewrite Hrec in Hk. destruct (records s !! k) as [r'|] eqn:E; [|done]. simpl in Hk.
      destruct (Z.ltb_spec now (expiresAt r')); [|done]. simplify_eq.
      apply (He k); [by apply elem_of_map_to_list|done].
    + intros k r Hk. rewrite Hrec in Hk. destruct (records s !! k) as [r'|] eqn:E; [|done]. simpl in Hk.
      destruct (now <? expiresAt r'); [|done]. simplify_eq. by apply (Hw k).
Qed.

Lemma cleanup_view now s k :
  mem_inv s now -> cell_of <$> records (cleanup now s) !! k = mem_view s now k.
Proof.
  intros Hi. destruct (sweep_spec now s Hi) as (_ & _ & ->). unfold mem_view, live.
  destruct (records s !! k) as [r|]; [|done]. simpl. rewrite expiry_cell_of.
  by destruct (now <? expiresAt r).
Qed.

Lemma cleanup_view_after now s k : mem_inv s now -> mem_view (cleanup now s) now k = mem_view s now k.
Proof.
  intros Hi. unfold mem_view at 1. rewrite (cleanup_view now s k Hi). unfold mem_view. by apply live_again.
Qed.

(** *** The operations *)

Lemma wf_insert s k r :
  map_Forall (fun _ => wf_record) (records s) -> wf_record r ->
  map_Forall (fun _ => wf_record) (<[k := r]> (records s)).
Proof. intros. by apply map_Forall_insert_2. Qed.

(** Storing a fresh record under [k]. *)
Lemma store_record now s k r :
  mem_inv s now -> wf_record r -> now < expiresAt r ->
  let c := cleanup now s in
  let s' := scheduleCleanup (expiresAt r) (mkStore (<[k := r]> (records c)) (nextCleanup c)) in
  mem_inv s' now /\ mem_view s' now k = Some (cell_of r) /\
  (forall k', k' <> k -> mem_view s' now k' = mem_view s now k').
Proof.
  intros Hi Hr Hlt. destruct (sweep_spec now s Hi) as ((Hnow & Hs & Hw) & Hn & _). cbv zeta.
  split; [|split].
  - unfold mem_inv. split_and!; [done| |].
    + apply schedule_insert; [done..|by apply Hr|done].
    + rewrite schedule_keeps. by apply wf_insert.
  - unfold mem_view. rewrite schedule_keeps. cbn [records]. rewrite lookup_insert_eq.
    cbn [fmap option_fmap option_map]. apply live_Some. by rewrite expiry_cell_of.
  - intros k' Hk. unfold mem_view at 1. rewrite schedule_keeps. cbn [records].
    rewrite lookup_insert_ne by done. by apply (cleanup_view_after now s k').
Qed.

Lemma conflict_test f r :
  negb (String.eqb f "") && negb (String.eqb f (rfingerprint r)) = conflicts f (cell_of r).
Proof.
  unfold conflicts. rewrite fingerprint_cell_of. symmetry.
  destruct (String.eqb_spec f ""), (String.eqb_spec f (rfingerprint r)); cbn [negb andb];
    [apply bool_decide_eq_false_2..|apply bool_decide_eq_true_2]; intuition.
Qed.

(** The records after the sweep are the live cells, and are well-formed. *)
Lemma swept_record now s k r :
  mem_inv s now -> records (cleanup now s) !! k = Some r ->
  mem_view s now k = Some (cell_of r) /\ wf_record r.
Proof.
  intros Hi Hk. split.
  - by rewrite <- (cleanup_view now s k Hi), Hk.
  - destruct (sweep_spec now s Hi) as ((_ & _ & Hw) & _). by apply (Hw k).
Qed.

Lemma swept_none now s k :
  mem_inv s now -> records (cleanup now s) !! k = None -> mem_view s now k = None.
Proof. intros Hi Hk. by rewrite <- (cleanup_view now s k Hi), Hk. Qed.

Lemma mem_begin_law ctx n now r s s' res :
  mem_inv s now -> 0 < bTTL r -> MemBegin ctx n now r s = (s', res) ->
  mem_inv s' now /\
  match validateContext ctx n with
  | Some err => s' = s /\ res = inr err
  | None => mem_view s' now (bKey r) = fst (begin_spec (Z.add now) r (mem_view s now (bKey r))) /\
            res = snd (begin_spec (Z.add now) r (mem_view s now (bKey r))) /\
            (forall k, k <> bKey r -> mem_view s' now k = mem_view s now k)
  end.
Proof.
  intros Hi Ht. unfold MemBegin. destruct (validateContext ctx n); [intros; by simplify_eq|].
  cbv zeta. destruct (sweep_spec now s Hi) as (Hi' & _ & _).
  destruct (records (cleanup now s) !! bKey r) as [current|] eqn:E.
  - destruct (swept_record now s (bKey r) current Hi E) as [Hv [_ Hst]].
    rewrite conflict_test, Hv. unfold begin_spec. intros Heq.
    assert (Hs : s' = cleanup now s) by (destruct (conflicts _ _); by simplify_eq).
    split; [by rewrite Hs|]. split_and!.
    + rewrite Hs, (cleanup_view_after now s _ Hi), Hv. destruct (conflicts _ _); [done|].
      by destruct (cell_of current).
    + destruct (conflicts _ _); simplify_eq; [done|]. unfold cell_of.
      destruct Hst as [[-> ->]| ->]; by case_decide.
    + intros k Hk. rewrite Hs. by apply cleanup_view_after.
  - intros Heq. simplify_eq. rewrite (swept_none now s _ Hi E). cbn [expiresAt].
    destruct (store_record now s (bKey r)
      (mkRecord BeginInProgress (bToken r) (bFingerprint r) [] (now + bTTL r)) Hi) as (? & Hv & ?).
    { destruct Hi as [? _]. split; [unfold zeroTime in *; cbn [expiresAt]; lia|by left]. }
    { cbn [expiresAt]. lia. }
    split_and!; [done|exact Hv|done|done].
Qed.

Lemma owned_cell r tok :
  wf_record r -> owned (Some r) tok = match cell_of r with Claimed t _ _ => bool_decide (t = tok) | _ => false end.
Proof.
  intros [_ Hst]. unfold owned, cell_of. destruct Hst as [[-> _]| ->].
  - rewrite decide_True, bool_decide_eq_true_2 by done. cbn [andb].
    destruct (String.eqb_spec (token r) tok); symmetry;
      [by apply bool_decide_eq_true_2|by apply bool_decide_eq_false_2].
  - by rewrite decide_False, bool_decide_eq_false_2.
Qed.

Lemma mem_complete_law ctx n now r s s' res :
  mem_inv s now -> 0 < cTTL r -> MemComplete ctx n now r s = (s', res) ->
  mem_inv s' now /\
  match validateContext ctx n with
  | Some err => s' = s /\ res = Some err
  | None => mem_view s' now (cKey r) = fst (complete_spec (Z.add now) r (mem_view s now (cKey r))) /\
            res = snd (complete_spec (Z.add now) r (mem_view s now (cKey r))) /\
            (forall k, k <> cKey r -> mem_view s' now k = mem_view s now k)
  end.
Proof.
  intros Hi Ht. unfold MemComplete. destruct (validateContext ctx n); [intros; by simplify_eq|].
  cbv zeta. destruct (sweep_spec now s Hi) as (Hi' & _ & _).
  destruct (records (cleanup now s) !! cKey r) as [current|] eqn:E.
  - destruct (swept_record now s (cKey r) current Hi E) as [Hv Hw].
    rewrite (owned_cell current _ Hw), Hv. unfold complete_spec. intros Heq.
    pose proof (fun k => cleanup_view_after now s k Hi) as Hc.
    destruct (cell_of current) as [t f e|d f e] eqn:Ec;
      [destruct (bool_decide (t = cToken r))|]; cbn [negb] in Heq; simplify_eq;
      try (split_and!; [done|by rewrite Hc|done|done]).
    destruct (store_record now s (cKey r)
      (mkRecord BeginCompleted "" (rfingerprint current) (cResult r) (now + cTTL r)) Hi) as (? & Hv' & ?).
    { destruct Hi as [? _]. split; [unfold zeroTime in *; cbn [expiresAt]; lia|by right]. }
    { cbn [expiresAt]. lia. }
    split_and!; [done| |done|done]. cbn [fst]. etrans; [exact Hv'|].
    rewrite <- (fingerprint_cell_of current), Ec. done.
  - intros Heq. simplify_eq. rewrite (swept_none now s _ Hi E).
    split_and!; [done| |done|intros; by apply cleanup_view_after].
    rewrite (cleanup_view_after now s _ Hi). by apply swept_none.
Qed.

Lemma mem_abort_law ctx n now r s s' res :
  mem_inv s now -> MemAbort ctx n now r s = (s', res) ->
  mem_inv s' now /\
  match validateContext ctx n with
  | Some err => s' = s /\ res = Some err
  | None => mem_view s' now (aKey r) = fst (abort_spec r (mem_view s now (aKey r))) /\
            res = snd (abort_spec r (mem_view s now (aKey r))) /\
            (forall k, k <> aKey r -> mem_view s' now k = mem_view s now k)
  end.
Proof.
  intros Hi. unfold MemAbort. destruct (validateContext ctx n); [intros; by simplify_eq|].
  cbv zeta. destruct (sweep_spec now s Hi) as ((Hnow & Hs & Hw) & _ & _).
  pose proof (fun k => cleanup_view_after now s k Hi) as Hc. intros Heq.
  destruct (records (cleanup now s) !! aKey r) as [current|] eqn:E.
  - destruct (swept_record now s (aKey r) current Hi E) as [Hv Hwr].
    rewrite (owned_cell current _ Hwr) in Heq. rewrite Hv. unfold abort_spec.
    destruct (cell_of current) as [t f e|d f e];
      [destruct (bool_decide (t = aToken r))|]; cbn [negb] in Heq; simplify_eq;
      try (split_and!; [done|by rewrite Hc|done|done]).
    split; [|split_and!].
    + unfold mem_inv. split_and!; [done| |by apply map_Forall_delete].
      intros k' r' Hk. cbn [records nextCleanup] in *. apply lookup_delete_Some in Hk as [_ Hk]. by eapply Hs.
    + unfold mem_view. cbn [records]. by rewrite lookup_delete_eq.
    + done.
    + intros k' Hk. unfold mem_view at 1. cbn [records]. rewrite lookup_delete_ne by done. by apply (Hc k').
  - cbn in Heq. simplify_eq. rewrite (swept_none now s _ Hi E).
    split_and!; [done|by rewrite Hc; apply swept_none|done|done].
Qed.

#[export] Instance mem_store_laws : StoreLaws MemStore := {|
  inv := mem_inv;
  view := mem_view;
  deadline := Z.add;
  inv_mono := fun s t t' H Ht => conj (Z.lt_le_trans _ _ _ (proj1 H) Ht) (proj2 H);
  view_live := fun s t k => live_again t t _ (Z.le_refl t);
  view_mono := fun s t t' k _ Ht => eq_sym (live_again t t' _ Ht);
  begin_law := mem_begin_law;
  complete_law := mem_complete_law;
  abort_law := mem_abort_law
|}.

Lemma new_idem_store_inv t : zeroTime < t -> mem_inv new_store t.
Proof. intros Ht. unfold mem_inv. split_and!; [done| |apply map_Forall_empty]. by intros k r Hk. Qed.

(** C5: Whatever operations are made on a new store, at times that never go
    back and with positive TTLs, it answers each of them as the abstract table
    of expiring cells does: skipping the sweep until [nextCleanup] never shows
    an expired record, and the sweep never drops a live one. *)
Theorem mem_store_refines t e ops :
  zeroTime < t -> times_in t e ops -> Forall (fun p => ttl_pos (snd p)) ops ->
  snd (store_run ops new_store) = snd (spec_run Z.add ops (fun _ => None)).
Proof.
  intros Ht Hts Hops.
  change Z.add with (deadline (S := MemStore)).
  apply (store_run_spec t e); [by apply new_idem_store_inv|done|done|done].
Qed.

Lemma mem_store_refines_witness :
  snd (store_run [(5, OBegin (Some Background) 0 (mkBegin "k" "a" "" 3));
                  (6, OBegin (Some Background) 0 (mkBegin "k" "b" "" 3));
                  (8, OBegin (Some Background) 0 (mkBegin "k" "c" "" 3));
                  (9, OComplete (Some Background) 0 (mkComplete "k" "a" [] 3));
                  (9, OComplete (Some Background) 0 (mkComplete "k" "c" [] 3))] new_store)
  = [ABegin (inl (mkResult BeginAcquired [])); ABegin (inl (mkResult BeginInProgress []));
     ABegin (inl (mkResult BeginAcquired [])); AEnd (Some ErrClaimLost); AEnd None].
Proof.
  rewrite (mem_store_refines 5 10); [reflexivity|done|simpl; lia|repeat constructor; lia].
Defined.

Lemma claim_exclusive_witness :
  let s1 := fst (MemBegin (Some Background) 0 5 (mkBegin "k" "a" "" 3) new_store) in
  let ops := [(6, OBegin (Some Background) 0 (mkBegin "k" "b" "" 3));
              (7, OAbort (Some Background) 0 (mkAbort "k" "b"))] in
  mem_view (fst (store_run ops s1)) 7 "k" = Some (Claimed "a" "" 8).
Proof.
  intros s1 ops. destruct (store_run ops s1) as [s' ans] eqn:E.
  destruct (claim_exclusive 5 "k" (Claimed "a" "" 8) ops s1 s' ans) as [H _]; [..|exact H].
  - by apply (mem_begin_law (Some Background) 0 5 (mkBegin "k" "a" "" 3) new_store s1
      (inl (mkResult BeginAcquired [])) (new_idem_store_inv 5 ltac:(done)) ltac:(done)).
  - reflexivity.
  - simpl. lia.
  - repeat constructor; simpl; congruence || lia || (intros _ []).
  - exact E.
Defined.

(** A call of [DoValue] for numbers below 256, encoded as one byte. *)
Definition byte_marshal (n : nat) : bytes + error :=
  if (n <? 256)%nat then inl [Ascii.ascii_of_nat n] else inr (ErrMsg "too large").
Definition byte_unmarshal (b : bytes) : nat + error :=
  match b with [c] => inl (Ascii.nat_of_ascii c) | _ => inr (ErrMsg "bad length") end.

Lemma byte_codec v d : byte_marshal v = inl d -> byte_unmarshal d = inl v.
Proof.
  unfold byte_marshal. destruct (Nat.ltb_spec v 256); [|done]. intros [= <-]. simpl.
  by rewrite Ascii.nat_ascii_embedding.
Qed.

Definition call (r : run) (handler : nat * option error) (s : MemStore) :=
  DoValue 0%nat byte_marshal byte_unmarshal (newConfig []) (Some Background) "k" (Some handler) [] r s.

Lemma DoValue_outcomes_witness :
  let r := mkRun 5 6 false (inl "a"%string) in
  value_contract (newConfig []) "k" [] r "a" 0%nat byte_marshal byte_unmarshal 7%nat None new_store
    (fst (call r (7%nat, None) new_store)) (Return (mkRes 7%nat false) None true).
Proof.
  intros r.
  destruct (DoValue_outcomes 0%nat byte_marshal byte_unmarshal [] [] Background "k" 7%nat None r "a"
    new_store (fst (call r (7%nat, None) new_store)) (Return (mkRes 7%nat false) None true)) as [H _];
    [done|done|done|simpl; lia|by apply new_idem_store_inv|vm_compute; reflexivity|exact H].
Defined.

Lemma DoValue_replay_witness :
  let r1 := mkRun 5 6 false (inl "a"%string) in let r2 := mkRun 9 10 false (inl "b"%string) in
  let s1 := fst (call r1 (7%nat, None) new_store) in
  snd (call r2 (8%nat, None) s1) = Return (mkRes 7%nat true) None false.
Proof.
  intros r1 r2 s1.
  apply (DoValue_replay 0%nat byte_marshal byte_unmarshal [] [] [] Background Background "k" 7%nat (8%nat, None)
    r1 r2 "a" "b" [] new_store s1 s1 []); try done.
  - apply byte_codec.
  - by left.
Defined.
