(* ===== verification/IdempotencyRedis.v ===== *)
(** * The Redis idempotency store: [src/idempotency/redis]

    A record is a hash with the fields [status], [token], [fingerprint] and
    [result], ended by the server's clock.  Three scripts begin, complete and
    abort; the store meets the contract of [Idempotency.StoreLaws], so that the
    executor's theorems hold for it. *)

From S2P Require Import Prelude GoErrors GoStrconv Redis Idempotency.
From Stdlib Require Import Ascii.
From stdpp Require Import options.
Set Default Proof Using "Type*".
Local Open Scope string_scope.
Local Open Scope Z_scope.
Local Open Scope lua_scope.

(** ** [config.go] *)

Definition defaultPrefix : string := "fries:idempotency:".

Record config := mkConfig { cprefix : string }.

Definition WithPrefix (prefix : string) : config -> config := fun c =>
  let prefix := TrimRight prefix in
  if negb (bool_decide (prefix = EmptyString)) then mkConfig (prefix +:+ ":") else c.

Definition newConfig (options : list (option (config -> config))) : config :=
  apply_options options (mkConfig defaultPrefix).

(** ** [store.go] *)

Definition beginAcquiredCode : Z := 1.
Definition beginInProgressCode : Z := 2.
Definition beginCompletedCode : Z := 3.
Definition beginConflictCode : Z := 4.

(** A reply compared with a string, and [reply or ""]. *)
Definition is_str (r : reply) (s : string) : bool :=
  match r with RStr s' => bool_decide (s' = s) | _ => false end.
Definition str_or_empty (r : reply) : string := match r with RStr s => s | _ => "" end.

Section Store.
Context {R : Type} `{!RedisServer R}.

Definition beginScript (KEYS1 ARGV1 ARGV2 : string) (ARGV3 : Z) : script R any :=
  local status <- redis_call KEYS1 (HGET "status") in
  match status with
  | RNil =>
      call redis_call KEYS1
        (HSET [("status", "in_progress"); ("token", ARGV1); ("fingerprint", ARGV2)]) then
      call redis_call KEYS1 (PEXPIRE ARGV3) then
      sret (AList [AInt 1; AStr ""])
  | _ =>
      local fp <- redis_call KEYS1 (HGET "fingerprint") in
      let fingerprint := str_or_empty fp in
      if negb (bool_decide (ARGV2 = "")) && negb (bool_decide (fingerprint = ARGV2)) then
        sret (AList [AInt 4; AStr ""])
      else if is_str status "in_progress" then sret (AList [AInt 2; AStr ""])
      else if is_str status "completed" then
        local result <- redis_call KEYS1 (HGET "result") in
        sret (AList [AInt 3; AStr (str_or_empty result)])
      else sret (AList [AInt 0; AStr ""])
  end.

Definition completeScript (KEYS1 ARGV1 ARGV2 : string) (ARGV3 : Z) : script R any :=
  local status <- redis_call KEYS1 (HGET "status") in
  if negb (is_str status "in_progress") then sret (AInt 0)
  else
    local token <- redis_call KEYS1 (HGET "token") in
    if negb (is_str token ARGV1) then sret (AInt 0)
    else
      call redis_call KEYS1 (HSET [("status", "completed"); ("result", ARGV2)]) then
      call redis_call KEYS1 (HDEL "token") then
      call redis_call KEYS1 (PEXPIRE ARGV3) then
      sret (AInt 1).

Definition abortScript (KEYS1 ARGV1 : string) : script R any :=
  local status <- redis_call KEYS1 (HGET "status") in
  if negb (is_str status "in_progress") then sret (AInt 0)
  else
    local token <- redis_call KEYS1 (HGET "token") in
    if negb (is_str token ARGV1) then sret (AInt 0)
    else
      local n <- redis_call KEYS1 DEL in
      sret (match n with RInt z => AInt z | _ => ANil end).

Record RedisStore := mkStore { client : Client R; prefix : string }.

(** [New] panics on a nil client: no store. *)
Definition New (client : option (Client R)) (options : list (option (config -> config)))
    : option RedisStore :=
  match client with
  | None => None
  | Some cl => let c := newConfig options in Some (mkStore cl (cprefix c))
  end.

Definition resultBytes (value : any) : bytes + error :=
  match value with
  | AStr s => inl (String.list_ascii_of_string s)
  | _ => inr (ErrMsg "invalid result type")
  end.

Definition RedisBegin (ctx : option context) (n : nat) (now : Z) (request : BeginRequest)
    (s : RedisStore) : RedisStore * (BeginResult + error) :=
  match validateContext ctx n with
  | Some err => (s, inr err)
  | None =>
      let key := prefix s +:+ bKey request in
      let '(cl, raw) :=
        roundtrip (client s)
          (beginScript key (bToken request) (bFingerprint request) (milliseconds (bTTL request))) now in
      (mkStore cl (prefix s),
       match raw with
       | inr err => inr (ErrWrapf "idempotency/redis: begin" err)
       | inl (AList [code; data]) =>
           match code with
           | AInt code =>
               if code =? beginAcquiredCode then inl (mkResult BeginAcquired [])
               else if code =? beginInProgressCode then inl (mkResult BeginInProgress [])
               else if code =? beginCompletedCode then
                 match resultBytes data with
                 | inr err => inr (ErrWrapf "idempotency/redis: begin" err)
                 | inl data => inl (mkResult BeginCompleted data)
                 end
               else if code =? beginConflictCode then inr ErrKeyConflict
               else inr (ErrMsg "idempotency/redis: begin returned invalid status")
           | _ => inr (ErrMsg "idempotency/redis: begin returned status of another type")
           end
       | inl _ => inr (ErrMsg "idempotency/redis: begin returned another type")
       end)
  end.

Definition RedisComplete (ctx : option context) (n : nat) (now : Z) (request : CompleteRequest)
    (s : RedisStore) : RedisStore * option error :=
  match validateContext ctx n with
  | Some err => (s, Some err)
  | None =>
      let key := prefix s +:+ cKey request in
      let '(cl, raw) :=
        roundtrip (client s)
          (completeScript key (cToken request) (String.string_of_list_ascii (cResult request))
             (milliseconds (cTTL request))) now in
      (mkStore cl (prefix s),
       match (match raw with inl a => Int64 a | inr e => inr e end) with
       | inr err => Some (ErrWrapf "idempotency/redis: complete" err)
       | inl completed => if completed =? 0 then Some ErrClaimLost else None
       end)
  end.

Definition RedisAbort (ctx : option context) (n : nat) (now : Z) (request : AbortRequest)
    (s : RedisStore) : RedisStore * option error :=
  match validateContext ctx n with
  | Some err => (s, Some err)
  | None =>
      let key := prefix s +:+ aKey request in
      let '(cl, raw) := roundtrip (client s) (abortScript key (aToken request)) now in
      (mkStore cl (prefix s),
       match (match raw with inl a => Int64 a | inr e => inr e end) with
       | inr err => Some (ErrWrapf "idempotency/redis: abort" err)
       | inl aborted => if aborted =? 0 then Some ErrClaimLost else None
       end)
  end.

#[export] Instance redis_store : Store RedisStore := {|
  Begin := RedisBegin;
  Complete := RedisComplete;
  Abort := RedisAbort
|}.
End Store.
Arguments RedisStore : clear implicits.

(** ** The contract *)

(** The hash of a claim, and that of a result. *)
Definition is_claim (h : gmap string string) (tok f : string) : Prop :=
  h !! "status" = Some "in_progress" /\ h !! "token" = Some tok /\ h !! "fingerprint" = Some f.
Definition is_done (h : gmap string string) (res f : string) : Prop :=
  h !! "status" = Some "completed" /\ h !! "result" = Some res /\ h !! "fingerprint" = Some f.

(** An entry the scripts wrote, and the cell it stands for. *)
Inductive record_entry : entry -> cell -> Prop :=
| claim_entry h tok f d : is_claim h tok f -> record_entry (mkEntry (VHash h) (Some d)) (Claimed tok f d)
| done_entry h res f d : is_done h res f ->
    record_entry (mkEntry (VHash h) (Some d)) (Done (String.list_ascii_of_string res) f d).

Definition cell_of (e : option entry) : option cell :=
  en ← e;
  match en with
  | mkEntry (VHash h) (Some d) =>
      st ← h !! "status"; f ← h !! "fingerprint";
      if decide (st = "in_progress") then tok ← h !! "token"; Some (Claimed tok f d)
      else if decide (st = "completed") then
        res ← h !! "result"; Some (Done (String.list_ascii_of_string res) f d)
      else None
  | _ => None
  end.

Lemma cell_of_record en c : record_entry en c -> cell_of (Some en) = Some c.
Proof. intros [h tok f d (H1 & H2 & H3)|h res f d (H1 & H2 & H3)]; simpl; by rewrite H1, H3, H2. Qed.

Lemma cell_of_expiry v d c : cell_of (Some (mkEntry v d)) = Some c -> d = Some (expiry c).
Proof.
  destruct v as [|h], d as [d|]; simpl; try done. intros Hc.
  destruct (h !! "status"), (h !! "fingerprint"); simpl in Hc; try done.
  repeat case_decide; [destruct (h !! "token")|destruct (h !! "result")|done]; by simplify_eq/=.
Qed.

Lemma cell_of_unexpired t e : cell_of (unexpired t e) = live t (cell_of e).
Proof.
  destruct e as [[v d]|]; [|done]. destruct (cell_of (Some (mkEntry v d))) as [c|] eqn:E.
  - pose proof (cell_of_expiry v d c E) as ->. unfold live, unexpired.
    cbn [mbind option_bind due]. by destruct (t <? expiry c).
  - destruct d as [d|]; simpl; [|done]. by destruct (t <? d).
Qed.

Section Laws.
Context {R : Type} `{!RedisServer R, !RedisLaws R}.

Definition redis_view (s : RedisStore R) (t : Z) (k : string) : option cell :=
  cell_of (lookup_at (server (client s)) t (prefix s +:+ k)).

Definition redis_inv (s : RedisStore R) (t : Z) : Prop :=
  faults (client s) = [] /\
  forall k en, lookup_at (server (client s)) t (prefix s +:+ k) = Some en -> exists c, record_entry en c.

Definition redis_deadline (now ttl : Z) : Z := ends now (milliseconds ttl).

Lemma deadline_after now ttl : now < ends now (milliseconds ttl).
Proof. pose proof (ends_bounds now (milliseconds ttl)). pose proof (milliseconds_pos ttl). lia. Qed.

Lemma redis_view_mono s t t' k : t <= t' -> redis_view s t' k = live t' (redis_view s t k).
Proof. intros Ht. unfold redis_view. rewrite (lookup_later _ t t') by done. apply cell_of_unexpired. Qed.

Lemma redis_inv_mono s t t' : redis_inv s t -> t <= t' -> redis_inv s t'.
Proof.
  intros [Hf Hs] Ht. split; [done|]. intros k en. rewrite (lookup_later _ t) by done.
  intros [Hu _]%unexpired_Some. by apply (Hs k).
Qed.

(** What a script that ran on one key left: its entry, and the others. *)
Definition left_with (r r' : R) (t : Z) (k : string) (e : option entry) : Prop :=
  lookup_at r' t k = e /\ (forall k', k' <> k -> lookup_at r' t k' = lookup_at r t k').

Lemma left_with_store r r' p t key e :
  redis_inv (mkStore (mkClient r []) p) t -> left_with r r' t (p +:+ key) e ->
  (forall en, e = Some en -> exists c, record_entry en c) ->
  let s' := mkStore (mkClient r' []) p in
  redis_inv s' t /\ redis_view s' t key = cell_of e /\
  (forall k, k <> key -> redis_view s' t k = redis_view (mkStore (mkClient r []) p) t k).
Proof.
  intros [_ Hs] [He Hne] Hwf s'. unfold redis_view. simpl in *. split_and!.
  - split; [done|]. simpl. intros k en. destruct (decide (k = key)) as [->|Hk].
    + rewrite He. apply Hwf.
    + rewrite Hne by (by apply prefix_ne). apply Hs.
  - by rewrite He.
  - intros k Hk. by rewrite Hne by (by apply prefix_ne).
Qed.

(** The steps of a script on its key: each call, then the rest. *)
Lemma left_with_trans r r1 r2 t k e1 e2 :
  left_with r r1 t k e1 -> left_with r1 r2 t k e2 -> left_with r r2 t k e2.
Proof. intros [_ H1] [H2 H2']. split; [done|]. intros k' Hk. by rewrite H2', H1. Qed.

Lemma call_left r t k c e :
  lookup_at r t k = e ->
  exists r', redis_call k c t r
             = (r', match (cmd_spec (ends t) c e).2 with RErr x => inr x | rep => inl rep end) /\
    left_with r r' t k (unexpired t (cmd_spec (ends t) c e).1).
Proof.
  intros He. destruct (redis_call_step r t k c e He) as (r' & Hc & Hl & Hf). exists r'.
  split; [exact Hc|]. split; [exact Hl|]. intros k' Hk. by apply Hf.
Qed.
End Laws.

(** Run the next call of a script, knowing what the calls before left. *)
Ltac run_call HL :=
  let r := fresh "r" in let Hc := fresh "Hc" in let Hl := fresh "Hl" in
  cbv beta;
  match goal with
  | |- context [redis_call ?k ?c ?t ?r0] =>
      destruct (call_left r0 t k c _ (proj1 HL)) as (r & Hc & Hl); rewrite Hc;
      apply (left_with_trans _ _ _ _ _ _ _ HL) in Hl; clear HL Hc; rename Hl into HL;
      cbn [cmd_spec fst snd from_option] in HL |- *
  end.

Section Scripts.
Context {R : Type} `{!RedisServer R, !RedisLaws R}.

Lemma left_refl r t k : left_with r r t k (lookup_at r t k).
Proof. done. Qed.

(** A record that is only read stays. *)
Lemma unexpired_live r t k en : lookup_at r t k = Some en -> unexpired t (Some en) = Some en.
Proof. intros H. by rewrite <- H, lookup_live. Qed.

(** The test of the script for a fingerprint that differs. *)
Lemma lua_conflict fp c :
  negb (bool_decide (fp = "")) && negb (bool_decide (fingerprint_of c = fp)) = conflicts fp c.
Proof.
  unfold conflicts. destruct (decide (fp = "")) as [->|Hf].
  - rewrite bool_decide_eq_true_2 by done. symmetry. apply bool_decide_eq_false_2. by intros [[] _].
  - rewrite (bool_decide_eq_false_2 (fp = "")) by done. simpl.
    destruct (decide (fingerprint_of c = fp)).
    + rewrite bool_decide_eq_true_2 by done. symmetry. apply bool_decide_eq_false_2. by intros [_ []].
    + rewrite bool_decide_eq_false_2 by done. symmetry. apply bool_decide_eq_true_2. by split; [|congruence].
Qed.

Lemma script_begin r t k tok fp ttl :
  (forall en, lookup_at r t k = Some en -> exists c, record_entry en c) ->
  let c := cell_of (lookup_at r t k) in
  let spec := begin_spec (redis_deadline t) (mkBegin k tok fp ttl) c in
  exists r' e' code data,
    beginScript k tok fp (milliseconds ttl) t r = (r', inl (AList [AInt code; AStr data])) /\
    left_with r r' t k e' /\ (forall en, e' = Some en -> exists c, record_entry en c) /\
    cell_of e' = spec.1 /\
    match spec.2 with
    | inl (mkResult BeginAcquired d) => code = 1 /\ d = []
    | inl (mkResult BeginInProgress d) => code = 2 /\ d = []
    | inl (mkResult BeginCompleted d) => code = 3 /\ d = String.list_ascii_of_string data
    | inl (mkResult (BeginInvalid _) _) => False
    | inr err => code = 4 /\ err = ErrKeyConflict
    end.
Proof.
  intros Hwf. cbv zeta. unfold beginScript, sbind, sret. pose proof (left_refl r t k) as HL.
  destruct (lookup_at r t k) as [en|] eqn:E.
  - pose proof (unexpired_live r t k en E) as Hu.
    destruct (Hwf en eq_refl) as [c Hc]. rewrite (cell_of_record en c Hc).
    destruct Hc as [h tk f d (H1 & H2 & H3)|h res f d (H1 & H2 & H3)];
      run_call HL; rewrite H1; cbn [from_option]; rewrite Hu in HL; run_call HL; rewrite H3; cbn [from_option];
      rewrite Hu in HL; cbn [str_or_empty]; unfold begin_spec; cbn [bFingerprint].
    + pose proof (lua_conflict fp (Claimed tk f d)) as Hcf.
      cbn [fingerprint_of] in Hcf. rewrite Hcf. destruct (conflicts _ _).
      * do 4 eexists. split_and!; [done|exact HL|exact Hwf|by simpl; rewrite H1, H3; simpl; rewrite H2|done..].
      * do 4 eexists. split_and!; [done|exact HL|exact Hwf|by simpl; rewrite H1, H3; simpl; rewrite H2|done..].
    + pose proof (lua_conflict fp (Done (String.list_ascii_of_string res) f d)) as Hcf.
      cbn [fingerprint_of] in Hcf. rewrite Hcf. destruct (conflicts _ _).
      * do 4 eexists. split_and!; [done|exact HL|exact Hwf|by simpl; rewrite H1, H3; simpl; rewrite H2|done..].
      * change (is_str (RStr "completed") "in_progress") with false.
        change (is_str (RStr "completed") "completed") with true. cbv iota.
        run_call HL. rewrite Hu in HL. rewrite H2.
        do 4 eexists. split_and!; [done|exact HL|exact Hwf|by simpl; rewrite H1, H3; simpl; rewrite H2|done..].
  - cbn [cell_of mbind option_bind bToken bFingerprint bTTL fst snd].
    run_call HL. run_call HL. cbn [unexpired mbind option_bind due foldl fst snd] in HL.
    set (h := <["fingerprint" := fp]> _) in HL.
    run_call HL. destruct (Z.leb_spec (milliseconds ttl) 0) as [Hle|_]; [pose proof (milliseconds_pos ttl); lia|].
    cbn [val due unexpired mbind option_bind] in HL. pose proof (deadline_after t ttl).
    destruct (Z.ltb_spec t (ends t (milliseconds ttl))); [|lia].
    assert (Hrec : record_entry (mkEntry (VHash h) (Some (redis_deadline t ttl)))
                     (Claimed tok fp (redis_deadline t ttl))).
    { constructor. unfold h. by repeat split; simplify_map_eq. }
    do 4 eexists. split_and!; [done|exact HL| |by apply cell_of_record|done..].
    intros en [= <-]. by eexists.
Qed.

(** Both closing scripts test the claim's owner first. *)
Definition owned_by (e : option entry) (tok : string) : bool :=
  match cell_of e with Some (Claimed t _ _) => bool_decide (t = tok) | _ => false end.

Lemma script_owner {A} r t k tok (other : script R A) (mine : script R A) :
  (forall en, lookup_at r t k = Some en -> exists c, record_entry en c) ->
  exists r', left_with r r' t k (lookup_at r t k) /\
    (sbind (redis_call k (HGET "status")) (fun status =>
       if negb (is_str status "in_progress") then other
       else sbind (redis_call k (HGET "token")) (fun token =>
              if negb (is_str token tok) then other else mine))) t r
    = (if owned_by (lookup_at r t k) tok then mine else other) t r'.
Proof.
  intros Hwf. pose proof (left_refl r t k) as HL. unfold sbind, owned_by.
  destruct (lookup_at r t k) as [en|] eqn:E.
  - pose proof (unexpired_live r t k en E) as Hu. destruct (Hwf en eq_refl) as [c Hc].
    rewrite (cell_of_record en c Hc).
    destruct Hc as [h tk f d (H1 & H2 & H3)|h res f d (H1 & H2 & H3)];
      run_call HL; rewrite H1; cbn [from_option]; rewrite Hu in HL.
    + change (is_str (RStr "in_progress") "in_progress") with true. cbn [negb].
      run_call HL. rewrite Hu in HL. rewrite H2. cbn [from_option is_str].
      eexists. split; [exact HL|]. by destruct (bool_decide (tk = tok)).
    + eexists. by split; [exact HL|].
  - run_call HL. cbn [unexpired mbind option_bind] in HL. by eexists.
Qed.

Lemma script_complete r t k tok data ttl :
  (forall en, lookup_at r t k = Some en -> exists c, record_entry en c) ->
  let spec := complete_spec (redis_deadline t) (mkComplete k tok data ttl) (cell_of (lookup_at r t k)) in
  exists r' e',
    completeScript k tok (String.string_of_list_ascii data) (milliseconds ttl) t r
    = (r', inl (AInt (match spec.2 with None => 1 | Some _ => 0 end))) /\
    left_with r r' t k e' /\ (forall en, e' = Some en -> exists c, record_entry en c) /\
    cell_of e' = spec.1 /\ (spec.2 = None \/ spec.2 = Some ErrClaimLost).
Proof.
  intros Hwf. cbv zeta. unfold completeScript.
  match goal with |- context [sbind (redis_call k (HGET "status")) (fun status =>
     if negb (is_str status "in_progress") then ?o else sbind _ (fun token => if _ then _ else ?m))] =>
    destruct (script_owner r t k tok o m Hwf) as (r1 & HL & ->) end.
  unfold owned_by. destruct (cell_of (lookup_at r t k)) as [[tk f d|res f d]|] eqn:Ec; cbn [complete_spec cToken];
    try (do 2 eexists; split_and!; [done|exact HL|done|done|by right]).
  destruct (bool_decide (tk = tok)) eqn:Eb; try (do 2 eexists; split_and!; [done|exact HL|done|done|by right]).
  destruct (lookup_at r t k) as [en|] eqn:E; [|done].
  destruct (Hwf en eq_refl) as [c Hc]. rewrite (cell_of_record en c Hc) in Ec. injection Ec as ->.
  inversion Hc as [h tk' f' d' (H1 & H2 & H3)|]; subst. unfold sbind, sret.
  assert (Hd : (t <? d) = true).
  { pose proof (unexpired_live r t k _ E) as Hu. simpl in Hu. by destruct (t <? d). }
  run_call HL. cbn [unexpired mbind option_bind due foldl fst snd] in HL. rewrite Hd in HL.
  set (h1 := <["result" := _]> _) in HL. run_call HL.
  assert (Hst : delete "token" h1 !! "status" = Some "completed") by (unfold h1; by simplify_map_eq).
  destruct (decide (delete "token" h1 = ∅)) as [He|_]; [by rewrite He in Hst|].
  cbn [unexpired mbind option_bind due] in HL. rewrite Hd in HL.
  run_call HL. destruct (Z.leb_spec (milliseconds ttl) 0) as [Hle|_]; [pose proof (milliseconds_pos ttl); lia|].
  cbn [val due unexpired mbind option_bind] in HL. pose proof (deadline_after t ttl).
  destruct (Z.ltb_spec t (ends t (milliseconds ttl))); [|lia].
  assert (Hrec : record_entry (mkEntry (VHash (delete "token" h1)) (Some (redis_deadline t ttl)))
                   (Done data f (redis_deadline t ttl))).
  { rewrite <- (String.list_ascii_of_string_of_list_ascii data). constructor.
    unfold h1. by repeat split; simplify_map_eq. }
  do 2 eexists. split_and!; [done|exact HL| |by apply cell_of_record|by left].
  intros en [= <-]. by eexists.
Qed.

Lemma script_abort r t k tok :
  (forall en, lookup_at r t k = Some en -> exists c, record_entry en c) ->
  let spec := abort_spec (mkAbort k tok) (cell_of (lookup_at r t k)) in
  exists r' e',
    abortScript k tok t r = (r', inl (AInt (match spec.2 with None => 1 | Some _ => 0 end))) /\
    left_with r r' t k e' /\ (forall en, e' = Some en -> exists c, record_entry en c) /\
    cell_of e' = spec.1 /\ (spec.2 = None \/ spec.2 = Some ErrClaimLost).
Proof.
  intros Hwf. cbv zeta. unfold abortScript.
  match goal with |- context [sbind (redis_call k (HGET "status")) (fun status =>
     if negb (is_str status "in_progress") then ?o else sbind _ (fun token => if _ then _ else ?m))] =>
    destruct (script_owner r t k tok o m Hwf) as (r1 & HL & ->) end.
  unfold owned_by. destruct (cell_of (lookup_at r t k)) as [[tk f d|res f d]|] eqn:Ec; cbn [abort_spec aToken];
    try (do 2 eexists; split_and!; [done|exact HL|done|done|by right]).
  destruct (bool_decide (tk = tok)) eqn:Eb; try (do 2 eexists; split_and!; [done|exact HL|done|done|by right]).
  destruct (lookup_at r t k) as [en|] eqn:E; [|done]. unfold sbind, sret. run_call HL.
  do 2 eexists. split_and!; [done|exact HL|done|done|by left].
Qed.

(** ** The store meets the contract *)

Lemma redis_begin_law ctx n now req s s' res :
  redis_inv s now -> 0 < bTTL req -> RedisBegin ctx n now req s = (s', res) ->
  redis_inv s' now /\
  match validateContext ctx n with
  | Some err => s' = s /\ res = inr err
  | None => redis_view s' now (bKey req) = fst (begin_spec (redis_deadline now) req (redis_view s now (bKey req))) /\
            res = snd (begin_spec (redis_deadline now) req (redis_view s now (bKey req))) /\
            (forall k, k <> bKey req -> redis_view s' now k = redis_view s now k)
  end.
Proof.
  intros Hi _. unfold RedisBegin. destruct (validateContext ctx n); [intros; by simplify_eq|].
  destruct s as [[r fs] p], req as [key tok fp ttl]. destruct (Hi) as [Hf Hs]. simpl in Hf, Hs. subst fs.
  cbn [client prefix bKey bToken bFingerprint bTTL]. rewrite roundtrip_ok.
  destruct (script_begin r now (p +:+ key) tok fp ttl (Hs key)) as (r' & e' & code & data & -> & HL & Hw & Hc & Ha).
  cbn [fst snd]. intros Heq. destruct (left_with_store r r' p now key e' Hi HL Hw) as (Hi' & Hv & Hne).
  injection Heq as <- Hres. split; [done|].
  rewrite Hv, Hc. unfold redis_view. cbn [client prefix server]. 
  split_and!; [by destruct (cell_of _) as [[]|]| |done].
  rewrite <- Hres. clear Hres Hc. unfold begin_spec in *. cbn [bFingerprint bToken bTTL] in *.
  destruct (cell_of _) as [c|]; [destruct (conflicts fp c); [|destruct c]|]; cbn [snd fst] in *;
    destruct Ha as [-> Ha]; try done; by rewrite Ha.
Qed.

(** The answer of a closing script, as the Go code reads it. *)
Lemma closing_answer msg (o : option error) :
  o = None \/ o = Some ErrClaimLost ->
  match Int64 (AInt (match o with None => 1 | Some _ => 0 end)) with
  | inr err => Some (ErrWrapf msg err)
  | inl completed => if completed =? 0 then Some ErrClaimLost else None
  end = o.
Proof. by intros [-> | ->]. Qed.

Lemma redis_complete_law ctx n now req s s' res :
  redis_inv s now -> 0 < cTTL req -> RedisComplete ctx n now req s = (s', res) ->
  redis_inv s' now /\
  match validateContext ctx n with
  | Some err => s' = s /\ res = Some err
  | None => redis_view s' now (cKey req) = fst (complete_spec (redis_deadline now) req (redis_view s now (cKey req))) /\
            res = snd (complete_spec (redis_deadline now) req (redis_view s now (cKey req))) /\
            (forall k, k <> cKey req -> redis_view s' now k = redis_view s now k)
  end.
Proof.
  intros Hi _. unfold RedisComplete. destruct (validateContext ctx n); [intros; by simplify_eq|].
  destruct s as [[r fs] p], req as [key tok data ttl]. destruct (Hi) as [Hf Hs]. simpl in Hf, Hs. subst fs.
  cbn [client prefix cKey cToken cResult cTTL]. rewrite roundtrip_ok.
  destruct (script_complete r now (p +:+ key) tok data ttl (Hs key)) as (r' & e' & -> & HL & Hw & Hc & Ha).
  cbn [fst snd]. intros Heq. destruct (left_with_store r r' p now key e' Hi HL Hw) as (Hi' & Hv & Hne).
  rewrite closing_answer in Heq by done. injection Heq as <- <-. by rewrite Hv, Hc.
Qed.

Lemma redis_abort_law ctx n now req s s' res :
  redis_inv s now -> RedisAbort ctx n now req s = (s', res) ->
  redis_inv s' now /\
  match validateContext ctx n with
  | Some err => s' = s /\ res = Some err
  | None => redis_view s' now (aKey req) = fst (abort_spec req (redis_view s now (aKey req))) /\
            res = snd (abort_spec req (redis_view s now (aKey req))) /\
            (forall k, k <> aKey req -> redis_view s' now k = redis_view s now k)
  end.
Proof.
  intros Hi. unfold RedisAbort. destruct (validateContext ctx n); [intros; by simplify_eq|].
  destruct s as [[r fs] p], req as [key tok]. destruct (Hi) as [Hf Hs]. simpl in Hf, Hs. subst fs.
  cbn [client prefix aKey aToken]. rewrite roundtrip_ok.
  destruct (script_abort r now (p +:+ key) tok (Hs key)) as (r' & e' & -> & HL & Hw & Hc & Ha).
  cbn [fst snd]. intros Heq. destruct (left_with_store r r' p now key e' Hi HL Hw) as (Hi' & Hv & Hne).
  rewrite closing_answer in Heq by done. injection Heq as <- <-. by rewrite Hv, Hc.
Qed.

#[export] Instance redis_store_laws : StoreLaws (RedisStore R) := {|
  inv := redis_inv;
  view := redis_view;
  deadline := redis_deadline;
  inv_mono := redis_inv_mono;
  view_live := fun s t k => eq_sym (redis_view_mono s t t k (Z.le_refl t));
  view_mono := fun s t t' k _ Ht => redis_view_mono s t t' k Ht;
  begin_law := redis_begin_law;
  complete_law := redis_complete_law;
  abort_law := redis_abort_law
|}.
End Scripts.

(** ** Properties *)

(** The lifetime a record gets: the milliseconds of its TTL, at least one, and
    up to a millisecond more. *)
Lemma redis_deadline_bounds {R} `{!RedisServer R, !RedisLaws R} now ttl :
  0 < ttl ->
  now + ttl - 1000000 < redis_deadline now ttl <= now + Z.max ttl 1000000 + 1000000.
Proof.
  intros Ht. pose proof (ends_bounds now (milliseconds ttl)) as Hb. unfold redis_deadline.
  unfold milliseconds, Milliseconds in *. rewrite Z.quot_div_nonneg in * by lia.
  pose proof (Z.div_mod ttl 1000000). pose proof (Z.mod_pos_bound ttl 1000000).
  destruct (Z.ltb_spec (ttl / 1000000) 1); lia.
Qed.

Section Properties.
Context {R : Type} `{!RedisServer R, !RedisLaws R}.

(** C12: whatever operations are made on a store whose prefix the server has no
    key under, at times that never go back and with positive TTLs, its scripts
    answer each of them as the abstract table of expiring cells does, with
    records that end when the server's clock says. *)
Theorem redis_idem_refines (r : R) p t e ops :
  (forall k, lookup_at r t (p +:+ k) = None) -> times_in t e ops ->
  Forall (fun o => ttl_pos (snd o)) ops ->
  snd (store_run ops (mkStore (mkClient r []) p)) = snd (spec_run redis_deadline ops (fun _ => None)).
Proof.
  intros Hempty Hts Hops. change redis_deadline with (deadline (S := RedisStore R)).
  apply (store_run_spec t e); [|intros k; simpl; unfold redis_view; simpl; by rewrite Hempty|done..].
  split; [done|]. simpl. intros k en. by rewrite Hempty.
Qed.

(** When the reply to a [Begin] on an unused key is lost and the client gives up,
    the caller gets the connection's error, not a claim, and the server keeps the claim: until
    its deadline every other [Begin] is answered in-progress, or in conflict
    when its fingerprint differs. *)
Theorem redis_begin_lost (r : R) p now t req req' lost c c' :
  (forall k, lookup_at r now (p +:+ k) = None) -> c 0%nat = None -> c' 0%nat = None ->
  0 < bTTL req -> 0 < bTTL req' -> bKey req' = bKey req ->
  now <= t < redis_deadline now (bTTL req) ->
  let '(s, res) := RedisBegin (Some c) 0 now req (mkStore (mkClient r [once (Some (NoReply lost))]) p) in
  let '(_, res') := RedisBegin (Some c') 0 t req' s in
  res = inr (ErrWrapf "idempotency/redis: begin" lost) /\
  res' = if negb (bool_decide (bFingerprint req' = "")) &&
            negb (bool_decide (bFingerprint req = bFingerprint req'))
         then inr ErrKeyConflict else inl (mkResult BeginInProgress []).
Proof.
  intros Hempty Hc Hc' Ht Ht' Hk Hnow.
  assert (Hi : redis_inv (mkStore (mkClient r []) p) now).
  { split; [done|]. simpl. intros k en. by rewrite Hempty. }
  destruct (RedisBegin (Some c) 0 now req (mkStore (mkClient r []) p)) as [s1 res1] eqn:E1.
  destruct (redis_begin_law _ _ _ _ _ _ _ Hi Ht E1) as [Hi1 H1].
  unfold validateContext, Cause in H1. rewrite Hc in H1. destruct H1 as (Hv1 & _ & _).
  assert (Hs : (RedisBegin (Some c) 0 now req (mkStore (mkClient r [once (Some (NoReply lost))]) p))
               = (s1, inr (ErrWrapf "idempotency/redis: begin" lost))).
  { revert E1. unfold RedisBegin, validateContext, Cause. rewrite Hc. cbn [client prefix].
    rewrite roundtrip_ok. unfold roundtrip. simpl. by intros [= <- _]. }
  rewrite Hs. destruct (RedisBegin (Some c') 0 t req' s1) as [s2 res2] eqn:E2.
  destruct (redis_begin_law _ _ _ _ _ _ _ (redis_inv_mono _ _ t Hi1 ltac:(lia)) Ht' E2) as [_ H2].
  unfold validateContext, Cause in H2. rewrite Hc' in H2. destruct H2 as (_ & -> & _). split; [done|].
  rewrite Hk, (redis_view_mono s1 now t) by lia. rewrite Hv1.
  unfold redis_view. simpl server. cbn [prefix client server]. rewrite Hempty. cbn [cell_of mbind option_bind].
  unfold begin_spec at 2. cbn [fst]. rewrite live_Some by (simpl; lia). unfold begin_spec.
  pose proof (lua_conflict (bFingerprint req')
    (Claimed (bToken req) (bFingerprint req) (redis_deadline now (bTTL req)))) as Hcf.
  cbn [fingerprint_of] in Hcf. rewrite Hcf. by destruct (conflicts _ _).
Qed.

(** When the client repeats the call instead, the repeated script finds the claim of
    the lost one: the caller is told that the operation is in progress elsewhere,
    while the server holds the claim under the caller's own token. *)
Theorem redis_begin_retried (r : R) p now pause req lost c :
  (forall k, lookup_at r now (p +:+ k) = None) -> c 0%nat = None -> 0 < bTTL req ->
  now + Z.of_N pause < redis_deadline now (bTTL req) ->
  let '(s, res) := RedisBegin (Some c) 0 now req (mkStore (mkClient r [mkFate [(NoReply lost, pause)] None]) p) in
  res = inl (mkResult BeginInProgress []) /\
  redis_view s (now + Z.of_N pause) (bKey req)
  = Some (Claimed (bToken req) (bFingerprint req) (redis_deadline now (bTTL req))).
Proof.
  intros Hempty Hc Ht Hend. assert (Hi : redis_inv (mkStore (mkClient r []) p) now).
  { split; [done|]. simpl. intros k en. by rewrite Hempty. }
  destruct (RedisBegin (Some c) 0 now req (mkStore (mkClient r []) p)) as [s1 res1] eqn:E1.
  destruct (redis_begin_law _ _ _ _ _ _ _ Hi Ht E1) as [Hi1 H1].
  unfold validateContext, Cause in H1. rewrite Hc in H1. destruct H1 as (Hv1 & _ & _).
  assert (Hs : RedisBegin (Some c) 0 now req (mkStore (mkClient r [mkFate [(NoReply lost, pause)] None]) p)
               = RedisBegin (Some c) 0 (now + Z.of_N pause) req s1).
  { revert E1. unfold RedisBegin, validateContext, Cause. rewrite Hc. cbn [client prefix].
    rewrite roundtrip_ok. intros [= <- _]. cbn [client prefix]. rewrite roundtrip_ok.
    unfold roundtrip. cbn [faults retried final attempts attempt server fst].
    by destruct (beginScript _ _ _ _ (now + Z.of_N pause) _). }
  rewrite Hs. destruct (RedisBegin (Some c) 0 (now + Z.of_N pause) req s1) as [s2 res2] eqn:E2.
  destruct (redis_begin_law _ _ _ _ _ _ _ (redis_inv_mono _ _ (now + Z.of_N pause) Hi1 ltac:(lia)) Ht E2) as [_ H2].
  unfold validateContext, Cause in H2. rewrite Hc in H2. destruct H2 as (-> & -> & _).
  assert (Hheld : redis_view s1 (now + Z.of_N pause) (bKey req)
    = Some (Claimed (bToken req) (bFingerprint req) (redis_deadline now (bTTL req)))).
  { rewrite (redis_view_mono s1 now) by lia. rewrite Hv1. unfold redis_view. cbn [prefix client server]. rewrite Hempty.
    cbn [cell_of mbind option_bind]. unfold begin_spec. cbn [fst]. by rewrite live_Some by (simpl; lia). }
  rewrite Hheld. unfold begin_spec.
  pose proof (lua_conflict (bFingerprint req)
    (Claimed (bToken req) (bFingerprint req) (redis_deadline now (bTTL req)))) as Hcf.
  cbn [fingerprint_of] in Hcf. rewrite (bool_decide_eq_true_2 (bFingerprint req = bFingerprint req)), andb_false_r in Hcf by done. by rewrite <- Hcf.
Qed.
End Properties.

Lemma redis_idem_refines_witness :
  snd (store_run [(5000000, OBegin (Some Background) 0 (mkBegin "k" "a" "f" 3000000));
                  (6000000, OBegin (Some Background) 0 (mkBegin "k" "b" "g" 3000000));
                  (6000000, OBegin (Some Background) 0 (mkBegin "k" "b" "f" 3000000));
                  (9000000, OBegin (Some Background) 0 (mkBegin "k" "c" "" 3000000));
                  (9000000, OComplete (Some Background) 0 (mkComplete "k" "a" [] 3000000));
                  (9000000, OComplete (Some Background) 0 (mkComplete "k" "c" [] 3000000));
                  (9000000, OBegin (Some Background) 0 (mkBegin "k" "d" "" 3000000))]
         (mkStore (mkClient empty_server []) defaultPrefix))
  = [ABegin (inl (mkResult BeginAcquired [])); ABegin (inr ErrKeyConflict);
     ABegin (inl (mkResult BeginInProgress [])); ABegin (inl (mkResult BeginAcquired []));
     AEnd (Some ErrClaimLost); AEnd None; ABegin (inl (mkResult BeginCompleted []))].
Proof.
  rewrite (redis_idem_refines empty_server defaultPrefix 5000000 10000000);
    [reflexivity|intros k; apply empty_server_lookup|simpl; lia|repeat constructor; lia].
Defined.

Lemma redis_begin_lost_witness :
  let '(s, res) := RedisBegin (Some Background) 0 5000000 (mkBegin "k" "a" "" 3000000)
                     (mkStore (mkClient empty_server [once (Some (NoReply DeadlineExceeded))]) defaultPrefix) in
  let '(_, res') := RedisBegin (Some Background) 0 6000000 (mkBegin "k" "b" "" 3000000) s in
  res = inr (ErrWrapf "idempotency/redis: begin" DeadlineExceeded) /\
  res' = inl (mkResult BeginInProgress []).
Proof.
  apply (redis_begin_lost empty_server defaultPrefix 5000000 6000000 (mkBegin "k" "a" "" 3000000)
           (mkBegin "k" "b" "" 3000000)); done.
Defined.
