(* ===== verification/Batcher.v ===== *)
(** * Batching items for one worker: [src/batcher]

    The batcher is a transition system.  Its actions are the points where the
    goroutines of the code meet: a caller entering and leaving [submit], a send
    on the request channel, [stop], the closing of the channel once the
    submitters are gone, and the turns of the worker's loop.  The worker alone
    touches its batch, so a turn, handler call included, is one step: sends made
    meanwhile only append to the channel.  The lists of accepted requests, of
    handler calls and of outcomes are the history the theorems speak of. *)

From S2P Require Import Prelude GoErrors.
From stdpp Require Import options.
Set Default Proof Using "Type*".

(** ** [config.go], [errors.go] *)

Definition ErrInvalidOption : string := "batcher: invalid option".
Definition ErrNilHandler : error := ErrNew "batcher: handler must not be nil".
Definition ErrInvalidContext : error := ErrNew "batcher: context must not be nil".
Definition ErrClosed : error := ErrNew "batcher: closed".
Definition ErrFull : error := ErrNew "batcher: queue is full".

Record config := mkConfig { batchSize : Z; flushInterval : Z; queueSize : Z; onResult : bool }.

Inductive Option_ :=
| WithBatchSize (size : Z) | WithFlushInterval (interval : Z) | WithQueueSize (size : Z)
| WithOnResult (set : bool).

Definition apply (o : Option_) (c : config) : config :=
  match o with
  | WithBatchSize size => mkConfig size (flushInterval c) (queueSize c) (onResult c)
  | WithFlushInterval interval => mkConfig (batchSize c) interval (queueSize c) (onResult c)
  | WithQueueSize size => mkConfig (batchSize c) (flushInterval c) size (onResult c)
  | WithOnResult set => mkConfig (batchSize c) (flushInterval c) (queueSize c) set
  end.

Definition newConfig (options : list (option Option_)) : config + error :=
  let c := foldl (fun c o => match o with Some o => apply o c | None => c end)
             (mkConfig 100 Second 1000 false) options in
  if (batchSize c <=? 0)%Z then inr (ErrWrapf "batch size must be positive" (ErrNew ErrInvalidOption))
  else if (flushInterval c <=? 0)%Z then
    inr (ErrWrapf "flush interval must be positive" (ErrNew ErrInvalidOption))
  else if (queueSize c <? 0)%Z then
    inr (ErrWrapf "queue size must not be negative" (ErrNew ErrInvalidOption))
  else inl c.

Definition validateContext (ctx : option context) (n : nat) : option error :=
  match ctx with
  | None => Some ErrInvalidContext
  | Some c => Cause c n
  end.

Section Batcher.
Context {T : Type}.

(** ** [worker.go] *)

(** [item = None] is a flush barrier; [rid] identifies the call that made the
    request, and so the barrier's completion. *)
Record request := mkRequest { rid : nat; item : option T }.

Record worker := mkWorker {
  batch : list T;
  tick : bool;                              (* the timer channel is selected on *)
  firstErr : option error;
  handled : list (list T * option error);   (* handler calls, in order *)
  notified : list (nat * option error);     (* results passed to [onResult] *)
  completed : list (nat * (option error * nat))  (* barriers, with the calls made before them *)
}.

(** [handler k batch] is what the [k]-th call of the handler returns. *)
Variables (handler : nat -> list T -> option error) (cfg : config).

Definition flush (w : worker) : worker :=
  match batch w with
  | [] => w
  | b =>
      let err := handler (length (handled w)) b in
      let firstErr := match err, firstErr w with Some e, None => Some e | _, f => f end in
      mkWorker [] false firstErr (handled w ++ [(b, err)])
        (if onResult cfg then notified w ++ [(length b, err)] else notified w) (completed w)
  end.

Definition accept (req : request) (w : worker) : worker :=
  match item req with
  | None =>
      let w := flush w in
      mkWorker (batch w) (tick w) (firstErr w) (handled w) (notified w)
        (completed w ++ [(rid req, (firstErr w, length (handled w)))])
  | Some x =>
      let t := match batch w with [] => true | _ => tick w end in
      let w := mkWorker (batch w ++ [x]) t (firstErr w) (handled w) (notified w) (completed w) in
      if (Z.of_nat (length (batch w)) =? batchSize cfg)%Z then flush w else w
  end.

(** ** [batcher.go] *)

Record Batcher := mkBatcher {
  requests : list request;            (* the buffered channel *)
  requestsClosed : bool;
  closed : bool;                      (* also: [closing] is closed *)
  submitters : gmap nat request;      (* calls inside [submit], past its check *)
  wk : worker;
  finished : option (option error);   (* the completion of [run] *)
  accepted : list request;            (* requests sent, in order *)
  outcomes : list (nat * option error); (* what [submit] and [TryAdd] returned *)
  panicked : bool                     (* a send on a closed channel *)
}.

Definition new_worker : worker := mkWorker [] false None [] [] [].
Definition new_batcher : Batcher := mkBatcher [] false false ∅ new_worker None [] [] false.

(** [New]: the batcher and its configuration, or an error; no worker is started
    on failure. *)
Definition New (ctx : option context) (has_handler : bool) (options : list (option Option_))
    : (Batcher * config) + error :=
  match validateContext ctx 0 with
  | Some err => inr err
  | None =>
      if negb has_handler then inr ErrNilHandler
      else match newConfig options with
           | inr err => inr err
           | inl c => inl (new_batcher, c)
           end
  end.

(** The channel can take a value: its buffer has room, or the worker is waiting
    for one (it is not, while [busy] with a handler). *)
Definition can_send (busy : bool) (b : Batcher) : bool :=
  (Z.of_nat (length (requests b)) <? queueSize cfg)%Z
  || (negb busy && match requests b with [] => true | _ => false end
      && match finished b with None => true | _ => false end).

(** [b.requests <- req]: into the buffer, or straight to a waiting worker
    ([direct]); a send on a closed channel panics. *)
Definition send (direct : bool) (req : request) (b : Batcher) : option Batcher :=
  if requestsClosed b then
    Some (mkBatcher (requests b) true (closed b) (submitters b) (wk b) (finished b) (accepted b)
            (outcomes b) true)
  else if direct then
    match requests b, finished b with
    | [], None =>
        Some (mkBatcher [] false (closed b) (submitters b) (accept req (wk b)) None
                (accepted b ++ [req]) (outcomes b) (panicked b))
    | _, _ => None
    end
  else if (Z.of_nat (length (requests b)) <? queueSize cfg)%Z then
    Some (mkBatcher (requests b ++ [req]) false (closed b) (submitters b) (wk b) (finished b)
            (accepted b ++ [req]) (outcomes b) (panicked b))
  else None.

Definition returns (id : nat) (err : option error) (b : Batcher) : Batcher :=
  mkBatcher (requests b) (requestsClosed b) (closed b) (delete id (submitters b)) (wk b) (finished b)
    (accepted b) (outcomes b ++ [(id, err)]) (panicked b).

(** [submit] up to its select: rejected, or among the submitters. *)
Definition submit_enter (ctx : option context) (req : request) (b : Batcher) : Batcher :=
  match validateContext ctx 0 with
  | Some err => returns (rid req) (Some err) b
  | None =>
      if closed b then returns (rid req) (Some ErrClosed) b
      else mkBatcher (requests b) (requestsClosed b) (closed b) (<[rid req := req]> (submitters b))
             (wk b) (finished b) (accepted b) (outcomes b) (panicked b)
  end.

(** The cases of its select. *)
Definition submit_send (direct : bool) (id : nat) (b : Batcher) : option Batcher :=
  req ← submitters b !! id; b ← send direct req b; Some (returns id None b).

Definition submit_canceled (cause : error) (id : nat) (b : Batcher) : option Batcher :=
  _ ← submitters b !! id; Some (returns id (Some cause) b).

Definition submit_closed (id : nat) (b : Batcher) : option Batcher :=
  _ ← submitters b !! id; if closed b then Some (returns id (Some ErrClosed) b) else None.

(** [TryAdd] holds the mutex throughout. *)
Definition TryAdd (busy direct : bool) (id : nat) (x : T) (b : Batcher) : option Batcher :=
  if closed b then Some (returns id (Some ErrClosed) b)
  else if can_send busy b then b ← send direct (mkRequest id (Some x)) b; Some (returns id None b)
  else Some (returns id (Some ErrFull) b).

Definition stop (b : Batcher) : Batcher :=
  mkBatcher (requests b) (requestsClosed b) true (submitters b) (wk b) (finished b) (accepted b)
    (outcomes b) (panicked b).

(** The goroutine [stop] starts: [submitters.Wait(); close(requests)]. *)
Definition close_requests (b : Batcher) : option Batcher :=
  if closed b && negb (requestsClosed b) && bool_decide (submitters b = ∅) then
    Some (mkBatcher (requests b) true true (submitters b) (wk b) (finished b) (accepted b)
            (outcomes b) (panicked b))
  else None.

(** The turns of [run]. *)
Definition run_receive (b : Batcher) : option Batcher :=
  match requests b, finished b with
  | req :: rest, None =>
      Some (mkBatcher rest (requestsClosed b) (closed b) (submitters b) (accept req (wk b)) None
              (accepted b) (outcomes b) (panicked b))
  | [], None =>
      if requestsClosed b then
        let w := flush (wk b) in
        Some (mkBatcher [] true (closed b) (submitters b) w (Some (firstErr w)) (accepted b)
                (outcomes b) (panicked b))
      else None
  | _, Some _ => None
  end.

Definition run_tick (b : Batcher) : option Batcher :=
  match finished b with
  | None =>
      if tick (wk b) then
        Some (mkBatcher (requests b) (requestsClosed b) (closed b) (submitters b) (flush (wk b)) None
                (accepted b) (outcomes b) (panicked b))
      else None
  | Some _ => None
  end.

(** [completion.wait]: a completed result wins over a done context. *)
Definition wait (result : option (option error)) (ctx_cause : option error) : option (option error) :=
  match result with
  | Some err => Some err
  | None => Some <$> ctx_cause
  end.

(** What [Flush] waits for: the completion of its barrier. *)
Definition flush_result (id : nat) (b : Batcher) : option (option error) :=
  match list_find (fun p => p.1 = id) (completed (wk b)) with
  | Some (_, (_, (err, _))) => Some err
  | None => None
  end.

(** [Add] and [Flush] up to the select of [submit]. *)
Definition Add (ctx : option context) (id : nat) (x : T) (b : Batcher) : Batcher :=
  submit_enter ctx (mkRequest id (Some x)) b.
Definition Flush (ctx : option context) (id : nat) (b : Batcher) : Batcher :=
  submit_enter ctx (mkRequest id None) b.

(** [Shutdown], with the result it returns at once, if any; it waits for
    [finished] otherwise. *)
Definition Shutdown (ctx : option context) (b : Batcher) : Batcher * option (option error) :=
  match ctx with
  | None => (b, Some (Some ErrInvalidContext))
  | Some c => let b := stop b in (b, wait (finished b) (Cause c 0))
  end.

Inductive action :=
| CallAdd (ctx : option context) (id : nat) (x : T)
| CallFlush (ctx : option context) (id : nat)
| CallShutdown (ctx : option context)
| Send (direct : bool) (id : nat)
| Canceled_ (cause : error) (id : nat)
| SeesClosed (id : nat)
| Try (busy direct : bool) (id : nat) (x : T)
| Stop                    (* the processing context is canceled *)
| CloseRequests | Receive | Tick.

(** [id] names a call that has been made already. *)
Definition used (id : nat) (b : Batcher) : bool :=
  bool_decide (is_Some (submitters b !! id)) || bool_decide (id ∈ (outcomes b).*1).

Definition step (a : action) (b : Batcher) : option Batcher :=
  match a with
  | CallAdd ctx id x => if used id b then None else Some (Add ctx id x b)
  | CallFlush ctx id => if used id b then None else Some (Flush ctx id b)
  | CallShutdown ctx => Some (fst (Shutdown ctx b))
  | Send direct id => submit_send direct id b
  | Canceled_ cause id => submit_canceled cause id b
  | SeesClosed id => submit_closed id b
  | Try busy direct id x => if used id b then None else TryAdd busy direct id x b
  | Stop => Some (stop b)
  | CloseRequests => close_requests b
  | Receive => run_receive b
  | Tick => run_tick b
  end.

Fixpoint run (l : list action) (b : Batcher) : option Batcher :=
  match l with
  | [] => Some b
  | a :: l => b ← step a b; run l b
  end.
End Batcher.

Arguments request : clear implicits.
Arguments worker : clear implicits.
Arguments Batcher : clear implicits.
Arguments action : clear implicits.

(** ** The worker *)

Section Worker.
Context {T : Type} (handler : nat -> list T -> option error) (cfg : config).
Hypothesis batchSize_pos : (0 < batchSize cfg)%Z.

(** The items among a list of requests, and the first error of a list of calls. *)
Definition items (l : list (request T)) : list T := omap item l.
Definition first_err (l : list (list T * option error)) : option error := head (omap snd l).
Definition barriers (l : list (request T)) : list nat :=
  omap (fun r => match item r with None => Some (rid r) | Some _ => None end) l.

(** The barrier [p] was completed after exactly the items sent before it had
    been handled, with the first error among them. *)
Definition barrier_ok (acc : list (request T)) (calls : list (list T * option error))
    (p : nat * (option error * nat)) : Prop :=
  exists pre post, acc = pre ++ mkRequest p.1 None :: post /\ p.2.2 <= length calls /\
    concat (take p.2.2 calls).*1 = items pre /\ p.2.1 = first_err (take p.2.2 calls).

(** The worker's state after receiving [acc]. *)
Record winv (acc : list (request T)) (w : worker T) : Prop := {
  winv_items : concat (handled w).*1 ++ batch w = items acc;
  winv_sizes : Forall (fun b => 1 <= length b /\ (Z.of_nat (length b) <= batchSize cfg)%Z) (handled w).*1;
  winv_batch : (Z.of_nat (length (batch w)) < batchSize cfg)%Z;
  winv_tick : tick w = match batch w with [] => false | _ => true end;
  winv_err : firstErr w = first_err (handled w);
  winv_calls : forall k b e, handled w !! k = Some (b, e) -> e = handler k b;
  winv_notified : notified w = if onResult cfg then (fun p => (length p.1, p.2)) <$> handled w else [];
  winv_barriers : (completed w).*1 = barriers acc;
  winv_completed : Forall (barrier_ok acc (handled w)) (completed w)
}.

Lemma first_err_snoc l b e :
  first_err (l ++ [(b, e)]) = match first_err l with Some x => Some x | None => e end.
Proof.
  unfold first_err. rewrite omap_app. destruct (omap snd l) as [|x xs]; [|done].
  by destruct e.
Qed.

Lemma barrier_ok_mono acc acc' calls calls' p :
  barrier_ok acc calls p -> barrier_ok (acc ++ acc') (calls ++ calls') p.
Proof.
  intros (pre & post & -> & Hn & Hc & He). exists pre, (post ++ acc').
  rewrite <- (assoc_L (++)), take_app_le by done. split_and!; [done| |done|done].
  rewrite length_app. lia.
Qed.

(** A flush of a batch that may have just reached its size. *)
Lemma flush_winv acc w :
  concat (handled w).*1 ++ batch w = items acc ->
  Forall (fun b => 1 <= length b /\ (Z.of_nat (length b) <= batchSize cfg)%Z) (handled w).*1 ->
  (Z.of_nat (length (batch w)) <= batchSize cfg)%Z ->
  tick w = match batch w with [] => false | _ => true end ->
  firstErr w = first_err (handled w) ->
  (forall k b e, handled w !! k = Some (b, e) -> e = handler k b) ->
  notified w = (if onResult cfg then (fun p => (length p.1, p.2)) <$> handled w else []) ->
  (completed w).*1 = barriers acc ->
  Forall (barrier_ok acc (handled w)) (completed w) ->
  winv acc (flush handler cfg w) /\ batch (flush handler cfg w) = [].
Proof.
  intros Hi Hs Hb Ht He Hc Hn Hbar Hcomp. unfold flush.
  destruct (batch w) as [|x l] eqn:Eb.
  { split; [|done]. constructor; rewrite ?Eb; auto. }
  split; [|done]. set (b := x :: l) in *. constructor; cbn [handled batch tick firstErr notified completed].
  - rewrite fmap_app, concat_app, app_nil_r. simpl. by rewrite app_nil_r.
  - rewrite fmap_app, Forall_app. split; [done|]. constructor; [|constructor]. simpl in *. lia.
  - simpl. lia.
  - done.
  - rewrite first_err_snoc, He. by destruct (first_err (handled w)), (handler (length (handled w)) b).
  - intros k b' e Hk. apply lookup_app_Some in Hk as [Hk|[Hge Hk]]; [by apply Hc|].
    destruct (k - length (handled w)) eqn:Ek; simplify_eq/=. by replace k with (length (handled w)) by lia.
  - rewrite Hn. destruct (onResult cfg); [|done]. by rewrite fmap_app.
  - done.
  - eapply Forall_impl; [done|]. intros p Hp.
    rewrite <- (app_nil_r acc). by apply barrier_ok_mono.
Qed.

Lemma flush_keeps acc w : winv acc w -> winv acc (flush handler cfg w) /\ batch (flush handler cfg w) = [].
Proof. intros []. apply flush_winv; auto. lia. Qed.

Lemma items_snoc acc req :
  items (acc ++ [req]) = items acc ++ match item req with Some x => [x] | None => [] end.
Proof. unfold items. rewrite omap_app. simpl. by destruct (item req). Qed.

Lemma accept_keeps acc req w : winv acc w -> winv (acc ++ [req]) (accept handler cfg req w).
Proof.
  intros Hw. unfold accept. destruct req as [id [x|]]; cbn [item rid].
  - destruct Hw. set (w' := mkWorker _ _ _ _ _ _).
    assert (Hall : Forall (barrier_ok (acc ++ [mkRequest id (Some x)]) (handled w')) (completed w')).
    { eapply Forall_impl; [done|]. intros p Hp. simpl. rewrite <- (app_nil_r (handled w)).
      by apply barrier_ok_mono. }
    assert (Hbar : (completed w').*1 = barriers (acc ++ [mkRequest id (Some x)])).
    { unfold barriers. rewrite omap_app. simpl. by rewrite app_nil_r. }
    assert (Hit : concat (handled w').*1 ++ batch w' = items (acc ++ [mkRequest id (Some x)])).
    { rewrite items_snoc. simpl. by rewrite (assoc_L (++)), winv_items0. }
    assert (Htick : tick w' = match batch w' with [] => false | _ => true end).
    { simpl. rewrite winv_tick0. by destruct (batch w). }
    assert (Hlen : length (batch w') = S (length (batch w))) by (simpl; rewrite length_app; simpl; lia).
    destruct (Z.eqb_spec (Z.of_nat (length (batch w'))) (batchSize cfg)).
    + apply flush_winv; auto; lia.
    + constructor; auto. lia.
  - destruct (flush_keeps acc w Hw) as [[] Hb]. set (w1 := flush handler cfg w) in *.
    constructor; cbn [handled batch tick firstErr notified completed]; auto.
    + rewrite items_snoc. simpl. by rewrite app_nil_r.
    + rewrite fmap_app, winv_barriers0. unfold barriers. by rewrite omap_app.
    + apply Forall_app. split.
      * eapply Forall_impl; [done|]. intros p Hp. rewrite <- (app_nil_r (handled w1)).
        by apply barrier_ok_mono.
      * constructor; [|constructor]. exists acc, []. simpl. rewrite take_ge by lia.
        split_and!; [done|lia| |done]. by rewrite <- winv_items0, Hb, app_nil_r.
Qed.
End Worker.

(** ** The batcher *)

Section System.
Context {T : Type} (handler : nat -> list T -> option error) (cfg : config).
Hypothesis batchSize_pos : (0 < batchSize cfg)%Z.
Implicit Types b : Batcher T.

(** Requests flow in order from the senders through the channel to the worker;
    the channel is closed only when nobody can send any more. *)
Record flow b : Prop := {
  flow_worker : exists acc, accepted b = acc ++ requests b /\ winv handler cfg acc (wk b);
  flow_panic : panicked b = false;
  flow_closed : requestsClosed b = true -> closed b = true /\ submitters b = ∅;
  flow_finished : forall e, finished b = Some e ->
    requestsClosed b = true /\ requests b = [] /\ batch (wk b) = [] /\ e = firstErr (wk b)
}.

(** A call is accepted exactly when it returns nil, at most once. *)
Record ids b : Prop := {
  ids_accepted : NoDup (rid <$> accepted b);
  ids_nil : forall id, id ∈ rid <$> accepted b <-> (id, None) ∈ outcomes b;
  ids_outcomes : NoDup (outcomes b).*1;
  ids_submitters : forall id r, submitters b !! id = Some r -> rid r = id /\ id ∉ (outcomes b).*1
}.

Lemma flow_init : flow new_batcher.
Proof.
  constructor; [|done..]. exists []. split; [done|]. constructor; simpl; auto; try lia; try by constructor.
  - intros k b e Hk. by rewrite lookup_nil in Hk.
  - by destruct (onResult cfg).
Qed.

Lemma ids_init : ids new_batcher.
Proof. constructor; simpl; [by apply NoDup_nil| |by apply NoDup_nil|done]. intros id. by rewrite !elem_of_nil. Qed.

Lemma flow_returns id err b : flow b -> flow (returns id err b).
Proof.
  intros []. constructor; simpl; auto. intros Hc. destruct (flow_closed0 Hc) as [? ->].
  split; [done|apply delete_empty].
Qed.

Lemma outcome_fresh b id err :
  id ∉ (outcomes b).*1 -> NoDup (outcomes b).*1 -> NoDup (outcomes b ++ [(id, err)]).*1.
Proof.
  intros Hf Hn. rewrite fmap_app. apply NoDup_app. split_and!; [done| |apply NoDup_singleton].
  intros i Hi. simpl. rewrite list_elem_of_singleton. by intros ->.
Qed.

Lemma ids_returns_err id e b : ids b -> id ∉ (outcomes b).*1 -> ids (returns id (Some e) b).
Proof.
  intros [] Hf. constructor; simpl; [done| |by apply outcome_fresh|].
  - intros i. rewrite ids_nil0, elem_of_app, list_elem_of_singleton. split; [by left|].
    by intros [?|?].
  - intros i r Hr. apply lookup_delete_Some in Hr as [Hne Hr]. destruct (ids_submitters0 i r Hr) as [? Hi].
    split; [done|]. rewrite fmap_app, elem_of_app. simpl. rewrite list_elem_of_singleton.
    intros [?|?]; [done|congruence].
Qed.

(** A send that succeeds, followed by its return. *)
Lemma ids_returns_nil req b b' :
  ids b -> rid req ∉ (outcomes b).*1 -> accepted b' = accepted b ++ [req] ->
  outcomes b' = outcomes b -> submitters b' = submitters b -> ids (returns (rid req) None b').
Proof.
  intros [] Hf Ha Ho Hs.
  assert (Hna : rid req ∉ rid <$> accepted b).
  { rewrite ids_nil0. intros Hin. apply Hf, list_elem_of_fmap. by exists (rid req, None). }
  constructor; simpl; rewrite ?Ha, ?Ho, ?Hs.
  - rewrite fmap_app. apply NoDup_app. split_and!; [done| |apply NoDup_singleton].
    intros i Hi. simpl. rewrite list_elem_of_singleton. by intros ->.
  - intros i. rewrite fmap_app, !elem_of_app, ids_nil0. simpl. rewrite !list_elem_of_singleton.
    split; intros [?|?]; auto; right; congruence.
  - by apply outcome_fresh.
  - intros i r Hr. apply lookup_delete_Some in Hr as [Hne Hr]. destruct (ids_submitters0 i r Hr) as [? Hi].
    split; [done|]. rewrite fmap_app, elem_of_app. simpl. rewrite list_elem_of_singleton.
    intros [?|?]; [done|congruence].
Qed.

Lemma send_flow direct req b b' :
  flow b -> requestsClosed b = false -> send handler cfg direct req b = Some b' ->
  flow b' /\ accepted b' = accepted b ++ [req] /\ outcomes b' = outcomes b /\ submitters b' = submitters b.
Proof.
  intros [(acc & Hacc & Hw) Hp Hc Hfin] Hcl. unfold send. rewrite Hcl. destruct direct.
  - destruct (requests b) as [|r q] eqn:Eq; [|done].
    destruct (finished b) eqn:Ef; [done|]. intros [= <-]. split; [|done]. constructor; simpl; try done.
    exists (acc ++ [req]). rewrite app_nil_r in *. rewrite Hacc. split; [done|by apply accept_keeps].
  - destruct (_ <? _)%Z; [|done]. intros [= <-]. split; [|done]. constructor; simpl; try done.
    + exists acc. rewrite Hacc. by rewrite (assoc_L (++)).
    + intros e He. destruct (Hfin e He) as [? _]. congruence.
Qed.

(** The buffer never takes more than its size, the direct hand-over apart. *)
Lemma used_false id b : used id b = false -> id ∉ (outcomes b).*1.
Proof. unfold used. rewrite orb_false_iff. intros [_ H]. by apply bool_decide_eq_false in H. Qed.

Lemma enter_keeps ctx req b :
  flow b -> ids b -> rid req ∉ (outcomes b).*1 -> flow (submit_enter ctx req b) /\ ids (submit_enter ctx req b).
Proof.
  intros Hf Hi Eu. unfold submit_enter.
  destruct (validateContext ctx 0); [split; [by apply flow_returns|by apply ids_returns_err]|].
  destruct (closed b) eqn:Ec; [split; [by apply flow_returns|by apply ids_returns_err]|].
  split.
  - destruct Hf. constructor; simpl; auto. intros Hcl. destruct (flow_closed0 Hcl). congruence.
  - destruct Hi. constructor; simpl; auto. intros i r Hr.
    apply lookup_insert_Some in Hr as [[<- <-]|[_ Hr]]; [done|by apply ids_submitters0].
Qed.

Lemma stop_keeps b : flow b -> ids b -> flow (stop b) /\ ids (stop b).
Proof.
  intros [] []. split; constructor; simpl; auto. intros Hcl. destruct (flow_closed0 Hcl). done.
Qed.

Lemma step_keeps a b b' : flow b -> ids b -> step handler cfg a b = Some b' -> flow b' /\ ids b'.
Proof.
  intros Hf Hi.
  destruct a as [ctx id x|ctx id|ctx|direct id|cause id|id|busy direct id x| | | |]; cbn [step].
  - destruct (used id b) eqn:Eu; [done|]. intros [= <-]. apply used_false in Eu. by apply enter_keeps.
  - destruct (used id b) eqn:Eu; [done|]. intros [= <-]. apply used_false in Eu. by apply enter_keeps.
  - intros [= <-]. unfold Shutdown. destruct ctx; [by apply stop_keeps|done].
  - unfold submit_send. destruct (submitters b !! id) as [req|] eqn:Er; [|done]. cbn [mbind option_bind].
    destruct (send handler cfg direct req b) as [b1|] eqn:Es; [|done]. cbn [mbind option_bind]. intros [= <-].
    destruct (ids_submitters b Hi id req Er) as [<- Hfresh].
    assert (Hcl : requestsClosed b = false).
    { destruct (requestsClosed b) eqn:E; [|done]. destruct (flow_closed b Hf E) as [_ Hs]. by rewrite Hs in Er. }
    destruct (send_flow direct req b b1 Hf Hcl Es) as (Hf1 & Ha & Ho & Hs).
    split; [by apply flow_returns|by eapply ids_returns_nil].
  - unfold submit_canceled. destruct (submitters b !! id) as [req|] eqn:Er; [|done]. cbn [mbind option_bind].
    intros [= <-]. split; [by apply flow_returns|]. apply ids_returns_err; [done|].
    by apply (ids_submitters b Hi id req Er).
  - unfold submit_closed. destruct (submitters b !! id) as [req|] eqn:Er; [|done]. cbn [mbind option_bind].
    destruct (closed b); [|done]. intros [= <-]. split; [by apply flow_returns|].
    apply ids_returns_err; [done|]. by apply (ids_submitters b Hi id req Er).
  - destruct (used id b) eqn:Eu; [done|]. apply used_false in Eu. unfold TryAdd.
    destruct (closed b) eqn:Ec.
    { intros [= <-]. split; [by apply flow_returns|by apply ids_returns_err]. }
    destruct (can_send cfg busy b).
    + destruct (send handler cfg direct _ b) as [b1|] eqn:Es; [|done]. cbn [mbind option_bind]. intros [= <-].
      assert (Hcl : requestsClosed b = false).
      { destruct (requestsClosed b) eqn:E; [|done]. destruct (flow_closed b Hf E). congruence. }
      destruct (send_flow direct _ b b1 Hf Hcl Es) as (Hf1 & Ha & Ho & Hs).
      split; [by apply flow_returns|]. by apply (ids_returns_nil (mkRequest id (Some x)) b b1).
    + intros [= <-]. split; [by apply flow_returns|by apply ids_returns_err].
  - intros [= <-]. by apply stop_keeps.
  - unfold close_requests. destruct (closed b && _ && _) eqn:E; [|done]. intros [= <-].
    apply andb_true_iff in E as [E Es]. apply bool_decide_eq_true in Es. destruct Hf, Hi.
    split; constructor; simpl; auto. intros e He. destruct (flow_finished0 e He). done.
  - unfold run_receive. destruct Hf as [(acc & Hacc & Hw) Hp Hc Hfin].
    destruct (requests b) as [|req q] eqn:Eq; (destruct (finished b) eqn:Ef; [done|]).
    + destruct (requestsClosed b) eqn:Er; [|done]. intros [= <-].
      destruct (flush_keeps handler cfg batchSize_pos acc (wk b) Hw) as [Hw' Hb].
      split; [constructor; simpl; auto|by destruct Hi].
      { exists acc. by rewrite Hacc. }
      intros e [= <-]. done.
    + intros [= <-]. split; [constructor; simpl; auto|by destruct Hi].
      * exists (acc ++ [req]). split; [by rewrite Hacc, <- (assoc_L (++))|]. by apply accept_keeps.
      * done.
  - unfold run_tick. destruct Hf as [(acc & Hacc & Hw) Hp Hc Hfin].
    destruct (finished b); [done|]. destruct (tick (wk b)); [|done]. intros [= <-].
    split; [constructor; simpl; auto|by destruct Hi].
    + exists acc. split; [done|]. by apply flush_keeps.
    + done.
Qed.

Lemma run_keeps l b b' : flow b -> ids b -> run handler cfg l b = Some b' -> flow b' /\ ids b'.
Proof.
  revert b. induction l as [|a l IH]; intros b Hf Hi; simpl; [intros [= <-]; done|].
  destruct (step handler cfg a b) as [b1|] eqn:E; [|done]. simpl.
  destruct (step_keeps a b b1 Hf Hi E). by apply IH.
Qed.

(** *** Draining *)

Lemma receive_all b :
  flow b -> requestsClosed b = true -> finished b = None ->
  exists b', run handler cfg (replicate (S (length (requests b))) Receive) b = Some b' /\
    finished b' = Some (firstErr (wk b')) /\ accepted b' = accepted b /\ requests b' = [] /\ flow b'.
Proof.
  remember (requests b) as q eqn:Eq. revert b Eq.
  induction q as [|req q IH]; intros b Eq Hf Hc Hfin.
  - destruct Hf as [(acc & Hacc & Hw) Hp Hcl Hn].
    destruct (flush_keeps handler cfg batchSize_pos acc (wk b) Hw) as [Hw' Hb].
    cbn [length replicate run step]. unfold run_receive. rewrite <- Eq, Hfin, Hc. cbn [mbind option_bind].
    eexists. split; [done|]. cbn [finished wk accepted requests]. split_and!; try done.
    constructor; simpl; auto.
    + exists acc. by rewrite Hacc, <- Eq.
    + intros e [= <-]. done.
  - set (b1 := mkBatcher q (requestsClosed b) (closed b) (submitters b) (accept handler cfg req (wk b)) None
              (accepted b) (outcomes b) (panicked b)).
    assert (Hstep : run_receive handler cfg b = Some b1) by (unfold run_receive; by rewrite <- Eq, Hfin).
    destruct (IH b1) as (b' & Hr & Hfin' & Ha & Hq & Hf'); [done| |done|done|].
    { destruct Hf as [(acc & Hacc & Hw) Hp Hcl Hn]. constructor; simpl; auto; [|done].
      exists (acc ++ [req]). split; [by rewrite Hacc, <- Eq, <- (assoc_L (++))|]. by apply accept_keeps. }
    exists b'. split_and!; [|done..].
    cbn [length] in *. change (replicate (S (S (length q))) (@Receive T))
      with ((@Receive T) :: replicate (S (length q)) Receive).
    cbn [run]. change (step handler cfg Receive b) with (run_receive handler cfg b). rewrite Hstep.
    cbn [mbind option_bind]. exact Hr.
Qed.
End System.

Lemma newConfig_valid options c :
  newConfig options = inl c -> (0 < batchSize c /\ 0 < flushInterval c /\ 0 <= queueSize c)%Z.
Proof. unfold newConfig. cbv zeta. intros. repeat case_match; simplify_eq; bcase; lia. Qed.

(** C3: In every state a batcher can reach, whatever the interleaving of
    producers, timers, cancellation and shutdown: nothing was sent on a closed
    channel; the batches handed to the handler, the batch being filled and the
    queued items are together exactly the accepted items in acceptance order,
    so none is lost, duplicated or reordered; batches have between one and
    [batchSize] items; [firstErr] is the error of the first failed call; each
    result is notified once, in order; a call was accepted exactly when it
    returned nil; a flush barrier completed when precisely the items accepted
    before it had been handled, with the first error among them; and when the
    worker has finished nothing is left and its result is the first error. *)
Theorem batcher_safety {T} (handler : nat -> list T -> option error) options cfg l b :
  newConfig options = inl cfg -> run handler cfg l new_batcher = Some b ->
  let w := wk b in
  panicked b = false /\
  concat (handled w).*1 ++ batch w ++ items (requests b) = items (accepted b) /\
  Forall (fun bt => 1 <= length bt /\ (Z.of_nat (length bt) <= batchSize cfg)%Z) (handled w).*1 /\
  firstErr w = first_err (handled w) /\
  notified w = (if onResult cfg then (fun p => (length p.1, p.2)) <$> handled w else []) /\
  NoDup (rid <$> accepted b) /\
  (forall id, id ∈ rid <$> accepted b <-> (id, None) ∈ outcomes b) /\
  Forall (barrier_ok (accepted b) (handled w)) (completed w) /\
  (forall e, finished b = Some e ->
     concat (handled w).*1 = items (accepted b) /\ e = first_err (handled w)).
Proof.
  intros Hcfg Hrun w. apply newConfig_valid in Hcfg as [Hpos _].
  destruct (run_keeps handler cfg Hpos l new_batcher b) as [Hf Hi];
    [by apply flow_init|by apply ids_init|done|].
  destruct Hf as [(acc & Hacc & []) Hp Hc Hfin]. destruct Hi.
  assert (Hitems : concat (handled w).*1 ++ batch w ++ items (requests b) = items (accepted b)).
  { rewrite Hacc. unfold items in *. rewrite omap_app, <- winv_items0. by rewrite (assoc_L (++)). }
  split_and!; try done.
  - rewrite Hacc. eapply Forall_impl; [done|]. intros p Hpb.
    rewrite <- (app_nil_r (handled w)). by apply barrier_ok_mono.
  - intros e He. destruct (Hfin e He) as (_ & Hq & Hb & ->). subst w. rewrite Hq, Hb in Hitems.
    unfold items at 1 in Hitems. simpl in Hitems. rewrite app_nil_r in Hitems. done.
Qed.

(** Shutdown drains.  From every reachable state in which [stop] has been
    called and no caller is left inside [submit], closing the channel and as
    many turns of the worker as there are queued requests, plus one, complete
    the worker: every accepted item has been handled, and the result is the
    first handler error. *)
Theorem batcher_drains {T} (handler : nat -> list T -> option error) options cfg l b :
  newConfig options = inl cfg -> run handler cfg l new_batcher = Some b ->
  closed b = true -> submitters b = ∅ -> finished b = None ->
  exists b', run handler cfg
      ((if requestsClosed b then [] else [CloseRequests]) ++ replicate (S (length (requests b))) Receive) b
      = Some b' /\
    finished b' = Some (first_err (handled (wk b'))) /\
    concat (handled (wk b')).*1 = items (accepted b) /\ requests b' = [].
Proof.
  intros Hcfg Hrun Hc Hs Hfin. apply newConfig_valid in Hcfg as [Hpos _].
  destruct (run_keeps handler cfg Hpos l new_batcher b) as [Hf Hi];
    [by apply flow_init|by apply ids_init|done|].
  set (b1 := mkBatcher (requests b) true true (submitters b) (wk b) (finished b) (accepted b)
            (outcomes b) (panicked b)).
  assert (Hb1 : run handler cfg (if requestsClosed b then [] else [CloseRequests]) b = Some b1 /\ flow handler cfg b1).
  { destruct (requestsClosed b) eqn:Er.
    - assert (b = b1) as <- by (subst b1; destruct b; simpl in *; by subst). done.
    - assert (Hstep : close_requests b = Some b1)
        by (unfold close_requests; by rewrite Hc, Er, bool_decide_eq_true_2).
      cbn [run step]. rewrite Hstep. split; [done|].
      by apply (step_keeps handler cfg Hpos CloseRequests b b1 Hf Hi). }
  destruct Hb1 as [Hr1 Hf1].
  destruct (receive_all handler cfg Hpos b1 Hf1 eq_refl Hfin) as (b' & Hr2 & Hfin' & Ha & Hq & Hf2).
  exists b'. destruct Hf2 as [(acc & Hacc & []) _ _ Hfin2].
  destruct (Hfin2 _ Hfin') as (_ & _ & Hb & _).
  split_and!; [|by rewrite Hfin', winv_err0| |done].
  - clear -Hr1 Hr2. revert Hr1. generalize (if requestsClosed b then [] else [@CloseRequests T]) as l0.
    intros l0 Hr1. change (requests b) with (requests b1). revert Hr1. generalize b as c.
    induction l0 as [|a l0 IH]; intros c Hr1; simpl in *; [by simplify_eq|].
    destruct (step handler cfg a c) as [c1|]; [|done]. simpl in *. by apply IH.
  - rewrite Hb, app_nil_r in winv_items0. rewrite winv_items0.
    change (accepted b) with (accepted b1). rewrite <- Ha, Hacc, Hq. by rewrite app_nil_r.
Qed.

(** A run: two items fill a batch, a third waits for the barrier behind it. *)
Definition demo_handler (k : nat) (b : list nat) : option error :=
  match k with 0 => Some (ErrMsg "boom") | _ => None end.
Definition demo_cfg : config := mkConfig 2 Second 1000 true.
Definition demo_run : list (action nat) :=
  [CallAdd (Some Background) 0 10; Send false 0; CallAdd (Some Background) 1 11; Send false 1;
   Receive; Receive; Try false true 2 12; CallFlush (Some Background) 3; Send true 3;
   CallAdd (Some Background) 4 13; CallShutdown (Some Background); Send false 4;
   CallAdd (Some Background) 5 14].

Definition demo_state : Batcher nat :=
  default new_batcher (run demo_handler demo_cfg demo_run new_batcher).

Lemma batcher_safety_witness :
  panicked demo_state = false /\ completed (wk demo_state) = [(3, (Some (ErrMsg "boom"), 2))] /\
  (handled (wk demo_state)).*1 = [[10; 11]; [12]].
Proof.
  split; [|vm_compute; done].
  destruct (batcher_safety demo_handler [Some (WithBatchSize 2); Some (WithOnResult true)] demo_cfg demo_run
    demo_state) as [H _]; [vm_compute; reflexivity..|exact H].
Defined.

Lemma batcher_drains_witness :
  exists b', run demo_handler demo_cfg (CloseRequests :: replicate 2 Receive) demo_state = Some b' /\
    concat (handled (wk b')).*1 = [10; 11; 12; 13].
Proof.
  destruct (batcher_drains demo_handler [Some (WithBatchSize 2); Some (WithOnResult true)] demo_cfg
    demo_run demo_state) as (b' & Hr & _ & Hc & _); [vm_compute; reflexivity..|].
  exists b'. split; [exact Hr|exact Hc].
Defined.
