(* ===== verification/Lifecycle.v ===== *)
(** * Starting and stopping providers: [src/lifecycle]

    A runner starts its providers in order, hands each the context the previous
    one returned, and stops the started ones in reverse.  The sequential methods
    come first; then [Bootstrap] and [Shutdown] are split at the points where
    they release the mutex, and the theorems cover every interleaving of
    callers.  Contexts are abstract: providers derive them, and [detach] is the
    [context.WithTimeout] of a [context.WithoutCancel]. *)

From S2P Require Import Prelude GoErrors.
From stdpp Require Import options.
Set Default Proof Using "Type*".

Definition ErrAlreadyStarted : error := ErrNew "lifecycle: runner already started".

Section Lifecycle.
Context {Ctx : Type} (background : Ctx) (detach : Z -> Ctx -> Ctx).

(** ** [provider.go] *)

(** A provider's answers; a nil next context is [None].  [pname] identifies it. *)
Record Provider := mkProvider {
  pname : nat;
  pBootstrap : Ctx -> option Ctx * option error;
  pShutdown : Ctx -> option Ctx * option error
}.

Definition BootstrapFunc (name : nat) (f : Ctx -> option Ctx * option error) : Provider :=
  mkProvider name f (fun ctx => (Some ctx, None)).
Definition ShutdownFunc (name : nat) (f : Ctx -> option Ctx * option error) : Provider :=
  mkProvider name (fun ctx => (Some ctx, None)) f.

(** ** [config.go] *)

Record config := mkConfig { cProviders : list Provider; cShutdownTimeout : Z }.

Inductive Option_ := WithProviders (ps : list (option Provider)) | WithShutdownTimeout (timeout : Z).

Definition apply (o : Option_) (c : config) : config :=
  match o with
  | WithProviders ps =>
      mkConfig (foldl (fun l p => match p with Some p => l ++ [p] | None => l end) (cProviders c) ps)
        (cShutdownTimeout c)
  | WithShutdownTimeout timeout =>
      if (timeout >? 0)%Z then mkConfig (cProviders c) timeout else c
  end.

Definition newConfig (options : list (option Option_)) : config :=
  foldl (fun c o => match o with Some o => apply o c | None => c end) (mkConfig [] (5 * Second)) options.

(** ** [runner.go] *)

Inductive runnerState := StateNew | StateStarting | StateStarted | StateStopping | StateStopped.

(** What was called, in order. *)
Inductive event := Boot (name : nat) | Shut (name : nat) | Handle.

Record Runner := mkRunner {
  providers : list Provider;
  shutdownTimeout : Z;
  state : runnerState;
  started : list Provider;
  shutdownErr : option error;
  log : list event
}.

Definition New (options : list (option Option_)) : Runner :=
  let c := newConfig options in
  mkRunner (cProviders c) (cShutdownTimeout c) StateNew [] None [].

Definition normalizeContext (ctx : option Ctx) : Ctx := default background ctx.

Definition providerError (phase : string) (p : Provider) (err : error) : error :=
  ErrWrapf (String.append "lifecycle: " (String.append phase " provider")) err.
Definition nilContextError (phase : string) (p : Provider) : error :=
  ErrMsg (String.append "lifecycle: " (String.append phase " provider returned a nil context")).

(** [bootstrap]: the last context, the providers started, the error, the calls. *)
Fixpoint bootstrap_loop (ps : list Provider) (ctx : Ctx) (started : list Provider) (log : list event)
    : Ctx * list Provider * option error * list event :=
  match ps with
  | [] => (ctx, started, None, log)
  | p :: ps =>
      let log := log ++ [Boot (pname p)] in
      match pBootstrap p ctx with
      | (_, Some err) => (ctx, started, Some (providerError "bootstrap" p err), log)
      | (None, None) => (ctx, started, Some (nilContextError "bootstrap" p), log)
      | (Some next, None) => bootstrap_loop ps next (started ++ [p]) log
      end
  end.

Definition bootstrap (r : Runner) (ctx : Ctx) : Ctx * list Provider * option error * list event :=
  bootstrap_loop (providers r) ctx [] [].

(** [shutdown] goes on after an error; it ranges backward over its providers. *)
Fixpoint shutdown_loop (ps : list Provider) (ctx : Ctx) (errs : list error) (log : list event)
    : Ctx * list error * list event :=
  match ps with
  | [] => (ctx, errs, log)
  | p :: ps =>
      let log := log ++ [Shut (pname p)] in
      match pShutdown p ctx with
      | (_, Some err) => shutdown_loop ps ctx (errs ++ [providerError "shutdown" p err]) log
      | (None, None) => shutdown_loop ps ctx (errs ++ [nilContextError "shutdown" p]) log
      | (Some next, None) => shutdown_loop ps next errs log
      end
  end.

Definition shutdown (ctx : Ctx) (ps : list Provider) : Ctx * option error * list event :=
  let '(ctx, errs, log) := shutdown_loop (reverse ps) ctx [] [] in
  (ctx, errors_Join (Some <$> errs), log).

Definition set_state (st : runnerState) (r : Runner) : Runner :=
  mkRunner (providers r) (shutdownTimeout r) st (started r) (shutdownErr r) (log r).

(** [Bootstrap] up to its first unlock: [None] when the runner was started before. *)
Definition Bootstrap_begin (r : Runner) : option Runner :=
  match state r with
  | StateNew => Some (set_state StateStarting r)
  | _ => None
  end.

(** The rest of [Bootstrap]: start the providers, roll back on an error. *)
Definition Bootstrap_finish (ctx : Ctx) (r : Runner) : Runner * (Ctx * option error) :=
  let '(runtimeCtx, started, err, calls) := bootstrap r ctx in
  match err with
  | Some err =>
      let '(rollbackCtx, rollbackErr, undo) := shutdown (detach (shutdownTimeout r) runtimeCtx) started in
      (mkRunner (providers r) (shutdownTimeout r) StateStopped [] rollbackErr (log r ++ calls ++ undo),
       (rollbackCtx, errors_Join [Some err; rollbackErr]))
  | None =>
      (mkRunner (providers r) (shutdownTimeout r) StateStarted started (shutdownErr r) (log r ++ calls),
       (runtimeCtx, None))
  end.

Definition Bootstrap (ctx : option Ctx) (r : Runner) : Runner * (Ctx * option error) :=
  let ctx := normalizeContext ctx in
  match Bootstrap_begin r with
  | None => (r, (ctx, Some ErrAlreadyStarted))
  | Some r => Bootstrap_finish ctx r
  end.

(** One turn of the loop of [Shutdown]: return, wait, or stop the providers. *)
Inductive shutdown_turn := Returns (err : option error) | Waits | Stops (r : Runner).

Definition Shutdown_turn (r : Runner) : shutdown_turn :=
  match state r with
  | StateNew => Returns None
  | StateStarting | StateStopping => Waits
  | StateStarted => Stops (set_state StateStopping r)
  | StateStopped => Returns (shutdownErr r)
  end.

Definition Shutdown_finish (ctx : Ctx) (r : Runner) : Runner * (Ctx * option error) :=
  let '(shutdownCtx, err, calls) := shutdown ctx (started r) in
  (mkRunner (providers r) (shutdownTimeout r) StateStopped [] err (log r ++ calls), (shutdownCtx, err)).

(** [Shutdown] when nobody else is starting or stopping the runner. *)
Definition Shutdown (ctx : option Ctx) (r : Runner) : option (Runner * (Ctx * option error)) :=
  let ctx := normalizeContext ctx in
  match Shutdown_turn r with
  | Returns err => Some (r, (ctx, err))
  | Waits => None
  | Stops r => Some (Shutdown_finish ctx r)
  end.

(** [Run]; a nil handler does nothing. *)
Definition Run (ctx : option Ctx) (handler : option (Ctx -> option error)) (r : Runner)
    : option (Runner * option error) :=
  let '(r, (runtimeCtx, err)) := Bootstrap ctx r in
  match err with
  | Some err => Some (r, Some err)
  | None =>
      let '(r, err) :=
        match handler with
        | Some h => (mkRunner (providers r) (shutdownTimeout r) (state r) (started r) (shutdownErr r)
                       (log r ++ [Handle]), h runtimeCtx)
        | None => (r, None)
        end in
      '(r, (_, shutdownErr)) ← Shutdown (Some (detach (shutdownTimeout r) runtimeCtx)) r;
      Some (r, errors_Join [err; shutdownErr])
  end.

(** ** Concurrent callers *)

Record system := mkSystem {
  runner : Runner;
  starter : option Ctx;    (* a caller is inside [Bootstrap] *)
  stopper : option Ctx;    (* a caller is inside [Shutdown], running it *)
  boots : list (option error);  (* what calls of [Bootstrap] returned *)
  stops : list (option error)   (* what calls of [Shutdown] returned once started *)
}.

Inductive action :=
| CallBootstrap (ctx : option Ctx) | BootstrapRuns | CallShutdown (ctx : option Ctx) | ShutdownRuns.

Definition step (a : action) (s : system) : option system :=
  let r := runner s in
  match a with
  | CallBootstrap ctx =>
      match Bootstrap_begin r with
      | None => Some (mkSystem r (starter s) (stopper s) (boots s ++ [Some ErrAlreadyStarted]) (stops s))
      | Some r => Some (mkSystem r (Some (normalizeContext ctx)) (stopper s) (boots s) (stops s))
      end
  | BootstrapRuns =>
      ctx ← starter s;
      let '(r, (_, err)) := Bootstrap_finish ctx r in
      Some (mkSystem r None (stopper s) (boots s ++ [err]) (stops s))
  | CallShutdown ctx =>
      match Shutdown_turn r with
      | Returns err =>
          Some (mkSystem r (starter s) (stopper s) (boots s)
                  (match state r with StateNew => stops s | _ => stops s ++ [err] end))
      | Waits => None
      | Stops r => Some (mkSystem r (starter s) (Some (normalizeContext ctx)) (boots s) (stops s))
      end
  | ShutdownRuns =>
      ctx ← stopper s;
      let '(r, (_, err)) := Shutdown_finish ctx r in
      Some (mkSystem r (starter s) None (boots s) (stops s ++ [err]))
  end.

Fixpoint run (l : list action) (s : system) : option system :=
  match l with
  | [] => Some s
  | a :: l => s ← step a s; run l s
  end.

Definition init (options : list (option Option_)) : system := mkSystem (New options) None None [] [].
End Lifecycle.

Arguments Provider : clear implicits.
Arguments Runner : clear implicits.
Arguments system : clear implicits.
Arguments action : clear implicits.
Arguments Option_ : clear implicits.

(** ** The calls made *)

Section Calls.
Context {Ctx : Type}.
Implicit Types ps : list (Provider Ctx).

Definition names ps : list nat := pname <$> ps.

(** The context after all of [ps] accepted theirs in turn. *)
Fixpoint chain (f : Provider Ctx -> Ctx -> option Ctx * option error) ps (ctx : Ctx) : option Ctx :=
  match ps with
  | [] => Some ctx
  | p :: ps => match f p ctx with (Some next, None) => chain f ps next | _ => None end
  end.

(** The error [p] is reported with when it does not start on [ctx]. *)
Definition boot_error (p : Provider Ctx) (ctx : Ctx) : option error :=
  match pBootstrap p ctx with
  | (_, Some err) => Some (providerError "bootstrap" p err)
  | (None, None) => Some (nilContextError "bootstrap" p)
  | (Some _, None) => None
  end.

Lemma bootstrap_loop_spec ps ctx st lg :
  exists k ctx', k <= length ps /\ chain pBootstrap (take k ps) ctx = Some ctx' /\
    bootstrap_loop ps ctx st lg =
      (ctx', st ++ take k ps, (p ← ps !! k; boot_error p ctx'), lg ++ (Boot <$> names (take (S k) ps))) /\
    (k < length ps -> exists p e, ps !! k = Some p /\ boot_error p ctx' = Some e).
Proof.
  revert ctx st lg. induction ps as [|p ps IH]; intros ctx st lg; cbn [bootstrap_loop].
  { exists 0, ctx. simpl. rewrite !app_nil_r. split_and!; [lia|done|done|lia]. }
  assert (Hstop : forall e, boot_error p ctx = Some e ->
    exists k ctx', k <= length (p :: ps) /\ chain pBootstrap (take k (p :: ps)) ctx = Some ctx' /\
     (ctx, st, Some e, lg ++ [Boot (pname p)]) =
       (ctx', st ++ take k (p :: ps), (p ← (p :: ps) !! k; boot_error p ctx'),
        lg ++ (Boot <$> names (take (S k) (p :: ps)))) /\
     (k < length (p :: ps) -> exists p' e, (p :: ps) !! k = Some p' /\ boot_error p' ctx' = Some e)).
  { intros e He. exists 0, ctx. cbn [take chain lookup list_lookup mbind option_bind names fmap list_fmap].
    rewrite He, app_nil_r. split_and!; [lia|done|done|]. intros _. by exists p, e. }
  destruct (pBootstrap p ctx) as [[next|] [err|]] eqn:E;
    try (apply Hstop; unfold boot_error; by rewrite E).
  destruct (IH next (st ++ [p]) (lg ++ [Boot (pname p)])) as (k & ctx' & Hk & Hc & -> & He).
  exists (S k), ctx'. cbn [length take chain lookup list_lookup]. rewrite E.
  split_and!; [lia|done| |intros; apply He; lia].
  rewrite <- !(assoc_L (++)). done.
Qed.

Lemma shutdown_loop_log ps ctx errs lg :
  snd (shutdown_loop ps ctx errs lg) = lg ++ (Shut <$> names ps).
Proof.
  revert ctx errs lg. induction ps as [|p ps IH]; intros ctx errs lg; cbn [shutdown_loop].
  { simpl. by rewrite app_nil_r. }
  destruct (pShutdown p ctx) as [[next|] [err|]]; rewrite IH, <- (assoc_L (++)); done.
Qed.

Lemma shutdown_log ctx ps : snd (shutdown ctx ps) = Shut <$> reverse (names ps).
Proof.
  unfold shutdown. pose proof (shutdown_loop_log (reverse ps) ctx [] []) as H.
  destruct (shutdown_loop _ _ _ _) as [[c errs] lg]. simpl in *. rewrite H.
  unfold names. by rewrite fmap_reverse.
Qed.

(** The calls of a runner whose first [k] providers started: all of those and
    the next one were bootstrapped, and they were shut down in reverse. *)
Definition full_log ps (k : nat) (middle : list event) : list event :=
  (Boot <$> names (take (S k) ps)) ++ middle ++ (Shut <$> reverse (names (take k ps))).
End Calls.

Section Invariant.
Context {Ctx : Type} (background : Ctx) (detach : Z -> Ctx -> Ctx).
Implicit Types (r : Runner Ctx) (s : system Ctx).

Definition phase_ok (ps : list (Provider Ctx)) r : Prop :=
  providers r = ps /\
  match state r with
  | StateNew | StateStarting => log r = []
  | StateStarted | StateStopping => log r = Boot <$> names ps /\ started r = ps
  | StateStopped => exists k, k <= length ps /\ log r = full_log ps k []
  end.

Lemma Bootstrap_finish_ok ps ctx r :
  providers r = ps -> log r = [] -> phase_ok ps (fst (Bootstrap_finish detach ctx r)) /\
  (state (fst (Bootstrap_finish detach ctx r)) = StateStarted \/
   state (fst (Bootstrap_finish detach ctx r)) = StateStopped).
Proof.
  intros Hp Hl. unfold Bootstrap_finish, bootstrap.
  destruct (bootstrap_loop_spec (providers r) ctx [] []) as (k & ctx' & Hk & Hc & -> & He).
  rewrite Hl. destruct (providers r !! k) as [p|] eqn:Ep; cbn [mbind option_bind].
  - destruct He as (p' & e & [= ->] & He); [by apply lookup_lt_Some in Ep|]. rewrite He.
    destruct (shutdown _ _) as [[c se] undo] eqn:Es. pose proof (shutdown_log (detach (shutdownTimeout r) ctx')
      ([] ++ take k (providers r))) as Hs. rewrite Es in Hs. simpl in Hs. subst undo.
    split; [|by right].
    split; [done|]. simpl. exists k. rewrite <- Hp. split; [done|]. unfold full_log. done.
  - apply lookup_ge_None in Ep. split; [|by left]. split; [done|]. simpl.
    rewrite !take_ge by lia. by subst.
Qed.

Lemma Shutdown_finish_ok ps ctx r :
  providers r = ps -> started r = ps -> log r = Boot <$> names ps ->
  phase_ok ps (fst (Shutdown_finish ctx r)) /\ state (fst (Shutdown_finish ctx r)) = StateStopped /\
  shutdownErr (fst (Shutdown_finish ctx r)) = snd (snd (Shutdown_finish ctx r)).
Proof.
  intros Hp Hs Hl. unfold Shutdown_finish. rewrite Hs. destruct (shutdown ctx ps) as [[c e] calls] eqn:E.
  pose proof (shutdown_log ctx ps) as H. rewrite E in H. simpl in H. subst calls. simpl.
  split; [|done]. split; [done|]. simpl. exists (length ps). split; [lia|]. unfold full_log.
  rewrite !take_ge by lia. by rewrite Hl.
Qed.

(** Who is inside which method, and what [Shutdown] has answered. *)
Definition system_ok (ps : list (Provider Ctx)) s : Prop :=
  phase_ok ps (runner s) /\
  (is_Some (starter s) <-> state (runner s) = StateStarting) /\
  (is_Some (stopper s) <-> state (runner s) = StateStopping) /\
  Forall (fun e => e = shutdownErr (runner s)) (stops s) /\
  (state (runner s) <> StateStopped -> stops s = []).

Lemma is_Some_None_False {A} (P : Prop) : ~ P -> (is_Some (@None A) <-> P).
Proof. intros HP. split; [|done]. by intros [? ?]. Qed.

Lemma step_ok ps a s s' : system_ok ps s -> step background detach a s = Some s' -> system_ok ps s'.
Proof.
  intros (Hph & Hsta & Hsto & Hstops & Hempty). pose proof Hph as [Hp Hst].
  destruct a as [ctx| |ctx|]; cbn [step].
  - unfold Bootstrap_begin. destruct (state (runner s)) eqn:Es; intros [= <-];
      try (unfold system_ok; simpl; rewrite Es; split_and!; done).
    unfold system_ok; simpl. split_and!; [done|done| |done|intros _; by apply Hempty].
    split; [|done]. intros Hx. by apply Hsto in Hx.
  - destruct (starter s) as [ctx|]; [|done]. cbn [mbind option_bind].
    assert (Es : state (runner s) = StateStarting) by (apply Hsta; by eexists). rewrite Es in *.
    destruct (Bootstrap_finish_ok ps ctx (runner s) Hp Hst) as [Hok Hin].
    destruct (Bootstrap_finish detach ctx (runner s)) as [r [c e]]. simpl in *. intros [= <-].
    rewrite Hempty in * by done. unfold system_ok; simpl. split_and!; [done|..].
    + apply is_Some_None_False. intros E. rewrite E in Hin. by destruct Hin.
    + rewrite Hsto. split; [done|]. intros E. rewrite E in Hin. by destruct Hin.
    + constructor.
    + done.
  - unfold Shutdown_turn. destruct (state (runner s)) eqn:Es; try done; intros [= <-].
    + unfold system_ok; simpl. rewrite Es. split_and!; done.
    + unfold system_ok; simpl. split_and!; [by destruct Hph| |done|done|by intros; apply Hempty].
      split; [|done]. intros Hx. by apply Hsta in Hx.
    + unfold system_ok; simpl. rewrite Es. split_and!; try done.
      apply Forall_app. split; [done|]. by repeat constructor.
  - destruct (stopper s) as [ctx|]; [|done]. cbn [mbind option_bind].
    assert (Es : state (runner s) = StateStopping) by (apply Hsto; by eexists). rewrite Es in *.
    destruct Hst as [Hl Hs].
    destruct (Shutdown_finish_ok ps ctx (runner s) Hp Hs Hl) as (Hok & Hstate & Herr).
    destruct (Shutdown_finish ctx (runner s)) as [r [c e]]. simpl in *. intros [= <-].
    rewrite Hempty by done. unfold system_ok; simpl. rewrite Hstate. split_and!; [done| | | |done].
    + rewrite Hsta. done.
    + by apply is_Some_None_False.
    + by repeat constructor.
Qed.

Lemma run_ok ps l s s' : system_ok ps s -> run background detach l s = Some s' -> system_ok ps s'.
Proof.
  revert s. induction l as [|a l IH]; intros s Hs; simpl; [by intros [= <-]|].
  destruct (step background detach a s) as [s1|] eqn:E; [|done]. simpl. apply IH. by eapply step_ok.
Qed.

Lemma init_ok options : system_ok (cProviders (newConfig options)) (init options).
Proof.
  unfold system_ok, init, New, phase_ok; simpl. split_and!; try done; by apply is_Some_None_False.
Qed.
End Invariant.


Lemma Shutdown_started {Ctx} (background ctx : Ctx) (r : Runner Ctx) :
  state r = StateStarted ->
  exists err c, Shutdown background (Some ctx) r =
    Some (mkRunner (providers r) (shutdownTimeout r) StateStopped [] err
            (log r ++ (Shut <$> reverse (names (started r)))), (c, err)).
Proof.
  intros Hs. unfold Shutdown, Shutdown_turn. rewrite Hs. unfold Shutdown_finish. simpl.
  destruct (shutdown ctx (started r)) as [[c err] calls] eqn:E. exists err, c.
  pose proof (shutdown_log ctx (started r)) as H. rewrite E in H. simpl in H. by subst.
Qed.

(** [Run] on a new runner always returns.  With [k] the number of providers
    that start, each given the context the previous one returned: if all start,
    the handler runs once with the last context, between the startup and the
    reverse shutdown, and its error is joined with the shutdown's; if provider
    [k] does not, the handler does not run, exactly the first [k] are shut down
    in reverse, and the provider's error is joined with the rollback's. *)
Theorem Run_brackets {Ctx} (background : Ctx) detach options ctx handler :
  let r := New options in let ps := providers r in
  exists r' err k ctx',
    Run background detach ctx handler r = Some (r', err) /\ state r' = StateStopped /\
    k <= length ps /\ chain pBootstrap (take k ps) (normalizeContext background ctx) = Some ctx' /\
    match ps !! k with
    | Some p =>
        exists e, boot_error p ctx' = Some e /\ err = errors_Join [Some e; shutdownErr r'] /\
          log r' = full_log ps k []
    | None =>
        err = errors_Join [h ← handler; h ctx'; shutdownErr r'] /\
        log r' = full_log ps k (if handler is Some _ then [Handle] else [])
    end.
Proof.
  intros r ps. unfold Run, Bootstrap. change (Bootstrap_begin r) with (Some (set_state StateStarting r)).
  unfold Bootstrap_finish, bootstrap. change (providers (set_state StateStarting r)) with ps.
  destruct (bootstrap_loop_spec ps (normalizeContext background ctx) [] [])
    as (k & ctx' & Hk & Hc & -> & He). destruct (ps !! k) as [p|] eqn:Ep; cbn [mbind option_bind].
  - destruct He as (p' & e & Hp' & He); [by apply lookup_lt_Some in Ep|]. simplify_eq. rewrite He.
    destruct (shutdown _ _) as [[c se] undo] eqn:Es.
    pose proof (shutdown_log (detach (shutdownTimeout (set_state StateStarting r)) ctx') ([] ++ take k ps)) as Hs.
    rewrite Es in Hs. cbn [snd] in Hs. subst undo.
    eexists _, _, k, ctx'. split_and!; [by destruct se|done|done|done|]. rewrite Ep. exists e.
    by split_and!; [|destruct se|].
  - apply lookup_ge_None in Ep.
    set (r1 := mkRunner _ _ StateStarted _ _ _).
    destruct handler as [h|].
    + destruct (Shutdown_started background (detach (shutdownTimeout r) ctx')
        (mkRunner (providers r1) (shutdownTimeout r1) (state r1) (started r1) (shutdownErr r1)
           (log r1 ++ [Handle])) eq_refl) as (se & c & Hs).
      cbn [providers shutdownTimeout state started shutdownErr log r1] in Hs |- *.
      change (shutdownTimeout (set_state StateStarting r)) with (shutdownTimeout r) in *. rewrite Hs.
      cbn [mbind option_bind]. eexists _, _, k, ctx'. split_and!; [reflexivity|done|done|done|].
      rewrite lookup_ge_None_2 by done. split; [done|]. cbn [log]. unfold full_log.
      by rewrite <- !(assoc_L (++)).
    + destruct (Shutdown_started background (detach (shutdownTimeout r) ctx') r1 eq_refl) as (se & c & Hs).
      change (shutdownTimeout r1) with (shutdownTimeout r) in *. rewrite Hs. cbn [mbind option_bind].
      eexists _, _, k, ctx'. split_and!; [reflexivity|done|done|done|].
      rewrite lookup_ge_None_2 by done. split; [done|]. cbn [log]. unfold full_log. done.
Qed.

(** Three providers, the second of which fails to start. *)
Definition demo_provider (n : nat) (fails : bool) : Provider nat :=
  mkProvider n (fun c => if fails then (None, Some (ErrMsg "down")) else (Some (c + n), None))
    (fun c => (Some c, None)).

