(* ===== verification/Queue.v ===== *)
(** * Tasks, producers and workers: [src/queue]

    The envelope, the handler errors a worker understands, the producer, and the
    worker's decision how to settle a delivery.  The worker's loop is verified
    against the contract of a queue ([QueueLaws]); the in-memory adapter
    discharges it in [QueueMemory].  Contexts carry no data the decisions depend
    on: a handler is what it returns for a task. *)

From S2P Require Import Prelude GoErrors Retry.
From Stdlib Require Import Ascii.
From stdpp Require Import options.
Set Default Proof Using "Type*".
Local Open Scope Z_scope.

Abbreviation bytes := (list ascii).

(** ** [task.go], [queue.go] *)

Definition DefaultQueue : string := "default".

Record Task := mkTask {
  ID : string; Type_ : string; QueueName : string; Payload : bytes;
  Metadata : gmap string string; Attempt_ : Z; CreatedAt : Z; AvailableAt : Z
}.

(** A deep copy; values have no identity here. *)
Definition Clone (t : option Task) : option Task := t.

Definition with_attempt (a : Z) (t : Task) : Task :=
  mkTask (ID t) (Type_ t) (QueueName t) (Payload t) (Metadata t) a (CreatedAt t) (AvailableAt t).
Definition with_available (at_ : Z) (t : Task) : Task :=
  mkTask (ID t) (Type_ t) (QueueName t) (Payload t) (Metadata t) (Attempt_ t) (CreatedAt t) at_.
Definition with_queue (q : string) (t : Task) : Task :=
  mkTask (ID t) (Type_ t) q (Payload t) (Metadata t) (Attempt_ t) (CreatedAt t) (AvailableAt t).
Definition with_metadata (m : gmap string string) (t : Task) : Task :=
  mkTask (ID t) (Type_ t) (QueueName t) (Payload t) m (Attempt_ t) (CreatedAt t) (AvailableAt t).

Record ConsumerConfig := mkConsumer { ccQueue : string; ccName : string }.

Definition Normalize (c : ConsumerConfig) : ConsumerConfig :=
  if String.eqb (ccQueue c) "" then mkConsumer DefaultQueue (ccName c) else c.

(** ** [errors.go], [handler_error.go] *)

Definition ErrConsumerClosed : error := ErrNew "queue: consumer closed".
Definition ErrInvalidTaskType : error := ErrNew "queue: task type is required".
Definition ErrHandlerNotFound : string := "queue: handler not found".
Definition ErrRetryExhausted : string := "queue: retry exhausted".
Definition ErrDiscard : string := "queue: discard task".
Definition defaultDeadLetterReason : string := "queue: dead letter requested".

Definition RetryAfter (delay : Z) : error := retryAfterError (if delay <? 0 then 0 else delay).

Definition as_retryAfter (e : error) : option Z :=
  match e with retryAfterError d => Some d | _ => None end.
Definition retryAfterDelay (err : error) : option Z := errors_As as_retryAfter err.

Definition DeadLetter (reason : string) : error :=
  deadLetterError (if String.eqb reason "" then defaultDeadLetterReason else reason).

Definition as_deadLetter (e : error) : option string :=
  match e with deadLetterError r => Some r | _ => None end.
Definition deadLetterReason (err : error) : option string := errors_As as_deadLetter err.

(** ** [handler.go], [typed.go] *)

Definition Handler := Task -> option error.
Definition Middleware := Handler -> Handler.

(** [for _, m := range slices.Backward(middleware) { handler = m(handler) }] *)
Definition chain (handler : Handler) (middleware : list Middleware) : Handler :=
  foldl (fun h m => m h) handler (reverse middleware).

(** Typed handlers decode the payload first. *)
Definition HandleForWithCodec {T} (Unmarshal : bytes -> T + error) (handler : Task -> T -> option error)
    : Handler :=
  fun task =>
    match Unmarshal (Payload task) with
    | inr err => Some err
    | inl payload => handler task payload
    end.

Definition HandlePayloadWithCodec {T} (Unmarshal : bytes -> T + error) (handler : T -> option error)
    : Handler :=
  HandleForWithCodec Unmarshal (fun _ payload => handler payload).

(** ** [observer.go] *)

Inductive EventKind :=
| EventEnqueueStarted | EventEnqueued | EventEnqueueFailed | EventTaskReceived
| EventHandlerStarted | EventHandlerSucceeded | EventHandlerFailed
| EventTaskAcked | EventTaskRetried | EventTaskDeadLettered | EventTaskSettlementFailed.

Inductive SettlementAction := SettlementAck | SettlementRetry | SettlementDeadLetter.

Record TaskInfo := mkInfo { iID : string; iType : string; iQueue : string; iAttempt : Z }.

Definition taskInfo (task : Task) : TaskInfo :=
  mkInfo (ID task) (Type_ task) (QueueName task) (Attempt_ task).

Record Event := mkEvent {
  Kind : EventKind; eQueue : string; ConsumerName : string; eTask : TaskInfo;
  Settlement : option SettlementAction; eDelay : Z; Reason : string; eErr : option error
}.

(** ** The settlement of a delivery *)

Inductive settlement := Ack | Retry_ (delay : Z) | DeadLetter_ (reason : string).

(** ** [worker.go]: configuration *)

Record workerConfig := mkWorkerConfig {
  queue : string; consumerName : string; concurrency : Z; handlerTimeout : Z; settlementTimeout : Z;
  wMaxAttempts : Z; wBackoff : Backoff; wRetryIf : Task -> error -> bool; observer : bool;
  middleware : list Middleware; handlers : gmap string Handler
}.

Inductive WorkerOption :=
| WithConsumerName (name : string) | WithConcurrency (n : Z) | WithHandlerTimeout (timeout : Z)
| WithSettlementTimeout (timeout : Z) | WMaxAttempts (attempts : Z) | WBackoff (b : option Backoff)
| WRetryIf (p : option (Task -> error -> bool)) | WithMiddleware (ms : list Middleware)
| Handle (taskType : string) (handler : option Handler) | WithQueue (name : string) | WithObserver (set : bool).

Definition applyWorker (o : WorkerOption) (c : workerConfig) : workerConfig :=
  let 'mkWorkerConfig q cn n ht st ma bo ri ob mw hs := c in
  match o with
  | WithConsumerName name => if String.eqb name "" then c else mkWorkerConfig q name n ht st ma bo ri ob mw hs
  | WithConcurrency k => if k >? 0 then mkWorkerConfig q cn k ht st ma bo ri ob mw hs else c
  | WithHandlerTimeout t => if t >? 0 then mkWorkerConfig q cn n t st ma bo ri ob mw hs else c
  | WithSettlementTimeout t => if t >? 0 then mkWorkerConfig q cn n ht t ma bo ri ob mw hs else c
  | WMaxAttempts a => if a >=? 1 then mkWorkerConfig q cn n ht st a bo ri ob mw hs else c
  | WBackoff b => match b with Some b => mkWorkerConfig q cn n ht st ma b ri ob mw hs | None => c end
  | WRetryIf p => match p with Some p => mkWorkerConfig q cn n ht st ma bo p ob mw hs | None => c end
  | WithMiddleware ms => mkWorkerConfig q cn n ht st ma bo ri ob (mw ++ ms) hs
  | Handle taskType handler =>
      match handler with
      | Some h => if String.eqb taskType "" then c
                  else mkWorkerConfig q cn n ht st ma bo ri ob mw (<[taskType := h]> hs)
      | None => c
      end
  | WithQueue name => if String.eqb name "" then c else mkWorkerConfig name cn n ht st ma bo ri ob mw hs
  | WithObserver set => mkWorkerConfig q cn n ht st ma bo ri set mw hs
  end.

Definition newWorkerConfig (opts : list WorkerOption) : workerConfig :=
  foldl (fun c o => applyWorker o c)
    (mkWorkerConfig DefaultQueue "" 1 0 (30 * Second) 3 (default NoBackoff (Fixed Second))
       (fun _ _ => true) false [] ∅) opts.

(** ** [worker.go]: processing a delivery *)

Section Worker.
(** [err.Error()], and what the delivery's settlement returns. *)
Variables (Error : error -> string) (settle : settlement -> option error).
Variable (w : workerConfig).

Definition observe (e : Event) : list Event := if observer w then [e] else [].

Definition event (kind : EventKind) (task : Task) : Event :=
  mkEvent kind (queue w) (consumerName w) (taskInfo task) None 0 "" None.

Definition settlementFailedEvent (task : Task) (s : SettlementAction) (delay : Z) (reason : string)
    (err : error) : Event :=
  mkEvent EventTaskSettlementFailed (queue w) (consumerName w) (taskInfo task) (Some s) delay reason (Some err).

Definition handle (handler : Handler) (task : Task) : option error := chain handler (middleware w) task.

(** Each settles the delivery once and reports it: the settlements made, the
    events, the error. *)
Definition ack (task : Task) : list settlement * list Event * option error :=
  match settle Ack with
  | Some err => ([Ack], observe (settlementFailedEvent task SettlementAck 0 "" err), Some err)
  | None => ([Ack], observe (event EventTaskAcked task), None)
  end.

Definition retry (task : Task) (delay : Z) : list settlement * list Event * option error :=
  match settle (Retry_ delay) with
  | Some err => ([Retry_ delay], observe (settlementFailedEvent task SettlementRetry delay "" err), Some err)
  | None => ([Retry_ delay],
             observe (mkEvent EventTaskRetried (queue w) (consumerName w) (taskInfo task)
                        (Some SettlementRetry) delay "" None), None)
  end.

Definition deadLetter (task : Task) (reason : string) : list settlement * list Event * option error :=
  match settle (DeadLetter_ reason) with
  | Some err => ([DeadLetter_ reason],
                 observe (settlementFailedEvent task SettlementDeadLetter 0 reason err), Some err)
  | None => ([DeadLetter_ reason],
             observe (mkEvent EventTaskDeadLettered (queue w) (consumerName w) (taskInfo task)
                        (Some SettlementDeadLetter) 0 reason None), None)
  end.

Definition prepend (evs : list Event) (r : list settlement * list Event * option error)
    : list settlement * list Event * option error :=
  let '(ss, es, err) := r in (ss, evs ++ es, err).

Definition process (task : Task) : list settlement * list Event * option error :=
  match handlers w !! Type_ task with
  | None => deadLetter task ErrHandlerNotFound
  | Some handler =>
      let started := observe (event EventHandlerStarted task) in
      match handle handler task with
      | None => prepend (started ++ observe (event EventHandlerSucceeded task)) (ack task)
      | Some err =>
          let failed := observe (mkEvent EventHandlerFailed (queue w) (consumerName w) (taskInfo task)
                                   None 0 "" (Some err)) in
          prepend (started ++ failed)
            (if errors_Is err ErrDiscard then ack task
             else match deadLetterReason err with
                  | Some reason => deadLetter task reason
                  | None =>
                      if Attempt_ task >=? wMaxAttempts w then
                        deadLetter task (String.append ErrRetryExhausted (String.append ": " (Error err)))
                      else match retryAfterDelay err with
                           | Some retryAfter => retry task retryAfter
                           | None =>
                               if negb (wRetryIf w task err) then deadLetter task (Error err)
                               else retry task (Z.max (wBackoff w (Attempt_ task)) 0)
                           end
                  end)
      end
  end.

Definition isStopError (err : error) : bool :=
  errors_Is err "context canceled" || errors_Is err "context deadline exceeded".

Definition isNormalStopError (ctx_done : bool) (err : error) : bool :=
  isStopError err || (errors_Is err "queue: consumer closed" && ctx_done).
End Worker.

(** ** The contract of a queue

    [Receive] under an open context returns the delivery and the time it was
    made, or [None] when it would block for ever; settlements are those of a
    delivery made at that time. *)
Class TaskQueue (S : Type) := {
  Enqueue : option error -> Task -> S -> S * option error;
  Receive : string -> Z -> S -> option (S * Z * Task);
  Settle : Z -> Task -> settlement -> S -> S
}.

Definition deadLetterKey : string := "queue.dead_letter.reason".

Definition dead_lettered (t : Task) (reason : string) : Task :=
  with_metadata (<[deadLetterKey := reason]> (Metadata t)) t.

Definition queue_or_default (q : string) : string := if String.eqb q "" then DefaultQueue else q.

(** [pending] and [dead] are the stored tasks of a queue, up to their order;
    [qinv s now] that the store is well-formed at [now]. *)
Class QueueLaws (S : Type) `{TaskQueue S} := {
  qinv : S -> Z -> Prop;
  pending : S -> string -> list Task;
  dead : S -> string -> list Task;
  qinv_mono s t t' : qinv s t -> t <= t' -> qinv s t';
  pending_queue s t q : qinv s t -> Forall (fun x => QueueName x = q) (pending s q);
  enqueue_law err task s now :
    qinv s now -> AvailableAt task - now <= maxInt64 ->
    qinv (fst (Enqueue err task s)) now /\ snd (Enqueue err task s) = err /\
    forall q, pending (fst (Enqueue err task s)) q ≡ₚ
      (if decide (err = None /\ queue_or_default (QueueName task) = q)
       then [with_queue q task] else []) ++ pending s q;
  receive_none q now s : qinv s now -> Receive q now s = None -> pending s q = [];
  receive_some q now s s' now' t' :
    qinv s now -> Receive q now s = Some (s', now', t') ->
    qinv s' now' /\ now <= now' /\ (forall q', dead s' q' = dead s q') /\
    exists t, t' = with_attempt (Attempt_ t + 1) t /\ AvailableAt t <= now' /\
      pending s q ≡ₚ t :: pending s' q /\ (forall q', q' <> q -> pending s' q' = pending s q');
  settle_ack now t s : Settle now t Ack s = s;
  settle_retry now t delay s :
    qinv s now -> QueueName t <> ""%string -> int64_ok delay ->
    let s' := Settle now t (Retry_ delay) s in
    qinv s' now /\ (forall q, dead s' q = dead s q) /\
    forall q, pending s' q ≡ₚ
      (if decide (QueueName t = q) then [with_available (now + delay) t] else []) ++ pending s q;
  settle_dead now t reason s :
    qinv s now ->
    let s' := Settle now t (DeadLetter_ reason) s in
    qinv s' now /\ (forall q, pending s' q = pending s q) /\
    forall q, dead s' q ≡ₚ (if decide (QueueName t = q) then [dead_lettered t reason] else []) ++ dead s q
}.

(** ** [worker.go]: the loop *)

Section Loop.
Context {S : Type} `{TaskQueue S}.
Variables (Error : error -> string) (w : workerConfig).
(** How long the handling of a task takes. *)
Variable (took : Task -> Z).

(** One worker under open contexts, until [Receive] blocks for ever; the result
    is the store and the settled deliveries. *)
Fixpoint loop (fuel : nat) (now : Z) (s : S) (settled : list (Task * settlement))
    : option (S * list (Task * settlement)) :=
  match fuel with
  | 0%nat => None
  | Datatypes.S fuel =>
      match Receive (queue w) now s with
      | None => Some (s, settled)
      | Some (s, now, task) =>
          let '(ss, _, err) := process Error (fun _ => None) w task in
          let now := now + took task in
          let s := foldl (fun s x => Settle now task x s) s ss in
          let settled := settled ++ ((fun x => (task, x)) <$> ss) in
          match err with
          | Some _ => Some (s, settled)
          | None => loop fuel now s settled
          end
      end
  end.
End Loop.

(** ** [producer.go], [option.go] *)

Record enqueueConfig := mkEnqueue { eId : string; enqQueue : string; eMetadata : gmap string string; eDelay_ : Z }.

Inductive EnqueueOption :=
| WithID (id : string) | WithMetadataValue (key value : string) | WithDelay (delay : Z)
| EnqWithQueue (name : string) | EnqWithMetadata (m : gmap string string).

Definition applyEnqueue (o : EnqueueOption) (c : enqueueConfig) : enqueueConfig :=
  match o with
  | WithID id => mkEnqueue id (enqQueue c) (eMetadata c) (eDelay_ c)
  | WithMetadataValue key value => mkEnqueue (eId c) (enqQueue c) (<[key := value]> (eMetadata c)) (eDelay_ c)
  | WithDelay delay => if delay >? 0 then mkEnqueue (eId c) (enqQueue c) (eMetadata c) delay else c
  | EnqWithQueue name => if String.eqb name "" then c else mkEnqueue (eId c) name (eMetadata c) (eDelay_ c)
  | EnqWithMetadata m => mkEnqueue (eId c) (enqQueue c) (m ∪ eMetadata c) (eDelay_ c)
  end.

(** [newID] is the random identifier drawn when none is given. *)
Definition newEnqueueConfig (newID queueName : string) (metadata : gmap string string)
    (opts : list EnqueueOption) : enqueueConfig :=
  let c := foldl (fun c o => applyEnqueue o c)
             (mkEnqueue "" (queue_or_default queueName) metadata 0) opts in
  if String.eqb (eId c) "" then mkEnqueue newID (enqQueue c) (eMetadata c) (eDelay_ c) else c.

Record Producer := mkProducer { pQueueName : string; pMetadata : gmap string string; pObserver : bool }.

Inductive ProducerOption := PWithQueue (name : string) | PWithMetadata (m : gmap string string) | PWithObserver (set : bool).

Definition applyProducer (o : ProducerOption) (p : Producer) : Producer :=
  match o with
  | PWithQueue name => if String.eqb name "" then p else mkProducer name (pMetadata p) (pObserver p)
  | PWithMetadata m => mkProducer (pQueueName p) (m ∪ pMetadata p) (pObserver p)
  | PWithObserver set => mkProducer (pQueueName p) (pMetadata p) set
  end.

Definition NewProducer (opts : list ProducerOption) : Producer :=
  foldl (fun p o => applyProducer o p) (mkProducer DefaultQueue ∅ false) opts.

Section Producing.
Context {S : Type} `{TaskQueue S}.

Definition pobserve (p : Producer) (e : Event) : list Event := if pObserver p then [e] else [].

(** [Producer.Enqueue]: the store, the task or the error, the events. *)
Definition ProducerEnqueue (p : Producer) (ctx_err : option error) (taskType : string) (payload : bytes)
    (newID : string) (now : Z) (opts : list EnqueueOption) (s : S)
    : S * (Task + error) * list Event :=
  if String.eqb taskType "" then (s, inr ErrInvalidTaskType, [])
  else
    let c := newEnqueueConfig newID (pQueueName p) (pMetadata p) opts in
    let task := mkTask (eId c) taskType (enqQueue c) payload (eMetadata c) 0 now (now + eDelay_ c) in
    let ev kind err := pobserve p (mkEvent kind (QueueName task) "" (taskInfo task) None (eDelay_ c) "" err) in
    let '(s, err) := Enqueue ctx_err task s in
    match err with
    | Some err => (s, inr err, ev EventEnqueueStarted None ++ ev EventEnqueueFailed (Some err))
    | None => (s, inl task, ev EventEnqueueStarted None ++ ev EventEnqueued None)
    end.

Definition EnqueueForWithCodec {T} (Marshal : T -> bytes + error) (p : option Producer)
    (ctx_err : option error) (taskType : string) (payload : T) (newID : string) (now : Z)
    (opts : list EnqueueOption) (s : S) : S * (Task + error) * list Event :=
  match p with
  | None => (s, inr (ErrMsg "queue: producer is nil"), [])
  | Some p =>
      match Marshal payload with
      | inr err => (s, inr err, [])
      | inl data => ProducerEnqueue p ctx_err taskType data newID now opts s
      end
  end.

(** [Definition.Enqueue] checks the name before it encodes. *)
Definition DefinitionEnqueue {T} (Marshal : T -> bytes + error) (taskType : string) (p : option Producer)
    (ctx_err : option error) (payload : T) (newID : string) (now : Z) (opts : list EnqueueOption) (s : S)
    : S * (Task + error) * list Event :=
  if String.eqb taskType "" then (s, inr ErrInvalidTaskType, [])
  else EnqueueForWithCodec Marshal p ctx_err taskType payload newID now opts s.
End Producing.

(** ** Settlement *)

Section Settling.
Variables (Error : error -> string) (settle : settlement -> option error) (w : workerConfig).

(** The settlement [process] decides on. *)
Definition verdict (task : Task) : settlement :=
  match handlers w !! Type_ task with
  | None => DeadLetter_ ErrHandlerNotFound
  | Some h =>
      match handle w h task with
      | None => Ack
      | Some err =>
          if errors_Is err ErrDiscard then Ack
          else match deadLetterReason err with
               | Some reason => DeadLetter_ reason
               | None =>
                   if Attempt_ task >=? wMaxAttempts w
                   then DeadLetter_ (String.append ErrRetryExhausted (String.append ": " (Error err)))
                   else match retryAfterDelay err with
                        | Some d => Retry_ d
                        | None => if wRetryIf w task err then Retry_ (Z.max (wBackoff w (Attempt_ task)) 0)
                                  else DeadLetter_ (Error err)
                        end
               end
      end
  end.

(** The event that reports settlement [x] and its error. *)
Definition settled_kind (x : settlement) (err : option error) : EventKind :=
  match err, x with
  | Some _, _ => EventTaskSettlementFailed
  | None, Ack => EventTaskAcked
  | None, Retry_ _ => EventTaskRetried
  | None, DeadLetter_ _ => EventTaskDeadLettered
  end.

(** One settlement, one report of it, after the events [pre]. *)
Definition settles (pre : list Event) (x : settlement) (r : list settlement * list Event * option error) : Prop :=
  exists e, r = ([x], pre ++ observe w e, settle x) /\ Kind e = settled_kind x (settle x).

Lemma prepend_settles pre x r : settles [] x r -> settles pre x (prepend pre r).
Proof. intros (e & -> & He). by exists e. Qed.

Lemma ack_settles task : settles [] Ack (ack settle w task).
Proof. unfold settles, ack. destruct (settle Ack); by eexists. Qed.
Lemma retry_settles task d : settles [] (Retry_ d) (retry settle w task d).
Proof. unfold settles, retry. destruct (settle (Retry_ d)); by eexists. Qed.
Lemma deadLetter_settles task r : settles [] (DeadLetter_ r) (deadLetter settle w task r).
Proof. unfold settles, deadLetter. destruct (settle (DeadLetter_ r)); by eexists. Qed.

Lemma process_settles task : exists pre, settles pre (verdict task) (process Error settle w task).
Proof.
  unfold process, verdict. destruct (handlers w !! Type_ task) as [h|].
  2: { exists []. apply deadLetter_settles. }
  destruct (handle w h task) as [err|]; eexists; apply prepend_settles; [|apply ack_settles].
  destruct (errors_Is err ErrDiscard); [apply ack_settles|].
  destruct (deadLetterReason err); [apply deadLetter_settles|].
  destruct (Attempt_ task >=? wMaxAttempts w); [apply deadLetter_settles|].
  destruct (retryAfterDelay err); [apply retry_settles|].
  destruct (wRetryIf w task err); [apply retry_settles|apply deadLetter_settles].
Qed.

Lemma verdict_retry task d :
  verdict task = Retry_ d ->
  Attempt_ task < wMaxAttempts w /\
  exists h e, handlers w !! Type_ task = Some h /\ handle w h task = Some e /\
    ~ wraps e (ErrNew ErrDiscard) /\ deadLetterReason e = None /\
    (retryAfterDelay e = Some d \/
     retryAfterDelay e = None /\ wRetryIf w task e = true /\ d = Z.max (wBackoff w (Attempt_ task)) 0).
Proof.
  unfold verdict. intros Hv. destruct (handlers w !! Type_ task) as [h|]; [|done].
  destruct (handle w h task) as [e|] eqn:Eh; [|done].
  destruct (errors_Is e ErrDiscard) eqn:Ed; [done|]. destruct (deadLetterReason e) eqn:El; [done|].
  destruct (Z.geb_spec (Attempt_ task) (wMaxAttempts w)); [done|]. split; [done|].
  exists h, e. split_and!; [done|done| |done|].
  { intros Hw. apply errors_Is_spec in Hw. congruence. }
  destruct (retryAfterDelay e); [left; congruence|right].
  destruct (wRetryIf w task e); [|done]. split_and!; [done|done|congruence].
Qed.

Lemma verdict_ack task :
  verdict task = Ack <->
  exists h, handlers w !! Type_ task = Some h /\
    (handle w h task = None \/ exists e, handle w h task = Some e /\ wraps e (ErrNew ErrDiscard)).
Proof.
  unfold verdict. destruct (handlers w !! Type_ task) as [h|]; [|split; [done|by intros (? & ? & _)]].
  destruct (handle w h task) as [e|] eqn:Eh; [|split; [by exists h; split; [|left]|done]].
  pose proof (errors_Is_spec e ErrDiscard) as Hd. destruct (errors_Is e ErrDiscard).
  - split; [|done]. intros _. exists h. split; [done|]. right. exists e. split; [done|]. by apply Hd.
  - split.
    + intros Hx. exfalso. repeat case_match; congruence.
    + intros (h' & [= <-] & [?|(e' & ? & Hw)]); [congruence|]. simplify_eq. by apply Hd in Hw.
Qed.
End Settling.

(** Every delivery is settled exactly once.  [process] makes one settlement
    and returns that settlement's error, reported by one final event.  It
    acknowledges exactly when a handler is registered and it returned nil or an
    error that wraps [ErrDiscard]; it retries only below the attempt limit,
    after an error that neither discards nor dead-letters, with the delay of a
    [RetryAfter] in the error or else, when the predicate allows, the backoff's
    (never negative); everything else is dead-lettered. *)
Theorem process_settles_once Error settle w task :
  exists x pre e, process Error settle w task = ([x], pre ++ observe w e, settle x) /\
    Kind e = settled_kind x (settle x) /\
    (x = Ack <-> exists h, handlers w !! Type_ task = Some h /\
       (handle w h task = None \/ exists e, handle w h task = Some e /\ wraps e (ErrNew ErrDiscard))) /\
    (forall d, x = Retry_ d -> Attempt_ task < wMaxAttempts w /\
       exists h e, handlers w !! Type_ task = Some h /\ handle w h task = Some e /\
         ~ wraps e (ErrNew ErrDiscard) /\ deadLetterReason e = None /\
         (retryAfterDelay e = Some d \/
          retryAfterDelay e = None /\ wRetryIf w task e = true /\
          d = Z.max (wBackoff w (Attempt_ task)) 0)).
Proof.
  destruct (process_settles Error settle w task) as (pre & e & He & Hk).
  exists (verdict Error w task), pre, e. split_and!; [done|done|apply verdict_ack|].
  intros d. apply verdict_retry.
Qed.

(** ** Draining a queue *)

Lemma applyWorker_max o c : 1 <= wMaxAttempts c -> 1 <= wMaxAttempts (applyWorker o c).
Proof. destruct c, o; simpl; repeat case_match; simpl; try done; bcase; lia. Qed.

Lemma newWorkerConfig_max opts : 1 <= wMaxAttempts (newWorkerConfig opts).
Proof.
  unfold newWorkerConfig. set (c := mkWorkerConfig _ _ _ _ _ _ _ _ _ _ _).
  assert (Hc : 1 <= wMaxAttempts c) by (simpl; lia). revert Hc. generalize c. clear c.
  induction opts as [|o opts IH]; intros c Hc; simpl; [done|]. by apply IH, applyWorker_max.
Qed.

(** A delivery that leaves the queue for good. *)
Definition final (p : Task * settlement) : bool :=
  match p.2 with Retry_ _ => false | _ => true end.
Definition final_ids (l : list (Task * settlement)) : list string :=
  (fun p => ID p.1) <$> filter (fun p => final p = true) l.

Section Drain.
Context {S : Type} `{QueueLaws S}.
Variables (Error : error -> string) (w : workerConfig) (took : Task -> Z).
Hypothesis took_nonneg : forall t, 0 <= took t.
Hypothesis delays_ok : forall t d, verdict Error w t = Retry_ d -> int64_ok d.
Hypothesis queue_named : queue w <> ""%string.

(** The deliveries a pending task can still have. *)
Definition deliveries (t : Task) : nat := Z.to_nat (Z.max 1 (wMaxAttempts w - Attempt_ t)).

Definition remaining (s : S) : nat := sum_list_with deliveries (pending s (queue w)).

Definition added_dead (hist : list (Task * settlement)) : list Task :=
  omap (fun p => match p.2 with DeadLetter_ r => Some (dead_lettered p.1 r) | _ => None end) hist.

(** What [settled] promises of the deliveries it records. *)
Definition hist_ok (hist : list (Task * settlement)) : Prop :=
  Forall (fun p => QueueName p.1 = queue w /\ p.2 = verdict Error w p.1 /\
                   (final p = false -> Attempt_ p.1 < wMaxAttempts w)) hist.

Lemma process_open task :
  exists evs, process Error (fun _ => None) w task = ([verdict Error w task], evs, None).
Proof. destruct (process_settles Error (fun _ => None) w task) as (pre & e & -> & _). by eexists. Qed.

(** One delivery and its settlement. *)
Lemma deliver s now s1 now1 task :
  qinv s now -> Receive (queue w) now s = Some (s1, now1, task) ->
  let x := verdict Error w task in
  let s2 := Settle (now1 + took task) task x s1 in
  qinv s2 (now1 + took task) /\ QueueName task = queue w /\
  (final (task, x) = false -> Attempt_ task < wMaxAttempts w) /\
  (ID <$> pending s (queue w)) ≡ₚ (if final (task, x) then [ID task] else []) ++ (ID <$> pending s2 (queue w)) /\
  (remaining s2 < remaining s)%nat /\
  dead s2 (queue w) ≡ₚ added_dead [(task, x)] ++ dead s (queue w).
Proof.
  intros Hi Hr x s2. pose proof (pending_queue s now (queue w) Hi) as Hq.
  destruct (receive_some _ _ _ _ _ _ Hi Hr) as (Hi1 & Hle & Hd & t & -> & Hav & Hp & _).
  assert (Hname : QueueName t = queue w).
  { rewrite Forall_forall in Hq. apply Hq. rewrite Hp. by left. }
  set (task := with_attempt (Attempt_ t + 1) t) in *.
  assert (Hi1' : qinv s1 (now1 + took task)).
  { eapply qinv_mono; [done|]. specialize (took_nonneg task). lia. }
  unfold remaining. destruct x as [|d|r] eqn:Ex; subst s2.
  - rewrite settle_ack. split_and!; [done|done|done|by rewrite Hp| |by rewrite Hd].
    rewrite Hp. simpl. unfold deliveries. lia.
  - pose proof (verdict_retry Error w task d Ex) as [Hlt _].
    destruct (settle_retry (now1 + took task) task d s1 Hi1') as (Hi2 & Hd2 & Hp2);
      [by simpl; rewrite Hname|by eapply delays_ok|].
    specialize (Hp2 (queue w)). rewrite decide_True in Hp2 by done.
    split_and!; [done|done|done|by rewrite Hp2, Hp| |by rewrite Hd2, Hd].
    rewrite Hp2, Hp. simpl in *. unfold deliveries. simpl. lia.
  - destruct (settle_dead (now1 + took task) task r s1 Hi1') as (Hi2 & Hp2 & Hd2).
    specialize (Hd2 (queue w)). rewrite decide_True in Hd2 by done.
    split_and!; [done|done|done|by rewrite Hp2, Hp| |by rewrite Hd2, Hd].
    rewrite Hp2, Hp. simpl. unfold deliveries. lia.
Qed.

Lemma loop_drains fuel now s acc :
  qinv s now -> (remaining s < fuel)%nat ->
  exists s' now' hist, loop Error w took fuel now s acc = Some (s', acc ++ hist) /\
    qinv s' now' /\ now <= now' /\ pending s' (queue w) = [] /\
    final_ids hist ≡ₚ (ID <$> pending s (queue w)) /\
    (length hist <= remaining s)%nat /\ hist_ok hist /\
    dead s' (queue w) ≡ₚ added_dead hist ++ dead s (queue w).
Proof.
  revert now s acc. induction fuel as [|fuel IH]; intros now s acc Hi Hf; [lia|]. cbn [loop].
  destruct (Receive (queue w) now s) as [[[s1 now1] task]|] eqn:Er.
  2: { exists s, now, []. rewrite app_nil_r. rewrite (receive_none _ _ _ Hi Er). split_and!; try done.
       - simpl. lia.
       - constructor. }
  destruct (process_open task) as [evs ->]. cbn [foldl fmap list_fmap].
  destruct (deliver s now s1 now1 task Hi Er) as (Hi2 & Hn & Hret & Hids & Hlt & Hdead).
  destruct (receive_some _ _ _ _ _ _ Hi Er) as (_ & Hle & _).
  specialize (took_nonneg task).
  destruct (IH (now1 + took task) (Settle (now1 + took task) task (verdict Error w task) s1)
              (acc ++ [(task, verdict Error w task)]) Hi2 ltac:(lia))
    as (s' & now' & hist & -> & Hi' & Hle' & Hp' & Hid' & Hlen & Hok & Hd').
  exists s', now', ((task, verdict Error w task) :: hist). rewrite <- (assoc_L (++)).
  split_and!; [done|done|lia|done| | | |].
  - rewrite Hids, <- Hid'. unfold final_ids. rewrite filter_cons.
    destruct (final (task, verdict Error w task)); [by rewrite decide_True|by rewrite decide_False].
  - simpl. lia.
  - constructor; [done|done].
  - rewrite Hd', Hdead, (assoc_L (++)). apply Permutation_app; [|done].
    change (added_dead ((task, verdict Error w task) :: hist))
      with (added_dead ([(task, verdict Error w task)] ++ hist)).
    unfold added_dead. rewrite omap_app. apply Permutation_app_comm.
Qed.
End Drain.

(** C6: A worker left alone with its queue drains it.  For every handler and
    middleware, the loop returns to waiting on an empty queue after at most one
    delivery per remaining attempt of each task; by identifier, the deliveries
    that were acknowledged or dead-lettered are exactly the tasks that were
    pending, so none is lost or finished twice; a delivery was retried only
    below the attempt limit; and the dead-letter store grew by exactly the
    dead-lettered deliveries with their reasons. *)
Theorem worker_drains {S : Type} `{QueueLaws S} Error opts took now (s : S) :
  let w := newWorkerConfig opts in
  (forall t, 0 <= took t) -> (forall t d, verdict Error w t = Retry_ d -> int64_ok d) ->
  queue w <> ""%string -> qinv s now ->
  exists s' now' hist,
    loop Error w took (Datatypes.S (remaining w s)) now s [] = Some (s', hist) /\
    qinv s' now' /\ pending s' (queue w) = [] /\
    final_ids hist ≡ₚ (ID <$> pending s (queue w)) /\
    (length hist <= remaining w s)%nat /\ hist_ok Error w hist /\
    dead s' (queue w) ≡ₚ added_dead hist ++ dead s (queue w).
Proof.
  intros w Ht Hd Hq Hi.
  destruct (loop_drains Error w took Ht Hd Hq (Datatypes.S (remaining w s)) now s [] Hi ltac:(lia))
    as (s' & now' & hist & Hl & ? & ? & ? & ? & ? & ? & ?).
  exists s', now', hist. done.
Qed.
