(* ===== verification/QueueMemory.v ===== *)
(** * The in-memory queue: [src/queue/adapter/memory/queue.go]

    Tasks are kept per queue in arrival order.  [next] scans for the first one
    that is due and otherwise computes how long to wait.  The theorems show that
    the wait is exact and that the adapter meets the contract of [Queue]. *)

From S2P Require Import Prelude GoErrors Retry Queue.
From stdpp Require Import options.
Set Default Proof Using "Type*".
Local Open Scope Z_scope.

(** [notify] counts the channels closed so far: a consumer that saw an older
    value is woken. *)
Record MemQueue := mkQueue {
  queues : gmap string (list Task); deadLetters : gmap string (list Task); notify : nat
}.

Definition NewQueue : MemQueue := mkQueue ∅ ∅ 0.

Definition signal (q : MemQueue) : MemQueue := mkQueue (queues q) (deadLetters q) (S (notify q)).

Definition tasks_of (m : gmap string (list Task)) (name : string) : list Task := default [] (m !! name).

(** A nil task is dropped. *)
Definition MemEnqueue (ctx_err : option error) (task : option Task) (q : MemQueue)
    : MemQueue * option error :=
  match ctx_err with
  | Some err => (q, Some err)
  | None =>
      match Clone task with
      | None => (q, None)
      | Some task =>
          let task := if String.eqb (QueueName task) "" then with_queue DefaultQueue task else task in
          let ts := tasks_of (queues q) (QueueName task) ++ [task] in
          (signal (mkQueue (<[QueueName task := ts]> (queues q)) (deadLetters q) (notify q)), None)
      end
  end.

(** The loop of [next] over [tasks[i:]], [pre] being [tasks[:i]]: a due task
    with what is left of the queue, or the shortest delay. *)
Fixpoint next_loop (now : Z) (pre tasks : list Task) (wait : Z) : (Task * list Task) + Z :=
  match tasks with
  | [] => inr wait
  | task :: rest =>
      if AvailableAt task >? now then
        let delay := time_sub (AvailableAt task) now in
        let wait := if (wait =? 0) || (delay <? wait) then delay else wait in
        next_loop now (pre ++ [task]) rest wait
      else inl (with_attempt (Attempt_ task + 1) task, pre ++ rest)
  end.

Definition next (queueName : string) (now : Z) (q : MemQueue) : MemQueue * option Task * Z :=
  match next_loop now [] (tasks_of (queues q) queueName) 0 with
  | inl (task, rest) => (mkQueue (<[queueName := rest]> (queues q)) (deadLetters q) (notify q), Some task, 0)
  | inr wait => (q, None, wait)
  end.

(** [Receive] on an open context and consumer while nothing else happens: a turn
    per expired timer; [None] is blocking for ever. *)
Fixpoint receive_loop (fuel : nat) (queueName : string) (now : Z) (q : MemQueue)
    : option (MemQueue * Z * Task) :=
  match fuel with
  | 0%nat => None
  | S fuel =>
      match next queueName now q with
      | (q, Some task, _) => Some (q, now, task)
      | (q, None, wait) => if wait >? 0 then receive_loop fuel queueName (now + wait) q else None
      end
  end.

(** The second turn finds the task the first one waited for. *)
Definition MemReceive (queueName : string) (now : Z) (q : MemQueue) : option (MemQueue * Z * Task) :=
  receive_loop 2 queueName now q.

(** One turn of [Receive] in full: what its select may do when there is no task. *)
Inductive wakeup := CtxDone (err : error) | ConsumerDone | Notified | TimerFired.
Definition Receive_turn (queueName : string) (now : Z) (closed : bool) (ctx_err : option error) (seen : nat)
    (q : MemQueue) : MemQueue * (Task + list wakeup) :=
  match next queueName now q with
  | (q, Some task, _) => (q, inl task)
  | (q, None, wait) =>
      (q, inr ((if ctx_err is Some e then [CtxDone e] else [])
               ++ (if closed then [ConsumerDone] else [])
               ++ (if (seen <? notify q)%nat then [Notified] else [])
               ++ (if wait >? 0 then [TimerFired] else [])))
  end.

Definition MemRetry (ctx_err : option error) (now delay : Z) (task : option Task) (q : MemQueue)
    : MemQueue * option error :=
  match ctx_err with
  | Some err => (q, Some err)
  | None =>
      match task with
      | None => (q, None)
      | Some task => MemEnqueue ctx_err (Some (with_available (now + delay) task)) q
      end
  end.

Definition MemDeadLetter (ctx_err : option error) (reason : string) (task : option Task) (q : MemQueue)
    : MemQueue * option error :=
  match ctx_err with
  | Some err => (q, Some err)
  | None =>
      match task with
      | None => (q, None)
      | Some task =>
          let task := with_metadata (<["queue.dead_letter.reason" := reason]> (Metadata task)) task in
          let ts := tasks_of (deadLetters q) (QueueName task) ++ [task] in
          (mkQueue (queues q) (<[QueueName task := ts]> (deadLetters q)) (notify q), None)
      end
  end.

Definition MemAck (ctx_err : option error) : option error := ctx_err.

Definition DeadLetters (queueName : string) (q : MemQueue) : list Task :=
  tasks_of (deadLetters q) (queue_or_default queueName).

Definition MemSettle (now : Z) (task : Task) (x : settlement) (q : MemQueue) : MemQueue :=
  match x with
  | Ack => q
  | Retry_ delay => fst (MemRetry None now delay (Some task) q)
  | DeadLetter_ reason => fst (MemDeadLetter None reason (Some task) q)
  end.

#[export] Instance mem_queue : TaskQueue MemQueue :=
  {| Enqueue := fun ctx_err task q => MemEnqueue ctx_err (Some task) q;
     Receive := MemReceive; Settle := MemSettle |}.

(** ** [next] *)

Definition due (now : Z) (t : Task) : Prop := AvailableAt t <= now.

(** The delays of tasks that are not due yet, and their minimum. *)
Definition wait_step (now wait : Z) (t : Task) : Z :=
  let delay := time_sub (AvailableAt t) now in
  if (wait =? 0) || (delay <? wait) then delay else wait.
Definition min_wait (now : Z) (ts : list Task) : Z :=
  foldl (wait_step now) 0 ts.

Lemma next_loop_spec now pre ts wait :
  (exists l t r, ts = l ++ t :: r /\ Forall (fun x => ~ due now x) l /\ due now t /\
     next_loop now pre ts wait = inl (with_attempt (Attempt_ t + 1) t, pre ++ l ++ r)) \/
  (Forall (fun x => ~ due now x) ts /\
   next_loop now pre ts wait =
     inr (foldl (wait_step now) wait ts)).
Proof.
  revert pre wait. induction ts as [|t ts IH]; intros pre wait; cbn [next_loop].
  { right. split; [constructor|done]. }
  destruct (Z.gtb_spec (AvailableAt t) now) as [Hgt|Hle].
  - cbv zeta. destruct (IH (pre ++ [t]) (wait_step now wait t))
      as [(l & t' & r & -> & Hl & Ht & Hr)|[Hall Hr]]; unfold wait_step in Hr at 1; rewrite Hr.
    + left. exists (t :: l), t', r. split_and!; [done| |done|by rewrite <- (assoc_L (++))].
      constructor; [unfold due; lia|done].
    + right. split; [|done]. constructor; [unfold due; lia|done].
  - left. exists [], t, ts. split_and!; [done|constructor|done|done].
Qed.

(** When nothing is due, the wait is the exact time to the first task. *)
Lemma wait_fold now ts wait :
  Forall (fun x => ~ due now x /\ AvailableAt x - now <= maxInt64) ts -> 0 <= wait ->
  let r := foldl (wait_step now) wait ts in
  (ts = [] /\ r = wait \/ 0 < r) /\
  (0 < wait -> r <= wait) /\ Forall (fun t => r <= AvailableAt t - now) ts /\
  (0 < r -> r = wait \/ Exists (fun t => AvailableAt t = now + r) ts).
Proof.
  revert wait. induction ts as [|t ts IH]; intros wait Hall Hw; cbn [foldl].
  { simpl. split_and!; [by left|lia|constructor|by left]. }
  apply Forall_cons in Hall as [[Hd Hb] Hall]. unfold due in Hd.
  assert (Hs : time_sub (AvailableAt t) now = AvailableAt t - now)
    by (apply time_sub_small; int64_unfold; lia).
  set (w1 := wait_step now wait t).
  assert (Hw1 : 0 < w1 /\ w1 <= AvailableAt t - now /\ (0 < wait -> w1 <= wait) /\
                (w1 = wait \/ w1 = AvailableAt t - now))
    by (subst w1; unfold wait_step; rewrite Hs; bcase; lia).
  destruct (IH w1 Hall ltac:(lia)) as (H1 & H2 & H3 & H4). cbv zeta in *.
  set (r := foldl _ w1 ts) in *. assert (Hr : r <= w1) by (apply H2; lia).
  split_and!.
  - right. destruct H1 as [[_ ->]|]; lia.
  - lia.
  - constructor; [lia|done].
  - intros Hpos. destruct (H4 Hpos) as [Hx|Hx]; [|by right; right].
    destruct Hw1 as (_ & _ & _ & [Hx'|Hx']); [left; congruence|right; left; lia].
Qed.

Lemma min_wait_spec now ts :
  ts <> [] -> Forall (fun x => ~ due now x /\ AvailableAt x - now <= maxInt64) ts ->
  0 < min_wait now ts /\ Forall (fun t => now + min_wait now ts <= AvailableAt t) ts /\
  Exists (fun t => AvailableAt t = now + min_wait now ts) ts.
Proof.
  intros Hne Hall. destruct (wait_fold now ts 0 Hall ltac:(lia)) as (H1 & _ & H3 & H4).
  unfold min_wait in *. cbv zeta in *.
  set (r := foldl _ 0 ts) in *. assert (0 < r) by (destruct H1 as [[? _]|]; done).
  split_and!; [done| |].
  - eapply Forall_impl; [done|]. simpl. intros. lia.
  - destruct (H4 ltac:(done)) as [?|?]; [lia|done].
Qed.

(** ** The contract *)

Definition mem_pending (q : MemQueue) (name : string) : list Task := tasks_of (queues q) name.
Definition mem_dead (q : MemQueue) (name : string) : list Task := tasks_of (deadLetters q) name.

(** Tasks are stored under their queue, due within the range of a duration. *)
Definition mem_qinv (q : MemQueue) (now : Z) : Prop :=
  forall name, Forall (fun t => QueueName t = name /\ AvailableAt t - now <= maxInt64) (mem_pending q name).

Lemma tasks_insert m name ts name' :
  tasks_of (<[name := ts]> m) name' = if decide (name = name') then ts else tasks_of m name'.
Proof.
  unfold tasks_of. case_decide; subst; [by rewrite lookup_insert_eq|by rewrite lookup_insert_ne].
Qed.

Lemma mem_qinv_mono q t t' : mem_qinv q t -> t <= t' -> mem_qinv q t'.
Proof. intros Hq Ht name. eapply Forall_impl; [apply Hq|]. simpl. intros x [? ?]. split; [done|lia]. Qed.

Lemma mem_pending_queue q t name : mem_qinv q t -> Forall (fun x => QueueName x = name) (mem_pending q name).
Proof. intros Hq. eapply Forall_impl; [apply Hq|]. by intros x [? _]. Qed.

Lemma with_queue_same t : with_queue (QueueName t) t = t.
Proof. by destruct t. Qed.

Lemma mem_enqueue_law err task q now :
  mem_qinv q now -> AvailableAt task - now <= maxInt64 ->
  mem_qinv (fst (MemEnqueue err (Some task) q)) now /\ snd (MemEnqueue err (Some task) q) = err /\
  forall name, mem_pending (fst (MemEnqueue err (Some task) q)) name ≡ₚ
    (if decide (err = None /\ queue_or_default (QueueName task) = name)
     then [with_queue name task] else []) ++ mem_pending q name.
Proof.
  intros Hq Ha. destruct err as [e|]; cbn [MemEnqueue Clone fst snd].
  { split_and!; [done|done|]. intros name. rewrite decide_False; [done|]. by intros [? _]. }
  set (task' := if String.eqb _ _ then _ else _).
  assert (Hn : QueueName task' = queue_or_default (QueueName task) /\
               task' = with_queue (QueueName task') task /\ AvailableAt task' = AvailableAt task).
  { subst task'. unfold queue_or_default. destruct (String.eqb (QueueName task) "");
      (split_and!; [done| |done]); [done|]. symmetry. apply with_queue_same. }
  destruct Hn as (Hn & Ht' & Hav). split_and!; [|done|].
  - intros name. unfold mem_pending. cbn [queues signal]. rewrite tasks_insert. case_decide as E; [|apply Hq].
    apply Forall_app. split; [subst name; apply Hq|]. constructor; [|constructor]. rewrite Hav. done.
  - intros name. unfold mem_pending. cbn [queues signal]. rewrite tasks_insert.
    case_decide as E.
    + rewrite decide_True by (split; congruence). subst name. rewrite <- Ht'. apply Permutation_app_comm.
    + rewrite decide_False; [done|]. intros [_ ?]. congruence.
Qed.

(** A due task found by [next]. *)
Lemma next_found name now q l t r :
  mem_qinv q now -> mem_pending q name = l ++ t :: r ->
  let q' := mkQueue (<[name := l ++ r]> (queues q)) (deadLetters q) (notify q) in
  mem_qinv q' now /\ (forall n, mem_dead q' n = mem_dead q n) /\
  mem_pending q name ≡ₚ t :: mem_pending q' name /\
  (forall n, n <> name -> mem_pending q' n = mem_pending q n).
Proof.
  intros Hq Hp q'.
  assert (Hp' : forall n, mem_pending q' n = if decide (name = n) then l ++ r else mem_pending q n)
    by (intros n; unfold mem_pending; cbn [queues q']; apply tasks_insert).
  split_and!.
  - intros n. rewrite Hp'. case_decide as E; [|apply Hq]. subst n. specialize (Hq name). rewrite Hp in Hq.
    apply Forall_app in Hq as [? Hq]. apply Forall_cons in Hq as [_ ?]. by apply Forall_app.
  - done.
  - rewrite Hp', decide_True, Hp by done. by rewrite Permutation_middle.
  - intros n Hn. by rewrite Hp', decide_False.
Qed.

Lemma next_eq name now q :
  next name now q =
  match next_loop now [] (mem_pending q name) 0 with
  | inl (task, rest) => (mkQueue (<[name := rest]> (queues q)) (deadLetters q) (notify q), Some task, 0)
  | inr wait => (q, None, wait)
  end.
Proof. done. Qed.

Lemma receive_cases name now q :
  mem_qinv q now ->
  (mem_pending q name = [] /\ MemReceive name now q = None) \/
  (exists l t r now', mem_pending q name = l ++ t :: r /\ now <= now' /\
     Forall (fun x => ~ due now' x) l /\ due now' t /\
     (now < now' -> Forall (fun x => now' <= AvailableAt x) (mem_pending q name)) /\
     MemReceive name now q =
       Some (mkQueue (<[name := l ++ r]> (queues q)) (deadLetters q) (notify q), now',
             with_attempt (Attempt_ t + 1) t)).
Proof.
  intros Hq. unfold MemReceive. cbn [receive_loop]. rewrite (next_eq name now q).
  destruct (next_loop_spec now [] (mem_pending q name) 0) as [(l & t & r & Hp & Hl & Ht & ->)|[Hall ->]].
  { right. exists l, t, r, now. split_and!; [done|lia|done|done|lia|done]. }
  change (foldl _ 0 _) with (min_wait now (mem_pending q name)).
  destruct (decide (mem_pending q name = [])) as [Hnil|Hne].
  { left. split; [done|]. rewrite Hnil. done. }
  destruct (min_wait_spec now (mem_pending q name) Hne) as (Hpos & Hmin & Hex).
  { specialize (Hq name). rewrite Forall_forall in *. intros x Hx. split; [by apply Hall|by apply Hq]. }
  set (w := min_wait now (mem_pending q name)) in *.
  destruct (Z.gtb_spec w 0); [|lia]. rewrite next_eq.
  destruct (next_loop_spec (now + w) [] (mem_pending q name) 0) as [(l & t & r & Hp & Hl & Ht & ->)|[Hall' _]].
  - right. exists l, t, r, (now + w). split_and!; [done|lia|done|done| |done]. done.
  - exfalso. rewrite Exists_exists in Hex. destruct Hex as (x & Hx & Hxe). rewrite Forall_forall in Hall'.
    apply (Hall' x Hx). unfold due. lia.
Qed.

Lemma mem_receive_none name now q : mem_qinv q now -> MemReceive name now q = None -> mem_pending q name = [].
Proof.
  intros Hq Hr. destruct (receive_cases name now q Hq) as [[? _]|(l & t & r & now' & _ & _ & _ & _ & _ & Hs)];
    [done|congruence].
Qed.

Lemma mem_receive_some name now q q' now' t' :
  mem_qinv q now -> MemReceive name now q = Some (q', now', t') ->
  mem_qinv q' now' /\ now <= now' /\ (forall n, mem_dead q' n = mem_dead q n) /\
  exists t, t' = with_attempt (Attempt_ t + 1) t /\ AvailableAt t <= now' /\
    mem_pending q name ≡ₚ t :: mem_pending q' name /\ (forall n, n <> name -> mem_pending q' n = mem_pending q n).
Proof.
  intros Hq Hr.
  destruct (receive_cases name now q Hq) as [[_ ?]|(l & t & r & n' & Hp & Hle & _ & Ht & _ & Hs)]; [congruence|].
  rewrite Hs in Hr. simplify_eq.
  destruct (next_found name now q l t r Hq Hp) as (Hi & Hd & Hperm & Hoth). cbv zeta in *.
  split_and!; [by eapply mem_qinv_mono|done|done|]. exists t. split_and!; done.
Qed.

Lemma mem_settle_retry now t delay q :
  mem_qinv q now -> QueueName t <> ""%string -> int64_ok delay ->
  let q' := MemSettle now t (Retry_ delay) q in
  mem_qinv q' now /\ (forall n, mem_dead q' n = mem_dead q n) /\
  forall n, mem_pending q' n ≡ₚ
    (if decide (QueueName t = n) then [with_available (now + delay) t] else []) ++ mem_pending q n.
Proof.
  intros Hq Hn Hd q'. destruct (mem_enqueue_law None (with_available (now + delay) t) q now Hq) as (Hi & _ & Hp).
  { simpl. int64_unfold. lia. }
  split_and!; [exact Hi| |].
  - intros n. subst q'. simpl. destruct (String.eqb _ _); done.
  - intros n. etrans; [apply Hp|]. unfold queue_or_default. simpl QueueName.
    destruct (String.eqb_spec (QueueName t) ""); [done|].
    case_decide as E1; [|case_decide as E2; [|done]].
    + destruct E1 as [_ <-]. rewrite decide_True by done. by destruct t.
    + exfalso. by apply E1.
Qed.

Lemma mem_settle_dead now t reason q :
  mem_qinv q now ->
  let q' := MemSettle now t (DeadLetter_ reason) q in
  mem_qinv q' now /\ (forall n, mem_pending q' n = mem_pending q n) /\
  forall n, mem_dead q' n ≡ₚ (if decide (QueueName t = n) then [dead_lettered t reason] else []) ++ mem_dead q n.
Proof.
  intros Hq q'. split_and!; [exact Hq|done|]. intros n. subst q'. simpl. unfold mem_dead. cbn [deadLetters].
  rewrite tasks_insert. case_decide as E; [|done]. subst n. apply Permutation_app_comm.
Qed.

#[export] Instance mem_queue_laws : QueueLaws MemQueue := {|
  qinv := mem_qinv; pending := mem_pending; dead := mem_dead;
  qinv_mono := mem_qinv_mono; pending_queue := mem_pending_queue;
  enqueue_law := mem_enqueue_law; receive_none := mem_receive_none; receive_some := mem_receive_some;
  settle_ack := fun _ _ _ => eq_refl; settle_retry := mem_settle_retry; settle_dead := mem_settle_dead
|}.

(** Delivery order and time.  From a well-formed store, [Receive] blocks
    for ever only on an empty queue.  Otherwise it delivers the first task in
    arrival order that is due, with its attempt count increased by one, at once
    if one is due, and if none is, at exactly the moment the earliest becomes
    due: never before a task's availability, and without sleeping past it; the
    other tasks stay in order. *)
Theorem receive_in_order name now q :
  mem_qinv q now ->
  (mem_pending q name = [] /\ MemReceive name now q = None) \/
  (exists l t r now' q',
     mem_pending q name = l ++ t :: r /\
     MemReceive name now q = Some (q', now', with_attempt (Attempt_ t + 1) t) /\
     mem_pending q' name = l ++ r /\ now <= now' /\
     AvailableAt t <= now' /\ Forall (fun x => now' < AvailableAt x) l /\
     (now < now' -> Forall (fun x => now' <= AvailableAt x) (mem_pending q name))).
Proof.
  intros Hq. destruct (receive_cases name now q Hq) as [?|(l & t & r & now' & Hp & Hle & Hl & Ht & Hex & Hs)];
    [by left|]. right. eexists l, t, r, now', _. split_and!; [done|exact Hs| |done|done| |done].
  - unfold mem_pending. cbn [queues]. by rewrite tasks_insert, decide_True.
  - eapply Forall_impl; [done|]. unfold due. simpl. intros. lia.
Qed.

Definition demo_task (id : string) (at_ : Z) : Task := mkTask id "mail" "default" [] ∅ 0 1 at_.
Definition demo_queue : MemQueue := mkQueue {["default"%string := [demo_task "a" 20; demo_task "b" 10]]} ∅ 0.

Lemma demo_queue_inv : mem_qinv demo_queue 5.
Proof.
  intros name. unfold mem_pending, tasks_of. cbn [queues demo_queue].
  destruct (decide (name = "default"%string)) as [->|Hne].
  - rewrite lookup_singleton_eq. repeat constructor; simpl; int64_unfold; lia.
  - rewrite lookup_singleton_ne by done. constructor.
Qed.

Lemma receive_in_order_witness :
  exists q', MemReceive "default" 5 demo_queue = Some (q', 10, with_attempt 1 (demo_task "b" 10)) /\
    mem_pending q' "default" = [demo_task "a" 20].
Proof.
  destruct (receive_in_order "default" 5 demo_queue demo_queue_inv)
    as [[H _]|(l & t & r & now' & q' & Hp & Hr & Hq & _)]; [vm_compute in H; discriminate|].
  exists q'. vm_compute (MemReceive _ _ _) in Hr. injection Hr as <- <- _ _ _ _ _ _ _ _.
  split; reflexivity.
Defined.

Lemma worker_drains_witness :
  exists s' hist,
    loop (fun _ => "failed"%string) (newWorkerConfig [Handle "mail" (Some (fun t =>
            if String.eqb (ID t) "a" then Some (ErrMsg "no") else None))])
      (fun _ => 1) 7 5 demo_queue [] = Some (s', hist) /\
    mem_pending s' "default" = [] /\ final_ids hist ≡ₚ ["a"; "b"]%string.
Proof.
  destruct (worker_drains (fun _ => "failed"%string) [Handle "mail" (Some (fun t =>
            if String.eqb (ID t) "a" then Some (ErrMsg "no") else None))] (fun _ => 1) 5 demo_queue)
    as (s' & now' & hist & Hl & _ & Hp & Hids & _).
  - intros _. lia.
  - intros t d Hv. apply verdict_retry in Hv as (_ & h & e & Hh & He & _ & _ & Hd).
    change (handlers _) with ({["mail"%string := fun t =>
            if String.eqb (ID t) "a" then Some (ErrMsg "no") else None]} : gmap string Handler) in Hh.
    apply lookup_singleton_Some in Hh as [_ <-]. cbv beta iota delta [handle chain middleware] in He.
    change (reverse (middleware _)) with (@nil Middleware) in He. simpl in He.
    destruct (String.eqb _ _); simplify_eq. destruct Hd as [Hd|(_ & _ & ->)]; [done|].
    vm_compute. split; discriminate.
  - discriminate.
  - exact demo_queue_inv.
  - exists s', hist. split; [exact Hl|]. split; [exact Hp|exact Hids].
Defined.
