(* ===== verification/QueueWorker.v ===== *)
(** * The worker's goroutines: [Run] and [Stop] of [src/queue/worker.go]

    Callers of [Run] and [Stop], the polling loops of a run and the goroutine that
    waits for them, as a transition system; the settlement of a delivery is
    [Queue.process].  What queues, consumers and handlers answer is arbitrary.

    The theorems: one run at a time; a run returns after all its loops did, with
    an error exactly if a loop failed; every delivery it received is settled
    exactly once, by the table of [process]; [Stop] reports success only when the
    run has ended; and after a stop every schedule ends. *)

From S2P Require Import Prelude GoErrors Retry Queue.
From stdpp Require Import options.
Set Default Proof Using "Type*".

(** ** A run *)

(** Where a polling goroutine is: before [NewConsumer], at the top of the loop, in
    [Receive], in [process], or leaving: an error to send, after sending it, after
    [stop]. *)
Inductive lstate :=
| LNew | LTop | LReceiving | LProcess (t : Task) | LFail (err : error) | LSent | LStopped | LDone.

#[export] Instance LDone_dec l : Decision (l = LDone).
Proof. refine (match l with LDone => left eq_refl | _ => right _ end); discriminate. Defined.

(** Where [Run] is: at its select, waiting for the loops after an error, at its
    deferred calls, or returned. *)
Inductive mstate := Selecting | Draining (err : error) | Finished (res : option error) | Returned (res : option error).

(** [pollCtx], [handlerCtx] and the caller's context, the loops, the channel of
    errors, [Run] itself, and what has happened: deliveries received, settlements,
    errors of the loops. *)
Record run := mkRun {
  pollDone : bool; handlerDone : bool; ctxDone : bool;
  loops : list lstate; errs : list error; main : mstate;
  received : list Task; settled : list (Task * settlement); failures : list error
}.

Section Worker.
Variables (Error : error -> string) (w : workerConfig).

Definition set_loops (ls : list lstate) (r : run) : run :=
  mkRun (pollDone r) (handlerDone r) (ctxDone r) ls (errs r) (main r) (received r) (settled r) (failures r).
Definition set_main (m : mstate) (r : run) : run :=
  mkRun (pollDone r) (handlerDone r) (ctxDone r) (loops r) (errs r) m (received r) (settled r) (failures r).
Definition set_errs (es : list error) (r : run) : run :=
  mkRun (pollDone r) (handlerDone r) (ctxDone r) (loops r) es (main r) (received r) (settled r) (failures r).
Definition stop (r : run) : run :=
  mkRun true (handlerDone r) (ctxDone r) (loops r) (errs r) (main r) (received r) (settled r) (failures r).
Definition interrupt (r : run) : run :=
  mkRun (pollDone r) true (ctxDone r) (loops r) (errs r) (main r) (received r) (settled r) (failures r).
(** A cancelled caller's context cancels [pollCtx] with it. *)
Definition cancel_ctx (r : run) : run :=
  mkRun true (handlerDone r) true (loops r) (errs r) (main r) (received r) (settled r) (failures r).
Definition log_received (t : Task) (r : run) : run :=
  mkRun (pollDone r) (handlerDone r) (ctxDone r) (loops r) (errs r) (main r) (received r ++ [t]) (settled r) (failures r).
Definition log_settled (xs : list (Task * settlement)) (r : run) : run :=
  mkRun (pollDone r) (handlerDone r) (ctxDone r) (loops r) (errs r) (main r) (received r) (settled r ++ xs) (failures r).
Definition log_failure (e : error) (r : run) : run :=
  mkRun (pollDone r) (handlerDone r) (ctxDone r) (loops r) (errs r) (main r) (received r) (settled r) (failures r ++ [e]).

(** [Run] after [start]. *)
Definition new_run : run :=
  mkRun false false false (replicate (Z.to_nat (concurrency w)) LNew) [] Selecting [] [] [].

(** The end of [loop]: with an error it goes on to the channel. *)
Definition leave (i : nat) (err : option error) (r : run) : run :=
  match err with
  | None => set_loops (<[i := LDone]> (loops r)) r
  | Some e => log_failure e (set_loops (<[i := LFail e]> (loops r)) r)
  end.

(** [loop]: the answer of [NewConsumer]. *)
Definition loop_consumer (i : nat) (answer : option error) (r : run) : run :=
  match answer with
  | None => set_loops (<[i := LTop]> (loops r)) r
  | Some err => if isNormalStopError (pollDone r) err then leave i None r else leave i (Some err) r
  end.

(** The select at the top of the loop. *)
Definition loop_top (i : nat) (r : run) : run :=
  if pollDone r then leave i None r else set_loops (<[i := LReceiving]> (loops r)) r.

(** The answer of [Receive]; [None] is a nil delivery or one with a nil task. *)
Definition loop_received (i : nat) (answer : option Task + error) (r : run) : run :=
  match answer with
  | inr err => if isNormalStopError (pollDone r) err then leave i None r else leave i (Some err) r
  | inl None => set_loops (<[i := LTop]> (loops r)) r
  | inl (Some t) => log_received t (set_loops (<[i := LProcess t]> (loops r)) r)
  end.

(** The handlers answer as they do under the context of the moment: [w'] has the
    worker's configuration and handlers for the same task types. *)
Definition behaves (w' : workerConfig) : Prop :=
  dom (handlers w') = dom (handlers w) /\ wMaxAttempts w' = wMaxAttempts w /\ wBackoff w' = wBackoff w /\
  wRetryIf w' = wRetryIf w /\ queue w' = queue w /\ consumerName w' = consumerName w /\ observer w' = observer w.

(** [process] has returned. *)
Definition loop_processed (i : nat) (t : Task) (w' : workerConfig) (settle : settlement -> option error) (r : run) : run :=
  let '(ss, _, err) := process Error settle w' t in
  let r := log_settled ((fun x => (t, x)) <$> ss) r in
  match err with
  | None => set_loops (<[i := LTop]> (loops r)) r
  | Some e => if ctxDone r && isStopError e then leave i None r else leave i (Some e) r
  end.

(** The steps of a run.  [wg.Wait] sees all loops done; a select with two ready
    cases takes either. *)
Inductive rstep (r : run) : run -> Prop :=
| r_consumer i answer : loops r !! i = Some LNew -> rstep r (loop_consumer i answer r)
| r_top i : loops r !! i = Some LTop -> rstep r (loop_top i r)
| r_received i answer : loops r !! i = Some LReceiving -> rstep r (loop_received i answer r)
| r_processed i t w' settle :
    loops r !! i = Some (LProcess t) -> behaves w' -> rstep r (loop_processed i t w' settle r)
| r_send i e :
    loops r !! i = Some (LFail e) -> (length (errs r) < length (loops r))%nat ->
    rstep r (set_errs (errs r ++ [e]) (set_loops (<[i := LSent]> (loops r)) r))
| r_stop i : loops r !! i = Some LSent -> rstep r (stop (set_loops (<[i := LStopped]> (loops r)) r))
| r_interrupt i : loops r !! i = Some LStopped -> rstep r (interrupt (set_loops (<[i := LDone]> (loops r)) r))
| r_workersDone :
    main r = Selecting -> Forall (fun l => l = LDone) (loops r) ->
    rstep r (match errs r with
             | [] => set_main (Finished None) r
             | e :: es => set_errs es (set_main (Finished (Some e)) r)
             end)
| r_err e es :
    main r = Selecting -> errs r = e :: es ->
    rstep r (interrupt (stop (set_errs es (set_main (Draining e) r))))
| r_drained e :
    main r = Draining e -> Forall (fun l => l = LDone) (loops r) -> rstep r (set_main (Finished (Some e)) r)
| r_cancel : ctxDone r = false -> rstep r (cancel_ctx r)
| r_afterfunc : ctxDone r = true -> handlerDone r = false -> rstep r (interrupt (stop r)).

(** ** The worker and its callers *)

(** A caller of [Stop]: before [lifecycle], before [stop()], at its first and its
    second select, or returned. *)
Inductive sstate :=
| SNew | SGot (k : nat) | SFirst (k : nat) | SSecond (k : nat) | SReturned (k : option nat) (err : option error).

(** [current] is the run whose channel [w.done] is; the runs there were, callers
    of [Stop], and how many calls of [Run] were refused. *)
Record system := mkSystem { current : option nat; runs : list run; stops : list sstate; refused : nat }.

Definition closed (s : system) (k : nat) : bool :=
  match runs s !! k with Some r => match main r with Returned _ => true | _ => false end | None => false end.

(** [start]: refused while a run is current. *)
Definition call_run (s : system) : system :=
  match current s with
  | Some _ => mkSystem (current s) (runs s) (stops s) (S (refused s))
  | None => mkSystem (Some (length (runs s))) (runs s ++ [new_run]) (stops s) (refused s)
  end.

(** The deferred calls: [stop], [interrupt] and [finish]. *)
Definition finish (k : nat) (r : run) (res : option error) (s : system) : system :=
  mkSystem (if decide (current s = Some k) then None else current s)
    (<[k := set_main (Returned res) (interrupt (stop r))]> (runs s)) (stops s) (refused s).

Definition set_stop (j : nat) (x : sstate) (s : system) : system :=
  mkSystem (current s) (runs s) (<[j := x]> (stops s)) (refused s).

(** The steps of a caller of [Stop]. *)
Inductive stop_step (s : system) (j : nat) : system -> Prop :=
| s_lifecycle :
    stops s !! j = Some SNew ->
    stop_step s j (set_stop j (match current s with None => SReturned None None | Some k => SGot k end) s)
| s_stop k r :
    stops s !! j = Some (SGot k) -> runs s !! k = Some r ->
    stop_step s j (set_stop j (SFirst k) (mkSystem (current s) (<[k := stop r]> (runs s)) (stops s) (refused s)))
| s_first k :
    stops s !! j = Some (SFirst k) ->
    stop_step s j (set_stop j (if closed s k then SReturned (Some k) None else SSecond k) s)
| s_done k :
    stops s !! j = Some (SSecond k) -> closed s k = true -> stop_step s j (set_stop j (SReturned (Some k) None) s)
| s_ctx k r e :
    stops s !! j = Some (SSecond k) -> runs s !! k = Some r ->
    stop_step s j (set_stop j (SReturned (Some k) (Some e))
      (mkSystem (current s) (<[k := interrupt r]> (runs s)) (stops s) (refused s))).

Inductive step (s : system) : system -> Prop :=
| step_run : step s (call_run s)
| step_inside k r r' :
    runs s !! k = Some r -> rstep r r' -> step s (mkSystem (current s) (<[k := r']> (runs s)) (stops s) (refused s))
| step_finish k r res :
    runs s !! k = Some r -> main r = Finished res -> step s (finish k r res s)
| step_stop : step s (mkSystem (current s) (runs s) (stops s ++ [SNew]) (refused s))
| step_stopping j s' : stop_step s j s' -> step s s'.

Definition NewWorker : system := mkSystem None [] [] 0.

Inductive reachable : system -> Prop :=
| reach_new : reachable NewWorker
| reach_step s s' : reachable s -> step s s' -> reachable s'.

(** ** The invariant of a run *)

Definition processing (l : lstate) : list Task := match l with LProcess t => [t] | _ => [] end.
Definition failing (l : lstate) : list error := match l with LFail e => [e] | _ => [] end.
(** A loop that is on its way out; those before it never fail twice. *)
Definition leaving (l : lstate) : nat := match l with LFail _ | LSent | LStopped | LDone => 1 | _ => 0 end.
Definition sending (l : lstate) : nat := match l with LFail _ => 1 | _ => 0 end.

Definition taken (m : mstate) : list error :=
  match m with Draining e | Finished (Some e) | Returned (Some e) => [e] | _ => [] end.

Definition all_done (r : run) : Prop := Forall (fun l => l = LDone) (loops r).

Definition main_ok (r : run) : Prop :=
  match main r with
  | Selecting => True
  | Draining _ => pollDone r = true
  | Finished res => all_done r /\ (res = None -> errs r = [])
  | Returned res => all_done r /\ (res = None -> errs r = []) /\ pollDone r = true /\ handlerDone r = true
  end.

Record run_ok (r : run) : Prop := {
  ro_received : received r ≡ₚ (settled r).*1 ++ (loops r ≫= processing);
  ro_settled : Forall (fun p => exists w', behaves w' /\ p.2 = verdict Error w' p.1) (settled r);
  ro_failures : failures r ≡ₚ taken (main r) ++ errs r ++ (loops r ≫= failing);
  ro_once : (length (failures r) <= sum_list_with leaving (loops r))%nat;
  ro_main : main_ok r
}.

(** A change of one loop. *)
Lemma bind_change {A B} (f : A -> list B) (l : list A) i x y :
  l !! i = Some x -> f x = f y -> <[i := y]> l ≫= f ≡ₚ l ≫= f.
Proof.
  intros Hi Hf. pose proof (bind_insert_perm f l i x y Hi) as H. rewrite Hf in H. by apply Permutation_app_inv_l in H.
Qed.

Lemma leaving_change ls i x y :
  ls !! i = Some x -> (leaving x <= leaving y)%nat -> (sum_list_with leaving ls <= sum_list_with leaving (<[i := y]> ls))%nat.
Proof. intros Hi Hl. pose proof (sum_list_with_insert leaving ls i x y Hi). lia. Qed.

Lemma not_all_done r i x : loops r !! i = Some x -> x <> LDone -> ~ all_done r.
Proof. intros Hi Hx Hd. apply Hx. by apply (Forall_lookup_1 _ _ _ _ Hd Hi). Qed.

(** A loop that is not done keeps [Run] from finishing. *)
Lemma main_open r i x ls' :
  main_ok r -> loops r !! i = Some x -> x <> LDone -> main_ok (set_loops ls' r).
Proof.
  unfold main_ok. intros Hm Hi Hx. cbn [main set_loops]. destruct (main r); cbn; [done|done|..];
    by destruct (not_all_done r i x Hi Hx); destruct Hm as (? & _).
Qed.

(** A loop moves on without a delivery or an error. *)
Lemma move_ok r i x y :
  run_ok r -> loops r !! i = Some x -> x <> LDone -> processing x = processing y -> failing x = failing y ->
  (leaving x <= leaving y)%nat -> run_ok (set_loops (<[i := y]> (loops r)) r).
Proof.
  intros [Hr Hs Hf Ho Hm] Hi Hx Hp He Hl. split; cbn.
  - by rewrite (bind_change processing _ i x y).
  - done.
  - by rewrite (bind_change failing _ i x y).
  - etrans; [exact Ho|]. by eapply leaving_change.
  - by eapply main_open.
Qed.

Lemma leave_ok r i x err :
  run_ok r -> loops r !! i = Some x -> processing x = [] -> leaving x = 0%nat -> run_ok (leave i err r).
Proof.
  intros Hok Hi Hp Hl. assert (Hx : x <> LDone) by (by intros ->).
  assert (Hf0 : failing x = []) by (by destruct x).
  destruct err as [e|]; cbn [leave]; [|apply (move_ok r i x); [done..|lia]].
  destruct Hok as [Hr Hs Hf Ho Hm]. split; cbn.
  - by rewrite (bind_change processing _ i x (LFail e)).
  - done.
  - rewrite Hf. pose proof (bind_insert_perm failing (loops r) i x (LFail e) Hi) as H. rewrite Hf0 in H. cbn in H.
    rewrite <- !app_assoc. do 2 apply Permutation_app_head. rewrite H. by rewrite (Permutation_app_comm _ [e]).
  - rewrite length_app. cbn. pose proof (sum_list_with_insert leaving (loops r) i x (LFail e) Hi) as H. rewrite Hl in H. cbn in H. lia.
  - change (main_ok (set_loops (<[i := LFail e]> (loops r)) r)). by eapply main_open.
Qed.

(** The end of [process]: the delivery is settled. *)
Lemma processed_settled r i t w' x :
  run_ok r -> loops r !! i = Some (LProcess t) -> behaves w' -> x = verdict Error w' t ->
  run_ok (set_loops (<[i := LTop]> (loops r)) (log_settled [(t, x)] r)).
Proof.
  intros [Hr Hs Hf Ho Hm] Hi Hb Hx. split; cbn.
  - rewrite Hr, fmap_app. cbn. pose proof (bind_insert_perm processing (loops r) i (LProcess t) LTop Hi) as H. cbn in H.
    rewrite <- app_assoc. apply Permutation_app_head. by rewrite <- H.
  - apply Forall_app. split; [done|]. constructor; [|constructor]. exists w'. by split.
  - by rewrite (bind_change failing _ i (LProcess t) LTop).
  - etrans; [exact Ho|]. by eapply leaving_change.
  - by eapply main_open.
Qed.

Lemma leave_over i x err r : leave i err (set_loops (<[i := x]> (loops r)) r) = leave i err r.
Proof. destruct err; cbn; unfold log_failure, set_loops; cbn; by rewrite list_insert_insert_eq. Qed.

Lemma loop_processed_ok r i t w' settle :
  run_ok r -> loops r !! i = Some (LProcess t) -> behaves w' -> run_ok (loop_processed i t w' settle r).
Proof.
  intros Hok Hi Hb. unfold loop_processed.
  destruct (process_settles Error settle w' t) as (pre & e & -> & _). cbn [fmap list_fmap].
  pose proof (processed_settled r i t w' _ Hok Hi Hb eq_refl) as Hs.
  set (r1 := log_settled _ r) in *. change (loops r) with (loops r1) in Hs.
  destruct (settle _) as [err|]; [|done].
  assert (Ht : loops (set_loops (<[i := LTop]> (loops r1)) r1) !! i = Some LTop).
  { cbn. apply list_lookup_insert_eq. by eapply lookup_lt_Some. }
  destruct (ctxDone r1 && isStopError err); rewrite <- (leave_over i LTop); by eapply leave_ok.
Qed.

Lemma flags_ok r p h c :
  run_ok r -> (pollDone r = true -> p = true) -> (handlerDone r = true -> h = true) ->
  run_ok (mkRun p h c (loops r) (errs r) (main r) (received r) (settled r) (failures r)).
Proof.
  intros [Hr Hs Hf Ho Hm] Hp Hh. split; cbn; try done. unfold main_ok in *. cbn. destruct (main r); [done|by auto|done|].
  destruct Hm as (? & ? & ? & ?). auto.
Qed.

Lemma stop_ok r : run_ok r -> run_ok (stop r).
Proof. intros H. by apply flags_ok. Qed.
Lemma interrupt_ok r : run_ok r -> run_ok (interrupt r).
Proof. intros H. by apply flags_ok. Qed.

Lemma send_ok r i e :
  run_ok r -> loops r !! i = Some (LFail e) ->
  run_ok (set_errs (errs r ++ [e]) (set_loops (<[i := LSent]> (loops r)) r)).
Proof.
  intros [Hr Hs Hf Ho Hm] Hi. split; cbn.
  - by rewrite (bind_change processing _ i (LFail e) LSent).
  - done.
  - rewrite Hf. apply Permutation_app_head. rewrite <- app_assoc. apply Permutation_app_head.
    by rewrite <- (bind_insert_perm failing (loops r) i (LFail e) LSent Hi).
  - etrans; [exact Ho|]. by eapply leaving_change.
  - unfold main_ok in *. cbn. destruct (main r); [done|done|..];
      by destruct (not_all_done r i (LFail e) Hi); destruct Hm as (? & _).
Qed.

Lemma rstep_ok r r' : run_ok r -> rstep r r' -> run_ok r'.
Proof.
  intros Hok Hstep. destruct Hstep as [i a Hi|i Hi|i a Hi|i t w' settle Hi Hb|i e Hi _|i Hi|i Hi|Hsel Hd|e es Hsel He|e Hdr Hd|Hc|Hc Hh].
  - unfold loop_consumer. destruct a as [err|]; [|by eapply move_ok].
    destruct (isNormalStopError _ _); by eapply leave_ok.
  - unfold loop_top. destruct (pollDone r); [by eapply leave_ok|by eapply move_ok].
  - unfold loop_received. destruct a as [[t|]|err]; [|by eapply move_ok|destruct (isNormalStopError _ _); by eapply leave_ok].
    destruct (Hok) as [Hr Hs Hf Ho Hm]. split; cbn.
    + rewrite Hr, <- app_assoc. apply Permutation_app_head.
      pose proof (bind_insert_perm processing (loops r) i LReceiving (LProcess t) Hi) as H. cbn in H. rewrite H.
      apply Permutation_app_comm.
    + done.
    + by rewrite (bind_change failing _ i LReceiving (LProcess t)).
    + etrans; [exact Ho|]. by eapply leaving_change.
    + change (main_ok (set_loops (<[i := LProcess t]> (loops r)) r)). by eapply main_open.
  - by apply loop_processed_ok.
  - by apply send_ok.
  - apply stop_ok. by eapply move_ok.
  - apply interrupt_ok. by eapply move_ok.
  - destruct Hok as [Hr Hs Hf Ho Hm]. rewrite Hsel in Hf. destruct (errs r) as [|e es] eqn:Ee; (split; cbn; [done|done| |done|]).
    + by rewrite Ee.
    + unfold main_ok. cbn. rewrite Ee. done.
    + done.
    + unfold main_ok. cbn. done.
  - apply interrupt_ok. destruct Hok as [Hr Hs Hf Ho Hm]. rewrite Hsel, He in Hf. split; cbn; [done|done|done|done|].
    done.
  - destruct Hok as [Hr Hs Hf Ho Hm]. rewrite Hdr in Hf. split; cbn; [done|done|done|done|]. unfold main_ok. cbn. done.
  - by apply flags_ok.
  - apply interrupt_ok. by apply stop_ok.
Qed.

(** A loop with an error to send finds room in the channel. *)
Lemma channel_room r i e :
  failures r ≡ₚ taken (main r) ++ errs r ++ (loops r ≫= failing) ->
  (length (failures r) <= sum_list_with leaving (loops r))%nat ->
  loops r !! i = Some (LFail e) -> (length (errs r) < length (loops r))%nat.
Proof.
  intros Hf Ho Hi. apply Permutation_length in Hf. rewrite !length_app in Hf.
  assert (Hone : (1 <= length (loops r ≫= failing))%nat).
  { pose proof (bind_insert_perm failing (loops r) i (LFail e) LDone Hi) as H. cbn in H.
    apply Permutation_length in H. cbn in H. lia. }
  assert (Hsum : (sum_list_with leaving (loops r) <= length (loops r))%nat).
  { clear. induction (loops r) as [|x ls IH]; [done|]. cbn. destruct x; cbn; lia. }
  lia.
Qed.

Lemma new_run_ok : run_ok new_run.
Proof.
  unfold new_run. split; cbn; [|constructor| |lia|done]; generalize (Z.to_nat (concurrency w)) as n; induction n; cbn; done.
Qed.

(** ** The invariant of the system *)

Definition live (r : run) : Prop := match main r with Returned _ => False | _ => True end.

Definition stop_state_ok (s : system) (x : sstate) : Prop :=
  match x with
  | SNew | SReturned None None => True
  | SGot k => (k < length (runs s))%nat
  | SFirst k | SSecond k => exists r, runs s !! k = Some r /\ pollDone r = true
  | SReturned (Some k) None => exists r, runs s !! k = Some r /\ ~ live r
  | SReturned (Some k) (Some _) => exists r, runs s !! k = Some r /\ pollDone r = true /\ handlerDone r = true
  | SReturned None (Some _) => False
  end.

Record sys_ok (s : system) : Prop := {
  sk_runs k r : runs s !! k = Some r -> run_ok r /\ (live r <-> current s = Some k);
  sk_current k : current s = Some k -> (k < length (runs s))%nat;
  sk_stops : Forall (stop_state_ok s) (stops s)
}.

(** Contexts stay cancelled and a returned run stays returned. *)
Record mono (r r' : run) : Prop := {
  mo_poll : pollDone r = true -> pollDone r' = true;
  mo_handler : handlerDone r = true -> handlerDone r' = true;
  mo_live : live r' <-> live r
}.

Lemma mono_same r r' : pollDone r' = pollDone r -> handlerDone r' = handlerDone r -> main r' = main r -> mono r r'.
Proof. intros Hp Hh Hm. split; [by rewrite Hp|by rewrite Hh|]. unfold live. by rewrite Hm. Qed.

Lemma leave_mono r r1 i err : pollDone r1 = pollDone r -> handlerDone r1 = handlerDone r -> main r1 = main r -> mono r (leave i err r1).
Proof. intros. apply mono_same; by destruct err. Qed.

Lemma rstep_mono r r' : rstep r r' -> mono r r'.
Proof.
  intros Hstep. destruct Hstep as [i a Hi|i Hi|i a Hi|i t w' settle Hi Hb|i e Hi _|i Hi|i Hi|Hsel Hd|e es Hsel He|e Hdr Hd|Hc|Hc Hh].
  - unfold loop_consumer. destruct a; [destruct (isNormalStopError _ _); by apply leave_mono|by apply mono_same].
  - unfold loop_top. destruct (pollDone r); [by apply leave_mono|by apply mono_same].
  - unfold loop_received. destruct a as [[t|]|err]; [by apply mono_same..|destruct (isNormalStopError _ _); by apply leave_mono].
  - unfold loop_processed. destruct (process Error settle w' t) as [[ss evs] [e|]]; [|by apply mono_same].
    destruct (_ && _); by apply leave_mono.
  - by apply mono_same.
  - by split.
  - by split.
  - destruct (errs r); split; unfold live; cbn; by rewrite ?Hsel.
  - split; unfold live; cbn; by rewrite ?Hsel.
  - split; unfold live; cbn; by rewrite ?Hdr.
  - by split.
  - by split.
Qed.

Lemma stop_state_mono s s' x :
  (forall k r, runs s !! k = Some r -> exists r', runs s' !! k = Some r' /\
     (pollDone r = true -> pollDone r' = true) /\ (handlerDone r = true -> handlerDone r' = true) /\ (live r' -> live r)) ->
  stop_state_ok s x -> stop_state_ok s' x.
Proof.
  intros Hm. destruct x as [|k|k|k|[k|] [e|]]; cbn; try done.
  - intros [r Hr]%lookup_lt_is_Some. destruct (Hm k r Hr) as (r' & Hr' & _). by eapply lookup_lt_Some.
  - intros (r & Hr & Hp). destruct (Hm k r Hr) as (r' & Hr' & ? & _). exists r'. auto.
  - intros (r & Hr & Hp). destruct (Hm k r Hr) as (r' & Hr' & ? & _). exists r'. auto.
  - intros (r & Hr & Hp & Hh). destruct (Hm k r Hr) as (r' & Hr' & ? & ? & _). exists r'. auto.
  - intros (r & Hr & Hl). destruct (Hm k r Hr) as (r' & Hr' & _ & _ & ?). exists r'. auto.
Qed.

(** Replacing a run by one that has gone on. *)
Lemma replace_ok s k r r' :
  sys_ok s -> runs s !! k = Some r -> run_ok r' -> mono r r' ->
  sys_ok (mkSystem (current s) (<[k := r']> (runs s)) (stops s) (refused s)).
Proof.
  intros [Hr Hc Hs] Hk Hok Hm. assert (Hlt : (k < length (runs s))%nat) by (by eapply lookup_lt_Some). split; cbn.
  - intros k1 r1 Hk1. destruct (decide (k1 = k)) as [->|Hne].
    + rewrite list_lookup_insert_eq in Hk1 by done. injection Hk1 as <-. split; [done|].
      rewrite (mo_live _ _ Hm). by apply Hr.
    + rewrite list_lookup_insert_ne in Hk1 by done. by apply Hr.
  - intros k1 H1. rewrite length_insert. by apply Hc.
  - eapply Forall_impl; [exact Hs|]. intros x. apply stop_state_mono. cbn. intros k1 r1 Hk1.
    destruct (decide (k1 = k)) as [->|Hne].
    + exists r'. rewrite list_lookup_insert_eq by done. rewrite Hk in Hk1. injection Hk1 as <-. destruct Hm as [? ? [? ?]]. auto.
    + exists r1. rewrite list_lookup_insert_ne by done. auto.
Qed.

Lemma set_stop_ok s j x : sys_ok s -> stop_state_ok s x -> sys_ok (set_stop j x s).
Proof.
  intros [Hr Hc Hs] Hx. split; cbn; [done|done|]. apply Forall_insert.
  - eapply Forall_impl; [exact Hs|]. intros y. by destruct y as [| | | |[] []].
  - by destruct x as [| | | |[] []].
Qed.

Lemma closed_spec s k : closed s k = true -> exists r, runs s !! k = Some r /\ ~ live r.
Proof. unfold closed, live. destruct (runs s !! k) as [r|]; [|done]. intros H. exists r. split; [done|].
  revert H. destruct (main r); cbn; [done..|]. by intros _ []. Qed.

Lemma stop_step_ok s j s' : sys_ok s -> stop_step s j s' -> sys_ok s'.
Proof.
  intros Hok Hstep. destruct (Hok) as [Hr Hc Hs]. rewrite Forall_lookup in Hs. destruct Hstep as [Hj|k r Hj Hk|k Hj|k Hj Hcl|k r e Hj Hk].
  - apply set_stop_ok; [done|]. destruct (current s) as [k|] eqn:Ec; cbn; [by apply Hc|done].
  - apply set_stop_ok.
    + apply (replace_ok s k r); [done|done|apply stop_ok; by eapply Hr|by split].
    + exists (stop r). split; [|done]. cbn. apply list_lookup_insert_eq. by eapply lookup_lt_Some.
  - apply set_stop_ok; [done|]. destruct (closed s k) eqn:Ec; [by apply closed_spec|]. by apply (Hs j _ Hj).
  - apply set_stop_ok; [done|]. by apply closed_spec.
  - destruct (Hs j _ Hj) as (r1 & Hr1 & Hp). rewrite Hk in Hr1. injection Hr1 as <-. apply set_stop_ok.
    + apply (replace_ok s k r); [done|done|apply interrupt_ok; by eapply Hr|by split].
    + exists (interrupt r). split; [|done]. cbn. apply list_lookup_insert_eq. by eapply lookup_lt_Some.
Qed.

Lemma finish_ok s k r res : sys_ok s -> runs s !! k = Some r -> main r = Finished res -> sys_ok (finish k r res s).
Proof.
  intros [Hr Hc Hs] Hk Hm. destruct (Hr k r Hk) as [Hok Hlive].
  assert (Hcur : current s = Some k) by (apply Hlive; unfold live; by rewrite Hm).
  assert (Hlt : (k < length (runs s))%nat) by (by eapply lookup_lt_Some).
  unfold finish. rewrite decide_True by done. split; cbn.
  - intros k1 r1 Hk1. destruct (decide (k1 = k)) as [->|Hne].
    + rewrite list_lookup_insert_eq in Hk1 by done. injection Hk1 as <-. split; [|by split].
      destruct Hok as [H1 H2 H3 H4 H5]. unfold main_ok in H5. rewrite Hm in H3, H5.
      split; cbn; [done|done|done|done|]. unfold main_ok. cbn. by destruct H5.
    + rewrite list_lookup_insert_ne in Hk1 by done. destruct (Hr k1 r1 Hk1) as [? Hl]. split; [done|].
      rewrite Hl, Hcur. split; [intros [= ->]; done|done].
  - done.
  - eapply Forall_impl; [exact Hs|]. intros x. apply stop_state_mono. cbn. intros k1 r1 Hk1.
    destruct (decide (k1 = k)) as [->|Hne].
    + eexists. rewrite list_lookup_insert_eq by done. split; [done|]. by cbn.
    + exists r1. rewrite list_lookup_insert_ne by done. auto.
Qed.

Lemma worker_step_ok s s' : sys_ok s -> step s s' -> sys_ok s'.
Proof.
  intros Hok Hstep. destruct (Hok) as [Hr Hc Hs]. destruct Hstep as [|k r r' Hk Hst|k r res Hk Hm| |j s' Hst].
  - unfold call_run. destruct (current s) as [k|] eqn:Ec.
    + split; cbn; [done|done|]. eapply Forall_impl; [exact Hs|]. intros x. by destruct x as [| | | |[] []].
    + split; cbn.
      * intros k r Hk. destruct (decide (k < length (runs s))%nat) as [Hlt|Hge].
        -- rewrite lookup_app_l in Hk by done. destruct (Hr k r Hk) as [? Hl]. split; [done|]. rewrite Hl.
           split; [done|]. intros [= E]. lia.
        -- rewrite lookup_app_r in Hk by lia. destruct (k - length (runs s))%nat as [|n] eqn:En; [|done]. injection Hk as <-.
           split; [apply new_run_ok|]. split; [intros _; f_equal; lia|done].
      * intros k [= <-]. rewrite length_app. cbn. lia.
      * eapply Forall_impl; [exact Hs|]. intros x. apply stop_state_mono. cbn. intros k r Hk. exists r.
        split; [by apply lookup_app_l_Some|auto].
  - destruct (Hr k r Hk). apply (replace_ok s k r); [done|done|by eapply rstep_ok|by apply rstep_mono].
  - by apply finish_ok.
  - split; cbn; [done|done|]. apply Forall_app. split; [|by constructor]. eapply Forall_impl; [exact Hs|].
    intros x. by destruct x as [| | | |[] []].
  - by eapply stop_step_ok.
Qed.

Lemma reachable_ok s : reachable s -> sys_ok s.
Proof. induction 1 as [|s s' _ IH Hst]; [|by eapply worker_step_ok]. by split. Qed.

(** C18: [Run] and [Stop] under every interleaving of callers, loops, cancellations
    and answers.  At most one run is in progress, and a call of [Run] is refused
    exactly then.  In every run, each delivery received is being processed or was
    settled once, by the decision table for what its handler answered.  A run that
    returned has ended all its loops, so that every delivery it received was
    settled; it returned nil exactly if no loop failed, and otherwise the error of
    a loop.  The channel of errors never blocks a loop.  When [Stop] returned nil
    for a run, the run had ended; when it returned the error of its context, it had
    cancelled polling and handlers. *)
Theorem worker_run_stop s :
  reachable s ->
  (forall k r, runs s !! k = Some r ->
     (live r <-> current s = Some k) /\
     received r ≡ₚ (settled r).*1 ++ (loops r ≫= processing) /\
     Forall (fun p => exists w', behaves w' /\ p.2 = verdict Error w' p.1) (settled r) /\
     (forall i e, loops r !! i = Some (LFail e) -> (length (errs r) < length (loops r))%nat) /\
     (forall res, main r = Returned res ->
        all_done r /\ received r ≡ₚ (settled r).*1 /\ (res = None <-> failures r = []) /\
        (forall e, res = Some e -> e ∈ failures r))) /\
  (refused (call_run s) <> refused s <-> exists k r, runs s !! k = Some r /\ live r) /\
  (forall j k, stops s !! j = Some (SReturned (Some k) None) -> exists r, runs s !! k = Some r /\ ~ live r) /\
  (forall j k e, stops s !! j = Some (SReturned (Some k) (Some e)) ->
     exists r, runs s !! k = Some r /\ pollDone r = true /\ handlerDone r = true).
Proof.
  intros Hreach. destruct (reachable_ok s Hreach) as [Hr Hc Hs]. rewrite Forall_lookup in Hs. split_and!.
  - intros k r Hk. destruct (Hr k r Hk) as [[H1 H2 H3 H4 H5] Hl]. split_and!; [done|done|done|..].
    + intros i e Hi. apply (channel_room r i e); [|done|done]. done.
    + intros res Hm. unfold main_ok in H5. rewrite Hm in H3, H5. destruct H5 as (Hd & Hn & _).
      assert (Hnone : forall B (f : lstate -> list B), f LDone = [] -> loops r ≫= f = []).
      { intros B f Hf. clear -Hd Hf. unfold all_done in Hd. induction (loops r) as [|x ls IH]; [done|].
        apply Forall_cons in Hd as [-> Hd]. rewrite bind_cons, Hf. by apply IH. }
      split_and!; [done|by rewrite H1, Hnone, app_nil_r| |].
      * rewrite (Hnone _ failing), app_nil_r in H3 by done. destruct res as [e|]; cbn in H3.
        -- split; [done|]. intros E. rewrite E in H3. by apply Permutation_nil_l in H3.
        -- rewrite Hn in H3 by done. split; [intros _; by apply Permutation_nil_r in H3|done].
      * intros e ->. rewrite H3. by left.
  - unfold call_run. destruct (current s) as [k|] eqn:Ec; cbn.
    + split; [|lia]. intros _. destruct (lookup_lt_is_Some_2 _ _ (Hc k eq_refl)) as [r Hk]. exists k, r.
      split; [done|]. by apply (Hr k r Hk).
    + split; [done|]. intros (k & r & Hk & Hl). by apply (Hr k r Hk) in Hl.
  - intros j k Hj. apply (Hs j _ Hj).
  - intros j k e Hj. apply (Hs j _ Hj).
Qed.

(** ** After a stop *)

Definition loop_steps (l : lstate) : nat :=
  match l with LReceiving => 5 | LNew | LProcess _ => 4 | LFail _ => 3 | LSent => 2 | LTop | LStopped => 1 | LDone => 0 end.
Definition main_steps (m : mstate) : nat :=
  match m with Selecting => 2 | Draining _ => 1 | _ => 0 end.

(** The steps a run can still make once polling is cancelled. *)
Definition steps_left (r : run) : nat :=
  sum_list_with loop_steps (loops r) + main_steps (main r)
  + (if ctxDone r then 0 else 1) + (if handlerDone r then 0 else 1).

Lemma loop_decreases ls i x y :
  ls !! i = Some x -> (loop_steps y < loop_steps x)%nat ->
  (sum_list_with loop_steps (<[i := y]> ls) < sum_list_with loop_steps ls)%nat.
Proof. intros Hi Hl. pose proof (sum_list_with_insert loop_steps ls i x y Hi). lia. Qed.

Lemma leave_decreases r r1 i x err :
  loops r !! i = Some x -> (3 < loop_steps x)%nat \/ err = None /\ x <> LDone ->
  loops r1 = loops r -> main r1 = main r -> ctxDone r1 = ctxDone r -> handlerDone r1 = handlerDone r ->
  (steps_left (leave i err r1) < steps_left r)%nat.
Proof.
  intros Hi Hx El Em Ec Eh. unfold steps_left.
  destruct err as [e|]; cbn; rewrite El, Em, Ec, Eh.
  - pose proof (loop_decreases (loops r) i x (LFail e) Hi). cbn in *. destruct Hx as [|[]]; [lia|done].
  - pose proof (loop_decreases (loops r) i x LDone Hi) as H. cbn in H.
    assert (0 < loop_steps x)%nat by (destruct Hx as [|[_ Hx]]; [lia|]; destruct x; cbn; (lia || done)). lia.
Qed.

Lemma stopped_decreases r r' :
  pollDone r = true -> rstep r r' -> pollDone r' = true /\ (steps_left r' < steps_left r)%nat.
Proof.
  intros Hp Hstep. split; [by apply (mo_poll r r' (rstep_mono r r' Hstep))|].
  assert (Hmove : forall i x y, loops r !! i = Some x -> (loop_steps y < loop_steps x)%nat ->
    (steps_left (set_loops (<[i := y]> (loops r)) r) < steps_left r)%nat).
  { intros i x y Hi Hl. unfold steps_left. cbn. pose proof (loop_decreases (loops r) i x y Hi Hl). lia. }
  destruct Hstep as [i a Hi|i Hi|i a Hi|i t w' settle Hi Hb|i e Hi _|i Hi|i Hi|Hsel Hd|e es Hsel He|e Hdr Hd|Hc|Hc Hh].
  - unfold loop_consumer. destruct a; [|apply (Hmove i LNew); [done|cbn; lia]].
    destruct (isNormalStopError _ _); (eapply leave_decreases; [exact Hi|left; cbn; lia|done..]).
  - unfold loop_top. rewrite Hp. eapply leave_decreases; [exact Hi|by right|done..].
  - unfold loop_received. destruct a as [[t|]|err].
    + apply (Hmove i LReceiving); [done|cbn; lia].
    + apply (Hmove i LReceiving); [done|cbn; lia].
    + destruct (isNormalStopError _ _); (eapply leave_decreases; [exact Hi|left; cbn; lia|done..]).
  - unfold loop_processed. destruct (process Error settle w' t) as [[ss evs] [e|]].
    + destruct (_ && _); (eapply leave_decreases; [exact Hi|left; cbn; lia|done..]).
    + apply (Hmove i (LProcess t)); [done|cbn; lia].
  - apply (Hmove i (LFail e)); [done|cbn; lia].
  - apply (Hmove i LSent); [done|cbn; lia].
  - specialize (Hmove i LStopped LDone Hi ltac:(cbn; lia)). unfold steps_left in *. cbn in *. destruct (handlerDone r); lia.
  - unfold steps_left. rewrite Hsel. destruct (errs r); cbn; lia.
  - unfold steps_left. cbn. rewrite Hsel. destruct (handlerDone r), (ctxDone r); cbn; lia.
  - unfold steps_left. cbn. rewrite Hdr. cbn. lia.
  - unfold steps_left. cbn. rewrite Hc. lia.
  - unfold steps_left. cbn. rewrite Hh. lia.
Qed.

Lemma behaves_refl : behaves w.
Proof. done. Qed.

Lemma run_progress r : run_ok r -> (main r = Selecting \/ exists e, main r = Draining e) -> exists r', rstep r r'.
Proof.
  intros [_ _ Hf Ho _] Hm. destruct (decide (Exists (fun l => l <> LDone) (loops r))) as [Hex|Hall].
  - apply Exists_exists in Hex as (l & [i Hi]%list_elem_of_lookup & Hl).
    destruct l; [by eexists; apply (r_consumer _ i None)|by eexists; apply (r_top _ i)|by eexists; apply (r_received _ i (inl None))|..].
    + eexists. by apply (r_processed _ i t w (fun _ => None) Hi behaves_refl).
    + eexists. apply (r_send _ i err Hi). by eapply channel_room.
    + eexists. by apply (r_stop _ i).
    + eexists. by apply (r_interrupt _ i).
    + done.
  - assert (Hd : Forall (fun l => l = LDone) (loops r)).
    { apply Forall_forall. intros l Hl. destruct (decide (l = LDone)) as [|Hne]; [done|].
      exfalso. apply Hall. apply Exists_exists. by exists l. }
    destruct Hm as [Hm|[e Hm]]; eexists; [by apply r_workersDone|by eapply r_drained].
Qed.

(** A stopped run ends.  Once polling is cancelled, by [Stop], an error or the
    caller's context, every schedule of the run makes at most [steps_left] steps,
    and it can only come to rest with [Run] at its deferred calls, all loops ended. *)
Theorem worker_ends s k r n r' :
  reachable s -> runs s !! k = Some r -> live r -> pollDone r = true -> nsteps rstep n r r' ->
  (n <= steps_left r)%nat /\ ((forall r'', ~ rstep r' r'') -> exists res, main r' = Finished res /\ all_done r').
Proof.
  intros Hreach Hk Hl Hp Hn. destruct (reachable_ok s Hreach) as [Hr _ _]. destruct (Hr k r Hk) as [Hok _]. clear Hreach Hr Hk.
  induction Hn as [r|n r r1 r' Hst Hn IH].
  - split; [lia|]. intros Hno. pose proof (ro_main _ Hok) as Hm. unfold main_ok in Hm. unfold live in Hl.
    destruct (main r) as [|e|res|res] eqn:Em; [..|done].
    + destruct (run_progress r Hok) as [r1 H1]; [by left|]. by destruct (Hno r1).
    + destruct (run_progress r Hok) as [r1 H1]; [right; by exists e|]. by destruct (Hno r1).
    + exists res. by destruct Hm.
  - destruct (stopped_decreases r r1 Hp Hst) as [Hp1 Hlt]. destruct IH as [IH1 IH2]; [|done|by eapply rstep_ok|].
    + by apply (mo_live _ _ (rstep_mono _ _ Hst)).
    + split; [lia|done].
Qed.
End Worker.

(** ** An example: one task, then [Stop] *)

Definition inside (k : nat) (f : run -> run) (s : system) : system :=
  match runs s !! k with
  | Some r => mkSystem (current s) (<[k := f r]> (runs s)) (stops s) (refused s)
  | None => s
  end.

Lemma inside_reachable Error w k r f s :
  runs s !! k = Some r -> rstep Error w r (f r) -> reachable Error w s -> reachable Error w (inside k f s).
Proof. intros Hk Hf Hs. unfold inside. rewrite Hk. eapply reach_step; [done|]. by eapply step_inside. Qed.

Definition demo_worker : workerConfig := newWorkerConfig [Handle "mail" (Some (fun _ => None))].
Definition demo_job : Task := mkTask "a" "mail" "default" [] ∅ 1 0 0.
Local Abbreviation dreach := (reachable (fun _ => ""%string) demo_worker).

Definition demo_processing : system :=
  inside 0 (loop_received 0 (inl (Some demo_job))) (inside 0 (loop_top 0) (inside 0 (loop_consumer 0 None)
    (call_run demo_worker NewWorker))).
Definition demo_settled : system :=
  inside 0 (loop_processed (fun _ => ""%string) 0 demo_job demo_worker (fun _ => None)) demo_processing.
Definition demo_stopping : system :=
  set_stop 0 (SFirst 0) (inside 0 stop (set_stop 0 (SGot 0)
    (mkSystem (current demo_settled) (runs demo_settled) (stops demo_settled ++ [SNew]) (refused demo_settled)))).
Definition demo_idle : system := inside 0 (set_main (Finished None)) (inside 0 (loop_top 0) demo_stopping).
Definition demo_run : run := mkRun true true false [LDone] [] (Returned None) [demo_job] [(demo_job, Ack)] [].
Definition demo_ended : system :=
  set_stop 0 (SReturned (Some 0) None) (mkSystem None [demo_run] (stops demo_idle) 0).

Lemma demo_settled_reachable : dreach demo_settled.
Proof.
  eapply (inside_reachable _ _ 0); [reflexivity|by apply (r_processed _ _ _ 0 demo_job demo_worker); [|apply behaves_refl]|].
  eapply (inside_reachable _ _ 0); [reflexivity|by apply r_received|].
  eapply (inside_reachable _ _ 0); [reflexivity|by apply r_top|].
  eapply (inside_reachable _ _ 0); [reflexivity|by apply r_consumer|].
  eapply reach_step; [apply reach_new|apply step_run].
Qed.

Definition demo_called : system :=
  mkSystem (current demo_settled) (runs demo_settled) (stops demo_settled ++ [SNew]) (refused demo_settled).

Lemma demo_stopping_reachable : dreach demo_stopping.
Proof.
  assert (H0 : dreach demo_called) by (eapply reach_step; [apply demo_settled_reachable|apply step_stop]).
  assert (H1 : dreach (set_stop 0 (SGot 0) demo_called)).
  { eapply reach_step; [exact H0|]. apply (step_stopping _ _ _ 0). exact (s_lifecycle demo_called 0 eq_refl). }
  eapply reach_step; [exact H1|]. apply (step_stopping _ _ _ 0).
  exact (s_stop (set_stop 0 (SGot 0) demo_called) 0 0 _ eq_refl eq_refl).
Qed.

Lemma demo_idle_reachable : dreach demo_idle.
Proof.
  eapply (inside_reachable _ _ 0); [reflexivity| |].
  - exact (r_workersDone _ _ (mkRun true false false [LDone] [] Selecting [demo_job] [(demo_job, Ack)] []) eq_refl
             (Forall_cons_2 _ _ _ eq_refl (Forall_nil_2 _))).
  - eapply (inside_reachable _ _ 0); [reflexivity|by apply r_top|]. exact demo_stopping_reachable.
Qed.

Lemma demo_ended_reachable : dreach demo_ended.
Proof.
  set (s := mkSystem None [demo_run] (stops demo_idle) 0).
  assert (H : dreach s).
  { eapply reach_step; [exact demo_idle_reachable|]. exact (step_finish _ _ demo_idle 0 _ _ eq_refl eq_refl). }
  eapply reach_step; [exact H|]. apply (step_stopping _ _ _ 0). exact (s_first s 0 0 eq_refl).
Qed.

Lemma worker_run_stop_witness :
  ~ live demo_run /\ received demo_run ≡ₚ (settled demo_run).*1 /\ failures demo_run = [].
Proof.
  destruct (worker_run_stop (fun _ => ""%string) demo_worker demo_ended demo_ended_reachable) as (Hr & _ & Hs & _).
  destruct (Hr 0%nat demo_run eq_refl) as (_ & _ & _ & _ & Hret).
  destruct (Hret None eq_refl) as (_ & Hp & Hn & _). destruct (Hs 0%nat 0%nat eq_refl) as (r & Hk & Hl).
  injection Hk as <-. split; [exact Hl|]. split; [exact Hp|]. apply Hn. reflexivity.
Defined.
