(* ===== verification/Debounce.v ===== *)
(** * Trailing-edge debouncing: [src/debounce]

    A debouncer keeps at most one pending, one frozen and one running invocation
    and one worker.  It is a transition system: the callers' critical sections,
    the turns of the worker's loop, and the passing of time.  Invocations live in
    an explicit memory, since a flush waits for the one it selected while later
    triggers go on changing the pending one. *)

From S2P Require Import Prelude GoErrors.
From stdpp Require Import options.
Set Default Proof Using "Type*".

Definition ErrInvalidDelay : error := ErrNew "debounce: delay must be positive".
Definition ErrNilHandler : error := ErrNew "debounce: handler must not be nil".
Definition ErrInvalidContext : error := ErrNew "debounce: context must not be nil".
Definition ErrClosed : error := ErrNew "debounce: closed".

Definition validateContext (ctx : option context) (n : nat) : option error :=
  match ctx with
  | None => Some ErrInvalidContext
  | Some c => Cause c n
  end.

Section Debounce.
Context {T : Type}.

(** ** State *)

(** [result] is set by [complete], which closes [done]. *)
Record invocation := mkInv { value : T; due : Z; result : option (option error) }.

(** Where the worker is: before [next], in its select with the timer's time, in
    [execute], or gone. *)
Inductive wstate := Deciding | Waiting (tick : option Z) | Executing (id : nat) | Exited.

Record Debouncer := mkDebouncer {
  canceled : bool;                (* the processing context is done *)
  closed : bool;
  pending : option nat;
  ready : option nat;
  running : option nat;
  invs : gmap nat invocation;
  nextId : nat;
  wake : bool;                    (* the wake channel holds a token *)
  worker : wstate;
  now : Z;
  triggers : list (nat * (T * Z));   (* accepted triggers: invocation, value, time *)
  frozen : list nat;                 (* invocations selected by a flush *)
  calls : list (nat * (T * Z));      (* handler calls: invocation, value, time *)
  errors_ : list error;              (* errors passed to [onError] *)
  panicked : bool                    (* an invocation was completed twice *)
}.

(** [zero] is the zero value of [T], [handler k] what the [k]-th call returns. *)
Variables (zero : T) (handler : nat -> T -> option error) (delay : Z) (onError : bool).

Definition new_debouncer (t : Z) : Debouncer :=
  mkDebouncer false false None None None ∅ 0 false Deciding t [] [] [] [] false.

(** [New]: no worker starts on failure. *)
Definition New (ctx : option context) (has_handler : bool) (t : Z) : Debouncer + error :=
  match validateContext ctx 0 with
  | Some err => inr err
  | None =>
      if (delay <=? 0)%Z then inr ErrInvalidDelay
      else if negb has_handler then inr ErrNilHandler
      else inl (new_debouncer t)
  end.

(** ** Operations *)

Definition set_slots (p r run : option nat) (d : Debouncer) : Debouncer :=
  mkDebouncer (canceled d) (closed d) p r run (invs d) (nextId d) (wake d) (worker d) (now d)
    (triggers d) (frozen d) (calls d) (errors_ d) (panicked d).
Definition set_worker (w : wstate) (d : Debouncer) : Debouncer :=
  mkDebouncer (canceled d) (closed d) (pending d) (ready d) (running d) (invs d) (nextId d) (wake d) w
    (now d) (triggers d) (frozen d) (calls d) (errors_ d) (panicked d).

(** A send to the channel of capacity one, dropped when it is full. *)
Definition notify (d : Debouncer) : Debouncer :=
  mkDebouncer (canceled d) (closed d) (pending d) (ready d) (running d) (invs d) (nextId d) true (worker d)
    (now d) (triggers d) (frozen d) (calls d) (errors_ d) (panicked d).

(** [c.complete(err)]: closing [done] a second time would panic. *)
Definition complete (id : nat) (err : option error) (d : Debouncer) : Debouncer :=
  match invs d !! id with
  | Some i =>
      mkDebouncer (canceled d) (closed d) (pending d) (ready d) (running d)
        (<[id := mkInv zero (due i) (Some err)]> (invs d)) (nextId d) (wake d) (worker d) (now d)
        (triggers d) (frozen d) (calls d) (errors_ d)
        (panicked d || match result i with Some _ => true | None => false end)
  | None => d
  end.

Definition complete_slot (slot : option nat) (d : Debouncer) : Debouncer :=
  match slot with Some id => complete id (Some ErrClosed) d | None => d end.

(** [stop], which also cancels the processing context. *)
Definition stop (d : Debouncer) : Debouncer :=
  if closed d then d
  else
    let d := mkDebouncer true true (pending d) (ready d) (running d) (invs d) (nextId d) (wake d) (worker d)
               (now d) (triggers d) (frozen d) (calls d) (errors_ d) (panicked d) in
    let d := complete_slot (pending d) d in
    let d := complete_slot (ready d) d in
    notify (set_slots None None (running d) d).

Definition Trigger (v : T) (d : Debouncer) : Debouncer * option error :=
  if closed d || canceled d then (d, Some ErrClosed)
  else
    let id := default (nextId d) (pending d) in
    let next := match pending d with Some _ => nextId d | None => S (nextId d) end in
    (notify (mkDebouncer (canceled d) (closed d) (Some id) (ready d) (running d)
       (<[id := mkInv v (now d + delay) None]> (invs d)) next (wake d) (worker d) (now d)
       (triggers d ++ [(id, (v, now d))]) (frozen d) (calls d) (errors_ d) (panicked d)), None).

(** The invocation a flush waits for, whether it selects again after it, or the
    error. *)
Definition selectFlush (d : Debouncer) : Debouncer * (option nat * bool * option error) :=
  if closed d || canceled d then (d, (None, false, Some ErrClosed))
  else match ready d, pending d with
       | Some id, p => (d, (Some id, match p with Some _ => true | None => false end, None))
       | None, Some id =>
           let d := mkDebouncer (canceled d) (closed d) None (Some id) (running d) (invs d) (nextId d)
                      (wake d) (worker d) (now d) (triggers d) (frozen d ++ [id]) (calls d) (errors_ d)
                      (panicked d) in
           (notify d, (Some id, false, None))
       | None, None => (d, (running d, false, None))
       end.

(** [next], then what [run] does with it. *)
Definition start (id : nat) (d : Debouncer) : Debouncer :=
  match invs d !! id with
  | Some i =>
      mkDebouncer (canceled d) (closed d) (pending d) (ready d) (Some id) (invs d) (nextId d) (wake d)
        (Executing id) (now d) (triggers d) (frozen d) (calls d ++ [(id, (value i, now d))]) (errors_ d)
        (panicked d)
  | None => d
  end.

Definition run_next (d : Debouncer) : option Debouncer :=
  match worker d with
  | Deciding =>
      if closed d || canceled d then Some (set_worker Exited (stop d))
      else match ready d, pending d with
           | Some id, p => Some (start id (set_slots p None (running d) d))
           | None, None => Some (set_worker (Waiting None) d)
           | None, Some id =>
               match invs d !! id with
               | Some i =>
                   if (due i - now d >? 0)%Z then Some (set_worker (Waiting (Some (due i))) d)
                   else Some (start id (set_slots None None (running d) d))
               | None => None
               end
           end
  | _ => None
  end.

(** The cases of the select. *)
Definition run_wake (d : Debouncer) : option Debouncer :=
  match worker d with
  | Waiting _ =>
      if wake d then
        Some (mkDebouncer (canceled d) (closed d) (pending d) (ready d) (running d) (invs d) (nextId d) false
                Deciding (now d) (triggers d) (frozen d) (calls d) (errors_ d) (panicked d))
      else None
  | _ => None
  end.

Definition run_tick (d : Debouncer) : option Debouncer :=
  match worker d with
  | Waiting (Some t) => if (t <=? now d)%Z then Some (set_worker Deciding d) else None
  | _ => None
  end.

Definition run_done (d : Debouncer) : option Debouncer :=
  match worker d with
  | Waiting _ => if canceled d then Some (set_worker Deciding (stop d)) else None
  | _ => None
  end.

(** The end of [execute], when the handler returns. *)
Definition execute_end (d : Debouncer) : option Debouncer :=
  match worker d with
  | Executing id =>
      match last (calls d) with
      | Some (_, (v, _)) =>
          let err := handler (length (calls d) - 1) v in
          let errs := match err with Some e => if onError then errors_ d ++ [e] else errors_ d
                                   | None => errors_ d end in
          let d := complete id err d in
          Some (mkDebouncer (canceled d) (closed d) (pending d) (ready d) None (invs d) (nextId d) (wake d)
                  Deciding (now d) (triggers d) (frozen d) (calls d) errs (panicked d))
      | None => None
      end
  | _ => None
  end.

Inductive action :=
| CallTrigger (v : T) | CallSelectFlush | CallStop | CancelContext | Elapse (dt : Z)
| Next | Wake | TickFires | SeesDone | HandlerReturns.

Definition step (a : action) (d : Debouncer) : option Debouncer :=
  match a with
  | CallTrigger v => Some (fst (Trigger v d))
  | CallSelectFlush => Some (fst (selectFlush d))
  | CallStop => Some (stop d)
  | CancelContext =>
      Some (mkDebouncer true (closed d) (pending d) (ready d) (running d) (invs d) (nextId d) (wake d)
              (worker d) (now d) (triggers d) (frozen d) (calls d) (errors_ d) (panicked d))
  | Elapse dt =>
      if (dt <? 0)%Z then None
      else Some (mkDebouncer (canceled d) (closed d) (pending d) (ready d) (running d) (invs d) (nextId d)
                   (wake d) (worker d) (now d + dt) (triggers d) (frozen d) (calls d) (errors_ d) (panicked d))
  | Next => run_next d
  | Wake => run_wake d
  | TickFires => run_tick d
  | SeesDone => run_done d
  | HandlerReturns => execute_end d
  end.

Fixpoint run (l : list action) (d : Debouncer) : option Debouncer :=
  match l with
  | [] => Some d
  | a :: l => d ← step a d; run l d
  end.

(** [wait]: a completed invocation wins over a done context. *)
Definition wait (done : bool) (ctx_cause : option error) : option (option error) :=
  if done then Some None else Some <$> ctx_cause.

(** A call of [Flush]: about to select, waiting for an invocation, or back. *)
Inductive flush := Selecting | Awaiting (id : nat) (retry : bool) | Returned (err : option error).

Definition Flush (ctx : option context) : flush :=
  match validateContext ctx 0 with Some err => Returned (Some err) | None => Selecting end.

(** One turn of its loop, [None] while it has to wait; [cause] is what the
    caller's context says at the end of the wait. *)
Definition Flush_step (cause : option error) (f : flush) (d : Debouncer) : option (Debouncer * flush) :=
  match f with
  | Selecting =>
      let '(d, (call, retry, err)) := selectFlush d in
      Some (d, match err, call with
               | Some err, _ => Returned (Some err)
               | None, None => Returned None
               | None, Some id => Awaiting id retry
               end)
  | Awaiting id retry =>
      i ← invs d !! id;
      waited ← wait (match result i with Some _ => true | None => false end) cause;
      Some (d, match waited with
               | Some err => Returned (Some err)
               | None =>
                   if negb retry then Returned (default None (result i))
                   else match cause with Some err => Returned (Some err) | None => Selecting end
               end)
  | Returned _ => None
  end.

(** [Close] has stopped the debouncer and returns when the worker is gone. *)
Definition Close (d : Debouncer) : Debouncer := stop d.
Definition Close_returns (d : Debouncer) : bool := match worker d with Exited => true | _ => false end.
End Debounce.

Arguments invocation : clear implicits.
Arguments Debouncer : clear implicits.
Arguments action : clear implicits.

(** ** Invariant *)

Section Invariant.
Context {T : Type} (zero : T) (handler : nat -> T -> option error) (delay : Z) (onError : bool).
Implicit Types d : Debouncer T.

Definition slots d : list nat := omap id [pending d; ready d; running d].

(** The three slots never hold the same invocation. *)
Definition distinct d : Prop :=
  (forall id, pending d = Some id -> ready d <> Some id /\ running d <> Some id) /\
  (forall id, ready d = Some id -> running d <> Some id).

(** The last value triggered for an invocation, with its time. *)
Definition latest (id : nat) (l : list (nat * (T * Z))) : option (T * Z) :=
  snd <$> last (filter (fun p => p.1 = id) l).

Record dinv d : Prop := {
  d_panic : panicked d = false;
  d_distinct : distinct d;
  d_live : forall id, id ∈ slots d <-> exists i, invs d !! id = Some i /\ result i = None;
  d_fresh : forall id i, invs d !! id = Some i -> id < nextId d;
  d_value : forall id i, invs d !! id = Some i -> result i = None ->
    exists t, latest id (triggers d) = Some (value i, t) /\ due i = (t + delay)%Z;
  d_calls_nodup : NoDup (calls d).*1;
  d_calls : forall id v t, ((id, (v, t)) : nat * (T * Z)) ∈ calls d ->
    (exists t0, latest id (triggers d) = Some (v, t0) /\ (id ∈ frozen d \/ (t0 + delay <= t)%Z)) /\
    (t <= now d)%Z /\ Some id <> pending d /\ Some id <> ready d /\ id < nextId d;
  d_results : forall id i e, invs d !! id = Some i -> result i = Some e ->
    (exists k v t, calls d !! k = Some (id, (v, t)) /\ e = handler k v) \/
    ((id ∉ (calls d).*1) /\ e = Some ErrClosed);
  d_running : forall id, running d = Some id <-> worker d = Executing id;
  d_last : forall id, running d = Some id -> exists v t, last (calls d) = Some (id, (v, t));
  d_frozen : forall id, id ∈ frozen d -> Some id <> pending d /\ id < nextId d;
  d_closed : closed d = true -> pending d = None /\ ready d = None /\ canceled d = true;
  d_exited : worker d = Exited -> closed d = true;
  d_wake : forall tick, worker d = Waiting tick -> wake d = false ->
    closed d = false /\ ready d = None /\
    match pending d with
    | None => tick = None
    | Some p => exists i, invs d !! p = Some i /\ tick = Some (due i)
    end
}.

Lemma latest_snoc id id' x l :
  latest id (l ++ [(id', x)]) = if decide (id' = id) then Some x else latest id l.
Proof.
  unfold latest. rewrite filter_app. destruct (decide (id' = id)) as [->|Hne].
  - rewrite filter_cons_True, filter_nil by done. by rewrite last_snoc.
  - rewrite filter_cons_False, filter_nil by done. by rewrite app_nil_r.
Qed.

Lemma elem_of_slots d id : id ∈ slots d <-> pending d = Some id \/ ready d = Some id \/ running d = Some id.
Proof.
  unfold slots. destruct (pending d), (ready d), (running d); simpl;
    rewrite ?elem_of_cons, ?elem_of_nil; intuition congruence.
Qed.

Lemma dinv_init t : dinv (new_debouncer t).
Proof.
  constructor; simpl; try done; try by apply NoDup_nil.
  - intros id. rewrite elem_of_nil. split; [done|]. intros (i & Hi & _). by rewrite lookup_empty in Hi.
  - intros id v t'. by rewrite elem_of_nil.
  - intros id. by rewrite elem_of_nil.
Qed.

Lemma live_slot d id :
  dinv d -> pending d = Some id \/ ready d = Some id \/ running d = Some id ->
  exists i, invs d !! id = Some i /\ result i = None.
Proof. intros Hd Hs. by apply (d_live d Hd), elem_of_slots. Qed.

Lemma trigger_keeps v d : dinv d -> dinv (fst (Trigger delay v d)).
Proof.
  intros Hd. unfold Trigger. destruct (closed d || canceled d) eqn:Ec; [done|].
  apply orb_false_iff in Ec as [Ecl Eca]. cbn [fst]. set (id0 := default (nextId d) (pending d)).
  assert (Hid : (pending d = Some id0 /\ id0 < nextId d \/ pending d = None /\ id0 = nextId d)).
  { subst id0. destruct (pending d) as [p|] eqn:Ep; [left|by right]. split; [done|].
    destruct (live_slot d p Hd ltac:(by left)) as (i & Hi & _). by apply (d_fresh d Hd p i). }
  assert (Hnew : (id0 ∉ (calls d).*1) /\ (id0 ∉ frozen d) /\ ready d <> Some id0 /\ running d <> Some id0).
  { split_and!.
    - intros Hin. apply list_elem_of_fmap in Hin as ([i [v' t]] & E & Hin). simpl in E. subst i.
      destruct (d_calls d Hd _ _ _ Hin) as (_ & _ & Hp & _ & Hlt).
      destruct Hid as [[? _]|[_ ?]]; [congruence|lia].
    - intros Hin. destruct (d_frozen d Hd _ Hin). destruct Hid as [[? _]|[_ ?]]; [congruence|lia].
    - intros Hr. destruct Hid as [[Hp _]|[_ Hn]]; [destruct (d_distinct d Hd) as [H1 _]; by destruct (H1 _ Hp)|].
      destruct (live_slot d id0 Hd ltac:(by right; left)) as (i & Hi & _).
      apply (d_fresh d Hd) in Hi. lia.
    - intros Hr. destruct Hid as [[Hp _]|[_ Hn]]; [destruct (d_distinct d Hd) as [H1 _]; by destruct (H1 _ Hp)|].
      destruct (live_slot d id0 Hd ltac:(by right; right)) as (i & Hi & _).
      apply (d_fresh d Hd) in Hi. lia. }
  destruct Hnew as (Hnc & Hnf & Hnr & Hnu).
  assert (Hnext : nextId d <= (match pending d with Some _ => nextId d | None => S (nextId d) end) /\
                  id0 < (match pending d with Some _ => nextId d | None => S (nextId d) end)).
  { destruct Hid as [[-> ?]|[-> ->]]; lia. }
  destruct Hd. constructor; cbn [notify panicked invs nextId triggers frozen calls running worker wake closed
    canceled pending ready now]; try done.
  - destruct d_distinct0 as [H1 H2]. split; [|done]. intros id [= <-]. done.
  - intros id. rewrite elem_of_slots. cbn [notify pending ready running]. destruct (decide (id = id0)) as [->|Hne].
    + rewrite lookup_insert_eq. split; [|by left]. intros _. by eexists.
    + rewrite lookup_insert_ne by done. rewrite <- d_live0, elem_of_slots.
      destruct Hid as [[-> _]|[-> _]]; intuition congruence.
  - intros id i. destruct (decide (id = id0)) as [->|Hne].
    + intros _. lia.
    + rewrite lookup_insert_ne by done. intros Hi. apply d_fresh0 in Hi. lia.
  - intros id i. rewrite latest_snoc. destruct (decide (id = id0)) as [->|Hne].
    + rewrite lookup_insert_eq, decide_True by done. intros [= <-] _. simpl. by eexists.
    + rewrite lookup_insert_ne, decide_False by done. apply d_value0.
  - intros id v' t Hin. destruct (d_calls0 _ _ _ Hin) as (Hl & Ht & Hp & Hr & Hlt).
    assert (Hne : id <> id0) by (intros ->; apply Hnc, list_elem_of_fmap; by exists (id0, (v', t))).
    rewrite latest_snoc, decide_False by done. split_and!; [done|done|congruence|done|lia].
  - intros id i e. destruct (decide (id = id0)) as [->|Hne].
    + rewrite lookup_insert_eq. by intros [= <-].
    + rewrite lookup_insert_ne by done. apply d_results0.
  - intros id Hin. destruct (d_frozen0 id Hin). split; [congruence|lia].
  - intros Hcl. congruence.
Qed.

Lemma selectFlush_keeps d : dinv d -> dinv (fst (selectFlush d)).
Proof.
  intros Hd. unfold selectFlush. destruct (closed d || canceled d) eqn:Ec; [done|].
  apply orb_false_iff in Ec as [Ecl Eca]. destruct (ready d) as [r|] eqn:Er; [done|].
  destruct (pending d) as [p|] eqn:Ep; [|done]. cbn [fst].
  destruct (live_slot d p Hd ltac:(by left)) as (ip & Hip & _). pose proof (d_fresh d Hd _ _ Hip) as Hlt.
  destruct Hd. destruct d_distinct0 as [H1 H2]. destruct (H1 p Ep) as [_ Hrun].
  constructor; cbn [notify panicked invs nextId triggers frozen calls running worker wake closed
    canceled pending ready now]; try done.
  - split; cbn [notify pending ready running]; [done|]. intros id [= <-]. done.
  - intros id. rewrite <- d_live0, !elem_of_slots. cbn [notify pending ready running]. rewrite Ep, Er.
    intuition congruence.
  - intros id v t Hin. destruct (d_calls0 _ _ _ Hin) as ((t0 & Hl & Hf) & Ht & Hp & Hr & Hn).
    split_and!; [|done|done|congruence|done]. exists t0. split; [done|]. rewrite elem_of_app. intuition.
  - intros id. rewrite elem_of_app, list_elem_of_singleton. intros [Hin| ->]; [|done].
    split; [done|]. by apply d_frozen0.
  - congruence.
Qed.

(** What completing a live invocation changes. *)
Lemma complete_live id err d i :
  invs d !! id = Some i -> result i = None ->
  complete zero id err d =
    mkDebouncer (canceled d) (closed d) (pending d) (ready d) (running d)
      (<[id := mkInv zero (due i) (Some err)]> (invs d)) (nextId d) (wake d) (worker d) (now d)
      (triggers d) (frozen d) (calls d) (errors_ d) (panicked d).
Proof. intros Hi Hr. unfold complete. rewrite Hi, Hr. by rewrite orb_false_r. Qed.

(** The invocations discarded by [stop]. *)
Definition dropped d (id : nat) : Prop := pending d = Some id \/ ready d = Some id.

Definition drop_slot (slot : option nat) (m : gmap nat (invocation T)) : gmap nat (invocation T) :=
  match slot with
  | Some id => alter (fun i => mkInv zero (due i) (Some (Some ErrClosed))) id m
  | None => m
  end.

Lemma stop_open d :
  dinv d -> closed d = false ->
  stop zero d =
    mkDebouncer true true None None (running d) (drop_slot (ready d) (drop_slot (pending d) (invs d)))
      (nextId d) true (worker d) (now d) (triggers d) (frozen d) (calls d) (errors_ d) (panicked d).
Proof.
  intros Hd Hc. unfold stop. rewrite Hc. destruct (d_distinct d Hd) as [H1 _].
  assert (Hcs : forall slot e, match slot with
      | Some id => exists i, invs e !! id = Some i /\ result i = None | None => True end ->
    complete_slot zero slot e =
      mkDebouncer (canceled e) (closed e) (pending e) (ready e) (running e) (drop_slot slot (invs e))
        (nextId e) (wake e) (worker e) (now e) (triggers e) (frozen e) (calls e) (errors_ e) (panicked e)).
  { intros [id|] e; simpl; [|by destruct e]. intros (i & Hi & Hr). rewrite (complete_live id _ e i Hi Hr).
    f_equal. apply map_eq. intros j. destruct (decide (j = id)) as [->|].
    - by rewrite lookup_insert_eq, lookup_alter_eq, Hi.
    - by rewrite lookup_insert_ne, lookup_alter_ne. }
  cbv zeta. cbn [pending]. rewrite (Hcs (pending d)); cbn [ready].
  - rewrite (Hcs (ready d)); [done|]. cbn [invs].
    destruct (ready d) as [r|] eqn:Er; [|done].
    destruct (live_slot d r Hd ltac:(by right; left)) as (i & Hi & Hr). exists i. split; [|done].
    destruct (pending d) as [p|] eqn:Ep; [|done]. simpl.
    rewrite lookup_alter_ne; [done|]. intros ->. by destruct (H1 _ eq_refl).
  - cbn [invs]. destruct (pending d) as [p|] eqn:Ep; [|done]. apply (live_slot d); [done|by left].
Qed.

Lemma drop_lookup d id :
  drop_slot (ready d) (drop_slot (pending d) (invs d)) !! id =
  match invs d !! id with
  | Some i => if decide (dropped d id) then Some (mkInv zero (due i) (Some (Some ErrClosed))) else Some i
  | None => None
  end.
Proof.
  unfold dropped, drop_slot. destruct (pending d) as [p|] eqn:Ep, (ready d) as [r|] eqn:Er;
    rewrite ?lookup_alter; repeat case_decide; subst; destruct (invs d !! id); simpl; try done;
    intuition congruence.
Qed.

Lemma debounce_stop_keeps d : dinv d -> dinv (stop zero d).
Proof.
  intros Hd. destruct (closed d) eqn:Ec; [unfold stop; by rewrite Ec|]. rewrite (stop_open d Hd Ec).
  pose proof (live_slot d) as Hlive. destruct (d_distinct d Hd) as [H1 H2].
  assert (Hnd : forall id, dropped d id -> running d <> Some id).
  { intros id [Hp|Hr]; [by apply H1|by apply H2]. }
  assert (Hnc : forall id, dropped d id -> id ∉ (calls d).*1).
  { intros id Hdr Hin. apply list_elem_of_fmap in Hin as ([j [v t]] & E & Hin). simpl in E. subst j.
    destruct (d_calls d Hd _ _ _ Hin) as (_ & _ & Hp & Hr & _). destruct Hdr; congruence. }
  destruct Hd. constructor; cbn [panicked invs nextId triggers frozen calls running worker wake closed
    canceled pending ready now]; try done.
  - intros id. rewrite elem_of_slots. cbn [pending ready running]. rewrite drop_lookup. split.
    + intros [?|[?|Hr]]; try done. destruct (Hlive id) as (i & Hi & Hres);
        [by constructor|by right; right|]. exists i. rewrite Hi, decide_False; [done|]. by intros ?%Hnd.
    + intros (i & Hi & Hres). right; right. destruct (invs d !! id) as [i0|] eqn:E; [|done].
      case_decide as Hdr; simplify_eq.
      assert (Hs : id ∈ slots d) by (apply d_live0; by exists i).
      apply elem_of_slots in Hs as [?|[?|?]]; [by destruct Hdr; left|by destruct Hdr; right|done].
  - intros id i. rewrite drop_lookup. destruct (invs d !! id) as [i0|] eqn:E; [|done].
    intros _. by eapply d_fresh0.
  - intros id i. rewrite drop_lookup. destruct (invs d !! id) as [i0|] eqn:E; [|done].
    case_decide; intros [= <-]; [done|]. by apply d_value0.
  - intros id v t Hin. destruct (d_calls0 _ _ _ Hin) as (? & ? & ? & ? & ?). by split_and!.
  - intros id i e. rewrite drop_lookup. destruct (invs d !! id) as [i0|] eqn:E; [|done].
    case_decide as Hdr; intros [= <-]; simpl; [|by apply d_results0]. intros [= <-]. right.
    split; [by apply Hnc|done].
  - intros id Hin. split; [done|]. by apply d_frozen0.
Qed.

Lemma set_worker_keeps w d :
  dinv d -> (forall id, w <> Executing id) -> (forall id, worker d <> Executing id) ->
  (w = Exited -> closed d = true) ->
  (forall tick, w = Waiting tick -> wake d = false -> closed d = false /\ ready d = None /\
     match pending d with
     | None => tick = None
     | Some p => exists i, invs d !! p = Some i /\ tick = Some (due i)
     end) -> dinv (set_worker w d).
Proof.
  intros [] Hw Hw' Hex Hwait. constructor; cbn [set_worker panicked invs nextId triggers frozen calls running
    worker wake closed canceled pending ready now]; try done.
  intros id. rewrite d_running0. split; intros E; [by destruct (Hw' id)|by destruct (Hw id)].
Qed.

(** Starting the invocation that leaves its slot. *)
Lemma start_keeps id p d :
  dinv d -> worker d = Deciding ->
  (ready d = Some id /\ p = pending d \/
   ready d = None /\ pending d = Some id /\ p = None /\ exists i, invs d !! id = Some i /\ (due i <= now d)%Z) ->
  (ready d = Some id -> id ∈ frozen d) ->
  dinv (start id (set_slots p None (running d) d)).
Proof.
  intros Hd Hw Hcase Hfz.
  destruct (live_slot d id Hd) as (i & Hi & Hres); [destruct Hcase as [[? _]|(_ & ? & _)]; auto|].
  assert (Hrun : running d = None).
  { destruct (running d) as [u|] eqn:Eu; [|done]. apply (d_running d Hd) in Eu. congruence. }
  assert (Hnc : id ∉ (calls d).*1).
  { intros Hin. apply list_elem_of_fmap in Hin as ([j [v t]] & E & Hin). simpl in E. subst j.
    destruct (d_calls d Hd _ _ _ Hin) as (_ & _ & Hp & Hr & _).
    destruct Hcase as [[? _]|(_ & ? & _)]; congruence. }
  destruct (d_distinct d Hd) as [H1 H2].
  assert (Hpne : p <> Some id).
  { destruct Hcase as [[Hr ->]|(_ & _ & -> & _)]; [|done]. intros Hp. by destruct (H1 _ Hp). }
  pose proof (d_fresh d Hd _ _ Hi) as Hlt. destruct (d_value d Hd id i Hi Hres) as (t0 & Hlat & Hdue).
  unfold start. cbn [set_slots invs]. rewrite Hi.
  destruct Hd. constructor; cbn [set_slots panicked invs nextId triggers frozen calls running worker wake closed
    canceled pending ready now]; try done.
  - split; cbn [set_slots pending ready running]; [|done]. intros j Hj. split; [done|]. congruence.
  - intros j. rewrite <- d_live0, !elem_of_slots. cbn [set_slots pending ready running]. rewrite Hrun.
    destruct Hcase as [[Hr ->]|(Hr & Hp & -> & _)]; rewrite Hr; intuition congruence.
  - rewrite fmap_app. apply NoDup_app. split_and!; [done| |apply NoDup_singleton].
    intros j Hj. simpl. rewrite list_elem_of_singleton. by intros ->.
  - intros j v t. rewrite elem_of_app, list_elem_of_singleton. intros [Hin|[= -> -> ->]].
    + destruct (d_calls0 _ _ _ Hin) as (? & ? & Hp & Hr & ?). split_and!; try done.
      destruct Hcase as [[_ ->]|(_ & _ & -> & _)]; done.
    + split_and!; [|lia|congruence|done|done]. exists t0. split; [done|].
      destruct Hcase as [[Hr _]|(_ & _ & _ & i' & Hi' & Hle)]; [left; by apply Hfz|right].
      simplify_eq. lia.
  - intros j i' e Hj Hr. destruct (d_results0 j i' e Hj Hr) as [(k & v & t & Hk & ->)|[Hn ->]].
    + left. exists k, v, t. split; [|done]. by apply lookup_app_l_Some.
    + right. split; [|done]. rewrite fmap_app, elem_of_app. simpl. rewrite list_elem_of_singleton.
      intros [?| ->]; [done|]. congruence.
  - intros j. split; congruence.
  - intros j [= <-]. exists (value i), (now d). apply last_snoc.
  - intros j Hin. destruct (d_frozen0 j Hin) as [Hp ?]. split; [|done].
    destruct Hcase as [[_ ->]|(_ & _ & -> & _)]; done.
  - intros Hc. destruct (d_closed0 Hc) as (Hp & Hr & ?).
    destruct Hcase as [[? _]|(_ & ? & _)]; congruence.
Qed.

(** Every frozen slot was selected by a flush. *)
Definition ready_frozen d : Prop := forall id, ready d = Some id -> id ∈ frozen d.

Lemma run_next_keeps d d' :
  dinv d -> ready_frozen d -> run_next zero d = Some d' -> dinv d' /\ ready_frozen d'.
Proof.
  intros Hd Hrf. unfold run_next. destruct (worker d) eqn:Ew; try done.
  destruct (closed d || canceled d) eqn:Ec.
  { intros [= <-].
    assert (Hcl : closed (stop zero d) = true).
    { destruct (closed d) eqn:E; [unfold stop; by rewrite E|by rewrite (stop_open d Hd E)]. }
    assert (Hwk : worker (stop zero d) = Deciding).
    { destruct (closed d) eqn:E; [unfold stop; by rewrite E|by rewrite (stop_open d Hd E)]. }
    pose proof (debounce_stop_keeps d Hd) as Hs. split.
    - apply set_worker_keeps; try done. intros id. by rewrite Hwk.
    - intros id. cbn [set_worker ready]. destruct (d_closed _ Hs Hcl) as (_ & -> & _). done. }
  apply orb_false_iff in Ec as [Ecl _].
  destruct (ready d) as [r|] eqn:Er.
  { intros [= <-]. split.
    - apply start_keeps; [done|done|by left|]. intros _. by apply Hrf.
    - destruct (live_slot d r Hd) as (i & Hi & _); [by right; left|].
      unfold start. cbn [set_slots invs]. by rewrite Hi. }
  destruct (pending d) as [p|] eqn:Ep.
  2: { intros [= <-]. split; [|by intros id Hid; apply Hrf].
       apply set_worker_keeps; try done; [by rewrite Ew|]. intros tick [= <-] _. by rewrite Ep. }
  destruct (invs d !! p) as [i|] eqn:Ei; [|done].
  destruct (Z.gtb_spec (due i - now d) 0); intros [= <-].
  - split; [|by intros id Hid; apply Hrf].
    apply set_worker_keeps; try done; [by rewrite Ew|]. intros tick [= <-] _. rewrite Ep.
    split_and!; [done|done|]. by exists i.
  - split.
    + apply start_keeps; [done|done| |]; rewrite Er; [|done]. right. split_and!; [done|done|done|].
      exists i. split; [done|lia].
    + unfold start. cbn [set_slots invs]. by rewrite Ei.
Qed.

Lemma execute_end_keeps d d' :
  dinv d -> ready_frozen d -> execute_end zero handler onError d = Some d' -> dinv d' /\ ready_frozen d'.
Proof.
  intros Hd Hrf. unfold execute_end. destruct (worker d) as [| |id|] eqn:Ew; try done.
  pose proof (proj2 (d_running d Hd id) Ew) as Hrun. destruct (d_last d Hd id Hrun) as (v & t & Hl). rewrite Hl.
  destruct (live_slot d id Hd) as (i & Hi & Hres); [by right; right|].
  rewrite (complete_live id _ d i Hi Hres). intros [= <-]. split; [|done].
  assert (Hk : calls d !! (length (calls d) - 1) = Some (id, (v, t))).
  { rewrite last_lookup in Hl. rewrite <- Hl. f_equal. lia. }
  destruct (d_distinct d Hd) as [H1 H2].
  assert (Hps : pending d <> Some id /\ ready d <> Some id).
  { split; intros E; [by destruct (H1 _ E)|by apply (H2 _ E)]. }
  pose proof (d_fresh d Hd _ _ Hi) as Hlt.
  destruct Hd. constructor; cbn [panicked invs nextId triggers frozen calls running worker wake closed
    canceled pending ready now]; try done.
  - split; cbn [pending ready running]; [|done]. intros j Hj. split; [by apply H1|done].
  - intros j. rewrite elem_of_slots. cbn [pending ready running]. destruct (decide (j = id)) as [->|Hne].
    + rewrite lookup_insert_eq. split; [intuition congruence|]. by intros (? & [= <-] & ?).
    + rewrite lookup_insert_ne by done. rewrite <- d_live0, elem_of_slots, Hrun. intuition congruence.
  - intros j i'. destruct (decide (j = id)) as [->|Hne]; [done|]. rewrite lookup_insert_ne by done. apply d_fresh0.
  - intros j i'. destruct (decide (j = id)) as [->|Hne]; [rewrite lookup_insert_eq; by intros [= <-]|].
    rewrite lookup_insert_ne by done. apply d_value0.
  - intros j i' e. destruct (decide (j = id)) as [->|Hne].
    + rewrite lookup_insert_eq. intros [= <-] [= <-]. left. by exists (length (calls d) - 1), v, t.
    + rewrite lookup_insert_ne by done. apply d_results0.
Qed.

Lemma debounce_step_keeps a d d' :
  dinv d -> ready_frozen d -> step zero handler delay onError a d = Some d' -> dinv d' /\ ready_frozen d'.
Proof.
  intros Hd Hrf. destruct a as [v| | | |dt| | | | |]; cbn [step].
  - intros [= <-]. split; [by apply trigger_keeps|]. unfold Trigger. by destruct (closed d || canceled d).
  - intros [= <-]. split; [by apply selectFlush_keeps|]. unfold selectFlush.
    destruct (closed d || canceled d); [done|]. destruct (ready d) as [r|] eqn:Er; [done|].
    destruct (pending d); [|done]. intros id [= <-]. cbn [fst notify frozen]. rewrite elem_of_app.
    right. by apply list_elem_of_singleton.
  - intros [= <-]. split; [by apply debounce_stop_keeps|].
    destruct (closed d) eqn:Ec; [unfold stop; by rewrite Ec|]. by rewrite (stop_open d Hd Ec).
  - intros [= <-]. split; [|done]. destruct Hd. constructor; try done. cbn [closed canceled pending ready].
    intros Hc. destruct (d_closed0 Hc) as (? & ? & _). done.
  - destruct (Z.ltb_spec dt 0); [done|]. intros [= <-]. split; [|done].
    destruct Hd. constructor; try done. cbn [calls triggers frozen now pending ready nextId].
    intros id v t Hin. destruct (d_calls0 _ _ _ Hin) as (? & ? & ? & ? & ?). split_and!; try done. lia.
  - by apply run_next_keeps.
  - unfold run_wake. destruct (worker d) eqn:Ew; try done. destruct (wake d); [|done]. intros [= <-].
    split; [|done]. destruct Hd. constructor; cbn [panicked invs nextId triggers frozen calls running worker wake
      closed canceled pending ready now]; try done.
    intros id. rewrite d_running0, Ew. done.
  - unfold run_tick. destruct (worker d) as [|[tick|]| |] eqn:Ew; try done.
    destruct (tick <=? now d)%Z; [|done]. intros [= <-]. split; [|done].
    apply set_worker_keeps; try done. intros id. by rewrite Ew.
  - unfold run_done. destruct (worker d) eqn:Ew; try done. destruct (canceled d); [|done]. intros [= <-].
    assert (Hsr : ready_frozen (stop zero d)).
    { destruct (closed d) eqn:Ec; [unfold stop; by rewrite Ec|]. by rewrite (stop_open d Hd Ec). }
    split; [|done]. apply set_worker_keeps; try done; [by apply debounce_stop_keeps|].
    intros id. destruct (closed d) eqn:Ec; [unfold stop; by rewrite Ec, Ew|]. by rewrite (stop_open d Hd Ec), Ew.
  - by apply execute_end_keeps.
Qed.

Lemma debounce_run_keeps l d d' :
  dinv d -> ready_frozen d -> run zero handler delay onError l d = Some d' -> dinv d' /\ ready_frozen d'.
Proof.
  revert d. induction l as [|a l IH]; intros d Hd Hrf; cbn [run]; [intros [= <-]; done|].
  destruct (step zero handler delay onError a d) as [d1|] eqn:E; [|done]. cbn [mbind option_bind].
  destruct (debounce_step_keeps a d d1 Hd Hrf E). by apply IH.
Qed.
(** An invocation that has left the pending slot keeps its last value. *)
Lemma complete_slot_fields slot d :
  nextId (complete_slot zero slot d) = nextId d /\ triggers (complete_slot zero slot d) = triggers d.
Proof. destruct slot as [id|]; [|done]. simpl. unfold complete. by destruct (invs d !! id). Qed.

Lemma stop_fields d :
  (pending (stop zero d) = None \/ pending (stop zero d) = pending d) /\
  nextId (stop zero d) = nextId d /\ triggers (stop zero d) = triggers d.
Proof.
  unfold stop. destruct (closed d); [auto|]. split; [by left|].
  cbn [notify set_slots nextId triggers]. cbv zeta. split; by rewrite !(proj1 (complete_slot_fields _ _)) || rewrite !(proj2 (complete_slot_fields _ _)).
Qed.

Lemma start_fields id d :
  pending (start id d) = pending d /\ nextId (start id d) = nextId d /\ triggers (start id d) = triggers d.
Proof. unfold start. by destruct (invs d !! id). Qed.

Definition settled (id : nat) d : Prop := id < nextId d /\ pending d <> Some id.

Lemma settled_same id d d' :
  (pending d' = None \/ pending d' = pending d) -> nextId d' = nextId d -> triggers d' = triggers d ->
  settled id d -> settled id d' /\ latest id (triggers d') = latest id (triggers d).
Proof.
  intros Hp Hn Ht [H1 H2]. rewrite Ht. unfold settled. rewrite Hn. split; [|done]. split; [done|].
  by destruct Hp as [-> | ->].
Qed.

Lemma Trigger_settled id v d :
  settled id d ->
  settled id (fst (Trigger delay v d)) /\ latest id (triggers (fst (Trigger delay v d))) = latest id (triggers d).
Proof.
  intros [Hlt Hne]. unfold Trigger, settled. destruct (closed d || canceled d); [done|].
  cbn [fst notify pending nextId triggers]. assert (Hid : default (nextId d) (pending d) <> id).
  { destruct (pending d) as [p|]; simpl; [congruence|lia]. }
  split; [split; [destruct (pending d); lia|congruence]|]. unfold latest.
  rewrite filter_app, filter_cons_False by done. simpl. by rewrite app_nil_r.
Qed.

Lemma step_settled id a d d' :
  step zero handler delay onError a d = Some d' -> settled id d ->
  settled id d' /\ latest id (triggers d') = latest id (triggers d).
Proof.
  intros Hs Hid. pose proof (stop_fields d) as (Hp & Hn & Ht).
  destruct a; cbn [step] in Hs.
  - simplify_eq. by apply Trigger_settled.
  - simplify_eq. unfold selectFlush. destruct (closed d || canceled d); [done|].
    destruct (ready d), (pending d) eqn:E; cbn [fst]; try (split; [by rewrite ?E|done]);
      apply settled_same; simpl; auto.
  - simplify_eq. by apply settled_same.
  - simplify_eq. by apply settled_same; simpl; auto.
  - destruct (_ <? 0)%Z; simplify_eq. by apply settled_same; simpl; auto.
  - unfold run_next in Hs. destruct (worker d); [|done..].
    destruct (closed d || canceled d); [simplify_eq; by apply settled_same|].
    destruct (ready d), (pending d) eqn:E; [| | |].
    all: repeat case_match; simplify_eq; try done.
    all: apply settled_same; try done;
      rewrite ?(proj1 (start_fields _ _)), ?(proj1 (proj2 (start_fields _ _))), ?(proj2 (proj2 (start_fields _ _))); simpl; auto.
  - unfold run_wake in Hs. repeat case_match; simplify_eq. by apply settled_same; simpl; auto.
  - unfold run_tick in Hs. repeat case_match; simplify_eq. by apply settled_same; simpl; auto.
  - unfold run_done in Hs. repeat case_match; simplify_eq. by apply settled_same.
  - unfold execute_end in Hs. destruct (worker d) as [| |i|]; [done|done| |done].
    destruct (last (calls d)) as [[? [v ?]]|]; [|done]. simplify_eq.
    apply settled_same; simpl; unfold complete; destruct (invs d !! i); simpl; auto.
Qed.

Lemma run_settled id l d d' :
  run zero handler delay onError l d = Some d' -> settled id d ->
  settled id d' /\ latest id (triggers d') = latest id (triggers d).
Proof.
  revert d. induction l as [|a l IH]; intros d; cbn [run]; [intros [= <-]; done|].
  destruct (step zero handler delay onError a d) as [d1|] eqn:E; [|done]. cbn [mbind option_bind].
  intros Hr Hid. destruct (step_settled id a d d1 E Hid) as [Hid1 <-]. by apply IH.
Qed.
End Invariant.

(** C8: In every state a debouncer can reach, whatever the interleaving of
    triggers, flushes, closing, cancellation and the worker: no invocation is
    completed twice; each is either in exactly one of the pending, frozen and
    running slots or completed; none is handed to the handler twice; a handler
    call got the latest value triggered for its invocation, and unless a flush
    had selected it, the full delay had passed since that trigger; and a
    completed invocation carries its handler's error, or [ErrClosed] when it was
    discarded without a call. *)
Theorem debounce_invocations {T} (zero : T) handler delay onError t l d :
  run zero handler delay onError l (new_debouncer t) = Some d ->
  panicked d = false /\ distinct d /\
  (forall id, id ∈ slots d <-> exists i, invs d !! id = Some i /\ result i = None) /\
  NoDup (calls d).*1 /\
  (forall id v tc, (id, (v, tc)) ∈ calls d ->
     exists t0, latest id (triggers d) = Some (v, t0) /\ (id ∈ frozen d \/ (t0 + delay <= tc)%Z)) /\
  (forall id i e, invs d !! id = Some i -> result i = Some e ->
     (exists k v tc, calls d !! k = Some (id, (v, tc)) /\ e = handler k v) \/
     ((id ∉ (calls d).*1) /\ e = Some ErrClosed)).
Proof.
  intros Hr. destruct (debounce_run_keeps zero handler delay onError l (new_debouncer t) d) as [Hd _];
    [by apply dinv_init|done|done|].
  destruct Hd. split_and!; try done. intros id v tc Hin. by apply (d_calls0 id v tc Hin).
Qed.

(** No wake-up is lost.  Whenever the worker sleeps in its select without a
    token in the wake channel, nothing is frozen and its timer is set to exactly
    the pending invocation's due time; so if nothing else happens, the tick at
    that time makes it call the handler with the latest value. *)
Theorem debounce_wakes {T} (zero : T) handler delay onError t l d tick p :
  run zero handler delay onError l (new_debouncer t) = Some d ->
  worker d = Waiting tick -> wake d = false -> canceled d = false -> pending d = Some p ->
  exists i v t0 d', invs d !! p = Some i /\ latest p (triggers d) = Some (v, t0) /\ ready d = None /\
    tick = Some (due i) /\ due i = (t0 + delay)%Z /\
    run zero handler delay onError [Elapse (Z.max 0 (due i - now d)); TickFires; Next] d = Some d' /\
    running d' = Some p /\ calls d' = calls d ++ [(p, (v, (Z.max (now d) (due i))))].
Proof.
  intros Hr Hw Hwk Hcan Hp.
  destruct (debounce_run_keeps zero handler delay onError l (new_debouncer t) d) as [Hd _];
    [by apply dinv_init|done|done|].
  destruct (d_wake _ _ _ Hd tick Hw Hwk) as (Hcl & Hrd & Htick). rewrite Hp in Htick.
  destruct Htick as (i & Hi & ->).
  destruct (live_slot zero handler delay d p Hd ltac:(by left)) as (i' & Hi' & Hres). simplify_eq.
  destruct (d_value _ _ _ Hd p i Hi Hres) as (t0 & Hlat & Hdue).
  exists i, (value i), t0. unfold run, step, run_tick, run_next, set_worker, start, set_slots.
  destruct (Z.ltb_spec (Z.max 0 (due i - now d)) 0); [lia|].
  cbn [mbind option_bind canceled closed pending ready running invs nextId wake worker now triggers frozen calls
    errors_ panicked]. rewrite Hw.
  destruct (Z.leb_spec (due i) (now d + Z.max 0 (due i - now d))); [|lia].
  cbn [mbind option_bind canceled closed pending ready running invs nextId wake worker now triggers frozen calls
    errors_ panicked].
  rewrite Hcl, Hcan, Hrd, Hp, Hi. cbn [orb].
  destruct (Z.gtb_spec (due i - (now d + Z.max 0 (due i - now d))) 0); [lia|].
  eexists. split_and!; try done. cbn [calls]. repeat f_equal. lia.
Qed.

(** A flush delivers the value that was pending when it was called.  It
    freezes the pending invocation; whatever happens afterwards, no later trigger
    changes the invocation's value, and when the flush returns it is with the
    error of the one handler call that got this value, with [ErrClosed] when the
    invocation was discarded without a call, or with the cause of its own context
    while the invocation is still in its slot. *)
Theorem debounce_flush {T} (zero : T) handler delay onError t l0 d0 id l1 d2 :
  run zero handler delay onError l0 (new_debouncer t) = Some d0 ->
  closed d0 || canceled d0 = false -> pending d0 = Some id -> ready d0 = None ->
  exists d1, Flush_step None Selecting d0 = Some (d1, Awaiting id false) /\
  (run zero handler delay onError l1 d1 = Some d2 ->
   latest id (triggers d2) = latest id (triggers d0) /\
   forall cause d3 f, Flush_step cause (Awaiting id false) d2 = Some (d3, f) -> d3 = d2 /\
     ((exists k v tc t0, calls d2 !! k = Some (id, (v, tc)) /\ latest id (triggers d0) = Some (v, t0) /\
         f = Returned (handler k v)) \/
      ((id ∉ (calls d2).*1) /\ f = Returned (Some ErrClosed)) \/
      (id ∈ slots d2 /\ exists c, cause = Some c /\ f = Returned (Some c)))).
Proof.
  intros Hr0 Hopen Hp Hrd.
  destruct (debounce_run_keeps zero handler delay onError l0 (new_debouncer t) d0) as [Hd0 Hf0];
    [by apply dinv_init|done|done|].
  pose proof (eq_refl (selectFlush d0)) as Hsel. unfold selectFlush in Hsel at 2. rewrite Hopen, Hrd, Hp in Hsel.
  cbn [Flush_step]. rewrite Hsel. eexists. split; [reflexivity|]. intros Hr1.
  set (d1 := notify _) in *.
  assert (Hstep : step zero handler delay onError CallSelectFlush d0 = Some d1) by (cbn [step]; by rewrite Hsel).
  destruct (debounce_step_keeps zero handler delay onError CallSelectFlush d0 d1 Hd0 Hf0 Hstep) as [Hd1 Hf1].
  destruct (debounce_run_keeps zero handler delay onError l1 d1 d2 Hd1 Hf1 Hr1) as [Hd2 _].
  assert (Hset : settled id d1).
  { split; [|done]. destruct (live_slot zero handler delay d0 id Hd0 ltac:(by left)) as (i & Hi & _).
    exact (d_fresh _ _ _ Hd0 id i Hi). }
  destruct (run_settled zero handler delay onError id l1 d1 d2 Hr1 Hset) as [_ Hlat].
  split; [exact Hlat|]. intros cause d3 f Hf.
  destruct (invs d2 !! id) as [i|] eqn:Hi; [|done]. cbn [mbind option_bind] in Hf.
  destruct (result i) as [e|] eqn:Hres; cbn [wait mbind option_bind negb default] in Hf.
  - simplify_eq. split; [done|].
    destruct (d_results _ _ _ Hd2 id i e Hi Hres) as [(k & v & tc & Hk & ->)|[Hn ->]];
      [left|by right; left].
    destruct (d_calls _ _ _ Hd2 id v tc (list_elem_of_lookup_2 _ _ _ Hk)) as ((t0 & Ht0 & _) & _).
    exists k, v, tc, t0. rewrite <- Ht0. split_and!; [done|exact (eq_sym Hlat)|done].
  - destruct cause as [c|]; [|done]. simplify_eq/=. split; [done|]. right. right. split; [|by eauto].
    apply (d_live _ _ _ Hd2). eauto.
Qed.

(** A run in which a second trigger replaces the value of the first; the worker
    sleeps until its due time. *)
Definition demo_actions : list (action nat) :=
  [Next; CallTrigger 1; Wake; Next; Elapse 3; CallTrigger 2; Wake; Next].
Definition demo_end : Debouncer nat :=
  default (new_debouncer 0) (run 0 (fun _ _ => None) 10 true demo_actions (new_debouncer 100)).

Lemma debounce_invocations_witness :
  panicked demo_end = false /\ triggers demo_end = [(0, (1, 100%Z)); (0, (2, 103%Z))] /\ calls demo_end = [].
Proof.
  split; [|done].
  destruct (debounce_invocations 0 (fun _ _ => None) 10 true 100 demo_actions demo_end) as [H _];
    [vm_compute; reflexivity|exact H].
Defined.

Lemma debounce_wakes_witness :
  exists d', run 0 (fun _ _ => None) 10 true [Elapse 10; TickFires; Next] demo_end = Some d' /\
    calls d' = [(0, (2, 113%Z))].
Proof.
  destruct (debounce_wakes 0 (fun _ _ => None) 10 true 100 demo_actions demo_end (Some 113%Z) 0)
    as (i & v & t0 & d' & Hi & Hl & _ & Ht & _ & Hr & _ & Hc); [vm_compute; reflexivity..|].
  exists d'. injection Ht as Ht. rewrite <- Ht in Hr, Hc. vm_compute in Hl. injection Hl as <- <-.
  split; [exact Hr|exact Hc].
Defined.

(** A flush of the pending value while the worker sleeps; a later trigger does
    not change what the handler gets. *)
Definition demo_flush : list (action nat) := [CallTrigger 7; Wake; Next; HandlerReturns].
Definition demo_flushed : Debouncer nat :=
  default (new_debouncer 0) (run 0 (fun _ _ => Some ErrClosed) 10 true
    (demo_actions ++ CallSelectFlush :: demo_flush) (new_debouncer 100)).

Lemma debounce_flush_witness :
  latest 0 (triggers demo_flushed) = Some (2, 103%Z) /\ calls demo_flushed = [(0, (2, 103%Z))] /\
  pending demo_flushed = Some 1.
Proof.
  split; [|split; vm_compute; reflexivity].
  destruct (debounce_flush 0 (fun _ _ => Some ErrClosed) 10 true 100 demo_actions demo_end 0 demo_flush demo_flushed)
    as (d1 & Hf & H); [vm_compute; reflexivity..|].
  destruct H as [-> _]; [|vm_compute; reflexivity].
  vm_compute in Hf. injection Hf as <-. vm_compute. reflexivity.
Defined.
