(* ===== verification/Event.v ===== *)
(** * In-process events: [src/event]

    Subscriptions, serial dispatch, and the worker pool of concurrent dispatch as
    a transition system.  A listener entry is identified by the number it was
    created with, as the code compares pointers; types are numbers. *)

From S2P Require Import Prelude GoErrors.
From stdpp Require Import options.
Set Default Proof Using "Type*".

Definition ErrInvalidContext : error := ErrNew "event: invalid context".
Definition ErrNilEvent : error := ErrNew "event: nil event".

Section Event.
Context {V : Type}.   (* event values *)

(** ** Listeners and middleware *)

(** A handler by what it answers on an event; its context argument only matters
    to the handler itself and is left out. *)
Definition AnyHandler := V -> option error.
Definition Middleware := AnyHandler -> AnyHandler.

(** [for _, item := range slices.Backward(middleware) { next = item(next) }];
    nil items are skipped. *)
Definition chain (middleware : list (option Middleware)) (next : AnyHandler) : AnyHandler :=
  foldl (fun next item => match item with Some m => m next | None => next end) next (reverse middleware).

(** [WithMiddleware] drops nil items and keeps the order. *)
Definition WithMiddleware (items : list (option Middleware)) (c : list Middleware) : list Middleware :=
  foldl (fun c item => match item with Some m => c ++ [m] | None => c end) c items.

(** The options of [New] in order; each is a [WithMiddleware], or nil. *)
Definition newConfig (options : list (option (list (option Middleware)))) : list Middleware :=
  foldl (fun c o => match o with Some items => WithMiddleware items c | None => c end) [] options.

Record listenerEntry := mkEntry { eid : nat; typeOf : nat; handler : AnyHandler }.

(** The definition a listener carries: its type and its handler. *)
Record listenerDefinition := mkDefinition { dType : nat; dHandler : AnyHandler }.

(** ** [dispatcher.go]: registration *)

Record Dispatcher := mkDispatcher {
  listeners : gmap nat (list listenerEntry);
  middleware : list Middleware;
  created : nat        (* entries created so far *)
}.

Definition New (options : list (option (list (option Middleware)))) : Dispatcher :=
  mkDispatcher ∅ (newConfig options) 0.

Record Subscription := mkSubscription { registrations : list listenerEntry; active : bool }.

Definition entries_of (m : gmap nat (list listenerEntry)) (t : nat) : list listenerEntry := default [] (m !! t).

(** The entries of one call, numbered from [n]. *)
Fixpoint make_entries (mw : list Middleware) (n : nat) (ls : list listenerDefinition) : list listenerEntry :=
  match ls with
  | [] => []
  | l :: ls => mkEntry n (dType l) (chain (Some <$> mw) (dHandler l)) :: make_entries mw (S n) ls
  end.

Definition register (m : gmap nat (list listenerEntry)) (e : listenerEntry) : gmap nat (list listenerEntry) :=
  <[typeOf e := entries_of m (typeOf e) ++ [e]]> m.

(** The registration of listeners that are not nil; the middleware returns
    handlers that are not nil. *)
Definition subscribe (ls : list listenerDefinition) (d : Dispatcher) : Dispatcher * Subscription :=
  match ls with
  | [] => (d, mkSubscription [] false)
  | _ =>
      let entries := make_entries (middleware d) (created d) ls in
      (mkDispatcher (foldl register (listeners d) entries) (middleware d) (created d + length ls),
       mkSubscription entries true)
  end.

(** A nil listener panics before anything is registered. *)
Definition Subscribe (ls : list (option listenerDefinition)) (d : Dispatcher)
    : option (Dispatcher * Subscription) :=
  ls ← mapM id ls; Some (subscribe ls d).

(** ** [subscription.go] *)

(** [slices.Delete] of the first entry with the identity [id]. *)
Fixpoint delete_entry (id : nat) (l : list listenerEntry) : list listenerEntry * bool :=
  match l with
  | [] => ([], false)
  | e :: l =>
      if Nat.eqb (eid e) id then (l, true)
      else let '(l, removed) := delete_entry id l in (e :: l, removed)
  end.

Definition unregister (st : gmap nat (list listenerEntry) * bool) (r : listenerEntry)
    : gmap nat (list listenerEntry) * bool :=
  let '(m, removed) := st in
  let '(entries, hit) := delete_entry (eid r) (entries_of m (typeOf r)) in
  (match entries with [] => delete (typeOf r) m | _ => <[typeOf r := entries]> m end, removed || hit).

Definition Unsubscribe (s : Subscription) (d : Dispatcher) : Dispatcher * Subscription * bool :=
  if active s then
    let '(m, removed) := foldl unregister (listeners d, false) (registrations s) in
    (mkDispatcher m (middleware d) (created d), mkSubscription (registrations s) false, removed)
  else (d, s, false).

(** ** [dispatcher.go]: errors *)

(** [errors.Is] between values. *)
Variable (Is : error -> error -> bool).

Definition compactErrors (errs : list (option error)) : list error := omap id errs.

Definition appendContextCause (errs : list (option error)) (cause : option error) : list error :=
  match cause with
  | None => compactErrors errs
  | Some c =>
      if existsb (fun e => match e with Some e => Is e c | None => false end) errs then compactErrors errs
      else compactErrors errs ++ [c]
  end.

Definition joinErrors (errs : list error) : option error :=
  match errs with
  | [] => None
  | [e] => Some e
  | _ => errors_Join (Some <$> errs)
  end.

(** ** [dispatcher.go]: serial dispatch

    Entry [k] checks the context at [2k] and, after its handler, at [2k+1].  The
    result is the error and the entries called. *)
Fixpoint dispatchSerial_loop (ctx : context) (value : V) (entries : list listenerEntry) (k : nat)
    (continueOnError : bool) (errs : list error) (called : list nat) : option error * list nat :=
  match entries with
  | [] => (joinErrors errs, called)
  | entry :: entries =>
      match Cause ctx (2 * k) with
      | Some cause => (joinErrors (appendContextCause (Some <$> errs) (Some cause)), called)
      | None =>
          let called := called ++ [eid entry] in
          match handler entry value with
          | Some err =>
              let errs := errs ++ [err] in
              if negb continueOnError then
                (joinErrors (appendContextCause (Some <$> errs) (Cause ctx (2 * k + 1))), called)
              else match Cause ctx (2 * k + 1) with
                   | Some cause => (joinErrors (appendContextCause (Some <$> errs) (Some cause)), called)
                   | None => dispatchSerial_loop ctx value entries (S k) continueOnError errs called
                   end
          | None =>
              match Cause ctx (2 * k + 1) with
              | Some cause => (joinErrors (appendContextCause (Some <$> errs) (Some cause)), called)
              | None => dispatchSerial_loop ctx value entries (S k) continueOnError errs called
              end
          end
      end
  end.

Definition dispatchSerial (ctx : context) (value : V) (entries : list listenerEntry)
    (continueOnError : bool) : option error * list nat :=
  dispatchSerial_loop ctx value entries 0 continueOnError [] [].

Record dispatchConfig := mkDispatch { concurrency : Z; continueOnError : bool }.

Inductive DispatchOption := WithConcurrency (limit : Z) | ContinueOnError.

Definition applyDispatch (o : DispatchOption) (c : dispatchConfig) : dispatchConfig :=
  match o with
  | WithConcurrency limit => if (limit >? 0)%Z then mkDispatch limit (continueOnError c) else c
  | ContinueOnError => mkDispatch (concurrency c) true
  end.

Definition newDispatchConfig (options : list (option DispatchOption)) : dispatchConfig :=
  foldl (fun c o => match o with Some o => applyDispatch o c | None => c end) (mkDispatch 1 false) options.

(** ** [dispatcher.go]: concurrent dispatch

    A worker's loop has four points another worker can act between: the first
    check of the context ([Checking]), the increment of the shared counter
    ([Claiming]), the check that follows it ([Claimed]) and the start of the
    handler ([Passed]); [Calling] is inside the handler. *)
Inductive wstate :=
  | Checking | Claiming | Claimed (index : nat) | Passed (index : nat) | Calling (index : nat) | Stopped.

#[export] Instance wstate_eq_dec : EqDecision wstate.
Proof. solve_decision. Defined.

Record pool := mkPool {
  nextIndex : nat;                    (* one more than the counter's value *)
  workers : list wstate;
  results : list (option error);
  firstError : option error;
  poolCanceled : bool;                (* the run context was canceled by a failure *)
  calls : list nat                    (* indices in the order their handlers started *)
}.

Definition new_pool (workerCount n : nat) : pool :=
  mkPool 0 (replicate workerCount Checking) (replicate n None) None false [].

Definition set_worker (w : nat) (st : wstate) (p : pool) : pool :=
  mkPool (nextIndex p) (<[w := st]> (workers p)) (results p) (firstError p) (poolCanceled p) (calls p).

(** One move of worker [w]; [ctx_done] is what its check of the caller's context
    sees. *)
Definition pool_step (value : V) (entries : list listenerEntry) (cont : bool) (w : nat) (ctx_done : bool)
    (p : pool) : option pool :=
  let stopped := ctx_done || poolCanceled p in
  match workers p !! w with
  | Some Checking => Some (set_worker w (if stopped then Stopped else Claiming) p)
  | Some Claiming =>
      let index := nextIndex p in
      Some (mkPool (S index) (<[w := Claimed index]> (workers p)) (results p) (firstError p) (poolCanceled p)
              (calls p))
  | Some (Claimed index) =>
      Some (set_worker w (if (length entries <=? index) || stopped then Stopped else Passed index) p)
  | Some (Passed index) =>
      Some (mkPool (nextIndex p) (<[w := Calling index]> (workers p)) (results p) (firstError p)
              (poolCanceled p) (calls p ++ [index]))
  | Some (Calling index) =>
      entry ← entries !! index;
      match handler entry value with
      | None => Some (set_worker w Checking p)
      | Some err =>
          if cont then
            Some (mkPool (nextIndex p) (<[w := Checking]> (workers p)) (<[index := Some err]> (results p))
                    (firstError p) (poolCanceled p) (calls p))
          else
            Some (mkPool (nextIndex p) (<[w := Stopped]> (workers p)) (results p)
                    (match firstError p with Some e => Some e | None => Some err end) true (calls p))
      end
  | _ => None
  end.

Fixpoint pool_run (value : V) (entries : list listenerEntry) (cont : bool) (l : list (nat * bool)) (p : pool)
    : option pool :=
  match l with
  | [] => Some p
  | (w, ctx_done) :: l => p ← pool_step value entries cont w ctx_done p; pool_run value entries cont l p
  end.

(** What [dispatchConcurrent] returns once [workers.Wait] does. *)
Definition pool_result (cont : bool) (ctx_cause : option error) (p : pool) : option error :=
  if cont then joinErrors (appendContextCause (Some <$> omap id (results p)) ctx_cause)
  else joinErrors (appendContextCause [firstError p] ctx_cause).

(** [Dispatch] up to the choice of the strategy: an immediate result, the serial
    run, or the pool it starts. *)
Inductive dispatch := Immediate (err : option error) | Serial (r : option error * list nat) | Concurrent (p : pool).

Definition snapshot (t : nat) (d : Dispatcher) : list listenerEntry := entries_of (listeners d) t.

Definition Dispatch (ctx : option context) (value : option (nat * V)) (options : list (option DispatchOption))
    (d : Dispatcher) : dispatch :=
  match ctx, value with
  | None, _ => Immediate (Some ErrInvalidContext)
  | Some _, None => Immediate (Some ErrNilEvent)
  | Some ctx, Some (t, v) =>
      match Cause ctx 0 with
      | Some cause => Immediate (Some cause)
      | None =>
          let c := newDispatchConfig options in
          let entries := snapshot t d in
          match entries with
          | [] => Immediate None
          | _ =>
              if (concurrency c =? 1)%Z || Nat.eqb (length entries) 1
              then Serial (dispatchSerial (ctx_from ctx 1) v entries (continueOnError c))
              else Concurrent (new_pool (Nat.min (Z.to_nat (concurrency c)) (length entries)) (length entries))
          end
      end
  end.
End Event.

Arguments listenerEntry : clear implicits.
Arguments listenerDefinition : clear implicits.
Arguments Dispatcher : clear implicits.
Arguments Subscription : clear implicits.

(** ** The registry *)

Section Registry.
Context {V : Type}.
Implicit Types (d : Dispatcher V) (l : list (listenerEntry V)).

Definition of_type (t : nat) l : list (listenerEntry V) := filter (fun e => typeOf e = t) l.

(** The map holds the entries [l], per type and in order. *)
Definition holds (m : gmap nat (list (listenerEntry V))) l : Prop :=
  forall t, m !! t = match of_type t l with [] => None | g => Some g end.

Lemma holds_entries m l t : holds m l -> entries_of m t = of_type t l.
Proof. intros Hm. unfold entries_of. rewrite Hm. by destruct (of_type t l). Qed.

Lemma of_type_app t l l' : of_type t (l ++ l') = of_type t l ++ of_type t l'.
Proof. apply filter_app. Qed.

Lemma register_holds m l e : holds m l -> holds (register m e) (l ++ [e]).
Proof.
  intros Hm t. unfold register. rewrite of_type_app, (holds_entries m l _ Hm).
  destruct (decide (typeOf e = t)) as [<-|Hne].
  - rewrite lookup_insert_eq. unfold of_type at 3. rewrite filter_cons_True by done.
    by destruct (of_type (typeOf e) l).
  - rewrite lookup_insert_ne by done. unfold of_type at 2. rewrite filter_cons_False by done.
    by rewrite app_nil_r.
Qed.

Lemma register_all m l es : holds m l -> holds (foldl register m es) (l ++ es).
Proof.
  revert m l. induction es as [|e es IH]; intros m l Hm; simpl; [by rewrite app_nil_r|].
  replace (l ++ e :: es) with ((l ++ [e]) ++ es) by (by rewrite <- (assoc_L (++))).
  by apply IH, register_holds.
Qed.

(** Removing one entry by its identity. *)
Definition without (id : nat) l : list (listenerEntry V) := filter (fun e => eid e <> id) l.

Lemma without_notin id l : id ∉ eid <$> l -> without id l = l.
Proof.
  intros Hn. unfold without. induction l as [|e l IH]; [done|].
  rewrite fmap_cons, not_elem_of_cons in Hn. destruct Hn as [Hne Hn].
  rewrite filter_cons_True by congruence. by rewrite IH.
Qed.

Lemma delete_entry_spec id l :
  NoDup (eid <$> l) ->
  delete_entry id l = (without id l, bool_decide (id ∈ eid <$> l)).
Proof.
  induction l as [|e l IH]; intros Hnd; cbn [delete_entry].
  { by rewrite bool_decide_eq_false_2 by apply not_elem_of_nil. }
  rewrite fmap_cons in *. apply NoDup_cons in Hnd as [Hni Hnd].
  destruct (Nat.eqb_spec (eid e) id) as [<-|Hne].
  - rewrite bool_decide_eq_true_2 by left. unfold without. rewrite filter_cons_False by (intros H; by apply H).
    f_equal. symmetry. by apply without_notin.
  - rewrite IH by done. unfold without. rewrite filter_cons_True by done. f_equal.
    apply bool_decide_ext. rewrite elem_of_cons. intuition congruence.
Qed.

Lemma of_type_without t id l : of_type t (without id l) = without id (of_type t l).
Proof. unfold of_type, without. rewrite !list_filter_filter. apply list_filter_iff. tauto. Qed.

Lemma NoDup_ids_filter (P : listenerEntry V -> Prop) `{forall x, Decision (P x)} l :
  NoDup (eid <$> l) -> NoDup (eid <$> filter P l).
Proof.
  induction l as [|e l IH]; [done|]. rewrite fmap_cons, NoDup_cons. intros [Hni Hnd].
  destruct (decide (P e)); [|rewrite filter_cons_False by done; auto].
  rewrite filter_cons_True by done. rewrite fmap_cons, NoDup_cons. split; [|auto].
  intros Hin. apply Hni. apply list_elem_of_fmap in Hin as (x & -> & Hx).
  apply list_elem_of_fmap. exists x. split; [done|]. by apply list_elem_of_filter in Hx as [_ Hx].
Qed.

(** Removing the entries of a subscription. *)
Definition without_all (rs l : list (listenerEntry V)) : list (listenerEntry V) :=
  filter (fun e => eid e ∉ eid <$> rs) l.

Lemma unregister_holds m l r removed :
  holds m l -> NoDup (eid <$> l) -> r ∈ l ->
  exists m', unregister (m, removed) r = (m', true) /\ holds m' (without (eid r) l).
Proof.
  intros Hm Hnd Hr. unfold unregister. rewrite (holds_entries m l _ Hm).
  rewrite delete_entry_spec by (by apply NoDup_ids_filter).
  assert (Hin : r ∈ of_type (typeOf r) l) by (by apply list_elem_of_filter).
  rewrite bool_decide_eq_true_2 by (apply list_elem_of_fmap; by exists r). rewrite orb_true_r.
  eexists. split; [done|]. intros t. rewrite of_type_without.
  destruct (decide (typeOf r = t)) as [<-|Hne].
  - destruct (without (eid r) (of_type (typeOf r) l)) eqn:E; [by rewrite lookup_delete_eq|].
    by rewrite lookup_insert_eq.
  - assert (Hsame : without (eid r) (of_type t l) = of_type t l).
    { apply without_notin. intros Hx. apply list_elem_of_fmap in Hx as (x & Hx & Hxl).
      apply list_elem_of_filter in Hxl as [Ht Hxl].
      assert (x = r) as ->; [|done]. clear -Hx Hxl Hr Hnd.
      induction l as [|e l IH]; [by apply not_elem_of_nil in Hr|].
      rewrite fmap_cons, NoDup_cons in Hnd. destruct Hnd as [Hni Hnd].
      apply elem_of_cons in Hr as [->|Hr], Hxl as [->|Hxl]; auto; exfalso; apply Hni;
        [rewrite Hx|rewrite <- Hx]; apply list_elem_of_fmap; eauto. }
    rewrite Hsame, <- Hm. by destruct (without (eid r) (of_type (typeOf r) l));
      [rewrite lookup_delete_ne|rewrite lookup_insert_ne].
Qed.

Lemma unregister_all rs m l removed :
  holds m l -> NoDup (eid <$> l) -> (forall r, r ∈ rs -> r ∈ l) -> NoDup (eid <$> rs) ->
  exists m' hit, foldl unregister (m, removed) rs = (m', hit) /\ holds m' (without_all rs l) /\
    hit = removed || match rs with [] => false | _ => true end.
Proof.
  revert m l removed. induction rs as [|r rs IH]; intros m l removed Hm Hnd Hin Hrs; cbn [foldl].
  { exists m, removed. split_and!; [done| |by rewrite orb_false_r]. unfold without_all.
    replace (filter _ l) with l; [done|]. clear. induction l as [|e l IH]; [done|].
    rewrite filter_cons_True by (simpl; apply not_elem_of_nil). by rewrite <- IH. }
  rewrite fmap_cons, NoDup_cons in Hrs. destruct Hrs as [Hni Hrs].
  destruct (unregister_holds m l r removed Hm Hnd (Hin r ltac:(left))) as (m1 & -> & Hm1).
  destruct (IH m1 (without (eid r) l) true Hm1) as (m' & hit & -> & Hm' & ->); [by apply NoDup_ids_filter| |done|].
  { intros r' Hr'. apply list_elem_of_filter. split; [|apply Hin; by right].
    intros E. apply Hni. rewrite <- E. apply list_elem_of_fmap. by exists r'. }
  exists m', true. split_and!; [done| |by rewrite orb_true_r].
  unfold without_all in *. unfold without in Hm'. rewrite list_filter_filter in Hm'.
  replace (filter (fun e => eid e ∉ eid <$> r :: rs) l) with
    (filter (fun e => (eid e ∉ eid <$> rs) /\ eid e <> eid r) l); [done|].
  apply list_filter_iff. intros e. rewrite fmap_cons, not_elem_of_cons. tauto.
Qed.

(** *** Sequences of subscriptions *)

(** The dispatcher with the subscriptions made so far. *)
Inductive reg_op := Sub (ls : list (option (listenerDefinition V))) | Unsub (k : nat).

Definition reg_step (o : reg_op) (st : Dispatcher V * list (Subscription V))
    : Dispatcher V * list (Subscription V) * bool :=
  let '(d, subs) := st in
  match o with
  | Sub ls =>
      match Subscribe ls d with
      | Some (d, s) => (d, subs ++ [s], true)
      | None => (d, subs, false)
      end
  | Unsub k =>
      match subs !! k with
      | Some s => let '(d, s, removed) := Unsubscribe s d in (d, <[k := s]> subs, removed)
      | None => (d, subs, false)
      end
  end.

Definition reg_run (ops : list reg_op) (d : Dispatcher V) : Dispatcher V * list (Subscription V) :=
  foldl (fun st o => fst (reg_step o st)) (d, []) ops.

(** The entries of the active subscriptions, in the order they were made. *)
Definition live_entries (subs : list (Subscription V)) : list (listenerEntry V) :=
  concat (registrations <$> filter (fun s => active s = true) subs).

Record reg_ok (st : Dispatcher V * list (Subscription V)) : Prop := {
  reg_holds : holds (listeners st.1) (live_entries st.2);
  reg_nodup : NoDup (eid <$> concat (registrations <$> st.2));
  reg_fresh : Forall (fun e : listenerEntry V => eid e < created st.1) (concat (registrations <$> st.2));
  reg_active : Forall (fun s => active s = true -> registrations s <> []) st.2
}.

Lemma make_entries_ids mw n (ls : list (listenerDefinition V)) :
  eid <$> make_entries mw n ls = seq n (length ls).
Proof. revert n. induction ls as [|x ls IH]; intros n; simpl; [done|]. by rewrite IH. Qed.

Lemma live_sub subs k s :
  subs !! k = Some s -> active s = true -> NoDup (eid <$> concat (registrations <$> subs)) ->
  live_entries (<[k := mkSubscription (registrations s) false]> subs)
  = without_all (registrations s) (live_entries subs) /\
  (forall r, r ∈ registrations s -> r ∈ live_entries subs).
Proof.
  intros Hk Ha Hnd. rewrite <- (take_drop_middle subs k s Hk) in Hnd |- *.
  set (l := take k subs) in *. set (r := drop (S k) subs) in *.
  assert (Hlen : length l = k) by (apply length_take_le; apply lookup_lt_Some in Hk; lia).
  rewrite <- Hlen at 1. rewrite insert_app_snoc. unfold live_entries.
  rewrite !filter_app, filter_cons_False, filter_cons_True by done.
  rewrite !fmap_app, fmap_cons, !concat_app. simpl concat. unfold without_all.
  assert (Hout : forall subs' : list (Subscription V), (forall x, x ∈ eid <$> concat (registrations <$> subs') -> x ∉ eid <$> registrations s) ->
    filter (fun e => eid e ∉ eid <$> registrations s) (concat (registrations <$> filter (fun y => active y = true) subs'))
    = concat (registrations <$> filter (fun y => active y = true) subs')).
  { clear. intros subs' Hx. induction subs' as [|x subs' IH]; [done|].
    rewrite fmap_cons in Hx. simpl concat in Hx. rewrite fmap_app in Hx.
    assert (IH' := IH ltac:(intros y Hy; apply Hx; rewrite elem_of_app; by right)).
    destruct (decide (active x = true)); [rewrite filter_cons_True by done|by rewrite filter_cons_False by done].
    rewrite fmap_cons. simpl concat. rewrite filter_app, IH'. f_equal.
    clear IH IH'. induction (registrations x) as [|e0 es IHe]; [done|].
    rewrite filter_cons_True.
    - rewrite IHe; [done|]. intros y Hy. apply Hx. rewrite fmap_cons. by right.
    - apply Hx. rewrite fmap_cons. by left. }
  rewrite fmap_app, fmap_cons, concat_app in Hnd. simpl concat in Hnd. rewrite !fmap_app in Hnd.
  apply NoDup_app in Hnd as (_ & Hlr & Hnd). apply NoDup_app in Hnd as (Hns & Hsr & _).
  split.
  - rewrite filter_app, filter_app, (Hout l), (Hout r).
    + f_equal. replace (filter _ (registrations s)) with (@nil (listenerEntry V)); [done|].
      assert (Hall : Forall (fun e => eid e ∈ eid <$> registrations s) (registrations s)).
      { apply Forall_forall. intros e He. apply list_elem_of_fmap. by exists e. }
      revert Hall. generalize (eid <$> registrations s). clear. intros ids.
      induction (registrations s) as [|e es IH]; intros Hall; [done|].
      apply Forall_cons in Hall as [He Hall]. rewrite filter_cons_False by tauto. by apply IH.
    + intros x Hx Hin. by apply (Hsr x).
    + intros x Hx Hin. apply (Hlr x Hx). rewrite elem_of_app. by left.
  - intros e He. rewrite !elem_of_app. by right; left.
Qed.

Lemma live_entries_snoc subs s :
  live_entries (subs ++ [s]) = live_entries subs ++ (if active s then registrations s else []).
Proof.
  unfold live_entries. rewrite filter_app, fmap_app, concat_app. f_equal. destruct (active s) eqn:Ea.
  - rewrite filter_cons_True by done. simpl. by rewrite app_nil_r.
  - by rewrite filter_cons_False by congruence.
Qed.

Lemma live_entries_incl subs e : e ∈ live_entries subs -> e ∈ concat (registrations <$> subs).
Proof.
  unfold live_entries. induction subs as [|s subs IH]; [done|]. rewrite fmap_cons. simpl concat.
  rewrite elem_of_app. destruct (decide (active s = true)).
  - rewrite filter_cons_True, fmap_cons by done. simpl concat. rewrite elem_of_app. tauto.
  - rewrite filter_cons_False by done. tauto.
Qed.

Lemma live_entries_nodup subs :
  NoDup (eid <$> concat (registrations <$> subs)) -> NoDup (eid <$> live_entries subs).
Proof.
  unfold live_entries. induction subs as [|s subs IH]; [done|]. rewrite fmap_cons. simpl concat.
  rewrite fmap_app, NoDup_app. intros (H1 & H2 & H3). destruct (decide (active s = true)).
  - rewrite filter_cons_True, fmap_cons by done. simpl concat. rewrite fmap_app, NoDup_app.
    split_and!; [done| |by apply IH]. intros x Hx Hin. apply (H2 x Hx).
    apply list_elem_of_fmap in Hin as (e0 & -> & He). apply list_elem_of_fmap. exists e0.
    split; [done|]. by apply live_entries_incl.
  - rewrite filter_cons_False by done. by apply IH.
Qed.

Lemma registrations_nodup (subs : list (Subscription V)) k s :
  subs !! k = Some s -> NoDup (eid <$> concat (registrations <$> subs)) -> NoDup (eid <$> registrations s).
Proof.
  intros Hk Hnd. rewrite <- (take_drop_middle subs k s Hk) in Hnd.
  rewrite fmap_app, fmap_cons, concat_app in Hnd. simpl concat in Hnd. rewrite !fmap_app in Hnd.
  apply NoDup_app in Hnd as (_ & _ & Hnd). by apply NoDup_app in Hnd as (? & _).
Qed.

Lemma reg_step_ok o st : reg_ok st -> reg_ok (fst (reg_step o st)).
Proof.
  destruct st as [d subs]. intros [Hh Hnd Hfr Hac]. simpl in *. destruct o as [ls|k]; cbn [reg_step].
  - unfold Subscribe. destruct (mapM id ls) as [ls'|]; [|done]. cbn [mbind option_bind]. clear ls.
    destruct ls' as [|l0 ls]; cbn [subscribe fst].
    { constructor; cbn [fst snd]; rewrite ?fmap_app, ?concat_app; simpl; rewrite ?app_nil_r; try done.
      - rewrite live_entries_snoc. simpl. by rewrite app_nil_r.
      - apply Forall_app. split; [done|]. by repeat constructor. }
    set (es := make_entries (middleware d) (created d) (l0 :: ls)).
    assert (Hids : eid <$> es = seq (created d) (length (l0 :: ls))) by apply make_entries_ids.
    assert (Hcat : concat (registrations <$> subs ++ [mkSubscription es true])
                   = concat (registrations <$> subs) ++ es)
      by (rewrite fmap_app, concat_app; simpl; by rewrite app_nil_r).
    constructor; cbn [fst snd listeners created].
    + rewrite live_entries_snoc. simpl active. by apply register_all.
    + rewrite Hcat, fmap_app, Hids. apply NoDup_app. split_and!; [done| |apply NoDup_seq].
      intros x Hx Hin. apply elem_of_seq in Hin. apply list_elem_of_fmap in Hx as (e0 & -> & He).
      rewrite Forall_forall in Hfr. specialize (Hfr e0 He). lia.
    + rewrite Hcat, Forall_app. split.
      * eapply Forall_impl; [done|]. simpl. intros. lia.
      * apply Forall_forall. intros e0 He.
        assert (Hin : eid e0 ∈ eid <$> es) by (apply list_elem_of_fmap; by exists e0).
        rewrite Hids in Hin. apply elem_of_seq in Hin. lia.
    + apply Forall_app. split; [done|]. by repeat constructor.
  - destruct (subs !! k) as [s|] eqn:Hk; [|done]. unfold Unsubscribe. destruct (active s) eqn:Ea.
    2: { cbn [fst]. rewrite list_insert_id by done. done. }
    destruct (live_sub subs k s Hk Ea Hnd) as [Hlive Hin].
    assert (Hcat : registrations <$> <[k := mkSubscription (registrations s) false]> subs = registrations <$> subs).
    { rewrite list_fmap_insert. simpl. apply list_insert_id. by rewrite list_lookup_fmap, Hk. }
    assert (Hrs := registrations_nodup subs k s Hk Hnd).
    destruct (unregister_all (registrations s) (listeners d) (live_entries subs) false Hh
      (live_entries_nodup subs Hnd) Hin Hrs) as (m' & hit & -> & Hm' & _).
    cbn [fst]. constructor; cbn [fst snd listeners created]; rewrite ?Hcat; try done.
    + by rewrite Hlive.
    + apply Forall_insert; [done|]. by simpl.
Qed.

Lemma reg_run_ok ops mw : reg_ok (reg_run ops (New mw)).
Proof.
  unfold reg_run. assert (H0 : reg_ok (New mw, [])) by (constructor; simpl; try done; by apply NoDup_nil).
  revert H0. generalize (New mw, @nil (Subscription V)) as st.
  induction ops as [|o ops IH]; intros st Hst; simpl; [done|]. by apply IH, reg_step_ok.
Qed.
End Registry.

(** After any sequence of subscriptions and unsubscriptions, the listeners
    an event type is dispatched to are exactly the ones of the subscriptions
    that are still active, in the order they were registered; unsubscribing
    reports true exactly on an active subscription, so a second call reports
    false and changes nothing. *)
Theorem event_registry {V} ops mw (d : Dispatcher V) subs :
  reg_run ops (New mw) = (d, subs) ->
  (forall t, snapshot t d = of_type t (live_entries subs)) /\
  (forall k s, subs !! k = Some s -> snd (reg_step (Unsub k) (d, subs)) = active s) /\
  (forall k s, subs !! k = Some s -> active s = false -> fst (reg_step (Unsub k) (d, subs)) = (d, subs)).
Proof.
  intros Hr. pose proof (reg_run_ok ops mw) as Hok. rewrite Hr in Hok. destruct Hok as [Hh Hnd Hfr Hac].
  simpl in *. split_and!.
  - intros t. by apply holds_entries.
  - intros k s Hk. rewrite Hk. unfold Unsubscribe. destruct (active s) eqn:Ea; [|done].
    destruct (live_sub subs k s Hk Ea Hnd) as [_ Hin].
    assert (Hrs := registrations_nodup subs k s Hk Hnd).
    destruct (unregister_all (registrations s) (listeners d) (live_entries subs) false Hh
      (live_entries_nodup subs Hnd) Hin Hrs) as (m' & hit & -> & _ & ->). simpl.
    rewrite Forall_forall in Hac. specialize (Hac s (list_elem_of_lookup_2 _ _ _ Hk) Ea).
    by destruct (registrations s).
  - intros k s Hk Ha. rewrite Hk. unfold Unsubscribe. rewrite Ha. simpl. by rewrite list_insert_id.
Qed.

Lemma event_registry_witness :
  let h : @AnyHandler nat := fun _ => None in
  let ops := [Sub [Some (mkDefinition 1 h); Some (mkDefinition 2 h)]; Sub [Some (mkDefinition 1 h)]; Unsub 0] in
  eid <$> snapshot 1 (fst (reg_run ops (New []))) = [2].
Proof.
  intros h ops. destruct (reg_run ops (New [])) as [d subs] eqn:E. cbn [fst].
  destruct (event_registry ops [] d subs E) as [H _]. rewrite H.
  assert (Hs : subs = snd (reg_run ops (New []))) by (by rewrite E). rewrite Hs. reflexivity.
Defined.

(** ** The worker pool *)

Section Pool.
Context {V : Type} (value : V) (entries : list (listenerEntry V)) (cont : bool).
Local Abbreviation n := (length entries).
Local Abbreviation step := (pool_step value entries cont).
Local Abbreviation run := (pool_run value entries cont).

(** The index a worker has claimed and not started the handler of, and the index
    it is busy with at all. *)
Definition pending (st : wstate) : list nat :=
  match st with Claimed i | Passed i => [i] | _ => [] end.

Definition busy_with (i : nat) (st : wstate) : Prop :=
  match st with Claimed j | Passed j | Calling j => j = i | _ => False end.

(** The indices that have left the counter: started, or claimed by a worker. *)
Definition held (p : pool) : list nat := calls p ++ (workers p ≫= pending).

(** What holds whenever the callers look: an index leaves the counter once, the
    error kept is one a handler returned. *)
Record pool_ok (k : nat) (p : pool) : Prop := {
  po_workers : length (workers p) = k;
  po_results : length (results p) = n;
  po_held : NoDup (held p);
  po_below : Forall (fun i => i < nextIndex p) (held p);
  po_range : Forall (fun i => i < n) (calls p);
  po_passed : forall w i, workers p !! w = Some (Passed i) -> i < n;
  po_calling : forall w i, workers p !! w = Some (Calling i) -> i ∈ calls p;
  po_values : forall i x o, entries !! i = Some x -> results p !! i = Some o -> o = None \/ o = handler x value;
  po_first : forall e, firstError p = Some e ->
    exists i x, i ∈ calls p /\ entries !! i = Some x /\ handler x value = Some e;
  po_canceled : poolCanceled p = true <-> firstError p <> None;
  po_cont : cont = true -> poolCanceled p = false
}.

(** Moving one worker moves what it has claimed. *)
Lemma pending_moved (ws : list wstate) w st0 st : ws !! w = Some st0 ->
  Permutation (pending st0 ++ (<[w := st]> ws ≫= pending)) (pending st ++ (ws ≫= pending)).
Proof using Type. apply bind_insert_perm. Qed.

Lemma pending_claimed (ws : list wstate) w i : ws !! w = Some (Claimed i) -> i ∈ ws ≫= pending.
Proof using Type.
  intros Hw. apply list_elem_of_bind. exists (Claimed i). split; [by left|by eapply list_elem_of_lookup_2].
Qed.

Lemma passed_other (p : pool) w st m :
  (forall w' i, workers p !! w' = Some (Passed i) -> i < m) -> (forall i, st = Passed i -> i < m) ->
  forall w' i, <[w := st]> (workers p) !! w' = Some (Passed i) -> i < m.
Proof using Type.
  intros H1 H2 w' i Hw. apply list_lookup_insert_Some in Hw as [(_ & E & _)|[_ Hw]]; [by apply H2|by eapply H1].
Qed.

Lemma calling_other (p : pool) w st (l : list nat) :
  (forall w' i, workers p !! w' = Some (Calling i) -> i ∈ l) -> (forall i, st = Calling i -> i ∈ l) ->
  forall w' i, <[w := st]> (workers p) !! w' = Some (Calling i) -> i ∈ l.
Proof using Type.
  intros H1 H2 w' i Hw. apply list_lookup_insert_Some in Hw as [(_ & E & _)|[_ Hw]]; [by apply H2|by eapply H1].
Qed.

(** A move that neither claims an index nor starts a handler. *)
Lemma set_worker_ok k p w st0 st rs :
  pool_ok k p -> workers p !! w = Some st0 -> submseteq (pending st) (pending st0) ->
  (forall i, st = Passed i -> i < n) -> (forall i, st <> Calling i) ->
  length rs = n ->
  (forall i x o, entries !! i = Some x -> rs !! i = Some o -> o = None \/ o = handler x value) ->
  pool_ok k (mkPool (nextIndex p) (<[w := st]> (workers p)) rs (firstError p) (poolCanceled p) (calls p)).
Proof.
  intros [Hw Hr Hh Hb Hn Hp Hcg Hv Hf Hca Hco] Hst Hsub HP HC Hlen Hval.
  assert (Hsm : submseteq (calls p ++ (<[w := st]> (workers p) ≫= pending)) (held p)).
  { apply submseteq_skips_l. apply (submseteq_app_inv_l _ _ (pending st0)).
    rewrite (pending_moved _ _ _ st Hst). by apply submseteq_skips_r. }
  apply submseteq_Permutation in Hsm as [rest Hsm].
  constructor; cbn [workers results calls nextIndex firstError poolCanceled]; rewrite ?length_insert; try done.
  - rewrite Hsm in Hh. by apply NoDup_app in Hh as [? _].
  - rewrite Hsm in Hb. by apply Forall_app in Hb as [? _].
  - by apply passed_other.
  - apply calling_other; [done|]. intros i E. by destruct (HC i).
Qed.

Lemma claim_ok k p w :
  pool_ok k p -> workers p !! w = Some Claiming ->
  pool_ok k (mkPool (S (nextIndex p)) (<[w := Claimed (nextIndex p)]> (workers p)) (results p) (firstError p)
               (poolCanceled p) (calls p)).
Proof.
  intros [Hw Hr Hh Hb Hn Hp Hcg Hv Hf Hca Hco] Hst.
  assert (Hpm : Permutation (calls p ++ (<[w := Claimed (nextIndex p)]> (workers p) ≫= pending)) (nextIndex p :: held p)).
  { pose proof (pending_moved _ _ _ (Claimed (nextIndex p)) Hst) as H. cbn [pending app] in H.
    rewrite H. symmetry. apply Permutation_middle. }
  constructor; cbn [workers results calls nextIndex firstError poolCanceled]; rewrite ?length_insert; try done.
  - unfold held at 1; cbn [calls workers]. rewrite Hpm. constructor; [|done]. intros Hin.
    rewrite Forall_forall in Hb. specialize (Hb _ Hin). simpl in Hb. lia.
  - unfold held; cbn [calls workers]. rewrite Hpm. constructor; [lia|]. eapply Forall_impl; [exact Hb|]. simpl. lia.
  - by apply passed_other.
  - by apply calling_other.
Qed.

Lemma start_ok k p w index :
  pool_ok k p -> workers p !! w = Some (Passed index) ->
  pool_ok k (mkPool (nextIndex p) (<[w := Calling index]> (workers p)) (results p) (firstError p)
               (poolCanceled p) (calls p ++ [index])).
Proof.
  intros [Hw Hr Hh Hb Hn Hp Hcg Hv Hf Hca Hco] Hst.
  assert (Hpm : Permutation ((calls p ++ [index]) ++ (<[w := Calling index]> (workers p) ≫= pending)) (held p)).
  { pose proof (pending_moved _ _ _ (Calling index) Hst) as H. cbn [pending app] in H.
    rewrite <- app_assoc. by apply Permutation_app_head. }
  constructor; cbn [workers results calls nextIndex firstError poolCanceled]; rewrite ?length_insert; try done.
  - unfold held; cbn [calls workers]. by rewrite Hpm.
  - unfold held; cbn [calls workers]. by rewrite Hpm.
  - apply Forall_app_2; [done|]. constructor; [by eapply Hp|constructor].
  - by apply passed_other.
  - apply calling_other; [|intros i [= <-]; rewrite elem_of_app; right; by left].
    intros w' i Hi. rewrite elem_of_app. left. by eapply Hcg.
  - intros e He. destruct (Hf e He) as (i & x & Hi & Hx). exists i, x. rewrite elem_of_app. by split; [left|].
Qed.

Lemma fail_ok k p w index x err :
  pool_ok k p -> workers p !! w = Some (Calling index) -> entries !! index = Some x ->
  handler x value = Some err -> cont = false ->
  pool_ok k (mkPool (nextIndex p) (<[w := Stopped]> (workers p)) (results p)
               (match firstError p with Some e => Some e | None => Some err end) true (calls p)).
Proof.
  intros Hok Hst Hx Hh Hcont. assert (Hm : pool_ok k (set_worker w Stopped p)).
  { eapply set_worker_ok; [done|done|done|done|done|apply Hok|apply Hok]. }
  pose proof Hm as [Hw Hr Hnd Hb Hn Hp Hcg Hv Hf Hca Hco]. constructor; try done; cbn [firstError poolCanceled calls].
  - intros e He. destruct (firstError p) as [e0|] eqn:E0; [by apply Hf; cbn; congruence|].
    injection He as <-. exists index, x. split; [by eapply (po_calling k p Hok)|done].
  - split; [|done]. intros _. by destruct (firstError p).
  - congruence.
Qed.

Lemma pool_step_ok k w b p p' : pool_ok k p -> step w b p = Some p' -> pool_ok k p'.
Proof.
  intros Hp. pose proof (po_results k p Hp) as Hr. pose proof (po_values k p Hp) as Hv. unfold pool_step.
  destruct (workers p !! w) as [[| |index|index|index|]|] eqn:Hwk; [| | | | |done|done].
  - intros [= <-]. destruct (b || poolCanceled p); by eapply set_worker_ok.
  - intros [= <-]. by apply claim_ok.
  - intros [= <-]. destruct (Nat.leb_spec n index) as [Hn|Hn]; cbn [orb];
      [by eapply set_worker_ok; [..|apply submseteq_nil_l| | | |]|].
    destruct (b || poolCanceled p); eapply set_worker_ok; try done; [apply submseteq_nil_l|]. by intros i [= <-].
  - intros [= <-]. by apply start_ok.
  - destruct (entries !! index) as [x|] eqn:Hx; [|done]. cbn [mbind option_bind].
    destruct (handler x value) as [err|] eqn:Hh; [destruct cont eqn:Hcont|]; intros [= <-].
    + eapply set_worker_ok; try done; [by rewrite length_insert|].
      intros i y o Hy Ho. apply list_lookup_insert_Some in Ho as [(<- & <- & _)|[_ Ho]]; [right; congruence|by eapply Hv].
    + by eapply fail_ok.
    + by eapply set_worker_ok.
Qed.

(** What holds while no check has seen the caller's context done. *)
Record pool_open (p : pool) : Prop := {
  pp_served : forall i x, i < nextIndex p -> entries !! i = Some x ->
    (i ∈ calls p /\ if cont then results p !! i = Some (handler x value) else handler x value = None) \/
    exists (w : nat) st, workers p !! w = Some st /\ busy_with i st;
  pp_stopped : forall w : nat, workers p !! w = Some Stopped -> n <= nextIndex p
}.

Lemma holder_moved (p : pool) w st0 st i :
  workers p !! w = Some st0 -> (busy_with i st0 -> busy_with i st) ->
  (exists (w' : nat) s, workers p !! w' = Some s /\ busy_with i s) ->
  exists (w' : nat) s, <[w := st]> (workers p) !! w' = Some s /\ busy_with i s.
Proof using Type.
  intros Hw Himp (w' & s & Hw' & Hs). destruct (decide (w = w')) as [<-|Hne].
  - exists w, st. rewrite list_lookup_insert_eq by (by eapply lookup_lt_Some). split; [done|]. apply Himp. congruence.
  - exists w', s. by rewrite list_lookup_insert_ne.
Qed.

Lemma stopped_other (p : pool) w st (m : Prop) :
  (forall w' : nat, workers p !! w' = Some Stopped -> m) -> (st = Stopped -> m) ->
  forall w' : nat, <[w := st]> (workers p) !! w' = Some Stopped -> m.
Proof using Type.
  intros H1 H2 w' Hw. apply list_lookup_insert_Some in Hw as [(_ & E & _)|[_ Hw]]; [by apply H2|by eapply H1].
Qed.

(** A move between two points that hold the same index, or none. *)
Lemma open_moved p w st0 st :
  pool_open p -> workers p !! w = Some st0 -> (forall i, i < n -> busy_with i st0 -> busy_with i st) ->
  (st = Stopped -> n <= nextIndex p) -> pool_open (set_worker w st p).
Proof.
  intros [Hs Hst] Hw Hh Hn. constructor; cbn [set_worker workers results calls nextIndex]; [|by apply stopped_other].
  intros i x Hi Hx. destruct (Hs i x Hi Hx) as [H|H]; [by left|right].
  eapply holder_moved; [done| |done]. apply Hh. by eapply lookup_lt_Some.
Qed.

Lemma claim_open p w :
  pool_open p -> workers p !! w = Some Claiming ->
  pool_open (mkPool (S (nextIndex p)) (<[w := Claimed (nextIndex p)]> (workers p)) (results p) (firstError p)
               (poolCanceled p) (calls p)).
Proof.
  intros [Hs Hst] Hw. constructor; cbn [workers results calls nextIndex].
  - intros i x Hi Hx. destruct (decide (i = nextIndex p)) as [->|Hne].
    + right. exists w, (Claimed (nextIndex p)). rewrite list_lookup_insert_eq by (by eapply lookup_lt_Some). done.
    + destruct (Hs i x ltac:(lia) Hx) as [H|H]; [by left|right]. by eapply holder_moved.
  - intros w' Hw'. assert (Hd : n <= nextIndex p); [|lia]. revert w' Hw'. by apply stopped_other.
Qed.

Lemma start_open p w index :
  pool_open p -> workers p !! w = Some (Passed index) ->
  pool_open (mkPool (nextIndex p) (<[w := Calling index]> (workers p)) (results p) (firstError p)
               (poolCanceled p) (calls p ++ [index])).
Proof.
  intros [Hs Hst] Hw. constructor; cbn [workers results calls nextIndex]; [|by apply stopped_other].
  intros i x Hi Hx. destruct (Hs i x Hi Hx) as [[H1 H2]|H]; [left; by rewrite elem_of_app; auto|right].
  by eapply holder_moved.
Qed.

(** The handler of [index] returned, and what it returned is where it belongs. *)
Lemma return_open p w index rs :
  pool_open p -> workers p !! w = Some (Calling index) -> index ∈ calls p ->
  (forall x, entries !! index = Some x ->
     if cont then rs !! index = Some (handler x value) else handler x value = None) ->
  (forall i, i <> index -> rs !! i = results p !! i) ->
  pool_open (mkPool (nextIndex p) (<[w := Checking]> (workers p)) rs (firstError p) (poolCanceled p) (calls p)).
Proof.
  intros [Hs Hst] Hw Hin Hx Hrs. constructor; cbn [workers results calls nextIndex]; [|by apply stopped_other].
  intros i y Hi Hy. destruct (decide (i = index)) as [->|Hne].
  { left. split; [done|]. by apply Hx. }
  rewrite Hrs by done.
  destruct (Hs i y Hi Hy) as [H|H]; [by left|right]. eapply holder_moved; [done| |done]. simpl. congruence.
Qed.

Lemma pool_step_open k w p p' :
  pool_ok k p -> pool_open p -> poolCanceled p' = false -> step w false p = Some p' -> pool_open p'.
Proof.
  intros Hok Ho Hcan. unfold pool_step.
  destruct (workers p !! w) as [[| |index|index|index|]|] eqn:Hwk; [| | | | |done|done]; cbn [orb].
  - destruct (poolCanceled p) eqn:Ec; intros [= <-]; [by simpl in Hcan; congruence|]. by eapply open_moved.
  - intros [= <-]. by apply claim_open.
  - destruct (poolCanceled p) eqn:Ec; intros [= <-]; [by simpl in Hcan; congruence|]. rewrite orb_false_r.
    assert (Hlt := po_below k p Hok). rewrite Forall_forall in Hlt. specialize (Hlt index). simpl in Hlt.
    destruct (Nat.leb_spec n index) as [Hn|Hn]; eapply open_moved; try done; simpl; [lia|].
    intros _. assert (Hi : index < nextIndex p); [|lia].
    apply Hlt, elem_of_app. right. by eapply pending_claimed.
  - intros [= <-]. by apply start_open.
  - assert (Hin := po_calling k p Hok w index Hwk). assert (Hlt := po_range k p Hok).
    rewrite Forall_forall in Hlt. specialize (Hlt _ Hin). simpl in Hlt.
    destruct (entries !! index) as [x|] eqn:Hx; [|done]. cbn [mbind option_bind].
    destruct (handler x value) as [err|] eqn:Hh; [destruct cont eqn:Hcont|]; intros [= <-]; [|done|].
    + eapply return_open; try done; [|intros i Hi; by rewrite list_lookup_insert_ne]. intros y Hy.
      rewrite Hcont, list_lookup_insert_eq by (by rewrite (po_results k p Hok)). congruence.
    + eapply return_open; try done. intros y Hy. replace y with x by congruence. destruct cont; [|done].
      destruct (lookup_lt_is_Some_2 (results p) index) as [o E]; [by rewrite (po_results k p Hok)|].
      destruct (po_values k p Hok index x o Hx E) as [->| ->]; congruence.
Qed.

Lemma pool_step_canceled w b p p' : step w b p = Some p' -> poolCanceled p' = false -> poolCanceled p = false.
Proof.
  unfold pool_step. destruct (workers p !! w) as [[| |index|index|index|]|]; [| | | | |done|done];
    [by intros [= <-]..|]. destruct (entries !! index) as [x|]; [|done]. cbn [mbind option_bind].
  destruct (handler x value); [destruct cont|]; by intros [= <-].
Qed.

(** The indices whose handler may still start once the run is over: those whose
    worker is past its checks. *)
Definition passed (st : wstate) : list nat := match st with Passed i => [i] | _ => [] end.

Lemma passed_moved (ws : list wstate) w st0 st : ws !! w = Some st0 ->
  Permutation (passed st0 ++ (<[w := st]> ws ≫= passed)) (passed st ++ (ws ≫= passed)).
Proof using Type. apply bind_insert_perm. Qed.

(** A move whose check, if it makes one, sees the run over. *)
Lemma pool_step_over w b p p' :
  step w b p = Some p' -> b || poolCanceled p = true ->
  exists started, calls p' = calls p ++ started /\
    Permutation (started ++ (workers p' ≫= passed)) (workers p ≫= passed).
Proof.
  intros Hs Hd. unfold pool_step in Hs. rewrite Hd in Hs.
  destruct (workers p !! w) as [st0|] eqn:Hwk; [|done].
  pose proof (fun st => passed_moved (workers p) w st0 st Hwk) as Hm.
  destruct st0 as [| |index|index|index|]; [exists []| exists [] | exists [] |exists [index]|exists []|done].
  1-4: rewrite ?orb_true_r in Hs; injection Hs as <-; cbn [set_worker calls workers]; rewrite ?app_nil_r; split; [done|]; exact (Hm _).
  destruct (entries !! index) as [x|]; [|done]. cbn [mbind option_bind] in Hs.
  destruct (handler x value); [destruct cont|]; injection Hs as <-; cbn [set_worker calls workers];
    rewrite ?app_nil_r; (split; [done|]; exact (Hm _)).
Qed.

Lemma pool_step_stays_canceled w b p p' : step w b p = Some p' -> poolCanceled p = true -> poolCanceled p' = true.
Proof. intros Hs Hc. destruct (poolCanceled p') eqn:E; [done|]. apply (pool_step_canceled _ _ _ _ Hs) in E. congruence. Qed.

Lemma pool_run_over l p p' :
  run l p = Some p' -> poolCanceled p = true \/ Forall (fun s => snd s = true) l ->
  exists started, calls p' = calls p ++ started /\
    Permutation (started ++ (workers p' ≫= passed)) (workers p ≫= passed).
Proof.
  revert p. induction l as [|[w b] l IH]; intros p; cbn [pool_run].
  { intros [= ->] _. exists []. by rewrite app_nil_r. }
  destruct (step w b p) as [p1|] eqn:E; [|done]. cbn [mbind option_bind]. intros Hr Hd.
  assert (H1 : b || poolCanceled p = true).
  { destruct Hd as [->|Hd]; [apply orb_true_r|]. apply Forall_cons in Hd as [Hb _]. simpl in Hb. by rewrite Hb. }
  assert (H2 : poolCanceled p1 = true \/ Forall (fun s => snd s = true) l).
  { destruct Hd as [Hd|Hd]; [left; by eapply pool_step_stays_canceled|right; by apply Forall_cons in Hd as [_ ?]]. }
  destruct (pool_step_over _ _ _ _ E H1) as (s1 & E1 & Hp1).
  destruct (IH p1 Hr H2) as (s2 & E2 & Hp2). exists (s1 ++ s2). split; [by rewrite E2, E1, app_assoc|].
  rewrite <- app_assoc, Hp2. exact Hp1.
Qed.

(** *** Runs *)

Lemma new_workers k : (replicate k Checking ≫= pending) = [].
Proof using Type. induction k; simpl; auto. Qed.

Lemma new_pool_ok k : pool_ok k (new_pool k n).
Proof.
  constructor; unfold held; simpl; rewrite ?length_replicate, ?new_workers; try done; try (by constructor).
  - intros w i Hw. apply lookup_replicate in Hw as [? _]. done.
  - intros w i Hw. apply lookup_replicate in Hw as [? _]. done.
  - intros i x o _ Ho. apply lookup_replicate in Ho as [-> _]. by left.
Qed.

Lemma new_pool_open k : pool_open (new_pool k n).
Proof.
  constructor; simpl; [lia|]. intros w Hw. apply lookup_replicate in Hw as [? _]. done.
Qed.

Lemma pool_run_ok k l p p' : pool_ok k p -> run l p = Some p' -> pool_ok k p'.
Proof.
  revert p. induction l as [|[w b] l IH]; intros p Hp; simpl; [by intros [= <-]|].
  destruct (step w b p) as [p1|] eqn:E; [|done]. cbn [mbind option_bind]. intros Hr.
  eapply IH; [|exact Hr]. by eapply pool_step_ok.
Qed.

Lemma pool_run_canceled l p p' : run l p = Some p' -> poolCanceled p' = false -> poolCanceled p = false.
Proof.
  revert p. induction l as [|[w b] l IH]; intros p; simpl; [by intros [= <-]|].
  destruct (step w b p) as [p1|] eqn:E; [|done]. cbn [mbind option_bind]. intros Hr Hc.
  eapply pool_step_canceled; [done|]. by eapply IH.
Qed.

Lemma pool_run_open k l p p' :
  pool_ok k p -> pool_open p -> Forall (fun s => snd s = false) l -> run l p = Some p' ->
  poolCanceled p' = false -> pool_open p'.
Proof.
  revert p. induction l as [|[w b] l IH]; intros p Hp Ho Hl; simpl; [by intros [= <-]|].
  apply Forall_cons in Hl as [Hb Hl]. simpl in Hb. subst b.
  destruct (step w false p) as [p1|] eqn:E; [|done]. cbn [mbind option_bind]. intros Hr Hc.
  eapply IH; [by eapply pool_step_ok| |done|done|done].
  eapply pool_step_open; [done|done| |done]. by eapply pool_run_canceled.
Qed.

(** A measure every move decreases. *)
Definition weight (st : wstate) : nat :=
  match st with
  | Checking => 3 | Claiming => 2 | Claimed i => if n <=? i then 1 else 6 | Passed _ => 5 | Calling _ => 4
  | Stopped => 0
  end.

Definition measure (p : pool) : nat := 5 * (n - nextIndex p) + sum_list_with weight (workers p).

Lemma pool_step_measure w b p p' : step w b p = Some p' -> measure p' < measure p.
Proof.
  unfold pool_step, measure. destruct (workers p !! w) as [st0|] eqn:Hw; [|done].
  assert (Hsum := fun st => sum_list_with_insert weight (workers p) w st0 st Hw).
  destruct st0 as [| |index|index|index|]; [| | | | |done].
  - intros [= <-]. specialize (Hsum (if b || poolCanceled p then Stopped else Claiming)).
    destruct (b || poolCanceled p); simpl in *; lia.
  - intros [= <-]. specialize (Hsum (Claimed (nextIndex p))). simpl in *.
    destruct (Nat.leb_spec n (nextIndex p)); lia.
  - intros [= <-]. simpl in Hsum. destruct (Nat.leb_spec n index); cbn [orb]; [|destruct (b || poolCanceled p)];
      [specialize (Hsum Stopped)|specialize (Hsum Stopped)|specialize (Hsum (Passed index))]; simpl in *; lia.
  - intros [= <-]. specialize (Hsum (Calling index)). simpl in *. lia.
  - destruct (entries !! index) as [x|]; [|done]. cbn [mbind option_bind].
    assert (Hc := Hsum Checking). assert (Hs := Hsum Stopped). simpl in Hc, Hs.
    destruct (handler x value); [destruct cont|]; intros [= <-]; simpl; lia.
Qed.

Lemma pool_run_measure l p p' : run l p = Some p' -> length l + measure p' <= measure p.
Proof.
  revert p. induction l as [|[w b] l IH]; intros p; simpl; [by intros [= <-]|].
  destruct (step w b p) as [p1|] eqn:E; [|done]. cbn [mbind option_bind]. intros Hr.
  specialize (IH p1 Hr). apply pool_step_measure in E. lia.
Qed.

Lemma pool_step_enabled k w b p st :
  pool_ok k p -> workers p !! w = Some st -> st <> Stopped -> exists p', step w b p = Some p'.
Proof.
  intros Hp Hw Hst. unfold pool_step. rewrite Hw. destruct st as [| |index|index|index|]; try by eauto.
  assert (Hlt := po_range k p Hp). rewrite Forall_forall in Hlt.
  destruct (lookup_lt_is_Some_2 entries index) as [x ->]; [by eapply Hlt, po_calling|]. cbn [mbind option_bind].
  destruct (handler x value); [destruct cont|]; eauto.
Qed.

(** The serial loop over an open context that goes on after errors. *)
Lemma serial_collect Is ctx k errs called es :
  (forall j, Cause ctx j = None) ->
  dispatchSerial_loop Is ctx value es k true errs called
  = (joinErrors (errs ++ omap (fun x => handler x value) es), called ++ (eid <$> es)).
Proof.
  intros Hopen. revert k errs called. induction es as [|x es IH]; intros k errs called; cbn [dispatchSerial_loop].
  { simpl. by rewrite !app_nil_r. }
  rewrite !Hopen. rewrite fmap_cons. simpl omap. destruct (handler x value); cbn [negb]; rewrite IH.
  - by rewrite <- !(assoc_L (++)).
  - by rewrite <- !(assoc_L (++)).
Qed.

(** When every worker has stopped and no check saw the context done, every
    handler was called. *)
Lemma pool_finished k p :
  0 < k -> pool_ok k p -> pool_open p -> Forall (eq Stopped) (workers p) ->
  Permutation (calls p) (seq 0 n) /\
  forall i x, entries !! i = Some x -> if cont then results p !! i = Some (handler x value) else handler x value = None.
Proof.
  intros Hk Hok [Hs Hst] Hall.
  destruct (lookup_lt_is_Some_2 (workers p) 0) as [st Hw]; [by rewrite (po_workers k p Hok)|].
  rewrite Forall_lookup in Hall. assert (Hn : n <= nextIndex p).
  { apply (Hst 0). rewrite Hw. f_equal. symmetry. by eapply Hall. }
  assert (Hserved : forall i x, entries !! i = Some x -> i ∈ calls p /\
    if cont then results p !! i = Some (handler x value) else handler x value = None).
  { intros i x Hx. assert (Hl := lookup_lt_Some _ _ _ Hx).
    destruct (Hs i x ltac:(lia) Hx) as [H|(w & s & H & Hh)]; [done|]. by rewrite <- (Hall w _ H) in Hh. }
  split; [|intros i x Hx; by apply Hserved].
  pose proof (po_held k p Hok) as Hnd. apply NoDup_app in Hnd as [Hnd _].
  apply NoDup_Permutation; [done|apply NoDup_seq|]. intros i. rewrite elem_of_seq. split.
  - intros Hi. pose proof (po_range k p Hok) as Hr. rewrite Forall_forall in Hr. specialize (Hr i Hi). simpl in Hr. lia.
  - intros Hi. destruct (lookup_lt_is_Some_2 entries i ltac:(lia)) as [x Hx]. by apply (Hserved i x).
Qed.

(** A worker whose check sees the run over returns. *)
Lemma pool_check_stops w b p p' st :
  workers p !! w = Some st -> (st = Checking \/ exists i, st = Claimed i) ->
  b || poolCanceled p = true -> step w b p = Some p' -> p' = set_worker w Stopped p.
Proof.
  intros Hw Hst Hd. unfold pool_step. rewrite Hw, Hd. destruct Hst as [->|[i ->]]; rewrite ?orb_true_r; by intros [= <-].
Qed.
End Pool.

Lemma newDispatchConfig_positive os : (0 < concurrency (newDispatchConfig os))%Z.
Proof.
  unfold newDispatchConfig. assert (H : (0 < concurrency (mkDispatch 1 false))%Z) by done. revert H.
  generalize (mkDispatch 1 false). induction os as [|[[limit|]|] os IH]; intros c Hc; simpl; auto.
  apply IH. destruct (Z.gtb_spec limit 0); simpl; lia.
Qed.

Lemma Dispatch_concurrent {V} Is ctx t (value : V) options d p0 :
  Dispatch Is ctx (Some (t, value)) options d = Concurrent p0 ->
  exists k, 0 < k /\ (Z.of_nat k <= concurrency (newDispatchConfig options))%Z /\
    p0 = new_pool k (length (snapshot t d)).
Proof.
  unfold Dispatch. destruct ctx as [ctx|]; [|done]. destruct (Cause ctx 0); [done|].
  pose proof (newDispatchConfig_positive options) as Hpos.
  destruct (snapshot t d) as [|x es] eqn:E; [done|]. destruct (_ || _); [done|]. intros [= <-].
  eexists. split_and!; [| |reflexivity]; simpl length; lia.
Qed.

Lemma compactErrors_somes es : compactErrors (Some <$> es) = es.
Proof. induction es as [|e es IH]; [done|]. exact (f_equal (cons e) IH). Qed.

Lemma results_collected {V} (value : V) entries rs :
  length rs = length entries ->
  (forall i x, entries !! i = Some x -> rs !! i = Some (handler x value)) ->
  omap id rs = omap (fun x => handler x value) entries.
Proof.
  revert rs. induction entries as [|x es IH]; intros [|r rs] Hlen H; try done.
  specialize (H 0 x eq_refl) as Hx. simpl in Hx. injection Hx as ->.
  assert (E := IH rs ltac:(simpl in Hlen; lia) (fun i y Hy => H (S i) y Hy)).
  simpl. unfold id at 1. destruct (handler x value); [f_equal|]; exact E.
Qed.

(** C10: For every interleaving of the workers of a concurrent dispatch, in which
    claiming an index, the check that follows and the start of the handler are
    separate moves: each handler is started at most once (in any order); a
    worker whose check of the context sees it done, or the run canceled by a
    failure, returns; once the run is canceled, or every later check sees the
    context done, the only handlers that still start are those of workers
    already past their checks; some worker can always move until all have
    returned, after at most [3 * workers + 5 * handlers] moves.  When all have
    returned and the caller's context stayed open, [Dispatch] with
    [ContinueOnError] has called every handler and returns exactly what the
    serial dispatch of the same handlers returns; without it, it returns nil
    exactly when every handler was called and succeeded, and otherwise the error
    of a handler it called. *)
Theorem event_pool {V} Is ctx t (value : V) options d l p0 p :
  Dispatch Is ctx (Some (t, value)) options d = Concurrent p0 ->
  pool_run value (snapshot t d) (continueOnError (newDispatchConfig options)) l p0 = Some p ->
  let entries := snapshot t d in
  let cont := continueOnError (newDispatchConfig options) in
  let step := pool_step value entries cont in
  (NoDup (calls p) /\ Forall (fun i => i < length entries) (calls p)) /\
  (forall w b p' st, workers p !! w = Some st -> (st = Checking \/ exists i, st = Claimed i) ->
     b || poolCanceled p = true -> step w b p = Some p' -> p' = set_worker w Stopped p) /\
  (forall l' p', pool_run value entries cont l' p = Some p' ->
     poolCanceled p = true \/ Forall (fun s => snd s = true) l' ->
     exists started, calls p' = calls p ++ started /\
       Permutation (started ++ (workers p' ≫= passed)) (workers p ≫= passed)) /\
  (Forall (eq Stopped) (workers p) \/ exists w, forall b, exists p', step w b p = Some p') /\
  length l <= 3 * length (workers p) + 5 * length entries /\
  (Forall (eq Stopped) (workers p) -> Forall (fun s => snd s = false) l ->
   if cont then
     Permutation (calls p) (seq 0 (length entries)) /\
     forall ctx', (forall j, Cause ctx' j = None) ->
       pool_result Is true None p = fst (dispatchSerial Is ctx' value entries true)
   else match pool_result Is false None p with
        | None => Permutation (calls p) (seq 0 (length entries)) /\ Forall (fun x => handler x value = None) entries
        | Some e => exists i x, i ∈ calls p /\ entries !! i = Some x /\ handler x value = Some e
        end).
Proof.
  intros HD Hr entries cont step. destruct (Dispatch_concurrent _ _ _ _ _ _ _ HD) as (k & Hk & _ & ->).
  fold entries cont in Hr.
  pose proof (pool_run_ok value entries cont k l _ p (new_pool_ok value entries cont k) Hr) as Hok.
  split_and!.
  - pose proof (po_held _ _ _ _ _ Hok) as Hnd. by apply NoDup_app in Hnd as [? _].
  - apply Hok.
  - intros w b p' st. apply pool_check_stops.
  - intros l' p'. apply pool_run_over.
  - destruct (decide (Forall (eq Stopped) (workers p))) as [H|H]; [by left|].
    right. apply not_Forall_Exists in H; [|apply _]. apply Exists_exists in H as (st & Hin & Hst).
    apply list_elem_of_lookup in Hin as [w Hw]. exists w. intros b. eapply pool_step_enabled; [done|done|].
    intros ->. by apply Hst.
  - apply pool_run_measure in Hr. unfold measure in Hr. rewrite (po_workers _ _ _ _ _ Hok).
    replace (sum_list_with (weight entries) (workers (new_pool k (length entries)))) with (3 * k) in Hr; [simpl in Hr; lia|].
    simpl. clear. induction k as [|k IH]; simpl; lia.
  - intros Hall Hopen.
    assert (Hfin : poolCanceled p = false -> Permutation (calls p) (seq 0 (length entries)) /\
      forall i x, entries !! i = Some x -> if cont then results p !! i = Some (handler x value) else handler x value = None).
    { intros Hc. eapply pool_finished; [exact Hk|exact Hok| |done].
      by eapply (pool_run_open value entries cont k l); [apply new_pool_ok|apply new_pool_open|done|exact Hr|]. }
    destruct Hok as [_ Hlen _ _ _ _ _ _ Hf Hca Hco]. destruct cont eqn:Econt; unfold pool_result, appendContextCause.
    + destruct Hfin as [Hc Hres]; [by apply Hco|]. split; [done|]. intros ctx' Hctx'.
      unfold dispatchSerial. rewrite serial_collect by done. simpl fst.
      f_equal. rewrite <- (results_collected value entries (results p) Hlen Hres).
      apply compactErrors_somes.
    + simpl. destruct (firstError p) as [e|] eqn:E; simpl; [by apply Hf|].
      destruct Hfin as [Hc Hres].
      { destruct (poolCanceled p); [|done]. by destruct (proj1 Hca eq_refl). }
      split; [done|]. apply Forall_lookup. intros i x Hx. by apply (Hres i).
Qed.

(** Two workers over three handlers, two of which fail; the second handler starts
    before the first. *)
Lemma event_pool_witness :
  let Is := fun _ _ : error => false in
  let ok : @AnyHandler nat := fun _ => None in
  let bad : @AnyHandler nat := fun _ => Some (ErrNew "bad") in
  let d := fst (subscribe [mkDefinition 1 ok; mkDefinition 1 bad; mkDefinition 1 bad] (New [])) in
  let options := [Some (WithConcurrency 2); Some ContinueOnError] in
  let l := (fun w => (w, false)) <$> [0; 0; 1; 1; 1; 1; 1; 0; 0; 0; 0; 0; 0; 0; 0; 0; 0; 0; 1; 1; 1] in
  exists p, pool_run 7 (snapshot 1 d) true l (new_pool 2 3) = Some p /\ calls p = [1; 0; 2] /\
    pool_result Is true None p = fst (dispatchSerial Is Background 7 (snapshot 1 d) true).
Proof.
  intros Is ok bad d options l. eexists. split; [vm_compute; reflexivity|]. split; [reflexivity|].
  refine (proj2 (proj2 (proj2 (proj2 (proj2 (proj2 (event_pool Is (Some Background) 1 7 options d l
    (new_pool 2 3) _ _ _))))) _ _) Background _).
  - vm_compute. reflexivity.
  - vm_compute. reflexivity.
  - vm_compute. repeat constructor.
  - repeat constructor.
  - done.
Defined.
