(* ===== verification/Signal.v ===== *)
(** * Routing of operating-system signals: [src/signal]

    The router as a transition system: callers of [Register], [Run] and
    [Shutdown], the goroutine of [Run] with its receiving loop, one worker per
    registration, the system that delivers signals, and the caller's context.
    Signals are numbers, [None] a nil or incomparable one. *)

From S2P Require Import Prelude GoErrors.
From stdpp Require Import options.
Set Default Proof Using "Type*".

Definition ErrAlreadyStarted : error := ErrNew "signal: router already started or closed".
Definition ErrRegistrationClosed : error := ErrNew "signal: registration closed".
Definition ErrInvalidHandler : error := ErrNew "signal: invalid handler".
Definition ErrInvalidSignal : error := ErrNew "signal: invalid signal".

(** ** State *)

Inductive routerState := routerNew | routerRunning | routerStopping | routerStopped.

(** A worker: not started, in its select, past its receive, in its handler, or
    back. *)
Inductive wstate := NotStarted | Idle | Taken (sig : nat) | Handling (sig : nat) | Gone.

(** [accepted] are the notifications put into the slot, [handled] the ones a
    handler was called for, [lost] the ones taken out without a call. *)
Record registration := mkReg {
  rid : nat;
  signals : list nat;
  pending : option nat;
  worker : wstate;
  accepted : list nat;
  handled : list nat;
  lost : list nat
}.

(** Where the one goroutine in [Run] is. *)
Inductive phase :=
| NotRunning
| Entered                                    (* past its first critical section *)
| Receiving                                  (* top of [receive]'s loop *)
| Selecting                                  (* in its second select *)
| Offering (sig : nat) (rest : list nat)     (* registrations still to offer to *)
| Ended                                      (* [receive] is back *)
| Unsubscribing                              (* past [beginShutdown] *)
| Draining (rest : list nat)                 (* registrations still to drain *)
| Waiting                                    (* in [workers.Wait] *)
| Returned.

Record Router := mkRouter {
  state : routerState;
  regs : list registration;
  stopClosed : bool;
  doneClosed : bool;
  hasCancel : bool;                 (* [r.cancel] is set *)
  canceled : bool;                  (* it was called *)
  ctxErr : option error;            (* what [Run]'s context says *)
  abortErr : option error;
  runErr : option error;
  run : phase;
  subscribed : bool;
  incoming : list nat;
  shutdowns : bool;                 (* some [Shutdown] is past [beginShutdown] *)
  panicked : bool                   (* a channel was closed twice, or a nil function called *)
}.

Definition New : Router :=
  mkRouter routerNew [] false false false false None None None NotRunning false [] false false.

#[export] Instance routerState_eq_dec : EqDecision routerState.
Proof. solve_decision. Defined.

(** The error of the handlers' context, derived from [Run]'s. *)
Definition handlerCtxDone (r : Router) : bool :=
  canceled r || match ctxErr r with Some _ => true | None => false end.

Definition set_regs (rs : list registration) (r : Router) : Router :=
  mkRouter (state r) rs (stopClosed r) (doneClosed r) (hasCancel r) (canceled r) (ctxErr r) (abortErr r)
    (runErr r) (run r) (subscribed r) (incoming r) (shutdowns r) (panicked r).
Definition set_run (p : phase) (r : Router) : Router :=
  mkRouter (state r) (regs r) (stopClosed r) (doneClosed r) (hasCancel r) (canceled r) (ctxErr r) (abortErr r)
    (runErr r) p (subscribed r) (incoming r) (shutdowns r) (panicked r).

(** ** [Register] *)

(** The loop over the signals: nil ones end it with their index, repeated ones
    are collapsed. *)
Fixpoint unique_signals (i : nat) (seen : gset nat) (unique : list nat) (sigs : list (option nat))
    : list nat + nat :=
  match sigs with
  | [] => inl unique
  | None :: _ => inr i
  | Some sig :: sigs =>
      if decide (sig ∈ seen) then unique_signals (S i) seen unique sigs
      else unique_signals (S i) ({[sig]} ∪ seen) (unique ++ [sig]) sigs
  end.

Definition Register (nil_handler : bool) (sigs : list (option nat)) (r : Router) : Router * option error :=
  if negb (bool_decide (state r = routerNew)) then (r, Some ErrRegistrationClosed)
  else if nil_handler then (r, Some ErrInvalidHandler)
  else match sigs with
       | [] => (r, Some ErrInvalidSignal)
       | _ =>
           match unique_signals 0 ∅ [] sigs with
           | inr i => (r, Some (ErrWrapf "at index" ErrInvalidSignal))
           | inl unique =>
               (set_regs (regs r ++ [mkReg (length (regs r) + 1) unique None NotStarted [] [] []]) r, None)
           end
       end.

(** ** [routes] *)

Definition route_sig (k : nat) (st : gmap nat (list nat) * list nat) (sig : nat) : gmap nat (list nat) * list nat :=
  let '(routes, sigs) := st in
  (<[sig := default [] (routes !! sig) ++ [k]]> routes,
   match routes !! sig with Some _ => sigs | None => sigs ++ [sig] end).

(** The routing table over the registrations, named by their position, and the
    signals to subscribe to. *)
Fixpoint routes_loop (k : nat) (st : gmap nat (list nat) * list nat) (rs : list registration)
    : gmap nat (list nat) * list nat :=
  match rs with
  | [] => st
  | reg :: rs => routes_loop (S k) (foldl (route_sig k) st (signals reg)) rs
  end.

Definition routes (rs : list registration) : gmap nat (list nat) * list nat := routes_loop 0 (∅, []) rs.

(** ** [Shutdown] *)

Definition beginShutdown (r : Router) : Router :=
  match state r with
  | routerNew =>
      mkRouter routerStopped (regs r) true true (hasCancel r) (canceled r) (ctxErr r) (abortErr r) (runErr r)
        (run r) (subscribed r) (incoming r) (shutdowns r) (panicked r || stopClosed r || doneClosed r)
  | routerRunning =>
      mkRouter routerStopping (regs r) true (doneClosed r) (hasCancel r) (canceled r) (ctxErr r) (abortErr r)
        (runErr r) (run r) (subscribed r) (incoming r) (shutdowns r) (panicked r || stopClosed r)
  | routerStopping | routerStopped => r
  end.

Definition Shutdown_begin (r : Router) : Router :=
  let r := beginShutdown r in
  mkRouter (state r) (regs r) (stopClosed r) (doneClosed r) (hasCancel r) (canceled r) (ctxErr r) (abortErr r)
    (runErr r) (run r) (subscribed r) (incoming r) true (panicked r).

(** What it returns once [done] is closed. *)
Definition result (r : Router) : option error := runErr r.

(** Its context is done first, with [err]; calling a nil [cancel] panics. *)
Definition Shutdown_abort (err : error) (r : Router) : Router * option error :=
  if bool_decide (state r = routerStopped) then (r, runErr r)
  else
    (mkRouter (state r) (regs r) (stopClosed r) (doneClosed r) (hasCancel r) true (ctxErr r)
       (match abortErr r with Some e => Some e | None => Some err end) (runErr r) (run r) (subscribed r)
       (incoming r) (shutdowns r) (panicked r || negb (hasCancel r)), Some err).

(** ** [Run] *)

Definition Run_enter (r : Router) : Router * option error :=
  if negb (bool_decide (state r = routerNew)) then (r, Some ErrAlreadyStarted)
  else
    (mkRouter routerRunning (regs r) (stopClosed r) (doneClosed r) true (canceled r) (ctxErr r) (abortErr r)
       (runErr r) Entered (subscribed r) (incoming r) (shutdowns r) (panicked r), None).

Definition start_worker (reg : registration) : registration :=
  mkReg (rid reg) (signals reg) (pending reg) Idle (accepted reg) (handled reg) (lost reg).

(** Subscribing and starting the workers. *)
Definition Run_start (r : Router) : option Router :=
  match run r with
  | Entered =>
      let '(_, sigs) := routes (regs r) in
      let sub := match ctxErr r, sigs with None, _ :: _ => true | _, _ => false end in
      Some (mkRouter (state r) (start_worker <$> regs r) (stopClosed r) (doneClosed r) (hasCancel r)
              (canceled r) (ctxErr r) (abortErr r) (runErr r) Receiving sub (incoming r) (shutdowns r)
              (panicked r))
  | _ => None
  end.

(** The system's non-blocking send of a subscribed signal. *)
Definition deliver (sig : nat) (r : Router) : option Router :=
  let '(_, sigs) := routes (regs r) in
  if subscribed r && bool_decide (sig ∈ sigs) then
    Some (mkRouter (state r) (regs r) (stopClosed r) (doneClosed r) (hasCancel r) (canceled r) (ctxErr r)
            (abortErr r) (runErr r) (run r) (subscribed r)
            (if length (incoming r) <? Nat.max 1 (length sigs) then incoming r ++ [sig] else incoming r)
            (shutdowns r) (panicked r))
  else None.

(** [receive]: the two checks, the cases of the select. *)
Definition receive_check (r : Router) : option Router :=
  match run r with
  | Receiving => Some (set_run (if handlerCtxDone r || stopClosed r then Ended else Selecting) r)
  | _ => None
  end.

Definition receive_done (r : Router) : option Router :=
  match run r with
  | Selecting => if handlerCtxDone r || stopClosed r then Some (set_run Ended r) else None
  | _ => None
  end.

Definition receive_signal (r : Router) : option Router :=
  match run r, incoming r with
  | Selecting, sig :: rest =>
      let r := mkRouter (state r) (regs r) (stopClosed r) (doneClosed r) (hasCancel r) (canceled r) (ctxErr r)
                 (abortErr r) (runErr r) (run r) (subscribed r) rest (shutdowns r) (panicked r) in
      Some (set_run (Offering sig (default [] (fst (routes (regs r)) !! sig))) r)
  | _, _ => None
  end.

(** [reg.pending <- sig] on the channel of capacity one, or the warning. *)
Definition put (sig : nat) (reg : registration) : registration :=
  match pending reg with
  | None => mkReg (rid reg) (signals reg) (Some sig) (worker reg) (accepted reg ++ [sig]) (handled reg) (lost reg)
  | Some _ => reg
  end.

Definition offer (k sig : nat) (r : Router) : Router :=
  if negb (bool_decide (state r = routerRunning)) || handlerCtxDone r then r
  else set_regs (alter (put sig) k (regs r)) r.

Definition receive_offer (r : Router) : option Router :=
  match run r with
  | Offering sig (k :: rest) => Some (set_run (Offering sig rest) (offer k sig r))
  | Offering sig [] => Some (set_run Receiving r)
  | _ => None
  end.

(** The end of [Run]. *)
Definition Run_stop (r : Router) : option Router :=
  match run r with
  | Ended => Some (set_run Unsubscribing (beginShutdown r))
  | _ => None
  end.

Definition Run_unsubscribe (r : Router) : option Router :=
  match run r with
  | Unsubscribing =>
      Some (mkRouter (state r) (regs r) (stopClosed r) (doneClosed r) (hasCancel r) (canceled r) (ctxErr r)
              (abortErr r) (runErr r) (Draining (seq 0 (length (regs r)))) false (incoming r) (shutdowns r)
              (panicked r))
  | _ => None
  end.

Definition drain (reg : registration) : registration :=
  mkReg (rid reg) (signals reg) None (worker reg) (accepted reg) (handled reg)
    (lost reg ++ match pending reg with Some sig => [sig] | None => [] end).

Definition Run_drain (r : Router) : option Router :=
  match run r with
  | Draining (k :: rest) => Some (set_run (Draining rest) (set_regs (alter drain k (regs r)) r))
  | Draining [] => Some (set_run Waiting r)
  | _ => None
  end.

Definition gone (reg : registration) : bool := match worker reg with Gone => true | _ => false end.

(** [workers.Wait], the last critical section, and the deferred [cancel]. *)
Definition Run_finish (r : Router) : option Router :=
  match run r with
  | Waiting =>
      if forallb gone (regs r) then
        Some (mkRouter routerStopped (regs r) (stopClosed r) true (hasCancel r) true (ctxErr r) (abortErr r)
                (errors_Join [ctxErr r; abortErr r]) Returned (subscribed r) (incoming r) (shutdowns r)
                (panicked r || doneClosed r))
      else None
  | _ => None
  end.

(** ** [work] *)

Definition set_worker (w : wstate) (reg : registration) : registration :=
  mkReg (rid reg) (signals reg) (pending reg) w (accepted reg) (handled reg) (lost reg).

(** The cases of its select, the admission, and the handler's return. *)
Definition work_stop (k : nat) (r : Router) : option Router :=
  reg ← regs r !! k;
  match worker reg with
  | Idle => if stopClosed r then Some (set_regs (<[k := set_worker Gone reg]> (regs r)) r) else None
  | _ => None
  end.

Definition work_take (k : nat) (r : Router) : option Router :=
  reg ← regs r !! k;
  match worker reg, pending reg with
  | Idle, Some sig =>
      Some (set_regs (<[k := mkReg (rid reg) (signals reg) None (Taken sig) (accepted reg) (handled reg)
                               (lost reg)]> (regs r)) r)
  | _, _ => None
  end.

Definition work_admit (k : nat) (r : Router) : option Router :=
  reg ← regs r !! k;
  match worker reg with
  | Taken sig =>
      Some (set_regs (<[k :=
        if bool_decide (state r = routerRunning) && negb (handlerCtxDone r)
        then mkReg (rid reg) (signals reg) (pending reg) (Handling sig) (accepted reg) (handled reg ++ [sig]) (lost reg)
        else mkReg (rid reg) (signals reg) (pending reg) Gone (accepted reg) (handled reg) (lost reg ++ [sig])]>
        (regs r)) r)
  | _ => None
  end.

(** The handler returns, or panics and is recovered. *)
Definition handle_end (k : nat) (r : Router) : option Router :=
  reg ← regs r !! k;
  match worker reg with
  | Handling _ => Some (set_regs (<[k := set_worker Idle reg]> (regs r)) r)
  | _ => None
  end.

(** ** Interleavings *)

Inductive action :=
| CallRegister (nil_handler : bool) (sigs : list (option nat))
| CallRun | CallShutdown | AbortShutdown (err : error) | CancelContext (err : error)
| Deliver (sig : nat)
| RunStart | ReceiveCheck | ReceiveDone | ReceiveSignal | ReceiveOffer
| RunStop | RunUnsubscribe | RunDrain | RunFinish
| WorkStop (k : nat) | WorkTake (k : nat) | WorkAdmit (k : nat) | HandleEnd (k : nat).

Definition step (a : action) (r : Router) : option Router :=
  match a with
  | CallRegister nh sigs => Some (fst (Register nh sigs r))
  | CallRun => Some (fst (Run_enter r))
  | CallShutdown => Some (Shutdown_begin r)
  | AbortShutdown err => if shutdowns r then Some (fst (Shutdown_abort err r)) else None
  | CancelContext err =>
      Some (mkRouter (state r) (regs r) (stopClosed r) (doneClosed r) (hasCancel r) (canceled r)
              (match ctxErr r with Some e => Some e | None => Some err end) (abortErr r)
              (runErr r) (run r) (subscribed r) (incoming r) (shutdowns r) (panicked r))
  | Deliver sig => deliver sig r
  | RunStart => Run_start r
  | ReceiveCheck => receive_check r
  | ReceiveDone => receive_done r
  | ReceiveSignal => receive_signal r
  | ReceiveOffer => receive_offer r
  | RunStop => Run_stop r
  | RunUnsubscribe => Run_unsubscribe r
  | RunDrain => Run_drain r
  | RunFinish => Run_finish r
  | WorkStop k => work_stop k r
  | WorkTake k => work_take k r
  | WorkAdmit k => work_admit k r
  | HandleEnd k => handle_end k r
  end.

Fixpoint steps (l : list action) (r : Router) : option Router :=
  match l with
  | [] => Some r
  | a :: l => r ← step a r; steps l r
  end.

(** ** Routing *)

(** The registrations that listen to a signal, in order. *)
Definition listening (sig : nat) (k : nat) (rs : list registration) : list nat :=
  fst <$> filter (fun p => sig ∈ signals p.2) (zip (seq k (length rs)) rs).

(** The table [st] lists [l] per signal, and subscribes to exactly its keys. *)
Definition table_ok (f : nat -> list nat) (st : gmap nat (list nat) * list nat) : Prop :=
  (forall sig, fst st !! sig = match f sig with [] => None | l => Some l end) /\
  NoDup (snd st) /\ (forall sig, sig ∈ snd st <-> f sig <> []).

Lemma table_ok_ext f g st : (forall sig, f sig = g sig) -> table_ok f st -> table_ok g st.
Proof.
  intros H (H1 & H2 & H3). split_and!; [|done|].
  - intros sig. rewrite <- H. apply H1.
  - intros sig. rewrite <- H. apply H3.
Qed.

Lemma route_sig_ok k f st sig :
  table_ok f st -> table_ok (fun s => f s ++ (if decide (s = sig) then [k] else [])) (route_sig k st sig).
Proof.
  destruct st as [m sigs]. intros (H1 & H2 & H3). simpl in *. unfold route_sig. split_and!; cbn [fst snd].
  - intros s. destruct (decide (s = sig)) as [->|Hne].
    + rewrite lookup_insert_eq, H1. by destruct (f sig).
    + rewrite lookup_insert_ne by done. by rewrite H1, app_nil_r.
  - rewrite H1. destruct (f sig) eqn:E; [|done]. apply NoDup_app. split_and!; [done| |apply NoDup_singleton].
    intros x Hx Hin. apply list_elem_of_singleton in Hin as ->. by apply H3 in Hx.
  - intros s. rewrite H1. destruct (decide (s = sig)) as [->|Hne].
    + split; [intros _; by destruct (f sig)|]. intros _. destruct (f sig) eqn:E.
      * rewrite elem_of_app. right. by left.
      * apply H3. by rewrite E.
    + rewrite app_nil_r, <- H3. destruct (f sig); [|done]. rewrite elem_of_app, list_elem_of_singleton. tauto.
Qed.

Lemma route_sigs_ok k f st sigs :
  NoDup sigs -> table_ok f st ->
  table_ok (fun s => f s ++ (if decide (s ∈ sigs) then [k] else [])) (foldl (route_sig k) st sigs).
Proof.
  revert f st. induction sigs as [|x sigs IH]; intros f st Hnd Hst; cbn [foldl].
  { eapply table_ok_ext; [|exact Hst]. intros s. rewrite decide_False by apply not_elem_of_nil. by rewrite app_nil_r. }
  apply NoDup_cons in Hnd as [Hx Hnd]. eapply table_ok_ext; [|exact (IH _ _ Hnd (route_sig_ok k f st x Hst))].
  intros s. cbv beta. rewrite <- (assoc_L (++)). f_equal. destruct (decide (s = x)) as [->|Hne].
  - rewrite (decide_False (P := x ∈ sigs)) by done. by rewrite decide_True by left.
  - destruct (decide (s ∈ sigs)); [by rewrite decide_True by (by right)|].
    rewrite decide_False; [done|]. by intros [?|?]%elem_of_cons.
Qed.

Lemma listening_cons sig k reg rs :
  listening sig k (reg :: rs) = (if decide (sig ∈ signals reg) then [k] else []) ++ listening sig (S k) rs.
Proof.
  unfold listening. simpl length. cbn [seq zip zip_with]. destruct (decide (sig ∈ signals reg)).
  - by rewrite filter_cons_True.
  - by rewrite filter_cons_False.
Qed.

Lemma routes_loop_ok rs k f st :
  Forall (fun reg => NoDup (signals reg)) rs -> table_ok f st ->
  table_ok (fun sig => f sig ++ listening sig k rs) (routes_loop k st rs).
Proof.
  revert k f st. induction rs as [|reg rs IH]; intros k f st Hnd Hst; cbn [routes_loop].
  { eapply table_ok_ext; [|exact Hst]. intros s. by rewrite app_nil_r. }
  apply Forall_cons in Hnd as [Hreg Hnd].
  eapply table_ok_ext; [|exact (IH (S k) _ _ Hnd (route_sigs_ok k f st _ Hreg Hst))].
  intros s. cbv beta. by rewrite listening_cons, <- (assoc_L (++)).
Qed.

Lemma routes_ok rs :
  Forall (fun reg => NoDup (signals reg)) rs -> table_ok (fun sig => listening sig 0 rs) (routes rs).
Proof.
  intros Hnd. apply (routes_loop_ok rs 0 (fun _ => []) (∅, []) Hnd).
  split_and!; [done|apply NoDup_nil; done|]. intros sig. split; [intros H; by apply not_elem_of_nil in H|done].
Qed.

Lemma elem_of_listening sig k0 k rs :
  k ∈ listening sig k0 rs <-> k0 <= k /\ exists reg, rs !! (k - k0) = Some reg /\ sig ∈ signals reg.
Proof.
  revert k0. induction rs as [|reg rs IH]; intros k0.
  { split; [intros H; by apply not_elem_of_nil in H|intros (_ & ? & ? & _); done]. }
  rewrite listening_cons, elem_of_app, IH. split.
  - intros [H|(Hle & reg' & Hl & Hs)].
    + destruct (decide _); [|by apply not_elem_of_nil in H]. apply list_elem_of_singleton in H as ->.
      split; [done|]. exists reg. by rewrite Nat.sub_diag.
    + split; [lia|]. exists reg'. replace (k - k0) with (S (k - S k0)) by lia. done.
  - intros (Hle & reg' & Hl & Hs). destruct (decide (k = k0)) as [->|Hne].
    + rewrite Nat.sub_diag in Hl. simplify_eq/=. rewrite decide_True by done. left. by left.
    + right. split; [lia|]. exists reg'. replace (k - k0) with (S (k - S k0)) in Hl by lia. done.
Qed.

Lemma length_listening sig k rs : length (listening sig k rs) <= length rs.
Proof.
  revert k. induction rs as [|reg rs IH]; intros k; [done|]. rewrite listening_cons, length_app.
  specialize (IH (S k)). simpl. destruct (decide _); simpl; lia.
Qed.

(** [Register] keeps the first occurrence of each signal. *)
Lemma unique_signals_ok i seen unique sigs us :
  unique_signals i seen unique sigs = inl us ->
  (forall x, x ∈ seen <-> x ∈ unique) -> NoDup unique ->
  NoDup us /\ (forall x, x ∈ us <-> x ∈ unique \/ Some x ∈ sigs) /\ None ∉ sigs.
Proof.
  revert i seen unique. induction sigs as [|[x|] sigs IH]; intros i seen unique; cbn [unique_signals]; [| |done].
  - intros [= <-] _ Hnd. split_and!; [done| |apply not_elem_of_nil]. intros x. split; [by left|].
    intros [?|H]; [done|]. by apply not_elem_of_nil in H.
  - destruct (decide (x ∈ seen)) as [Hin|Hout]; intros Hu Hs Hnd.
    + destruct (IH _ _ _ Hu Hs Hnd) as (H1 & H2 & H3). split_and!; [done| |by rewrite not_elem_of_cons].
      intros y. rewrite H2, elem_of_cons. apply Hs in Hin. split; [tauto|].
      intros [?|[[= ->]|?]]; auto.
    + destruct (IH _ _ _ Hu) as (H1 & H2 & H3).
      { intros y. rewrite elem_of_union, elem_of_singleton, elem_of_app, list_elem_of_singleton, Hs. tauto. }
      { apply NoDup_app. split_and!; [done| |apply NoDup_singleton]. intros y Hy Hin.
        apply list_elem_of_singleton in Hin as ->. by apply Hout, Hs. }
      split_and!; [done| |by rewrite not_elem_of_cons]. intros y.
      rewrite H2, elem_of_app, list_elem_of_singleton, elem_of_cons.
      split; [intros [[?| ->]|?]; auto|intros [?|[[= ->]|?]]; auto].
Qed.

(** ** Invariant *)

(** No handler may start any more. *)
Definition halted (r : Router) : Prop := state r <> routerRunning \/ handlerCtxDone r = true.

Definition taken (reg : registration) : list nat := match worker reg with Taken sig => [sig] | _ => [] end.
Definition waiting (reg : registration) : list nat := match pending reg with Some sig => [sig] | None => [] end.

Record reg_ok (h : Prop) (reg : registration) : Prop := {
  ro_nodup : NoDup (signals reg);
  ro_sigs : Forall (fun sig => sig ∈ signals reg) (accepted reg);
  ro_split : exists rest, accepted reg = handled reg ++ rest /\ rest ≡ₚ lost reg ++ taken reg ++ waiting reg;
  ro_order : lost reg = [] -> accepted reg = handled reg ++ taken reg ++ waiting reg;
  ro_halted : lost reg <> [] \/ worker reg = Gone -> h;
  ro_new : worker reg = NotStarted -> lost reg = [] /\ pending reg = None
}.

Definition in_progress (r : Router) : Prop := state r = routerRunning \/ state r = routerStopping.
Definition all_new (r : Router) : Prop := Forall (fun reg => worker reg = NotStarted) (regs r).
Definition all_started (r : Router) : Prop := Forall (fun reg => worker reg <> NotStarted) (regs r).

Definition phase_ok (r : Router) : Prop :=
  match run r with
  | NotRunning => (state r = routerNew \/ state r = routerStopped) /\ all_new r /\ subscribed r = false
  | Entered => in_progress r /\ all_new r /\ subscribed r = false
  | Receiving | Selecting | Ended => in_progress r /\ all_started r
  | Offering sig rest =>
      in_progress r /\ all_started r /\
      Forall (fun k => exists reg, regs r !! k = Some reg /\ sig ∈ signals reg) rest
  | Unsubscribing => state r = routerStopping /\ all_started r
  | Draining rest =>
      state r = routerStopping /\ all_started r /\ subscribed r = false /\
      (forall k reg, regs r !! k = Some reg -> k ∉ rest -> pending reg = None)
  | Waiting =>
      state r = routerStopping /\ all_started r /\ subscribed r = false /\
      Forall (fun reg => pending reg = None) (regs r)
  | Returned =>
      state r = routerStopped /\ subscribed r = false /\
      Forall (fun reg => worker reg = Gone /\ pending reg = None) (regs r)
  end.

Record sinv (r : Router) : Prop := {
  s_panic : panicked r = false;
  s_stop : stopClosed r = match state r with routerNew | routerRunning => false | _ => true end;
  s_done : doneClosed r = match state r with routerStopped => true | _ => false end;
  s_cancel : in_progress r -> hasCancel r = true;
  s_shut : shutdowns r = true -> stopClosed r = true;
  s_ids : forall k reg, regs r !! k = Some reg -> rid reg = S k;
  s_regs : Forall (reg_ok (halted r)) (regs r);
  s_phase : phase_ok r
}.

Lemma reg_ok_impl (h h' : Prop) reg : (h -> h') -> reg_ok h reg -> reg_ok h' reg.
Proof. intros H []. constructor; auto. Qed.

Lemma regs_ok_impl (h h' : Prop) rs : (h -> h') -> Forall (reg_ok h) rs -> Forall (reg_ok h') rs.
Proof. intros H Hf. eapply Forall_impl; [exact Hf|]. intros reg. by apply reg_ok_impl. Qed.

(** Workers that were not started are untouched. *)
Lemma regs_ok_new (h h' : Prop) rs :
  Forall (fun reg => worker reg = NotStarted) rs -> Forall (reg_ok h) rs -> Forall (reg_ok h') rs.
Proof.
  intros Hn Hr. rewrite Forall_forall in *. intros reg Hin. specialize (Hn reg Hin).
  destruct (Hr reg Hin) as [? ? ? ? ? Hnew]. constructor; auto.
  destruct (Hnew Hn) as [-> _]. rewrite Hn. by intros [?|?].
Qed.

Lemma sinv_New : sinv New.
Proof.
  constructor; cbn [New panicked stopClosed doneClosed hasCancel shutdowns regs state]; try done.
  - by intros [?|?].
  - split_and!; [by left|constructor|done].
Qed.

(** A change of one registration by its worker or by [Run]. *)
Lemma sinv_update r k reg reg' :
  sinv r -> regs r !! k = Some reg -> rid reg' = rid reg -> signals reg' = signals reg ->
  reg_ok (halted r) reg' -> worker reg <> NotStarted -> worker reg' <> NotStarted ->
  (worker reg = Gone -> worker reg' = Gone) ->
  (pending reg = None -> pending reg' = None) \/ (exists sig rest, run r = Offering sig rest) ->
  sinv (set_regs (<[k := reg']> (regs r)) r).
Proof.
  intros [Hpa Hst Hdo Hca Hsh Hid Hre Hph] Hk Hrid Hsig Hok Hns Hns' Hg Hp. constructor; try done; cbn [set_regs regs].
  - intros k' x Hx. apply list_lookup_insert_Some in Hx as [(<- & <- & _)|[_ Hx]]; [|by apply Hid].
    rewrite Hrid. by apply Hid.
  - by apply Forall_insert.
  - assert (Hnot : ~ all_new r).
    { intros Hn. unfold all_new in Hn. rewrite Forall_lookup in Hn. by apply Hns, (Hn k). }
    unfold phase_ok in *. cbn [set_regs run]. destruct (run r) eqn:Erun;
      try (destruct Hp as [Hp|(? & ? & ?)]; [|done]); [tauto|tauto|..].
    all: unfold in_progress, all_started in *; cbn [set_regs state regs subscribed].
    1,2,4,5: destruct Hph as [H1 H2]; split; [done|by apply Forall_insert].
    + destruct Hph as (H1 & H2 & H3). split_and!; [done|by apply Forall_insert|].
      eapply Forall_impl; [exact H3|]. intros k' (x & Hx & Hin).
      destruct (decide (k' = k)) as [->|Hne].
      * exists reg'. rewrite list_lookup_insert_eq by (by eapply lookup_lt_Some). split; [done|]. rewrite Hsig. by simplify_eq.
      * exists x. by rewrite list_lookup_insert_ne.
    + destruct Hph as (H1 & H2 & H3 & H4). split_and!; [done|by apply Forall_insert|done|].
      intros k' x Hx Hin. apply list_lookup_insert_Some in Hx as [(<- & <- & _)|[_ Hx]]; [|by eapply H4].
      apply Hp. by eapply H4.
    + destruct Hph as (H1 & H2 & H3 & H4). split_and!; [done|by apply Forall_insert|done|].
      apply Forall_insert; [done|]. apply Hp. rewrite Forall_lookup in H4. by eapply H4.
    + destruct Hph as (H1 & H3 & H4). split_and!; [done|done|]. apply Forall_insert; [done|].
      rewrite Forall_lookup in H4. destruct (H4 k reg Hk). auto.
Qed.

(** A worker whose phase forbids it from having been started cannot move. *)
Lemma reg_at r k reg : sinv r -> regs r !! k = Some reg -> reg_ok (halted r) reg.
Proof. intros Hr Hk. pose proof (s_regs r Hr) as H. rewrite Forall_lookup in H. by eapply H. Qed.

Lemma started_of r k reg : sinv r -> regs r !! k = Some reg -> worker reg <> NotStarted -> all_started r.
Proof.
  intros Hr Hk Hns. pose proof (s_phase r Hr) as Hp. unfold phase_ok in Hp.
  assert (Hnot : ~ all_new r) by (intros Hn; unfold all_new in Hn; rewrite Forall_lookup in Hn; by apply Hns, (Hn k)).
  destruct (run r); try tauto. destruct Hp as (_ & _ & Hp). unfold all_started.
  eapply Forall_impl; [exact Hp|]. by intros x [-> _].
Qed.

Lemma work_keeps k r r' a :
  a ∈ [WorkStop k; WorkTake k; WorkAdmit k; HandleEnd k] -> sinv r -> step a r = Some r' -> sinv r'.
Proof.
  intros Ha Hr Hs.
  assert (Hk : exists reg, regs r !! k = Some reg).
  { repeat (apply elem_of_cons in Ha as [->|Ha]); [| | | |by apply not_elem_of_nil in Ha]; cbn [step] in Hs;
      unfold work_stop, work_take, work_admit, handle_end in Hs; destruct (regs r !! k); eauto; done. }
  destruct Hk as [reg Hk]. destruct (reg_at r k reg Hr Hk) as [Hnd Hsg (rest & Hac & Hpm) Hor Hha Hne].
  repeat (apply elem_of_cons in Ha as [->|Ha]); [| | | |by apply not_elem_of_nil in Ha]; cbn [step] in Hs;
    unfold work_stop, work_take, work_admit, handle_end in Hs; rewrite Hk in Hs; cbn [mbind option_bind] in Hs.
  - destruct (worker reg) eqn:Ew; try done. destruct (stopClosed r) eqn:Est; [|done]. simplify_eq.
    assert (Hh : halted r).
    { left. intros E. pose proof (s_stop r Hr) as H. by rewrite E, Est in H. }
    eapply sinv_update; [done|done|done|done| |by rewrite Ew|done|done|by left].
    unfold taken in *. rewrite Ew in Hor, Hpm. constructor; try done. by exists rest.
  - destruct (worker reg) eqn:Ew; try done. destruct (pending reg) as [sig|] eqn:Ep; [|done]. simplify_eq.
    unfold taken, waiting in *. rewrite Ew, Ep in *.
    eapply sinv_update; [done|done|done|done| |by rewrite Ew|done|by rewrite Ew|by left].
    constructor; try done. { by exists rest. } intros [?|?]; [by apply Hha; left|done].
  - destruct (worker reg) as [| |sig| |] eqn:Ew; try done. simplify_eq.
    unfold taken, waiting in *. rewrite Ew in *.
    eapply sinv_update; [done|done| | | |by rewrite Ew| |by rewrite Ew|].
    all: destruct (bool_decide (state r = routerRunning) && negb (handlerCtxDone r)) eqn:Ead; try done; try by left.
    + apply andb_true_iff in Ead as [Hrun Hc]. apply bool_decide_eq_true in Hrun. apply negb_true_iff in Hc.
      assert (Hl : lost reg = []).
      { destruct (lost reg); [done|]. exfalso. destruct Hha as [?|?]; [by left|done|congruence]. }
      specialize (Hor Hl). constructor; cbn [signals accepted handled lost worker pending]; try done.
      * exists (waiting reg). unfold waiting, taken. rewrite Hl. simpl. by rewrite Hor, <- (assoc_L (++)).
      * intros _. rewrite Hor. by rewrite <- (assoc_L (++)).
      * intros [?|?]; done.
    + assert (Hh : halted r).
      { apply andb_false_iff in Ead as [E|E]; [left; by apply bool_decide_eq_false in E|right; by apply negb_false_iff in E]. }
      constructor; cbn [signals accepted handled lost worker pending]; try done.
      * exists rest. split; [done|]. rewrite Hpm. unfold taken, waiting. simpl. by rewrite <- (assoc_L (++)).
      * by destruct (lost reg).
  - destruct (worker reg) as [| | |sig|] eqn:Ew; try done. simplify_eq. unfold taken, waiting in *. rewrite Ew in *.
    eapply sinv_update; [done|done|done|done| |by rewrite Ew|done|by rewrite Ew|by left].
    constructor; try done. { by exists rest. } intros [?|?]; [by apply Hha; left|done].
Qed.

(** Only the place of [Run] changes. *)
Lemma sinv_phase p r : sinv r -> phase_ok (set_run p r) -> sinv (set_run p r).
Proof. intros [] Hp. constructor; try done. Qed.

Lemma receive_keeps a r r' :
  a ∈ [ReceiveCheck; ReceiveDone; ReceiveSignal] -> sinv r -> step a r = Some r' -> sinv r'.
Proof.
  intros Ha Hr Hs. pose proof (s_phase r Hr) as Hp. unfold phase_ok in Hp.
  repeat (apply elem_of_cons in Ha as [->|Ha]); [| | |by apply not_elem_of_nil in Ha]; cbn [step] in Hs.
  - unfold receive_check in Hs. destruct (run r) eqn:E; try done. simplify_eq. apply sinv_phase; [done|].
    by destruct (handlerCtxDone r || stopClosed r).
  - unfold receive_done in Hs. destruct (run r) eqn:E; try done.
    destruct (handlerCtxDone r || stopClosed r); simplify_eq. by apply sinv_phase.
  - unfold receive_signal in Hs. destruct (run r) eqn:E; try done. destruct (incoming r) as [|sig rest]; [done|].
    simplify_eq. cbn [regs set_run]. destruct Hr as [? ? ? ? ? Hid Hre _]. constructor; try done.
    destruct Hp as [Hpr Hst]. split_and!; [done|done|]. cbn [set_run regs].
    assert (Hnd : Forall (fun reg => NoDup (signals reg)) (regs r)).
    { eapply Forall_impl; [exact Hre|]. by intros x []. }
    destruct (routes_ok (regs r) Hnd) as (Hroute & _). rewrite Hroute.
    apply Forall_forall. intros k Hk.
    assert (Hk' : k ∈ listening sig 0 (regs r)) by (by destruct (listening sig 0 (regs r))).
    apply elem_of_listening in Hk' as (_ & reg & Hreg & Hsig). rewrite Nat.sub_0_r in Hreg. eauto.
Qed.

Lemma alter_at {A} (f : A -> A) (k : nat) (l : list A) x : l !! k = Some x -> alter f k l = <[k := f x]> l.
Proof.
  revert k. induction l as [|y l IH]; intros [|k] H; try done.
  - by injection H as ->.
  - exact (f_equal (cons y) (IH k H)).
Qed.

Lemma alter_none {A} (f : A -> A) (k : nat) (l : list A) : l !! k = None -> alter f k l = l.
Proof.
  revert k. induction l as [|y l IH]; intros [|k] H; try done. exact (f_equal (cons y) (IH k H)).
Qed.

Lemma offer_keeps k sig rest r :
  sinv r -> run r = Offering sig (k :: rest) -> sinv (set_run (Offering sig rest) (offer k sig r)).
Proof.
  intros Hr E. pose proof (s_phase r Hr) as Hp. unfold phase_ok in Hp. rewrite E in Hp.
  destruct Hp as (Hpr & Hst & Hk). apply Forall_cons in Hk as [(reg & Hreg & Hsig) Hk].
  assert (Hgo : forall r1, sinv r1 -> run r1 = Offering sig (k :: rest) -> sinv (set_run (Offering sig rest) r1)).
  { intros r1 Hr1 E1. apply sinv_phase; [done|]. pose proof (s_phase r1 Hr1) as H1. unfold phase_ok in H1.
    rewrite E1 in H1. destruct H1 as (? & ? & H1). apply Forall_cons in H1 as [_ H1]. by split_and!. }
  unfold offer. destruct (negb (bool_decide (state r = routerRunning)) || handlerCtxDone r) eqn:Eh; [by apply Hgo|].
  apply orb_false_iff in Eh as [Hrun Hc]. apply negb_false_iff, bool_decide_eq_true in Hrun.
  apply Hgo; [|done]. rewrite (alter_at _ _ _ _ Hreg).
  destruct (reg_at r k reg Hr Hreg) as [Hnd Hsg (rest' & Hac & Hpm) Hor Hha Hne].
  unfold all_started in Hst. rewrite Forall_lookup in Hst. specialize (Hst k reg Hreg).
  unfold put. destruct (pending reg) as [s0|] eqn:Ep.
  - rewrite list_insert_id by done. by destruct r, Hr.
  - eapply sinv_update; [done|done|done|done| |done|done|done|right; eauto].
    assert (Hl : lost reg = []).
    { destruct (lost reg); [done|]. exfalso. destruct Hha as [?|?]; [by left|done|congruence]. }
    specialize (Hor Hl). unfold waiting in Hor. rewrite Ep, app_nil_r in Hor.
    constructor; cbn [signals accepted handled lost worker pending]; try done.
    + apply Forall_app. split; [done|]. by constructor.
    + exists (taken reg ++ [sig]). unfold waiting, taken. rewrite Hl. simpl.
      by rewrite Hor, <- (assoc_L (++)).
    + intros _. unfold waiting, taken. simpl. by rewrite Hor, <- (assoc_L (++)).
Qed.

Lemma drain_keeps k rest r :
  sinv r -> run r = Draining (k :: rest) ->
  sinv (set_run (Draining rest) (set_regs (alter drain k (regs r)) r)).
Proof.
  intros Hr E. pose proof (s_phase r Hr) as Hp. unfold phase_ok in Hp. rewrite E in Hp.
  destruct Hp as (Hpr & Hst & Hsub & Hk). destruct (regs r !! k) as [reg|] eqn:Hreg.
  - rewrite (alter_at _ _ _ _ Hreg).
    destruct (reg_at r k reg Hr Hreg) as [Hnd Hsg (rest' & Hac & Hpm) Hor Hha Hne].
    unfold all_started in Hst. pose proof (Forall_lookup_1 _ _ _ _ Hst Hreg) as Hw.
    assert (Hh : halted r) by (left; congruence).
    assert (Hup : sinv (set_regs (<[k := drain reg]> (regs r)) r)).
    { eapply sinv_update; [done|done|done|done| |done|done|done|by left].
      unfold drain. constructor; cbn [signals accepted handled lost worker pending]; try done.
      - exists rest'. split; [done|]. rewrite Hpm. unfold waiting, taken. simpl. rewrite app_nil_r.
        destruct (pending reg) as [sig|]; [|by rewrite !app_nil_r].
        rewrite <- (assoc_L (++)). apply Permutation_app_head. apply Permutation_app_comm.
      - unfold waiting, taken in *. destruct (pending reg) as [sig|]; [by destruct (lost reg)|].
        rewrite app_nil_r. exact Hor. }
    apply sinv_phase; [done|]. pose proof (s_phase _ Hup) as H. unfold phase_ok in H. cbn [set_regs run] in H.
    rewrite E in H. destruct H as (? & ? & ? & _). split_and!; [done|done|done|].
    cbn [set_run set_regs regs]. intros k' x Hx Hin.
    apply list_lookup_insert_Some in Hx as [(<- & <- & _)|[Hne' Hx]]; [done|].
    eapply Hk; [exact Hx|]. rewrite not_elem_of_cons. auto.
  - rewrite (alter_none _ _ _ Hreg). assert (Hsame : set_regs (regs r) r = r) by (by destruct r). rewrite Hsame.
    apply sinv_phase; [done|]. split_and!; [done|done|done|]. intros k' x Hx Hin.
    eapply Hk; [exact Hx|]. rewrite not_elem_of_cons. split; [|done]. intros ->. cbn [set_run regs] in Hx. congruence.
Qed.

Lemma beginShutdown_keeps r : sinv r -> sinv (beginShutdown r).
Proof.
  intros Hr. pose proof Hr as [Hpa Hst Hdo Hca Hsh Hid Hre Hph]. unfold beginShutdown. destruct (state r) eqn:E; try done.
  - constructor; cbn [panicked stopClosed doneClosed hasCancel shutdowns regs state run]; try done.
    + by rewrite Hpa, Hst, Hdo.
    + by intros [?|?].
    + apply (regs_ok_impl (halted r)); [|done]. intros _. by left.
    + unfold phase_ok, in_progress in *. rewrite E in Hph. cbn [run state].
      destruct (run r); try (by destruct Hph as ([?|?] & _)); try (by destruct Hph as (? & _)).
      destruct Hph as (_ & H1 & H2). split_and!; [by right|done|done].
  - constructor; cbn [panicked stopClosed doneClosed hasCancel shutdowns regs state run]; try done.
    + by rewrite Hpa, Hst.
    + intros _. apply Hca. by left.
    + apply (regs_ok_impl (halted r)); [|done]. intros _. by left.
    + unfold phase_ok, in_progress in *. rewrite E in Hph. cbn [run state].
      destruct (run r); try (by destruct Hph as ([?|?] & _)); try (by destruct Hph as (? & _));
        try (destruct Hph as [_ Hph]; split; [by right|exact Hph]).
Qed.

Lemma stopping_of r : sinv r -> run r = Ended -> state (beginShutdown r) = routerStopping.
Proof.
  intros Hr E. pose proof (s_phase r Hr) as Hp. unfold phase_ok in Hp. rewrite E in Hp.
  unfold beginShutdown. destruct Hp as [[H|H] _]; by rewrite H.
Qed.

Lemma run_part_keeps a r r' :
  a ∈ [RunStart; ReceiveOffer; RunStop; RunUnsubscribe; RunDrain; RunFinish] ->
  sinv r -> step a r = Some r' -> sinv r'.
Proof.
  intros Ha Hr Hs. pose proof (s_phase r Hr) as Hp. unfold phase_ok in Hp.
  repeat (apply elem_of_cons in Ha as [->|Ha]); [| | | | | |by apply not_elem_of_nil in Ha]; cbn [step] in Hs.
  - unfold Run_start in Hs. destruct (run r) eqn:E; try done. destruct (routes (regs r)) as [m sigs].
    simplify_eq. destruct Hr as [? ? ? ? ? Hid Hre _]. destruct Hp as (Hpr & Hn & Hsub).
    constructor; try done; cbn [regs].
    + intros k x Hx. rewrite list_lookup_fmap in Hx. destruct (regs r !! k) as [reg|] eqn:Hk; [|done].
      simplify_eq/=. by apply Hid.
    + apply Forall_fmap, Forall_forall. intros reg Hin. unfold all_new in Hn. rewrite Forall_forall in Hre, Hn.
      destruct (Hre reg Hin) as [? ? H1 H2 ? H3]. specialize (Hn reg Hin). destruct (H3 Hn) as [Hl Hpd].
      unfold taken, waiting in *. rewrite Hn in *. constructor; try done.
      cbn [start_worker lost worker]. rewrite Hl. by intros [?|?].
    + split; [done|]. apply Forall_fmap, Forall_forall. done.
  - unfold receive_offer in Hs. destruct (run r) as [| | | |sig [|k rest]| | | | |] eqn:E; try done; simplify_eq.
    + apply sinv_phase; [done|]. by destruct Hp as (? & ? & _).
    + by apply offer_keeps.
  - unfold Run_stop in Hs. destruct (run r) eqn:E; try done. simplify_eq.
    apply sinv_phase; [by apply beginShutdown_keeps|].
    split; [by apply stopping_of|]. unfold all_started, beginShutdown. destruct Hp as [_ Hp]. by destruct (state r).
  - unfold Run_unsubscribe in Hs. destruct (run r) eqn:E; try done. simplify_eq.
    destruct Hr as [? ? ? ? ? ? ? _]. destruct Hp as [Hst Hall]. constructor; try done. split_and!; try done.
    cbn [regs]. intros k reg Hk Hin. exfalso. apply Hin, elem_of_seq. apply lookup_lt_Some in Hk. lia.
  - unfold Run_drain in Hs. destruct (run r) as [| | | | | | |[|k rest]| |] eqn:E; try done; simplify_eq.
    + apply sinv_phase; [done|]. destruct Hp as (? & ? & ? & Hp). split_and!; try done.
      apply Forall_lookup. intros k x Hx. eapply Hp; [exact Hx|apply not_elem_of_nil].
    + by apply drain_keeps.
  - unfold Run_finish in Hs. destruct (run r) eqn:E; try done. destruct (forallb gone (regs r)) eqn:Eg; [|done].
    simplify_eq. destruct Hr as [Hpa Hst Hdo ? ? ? Hre _]. destruct Hp as (Hs & Hall & Hsub & Hpd).
    rewrite Hs in *. constructor; cbn [panicked stopClosed doneClosed hasCancel shutdowns regs state run]; try done.
    + by rewrite Hpa, Hdo.
    + by intros [?|?].
    + apply (regs_ok_impl (halted r)); [|done]. intros _. by left.
    + split_and!; [done|done|]. cbn [regs]. apply Forall_forall. intros reg Hin. rewrite Forall_forall in Hpd.
      split; [|by apply Hpd]. rewrite forallb_forall in Eg. specialize (Eg reg (proj1 (list_elem_of_In _ _) Hin)).
      unfold gone in Eg. by destruct (worker reg).
Qed.

Lemma beginShutdown_stops r : sinv r -> stopClosed (beginShutdown r) = true.
Proof. intros Hr. pose proof (s_stop r Hr) as H. unfold beginShutdown. by destruct (state r). Qed.

Lemma Register_keeps nh sigs r : sinv r -> sinv (fst (Register nh sigs r)).
Proof.
  intros Hr. unfold Register. destruct (bool_decide_reflect (state r = routerNew)) as [E|]; [|done]. cbn [negb].
  destruct nh; [done|]. destruct sigs as [|s0 sigs]; [done|].
  destruct (unique_signals 0 ∅ [] (s0 :: sigs)) as [us|] eqn:Eu; [|done]. cbn [fst].
  destruct (unique_signals_ok _ _ _ _ _ Eu) as (Hnd & _); [set_solver|by apply NoDup_nil|].
  destruct Hr as [? ? ? ? ? Hid Hre Hph]. constructor; try done; cbn [set_regs regs].
  - intros k x Hx. apply lookup_app_Some in Hx as [Hx|[Hle Hx]]; [by apply Hid|].
    apply list_lookup_singleton_Some in Hx as [Hk <-]. simpl. lia.
  - apply Forall_app. split; [done|]. constructor; [|constructor]. constructor; try done.
    + exists []. done.
    + by intros [?|?].
  - unfold phase_ok, in_progress, all_new in *. cbn [set_regs run state regs subscribed]. rewrite E in *.
    destruct (run r); try (by destruct Hph as ([?|?] & _)); try (by destruct Hph as (? & _)).
    destruct Hph as (H1 & H2 & H3). split_and!; [done| |done]. apply Forall_app. split; [done|].
    by constructor; [|constructor].
Qed.

Lemma caller_keeps a r r' :
  (a = CallRun \/ a = CallShutdown \/ (exists e, a = AbortShutdown e) \/ (exists e, a = CancelContext e) \/
   exists sig, a = Deliver sig) ->
  sinv r -> step a r = Some r' -> sinv r'.
Proof.
  intros Ha Hr Hs. pose proof Hr as [Hpa Hst Hdo Hca Hsh Hid Hre Hph].
  destruct Ha as [->|[->|[[e ->]|[[e ->]|[sig ->]]]]]; cbn [step] in Hs.
  - simplify_eq. unfold Run_enter. destruct (bool_decide_reflect (state r = routerNew)) as [E|]; [|done].
    cbn [negb fst]. unfold phase_ok, in_progress in Hph. rewrite E in *.
    assert (Hn : run r = NotRunning).
    { destruct (run r); try (by destruct Hph as ([?|?] & _)); try (by destruct Hph as (? & _)). }
    rewrite Hn in Hph. destruct Hph as (_ & Hnew & Hsub).
    constructor; cbn [panicked stopClosed doneClosed hasCancel shutdowns regs state run]; try done.
    + by eapply regs_ok_new.
    + split_and!; [by left|done|done].
  - simplify_eq. pose proof (beginShutdown_stops r Hr) as Hb. pose proof (beginShutdown_keeps r Hr) as [].
    constructor; done.
  - destruct (shutdowns r) eqn:Esh; [|done]. simplify_eq. unfold Shutdown_abort.
    destruct (bool_decide_reflect (state r = routerStopped)) as [E|Hne]; [done|]. cbn [fst].
    assert (Hss : state r = routerStopping).
    { specialize (Hsh eq_refl). rewrite Hst in Hsh. by destruct (state r). }
    constructor; cbn [panicked stopClosed doneClosed hasCancel shutdowns regs state run]; try done.
    + rewrite Hpa, Hca; [done|]. by right.
    + intros _. by apply Hsh.
    + apply (regs_ok_impl (halted r)); [|done]. intros _. by right.
  - simplify_eq. constructor; try done. cbn [regs]. apply (regs_ok_impl (halted r)); [|done].
    intros [?|H]; [by left|right]. unfold handlerCtxDone in *. cbn [canceled ctxErr]. destruct (ctxErr r); [done|].
    by rewrite orb_true_r.
  - unfold deliver in Hs. destruct (routes (regs r)) as [m sigs]. destruct (subscribed r && _); [|done].
    simplify_eq. by constructor.
Qed.

Lemma router_step_keeps a r r' : sinv r -> step a r = Some r' -> sinv r'.
Proof.
  intros Hr Hs. destruct a.
  1: { cbn [step] in Hs. simplify_eq. by apply Register_keeps. }
  1-5: eapply caller_keeps; [|done|exact Hs]; naive_solver.
  1: eapply (run_part_keeps RunStart); [|done|exact Hs]; set_solver.
  1-3: eapply receive_keeps; [|done|exact Hs]; set_solver.
  1-5: eapply run_part_keeps; [|done|exact Hs]; set_solver.
  all: eapply (work_keeps k); [|done|exact Hs]; set_solver.
Qed.

Lemma steps_keep l r r' : sinv r -> steps l r = Some r' -> sinv r'.
Proof.
  revert r. induction l as [|a l IH]; intros r Hr; cbn [steps]; [by intros [= <-]|].
  destruct (step a r) as [r1|] eqn:E; [|done]. cbn [mbind option_bind]. intros Hs.
  eapply IH; [|exact Hs]. by eapply router_step_keeps.
Qed.

(** Once nothing may start, no step calls a handler. *)
Lemma step_halted a r r' k reg reg' :
  step a r = Some r' -> halted r -> regs r !! k = Some reg -> regs r' !! k = Some reg' -> handled reg' = handled reg.
Proof.
  intros Hs Hh Hk Hk'.
  assert (Hsame : regs r' = regs r -> handled reg' = handled reg) by (intros E; rewrite E in Hk'; congruence).
  assert (Hupd : forall j x y, regs r !! j = Some x -> regs r' = <[j := y]> (regs r) -> handled y = handled x ->
    handled reg' = handled reg).
  { intros j x y Hx E Hy. rewrite E in Hk'. apply list_lookup_insert_Some in Hk' as [(-> & -> & _)|[_ H]]; congruence. }
  assert (Hf : forall (f : registration -> registration) j, (forall x, handled (f x) = handled x) ->
    regs r' = alter f j (regs r) -> handled reg' = handled reg).
  { intros f j Hfx E. destruct (regs r !! j) as [x|] eqn:Hj.
    - apply (Hupd j x (f x) Hj); [by rewrite E, (alter_at f j _ x Hj)|done].
    - apply Hsame. by rewrite E, (alter_none f j _ Hj). }
  destruct a; cbn [step] in Hs;
    unfold Register, Run_enter, Shutdown_begin, beginShutdown, Shutdown_abort, deliver, Run_start, receive_check,
      receive_done, receive_signal, receive_offer, offer, Run_stop, Run_unsubscribe, Run_drain, Run_finish in Hs.
  all: try (apply Hsame; repeat case_match; simplify_eq; done).
  - repeat case_match; simplify_eq; try (by apply Hsame).
    cbn [fst set_regs regs] in Hk'. rewrite lookup_app_l in Hk' by (by eapply lookup_lt_Some). congruence.
  - destruct (run r), (routes (regs r)); try done. simplify_eq. cbn [regs] in Hk'. rewrite list_lookup_fmap, Hk in Hk'. by simplify_eq/=.
  - repeat case_match; simplify_eq; try (by apply Hsame).
    eapply (Hf (put sig)); [|reflexivity]. intros x. unfold put. by destruct (pending x).
  - unfold beginShutdown in Hs. repeat case_match; simplify_eq; by apply Hsame.
  - repeat case_match; simplify_eq; try (by apply Hsame). by eapply (Hf drain).
  - unfold work_stop in Hs. destruct (regs r !! k0) as [x|] eqn:Hx; [|done]. cbn [mbind option_bind] in Hs.
    repeat case_match; simplify_eq. eapply Hupd; [exact Hx|reflexivity|done].
  - unfold work_take in Hs. destruct (regs r !! k0) as [x|] eqn:Hx; [|done]. cbn [mbind option_bind] in Hs.
    repeat case_match; simplify_eq. eapply Hupd; [exact Hx|reflexivity|done].
  - unfold work_admit in Hs. destruct (regs r !! k0) as [x|] eqn:Hx; [|done]. cbn [mbind option_bind] in Hs.
    destruct (worker x); try done. simplify_eq. eapply Hupd; [exact Hx|reflexivity|].
    destruct (bool_decide_reflect (state r = routerRunning)); cbn [andb]; [|done].
    destruct Hh as [?|E]; [done|by rewrite E].
  - unfold handle_end in Hs. destruct (regs r !! k0) as [x|] eqn:Hx; [|done]. cbn [mbind option_bind] in Hs.
    repeat case_match; simplify_eq. eapply Hupd; [exact Hx|reflexivity|done].
Qed.



(** ** Stopping *)

(** The steps of [Run], the workers and the handlers. *)
Definition internal (a : action) : bool :=
  match a with
  | RunStart | ReceiveCheck | ReceiveDone | ReceiveSignal | ReceiveOffer | RunStop | RunUnsubscribe | RunDrain
  | RunFinish | WorkStop _ | WorkTake _ | WorkAdmit _ | HandleEnd _ => true
  | _ => false
  end.

Definition reg_weight (reg : registration) : nat :=
  match worker reg with NotStarted | Taken _ | Handling _ => 2 | Idle => 1 | Gone => 0 end +
  match pending reg with Some _ => 2 | None => 0 end.

Definition phase_weight (n : nat) (p : phase) : nat :=
  match p with
  | NotRunning | Returned => 0
  | Waiting => 1
  | Draining rest => 2 + length rest
  | Unsubscribing => n + 3
  | Ended => n + 4
  | Receiving => n + 5
  | Entered => n + 6
  | Offering _ rest => n + 6 + length rest
  | Selecting => 2 * n + 7
  end.

Definition measure (r : Router) : nat :=
  phase_weight (length (regs r)) (run r) + sum_list_with reg_weight (regs r).

Lemma measure_update r k reg reg' :
  regs r !! k = Some reg -> reg_weight reg' < reg_weight reg ->
  measure (set_regs (<[k := reg']> (regs r)) r) < measure r.
Proof.
  intros Hk Hlt. unfold measure. cbn [set_regs regs run]. rewrite length_insert.
  pose proof (sum_list_with_insert reg_weight (regs r) k reg reg' Hk). lia.
Qed.

(** What an internal step of a stopping router does: the measure decreases, and
    neither contexts nor the recorded abort change. *)
Definition shrinks (r r' : Router) : Prop :=
  measure r' < measure r /\ ctxErr r' = ctxErr r /\ abortErr r' = abortErr r /\ stopClosed r' = true /\
  run r' <> NotRunning.

Lemma work_shrinks r r' k x y :
  sinv r -> stopClosed r = true -> regs r !! k = Some x -> worker x <> NotStarted ->
  reg_weight y < reg_weight x -> r' = set_regs (<[k := y]> (regs r)) r -> shrinks r r'.
Proof.
  intros Hr Hst Hx Hw Hlt ->. split; [by eapply measure_update|]. split_and!; try done. cbn [set_regs run].
  intros E. pose proof (s_phase r Hr) as Hp. unfold phase_ok in Hp. rewrite E in Hp.
  destruct Hp as (_ & Hn & _). unfold all_new in Hn. rewrite Forall_lookup in Hn. by apply Hw, (Hn k).
Qed.

Lemma work_decreases k a r r' :
  a ∈ [WorkStop k; WorkTake k; WorkAdmit k; HandleEnd k] -> sinv r -> stopClosed r = true ->
  step a r = Some r' -> shrinks r r'.
Proof.
  intros Ha Hr Hst Hs.
  assert (Hnr : state r <> routerRunning).
  { intros E. pose proof (s_stop r Hr) as H. by rewrite E, Hst in H. }
  repeat (apply elem_of_cons in Ha as [->|Ha]); [| | | |by apply not_elem_of_nil in Ha]; cbn [step] in Hs;
    unfold work_stop, work_take, work_admit, handle_end in Hs;
    destruct (regs r !! k) as [x|] eqn:Hx; try done; cbn [mbind option_bind] in Hs;
    destruct (worker x) eqn:Ew; try done.
  - rewrite Hst in Hs. simplify_eq. eapply (work_shrinks _ _ k x); try done; [by rewrite Ew|].
    unfold reg_weight. simpl. rewrite Ew. lia.
  - destruct (pending x) eqn:Ep; [|done]. simplify_eq. eapply (work_shrinks _ _ k x); try done; [by rewrite Ew|].
    unfold reg_weight. simpl. rewrite Ew, Ep. lia.
  - rewrite bool_decide_eq_false_2 in Hs by done. simplify_eq.
    eapply (work_shrinks _ _ k x); try done; [by rewrite Ew|]. unfold reg_weight. simpl. rewrite Ew. lia.
  - simplify_eq. eapply (work_shrinks _ _ k x); try done; [by rewrite Ew|].
    unfold reg_weight. simpl. rewrite Ew. lia.
Qed.

Lemma start_weight rs :
  Forall (fun reg => worker reg = NotStarted) rs ->
  sum_list_with reg_weight (start_worker <$> rs) <= sum_list_with reg_weight rs.
Proof.
  induction rs as [|x rs IH]; [done|]. intros [Hx Hn]%Forall_cons. specialize (IH Hn). rewrite fmap_cons. cbn [sum_list_with].
  assert (reg_weight (start_worker x) <= reg_weight x); [|lia]. unfold reg_weight. rewrite Hx. simpl. lia.
Qed.

Lemma receive_decreases a r r' :
  a ∈ [RunStart; ReceiveCheck; ReceiveDone; ReceiveSignal; ReceiveOffer] -> sinv r -> stopClosed r = true ->
  step a r = Some r' -> shrinks r r'.
Proof.
  intros Ha Hr Hst Hs. unfold shrinks.
  repeat (apply elem_of_cons in Ha as [->|Ha]); [| | | | |by apply not_elem_of_nil in Ha]; cbn [step] in Hs.
  - unfold Run_start in Hs. destruct (run r) eqn:E, (routes (regs r)); try done. simplify_eq.
    split_and!; try done. unfold measure. cbn [regs run]. rewrite E, length_fmap. simpl phase_weight.
    pose proof (s_phase r Hr) as Hp. unfold phase_ok in Hp. rewrite E in Hp. destruct Hp as (_ & Hn & _).
    pose proof (start_weight (regs r) Hn). lia.
  - unfold receive_check in Hs. destruct (run r) eqn:E; try done. rewrite Hst, orb_true_r in Hs. simplify_eq.
    split_and!; try done. unfold measure. cbn [set_run regs run]. rewrite E. simpl. lia.
  - unfold receive_done in Hs. destruct (run r) eqn:E; try done. rewrite Hst, orb_true_r in Hs. simplify_eq.
    split_and!; try done. unfold measure. cbn [set_run regs run]. rewrite E. simpl. lia.
  - unfold receive_signal in Hs. destruct (run r) eqn:E; try done. destruct (incoming r) as [|sig rest]; [done|].
    simplify_eq. split_and!; try done. unfold measure. cbn [set_run regs run]. rewrite E. simpl phase_weight.
    assert (Hnd : Forall (fun reg => NoDup (signals reg)) (regs r)).
    { eapply Forall_impl; [exact (s_regs r Hr)|]. by intros x []. }
    destruct (routes_ok (regs r) Hnd) as (Hroute & _). rewrite Hroute.
    pose proof (length_listening sig 0 (regs r)) as Hl. destruct (listening sig 0 (regs r)); simpl in *; lia.
  - unfold receive_offer in Hs. destruct (run r) as [| | | |sig [|k rest]| | | | |] eqn:E; try done; simplify_eq.
    + split_and!; try done. unfold measure. cbn [set_run regs run]. rewrite E. simpl. lia.
    + unfold offer. rewrite bool_decide_eq_false_2; [|intros H; pose proof (s_stop r Hr) as H'; by rewrite H, Hst in H'].
      cbn [negb orb]. split_and!; try done. unfold measure. cbn [set_run regs run]. rewrite E. simpl. lia.
Qed.

Lemma finish_decreases a r r' :
  a ∈ [RunStop; RunUnsubscribe; RunDrain; RunFinish] -> sinv r -> stopClosed r = true ->
  step a r = Some r' -> shrinks r r'.
Proof.
  intros Ha Hr Hst Hs. unfold shrinks.
  repeat (apply elem_of_cons in Ha as [->|Ha]); [| | | |by apply not_elem_of_nil in Ha]; cbn [step] in Hs.
  - unfold Run_stop in Hs. destruct (run r) eqn:E; try done. simplify_eq.
    assert (Hb : beginShutdown r = r).
    { pose proof (s_stop r Hr) as H. unfold beginShutdown. destruct (state r); congruence. }
    rewrite Hb. split_and!; try done. unfold measure. cbn [set_run regs run]. rewrite E. simpl. lia.
  - unfold Run_unsubscribe in Hs. destruct (run r) eqn:E; try done. simplify_eq. split_and!; try done.
    unfold measure. cbn [regs run]. rewrite E. simpl. rewrite length_seq. lia.
  - unfold Run_drain in Hs. destruct (run r) as [| | | | | | |[|k rest]| |] eqn:E; try done; simplify_eq.
    + split_and!; try done. unfold measure. cbn [set_run regs run]. rewrite E. simpl. lia.
    + split_and!; try done. unfold measure. cbn [set_run set_regs regs run]. rewrite E, length_alter. simpl.
      destruct (regs r !! k) as [x|] eqn:Hk; [|rewrite (alter_none _ _ _ Hk); lia].
      rewrite (alter_at _ _ _ _ Hk). pose proof (sum_list_with_insert reg_weight (regs r) k x (drain x) Hk) as Hsum.
      assert (reg_weight (drain x) <= reg_weight x); [|lia]. unfold reg_weight, drain. simpl. destruct (pending x); lia.
  - unfold Run_finish in Hs. destruct (run r) eqn:E; try done. destruct (forallb gone (regs r)); [|done].
    simplify_eq. split_and!; try done. unfold measure. cbn [regs run]. rewrite E. simpl. lia.
Qed.

Lemma internal_decreases a r r' :
  sinv r -> stopClosed r = true -> internal a = true -> step a r = Some r' -> shrinks r r'.
Proof.
  intros Hr Hst Hi Hs. destruct a; try done.
  1-5: eapply receive_decreases; [|done|done|exact Hs]; set_solver.
  1-4: eapply finish_decreases; [|done|done|exact Hs]; set_solver.
  all: eapply (work_decreases k); [|done|done|exact Hs]; set_solver.
Qed.

(** Something can always move until [Run] is back. *)
Lemma internal_enabled r :
  sinv r -> stopClosed r = true -> run r <> NotRunning ->
  run r = Returned \/ exists a r', internal a = true /\ step a r = Some r'.
Proof.
  intros Hr Hst Hn. pose proof (s_phase r Hr) as Hp. unfold phase_ok in Hp. destruct (run r) as [| | | |sig [|k rest]| | |[|k rest]| |] eqn:E;
    [done|right..|by left].
  - exists RunStart. cbn [step internal]. unfold Run_start. rewrite E. destruct (routes (regs r)). eauto.
  - exists ReceiveCheck. cbn [step internal]. unfold receive_check. rewrite E. eauto.
  - exists ReceiveDone. cbn [step internal]. unfold receive_done. rewrite E, Hst, orb_true_r. eauto.
  - exists ReceiveOffer. cbn [step internal]. unfold receive_offer. rewrite E. eauto.
  - exists ReceiveOffer. cbn [step internal]. unfold receive_offer. rewrite E. eauto.
  - exists RunStop. cbn [step internal]. unfold Run_stop. rewrite E. eauto.
  - exists RunUnsubscribe. cbn [step internal]. unfold Run_unsubscribe. rewrite E. eauto.
  - exists RunDrain. cbn [step internal]. unfold Run_drain. rewrite E. eauto.
  - exists RunDrain. cbn [step internal]. unfold Run_drain. rewrite E. eauto.
  - destruct (forallb gone (regs r)) eqn:Eg.
    { exists RunFinish. cbn [step internal]. unfold Run_finish. rewrite E, Eg. eauto. }
    destruct Hp as (_ & Hall & _). unfold all_started in Hall. rewrite Forall_lookup in Hall.
    assert (Hex : exists k x, regs r !! k = Some x /\ gone x = false).
    { clear -Eg. induction (regs r) as [|x rs IH]; [done|]. simpl in Eg. destruct (gone x) eqn:Ex.
      - destruct (IH Eg) as (k & y & Hk & Hy). by exists (S k), y.
      - by exists 0, x. }
    destruct Hex as (k & x & Hk & Hx). specialize (Hall k x Hk). unfold gone in Hx. destruct (worker x) eqn:Ew; try done.
    + exists (WorkStop k). cbn [step internal]. unfold work_stop. rewrite Hk. cbn [mbind option_bind]. rewrite Ew, Hst. eauto.
    + exists (WorkAdmit k). cbn [step internal]. unfold work_admit. rewrite Hk. cbn [mbind option_bind]. rewrite Ew. eauto.
    + exists (HandleEnd k). cbn [step internal]. unfold handle_end. rewrite Hk. cbn [mbind option_bind]. rewrite Ew. eauto.
Qed.

Lemma internal_steps l r r' :
  sinv r -> stopClosed r = true -> run r <> NotRunning -> Forall (fun a => internal a = true) l ->
  steps l r = Some r' ->
  length l + measure r' <= measure r /\ sinv r' /\ ctxErr r' = ctxErr r /\ abortErr r' = abortErr r /\
  stopClosed r' = true /\ run r' <> NotRunning.
Proof.
  revert r. induction l as [|a l IH]; intros r Hr Hst Hn Hl; cbn [steps].
  { intros [= <-]. by split_and!. }
  apply Forall_cons in Hl as [Ha Hl]. destruct (step a r) as [r1|] eqn:E; [|done]. cbn [mbind option_bind]. intros Hs.
  destruct (internal_decreases a r r1 Hr Hst Ha E) as (Hm & Hc & Hab & Hst1 & Hn1).
  destruct (IH r1 (router_step_keeps a r r1 Hr E) Hst1 Hn1 Hl Hs) as (Hm' & ? & ? & ? & ? & ?).
  split_and!; try done; try congruence. simpl. lia.
Qed.

#[export] Instance phase_eq_dec : EqDecision phase.
Proof. solve_decision. Defined.

Lemma returned_stuck a r r' :
  sinv r -> run r = Returned -> internal a = true -> step a r = Some r' -> False.
Proof.
  intros Hr E Hi Hs. pose proof (s_phase r Hr) as Hp. unfold phase_ok in Hp. rewrite E in Hp.
  destruct Hp as (_ & _ & Hg). rewrite Forall_lookup in Hg.
  destruct a; try done; cbn [step] in Hs;
    unfold Run_start, receive_check, receive_done, receive_signal, receive_offer, Run_stop, Run_unsubscribe, Run_drain,
      Run_finish, work_stop, work_take, work_admit, handle_end in Hs; try (by rewrite E in Hs).
  all: destruct (regs r !! k) as [x|] eqn:Hk; [|done]; cbn [mbind option_bind] in Hs;
    destruct (Hg k x Hk) as [Hw _]; by rewrite Hw in Hs.
Qed.

Lemma finish_step a r r' :
  internal a = true -> run r <> Returned -> step a r = Some r' -> run r' = Returned ->
  runErr r' = errors_Join [ctxErr r; abortErr r].
Proof.
  intros Hi Hn Hs Hret. destruct a; try done; cbn [step] in Hs.
  9: { unfold Run_finish in Hs. destruct (run r); try done. destruct (forallb gone (regs r)); [|done]. by simplify_eq. }
  all: unfold Run_start, receive_check, receive_done, receive_signal, receive_offer, offer, Run_stop, beginShutdown,
    Run_unsubscribe, Run_drain, work_stop, work_take, work_admit, handle_end in Hs.
  all: try (destruct (regs r !! k); [|done]; cbn [mbind option_bind] in Hs).
  all: exfalso; apply Hn; repeat case_match; simplify_eq; simpl in *; congruence.
Qed.

(** The result recorded when [Run] finishes. *)
Lemma finish_result l r r' :
  sinv r -> stopClosed r = true -> run r <> NotRunning -> run r <> Returned ->
  Forall (fun a => internal a = true) l -> steps l r = Some r' -> run r' = Returned ->
  runErr r' = errors_Join [ctxErr r; abortErr r].
Proof.
  intros Hr Hst Hn Hnr Hl Hs Hret. revert r Hr Hst Hn Hnr Hl Hs.
  induction l as [|a l IH]; intros r Hr Hst Hn Hnr Hl; cbn [steps]; [by intros [= <-]|].
  apply Forall_cons in Hl as [Ha Hl]. destruct (step a r) as [r1|] eqn:E; [|done]. cbn [mbind option_bind]. intros Hs.
  destruct (internal_decreases a r r1 Hr Hst Ha E) as (_ & Hc & Hab & Hst1 & Hn1).
  pose proof (router_step_keeps a r r1 Hr E) as Hr1.
  destruct (decide (run r1 = Returned)) as [E1|E1]; [|rewrite <- Hc, <- Hab; by apply IH].
  assert (Hnone : l = []).
  { destruct l as [|b l]; [done|]. exfalso. apply Forall_cons in Hl as [Hb _]. cbn [steps] in Hs.
    destruct (step b r1) as [r2|] eqn:E2; [|done].
    by apply (returned_stuck b r1 r2). }
  subst l. simpl in Hs. simplify_eq. by apply (finish_step a r r').
Qed.

(** A router that has begun to stop always finishes, whatever the order in
    which [Run], the workers and returning handlers move: something can move
    until [Run] is back, at most [measure] moves are possible, and then the router
    is stopped, unsubscribed and without workers, and both [Run] and every
    [Shutdown] that waited return the context's and the abort's error joined. *)
Theorem signal_stops l r l' r' :
  steps l New = Some r -> stopClosed r = true -> run r <> NotRunning -> run r <> Returned ->
  Forall (fun a => internal a = true) l' -> steps l' r = Some r' ->
  length l' <= measure r /\
  (run r' = Returned \/ exists a r'', internal a = true /\ step a r' = Some r'') /\
  (run r' = Returned ->
   state r' = routerStopped /\ subscribed r' = false /\ forallb gone (regs r') = true /\
   result r' = errors_Join [ctxErr r; abortErr r]).
Proof.
  intros H0 Hst Hn Hnr Hl Hs. pose proof (steps_keep l New r sinv_New H0) as Hr.
  destruct (internal_steps l' r r' Hr Hst Hn Hl Hs) as (Hm & Hr' & _ & _ & Hst' & Hn').
  split; [lia|]. split; [by apply internal_enabled|]. intros Hret.
  pose proof (s_phase r' Hr') as Hp. unfold phase_ok in Hp. rewrite Hret in Hp. destruct Hp as (H1 & H2 & H3).
  split_and!; [done|done| |].
  { apply forallb_forall. intros x Hx. rewrite Forall_forall in H3.
    destruct (H3 x (proj2 (list_elem_of_In _ _) Hx)) as [Hw _]. unfold gone. by rewrite Hw. }
  eapply finish_result; [exact Hr|exact Hst|exact Hn|exact Hnr|exact Hl|exact Hs|exact Hret].
Qed.

(** A shutdown whose caller gives up while a handler runs. *)
Definition demo_start : list action :=
  [CallRegister false [Some 2]; CallRun; RunStart; ReceiveCheck; Deliver 2; ReceiveSignal;
   ReceiveOffer; ReceiveOffer; WorkTake 0; WorkAdmit 0; CallShutdown; AbortShutdown DeadlineExceeded].
Definition demo_stop : list action :=
  [ReceiveCheck; RunStop; RunUnsubscribe; RunDrain; RunDrain; HandleEnd 0; WorkStop 0; RunFinish].
Definition demo_mid : Router := default New (steps demo_start New).
Definition demo_end : Router := default New (steps demo_stop demo_mid).

Lemma signal_stops_witness :
  length demo_stop <= measure demo_mid /\ result demo_end = Some (ErrJoin [DeadlineExceeded]).
Proof.
  destruct (signal_stops demo_start demo_mid demo_stop demo_end) as (H1 & _ & H2);
    [vm_compute; reflexivity|vm_compute; reflexivity|done|done|repeat constructor|vm_compute; reflexivity|].
  split; [exact H1|]. destruct H2 as (_ & _ & _ & ->); vm_compute; reflexivity.
Defined.
