(* ===== verification/Locker.v ===== *)
(** * Locks and leases: [src/locker]

    The interface of a lock, the no-op lock, and [Do] and [Try], which run a
    handler between acquisition and release.  A lock acts on a world [W] that
    the handler shares with it. *)

From S2P Require Import Prelude GoErrors.
From stdpp Require Import options.
Set Default Proof Using "Type*".
Local Open Scope string_scope.
Local Open Scope Z_scope.

(** ** [locker.go] *)

Definition ErrNotAcquired : error := ErrNew "locker: lock not acquired".
Definition ErrLeaseLost : error := ErrNew "locker: lease lost".
Definition ErrInvalidName : error := ErrNew "locker: invalid lock name".
Definition ErrInvalidTTL : error := ErrNew "locker: invalid lock ttl".
Definition ErrInvalidToken : error := ErrNew "locker: invalid lease token".
Definition ErrInvalidContext : error := ErrNew "locker: invalid context".
Definition ErrNilLock : error := ErrNew "locker: nil lock".
Definition ErrNilHandler : error := ErrNew "locker: nil handler".

(** The [Lock] and [Lease] interfaces: an operation gets the context it checks,
    from its [n]-th check on, and returns the lease or an error. *)
Record Lock (W L : Type) := mkLock {
  TryAcquire : option context -> nat -> W -> W * (L + error);
  Acquire : option context -> nat -> W -> W * (L + error);
  Release : L -> option context -> nat -> W -> W * option error
}.
Arguments mkLock {W L} _ _ _.
Arguments TryAcquire {W L} _ _ _ _.
Arguments Acquire {W L} _ _ _ _.
Arguments Release {W L} _ _ _ _ _.

Definition validateContext (ctx : option context) (n : nat) : option error :=
  match ctx with
  | None => Some ErrInvalidContext
  | Some c => ctx_Err c n
  end.

Definition validate (ctx : option context) (n : nat) (name : string) (ttl : Z) : option error :=
  match validateContext ctx n with
  | Some err => Some err
  | None =>
      if bool_decide (name = "") then Some ErrInvalidName
      else if ttl <=? 0 then Some ErrInvalidTTL
      else None
  end.

Record NoopLock := mkNoopLock { noop_name : string; noop_ttl : Z }.
Inductive NoopLease := mkNoopLease.

Definition NoopLocker_Lock (name : string) (ttl : Z) : NoopLock := mkNoopLock name ttl.

Definition NoopLock_TryAcquire (l : NoopLock) (ctx : option context) (n : nat) : NoopLease + error :=
  match validate ctx n (noop_name l) (noop_ttl l) with
  | Some err => inr err
  | None => inl mkNoopLease
  end.

Definition NoopLock_Acquire (l : NoopLock) (ctx : option context) (n : nat) : NoopLease + error :=
  NoopLock_TryAcquire l ctx n.

Definition NoopLease_Release (ctx : option context) (n : nat) : option error := validateContext ctx n.

Definition noop_lock (W : Type) (name : string) (ttl : Z) : Lock W NoopLease :=
  let l := NoopLocker_Lock name ttl in
  mkLock (fun ctx n w => (w, NoopLock_TryAcquire l ctx n))
         (fun ctx n w => (w, NoopLock_Acquire l ctx n))
         (fun _ ctx n w => (w, NoopLease_Release ctx n)).

(** ** [handler.go] *)

(** What a handler does: return an error or nil, or panic. *)
Inductive handled := Returned (err : option error) | Panicked.

Section Handler.
Context {W L : Type}.
Implicit Types (lock : Lock W L) (handler : W -> W * handled).

(** The deferred release runs on every way out, with a context that cannot be
    cancelled, and may replace the result of a handler that returned. *)
Definition handle (ctx : context) (lock : Lock W L) (lease : L) (handler : W -> W * handled) (w : W)
    : W * handled :=
  let '(w, out) := handler w in
  let '(w, releaseErr) := Release lock lease (Some (WithoutCancel ctx)) 0 w in
  (w, match out with
      | Panicked => Panicked
      | Returned None => Returned releaseErr
      | Returned (Some err) =>
          match releaseErr with
          | None => Returned (Some err)
          | Some e => Returned (Some (ErrJoin [err; e]))
          end
      end).

Definition validateHandler (ctx : option context) (lock : option (Lock W L))
    (handler : option (W -> W * handled)) : option error :=
  match validateContext ctx 0 with
  | Some err => Some err
  | None =>
      match lock, handler with
      | None, _ => Some ErrNilLock
      | _, None => Some ErrNilHandler
      | _, _ => None
      end
  end.

Definition bracket (acquire : Lock W L -> option context -> nat -> W -> W * (L + error))
    (ctx : option context) (lock : option (Lock W L)) (handler : option (W -> W * handled)) (w : W)
    : W * handled :=
  match validateHandler ctx lock handler, ctx, lock, handler with
  | None, Some c, Some l, Some h =>
      match acquire l ctx 1%nat w with
      | (w, inr err) => (w, Returned (Some err))
      | (w, inl lease) => handle c l lease h w
      end
  | err, _, _, _ => (w, Returned err)
  end.

Definition Do := bracket Acquire.
Definition Try := bracket TryAcquire.
End Handler.
