(* ===== verification/LockerRedis.v ===== *)
(** * Locks on Redis: [src/locker/redis]

    A lock is a key that holds the token of its owner until the lease ends.
    [TryAcquire] sets it when it is absent; releasing and refreshing are scripts
    that compare the token first. *)

From S2P Require Import Prelude GoErrors GoStrconv Redis Locker.
From stdpp Require Import options.
Set Default Proof Using "Type*".
Local Open Scope string_scope.
Local Open Scope Z_scope.
Local Open Scope lua_scope.

(** ** [config.go] *)

Definition defaultPrefix : string := "locker:".
Definition defaultMinWaitInterval : Z := 50 * Millisecond.
Definition defaultMaxWaitInterval : Z := 100 * Millisecond.

Record config := mkConfig { cprefix : string; cminWait : Z; cmaxWait : Z }.

Definition WithPrefix (prefix : string) : config -> config := fun c =>
  let prefix := TrimRight prefix in
  if negb (bool_decide (prefix = EmptyString))
  then mkConfig (prefix +:+ ":") (cminWait c) (cmaxWait c) else c.

Definition WithWaitInterval (minimum maximum : Z) : config -> config := fun c =>
  if (minimum >? 0) && (maximum >=? minimum) then mkConfig (cprefix c) minimum maximum else c.

Definition newConfig (options : list (option (config -> config))) : config :=
  apply_options options (mkConfig defaultPrefix defaultMinWaitInterval defaultMaxWaitInterval).

(** ** [locker.go] *)

(** What a lock acts on: the client, the server's clock, and how many tokens
    [uuid.NewString] has made. *)
Record world (R : Type) := mkWorld { conn : Client R; now : Z; issued : nat }.
Arguments mkWorld {R} _ _ _.
Arguments conn {R} _.
Arguments now {R} _.
Arguments issued {R} _.

Record RedisLock := mkRedisLock {
  name : string; key : string; ttl : Z; minWaitInterval : Z; maxWaitInterval : Z
}.

Record Lease := mkLease { lkey : string; ltoken : string }.

(** A nil client, or a nil pointer in the interface, panics: no locker. *)
Record RedisLocker (R : Type) := mkLocker { lclient : Client R; lprefix : string; lmin : Z; lmax : Z }.
Arguments mkLocker {R} _ _ _ _.
Arguments lprefix {R} _.
Arguments lmin {R} _.
Arguments lmax {R} _.

Definition New {R} (client : option (Client R)) (options : list (option (config -> config)))
    : option (RedisLocker R) :=
  match client with
  | None => None
  | Some cl =>
      let c := newConfig options in
      Some (mkLocker cl (cprefix c) (cminWait c) (cmaxWait c))
  end.

Definition Locker_Lock {R} (l : RedisLocker R) (name : string) (ttl : Z) : RedisLock :=
  mkRedisLock name (lprefix l +:+ name) ttl (lmin l) (lmax l).

Definition lock_validate (l : RedisLock) (ctx : option context) (n : nat) : option error :=
  match validateContext ctx n with
  | Some err => Some err
  | None =>
      if bool_decide (name l = "") then Some ErrInvalidName
      else if ttl l <=? 0 then Some ErrInvalidTTL
      else None
  end.

Definition Restore (l : RedisLock) (token : string) : Lease + error :=
  if bool_decide (name l = "") then inr ErrInvalidName
  else if bool_decide (token = "") then inr ErrInvalidToken
  else inl (mkLease (key l) token).

Definition Token (l : Lease) : string := ltoken l.

(** [rnd] is the draw of [rand.Int64N], between zero and the difference. *)
Definition waitInterval (l : RedisLock) (rnd : Z) : Z :=
  if minWaitInterval l =? maxWaitInterval l then minWaitInterval l
  else minWaitInterval l + rnd.

(** [err == locker.ErrNotAcquired] *)
Definition is_ErrNotAcquired (err : error) : bool :=
  match err with ErrNew s => bool_decide (s = "locker: lock not acquired") | _ => false end.

Section Operations.
Context {R : Type} `{!RedisServer R, !ClientOptions}.

(** Compare the key with the token, then run [c]. *)
Definition releaseScript (KEYS1 ARGV1 : string) : script R any :=
  local got <- redis_call KEYS1 GET in
  if (match got with RStr s => bool_decide (s = ARGV1) | _ => false end) then
    local n <- redis_call KEYS1 DEL in
    sret (match n with RInt z => AInt z | _ => ANil end)
  else sret (AInt 0).

Definition refreshScript (KEYS1 ARGV1 : string) (ARGV2 : Z) : script R any :=
  local got <- redis_call KEYS1 GET in
  if (match got with RStr s => bool_decide (s = ARGV1) | _ => false end) then
    local n <- redis_call KEYS1 (PEXPIRE ARGV2) in
    sret (match n with RInt z => AInt z | _ => ANil end)
  else sret (AInt 0).

(** The world after a call, which took the pauses between its attempts. *)
Definition set_conn (w : world R) (cl : Client R) : world R := mkWorld cl (now w + spent (conn w)) (issued w).

Definition tryAcquire (l : RedisLock) (token : string) (w : world R) : world R * (Lease + error) :=
  let '(cl, res) := command (conn w) (now w) (key l) (SETNX token (expiration_nx (ttl l))) in
  (set_conn w cl,
   match res with
   | inr err => inr (ErrWrapf "locker/redis: acquire" err)
   | inl ROK => inl (mkLease (key l) token)
   | inl _ => inr ErrNotAcquired
   end).

Variable uuid : nat -> string.

(** [uuid.NewString()] *)
Definition NewString (w : world R) : world R * string :=
  (mkWorld (conn w) (now w) (S (issued w)), uuid (issued w)).

Definition Lock_TryAcquire (l : RedisLock) (ctx : option context) (n : nat) (w : world R)
    : world R * (Lease + error) :=
  match lock_validate l ctx n with
  | Some err => (w, inr err)
  | None => let '(w, token) := NewString w in tryAcquire l token w
  end.

(** [wait]: what happens to the world meanwhile is [env]'s, and the context
    decides how it ends. *)
Definition wait (ctx : option context) (n : nat) (env : world R -> world R) (w : world R)
    : world R * option error :=
  (env w, match ctx with Some c => ctx_Err c n | None => None end).

(** The loop of [Acquire].  [env i d w] is the world after the [i]-th wait, of
    length [d]; [None] when the fuel ran out in the loop. *)
Fixpoint acquire_loop (fuel : nat) (l : RedisLock) (ctx : option context) (token : string)
    (env : nat -> Z -> world R -> world R) (rnd : nat -> Z) (n i : nat) (w : world R)
    : world R * option (Lease + error) :=
  match fuel with
  | O => (w, None)
  | S fuel =>
      match tryAcquire l token w with
      | (w, inl lease) => (w, Some (inl lease))
      | (w, inr err) =>
          if negb (is_ErrNotAcquired err)
          then (w, Some (inr err))
          else
            match wait ctx n (env i (waitInterval l (rnd i))) w with
            | (w, Some err) => (w, Some (inr err))
            | (w, None) => acquire_loop fuel l ctx token env rnd (S n) (S i) w
            end
      end
  end.

(** [Acquire]; a loop that the fuel does not see end has no result. *)
Definition Lock_Acquire (fuel : nat) (env : nat -> Z -> world R -> world R) (rnd : nat -> Z)
    (l : RedisLock) (ctx : option context) (n : nat) (w : world R)
    : world R * option (Lease + error) :=
  match lock_validate l ctx n with
  | Some err => (w, Some (inr err))
  | None =>
      let '(w, token) := NewString w in
      acquire_loop fuel l ctx token env rnd (S n) 0 w
  end.

Definition Lease_Release (l : Lease) (ctx : option context) (n : nat) (w : world R)
    : world R * option error :=
  match validateContext ctx n with
  | Some err => (w, Some err)
  | None =>
      let '(cl, res) := roundtrip (conn w) (releaseScript (lkey l) (ltoken l)) (now w) in
      (set_conn w cl,
       match (match res with inl a => Int64 a | inr e => inr e end) with
       | inr err => Some (ErrWrapf "locker/redis: release" err)
       | inl released => if released =? 0 then Some ErrLeaseLost else None
       end)
  end.

Definition Refresh (l : Lease) (ctx : option context) (n : nat) (ttl : Z) (w : world R)
    : world R * option error :=
  match validateContext ctx n with
  | Some err => (w, Some err)
  | None =>
      if ttl <=? 0 then (w, Some ErrInvalidTTL)
      else
        let '(cl, res) :=
          roundtrip (conn w) (refreshScript (lkey l) (ltoken l) (milliseconds ttl)) (now w) in
        (set_conn w cl,
         match (match res with inl a => Int64 a | inr e => inr e end) with
         | inr err => Some (ErrWrapf "locker/redis: refresh" err)
         | inl refreshed => if refreshed =? 0 then Some ErrLeaseLost else None
         end)
  end.

Lemma set_conn_ok w cl : faults (conn w) = [] -> set_conn w cl = mkWorld cl (now w) (issued w).
Proof using Type. intros Hf. unfold set_conn, spent. by rewrite Hf, Z.add_0_r. Qed.

(** The lock as [src/locker] sees it; [Acquire] that waits without end is kept
    out by its callers' hypotheses, and stands for a failure here. *)
Definition redis_lock (fuel : nat) (env : nat -> Z -> world R -> world R) (rnd : nat -> Z)
    (l : RedisLock) : Lock (world R) Lease :=
  mkLock (Lock_TryAcquire l)
         (fun ctx n w =>
            let '(w, r) := Lock_Acquire fuel env rnd l ctx n w in
            (w, default (inr (ErrMsg "still waiting")) r))
         Lease_Release.
End Operations.

(** ** The lock as a cell

    A key is free, or held under a token until an instant. *)
Definition holder := option (string * Z).

Definition holder_of (e : option entry) : holder :=
  match e with
  | Some (mkEntry (VStr tok) (Some d)) => Some (tok, d)
  | _ => None
  end.

Definition still (t : Z) (h : holder) : holder :=
  match h with Some (tok, d) => if t <? d then h else None | None => None end.

Lemma holder_of_unexpired t e : holder_of (unexpired t e) = still t (holder_of e).
Proof. destruct e as [[[tok|h] [d|]]|]; simpl; try done; by destruct (t <? d). Qed.

(** The operations of the owners, given their tokens. *)
Inductive lop :=
| OTry (l : RedisLock) (token : string)
| ORelease (le : Lease)
| ORefresh (le : Lease) (ttl : Z).

Definition op_key (o : lop) : string :=
  match o with OTry l _ => key l | ORelease le | ORefresh le _ => lkey le end.

Definition op_ttl_pos (o : lop) : Prop :=
  match o with OTry l _ => 0 < ttl l | ORelease _ => True | ORefresh _ ttl => 0 < ttl end.

(** [o] is made with the token [tok], by the holder of a lease or of a copy of it. *)
Definition op_owner (tok : string) (o : lop) : Prop :=
  match o with OTry _ _ => False | ORelease le | ORefresh le _ => ltoken le = tok end.

Section Cell.
Context {R : Type} `{!RedisServer R, !RedisLaws R, !ClientOptions}.

Definition cell_step (t : Z) (o : lop) (h : holder) : holder * option error :=
  match o, h with
  | OTry l token, None => (Some (token, ends t (client_ms (ttl l))), None)
  | OTry _ _, Some _ => (h, Some ErrNotAcquired)
  | ORelease le, Some (tok, _) =>
      if decide (tok = ltoken le) then (None, None) else (h, Some ErrLeaseLost)
  | ORefresh le ttl, Some (tok, _) =>
      if decide (tok = ltoken le) then (Some (tok, ends t (milliseconds ttl)), None)
      else (h, Some ErrLeaseLost)
  | _, None => (None, Some ErrLeaseLost)
  end.

Definition at_time (t : Z) (w : world R) : world R := mkWorld (conn w) t (issued w).

Definition lock_step (t : Z) (o : lop) (w : world R) : world R * option error :=
  match o with
  | OTry l token =>
      let '(w, r) := tryAcquire l token (at_time t w) in
      (w, match r with inl _ => None | inr e => Some e end)
  | ORelease le => Lease_Release le (Some Background) 0 (at_time t w)
  | ORefresh le ttl => Refresh le (Some Background) 0 ttl (at_time t w)
  end.

(** The connection works and the keys of locks hold what locks write. *)
Definition lock_inv (K : string -> Prop) (w : world R) (t : Z) : Prop :=
  faults (conn w) = [] /\
  forall k en, K k -> lookup_at (server (conn w)) t k = Some en ->
    exists tok d, en = mkEntry (VStr tok) (Some d).

Definition lock_view (w : world R) (t : Z) (k : string) : holder :=
  holder_of (lookup_at (server (conn w)) t k).

Lemma lock_view_later w t t' k : t <= t' -> lock_view w t' k = still t' (lock_view w t k).
Proof. intros Ht. unfold lock_view. rewrite (lookup_later _ t t') by done. apply holder_of_unexpired. Qed.

Lemma lock_inv_later K w t t' : lock_inv K w t -> t <= t' -> lock_inv K w t'.
Proof.
  intros [Hf Hs] Ht. split; [done|]. intros k en Hk. rewrite (lookup_later _ t) by done.
  intros [Hu _]%unexpired_Some. by apply (Hs k).
Qed.

(** What one operation leaves on the server. *)
Definition leaves (r r' : R) (t : Z) (k : string) (h : holder) : Prop :=
  lookup_at r' t k = (fun p => mkEntry (VStr p.1) (Some p.2)) <$> h /\
  (forall k' t', k' <> k -> t <= t' -> lookup_at r' t' k' = lookup_at r t' k').

Lemma leaves_world K w r' t k h w' :
  lock_inv K w t -> leaves (server (conn w)) r' t k h -> conn w' = mkClient r' [] ->
  lock_inv K w' t /\ lock_view w' t k = h /\
  (forall k' t', k' <> k -> t <= t' -> lock_view w' t' k' = lock_view w t' k').
Proof.
  intros [Hf Hs] [Hk Hne] Hw. unfold lock_inv, lock_view. rewrite Hw. cbn [server faults]. split_and!.
  - done.
  - intros k' en HK. destruct (decide (k' = k)) as [->|Hd].
    + rewrite Hk. destruct h as [[tok d]|]; simpl; [|done]. intros [= <-]. by eauto.
    + rewrite Hne by done. by apply Hs.
  - rewrite Hk. by destruct h as [[tok d]|].
  - intros k' t' Hd Ht. by rewrite Hne.
Qed.

Lemma client_ms_after t d : 0 < d -> t < ends t (client_ms d).
Proof. intros Hd. pose proof (client_ms_bounds d Hd). pose proof (ends_bounds t (client_ms d)). lia. Qed.

Lemma milliseconds_after t d : t < ends t (milliseconds d).
Proof. pose proof (milliseconds_pos d). pose proof (ends_bounds t (milliseconds d)). lia. Qed.

Lemma tryAcquire_spec r t l token :
  0 < ttl l ->
  (forall en, lookup_at r t (key l) = Some en -> exists tok d, en = mkEntry (VStr tok) (Some d)) ->
  let h := holder_of (lookup_at r t (key l)) in
  exists r', redis_call (key l) (SETNX token (expiration_nx (ttl l))) t r
             = (r', inl (match h with None => ROK | Some _ => RNil end)) /\
    leaves r r' t (key l) (cell_step t (OTry l token) h).1.
Proof.
  intros Hp Hs. destruct (redis_call_step r t (key l) (SETNX token (expiration_nx (ttl l))) _ eq_refl)
    as (r' & -> & Hl & Hf). exists r'. unfold leaves. rewrite Hl. clear Hl. cbn [cmd_spec].
  rewrite expiration_nx_bad. destruct (Z.ltb_spec (ttl l) (-1)); [lia|]. rewrite expiration_nx_pos by done.
  pose proof (lookup_live r t (key l)) as Hu.
  destruct (lookup_at r t (key l)) as [en|]; cbn [cmd_spec fst snd].
  - destruct (Hs en eq_refl) as (tok & d & ->). by rewrite Hu.
  - split_and!; [done| |done]. simpl.
    pose proof (client_ms_after t (ttl l) Hp). by destruct (Z.ltb_spec t (ends t (client_ms (ttl l)))); [|lia].
Qed.

(** Both scripts compare the token, then run one command. *)
Lemma owner_script r t k tok c (P : holder -> holder) :
  (forall en, lookup_at r t k = Some en -> exists tok d, en = mkEntry (VStr tok) (Some d)) ->
  (forall d, (cmd_spec (ends t) c (Some (mkEntry (VStr tok) (Some d)))).2 = RInt 1 /\
             unexpired t (cmd_spec (ends t) c (Some (mkEntry (VStr tok) (Some d)))).1
             = (fun p => mkEntry (VStr p.1) (Some p.2)) <$> P (Some (tok, d))) ->
  let h := holder_of (lookup_at r t k) in
  let mine := match h with Some (tok', _) => bool_decide (tok' = tok) | None => false end in
  exists r', (sbind (redis_call k GET) (fun got =>
                if (match got with RStr s => bool_decide (s = tok) | _ => false end) then
                  sbind (redis_call k c) (fun n => sret (match n with RInt z => AInt z | _ => ANil end))
                else sret (AInt 0))) t r
             = (r', inl (AInt (if mine then 1 else 0))) /\
    leaves r r' t k (if mine then P h else h).
Proof.
  intros Hs Hc. cbv zeta. unfold sbind, sret.
  destruct (redis_call_read r t k GET _ eq_refl eq_refl) as (r1 & -> & Hl).
  assert (Hl1 : lookup_at r1 t k = lookup_at r t k) by (by apply Hl).
  destruct (lookup_at r t k) as [en|] eqn:E; cbn [cmd_spec snd holder_of].
  - destruct (Hs en eq_refl) as (tok' & d & ->). cbn [holder_of].
    destruct (bool_decide (tok' = tok)) eqn:Eb.
    + apply bool_decide_eq_true in Eb as ->. destruct (Hc d) as [Hc2 Hc1].
      destruct (redis_call_step r1 t k c _ Hl1) as (r2 & -> & Hl2 & Hf). rewrite Hc2.
      exists r2. split; [done|]. split; [by rewrite Hl2|]. intros k' t' Hk Ht. by rewrite Hf, Hl.
    + exists r1. split; [done|]. split; [done|]. intros k' t' Hk Ht. by apply Hl.
  - exists r1. split; [done|]. split; [done|]. intros k' t' Hk Ht. by apply Hl.
Qed.

Lemma lock_step_spec K t o w w' a :
  lock_inv K w t -> K (op_key o) -> op_ttl_pos o -> lock_step t o w = (w', a) ->
  let h := lock_view w t (op_key o) in
  lock_inv K w' t /\ a = (cell_step t o h).2 /\ lock_view w' t (op_key o) = (cell_step t o h).1 /\
  (forall k' t', k' <> op_key o -> t <= t' -> lock_view w' t' k' = lock_view w t' k').
Proof.
  intros Hi HK Hp. cbv zeta. destruct w as [[r fs] t0 n]. destruct (Hi) as [Hf Hs]. simpl in Hf, Hs. subst fs.
  pose proof (fun en => Hs (op_key o) en HK) as Hk. unfold lock_view at 1 2. cbn [conn server].
  assert (Hfin : forall r' a' h', (mkWorld (mkClient r' []) t n, a') = (w', a) ->
    a' = (cell_step t o (holder_of (lookup_at r t (op_key o)))).2 ->
    leaves r r' t (op_key o) h' -> h' = (cell_step t o (holder_of (lookup_at r t (op_key o)))).1 ->
    lock_inv K w' t /\ a = (cell_step t o (holder_of (lookup_at r t (op_key o)))).2 /\
    lock_view w' t (op_key o) = (cell_step t o (holder_of (lookup_at r t (op_key o)))).1 /\
    (forall k' t', k' <> op_key o -> t <= t' ->
      lock_view w' t' k' = lock_view (mkWorld (mkClient r []) t0 n) t' k')).
  { intros r' a' h' [= <- <-] Ha Hl <-.
    destruct (leaves_world K _ r' t (op_key o) h' (mkWorld (mkClient r' []) t n) Hi Hl eq_refl) as (? & ? & ?).
    done. }
  destruct o as [l token|le|le d]; cbn [lock_step op_key op_ttl_pos] in *.
  - unfold tryAcquire, command. cbn [at_time conn now issued]. rewrite roundtrip_ok.
    destruct (tryAcquire_spec r t l token Hp Hk) as (r' & -> & Hl). cbn [fst snd]. rewrite set_conn_ok by done. cbn [now issued].
    intros Heq. eapply Hfin; [exact Heq| |exact Hl|done].
    by destruct (holder_of _) as [[tok d]|].
  - unfold Lease_Release, releaseScript. cbn [at_time conn now issued validateContext ctx_Err Background fmap option_fmap option_map].
    rewrite roundtrip_ok.
    destruct (owner_script r t (lkey le) (ltoken le) DEL (fun _ => None) Hk) as (r' & -> & Hl); [done|].
    cbn [fst snd Int64]. rewrite set_conn_ok by done. cbn [now issued]. intros Heq. eapply Hfin; [exact Heq| |exact Hl|];
      destruct (holder_of _) as [[tok d]|]; cbn [cell_step fst snd]; try done;
      destruct (decide (tok = ltoken le)); [rewrite bool_decide_eq_true_2|rewrite bool_decide_eq_false_2|
        rewrite bool_decide_eq_true_2|rewrite bool_decide_eq_false_2]; done.
  - unfold Refresh, refreshScript. cbn [at_time conn now issued validateContext ctx_Err Background fmap option_fmap option_map].
    destruct (Z.leb_spec d 0); [lia|]. rewrite roundtrip_ok.
    destruct (owner_script r t (lkey le) (ltoken le) (PEXPIRE (milliseconds d))
      (fmap (fun p => (p.1, ends t (milliseconds d)))) Hk) as (r' & -> & Hl).
    { intros d0. simpl. pose proof (milliseconds_pos d). destruct (Z.leb_spec (milliseconds d) 0); [lia|].
      split; [done|]. simpl. pose proof (milliseconds_after t d).
      by destruct (Z.ltb_spec t (ends t (milliseconds d))); [|lia]. }
    cbn [fst snd Int64]. rewrite set_conn_ok by done. cbn [now issued]. intros Heq. eapply Hfin; [exact Heq| |exact Hl|];
      destruct (holder_of _) as [[tok d']|]; cbn [cell_step fst snd]; try done;
      destruct (decide (tok = ltoken le)); [rewrite bool_decide_eq_true_2|rewrite bool_decide_eq_false_2|
        rewrite bool_decide_eq_true_2|rewrite bool_decide_eq_false_2]; done.
Qed.
End Cell.

(** ** Properties *)

Section Runs.
Context {R : Type} `{!RedisServer R, !RedisLaws R, !ClientOptions}.

Fixpoint lock_run (ops : list (Z * lop)) (w : world R) : world R * list (option error) :=
  match ops with
  | [] => (w, [])
  | (t, o) :: ops =>
      let '(w, a) := lock_step t o w in
      let '(w, l) := lock_run ops w in
      (w, a :: l)
  end.

(** Times never go back, and stay below [e]. *)
Fixpoint lock_times (t e : Z) (ops : list (Z * lop)) : Prop :=
  match ops with
  | [] => True
  | (t', _) :: ops => t <= t' < e /\ lock_times t' e ops
  end.

(** The answer to an operation of someone who does not hold the key. *)
Definition refused (o : lop) : option error :=
  match o with OTry _ _ => Some ErrNotAcquired | _ => Some ErrLeaseLost end.

Lemma cell_step_held t o tok d :
  ~ op_owner tok o -> cell_step t o (Some (tok, d)) = (Some (tok, d), refused o).
Proof. intros Ho. destruct o as [l tk|le|le d']; simpl in *; [done|..]; by rewrite decide_False. Qed.

(** C13: mutual exclusion.  While a lease has not ended and its token is used by
    nobody else, every run of lock operations on the server leaves it in place:
    each attempt to take the key is refused with [ErrNotAcquired], each release
    or refresh under another token with [ErrLeaseLost]; at any instant before the
    end the owner's own release succeeds and frees the key, and its refresh
    succeeds and moves the end. *)
Theorem lock_exclusive K t k tok d ops (w w' : world R) ans t1 d1 :
  lock_inv K w t -> lock_view w t k = Some (tok, d) -> lock_times t d ops ->
  Forall (fun p => K (op_key p.2) /\ op_ttl_pos p.2 /\ (op_key p.2 = k -> ~ op_owner tok p.2)) ops ->
  lock_run ops w = (w', ans) -> K k -> default t (fst <$> last ops) <= t1 < d -> 0 < d1 ->
  lock_view w' t1 k = Some (tok, d) /\
  Forall2 (fun p a => op_key p.2 = k -> a = refused p.2) ops ans /\
  (let '(w2, a) := lock_step t1 (ORelease (mkLease k tok)) w' in
   a = None /\ lock_view w2 t1 k = None) /\
  (let '(w2, a) := lock_step t1 (ORefresh (mkLease k tok) d1) w' in
   a = None /\ lock_view w2 t1 k = Some (tok, ends t1 (milliseconds d1))).
Proof.
  intros Hi Hv Hts Hall Hrun HK Ht1 Hd1. revert t w ans Hi Hv Hts Hrun Ht1.
  induction ops as [|[now o] ops IH]; intros t w ans Hi Hv Hts Hrun Ht1.
  - injection Hrun as -> <-. cbn [last fmap option_fmap option_map default] in Ht1.
    assert (Hv1 : lock_view w' t1 k = Some (tok, d)).
    { rewrite (lock_view_later w' t t1) by lia. rewrite Hv. simpl. by destruct (Z.ltb_spec t1 d); [|lia]. }
    assert (Hi1 : lock_inv K w' t1) by (eapply lock_inv_later; [done|lia]).
    split; [done|]. split; [constructor|]. split.
    + destruct (lock_step t1 (ORelease (mkLease k tok)) w') as [w2 a] eqn:E.
      destruct (lock_step_spec K t1 (ORelease (mkLease k tok)) w' w2 a Hi1 HK I E) as (_ & -> & Hw & _).
      cbn [op_key lkey] in Hw |- *. rewrite Hv1 in Hw |- *. cbn [cell_step ltoken] in Hw |- *.
      by rewrite decide_True in Hw |- * by done.
    + destruct (lock_step t1 (ORefresh (mkLease k tok) d1) w') as [w2 a] eqn:E.
      destruct (lock_step_spec K t1 (ORefresh (mkLease k tok) d1) w' w2 a Hi1 HK Hd1 E) as (_ & -> & Hw & _).
      cbn [op_key lkey] in Hw |- *. rewrite Hv1 in Hw |- *. cbn [cell_step ltoken] in Hw |- *.
      by rewrite decide_True in Hw |- * by done.
  - apply Forall_cons in Hall as [(HKo & Hpo & Hoo) Hall]. destruct Hts as [Hnow Hts]. cbn [lock_run snd] in *.
    destruct (lock_step now o w) as [w1 a] eqn:E. destruct (lock_run ops w1) as [w2 l] eqn:Er. simplify_eq.
    destruct (lock_step_spec K now o w w1 a (lock_inv_later K w t now Hi ltac:(lia)) HKo Hpo E)
      as (Hi1 & Ha & Hvo & Hne).
    assert (Hvn : lock_view w now k = Some (tok, d)).
    { rewrite (lock_view_later w t now) by lia. rewrite Hv. simpl. by destruct (Z.ltb_spec now d); [|lia]. }
    assert (Hv1 : lock_view w1 now k = Some (tok, d)).
    { destruct (decide (k = op_key o)) as [->|Hk]; [|rewrite Hne by done; done].
      rewrite Hvo, Hvn, cell_step_held by auto. done. }
    assert (Hlast : default t (fst <$> last ((now, o) :: ops)) = default now (fst <$> last ops)).
    { destruct ops as [|p ops]; [done|]. rewrite last_cons. by destruct (last (p :: ops)) eqn:El;
        [|apply last_None in El]. }
    rewrite Hlast in Ht1. destruct (IH Hall now w1 l Hi1 Hv1 Hts Er Ht1) as (? & Hf & ? & ?).
    split_and!; [done| |done|done]. constructor; [|done]. cbn [snd]. intros <-.
    rewrite Ha, Hvn, cell_step_held by auto. done.
Qed.
End Runs.

Section Bracket.
Context {R : Type} `{!RedisServer R, !RedisLaws R, !ClientOptions}.
Variable uuid : nat -> string.

(** What the deferred release makes of the handler's outcome. *)
Definition after_release (out : handled) (lost : bool) : handled :=
  match out with
  | Panicked => Panicked
  | Returned err => Returned (match err with
                              | None => if lost then Some ErrLeaseLost else None
                              | Some e => Some (if lost then ErrJoin [e; ErrLeaseLost] else e)
                              end)
  end.

(** [Try] on a Redis lock.  A held key refuses without running the handler.
    On a free key the handler starts with the key held under a new token until
    its TTL; however the handler ends, a panic included, the key is released if
    it is still held under that token, and a lease that was lost is reported
    without touching the key of its new owner. *)
Theorem redis_try_brackets K fuel env rnd l c handler (w : world R) :
  lock_inv K w (now w) -> K (key l) -> 0 < ttl l -> name l <> "" -> (forall n, c n = None) ->
  let tok := uuid (issued w) in
  let '(w', out) := Try (Some c) (Some (redis_lock uuid fuel env rnd l)) (Some handler) w in
  match lock_view w (now w) (key l) with
  | Some h => out = Returned (Some ErrNotAcquired) /\ lock_view w' (now w) (key l) = Some h
  | None =>
      exists w1, lock_view w1 (now w) (key l) = Some (tok, ends (now w) (client_ms (ttl l))) /\
        now w1 = now w /\ lock_inv K w1 (now w) /\
        (lock_inv K (handler w1).1 (now (handler w1).1) ->
         let '(w2, res) := handler w1 in
         let kept := match lock_view w2 (now w2) (key l) with
                     | Some (tok', _) => bool_decide (tok' = tok)
                     | None => false
                     end in
         out = after_release res (negb kept) /\
         lock_view w' (now w2) (key l) = if kept then None else lock_view w2 (now w2) (key l))
  end.
Proof.
  intros Hi HK Hp Hn Hc tok. unfold Try, bracket, validateHandler, validateContext, ctx_Err. rewrite Hc.
  cbn [fmap option_fmap option_map redis_lock TryAcquire].
  unfold Lock_TryAcquire, lock_validate, validateContext, ctx_Err. rewrite Hc.
  cbn [fmap option_fmap option_map]. rewrite bool_decide_eq_false_2 by done.
  destruct (Z.leb_spec (ttl l) 0); [lia|]. cbn [NewString]. fold tok.
  set (w0 := mkWorld (conn w) (now w) (S (issued w))).
  destruct (tryAcquire l tok w0) as [w1 r] eqn:E1.
  assert (Est : lock_step (now w) (OTry l tok) w0
                = (w1, match r with inl _ => None | inr e => Some e end)).
  { simpl. unfold at_time. cbn [conn issued w0]. fold w0. by rewrite E1. }
  destruct (lock_step_spec K (now w) (OTry l tok) w0 w1 _ Hi HK Hp Est) as (Hi1 & Ha & Hv1 & _).
  assert (Hv : lock_view w0 (now w) (op_key (OTry l tok)) = lock_view w (now w) (key l)) by done.
  rewrite Hv in *. clear Hv.
  assert (Hnow : now w1 = now w /\ (r = inl (mkLease (key l) tok) \/ exists e, r = inr e)).
  { unfold tryAcquire in E1. destruct (command _ _ _ _) as [cl res]. injection E1 as <- <-.
    split; [by rewrite set_conn_ok by apply Hi|]. destruct res as [[]|]; eauto. }
  destruct Hnow as [Hnow Hr]. destruct (lock_view w (now w) (key l)) as [[tk d]|]; simpl in Ha, Hv1.
  { destruct r as [le|e]; [done|]. injection Ha as ->. done. }
  destruct r as [le|e]; [|done]. destruct Hr as [[= ->]|[e He]]; [|done].
  destruct (handle c _ _ handler w1) as [w3 out] eqn:E3. exists w1. split_and!; [done|done|done|].
  intros Hi2. unfold handle in E3. destruct (handler w1) as [w2 res]. cbn [fst] in Hi2.
  destruct (Release _ _ _ _ w2) as [w4 a] eqn:E4. injection E3 as <- <-.
  assert (Es2 : lock_step (now w2) (ORelease (mkLease (key l) tok)) w2 = (w4, a)).
  { simpl. rewrite <- E4. by destruct w2. }
  destruct (lock_step_spec K (now w2) (ORelease (mkLease (key l) tok)) w2 w4 a Hi2 HK I Es2) as (_ & -> & Hv4 & _).
  cbn [op_key lkey] in *. rewrite Hv4. simpl.
  destruct (lock_view w2 (now w2) (key l)) as [[tk d]|]; simpl.
  - destruct (decide (tk = tok)) as [->|Hne].
    + rewrite bool_decide_eq_true_2 by done. by destruct res as [[]|].
    + rewrite bool_decide_eq_false_2 by done. by destruct res as [[]|].
  - by destruct res as [[]|].
Qed.

(** The world before the [i]-th attempt of [Acquire]. *)
Fixpoint before_attempt (l : RedisLock) (token : string) (env : nat -> Z -> world R -> world R)
    (rnd : nat -> Z) (i : nat) (w : world R) : world R :=
  match i with
  | O => w
  | S i =>
      let w := before_attempt l token env rnd i w in
      env i (waitInterval l (rnd i)) (tryAcquire l token w).1
  end.

Lemma tryAcquire_step K l token (w : world R) :
  lock_inv K w (now w) -> K (key l) -> 0 < ttl l ->
  (tryAcquire l token w).2 = match lock_view w (now w) (key l) with
                             | None => inl (mkLease (key l) token)
                             | Some _ => inr ErrNotAcquired
                             end /\
  lock_view (tryAcquire l token w).1 (now w) (key l)
  = (cell_step (now w) (OTry l token) (lock_view w (now w) (key l))).1.
Proof.
  intros Hi HK Hp. destruct w as [[r fs] t n]. destruct (Hi) as [Hf Hs]. simpl in Hf, Hs. subst fs.
  unfold tryAcquire, command, lock_view. cbn [conn now issued server]. rewrite roundtrip_ok.
  destruct (tryAcquire_spec r t l token Hp (fun en => Hs (key l) en HK)) as (r' & -> & [Hl _]).
  simpl. rewrite Hl. by destruct (holder_of _) as [[tok d]|].
Qed.

Lemma acquire_loop_turns K l c token env rnd i (w : world R) :
  K (key l) -> 0 < ttl l -> (forall n, c n = None) ->
  (forall j, (j <= i)%nat ->
     lock_inv K (before_attempt l token env rnd j w) (now (before_attempt l token env rnd j w))) ->
  (forall j, (j < i)%nat -> lock_view (before_attempt l token env rnd j w)
     (now (before_attempt l token env rnd j w)) (key l) <> None) ->
  forall fuel n, (i <= fuel)%nat -> exists m,
  acquire_loop fuel l (Some c) token env rnd n 0 w
  = acquire_loop (fuel - i) l (Some c) token env rnd m i (before_attempt l token env rnd i w).
Proof.
  intros HK Hp Hc. induction i as [|i IH]; intros Hi Hh fuel n Hfu.
  - exists n. by rewrite Nat.sub_0_r.
  - destruct (IH (fun j Hj => Hi j ltac:(lia)) (fun j Hj => Hh j ltac:(lia)) fuel n ltac:(lia)) as [m ->].
    replace (fuel - i)%nat with (S (fuel - S i)) by lia. cbn [acquire_loop].
    set (wi := before_attempt l token env rnd i w).
    destruct (tryAcquire_step K l token wi (Hi i ltac:(lia)) HK Hp) as [Hr _].
    pose proof (Hh i ltac:(lia)) as Hheld. fold wi in Hheld.
    destruct (lock_view wi (now wi) (key l)) as [h|]; [|done].
    change (before_attempt l token env rnd (S i) w)
      with (env i (waitInterval l (rnd i)) (tryAcquire l token wi).1).
    destruct (tryAcquire l token wi) as [w' r]. simpl in Hr. subst r. cbn [fst].
    unfold wait, ctx_Err. rewrite Hc. cbn [fmap option_fmap option_map]. by eexists.
Qed.

(** [Acquire] returns as soon as an attempt finds the key free: if the key
    is held at the attempts before the [i]-th and free at the [i]-th, whatever
    happens on the server during the waits, it returns the lease of its token
    and the key is held under it until the TTL. *)
Theorem acquire_when_free K l c env rnd i (w : world R) :
  let w0 := mkWorld (conn w) (now w) (S (issued w)) in
  let token := uuid (issued w) in
  let wi := before_attempt l token env rnd i w0 in
  K (key l) -> 0 < ttl l -> name l <> "" -> (forall n, c n = None) ->
  (forall j, (j <= i)%nat ->
     lock_inv K (before_attempt l token env rnd j w0) (now (before_attempt l token env rnd j w0))) ->
  (forall j, (j < i)%nat -> lock_view (before_attempt l token env rnd j w0)
     (now (before_attempt l token env rnd j w0)) (key l) <> None) ->
  lock_view wi (now wi) (key l) = None ->
  forall fuel, (i < fuel)%nat ->
  exists w', Lock_Acquire uuid fuel env rnd l (Some c) 0 w = (w', Some (inl (mkLease (key l) token))) /\
    lock_view w' (now wi) (key l) = Some (token, ends (now wi) (client_ms (ttl l))).
Proof.
  intros w0 token wi HK Hp Hn Hc Hi Hh Hfree fuel Hfu.
  unfold Lock_Acquire, lock_validate, validateContext, ctx_Err. rewrite Hc.
  cbn [fmap option_fmap option_map]. rewrite bool_decide_eq_false_2 by done.
  destruct (Z.leb_spec (ttl l) 0); [lia|]. cbn [NewString]. fold token w0.
  destruct (acquire_loop_turns K l c token env rnd i w0 HK Hp Hc Hi Hh fuel 1 ltac:(lia)) as [m ->].
  replace (fuel - i)%nat with (S (fuel - S i)) by lia. cbn [acquire_loop]. fold wi.
  destruct (tryAcquire_step K l token wi (Hi i ltac:(lia)) HK Hp) as [Hr Hv]. rewrite Hfree in Hr, Hv.
  destruct (tryAcquire l token wi) as [w' r]. simpl in Hr, Hv. subst r. by exists w'.
Qed.
End Bracket.

(** A server on which the key [locker:job] has been taken at 0 for 5 ms. *)
Definition job : RedisLock := mkRedisLock "job" "locker:job" 5000000 50 100.
Definition idle : world MapServer := mkWorld (mkClient empty_server []) 0 0.
Definition taken : world MapServer := (lock_step 0 (OTry job "a") idle).1.

Lemma idle_inv t n : lock_inv (fun _ => True) (mkWorld (mkClient empty_server []) t n) t.
Proof. split; [done|]. intros k en _. by rewrite empty_server_lookup. Qed.

Lemma taken_inv : lock_inv (fun _ => True) taken 0.
Proof.
  unfold taken. destruct (lock_step 0 (OTry job "a") idle) as [w' a] eqn:E.
  destruct (lock_step_spec (fun _ => True) 0 (OTry job "a") idle w' a) as (H & _); [|done..].
  apply idle_inv.
Qed.

Lemma lock_exclusive_witness :
  let ops := [(1, OTry job "b"); (2000000, ORelease (mkLease "locker:job" "b"))] in
  (lock_run ops taken).2 = [Some ErrNotAcquired; Some ErrLeaseLost] /\
  lock_view (lock_run ops taken).1 3000000 "locker:job" = Some ("a", 6000000).
Proof.
  intros ops. split; [vm_compute; reflexivity|].
  destruct (lock_run ops taken) as [w' ans] eqn:E.
  destruct (lock_exclusive (fun _ => True) 0 "locker:job" "a" 6000000 ops taken w' ans 3000000 1)
    as (Hv & _); [apply taken_inv|reflexivity|simpl; lia| |exact E|done|simpl; lia|lia|exact Hv].
  apply Forall_cons_2; [simpl; split_and!; by try intros _ []|].
  apply Forall_cons_2; [simpl; split_and!; done|apply Forall_nil_2].
Defined.

(** A handler that outlives its lease: the key expires and is taken by "z". *)
Definition slow (w : world MapServer) : world MapServer * handled :=
  ((lock_step 7000000 (OTry job "z") w).1, Returned None).

Definition counter_uuid (n : nat) : string := FormatInt (Z.of_nat n).

Lemma redis_try_brackets_witness :
  let '(w', out) := Try (Some Background)
    (Some (redis_lock counter_uuid 0 (fun _ _ w => w) (fun _ => 0) job)) (Some slow) idle in
  (exists w1, lock_view w1 0 "locker:job" = Some ("0", 6000000)) /\
  out = Returned (Some ErrLeaseLost) /\ lock_view w' 7000000 "locker:job" = Some ("z", 13000000).
Proof.
  pose proof (redis_try_brackets counter_uuid (fun _ => True) 0 (fun _ _ w => w) (fun _ => 0)
    job Background slow idle (idle_inv 0 0) I ltac:(done) ltac:(done) ltac:(done)) as H.
  destruct (Try _ _ _ _) as [w' out] eqn:E.
  replace (lock_view idle (now idle) (key job)) with (None : holder) in H by reflexivity.
  destruct H as (w1 & Hw1 & _). split; [by exists w1|].
  vm_compute in E. injection E as <- <-. split; vm_compute; reflexivity.
Defined.

(** While "a" holds the key, the second wait lasts past the end of its lease. *)
Definition later (i : nat) (d : Z) (w : world MapServer) : world MapServer :=
  mkWorld (conn w) (now w + 4000000) (issued w).

Lemma acquire_when_free_witness :
  exists w', Lock_Acquire counter_uuid 5 later (fun _ => 0) job (Some Background) 0 taken
             = (w', Some (inl (mkLease "locker:job" "0"))) /\
             lock_view w' 8000000 "locker:job" = Some ("0", 14000000).
Proof.
  assert (Hst : forall w t, lock_inv (fun _ => True) w t -> forall d, 0 <= d ->
    lock_inv (fun _ => True) (lock_step t (OTry job "0") w).1 (t + d)).
  { intros w t Hw d Hd. destruct (lock_step t (OTry job "0") w) as [w' a] eqn:E.
    destruct (lock_step_spec _ t (OTry job "0") w w' a Hw I ltac:(done) E) as (Hi & _).
    eapply lock_inv_later; [done|]. lia. }
  pose proof (acquire_when_free counter_uuid (fun _ => True) job Background later (fun _ => 0) 2 taken
    I ltac:(done) ltac:(done) ltac:(done)) as H.
  destruct H with (fuel := 5%nat) as (w' & H1 & H2); [| |reflexivity|lia|].
  - intros j Hj. destruct j as [|[|[|j]]]; [apply taken_inv| | |lia].
    + apply (Hst taken 0 taken_inv 4000000). lia.
    + apply (Hst _ 4000000 (Hst taken 0 taken_inv 4000000 ltac:(lia)) 4000000). lia.
  - intros j Hj. destruct j as [|[|j]]; [vm_compute; discriminate|vm_compute; discriminate|lia].
  - exists w'. split; [exact H1|exact H2].
Defined.
