(* ===== verification/Cache.v ===== *)
(** * Cache access: [src/cache]

    The contract of a cache backend, the no-op backend, the repository's
    convenience operations, the typed view with its cache-aside [Remember], and
    the package-level helpers.  A backend acts on a world [W] and stores values
    of a type [V]; the destination of a read is passed in and handed back. *)

From S2P Require Import Prelude GoErrors Locker.
From stdpp Require Import options.
Set Default Proof Using "Type*".
Local Open Scope string_scope.
Local Open Scope Z_scope.

(** ** [store.go] *)

Definition ErrNotFound : error := ErrNew "cache: the key is not found".

(** [Add] is [None] for a backend that is not [Addable].  [Flush] may loop: it
    takes fuel, and has no result when that runs out. *)
Class Store (W V : Type) := {
  Has : context -> string -> W -> W * (bool * option error);
  Get : context -> string -> V -> W -> W * (V * option error);
  Put : context -> string -> V -> Z -> W -> W * (bool * option error);
  Increment : context -> string -> Z -> W -> W * (Z * option error);
  Decrement : context -> string -> Z -> W -> W * (Z * option error);
  Forever : context -> string -> V -> W -> W * (bool * option error);
  Forget : context -> string -> W -> W * (bool * option error);
  Flush : nat -> context -> W -> W * option (bool * option error);
  GetPrefix : string;
  Add : option (context -> string -> V -> Z -> W -> W * (bool * option error))
}.

(** ** [null_store.go] *)

Inductive NullWorld := null_world.

#[export] Instance NullStore (V : Type) : Store NullWorld V := {|
  Has _ _ w := (w, (true, None));
  Get _ _ dest w := (w, (dest, None));
  Put _ _ _ _ w := (w, (true, None));
  Increment _ _ _ w := (w, (0, None));
  Decrement _ _ _ w := (w, (0, None));
  Forever _ _ _ w := (w, (true, None));
  Forget _ _ w := (w, (true, None));
  Flush _ _ w := (w, Some (true, None));
  GetPrefix := "";
  Add := None
|}.

Definition NullStore_Lock (name : string) (ttl : Z) : NoopLock := NoopLocker_Lock name ttl.

(** ** [repository.go] *)

Section Repository.
Context {W V : Type} `{!Store W V}.

Definition Missing (ctx : context) (key : string) (w : W) : W * (bool * option error) :=
  match Has ctx key w with
  | (w, (had, Some err)) => (w, (false, Some err))
  | (w, (had, None)) => (w, (negb had, None))
  end.

Definition Delete (ctx : context) (key : string) (w : W) : W * (bool * option error) :=
  Forget ctx key w.

Definition Set_ (ctx : context) (key : string) (value : V) (ttl : Z) (w : W)
    : W * (bool * option error) :=
  Put ctx key value ttl w.

Definition repository_Add (ctx : context) (key : string) (value : V) (ttl : Z) (w : W)
    : W * (bool * option error) :=
  match Add with
  | Some add => add ctx key value ttl w
  | None =>
      match Missing ctx key w with
      | (w, (missing, Some err)) => (w, (false, Some err))
      | (w, (missing, None)) =>
          if missing then
            match Set_ ctx key value ttl w with
            | (w, (status, Some err)) => (w, (false, Some err))
            | (w, (status, None)) => (w, (status, None))
            end
          else (w, (false, None))
      end
  end.

(** ** [typed.go] *)

Definition ErrWriteUnconfirmed : error := ErrNew "cache: write was not confirmed".

(** The zero value of the view's type. *)
Variable zero : V.

Definition is_not_found (err : option error) : bool :=
  match err with Some e => errors_Is e "cache: the key is not found" | None => false end.

Definition TypedView_Get (ctx : context) (key : string) (w : W) : W * (V * option error) :=
  Get ctx key zero w.

Definition TypedView_Set (ctx : context) (key : string) (value : V) (ttl : Z) (w : W)
    : W * option error :=
  match Put ctx key value ttl w with
  | (w, (ok, Some err)) => (w, Some err)
  | (w, (ok, None)) => (w, if ok then None else Some ErrWriteUnconfirmed)
  end.

Definition TypedView_Remember (ctx : context) (key : string) (ttl : Z)
    (load : context -> W -> W * (V * option error)) (w : W) : W * (V * option error) :=
  let '(w, (value, err)) := TypedView_Get ctx key w in
  if negb (is_not_found err) then (w, (value, err))
  else
    let '(w, (value, err)) := load ctx w in
    match err with
    | Some e => (w, (value, Some e))
    | None => let '(w, err) := TypedView_Set ctx key value ttl w in (w, (value, err))
    end.

(** ** [utils.go] *)

(** [return result, repository.Get(ctx, key, &result)]: the language does not
    say whether the variable [result] is read before or after the call; [read]
    is the compiler's choice. *)
Inductive order := VariableFirst | CallFirst.

Definition utils_Get (read : order) (ctx : context) (key : string) (w : W) : W * (V * option error) :=
  let result := zero in
  let '(w, (result', err)) := Get ctx key result w in
  (w, (match read with VariableFirst => result | CallFirst => result' end, err)).

Definition utils_Remember (ctx : context) (key : string) (ttl : Z)
    (callback : W -> W * (V * option error)) (w : W) : W * (V * option error) :=
  let '(w, (result, err)) := Get ctx key zero w in
  if negb (is_not_found err) then (w, (result, err))
  else
    let '(w, (result, err)) := callback w in
    match err with
    | Some e => (w, (result, Some e))
    | None =>
        match Put ctx key result ttl w with
        | (w, (_, Some e)) => (w, (result, Some e))
        | (w, (_, None)) => (w, (result, None))
        end
    end.
End Repository.

(** Under [CallFirst] the package's [Get] is the typed view's; under
    [VariableFirst], which the language allows as well, it returns the zero value
    whatever the cache holds. *)
Theorem utils_Get_order {W V} `{!Store W V} (zero : V) ctx key (w : W) :
  utils_Get zero CallFirst ctx key w = TypedView_Get zero ctx key w /\
  (utils_Get zero VariableFirst ctx key w).2.1 = zero.
Proof. unfold utils_Get, TypedView_Get. by destruct (Get ctx key zero w) as [w' [v err]]. Qed.

(** A no-op backend reports every key as present, so that [Remember] never runs
    its loader and returns the zero value. *)
Lemma null_remember {V} (zero : V) ctx key ttl load :
  TypedView_Remember zero ctx key ttl load null_world = (null_world, (zero, None)).
Proof. done. Qed.
