(* ===== verification/CacheRedis.v ===== *)
(** * The Redis cache backend: [src/cache/redis]

    Values are encoded by a codec and kept under a prefix with the server's
    expiry.  The backend implements the interface of [Cache]; its locks are those
    of [LockerRedis]. *)

From S2P Require Import Prelude GoErrors GoStrconv Redis Locker LockerRedis Cache.
From stdpp Require Import options.
Set Default Proof Using "Type*".
Local Open Scope string_scope.
Local Open Scope Z_scope.

(** The codec of [src/codec]: encoding, and decoding into a destination, which
    may be left partly written when it fails. *)
Record Codec (V : Type) := mkCodec {
  Marshal : V -> string + error;
  Unmarshal : string -> V -> V * option error
}.
Arguments mkCodec {V} _ _.
Arguments Marshal {V} _ _.
Arguments Unmarshal {V} _ _ _.

(** The kind of client [Flush] finds behind the interface: one server, or one
    that is neither a server, a cluster nor a ring. *)
Inductive client_kind := SingleClient | OtherClient.

Definition redis_Nil : error := ErrNew "redis: nil".
Definition ErrFlushUnsupported : error :=
  ErrNew "cache/redis: prefix flush is not supported by this redis client".

Section Store.
Context {R V : Type} `{!RedisServer R, !ClientOptions}.

(** A reply of [SCAN] at a time, from a cursor, for a pattern: keys and the next
    cursor. *)
Variable SCAN : Z -> Z -> string -> R -> list string * Z.

Record RedisStore := mkStore {
  prefix : string; codec : Codec V; kind : client_kind; lockBackend : RedisLocker R
}.

Definition Prefix (p : string) (s : RedisStore) : RedisStore :=
  if negb (bool_decide (p = "")) then mkStore (TrimSuffix p +:+ ":") (codec s) (kind s) (lockBackend s)
  else s.

Definition Codec_ (c : Codec V) (s : RedisStore) : RedisStore :=
  mkStore (prefix s) c (kind s) (lockBackend s).

(** [New] panics, in [lockerredis.New], on a nil client. *)
Definition New (json : Codec V) (redis : option (Client R)) (k : client_kind)
    (opts : list (RedisStore -> RedisStore)) : option RedisStore :=
  story ← (fun lb => mkStore "" json k lb) <$> LockerRedis.New redis [];
  Some (foldl (fun s o => o s) story opts).

(** One command at the world's time. *)
Definition send (w : world R) (k : string) (c : cmd) : world R * (reply + error) :=
  let '(cl, r) := command (conn w) (now w) k c in (set_conn w cl, r).

Variable s : RedisStore.

Definition RedisHas (ctx : context) (key : string) (w : world R) : world R * (bool * option error) :=
  match send w (prefix s +:+ key) EXISTS with
  | (w, inr err) => (w, (false, Some err))
  | (w, inl r) => (w, (match r with RInt n => n >? 0 | _ => false end, None))
  end.

Definition RedisGet (ctx : context) (key : string) (dest : V) (w : world R)
    : world R * (V * option error) :=
  let '(w, r) := send w (prefix s +:+ key) GET in
  match (match r with inl (RStr v) => inl v | inl _ => inr redis_Nil | inr err => inr err end) with
  | inr err =>
      (w, (dest, Some (if errors_Is err "redis: nil" then ErrNotFound else err)))
  | inl v => (w, Unmarshal (codec s) v dest)
  end.

Definition RedisPut (ctx : context) (key : string) (value : V) (ttl : Z) (w : world R)
    : world R * (bool * option error) :=
  match Marshal (codec s) value with
  | inr err => (w, (false, Some err))
  | inl valued =>
      match send w (prefix s +:+ key) (SET valued (expiration ttl)) with
      | (w, inr err) => (w, (false, Some err))
      | (w, inl r) => (w, (match r with ROK => true | _ => false end, None))
      end
  end.

Definition RedisIncrement (ctx : context) (key : string) (value : Z) (w : world R)
    : world R * (Z * option error) :=
  match send w (prefix s +:+ key) (INCRBY value) with
  | (w, inr err) => (w, (0, Some err))
  | (w, inl r) => (w, (match r with RInt n => n | _ => 0 end, None))
  end.

Definition RedisDecrement (ctx : context) (key : string) (value : Z) (w : world R)
    : world R * (Z * option error) :=
  match send w (prefix s +:+ key) (DECRBY value) with
  | (w, inr err) => (w, (0, Some err))
  | (w, inl r) => (w, (match r with RInt n => n | _ => 0 end, None))
  end.

Definition RedisForever (ctx : context) (key : string) (value : V) (w : world R)
    : world R * (bool * option error) :=
  match Marshal (codec s) value with
  | inr err => (w, (false, Some err))
  | inl valued =>
      match send w (prefix s +:+ key) (SET valued (expiration 0)) with
      | (w, inr err) => (w, (false, Some err))
      | (w, inl r) => (w, (match r with ROK => true | _ => false end, None))
      end
  end.

Definition RedisForget (ctx : context) (key : string) (w : world R) : world R * (bool * option error) :=
  match send w (prefix s +:+ key) DEL with
  | (w, inr err) => (w, (false, Some err))
  | (w, inl r) => (w, (match r with RInt n => n >? 0 | _ => false end, None))
  end.

Definition RedisAdd (ctx : context) (key : string) (value : V) (ttl : Z) (w : world R)
    : world R * (bool * option error) :=
  match Marshal (codec s) value with
  | inr err => (w, (false, Some err))
  | inl valued =>
      match send w (prefix s +:+ key) (SETNX valued (expiration_nx ttl)) with
      | (w, inr err) => (w, (false, Some err))
      | (w, inl r) => (w, (match r with ROK => true | _ => false end, None))
      end
  end.

(** [DEL key...] on the server. *)
Definition del_all (keys : list string) (t : Z) (r : R) : R * (unit + error) :=
  (foldl (fun r k => (exec t k DEL r).1) r keys, inl tt).

(** The loop over the cursors of [SCAN]; each call is a round trip. *)
Fixpoint flush (fuel : nat) (cursor : Z) (w : world R) : world R * option (option error) :=
  match fuel with
  | O => (w, None)
  | S fuel =>
      let '(cl, res) :=
        roundtrip (conn w) (fun t r => (r, inl (SCAN t cursor (prefix s +:+ "*") r))) (now w) in
      let w := set_conn w cl in
      match res with
      | inr err => (w, Some (Some err))
      | inl (keys, next) =>
          let '(w, err) :=
            if (0 <? length keys)%nat then
              let '(cl, res) := roundtrip (conn w) (del_all keys) (now w) in
              (set_conn w cl, match res with inr err => Some err | inl _ => None end)
            else (w, None) in
          match err with
          | Some err => (w, Some (Some err))
          | None => if next =? 0 then (w, Some None) else flush fuel next w
          end
      end
  end.

Definition RedisFlush (fuel : nat) (ctx : context) (w : world R)
    : world R * option (bool * option error) :=
  match kind s with
  | OtherClient => (w, Some (false, Some ErrFlushUnsupported))
  | SingleClient =>
      match flush fuel 0 w with
      | (w, None) => (w, None)
      | (w, Some (Some err)) => (w, Some (false, Some err))
      | (w, Some None) => (w, Some (true, None))
      end
  end.

Definition RedisGetPrefix : string := prefix s.

Definition Store_Lock (key : string) (ttl : Z) : RedisLock := Locker_Lock (lockBackend s) (prefix s +:+ key) ttl.

Definition redis_cache : Cache.Store (world R) V := {|
  Has := RedisHas;
  Get := RedisGet;
  Put := RedisPut;
  Increment := RedisIncrement;
  Decrement := RedisDecrement;
  Forever := RedisForever;
  Forget := RedisForget;
  Flush := RedisFlush;
  GetPrefix := RedisGetPrefix;
  Add := Some RedisAdd
|}.
End Store.
Arguments RedisStore : clear implicits.

Section Send.
Context {R : Type} `{!RedisServer R, !RedisLaws R}.

(** One command of the backend on a healthy connection. *)
Lemma send_spec (w : world R) t k c :
  faults (conn w) = [] -> now w = t ->
  exists r', send w k c = (mkWorld (mkClient r' []) t (issued w),
      match (cmd_spec (ends t) c (lookup_at (server (conn w)) t k)).2 with RErr x => inr x | rep => inl rep end) /\
    lookup_at r' t k = unexpired t (cmd_spec (ends t) c (lookup_at (server (conn w)) t k)).1 /\
    (forall k' t', k' <> k -> t <= t' -> lookup_at r' t' k' = lookup_at (server (conn w)) t' k').
Proof.
  intros Hf <-. destruct w as [[r fs] t n]. simpl in *. subst fs. unfold send, command. simpl. rewrite roundtrip_ok.
  rewrite set_conn_ok by done.
  destruct (redis_call_step r t k c _ eq_refl) as (r' & -> & Hl & Hne). by exists r'.
Qed.

End Send.

(** ** The backend as a table

    A table of typed values with the instants they end, for the operations that
    go through the codec. *)
Section Table.
Context {R V : Type} `{!RedisServer R, !RedisLaws R, !ClientOptions}.
Variables (SCAN : Z -> Z -> string -> R -> list string * Z) (s : RedisStore R V) (zero : V).

(** The codec decodes what it encodes, whatever the destination held. *)
Hypothesis codec_ok : forall v, exists d, Marshal (codec s) v = inl d /\
  forall dest, Unmarshal (codec s) d dest = (v, None).

Inductive cop :=
| CHas (k : string)
| CGet (k : string) (dest : V)
| CPut (k : string) (v : V) (ttl : Z)
| CForever (k : string) (v : V)
| CForget (k : string)
| CAdd (k : string) (v : V) (ttl : Z).

Inductive canswer := ABool (b : bool) (err : option error) | AValue (v : V) (err : option error).

Definition op_name (o : cop) : string :=
  match o with CHas k | CGet k _ | CPut k _ _ | CForever k _ | CForget k | CAdd k _ _ => k end.

Definition at_now (t : Z) (w : world R) : world R := mkWorld (conn w) t (issued w).

Definition cache_step (t : Z) (o : cop) (w : world R) : world R * canswer :=
  let w := at_now t w in
  let store := redis_cache SCAN s in
  let bool_of p := let '(w, (b, err)) := p in (w, ABool b err) in
  match o with
  | CHas k => bool_of (Has Background k w)
  | CGet k dest => let '(w, (v, err)) := Get Background k dest w in (w, AValue v err)
  | CPut k v ttl => bool_of (Put Background k v ttl w)
  | CForever k v => bool_of (Forever Background k v w)
  | CForget k => bool_of (Forget Background k w)
  | CAdd k v ttl => bool_of (repository_Add Background k v ttl w)
  end.

Definition slot : Type := option (V * option Z).

Definition fresh_slot (t : Z) (v : V) (ttl : Z) (old : slot) : slot :=
  Some (v, match expiration ttl with
           | NoEnd => None
           | PX ms => Some (ends t ms)
           | KEEPTTL => p ← old; snd p
           end).

(** What the server answers to a time to live that is not positive. *)
Definition bad_expire : error := match BADEXPIRE with RErr e => e | _ => ErrNew "" end.

Definition slot_step (t : Z) (o : cop) (c : slot) : slot * canswer :=
  match o with
  | CHas _ => (c, ABool (bool_decide (c <> None)) None)
  | CGet _ dest => (c, match c with Some (v, _) => AValue v None | None => AValue dest (Some ErrNotFound) end)
  | CPut _ v ttl => (fresh_slot t v ttl c, ABool true None)
  | CForever _ v => (Some (v, None), ABool true None)
  | CForget _ => (None, ABool (bool_decide (c <> None)) None)
  | CAdd _ v ttl =>
      if ttl <? -1 then (c, ABool false (Some bad_expire))
      else
        match c with
        | Some _ => (c, ABool false None)
        | None => (fresh_slot t v ttl None, ABool true None)
        end
  end.

Definition slot_live (t : Z) (c : slot) : slot :=
  match c with
  | Some (_, Some d) => if t <? d then c else None
  | _ => c
  end.

(** An entry the backend wrote. *)
Definition cache_entry (en : entry) : Prop :=
  exists v d due, Marshal (codec s) v = inl d /\ en = mkEntry (VStr d) due.

Definition slot_of (e : option entry) : slot :=
  match e with
  | Some (mkEntry (VStr d) due) => Some ((Unmarshal (codec s) d zero).1, due)
  | _ => None
  end.

Definition cache_inv (w : world R) (t : Z) : Prop :=
  faults (conn w) = [] /\
  forall k en, lookup_at (server (conn w)) t (prefix s +:+ k) = Some en -> cache_entry en.

Definition cache_view (w : world R) (t : Z) (k : string) : slot :=
  slot_of (lookup_at (server (conn w)) t (prefix s +:+ k)).

Lemma slot_of_unexpired t e : slot_of (unexpired t e) = slot_live t (slot_of e).
Proof. destruct e as [[[d|h] [u|]]|]; simpl; try done; by destruct (t <? u). Qed.

Lemma cache_view_later w t t' k : t <= t' -> cache_view w t' k = slot_live t' (cache_view w t k).
Proof. intros Ht. unfold cache_view. rewrite (lookup_later _ t t') by done. apply slot_of_unexpired. Qed.

Lemma cache_inv_later w t t' : cache_inv w t -> t <= t' -> cache_inv w t'.
Proof.
  intros [Hf Hs] Ht. split; [done|]. intros k en. rewrite (lookup_later _ t) by done.
  intros [Hu _]%unexpired_Some. by apply (Hs k).
Qed.

Lemma decode v d dest : Marshal (codec s) v = inl d -> Unmarshal (codec s) d dest = (v, None).
Proof. intros Hm. destruct (codec_ok v) as (d' & Hm' & Hu). rewrite Hm' in Hm. by injection Hm as <-. Qed.

(** What a command that leaves [e] under a key makes of the store. *)
Lemma cache_left w t key r' n e :
  cache_inv w t -> lookup_at r' t (prefix s +:+ key) = unexpired t e ->
  (forall k' t', k' <> prefix s +:+ key -> t <= t' -> lookup_at r' t' k' = lookup_at (server (conn w)) t' k') ->
  (forall en, e = Some en -> cache_entry en) ->
  let w' := mkWorld (mkClient r' []) t n in
  cache_inv w' t /\ cache_view w' t key = slot_live t (slot_of e) /\
  (forall k, k <> key -> cache_view w' t k = cache_view w t k).
Proof.
  intros [Hf Hs] Hl Hne Hwf w'. unfold cache_view. simpl. split_and!.
  - split; [done|]. simpl. intros k en. destruct (decide (k = key)) as [->|Hk].
    + rewrite Hl. intros [He _]%unexpired_Some. by apply Hwf.
    + rewrite Hne by (done || by apply prefix_ne). apply Hs.
  - rewrite Hl. apply slot_of_unexpired.
  - intros k Hk. by rewrite Hne by (done || by apply prefix_ne).
Qed.

(** A command on the key of an entry. *)
Lemma cache_send w t key c :
  cache_inv w t ->
  let o := cmd_spec (ends t) c (lookup_at (server (conn w)) t (prefix s +:+ key)) in
  exists r', send (at_now t w) (prefix s +:+ key) c = (mkWorld (mkClient r' []) t (issued w),
      match o.2 with RErr x => inr x | rep => inl rep end) /\
    ((forall en, o.1 = Some en -> cache_entry en) ->
     let w' := mkWorld (mkClient r' []) t (issued w) in
     cache_inv w' t /\ cache_view w' t key = slot_live t (slot_of o.1) /\
     (forall k, k <> key -> cache_view w' t k = cache_view w t k)).
Proof.
  intros Hi o. destruct (send_spec (at_now t w) t (prefix s +:+ key) c (proj1 Hi) eq_refl) as (r' & -> & Hl & Hne).
  exists r'. split; [done|]. intros Hwf. by apply cache_left.
Qed.

Lemma slot_cases e :
  (forall en, e = Some en -> cache_entry en) ->
  (e = None /\ slot_of e = None) \/
  exists v d u, e = Some (mkEntry (VStr d) u) /\ slot_of e = Some (v, u) /\ Marshal (codec s) v = inl d.
Proof.
  intros Hs. destruct e as [en|]; [right|by left]. destruct (Hs en eq_refl) as (v & d & u & Hd & ->).
  exists v, d, u. simpl. by rewrite (decode v d zero Hd).
Qed.

Lemma slot_fresh t e v d ttl :
  (forall en, e = Some en -> cache_entry en) -> Marshal (codec s) v = inl d ->
  slot_live t (slot_of (Some (mkEntry (VStr d) (new_due (ends t) (expiration ttl) e))))
  = slot_live t (fresh_slot t v ttl (slot_of e)).
Proof.
  intros Hs Hd. simpl. rewrite (decode v d zero Hd). unfold fresh_slot. destruct (expiration ttl); simpl; [done|done|].
  by destruct (slot_cases e Hs) as [[-> ->]|(? & ? & ? & -> & -> & _)].
Qed.

Lemma cache_add_spec t k v ttl w w' a :
  cache_inv w t -> cache_step t (CAdd k v ttl) w = (w', a) ->
  let c := cache_view w t k in
  cache_inv w' t /\ a = (slot_step t (CAdd k v ttl) c).2 /\
  cache_view w' t k = slot_live t (slot_step t (CAdd k v ttl) c).1 /\
  (forall k', k' <> k -> cache_view w' t k' = cache_view w t k').
Proof.
  intros Hi. cbv zeta. pose proof (proj2 Hi k) as Hs. destruct (codec_ok v) as (d & Hd & _).
  unfold cache_step, repository_Add. cbn [Cache.Add redis_cache]. unfold RedisAdd. rewrite Hd.
  destruct (cache_send w t k (SETNX d (expiration_nx ttl)) Hi) as (r' & -> & Hw).
  unfold cache_view at 1 3. set (e := lookup_at (server (conn w)) t (prefix s +:+ k)) in *.
  cbn [cmd_spec slot_step] in Hw |- *.
  rewrite expiration_nx_bad in Hw |- *. destruct (Z.ltb_spec ttl (-1)) as [Hneg|Hneg].
  { destruct (Hw Hs) as (Hi' & Hv & Hne). intros [= <- <-]. split_and!; [done|done|exact Hv|done]. }
  rewrite (expiration_nx_same ttl Hneg) in Hw |- *.
  destruct (slot_cases e Hs) as [[He Hsl]|(v' & d' & u & He & Hsl & Hd')].
  - destruct Hw as (Hi' & Hv & Hne); [rewrite He; intros en [= <-]; by do 3 eexists|].
    pose proof (slot_fresh t e v d ttl Hs Hd) as Hfr. rewrite He in Hv. rewrite Hsl in Hfr |- *. rewrite He in Hfr |- *.
    cbn [fst snd] in Hv |- *. intros [= <- <-]. split_and!; [done|done| |done].
    rewrite Hv. exact Hfr.
  - destruct Hw as (Hi' & Hv & Hne); [rewrite He; intros en [= <-]; by exists v', d', u|].
    rewrite He in Hv. rewrite Hsl, He. cbn [fst snd] in Hv |- *. intros [= <- <-].
    split_and!; [done|done| |done]. rewrite Hv. cbn [slot_of]. by rewrite (decode v' d' zero Hd').
Qed.

Lemma cache_step_spec t o w w' a :
  cache_inv w t -> cache_step t o w = (w', a) ->
  let c := cache_view w t (op_name o) in
  cache_inv w' t /\ a = (slot_step t o c).2 /\ cache_view w' t (op_name o) = slot_live t (slot_step t o c).1 /\
  (forall k, k <> op_name o -> cache_view w' t k = cache_view w t k).
Proof.
  intros Hi. cbv zeta. pose proof (proj2 Hi (op_name o)) as Hs. pose proof (fun c => cache_send w t (op_name o) c Hi) as Hsend.
  cbv zeta in Hsend. set (e := lookup_at (server (conn w)) t (prefix s +:+ op_name o)) in *.
  pose proof (slot_cases e Hs) as Hslot. assert (Hview : cache_view w t (op_name o) = slot_of e) by done.
  destruct o as [k|k dest|k v ttl|k v|k|k v ttl]; [..|by apply cache_add_spec]; cbn [op_name] in *; rewrite Hview;
    unfold cache_step; cbv zeta; cbn [Has Get Put Forever Forget redis_cache].
  - unfold RedisHas. destruct (Hsend EXISTS) as (r' & -> & Hw). intros [= <- <-].
    destruct (Hw Hs) as (? & ? & ?). split_and!; [done| |done|done]. simpl. by destruct Hslot as [[-> ->]|(? & ? & ? & -> & -> & _)].
  - unfold RedisGet. destruct (Hsend GET) as (r' & -> & Hw). destruct (Hw Hs) as (Hi' & Hv & Hne).
    destruct Hslot as [[He Hsl]|(v & d & u & He & Hsl & Hd)];
      cbn [cmd_spec fst snd] in Hv |- *; rewrite Hsl in Hv |- *; rewrite He; cbn [slot_step fst snd].
    + intros [= <- <-]. done.
    + rewrite (decode v d dest Hd). intros [= <- <-]. done.
  - unfold RedisPut. destruct (codec_ok v) as (d & Hd & _). rewrite Hd.
    destruct (Hsend (SET d (expiration ttl))) as (r' & -> & Hw). cbn [cmd_spec] in Hw |- *.
    rewrite expiration_good in Hw |- *. intros [= <- <-].
    destruct Hw as (Hi' & Hv & Hne); [intros en [= <-]; by exists v, d, (new_due (ends t) (expiration ttl) e)|].
    split_and!; [done|done| |done]. rewrite Hv. by apply slot_fresh.
  - unfold RedisForever. destruct (codec_ok v) as (d & Hd & _). rewrite Hd.
    destruct (Hsend (SET d (expiration 0))) as (r' & -> & Hw). intros [= <- <-].
    destruct Hw as (Hi' & Hv & Hne); [intros en [= <-]; by exists v, d, None|].
    split_and!; [done|done| |done]. rewrite Hv. simpl. by rewrite (decode v d zero Hd).
  - unfold RedisForget. destruct (Hsend DEL) as (r' & -> & Hw). intros [= <- <-].
    destruct Hw as (Hi' & Hv & Hne); [done|]. split_and!; [done| |done|done].
    simpl. by destruct Hslot as [[-> ->]|(? & ? & ? & -> & -> & _)].
Qed.

Fixpoint cache_run (ops : list (Z * cop)) (w : world R) : list canswer :=
  match ops with
  | [] => []
  | (t, o) :: ops => let '(w, a) := cache_step t o w in a :: cache_run ops w
  end.

(** The same operations on a table. *)
Fixpoint table_run (ops : list (Z * cop)) (m : string -> slot) : list canswer :=
  match ops with
  | [] => []
  | (t, o) :: ops =>
      let '(c, a) := slot_step t o (slot_live t (m (op_name o))) in
      a :: table_run ops (fun k => if decide (k = op_name o) then c else m k)
  end.

(** Times never go back. *)
Fixpoint nondecreasing (t : Z) (ops : list (Z * cop)) : Prop :=
  match ops with
  | [] => True
  | (t', _) :: ops => t <= t' /\ nondecreasing t' ops
  end.

Lemma slot_live_again t t' c : t <= t' -> slot_live t' (slot_live t c) = slot_live t' c.
Proof.
  intros Ht. destruct c as [[v [d|]]|]; simpl; try done.
  destruct (Z.ltb_spec t d); simpl; [done|]. by destruct (Z.ltb_spec t' d); [lia|].
Qed.

(** C15: the Redis backend is a table of values with expiry: whatever sequence of
    [Has], [Get], [Put], [Forever], [Forget] and [Add] is made on it, at times
    that never go back, each returns what the table returns, a codec that
    decodes what it encodes being given and the connection working.  [Add]
    inserts exactly when the key is absent.  [Put] with a TTL of zero or less
    stores a value that never ends, -1 keeping the end the key has; [Add] does so
    with zero and -1, and with any other negative TTL changes nothing and returns
    the server's error. *)
Theorem cache_redis_refines t ops w m :
  cache_inv w t -> (forall k, cache_view w t k = slot_live t (m k)) -> nondecreasing t ops ->
  cache_run ops w = table_run ops m.
Proof.
  revert t w m. induction ops as [|[t' o] ops IH]; intros t w m Hi Hm Hts; [done|].
  destruct Hts as [Ht Hts]. cbn [cache_run table_run].
  assert (Hm' : forall k, cache_view w t' k = slot_live t' (m k)).
  { intros k. rewrite (cache_view_later w t t') by done. by rewrite Hm, slot_live_again. }
  destruct (cache_step t' o w) as [w' a] eqn:E.
  destruct (cache_step_spec t' o w w' a (cache_inv_later w t t' Hi Ht) E) as (Hi' & -> & Hv & Hne).
  clear E. rewrite Hm' in Hv |- *. destruct (slot_step t' o _) as [c a']. cbn [fst snd] in *. f_equal.
  apply (IH t'); [done| |done]. intros k. case_decide as Hk; [by rewrite Hk, Hv|]. by rewrite Hne.
Qed.

(** ** [Remember] *)

Lemma get_spec w key dest :
  cache_inv w (now w) ->
  exists w', RedisGet s Background key dest w
             = (w', match cache_view w (now w) key with
                    | Some (v, _) => (v, None)
                    | None => (dest, Some ErrNotFound)
                    end) /\
    now w' = now w /\ cache_inv w' (now w) /\ forall k, cache_view w' (now w) k = cache_view w (now w) k.
Proof using All.
  intros Hi. destruct (cache_step (now w) (CGet key dest) w) as [w' a] eqn:E.
  destruct (cache_step_spec _ _ _ _ _ Hi E) as (Hi' & Ha & Hv & Hne).
  unfold cache_step in E. cbv zeta in E. cbn [Cache.Get redis_cache] in E.
  assert (Hat : at_now (now w) w = w) by (by destruct w). rewrite Hat in E.
  assert (Hnow : now (RedisGet s Background key dest w).1 = now w).
  { unfold RedisGet, send. destruct (command _ _ _ _) as [cl r]. rewrite set_conn_ok by apply Hi. by destruct r as [[]|]; simpl; try destruct (errors_Is _ _). }
  destruct (RedisGet s Background key dest w) as [w1 [v err]]. injection E as <- <-. exists w1.
  cbn [op_name fst] in *. split_and!; [|done|done|].
  - f_equal. simpl in Ha. by destruct (cache_view w (now w) key) as [[x u]|]; injection Ha as -> ->.
  - intros k. destruct (decide (k = key)) as [->|Hk]; [|by apply Hne]. rewrite Hv. simpl.
    rewrite <- (cache_view_later w (now w) (now w)) by done. done.
Qed.

Lemma put_spec w key v ttl :
  cache_inv w (now w) ->
  exists w', RedisPut s Background key v ttl w = (w', (true, None)) /\ now w' = now w /\
    cache_inv w' (now w) /\
    cache_view w' (now w) key = slot_live (now w) (fresh_slot (now w) v ttl (cache_view w (now w) key)).
Proof.
  intros Hi. destruct (cache_step (now w) (CPut key v ttl) w) as [w' a] eqn:E.
  destruct (cache_step_spec _ _ _ _ _ Hi E) as (Hi' & Ha & Hv & _).
  unfold cache_step in E. cbv zeta in E. cbn [Cache.Put redis_cache] in E.
  assert (Hat : at_now (now w) w = w) by (by destruct w). rewrite Hat in E.
  assert (Hnow : now (RedisPut s Background key v ttl w).1 = now w).
  { unfold RedisPut, send. destruct (Marshal _ _); [|done]. destruct (command _ _ _ _) as [cl r].
    rewrite set_conn_ok by apply Hi. by destruct r as [[]|]. }
  destruct (RedisPut s Background key v ttl w) as [w1 [b err]]. injection E as <- <-. exists w1.
  simpl in Ha. injection Ha as -> ->. done.
Qed.

(** Cache-aside loading.  On a missing key [Remember] runs its loader once
    and stores what it returns; from then on, until the value's end, [Remember]
    returns that value without running its loader, whatever the loader is; past
    the end the key is missing again.  Typed views and the package function
    agree. *)
Theorem remember_once key ttl v (load : context -> world R -> world R * (V * option error)) w w1 :
  cache_inv w (now w) -> 0 < ttl -> cache_view w (now w) key = None ->
  (forall w0, load Background w0 = (w1, (v, None))) -> cache_inv w1 (now w1) ->
  let until := ends (now w1) (client_ms ttl) in
  let store := redis_cache SCAN s in
  exists w2, TypedView_Remember zero Background key ttl load w = (w2, (v, None)) /\
    utils_Remember zero Background key ttl (load Background) w = (w2, (v, None)) /\
    forall t, now w1 <= t ->
      if t <? until then
        forall load', exists w3, TypedView_Remember zero Background key ttl load' (at_now t w2) = (w3, (v, None)) /\
          utils_Remember zero Background key ttl (load' Background) (at_now t w2) = (w3, (v, None))
      else cache_view w2 t key = None.
Proof.
  intros Hi Hp Hmiss Hload Hi1 until store.
  unfold TypedView_Remember, utils_Remember, TypedView_Get, TypedView_Set, store. cbn [Cache.Get Cache.Put redis_cache].
  destruct (get_spec w key zero Hi) as (w0 & -> & _). rewrite Hmiss. cbn. rewrite Hload.
  destruct (put_spec w1 key v ttl Hi1) as (w2 & -> & Hnow & Hi2 & Hv2). exists w2. split_and!; [done|done|].
  intros t Ht.
  assert (Hv : cache_view w2 t key = if t <? until then Some (v, Some until) else None).
  { rewrite (cache_view_later w2 (now w1) t) by done. rewrite Hv2, slot_live_again by done.
    unfold fresh_slot, expiration. destruct (Z.ltb_spec 0 ttl); [|lia]. done. }
  destruct (t <? until) eqn:Eu; [|done].
  intros load'. pose proof (get_spec (at_now t w2) key zero) as Hg.
  destruct Hg as (w3 & -> & _); [by apply (cache_inv_later w2 (now w1))|].
  change (cache_view (at_now t w2) (now (at_now t w2)) key) with (cache_view w2 t key). rewrite Hv. cbn. by exists w3.
Qed.
End Table.

Section Counter.
Context {R V : Type} `{!RedisServer R, !RedisLaws R, !ClientOptions}.
Variable s : RedisStore R V.

(** The number under a key; an absent key counts as zero. *)
Definition counter (w : world R) (key : string) : option Z :=
  match lookup_at (server (conn w)) (now w) (prefix s +:+ key) with
  | None => Some 0
  | Some (mkEntry (VStr d) _) => ParseInt d
  | Some (mkEntry (VHash _) _) => None
  end.

(** Counters are exact.  On a key that holds a number [z], or is absent with
    [z = 0], [Increment] by [n] returns [z + n] and stores it when it fits in 64
    bits, and otherwise returns an error and leaves the number; [Decrement] by
    [n] is [Increment] by [-n], except for the least integer, which is refused;
    on anything else both return an error. *)
Theorem cache_counter_exact w key n :
  faults (conn w) = [] -> int64_ok n ->
  let inc m := (if decide (n = minInt64 /\ m = - n) then None
                else z ← counter w key; if decide (int64_ok (z + m)) then Some (z + m) else None) in
  (let '(w', (v, err)) := RedisIncrement s Background key n w in
   match inc n with
   | Some x => v = x /\ err = None /\ counter w' key = Some x
   | None => v = 0 /\ err <> None /\ counter w' key = counter w key
   end) /\
  (let '(w', (v, err)) := RedisDecrement s Background key n w in
   match inc (- n) with
   | Some x => v = x /\ err = None /\ counter w' key = Some x
   | None => v = 0 /\ err <> None /\ counter w' key = counter w key
   end).
Proof.
  intros Hf Hn. cbv zeta.
  assert (Hadd : forall m c, c = INCRBY m \/ (c = DECRBY n /\ m = - n /\ n <> minInt64) -> int64_ok m ->
    let '(w', r) := send w (prefix s +:+ key) c in
    match (z ← counter w key; if decide (int64_ok (z + m)) then Some (z + m) else None) with
    | Some x => r = inl (RInt x) /\ counter w' key = Some x
    | None => (exists e, r = inr e) /\ counter w' key = counter w key
    end).
  { intros m c Hc Hm.
    destruct (send_spec w (now w) (prefix s +:+ key) c Hf eq_refl) as (r' & -> & Hl & _).
    unfold counter. cbn [conn now server]. rewrite Hl. clear Hl.
    assert (Hcs : cmd_spec (ends (now w)) c (lookup_at (server (conn w)) (now w) (prefix s +:+ key))
                  = add_spec m (lookup_at (server (conn w)) (now w) (prefix s +:+ key))).
    { destruct Hc as [-> |(-> & -> & Hmin)]; [done|]. simpl. by destruct (Z.eqb_spec n minInt64). }
    rewrite Hcs. pose proof (lookup_live (server (conn w)) (now w) (prefix s +:+ key)) as Hu.
    destruct (lookup_at _ _ _) as [[[d|h] u]|]; cbn [add_spec].
    - destruct (ParseInt d) as [z|] eqn:Ep; cbn [mbind option_bind].
      + destruct (decide (int64_ok (z + m))) as [Hz|Hz]; cbn [fst snd].
        * split; [done|]. simpl in Hu |- *. destruct u as [u|]; [|by apply parse_format].
          destruct (now w <? u); [|done]. by apply parse_format.
        * rewrite Hu. split; [by eexists|done].
      + cbn [fst snd]. rewrite Hu. split; [by eexists|done].
    - cbn [fst snd mbind option_bind]. rewrite Hu. split; [by eexists|done].
    - cbn [fst snd mbind option_bind]. rewrite decide_True by (by rewrite Z.add_0_l).
      simpl. split; [done|]. by apply parse_format. }
  split.
  - unfold RedisIncrement. rewrite decide_False by (intros [-> Hm]; unfold minInt64 in Hm; lia).
    specialize (Hadd n (INCRBY n) (or_introl eq_refl) Hn). destruct (send _ _ _) as [w' r].
    destruct (z ← counter w key; _) as [x|].
    + by destruct Hadd as [-> ->].
    + destruct Hadd as [[e ->] ->]. done.
  - unfold RedisDecrement. destruct (decide (n = minInt64 /\ - n = - n)) as [[-> _]|Hne].
    + destruct (send_spec w (now w) (prefix s +:+ key) (DECRBY minInt64) Hf eq_refl) as (r' & -> & Hl & _).
      cbn [cmd_spec] in Hl |- *. rewrite Z.eqb_refl in Hl |- *. cbn [fst snd] in *. split_and!; [done|done|].
      unfold counter. cbn [conn now server]. by rewrite Hl, lookup_live.
    + assert (Hmin : n <> minInt64) by (intros ->; by apply Hne).
      specialize (Hadd (- n) (DECRBY n) (or_intror (conj eq_refl (conj eq_refl Hmin)))).
      specialize (Hadd ltac:(int64_unfold; lia)). destruct (send _ _ _) as [w' r].
      destruct (z ← counter w key; _) as [x|].
      * by destruct Hadd as [-> ->].
      * destruct Hadd as [[e ->] ->]. done.
Qed.
End Counter.

Section Flush.
Context {R V : Type} `{!RedisServer R, !RedisLaws R, !ClientOptions}.
Variables (SCAN : Z -> Z -> string -> R -> list string * Z) (s : RedisStore R V) (t : Z).

Lemma del_all_lookup keys (r : R) k :
  lookup_at (del_all keys t r).1 t k = if decide (k ∈ keys) then None else lookup_at r t k.
Proof.
  unfold del_all. cbn [fst]. revert r. induction keys as [|k' keys IH]; intros r; simpl; [done|]. rewrite IH.
  destruct (decide (k = k')) as [->|Hne].
  - rewrite (decide_True _ _ (P := k' ∈ k' :: keys)) by left. case_decide; [done|]. by rewrite exec_lookup.
  - rewrite exec_frame by done. destruct (decide (k ∈ keys)).
    + by rewrite decide_True by (by right).
    + rewrite decide_False; [done|]. by rewrite elem_of_cons; intros [|].
Qed.

(** The cursor and the server before the [i]-th page of the iteration. *)
Fixpoint scan_state (i : nat) (r : R) : Z * R :=
  match i with
  | O => (0, r)
  | S i =>
      let '(cursor, r) := scan_state i r in
      let '(keys, next) := SCAN t cursor (prefix s +:+ "*") r in
      (next, (del_all keys t r).1)
  end.

Definition scan_page (i : nat) (r : R) : list string :=
  let '(cursor, r) := scan_state i r in (SCAN t cursor (prefix s +:+ "*") r).1.

(** The keys of the first [i] pages. *)
Fixpoint scanned (i : nat) (r : R) : list string :=
  match i with
  | O => []
  | S i => (scanned i r ++ scan_page i r)%list
  end.

Lemma scan_state_lookup i r k :
  lookup_at (scan_state i r).2 t k = if decide (k ∈ scanned i r) then None else lookup_at r t k.
Proof.
  induction i as [|i IH]; cbn [scan_state scanned].
  - rewrite decide_False; [done|]. by intros ?%elem_of_nil.
  - assert (Hp : scan_page i r = (SCAN t (scan_state i r).1 (prefix s +:+ "*") (scan_state i r).2).1)
      by (unfold scan_page; by destruct (scan_state i r)).
    destruct (scan_state i r) as [cursor ri]. cbn [fst snd] in *.
    destruct (SCAN t cursor _ ri) as [keys next]. cbn [fst snd] in *. rewrite del_all_lookup, IH, Hp.
    destruct (decide (k ∈ (scanned i r ++ keys)%list)) as [Ha|Ha]; rewrite elem_of_app in Ha;
      repeat case_decide; done || tauto.
Qed.

Lemma scanned_mono i j r k : (i <= j)%nat -> k ∈ scanned i r -> k ∈ scanned j r.
Proof. intros Hle Hk. induction Hle as [|j Hle IH]; [done|]. cbn [scanned]. rewrite elem_of_app. by left. Qed.

Lemma flush_turns n0 n r :
  (forall i, (i < n)%nat -> (scan_state (S i) r).1 <> 0) -> (scan_state (S n) r).1 = 0 ->
  forall fuel i, (i <= n)%nat -> (n - i < fuel)%nat ->
  flush SCAN s fuel (scan_state i r).1 (mkWorld (mkClient (scan_state i r).2 []) t n0)
  = (mkWorld (mkClient (scan_state (S n) r).2 []) t n0, Some None).
Proof.
  intros Hne Hz fuel. induction fuel as [|fuel IH]; intros i Hi Hfu; [lia|].
  cbn [flush conn now]. rewrite roundtrip_ok. cbn [fst snd]. rewrite set_conn_ok by done. cbn [conn now issued].
  assert (Hstep : scan_state (S i) r
    = ((SCAN t (scan_state i r).1 (prefix s +:+ "*") (scan_state i r).2).2,
       (del_all (SCAN t (scan_state i r).1 (prefix s +:+ "*") (scan_state i r).2).1 t (scan_state i r).2).1)).
  { cbn [scan_state]. destruct (scan_state i r) as [c ri]. simpl. by destruct (SCAN t c _ ri). }
  destruct (SCAN t _ _ _) as [keys next] eqn:Es. cbn [fst snd] in Hstep.
  rewrite roundtrip_ok. cbn [fst snd]. rewrite set_conn_ok by done. cbn [now issued].
  assert (Hw : (if (0 <? length keys)%nat
                then (mkWorld (mkClient (del_all keys t (scan_state i r).2).1 []) t n0,
                      match (del_all keys t (scan_state i r).2).2 with inl _ => None | inr err => Some err end)
                else (mkWorld (mkClient (scan_state i r).2 []) t n0, None))
               = (mkWorld (mkClient (scan_state (S i) r).2 []) t n0, None)).
  { rewrite Hstep. by destruct keys. }
  rewrite Hw. replace next with (scan_state (S i) r).1 by (by rewrite Hstep).
  destruct (decide (i = n)) as [->|Hin].
  - by rewrite Hz.
  - specialize (Hne i ltac:(lia)). destruct (Z.eqb_spec (scan_state (S i) r).1 0); [done|]. apply IH; lia.
Qed.

(** [Flush].  If the iteration of [SCAN] ends after [n + 1] pages, returns
    every matching key that is there from its start to its end, and matches only
    keys with the prefix, then [Flush] with any larger fuel reports success, no
    key of the store is left, and no other key is touched. *)
Theorem flush_clears n n0 (r : R) fuel :
  (forall i, (i < n)%nat -> (scan_state (S i) r).1 <> 0) -> (scan_state (S n) r).1 = 0 ->
  (forall k, (forall i, (i <= S n)%nat -> lookup_at (scan_state i r).2 t (prefix s +:+ k) <> None) ->
     prefix s +:+ k ∈ scanned (S n) r) ->
  (forall k, k ∈ scanned (S n) r -> exists k', k = prefix s +:+ k') ->
  kind s = SingleClient -> (n < fuel)%nat ->
  let '(w', res) := RedisFlush SCAN s fuel Background (mkWorld (mkClient r []) t n0) in
  res = Some (true, None) /\
  (forall k, lookup_at (server (conn w')) t (prefix s +:+ k) = None) /\
  (forall k, (forall k', k <> prefix s +:+ k') -> lookup_at (server (conn w')) t k = lookup_at r t k).
Proof.
  intros Hne Hz Hall Hmatch Hkind Hfu. unfold RedisFlush. rewrite Hkind.
  pose proof (flush_turns n0 n r Hne Hz fuel 0 ltac:(lia) ltac:(lia)) as Hf.
  change (scan_state 0 r) with (0, r) in Hf. cbn [fst snd] in Hf.
  rewrite Hf. clear Hf. cbn [conn server]. split_and!; [done|..].
  - intros k. rewrite scan_state_lookup. case_decide as Hno; [done|].
    destruct (lookup_at r t (prefix s +:+ k)) as [en|] eqn:E; [|done]. exfalso. apply Hno, Hall.
    intros i Hi. rewrite scan_state_lookup. rewrite decide_False; [by rewrite E|].
    intros Hin. apply Hno. by apply (scanned_mono i).
  - intros k Hk. rewrite scan_state_lookup. rewrite decide_False; [done|].
    intros [k' ->]%Hmatch. by apply (Hk k').
Qed.
End Flush.

(** ** Concrete backends *)

(** Strings stored as they are. *)
Definition raw_codec : Codec string := mkCodec inl (fun d _ => (d, None)).

Definition plain_locker : RedisLocker MapServer := mkLocker (mkClient empty_server []) "locker:" 50 100.
Definition app_store (p : string) : RedisStore MapServer string :=
  mkStore p raw_codec SingleClient plain_locker.

(** Patterns with [*] and [?], as the server matches them. *)
Fixpoint glob (fuel : nat) (p k : string) : bool :=
  match fuel with
  | O => false
  | S fuel =>
      match p, k with
      | EmptyString, EmptyString => true
      | EmptyString, _ => false
      | String a p', _ =>
          if Ascii.eqb a (Ascii.ascii_of_nat 42) then
            glob fuel p' k || match k with String _ k' => glob fuel p k' | EmptyString => false end
          else
            match k with
            | EmptyString => false
            | String b k' => (Ascii.eqb a (Ascii.ascii_of_nat 63) || Ascii.eqb a b) && glob fuel p' k'
            end
      end
  end.

(** A server that answers a scan with one page. *)
Definition map_scan (t c : Z) (pat : string) (r : MapServer) : list string * Z :=
  (filter (fun k => glob 100 pat k = true /\ unexpired t (cells r !! k) <> None)
     (fst <$> map_to_list (cells r)), 0).

Definition two_keys : MapServer :=
  mkMapServer (<["a:x" := mkEntry (VStr "1") None]> {["b:x" := mkEntry (VStr "2") None]}).

Lemma raw_codec_ok p v : exists d, Marshal (codec (app_store p)) v = inl d /\
  forall dest, Unmarshal (codec (app_store p)) d dest = (v, None).
Proof. by exists v. Qed.

Lemma empty_cache_inv p t n : cache_inv (app_store p) (mkWorld (mkClient empty_server []) t n) t.
Proof. split; [done|]. intros k en. by rewrite empty_server_lookup. Qed.

Lemma cache_redis_refines_witness :
  cache_run map_scan (app_store "a:")
    [(1, CAdd "k" "v" 5000000); (2, CAdd "k" "w" 5000000); (3, CGet "k" ""); (9000000, CGet "k" "");
     (9000000, CForever "k" "z"); (9000001, CHas "k"); (9000002, CForget "k"); (9000002, CForget "k"); (9000003, CAdd "k" "v" (-5)); (9000003, CHas "k")]
    (mkWorld (mkClient empty_server []) 0 0)
  = [ABool true None; ABool false None; AValue "v" None; AValue "" (Some ErrNotFound);
     ABool true None; ABool true None; ABool true None; ABool false None;
     ABool false (Some bad_expire); ABool false None].
Proof.
  rewrite (cache_redis_refines map_scan (app_store "a:") "" (raw_codec_ok "a:") 0 _ _ (fun _ => None));
    [reflexivity|apply empty_cache_inv|intros k; reflexivity|simpl; lia].
Defined.

Lemma remember_once_witness :
  let w := mkWorld (mkClient empty_server []) 0 0 in
  let store := redis_cache map_scan (app_store "a:") in
  exists w2, TypedView_Remember "" Background "k" 5000000 (fun _ _ => (w, ("v", None))) w = (w2, ("v", None)) /\
    (forall load', exists w3,
      TypedView_Remember "" Background "k" 5000000 load' (at_now 4000000 w2) = (w3, ("v", None))).
Proof.
  intros w store.
  destruct (remember_once map_scan (app_store "a:") "" (raw_codec_ok "a:") "k" 5000000 "v"
    (fun _ _ => (w, ("v", None))) w w (empty_cache_inv "a:" 0 0) ltac:(lia) ltac:(reflexivity) ltac:(done)
    (empty_cache_inv "a:" 0 0)) as (w2 & H1 & _ & H2).
  exists w2. split; [exact H1|]. intros load'. destruct (H2 4000000 ltac:(simpl; lia) load') as (w3 & H3 & _).
  by exists w3.
Defined.

Definition near_max : world MapServer :=
  mkWorld (mkClient (mkMapServer {["a:n" := mkEntry (VStr "9223372036854775806") None]}) []) 0 0.

Lemma cache_counter_exact_witness :
  let '(w1, (v, err)) := RedisIncrement (app_store "a:") Background "n" 1 near_max in
  v = maxInt64 /\ err = None /\ counter (app_store "a:") w1 "n" = Some maxInt64.
Proof.
  assert (H1 : int64_ok 1) by (int64_unfold; lia).
  destruct (cache_counter_exact (app_store "a:") near_max "n" 1 eq_refl H1) as [H _].
  destruct (RedisIncrement _ _ _ _ near_max) as [w1 [v err]].
  replace (counter (app_store "a:") near_max "n") with (Some 9223372036854775806) in H
    by (vm_compute; reflexivity).
  rewrite decide_False in H by lia. cbn [mbind option_bind] in H.
  rewrite decide_True in H by (int64_unfold; lia). exact H.
Defined.

Lemma flush_clears_witness :
  let '(w', res) := RedisFlush map_scan (app_store "a:") 1 Background (mkWorld (mkClient two_keys []) 0 0) in
  res = Some (true, None) /\ lookup_at (server (conn w')) 0 "a:x" = None /\
  lookup_at (server (conn w')) 0 "b:x" = Some (mkEntry (VStr "2") None).
Proof.
  pose proof (flush_clears map_scan (app_store "a:") 0 0 0 two_keys 1) as H.
  assert (Hsc : scanned map_scan (app_store "a:") 0 1 two_keys = ["a:x"]) by reflexivity.
  assert (H' := H ltac:(lia) ltac:(reflexivity)). clear H.
  rewrite Hsc in H'.
  destruct (RedisFlush map_scan (app_store "a:") 1 Background _) as [w' res].
  destruct H' as (H1 & H2 & H3); [|intros k ->%list_elem_of_singleton; by exists "x"|reflexivity|lia|].
  - intros k Hk. specialize (Hk 0%nat ltac:(lia)).
    change (unexpired 0 (cells two_keys !! ("a:" +:+ k)) <> None) in Hk.
    destruct (decide (k = "x")) as [->|Hne]; [by left|]. exfalso. apply Hk. unfold two_keys. cbn [cells].
    rewrite lookup_insert_ne; [|intros E; apply Hne; by injection E].
    rewrite lookup_singleton_ne; [done|discriminate].
  - split_and!; [exact H1|apply (H2 "x")|]. rewrite (H3 "b:x"); [reflexivity|]. by intros k'.
Defined.

(** The prefix goes into the pattern as it is: one that has pattern characters
    matches the keys of other prefixes, and [Flush] removes them. *)
Theorem flush_pattern_prefix :
  let '(w', res) := RedisFlush map_scan (app_store "?:") 1 Background (mkWorld (mkClient two_keys []) 0 0) in
  res = Some (true, None) /\ lookup_at (server (conn w')) 0 "a:x" = None /\
  lookup_at two_keys 0 "a:x" = Some (mkEntry (VStr "1") None) /\
  (forall k, "a:x" <> prefix (app_store "?:") +:+ k).
Proof. vm_compute. repeat split; try reflexivity. intros k Hk. discriminate. Qed.
