(* ===== verification/Snapshot.v ===== *)
(** * Snapshots: [src/cache/snapshot.go]

    A map filled on demand by concurrent lookups.  A lookup reads under the read
    lock; when it finds nothing fit to return it takes the write lock, looks
    again, and only then calls its function.  Both critical sections are atomic,
    so a run is an interleaving of them with resets and cleanups.

    The three snapshot types differ in what they store and in when an entry is
    too old: never for [Snapshot] and [SnapshotWithErr], after its expiry for
    [SnapshotWithExpireAndErr]. *)

From S2P Require Import Prelude GoErrors.
From stdpp Require Import options.
Set Default Proof Using "Type*".
Local Open Scope Z_scope.

(** ** The maps *)

Section Maps.
Context {K : Type} `{Countable K} {V : Type}.

(** [valueWithError] and [valueWithExpireAndError]. *)
Record valueWithError := mkWithError { evalue : V; eerr : option error }.
Record valueWithExpireAndError := mkWithExpire { xvalue : V; expired : Z; xerr : option error }.

(** [data] is nil until the first write: [None]. *)
Definition lookup_data {A} (data : option (gmap K A)) (key : K) : option A :=
  m ← data; m !! key.
Definition write_data {A} (data : option (gmap K A)) (key : K) (v : A) : option (gmap K A) :=
  Some (<[key := v]> (default ∅ data)).

(** [Snapshot.Lookup]: the part under the read lock, which answers or not, and
    the part under the write lock.  [fn] is called there if it is called; the
    result says whether it was. *)
Definition Lookup_read (data : option (gmap K V)) (key : K) : option V := lookup_data data key.

Definition Lookup_write (data : option (gmap K V)) (key : K) (fn : V)
    : option (gmap K V) * (V * bool) :=
  match lookup_data data key with
  | Some v => (Some (default ∅ data), (v, false))
  | None => (write_data data key fn, (fn, true))
  end.

Definition Reset {A} (data : option (gmap K A)) : option (gmap K A) := None.

(** [SnapshotWithErr.Lookup] stores the error with the value. *)
Definition ErrLookup_read (data : option (gmap K valueWithError)) (key : K)
    : option (V * option error) :=
  v ← lookup_data data key; Some (evalue v, eerr v).

Definition ErrLookup_write (data : option (gmap K valueWithError)) (key : K) (fn : V * option error)
    : option (gmap K valueWithError) * ((V * option error) * bool) :=
  match lookup_data data key with
  | Some v => (Some (default ∅ data), ((evalue v, eerr v), false))
  | None => (write_data data key (mkWithError fn.1 fn.2), (fn, true))
  end.

(** [SnapshotWithExpireAndErr]: [now] is what [time.Now()] returns for the test
    and [done], no earlier, what it returns after the call. *)
Definition ExpLookup_read (data : option (gmap K valueWithExpireAndError)) (key : K) (now : Z)
    : option (V * option error) :=
  match lookup_data data key with
  | Some v => if expired v <? now then None else Some (xvalue v, xerr v)
  | None => None
  end.

Definition ExpLookup_write (data : option (gmap K valueWithExpireAndError)) (key : K)
    (fn : V * option error) (expire now done : Z)
    : option (gmap K valueWithExpireAndError) * ((V * option error) * bool) :=
  match lookup_data data key with
  | Some v =>
      if expired v <? now then (write_data data key (mkWithExpire fn.1 (done + expire) fn.2), (fn, true))
      else (Some (default ∅ data), ((xvalue v, xerr v), false))
  | None => (write_data data key (mkWithExpire fn.1 (done + expire) fn.2), (fn, true))
  end.

(** [CleanupExpired] reads the clock for every entry; [clock k] is what it reads
    for [k]. *)
Definition CleanupExpired (clock : K -> Z) (data : option (gmap K valueWithExpireAndError))
    : option (gmap K valueWithExpireAndError) :=
  filter (fun p => ~ (expired p.2 < clock p.1)) <$> data.

(** ** Concurrent lookups *)

(** A goroutine: about to look up, between its two sections, or finished with a
    value. *)
Inductive thread :=
| Starting (key : K) (fn : V)
| Missed (key : K) (fn : V)
| Finished (key : K) (v : V).

(** The snapshot, its goroutines, how often it was reset, and the calls of
    functions made so far: the reset count at the time, the key, the result. *)
Record state := mkState {
  data : option (gmap K V);
  threads : list thread;
  resets : nat;
  calls : list (nat * K * V)
}.

Definition start (ts : list thread) : state := mkState None ts 0 [].

Inductive step : state -> state -> Prop :=
| step_hit s i key fn v :
    threads s !! i = Some (Starting key fn) -> Lookup_read (data s) key = Some v ->
    step s (mkState (data s) (<[i := Finished key v]> (threads s)) (resets s) (calls s))
| step_miss s i key fn :
    threads s !! i = Some (Starting key fn) -> Lookup_read (data s) key = None ->
    step s (mkState (data s) (<[i := Missed key fn]> (threads s)) (resets s) (calls s))
| step_write s i key fn d v called :
    threads s !! i = Some (Missed key fn) -> Lookup_write (data s) key fn = (d, (v, called)) ->
    step s (mkState d (<[i := Finished key v]> (threads s)) (resets s)
              (if called then (resets s, key, v) :: calls s else calls s))
| step_reset s :
    step s (mkState (Reset (data s)) (threads s) (S (resets s)) (calls s)).

(** What is true of every reachable state: the calls since the last reset are
    what the map holds, one per key, and no call is from the future. *)
Definition snap_inv (s : state) : Prop :=
  NoDup (fst <$> calls s) /\
  (forall n k v, (n, k, v) ∈ calls s -> (n <= resets s)%nat) /\
  (forall k v, lookup_data (data s) k = Some v <-> (resets s, k, v) ∈ calls s) /\
  (forall k v, Finished k v ∈ threads s -> exists n, (n, k, v) ∈ calls s).

Lemma finished_insert (ts : list thread) (i : nat) k v k' v' :
  Finished k' v' ∈ <[i := Finished k v]> ts -> Finished k' v' = Finished k v \/ Finished k' v' ∈ ts.
Proof. intros Hin%list_elem_of_lookup. destruct Hin as [j Hj].
  apply list_lookup_insert_Some in Hj as [(_ & <- & _)|[_ Hj]]; [by left|].
  right. by apply list_elem_of_lookup_2 in Hj.
Qed.

Lemma missed_insert (ts : list thread) (i : nat) k fn k' v' :
  Finished k' v' ∈ <[i := Missed k fn]> ts -> Finished k' v' ∈ ts.
Proof. intros Hin%list_elem_of_lookup. destruct Hin as [j Hj].
  apply list_lookup_insert_Some in Hj as [(_ & ? & _)|[_ Hj]]; [done|].
  by apply list_elem_of_lookup_2 in Hj.
Qed.

Lemma snap_inv_step s s' : snap_inv s -> step s s' -> snap_inv s'.
Proof.
  intros (Hnd & Hle & Hdata & Hfin) Hstep.
  destruct Hstep as [s i key fn v Ht Hr|s i key fn Ht Hr|s i key fn d v called Ht Hw|s].
  - split; [done|]. split; [done|]. split; [done|]. cbn [threads calls]. intros k v' [[= -> ->]|Hin]%finished_insert; [|by apply Hfin].
    exists (resets s). by apply Hdata.
  - split; [done|]. split; [done|]. split; [done|]. cbn [threads calls]. intros k v' Hin%missed_insert. by apply Hfin.
  - unfold Lookup_write in Hw. destruct (lookup_data (data s) key) as [x|] eqn:E; simplify_eq.
    + split; [done|]. split; [done|]. split.
      * intros k v'. cbn [data resets calls]. rewrite <- Hdata. unfold lookup_data. destruct (data s); simpl; [done|].
        by rewrite lookup_empty.
      * cbn [threads calls]. intros k v' [[= -> ->]|Hin]%finished_insert; [|by apply Hfin].
        exists (resets s). by apply Hdata.
    + split; [|split; [|split]]; cbn [data threads resets calls].
      * simpl. constructor; [|done]. intros Hin. apply list_elem_of_fmap in Hin as ([[n k] x] & [= <- <-] & Hin).
        apply Hdata in Hin. congruence.
      * intros n k v'. rewrite elem_of_cons. intros [[= -> -> ->]|Hin]; [done|]. by eapply Hle.
      * intros k v'. rewrite elem_of_cons. unfold write_data, lookup_data. simpl.
        destruct (decide (k = key)) as [->|Hne].
        -- rewrite lookup_insert_eq. split; [intros [= ->]; by left|].
           intros [[= ->]|Hin]; [done|]. apply Hdata in Hin. congruence.
        -- rewrite lookup_insert_ne by done. rewrite <- Hdata. unfold lookup_data.
           split; [intros Hk; right; by destruct (data s)|].
           intros [[= -> ->]|Hk]; [done|]. by destruct (data s).
      * intros k v' [[= -> ->]|Hin]%finished_insert.
        -- exists (resets s). by left.
        -- destruct (Hfin k v' Hin) as [n Hn]. exists n. by right.
  - split; [|split; [|split]]; cbn [data threads resets calls]; [done| | |done].
    + intros n k v Hin. apply Hle in Hin. lia.
    + intros k v. simpl. split; [done|]. intros Hin. apply Hle in Hin. lia.
Qed.

Definition unstarted (t : thread) : Prop := match t with Starting _ _ => True | _ => False end.

Lemma snap_inv_start ts : Forall unstarted ts -> snap_inv (start ts).
Proof.
  intros Hts. split; [|split; [|split]]; simpl.
  - constructor.
  - by intros n k v ?%elem_of_nil.
  - intros k v. by rewrite elem_of_nil.
  - intros k v Hin. rewrite Forall_forall in Hts. by apply Hts in Hin.
Qed.

(** A snapshot calls at most one function per key between two resets,
    however many goroutines look the key up and however their sections
    interleave; every lookup returns the result of such a call, and two lookups
    of a key that finish without a reset return the same value. *)
Theorem snapshot_once ts s :
  Forall unstarted ts -> rtc step (start ts) s ->
  NoDup (fst <$> calls s) /\
  (forall k v, Finished k v ∈ threads s -> exists n, (n <= resets s)%nat /\ (n, k, v) ∈ calls s) /\
  (resets s = 0%nat -> forall k v v', Finished k v ∈ threads s -> Finished k v' ∈ threads s -> v = v').
Proof.
  intros Hts Hrun.
  assert (Hinv : snap_inv s).
  { apply snap_inv_start in Hts. revert Hts. induction Hrun as [|s0 s1 s2 Hst _ IH]; [done|].
    intros Hi. apply IH. by eapply snap_inv_step. }
  destruct Hinv as (Hnd & Hle & Hdata & Hfin). split_and!; [done| |].
  - intros k v Hin. destruct (Hfin k v Hin) as [n Hn]. exists n. split; [by eapply Hle|done].
  - intros H0 k v v' [n Hn]%Hfin [n' Hn']%Hfin.
    pose proof (Hle _ _ _ Hn). pose proof (Hle _ _ _ Hn').
    assert (n = resets s) as -> by lia. assert (n' = resets s) as -> by lia.
    apply Hdata in Hn, Hn'. congruence.
Qed.

(** [SnapshotWithErr] is a [Snapshot] of pairs. *)
Definition pairs (d : option (gmap K valueWithError)) : option (gmap K (V * option error)) :=
  match d with
  | Some m => Some ((fun v => (evalue v, eerr v)) <$> m)
  | None => None
  end.

Lemma pairs_lookup d key :
  (v ← lookup_data d key; Some (evalue v, eerr v)) = lookup_data (pairs d) key.
Proof. destruct d as [m|]; simpl; [|done]. rewrite lookup_fmap. by destruct (m !! key). Qed.
End Maps.
Arguments thread : clear implicits.
Arguments state _ {_ _} _.
Arguments valueWithExpireAndError : clear implicits.
Arguments valueWithError : clear implicits.

Section Expiry.
Context {K : Type} `{Countable K} {V : Type}.

Lemma ErrLookup_pairs (d : option (gmap K (valueWithError V))) key fn :
  ErrLookup_read d key = Lookup_read (pairs d) key /\
  (pairs (ErrLookup_write d key fn).1, (ErrLookup_write d key fn).2) = Lookup_write (pairs d) key fn.
Proof.
  unfold ErrLookup_read, Lookup_read, ErrLookup_write, Lookup_write. rewrite <- !pairs_lookup. split; [done|].
  destruct (lookup_data d key) as [v|] eqn:E; simpl.
  - destruct d as [m|]; [done|]. by simpl in E.
  - unfold write_data. simpl. rewrite fmap_insert. destruct fn as [v err]. destruct d as [m|]; simpl; [done|].
    by rewrite fmap_empty.
Qed.

(** Entries with an expiry.  The write section calls its function exactly
    when the read at that instant finds nothing, and returns what the read finds
    otherwise; afterwards the value is found until its expiry, and not after;
    other keys are untouched, and removing expired entries changes no later
    read. *)
Theorem snapshot_expiry (d : option (gmap K (valueWithExpireAndError V))) key fn expire now done clock :
  let '(d', (v, called)) := ExpLookup_write d key fn expire now done in
  v = default fn (ExpLookup_read d key now) /\
  called = match ExpLookup_read d key now with Some _ => false | None => true end /\
  (forall t, ExpLookup_read d' key t
     = if called then if done + expire <? t then None else Some fn else ExpLookup_read d key t) /\
  (forall k t, k <> key -> ExpLookup_read d' k t = ExpLookup_read d k t) /\
  (forall k t, clock k <= t -> ExpLookup_read (CleanupExpired clock d') k t = ExpLookup_read d' k t).
Proof.
  assert (Hclean : forall (d : option (gmap K (valueWithExpireAndError V))) k t, clock k <= t ->
    ExpLookup_read (CleanupExpired clock d) k t = ExpLookup_read d k t).
  { intros d0 k t Ht. unfold ExpLookup_read, CleanupExpired, lookup_data. destruct d0 as [m|]; simpl; [|done].
    destruct (m !! k) as [v|] eqn:E.
    - destruct (decide (expired v < clock k)) as [Hx|Hx].
      + rewrite (map_lookup_filter_None_2 _ _ k); [by destruct (Z.ltb_spec (expired v) t); [|lia]|].
        right. intros v' Hv'. rewrite E in Hv'. injection Hv' as <-. simpl. tauto.
      + rewrite (map_lookup_filter_Some_2 _ _ k v); done.
    - rewrite (map_lookup_filter_None_2 _ _ k); [done|]. by left. }
  assert (Hwrite : let d' := write_data d key (mkWithExpire fn.1 (done + expire) fn.2) in
    (forall t, ExpLookup_read d' key t = if done + expire <? t then None else Some fn) /\
    (forall k t, k <> key -> ExpLookup_read d' k t = ExpLookup_read d k t)).
  { unfold ExpLookup_read, write_data, lookup_data. simpl. split.
    - intros t. rewrite lookup_insert_eq. simpl. by destruct fn.
    - intros k t Hk. rewrite lookup_insert_ne by done. destruct d as [m|]; simpl; [done|]. by rewrite lookup_empty. }
  unfold ExpLookup_write. unfold ExpLookup_read at 1 2.
  destruct (lookup_data d key) as [x|] eqn:E; [destruct (expired x <? now) eqn:Ex|].
  - destruct Hwrite as [H1 H2]. split_and!; [done|done|done|done|by intros; apply Hclean].
  - assert (Hsame : Some (default ∅ d) = d) by (by destruct d). rewrite Hsame.
    split_and!; [done|done|done|done|by intros; apply Hclean].
  - destruct Hwrite as [H1 H2]. split_and!; [done|done|done|done|by intros; apply Hclean].
Qed.
End Expiry.

(** Two goroutines that both miss the same key: the second takes the value of
    the first. *)
Definition two_threads : list (thread nat nat) := [Starting 1%nat 10%nat; Starting 1%nat 20%nat].

Lemma two_threads_run :
  rtc step (start two_threads)
    (mkState (Some {[1%nat := 20%nat]}) [Finished 1%nat 20%nat; Finished 1%nat 20%nat] 0 [(0%nat, 1%nat, 20%nat)]).
Proof.
  eapply rtc_l; [by eapply (step_miss (start two_threads) 0)|].
  eapply rtc_l; [eapply step_miss with (i := 1%nat); reflexivity|].
  eapply rtc_l; [eapply step_write with (i := 1%nat); reflexivity|].
  eapply rtc_l; [eapply step_write with (i := 0%nat); reflexivity|].
  apply rtc_refl.
Qed.

Lemma snapshot_once_witness :
  NoDup (fst <$> [(0%nat, 1%nat, 20%nat)]) /\ (exists n, (n <= 0)%nat /\ (n, 1%nat, 20%nat) ∈ [(0%nat, 1%nat, 20%nat)]).
Proof.
  destruct (snapshot_once two_threads _ ltac:(repeat constructor) two_threads_run) as (Hcalls & Hfrom & _).
  split; [exact Hcalls|]. apply (Hfrom 1%nat 20%nat). by left.
Defined.
