(* ===== verification/GoBase64.v ===== *)
(** * Standard base64: [encoding/base64.StdEncoding]

    Encoding with padding, and the decoder of the Go library: line breaks are
    skipped anywhere, padding is required and must end the input, and the unused
    bits of the last group are ignored. *)

From S2P Require Import Prelude.
From Stdlib Require Import Ascii ZifyNat.
From stdpp Require Import options.
Local Open Scope nat_scope.

(** The character of a 6-bit value, and back. *)
Definition sextet (n : nat) : ascii :=
  ascii_of_nat
    (if n <? 26 then 65 + n else if n <? 52 then 71 + n else if n <? 62 then n - 4
     else if n =? 62 then 43 else 47).

Definition value_of (a : ascii) : option nat :=
  let c := nat_of_ascii a in
  if (65 <=? c) && (c <=? 90) then Some (c - 65)
  else if (97 <=? c) && (c <=? 122) then Some (c - 71)
  else if (48 <=? c) && (c <=? 57) then Some (c + 4)
  else if c =? 43 then Some 62 else if c =? 47 then Some 63 else None.

Definition pad : ascii := ascii_of_nat 61.

Fixpoint EncodeToString (b : list ascii) : list ascii :=
  match b with
  | [] => []
  | [x] =>
      let x := nat_of_ascii x in
      [sextet (x / 4); sextet (x mod 4 * 16); pad; pad]
  | [x; y] =>
      let x := nat_of_ascii x in let y := nat_of_ascii y in
      [sextet (x / 4); sextet (x mod 4 * 16 + y / 16); sextet (y mod 16 * 4); pad]
  | x :: y :: z :: rest =>
      let x := nat_of_ascii x in let y := nat_of_ascii y in let z := nat_of_ascii z in
      sextet (x / 4) :: sextet (x mod 4 * 16 + y / 16) :: sextet (y mod 16 * 4 + z / 64)
        :: sextet (z mod 64) :: EncodeToString rest
  end.

Definition newline (a : ascii) : Prop := a = ascii_of_nat 10 \/ a = ascii_of_nat 13.
#[export] Instance newline_dec a : Decision (newline a).
Proof. unfold newline. apply _. Defined.

(** Groups of four characters; [None] is a corrupt input. *)
Fixpoint decode_groups (s : list ascii) : option (list ascii) :=
  match s with
  | [] => Some []
  | a :: b :: c :: d :: rest =>
      match value_of a, value_of b with
      | Some x, Some y =>
          if decide (c = pad) then
            if decide (d = pad /\ rest = []) then Some [ascii_of_nat (x * 4 + y / 16)] else None
          else
            match value_of c with
            | None => None
            | Some z =>
                if decide (d = pad) then
                  if decide (rest = [])
                  then Some [ascii_of_nat (x * 4 + y / 16); ascii_of_nat (y mod 16 * 16 + z / 4)]
                  else None
                else
                  match value_of d with
                  | None => None
                  | Some u =>
                      tail ← decode_groups rest;
                      Some (ascii_of_nat (x * 4 + y / 16) :: ascii_of_nat (y mod 16 * 16 + z / 4)
                              :: ascii_of_nat (z mod 4 * 64 + u) :: tail)
                  end
            end
      | _, _ => None
      end
  | _ => None
  end.

Definition DecodeString (s : list ascii) : option (list ascii) :=
  decode_groups (filter (fun a => ~ newline a) s).

(** ** The two are inverse *)

(** Facts about each sextet, found by trying them all. *)
Definition sextet_ok (n : nat) : bool :=
  bool_decide (value_of (sextet n) = Some n) && bool_decide (sextet n <> pad) &&
  bool_decide (~ newline (sextet n)) && bool_decide (nat_of_ascii (sextet n) <> 32) &&
  (33 <=? nat_of_ascii (sextet n)) && (nat_of_ascii (sextet n) <=? 126) &&
  bool_decide (nat_of_ascii (sextet n) <> 44).

Lemma sextets_ok : forallb sextet_ok (seq 0 64) = true.
Proof. vm_compute. reflexivity. Qed.

Lemma sextet_spec n : n < 64 ->
  value_of (sextet n) = Some n /\ sextet n <> pad /\ ~ newline (sextet n) /\
  33 <= nat_of_ascii (sextet n) <= 126 /\ nat_of_ascii (sextet n) <> 44.
Proof.
  intros Hn. pose proof sextets_ok as Hall. rewrite forallb_forall in Hall.
  specialize (Hall n ltac:(apply in_seq; lia)). unfold sextet_ok in Hall.
  rewrite !andb_true_iff, !bool_decide_eq_true, !Nat.leb_le in Hall. tauto.
Qed.

Lemma byte_bound a : nat_of_ascii a < 256.
Proof. apply nat_ascii_bounded. Qed.

(** The arithmetic of a group. *)
Ltac div_lia := zify; Z.to_euclidean_division_equations; lia.

Lemma join_first x y : y < 256 -> x / 4 * 4 + (x mod 4 * 16 + y / 16) / 16 = x.
Proof. intros Hy. div_lia. Qed.
Lemma join_second x y z : y < 256 -> z < 256 ->
  (x mod 4 * 16 + y / 16) mod 16 * 16 + (y mod 16 * 4 + z / 64) / 4 = y.
Proof. intros Hy Hz. div_lia. Qed.
Lemma join_third y z : z < 256 -> (y mod 16 * 4 + z / 64) mod 4 * 64 + z mod 64 = z.
Proof. intros Hz. div_lia. Qed.
Lemma group_bounds x y z : x < 256 -> y < 256 -> z < 256 ->
  x / 4 < 64 /\ x mod 4 * 16 + y / 16 < 64 /\ y mod 16 * 4 + z / 64 < 64 /\ z mod 64 < 64.
Proof. intros Hx Hy Hz. div_lia. Qed.

(** Induction over groups of three bytes. *)
Lemma three_ind (P : list ascii -> Prop) :
  P [] -> (forall x, P [x]) -> (forall x y, P [x; y]) ->
  (forall x y z rest, P rest -> P (x :: y :: z :: rest)) -> forall b, P b.
Proof.
  intros H0 H1 H2 H3. fix IH 1. intros [|x [|y [|z rest]]]; [done|apply H1|apply H2|]. apply H3, IH.
Qed.

Lemma encode_chars b :
  Forall (fun a => ~ newline a /\ 33 <= nat_of_ascii a <= 126 /\ nat_of_ascii a <> 44) (EncodeToString b).
Proof.
  assert (Hpad : ~ newline pad /\ 33 <= nat_of_ascii pad <= 126 /\ nat_of_ascii pad <> 44)
    by (split_and!; [by intros [?|?]|vm_compute; lia..|done]).
  assert (Hs : forall n, n < 64 -> ~ newline (sextet n) /\ 33 <= nat_of_ascii (sextet n) <= 126 /\
    nat_of_ascii (sextet n) <> 44) by (intros n Hn; destruct (sextet_spec n Hn) as (_ & _ & ? & ? & ?); done).
  induction b as [|x|x y|x y z rest IH] using three_ind; simpl; [constructor|..].
  - pose proof (group_bounds (nat_of_ascii x) 0 0 (byte_bound x)) as B.
    change (0 / 16) with 0 in B. change (0 / 64) with 0 in B. rewrite ?Nat.add_0_r in B. destruct B as (? & ? & _); [lia..|].
    repeat (constructor; [first [exact Hpad | by apply Hs]|]). constructor.
  - pose proof (group_bounds (nat_of_ascii x) (nat_of_ascii y) 0 (byte_bound x) (byte_bound y)) as B.
    change (0 / 16) with 0 in B. change (0 / 64) with 0 in B. rewrite ?Nat.add_0_r in B. destruct B as (? & ? & ? & _); [lia..|].
    repeat (constructor; [first [exact Hpad | by apply Hs]|]). constructor.
  - pose proof (group_bounds _ _ _ (byte_bound x) (byte_bound y) (byte_bound z)) as (? & ? & ? & ?).
    repeat (constructor; [by apply Hs|]). done.
Qed.

Lemma filter_Forall {A} (P : A -> Prop) `{!forall x, Decision (P x)} (l : list A) :
  Forall P l -> filter P l = l.
Proof.
  induction 1 as [|x l Hx _ IH]; [done|]. rewrite filter_cons_True by done. by rewrite IH.
Qed.

Lemma decode_encode b : DecodeString (EncodeToString b) = Some b.
Proof.
  unfold DecodeString. rewrite filter_Forall.
  2:{ eapply Forall_impl; [apply encode_chars|]. by intros a (? & _). }
  induction b as [|x|x y|x y z rest IH] using three_ind; [done|..]; cbn [EncodeToString decode_groups].
  - pose proof (group_bounds (nat_of_ascii x) 0 0 (byte_bound x)) as B.
    change (0 / 16) with 0 in B. change (0 / 64) with 0 in B. rewrite ?Nat.add_0_r in B. destruct B as (B1 & B2 & _); [lia..|].
    destruct (sextet_spec _ B1) as (-> & _), (sextet_spec _ B2) as (-> & _).
    rewrite !decide_True by done. pose proof (join_first (nat_of_ascii x) 0) as J.
    change (0 / 16) with 0 in J. change (0 / 64) with 0 in J. rewrite ?Nat.add_0_r in J.
    rewrite J, ascii_nat_embedding by lia. done.
  - pose proof (group_bounds (nat_of_ascii x) (nat_of_ascii y) 0 (byte_bound x) (byte_bound y)) as B.
    change (0 / 16) with 0 in B. change (0 / 64) with 0 in B. rewrite ?Nat.add_0_r in B. destruct B as (B1 & B2 & B3 & _); [lia..|].
    destruct (sextet_spec _ B1) as (-> & _), (sextet_spec _ B2) as (-> & _), (sextet_spec _ B3) as (-> & Hp & _).
    rewrite decide_False, !decide_True by done.
    rewrite join_first by apply byte_bound.
    pose proof (join_second (nat_of_ascii x) (nat_of_ascii y) 0 (byte_bound y)) as J.
    change (0 / 16) with 0 in J. change (0 / 64) with 0 in J. rewrite ?Nat.add_0_r in J.
    rewrite J, !ascii_nat_embedding by lia. done.
  - pose proof (group_bounds _ _ _ (byte_bound x) (byte_bound y) (byte_bound z)) as (B1 & B2 & B3 & B4).
    destruct (sextet_spec _ B1) as (-> & _), (sextet_spec _ B2) as (-> & _), (sextet_spec _ B3) as (-> & Hp & _),
      (sextet_spec _ B4) as (-> & Hp' & _).
    rewrite !decide_False by done. cbn [mbind option_bind]. rewrite IH.
    rewrite join_first, join_second, join_third, !ascii_nat_embedding by (done || apply byte_bound). done.
Qed.

Lemma encode_length b : length (EncodeToString b) = 4 * ((length b + 2) / 3).
Proof.
  induction b as [|x|x y|x y z rest IH] using three_ind; [done..|]. cbn [EncodeToString length]. rewrite IH.
  div_lia.
Qed.

Example base64_ex :
  String.string_of_list_ascii (EncodeToString (String.list_ascii_of_string "fries")) = "ZnJpZXM="%string /\
  DecodeString (String.list_ascii_of_string "Zn==") = Some (String.list_ascii_of_string "f") /\
  DecodeString (String.list_ascii_of_string "Zg=") = None /\
  DecodeString (String.list_ascii_of_string "Zg==Zg==") = None.
Proof. vm_compute. split_and!; reflexivity. Qed.
