(* ===== verification/GoSHA256.v ===== *)
(** * SHA-256 and HMAC: [crypto/sha256] and [crypto/hmac]

    The hash of FIPS 180-4 on 32-bit words and the keyed hash of RFC 2104, as far
    as webhook signatures use them.  The constants are computed from the primes
    they are defined by. *)

From S2P Require Import Prelude.
From Stdlib Require Import Ascii.
From stdpp Require Import options.
Local Open Scope Z_scope.

Definition w32 (x : Z) : Z := x mod 2 ^ 32.
Definition rotr (n x : Z) : Z := w32 (Z.lor (Z.shiftr x n) (Z.shiftl x (32 - n))).

(** ** Constants *)

Definition is_prime (n : Z) : bool :=
  forallb (fun d => negb (n mod Z.of_nat d =? 0)) (seq 2 (Z.to_nat (Z.sqrt n) - 1)).

Definition primes (bound : nat) : list Z := filter (fun n => is_prime n = true) (Z.of_nat <$> seq 2 bound).

(** The integer cube root below [2^36], bit by bit. *)
Definition cbrt (n : Z) : Z :=
  foldl (fun r k => let c := r + 2 ^ Z.of_nat k in if c * c * c <=? n then c else r) 0 (rev (seq 0 36)).

(** The first 32 fractional bits of the cube roots of 64 primes and of the
    square roots of 8. *)
Definition round_constants : list Z := Eval vm_compute in (fun p => w32 (cbrt (p * 2 ^ 96))) <$> primes 310.
Definition initial_hash : list Z := Eval vm_compute in (fun p => w32 (Z.sqrt (p * 2 ^ 64))) <$> primes 18.

(** ** The compression function *)

Record regs := mkRegs { ra : Z; rb : Z; rc : Z; rd : Z; re : Z; rf : Z; rg : Z; rh : Z }.

Definition round (r : regs) (kw : Z) : regs :=
  let '(mkRegs a b c d e f g h) := r in
  let s1 := Z.lxor (Z.lxor (rotr 6 e) (rotr 11 e)) (rotr 25 e) in
  let ch := Z.lxor (Z.land e f) (Z.land (Z.lxor e (2 ^ 32 - 1)) g) in
  let t1 := h + s1 + ch + kw in
  let s0 := Z.lxor (Z.lxor (rotr 2 a) (rotr 13 a)) (rotr 22 a) in
  let maj := Z.lxor (Z.lxor (Z.land a b) (Z.land a c)) (Z.land b c) in
  mkRegs (w32 (t1 + s0 + maj)) a b c (w32 (d + t1)) e f g.

(** The message schedule, from the last sixteen words, oldest first. *)
Definition next_word (w : list Z) : Z :=
  let x := nth 1 w 0 in let y := nth 14 w 0 in
  let s0 := Z.lxor (Z.lxor (rotr 7 x) (rotr 18 x)) (Z.shiftr x 3) in
  let s1 := Z.lxor (Z.lxor (rotr 17 y) (rotr 19 y)) (Z.shiftr y 10) in
  w32 (nth 0 w 0 + s0 + nth 9 w 0 + s1).

Fixpoint rounds (ks : list Z) (w : list Z) (r : regs) : regs :=
  match ks, w with
  | k :: ks, x :: w' => rounds ks (w' ++ [next_word w]) (round r (k + x))
  | _, _ => r
  end.

Definition add_regs (r s : regs) : regs :=
  mkRegs (w32 (ra r + ra s)) (w32 (rb r + rb s)) (w32 (rc r + rc s)) (w32 (rd r + rd s))
         (w32 (re r + re s)) (w32 (rf r + rf s)) (w32 (rg r + rg s)) (w32 (rh r + rh s)).

(** ** Bytes and words *)

Definition byte_z (a : ascii) : Z := Z.of_nat (nat_of_ascii a).
Definition z_byte (z : Z) : ascii := ascii_of_nat (Z.to_nat (z mod 256)).

Definition word_bytes (n : nat) (z : Z) : list ascii :=
  (fun i => z_byte (Z.shiftr z (8 * Z.of_nat i))) <$> rev (seq 0 n).

(** The sixteen words of a block and the blocks after it. *)
Fixpoint take_words (n : nat) (b : list ascii) : list Z * list ascii :=
  match n, b with
  | S n, w :: x :: y :: z :: b =>
      let '(ws, rest) := take_words n b in
      (((byte_z w * 256 + byte_z x) * 256 + byte_z y) * 256 + byte_z z :: ws, rest)
  | _, _ => ([], b)
  end.

Fixpoint blocks (n : nat) (b : list ascii) (r : regs) : regs :=
  match n with
  | O => r
  | S n =>
      let '(ws, rest) := take_words 16 b in
      blocks n rest (add_regs r (rounds round_constants ws r))
  end.

(** The message, a one bit, zeros up to 56 bytes of a block, and its length in
    bits. *)
Definition padded (m : list ascii) : list ascii :=
  m ++ z_byte 128 :: replicate (Z.to_nat ((55 - Z.of_nat (length m)) mod 64)) (z_byte 0)
    ++ word_bytes 8 (8 * Z.of_nat (length m)).

Definition initial_regs : regs :=
  let h i := nth i initial_hash 0 in
  mkRegs (h 0%nat) (h 1%nat) (h 2%nat) (h 3%nat) (h 4%nat) (h 5%nat) (h 6%nat) (h 7%nat).

Definition Sum256 (m : list ascii) : list ascii :=
  let p := padded m in
  let r := blocks (length p / 64) p initial_regs in
  word_bytes 4 (ra r) ++ word_bytes 4 (rb r) ++ word_bytes 4 (rc r) ++ word_bytes 4 (rd r)
    ++ word_bytes 4 (re r) ++ word_bytes 4 (rf r) ++ word_bytes 4 (rg r) ++ word_bytes 4 (rh r).

(** ** HMAC *)

Definition xor_byte (n : Z) (a : ascii) : ascii := z_byte (Z.lxor n (byte_z a)).

Definition hmac_sha256 (key message : list ascii) : list ascii :=
  let key := if (64 <? length key)%nat then Sum256 key else key in
  let block := key ++ replicate (64 - length key) (z_byte 0) in
  Sum256 ((xor_byte 92 <$> block) ++ Sum256 ((xor_byte 54 <$> block) ++ message)).

Lemma Sum256_length m : length (Sum256 m) = 32%nat.
Proof. unfold Sum256. rewrite !length_app. unfold word_bytes. by rewrite !length_fmap. Qed.

Lemma hmac_length key m : length (hmac_sha256 key m) = 32%nat.
Proof. apply Sum256_length. Qed.

(** ** Test vectors *)

Definition hex_digit (n : Z) : ascii := ascii_of_nat (Z.to_nat (if n <? 10 then 48 + n else 87 + n)).
Definition hex (b : list ascii) : string :=
  String.string_of_list_ascii (concat ((fun a => [hex_digit (byte_z a / 16); hex_digit (byte_z a mod 16)]) <$> b)).

Example sha256_abc :
  hex (Sum256 (String.list_ascii_of_string "abc"))
  = "ba7816bf8f01cfea414140de5dae2223b00361a396177a9cb410ff61f20015ad"%string.
Proof. vm_compute. reflexivity. Qed.

Example sha256_two_blocks :
  hex (Sum256 (String.list_ascii_of_string "abcdbcdecdefdefgefghfghighijhijkijkljklmklmnlmnomnopnopq"))
  = "248d6a61d20638b8e5c026930c3e6039a33ce45964ff2167f6ecedd419db06c1"%string.
Proof. vm_compute. reflexivity. Qed.

Example hmac_jefe :
  hex (hmac_sha256 (String.list_ascii_of_string "Jefe")
         (String.list_ascii_of_string "what do ya want for nothing?"))
  = "5bdcc146bf60754e6a042426089575c75a003f089d2739839dec58b964ec3843"%string.
Proof. vm_compute. reflexivity. Qed.
