(* ===== verification/GoRunes.v ===== *)
(** * Runes: [unicode/utf8] and conversions between strings and runes

    Decoding byte by byte as Go does it, where an ill-formed byte stands for
    [RuneError], and encoding.  A string is cut into its characters, each the bytes
    of one rune; cutting commutes with taking a prefix at a boundary and with an
    ASCII character in between, which is what the packages rely on. *)

From S2P Require Import Prelude GoUtf8 GoSHA256.
From Stdlib Require Import Ascii.
From stdpp Require Import options.
Set Default Proof Using "Type*".
Local Abbreviation bytes := (list ascii).
Local Open Scope Z_scope.

Definition RuneError : Z := 65533.

(** ** Decoding *)

Definition within (lo hi c : Z) : bool := (lo <=? c) && (c <=? hi).
Definition tail_byte (c : Z) : bool := within 128 191 c.

(** The well-formed sequences of two, three and four bytes. *)
Definition wf2 (c d : Z) : bool := within 194 223 c && tail_byte d.
Definition wf3 (c d e : Z) : bool :=
  within 224 239 c && within (if c =? 224 then 160 else 128) (if c =? 237 then 159 else 191) d && tail_byte e.
Definition wf4 (c d e f : Z) : bool :=
  within 240 244 c && within (if c =? 240 then 144 else 128) (if c =? 244 then 143 else 191) d &&
  tail_byte e && tail_byte f.

(** [utf8.DecodeRuneInString]: the first rune and how many bytes it takes. *)
Definition decode_rune (s : bytes) : Z * nat :=
  match byte_z <$> s with
  | [] => (RuneError, 0%nat)
  | c :: s =>
      if c <? 128 then (c, 1%nat)
      else match s with
      | [] => (RuneError, 1%nat)
      | d :: s =>
          if wf2 c d then ((c - 192) * 64 + (d - 128), 2%nat)
          else match s with
          | [] => (RuneError, 1%nat)
          | e :: s =>
              if wf3 c d e then (((c - 224) * 64 + (d - 128)) * 64 + (e - 128), 3%nat)
              else match s with
              | f :: _ =>
                  if wf4 c d e f then ((((c - 240) * 64 + (d - 128)) * 64 + (e - 128)) * 64 + (f - 128), 4%nat)
                  else (RuneError, 1%nat)
              | [] => (RuneError, 1%nat)
              end
          end
      end
  end.

(** The characters of a string, each with the bytes of one rune; the string is used
    up when the fuel is its length, since every turn takes a byte.  These are the
    elements of [strings.Split] with an empty separator. *)
Fixpoint chars_loop (fuel : nat) (s : bytes) : list bytes :=
  match fuel, s with
  | S fuel, _ :: _ => let n := (decode_rune s).2 in take n s :: chars_loop fuel (drop n s)
  | _, _ => []
  end.
Definition chars (s : bytes) : list bytes := chars_loop (length s) s.

(** [[]rune(s)], and [utf8.RuneCountInString]. *)
Definition runes (s : bytes) : list Z := (fun c => (decode_rune c).1) <$> chars s.
Definition RuneCount (s : bytes) : nat := length (chars s).

(** ** Encoding *)

(** The code points that have an encoding. *)
Definition scalar (r : Z) : bool := within 0 1114111 r && negb (within 55296 57343 r).

(** [utf8.AppendRune] *)
Definition encode_valid (r : Z) : list Z :=
  if r <? 128 then [r]
  else if r <? 2048 then [192 + r / 64; 128 + r mod 64]
  else if r <? 65536 then [224 + r / 4096; 128 + r / 64 mod 64; 128 + r mod 64]
  else [240 + r / 262144; 128 + r / 4096 mod 64; 128 + r / 64 mod 64; 128 + r mod 64].
Definition encode_rune (r : Z) : bytes := z_byte <$> encode_valid (if scalar r then r else RuneError).

(** [string(runes)] *)
Definition string_of_runes (rs : list Z) : bytes := rs ≫= encode_rune.

(** [unicode.IsSpace] *)
Definition IsSpace (r : Z) : bool :=
  within 9 13 r || (r =? 32) || (r =? 133) || (r =? 160) || (r =? 5760) || within 8192 8202 r ||
  (r =? 8232) || (r =? 8233) || (r =? 8239) || (r =? 8287) || (r =? 12288).

(** ** Bytes *)

Lemma byte_z_range a : 0 <= byte_z a < 256.
Proof. unfold byte_z. pose proof (nat_ascii_bounded a). lia. Qed.

Lemma z_byte_byte_z a : z_byte (byte_z a) = a.
Proof.
  unfold z_byte. rewrite Z.mod_small by apply byte_z_range. unfold byte_z. by rewrite Nat2Z.id, ascii_nat_embedding.
Qed.

Lemma byte_z_z_byte z : 0 <= z < 256 -> byte_z (z_byte z) = z.
Proof.
  intros H. unfold z_byte, byte_z. rewrite Z.mod_small by lia.
  rewrite nat_ascii_embedding by lia. lia.
Qed.

Lemma map_byte_z (l : list Z) : Forall (fun z => 0 <= z < 256) l -> byte_z <$> (z_byte <$> l) = l.
Proof. induction 1; simpl; [done|]. f_equal; [by apply byte_z_z_byte|done]. Qed.

Lemma map_z_byte (c : bytes) : z_byte <$> (byte_z <$> c) = c.
Proof. induction c as [|a c IH]; [done|]. by rewrite !fmap_cons, z_byte_byte_z, IH. Qed.

(** ** The cases of decoding *)

Ltac unbool :=
  repeat match goal with
  | H : _ && _ = true |- _ => apply andb_true_iff in H as [? ?]
  | H : _ && _ = false |- _ => apply andb_false_iff in H
  | H : (_ <? _) = true |- _ => apply Z.ltb_lt in H
  | H : (_ <? _) = false |- _ => apply Z.ltb_ge in H
  | H : (_ <=? _) = true |- _ => apply Z.leb_le in H
  | H : (_ <=? _) = false |- _ => apply Z.leb_gt in H
  end.
Ltac wf_unfold := unfold wf2, wf3, wf4, tail_byte, within in *; unbool.

(** Sequences of one to four bytes that stand for a rune. *)
Inductive wf_seq : list Z -> Z -> Prop :=
  | wf_1 c : 0 <= c < 128 -> wf_seq [c] c
  | wf_2 c d : wf2 c d = true -> wf_seq [c; d] ((c - 192) * 64 + (d - 128))
  | wf_3 c d e : wf3 c d e = true -> wf_seq [c; d; e] (((c - 224) * 64 + (d - 128)) * 64 + (e - 128))
  | wf_4 c d e f : wf4 c d e f = true ->
      wf_seq [c; d; e; f] ((((c - 240) * 64 + (d - 128)) * 64 + (e - 128)) * 64 + (f - 128)).

(** A string that begins with such a sequence decodes to its rune... *)
Lemma decode_wf l r s : wf_seq (byte_z <$> l) r -> decode_rune (l ++ s) = (r, length l).
Proof.
  intros H. unfold decode_rune. rewrite fmap_app. rewrite <- (length_fmap byte_z l).
  destruct H as [c Hc|c d H|c d e H|c d e f H]; simpl.
  - assert ((c <? 128) = true) as -> by (apply Z.ltb_lt; lia). done.
  - assert ((c <? 128) = false) as -> by (apply Z.ltb_ge; wf_unfold; lia). by rewrite H.
  - assert ((c <? 128) = false) as -> by (apply Z.ltb_ge; wf_unfold; lia).
    assert (wf2 c d = false) as -> by (unfold wf2, within; destruct (Z.leb_spec c 223); [wf_unfold; lia|by rewrite andb_false_r]).
    by rewrite H.
  - assert ((c <? 128) = false) as -> by (apply Z.ltb_ge; wf_unfold; lia).
    assert (wf2 c d = false) as -> by (unfold wf2, within; destruct (Z.leb_spec c 223); [wf_unfold; lia|by rewrite andb_false_r]).
    assert (wf3 c d e = false) as -> by (unfold wf3, within; destruct (Z.leb_spec c 239); [wf_unfold; lia|by rewrite andb_false_r]).
    by rewrite H.
Qed.

(** ...and every other byte is an error by itself. *)
Lemma decode_cases s : s <> [] ->
  (exists l t r, s = l ++ t /\ wf_seq (byte_z <$> l) r) \/ decode_rune s = (RuneError, 1%nat).
Proof.
  destruct s as [|a s]; [done|]. intros _. unfold decode_rune. simpl.
  destruct (byte_z a <? 128) eqn:E1.
  { left. exists [a], s, (byte_z a). split; [done|]. pose proof (byte_z_range a). unbool. constructor. lia. }
  destruct s as [|b s]; [by right|]. simpl. destruct (wf2 _ _) eqn:E2; [left; eexists [a; b], s, _; split; [done|by constructor]|].
  destruct s as [|c s]; [by right|]. simpl. destruct (wf3 _ _ _) eqn:E3; [left; eexists [a; b; c], s, _; split; [done|by constructor]|].
  destruct s as [|d s]; [by right|]. simpl. destruct (wf4 _ _ _ _) eqn:E4; [left; eexists [a; b; c; d], s, _; split; [done|by constructor]|].
  by right.
Qed.

Lemma wf_length l r : wf_seq l r -> (1 <= length l)%nat.
Proof. destruct 1; simpl; lia. Qed.

Lemma wf_not_error l r : wf_seq l r -> (r, length l) <> (RuneError, 1%nat).
Proof. unfold RuneError. destruct 1; simpl; intros [= ?]; lia. Qed.

Lemma decode_size_bounds s : s <> [] -> (1 <= (decode_rune s).2 <= length s)%nat.
Proof.
  intros Hs. destruct (decode_cases s Hs) as [(l & t & r & -> & H)| ->].
  - rewrite (decode_wf _ _ _ H). simpl. rewrite length_app. apply wf_length in H. rewrite length_fmap in H. lia.
  - destruct s; simpl; [done|lia].
Qed.

(** ** Characters *)

(** Cutting a string before its end, at a boundary, does not change its first
    character. *)
Lemma decode_prefix x y : x <> [] -> ((decode_rune (x ++ y)).2 <= length x)%nat ->
  decode_rune x = decode_rune (x ++ y).
Proof.
  intros Hx Hn. assert (Hxy : x ++ y <> []) by (destruct x; done).
  destruct (decode_cases (x ++ y) Hxy) as [(l & t & r & E & H)|Herr].
  - rewrite E, (decode_wf _ _ _ H) in *. simpl in Hn.
    assert (x = l ++ drop (length l) x) as ->; [|by rewrite (decode_wf _ _ _ H)].
    rewrite <- (take_drop (length l) x) at 1. f_equal.
    apply (f_equal (take (length l))) in E. by rewrite take_app_le, take_app_length in E by done.
  - rewrite Herr. destruct (decode_cases x Hx) as [(l & t & r & -> & H)|?]; [|done].
    rewrite <- app_assoc, (decode_wf _ _ _ H) in Herr. exfalso. eapply wf_not_error; [exact H|].
    by rewrite length_fmap.
Qed.

(** An ASCII character is never part of a longer sequence. *)
Lemma wf_tail l r x a t : wf_seq (byte_z <$> l) r -> x <> [] -> l = x ++ a :: t -> 128 <= byte_z a.
Proof.
  intros H Hx ->. rewrite fmap_app in H. destruct x as [|x0 x]; [done|].
  destruct x as [|x1 [|x2 [|x3 x]]]; simpl in H; inversion H; wf_unfold;
    repeat match goal with H : context [if ?b then _ else _] |- _ => destruct b end; try lia.
  all: destruct x; discriminate.
Qed.

Lemma decode_before_ascii x a t : x <> [] -> byte_z a < 128 -> decode_rune (x ++ a :: t) = decode_rune x.
Proof.
  intros Hx Ha. symmetry. apply decode_prefix; [done|].
  destruct (decode_cases (x ++ a :: t)) as [(l & u & r & E & H)| ->]; [destruct x; done| |destruct x; simpl; [done|lia]].
  rewrite E, (decode_wf _ _ _ H). simpl. destruct (Nat.le_gt_cases (length l) (length x)) as [|Hgt]; [done|exfalso].
  assert (El : l = x ++ a :: drop (S (length x)) l).
  { apply (f_equal (take (S (length x)))) in E. rewrite (take_app_le l) in E by lia.
    rewrite <- (take_drop (S (length x)) l) at 1. rewrite <- E. rewrite take_app. replace (S (length x) - length x)%nat with 1%nat by lia.
    rewrite take_ge by lia. simpl. by rewrite take_0, <- app_assoc. }
  pose proof (wf_tail _ _ _ _ _ H Hx El). lia.
Qed.

Lemma chars_loop_fuel n m s : (length s <= n)%nat -> (length s <= m)%nat -> chars_loop n s = chars_loop m s.
Proof.
  revert m s. induction n as [|n IH]; intros [|m] s Hn Hm; destruct s as [|a s]; simpl in *; try done; try lia.
  f_equal. pose proof (decode_size_bounds (a :: s) ltac:(done)) as H.
  apply IH; rewrite length_drop; simpl in *; lia.
Qed.

Lemma chars_eq s : s <> [] -> chars s = take (decode_rune s).2 s :: chars (drop (decode_rune s).2 s).
Proof.
  intros Hs. pose proof (decode_size_bounds s Hs) as H. unfold chars.
  destruct s as [|a s]; [done|]. cbn [chars_loop length]. f_equal.
  apply chars_loop_fuel; rewrite length_drop; simpl in *; lia.
Qed.

(** Induction over the characters of a string. *)
Lemma chars_ind (P : bytes -> Prop) :
  P [] -> (forall s, s <> [] -> P (drop (decode_rune s).2 s) -> P s) -> forall s, P s.
Proof.
  intros H0 HS s. induction s as [s IH] using (induction_ltof1 _ length). unfold ltof in IH.
  destruct (decide (s = [])) as [->|Hs]; [done|]. apply HS; [done|]. apply IH.
  pose proof (decode_size_bounds s Hs). rewrite length_drop. lia.
Qed.

Lemma concat_chars s : concat (chars s) = s.
Proof.
  induction s as [|s Hs IH] using chars_ind; [done|]. rewrite chars_eq by done. simpl. by rewrite IH, take_drop.
Qed.

(** The first character of a string, by itself. *)
Lemma decode_first s : s <> [] -> decode_rune (take (decode_rune s).2 s) = decode_rune s.
Proof.
  intros Hs. pose proof (decode_size_bounds s Hs) as H. set (n := (decode_rune s).2) in *.
  rewrite (decode_prefix (take n s) (drop n s)); rewrite ?take_drop; try done.
  - intros E. apply (f_equal length) in E. rewrite length_take in E. simpl in E. lia.
  - rewrite length_take. lia.
Qed.

(** Substrings between two boundaries have the characters within them. *)
Lemma chars_app s cs cs' : chars s = cs ++ cs' -> chars (concat cs) = cs /\ chars (concat cs') = cs'.
Proof.
  revert s. induction cs as [|c cs IH]; intros s; simpl.
  { intros <-. split; [done|]. by rewrite concat_chars. }
  intros E. assert (Hs : s <> []) by (intros ->; done).
  pose proof E as E'. rewrite chars_eq in E by done. injection E as Ec E. destruct (IH _ E) as [IH1 IH2]. split; [|done].
  pose proof (decode_size_bounds s Hs) as Hn.
  assert (Hl : length c = (decode_rune s).2) by (rewrite <- Ec, length_take; lia).
  assert (Hc : c <> []) by (destruct c; simpl in *; [lia|done]).
  assert (Eall : s = (c ++ concat cs) ++ concat cs').
  { rewrite <- (concat_chars s), E'. simpl. by rewrite concat_app, app_assoc. }
  assert (Hd : decode_rune (c ++ concat cs) = decode_rune s).
  { rewrite Eall. apply decode_prefix; [destruct c; done|]. rewrite <- Eall, length_app. lia. }
  rewrite chars_eq by (destruct c; done). rewrite Hd, <- Hl, take_app_length, drop_app_length. by f_equal.
Qed.

Lemma chars_ascii x a t : byte_z a < 128 -> chars (x ++ a :: t) = chars x ++ [a] :: chars t.
Proof.
  intros Ha. induction x as [|x Hx IH] using chars_ind; simpl.
  - rewrite chars_eq by done. change (a :: t) with ([a] ++ t).
    rewrite (decode_wf [a] (byte_z a)); [done|]. constructor. pose proof (byte_z_range a). lia.
  - rewrite chars_eq by (destruct x; done). rewrite (chars_eq x) by done. rewrite decode_before_ascii by done.
    pose proof (decode_size_bounds x Hx). rewrite take_app_le, drop_app_le, IH by lia. done.
Qed.

(** ** Runes *)

Lemma runes_eq s : s <> [] -> runes s = (decode_rune s).1 :: runes (drop (decode_rune s).2 s).
Proof. intros Hs. unfold runes. rewrite chars_eq by done. simpl. by rewrite decode_first. Qed.

Lemma runes_wf l r s : wf_seq (byte_z <$> l) r -> runes (l ++ s) = r :: runes s.
Proof.
  intros H. pose proof (wf_length _ _ H) as Hl. rewrite length_fmap in Hl.
  rewrite runes_eq by (destruct l; simpl in *; [lia|done]). rewrite (decode_wf _ _ _ H). cbn [fst snd]. by rewrite drop_app_length.
Qed.

Lemma wf_scalar l r : wf_seq l r -> scalar r = true.
Proof.
  unfold scalar, within. rewrite andb_true_iff, negb_true_iff, andb_false_iff, andb_true_iff, !Z.leb_le, !Z.leb_gt.
  destruct 1; wf_unfold; repeat case_match; unbool; rewrite ?Z.eqb_eq, ?Z.eqb_neq in *; lia.
Qed.

(** Linear arithmetic with division and remainder by numerals. *)
Ltac divlia := Z.to_euclidean_division_equations; lia.

Lemma wf_seq_eq l r r' : wf_seq l r' -> r' = r -> wf_seq l r.
Proof. by intros ? <-. Qed.

Lemma encode_wf r : scalar r = true -> wf_seq (encode_valid r) r.
Proof.
  unfold scalar, within. rewrite andb_true_iff, negb_true_iff, andb_false_iff, andb_true_iff, !Z.leb_le, !Z.leb_gt.
  intros [[H0 H1] Hs]. unfold encode_valid.
  assert (Ht : forall x, tail_byte (128 + x mod 64) = true).
  { intros x. unfold tail_byte, within. rewrite andb_true_iff, !Z.leb_le. divlia. }
  destruct (Z.ltb_spec r 128); [constructor; lia|].
  destruct (Z.ltb_spec r 2048); [|destruct (Z.ltb_spec r 65536)];
    (eapply wf_seq_eq; [constructor; unfold wf2, wf3, wf4; rewrite !Ht, !andb_true_r; unfold within; rewrite ?andb_true_iff, !Z.leb_le
                       |divlia]); try divlia.
  - destruct (Z.eqb_spec (224 + r / 4096) 224), (Z.eqb_spec (224 + r / 4096) 237); divlia.
  - destruct (Z.eqb_spec (240 + r / 262144) 240), (Z.eqb_spec (240 + r / 262144) 244); divlia.
Qed.

Lemma wf_encode l r : wf_seq l r -> encode_valid r = l.
Proof.
  unfold encode_valid. destruct 1; wf_unfold; repeat case_match; unbool; rewrite ?Z.eqb_eq, ?Z.eqb_neq in *;
    try (exfalso; lia); repeat (f_equal; try divlia).
Qed.

Lemma wf_bytes l r : wf_seq l r -> Forall (fun z => 0 <= z < 256) l.
Proof.
  destruct 1; wf_unfold; repeat constructor; repeat case_match; unbool; rewrite ?Z.eqb_eq, ?Z.eqb_neq in *; lia.
Qed.

(** The rune an encoded one stands for. *)
Definition shown (r : Z) : Z := if scalar r then r else RuneError.

Lemma shown_scalar r : scalar (shown r) = true.
Proof. unfold shown. by destruct (scalar r) eqn:E. Qed.

Lemma encode_rune_wf r : wf_seq (byte_z <$> encode_rune r) (shown r).
Proof.
  unfold encode_rune. fold (shown r). pose proof (encode_wf _ (shown_scalar r)) as H.
  rewrite map_byte_z; [done|]. by eapply wf_bytes.
Qed.

(** Runes survive the conversion to a string, except that those without an encoding
    become [RuneError]. *)
Lemma runes_string rs : runes (string_of_runes rs) = shown <$> rs.
Proof.
  induction rs as [|r rs IH]; [done|]. unfold string_of_runes in *. rewrite bind_cons, (runes_wf _ (shown r)), IH by apply encode_rune_wf.
  done.
Qed.

(** Decoded runes have encodings. *)
Lemma decode_scalar s : s <> [] -> scalar (decode_rune s).1 = true.
Proof.
  intros Hs. destruct (decode_cases s Hs) as [(l & t & r & -> & H)| ->]; [|done].
  rewrite (decode_wf _ _ _ H). by eapply wf_scalar.
Qed.

Lemma runes_scalar s : Forall (fun r => scalar r = true) (runes s).
Proof.
  induction s as [|s Hs IH] using chars_ind; [constructor|]. rewrite runes_eq by done.
  constructor; [by apply decode_scalar|done].
Qed.

Lemma shown_scalars rs : Forall (fun r => scalar r = true) rs -> shown <$> rs = rs.
Proof. induction 1 as [|r rs H _ IH]; [done|]. rewrite fmap_cons, IH. unfold shown. by rewrite H. Qed.

(** ** Valid strings *)

Definition wf_char (c : bytes) : Prop := exists r, wf_seq (byte_z <$> c) r.

Lemma string_runes s : Forall wf_char (chars s) -> string_of_runes (runes s) = s.
Proof.
  induction s as [|s Hs IH] using chars_ind; [done|].
  rewrite chars_eq, runes_eq by done. intros [[r Hr] Hw]%Forall_cons. unfold string_of_runes in *.
  set (c := take _ _) in *. pose proof (decode_wf _ _ [] Hr) as E. rewrite app_nil_r in E.
  rewrite bind_cons, IH by done. transitivity (c ++ drop (decode_rune s).2 s); [f_equal|apply take_drop].
  rewrite <- (decode_first s) by done. fold c. rewrite E. cbn [fst].
  unfold encode_rune. rewrite (wf_scalar _ _ Hr), (wf_encode _ _ Hr).
  apply map_z_byte.
Qed.

Lemma wf_chars l r s : wf_seq (byte_z <$> l) r -> Forall wf_char (chars s) -> Forall wf_char (chars (l ++ s)).
Proof.
  intros H Hs. pose proof (wf_length _ _ H) as Hl. rewrite length_fmap in Hl.
  rewrite chars_eq by (destruct l; simpl in *; [lia|done]). rewrite (decode_wf _ _ _ H). cbn [snd].
  rewrite take_app_length, drop_app_length. constructor; [by exists r|done].
Qed.

(** [utf8.ValidString] accepts only strings whose characters are all well-formed. *)
Ltac natbool :=
  repeat match goal with
  | H : _ && _ = true |- _ => apply andb_true_iff in H as [? ?]
  | H : negb _ || _ = true |- _ => apply orb_true_iff in H
  | H : (_ <=? _)%nat = true |- _ => apply Nat.leb_le in H
  | H : (_ <? _)%nat = true |- _ => apply Nat.ltb_lt in H
  | H : negb (_ =? _)%nat = true \/ _ |- _ => rewrite negb_true_iff, Nat.eqb_neq, Nat.leb_le in H
  end.

Lemma valid_chars n s : (length s < n)%nat -> utf8_valid n (nat_of_ascii <$> s) = true -> Forall wf_char (chars s).
Proof.
  revert s. induction n as [|n IH]; intros s Hn; [lia|].
  destruct s as [|a s]; [constructor|]. cbn [utf8_valid fmap list_fmap length] in *.
  destruct (nat_of_ascii a <? 128)%nat eqn:E1.
  { intros H. natbool. apply (wf_chars [a] (byte_z a)); [|apply IH; [lia|done]]. constructor. unfold byte_z. lia. }
  destruct ((194 <=? nat_of_ascii a) && (nat_of_ascii a <=? 223))%nat eqn:E2.
  { destruct s as [|b s]; [done|]. cbn [fmap list_fmap length] in *. unfold cont. intros H. natbool.
    eapply (wf_chars [a; b]); [|apply IH; [lia|done]]. constructor. unfold wf2, tail_byte, within, byte_z.
    rewrite !andb_true_iff, !Z.leb_le. lia. }
  destruct ((224 <=? nat_of_ascii a) && (nat_of_ascii a <=? 239))%nat eqn:E3.
  { destruct s as [|b [|c s]]; [done|done|]. cbn [fmap list_fmap length] in *. unfold cont. intros H. natbool.
    eapply (wf_chars [a; b; c]); [|apply IH; [lia|done]]. constructor. unfold wf3, tail_byte, within, byte_z.
    rewrite !andb_true_iff, !Z.leb_le. repeat case_match; rewrite ?Z.eqb_eq, ?Z.eqb_neq in *; lia. }
  destruct ((240 <=? nat_of_ascii a) && (nat_of_ascii a <=? 244))%nat eqn:E4; [|done].
  destruct s as [|b [|c [|d s]]]; [done|done|done|]. cbn [fmap list_fmap length] in *. unfold cont. intros H. natbool.
  eapply (wf_chars [a; b; c; d]); [|apply IH; [lia|done]]. constructor. unfold wf4, tail_byte, within, byte_z.
  rewrite !andb_true_iff, !Z.leb_le. repeat case_match; rewrite ?Z.eqb_eq, ?Z.eqb_neq in *; lia.
Qed.

(** ...and accepts all of those. *)
Ltac byte_cases :=
  repeat match goal with
  | |- context [(?x <? ?y)%nat] => destruct (Nat.ltb_spec x y); try lia
  | |- context [(?x <=? ?y)%nat] => destruct (Nat.leb_spec x y); try lia
  | |- context [(?x =? ?y)%nat] => destruct (Nat.eqb_spec x y); try lia
  end.

Lemma wf_valid n l r t : wf_seq (byte_z <$> l) r -> (forall m, utf8_valid m t = true) ->
  utf8_valid n ((nat_of_ascii <$> l) ++ t) = true.
Proof.
  intros H Ht. destruct n as [|n]; [done|].
  destruct l as [|a [|b [|c [|d [|e l]]]]]; simpl in H; inversion H; subst; clear H;
    cbn [fmap list_fmap app utf8_valid]; unfold cont; rewrite Ht; wf_unfold; unfold byte_z in *.
  - byte_cases; done.
  - byte_cases; done.
  - repeat match goal with H : context [if ?x =? ?y then _ else _] |- _ => destruct (Z.eqb_spec x y) end; byte_cases; done.
  - repeat match goal with H : context [if ?x =? ?y then _ else _] |- _ => destruct (Z.eqb_spec x y) end; byte_cases; done.
Qed.

Lemma chars_valid s n : Forall wf_char (chars s) -> utf8_valid n (nat_of_ascii <$> s) = true.
Proof.
  revert n. induction s as [|s Hs IH] using chars_ind; intros n; [by destruct n|].
  rewrite chars_eq by done. intros [[r Hr] Hrest]%Forall_cons.
  rewrite <- (take_drop (decode_rune s).2 s) at 1. rewrite fmap_app. eapply wf_valid; [exact Hr|]. intros m. by apply IH.
Qed.

Lemma string_of_runes_chars rs : Forall wf_char (chars (string_of_runes rs)).
Proof.
  induction rs as [|r rs IH]; [constructor|]. unfold string_of_runes in *. rewrite bind_cons.
  eapply wf_chars; [apply encode_rune_wf|done].
Qed.

(** A string with every ill-formed byte replaced by [RuneError]. *)
Definition coerced (s : string) : string :=
  String.string_of_list_ascii (string_of_runes (runes (String.list_ascii_of_string s))).

(** It is valid, and the string itself exactly if that was. *)
Lemma coerced_valid s : ValidString (coerced s) = true.
Proof.
  unfold ValidString, coerced. rewrite String.list_ascii_of_string_of_list_ascii.
  apply chars_valid, string_of_runes_chars.
Qed.

Lemma coerced_same s : coerced s = s <-> ValidString s = true.
Proof.
  split; [intros <-; apply coerced_valid|]. intros Hv. unfold coerced.
  rewrite string_runes; [apply String.string_of_list_ascii_of_string|]. eapply valid_chars; [|exact Hv].
  rewrite <- (String.string_of_list_ascii_of_string s) at 2. clear. induction (String.list_ascii_of_string s); simpl; lia.
Qed.
