(* ===== verification/GoDigests.v ===== *)
(** * MD5 and SHA-1: [crypto/md5], [crypto/sha1]

    Both digests, computed on bytes and checked on test vectors. *)

From S2P Require Import Prelude GoSHA256.
From Stdlib Require Import Ascii.
From stdpp Require Import options.
Local Open Scope Z_scope.

Definition rotl (n x : Z) : Z := w32 (Z.lor (Z.shiftl x n) (Z.shiftr x (32 - n))).
Definition not32 (x : Z) : Z := Z.lxor x 0xffffffff.

(** ** SHA-1 *)

Record sha1_regs := mkSHA1 { s_a : Z; s_b : Z; s_c : Z; s_d : Z; s_e : Z }.

(** The function and the constant of a round. *)
Definition sha1_mix (t : nat) (b c d : Z) : Z * Z :=
  if (t <? 20)%nat then (Z.lor (Z.land b c) (Z.land (not32 b) d), 0x5a827999)
  else if (t <? 40)%nat then (Z.lxor (Z.lxor b c) d, 0x6ed9eba1)
  else if (t <? 60)%nat then (Z.lor (Z.lor (Z.land b c) (Z.land b d)) (Z.land c d), 0x8f1bbcdc)
  else (Z.lxor (Z.lxor b c) d, 0xca62c1d6).

(** The rounds consume a window of sixteen words and extend it. *)
Fixpoint sha1_rounds (n t : nat) (w : list Z) (r : sha1_regs) : sha1_regs :=
  match n, w with
  | S n, x :: rest =>
      let '(f, k) := sha1_mix t (s_b r) (s_c r) (s_d r) in
      let next := rotl 1 (Z.lxor (Z.lxor (nth 13 w 0) (nth 8 w 0)) (Z.lxor (nth 2 w 0) x)) in
      sha1_rounds n (S t) (rest ++ [next])
        (mkSHA1 (w32 (rotl 5 (s_a r) + f + s_e r + k + x)) (s_a r) (rotl 30 (s_b r)) (s_c r) (s_d r))
  | _, _ => r
  end.

Fixpoint sha1_blocks (n : nat) (b : list ascii) (r : sha1_regs) : sha1_regs :=
  match n with
  | O => r
  | S n =>
      let '(ws, rest) := take_words 16 b in
      let r' := sha1_rounds 80 0 ws r in
      sha1_blocks n rest (mkSHA1 (w32 (s_a r + s_a r')) (w32 (s_b r + s_b r')) (w32 (s_c r + s_c r'))
        (w32 (s_d r + s_d r')) (w32 (s_e r + s_e r')))
  end.

Definition sha1_Sum (m : list ascii) : list ascii :=
  let p := padded m in
  let r := sha1_blocks (length p / 64) p (mkSHA1 0x67452301 0xefcdab89 0x98badcfe 0x10325476 0xc3d2e1f0) in
  [s_a r; s_b r; s_c r; s_d r; s_e r] ≫= word_bytes 4.

(** ** MD5 *)

Record md5_regs := mkMD5 { m_a : Z; m_b : Z; m_c : Z; m_d : Z }.

Definition md5_shifts : list Z :=
  mjoin (replicate 4 [7; 12; 17; 22]) ++ mjoin (replicate 4 [5; 9; 14; 20]) ++
  mjoin (replicate 4 [4; 11; 16; 23]) ++ mjoin (replicate 4 [6; 10; 15; 21]).

(** The integer parts of [2^32 * abs (sin (i + 1))]. *)
Definition md5_constants : list Z :=
  [0xd76aa478; 0xe8c7b756; 0x242070db; 0xc1bdceee; 0xf57c0faf; 0x4787c62a; 0xa8304613; 0xfd469501;
   0x698098d8; 0x8b44f7af; 0xffff5bb1; 0x895cd7be; 0x6b901122; 0xfd987193; 0xa679438e; 0x49b40821;
   0xf61e2562; 0xc040b340; 0x265e5a51; 0xe9b6c7aa; 0xd62f105d; 0x02441453; 0xd8a1e681; 0xe7d3fbc8;
   0x21e1cde6; 0xc33707d6; 0xf4d50d87; 0x455a14ed; 0xa9e3e905; 0xfcefa3f8; 0x676f02d9; 0x8d2a4c8a;
   0xfffa3942; 0x8771f681; 0x6d9d6122; 0xfde5380c; 0xa4beea44; 0x4bdecfa9; 0xf6bb4b60; 0xbebfbc70;
   0x289b7ec6; 0xeaa127fa; 0xd4ef3085; 0x04881d05; 0xd9d4d039; 0xe6db99e5; 0x1fa27cf8; 0xc4ac5665;
   0xf4292244; 0x432aff97; 0xab9423a7; 0xfc93a039; 0x655b59c3; 0x8f0ccc92; 0xffeff47d; 0x85845dd1;
   0x6fa87e4f; 0xfe2ce6e0; 0xa3014314; 0x4e0811a1; 0xf7537e82; 0xbd3af235; 0x2ad7d2bb; 0xeb86d391].

(** The function of a round and the word it uses. *)
Definition md5_mix (t : nat) (b c d : Z) : Z * nat :=
  if (t <? 16)%nat then (Z.lor (Z.land b c) (Z.land (not32 b) d), t)
  else if (t <? 32)%nat then (Z.lor (Z.land d b) (Z.land (not32 d) c), (5 * t + 1) mod 16)%nat
  else if (t <? 48)%nat then (Z.lxor (Z.lxor b c) d, (3 * t + 5) mod 16)%nat
  else (Z.lxor c (Z.lor b (not32 d)), (7 * t) mod 16)%nat.

Definition md5_round (ws : list Z) (r : md5_regs) (t : nat) : md5_regs :=
  let '(f, g) := md5_mix t (m_b r) (m_c r) (m_d r) in
  let x := w32 (f + m_a r + nth t md5_constants 0 + nth g ws 0) in
  mkMD5 (m_d r) (w32 (m_b r + rotl (nth t md5_shifts 0) x)) (m_b r) (m_c r).

(** Words are little-endian, those of a block and the length at the end. *)
Definition word_bytes_le (n : nat) (z : Z) : list ascii := rev (word_bytes n z).
Fixpoint take_words_le (n : nat) (b : list ascii) : list Z * list ascii :=
  match n, b with
  | S n, w :: x :: y :: z :: b =>
      let '(ws, rest) := take_words_le n b in
      (((byte_z z * 256 + byte_z y) * 256 + byte_z x) * 256 + byte_z w :: ws, rest)
  | _, _ => ([], b)
  end.

Definition md5_padded (m : list ascii) : list ascii :=
  m ++ z_byte 128 :: replicate (Z.to_nat ((55 - Z.of_nat (length m)) mod 64)) (z_byte 0)
    ++ word_bytes_le 8 (8 * Z.of_nat (length m)).

Fixpoint md5_blocks (n : nat) (b : list ascii) (r : md5_regs) : md5_regs :=
  match n with
  | O => r
  | S n =>
      let '(ws, rest) := take_words_le 16 b in
      let r' := foldl (md5_round ws) r (seq 0 64) in
      md5_blocks n rest (mkMD5 (w32 (m_a r + m_a r')) (w32 (m_b r + m_b r')) (w32 (m_c r + m_c r')) (w32 (m_d r + m_d r')))
  end.

Definition md5_Sum (m : list ascii) : list ascii :=
  let p := md5_padded m in
  let r := md5_blocks (length p / 64) p (mkMD5 0x67452301 0xefcdab89 0x98badcfe 0x10325476) in
  [m_a r; m_b r; m_c r; m_d r] ≫= word_bytes_le 4.

Lemma word_bytes_length n z : length (word_bytes n z) = n.
Proof. unfold word_bytes. by rewrite length_fmap, length_rev, length_seq. Qed.

Lemma sums_length m : length (md5_Sum m) = 16%nat /\ length (sha1_Sum m) = 20%nat.
Proof.
  unfold md5_Sum, sha1_Sum, word_bytes_le. cbn -[word_bytes]. by rewrite !length_app, !length_rev, !word_bytes_length.
Qed.

(** ** Test vectors, of one block and of two *)

Definition abc : list ascii := String.list_ascii_of_string "abc".

Example md5_vectors :
  hex (md5_Sum []) = "d41d8cd98f00b204e9800998ecf8427e"%string /\
  hex (md5_Sum abc) = "900150983cd24fb0d6963f7d28e17f72"%string /\
  hex (md5_Sum (mjoin (replicate 30 abc))) = "daa54284568d250dde2cc8578c2e116a"%string.
Proof. vm_compute. done. Qed.

Example sha1_vectors :
  hex (sha1_Sum []) = "da39a3ee5e6b4b0d3255bfef95601890afd80709"%string /\
  hex (sha1_Sum abc) = "a9993e364706816aba3e25717850c26c9cd0d89d"%string /\
  hex (sha1_Sum (mjoin (replicate 30 abc))) = "dcba54c94108c1b0d2d3bae99a6025764b786d60"%string.
Proof. vm_compute. done. Qed.
