(* ===== verification/RedisStreams.v ===== *)
(** * Streams and sorted sets of the Redis server

    The commands the queue adapter sends, each on one key.  As in [Redis] the
    server is a parameter: [xcmd_spec] is the documented behaviour of a command
    on the value of its key, and [StreamLaws] says that a server follows it.
    Programs of the adapter are trees of requests, so that the requests of several
    clients can be interleaved; [run] executes one alone. *)

From S2P Require Import Prelude GoErrors Redis LuaNum.
From stdpp Require Import gmap strings fin_maps sorting.
From stdpp Require Import options.
Set Default Proof Using "Type*".
Local Open Scope Z_scope.

(** ** Values *)

Abbreviation fields := (gmap string string).

Record message := mkMessage { mid : string; values : fields }.

(** An entry of a group's pending list; [pdelivered] is in milliseconds. *)
Record pentry := mkPending { pid : string; pconsumer : string; pdelivered : Z; pcount : Z }.

(** A group has delivered the first [read] messages; [pel] are those of them that
    are not acknowledged, by identifier. *)
Record group := mkGroup { read : nat; pel : list pentry }.

Record stream := mkStream { entries : list message; groups : gmap string group }.

Inductive xvalue := XStream (s : stream) | XZset (z : gmap string Z) | XOther.

Inductive xcmd :=
| XADD (vals : fields) (maxlen : option Z)
| XGROUP_CREATE (g : string)
| XREADGROUP (g c : string)
| XAUTOCLAIM (g c : string) (minidle : Z)
| XPENDING (g : string) (idle : Z) (id : option string)
| XCLAIM (g c : string) (minidle : Z) (id : string)
| XACK (g id : string)
| ZADD (score : Z) (member : string)
| ZRANGEBYSCORE (max count : Z)
| ZREM (member : string).

Inductive xreply :=
| XNil | XOK | XStr (s : string) | XInt (z : Z)
| XMsgs (l : list message) | XPend (l : list pentry) | XMembers (l : list string) | XErr (e : error).

Definition WRONG : xreply := XErr (ErrNew "WRONGTYPE Operation against a key holding the wrong kind of value").
Definition NOGROUP : xreply := XErr (ErrNew "NOGROUP No such key or consumer group").
Definition BUSYGROUP : error := ErrNew "BUSYGROUP Consumer Group name already exists".

(** ** Commands *)

Definition set_group (g : string) (gr : group) (s : stream) : stream := mkStream (entries s) (<[g := gr]> (groups s)).

Definition message_of (s : stream) (id : string) : option message :=
  snd <$> list_find (fun m => mid m = id) (entries s).

Definition idle_for (ms minidle : Z) (p : pentry) : bool := (minidle =? 0) || (minidle <=? ms - pdelivered p).

Definition first_idle (ms minidle : Z) (ps : list pentry) : option (nat * pentry) :=
  list_find (fun p => idle_for ms minidle p = true) ps.

(** The range of one identifier, or all of them. *)
Definition in_range (id : option string) (p : pentry) : bool :=
  match id with Some id => bool_decide (pid p = id) | None => true end.

(** Claiming the pending entry at [i] for [c] at [ms]; one whose message was
    deleted leaves the list instead. *)
Definition claim_at (c g : string) (ms : Z) (s : stream) (gr : group) (i : nat) (p : pentry)
    : option xvalue * xreply :=
  match message_of s (pid p) with
  | Some m =>
      (Some (XStream (set_group g (mkGroup (read gr)
         (<[i := mkPending (pid p) c ms (pcount p + 1)]> (pel gr))) s)), XMsgs [m])
  | None => (Some (XStream (set_group g (mkGroup (read gr) (delete i (pel gr))) s)), XMsgs [])
  end.

(** Members of a sorted set, by score and then by bytes. *)
Definition zle (a b : string * Z) : Prop := a.2 < b.2 \/ a.2 = b.2 /\ String.leb a.1 b.1 = true.
#[export] Instance zle_dec a b : Decision (zle a b).
Proof. unfold zle. solve_decision. Defined.
Definition by_score (z : gmap string Z) : list (string * Z) := merge_sort zle (map_to_list z).

(** [xcmd_spec new keep t c v]: the command [c] at clock [t] on the value [v] of
    its key, where [new] is the identifier for an added message and [keep] how
    many messages trimming leaves.  Scores are doubles. *)
Definition xcmd_spec (new : string) (keep : nat) (t : Z) (c : xcmd) (v : option xvalue)
    : option xvalue * xreply :=
  let ms := t / Millisecond in
  match c with
  | XADD vals maxlen =>
      let add s :=
        let es := entries s ++ [mkMessage new vals] in
        let d := match maxlen with Some _ => (length es - keep)%nat | None => 0%nat end in
        (Some (XStream (mkStream (drop d es) ((fun g => mkGroup (read g - d) (pel g)) <$> groups s))), XStr new) in
      match v with
      | None => add (mkStream [] ∅)
      | Some (XStream s) => add s
      | _ => (v, WRONG)
      end
  | XGROUP_CREATE g =>
      let create s :=
        match groups s !! g with
        | Some _ => (Some (XStream s), XErr BUSYGROUP)
        | None => (Some (XStream (set_group g (mkGroup 0 []) s)), XOK)
        end in
      match v with
      | None => create (mkStream [] ∅)
      | Some (XStream s) => create s
      | _ => (v, WRONG)
      end
  | XREADGROUP g c =>
      match v with
      | Some (XStream s) =>
          match groups s !! g with
          | None => (v, NOGROUP)
          | Some gr =>
              match entries s !! read gr with
              | None => (v, XNil)
              | Some m =>
                  (Some (XStream (set_group g (mkGroup (S (read gr)) (pel gr ++ [mkPending (mid m) c ms 1])) s)),
                   XMsgs [m])
              end
          end
      | None => (v, NOGROUP)
      | _ => (v, WRONG)
      end
  | XAUTOCLAIM g c minidle =>
      match v with
      | Some (XStream s) =>
          match groups s !! g with
          | None => (v, NOGROUP)
          | Some gr =>
              (* ten entries are examined per message asked for *)
              match first_idle ms minidle (take 10 (pel gr)) with
              | Some (i, p) => claim_at c g ms s gr i p
              | None => (v, XMsgs [])
              end
          end
      | None => (v, NOGROUP)
      | _ => (v, WRONG)
      end
  | XPENDING g idle id =>
      match v with
      | Some (XStream s) =>
          match groups s !! g with
          | None => (v, NOGROUP)
          | Some gr =>
              (v, XPend (take 1 (filter (fun p => idle_for ms idle p && in_range id p = true) (pel gr))))
          end
      | None => (v, NOGROUP)
      | _ => (v, WRONG)
      end
  | XCLAIM g c minidle id =>
      match v with
      | Some (XStream s) =>
          match groups s !! g with
          | None => (v, NOGROUP)
          | Some gr =>
              match list_find (fun p => pid p = id) (pel gr) with
              | Some (i, p) => if idle_for ms minidle p then claim_at c g ms s gr i p else (v, XMsgs [])
              | None => (v, XMsgs [])
              end
          end
      | None => (v, NOGROUP)
      | _ => (v, WRONG)
      end
  | XACK g id =>
      match v with
      | Some (XStream s) =>
          match groups s !! g with
          | None => (v, XInt 0)
          | Some gr =>
              let rest := filter (fun p => pid p <> id) (pel gr) in
              (Some (XStream (set_group g (mkGroup (read gr) rest) s)),
               XInt (Z.of_nat (length (pel gr)) - Z.of_nat (length rest)))
          end
      | None => (v, XInt 0)
      | _ => (v, WRONG)
      end
  | ZADD score member =>
      match v with
      | None => (Some (XZset {[member := score]}), XInt 1)
      | Some (XZset z) => (Some (XZset (<[member := score]> z)), XInt (if z !! member is Some _ then 0 else 1))
      | _ => (v, WRONG)
      end
  | ZRANGEBYSCORE max count =>
      match v with
      | None => (v, XMembers [])
      | Some (XZset z) =>
          let due := filter (fun p => p.2 <= lua_num max) (by_score z) in
          (v, XMembers (if count <? 0 then due.*1 else take (Z.to_nat count) due.*1))
      | _ => (v, WRONG)
      end
  | ZREM member =>
      match v with
      | None => (v, XInt 0)
      | Some (XZset z) =>
          (if decide (delete member z = ∅) then None else Some (XZset (delete member z)),
           XInt (if z !! member is Some _ then 1 else 0))
      | _ => (v, WRONG)
      end
  end.

(** ** The server *)

(** [new_id r t k] is the identifier an added message would get, [keep r t k n]
    how many messages would be left by trimming to about [n]. *)
Class StreamServer (R : Type) := {
  xexec : Z -> string -> xcmd -> R -> R * xreply;
  new_id : R -> Z -> string -> string;
  keep : R -> Z -> string -> Z -> nat
}.

Definition maxlen_of (c : xcmd) : Z := match c with XADD _ (Some n) => n | _ => 0 end.

Class StreamLaws (R : Type) `{!StreamServer R} := {
  xlookup : R -> string -> option xvalue;
  xexec_reply r t k c :
    (xexec t k c r).2 = (xcmd_spec (new_id r t k) (keep r t k (maxlen_of c)) t c (xlookup r k)).2;
  xexec_lookup r t k c :
    xlookup (xexec t k c r).1 k = (xcmd_spec (new_id r t k) (keep r t k (maxlen_of c)) t c (xlookup r k)).1;
  xexec_frame r t k c k' : k' <> k -> xlookup (xexec t k c r).1 k' = xlookup r k';
  new_id_fresh r t k s : xlookup r k = Some (XStream s) -> new_id r t k ∉ mid <$> entries s;
  new_id_nonempty r t k : new_id r t k <> ""%string;
  keep_enough r t k n : n <= Z.of_nat (keep r t k n)
}.

(** [redis.call] of a script. *)
Definition xcall {R} `{!StreamServer R} (k : string) (c : xcmd) : script R xreply := fun t r =>
  match xexec t k c r with
  | (r', XErr e) => (r', inr e)
  | (r', rep) => (r', inl rep)
  end.

Lemma xcall_step {R} `{!StreamServer R, !StreamLaws R} (r : R) t k c v :
  xlookup r k = v ->
  exists r' new n, xcall k c t r
      = (r', match (xcmd_spec new n t c v).2 with XErr x => inr x | rep => inl rep end) /\
    new = new_id r t k /\
    xlookup r' k = (xcmd_spec new n t c v).1 /\ (forall k', k' <> k -> xlookup r' k' = xlookup r k').
Proof.
  intros <-. unfold xcall. pose proof (xexec_reply r t k c) as Hr. pose proof (xexec_lookup r t k c) as Hl.
  pose proof (xexec_frame r t k c) as Hf. destruct (xexec t k c r) as [r' rep]. simpl in *.
  exists r', (new_id r t k), (keep r t k (maxlen_of c)). rewrite <- Hr. by destruct rep.
Qed.

(** ** A server that meets the laws *)

Record StreamMap := mkStreamMap { xcells : gmap string xvalue }.

(** An identifier longer than every one in use. *)
Definition longer (v : option xvalue) : string :=
  match v with
  | Some (XStream s) => foldr (fun m acc => mid m +:+ acc) "0"%string (entries s)
  | _ => "0"%string
  end.

#[export] Instance stream_map : StreamServer StreamMap := {|
  xexec t k c r :=
    let '(v, rep) := xcmd_spec (longer (xcells r !! k)) (Z.to_nat (maxlen_of c)) t c (xcells r !! k) in
    (mkStreamMap (partial_alter (fun _ => v) k (xcells r)), rep);
  new_id r t k := longer (xcells r !! k);
  keep r t k n := Z.to_nat n
|}.

Lemma longer_fresh es : let n := foldr (fun m acc => mid m +:+ acc) "0"%string es in
  (0 < String.length n)%nat /\ Forall (fun m => String.length (mid m) < String.length n)%nat es.
Proof.
  induction es as [|m es [IH1 IH2]]; cbn [foldr]; [split; [simpl; lia|constructor]|].
  rewrite length_append. split; [lia|]. constructor; [lia|].
  eapply Forall_impl; [exact IH2|]. simpl. lia.
Qed.

#[export, refine] Instance stream_map_laws : StreamLaws StreamMap := {|
  xlookup r k := xcells r !! k
|}.
Proof.
  - intros r t k c. simpl. by destruct (xcmd_spec _ _ _ _ _).
  - intros r t k c. simpl. destruct (xcmd_spec _ _ _ _ _) as [v rep]. simpl. by rewrite lookup_partial_alter_eq.
  - intros r t k c k' Hne. simpl. destruct (xcmd_spec _ _ _ _ _) as [v rep]. simpl. by rewrite lookup_partial_alter_ne.
  - intros r t k s Hs. simpl. rewrite Hs. intros (m & Hm & Hin)%list_elem_of_fmap.
    destruct (longer_fresh (entries s)) as [_ Hl]. rewrite Forall_forall in Hl. specialize (Hl m Hin).
    cbn [longer] in Hm. rewrite <- Hm in Hl. lia.
  - intros r t k. simpl. destruct (xcells r !! k) as [[s| |]|]; [|done..]. cbn [longer].
    destruct (longer_fresh (entries s)) as [Hl _]. intros E. rewrite E in Hl. simpl in Hl. lia.
  - intros r t k n. simpl. lia.
Defined.

Definition empty_streams : StreamMap := mkStreamMap ∅.

(** ** Streams under the adapter's commands

    Whatever is added, read, claimed and acknowledged, a stream keeps its messages
    in order, and those that were delivered are pending until they are
    acknowledged. *)

Definition as_stream (v : option xvalue) : stream :=
  match v with Some (XStream s) => s | _ => mkStream [] ∅ end.
Definition group_of (g : string) (s : stream) : group := default (mkGroup 0 []) (groups s !! g).

Definition delivered (g : string) (s : stream) : list message := take (read (group_of g s)) (entries s).
Definition unread (g : string) (s : stream) : list message := drop (read (group_of g s)) (entries s).
Definition pids (g : string) (s : stream) : list string := pid <$> pel (group_of g s).

Record stream_wf (g : string) (s : stream) : Prop := {
  wf_ids : NoDup (mid <$> entries s);
  wf_named : ""%string ∉ mid <$> entries s;
  wf_read : (read (group_of g s) <= length (entries s))%nat;
  wf_pel : pids g s `sublist_of` (mid <$> delivered g s)
}.

(** The commands on a stream, for the group [g]; only the message of an [XADD]
    is added. *)
Definition stream_cmd (g : string) (c : xcmd) : bool :=
  match c with
  | XADD _ maxlen => bool_decide (maxlen = None)
  | XGROUP_CREATE g' | XREADGROUP g' _ | XAUTOCLAIM g' _ _ | XPENDING g' _ _ | XCLAIM g' _ _ _ | XACK g' _ =>
      bool_decide (g' = g)
  | _ => false
  end.

Definition appended (new : string) (c : xcmd) : list message :=
  match c with XADD vals _ => [mkMessage new vals] | _ => [] end.

Lemma group_set g gr s : group_of g (set_group g gr s) = gr.
Proof. unfold group_of, set_group. simpl. by rewrite lookup_insert_eq. Qed.

Lemma empty_wf g : stream_wf g (mkStream [] ∅).
Proof. unfold group_of. split; [constructor|apply not_elem_of_nil|done|constructor]. Qed.

Lemma fmap_insert_same {A B} (f : A -> B) (l : list A) i x y :
  l !! i = Some x -> f y = f x -> f <$> <[i := y]> l = f <$> l.
Proof. intros Hi Hf. rewrite list_fmap_insert, Hf. apply list_insert_id. by rewrite list_lookup_fmap, Hi. Qed.

Lemma filter_unique {A} (f : A -> string) (l : list A) i x :
  NoDup (f <$> l) -> l !! i = Some x -> filter (fun y => f y = f x) l = [x].
Proof.
  intros Hnd Hi. rewrite <- (take_drop_middle l i x Hi) in Hnd |- *. rewrite fmap_app, fmap_cons in Hnd.
  apply NoDup_app in Hnd as (_ & H1 & H2). apply NoDup_cons in H2 as [H2 _].
  assert (Hno : forall k, (forall y, y ∈ k -> f y <> f x) -> filter (fun y => f y = f x) k = []).
  { induction k as [|y k IH]; intros Hk; [done|]. rewrite filter_cons, decide_False by (apply Hk; by left).
    apply IH. intros z Hz. apply Hk. by right. }
  rewrite filter_app, filter_cons, decide_True, !Hno; [done|..|done].
  - intros y Hy E. apply H2. rewrite <- E. by apply list_elem_of_fmap_2.
  - intros y Hy E. apply (H1 (f y)); [by apply list_elem_of_fmap_2|]. rewrite E. by left.
Qed.

(** The first element with a property. *)
Lemma filter_first {A} (P : A -> Prop) `{!forall x, Decision (P x)} (l : list A) :
  take 1 (filter P l) = match list_find P l with Some (_, x) => [x] | None => [] end.
Proof.
  induction l as [|x l IH]; [done|]. rewrite filter_cons. cbn [list_find]. destruct (decide (P x)); [done|].
  rewrite IH. by destruct (list_find P l) as [[? ?]|].
Qed.

Lemma find_unique {A} (f : A -> string) (l : list A) i x :
  NoDup (f <$> l) -> l !! i = Some x -> list_find (fun y => f y = f x) l = Some (i, x).
Proof.
  intros Hnd Hi. apply list_find_Some. split_and!; [done|done|]. intros j y Hj Hlt E.
  assert (j = i); [|lia]. apply (NoDup_lookup (f <$> l) j i (f x)); [done|by rewrite list_lookup_fmap, Hj; cbn; rewrite E|].
  by rewrite list_lookup_fmap, Hi.
Qed.

Lemma find_take {A} (P : A -> Prop) `{!forall x, Decision (P x)} (l : list A) k o :
  list_find P (take k l) = Some o -> list_find P l = Some o.
Proof.
  destruct o as [i x]. rewrite !list_find_Some. intros (Hi & Hp & Hf). apply lookup_take_Some in Hi as [Hi Hk].
  split_and!; [done|done|]. intros j y Hj Hlt. apply (Hf j y); [|done]. apply lookup_take_Some. split; [done|lia].
Qed.

(** Pending identifiers have their messages. *)
Lemma pending_message g s i p :
  stream_wf g s -> pel (group_of g s) !! i = Some p -> exists m, message_of s (pid p) = Some m /\ m ∈ entries s /\ mid m = pid p.
Proof.
  intros [Hid Hnm Hr Hp] Hi.
  assert (Hin : pid p ∈ mid <$> delivered g s).
  { eapply sublist_subseteq; [exact Hp|]. apply list_elem_of_fmap_2. by eapply list_elem_of_lookup_2. }
  apply list_elem_of_fmap in Hin as (m & Hm & Hin). unfold delivered in Hin.
  assert (Hin' : m ∈ entries s) by (eapply subseteq_take; exact Hin).
  unfold message_of. destruct (list_find_elem_of (fun m => mid m = pid p) (entries s) m Hin' (eq_sym Hm)) as [[j m'] Hj].
  rewrite Hj. apply list_find_Some in Hj as (Hj & Hid' & _). exists m'. split; [done|].
  split; [by eapply list_elem_of_lookup_2|done].
Qed.

(** What a command may change: the stream stays well-formed, messages are only
    appended, delivered messages stay delivered, and one stops being pending only
    by an [XACK] of it. *)
Record stream_step (g : string) (s s' : stream) (added : list message) (acked : list string) : Prop := {
  ss_wf : stream_wf g s';
  ss_entries : entries s' = entries s ++ added;
  ss_read : (read (group_of g s) <= read (group_of g s'))%nat;
  ss_acked m : m ∈ delivered g s' -> mid m ∉ pids g s' ->
    m ∈ delivered g s /\ mid m ∉ pids g s \/ mid m ∈ acked
}.

Lemma stream_step_refl g s : stream_wf g s -> stream_step g s s [] [].
Proof. intros H. split; [done|by rewrite app_nil_r|done|]. intros m Hm Hp. by left. Qed.

Lemma stream_step_trans g s1 s2 s3 a1 a2 k1 k2 :
  stream_step g s1 s2 a1 k1 -> stream_step g s2 s3 a2 k2 -> stream_step g s1 s3 (a1 ++ a2) (k1 ++ k2).
Proof.
  intros [_ He1 Hr1 Ha1] [Hw He2 Hr2 Ha2]. split; [done|by rewrite He2, He1, app_assoc|lia|].
  intros m Hm Hn. rewrite elem_of_app. destruct (Ha2 m Hm Hn) as [[Hm' Hn']|]; [|tauto].
  destruct (Ha1 m Hm' Hn'); tauto.
Qed.

(** Replacing the group when its position stays. *)
Lemma set_pel_step g s ps acked :
  stream_wf g s -> (pid <$> ps) `sublist_of` pids g s ->
  (forall x, x ∈ pids g s -> x ∉ pid <$> ps -> x ∈ acked) ->
  stream_step g s (set_group g (mkGroup (read (group_of g s)) ps) s) [] acked.
Proof.
  intros [Hid Hnm Hr Hp] Hs Ha.
  assert (Hg : group_of g (set_group g (mkGroup (read (group_of g s)) ps) s) = mkGroup (read (group_of g s)) ps)
    by apply group_set.
  split.
  - split; [done|done|by rewrite Hg|]. unfold pids, delivered. rewrite Hg. simpl. by etrans.
  - simpl. by rewrite app_nil_r.
  - by rewrite Hg.
  - unfold delivered, pids. rewrite Hg. simpl. intros m Hm Hn.
    destruct (decide (mid m ∈ pid <$> pel (group_of g s))) as [Hin|Hin]; [right; by apply Ha|by left].
Qed.

Lemma claim_step g c ms s gr i p :
  stream_wf g s -> groups s !! g = Some gr -> pel gr !! i = Some p ->
  exists s' ms', claim_at c g ms s gr i p = (Some (XStream s'), XMsgs ms') /\ stream_step g s s' [] [] /\ Forall (fun m => m ∈ entries s) ms'.
Proof.
  intros Hwf Hg Hi. assert (Hgr : group_of g s = gr) by (unfold group_of; by rewrite Hg).
  destruct (pending_message g s i p Hwf ltac:(by rewrite Hgr)) as (m & Hm & Hin & _).
  unfold claim_at. rewrite Hm. eexists _, _. split; [done|]. split; [|by constructor].
  rewrite <- Hgr. apply set_pel_step; [done| |].
  - rewrite (fmap_insert_same pid _ i p) by (by rewrite ?Hgr). done.
  - intros x Hx Hn. rewrite (fmap_insert_same pid _ i p) in Hn by (by rewrite ?Hgr). done.
Qed.

Definition acks (c : xcmd) : list string := match c with XACK _ id => [id] | _ => [] end.

Lemma add_step g s new vals :
  stream_wf g s -> new ∉ mid <$> entries s -> new <> ""%string ->
  stream_step g s (mkStream (entries s ++ [mkMessage new vals])
                     ((fun g => mkGroup (read g - 0) (pel g)) <$> groups s)) [mkMessage new vals] [].
Proof.
  intros [Hid Hnm Hr Hp] Hnew Hne. set (s' := mkStream _ _).
  assert (Hg : group_of g s' = group_of g s).
  { unfold group_of, s'. simpl. rewrite lookup_fmap. destruct (groups s !! g) as [[k l]|]; simpl; [|done].
    by rewrite Nat.sub_0_r. }
  assert (Hd : delivered g s' = delivered g s).
  { unfold delivered. rewrite Hg. simpl. by rewrite take_app_le. }
  assert (Hps : pids g s' = pids g s) by (unfold pids; by rewrite Hg).
  split.
  - split; [| |rewrite Hg; simpl; rewrite length_app; lia|by rewrite Hd, Hps]; simpl; rewrite fmap_app.
    + apply NoDup_app. split_and!; [done| |by apply NoDup_singleton]. by intros x Hx ->%list_elem_of_singleton.
    + intros [?|?%list_elem_of_singleton]%elem_of_app; [done|]. by apply Hne.
  - done.
  - by rewrite Hg.
  - rewrite Hd, Hps. by left.
Qed.

Lemma read_step g s gr m c ms :
  stream_wf g s -> groups s !! g = Some gr -> entries s !! read gr = Some m ->
  stream_step g s (set_group g (mkGroup (S (read gr)) (pel gr ++ [mkPending (mid m) c ms 1])) s) [] [].
Proof.
  intros [Hid Hnm Hr Hp] Hg Hm. assert (Hgr : group_of g s = gr) by (unfold group_of; by rewrite Hg).
  set (gr' := mkGroup _ _). set (s' := set_group _ _ _). assert (Hg' : group_of g s' = gr') by apply group_set.
  assert (Hd : delivered g s' = delivered g s ++ [m]).
  { unfold delivered. rewrite Hg', Hgr. simpl. by rewrite (take_S_r _ _ m). }
  assert (Hps : pids g s' = pids g s ++ [mid m]).
  { unfold pids. rewrite Hg', Hgr. simpl. by rewrite fmap_app. }
  split.
  - split; [done|done| |].
    + rewrite Hg'. simpl. apply lookup_lt_Some in Hm. lia.
    + rewrite Hd, Hps, fmap_app. by apply sublist_app.
  - simpl. by rewrite app_nil_r.
  - rewrite Hg', Hgr. simpl. lia.
  - rewrite Hd, Hps. intros x Hx Hn. apply not_elem_of_app in Hn as [Hn1 Hn2].
    apply elem_of_app in Hx as [Hx|Hx]; [by left|]. apply list_elem_of_singleton in Hx as ->. exfalso. apply Hn2. by left.
Qed.

Lemma create_step g s :
  stream_wf g s -> groups s !! g = None -> stream_step g s (set_group g (mkGroup 0 []) s) [] [].
Proof.
  intros Hwf Hg. assert (Hgr : group_of g s = mkGroup 0 []) by (unfold group_of; by rewrite Hg).
  pose proof (set_pel_step g s [] [] Hwf) as H. rewrite Hgr in H. apply H.
  - unfold pids. by rewrite Hgr.
  - intros x. unfold pids. rewrite Hgr. simpl. by intros Hx%not_elem_of_nil.
Qed.

(** The outcome of a command that keeps to this. *)
Definition steps (g new : string) (c : xcmd) (v : option xvalue) (o : option xvalue * xreply) : Prop :=
  (o.1 = None \/ exists s', o.1 = Some (XStream s')) /\
  stream_step g (as_stream v) (as_stream o.1) (appended new c) (acks c) /\
  (forall ms, o.2 = XMsgs ms -> Forall (fun m => m ∈ entries (as_stream v)) ms).

Section Commands.
Variables (g new : string) (c : xcmd) (v : option xvalue).
Hypothesis v_stream : v = None \/ (exists s, v = Some (XStream s)).
Hypothesis v_wf : stream_wf g (as_stream v).

Lemma steps_same rep :
  appended new c = [] -> (forall ms, rep <> XMsgs ms) \/ rep = XMsgs [] -> steps g new c v (v, rep).
Proof.
  intros Hc Hrep. split; [done|]. split.
  - rewrite Hc. destruct (stream_step_refl g _ v_wf) as [? ? ? Ha]. split; [done..|].
    intros m Hm Hn. left. by destruct (Ha m Hm Hn) as [?|?%not_elem_of_nil].
  - cbn [snd]. intros ms ->. destruct Hrep as [H|[= ->]]; [by destruct (H ms)|constructor].
Qed.

Lemma steps_to s' rep :
  stream_step g (as_stream v) s' (appended new c) (acks c) ->
  (forall ms, rep = XMsgs ms -> Forall (fun m => m ∈ entries (as_stream v)) ms) ->
  steps g new c v (Some (XStream s'), rep).
Proof using Type. intros Hs Hm. split; [by right; eexists|done]. Qed.

(** A command on a group that must exist. *)
Lemma steps_group (f : stream -> group -> option xvalue * xreply) e :
  appended new c = [] -> (forall ms, e <> XMsgs ms) ->
  (forall s gr, v = Some (XStream s) -> groups s !! g = Some gr -> steps g new c v (f s gr)) ->
  steps g new c v
    match v with
    | Some (XStream s) => match groups s !! g with Some gr => f s gr | None => (v, e) end
    | None => (v, e)
    | Some (XZset _) | Some XOther => (v, WRONG)
    end.
Proof.
  intros Hc He Hf. destruct v_stream as [Ev|[s Ev]]; rewrite Ev at 2; [apply steps_same; [done|by left]|].
  destruct (groups s !! g) as [gr|] eqn:Hg; [by apply Hf|]. apply steps_same; [done|by left].
Qed.

Lemma steps_claim s gr i p co ms :
  appended new c = [] -> acks c = [] -> v = Some (XStream s) -> groups s !! g = Some gr -> pel gr !! i = Some p ->
  steps g new c v (claim_at co g ms s gr i p).
Proof.
  intros Hc Ha Hv Hg Hi. pose proof v_wf as Hwf. rewrite Hv in Hwf.
  destruct (claim_step g co ms s gr i p Hwf Hg Hi) as (s' & ms' & -> & Hst & Hms).
  apply steps_to; rewrite ?Hc, ?Ha, Hv; [done|]. by intros ? [= <-].
Qed.
End Commands.

Lemma stream_cmd_step g new n t c v :
  v = None \/ (exists s, v = Some (XStream s)) -> stream_wf g (as_stream v) -> stream_cmd g c = true ->
  new ∉ mid <$> entries (as_stream v) -> new <> ""%string -> steps g new c v (xcmd_spec new n t c v).
Proof.
  intros Hv Hwf Hc Hnew Hne.
  destruct c as [vals ml|g'|g' co|g' co mi|g' idle id|g' co mi id|g' id|?|?|?]; cbn [stream_cmd] in Hc; try done;
    apply bool_decide_eq_true in Hc; subst; cbn [xcmd_spec].
  - destruct Hv as [->|[s ->]]; apply steps_to; [apply (add_step g (mkStream [] ∅)); done|done|by apply add_step|done].
  - destruct Hv as [->|[s ->]]; cbn [groups]; [rewrite lookup_empty|destruct (groups s !! g) eqn:E];
      [apply steps_to; [by apply create_step|done]| |apply steps_to; [by apply create_step|done]].
    apply steps_same; [by right; eexists|done|done|by left].
  - apply steps_group; [done|done|done|done|]. intros s gr -> Hg.
    destruct (entries s !! read gr) as [m|] eqn:Hm; [|apply steps_same; [done|done|done|by left]].
    apply steps_to; [by apply read_step|]. intros ms [= <-]. constructor; [by eapply list_elem_of_lookup_2|constructor].
  - apply steps_group; [done|done|done|done|]. intros s gr Ev Hg.
    destruct (first_idle _ _ _) as [[i p]|] eqn:Hf; [|apply steps_same; [done|done|done|by right]].
    apply list_find_Some in Hf as (Hi & _ & _). apply lookup_take_Some in Hi as [Hi _]. by apply steps_claim.
  - apply steps_group; [done|done|done|done|]. intros s gr Ev Hg. apply steps_same; [done|done|done|by left].
  - apply steps_group; [done|done|done|done|]. intros s gr Ev Hg.
    destruct (list_find _ _) as [[i p]|] eqn:Hf; [|apply steps_same; [done|done|done|by right]].
    destruct (idle_for _ _ _); [|apply steps_same; [done|done|done|by right]].
    apply list_find_Some in Hf as (Hi & _ & _). by apply steps_claim.
  - apply steps_group; [done|done|done|done|]. intros s gr -> Hg.
    assert (Hgr : group_of g s = gr) by (unfold group_of; by rewrite Hg).
    apply steps_to; [|done]. rewrite <- Hgr. cbn [as_stream appended acks]. apply set_pel_step; [done| |].
    + apply fmap_sublist, sublist_filter.
    + intros x (p & -> & Hp)%list_elem_of_fmap Hn. destruct (decide (pid p = id)) as [->|Hpne]; [by left|].
      exfalso. apply Hn. apply list_elem_of_fmap_2. by apply list_elem_of_filter.
Qed.
