(* ===== verification/Programs.v ===== *)
(** * Programs of requests

    An operation that talks to a server is a tree of the requests it sends,
    branching on the answers.  What it may send and how it may end are stated over
    the history of its requests and answers ([obeys]), and a run that has come some
    way ([follows]) has kept to it. *)

From S2P Require Import Prelude.
From stdpp Require Import options.
Set Default Proof Using "Type*".

#[universes(template)]
Inductive prog (Rq An A : Type) := Ret (a : A) | Call (rq : Rq) (k : An -> prog Rq An A).
Arguments Ret {Rq An A} _.
Arguments Call {Rq An A} _ _.

Fixpoint pbind {Rq An A B} (p : prog Rq An A) (f : A -> prog Rq An B) : prog Rq An B :=
  match p with
  | Ret a => f a
  | Call rq k => Call rq (fun a => pbind (k a) f)
  end.

Declare Scope prog_scope.
Notation "'do' x <- p ; k" := (pbind p (fun x => k))
  (at level 10, x name, p at level 100, k at level 200) : prog_scope.

Section Programs.
Context {Rq An : Type}.
Local Abbreviation history := (list (Rq * An)).

(** After the history [h] the program sends only requests that [P] allows, and
    ends in a state that [Q] describes, whatever the answers. *)
Fixpoint obeys {A} (P : history -> Rq -> Prop) (Q : history -> A -> Prop) (h : history) (p : prog Rq An A) : Prop :=
  match p with
  | Ret a => Q h a
  | Call rq k => P h rq /\ forall a, obeys P Q (h ++ [(rq, a)]) (k a)
  end.

Lemma obeys_bind {A B} P (Q : history -> A -> Prop) (Q' : history -> B -> Prop) h p f :
  obeys P Q h p -> (forall h' a, Q h' a -> obeys P Q' h' (f a)) -> obeys P Q' h (pbind p f).
Proof. revert h. induction p as [a|rq k IH]; intros h; cbn; [auto|]. intros [Hr Hk] Hf. split; [done|]. auto. Qed.

(** [h] is a run of [p], which has come to [p']. *)
Fixpoint follows {A} (p : prog Rq An A) (h : history) (p' : prog Rq An A) : Prop :=
  match h with
  | [] => p' = p
  | (rq, a) :: h => exists k, p = Call rq k /\ follows (k a) h p'
  end.

Lemma follows_snoc {A} (p : prog Rq An A) h rq k a : follows p h (Call rq k) -> follows p (h ++ [(rq, a)]) (k a).
Proof.
  revert p. induction h as [|[rq' a'] h IH]; intros p; cbn; [intros <-; eauto|].
  intros (k' & -> & H). eexists. split; [done|]. by apply IH.
Qed.

Lemma follows_Ret {A} (a : A) h p' : follows (Ret a) h p' -> h = [] /\ p' = Ret a.
Proof. destruct h as [|[rq b] h]; cbn; [done|]. by intros (k & E & _). Qed.

Lemma follows_Call {A} rq (k : An -> prog Rq An A) h r :
  follows (Call rq k) h (Ret r) -> exists a h', h = (rq, a) :: h' /\ follows (k a) h' (Ret r).
Proof. destruct h as [|[rq' b] h]; cbn; [done|]. intros (k' & [= <- <-] & H). eauto. Qed.

Lemma follows_obeys {A} P Q (p p' : prog Rq An A) h0 h :
  obeys P Q h0 p -> follows p h p' ->
  obeys P Q (h0 ++ h) p' /\ (forall h1 rq a h2, h = h1 ++ (rq, a) :: h2 -> P (h0 ++ h1) rq).
Proof.
  revert p h0. induction h as [|[rq a] h IH]; intros p h0 Ho; cbn.
  { intros ->. split; [by rewrite app_nil_r|]. by intros [] * E. }
  intros (k & -> & H). destruct Ho as [HP Hk]. destruct (IH _ _ (Hk a) H) as [H1 H2]. split.
  { by rewrite <- app_assoc in H1. }
  intros [|[rq' a'] h1] rq1 a1 h2 E; cbn in E; injection E as <- <- E.
  - by rewrite app_nil_r.
  - specialize (H2 h1 rq1 a1 h2 E). by rewrite <- app_assoc in H2.
Qed.
End Programs.
