(* ===== verification/QueueRedis.v ===== *)
(** * The queue on Redis Streams: [src/queue/adapter/redis]

    Tasks are messages of a stream that a consumer group delivers; delayed ones
    wait in a sorted set until a script moves them.  An operation is a program: a
    tree of the requests it sends, branching on the answers, errors of the
    connection included.  One program runs alone ([run]), or several interleave
    request by request ([step]).

    Parameters are the JSON encoding of tasks and delayed entries, its decoding by
    the server's Lua library, and the text of errors. *)

From S2P Require Import Prelude GoErrors GoStrconv GoSHA256 Redis LuaNum RedisStreams Programs Queue.
From stdpp Require Import gmap strings.
From stdpp Require Import options.
Set Default Proof Using "Type*".
Local Open Scope Z_scope.

(** ** [config.go], [key.go] *)

Record config := mkConfig {
  cPrefix : string; cGroup : string; cConsumer : string; cPromoteSize : Z; cClaimMinIdle : Z; cDeadLetterMaxLen : Z
}.

Inductive Option_ :=
| WithPrefix (prefix : string) | WithGroup (group : string) | WithConsumer (consumer : string)
| WithPromoteSize (size : Z) | WithClaimMinIdle (minIdle : Z) | WithDeadLetterMaxLen (maxLen : Z).

Definition apply (o : Option_) (c : config) : config :=
  let 'mkConfig p g co ps ci dl := c in
  match o with
  | WithPrefix prefix => if String.eqb prefix "" then c else mkConfig (TrimSuffix prefix) g co ps ci dl
  | WithGroup group => if String.eqb group "" then c else mkConfig p group co ps ci dl
  | WithConsumer consumer => if String.eqb consumer "" then c else mkConfig p g consumer ps ci dl
  | WithPromoteSize size => if size >? 0 then mkConfig p g co size ci dl else c
  | WithClaimMinIdle minIdle => if minIdle >=? 0 then mkConfig p g co ps minIdle dl else c
  | WithDeadLetterMaxLen maxLen => if maxLen >? 0 then mkConfig p g co ps ci maxLen else c
  end.

(** [hostname] is what the operating system answers. *)
Definition defaultConsumerName (hostname : string + error) (pid now : Z) : string :=
  let hostname := match hostname with
                  | inl h => if String.eqb h "" then "localhost"%string else h
                  | inr _ => "localhost"%string
                  end in
  "worker-" +:+ hostname +:+ "-" +:+ FormatInt pid +:+ "-" +:+ FormatInt now.

Definition newConfig (consumer : string) (opts : list Option_) : config :=
  foldl (fun c o => apply o c) (mkConfig "queue" "queue" consumer 100 (5 * Minute) 0) opts.

Record Queue := mkQueue {
  prefix : string; group_ : string; consumer_ : string; promoteSize : Z; claimMinIdle : Z; deadLetterMaxLen : Z
}.

Definition NewQueue (consumer : string) (opts : list Option_) : Queue :=
  let c := newConfig consumer opts in
  mkQueue (cPrefix c) (cGroup c) (cConsumer c) (cPromoteSize c) (cClaimMinIdle c) (cDeadLetterMaxLen c).

Definition streamKey (q : Queue) (name : string) : string := prefix q +:+ ":" +:+ name +:+ ":stream".
Definition delayedKey (q : Queue) (name : string) : string := prefix q +:+ ":" +:+ name +:+ ":delayed".
Definition deadLetterKey (q : Queue) (name : string) : string := prefix q +:+ ":" +:+ name +:+ ":dead".

Definition taskField : string := "task".
Definition deadReasonField : string := "reason".

(** ** Requests and programs *)

(** A command, or the script that promotes delayed tasks. *)
Inductive request :=
| Send (k : string) (c : xcmd)
| EvalPromote (delayed stream : string) (now size : Z) (field : string).

Abbreviation answer := (xreply + error)%type.

Local Abbreviation prog := (Programs.prog request answer).
Local Open Scope prog_scope.

Definition Nil : error := ErrNew "redis: nil".

(** The client reports a nil reply as the error [Nil]. *)
Definition result (a : answer) : answer :=
  match a with inl XNil => inr Nil | _ => a end.
Definition send (k : string) (c : xcmd) : prog answer := Call (Send k c) (fun a => Ret (result a)).
Definition failed (a : answer) : option error := match a with inr e => Some e | inl _ => None end.

(** ** The promote script *)

(** Values of the server's Lua, as the JSON library decodes them; a number has
    the text it becomes as an argument of a command. *)
Inductive lua := LNil | LFalse | LTrue | LNum (s : string) | LStr (s : string) | LTable (get : string -> lua) | LUserdata.

Section Adapter.
Variables (Marshal : Task -> string + error) (Unmarshal : string -> Task + error).
Variable MarshalEntry : string -> string -> string + error.
Variable decode : string -> option lua.
Variable Error : error -> string.

Definition payload_of (task : string) : string + error :=
  match decode task with
  | Some (LTable get) =>
      match get "task"%string with
      | LNil | LFalse => inl task
      | LStr s | LNum s => inl s
      | _ => inr (ErrMsg "Lua redis lib command arguments must be strings or integers")
      end
  | _ => inl task
  end.

Section Script.
Context {R : Type} `{!StreamServer R}.
Local Open Scope lua_scope.

Fixpoint promote_loop (delayed stream field : string) (tasks : list string) : script R unit :=
  match tasks with
  | [] => sret tt
  | task :: rest =>
      match payload_of task with
      | inr err => fun _ r => (r, inr err)
      | inl payload =>
          call xcall stream (XADD {[field := payload]} None) then
          call xcall delayed (ZREM task) then
          promote_loop delayed stream field rest
      end
  end.

Definition promoteScript (delayed stream : string) (now size : Z) (field : string) : script R xreply :=
  local tasks <- xcall delayed (ZRANGEBYSCORE now size) in
  let tasks := match tasks with XMembers l => l | _ => [] end in
  call promote_loop delayed stream field tasks then
  sret (XInt (Z.of_nat (length tasks))).

(** What the server does with a request. *)
Definition serve (rq : request) : script R xreply :=
  match rq with
  | Send k c => xcall k c
  | EvalPromote delayed stream now size field => promoteScript delayed stream now size field
  end.

(** A program alone with the server, at the server's time [t]. *)
Fixpoint run {A} (p : prog A) (t : Z) (c : Client R) : Client R * A :=
  match p with
  | Ret a => (c, a)
  | Call rq k => let '(c', a) := roundtrip c (serve rq) t in run (k a) (t + spent c) c'
  end.
End Script.

(** ** [stream.go] *)

Definition addToStream (q : Queue) (name data : string) : prog (option error) :=
  do a <- send (streamKey q name) (XADD {[taskField := data]} None);
  Ret (failed a).

(** [strings.Contains] *)
Fixpoint contains (s sub : string) : bool :=
  String.prefix sub s || match s with EmptyString => false | String _ s => contains s sub end.

Definition ensureGroup (q : Queue) (name : string) : prog (option error) :=
  do a <- send (streamKey q name) (XGROUP_CREATE (group_ q));
  Ret (match a with
       | inr err => if negb (contains (Error err) "BUSYGROUP") then Some err else None
       | inl _ => None
       end).

(** Instants count from Go's zero time. *)
Definition unixEpoch : Z := 62135596800 * Second.
Definition UnixNano (t : Z) : Z := wrap64 (t - unixEpoch).

Definition promoteDue (q : Queue) (name : string) (now : Z) : prog (option error) :=
  Call (EvalPromote (delayedKey q name) (streamKey q name) (UnixNano now) (promoteSize q) taskField)
    (fun a => Ret (failed (result a))).

(** ** [queue.go]: storing *)

(** The readings of the clock and the random bytes of one [Enqueue]. *)
Record source := mkSource { now1 : Z; now2 : Z; random : list Ascii.ascii + error }.

Definition newDelayedEntry (src : source) (data : string) : string + error :=
  match random src with
  | inr err => inr err
  | inl token => MarshalEntry (hex token +:+ "-" +:+ FormatInt (UnixNano (now2 src))) data
  end.

Definition Enqueue (q : Queue) (src : source) (task : option Task) : prog (option error) :=
  match Clone task with
  | None => Ret None
  | Some task =>
      let task := if String.eqb (QueueName task) "" then with_queue DefaultQueue task else task in
      match Marshal task with
      | inr err => Ret (Some err)
      | inl data =>
          if AvailableAt task >? now1 src then
            match newDelayedEntry src data with
            | inr err => Ret (Some err)
            | inl entry =>
                do a <- send (delayedKey q (QueueName task)) (ZADD (lua_num (UnixNano (AvailableAt task))) entry);
                Ret (failed a)
            end
          else addToStream q (QueueName task) data
      end
  end.

(** ** [message.go] *)

(** A [malformedMessageError], or another error. *)
Inductive receive_error := Malformed (messageID : string) (err : error) | Plain (err : error).
Definition unwrap (e : receive_error) : error := match e with Malformed _ err | Plain err => err end.

(** A delivery belongs to its queue. *)
Record redisDelivery := mkDelivery { dTask : Task; streamID : string }.

Definition attemptWithDeliveryCount (baseAttempt deliveryCount : Z) : Z :=
  let baseAttempt := if baseAttempt <? 0 then 0 else baseAttempt in
  if deliveryCount <=? 0 then
    if baseAttempt =? maxInt64 then maxInt64 else wrap64 (baseAttempt + 1)
  else if baseAttempt >=? maxInt64 then maxInt64
  else
    let maxRemaining := wrap64 (maxInt64 - baseAttempt) in
    if deliveryCount >? maxRemaining then maxInt64 else wrap64 (baseAttempt + deliveryCount).

(** The client gives every field as a string. *)
Definition leaseFromMessageWithDeliveryCount (m : message) (deliveryCount : Z) : redisDelivery + receive_error :=
  match values m !! taskField with
  | None => inr (Malformed (mid m) (ErrMsg "queue/adapter/redis: message missing field"))
  | Some data =>
      match Unmarshal data with
      | inr err => inr (Malformed (mid m) err)
      | inl task =>
          inl (mkDelivery (with_attempt (attemptWithDeliveryCount (Attempt_ task) deliveryCount) task) (mid m))
      end
  end.

Definition leaseFromMessage (m : message) : redisDelivery + receive_error :=
  leaseFromMessageWithDeliveryCount m 0.

Definition deliveryCount (q : Queue) (name messageID : string) : prog (Z + error) :=
  do a <- send (streamKey q name) (XPENDING (group_ q) 0 (Some messageID));
  Ret (match a with
       | inr err => if errors_Is err "redis: nil" then inl 0 else inr err
       | inl (XPend (p :: _)) => inl (pcount p)
       | inl _ => inl 0
       end).

Definition leaseFromClaimedMessage (q : Queue) (name : string) (m : message)
    : prog (redisDelivery + receive_error) :=
  do n <- deliveryCount q name (mid m);
  Ret (match n with
       | inr err => inr (Plain err)
       | inl n => leaseFromMessageWithDeliveryCount m n
       end).

(** A nil delivery without an error is [inl None]. *)
Definition lift (r : redisDelivery + receive_error) : option redisDelivery + receive_error :=
  match r with inl d => inl (Some d) | inr e => inr e end.

(** Claims are in whole milliseconds on the wire. *)
Definition claimPendingWithXClaim `{!ClientOptions} (q : Queue) (name consumerName : string) (minIdle : Z)
    : prog (option redisDelivery + receive_error) :=
  do a <- send (streamKey q name) (XPENDING (group_ q) (client_ms minIdle) None);
  match a with
  | inr err => Ret (if errors_Is err "redis: nil" then inl None else inr (Plain err))
  | inl (XPend (p :: _)) =>
      do a <- send (streamKey q name) (XCLAIM (group_ q) consumerName (Milliseconds minIdle) (pid p));
      match a with
      | inr err => Ret (if errors_Is err "redis: nil" then inl None else inr (Plain err))
      | inl (XMsgs (m :: _)) => do r <- leaseFromClaimedMessage q name m; Ret (lift r)
      | inl _ => Ret (inl None)
      end
  | inl _ => Ret (inl None)
  end.

Definition claimPendingForConsumer `{!ClientOptions} (q : Queue) (name consumerName : string) (minIdle : Z)
    : prog (option redisDelivery + receive_error) :=
  do a <- send (streamKey q name) (XAUTOCLAIM (group_ q) consumerName (Milliseconds minIdle));
  match a with
  | inr err => Ret (if errors_Is err "redis: nil" then inl None else inr (Plain err))
  | inl (XMsgs (m :: _)) => do r <- leaseFromClaimedMessage q name m; Ret (lift r)
  | inl _ => claimPendingWithXClaim q name consumerName minIdle
  end.

(** ** [queue.go]: receiving *)

Definition ErrNoTask : error := ErrNew "queue: no task available".

Definition ackMalformed (q : Queue) (name messageID : string) : prog (option error) :=
  if String.eqb messageID "" then Ret None
  else do a <- send (streamKey q name) (XACK (group_ q) messageID); Ret (failed a).

Definition readNew (q : Queue) (name consumerName : string) : prog (redisDelivery + receive_error) :=
  do a <- send (streamKey q name) (XREADGROUP (group_ q) consumerName);
  match a with
  | inr err => Ret (inr (Plain (if errors_Is err "redis: nil" then ErrNoTask else err)))
  | inl (XMsgs (m :: _)) =>
      match leaseFromMessage m with
      | inl d => Ret (inl d)
      | inr err => do _ <- ackMalformed q name (mid m); Ret (inr err)
      end
  | inl _ => Ret (inr (Plain ErrNoTask))
  end.

Definition receiveForConsumer `{!ClientOptions} (q : Queue) (name consumerName : string) (now : Z)
    : prog (redisDelivery + receive_error) :=
  do err <- promoteDue q name now;
  match err with
  | Some err => Ret (inr (Plain err))
  | None =>
      if claimMinIdle q >? 0 then
        do r <- claimPendingForConsumer q name consumerName (claimMinIdle q);
        match r with
        | inr (Malformed id err) => do _ <- ackMalformed q name id; Ret (inr (Malformed id err))
        | inr (Plain err) => Ret (inr (Plain err))
        | inl (Some d) => Ret (inl d)
        | inl None => readNew q name consumerName
        end
      else readNew q name consumerName
  end.

Record consumer := mkConsumer_ { cName : string; consumerName : string }.

Definition NewConsumer (q : Queue) (ctx_err : option error) (config : ConsumerConfig) : prog (consumer + error) :=
  match ctx_err with
  | Some err => Ret (inr err)
  | None =>
      let config := Normalize config in
      let consumerName := if String.eqb (ccName config) "" then consumer_ q else ccName config in
      do err <- ensureGroup q (ccQueue config);
      Ret (match err with Some err => inr err | None => inl (mkConsumer_ (ccQueue config) consumerName) end)
  end.

(** [Receive]: [now n] is the clock at turn [n], and [state n] what the turn sees
    of the caller's context and of [Close] after it. *)
Fixpoint Receive `{!ClientOptions} (q : Queue) (c : consumer) (now : nat -> Z) (state : nat -> option error * bool)
    (n fuel : nat) : prog (option (redisDelivery + receive_error)) :=
  match fuel with
  | 0%nat => Ret None
  | S fuel =>
      do r <- receiveForConsumer q (cName c) (consumerName c) (now n);
      match r with
      | inl d => Ret (Some (inl d))
      | inr e =>
          let '(ctx_err, closed) := state n in
          if errors_Is (unwrap e) "context canceled" && bool_decide (ctx_err = None) && closed
          then Ret (Some (inr (Plain ErrConsumerClosed)))
          else if errors_Is (unwrap e) "queue: no task available" then Receive q c now state (S n) fuel
          else Ret (Some (inr e))
      end
  end.

(** ** [lease.go] *)

(** A delivery that is not nil. *)
Definition Lease_Ack (q : Queue) (d : redisDelivery) : prog (option error) :=
  if String.eqb (streamID d) "" then Ret None
  else do a <- send (streamKey q (QueueName (dTask d))) (XACK (group_ q) (streamID d)); Ret (failed a).

Definition Lease_Retry (q : Queue) (now : Z) (src : source) (delay : Z) (d : redisDelivery) : prog (option error) :=
  let task := with_available (now + delay) (dTask d) in
  do err <- Enqueue q src (Some task);
  match err with
  | Some err => Ret (Some err)
  | None => Lease_Ack q d
  end.

Definition Lease_DeadLetter (q : Queue) (reason : string) (d : redisDelivery) : prog (option error) :=
  match Marshal (dTask d) with
  | inr err => Ret (Some err)
  | inl data =>
      do a <- send (deadLetterKey q (QueueName (dTask d)))
                (XADD (<[taskField := data]> {[deadReasonField := reason]})
                   (if deadLetterMaxLen q >? 0 then Some (deadLetterMaxLen q) else None));
      match failed a with
      | Some err => Ret (Some err)
      | None => Lease_Ack q d
      end
  end.

(** The attempt of a delivery is the stored one plus the deliveries, the first
    counting even when the server does not report it, and stops at the largest
    integer instead of wrapping. *)
Theorem attempt_saturates base count :
  base <= maxInt64 -> attemptWithDeliveryCount base count = Z.min maxInt64 (Z.max 0 base + Z.max 1 count).
Proof.
  intros Hb. unfold attemptWithDeliveryCount. set (b := if base <? 0 then 0 else base).
  assert (Hb0 : b = Z.max 0 base) by (unfold b; bcase; lia). rewrite <- Hb0. assert (0 <= b <= maxInt64) by int_lia.
  destruct (Z.leb_spec count 0).
  - destruct (Z.eqb_spec b maxInt64); [int_lia|]. rewrite wrap64_id by int_lia. int_lia.
  - destruct (Z.geb_spec b maxInt64); [int_lia|]. rewrite (wrap64_id (maxInt64 - b)) by int_lia.
    destruct (Z.gtb_spec count (maxInt64 - b)); [int_lia|]. rewrite wrap64_id by int_lia. int_lia.
Qed.

(** ** Keys *)

Section Keys.
Variable q : Queue.

Lemma append_chars (a b : string) :
  String.list_ascii_of_string (a +:+ b) = String.list_ascii_of_string a ++ String.list_ascii_of_string b.
Proof. induction a as [|x a IH]; simpl; [done|]. by rewrite IH. Qed.

Lemma suffix_inj (a b c : string) : a +:+ c = b +:+ c -> a = b.
Proof.
  intros H%(f_equal String.list_ascii_of_string). rewrite !append_chars in H. apply app_inv_tail in H.
  by rewrite <- (String.string_of_list_ascii_of_string a), H, String.string_of_list_ascii_of_string.
Qed.

Lemma suffix_ne (a b c d : string) :
  (forall l l', reverse (String.list_ascii_of_string c) ++ l <> reverse (String.list_ascii_of_string d) ++ l') ->
  a +:+ c <> b +:+ d.
Proof.
  intros Hne H%(f_equal (fun x => reverse (String.list_ascii_of_string x))).
  rewrite !append_chars, !reverse_app in H. by apply Hne in H.
Qed.

Lemma streamKey_inj n n' : streamKey q n = streamKey q n' -> n = n'.
Proof. unfold streamKey. intros H%(inj (String.append _))%(inj (String.append _)). by apply suffix_inj in H. Qed.
Lemma delayedKey_inj n n' : delayedKey q n = delayedKey q n' -> n = n'.
Proof. unfold delayedKey. intros H%(inj (String.append _))%(inj (String.append _)). by apply suffix_inj in H. Qed.

Lemma key_suffix_ne n n' c d :
  (forall l l', reverse (String.list_ascii_of_string c) ++ l <> reverse (String.list_ascii_of_string d) ++ l') ->
  prefix q +:+ ":" +:+ n +:+ c <> prefix q +:+ ":" +:+ n' +:+ d.
Proof. intros Hne H%(inj (String.append _))%(inj (String.append _)). by apply (suffix_ne n n' c d). Qed.

Lemma stream_delayed n n' : streamKey q n <> delayedKey q n'.
Proof. by apply key_suffix_ne. Qed.
Lemma stream_dead n n' : streamKey q n <> deadLetterKey q n'.
Proof. by apply key_suffix_ne. Qed.
Lemma delayed_dead n n' : delayedKey q n <> deadLetterKey q n'.
Proof. by apply key_suffix_ne. Qed.
End Keys.

(** ** Clients interleaved *)

Section System.
Context {R : Type} `{!StreamServer R, !StreamLaws R} {client_opts : ClientOptions}.
Variable q : Queue.

(** A foreign client adds a message or a delayed member of its own. *)
Inductive operation :=
| OpEnqueue (src : source) (task : option Task)
| OpNewConsumer (config : ConsumerConfig)
| OpReceive (name consumerName : string) (now : Z)
| OpAck (d : redisDelivery)
| OpRetry (now : Z) (src : source) (delay : Z) (d : redisDelivery)
| OpDeadLetter (reason : string) (d : redisDelivery)
| OpForeign (rq : request).

Inductive outcome :=
| Done (err : option error) | Consuming (c : consumer + error) | Delivered (r : redisDelivery + receive_error).

Definition code_of (o : operation) : prog outcome :=
  match o with
  | OpEnqueue src task => do e <- Enqueue q src task; Ret (Done e)
  | OpNewConsumer config => do c <- NewConsumer q None config; Ret (Consuming c)
  | OpReceive name co now => do r <- receiveForConsumer q name co now; Ret (Delivered r)
  | OpAck d => do e <- Lease_Ack q d; Ret (Done e)
  | OpRetry now src delay d => do e <- Lease_Retry q now src delay d; Ret (Done e)
  | OpDeadLetter reason d => do e <- Lease_DeadLetter q reason d; Ret (Done e)
  | OpForeign rq => Call rq (fun a => Ret (Done (failed a)))
  end.

(** A client's call in progress: what is left of it, and the requests it sent
    with their answers.  [log] are the requests the server carried out. *)
Record thread := mkThread { op : operation; code : prog outcome; seen : list (request * answer) }.
Record system := mkSystem { srv : R; threads : list thread; log : list request }.

Definition decode_fields (v : fields) : option Task :=
  match values (mkMessage "" v) !! taskField with
  | Some data => match Unmarshal data with inl t => Some t | inr _ => None end
  | None => None
  end.

(** A message of queue [n] is malformed or holds a task of queue [n]. *)
Definition fields_ok (n : string) (v : fields) : Prop :=
  forall t, decode_fields v = Some t -> QueueName t = n.

Definition foreign_ok (rq : request) : Prop :=
  match rq with
  | Send k (XADD v None) => exists n, k = streamKey q n /\ fields_ok n v
  | Send k (ZADD _ m) =>
      exists n p, k = delayedKey q n /\ payload_of m = inl p /\ fields_ok n {[taskField := p]}
  | _ => False
  end.

(** Queue names that JSON carries unchanged. *)
Variable valid : string -> Prop.

(** Settlements are those of deliveries made. *)
Definition was_delivered (ts : list thread) (d : redisDelivery) : Prop :=
  exists th, th ∈ ts /\ code th = Ret (Delivered (inl d)).

Definition start_ok (ts : list thread) (o : operation) : Prop :=
  match o with
  | OpEnqueue _ (Some t) => valid (queue_or_default (QueueName t))
  | OpReceive n _ _ => valid n /\ n <> ""%string
  | OpAck d | OpRetry _ _ _ d | OpDeadLetter _ d => was_delivered ts d
  | OpForeign rq => foreign_ok rq
  | _ => True
  end.

(** One request, with what the connection does to it. *)
Definition transmit (f : option fault) (rq : request) (t : Z) (r : R) : R * answer * list request :=
  match f with
  | None => let '(r, a) := serve rq t r in (r, a, [rq])
  | Some (NoReply e) => ((serve rq t r).1, inr e, [rq])
  | Some (Unsent e) => (r, inr e, [])
  end.

(** [step_retry] is an attempt whose answer is lost and that the client
    repeats; an attempt that is lost before the server changes nothing. *)
Inductive step (s : system) : system -> Prop :=
| step_start o :
    start_ok (threads s) o ->
    step s (mkSystem (srv s) (threads s ++ [mkThread o (code_of o) []]) (log s))
| step_call i o rq k h f t r a sent :
    threads s !! i = Some (mkThread o (Call rq k) h) -> transmit f rq t (srv s) = (r, a, sent) ->
    step s (mkSystem r (<[i := mkThread o (k a) (h ++ [(rq, a)])]> (threads s)) (log s ++ sent))
| step_retry i o rq k h t :
    threads s !! i = Some (mkThread o (Call rq k) h) ->
    step s (mkSystem (serve rq t (srv s)).1 (threads s) (log s ++ [rq])).

(** The server starts without the queue's keys. *)
Definition initial (s : system) : Prop :=
  (forall n, xlookup (srv s) (streamKey q n) = None) /\ (forall n, xlookup (srv s) (delayedKey q n) = None) /\
  threads s = [] /\ log s = [].

Inductive reachable : system -> Prop :=
| reach_init s : initial s -> reachable s
| reach_step s s' : reachable s -> step s s' -> reachable s'.

(** ** What the server was given *)

Definition task_fields (data : string) : fields := {[taskField := data]}.

Definition member_fields (m : string) : fields :=
  {[taskField := match payload_of m with inl p => p | inr _ => m end]}.

Definition added1 (n : string) (rq : request) : list fields :=
  match rq with
  | Send k (XADD v _) => if decide (k = streamKey q n) then [v] else []
  | Send k (ZADD _ m) => if decide (k = delayedKey q n) then [member_fields m] else []
  | _ => []
  end.
Definition added (n : string) (l : list request) : list fields := l ≫= added1 n.

Definition members1 (n : string) (rq : request) : list string :=
  match rq with
  | Send k (ZADD _ m) => if decide (k = delayedKey q n) then [m] else []
  | _ => []
  end.
Definition members (n : string) (l : list request) : list string := l ≫= members1 n.

Definition acked1 (n : string) (rq : request) : list string :=
  match rq with
  | Send k c => if decide (k = streamKey q n) then acks c else []
  | _ => []
  end.

Definition stream_of (r : R) (n : string) : stream := as_stream (xlookup r (streamKey q n)).
Definition zset_of (r : R) (n : string) : gmap string Z :=
  match xlookup r (delayedKey q n) with Some (XZset z) => z | _ => ∅ end.
Definition delayed (r : R) (n : string) : list string := (map_to_list (zset_of r n)).*1.

(** The requests clients send. *)
Definition rq_ok (rq : request) : Prop :=
  match rq with
  | Send k c =>
      (exists n, k = streamKey q n /\ stream_cmd (group_ q) c = true /\ (forall v ml, c = XADD v ml -> fields_ok n v)) \/
      (exists n sc m p, k = delayedKey q n /\ c = ZADD sc m /\ payload_of m = inl p /\ fields_ok n {[taskField := p]}) \/
      (exists n v ml, k = deadLetterKey q n /\ c = XADD v ml)
  | EvalPromote d s _ _ f => exists n, d = delayedKey q n /\ s = streamKey q n /\ f = taskField
  end.

Record server_ok (r : R) (l : list request) : Prop := {
  so_stream n : xlookup r (streamKey q n) = None \/ exists s, xlookup r (streamKey q n) = Some (XStream s);
  so_wf n : stream_wf (group_ q) (stream_of r n);
  so_zset n : xlookup r (delayedKey q n) = None \/ exists z, xlookup r (delayedKey q n) = Some (XZset z);
  so_members n m : m ∈ delayed r n -> m ∈ members n l /\ exists p, payload_of m = inl p;
  so_sum n : (values <$> entries (stream_of r n)) ++ (member_fields <$> delayed r n) ≡ₚ added n l
}.

(** What one request does to the stream of every queue. *)
Definition streams_step (r r' : R) (acked : string -> list string) : Prop :=
  forall n, exists new, stream_step (group_ q) (stream_of r n) (stream_of r' n) new (acked n).

Lemma added_snoc n l rq : added n (l ++ [rq]) = added n l ++ added1 n rq.
Proof. unfold added. rewrite bind_app. cbn. by rewrite app_nil_r. Qed.
Lemma members_snoc n l rq : members n (l ++ [rq]) = members n l ++ members1 n rq.
Proof. unfold members. rewrite bind_app. cbn. by rewrite app_nil_r. Qed.

Lemma streams_same r r' acked :
  (forall n, xlookup r' (streamKey q n) = xlookup r (streamKey q n)) ->
  (forall n, stream_wf (group_ q) (stream_of r n)) -> streams_step r r' acked.
Proof.
  intros He Hwf n. exists []. unfold stream_of. rewrite He. fold (stream_of r n).
  destruct (stream_step_refl _ _ (Hwf n)) as [? ? ? Ha]. split; [done..|].
  intros m Hm Hn. left. by destruct (Ha m Hm Hn) as [?|?%not_elem_of_nil].
Qed.

(** Requests that leave the delayed tasks of all queues. *)
Lemma server_ok_stream r r' l rq n new :
  server_ok r l -> (forall k, k <> streamKey q n -> xlookup r' k = xlookup r k) ->
  (xlookup r' (streamKey q n) = None \/ exists s, xlookup r' (streamKey q n) = Some (XStream s)) ->
  stream_wf (group_ q) (stream_of r' n) -> entries (stream_of r' n) = entries (stream_of r n) ++ new ->
  values <$> new = added1 n rq -> (forall n', n' <> n -> added1 n' rq = []) -> 
  server_ok r' (l ++ [rq]).
Proof.
  intros [Hs Hw Hz Hm Hsum] Hf Hv Hwf He Hnew Hother.
  assert (Hst : forall n', n' <> n -> stream_of r' n' = stream_of r n').
  { intros n' Hne. unfold stream_of. rewrite Hf; [done|]. by intros ->%streamKey_inj. }
  assert (Hd : forall n', delayed r' n' = delayed r n').
  { intros n'. unfold delayed, zset_of. rewrite Hf; [done|]. intros E. by apply (stream_delayed q n n'). }
  split.
  - intros n'. destruct (decide (n' = n)) as [->|Hne]; [done|]. rewrite Hf; [done|]. by intros ->%streamKey_inj.
  - intros n'. destruct (decide (n' = n)) as [->|Hne]; [done|]. by rewrite Hst.
  - intros n'. rewrite Hf; [done|]. intros E. by apply (stream_delayed q n n').
  - intros n' m. rewrite Hd, members_snoc. intros Hin. destruct (Hm n' m Hin) as [? ?]. split; [|done].
    apply elem_of_app. by left.
  - intros n'. rewrite Hd, added_snoc. destruct (decide (n' = n)) as [->|Hne].
    + rewrite He, fmap_app, Hnew, <- (Hsum n). by rewrite <- !app_assoc, (Permutation_app_comm (added1 n rq)).
    + by rewrite Hst, Hother, app_nil_r by done.
Qed.

(** A command on the stream of queue [n]. *)
Lemma serve_stream r l n c t :
  server_ok r l -> stream_cmd (group_ q) c = true ->
  let rq := Send (streamKey q n) c in
  exists r' a, serve rq t r = (r', a) /\ server_ok r' (l ++ [rq]) /\ streams_step r r' (fun n => acked1 n rq) /\
    (forall ms, a = inl (XMsgs ms) -> Forall (fun m => m ∈ entries (stream_of r n)) ms).
Proof.
  intros Hok Hc rq. destruct (xcall_step r t (streamKey q n) c _ eq_refl) as (r' & new & k & Hcall & Hnew & Hl & Hf).
  assert (Hfresh : new ∉ mid <$> entries (as_stream (xlookup r (streamKey q n)))).
  { destruct (so_stream _ _ Hok n) as [E|[s E]]; rewrite E; [apply not_elem_of_nil|]. subst new. by apply new_id_fresh. }
  destruct (stream_cmd_step (group_ q) new k t c _ (so_stream _ _ Hok n) (so_wf _ _ Hok n) Hc Hfresh
    ltac:(rewrite Hnew; apply new_id_nonempty)) as (Hv & Hst & Hms). rewrite <- Hl in Hv, Hst.
  assert (Hother : forall n', n' <> n -> xlookup r' (streamKey q n') = xlookup r (streamKey q n')).
  { intros n' Hne. apply Hf. by intros ->%streamKey_inj. }
  eexists r', _. split; [exact Hcall|]. split; [|split].
  - apply (server_ok_stream r r' l rq n (appended new c)); [done|done|done|apply Hst|apply Hst| |].
    + subst rq. destruct c; cbn; try done. by rewrite decide_True.
    + intros n' Hne. subst rq. destruct c; cbn; try done. rewrite decide_False; [done|].
      intros E. apply Hne. by apply streamKey_inj in E.
  - intros n'. destruct (decide (n' = n)) as [->|Hne].
    + exists (appended new c). subst rq. cbn [acked1]. by rewrite decide_True.
    + assert (Hs : streams_step r r (fun n => acked1 n rq)) by (apply streams_same; [done|apply Hok]).
      destruct (Hs n') as [new' Hn']. exists new'. unfold stream_of at 2. by rewrite Hother.
  - intros ms E. apply Hms. by destruct (_.2); simplify_eq.
Qed.

(** Requests that change no stream. *)
Lemma server_ok_delayed r r' l rq n z' ms :
  server_ok r l -> (forall k, k <> delayedKey q n -> xlookup r' k = xlookup r k) ->
  (xlookup r' (delayedKey q n) = None /\ z' = ∅ \/ xlookup r' (delayedKey q n) = Some (XZset z')) ->
  (map_to_list z').*1 ≡ₚ ms ++ delayed r n -> member_fields <$> ms = added1 n rq -> ms = members1 n rq ->
  Forall (fun m => exists p, payload_of m = inl p) ms ->
  (forall n', n' <> n -> added1 n' rq = []) -> server_ok r' (l ++ [rq]).
Proof.
  intros [Hs Hw Hz Hm Hsum] Hf Hv Hp Hadd Hmem Hpay Hother.
  assert (Hst : forall n', xlookup r' (streamKey q n') = xlookup r (streamKey q n')).
  { intros n'. apply Hf. apply stream_delayed. }
  assert (Hso : forall n', stream_of r' n' = stream_of r n') by (intros n'; unfold stream_of; by rewrite Hst).
  assert (Hd : forall n', n' <> n -> delayed r' n' = delayed r n').
  { intros n' Hne. unfold delayed, zset_of. rewrite Hf; [done|]. by intros ->%delayedKey_inj. }
  assert (Hdn : delayed r' n ≡ₚ ms ++ delayed r n).
  { rewrite <- Hp. unfold delayed, zset_of. by destruct Hv as [[-> ->]| ->]. }
  split.
  - intros n'. rewrite Hst. apply Hs.
  - intros n'. rewrite Hso. apply Hw.
  - intros n'. destruct (decide (n' = n)) as [->|Hne].
    + destruct Hv as [[-> _]| ->]; [by left|right; by eexists].
    + rewrite Hf; [apply Hz|]. by intros ->%delayedKey_inj.
  - intros n' m. rewrite members_snoc. destruct (decide (n' = n)) as [->|Hne].
    + rewrite Hdn, <- Hmem. intros [Hin|Hin]%elem_of_app.
      * rewrite Forall_forall in Hpay. split; [apply elem_of_app; by right|by apply Hpay].
      * destruct (Hm n m Hin) as [? ?]. split; [apply elem_of_app; by left|done].
    + rewrite Hd by done. intros Hin. destruct (Hm n' m Hin) as [? ?]. split; [apply elem_of_app; by left|done].
  - intros n'. rewrite Hso, added_snoc. destruct (decide (n' = n)) as [->|Hne].
    + rewrite Hdn, fmap_app, Hadd, <- (Hsum n). rewrite (Permutation_app_comm (added1 n rq)). by rewrite app_assoc.
    + by rewrite Hd, Hother, app_nil_r by done.
Qed.

Lemma serve_delayed r l n sc m p t :
  server_ok r l -> payload_of m = inl p -> m ∉ members n l ->
  let rq := Send (delayedKey q n) (ZADD sc m) in
  exists r' a, serve rq t r = (r', a) /\ server_ok r' (l ++ [rq]) /\ streams_step r r' (fun n => acked1 n rq) /\
    (forall ms, a <> inl (XMsgs ms)).
Proof.
  intros Hok Hp Hm rq. destruct (xcall_step r t (delayedKey q n) (ZADD sc m) _ eq_refl) as (r' & new & k & Hcall & _ & Hl & Hf).
  assert (Hz : xlookup r' (delayedKey q n) = Some (XZset (<[m := sc]> (zset_of r n))) /\ zset_of r n !! m = None).
  { assert (Hnone : zset_of r n !! m = None).
    { destruct (zset_of r n !! m) as [x|] eqn:E; [|done]. exfalso. apply Hm.
      apply (so_members _ _ Hok n m). unfold delayed. apply list_elem_of_fmap. exists (m, x).
      split; [done|]. by apply elem_of_map_to_list. }
    split; [|done]. rewrite Hl. unfold zset_of. destruct (so_zset _ _ Hok n) as [E|[z E]]; by rewrite E. }
  destruct Hz as [Hz Hnone]. eexists r', _. split; [exact Hcall|]. split; [|split].
  - apply (server_ok_delayed r r' l rq n (<[m := sc]> (zset_of r n)) [m]); [done|done|by right| | | | |].
    + rewrite map_to_list_insert by done. done.
    + cbn. by rewrite decide_True.
    + cbn. by rewrite decide_True.
    + constructor; [by exists p|constructor].
    + intros n' Hne. cbn. rewrite decide_False; [done|]. intros E. apply Hne. by apply delayedKey_inj in E.
  - apply streams_same; [|apply Hok]. intros n'. apply Hf. apply stream_delayed.
  - intros ms. destruct (so_zset _ _ Hok n) as [E|[z E]]; rewrite E; done.
Qed.

Lemma serve_dead r l n vals ml t :
  server_ok r l ->
  let rq := Send (deadLetterKey q n) (XADD vals ml) in
  exists r' a, serve rq t r = (r', a) /\ server_ok r' (l ++ [rq]) /\ streams_step r r' (fun n => acked1 n rq) /\
    (forall ms, a <> inl (XMsgs ms)).
Proof.
  intros Hok rq.
  destruct (xcall_step r t (deadLetterKey q n) (XADD vals ml) _ eq_refl) as (r' & new & k & Hcall & _ & _ & Hf).
  assert (Hk : forall n', streamKey q n' <> deadLetterKey q n /\ delayedKey q n' <> deadLetterKey q n)
    by (intros n'; split; [apply stream_dead|apply delayed_dead]).
  assert (Ha : forall n', added1 n' rq = []).
  { intros n'. cbn. rewrite decide_False; [done|]. intros E. by apply (proj1 (Hk n')). }
  eexists r', _. split; [exact Hcall|]. split; [|split].
  - destruct Hok as [Hs Hw Hz Hm Hsum].
    assert (Hso : forall n', stream_of r' n' = stream_of r n') by (intros n'; unfold stream_of; by rewrite Hf by apply Hk).
    assert (Hd : forall n', delayed r' n' = delayed r n') by (intros n'; unfold delayed, zset_of; by rewrite Hf by apply Hk).
    split.
    + intros n'. rewrite Hf by apply Hk. apply Hs.
    + intros n'. rewrite Hso. apply Hw.
    + intros n'. rewrite Hf by apply Hk. apply Hz.
    + intros n' m. rewrite Hd, members_snoc. intros Hin. destruct (Hm n' m Hin). split; [apply elem_of_app; by left|done].
    + intros n'. by rewrite Hso, Hd, added_snoc, Ha, app_nil_r.
  - apply streams_same; [|apply Hok]. intros n'. apply Hf, Hk.
  - intros ms. destruct (xlookup r _) as [[]|]; done.
Qed.

(** The consumer groups stay where they are. *)
Definition groups_same (r r' : R) : Prop :=
  forall n, groups (stream_of r' n) !! group_ q = groups (stream_of r n) !! group_ q.

(** Adding a message to the stream as the script does. *)
Lemma script_add r l n p t :
  server_ok r l ->
  let rq := Send (streamKey q n) (XADD {[taskField := p]} None) in
  exists r' x, xcall (streamKey q n) (XADD {[taskField := p]} None) t r = (r', inl x) /\
    server_ok r' (l ++ [rq]) /\ streams_step r r' (fun _ => []) /\ delayed r' n = delayed r n /\
    groups_same r r' /\ values <$> entries (stream_of r' n) = (values <$> entries (stream_of r n)) ++ [task_fields p].
Proof.
  intros Hok rq. destruct (serve_stream r l n (XADD {[taskField := p]} None) t Hok eq_refl) as (r' & a & E & Hok' & Hst & _).
  pose proof (xexec_reply r t (streamKey q n) (XADD {[taskField := p]} None)) as Hr.
  pose proof (xexec_frame r t (streamKey q n) (XADD {[taskField := p]} None) (delayedKey q n)) as Hf.
  cbn [serve] in E. unfold xcall in E |- *. destruct (xexec _ _ _ _) as [r1 rep] eqn:Ex. cbn [fst snd xcmd_spec] in *.
  assert (Hrep : exists x, rep = XStr x).
  { destruct (so_stream _ _ Hok n) as [Es|[s Es]]; rewrite Es in Hr; cbn [snd] in Hr; by eexists. }
  destruct Hrep as [x ->]. injection E as <- <-. eexists r1, _. split; [reflexivity|]. split; [done|]. split.
  - intros n'. destruct (Hst n') as [new Hn]. exists new.
    assert (Ha : acked1 n' rq = []) by (subst rq; cbn; by destruct (decide _)). by rewrite <- Ha.
  - pose proof (xexec_frame r t (streamKey q n) (XADD {[taskField := p]} None)) as Hk.
    pose proof (xexec_lookup r t (streamKey q n) (XADD {[taskField := p]} None)) as Hl.
    rewrite Ex in Hk, Hl. cbn [fst xcmd_spec] in Hk, Hl. split; [|split].
    + unfold delayed, zset_of. rewrite Hf; [done|]. intros E. by apply (stream_delayed q n n).
    + intros n'. unfold stream_of. destruct (decide (n' = n)) as [->|Hne]; [|rewrite Hk; [done|by intros ->%streamKey_inj]].
      rewrite Hl. destruct (so_stream _ _ Hok n) as [Es|[s Es]]; rewrite Es; cbn; [done|].
      rewrite lookup_fmap. destruct (groups s !! group_ q) as [[rd pl]|]; cbn; [|done]. by rewrite Nat.sub_0_r.
    + unfold stream_of. rewrite Hl. destruct (so_stream _ _ Hok n) as [Es|[s Es]]; rewrite Es; [done|]. apply (fmap_app values).
Qed.

(** Removing a member whose message was added. *)
Lemma script_remove r l n m t :
  let rq := Send (streamKey q n) (XADD (member_fields m) None) in
  server_ok r (l ++ [rq]) -> m ∈ delayed r n ->
  exists r' x, xcall (delayedKey q n) (ZREM m) t r = (r', inl x) /\ server_ok r' l /\
    (forall n', stream_of r' n' = stream_of r n') /\ delayed r n ≡ₚ m :: delayed r' n.
Proof.
  intros rq Hok Hin. destruct (xcall_step r t (delayedKey q n) (ZREM m) _ eq_refl) as (r' & new & k & -> & _ & Hl & Hf).
  unfold delayed in Hin. apply list_elem_of_fmap in Hin as ([m' sc] & Em & Hin). cbn in Em. subst m'.
  apply elem_of_map_to_list in Hin as Hz.
  assert (Ez : xlookup r (delayedKey q n) = Some (XZset (zset_of r n))).
  { unfold zset_of in *. destruct (so_zset _ _ Hok n) as [E|[z E]]; rewrite E in *; [|done]. by rewrite lookup_empty in Hz. }
  rewrite Ez in Hl |- *. cbn [xcmd_spec fst snd] in *. eexists r', _. split; [done|].
  assert (Hst : forall n', xlookup r' (streamKey q n') = xlookup r (streamKey q n')) by (intros n'; apply Hf, stream_delayed).
  assert (Hso : forall n', stream_of r' n' = stream_of r n') by (intros n'; unfold stream_of; by rewrite Hst).
  assert (Hd : forall n', n' <> n -> delayed r' n' = delayed r n').
  { intros n' Hne. unfold delayed, zset_of. rewrite Hf; [done|]. by intros ->%delayedKey_inj. }
  assert (Hdn : delayed r n ≡ₚ m :: delayed r' n).
  { assert (Hzs : zset_of r' n = delete m (zset_of r n)).
    { unfold zset_of at 1. rewrite Hl. case_decide as E; [by rewrite E|done]. }
    unfold delayed. rewrite Hzs. rewrite <- (map_to_list_delete _ m sc) by done. done. }
  split; [|done]. destruct Hok as [Hs Hw Hz' Hm Hsum]. split.
  - intros n'. rewrite Hst. apply Hs.
  - intros n'. rewrite Hso. apply Hw.
  - intros n'. destruct (decide (n' = n)) as [->|Hne].
    + rewrite Hl. case_decide; [by left|right; by eexists].
    + rewrite Hf; [apply Hz'|]. by intros ->%delayedKey_inj.
  - intros n' x Hx. destruct (Hm n' x) as [Hx1 Hx2].
    { destruct (decide (n' = n)) as [->|Hne]; [rewrite Hdn; by right|by rewrite <- Hd]. }
    split; [|done]. rewrite members_snoc in Hx1. cbn in Hx1. by rewrite app_nil_r in Hx1.
  - intros n'. specialize (Hsum n'). rewrite added_snoc in Hsum. rewrite Hso. cbn [added1 rq] in Hsum.
    destruct (decide (n' = n)) as [->|Hne].
    + rewrite decide_True, Hdn in Hsum by done. cbn [fmap list_fmap] in Hsum.
      rewrite <- Permutation_middle, (Permutation_app_comm (added n l)) in Hsum. by apply Permutation_cons_inv in Hsum.
    + rewrite decide_False, app_nil_r in Hsum by (by intros ?%streamKey_inj). by rewrite Hd.
Qed.

(** What promoting the members [ms] of queue [n] does. *)
Record promoted (r r' : R) (l : list request) (n : string) (ms : list string) : Prop := {
  pr_ok : server_ok r' l;
  pr_step : streams_step r r' (fun _ => []);
  pr_delayed : delayed r n ≡ₚ ms ++ delayed r' n;
  pr_groups : groups_same r r';
  pr_values : values <$> entries (stream_of r' n) = (values <$> entries (stream_of r n)) ++ (member_fields <$> ms)
}.

(** One turn of the script's loop moves a task from the sorted set to the stream. *)
Lemma promote_one r l n m p rest t :
  server_ok r l -> m ∈ delayed r n -> payload_of m = inl p ->
  exists r', promote_loop (delayedKey q n) (streamKey q n) taskField (m :: rest) t r
             = promote_loop (delayedKey q n) (streamKey q n) taskField rest t r' /\ promoted r r' l n [m].
Proof.
  intros Hok Hin Hp. cbn [promote_loop]. rewrite Hp. unfold sbind.
  destruct (script_add r l n p t Hok) as (r1 & x1 & -> & Hok1 & Hst1 & Hd1 & Hg1 & Hv1).
  assert (Hmf : member_fields m = {[taskField := p]}) by (unfold member_fields; by rewrite Hp).
  rewrite <- Hmf in Hok1. rewrite <- Hd1 in Hin.
  destruct (script_remove r1 l n m t Hok1 Hin) as (r' & x' & -> & Hok' & Hso & Hdn).
  exists r'. split; [done|]. split; [done| |by rewrite <- Hd1| |].
  - intros n'. destruct (Hst1 n') as [new Hn]. exists new. by rewrite Hso.
  - intros n'. rewrite Hso. apply Hg1.
  - rewrite Hso, Hv1. unfold task_fields. by rewrite <- Hmf.
Qed.

Lemma promote_all r l n ms t :
  server_ok r l -> NoDup ms -> (forall m, m ∈ ms -> m ∈ delayed r n) ->
  exists r', promote_loop (delayedKey q n) (streamKey q n) taskField ms t r = (r', inl tt) /\ promoted r r' l n ms.
Proof.
  revert r. induction ms as [|m ms IH]; intros r Hok Hnd Hin.
  { exists r. split; [done|]. split; [done|apply streams_same; [done|apply Hok]|done|done|by rewrite app_nil_r]. }
  apply NoDup_cons in Hnd as [Hm Hnd]. pose proof (Hin m ltac:(by left)) as Hmin.
  destruct (so_members _ _ Hok n m Hmin) as [_ [p Hp]].
  destruct (promote_one r l n m p ms t Hok Hmin Hp) as (r1 & -> & [Hok1 Hst1 Hd1 Hg1 Hv1]).
  destruct (IH r1 Hok1 Hnd) as (r' & -> & [Hok' Hst' Hd' Hg' Hv']).
  { intros x Hx. assert (Hx' : x ∈ delayed r n) by (apply Hin; by right). rewrite Hd1 in Hx'.
    apply elem_of_app in Hx' as [->%list_elem_of_singleton|?]; done. }
  exists r'. split; [done|]. split; [done| |by rewrite Hd1, Hd'| |].
  - intros n'. destruct (Hst1 n') as [a1 H1], (Hst' n') as [a2 H2]. exists (a1 ++ a2).
    exact (stream_step_trans _ _ _ _ _ _ _ _ H1 H2).
  - intros n'. by rewrite Hg', Hg1.
  - by rewrite Hv', Hv1, <- app_assoc.
Qed.

(** The script moves the first [size] due members, in the order of their scores. *)
Definition due_members (r : R) (n : string) (now size : Z) : list string :=
  let due := filter (fun p => p.2 <= lua_num now) (by_score (zset_of r n)) in
  if size <? 0 then due.*1 else take (Z.to_nat size) due.*1.

Lemma due_members_sub r n now size : NoDup (due_members r n now size) /\ forall m, m ∈ due_members r n now size -> m ∈ delayed r n.
Proof.
  assert (Hperm : by_score (zset_of r n) ≡ₚ map_to_list (zset_of r n)) by apply merge_sort_Permutation.
  set (due := filter (fun p : string * Z => p.2 <= lua_num now) (by_score (zset_of r n))).
  assert (Hsub : due.*1 `sublist_of` (by_score (zset_of r n)).*1) by apply fmap_sublist, sublist_filter.
  assert (Hnd : NoDup (by_score (zset_of r n)).*1) by (rewrite Hperm; apply NoDup_fst_map_to_list).
  assert (Hs : due_members r n now size `sublist_of` (by_score (zset_of r n)).*1).
  { unfold due_members. fold due. destruct (size <? 0); [done|]. etrans; [apply sublist_take|done]. }
  split; [by eapply sublist_NoDup|]. intros m Hm. unfold delayed. rewrite <- Hperm. by eapply sublist_subseteq.
Qed.

Lemma server_ok_same r r' l : (forall k, xlookup r' k = xlookup r k) -> server_ok r l -> server_ok r' l.
Proof.
  intros Hsame [Hs Hw Hz Hm Hsum].
  assert (Hso : forall n, stream_of r' n = stream_of r n) by (intros n; unfold stream_of; by rewrite Hsame).
  assert (Hd : forall n, delayed r' n = delayed r n) by (intros n; unfold delayed, zset_of; by rewrite Hsame).
  split; intros n; rewrite ?Hsame, ?Hso, ?Hd; auto.
Qed.

Lemma serve_promote r l n now size t :
  server_ok r l ->
  exists r', serve (EvalPromote (delayedKey q n) (streamKey q n) now size taskField) t r
             = (r', inl (XInt (Z.of_nat (length (due_members r n now size))))) /\
    promoted r r' l n (due_members r n now size).
Proof.
  intros Hok. cbn [serve]. unfold promoteScript, sbind.
  destruct (xcall_step r t (delayedKey q n) (ZRANGEBYSCORE now size) _ eq_refl) as (r1 & new & k & -> & _ & Hl & Hf).
  assert (Hsame : forall k', xlookup r1 k' = xlookup r k').
  { intros k'. destruct (decide (k' = delayedKey q n)) as [->|Hne]; [|by apply Hf]. rewrite Hl.
    destruct (so_zset _ _ Hok n) as [E|[z E]]; rewrite E; done. }
  assert (Hrep : exists e, (xcmd_spec new k t (ZRANGEBYSCORE now size) (xlookup r (delayedKey q n))).2 = XMembers e /\
                    e = due_members r n now size).
  { unfold due_members, zset_of. destruct (so_zset _ _ Hok n) as [E|[z E]]; rewrite E; cbn [xcmd_spec snd].
    - exists []. split; [done|]. unfold by_score. rewrite map_to_list_empty. cbn. by rewrite take_nil, Tauto.if_same.
    - eexists. split; [reflexivity|done]. }
  destruct Hrep as (e & -> & ->). pose proof (server_ok_same r r1 l Hsame Hok) as Hok1.
  assert (Hd1 : delayed r1 n = delayed r n) by (unfold delayed, zset_of; by rewrite Hsame).
  assert (Hso : forall n', stream_of r1 n' = stream_of r n') by (intros n'; unfold stream_of; by rewrite Hsame).
  destruct (due_members_sub r n now size) as [Hnd Hsub].
  destruct (promote_all r1 l n (due_members r n now size) t Hok1 Hnd) as (r' & -> & [Hok' Hst Hd Hg Hv]).
  { intros m Hm. rewrite Hd1. by apply Hsub. }
  exists r'. split; [reflexivity|]. split; [done| |by rewrite <- Hd1| |].
  - intros n'. destruct (Hst n') as [new' Hn]. exists new'. by rewrite <- Hso.
  - intros n'. by rewrite <- Hso.
  - by rewrite <- Hso.
Qed.

(** When delayed tasks move.  An entry stored for the instant [av] moves at the
    first promotion at or after [av], and never more than 1024 nanoseconds before:
    scores are doubles, whose unit is that large at the end of the range. *)
Theorem redis_delay_bounds r n m av now size :
  zset_of r n !! m = Some (lua_num (UnixNano av)) ->
  0 < av - unixEpoch <= maxInt64 -> 0 < now - unixEpoch <= maxInt64 ->
  Z.of_nat (length (delayed r n)) <= size ->
  (av <= now -> m ∈ due_members r n (UnixNano now) size) /\
  (m ∈ due_members r n (UnixNano now) size -> av - now <= 1024).
Proof.
  intros Hm Hav Hnow Hsize. unfold UnixNano in *. rewrite wrap64_id in Hm by int_lia. rewrite wrap64_id by int_lia.
  set (a := av - unixEpoch) in *. set (b := now - unixEpoch) in *. replace (av - now) with (a - b) by lia.
  assert (Hperm : by_score (zset_of r n) ≡ₚ map_to_list (zset_of r n)) by apply merge_sort_Permutation.
  assert (Hall : due_members r n b size = (filter (fun p => p.2 <= lua_num b) (by_score (zset_of r n))).*1).
  { unfold due_members. destruct (Z.ltb_spec size 0); [done|]. apply take_ge.
    apply Nat2Z.inj_le. rewrite Z2Nat.id by done. etrans; [|exact Hsize]. unfold delayed.
    rewrite !length_fmap, <- Hperm. apply inj_le, sublist_length, sublist_filter. }
  rewrite Hall. split.
  - intros Hle. apply list_elem_of_fmap. exists (m, lua_num a). split; [done|]. apply list_elem_of_filter.
    split; [apply lua_num_mono; lia|]. rewrite Hperm. by apply elem_of_map_to_list.
  - intros ([m' sc] & -> & Hin)%list_elem_of_fmap. apply list_elem_of_filter in Hin as [Hle Hin].
    rewrite Hperm in Hin. apply elem_of_map_to_list in Hin. cbn in Hm, Hle. rewrite Hm in Hin. injection Hin as <-.
    pose proof (lua_num_near a ltac:(lia)). pose proof (lua_num_near b ltac:(lia)).
    pose proof (unit_int64 a ltac:(lia) ltac:(lia)). pose proof (unit_int64 b ltac:(lia) ltac:(lia)). lia.
Qed.

(** Every request of a client keeps the server in order. *)
Lemma serve_step r l rq t :
  server_ok r l -> rq_ok rq -> (forall n, NoDup (members n (l ++ [rq]))) ->
  exists r' a, serve rq t r = (r', a) /\ server_ok r' (l ++ [rq]) /\ streams_step r r' (fun n => acked1 n rq) /\
    (forall n c ms, rq = Send (streamKey q n) c -> a = inl (XMsgs ms) -> Forall (fun m => m ∈ entries (stream_of r n)) ms).
Proof.
  intros Hok Hrq Hnd. destruct rq as [k c|d st now size f].
  - destruct Hrq as [(n & -> & Hc & _)|[(n & sc & m & p & -> & -> & Hp & _)|(n & v & ml & -> & ->)]].
    + destruct (serve_stream r l n c t Hok Hc) as (r' & a & -> & Hok' & Hst & Hms). exists r', a. split_and!; [done..|].
      intros n' c' ms E. injection E as ->%streamKey_inj <-. apply Hms.
    + destruct (serve_delayed r l n sc m p t Hok Hp) as (r' & a & -> & Hok' & Hst & Hms).
      { specialize (Hnd n). rewrite members_snoc in Hnd. cbn in Hnd. rewrite decide_True in Hnd by done.
        apply NoDup_app in Hnd as (_ & Hnd & _). intros Hin. apply (Hnd m Hin). by left. }
      exists r', a. split_and!; [done..|]. intros n' c' ms _ E. by destruct (Hms ms).
    + destruct (serve_dead r l n v ml t Hok) as (r' & a & -> & Hok' & Hst & Hms). exists r', a. split_and!; [done..|].
      intros n' c' ms _ E. by destruct (Hms ms).
  - destruct Hrq as (n & -> & -> & ->).
    destruct (serve_promote r l n now size t Hok) as (r' & -> & [[Hs Hw Hz Hm Hsum] Hst _ _ _]).
    eexists r', _. split; [done|]. split; [|split; [done|intros n' c' ms E; done]]. split; [done..| |].
    + intros n' m Hin. rewrite members_snoc. cbn. rewrite app_nil_r. by apply Hm.
    + intros n'. rewrite added_snoc. cbn. by rewrite app_nil_r.
Qed.

(** ** Programs *)

Abbreviation history := (list (request * answer)).

Lemma obeys_send {B} P (Q : history -> B -> Prop) h k c (f : answer -> prog B) :
  P h (Send k c) -> (forall a, obeys P Q (h ++ [(Send k c, a)]) (f (result a))) ->
  obeys P Q h (pbind (send k c) f).
Proof. intros HP Hk. cbn. done. Qed.

(** Why an operation may acknowledge the message [id] of the stream [k]. *)
Definition justified (o : operation) (h : history) (k id : string) : Prop :=
  match o with
  | OpReceive name _ _ =>
      k = streamKey q name /\
      exists c ms m, (Send k c, inl (XMsgs ms)) ∈ h /\ m ∈ ms /\ mid m = id /\ decode_fields (values m) = None
  | OpAck d => k = streamKey q (QueueName (dTask d)) /\ id = streamID d
  | OpRetry now src delay d =>
      k = streamKey q (QueueName (dTask d)) /\ id = streamID d /\
      exists data rq x, Marshal (with_available (now + delay) (dTask d)) = inl data /\ (rq, inl x) ∈ h /\
        added1 (QueueName (dTask d)) rq = [task_fields data]
  | OpDeadLetter reason d =>
      k = streamKey q (QueueName (dTask d)) /\ id = streamID d /\
      exists data ml x, Marshal (dTask d) = inl data /\
        (Send (deadLetterKey q (QueueName (dTask d))) (XADD (<[taskField := data]> {[deadReasonField := reason]}) ml), inl x) ∈ h
  | _ => False
  end.

Definition allowed (o : operation) (h : history) (rq : request) : Prop :=
  rq_ok rq /\ match rq with Send k (XACK _ id) => justified o h k id | _ => True end.

(** A delivery is a message of the stream it was received from. *)
Definition delivery_of (name : string) (h : history) (d : redisDelivery) : Prop :=
  exists c ms m n, (Send (streamKey q name) c, inl (XMsgs ms)) ∈ h /\ m ∈ ms /\
    leaseFromMessageWithDeliveryCount m n = inl d.

Definition finished (o : operation) (h : history) (r : outcome) : Prop :=
  match o, r with
  | OpReceive name _ _, Delivered (inl d) => delivery_of name h d
  | OpEnqueue _ (Some t), Done None =>
      let name := queue_or_default (QueueName t) in
      exists data rq x, Marshal (with_queue name t) = inl data /\ (rq, inl x) ∈ h /\ added1 name rq = [task_fields data]
  | _, Delivered (inl _) => False
  | _, _ => True
  end.

Definition op_ok (o : operation) : Prop :=
  match o with
  | OpEnqueue _ (Some t) => valid (queue_or_default (QueueName t))
  | OpReceive n _ _ => valid n /\ n <> ""%string
  | OpAck d | OpRetry _ _ _ d | OpDeadLetter _ d => valid (QueueName (dTask d)) /\ QueueName (dTask d) <> ""%string
  | OpForeign rq => foreign_ok rq
  | _ => True
  end.

Lemma result_inl a x : result a = inl x -> a = inl x.
Proof. destruct a as [[]|]; cbn; congruence. Qed.

Lemma lease_error m n e :
  leaseFromMessageWithDeliveryCount m n = inr e -> decode_fields (values m) = None /\ exists err, e = Malformed (mid m) err.
Proof.
  unfold leaseFromMessageWithDeliveryCount, decode_fields. cbn [values].
  destruct (values m !! taskField); [destruct (Unmarshal s)|]; intros [= <-]; eauto.
Qed.

Lemma lease_ok m n d :
  leaseFromMessageWithDeliveryCount m n = inl d ->
  exists t, decode_fields (values m) = Some t /\ streamID d = mid m /\
    dTask d = with_attempt (attemptWithDeliveryCount (Attempt_ t) n) t.
Proof.
  unfold leaseFromMessageWithDeliveryCount, decode_fields. cbn [values].
  destruct (values m !! taskField); [destruct (Unmarshal s)|]; intros [= <-]; eauto.
Qed.

(** ** The invariant of the interleavings *)

Section Laws.
(** JSON carries the queue's name; the server's Lua finds the task in an entry. *)
Hypothesis json_queue : forall t data, valid (QueueName t) -> Marshal t = inl data ->
  exists t', Unmarshal data = inl t' /\ QueueName t' = QueueName t.
Hypothesis entry_decodes : forall id data e, MarshalEntry id data = inl e ->
  exists get, decode e = Some (LTable get) /\ get "task"%string = LStr data.

Lemma marshal_fields_ok t data : valid (QueueName t) -> Marshal t = inl data -> fields_ok (QueueName t) (task_fields data).
Proof.
  intros Hv Hm t' Ht'. destruct (json_queue t data Hv Hm) as (t1 & Hu & Hq).
  unfold decode_fields, task_fields in Ht'. cbn [values] in Ht'. rewrite lookup_singleton_eq, Hu in Ht'. congruence.
Qed.

Lemma queue_named task :
  let task' := if String.eqb (QueueName task) "" then with_queue DefaultQueue task else task in
  QueueName task' = queue_or_default (QueueName task) /\ (QueueName task <> ""%string -> task' = task).
Proof. unfold queue_or_default. cbv zeta. destruct (String.eqb_spec (QueueName task) ""); done. Qed.

(** [Enqueue] sends at most one request, which adds the task. *)
Lemma Enqueue_obeys P (Q : history -> option error -> Prop) h src task :
  let name := queue_or_default (QueueName task) in
  valid name ->
  (forall rq, rq_ok rq -> (forall k g id, rq <> Send k (XACK g id)) -> P h rq) ->
  (forall e, Q h (Some e)) ->
  (forall rq a data, Marshal (with_queue name task) = inl data -> added1 name rq = [task_fields data] ->
     Q (h ++ [(rq, a)]) (failed (result a))) ->
  obeys P Q h (Enqueue q src (Some task)).
Proof.
  intros name Hv HP Hfail Hdone. unfold Enqueue. cbn [Clone].
  destruct (queue_named task) as [Hn _]. cbv zeta in Hn. set (task' := if String.eqb _ _ then _ else _) in *.
  assert (Ht' : task' = with_queue name task).
  { unfold name. rewrite <- Hn. subst task'. destruct (String.eqb _ _); [done|by destruct task]. }
  destruct (Marshal task') as [data|e] eqn:Em; [|apply Hfail].
  assert (Hf : fields_ok name (task_fields data)).
  { unfold name. rewrite <- Hn. apply marshal_fields_ok; [by rewrite Hn|done]. }
  rewrite Hn. fold name. rewrite Ht' in Em. destruct (AvailableAt task' >? now1 src).
  - destruct (newDelayedEntry src data) as [entry|e] eqn:Ee; [|apply Hfail].
    assert (Hp : payload_of entry = inl data).
    { unfold newDelayedEntry in Ee. destruct (random src); [|done]. apply entry_decodes in Ee as (get & Hd & Hg).
      unfold payload_of. by rewrite Hd, Hg. }
    apply obeys_send; [apply HP; [|done]; right; left; by exists name, (lua_num (UnixNano (AvailableAt task'))), entry, data|].
    intros a. apply (Hdone _ _ data Em). cbn. rewrite decide_True by done. unfold member_fields, task_fields. by rewrite Hp.
  - apply obeys_send; [apply HP; [|done]; left; exists name; split_and!; [done|done|by intros ? ? [= <- <-]]|].
    intros a. apply (Hdone _ _ data Em). cbn. by rewrite decide_True.
Qed.

Section Receiving.
Variables (name co : string) (now : Z).
Local Abbreviation P := (allowed (OpReceive name co now)).

(** A message seen in [h] that is malformed. *)
Definition malformed_in (h : history) (id : string) : Prop :=
  exists c ms m, (Send (streamKey q name) c, inl (XMsgs ms)) ∈ h /\ m ∈ ms /\ mid m = id /\ decode_fields (values m) = None.

Definition received (h : history) (r : redisDelivery + receive_error) : Prop :=
  match r with
  | inl d => delivery_of name h d
  | inr (Malformed id _) => malformed_in h id
  | inr (Plain _) => True
  end.
Definition claimed (h : history) (r : option redisDelivery + receive_error) : Prop :=
  match r with
  | inl (Some d) => received h (inl d)
  | inl None => True
  | inr e => received h (inr e)
  end.

Lemma received_more h h' r : received h r -> received (h ++ h') r.
Proof.
  destruct r as [d|[id e|e]]; cbn; [|..|done].
  - intros (c & ms & m & n & Hin & Hm & Hl). exists c, ms, m, n. split_and!; [apply elem_of_app; by left|done..].
  - intros (c & ms & m & Hin & Hm & Hid). exists c, ms, m. split; [apply elem_of_app; by left|done].
Qed.

(** The answer that brought message [m]. *)
Lemma received_lease h c ms m n :
  (Send (streamKey q name) c, inl (XMsgs (m :: ms))) ∈ h -> received h (leaseFromMessageWithDeliveryCount m n).
Proof.
  intros Hin. destruct (leaseFromMessageWithDeliveryCount m n) as [d|e] eqn:El; cbn.
  - exists c, (m :: ms), m, n. split_and!; [done|by left|done].
  - destruct (lease_error m n e El) as [Hd [err ->]]. exists c, (m :: ms), m. split_and!; [done|by left|done|done].
Qed.

Lemma stream_rq c : stream_cmd (group_ q) c = true -> (forall v ml, c <> XADD v ml) -> rq_ok (Send (streamKey q name) c).
Proof. intros Hc Hx. left. exists name. split_and!; [done|done|]. intros v ml E. by destruct (Hx v ml). Qed.

Lemma ackMalformed_obeys h id Q :
  malformed_in h id -> (forall h' e, Q (h ++ h') e) -> obeys P Q h (ackMalformed q name id).
Proof.
  intros Hm HQ. unfold ackMalformed. destruct (String.eqb id "").
  { cbn. rewrite <- (app_nil_r h). apply HQ. }
  apply obeys_send; [|intros a; apply HQ]. split; [apply stream_rq; [by apply bool_decide_eq_true|done]|]. by split.
Qed.

Lemma readNew_obeys h : obeys P received h (readNew q name co).
Proof.
  apply obeys_send; [split; [apply stream_rq; [by apply bool_decide_eq_true|done]|done]|]. intros a.
  destruct (result a) as [x|err] eqn:Ea; [|done]. apply result_inl in Ea. subst a.
  destruct x as [| | | |[|m ms]| | |]; try done.
  assert (Hr : forall h', received ((h ++ [(Send (streamKey q name) (XREADGROUP (group_ q) co), inl (XMsgs (m :: ms)))]) ++ h')
                 (leaseFromMessage m)).
  { intros h'. apply received_more. eapply (received_lease _ _ ms). apply elem_of_app. right. by left. }
  destruct (leaseFromMessage m) as [d|e] eqn:El; [specialize (Hr []); by rewrite app_nil_r in Hr|].
  destruct (lease_error m 0 e El) as [Hd [err ->]].
  apply (obeys_bind _ (fun h' _ => received h' (inr (Malformed (mid m) err)))); [|by intros h' ? ?].
  apply ackMalformed_obeys; [specialize (Hr []); by rewrite app_nil_r in Hr|]. intros h' _. apply Hr.
Qed.

Lemma leaseClaimed_obeys h c ms m :
  (Send (streamKey q name) c, inl (XMsgs (m :: ms))) ∈ h ->
  obeys P claimed h (do r <- leaseFromClaimedMessage q name m; Ret (lift r)).
Proof.
  intros Hin. apply (obeys_bind _ received).
  - apply (obeys_bind _ (fun h' _ => (Send (streamKey q name) c, inl (XMsgs (m :: ms))) ∈ h')).
    + apply obeys_send; [split; [apply stream_rq; [by apply bool_decide_eq_true|done]|done]|].
      intros a. cbn. apply elem_of_app. by left.
    + intros h' [n|e] Hin'; [by eapply received_lease|done].
  - intros h' [d|e]; cbn; auto.
Qed.

Lemma claim_obeys h minIdle : obeys P claimed h (claimPendingForConsumer q name co minIdle).
Proof.
  apply obeys_send; [split; [apply stream_rq; [by apply bool_decide_eq_true|done]|done]|]. intros a.
  assert (Hx : forall h', obeys P claimed h' (claimPendingWithXClaim q name co minIdle)).
  { intros h'. apply obeys_send; [split; [apply stream_rq; [by apply bool_decide_eq_true|done]|done]|]. intros a'.
    destruct (result a') as [x|err]; [|by cbn; destruct (errors_Is _ _)].
    destruct x as [| | | | |[|p ps]| |]; try done.
    apply obeys_send; [split; [apply stream_rq; [by apply bool_decide_eq_true|done]|done]|]. intros a''.
    destruct (result a'') as [x|err] eqn:Ea; [|by cbn; destruct (errors_Is _ _)].
    apply result_inl in Ea. subst a''. destruct x as [| | | |[|m ms]| | |]; try done.
    eapply leaseClaimed_obeys. apply elem_of_app. right. by left. }
  destruct (result a) as [x|err] eqn:Ea; [|by cbn; destruct (errors_Is _ _)].
  apply result_inl in Ea. subst a. destruct x as [| | | |[|m ms]| | |]; try apply Hx.
  eapply leaseClaimed_obeys. apply elem_of_app. right. by left.
Qed.

Lemma receive_obeys h : obeys P received h (receiveForConsumer q name co now).
Proof.
  apply (obeys_bind _ (fun _ _ => True)).
  { cbn. split; [|done]. split; [by exists name|done]. }
  intros h' [err|] _; [done|]. destruct (claimMinIdle q >? 0); [|apply readNew_obeys].
  eapply obeys_bind; [apply claim_obeys|]. intros h1 [[d|]|[id err|err]] Hc; [done|apply readNew_obeys| |done].
  apply (obeys_bind _ (fun h' _ => received h' (inr (Malformed id err)))); [|by intros h2 ? ?].
  apply ackMalformed_obeys; [done|]. intros h2 _. by apply received_more.
Qed.
End Receiving.

Lemma failed_None a : failed (result a) = None -> exists x, a = inl x.
Proof. destruct a as [[]|]; cbn; eauto; done. Qed.

Lemma Lease_Ack_obeys o h d :
  justified o h (streamKey q (QueueName (dTask d))) (streamID d) -> (forall h' e, finished o h' (Done e)) ->
  obeys (allowed o) (fun h' e => finished o h' (Done e)) h (Lease_Ack q d).
Proof.
  intros Hj Hf. unfold Lease_Ack. destruct (String.eqb _ _); [apply Hf|].
  apply obeys_send; [|intros a; apply Hf]. split; [apply stream_rq; [by apply bool_decide_eq_true|done]|done].
Qed.

Lemma retry_obeys now src delay d :
  valid (QueueName (dTask d)) -> QueueName (dTask d) <> ""%string ->
  let o := OpRetry now src delay d in
  obeys (allowed o) (fun h' e => finished o h' (Done e)) [] (Lease_Retry q now src delay d).
Proof.
  intros Hv Hne o. assert (Hn : queue_or_default (QueueName (dTask d)) = QueueName (dTask d)).
  { unfold queue_or_default. by destruct (String.eqb_spec (QueueName (dTask d)) ""). }
  set (t := with_available (now + delay) (dTask d)). assert (Ht : with_queue (QueueName (dTask d)) t = t) by by destruct d as [[]].
  apply (obeys_bind _ (fun h e => e = None -> exists data rq x, Marshal t = inl data /\ (rq, inl x) ∈ h /\
           added1 (QueueName (dTask d)) rq = [task_fields data])).
  - apply Enqueue_obeys; cbn [QueueName with_available]; rewrite ?Hn; [done|..].
    + intros rq Hrq Hx. split; [done|]. destruct rq as [k []|]; try done. by destruct (Hx k g id).
    + done.
    + intros rq a data Hm Ha [x ->]%failed_None. fold t in Hm. rewrite Ht in Hm. exists data, rq, x.
      split_and!; [done|by left|done].
  - intros h [e|] Hx; [done|]. apply Lease_Ack_obeys; [|done]. split_and!; [done|done|]. by apply Hx.
Qed.

Lemma deadLetter_obeys reason d :
  let o := OpDeadLetter reason d in
  obeys (allowed o) (fun h' e => finished o h' (Done e)) [] (Lease_DeadLetter q reason d).
Proof.
  intros o. unfold Lease_DeadLetter. destruct (Marshal (dTask d)) as [data|e] eqn:Em; [|done].
  set (ml := if deadLetterMaxLen q >? 0 then _ else _).
  apply obeys_send.
  { split; [|done]. right. right. by eexists _, _, _. }
  intros a. destruct (failed (result a)) as [e|] eqn:Ef; [done|]. apply failed_None in Ef as [x ->].
  apply Lease_Ack_obeys; [|done]. split_and!; [done|done|]. exists data, ml, x. split; [done|]. by left.
Qed.

Lemma code_obeys o : op_ok o -> obeys (allowed o) (finished o) [] (code_of o).
Proof.
  destruct o as [src [t|]|cfg|name co now|d|now src delay d|reason d|rq]; cbn [op_ok code_of]; intros Hok.
  - apply (obeys_bind _ (fun h e => finished (OpEnqueue src (Some t)) h (Done e))); [|done].
    apply Enqueue_obeys; [done| |done|].
    + intros rq Hrq Hx. split; [done|]. destruct rq as [k []|]; try done. by destruct (Hx k g id).
    + intros rq a data Hm Ha. destruct (failed (result a)) eqn:Ef; [done|]. apply failed_None in Ef as [x ->].
      exists data, rq, x. split_and!; [done|by left|done].
  - done.
  - apply (obeys_bind _ (fun _ _ => True)); [|done]. unfold NewConsumer.
    apply (obeys_bind _ (fun _ _ => True)); [|done].
    apply obeys_send; [|done]. split; [apply stream_rq; [by apply bool_decide_eq_true|done]|done].
  - eapply obeys_bind; [apply receive_obeys|]. by intros h [d|[]].
  - eapply obeys_bind; [by apply Lease_Ack_obeys|]. done.
  - destruct Hok. eapply obeys_bind; [by apply retry_obeys|]. done.
  - eapply obeys_bind; [apply deadLetter_obeys|]. done.
  - cbn. split; [|done]. split; [|destruct rq as [k []|]; try done].
    destruct rq as [k c|]; [|done]. cbn in Hok |- *. destruct c as [v [ml|]| | | | | | |sc m| |]; try done.
    + destruct Hok as (n & -> & Hf). left. exists n. split_and!; [done|done|]. by intros ? ? [= <- <-].
    + destruct Hok as (n & p & -> & Hp & Hf). right. left. by exists n, sc, m, p.
Qed.

Definition settles (o : operation) : option redisDelivery :=
  match o with OpAck d | OpRetry _ _ _ d | OpDeadLetter _ d => Some d | _ => None end.

(** What a request and its answer say of the present server. *)
Definition seen_ok (s : system) (rq : request) (a : answer) : Prop :=
  (forall x, a = inl x -> rq ∈ log s) /\
  (forall n c ms, rq = Send (streamKey q n) c -> a = inl (XMsgs ms) ->
     Forall (fun m => m ∈ entries (stream_of (srv s) n)) ms).

Record thread_ok (s : system) (th : thread) : Prop := {
  to_op : op_ok (op th);
  to_code : follows (code_of (op th)) (seen th) (code th);
  to_delivered d : settles (op th) = Some d -> was_delivered (threads s) d;
  to_seen rq a : (rq, a) ∈ seen th -> seen_ok s rq a
}.

(** A request of the thread: sent and answered, or being sent. *)
Definition asked (th : thread) (rq : request) : Prop :=
  (exists a, (rq, a) ∈ seen th) \/ exists k, code th = Call rq k.

Definition ack_sent (s : system) (n : string) (id : string) : Prop :=
  exists th, th ∈ threads s /\ asked th (Send (streamKey q n) (XACK (group_ q) id)).

Record inv (s : system) : Prop := {
  inv_srv : server_ok (srv s) (log s);
  inv_log : Forall rq_ok (log s);
  inv_threads : Forall (thread_ok s) (threads s);
  inv_acked n m : m ∈ delivered (group_ q) (stream_of (srv s) n) -> mid m ∉ pids (group_ q) (stream_of (srv s) n) ->
    ack_sent s n (mid m)
}.

Lemma entries_ok r l n m :
  server_ok r l -> Forall rq_ok l -> m ∈ entries (stream_of r n) -> fields_ok n (values m).
Proof.
  intros Hok Hl Hm. assert (Hin : values m ∈ added n l).
  { rewrite <- (so_sum _ _ Hok n). apply elem_of_app. left. by apply list_elem_of_fmap_2. }
  unfold added in Hin. apply list_elem_of_bind in Hin as (rq & Hin & Hrq). rewrite Forall_forall in Hl. specialize (Hl rq Hrq).
  destruct rq as [k c|]; [|by apply not_elem_of_nil in Hin].
  destruct c as [v ml| | | | | | |sc x| |]; cbn in Hin; try by apply not_elem_of_nil in Hin.
  - case_decide as E; [|by apply not_elem_of_nil in Hin]. apply list_elem_of_singleton in Hin as ->. subst k.
    destruct Hl as [(n' & ->%streamKey_inj & _ & Hf)|[(n' & ? & ? & ? & _ & ? & _)|(n' & ? & ? & E & _)]];
      [by eapply Hf|done|by apply stream_dead in E].
  - case_decide as E; [|by apply not_elem_of_nil in Hin]. apply list_elem_of_singleton in Hin as ->. subst k.
    destruct Hl as [(n' & E & _)|[(n' & sc' & m' & p & ->%delayedKey_inj & [= <- <-] & Hp & Hf)|(n' & v & ml & _ & ?)]].
    + symmetry in E. by apply stream_delayed in E.
    + unfold member_fields. by rewrite Hp.
    + done.
Qed.

(** What a delivery that was made is. *)
Lemma delivered_facts s d :
  server_ok (srv s) (log s) -> Forall rq_ok (log s) -> Forall (thread_ok s) (threads s) -> was_delivered (threads s) d ->
  let n := QueueName (dTask d) in
  valid n /\ n <> ""%string /\
  exists m k, m ∈ entries (stream_of (srv s) n) /\ leaseFromMessageWithDeliveryCount m k = inl d.
Proof.
  intros Hsrv Hlog Hth (th & Hin & Hcode). rewrite Forall_forall in Hth. destruct (Hth th Hin) as [Hop Hf _ Hseen].
  destruct (follows_obeys _ _ _ _ [] _ (code_obeys _ Hop) Hf) as [Hfin _]. rewrite Hcode in Hfin. cbn in Hfin.
  destruct (op th) as [? []|?|name co now|?|? ? ? ?|? ?|?]; cbn in Hfin; try done.
  destruct Hfin as (c & ms & m & k & Hh & Hm & Hl). destruct (Hseen _ _ Hh) as [_ Hs].
  specialize (Hs name c ms eq_refl eq_refl). rewrite Forall_forall in Hs. specialize (Hs m Hm).
  destruct (lease_ok m k d Hl) as (t & Hd & _ & Ht).
  assert (Hq : QueueName (dTask d) = name).
  { rewrite Ht. cbn. by apply (entries_ok _ _ _ _ Hsrv Hlog Hs). }
  cbv zeta. rewrite Hq. destruct Hop. split_and!; [done|done|]. by exists m, k.
Qed.

(** Moving on keeps what was known. *)
Lemma seen_ok_mono s s' rq a :
  (forall n, exists new, entries (stream_of (srv s') n) = entries (stream_of (srv s) n) ++ new) ->
  (forall x, x ∈ log s -> x ∈ log s') -> seen_ok s rq a -> seen_ok s' rq a.
Proof.
  intros He Hl [H1 H2]. split; [by eauto|]. intros n c ms E1 E2. destruct (He n) as [new ->].
  eapply Forall_impl; [by eapply H2|]. cbn. intros m Hm. apply elem_of_app. by left.
Qed.

Lemma transmit_cases f rq t r r' a sent :
  transmit f rq t r = (r', a, sent) ->
  (sent = [] /\ r' = r /\ exists e, a = inr e) \/
  (sent = [rq] /\ r' = (serve rq t r).1 /\ (a = (serve rq t r).2 \/ exists e, a = inr e)).
Proof.
  destruct f as [[e|e]|]; cbn; [intros [= <- <- <-]; left; eauto|intros [= <- <- <-]; right; eauto|].
  destruct (serve rq t r) as [r1 a1]. intros [= <- <- <-]. right. eauto.
Qed.

(** What a request of a client leaves behind. *)
Lemma call_server s rq o h f t r a sent :
  inv s -> allowed o h rq -> transmit f rq t (srv s) = (r, a, sent) -> (forall n, NoDup (members n (log s ++ sent))) ->
  let s' := mkSystem r (threads s) (log s ++ sent) in
  server_ok r (log s ++ sent) /\ Forall rq_ok (log s ++ sent) /\ streams_step (srv s) r (fun n => acked1 n rq) /\
  seen_ok s' rq a.
Proof.
  intros [Hsrv Hlog _ _] [Hrq _] Ht Hnd s'.
  destruct (transmit_cases _ _ _ _ _ _ _ Ht) as [(-> & -> & e & ->)|(-> & Er & Ha)].
  { rewrite app_nil_r in *. split_and!; [done|done|apply streams_same; [done|apply Hsrv]|by split]. }
  destruct (serve_step (srv s) (log s) rq t Hsrv Hrq Hnd) as (r1 & a1 & Es & Hok & Hst & Hms).
  rewrite Es in Er, Ha. cbn in Er, Ha. subst r1.
  split_and!; [done|apply Forall_app; split; [done|by constructor]|done|]. split.
  - intros x _. cbn. apply elem_of_app. right. by left.
  - intros n c ms -> ->. destruct Ha as [<-|[e ?]]; [|done]. cbn. destruct (Hst n) as [new [_ -> _ _]].
    eapply Forall_impl; [by apply (Hms n c ms)|]. cbn. intros m Hm. apply elem_of_app. by left.
Qed.

Lemma was_delivered_insert ts i th th' d :
  ts !! i = Some th -> (forall r, code th <> Ret r) -> was_delivered ts d -> was_delivered (<[i := th']> ts) d.
Proof.
  intros Hi Hc (x & Hx & Hcx). exists x. split; [|done]. apply list_elem_of_lookup in Hx as [j Hj].
  apply list_elem_of_lookup. exists j. rewrite list_lookup_insert_ne; [done|]. intros ->. rewrite Hi in Hj. simplify_eq.
  by apply (Hc (Delivered (inl d))).
Qed.

Lemma ack_sent_insert s i th th' r l n id :
  threads s !! i = Some th -> (forall rq, asked th rq -> asked th' rq) -> ack_sent s n id ->
  ack_sent (mkSystem r (<[i := th']> (threads s)) l) n id.
Proof.
  intros Hi Hmono (x & Hx & Ha). apply list_elem_of_lookup in Hx as [j Hj].
  assert (Hlt : (i < length (threads s))%nat) by (by eapply lookup_lt_Some).
  destruct (decide (i = j)) as [<-|Hne].
  - rewrite Hi in Hj. simplify_eq. exists th'. split; [|by apply Hmono].
    apply list_elem_of_lookup. exists i. by apply list_lookup_insert_eq.
  - exists x. split; [|done]. apply list_elem_of_lookup. exists j. cbn. by rewrite list_lookup_insert_ne.
Qed.

(** Only an acknowledgement acknowledges. *)
Lemma acked_by o h rq n id : allowed o h rq -> id ∈ acked1 n rq -> rq = Send (streamKey q n) (XACK (group_ q) id).
Proof.
  intros Hal Hm. destruct rq as [key c|]; cbn in Hm; [|by apply not_elem_of_nil in Hm].
  case_decide as E; [|by apply not_elem_of_nil in Hm]. subst key.
  destruct c; cbn in Hm; try by apply not_elem_of_nil in Hm. apply list_elem_of_singleton in Hm as ->.
  destruct Hal as [[(n' & _ & Hc & _)|[(n' & ? & ? & ? & _ & ? & _)|(n' & ? & ? & _ & ?)]] _]; [|done|done].
  cbn in Hc. by apply bool_decide_eq_true in Hc as ->.
Qed.

Lemma thread_ok_mono s s' th :
  (forall rq a, seen_ok s rq a -> seen_ok s' rq a) -> (forall d, was_delivered (threads s) d -> was_delivered (threads s') d) ->
  thread_ok s th -> thread_ok s' th.
Proof. intros Hmono Hwd [? ? Hd Hs]. split; [done|done|by eauto|by eauto]. Qed.

Lemma inv_call s i o rq k h f t r a sent :
  inv s -> threads s !! i = Some (mkThread o (Call rq k) h) -> transmit f rq t (srv s) = (r, a, sent) ->
  (forall n, NoDup (members n (log s ++ sent))) ->
  inv (mkSystem r (<[i := mkThread o (k a) (h ++ [(rq, a)])]> (threads s)) (log s ++ sent)).
Proof.
  intros Hinv Hi Ht Hnd. destruct Hinv as [Hsrv Hlog Hth Hack] eqn:Einv. clear Einv.
  pose proof (proj1 (Forall_lookup _ _) Hth i _ Hi) as [Hop Hf Hdel Hseen]. cbn in Hop, Hf, Hdel, Hseen.
  destruct (follows_obeys _ _ _ _ [] _ (code_obeys _ Hop) Hf) as [[Hal _] _]. cbn in Hal.
  destruct (call_server s rq o h f t r a sent Hinv Hal Ht Hnd) as (Hsrv' & Hlog' & Hst & Hnew).
  set (s' := mkSystem _ _ _).
  assert (Hmono : forall rq a, seen_ok s rq a -> seen_ok s' rq a).
  { intros rq' a'. apply seen_ok_mono; [|intros x Hx; apply elem_of_app; by left].
    intros n. destruct (Hst n) as [new [_ He _ _]]. by exists new. }
  assert (Hwd : forall d, was_delivered (threads s) d -> was_delivered (threads s') d).
  { intros d. by eapply was_delivered_insert. }
  split; [done|done| |].
  - apply Forall_insert.
    + eapply Forall_impl; [exact Hth|]. intros th. by apply thread_ok_mono.
    + split; cbn [op code seen]; [done|by apply follows_snoc|by eauto|]. intros rq' a' [Hin|Hin]%elem_of_app; [by eauto|].
      apply list_elem_of_singleton in Hin as [= -> ->]. exact Hnew.
  - intros n m Hm Hp. destruct (Hst n) as [new [_ _ _ Ha]].
    assert (Hlt : (i < length (threads s))%nat) by (by eapply lookup_lt_Some).
    destruct (Ha m Hm Hp) as [[Hm' Hp']|Hm'].
    + eapply ack_sent_insert; [exact Hi| |by apply Hack]. intros rq' [[a' Hx]|[k' [= <- _]]]; left; cbn.
      { exists a'. apply elem_of_app. by left. }
      exists a. apply elem_of_app. right. by apply list_elem_of_singleton.
    + exists (mkThread o (k a) (h ++ [(rq, a)])). split.
      { apply list_elem_of_lookup. exists i. by apply list_lookup_insert_eq. }
      left. exists a. rewrite <- (acked_by _ _ _ _ _ Hal Hm'). apply elem_of_app. right. by apply list_elem_of_singleton.
Qed.

Lemma inv_retry s i o rq k h t :
  inv s -> threads s !! i = Some (mkThread o (Call rq k) h) -> (forall n, NoDup (members n (log s ++ [rq]))) ->
  inv (mkSystem (serve rq t (srv s)).1 (threads s) (log s ++ [rq])).
Proof.
  intros Hinv Hi Hnd. destruct Hinv as [Hsrv Hlog Hth Hack] eqn:Einv. clear Einv.
  pose proof (proj1 (Forall_lookup _ _) Hth i _ Hi) as [Hop Hf _ _]. cbn in Hop, Hf.
  destruct (follows_obeys _ _ _ _ [] _ (code_obeys _ Hop) Hf) as [[Hal _] _]. cbn in Hal.
  destruct (call_server s rq o h (Some (NoReply (ErrNew ""))) t _ _ _ Hinv Hal eq_refl Hnd) as (Hsrv' & Hlog' & Hst & _).
  set (s' := mkSystem _ _ _). split; [done|done| |].
  - eapply Forall_impl; [exact Hth|]. intros th. apply thread_ok_mono; [|done]. intros rq' a'.
    apply seen_ok_mono; [|intros x Hx; apply elem_of_app; by left]. intros n. destruct (Hst n) as [new [_ He _ _]]. by exists new.
  - intros n m Hm Hp. destruct (Hst n) as [new [_ _ _ Ha]]. destruct (Ha m Hm Hp) as [[Hm' Hp']|Hm'].
    + destruct (Hack n m Hm' Hp') as (x & Hx & Hak). by exists x.
    + exists (mkThread o (Call rq k) h). split; [by eapply list_elem_of_lookup_2|]. right. exists k.
      by rewrite (acked_by _ _ _ _ _ Hal Hm').
Qed.

Lemma inv_start s o : inv s -> start_ok (threads s) o ->
  inv (mkSystem (srv s) (threads s ++ [mkThread o (code_of o) []]) (log s)).
Proof.
  intros [Hsrv Hlog Hth Hack] Hok. set (s' := mkSystem _ _ _).
  assert (Hwd : forall d, was_delivered (threads s) d -> was_delivered (threads s') d).
  { intros d (x & Hx & Hc). exists x. split; [apply elem_of_app; by left|done]. }
  assert (Hop : op_ok o).
  { destruct o as [? []|?|? ? ?|d|? ? ? d|? d|?]; cbn in Hok |- *; try done;
      pose proof (delivered_facts s d Hsrv Hlog Hth Hok) as (? & ? & _); done. }
  split; [done|done| |].
  - apply Forall_app. split.
    + eapply Forall_impl; [exact Hth|]. intros th [? ? Hd Hs]. split; [done|done|by eauto|done].
    + constructor; [|constructor]. split; cbn [op code seen]; [done|done| |by intros ? ? ?%not_elem_of_nil].
      intros d. destruct o; cbn; intros [= <-]; by apply Hwd.
  - intros n m Hm Hp. destruct (Hack n m Hm Hp) as (x & Hx & Ha). exists x. split; [apply elem_of_app; by left|done].
Qed.

Lemma inv_initial s : initial s -> inv s.
Proof.
  intros (Hs & Hz & Ht & Hl).
  assert (Hso : forall n, stream_of (srv s) n = mkStream [] ∅) by (intros n; unfold stream_of; by rewrite Hs).
  assert (Hd : forall n, delayed (srv s) n = []).
  { intros n. unfold delayed, zset_of. by rewrite Hz, map_to_list_empty. }
  split.
  - rewrite Hl. split; [by left; apply Hs| |by left; apply Hz| |].
    + intros n. rewrite Hso. apply empty_wf.
    + intros n m. rewrite Hd. by intros ?%not_elem_of_nil.
    + intros n. by rewrite Hso, Hd.
  - by rewrite Hl.
  - by rewrite Ht.
  - intros n m. rewrite Hso. unfold delivered. cbn. rewrite take_nil. by intros ?%not_elem_of_nil.
Qed.

Lemma members_prefix n l l' : NoDup (members n (l ++ l')) -> NoDup (members n l).
Proof. unfold members. rewrite bind_app. by intros [? _]%NoDup_app. Qed.

Lemma inv_reachable s : reachable s -> (forall n, NoDup (members n (log s))) -> inv s.
Proof.
  induction 1 as [s Hi|s s' Hr IH Hstep]; intros Hnd; [by apply inv_initial|]. destruct Hstep as [o Ho| |].
  - by apply inv_start; [apply IH|].
  - eapply inv_call; [apply IH|done|done|done]. intros n. eapply members_prefix, Hnd.
  - eapply inv_retry; [apply IH|done|done]. intros n. eapply members_prefix, Hnd.
Qed.

(** The message [m] of queue [n] was settled: by [Ack], after the retried task was
    added, after the dead letter was written, or as malformed. *)
Definition of_message (m : message) (d : redisDelivery) : Prop :=
  exists k, leaseFromMessageWithDeliveryCount m k = inl d.

Definition settled (s : system) (n : string) (m : message) : Prop :=
  exists th, th ∈ threads s /\
    match op th with
    | OpAck d => of_message m d
    | OpRetry now _ delay d =>
        of_message m d /\ exists data, Marshal (with_available (now + delay) (dTask d)) = inl data /\
          task_fields data ∈ added n (log s)
    | OpDeadLetter reason d =>
        of_message m d /\ exists data ml, Marshal (dTask d) = inl data /\
          Send (deadLetterKey q n) (XADD (<[taskField := data]> {[deadReasonField := reason]}) ml) ∈ log s
    | OpReceive _ _ _ => decode_fields (values m) = None
    | _ => False
    end.

Lemma same_message g s m m' : stream_wf g s -> m ∈ entries s -> m' ∈ entries s -> mid m = mid m' -> m = m'.
Proof.
  intros [Hnd _ _ _] [i Hi]%list_elem_of_lookup [j Hj]%list_elem_of_lookup E.
  assert (i = j) as <-.
  { apply (NoDup_lookup (mid <$> entries s) i j (mid m)); [done|by rewrite list_lookup_fmap, Hi|].
    rewrite list_lookup_fmap, Hj. cbn. by rewrite E. }
  congruence.
Qed.

Lemma added_elem n l rq v : rq ∈ l -> added1 n rq = [v] -> v ∈ added n l.
Proof. intros Hin E. apply list_elem_of_bind. exists rq. split; [rewrite E; by left|done]. Qed.

(** A request is allowed after part of what its thread has seen. *)
Lemma asked_allowed th rq :
  op_ok (op th) -> follows (code_of (op th)) (seen th) (code th) -> asked th rq ->
  exists h, (forall x, x ∈ h -> x ∈ seen th) /\ allowed (op th) h rq.
Proof.
  intros Hop Hf Hask. destruct (follows_obeys _ _ _ _ [] _ (code_obeys _ Hop) Hf) as [Hnow Hal].
  destruct Hask as [[a (h1 & h2 & Eh)%list_elem_of_split]|[k Ek]].
  - exists h1. split; [|by eapply Hal]. intros x Hx. rewrite Eh. apply elem_of_app. by left.
  - exists (seen th). split; [done|]. rewrite Ek in Hnow. apply Hnow.
Qed.

Lemma ack_settled s n m : inv s -> m ∈ entries (stream_of (srv s) n) -> ack_sent s n (mid m) -> settled s n m.
Proof.
  intros [Hsrv Hlog Hth _] Hm (th & Hin & Hask). exists th. split; [done|].
  pose proof (proj1 (Forall_forall _ _) Hth th Hin) as [Hop Hf Hdel Hseen].
  destruct (asked_allowed th _ Hop Hf Hask) as (h1 & Hsub & [_ Hj]). cbn in Hj.
  assert (Hmsg : forall d, was_delivered (threads s) d -> streamKey q n = streamKey q (QueueName (dTask d)) ->
                   mid m = streamID d -> n = QueueName (dTask d) /\ of_message m d).
  { intros d Hd ->%streamKey_inj Hid. split; [done|].
    destruct (delivered_facts s d Hsrv Hlog Hth Hd) as (_ & _ & m' & k & Hm' & Hl). exists k.
    destruct (lease_ok m' k d Hl) as (_ & _ & Hid' & _). rewrite (same_message _ _ m m' (so_wf _ _ Hsrv _) Hm Hm'); [done|congruence]. }
  destruct (op th) as [? ?|?|name co now|d|now src delay d|reason d|?]; cbn in Hj; try done.
  - destruct Hj as (->%streamKey_inj & c & ms & m' & Hh & Hm' & Hid & Hdec).
    destruct (Hseen _ _ (Hsub _ Hh)) as [_ Hs]. specialize (Hs name c ms eq_refl eq_refl). rewrite Forall_forall in Hs.
    by rewrite (same_message _ _ m m' (so_wf _ _ Hsrv _) Hm (Hs _ Hm') (eq_sym Hid)).
  - destruct Hj as [Hk Hid]. by apply (Hmsg d (Hdel d eq_refl)).
  - destruct Hj as (Hk & Hid & data & rq & x & Hma & Hh & Hadd). destruct (Hmsg d (Hdel d eq_refl) Hk Hid) as [-> Hof].
    split; [done|]. exists data. split; [done|]. eapply added_elem; [|done]. by eapply (proj1 (Hseen _ _ (Hsub _ Hh))).
  - destruct Hj as (Hk & Hid & data & ml & x & Hma & Hh). destruct (Hmsg d (Hdel d eq_refl) Hk Hid) as [-> Hof].
    split; [done|]. exists data, ml. split; [done|]. by eapply (proj1 (Hseen _ _ (Hsub _ Hh))).
Qed.

(** C19: At least once.  Any number of clients store, receive and settle tasks of
    any queues at once, request by request, over connections that lose requests
    and answers, attempts at a request being repeated any number of times by the
    client, and foreign clients add messages of their own.  As long as no delayed
    entry is added twice, neither as the same string, which the random parts
    prevent, nor by a repeated attempt: the
    messages of a queue's stream and its delayed entries are exactly what was
    added, each once; every [Enqueue] that reported success added its task; and
    every message of the stream is still to be delivered, is pending, so that it
    will be delivered again, or was settled: acknowledged by the client that was
    delivered it, retried with the new task already stored, moved to the dead
    letters with the letter already written, or dropped because it does not
    decode. *)
Theorem redis_queue_at_least_once s n :
  reachable s -> (forall n, NoDup (members n (log s))) ->
  let st := stream_of (srv s) n in
  (values <$> entries st) ++ (member_fields <$> delayed (srv s) n) ≡ₚ added n (log s) /\
  (forall th src t, th ∈ threads s -> op th = OpEnqueue src (Some t) -> code th = Ret (Done None) ->
     queue_or_default (QueueName t) = n ->
     exists data, Marshal (with_queue n t) = inl data /\ task_fields data ∈ added n (log s)) /\
  NoDup (mid <$> entries st) /\
  (forall m, m ∈ entries st -> m ∈ unread (group_ q) st \/ mid m ∈ pids (group_ q) st \/ settled s n m).
Proof.
  intros Hr Hnd st. pose proof (inv_reachable s Hr Hnd) as Hinv. destruct (Hinv) as [Hsrv Hlog Hth Hack].
  split; [apply Hsrv|]. split; [|split; [apply (so_wf _ _ Hsrv n)|]].
  - intros th src t Hin Eop Ecode <-. pose proof (proj1 (Forall_forall _ _) Hth th Hin) as [Hop Hf _ Hseen].
    destruct (follows_obeys _ _ _ _ [] _ (code_obeys _ Hop) Hf) as [Hfin _]. rewrite Ecode, Eop in Hfin. cbn in Hfin.
    destruct Hfin as (data & rq & x & Hma & Hh & Hadd). exists data. split; [done|].
    eapply added_elem; [|done]. by eapply (proj1 (Hseen _ _ Hh)).
  - intros m Hm. pose proof Hm as Hm'. rewrite <- (take_drop (read (group_of (group_ q) st)) (entries st)) in Hm.
    apply elem_of_app in Hm as [Hd|Hu]; [|by left]. right.
    destruct (decide (mid m ∈ pids (group_ q) st)) as [|Hp]; [by left|right]. by apply ack_settled; [|done|apply Hack].
Qed.

End Laws.

(** ** One client alone *)

Lemma run_call {A} rq (k : answer -> prog A) t (r : R) :
  run (Call rq k) t (mkClient r []) = run (k (serve rq t r).2) t (mkClient (serve rq t r).1 []).
Proof. cbn [run]. rewrite roundtrip_ok. unfold spent. simpl. by rewrite Z.add_0_r. Qed.

Lemma run_bind {A B} (p : prog A) (f : A -> prog B) t (r : R) :
  run (pbind p f) t (mkClient r []) = let '(c', a) := run p t (mkClient r []) in run (f a) t c'.
Proof.
  revert r. induction p as [a|rq k IH]; intros r; cbn [pbind]; [done|]. rewrite !run_call. apply IH.
Qed.

Definition sees (r : R) (n : string) (s : stream) : Prop := xlookup r (streamKey q n) = Some (XStream s).

(** A command other than [XADD] on a stream. *)
Lemma run_cmd {B} r n s c t (f : answer -> prog B) :
  sees r n s -> (forall v ml, c <> XADD v ml) ->
  let o := xcmd_spec "" 0 t c (Some (XStream s)) in
  exists r', run (pbind (send (streamKey q n) c) f) t (mkClient r [])
             = run (f (result (match o.2 with XErr e => inr e | rep => inl rep end))) t (mkClient r' []) /\
    xlookup r' (streamKey q n) = o.1.
Proof.
  intros Hs Hc. destruct (xcall_step r t (streamKey q n) c _ Hs) as (r' & new & k & Hcall & _ & Hl & _).
  assert (E : xcmd_spec new k t c (Some (XStream s)) = xcmd_spec "" 0 t c (Some (XStream s))).
  { destruct c; try done. by destruct (Hc vals maxlen). }
  rewrite E in Hcall, Hl. cbv zeta. destruct (xcmd_spec "" 0 t c (Some (XStream s))) as [v rep]. cbn [fst snd] in *.
  exists r'. split; [|done]. rewrite run_bind. unfold send. rewrite run_call. cbn [serve run]. rewrite Hcall. by destruct rep.
Qed.

Section Alone.
Variables (n co : string) (t : Z).
Local Abbreviation g := (group_ q).
Local Abbreviation ms := (t / Millisecond).

(** The pending list after message [id] was leased with result [res]. *)
Definition leased (res : redisDelivery + receive_error) (id : string) (ps : list pentry) : list pentry :=
  match res with inl _ => ps | inr _ => filter (fun p => pid p <> id) ps end.

Lemma run_ackMalformed r s gr id res :
  sees r n s -> groups s !! g = Some gr -> id <> ""%string ->
  exists r', run (do _ <- ackMalformed q n id; Ret res) t (mkClient r []) = (mkClient r' [], res : redisDelivery + receive_error) /\
    sees r' n (set_group g (mkGroup (read gr) (filter (fun p => pid p <> id) (pel gr))) s).
Proof.
  intros Hs Hg Hid. unfold ackMalformed. destruct (String.eqb_spec id ""); [done|].
  rewrite run_bind.
  destruct (run_cmd r n s (XACK g id) t (fun a => Ret (failed a)) Hs ltac:(done)) as (r' & -> & Hl).
  cbn [xcmd_spec] in *. rewrite Hg in Hl |- *. exists r'. split; [done|exact Hl].
Qed.

(** The message of a pending entry is leased with the count of its deliveries. *)
Lemma run_deliveryCount r s gr i p m :
  sees r n s -> groups s !! g = Some gr -> NoDup (pid <$> pel gr) -> pel gr !! i = Some p -> mid m = pid p ->
  exists r', run (leaseFromClaimedMessage q n m) t (mkClient r []) =
               (mkClient r' [], leaseFromMessageWithDeliveryCount m (pcount p)) /\ sees r' n s.
Proof.
  intros Hs Hg Hnd Hi Hm. unfold leaseFromClaimedMessage, deliveryCount. rewrite run_bind.
  destruct (run_cmd r n s (XPENDING g 0 (Some (mid m))) t
    (fun a => Ret (match a with
       | inr err => if errors_Is err "redis: nil" then inl 0 else inr err
       | inl (XPend (p :: _)) => inl (pcount p)
       | inl _ => inl 0
       end)) Hs ltac:(done)) as (r' & -> & Hl).
  cbn [xcmd_spec] in *. rewrite Hg in Hl |- *. exists r'. split; [|exact Hl].
  assert (Hf : filter (fun p => idle_for ms 0 p && in_range (Some (mid m)) p = true) (pel gr) = [p]).
  { rewrite <- (filter_unique pid (pel gr) i p Hnd Hi). apply list_filter_iff. intros x. cbn.
    by rewrite bool_decide_eq_true, Hm. }
  rewrite Hf. done.
Qed.

Lemma pel_NoDup s gr : stream_wf g s -> groups s !! g = Some gr -> NoDup (pid <$> pel gr).
Proof.
  intros [Hnd _ _ Hp] Hg. assert (Hgr : group_of g s = gr) by (unfold group_of; by rewrite Hg).
  unfold pids in Hp. rewrite Hgr in Hp. eapply sublist_NoDup; [|exact Hp].
  eapply sublist_NoDup; [exact Hnd|]. apply fmap_sublist, sublist_take.
Qed.

(** The entry [p] of the pending list, claimed by this consumer. *)
Definition claimed_entry (p : pentry) : pentry := mkPending (pid p) co ms (pcount p + 1).
Definition claimed_stream (s : stream) (gr : group) (i : nat) (p : pentry) : stream :=
  set_group g (mkGroup (read gr) (<[i := claimed_entry p]> (pel gr))) s.

Lemma run_claimed r s gr i p :
  stream_wf g s -> groups s !! g = Some gr -> pel gr !! i = Some p ->
  exists m, message_of s (pid p) = Some m /\ m ∈ entries s /\ mid m = pid p /\
    claim_at co g ms s gr i p = (Some (XStream (claimed_stream s gr i p)), XMsgs [m]) /\
    (sees r n (claimed_stream s gr i p) ->
     exists r', run (do x <- leaseFromClaimedMessage q n m; Ret (lift x)) t (mkClient r []) =
                  (mkClient r' [], lift (leaseFromMessageWithDeliveryCount m (pcount p + 1))) /\
       sees r' n (claimed_stream s gr i p)).
Proof.
  intros Hwf Hg Hi. assert (Hgr : group_of g s = gr) by (unfold group_of; by rewrite Hg).
  destruct (pending_message g s i p Hwf ltac:(by rewrite Hgr)) as (m & Hm & Hin & Hid).
  exists m. split_and!; [done|done|done|unfold claim_at; by rewrite Hm|]. intros Hs. rewrite run_bind.
  destruct (run_deliveryCount r (claimed_stream s gr i p) (mkGroup (read gr) (<[i := claimed_entry p]> (pel gr))) i (claimed_entry p) m)
    as (r' & -> & Hs'); [done|by apply lookup_insert_eq| | |done|by exists r'].
  - cbn [pel]. rewrite (fmap_insert_same pid _ i p) by done. by apply (pel_NoDup s).
  - apply list_lookup_insert_eq. by eapply lookup_lt_Some.
Qed.

Lemma client_ms_exact d : Millisecond <= d -> client_ms d = Milliseconds d.
Proof.
  intros Hd. unfold Millisecond in Hd. destruct (client_ms_bounds d ltac:(lia)) as [H1 H2]. rewrite Z.max_l in H2 by lia.
  unfold Milliseconds. rewrite Z.quot_div_nonneg by lia. apply (Z.div_unique_pos d 1000000 _ (d - 1000000 * client_ms d)); lia.
Qed.

(** Claiming takes the first message that has been idle for long enough. *)
Lemma run_claim r s gr minIdle :
  sees r n s -> stream_wf g s -> groups s !! g = Some gr -> Millisecond <= minIdle ->
  match first_idle ms (Milliseconds minIdle) (pel gr) with
  | Some (i, p) =>
      exists r' m, m ∈ entries s /\ mid m = pid p /\
        run (claimPendingForConsumer q n co minIdle) t (mkClient r []) =
          (mkClient r' [], lift (leaseFromMessageWithDeliveryCount m (pcount p + 1))) /\
        sees r' n (claimed_stream s gr i p)
  | None => exists r', run (claimPendingForConsumer q n co minIdle) t (mkClient r []) = (mkClient r' [], inl None) /\ sees r' n s
  end.
Proof.
  intros Hs Hwf Hg Hmin. unfold claimPendingForConsumer.
  match goal with |- context [pbind (send _ ?c) ?f] =>
    destruct (run_cmd r n s c t f Hs ltac:(done)) as (r1 & E1 & Hl1) end.
  cbn [xcmd_spec] in E1, Hl1. rewrite Hg in E1, Hl1. rewrite E1. clear E1.
  destruct (first_idle ms (Milliseconds minIdle) (take 10 (pel gr))) as [[i p]|] eqn:E10.
  - pose proof (find_take _ _ _ _ E10) as Eall. fold (first_idle ms (Milliseconds minIdle) (pel gr)) in Eall. rewrite Eall.
    apply list_find_Some in Eall as (Hi & _ & _).
    destruct (run_claimed r1 s gr i p Hwf Hg Hi) as (m & _ & Hin & Hid & Hc & Hrun). rewrite Hc in Hl1 |- *.
    destruct (Hrun Hl1) as (r' & Hr & Hs'). exists r', m. done.
  - clear E10. cbn [snd result]. unfold claimPendingWithXClaim. rewrite (client_ms_exact minIdle Hmin).
    match goal with |- context [pbind (send _ ?c) ?f] =>
      destruct (run_cmd r1 n s c t f Hl1 ltac:(done)) as (r2 & E2 & Hl2) end.
    cbn [xcmd_spec] in E2, Hl2. rewrite Hg in E2, Hl2. rewrite E2. clear E2. cbn [snd result fst] in *.
    rewrite (list_filter_iff _ (fun p => idle_for ms (Milliseconds minIdle) p = true)) by (intros p; cbn; by rewrite andb_true_r).
    rewrite filter_first. fold (first_idle ms (Milliseconds minIdle) (pel gr)).
    destruct (first_idle ms (Milliseconds minIdle) (pel gr)) as [[i p]|] eqn:Eall; [|by exists r2].
    apply list_find_Some in Eall as (Hi & Hidle & _).
    match goal with |- context [pbind (send _ ?c) ?f] =>
      destruct (run_cmd r2 n s c t f Hl2 ltac:(done)) as (r3 & E3 & Hl3) end.
    cbn [xcmd_spec] in E3, Hl3. rewrite Hg in E3, Hl3. rewrite E3. clear E3.
    rewrite (find_unique pid (pel gr) i p (pel_NoDup s gr Hwf Hg) Hi) in Hl3 |- *. rewrite Hidle in Hl3 |- *.
    destruct (run_claimed r3 s gr i p Hwf Hg Hi) as (m & _ & Hin & Hid & Hc & Hrun). rewrite Hc in Hl3 |- *.
    destruct (Hrun Hl3) as (r' & Hr & Hs'). exists r', m. done.
Qed.

Lemma set_group_twice g' a b s : set_group g' b (set_group g' a s) = set_group g' b s.
Proof. unfold set_group. cbn. by rewrite insert_insert_eq. Qed.

Lemma named_message s m : stream_wf g s -> m ∈ entries s -> mid m <> ""%string.
Proof. intros [_ Hn _ _] Hm E. apply Hn. rewrite <- E. by apply list_elem_of_fmap_2. Qed.

Lemma run_readNew r s gr :
  sees r n s -> stream_wf g s -> groups s !! g = Some gr ->
  match entries s !! read gr with
  | Some m =>
      exists r', run (readNew q n co) t (mkClient r []) = (mkClient r' [], leaseFromMessage m) /\
        sees r' n (set_group g (mkGroup (S (read gr))
          (leased (leaseFromMessage m) (mid m) (pel gr ++ [mkPending (mid m) co ms 1]))) s)
  | None => exists r', run (readNew q n co) t (mkClient r []) = (mkClient r' [], inr (Plain ErrNoTask)) /\ sees r' n s
  end.
Proof.
  intros Hs Hwf Hg. unfold readNew.
  match goal with |- context [pbind (send _ ?c) ?f] =>
    destruct (run_cmd r n s c t f Hs ltac:(done)) as (r1 & E1 & Hl1) end.
  cbn [xcmd_spec] in E1, Hl1. rewrite Hg in E1, Hl1. rewrite E1. clear E1.
  destruct (entries s !! read gr) as [m|] eqn:Em; [|exists r1; done]. cbn [fst snd result] in *.
  destruct (leaseFromMessage m) as [d|e]; [by exists r1|]. cbn [leased].
  destruct (run_ackMalformed r1 _ (mkGroup (S (read gr)) (pel gr ++ [mkPending (mid m) co ms 1])) (mid m) (inr e) Hl1)
    as (r' & Hr & Hs'); [by apply lookup_insert_eq|by eapply named_message, list_elem_of_lookup_2|].
  exists r'. split; [exact Hr|]. by rewrite set_group_twice in Hs'.
Qed.

(** C20: What one client alone receives.  The due delayed tasks go to the end of the
    stream first, in the order of their times; then the first message that has
    been pending for the minimum idle time is delivered again, its attempt the
    stored one plus the number of its deliveries, or if there is none, the first
    unread message, or if there is none, no task.  A message that does not decode
    is reported and acknowledged, so that it is not delivered again. *)
Theorem redis_receive_outcome r l now s gr :
  server_ok r l -> sees r n s -> groups s !! g = Some gr ->
  claimMinIdle q = 0 \/ Millisecond <= claimMinIdle q ->
  exists r' s1,
    entries s `prefix_of` entries s1 /\ groups s1 !! g = Some gr /\
    values <$> entries s1 = (values <$> entries s) ++ (member_fields <$> due_members r n (UnixNano now) (promoteSize q)) /\
    match (if claimMinIdle q =? 0 then None else first_idle ms (Milliseconds (claimMinIdle q)) (pel gr)) with
    | Some (i, p) =>
        exists m, m ∈ entries s1 /\ mid m = pid p /\
          let res := leaseFromMessageWithDeliveryCount m (pcount p + 1) in
          run (receiveForConsumer q n co now) t (mkClient r []) = (mkClient r' [], res) /\
          sees r' n (set_group g (mkGroup (read gr) (leased res (pid p) (<[i := claimed_entry p]> (pel gr)))) s1)
    | None =>
        match entries s1 !! read gr with
        | Some m =>
            run (receiveForConsumer q n co now) t (mkClient r []) = (mkClient r' [], leaseFromMessage m) /\
            sees r' n (set_group g (mkGroup (S (read gr))
              (leased (leaseFromMessage m) (mid m) (pel gr ++ [mkPending (mid m) co ms 1]))) s1)
        | None =>
            run (receiveForConsumer q n co now) t (mkClient r []) = (mkClient r' [], inr (Plain ErrNoTask)) /\ sees r' n s1
        end
    end.
Proof.
  intros Hok Hs Hg Hmin.
  destruct (serve_promote r l n (UnixNano now) (promoteSize q) t Hok) as (r1 & E1 & [Hok1 Hst1 _ Hg1 Hv1]).
  assert (Hso : stream_of r n = s) by (unfold stream_of; by rewrite Hs).
  set (s1 := stream_of r1 n). specialize (Hg1 n). fold s1 in Hg1, Hv1. rewrite Hso in Hg1, Hv1. rewrite Hg in Hg1.
  assert (Hs1 : sees r1 n s1).
  { unfold sees. destruct (so_stream _ _ Hok1 n) as [E|[x E]]; [|by unfold s1, stream_of; rewrite E].
    exfalso. revert Hg1. unfold s1, stream_of. rewrite E. cbn. by rewrite lookup_empty. }
  assert (Hwf1 : stream_wf g s1) by apply Hok1.
  assert (Hpre : entries s `prefix_of` entries s1).
  { destruct (Hst1 n) as [new [_ He _ _]]. fold s1 in He. rewrite Hso in He. by exists new. }
  assert (Hrun : run (receiveForConsumer q n co now) t (mkClient r []) =
    run (if claimMinIdle q >? 0 then
        do x <- claimPendingForConsumer q n co (claimMinIdle q);
        match x with
        | inr (Malformed id err) => do _ <- ackMalformed q n id; Ret (inr (Malformed id err))
        | inr (Plain err) => Ret (inr (Plain err))
        | inl (Some d) => Ret (inl d)
        | inl None => readNew q n co
        end
      else readNew q n co) t (mkClient r1 [])).
  { unfold receiveForConsumer, promoteDue. cbn [pbind]. rewrite run_call, E1. done. }
  rewrite Hrun. pose proof (run_readNew r1 s1 gr Hs1 Hwf1 Hg1) as Hread.
  destruct (Z.eqb_spec (claimMinIdle q) 0) as [Hz|Hz].
  { rewrite Hz. cbn [Z.gtb Z.compare]. destruct (entries s1 !! read gr) eqn:Em; destruct Hread as (r' & ? & ?);
    exists r', s1; (split_and!; [done..|]); by rewrite Em. }
  destruct Hmin as [?|Hmin]; [done|]. destruct (Z.gtb_spec (claimMinIdle q) 0) as [Hpos|Hpos]; [|unfold Millisecond in Hmin; lia].
  rewrite run_bind. pose proof (run_claim r1 s1 gr (claimMinIdle q) Hs1 Hwf1 Hg1 Hmin) as Hclaim.
  destruct (first_idle _ _ _) as [[i p]|].
  - destruct Hclaim as (r2 & m & Hm & Hid & -> & Hs2).
    destruct (leaseFromMessageWithDeliveryCount m (pcount p + 1)) as [d|e] eqn:El; cbn [lift].
    + exists r2, s1. split_and!; [done..|]. exists m. rewrite El. done.
    + destruct (lease_error m _ e El) as [_ [err ->]]. rewrite Hid.
      destruct (run_ackMalformed r2 _ (mkGroup (read gr) (<[i := claimed_entry p]> (pel gr))) (pid p) (inr (Malformed (pid p) err)) Hs2)
        as (r' & Hr & Hs'); [by apply lookup_insert_eq|rewrite <- Hid; by eapply named_message|].
      exists r', s1. split_and!; [done..|]. exists m. rewrite El, Hid. split_and!; [done|done|exact Hr|].
      unfold claimed_stream in Hs'. by rewrite set_group_twice in Hs'.
  - destruct Hclaim as (r2 & -> & Hs2). pose proof (run_readNew r2 s1 gr Hs2 Hwf1 Hg1) as Hread2.
    destruct (entries s1 !! read gr) eqn:Em; destruct Hread2 as (r' & ? & ?);
      exists r', s1; (split_and!; [done..|]); by rewrite Em.
Qed.
End Alone.

(** Moves of the system as functions. *)
Definition start (o : operation) (s : system) : system :=
  mkSystem (srv s) (threads s ++ [mkThread o (code_of o) []]) (log s).
Definition call_thread (i : nat) (f : option fault) (t : Z) (s : system) : system :=
  match threads s !! i with
  | Some (mkThread o (Call rq k) h) =>
      let '(r, a, sent) := transmit f rq t (srv s) in
      mkSystem r (<[i := mkThread o (k a) (h ++ [(rq, a)])]> (threads s)) (log s ++ sent)
  | _ => s
  end.

Lemma start_reachable o s : reachable s -> start_ok (threads s) o -> reachable (start o s).
Proof. intros Hr Ho. by eapply reach_step, step_start. Qed.

Lemma call_reachable i f t s : reachable s -> reachable (call_thread i f t s).
Proof.
  intros Hr. unfold call_thread. destruct (threads s !! i) as [[o [a|rq k] h]|] eqn:Ei; [done| |done].
  destruct (transmit f rq t (srv s)) as [[r a] sent] eqn:Et. by eapply reach_step, step_call.
Qed.
End System.
End Adapter.

(** ** An example

    A codec that keeps the queue's name and rejects one string. *)
Definition demo_task (name : string) : Task := mkTask "" "send" name [] ∅ 0 0 0.
Definition demo_marshal (t : Task) : string + error := inl (QueueName t).
Definition demo_unmarshal (data : string) : Task + error :=
  if String.eqb data "bad" then inr (ErrMsg "bad") else inl (demo_task data).
Definition demo_entry (id data : string) : string + error := inl data.
Definition demo_decode (e : string) : option lua := Some (LTable (fun _ => LStr e)).
Definition demo_valid (name : string) : Prop := name <> "bad"%string.
Definition demo_queue : Queue := NewQueue "c" [].
Definition demo_text (e : error) : string := match e with ErrNew s => s | _ => ""%string end.

Lemma demo_json t data : demo_valid (QueueName t) -> demo_marshal t = inl data ->
  exists t', demo_unmarshal data = inl t' /\ QueueName t' = QueueName t.
Proof.
  intros Hv [= <-]. exists (demo_task (QueueName t)). split; [|done]. unfold demo_unmarshal.
  by destruct (String.eqb_spec (QueueName t) "bad").
Qed.
Lemma demo_entry_decodes (id data e : string) : demo_entry id data = inl e ->
  exists get, demo_decode e = Some (LTable get) /\ get "task"%string = LStr data.
Proof. intros [= <-]. by eexists. Qed.

Section Demo.
Local Abbreviation dstart := (start demo_marshal demo_unmarshal demo_entry demo_text demo_queue).
Local Abbreviation dcall := (call_thread demo_decode).
Local Abbreviation dreach := (reachable demo_marshal demo_unmarshal demo_entry demo_decode demo_text demo_queue demo_valid).

Definition demo_src : source := mkSource 10 11 (inl []).
Definition demo_stored : system (R := StreamMap) :=
  dcall 1 None 1 (dstart (OpNewConsumer (mkConsumer "mail" ""))
    (dcall 0 None 1 (dstart (OpEnqueue demo_src (Some (demo_task "mail"))) (mkSystem empty_streams [] [])))).
Definition demo_received : system (R := StreamMap) :=
  dcall 2 None 5 (dcall 2 None 4 (dcall 2 None 3 (dcall 2 None 2
    (dstart (OpReceive "mail" "c" (unixEpoch + 20)) demo_stored)))).
Definition demo_delivery : redisDelivery := mkDelivery (with_attempt 1 (demo_task "mail")) "0".
(** The delivery is retried, its acknowledgement without an answer. *)
Definition demo_retried : system (R := StreamMap) :=
  dcall 3 (Some (NoReply (ErrNew "i/o timeout"))) 7 (dcall 3 None 6
    (dstart (OpRetry (unixEpoch + 30) (mkSource (unixEpoch + 40) 41 (inl [])) 0 demo_delivery) demo_received)).

Lemma demo_received_reachable : dreach demo_received.
Proof.
  do 4 apply call_reachable. apply start_reachable; [|split; done]. apply call_reachable. apply start_reachable; [|done].
  apply call_reachable. apply start_reachable; [|done]. apply reach_init. split_and!; try done; intros n; apply lookup_empty.
Qed.

Lemma demo_reachable : dreach demo_retried.
Proof.
  do 2 apply call_reachable. apply start_reachable; [exact demo_received_reachable|].
  exists (mkThread (OpReceive "mail" "c" (unixEpoch + 20)) (Ret (Delivered (inl demo_delivery)))
         (seen (nth 2 (threads demo_received) (mkThread (OpForeign (Send "" (XACK "" ""))) (Ret (Done None)) [])))).
  split; [|done]. apply (list_elem_of_lookup_2 _ 2). vm_compute. reflexivity.
Qed.

Lemma demo_members n : members demo_queue n (log demo_retried) = [].
Proof. reflexivity. Qed.

Lemma demo_unpending :
  pids "queue" (stream_of demo_queue (srv demo_retried) "mail") = [] /\
  (mid <$> entries (stream_of demo_queue (srv demo_retried) "mail")) = ["0"; "00"]%string.
Proof. split; vm_compute; reflexivity. Qed.

Local Abbreviation dstream := (stream_of demo_queue (srv demo_retried) "mail").

Lemma demo_unread : (mid <$> unread "queue" dstream) = ["00"%string].
Proof. vm_compute. reflexivity. Qed.
Lemma demo_first : entries dstream !! 0%nat = Some (mkMessage "0" (task_fields "mail")).
Proof. vm_compute. reflexivity. Qed.

Lemma redis_queue_at_least_once_witness :
  settled demo_marshal demo_unmarshal demo_decode demo_queue demo_retried "mail" (mkMessage "0" (task_fields "mail")).
Proof.
  destruct (redis_queue_at_least_once demo_marshal demo_unmarshal demo_entry demo_decode demo_text demo_queue demo_valid
    demo_json demo_entry_decodes demo_retried "mail" demo_reachable) as (_ & _ & _ & H).
  - intros n. rewrite demo_members. constructor.
  - destruct (H _ (list_elem_of_lookup_2 _ _ _ demo_first)) as [Hu|[Hp|Hs]].
    + apply (list_elem_of_fmap_2 mid) in Hu. change (group_ demo_queue) with "queue"%string in Hu.
      rewrite demo_unread in Hu. apply list_elem_of_singleton in Hu. discriminate Hu.
    + change (group_ demo_queue) with "queue"%string in Hp. rewrite (proj1 demo_unpending) in Hp.
      apply not_elem_of_nil in Hp. destruct Hp.
    + exact Hs.
Defined.

(** The first delivery was not settled: after the idle time another consumer
    receives the task as its second attempt. *)
Definition demo_pending : group := mkGroup 1 [mkPending "0" "c" 0 1].
Definition demo_stream : stream := mkStream [mkMessage "0" (task_fields "mail")] {["queue"%string := demo_pending]}.

Lemma demo_sees : sees demo_queue (srv demo_received) "mail" demo_stream.
Proof. vm_compute. reflexivity. Qed.
Lemma demo_due : due_members demo_queue (srv demo_received) "mail" (UnixNano (unixEpoch + 50)) 100 = [].
Proof. vm_compute. reflexivity. Qed.

Lemma redis_receive_outcome_witness :
  exists r' : StreamMap,
    run demo_decode (receiveForConsumer demo_unmarshal demo_queue "mail" "c2" (unixEpoch + 50)) (5 * Minute)
      (mkClient (srv demo_received) []) = (mkClient r' [], inl (mkDelivery (with_attempt 2 (demo_task "mail")) "0")).
Proof.
  destruct (redis_receive_outcome demo_unmarshal demo_decode demo_queue "mail" "c2" (5 * Minute)
    (srv demo_received) (log demo_received) (unixEpoch + 50) demo_stream demo_pending) as (r' & s1 & _ & _ & Hv & H).
  - refine (inv_srv _ _ _ _ _ _ _ _ (inv_reachable _ _ _ _ _ _ _ demo_json demo_entry_decodes _ demo_received_reachable _)).
    intros n. change (members demo_queue n (log demo_received)) with (@nil string). constructor.
  - exact demo_sees.
  - reflexivity.
  - right. vm_compute. discriminate.
  - change (promoteSize demo_queue) with 100 in Hv. rewrite demo_due in Hv. simpl in Hv.
    destruct (if claimMinIdle demo_queue =? 0 then _ else _) as [[i p]|] eqn:E; vm_compute in E; [|discriminate E].
    injection E as <- <-. destruct H as (m & Hm & Hid & Hr & _). exists r'. cbv zeta in Hr. rewrite Hr. f_equal.
    assert (Hval : values m = task_fields "mail").
    { apply (list_elem_of_fmap_2 values) in Hm. rewrite Hv in Hm. by apply list_elem_of_singleton in Hm. }
    destruct m as [id v]. simpl in Hid, Hval. subst id v. reflexivity.
Defined.

(** A task stored for 100 nanoseconds from now is promoted at once: instants of
    this size are 256 nanoseconds apart as doubles. *)
Definition demo_now : Z := unixEpoch + 1700000000 * Second.
Definition demo_late : StreamMap :=
  mkStreamMap {["queue:mail:delayed"%string := XZset {["x"%string := lua_num (UnixNano (demo_now + 100))]}]}.

Example redis_delay_early : due_members demo_queue demo_late "mail" (UnixNano demo_now) 100 = ["x"%string].
Proof. vm_compute. reflexivity. Qed.

Lemma redis_delay_bounds_witness : demo_now + 100 - demo_now <= 1024.
Proof.
  apply (redis_delay_bounds demo_queue demo_late "mail" "x" (demo_now + 100) demo_now 100).
  - vm_compute. reflexivity.
  - split; vm_compute; [reflexivity|discriminate].
  - split; vm_compute; [reflexivity|discriminate].
  - vm_compute. discriminate.
  - rewrite redis_delay_early. by left.
Defined.
End Demo.
