(* ===== verification/Webhook.v ===== *)
(** * Webhook signatures: [src/webhook]

    Secrets, the signer and the verifier, over the hash of [GoSHA256], the
    encoding of [GoBase64] and the decimal integers of [GoStrconv].  Go strings
    and byte slices are lists of bytes; a header maps canonical names to values. *)

From S2P Require Import Prelude GoErrors GoStrconv GoUtf8 GoBase64 GoSHA256.
From Stdlib Require Import Ascii.
From stdpp Require Import options.
Set Default Proof Using "Type*".
Local Open Scope Z_scope.

Local Abbreviation bytes := (list ascii).
Local Abbreviation lit := String.list_ascii_of_string.

(** ** Strings and headers of the standard library *)

(** [strings.FieldsSeq]: [skip] bytes of white space are still to be passed;
    [cur] is the field so far, reversed. *)
Fixpoint fields_loop (skip : nat) (cur : bytes) (s : bytes) : list bytes :=
  let flush := match cur with [] => [] | _ => [rev cur] end in
  match s with
  | [] => flush
  | a :: rest =>
      match skip with
      | S n => fields_loop n [] rest
      | O =>
          match space_at s with
          | O => fields_loop 0 (a :: cur) rest
          | S n => flush ++ fields_loop n [] rest
          end
      end
  end.
Definition FieldsSeq (s : bytes) : list bytes := fields_loop 0 [] s.

(** [strings.Cut(s, ",")] *)
Definition comma : ascii := ascii_of_nat 44.
Fixpoint cut_comma (s : bytes) : option (bytes * bytes) :=
  match s with
  | [] => None
  | a :: rest =>
      if decide (a = comma) then Some ([], rest)
      else '(before, after) ← cut_comma rest; Some (a :: before, after)
  end.

(** [strings.CutPrefix] *)
Fixpoint CutPrefix (s p : bytes) {struct p} : option bytes :=
  match p, s with
  | [], _ => Some s
  | a :: p, b :: s => if decide (a = b) then CutPrefix s p else None
  | _ :: _, [] => None
  end.

Definition blank : bytes := lit " ".

Fixpoint Join (sep : bytes) (l : list bytes) : bytes :=
  match l with
  | [] => []
  | [x] => x
  | x :: l => x ++ sep ++ Join sep l
  end.

(** [http.Header] with the keys canonicalised by [Set] and [Values]. *)
Definition token_byte (c : nat) : bool :=
  ((48 <=? c) && (c <=? 57))%nat || ((65 <=? c) && (c <=? 90))%nat || ((97 <=? c) && (c <=? 122))%nat ||
  bool_decide (c ∈ [33; 35; 36; 37; 38; 39; 42; 43; 45; 46; 94; 95; 96; 124; 126])%nat.

Fixpoint canonical_loop (upper : bool) (s : bytes) : bytes :=
  match s with
  | [] => []
  | a :: s =>
      let c := code a in
      let c := if upper && (97 <=? c)%nat && (c <=? 122)%nat then (c - 32)%nat
               else if negb upper && (65 <=? c)%nat && (c <=? 90)%nat then (c + 32)%nat else c in
      ascii_of_nat c :: canonical_loop (c =? 45)%nat s
  end.
Definition CanonicalHeaderKey (s : string) : string :=
  let b := lit s in
  if forallb (fun a => token_byte (code a)) b then String.string_of_list_ascii (canonical_loop true b) else s.

Abbreviation Header := (gmap string (list (list ascii))).
Definition header_Set (h : Header) (name : string) (value : bytes) : Header :=
  <[CanonicalHeaderKey name := [value]]> h.
Definition header_Values (h : Header) (name : string) : list bytes :=
  default [] (h !! CanonicalHeaderKey name).

(** Instants and Unix seconds. *)
Definition unixToInternal : Z := 62135596800.
Definition Unix (t : Z) : Z := t / Second - unixToInternal.
Definition time_Unix (sec : Z) : Z := wrap64 (sec + unixToInternal) * Second.

(** ** [errors.go] *)

Definition ErrInvalidSecret : error := ErrNew "webhook: invalid secret".
Definition ErrInvalidTolerance : error := ErrNew "webhook: invalid tolerance".
Definition ErrInvalidMessageID : error := ErrNew "webhook: invalid message id".
Definition ErrMissingHeader : error := ErrNew "webhook: missing required header".
Definition ErrInvalidTimestamp : error := ErrNew "webhook: invalid timestamp".
Definition ErrTimestampOutsideTolerance : error := ErrNew "webhook: timestamp outside tolerance".
Definition ErrInvalidSignature : error := ErrNew "webhook: invalid signature".

(** ** [secret.go] *)

Definition secretPrefix : bytes := lit "whsec_".
Definition minSecretLength : nat := 24.
Definition maxSecretLength : nat := 64.

Record Secret := mkSecret { key : bytes }.

Definition validateSecretLength (length : nat) : option error :=
  if (length <? minSecretLength)%nat || (maxSecretLength <? length)%nat
  then Some (ErrWrapf "key length" ErrInvalidSecret) else None.

Definition validateSecret (secret : Secret) : option error := validateSecretLength (length (key secret)).

Definition NewSecret (k : bytes) : Secret + error :=
  match validateSecretLength (length k) with
  | Some err => inr err
  | None => inl (mkSecret k)
  end.

Definition ParseSecret (value : bytes) : Secret + error :=
  match CutPrefix value secretPrefix with
  | None | Some [] => inr (ErrWrapf "expected whsec_<base64>" ErrInvalidSecret)
  | Some encoded =>
      match DecodeString encoded with
      | None => inr (ErrWrapf "decode base64" ErrInvalidSecret)
      | Some k => NewSecret k
      end
  end.

(** ** [config.go] *)

Definition defaultTolerance : Z := 5 * Minute.

(** The loop of both options that add secrets. *)
Fixpoint add_secrets (acc : list bytes) (secrets : list Secret) : list bytes + error :=
  match secrets with
  | [] => inl acc
  | secret :: secrets =>
      match validateSecret secret with
      | Some err => inr err
      | None => add_secrets (acc ++ [key secret]) secrets
      end
  end.

Record signerConfig := mkSignerConfig { sc_secrets : list bytes }.
Definition SignerOption := signerConfig -> signerConfig + error.

Definition WithAdditionalSigningSecrets (secrets : list Secret) : SignerOption := fun c =>
  match add_secrets (sc_secrets c) secrets with
  | inl l => inl (mkSignerConfig l)
  | inr err => inr err
  end.

(** Apply the options that are not nil, up to the first that fails. *)
Fixpoint try_options {C} (options : list (option (C -> C + error))) (c : C) : C + error :=
  match options with
  | [] => inl c
  | None :: options => try_options options c
  | Some o :: options =>
      match o c with inl c => try_options options c | inr err => inr err end
  end.

Definition newSignerConfig (secret : Secret) (options : list (option SignerOption)) : signerConfig + error :=
  match validateSecret secret with
  | Some err => inr err
  | None => try_options options (mkSignerConfig [key secret])
  end.

Record verifierConfig := mkVerifierConfig { vc_secrets : list bytes; vc_tolerance : Z }.
Definition VerifierOption := verifierConfig -> verifierConfig + error.

Definition WithTolerance (tolerance : Z) : VerifierOption := fun c =>
  if tolerance <=? 0 then inr (ErrWrapf "must be greater than zero" ErrInvalidTolerance)
  else inl (mkVerifierConfig (vc_secrets c) tolerance).

Definition WithAdditionalVerificationSecrets (secrets : list Secret) : VerifierOption := fun c =>
  match add_secrets (vc_secrets c) secrets with
  | inl l => inl (mkVerifierConfig l (vc_tolerance c))
  | inr err => inr err
  end.

Definition newVerifierConfig (secret : Secret) (options : list (option VerifierOption))
    : verifierConfig + error :=
  match validateSecret secret with
  | Some err => inr err
  | None => try_options options (mkVerifierConfig [key secret] defaultTolerance)
  end.

(** ** [signer.go] *)

Definition HeaderID : string := "webhook-id".
Definition HeaderTimestamp : string := "webhook-timestamp".
Definition HeaderSignature : string := "webhook-signature".
Definition signatureVersion : bytes := lit "v1".
Definition dot : ascii := ascii_of_nat 46.

Record Signer := mkSigner { secrets : list bytes }.

Definition NewSigner (secret : Secret) (options : list (option SignerOption)) : Signer + error :=
  match newSignerConfig secret options with
  | inr err => inr err
  | inl c => inl (mkSigner (sc_secrets c))
  end.

(** The bytes written to the hash. *)
Definition signed_content (messageID timestamp payload : bytes) : bytes :=
  messageID ++ [dot] ++ timestamp ++ [dot] ++ payload.

Definition signDigest (secret messageID timestamp payload : bytes) : bytes :=
  hmac_sha256 secret (signed_content messageID timestamp payload).

Definition validMessageID (messageID : bytes) : bool :=
  match messageID with
  | [] => false
  | _ => forallb (fun a => negb ((code a <? 33)%nat || (126 <? code a)%nat || bool_decide (a = dot))) messageID
  end.

Definition Sign (s : Signer) (now : Z) (messageID payload : bytes) : Header + error :=
  if negb (validMessageID messageID) then inr ErrInvalidMessageID
  else
    let timestamp := lit (FormatInt (Unix now)) in
    let signatures :=
      (fun secret => signatureVersion ++ [comma] ++
         EncodeToString (signDigest secret messageID timestamp payload)) <$> secrets s in
    let headers := header_Set ∅ HeaderID messageID in
    let headers := header_Set headers HeaderTimestamp timestamp in
    inl (header_Set headers HeaderSignature (Join blank signatures)).

(** ** [verifier.go] *)

Definition maxSignatureHeaderBytes : Z := 16384.
Definition maxSignatureCount : nat := 32.
Definition hmacSignatureSize : nat := 32.

Record Metadata := mkMetadata { ID : bytes; Timestamp : Z }.
Record Verifier := mkVerifier { vsecrets : list bytes; tolerance : Z }.

Definition NewVerifier (secret : Secret) (options : list (option VerifierOption)) : Verifier + error :=
  match newVerifierConfig secret options with
  | inr err => inr err
  | inl c => inl (mkVerifier (vc_secrets c) (vc_tolerance c))
  end.

Definition requiredSingleHeader (headers : Header) (name : string) (invalidError : error)
    : bytes + error :=
  match header_Values headers name with
  | [] | [[]] => inr (ErrWrapf name ErrMissingHeader)
  | [v] => inl v
  | _ => inr (ErrWrapf "duplicate" invalidError)
  end.

(** A supported signature of a token. *)
Definition token_signature (token : bytes) : option bytes :=
  '(version, encoded) ← cut_comma token;
  if decide (version = signatureVersion) then
    signature ← DecodeString encoded;
    if (length signature =? hmacSignatureSize)%nat then Some signature else None
  else None.

Fixpoint parse_tokens (tokens : list bytes) (tokenCount : nat) (signatures : list bytes)
    : (nat * list bytes) + error :=
  match tokens with
  | [] => inl (tokenCount, signatures)
  | token :: tokens =>
      let tokenCount := S tokenCount in
      if (maxSignatureCount <? tokenCount)%nat then inr ErrInvalidSignature
      else
        match token_signature token with
        | None => parse_tokens tokens tokenCount signatures
        | Some signature => parse_tokens tokens tokenCount (signatures ++ [signature])
        end
  end.

Fixpoint parse_values (values : list bytes) (totalBytes : Z) (tokenCount : nat) (signatures : list bytes)
    : list bytes + error :=
  match values with
  | [] => inl signatures
  | value :: values =>
      let totalBytes := totalBytes + Z.of_nat (length value) in
      if totalBytes >? maxSignatureHeaderBytes then inr ErrInvalidSignature
      else
        match parse_tokens (FieldsSeq value) tokenCount signatures with
        | inr err => inr err
        | inl (tokenCount, signatures) => parse_values values totalBytes tokenCount signatures
        end
  end.

Definition parseSignatures (headers : Header) : list bytes + error :=
  let values := header_Values headers HeaderSignature in
  match values with
  | [] => inr (ErrWrapf HeaderSignature ErrMissingHeader)
  | _ =>
      match parse_values values 0 0 [] with
      | inr err => inr err
      | inl [] => inr ErrInvalidSignature
      | inl signatures => inl signatures
      end
  end.

Definition matched (secrets signatures : list bytes) (messageID timestampValue payload : bytes) : bool :=
  foldl (fun matched secret =>
           let expected := signDigest secret messageID timestampValue payload in
           foldl (fun matched signature => bool_decide (expected = signature) || matched)
             matched signatures) false secrets.

Definition Verify (v : Verifier) (now : Z) (headers : Header) (payload : bytes) : Metadata + error :=
  match requiredSingleHeader headers HeaderID ErrInvalidMessageID with
  | inr err => inr err
  | inl messageID =>
      if negb (validMessageID messageID) then inr ErrInvalidMessageID
      else
        match requiredSingleHeader headers HeaderTimestamp ErrInvalidTimestamp with
        | inr err => inr err
        | inl timestampValue =>
            match ParseInt (String.string_of_list_ascii timestampValue) with
            | None => inr ErrInvalidTimestamp
            | Some unixTimestamp =>
                if unixTimestamp <? 0 then inr ErrInvalidTimestamp
                else
                  let timestamp := time_Unix unixTimestamp in
                  let difference := time_sub now timestamp in
                  if (difference >? tolerance v) || (difference <? - tolerance v)
                  then inr ErrTimestampOutsideTolerance
                  else
                    match parseSignatures headers with
                    | inr err => inr err
                    | inl signatures =>
                        if negb (matched (vsecrets v) signatures messageID timestampValue payload)
                        then inr ErrInvalidSignature
                        else inl (mkMetadata messageID timestamp)
                    end
            end
        end
  end.

(** ** White-space separated fields *)

Definition visible (a : ascii) : Prop := (33 <= code a <= 126)%nat.

Lemma space_at_visible a s : visible a -> space_at (a :: s) = 0%nat.
Proof.
  unfold visible. intros Ha. unfold space_at. cbn [fmap list_fmap]. cbv zeta.
  assert (Hf : forall n, (n < 33 \/ 126 < n)%nat -> (code a =? n)%nat = false)
    by (intros n Hn; apply Nat.eqb_neq; lia).
  rewrite !Hf by lia. assert ((code a <=? 13)%nat = false) as -> by (apply Nat.leb_gt; lia).
  by rewrite andb_false_r.
Qed.

Lemma fields_word w cur s :
  Forall visible w -> fields_loop 0 cur (w ++ s) = fields_loop 0 (rev w ++ cur) s.
Proof.
  revert cur. induction w as [|a w IH]; intros cur Hw; [done|]. apply Forall_cons in Hw as [Ha Hw].
  cbn [app fields_loop rev]. rewrite (space_at_visible a (w ++ s) Ha), IH by done.
  by rewrite <- (assoc_L (++)).
Qed.

Lemma Fields_Join (l : list bytes) :
  Forall (fun w => w <> [] /\ Forall visible w) l -> FieldsSeq (Join blank l) = l.
Proof.
  unfold FieldsSeq. induction l as [|w l IH]; intros Hl; [done|].
  apply Forall_cons in Hl as [[Hne Hw] Hl]. specialize (IH Hl).
  assert (Hflush : forall rest, match rev w ++ [] with [] => rest | _ :: _ => rev (rev w ++ []) :: rest end = w :: rest).
  { intros rest. rewrite app_nil_r, rev_involutive. destruct (rev w) eqn:E; [|done].
    apply (f_equal (@rev ascii)) in E. rewrite rev_involutive in E. by subst. }
  destruct l as [|w' l].
  - cbn [Join]. rewrite <- (app_nil_r w) at 1. rewrite fields_word by done. cbn [fields_loop].
    rewrite <- (Hflush []). by destruct (rev w ++ []).
  - change (Join blank (w :: w' :: l)) with (w ++ blank ++ Join blank (w' :: l)).
    rewrite fields_word by done. set (rest := Join blank (w' :: l)) in *. clearbody rest.
    unfold blank. cbn [app String.list_ascii_of_string fields_loop].
    match goal with |- context [space_at ?x] => change (space_at x) with 1%nat end. cbv iota.
    rewrite IH. rewrite <- (Hflush (w' :: l)). by destruct (rev w ++ []).
Qed.

(** ** Parsing the signature header *)

Definition tokens_of (values : list bytes) : list bytes := concat (FieldsSeq <$> values).
Definition total_bytes (values : list bytes) : Z := foldr (fun v n => Z.of_nat (length v) + n) 0 values.

Lemma parse_tokens_spec tokens n sigs :
  (n <= 32)%nat ->
  parse_tokens tokens n sigs =
  if decide (n + length tokens <= 32)%nat
  then inl ((n + length tokens)%nat, sigs ++ omap token_signature tokens)
  else inr ErrInvalidSignature.
Proof.
  revert n sigs. induction tokens as [|token tokens IH]; intros n sigs Hn; cbn [parse_tokens length omap list_omap].
  - rewrite Nat.add_0_r, app_nil_r. by rewrite decide_True.
  - unfold maxSignatureCount. destruct (Nat.ltb_spec 32 (S n)).
    + by rewrite decide_False by lia.
    + replace (n + S (length tokens))%nat with (S n + length tokens)%nat by lia.
      destruct (token_signature token); rewrite IH by lia; case_decide; try done.
      by rewrite <- (assoc_L (++)).
Qed.

Lemma total_bytes_nonneg values : 0 <= total_bytes values.
Proof. induction values; simpl; lia. Qed.

Lemma parse_values_spec values tb tc sigs :
  (tc <= 32)%nat -> tb <= maxSignatureHeaderBytes ->
  parse_values values tb tc sigs =
  if decide (tb + total_bytes values <= maxSignatureHeaderBytes /\ (tc + length (tokens_of values) <= 32)%nat)
  then inl (sigs ++ omap token_signature (tokens_of values))
  else inr ErrInvalidSignature.
Proof.
  revert tb tc sigs. induction values as [|value values IH]; intros tb tc sigs Htc Htb.
  - simpl. rewrite decide_True by (simpl; lia). by rewrite app_nil_r.
  - cbn [parse_values total_bytes foldr]. unfold tokens_of. cbn [fmap list_fmap concat]. fold (tokens_of values).
    fold (total_bytes values). pose proof (total_bytes_nonneg values). rewrite Z.gtb_ltb.
    rewrite length_app, omap_app.
    destruct (Z.ltb_spec maxSignatureHeaderBytes (tb + Z.of_nat (length value))).
    + rewrite decide_False by lia. done.
    + rewrite parse_tokens_spec by done. destruct (decide (tc + length (FieldsSeq value) <= 32)%nat) as [Hc|Hc].
      * rewrite IH by done. rewrite <- (assoc_L (++)).
        destruct (decide (_ /\ _)) as [Hd|Hd], (decide (_ /\ _)) as [Hd'|Hd']; try done; exfalso; lia.
      * rewrite decide_False by lia. done.
Qed.

(** The signatures a header offers, if it is within the limits. *)
Definition offered (headers : Header) : list bytes :=
  let values := header_Values headers HeaderSignature in
  if decide (total_bytes values <= maxSignatureHeaderBytes /\ (length (tokens_of values) <= 32)%nat)
  then omap token_signature (tokens_of values) else [].

Lemma parseSignatures_spec headers sigs :
  parseSignatures headers = inl sigs <-> sigs = offered headers /\ sigs <> [].
Proof.
  unfold parseSignatures, offered. destruct (header_Values headers HeaderSignature) as [|v vs] eqn:E.
  - split; [done|]. intros [-> Hne]. exfalso. apply Hne. by case_decide.
  - rewrite parse_values_spec by (unfold maxSignatureHeaderBytes; lia). rewrite Z.add_0_l, Nat.add_0_l.
    case_decide; simpl app; [|split; [done|by intros [-> ?]]].
    destruct (omap token_signature (tokens_of (v :: vs))) as [|s l]; split; try (by intros [= <-]); try (by intros [-> ?]).
Qed.

Lemma matched_spec secrets sigs id ts payload :
  matched secrets sigs id ts payload = true <->
  exists secret, secret ∈ secrets /\ signDigest secret id ts payload ∈ sigs.
Proof.
  unfold matched.
  assert (Hin : forall (e : bytes) (l : list bytes) b, foldl (fun m s => bool_decide (e = s) || m) b l = true <-> b = true \/ e ∈ l).
  { intros e l. induction l as [|x l IH]; intros b; simpl; [rewrite elem_of_nil; tauto|].
    rewrite IH, orb_true_iff, bool_decide_eq_true, elem_of_cons. tauto. }
  assert (Hout : forall (l : list bytes) b, foldl (fun m s => foldl (fun m' x => bool_decide (signDigest s id ts payload = x) || m') m sigs)
    b l = true <-> b = true \/ exists s, s ∈ l /\ signDigest s id ts payload ∈ sigs).
  { intros l. induction l as [|x l IH]; intros b; simpl.
    - split; [by left|]. intros [|(s & []%elem_of_nil & _)]; done.
    - rewrite IH, Hin. split.
      + intros [[?|?]|(s & ? & ?)]; [by left|right; exists x; by split; [left|]|right; exists s; by split; [right|]].
      + intros [?|(s & [->|?]%elem_of_cons & ?)]; [tauto|tauto|right; by exists s]. }
  rewrite Hout. split; [by intros [?|?]|by right].
Qed.

(** ** The content of a signature *)

Lemma valid_id_visible id : validMessageID id = true ->
  id <> [] /\ Forall visible id /\ dot ∉ id.
Proof.
  unfold validMessageID. destruct id as [|a id]; [done|]. rewrite forallb_forall. intros Hall.
  assert (Hf : forall x, x ∈ a :: id -> visible x /\ x <> dot).
  { intros x Hx%list_elem_of_In%Hall. apply negb_true_iff in Hx.
    rewrite !orb_false_iff, bool_decide_eq_false, !Nat.ltb_ge in Hx. unfold visible. lia || tauto. }
  split_and!; [done|apply Forall_forall; intros x Hx; by apply Hf|]. intros Hd. by apply Hf in Hd as [_ ?].
Qed.

(** What precedes the first dot determines the rest. *)
Lemma dot_split (a b x y : bytes) :
  dot ∉ a -> dot ∉ b -> a ++ [dot] ++ x = b ++ [dot] ++ y -> a = b /\ x = y.
Proof.
  revert b. induction a as [|c a IH]; intros [|d b] Ha Hb Heq; simpl in Heq.
  - by injection Heq as ->.
  - injection Heq as <- _. exfalso. apply Hb. by left.
  - injection Heq as -> _. exfalso. apply Ha. by left.
  - injection Heq as -> Heq. rewrite not_elem_of_cons in Ha, Hb.
    destruct (IH b) as [-> ->]; [tauto..|]. done.
Qed.

Lemma ParseInt_no_dot (ts : bytes) n : ParseInt (String.string_of_list_ascii ts) = Some n -> dot ∉ ts.
Proof.
  intros Hp. apply (ParseInt_char dot) in Hp; [|done..]. by rewrite String.list_ascii_of_string_of_list_ascii in Hp.
Qed.

(** What is signed determines the message: two identifiers the signer
    accepts, two timestamps that parse and two payloads give the same signed
    bytes only if they are the same, so that no byte can be moved from one part
    into another under the same signature. *)
Theorem signed_content_injective id id' ts ts' n n' payload payload' :
  validMessageID id = true -> validMessageID id' = true ->
  ParseInt (String.string_of_list_ascii ts) = Some n -> ParseInt (String.string_of_list_ascii ts') = Some n' ->
  signed_content id ts payload = signed_content id' ts' payload' ->
  id = id' /\ ts = ts' /\ payload = payload'.
Proof.
  intros (_ & _ & Hd)%valid_id_visible (_ & _ & Hd')%valid_id_visible Ht%ParseInt_no_dot Ht'%ParseInt_no_dot.
  unfold signed_content. intros Heq. apply dot_split in Heq as [-> Heq]; [|done..].
  apply dot_split in Heq as [-> ->]; done.
Qed.

(** ** Verification *)

Lemma requiredSingleHeader_spec headers name err v :
  requiredSingleHeader headers name err = inl v <-> header_Values headers name = [v] /\ v <> [].
Proof.
  unfold requiredSingleHeader. destruct (header_Values headers name) as [|[|a x] [|y l]]; simpl;
    split; try (by intros [= <-]); by intros [[= ->] ?].
Qed.

(** When [Verify] accepts. *)
Lemma Verify_accepts' v now headers payload m :
  Verify v now headers payload = inl m <->
  exists id ts sec secret,
    header_Values headers HeaderID = [id] /\ validMessageID id = true /\
    header_Values headers HeaderTimestamp = [ts] /\
    ParseInt (String.string_of_list_ascii ts) = Some sec /\ 0 <= sec /\
    - tolerance v <= time_sub now (time_Unix sec) <= tolerance v /\
    secret ∈ vsecrets v /\ signDigest secret id ts payload ∈ offered headers /\
    m = mkMetadata id (time_Unix sec).
Proof.
  unfold Verify. split.
  - intros H. destruct (requiredSingleHeader headers HeaderID _) as [id|] eqn:Eid; [|done].
    destruct (validMessageID id) eqn:Ev; [|done]. cbn [negb] in H.
    destruct (requiredSingleHeader headers HeaderTimestamp _) as [ts|] eqn:Ets; [|done].
    destruct (ParseInt _) as [sec|] eqn:Ep; [|done]. destruct (Z.ltb_spec sec 0); [done|].
    destruct (_ || _) eqn:Et; [done|]. rewrite orb_false_iff, Z.gtb_ltb, !Z.ltb_ge in Et.
    destruct (parseSignatures headers) as [sigs|] eqn:Es; [|done].
    destruct (matched _ _ _ _ _) eqn:Em; [|done]. injection H as <-.
    apply requiredSingleHeader_spec in Eid as [Eid _], Ets as [Ets _].
    apply parseSignatures_spec in Es as [-> _]. apply matched_spec in Em as (secret & Hs & Hd).
    exists id, ts, sec, secret. split_and!; done || lia.
  - intros (id & ts & sec & secret & Eid & Ev & Ets & Ep & Hsec & Ht & Hs & Hd & ->).
    assert (Hid : id <> []) by (by destruct id). assert (Hts : ts <> []) by (by intros ->).
    assert (Es : parseSignatures headers = inl (offered headers)).
    { apply parseSignatures_spec. split; [done|]. intros E. rewrite E in Hd. by apply elem_of_nil in Hd. }
    rewrite (proj2 (requiredSingleHeader_spec headers HeaderID ErrInvalidMessageID id)) by done. rewrite Ev.
    rewrite (proj2 (requiredSingleHeader_spec headers HeaderTimestamp ErrInvalidTimestamp ts)) by done.
    cbn [negb]. rewrite Ep. destruct (Z.ltb_spec sec 0); [lia|].
    assert ((time_sub now (time_Unix sec) >? tolerance v) || (time_sub now (time_Unix sec) <? - tolerance v) = false)
      as -> by (rewrite orb_false_iff, Z.gtb_ltb, !Z.ltb_ge; lia).
    rewrite Es. rewrite (proj2 (matched_spec _ _ _ _ _)) by (by exists secret). done.
Qed.

(** A token the signer writes. *)
Definition signature_token (digest : bytes) : bytes := signatureVersion ++ [comma] ++ EncodeToString digest.

Lemma token_signature_of digest : length digest = 32%nat -> token_signature (signature_token digest) = Some digest.
Proof.
  intros Hl. unfold token_signature, signature_token.
  change (cut_comma (signatureVersion ++ [comma] ++ EncodeToString digest))
    with (Some (signatureVersion, EncodeToString digest)).
  cbn [mbind option_bind]. rewrite decide_True by done. rewrite decode_encode. simpl. by rewrite Hl.
Qed.

Lemma signature_token_visible digest :
  signature_token digest <> [] /\ Forall visible (signature_token digest).
Proof.
  split; [done|]. unfold signature_token. rewrite !Forall_app. split_and!.
  - repeat (constructor; [vm_compute; lia|]). constructor.
  - constructor; [vm_compute; lia|constructor].
  - eapply Forall_impl; [apply encode_chars|]. intros a (_ & Ha & _). done.
Qed.

Lemma Join_length (l : list bytes) n :
  Forall (fun w => length w = n) l -> (length (Join blank l) <= length l * S n)%nat.
Proof.
  induction 1 as [|w l Hw Hl IH]; [done|]. destruct l as [|w' l]; simpl in *; [lia|].
  rewrite length_app. simpl. lia.
Qed.

(** The header of the signer offers its digests. *)
Lemma offered_Sign s now id payload headers :
  (length (secrets s) <= 32)%nat -> Sign s now id payload = inl headers ->
  let ts := lit (FormatInt (Unix now)) in
  header_Values headers HeaderID = [id] /\ header_Values headers HeaderTimestamp = [ts] /\
  offered headers = (fun secret => signDigest secret id ts payload) <$> secrets s.
Proof.
  intros Hn. unfold Sign. destruct (validMessageID id); [|done]. simpl negb. cbv iota zeta.
  set (ts := lit (FormatInt (Unix now))). set (digests := (fun secret => signDigest secret id ts payload) <$> secrets s).
  assert (Hsig : (fun secret => signatureVersion ++ [comma] ++ EncodeToString (signDigest secret id ts payload)) <$> secrets s
                 = signature_token <$> digests) by (unfold digests; by rewrite <- list_fmap_compose).
  rewrite Hsig. intros [= <-].
  assert (Hval : forall h a b c, header_Values (header_Set (header_Set (header_Set ∅ HeaderID a) HeaderTimestamp b)
    HeaderSignature c) h = if decide (CanonicalHeaderKey h = "Webhook-Signature"%string) then [c]
      else if decide (CanonicalHeaderKey h = "Webhook-Timestamp"%string) then [b]
      else if decide (CanonicalHeaderKey h = "Webhook-Id"%string) then [a] else []).
  { intros h a b c. unfold header_Values, header_Set.
    change (CanonicalHeaderKey HeaderID) with "Webhook-Id"%string.
    change (CanonicalHeaderKey HeaderTimestamp) with "Webhook-Timestamp"%string.
    change (CanonicalHeaderKey HeaderSignature) with "Webhook-Signature"%string.
    rewrite !lookup_insert, lookup_empty. repeat case_decide; simpl; done || congruence. }
  split_and!; [by rewrite Hval|by rewrite Hval|].
  unfold offered. cbv zeta.
  set (J := Join blank (signature_token <$> digests)) in *.
  assert (Hsv : header_Values (header_Set (header_Set (header_Set ∅ HeaderID id) HeaderTimestamp ts)
    HeaderSignature J) HeaderSignature = [J]) by (by rewrite Hval). rewrite Hsv. unfold J.
  assert (Htok : tokens_of [Join blank (signature_token <$> digests)] = signature_token <$> digests).
  { unfold tokens_of. simpl. rewrite app_nil_r. apply Fields_Join. apply Forall_fmap, Forall_true.
    intros d. apply signature_token_visible. }
  assert (Hlen : length digests = length (secrets s)) by (unfold digests; by rewrite length_fmap).
  rewrite Htok, decide_True.
  - unfold digests. rewrite <- list_fmap_compose. clear. induction (secrets s) as [|k l IH]; [done|].
    cbn [fmap list_fmap omap list_omap compose]. rewrite token_signature_of by apply hmac_length. by rewrite IH.
  - rewrite length_fmap, Hlen. split; [|done]. simpl. unfold maxSignatureHeaderBytes.
    pose proof (Join_length (signature_token <$> digests) 47) as HJ. rewrite length_fmap, Hlen in HJ.
    rewrite Z.add_0_r. assert (HF : Forall (fun w => length w = 47%nat) (signature_token <$> digests)).
    { apply Forall_fmap. unfold digests. apply Forall_fmap, Forall_true. intros k. unfold compose, signature_token.
      rewrite !length_app, encode_length. unfold signDigest. by rewrite hmac_length. }
    specialize (HJ HF). lia.
Qed.

(** The headers [Sign] sets, and no others. *)
Lemma Sign_form s now id payload h :
  Sign s now id payload = inl h ->
  exists sig, h = header_Set (header_Set (header_Set ∅ HeaderID id) HeaderTimestamp (lit (FormatInt (Unix now))))
                    HeaderSignature sig.
Proof.
  unfold Sign. destruct (negb _); [done|]. cbv zeta.
  match goal with |- context [Join blank ?x] => generalize (Join blank x) end.
  match goal with |- context [lit ?x] => generalize (lit x) end. intros ts sig Heq. exists sig. congruence.
Qed.

(** What [Sign] makes, [Verify] takes. *)
Lemma signed_verifies s v now now' id payload headers secret :
  Sign s now id payload = inl headers -> (length (secrets s) <= 32)%nat ->
  secret ∈ secrets s -> secret ∈ vsecrets v ->
  0 <= Unix now -> int64_ok (now / Second) ->
  - tolerance v <= time_sub now' (now / Second * Second) <= tolerance v ->
  Verify v now' headers payload = inl (mkMetadata id (now / Second * Second)).
Proof.
  intros Hs Hn Hin Hin' Hpos Hok Ht. apply Verify_accepts'.
  destruct (offered_Sign s now id payload headers Hn Hs) as (Hid & Hts & Hoff).
  assert (Htime : time_Unix (Unix now) = now / Second * Second).
  { unfold time_Unix, Unix. rewrite Z.sub_add. by rewrite wrap64_id. }
  exists id, (lit (FormatInt (Unix now))), (Unix now), secret. rewrite Htime, Hid, Hts, Hoff.
  split_and!; try done.
  - unfold Sign in Hs. by destruct (validMessageID id).
  - rewrite String.string_of_list_ascii_of_string. apply parse_format. unfold Unix, unixToInternal in *. int_lia.
  - lia.
  - lia.
  - apply list_elem_of_fmap. by exists secret.
Qed.

(** C14: a message that was signed is accepted.  For every message identifier the
    signer takes, every payload, and a verifier that shares one of the signer's
    secrets, [Verify] on the headers of [Sign] returns the identifier and the
    second the message was signed in, provided the signer has at most 32 secrets
    and the clocks differ by no more than the tolerance. *)
Theorem sign_verify s v now now' id payload headers secret :
  Sign s now id payload = inl headers -> (length (secrets s) <= 32)%nat ->
  secret ∈ secrets s -> secret ∈ vsecrets v ->
  0 <= Unix now -> int64_ok (now / Second) ->
  - tolerance v <= time_sub now' (now / Second * Second) <= tolerance v ->
  Verify v now' headers payload = inl (mkMetadata id (now / Second * Second)).
Proof. apply signed_verifies. Qed.

(** [Verify] accepts a message exactly when it has one valid identifier and
    one non-negative decimal timestamp within the tolerance of its clock, and a
    signature header within the limits in which some token is version v1, decodes
    to 32 bytes, and equals the HMAC of identifier, timestamp and payload under
    one of its secrets; it then returns that identifier and timestamp. *)
Theorem Verify_accepts v now headers payload m :
  Verify v now headers payload = inl m <->
  exists id ts sec secret,
    header_Values headers HeaderID = [id] /\ validMessageID id = true /\
    header_Values headers HeaderTimestamp = [ts] /\
    ParseInt (String.string_of_list_ascii ts) = Some sec /\ 0 <= sec /\
    - tolerance v <= time_sub now (time_Unix sec) <= tolerance v /\
    secret ∈ vsecrets v /\ signDigest secret id ts payload ∈ offered headers /\
    m = mkMetadata id (time_Unix sec).
Proof. apply Verify_accepts'. Qed.

(** ** Secrets and configurations *)

Definition secret_length (k : bytes) : Prop := (24 <= length k <= 64)%nat.

Lemma validateSecretLength_spec n : validateSecretLength n = None <-> (24 <= n <= 64)%nat.
Proof.
  unfold validateSecretLength, minSecretLength, maxSecretLength.
  destruct (Nat.ltb_spec n 24), (Nat.ltb_spec 64 n); simpl; split; intros; done || lia.
Qed.

Lemma add_secrets_spec acc l l' :
  add_secrets acc l = inl l' -> l' = acc ++ (key <$> l) /\ Forall secret_length (key <$> l).
Proof.
  revert acc. induction l as [|s l IH]; intros acc; simpl.
  - intros [= <-]. split; [by rewrite app_nil_r|constructor].
  - unfold validateSecret. destruct (validateSecretLength (length (key s))) eqn:E; [done|].
    intros [-> Hl]%IH. split; [by rewrite <- (assoc_L (++))|]. constructor; [|done].
    by apply validateSecretLength_spec in E.
Qed.

(** The options the package offers. *)
Definition signer_option (o : option SignerOption) : Prop :=
  o = None \/ exists l, o = Some (WithAdditionalSigningSecrets l).
Definition verifier_option (o : option VerifierOption) : Prop :=
  o = None \/ (exists l, o = Some (WithAdditionalVerificationSecrets l)) \/
  exists t, o = Some (WithTolerance t).

(** C32: secrets are well-formed by construction.  A secret parsed from its
    [whsec_] form is the encoded key, and is accepted exactly when the key has 24
    to 64 bytes; every secret of a signer or a verifier built from the package's
    options has such a key, the primary one comes first, and a verifier's
    tolerance is positive. *)
Theorem secrets_wellformed secret sopts vopts k :
  Forall signer_option sopts -> Forall verifier_option vopts ->
  (ParseSecret (secretPrefix ++ EncodeToString k)
   = if decide (secret_length k) then inl (mkSecret k)
     else inr (ErrWrapf (if decide (k = []) then "expected whsec_<base64>" else "key length") ErrInvalidSecret)) /\
  (forall s, NewSigner secret sopts = inl s ->
     Forall secret_length (secrets s) /\ head (secrets s) = Some (key secret)) /\
  (forall v, NewVerifier secret vopts = inl v ->
     Forall secret_length (vsecrets v) /\ head (vsecrets v) = Some (key secret) /\ 0 < tolerance v).
Proof.
  intros Hso Hvo. split_and!.
  - unfold ParseSecret. change (CutPrefix (secretPrefix ++ EncodeToString k) secretPrefix)
      with (Some (EncodeToString k)).
    pose proof (decode_encode k) as Hd. destruct (EncodeToString k) as [|a e] eqn:E.
    + assert (k = []) as -> by (unfold DecodeString in Hd; by injection Hd as <-).
      rewrite decide_False by (unfold secret_length; simpl; lia). by rewrite decide_True.
    + rewrite Hd. unfold NewSecret. destruct (validateSecretLength (length k)) eqn:El.
      * rewrite decide_False by (intros ?%validateSecretLength_spec; congruence).
        rewrite decide_False by (intros ->; by simpl in E).
        unfold validateSecretLength in El. destruct (_ || _); by simplify_eq.
      * rewrite decide_True; [done|]. by apply validateSecretLength_spec.
  - intros s. unfold NewSigner, newSignerConfig. destruct (validateSecret secret) eqn:Ev; [done|].
    apply validateSecretLength_spec in Ev. set (c0 := mkSignerConfig [key secret]).
    assert (H0 : Forall secret_length (sc_secrets c0) /\ head (sc_secrets c0) = Some (key secret))
      by (split; [by apply Forall_singleton|done]).
    revert H0. generalize c0. clear c0 Hvo. induction Hso as [|o sopts Ho _ IH]; intros c0 H0; simpl; [by intros [= <-]|].
    destruct Ho as [->|[l ->]]; [by apply IH|]. unfold WithAdditionalSigningSecrets.
    destruct (add_secrets (sc_secrets c0) l) as [l'|] eqn:Ea; [|done]. apply IH. simpl.
    apply add_secrets_spec in Ea as [-> Hl]. destruct H0 as [H1 H2]. split; [by apply Forall_app|].
    by destruct (sc_secrets c0).
  - intros v. unfold NewVerifier, newVerifierConfig. destruct (validateSecret secret) eqn:Ev; [done|].
    apply validateSecretLength_spec in Ev. set (c0 := mkVerifierConfig [key secret] defaultTolerance).
    assert (H0 : Forall secret_length (vc_secrets c0) /\ head (vc_secrets c0) = Some (key secret) /\ 0 < vc_tolerance c0)
      by (split_and!; [by apply Forall_singleton|done|done]).
    revert H0. generalize c0. clear c0 Hso. induction Hvo as [|o vopts Ho _ IH]; intros c0 H0; simpl; [by intros [= <-]|].
    destruct Ho as [->|[[l ->]|[t ->]]]; [by apply IH| |].
    + unfold WithAdditionalVerificationSecrets.
      destruct (add_secrets (vc_secrets c0) l) as [l'|] eqn:Ea; [|done]. apply IH. simpl.
      apply add_secrets_spec in Ea as [-> Hl]. destruct H0 as (H1 & H2 & H3). split_and!; [by apply Forall_app| |done].
      by destruct (vc_secrets c0).
    + unfold WithTolerance. destruct (Z.leb_spec t 0); [done|]. apply IH. simpl. tauto.
Qed.

(** ** Witnesses *)

Definition demo_key : bytes := lit "0123456789abcdef01234567".
Definition demo_signer : Signer := mkSigner [demo_key; rev demo_key].
Definition demo_verifier : Verifier := mkVerifier [rev demo_key] defaultTolerance.
(** 2024-01-01 00:00:00.5 UTC *)
Definition demo_now : Z := (1704067200 + unixToInternal) * Second + 500000000.

Lemma Sign_ok s now id payload : validMessageID id = true -> exists h, Sign s now id payload = inl h.
Proof. intros Hv. unfold Sign. rewrite Hv. by eexists. Qed.

Lemma sign_verify_witness :
  match Sign demo_signer demo_now (lit "msg_1") (lit "{}") with
  | inl headers =>
      Verify demo_verifier (demo_now + 3 * Minute) headers (lit "{}")
      = inl (mkMetadata (lit "msg_1") (demo_now / Second * Second))
  | inr _ => False
  end.
Proof.
  destruct (Sign demo_signer demo_now (lit "msg_1") (lit "{}")) as [headers|e] eqn:E.
  - apply (sign_verify demo_signer demo_verifier demo_now (demo_now + 3 * Minute) (lit "msg_1") (lit "{}") headers
      (rev demo_key)); [exact E|simpl; lia|right; left|left|vm_compute; discriminate|
      vm_compute; split; discriminate|vm_compute; split; discriminate].
  - destruct (Sign_ok demo_signer demo_now (lit "msg_1") (lit "{}") eq_refl) as [h Hh].
    rewrite Hh in E. discriminate E.
Defined.

Lemma signed_content_injective_witness :
  signed_content (lit "a") (lit "12") (lit ".") = signed_content (lit "a") (lit "12") (lit ".") /\
  lit "a" = lit "a".
Proof.
  split; [reflexivity|].
  apply (signed_content_injective (lit "a") (lit "a") (lit "12") (lit "12") 12 12 (lit ".") (lit ".")); reflexivity.
Defined.

Lemma secrets_wellformed_witness :
  ParseSecret (secretPrefix ++ EncodeToString demo_key) = inl (mkSecret demo_key) /\
  (forall s, NewSigner (mkSecret demo_key) [None; Some (WithAdditionalSigningSecrets [mkSecret (rev demo_key)])] = inl s ->
     Forall secret_length (secrets s)).
Proof.
  destruct (secrets_wellformed (mkSecret demo_key)
    [None; Some (WithAdditionalSigningSecrets [mkSecret (rev demo_key)])] [] demo_key) as (H1 & H2 & _).
  - apply Forall_cons_2; [by left|]. apply Forall_singleton. right. by eexists.
  - apply Forall_nil_2.
  - split; [rewrite H1; reflexivity|]. intros s Hs. by apply H2.
Defined.
