(* ===== verification/WebhookSender.v ===== *)
(** * Webhook delivery: [src/webhook/sender]

    A sender posts one signed message to one endpoint.  URL parsing, HTTP dates
    and the transport are the standard library's: parameters.  A delivered
    request is accepted by a verifier that shares a secret with the signer. *)

From S2P Require Import Prelude GoErrors GoStrconv GoUtf8 GoBase64 GoSHA256 Webhook.
From Stdlib Require Import Ascii.
From stdpp Require Import options.
Set Default Proof Using "Type*".
Local Open Scope Z_scope.

Local Abbreviation bytes := (list ascii).
Local Abbreviation lit := String.list_ascii_of_string.

(** ** [errors.go] *)

Definition ErrInvalidContext : error := ErrNew "webhook/sender: invalid context".
Definition ErrInvalidEndpoint : error := ErrNew "webhook/sender: invalid endpoint".
Definition ErrInsecureEndpoint : error := ErrNew "webhook/sender: insecure endpoint".
Definition ErrNilSigner : error := ErrNew "webhook/sender: nil signer".

(** ** The standard library's values *)

(** The parts of a [url.URL] the package reads. *)
Record URL := mkURL {
  Scheme : string; Hostname : string; Port : string; hasUser : bool; Fragment : string; Opaque : string;
  urlRest : string
}.

Record HTTPClient := mkHTTPClient { Timeout : Z; followsRedirects : bool }.
Record Response := mkResponse { StatusCode : Z; rHeader : Header; RetryAfter : Z }.
Record Request := mkRequest { rURL : URL; Body : bytes; replayable : bool; reqHeader : Header }.

(** ** [config.go] *)

Definition defaultTimeout : Z := 30 * Second.

Definition EndpointValidator := context -> URL -> option error.

Record config := mkConfig {
  client : HTTPClient; timeout : Z; allowHTTP : bool; validators : list EndpointValidator
}.

Definition WithHTTPClient (cl : option HTTPClient) (c : config) : config :=
  match cl with
  | Some cl => mkConfig cl (timeout c) (allowHTTP c) (validators c)
  | None => c
  end.
Definition WithTimeout (t : Z) (c : config) : config :=
  if t >? 0 then mkConfig (client c) t (allowHTTP c) (validators c) else c.
Definition WithInsecureHTTP (c : config) : config := mkConfig (client c) (timeout c) true (validators c).
Definition WithEndpointValidator (v : option EndpointValidator) (c : config) : config :=
  match v with
  | Some v => mkConfig (client c) (timeout c) (allowHTTP c) (validators c ++ [v])
  | None => c
  end.

Definition newConfig (options : list (option (config -> config))) : config :=
  foldl (fun c o => match o with Some f => f c | None => c end)
    (mkConfig (mkHTTPClient 0 true) 0 false []) options.

(** A copy of the client, with a timeout, that never follows redirects. *)
Definition newHTTPClient (c : config) : HTTPClient :=
  mkHTTPClient
    (if timeout c >? 0 then timeout c
     else if Timeout (client c) <=? 0 then defaultTimeout else Timeout (client c))
    false.

(** ** [sender.go] *)

Record Message := mkMessage { mID : bytes; Payload : bytes; mHeader : list (string * list bytes) }.

Definition Successful (r : option Response) : bool :=
  match r with
  | None => false
  | Some r => (StatusCode r >=? 200) && (StatusCode r <? 300)
  end.

Record Sender := mkSender {
  endpoint : URL; signer : Signer; sclient : HTTPClient; svalidators : list EndpointValidator
}.

(** [strings.ToLower] on the ASCII letters of a scheme. *)
Fixpoint ToLower (s : string) : string :=
  match s with
  | EmptyString => EmptyString
  | String a s =>
      let c := code a in
      String (if (65 <=? c)%nat && (c <=? 90)%nat then ascii_of_nat (c + 32) else a) (ToLower s)
  end.

(** [strconv.ParseUint(port, 10, 16)] *)
Definition port_ok (port : string) : bool :=
  match parseUint port with Some n => n <? 65536 | None => false end.

Section Sending.
Variables (url_Parse : string -> URL + error) (ParseTime : bytes -> option Z).

Definition parseEndpoint (value : string) (allowHTTP : bool) : URL + error :=
  match url_Parse value with
  | inr err => inr (ErrWrapf "parse" ErrInvalidEndpoint)
  | inl e =>
      if bool_decide (Scheme e = "") || bool_decide (Hostname e = "") || hasUser e ||
         negb (bool_decide (Fragment e = "")) || negb (bool_decide (Opaque e = ""))
      then inr ErrInvalidEndpoint
      else if negb (bool_decide (Port e = "")) && negb (port_ok (Port e)) then inr ErrInvalidEndpoint
      else
        let scheme := ToLower (Scheme e) in
        let e := mkURL scheme (Hostname e) (Port e) (hasUser e) (Fragment e) (Opaque e) (urlRest e) in
        if bool_decide (scheme = "https") then inl e
        else if bool_decide (scheme = "http") then
          if negb allowHTTP then inr ErrInsecureEndpoint else inl e
        else inr ErrInvalidEndpoint
  end%string.

Definition New (endpoint : string) (signer : option Signer) (options : list (option (config -> config)))
    : Sender + error :=
  match signer with
  | None => inr ErrNilSigner
  | Some s =>
      let c := newConfig options in
      match parseEndpoint endpoint (allowHTTP c) with
      | inr err => inr err
      | inl parsed => inl (mkSender parsed s (newHTTPClient c) (validators c))
      end
  end.

(** The source is listed in the order the map is ranged over. *)
Definition cloneHeader (source : list (string * list bytes)) : Header :=
  foldl (fun target nv =>
           let canonicalName := CanonicalHeaderKey nv.1 in
           <[canonicalName := default [] (target !! canonicalName) ++ nv.2]> target) ∅ source.

(** [Header.Get]: the first value, or the empty string. *)
Definition header_Get (h : Header) (name : string) : bytes := default [] (head (header_Values h name)).

(** Replace the headers of [sigs], listed in the order of their range. *)
Definition set_headers (sigs : list (string * list bytes)) (h : Header) : Header :=
  foldl (fun h nv => <[nv.1 := nv.2]> (delete (CanonicalHeaderKey nv.1) h)) h sigs.

Definition parseRetryAfter (value : bytes) (now : Z) : Z :=
  let value := TrimSpace value in
  if bool_decide (value = []) then 0
  else
    match ParseInt (String.string_of_list_ascii value) with
    | Some seconds =>
        if (seconds <=? 0) || (seconds >? Z.quot maxInt64 Second) then 0 else wrap64 (seconds * Second)
    | None =>
        match ParseTime value with
        | None => 0
        | Some date => let delay := time_sub date now in if delay <=? 0 then 0 else delay
        end
    end.

(** The validators see a copy of the endpoint each; the first error stops. *)
Fixpoint run_validators (ctx : context) (e : URL) (vs : list EndpointValidator) : option error :=
  match vs with
  | [] => None
  | v :: vs =>
      match v ctx e with
      | Some err => Some (ErrJoin [ErrInvalidEndpoint; err])
      | None => run_validators ctx e vs
      end
  end.

(** The request [Send] makes, when it makes one: [newRequest] is whether
    [http.NewRequestWithContext] accepts the endpoint. *)
Definition build (s : Sender) (ctx : option context) (now : Z) (message : Message)
    (newRequest : option error) : Request + error :=
  match ctx with
  | None => inr ErrInvalidContext
  | Some c =>
      match run_validators c (endpoint s) (svalidators s) with
      | Some err => inr err
      | None =>
          match Sign (signer s) now (mID message) (Payload message) with
          | inr err => inr err
          | inl signatureHeaders =>
              match newRequest with
              | Some err => inr (ErrWrapf "webhook/sender: create request" err)
              | None =>
                  let h := cloneHeader (mHeader message) in
                  let h := if bool_decide (header_Get h "content-type" = [])
                           then header_Set h "content-type" (lit "application/json") else h in
                  inl (mkRequest (endpoint s) (Payload message) false
                         (set_headers (map_to_list signatureHeaders) h))
              end
          end
      end
  end.

(** [Do] is the transport; it is called at most once. *)
Definition Send (s : Sender) (ctx : option context) (now now' : Z) (message : Message)
    (newRequest : option error) (transport : HTTPClient -> Request -> (Z * Header) + error)
    : Response + error :=
  match build s ctx now message newRequest with
  | inr err => inr err
  | inl request =>
      match transport (sclient s) request with
      | inr err => inr (ErrWrapf "webhook/sender: send request" err)
      | inl (status, h) =>
          inl (mkResponse status h (parseRetryAfter (header_Get h "retry-after") now'))
      end
  end.
End Sending.

(** ** Properties *)

(** Replacing canonical names is a left-biased union. *)
Lemma set_headers_union l (h : Header) :
  NoDup l.*1 -> Forall (fun nv => CanonicalHeaderKey nv.1 = nv.1) l ->
  set_headers l h = list_to_map l ∪ h.
Proof.
  revert h. induction l as [|[n v] l IH]; intros h Hnd Hc.
  - simpl. by rewrite (left_id_L ∅ (∪)).
  - apply Forall_cons in Hc as [Hn Hc]. cbn [fmap list_fmap fst] in Hnd. apply NoDup_cons in Hnd as [Hni Hnd].
    change (set_headers ((n, v) :: l) h) with (set_headers l (<[n := v]> (delete (CanonicalHeaderKey n) h))).
    cbn [fst] in Hn. rewrite Hn, IH by done. rewrite insert_delete_eq. cbn [list_to_map foldr uncurry].
    rewrite <- insert_union_l. apply not_elem_of_list_to_map_1 in Hni. by rewrite insert_union_r.
Qed.

(** The headers of a signer are under canonical names. *)
Lemma Sign_canonical s now id payload headers :
  Sign s now id payload = inl headers -> map_Forall (fun n _ => CanonicalHeaderKey n = n) headers.
Proof.
  intros [sig ->]%Sign_form. unfold header_Set.
  repeat apply map_Forall_insert_2; [reflexivity..|]. apply map_Forall_empty.
Qed.

Lemma header_Values_union (h h' : Header) name :
  is_Some (h !! CanonicalHeaderKey name) -> header_Values (h ∪ h') name = header_Values h name.
Proof. intros [v Hv]. unfold header_Values. by rewrite (lookup_union_Some_l _ _ _ _ Hv), Hv. Qed.

Lemma Sign_has_headers s now id payload headers :
  Sign s now id payload = inl headers ->
  is_Some (headers !! CanonicalHeaderKey HeaderID) /\ is_Some (headers !! CanonicalHeaderKey HeaderTimestamp) /\
  is_Some (headers !! CanonicalHeaderKey HeaderSignature).
Proof.
  intros [sig ->]%Sign_form. unfold header_Set.
  change (CanonicalHeaderKey HeaderID) with "Webhook-Id"%string.
  change (CanonicalHeaderKey HeaderTimestamp) with "Webhook-Timestamp"%string.
  change (CanonicalHeaderKey HeaderSignature) with "Webhook-Signature"%string.
  split_and!.
  - exists [id]. by rewrite !lookup_insert_ne, lookup_insert_eq by done.
  - eexists. by rewrite lookup_insert_ne, lookup_insert_eq by done.
  - eexists. by rewrite lookup_insert_eq.
Qed.

(** [Verify] reads the three headers and nothing else. *)
Lemma Verify_headers v now (h h' : Header) payload :
  (forall name, name ∈ [HeaderID; HeaderTimestamp; HeaderSignature] -> header_Values h name = header_Values h' name) ->
  Verify v now h payload = Verify v now h' payload.
Proof.
  intros Hh. unfold Verify, requiredSingleHeader, parseSignatures.
  rewrite (Hh HeaderID), (Hh HeaderTimestamp), (Hh HeaderSignature) by set_solver. done.
Qed.

(** C33: what a sender delivers, the receiver accepts.  The request [Send] gives
    the transport goes to the configured endpoint, carries the message's payload,
    is not replayable, and is accepted by every verifier that shares a secret with
    the signer and whose clock is within its tolerance, whatever headers the
    message itself brings. *)
Theorem delivered_verifies s c now now' message q v secret :
  build s (Some c) now message None = inl q ->
  (length (secrets (signer s)) <= 32)%nat -> secret ∈ secrets (signer s) -> secret ∈ vsecrets v ->
  0 <= Unix now -> int64_ok (now / Second) ->
  - tolerance v <= time_sub now' (now / Second * Second) <= tolerance v ->
  rURL q = endpoint s /\ Body q = Payload message /\ replayable q = false /\
  Verify v now' (reqHeader q) (Body q) = inl (mkMetadata (mID message) (now / Second * Second)).
Proof.
  intros Hb Hn Hin Hin' Hu Hok Ht. unfold build in Hb.
  destruct (run_validators _ _ _); [done|].
  destruct (Sign (signer s) now (mID message) (Payload message)) as [sh|] eqn:Es; [|done].
  set (h := if bool_decide _ then _ else _) in Hb. clearbody h.
  assert (q = mkRequest (endpoint s) (Payload message) false (set_headers (map_to_list sh) h)) as -> by congruence.
  clear Hb. cbn [rURL Body replayable reqHeader]. split_and!; [done..|].
  rewrite set_headers_union.
  - rewrite list_to_map_to_list. destruct (Sign_has_headers _ _ _ _ _ Es) as (H1 & H2 & H3).
    rewrite (Verify_headers v now' _ sh).
    + apply (signed_verifies (signer s) v now now' (mID message) (Payload message) sh secret); done.
    + intros name. rewrite !elem_of_cons, elem_of_nil.
      intros [->|[->|[->|[]]]]; by apply header_Values_union.
  - apply NoDup_fst_map_to_list.
  - apply Forall_forall. intros [n x] Hx%elem_of_map_to_list.
    by apply (Sign_canonical _ _ _ _ _ Es n x).
Qed.

(** A sender is safe by construction: [New] accepts only absolute endpoints
    with a host, no user, fragment or opaque part, a 16-bit port if any, and the
    scheme https, or http when that was allowed explicitly; its client has a
    positive timeout and never follows a redirect. *)
Theorem sender_secure url_Parse e signer options s :
  New url_Parse e signer options = inl s ->
  (Scheme (endpoint s) = "https" \/ (Scheme (endpoint s) = "http" /\ allowHTTP (newConfig options) = true)) /\
  Hostname (endpoint s) <> "" /\ hasUser (endpoint s) = false /\ Fragment (endpoint s) = "" /\
  Opaque (endpoint s) = "" /\ (Port (endpoint s) = "" \/ port_ok (Port (endpoint s)) = true) /\
  0 < Timeout (sclient s) /\ followsRedirects (sclient s) = false.
Proof.
  unfold New. destruct signer as [sg|]; [|done].
  destruct (parseEndpoint url_Parse e (allowHTTP (newConfig options))) as [u|] eqn:Ep; [|done]. intros [= <-].
  cbn [endpoint sclient].
  assert (Htime : 0 < Timeout (newHTTPClient (newConfig options)) /\
    followsRedirects (newHTTPClient (newConfig options)) = false).
  { unfold newHTTPClient. simpl. rewrite Z.gtb_ltb. unfold defaultTimeout, Second.
    destruct (Z.ltb_spec 0 (timeout (newConfig options))); [done|].
    destruct (Z.leb_spec (Timeout (client (newConfig options))) 0); done || lia. }
  unfold parseEndpoint in Ep. destruct (url_Parse e) as [x|]; [|done].
  destruct (_ || _) eqn:Eb in Ep; [done|]. rewrite !orb_false_iff, !negb_false_iff in Eb.
  rewrite !bool_decide_eq_false, !bool_decide_eq_true in Eb. destruct Eb as ((((H1 & H2) & H3) & H4) & H5).
  destruct (_ && _) eqn:Epo in Ep; [done|]. rewrite andb_false_iff, !negb_false_iff, bool_decide_eq_true in Epo.
  destruct (bool_decide (ToLower (Scheme x) = "https"%string)) eqn:E1.
  - apply bool_decide_eq_true in E1. injection Ep as <-. simpl. split_and!; try tauto.
  - destruct (bool_decide (ToLower (Scheme x) = "http"%string)) eqn:E2; [|done].
    apply bool_decide_eq_true in E2. destruct (allowHTTP (newConfig options)) eqn:Ea; [|done].
    injection Ep as <-. simpl. split_and!; try tauto.
Qed.

(** The delay of a [Retry-After] header never overflows. *)
Lemma parseRetryAfter_range ParseTime value now :
  int64_ok (parseRetryAfter ParseTime value now) /\ 0 <= parseRetryAfter ParseTime value now.
Proof.
  unfold parseRetryAfter. cbv zeta. destruct (bool_decide _); [split; [split|]; vm_compute; congruence|].
  destruct (ParseInt _) as [sec|].
  - destruct (Z.leb_spec sec 0); [split; [split|]; vm_compute; congruence|]. rewrite Z.gtb_ltb. simpl orb.
    change (Z.quot maxInt64 Second) with 9223372036. destruct (Z.ltb_spec 9223372036 sec);
      [split; [split|]; vm_compute; congruence|]. unfold Second. rewrite wrap64_id by int_lia. int_lia.
  - destruct (ParseTime _) as [d|]; [|split; [split|]; vm_compute; congruence].
    unfold time_sub. destruct (decide (int64_ok (d - now))) as [Hi|].
    + destruct (Z.leb_spec (d - now) 0); int_lia.
    + destruct (d <? now); vm_compute; split; [split| |split|]; congruence.
Qed.

(** ** Witnesses *)

Definition demo_url : URL := mkURL "HTTPS" "example.com" "8443" false "" "" "/hook".
Definition demo_sender : Sender := mkSender demo_url demo_signer (mkHTTPClient Second false) [].
(** The message tries to bring its own signature. *)
Definition demo_message : Message :=
  mkMessage (lit "msg_1") (lit "{}") [("WEBHOOK-signature"%string, [lit "v1,AAAA"])].

Lemma build_ok s c now message :
  validMessageID (mID message) = true -> svalidators s = [] ->
  exists q, build s (Some c) now message None = inl q.
Proof.
  intros Hv Hs. unfold build. rewrite Hs. simpl run_validators. cbv iota.
  destruct (Sign_ok (signer s) now (mID message) (Payload message) Hv) as [h ->]. by eexists.
Qed.

Lemma delivered_verifies_witness :
  exists q, build demo_sender (Some Background) demo_now demo_message None = inl q /\
    Verify demo_verifier (demo_now + Minute) (reqHeader q) (Body q)
    = inl (mkMetadata (lit "msg_1") (demo_now / Second * Second)).
Proof.
  destruct (build_ok demo_sender Background demo_now demo_message eq_refl eq_refl) as [q Hq].
  exists q. split; [exact Hq|].
  apply (delivered_verifies demo_sender Background demo_now (demo_now + Minute) demo_message q demo_verifier
    (rev demo_key)); [exact Hq|simpl; lia|right; left|left|vm_compute; discriminate|
    vm_compute; split; discriminate|vm_compute; split; discriminate].
Defined.

Lemma sender_secure_witness :
  match New (fun _ => inl demo_url) "HTTPS://example.com:8443/hook" (Some demo_signer) [] with
  | inl s => Scheme (endpoint s) = "https"%string /\ Timeout (sclient s) = 30 * Second /\ 0 < Timeout (sclient s)
  | inr _ => False
  end.
Proof.
  destruct (New (fun _ => inl demo_url) "HTTPS://example.com:8443/hook" (Some demo_signer) []) as [s|] eqn:E;
    [|discriminate E].
  destruct (sender_secure (fun _ => inl demo_url) _ _ _ s E) as (_ & _ & _ & _ & _ & _ & Ht & _).
  injection E as <-. split_and!; [reflexivity|reflexivity|exact Ht].
Defined.
