(* ===== verification/Filesystem.v ===== *)
(** * Logical filesystems: [src/filesystem]

    Paths and their mapping to object keys, the length of an upload, page sizes,
    the driver contract, and the repository's portable operations. *)

From S2P Require Import Prelude GoErrors GoUtf8.
From Stdlib Require Import Ascii.
From stdpp Require Import options.
Set Default Proof Using "Type*".
Local Open Scope Z_scope.

Local Abbreviation bytes := (list ascii).
Local Abbreviation lit := String.list_ascii_of_string.

(** ** Strings of the standard library *)

Definition slash : ascii := ascii_of_nat 47.

(** The elements between slashes. *)
Fixpoint elements (cur s : bytes) : list bytes :=
  match s with
  | [] => [rev cur]
  | a :: s => if decide (a = slash) then rev cur :: elements [] s else elements (a :: cur) s
  end.

(** [fs.ValidPath] *)
Definition good_element (e : bytes) : bool :=
  negb (bool_decide (e = [])) && negb (bool_decide (e = lit ".")) && negb (bool_decide (e = lit "..")).
Definition fs_ValidPath (path : string) : bool :=
  ValidString path &&
  (bool_decide (path = "."%string) || forallb good_element (elements [] (lit path))).

(** ** [paths.go] *)

Definition ErrInvalidPath : error := ErrNew "filesystem: invalid path".
Definition ErrNotFound : error := ErrNew "filesystem: entry not found".
Definition ErrContentLengthRequired : error := ErrNew "filesystem: content length required".
Definition ErrInvalidContentLength : error := ErrNew "filesystem: invalid content length".

(** [&fs.PathError{...}] wraps its [Err]. *)
Definition PathError (op path : string) (err : error) : error := ErrWrapf (op +:+ " " +:+ path) err.

Definition ValidPath (path : string) : bool :=
  fs_ValidPath path && negb (bool_decide (ascii_of_nat 92 ∈ lit path)).

Definition ValidatePath (path : string) : option error :=
  if ValidPath path then None else Some (PathError "validate" path ErrInvalidPath).

Definition ValidateFilePath (path : string) : option error :=
  match ValidatePath path with
  | Some err => Some err
  | None =>
      if bool_decide (path = "."%string) then Some (PathError "validate" path ErrInvalidPath) else None
  end.

Fixpoint trim_left_slashes (s : bytes) : bytes :=
  match s with
  | a :: s' => if decide (a = slash) then trim_left_slashes s' else s
  | [] => []
  end.
(** [strings.Trim(s, "/")] *)
Definition trim_slashes (s : bytes) : bytes := rev (trim_left_slashes (rev (trim_left_slashes s))).

Record PathPrefixer := mkPathPrefixer { prefix : bytes }.

Definition NewPathPrefixer (p : bytes) : PathPrefixer := mkPathPrefixer (trim_slashes p).

Definition Prefix (p : PathPrefixer) (path : bytes) : bytes :=
  if decide (path = lit ".") then prefix p
  else if decide (prefix p = []) then path
  else prefix p ++ [slash] ++ path.

(** [strings.CutPrefix] *)
Fixpoint cut_prefix (p s : bytes) : option bytes :=
  match p, s with
  | [], _ => Some s
  | a :: p, b :: s => if decide (a = b) then cut_prefix p s else None
  | _ :: _, [] => None
  end.

(** Without the prefix [CutPrefix] returns the key as it is. *)
Definition Strip (p : PathPrefixer) (key : bytes) : bytes * bool :=
  let key := match key with a :: k => if decide (a = slash) then k else key | [] => [] end in
  if decide (prefix p = []) then
    if decide (key = []) then (lit ".", true) else (key, true)
  else if decide (key = prefix p) then (lit ".", true)
  else
    match cut_prefix (prefix p ++ [slash]) key with
    | Some path => (path, true)
    | None => (key, false)
    end.

(** ** [filesystem.go] *)

Inductive EntryKind := EntryKindUnknown | EntryKindFile | EntryKindDirectory.

Record Entry := mkEntry {
  Path : string; Kind : EntryKind; Size : Z; LastModified : Z; ContentType : string;
  Metadata : list (string * string)
}.

Definition IsFile (e : Entry) : bool := match Kind e with EntryKindFile => true | _ => false end.
Definition IsDir (e : Entry) : bool := match Kind e with EntryKindDirectory => true | _ => false end.

(** What a reader offers about its length: nothing, [Len()], or seeking, with
    what its three seeks return. *)
Inductive source :=
| NilSource
| LenSource (len : Z)
| SeekSource (current : Z + error) (end_ : Z + error) (restore : option error)
| OtherSource.

Definition remainingLength (current end_ : Z + error) (restore : option error) : Z + error :=
  match current with
  | inr err => inr err
  | inl current =>
      match end_, restore with
      | inr err, _ => inr err
      | _, Some err => inr err
      | inl end_, None =>
          if end_ <? current then inr ErrInvalidContentLength else inl (wrap64 (end_ - current))
      end
  end.

(** The length and whether it is known, or an error. *)
Definition inferContentLength (src : source) : (Z * bool) + error :=
  match src with
  | NilSource => inl (0, true)
  | LenSource length => if length <? 0 then inr ErrInvalidContentLength else inl (length, true)
  | SeekSource current end_ restore =>
      match remainingLength current end_ restore with
      | inr err => inr err
      | inl length => inl (length, true)
      end
  | OtherSource => inl (0, false)
  end.

Record PutOptions := mkPutOptions {
  ContentLength : option Z; pContentType : string; pMetadata : list (string * string)
}.

Definition ResolveContentLength (o : PutOptions) (src : source) : Z + error :=
  match ContentLength o with
  | Some n => if n <? 0 then inr ErrInvalidContentLength else
      match inferContentLength src with
      | inr err => inr (ErrWrapf "" ErrInvalidContentLength)
      | inl (inferred, known) =>
          if known && negb (n =? inferred) then inr (ErrWrapf "explicit value" ErrInvalidContentLength)
          else inl n
      end
  | None =>
      match inferContentLength src with
      | inr err => inr (ErrWrapf "" ErrInvalidContentLength)
      | inl (inferred, known) => if known then inl inferred else inr ErrContentLengthRequired
      end
  end.

Definition DefaultListLimit : Z := 1000.
Definition MaxListLimit : Z := 1000.

Record ListOptions := mkListOptions { Recursive : bool; Limit : Z; Cursor : string }.

Definition Normalize (o : ListOptions) : ListOptions :=
  mkListOptions (Recursive o)
    (if Limit o <? 1 then DefaultListLimit else if Limit o >? MaxListLimit then MaxListLimit else Limit o)
    (Cursor o).

Record ListPage := mkListPage { Entries : list Entry; NextCursor : string }.

(** ** Drivers

    A driver acts on a world [W]; [F] is an open reader, which [read_all] drains
    and [length_of] measures as [ResolveContentLength] would. *)
Class Driver (W F : Type) := {
  Open : context -> string -> W -> W * (F + error);
  Put : context -> string -> F -> PutOptions -> W -> W * option error;
  Delete : context -> string -> W -> W * option error;
  Stat : context -> string -> W -> W * (Entry + error);
  ListFiles : context -> string -> ListOptions -> W -> W * (ListPage + error);
  ReadAll : F -> W -> W * (bytes + error);
  Reader : bytes -> F;
  nativeCopy : option (context -> string -> string -> W -> W * option error);
  nativeMove : option (context -> string -> string -> W -> W * option error)
}.

(** ** [repository.go] *)

Section Repository.
Context {W F : Type} `{!Driver W F}.

Definition ReadFile (ctx : context) (path : string) (w : W) : W * (bytes + error) :=
  match Open ctx path w with
  | (w, inr err) => (w, inr err)
  | (w, inl reader) => ReadAll reader w
  end.

(** [DetectContentType] is the standard library's sniffing. *)
Definition WriteFile (DetectContentType : bytes -> string) (ctx : context) (path : string) (value : bytes)
    (options : PutOptions) (w : W) : W * option error :=
  let options := if bool_decide (pContentType options = "")
                 then mkPutOptions (ContentLength options) (DetectContentType value) (pMetadata options)
                 else options in
  Put ctx path (Reader value) options w.

Definition Exists (ctx : context) (path : string) (w : W) : W * (bool * option error) :=
  match Stat ctx path w with
  | (w, inl _) => (w, (true, None))
  | (w, inr err) =>
      (w, if errors_Is err "filesystem: entry not found" then (false, None) else (false, Some err))
  end.

Definition Copy (ctx : context) (src dst : string) (w : W) : W * option error :=
  match nativeCopy with
  | Some copy => copy ctx src dst w
  | None =>
      match Stat ctx src w with
      | (w, inr err) => (w, Some err)
      | (w, inl entry) =>
          match Open ctx src w with
          | (w, inr err) => (w, Some err)
          | (w, inl reader) =>
              Put ctx dst reader
                (mkPutOptions (Some (Size entry)) (ContentType entry) (Metadata entry)) w
          end
      end
  end.

Definition Move (ctx : context) (src dst : string) (w : W) : W * option error :=
  match nativeMove with
  | Some move => move ctx src dst w
  | None =>
      match Copy ctx src dst w with
      | (w, Some err) => (w, Some err)
      | (w, None) => Delete ctx src w
      end
  end.
End Repository.

(** ** Properties *)

Lemma cut_prefix_app p s : cut_prefix p (p ++ s) = Some s.
Proof. induction p as [|a p IH]; simpl; [done|]. by rewrite decide_True. Qed.

Lemma cut_prefix_Some p s t : cut_prefix p s = Some t -> s = p ++ t.
Proof.
  revert s. induction p as [|a p IH]; intros s; simpl; [by intros [= ->]|].
  destruct s as [|b s]; [done|]. case_decide; [|done]. intros ->%IH. by subst.
Qed.

(** A string with good elements does not begin with a slash, and is not empty. *)
Lemma good_path_head s :
  forallb good_element (elements [] s) = true -> exists a t, s = a :: t /\ a <> slash.
Proof.
  destruct s as [|a t]; simpl; [done|]. destruct (decide (a = slash)); simpl; [done|]. by eauto.
Qed.

(** A trimmed string neither begins nor ends with a slash. *)
Lemma trim_left_head s : match trim_left_slashes s with a :: _ => a <> slash | [] => True end.
Proof. induction s as [|a s IH]; simpl; [done|]. by case_decide. Qed.

Lemma trim_left_suffix s : exists p, s = p ++ trim_left_slashes s.
Proof.
  induction s as [|a s [p IH]]; simpl; [by exists []|]. case_decide; [|by exists []].
  exists (a :: p). simpl. by rewrite <- IH.
Qed.

Lemma trim_slashes_head s : match trim_slashes s with a :: _ => a <> slash | [] => True end.
Proof.
  unfold trim_slashes. pose proof (trim_left_head s) as Hh. set (u := trim_left_slashes s) in *.
  destruct (trim_left_suffix (rev u)) as [p Hp]. apply (f_equal (@rev ascii)) in Hp.
  rewrite rev_involutive, rev_app_distr in Hp. set (v := rev (trim_left_slashes (rev u))) in *.
  destruct v as [|a v]; [done|]. rewrite Hp in Hh. done.
Qed.

(** Logical paths survive the mapping to object keys: for every configured
    prefix, [Strip] recovers the path [Prefix] was given, the logical root
    included, so that distinct valid paths have distinct keys; and with a prefix
    [Strip] accepts nothing but the prefix itself and the keys below it. *)
Theorem prefix_strip_roundtrip p path key path' :
  ValidPath path = true ->
  Strip (NewPathPrefixer p) (Prefix (NewPathPrefixer p) (lit path)) = (lit path, true) /\
  (trim_slashes p <> [] -> Strip (NewPathPrefixer p) key = (path', true) ->
   exists k, (key = k \/ key = slash :: k) /\
     ((k = trim_slashes p /\ path' = lit ".") \/ k = trim_slashes p ++ [slash] ++ path')).
Proof.
  intros Hv. unfold Strip, Prefix, NewPathPrefixer. cbn [prefix]. pose proof (trim_slashes_head p) as Hh.
  set (q := trim_slashes p) in *. split.
  - destruct (decide (lit path = lit ".")) as [Hdot|Hdot].
    + rewrite Hdot. destruct q as [|a q]; [done|]. rewrite (decide_False (P := a = slash)) by done.
      rewrite decide_False by done. by rewrite decide_True.
    + assert (Hp : exists a t, lit path = a :: t /\ a <> slash).
      { unfold ValidPath, fs_ValidPath in Hv. rewrite !andb_true_iff, orb_true_iff, bool_decide_eq_true in Hv.
        destruct Hv as [[_ [->|Hg]] _]; [done|]. by apply good_path_head. }
      destruct Hp as (a & t & Hat & Ha). destruct q as [|b q]; simpl.
      * rewrite Hat. rewrite (decide_False (P := a = slash)) by done. done.
      * rewrite (decide_False (P := b = slash)) by done.
        rewrite decide_False; [|intros E; injection E as E; apply (f_equal length) in E; rewrite length_app in E; simpl in E; lia].
        rewrite decide_True by done.
        replace (q ++ slash :: lit path) with ((q ++ [slash]) ++ lit path) by (by rewrite <- (assoc_L (++))).
        by rewrite cut_prefix_app.
  - intros Hq. set (k := match key with a :: k => if decide (a = slash) then k else key | [] => [] end).
    assert (Hk : key = k \/ key = slash :: k).
    { unfold k. destruct key as [|a key']; [by left|]. destruct (decide (a = slash)) as [->|]; [by right|by left]. }
    rewrite decide_False by done. destruct (decide (k = q)) as [Hkq|Hkq].
    + intros [= <-]. exists k. split; [done|]. by left.
    + destruct (cut_prefix (q ++ [slash]) k) as [x|] eqn:E; [|done]. intros [= <-].
      exists k. split; [done|]. right. apply cut_prefix_Some in E. by rewrite <- (assoc_L (++)) in E.
Qed.

Lemma prefix_strip_roundtrip_witness :
  Strip (NewPathPrefixer (lit "/a/b/")) (Prefix (NewPathPrefixer (lit "/a/b/")) (lit "x/y.txt")) = (lit "x/y.txt", true).
Proof.
  apply (prefix_strip_roundtrip (lit "/a/b/") "x/y.txt" [] []). vm_compute. reflexivity.
Defined.
