(* ===== verification/FilesystemLocal.v ===== *)
(** * The local filesystem driver: [src/filesystem/local]

    The operating system is a parameter: files are names of inodes, an inode has
    contents, and a reader of a file is an inode and an offset, so that readers
    and writers of one file share it.  [OSLaws] states what the driver relies on;
    [Disk] is a system that meets it. *)

From S2P Require Import Prelude GoErrors Filesystem.
From Stdlib Require Import Ascii.
From stdpp Require Import options.
Set Default Proof Using "Type*".
Local Open Scope Z_scope.

Local Abbreviation bytes := (list ascii).
Local Abbreviation lit := String.list_ascii_of_string.

(** ** The operating system *)

Inductive mode := Regular | Directory | OtherMode.
Record FileInfo := mkInfo { iMode : mode; iSize : Z; iTime : Z }.
Record DirEntry := mkDirEntry { eName : string; eIsDir : bool; eIsSymlink : bool }.

Definition ErrNotExist : error := ErrNew "file does not exist".
Definition ErrUnexpectedEOF : error := ErrNew "unexpected EOF".

(** The calls of an [os.Root], on native paths. *)
Class OS (W : Type) := {
  file_at : W -> string -> option nat;
  content : W -> nat -> bytes;
  os_openRoot : W -> option error;
  os_Open : string -> W -> nat + error;
  os_OpenTrunc : string -> W -> W * (nat + error);
  os_ReadErr : nat -> nat -> W -> option error;
  os_Write : nat -> nat -> bytes -> W -> W * option error;
  os_Close : nat -> W -> option error;
  os_Remove : string -> W -> W * option error;
  os_Stat : string -> W -> FileInfo + error;
  os_Rename : string -> string -> W -> W * option error;
  os_Link : string -> string -> W -> W * option error;
  os_Symlink : string -> string -> W -> W * option error;
  os_MkdirAll : string -> W -> W * option error;
  os_RemoveAll : string -> W -> W * option error;
  os_ReadDir : string -> W -> list DirEntry + error;
  os_WalkDir : string -> W -> list (string * (DirEntry + error));
  filepath_Rel : string -> string -> string + error
}.

(** Opening for writing keeps the inode of an existing file and empties it; a
    new file gets an inode no name has. *)
Class OSLaws (W : Type) `{!OS W} := {
  open_law w p i : file_at w p = Some i -> os_Open p w = inl i;
  stat_law w p i : file_at w p = Some i ->
    exists t, os_Stat p w = inl (mkInfo Regular (Z.of_nat (length (content w i))) t);
  trunc_law w p w' i : os_OpenTrunc p w = (w', inl i) ->
    file_at w' p = Some i /\ content w' i = [] /\
    (forall q j, file_at w q = Some j -> file_at w' q = Some j) /\
    (forall j, j <> i -> content w' j = content w j) /\
    (file_at w p = None -> forall q, file_at w q <> Some i);
  write_law w i off data w' : os_Write i off data w = (w', None) -> (off <= length (content w i))%nat ->
    content w' i = take off (content w i) ++ data ++ drop (off + length data) (content w i) /\
    (forall j, j <> i -> content w' j = content w j) /\ (forall q, file_at w' q = file_at w q);
  readdir_law w p ds : os_ReadDir p w = inl ds ->
    NoDup (eName <$> ds) /\ Forall (fun d => eName d <> "") ds;
  walkdir_law w p : NoDup ((os_WalkDir p w).*1) /\ Forall (fun v => v.1 <> "") (os_WalkDir p w)
}.

(** ** Readers *)

(** [bytes.Reader], an open file, or a nil reader. *)
Inductive reader := BytesReader (b : bytes) | FileReader (inode off : nat) | NilReader.

Section Driver.
Context {W : Type} `{!OS W}.

Definition source_of (r : reader) (w : W) : source :=
  match r with
  | NilReader => NilSource
  | BytesReader b => LenSource (Z.of_nat (length b))
  | FileReader i off => SeekSource (inl (Z.of_nat off)) (inl (Z.of_nat (length (content w i)))) None
  end.

(** One [Read] of at most [n] bytes; none left is the end of the file. *)
Definition read_some (r : reader) (n : nat) (w : W) : (bytes * reader) + error :=
  match r with
  | NilReader => inl ([], r)
  | BytesReader b => inl (take n b, BytesReader (drop n b))
  | FileReader i off =>
      match os_ReadErr i off w with
      | Some err => inr err
      | None => let b := take n (drop off (content w i)) in inl (b, FileReader i (off + length b))
      end
  end.

Definition contextReader_Read (ctx : context) (n : nat) (r : reader) (size : nat) (w : W)
    : (bytes * reader) + error :=
  match ctx_Err ctx n with
  | Some err => inr err
  | None => read_some r size w
  end.

(** [io.ReadAll] *)
Definition read_rest (r : reader) (w : W) : bytes + error :=
  match r with
  | NilReader => inl []
  | BytesReader b => inl b
  | FileReader i off =>
      match os_ReadErr i off w with Some err => inr err | None => inl (drop off (content w i)) end
  end.

(** The buffer of [io.Copy]. *)
Definition chunk : nat := 32 * 1024.

(** [io.Copy(file, io.LimitReader(contextReader{ctx, src}, left))], from the
    [n]-th check of the context: the bytes written and the error. *)
Fixpoint copy_loop (fuel : nat) (ctx : context) (n : nat) (size : nat) (file : nat) (src : reader)
    (left off : nat) (w : W) : W * (nat * option error) :=
  match fuel with
  | O => (w, (off, Some (ErrMsg "out of fuel")))
  | S fuel =>
      if decide (left = 0%nat) then (w, (off, None))
      else
        match contextReader_Read ctx n src (Nat.min size left) w with
        | inr err => (w, (off, Some err))
        | inl (b, src) =>
            if decide (b = []) then (w, (off, None))
            else
              match os_Write file off b w with
              | (w, Some err) => (w, (off, Some err))
              | (w, None) => copy_loop fuel ctx (S n) size file src (left - length b) (off + length b) w
              end
        end
  end.

(** ** [filesystem.go] *)

Definition wrapPathError (op path : string) (err : error) : error :=
  PathError op path (if errors_Is err "file does not exist" then ErrNotFound else err).

Definition openRoot (op path : string) (w : W) : option error := wrapPathError op path <$> os_openRoot w.

(** [filepath.FromSlash] on a system whose separator is the slash. *)
Definition nativePath (path : string) : string := path.

Definition LocalOpen (ctx : context) (path : string) (w : W) : W * (reader + error) :=
  match ctx_Err ctx 0 with
  | Some err => (w, inr err)
  | None =>
      match ValidateFilePath path with
      | Some err => (w, inr err)
      | None =>
          match openRoot "open" path w with
          | Some err => (w, inr err)
          | None =>
              match os_Open (nativePath path) w with
              | inr err => (w, inr (wrapPathError "open" path err))
              | inl i => (w, inl (FileReader i 0))
              end
          end
      end
  end.

Definition LocalPut (ctx : context) (path : string) (src : reader) (options : PutOptions) (w : W)
    : W * option error :=
  match ctx_Err ctx 0 with
  | Some err => (w, Some err)
  | None =>
      match ValidateFilePath path with
      | Some err => (w, Some err)
      | None =>
          match ResolveContentLength options (source_of src w) with
          | inr err => (w, Some (wrapPathError "put" path err))
          | inl contentLength =>
              match openRoot "put" path w with
              | Some err => (w, Some err)
              | None =>
                  match os_OpenTrunc (nativePath path) w with
                  | (w, inr err) => (w, Some (wrapPathError "put" path err))
                  | (w, inl file) =>
                      let src := match src with NilReader => BytesReader [] | _ => src end in
                      let '(w, (written, copyErr)) :=
                        copy_loop (S (Z.to_nat contentLength)) ctx 1 chunk file src
                          (Z.to_nat contentLength) 0 w in
                      let closeErr := os_Close file w in
                      (w, match copyErr with
                          | Some err => Some (wrapPathError "put" path err)
                          | None =>
                              if negb (Z.of_nat written =? contentLength)
                              then Some (wrapPathError "put" path ErrUnexpectedEOF)
                              else wrapPathError "put" path <$> closeErr
                          end)
                  end
              end
          end
      end
  end.

Definition LocalDelete (ctx : context) (path : string) (w : W) : W * option error :=
  match ctx_Err ctx 0 with
  | Some err => (w, Some err)
  | None =>
      match ValidateFilePath path with
      | Some err => (w, Some err)
      | None =>
          match openRoot "delete" path w with
          | Some err => (w, Some err)
          | None =>
              match os_Remove (nativePath path) w with
              | (w, None) => (w, None)
              | (w, Some err) =>
                  (w, if errors_Is err "file does not exist" then None
                      else Some (wrapPathError "delete" path err))
              end
          end
      end
  end.

Definition entryFromInfo (path : string) (info : FileInfo) : Entry :=
  mkEntry path
    (match iMode info with
     | Directory => EntryKindDirectory | Regular => EntryKindFile | OtherMode => EntryKindUnknown end)
    (iSize info) (iTime info) "" [].

Definition LocalStat (ctx : context) (path : string) (w : W) : W * (Entry + error) :=
  match ctx_Err ctx 0 with
  | Some err => (w, inr err)
  | None =>
      match ValidatePath path with
      | Some err => (w, inr err)
      | None =>
          if bool_decide (path = ".") then (w, inl (mkEntry "." EntryKindDirectory 0 zeroTime "" []))
          else
            match openRoot "stat" path w with
            | Some err => (w, inr err)
            | None =>
                match os_Stat (nativePath path) w with
                | inr err => (w, inr (wrapPathError "stat" path err))
                | inl info => (w, inl (entryFromInfo path info))
                end
            end
      end
  end%string.

(** [pathpkg.Join] of a valid directory and a name of it. *)
Definition logicalJoin (directory name : string) : string :=
  if bool_decide (directory = "."%string) then name else directory +:+ "/" +:+ name.

(** The entry of a listed name; [inl None] is one to leave out. *)
Definition fileEntryFromDirEntry (path : string) (d : DirEntry) (w : W) : option Entry + error :=
  match os_Stat path w with
  | inr err => if eIsSymlink d then inl None else inr err
  | inl info => match iMode info with Regular => inl (Some (entryFromInfo path info)) | _ => inl None end
  end.

(** The loop over the names of a directory. *)
Fixpoint list_names (ctx : context) (n : nat) (root : string) (ds : list DirEntry) (w : W)
    : list Entry + error :=
  match ds with
  | [] => inl []
  | d :: ds =>
      match ctx_Err ctx n with
      | Some err => inr err
      | None =>
          if eIsDir d then list_names ctx (S n) root ds w
          else
            match fileEntryFromDirEntry (logicalJoin root (eName d)) d w with
            | inr err => inr err
            | inl e =>
                match list_names ctx (S n) root ds w with
                | inr err => inr err
                | inl es => inl (match e with Some e => e :: es | None => es end)
                end
            end
      end
  end.

(** The callback of [fs.WalkDir] over the paths it visits. *)
Fixpoint walk_names (ctx : context) (n : nat) (root : string) (ds : list (string * (DirEntry + error))) (w : W)
    : list Entry + error :=
  match ds with
  | [] => inl []
  | (path, inr err) :: _ => inr err
  | (path, inl d) :: ds =>
      match ctx_Err ctx n with
      | Some err => inr err
      | None =>
          if bool_decide (path = root) || eIsDir d then walk_names ctx (S n) root ds w
          else
            match fileEntryFromDirEntry path d w with
            | inr err => inr err
            | inl e =>
                match walk_names ctx (S n) root ds w with
                | inr err => inr err
                | inl es => inl (match e with Some e => e :: es | None => es end)
                end
            end
      end
  end.

Definition listEntries (ctx : context) (root : string) (recursive : bool) (w : W) : list Entry + error :=
  match os_Stat root w with
  | inr err => if errors_Is err "file does not exist" then inl [] else inr err
  | inl info =>
      match iMode info with
      | Directory =>
          if negb recursive then
            match os_ReadDir root w with
            | inr err => inr err
            | inl ds => list_names ctx 1 root ds w
            end
          else walk_names ctx 1 root (os_WalkDir root w) w
      | _ => inl []
      end
  end.
End Driver.

(** ** Pages *)

(** Go's order of strings, byte by byte. *)
Fixpoint str_lt (a b : string) : bool :=
  match a, b with
  | EmptyString, EmptyString => false
  | EmptyString, String _ _ => true
  | String _ _, EmptyString => false
  | String x a, String y b =>
      (nat_of_ascii x <? nat_of_ascii y)%nat || (bool_decide (x = y) && str_lt a b)
  end.

(** [sort.Search] on [i, j) *)
Fixpoint search (fuel : nat) (f : nat -> bool) (i j : nat) : nat :=
  match fuel with
  | O => i
  | S fuel =>
      if (i <? j)%nat then
        let h := ((i + j) / 2)%nat in
        if negb (f h) then search fuel f (S h) j else search fuel f i h
      else i
  end.
Definition sort_Search (n : nat) (f : nat -> bool) : nat := search n f 0 n.

Definition path_at (entries : list Entry) (i : nat) : string :=
  match entries !! i with Some e => Path e | None => "" end.

Definition paginate (entries : list Entry) (options : ListOptions) : ListPage :=
  let start := sort_Search (length entries) (fun i => str_lt (Cursor options) (path_at entries i)) in
  let end_ := length entries in
  let end_ := if (Limit options >? 0) && (Z.of_nat start + Limit options <? Z.of_nat end_)
              then (start + Z.to_nat (Limit options))%nat else end_ in
  mkListPage (take (end_ - start) (drop start entries))
    (if (end_ <? length entries)%nat && (start <? end_)%nat then path_at entries (end_ - 1) else "").

(** [sort.Slice] by path *)
Definition path_le (a b : Entry) : Prop := str_lt (Path b) (Path a) = false.
#[export] Instance path_le_dec a b : Decision (path_le a b).
Proof. unfold path_le. apply _. Defined.
Definition sort_entries (entries : list Entry) : list Entry := merge_sort path_le entries.

Section Listing.
Context {W : Type} `{!OS W}.

Definition LocalListFiles (ctx : context) (path : string) (options : ListOptions) (w : W)
    : W * (ListPage + error) :=
  let options := Normalize options in
  match ctx_Err ctx 0 with
  | Some err => (w, inr err)
  | None =>
      match ValidatePath path with
      | Some err => (w, inr err)
      | None =>
          match openRoot "list" path w with
          | Some err => (w, inr err)
          | None =>
              match listEntries ctx path (Recursive options) w with
              | inr err => (w, inr (wrapPathError "list" path err))
              | inl entries => (w, inl (paginate (sort_entries entries) options))
              end
          end
      end
  end.

(** The operations on two names. *)
Definition LocalMove (ctx : context) (src dst : string) (w : W) : W * option error :=
  match ctx_Err ctx 0 with
  | Some err => (w, Some err)
  | None =>
      match ValidateFilePath src, ValidateFilePath dst with
      | Some err, _ | None, Some err => (w, Some err)
      | None, None =>
          match openRoot "move" src w with
          | Some err => (w, Some err)
          | None =>
              let '(w, err) := os_Rename (nativePath src) (nativePath dst) w in
              (w, wrapPathError "move" src <$> err)
          end
      end
  end.

Definition LocalLink (ctx : context) (src dst : string) (w : W) : W * option error :=
  match ctx_Err ctx 0 with
  | Some err => (w, Some err)
  | None =>
      match ValidateFilePath src, ValidateFilePath dst with
      | Some err, _ | None, Some err => (w, Some err)
      | None, None =>
          match openRoot "link" src w with
          | Some err => (w, Some err)
          | None =>
              let '(w, err) := os_Link (nativePath src) (nativePath dst) w in
              (w, wrapPathError "link" src <$> err)
          end
      end
  end.

Variable filepath_Dir : string -> string.

Definition LocalSymlink (ctx : context) (target link : string) (w : W) : W * option error :=
  match ctx_Err ctx 0 with
  | Some err => (w, Some err)
  | None =>
      match ValidateFilePath target, ValidateFilePath link with
      | Some err, _ | None, Some err => (w, Some err)
      | None, None =>
          match openRoot "symlink" link w with
          | Some err => (w, Some err)
          | None =>
              match filepath_Rel (filepath_Dir (nativePath link)) (nativePath target) with
              | inr err => (w, Some (wrapPathError "symlink" target err))
              | inl relativeTarget =>
                  let '(w, err) := os_Symlink relativeTarget (nativePath link) w in
                  (w, wrapPathError "symlink" link <$> err)
              end
          end
      end
  end.

Definition LocalMakeDirectory (ctx : context) (path : string) (w : W) : W * option error :=
  match ctx_Err ctx 0 with
  | Some err => (w, Some err)
  | None =>
      match ValidatePath path with
      | Some err => (w, Some err)
      | None =>
          match openRoot "mkdir" path w with
          | Some err => (w, Some err)
          | None =>
              let '(w, err) := os_MkdirAll (nativePath path) w in (w, wrapPathError "mkdir" path <$> err)
          end
      end
  end.

Definition LocalDeleteDirectory (ctx : context) (path : string) (w : W) : W * option error :=
  match ctx_Err ctx 0 with
  | Some err => (w, Some err)
  | None =>
      if bool_decide (path = "."%string) then (w, Some (PathError "remove" path ErrInvalidPath))
      else
        match ValidatePath path with
        | Some err => (w, Some err)
        | None =>
            match openRoot "remove" path w with
            | Some err => (w, Some err)
            | None =>
                let '(w, err) := os_RemoveAll (nativePath path) w in (w, wrapPathError "remove" path <$> err)
            end
        end
  end.

(** The driver: it moves natively, and does not copy natively. *)
#[export] Instance local_driver : Driver W reader := {|
  Open := LocalOpen;
  Put := LocalPut;
  Delete := LocalDelete;
  Stat := LocalStat;
  ListFiles := LocalListFiles;
  ReadAll r w := (w, read_rest r w);
  Reader := BytesReader;
  nativeCopy := None;
  nativeMove := Some LocalMove
|}.
End Listing.

(** ** The order of paths *)

Lemma str_lt_irrefl a : str_lt a a = false.
Proof.
  induction a as [|x a IH]; simpl; [done|]. rewrite IH, Nat.ltb_irrefl. by rewrite andb_false_r.
Qed.

Lemma str_lt_trans a b c : str_lt a b = true -> str_lt b c = true -> str_lt a c = true.
Proof.
  revert b c. induction a as [|x a IH]; intros [|y b] [|z c]; simpl; try done.
  rewrite !orb_true_iff, !andb_true_iff, !bool_decide_eq_true, !Nat.ltb_lt.
  intros [?|[-> ?]] [?|[-> ?]]; [left; lia|by left|by left|]. right. split; [done|]. by eapply IH.
Qed.

Lemma str_lt_total a b : str_lt a b = true \/ a = b \/ str_lt b a = true.
Proof.
  revert b. induction a as [|x a IH]; intros [|y b]; simpl; try by auto.
  rewrite !orb_true_iff, !andb_true_iff, !bool_decide_eq_true, !Nat.ltb_lt.
  destruct (Nat.lt_total (nat_of_ascii x) (nat_of_ascii y)) as [?|[E|?]]; [by auto| |by auto].
  apply (f_equal ascii_of_nat) in E. rewrite !ascii_nat_embedding in E. subst y.
  destruct (IH b) as [?|[->|?]]; by auto.
Qed.

Lemma str_lt_empty a : a <> ""%string -> str_lt "" a = true.
Proof. by destruct a. Qed.

#[export] Instance path_le_total : Total path_le.
Proof.
  intros a b. unfold path_le. destruct (str_lt (Path b) (Path a)) eqn:E; [right|by left].
  destruct (str_lt (Path a) (Path b)) eqn:E'; [|done].
  pose proof (str_lt_trans _ _ _ E E') as Hbad. by rewrite str_lt_irrefl in Hbad.
Qed.

#[export] Instance path_le_trans : Transitive path_le.
Proof.
  intros a b c. unfold path_le. intros Hab Hbc. destruct (str_lt (Path c) (Path a)) eqn:E; [|done].
  destruct (str_lt_total (Path b) (Path c)) as [Hlt|[Heq|Hlt]]; [|congruence|congruence].
  rewrite (str_lt_trans _ _ _ Hlt E) in Hab. done.
Qed.

(** ** [sort.Search] finds the first index that satisfies a monotone predicate *)

Lemma search_first fuel f i j :
  (j - i <= fuel)%nat -> (i <= j)%nat ->
  (forall a b, (i <= a <= b)%nat -> (b < j)%nat -> f a = true -> f b = true) ->
  let r := search fuel f i j in
  (i <= r <= j)%nat /\ (forall a, (i <= a < r)%nat -> f a = false) /\ (forall a, (r <= a < j)%nat -> f a = true).
Proof.
  revert i j. induction fuel as [|fuel IH]; intros i j Hf Hij Hmono; cbn [search]; cbv zeta.
  - split_and!; [lia|lia| |]; intros a Ha; lia.
  - destruct (Nat.ltb_spec i j) as [Hlt|Hge]; [|split_and!; [lia|lia| |]; intros a Ha; lia].
    set (h := Nat.div (i + j) 2).
    assert (Hh : (i <= h < j)%nat).
    { unfold h. split; [apply Nat.div_le_lower_bound; lia|apply Nat.Div0.div_lt_upper_bound; lia]. }
    fold h. destruct (f h) eqn:E; cbn [negb].
    + destruct (IH i h) as (Hr & Hlo & Hhi); [lia|lia|intros; eapply Hmono; eauto; lia|].
      split_and!; [lia|lia|done|]. intros a Ha.
      destruct (decide (a < h)%nat); [apply Hhi; lia|]. apply (Hmono h a); [lia|lia|done].
    + destruct (IH (S h) j) as (Hr & Hlo & Hhi); [lia|lia|intros; eapply Hmono; eauto; lia|].
      split_and!; [lia|lia| |intros a Ha; apply Hhi; lia]. intros a Ha.
      destruct (decide (S h <= a)%nat); [apply Hlo; lia|].
      destruct (f a) eqn:Ea; [|done]. rewrite <- E. symmetry. apply (Hmono a h); [lia|lia|done].
Qed.

(** In a listing that splits at the cursor, a page starts at the split. *)
Lemma search_split a b c :
  Forall (fun e => str_lt c (Path e) = false) a -> Forall (fun e => str_lt c (Path e) = true) b ->
  sort_Search (length (a ++ b)) (fun i => str_lt c (path_at (a ++ b) i)) = length a.
Proof.
  intros Ha Hb. set (f := fun i => str_lt c (path_at (a ++ b) i)).
  assert (Hlo : forall i, (i < length a)%nat -> f i = false).
  { intros i Hi. destruct (lookup_lt_is_Some_2 a i Hi) as [e He]. unfold f, path_at.
    rewrite (lookup_app_l_Some _ _ _ _ He). by eapply (Forall_lookup_1 _ _ _ _ Ha). }
  assert (Hhi : forall i, (length a <= i < length (a ++ b))%nat -> f i = true).
  { intros i Hi. destruct (lookup_lt_is_Some_2 (a ++ b) i) as [e He]; [lia|]. unfold f, path_at. rewrite He.
    rewrite lookup_app_r in He by lia. by eapply (Forall_lookup_1 _ _ _ _ Hb). }
  unfold sort_Search. rewrite length_app in *.
  destruct (search_first (length a + length b) f 0 (length a + length b)) as (Hr & Hlt & Hge); [lia|lia| |].
  { intros i j Hij Hj Hi. apply Hhi. destruct (decide (i < length a)%nat); [|lia].
    rewrite Hlo in Hi by done. done. }
  fold f. set (r := search _ f 0 _) in *. clearbody r. destruct (Nat.lt_total r (length a)) as [?|[?|?]]; [|done|].
  - specialize (Hlo r). specialize (Hge r). rewrite Hge in Hlo by lia. by discriminate Hlo.
  - specialize (Hhi (length a)). specialize (Hlt (length a)). rewrite Hlt in Hhi by lia.
    discriminate Hhi. lia.
Qed.

(** ** Listing page by page *)

Section Pages.
Context {W : Type} `{!OS W, !OSLaws W}.

(** What a caller does: ask for the page at the cursor until there is no next one. *)
Fixpoint pages (fuel : nat) (ctx : context) (path : string) (recursive : bool) (limit : Z) (cursor : string)
    (w : W) : option (list ListPage + error) :=
  match fuel with
  | O => None
  | S fuel =>
      match LocalListFiles ctx path (mkListOptions recursive limit cursor) w with
      | (_, inr err) => Some (inr err)
      | (w, inl page) =>
          if decide (NextCursor page = ""%string) then Some (inl [page])
          else
            match pages fuel ctx path recursive limit (NextCursor page) w with
            | Some (inl ps) => Some (inl (page :: ps))
            | r => r
            end
      end
  end.

Lemma entry_path path d w e : fileEntryFromDirEntry path d w = inl (Some e) -> Path e = path.
Proof.
  unfold fileEntryFromDirEntry. destruct (os_Stat path w) as [[[] ? ?]|?]; try case_match; try done.
  by intros [= <-].
Qed.

Lemma list_names_paths ctx n root ds w es :
  list_names ctx n root ds w = inl es -> Path <$> es `sublist_of` (logicalJoin root ∘ eName) <$> ds.
Proof.
  revert n es. induction ds as [|d ds IH]; intros n es; simpl; [intros [= <-]; constructor|].
  destruct (ctx_Err ctx n); [done|]. destruct (eIsDir d); [intros ?%IH; by constructor|].
  destruct (fileEntryFromDirEntry _ d w) as [e|] eqn:E; [|done].
  destruct (list_names _ _ _ _ _) as [es'|] eqn:E'; [|done]. intros [= <-]. apply IH in E'.
  destruct e as [e|]; [|by constructor]. apply entry_path in E. simpl. rewrite E. by constructor.
Qed.

Lemma walk_names_paths ctx n root ds w es :
  walk_names ctx n root ds w = inl es -> Path <$> es `sublist_of` ds.*1.
Proof.
  revert n es. induction ds as [|[path d] ds IH]; intros n es; simpl; [intros [= <-]; constructor|].
  destruct d as [d|]; [|done]. destruct (ctx_Err ctx n); [done|].
  destruct (_ || _); [intros ?%IH; by constructor|].
  destruct (fileEntryFromDirEntry _ d w) as [e|] eqn:E; [|done].
  destruct (walk_names _ _ _ _ _) as [es'|] eqn:E'; [|done]. intros [= <-]. apply IH in E'.
  destruct e as [e|]; [|by constructor]. apply entry_path in E. simpl. rewrite E. by constructor.
Qed.

Lemma sublist_Forall {A} (P : A -> Prop) l k : l `sublist_of` k -> Forall P k -> Forall P l.
Proof. rewrite !Forall_forall. intros Hs Hk x Hx. apply Hk. by eapply elem_of_submseteq, sublist_submseteq. Qed.

Lemma str_app_inj s a b : s +:+ a = s +:+ b -> a = b.
Proof. induction s as [|c s IH]; simpl; [done|]. intros [= ?]. by apply IH. Qed.

#[local] Instance logicalJoin_inj root : Inj (=) (=) (logicalJoin root).
Proof.
  intros a b. unfold logicalJoin. case_bool_decide; [done|]. intros E%str_app_inj. by injection E.
Qed.

Lemma logicalJoin_ne root a : a <> ""%string -> logicalJoin root a <> ""%string.
Proof.
  unfold logicalJoin. case_bool_decide; [done|]. by destruct root.
Qed.

(** A listing has no path twice and no empty path. *)
Lemma listEntries_paths ctx root recursive w es :
  listEntries ctx root recursive w = inl es ->
  NoDup (Path <$> es) /\ Forall (fun p => p <> ""%string) (Path <$> es).
Proof.
  assert (Hnil : NoDup (Path <$> []) /\ Forall (fun p => p <> ""%string) (Path <$> [])) by (by split; constructor).
  unfold listEntries. destruct (os_Stat root w) as [info|err].
  2: { destruct (errors_Is _ _); [|done]. by intros [= <-]. }
  destruct (iMode info); [by intros [= <-]| |by intros [= <-]]. destruct recursive; simpl.
  - intros Hs%walk_names_paths. destruct (walkdir_law w root) as [Hnd Hne]. split.
    + by eapply sublist_NoDup.
    + eapply sublist_Forall; [exact Hs|]. by rewrite Forall_fmap.
  - destruct (os_ReadDir root w) as [ds|] eqn:E; [|done]. intros Hs%list_names_paths.
    destruct (readdir_law _ _ _ E) as [Hnd Hne]. split.
    + eapply sublist_NoDup; [|exact Hs]. rewrite list_fmap_compose. by apply (NoDup_fmap_2 _).
    + eapply sublist_Forall; [exact Hs|]. rewrite Forall_fmap. eapply Forall_impl; [exact Hne|].
      intros d. apply logicalJoin_ne.
Qed.
(** The page after the entries up to the cursor. *)
Lemma paginate_split a b c recursive limit :
  1 <= limit ->
  Forall (fun e => str_lt c (Path e) = false) a -> Forall (fun e => str_lt c (Path e) = true) b ->
  let n := Z.to_nat limit in
  paginate (a ++ b) (mkListOptions recursive limit c) =
  mkListPage (take n b) (if (n <? length b)%nat then path_at (a ++ take n b) (length a + n - 1) else "").
Proof.
  intros Hl Ha Hb n. unfold paginate. cbn [Cursor Limit]. rewrite (search_split _ _ _ Ha Hb).
  rewrite length_app, drop_app_length. replace (limit >? 0) with true by lia. cbn [andb].
  fold n. assert (Hlim : limit = Z.of_nat n) by (unfold n; lia). clearbody n. subst limit.
  rewrite <- Nat2Z.inj_add.
  destruct (Nat.ltb_spec n (length b)) as [Hn|Hn].
  - rewrite (proj2 (Z.ltb_lt (Z.of_nat (length a + n)) (Z.of_nat (length a + length b)))) by lia. replace (length a + n - length a)%nat with n by lia.
    replace (length a + n <? length a + length b)%nat with true by (symmetry; apply Nat.ltb_lt; lia).
    replace (length a <? length a + n)%nat with true by (symmetry; apply Nat.ltb_lt; lia). cbn [andb]. f_equal.
    unfold path_at. rewrite !lookup_app_r by lia. rewrite lookup_take_lt by lia. done.
  - rewrite (proj2 (Z.ltb_ge (Z.of_nat (length a + n)) (Z.of_nat (length a + length b)))) by lia. rewrite Nat.ltb_irrefl. cbn [andb].
    f_equal. rewrite !take_ge by lia. done.
Qed.

(** Strictly sorted listings split at each of their entries. *)
Lemma sorted_tail (a b : list Entry) e :
  StronglySorted (fun x y => str_lt (Path x) (Path y) = true) (a ++ e :: b) ->
  Forall (fun x => str_lt (Path e) (Path x) = false) (a ++ [e]) /\
  Forall (fun x => str_lt (Path e) (Path x) = true) b.
Proof.
  induction a as [|x a IH]; simpl; intros Hs; inversion Hs as [|? ? Hs' Hall]; subst.
  - split; [|done]. apply Forall_singleton, str_lt_irrefl.
  - destruct (IH Hs') as [H1 H2]. split; [|done]. apply Forall_cons_2; [|done].
    apply Forall_app, proj2, Forall_cons_1 in Hall as [Hall _].
    destruct (str_lt (Path e) (Path x)) eqn:E; [|done].
    pose proof (str_lt_trans _ _ _ Hall E) as Hbad. by rewrite str_lt_irrefl in Hbad.
Qed.

Lemma sort_entries_perm es : sort_entries es ≡ₚ es.
Proof. apply merge_sort_Permutation. Qed.

Lemma sort_entries_sorted es :
  NoDup (Path <$> es) -> StronglySorted (fun x y => str_lt (Path x) (Path y) = true) (sort_entries es).
Proof.
  intros Hnd. pose proof (sort_entries_perm es) as Hp.
  rewrite <- Hp in Hnd. pose proof (StronglySorted_merge_sort path_le es) as Hs. fold (sort_entries es) in Hs.
  clear Hp. induction Hs as [|e l Hs IH Hall]; [constructor|]. apply NoDup_cons in Hnd as [Hx Hnd].
  constructor; [by apply IH|]. rewrite Forall_forall in Hall |- *. intros y Hy. specialize (Hall y Hy).
  destruct (str_lt_total (Path e) (Path y)) as [?|[E|E]]; [done| |unfold path_le in Hall; congruence].
  destruct Hx. rewrite E. by apply list_elem_of_fmap_2.
Qed.

(** Paging a strictly sorted listing from a split. *)
Lemma pages_from ctx path recursive w es limit fuel a b c :
  ctx_Err ctx 0 = None -> ValidPath path = true -> os_openRoot w = None ->
  listEntries ctx path recursive w = inl es -> sort_entries es = a ++ b ->
  1 <= limit <= MaxListLimit ->
  Forall (fun e => str_lt c (Path e) = false) a -> Forall (fun e => str_lt c (Path e) = true) b ->
  (length b < fuel)%nat ->
  exists ps, pages fuel ctx path recursive limit c w = Some (inl ps) /\ mjoin (Entries <$> ps) = b /\
    Forall (fun p => Z.of_nat (length (Entries p)) <= limit) ps.
Proof.
  intros Hctx Hv Hroot Hes Hab Hl. revert a b c Hab. induction fuel as [|fuel IH]; intros a b c Hab Ha Hb Hf; [lia|].
  destruct (listEntries_paths _ _ _ _ _ Hes) as [Hnd Hne]. apply sort_entries_sorted in Hnd.
  assert (Hne' : Forall (fun e => Path e <> ""%string) b).
  { apply (Forall_app _ a b). rewrite <- Hab, sort_entries_perm. by rewrite Forall_fmap in Hne. }
  cbn [pages]. unfold LocalListFiles. rewrite Hctx. unfold ValidatePath. rewrite Hv.
  unfold openRoot. rewrite Hroot. cbn [fmap option_fmap option_map Recursive Normalize]. rewrite Hes.
  unfold Normalize. cbn [Limit Recursive Cursor]. replace (limit <? 1) with false by lia.
  replace (limit >? MaxListLimit) with false by lia. rewrite Hab, (paginate_split a b c recursive limit (proj1 Hl) Ha Hb).
  set (n := Z.to_nat limit). cbn [Entries NextCursor]. destruct (Nat.ltb_spec n (length b)) as [Hn|Hn].
  - destruct (lookup_lt_is_Some_2 b (n - 1)) as [e He]; [lia|].
    assert (Hcur : path_at (a ++ take n b) (length a + n - 1) = Path e).
    { unfold path_at. rewrite lookup_app_r by lia. replace (length a + n - 1 - length a)%nat with (n - 1)%nat by lia.
      by rewrite lookup_take_lt, He by lia. }
    rewrite Hcur. rewrite decide_False by (by eapply (Forall_lookup_1 _ _ _ _ Hne')).
    pose proof (take_S_r _ _ _ He) as Ht. replace (S (n - 1))%nat with n in Ht by lia.
    assert (Hs : a ++ b = (a ++ take (n - 1) b) ++ e :: drop n b).
    { rewrite <- (assoc_L (++)). f_equal. rewrite <- (take_drop n b) at 1. rewrite Ht. by rewrite <- (assoc_L (++)). }
    rewrite Hab, Hs in Hnd. apply sorted_tail in Hnd as [H1 H2].
    destruct (IH ((a ++ take (n - 1) b) ++ [e]) (drop n b) (Path e)) as (ps & Hps & Hj & Hlen).
    { rewrite Hab, Hs. by rewrite <- (assoc_L (++) _ [e]). } { done. } { done. } { rewrite length_drop. lia. }
    rewrite Hps. eexists. split; [done|]. split; [etrans; [|apply (take_drop n b)]; by rewrite <- Hj|].
    apply Forall_cons_2; [|done]. cbn [Entries]. rewrite length_take. lia.
  - rewrite decide_True by done. eexists. split; [done|]. split; [etrans; [apply app_nil_r|]; by apply take_ge|].
    apply Forall_singleton. cbn [Entries]. rewrite length_take. lia.
Qed.

(** Asking for the files below a path page by page, each time with the
    cursor of the previous page, ends, and the pages together are exactly the
    listing: every file once, in strictly increasing lexical order, in pages of
    at most the normalised limit. *)
Theorem pages_complete ctx path recursive limit w es :
  ctx_Err ctx 0 = None -> ValidPath path = true -> os_openRoot w = None ->
  listEntries ctx path recursive w = inl es -> 1 <= limit <= MaxListLimit ->
  exists ps, pages (S (length es)) ctx path recursive limit "" w = Some (inl ps) /\
    Permutation (mjoin (Entries <$> ps)) es /\
    StronglySorted (fun x y => str_lt (Path x) (Path y) = true) (mjoin (Entries <$> ps)) /\
    Forall (fun p => Z.of_nat (length (Entries p)) <= limit) ps.
Proof.
  intros Hctx Hv Hroot Hes Hl. destruct (listEntries_paths _ _ _ _ _ Hes) as [Hnd Hne].
  pose proof (sort_entries_perm es) as Hp.
  destruct (pages_from ctx path recursive w es limit (S (length es)) [] (sort_entries es) "")
    as (ps & Hps & Hj & Hlen); try done; [|rewrite Hp; lia|].
  - rewrite Hp. rewrite Forall_fmap in Hne. eapply Forall_impl; [exact Hne|]. intros e. apply str_lt_empty.
  - exists ps. rewrite Hj. split_and!; [done|done|by apply sort_entries_sorted|done].
Qed.
End Pages.

(** ** Writing and copying *)

Section Contents.
Context {W : Type} `{!OS W, !OSLaws W}.

(** The bytes a reader still has. *)
Definition rest_of (r : reader) (w : W) : bytes :=
  match r with
  | NilReader => []
  | BytesReader b => b
  | FileReader i off => drop off (content w i)
  end.

(** A reader of another file than [file]. *)
Definition apart (file : nat) (r : reader) : Prop :=
  match r with FileReader i _ => i <> file | _ => True end.

Lemma read_some_spec r n w b r' :
  read_some r n w = inl (b, r') ->
  b = take n (rest_of r w) /\ forall file w', apart file r ->
    (forall j, j <> file -> content w' j = content w j) ->
    apart file r' /\ rest_of r' w' = drop n (rest_of r w).
Proof.
  destruct r as [c|i off|]; cbn [read_some rest_of apart].
  - intros [= <- <-]. split; [done|]. by intros.
  - destruct (os_ReadErr i off w); [done|]. intros [= <- <-]. split; [done|]. intros file w' Ha Hc.
    split; [done|]. cbn [rest_of]. rewrite (Hc i Ha), drop_drop, length_take, length_drop.
    destruct (decide (n <= length (content w i) - off)%nat); [f_equal; lia|].
    rewrite !drop_ge by lia. done.
  - intros [= <- <-]. split; [by rewrite take_nil|]. intros. split; [done|]. by rewrite drop_nil.
Qed.

(** Copying appends a prefix of the source, all that is wanted of it when there
    is no error, and touches nothing else. *)
Lemma copy_loop_spec ctx size file fuel n src left off w w' k :
  (0 < size)%nat -> (left < fuel)%nat -> apart file src -> length (content w file) = off ->
  copy_loop fuel ctx n size file src left off w = (w', (k, None)) ->
  content w' file = content w file ++ take left (rest_of src w) /\
  k = (off + length (take left (rest_of src w)))%nat /\
  (forall j, j <> file -> content w' j = content w j) /\ (forall q, file_at w' q = file_at w q).
Proof.
  intros Hsize. revert n src left off w. induction fuel as [|fuel IH]; intros n src left off w Hf Ha Hoff; [lia|].
  cbn [copy_loop]. case_decide as Hl.
  { intros [= <- <-]. subst left. rewrite take_0, app_nil_r. simpl. split_and!; [done|lia|done|done]. }
  unfold contextReader_Read. destruct (ctx_Err ctx n); [done|]. destruct (read_some src _ w) as [[b src']|] eqn:Er; [|done].
  apply read_some_spec in Er as [-> Hnext]. set (rest := rest_of src w) in *.
  set (m := Nat.min size left) in *. assert (Hm : (0 < m <= left)%nat) by (unfold m; lia). clearbody m.
  case_decide as Hb.
  { intros [= <- <-]. assert (Hr : rest = []).
    { destruct rest; [done|]. destruct m; [lia|done]. }
    rewrite Hr, take_nil, app_nil_r. simpl. split_and!; [done|lia|done|done]. }
  destruct (os_Write file off _ w) as [w1 [err|]] eqn:Ew; [done|]. intros Hloop.
  apply write_law in Ew as (Hc & Hother & Hname); [|lia].
  rewrite take_ge, (drop_ge (content w file)), app_nil_r in Hc by lia.
  destruct (Hnext file w1 Ha Hother) as [Ha' Hrest].
  apply IH in Hloop as (Hc' & Hk & Ho & Hn); [|destruct (take m rest) eqn:?; [done|simpl; lia]|done|by rewrite Hc, length_app, Hoff].
  rewrite Hrest, Hc in *. rewrite <- (assoc_L (++)) in Hc'.
  assert (Ht : take m rest ++ take (left - length (take m rest)) (drop m rest) = take left rest).
  { destruct (decide (m <= length rest)%nat) as [Hle|Hgt].
    - rewrite length_take, Nat.min_l by done. rewrite take_take_drop. f_equal. lia.
    - rewrite (drop_ge rest) by lia. rewrite take_nil, app_nil_r, !take_ge by lia. done. }
  rewrite Ht in Hc'. split; [done|]. split; [rewrite <- Ht, length_app; lia|].
  split; [intros j Hj; by rewrite Ho, Hother|]. intros q. by rewrite Hn, Hname.
Qed.

(** A system without faults. *)
Definition reliable : Prop :=
  (forall w, os_openRoot w = None) /\ (forall w i, os_Close i w = None) /\
  (forall w i off b, (os_Write i off b w).2 = None) /\ (forall w i off, os_ReadErr i off w = None).

(** Without faults and cancellation copying ends without an error. *)
Lemma copy_loop_ends ctx size file fuel n src left off w :
  reliable -> (forall m, ctx_Err ctx m = None) -> (0 < size)%nat -> (left < fuel)%nat ->
  exists w' k, copy_loop fuel ctx n size file src left off w = (w', (k, None)).
Proof.
  intros (_ & _ & Hw & Hr) Hctx Hsize. revert n src left off w.
  induction fuel as [|fuel IH]; intros n src left off w Hf; [lia|]. cbn [copy_loop].
  case_decide; [by eauto|]. unfold contextReader_Read. rewrite Hctx.
  assert (exists b src', read_some src (Nat.min size left) w = inl (b, src')) as (b & src' & ->).
  { destruct src; simpl; [by eauto| |by eauto]. rewrite Hr. by eauto. }
  case_decide as Hb; [by eauto|]. specialize (Hw w file off b). destruct (os_Write file off b w) as [w1 e].
  simpl in Hw. subst e. apply IH. destruct b; [done|simpl; lia].
Qed.
Lemma chunk_pos : (0 < chunk)%nat.
Proof. unfold chunk. lia. Qed.

(** What a successful write leaves. *)
Lemma put_writes ctx path src options w w' :
  (forall file, (exists w1, os_OpenTrunc path w = (w1, inl file)) -> apart file src) ->
  LocalPut ctx path src options w = (w', None) ->
  exists file n, ResolveContentLength options (source_of src w) = inl n /\
    file_at w' path = Some file /\ content w' file = take (Z.to_nat n) (rest_of src w) /\
    (forall j, j <> file -> content w' j = content w j) /\
    (forall q j, file_at w q = Some j -> file_at w' q = Some j) /\
    (file_at w path = None -> forall q, file_at w q <> Some file).
Proof.
  intros Hapart. unfold LocalPut, nativePath. destruct (ctx_Err ctx 0); [done|].
  destruct (ValidateFilePath path); [done|]. destruct (ResolveContentLength _ _) as [n|] eqn:En; [|done].
  destruct (openRoot "put" path w); [done|]. destruct (os_OpenTrunc path w) as [w1 [file|]] eqn:Et; [|done].
  specialize (Hapart file (ex_intro _ w1 eq_refl)). apply trunc_law in Et as (Hat & Hempty & Hnames & Hother & Hnew).
  set (src' := match src with NilReader => BytesReader [] | _ => src end).
  assert (Hsrc : apart file src' /\ rest_of src' w1 = rest_of src w).
  { unfold src'. destruct src as [b|i off|]; simpl; [done| |done]. split; [done|]. by rewrite Hother. }
  destruct Hsrc as [Ha Hrest]. destruct (copy_loop _ ctx 1 chunk file src' _ 0 w1) as [w2 [k [err|]]] eqn:Ec; [done|].
  destruct (negb _) eqn:Ek; [done|]. destruct (os_Close file w2); [done|]. cbn [fmap option_fmap option_map].
  intros [= <-]. apply copy_loop_spec in Ec as (Hc & Hk & Ho & Hn); [|apply chunk_pos|lia|done|by rewrite Hempty].
  exists file, n. rewrite Hempty, Hrest in Hc. split; [done|]. split; [by rewrite Hn|]. split; [done|].
  split; [intros j Hj; by rewrite Ho, Hother|]. split; [|done]. intros q j Hq. rewrite Hn. by apply Hnames.
Qed.

Lemma resolve_len options k n :
  ResolveContentLength options (LenSource k) = inl n -> n = k.
Proof.
  unfold ResolveContentLength. destruct (ContentLength options) as [m|]; simpl.
  - destruct (m <? 0); [done|]. destruct (k <? 0); [done|]. simpl. destruct (Z.eqb_spec m k); simpl; [|done]. congruence.
  - destruct (k <? 0); [done|]. simpl. congruence.
Qed.

Lemma validate_file_ok path : ValidateFilePath path = None -> ValidatePath path = None /\ path <> "."%string.
Proof. unfold ValidateFilePath. destruct (ValidatePath path); [done|]. by case_bool_decide. Qed.

(** A [WriteFile] that reports success has stored exactly the bytes it was
    given, so that [ReadFile] returns them, and has changed no other file; in a
    fault-free system it does report success unless the caller's explicit
    content length is not the length of the bytes. *)
Theorem local_write_read sniff ctx path data options w w' err :
  WriteFile sniff ctx path data options w = (w', err) ->
  (err = None -> exists file,
     file_at w' path = Some file /\ content w' file = data /\
     (forall q j, file_at w q = Some j -> j <> file -> file_at w' q = Some j /\ content w' j = content w j) /\
     (forall ctx', ctx_Err ctx' 0 = None -> os_openRoot w' = None -> os_ReadErr file 0 w' = None ->
       ReadFile ctx' path w' = (w', inl data))) /\
  (reliable -> (forall n, ctx_Err ctx n = None) -> ValidateFilePath path = None ->
   (exists w1 file, os_OpenTrunc path w = (w1, inl file)) ->
   (err = None <-> from_option (fun n => n = Z.of_nat (length data)) True (ContentLength options))).
Proof.
  unfold WriteFile. set (o := if bool_decide _ then _ else options). cbn [Put Reader local_driver].
  assert (Hlen : ContentLength o = ContentLength options) by (unfold o; by case_bool_decide). clearbody o.
  rewrite <- Hlen. clear Hlen options. intros Hput. split.
  - intros ->. assert (Hv : ValidateFilePath path = None).
    { unfold LocalPut in Hput. destruct (ctx_Err ctx 0); [done|]. by destruct (ValidateFilePath path). }
    apply put_writes in Hput as (file & n & Hn & Hat & Hc & Ho & Hnames & _); [|done].
    apply resolve_len in Hn as ->. simpl in Hc. rewrite Nat2Z.id, firstn_all in Hc.
    exists file. split; [done|]. split; [done|]. split; [intros q j Hq Hj; split; [by apply Hnames|by apply Ho]|].
    intros ctx' Hctx Hroot Hr. unfold ReadFile. cbn [Open ReadAll local_driver]. unfold LocalOpen, openRoot, nativePath.
    rewrite Hctx, Hv, Hroot. cbn [fmap option_fmap option_map]. rewrite (open_law _ _ _ Hat). cbn [read_rest].
    by rewrite Hr, Hc.
  - intros Hrel Hctx Hv (w1 & file & Ht). revert Hput. unfold LocalPut, openRoot, nativePath.
    rewrite Hctx, Hv, (proj1 Hrel), Ht. cbn [fmap option_fmap option_map source_of].
    unfold ResolveContentLength, inferContentLength. rewrite (proj2 (Z.ltb_ge (Z.of_nat (length data)) 0)) by lia.
    assert (Hgo : exists w2, copy_loop (S (length data)) ctx 1 chunk file (BytesReader data) (length data) 0 w1 =
        (w2, (length data, None))).
    { destruct (copy_loop_ends ctx chunk file (S (length data)) 1 (BytesReader data) (length data) 0 w1)
        as (w2 & k & Hc); [done|done|apply chunk_pos|lia|]. rewrite Hc. exists w2.
      apply trunc_law in Ht as (_ & He & _).
      apply copy_loop_spec in Hc as (_ & -> & _); [|apply chunk_pos|lia|done|by rewrite He].
      cbn [rest_of]. by rewrite firstn_all. }
    destruct Hgo as [w2 Ec].
    destruct (ContentLength o) as [n|]; cbn [from_option].
    + destruct (Z.ltb_spec n 0); [intros [= <- <-]; split; [done|lia]|]. cbn [andb].
      destruct (Z.eqb_spec n (Z.of_nat (length data))) as [->|Hne]; cbn [negb]; [|intros [= <- <-]; by split].
      rewrite Nat2Z.id, Ec, Z.eqb_refl, (proj1 (proj2 Hrel)). cbn. intros [= <- <-]. by split.
    + rewrite Nat2Z.id, Ec, Z.eqb_refl, (proj1 (proj2 Hrel)). cbn. intros [= <- <-]. by split.
Qed.
(** Copying as far as the opened destination. *)
Lemma copy_opens ctx src dst w w1 i j :
  reliable -> (forall n, ctx_Err ctx n = None) ->
  ValidateFilePath src = None -> ValidateFilePath dst = None -> file_at w src = Some i ->
  Z.of_nat (length (content w i)) < 2 ^ 63 -> os_OpenTrunc dst w = (w1, inl j) ->
  Copy ctx src dst w =
  (let len := length (content w i) in
   let '(w2, (k, e)) := copy_loop (S len) ctx 1 chunk j (FileReader i 0) len 0 w1 in
   (w2, match e with
        | Some err => Some (wrapPathError "put" dst err)
        | None => if negb (Z.of_nat k =? Z.of_nat len) then Some (wrapPathError "put" dst ErrUnexpectedEOF) else None
        end)).
Proof.
  intros Hrel Hctx Hs Hd Hi Hlen Ht. destruct (stat_law _ _ _ Hi) as [t Hstat].
  destruct (validate_file_ok _ Hs) as [Hs' Hdot].
  unfold Copy. cbn [nativeCopy Stat Open Put local_driver]. unfold LocalStat, LocalOpen, LocalPut, openRoot, nativePath.
  rewrite Hctx, Hs', bool_decide_false by done. rewrite (proj1 Hrel), Hstat.
  cbn [fmap option_fmap option_map entryFromInfo Size iSize]. rewrite Hs, (proj1 Hrel), (open_law _ _ _ Hi).
  cbn [fmap option_fmap option_map source_of]. rewrite ?Hctx, Hd, ?(proj1 Hrel).
  unfold ResolveContentLength, inferContentLength, remainingLength. cbn [ContentLength].
  set (len := length (content w i)) in *. clearbody len.
  rewrite (proj2 (Z.ltb_ge (Z.of_nat len) 0)) by lia. rewrite (proj2 (Z.ltb_ge (Z.of_nat len) (Z.of_nat 0))) by lia.
  rewrite Z.sub_0_r. rewrite wrap64_id by (int64_unfold; lia).
  rewrite Z.eqb_refl. cbn [negb andb fmap option_fmap option_map]. rewrite Ht, Nat2Z.id.
  destruct (copy_loop _ _ _ _ _ _ _ _ _) as [w2 [k [e|]]]; [done|]. by rewrite (proj1 (proj2 Hrel)).
Qed.

(** The repository's copy over the local driver, exactly: when source and
    destination are different files the destination gets the source's bytes and
    the source keeps them; when they are the same file (the same path, or two
    hard links) the file is emptied before it is read, and unless it was empty
    the copy reports an unexpected end of file. *)
Theorem local_copy_exact ctx src dst w w1 i j :
  reliable -> (forall n, ctx_Err ctx n = None) ->
  ValidateFilePath src = None -> ValidateFilePath dst = None -> file_at w src = Some i ->
  Z.of_nat (length (content w i)) < 2 ^ 63 -> os_OpenTrunc dst w = (w1, inl j) ->
  exists w', Copy ctx src dst w =
      (w', if decide (i = j /\ content w i <> []) then Some (wrapPathError "put" dst ErrUnexpectedEOF) else None) /\
    file_at w' src = Some i /\ file_at w' dst = Some j /\
    content w' j = (if decide (i = j) then [] else content w i) /\
    (forall k, k <> j -> content w' k = content w k).
Proof.
  intros Hrel Hctx Hs Hd Hi Hlen Ht. rewrite (copy_opens ctx src dst w w1 i j) by done. cbv zeta.
  apply trunc_law in Ht as (Hat & Hempty & Hnames & Hother & _). destruct (decide (i = j)) as [<-|Hne].
  - exists w1. cbn [copy_loop]. unfold contextReader_Read. rewrite Hctx. cbn [read_some]. rewrite (proj2 (proj2 (proj2 Hrel))), Hempty, drop_nil, take_nil.
    split; [|split_and!; [by apply Hnames|done|done|done]].
    destruct (content w i) as [|c l]; [|].
    + rewrite decide_True by done. rewrite decide_False; [done|by intros []].
    + rewrite decide_False by done. rewrite !decide_True by done. done.
  - rewrite (decide_False (P := i = j /\ _)) by (by intros []).
    destruct (copy_loop_ends ctx chunk j (S (length (content w i))) 1 (FileReader i 0) (length (content w i)) 0 w1)
      as (w2 & k & Hc); [done|done|apply chunk_pos|lia|]. exists w2. rewrite Hc.
    apply copy_loop_spec in Hc as (Hc & -> & Ho & Hn); [|apply chunk_pos|lia|done|by rewrite Hempty].
    cbn [rest_of] in *. rewrite Hempty, Hother, drop_0, firstn_all in * by done. simpl. rewrite Z.eqb_refl.
    split_and!; [done|rewrite Hn; by apply Hnames|by rewrite Hn|done|]. intros m Hm. by rewrite Ho, Hother.
Qed.

(** A copy of a path onto itself loses the file. *)
Theorem copy_onto_itself ctx path w w1 i j :
  reliable -> (forall n, ctx_Err ctx n = None) -> ValidateFilePath path = None -> file_at w path = Some i ->
  content w i <> [] -> Z.of_nat (length (content w i)) < 2 ^ 63 -> os_OpenTrunc path w = (w1, inl j) ->
  exists w', Copy ctx path path w = (w', Some (wrapPathError "put" path ErrUnexpectedEOF)) /\
    file_at w' path = Some i /\ content w' i = [].
Proof.
  intros Hrel Hctx Hv Hi Hne Hlen Ht.
  assert (j = i) as ->. { apply trunc_law in Ht as (Hat & _ & Hnames & _). apply Hnames in Hi. congruence. }
  exists w1. rewrite (copy_opens ctx path path w w1 i i) by done. cbv zeta.
  apply trunc_law in Ht as (Hat & Hempty & Hnames & Hother & _).
  cbn [copy_loop]. unfold contextReader_Read. rewrite Hctx. cbn [read_some]. rewrite (proj2 (proj2 (proj2 Hrel))), Hempty, drop_nil, take_nil.
  destruct (content w i) as [|c l]; [done|]. rewrite decide_False by done. by rewrite decide_True.
Qed.
End Contents.

(** ** A system that meets the laws

    Names in one flat directory; inodes are numbered as they are created.
    Symbolic links are not supported. *)
Record Disk := mkDisk { names : list (string * nat); inodes : list bytes }.

Definition find_name (p : string) (l : list (string * nat)) : option nat :=
  if bool_decide (p = "."%string) then None else snd <$> head (filter (fun v => v.1 = p) l).
Definition inode_content (d : Disk) (i : nat) : bytes := default [] (inodes d !! i).
Definition errExist : error := ErrNew "file already exists".

Definition drop_name (p : string) (l : list (string * nat)) : list (string * nat) := filter (fun v => v.1 <> p) l.

#[export] Instance disk_os : OS Disk := {|
  file_at d p := find_name p (names d);
  content := inode_content;
  os_openRoot d := None;
  os_Open p d := match find_name p (names d) with Some i => inl i | None => inr ErrNotExist end;
  os_OpenTrunc p d :=
    match find_name p (names d) with
    | Some i => (mkDisk (names d) (<[i := []]> (inodes d)), inl i)
    | None =>
        if bool_decide (p = "."%string) then (d, inr (ErrNew "is a directory")) else
        let i := Nat.max (length (inodes d)) (S (foldr Nat.max 0%nat (names d).*2)) in
        (mkDisk ((p, i) :: names d) (inodes d), inl i)
    end;
  os_ReadErr i off d := None;
  os_Write i off data d :=
    let old := inode_content d i in
    let new := take off old ++ data ++ drop (off + length data) old in
    (mkDisk (names d) (<[i := new]> (inodes d ++ replicate (S i - length (inodes d)) [])), None);
  os_Close i d := None;
  os_Remove p d :=
    match find_name p (names d) with
    | Some i => (mkDisk (drop_name p (names d)) (inodes d), None)
    | None => (d, Some ErrNotExist)
    end;
  os_Stat p d :=
    if bool_decide (p = "."%string) then inl (mkInfo Directory 0 0)
    else match find_name p (names d) with
         | Some i => inl (mkInfo Regular (Z.of_nat (length (inode_content d i))) 0)
         | None => inr ErrNotExist
         end;
  os_Rename p q d :=
    match find_name p (names d) with
    | Some i => (mkDisk ((q, i) :: drop_name q (drop_name p (names d))) (inodes d), None)
    | None => (d, Some ErrNotExist)
    end;
  os_Link p q d :=
    match find_name p (names d), find_name q (names d) with
    | Some i, None => (mkDisk ((q, i) :: names d) (inodes d), None)
    | Some _, Some _ => (d, Some errExist)
    | None, _ => (d, Some ErrNotExist)
    end;
  os_Symlink t p d := (d, Some (ErrNew "operation not permitted"));
  os_MkdirAll p d := (d, None);
  os_RemoveAll p d := (d, None);
  os_ReadDir p d := inl ((fun n => mkDirEntry n false false) <$> filter (fun n => n <> ""%string) (remove_dups (names d).*1));
  os_WalkDir p d :=
    (fun n => (n, inl (mkDirEntry n false false))) <$> filter (fun n => n <> ""%string) (remove_dups (names d).*1);
  filepath_Rel a b := inl b
|}.

Lemma find_name_cons p i q l :
  p <> "."%string -> find_name q ((p, i) :: l) = if decide (q = p) then Some i else find_name q l.
Proof.
  intros Hp. unfold find_name. rewrite filter_cons. cbn [fst]. destruct (decide (p = q)) as [->|Hne].
  - rewrite bool_decide_false by done. by rewrite decide_True.
  - by rewrite (decide_False (P := q = p)) by done.
Qed.

Lemma find_name_in p l i : find_name p l = Some i -> i ∈ l.*2.
Proof.
  unfold find_name. case_bool_decide; [done|]. destruct (filter _ l) as [|[q j] l'] eqn:E; [done|].
  intros [= <-]. apply (list_elem_of_fmap_2 snd l (q, j)). apply (list_elem_of_filter (fun v => v.1 = p)).
  rewrite E. by left.
Qed.

Lemma foldr_max_le l x : x ∈ l -> (x <= foldr Nat.max 0%nat l)%nat.
Proof. induction 1; simpl; lia. Qed.

Lemma disk_names_ok (l : list string) :
  NoDup (filter (fun n => n <> ""%string) (remove_dups l)) /\
  Forall (fun n => n <> ""%string) (filter (fun n => n <> ""%string) (remove_dups l)).
Proof.
  split; [apply NoDup_filter, NoDup_remove_dups|]. apply Forall_forall. by intros n [? _]%list_elem_of_filter.
Qed.

#[export] Instance disk_laws : OSLaws Disk.
Proof.
  split.
  - intros d p i. simpl. by intros ->.
  - intros d p i. simpl. intros Hf. rewrite bool_decide_false, Hf; [by eexists|].
    intros ->. by unfold find_name in Hf.
  - intros d p d' i. simpl. destruct (find_name p (names d)) as [k|] eqn:E.
    + intros [= <- <-]. unfold inode_content. cbn [names inodes]. split; [done|].
      split; [by destruct (decide (k < length (inodes d))%nat);
        [rewrite list_lookup_insert_eq|rewrite lookup_ge_None_2 by (rewrite length_insert; lia)]|].
      split; [done|]. split; [|done]. intros j Hj. by rewrite list_lookup_insert_ne.
    + destruct (bool_decide _) eqn:Hp; [done|]. apply bool_decide_eq_false in Hp. intros [= <- <-].
      set (i := Nat.max _ _). unfold inode_content. cbn [names inodes].
      rewrite find_name_cons, decide_True by done. split; [done|].
      split; [by rewrite lookup_ge_None_2 by (unfold i; lia)|].
      split; [intros q j Hq; rewrite find_name_cons by done; destruct (decide (q = p)) as [->|]; congruence|].
      split; [done|]. intros _ q Hq%find_name_in%foldr_max_le. unfold i in Hq. lia.
  - intros d i off data d'. simpl. intros [= <-] Hoff. split; [|split; [|done]].
    + unfold inode_content at 1. cbn [inodes]. rewrite list_lookup_insert_eq; [done|]. rewrite length_app, length_replicate. lia.
    + intros j Hj. unfold inode_content. cbn [inodes]. rewrite list_lookup_insert_ne by done.
      destruct (decide (j < length (inodes d))%nat); [by rewrite lookup_app_l|].
      rewrite lookup_app_r by lia. rewrite (lookup_ge_None_2 (inodes d)) by lia.
      destruct (replicate _ _ !! _) as [x|] eqn:E; [|done]. by apply lookup_replicate in E as [-> _].
  - intros d p ds. simpl. intros [= <-]. destruct (disk_names_ok (names d).*1) as [Hnd Hne].
    rewrite <- list_fmap_compose, Forall_fmap. unfold compose. simpl. by rewrite list_fmap_id.
  - intros d p. simpl. destruct (disk_names_ok (names d).*1) as [Hnd Hne].
    rewrite <- list_fmap_compose, Forall_fmap. unfold compose. simpl. by rewrite list_fmap_id.
Qed.

Lemma disk_reliable : reliable (W := Disk).
Proof. by split_and!. Qed.

Lemma background_alive : forall n, ctx_Err Background n = None.
Proof. done. Qed.

Definition disk0 : Disk := mkDisk [("b"%string, 1%nat); ("a"%string, 0%nat)] [lit "hello"; lit "x"].

Lemma pages_complete_witness : exists ps,
  pages (S 2) Background "." false 1 "" disk0 = Some (inl ps) /\
  Permutation (Path <$> mjoin (Entries <$> ps)) ["a"; "b"]%string.
Proof.
  destruct (pages_complete Background "." false 1 disk0
    [mkEntry "b" EntryKindFile 1 0 "" []; mkEntry "a" EntryKindFile 5 0 "" []])
    as (ps & Hps & Hp & _); [done|by vm_compute|done|by vm_compute|unfold MaxListLimit; lia|].
  exists ps. split; [exact Hps|]. rewrite Hp. apply Permutation_swap.
Defined.

Lemma local_write_read_witness :
  exists w', WriteFile (fun _ => ""%string) Background "c" (lit "new") (mkPutOptions None "" []) disk0 = (w', None) /\
    ReadFile Background "c" w' = (w', inl (lit "new")).
Proof.
  destruct (WriteFile (fun _ => ""%string) Background "c" (lit "new") (mkPutOptions None "" []) disk0) as [w' e] eqn:E.
  apply local_write_read in E as [Hok Htot].
  assert (He : e = None).
  { apply Htot; [apply disk_reliable|apply background_alive|by vm_compute|by eexists _, _|done]. }
  subst e. exists w'. split; [done|]. destruct (Hok eq_refl) as (file & _ & _ & _ & Hr). by apply Hr.
Defined.

Lemma local_copy_exact_witness :
  exists w', Copy Background "a" "b" disk0 = (w', None) /\ content w' 1 = lit "hello".
Proof.
  destruct (local_copy_exact Background "a" "b" disk0 (mkDisk (names disk0) [lit "hello"; []]) 0 1
    disk_reliable background_alive)
    as (w' & Hc & _ & _ & Hb & _); [by vm_compute|by vm_compute|done|by vm_compute|done|].
  exists w'. split; [exact Hc|exact Hb].
Defined.
