(* ===== verification/FilesystemObject.v ===== *)
(** * Object storage: [src/filesystem/s3] and [src/filesystem/oss]

    The two drivers are the same program over two client libraries: they differ in
    how an error says that an object is missing and in how a copy names its
    source ([dialect]).  The service is a parameter ([ObjectStore]) with laws
    ([ObjectLaws]): a table from keys to objects, whose listings are pages of the
    sorted keys. *)

From S2P Require Import Prelude GoErrors GoUtf8 Filesystem FilesystemLocal.
From Stdlib Require Import Ascii.
From stdpp Require Import options.
Set Default Proof Using "Type*".
Local Open Scope Z_scope.

Local Abbreviation bytes := (list ascii).
Local Abbreviation lit := String.list_ascii_of_string.
Local Abbreviation unlit := String.string_of_list_ascii.

(** ** The clients *)

(** A stream: what reading all of it gives, and what it offers about its length. *)
Record stream := mkStream { sContent : bytes + error; sSource : source }.

Record HeadOutput := mkHead {
  hLength : option Z; hType : option string; hMetadata : list (string * string); hModified : option Z
}.
Record ObjectInfo := mkObjectInfo { oKey : option bytes; oSize : option Z; oModified : option Z }.
Record ListOutput := mkListOutput { Contents : list ObjectInfo; CommonPrefixes : list bytes; NextToken : option string }.
Record PutInput := mkPutInput {
  pKey : bytes; pBody : stream; pLength : Z; pType : option string; pMeta : list (string * string)
}.
Record ListInput := mkListInput { lPrefix : bytes; lDelimiter : option bytes; lToken : option string; lMaxKeys : Z }.

(** The requests of a client on the bucket of the driver. *)
Class ObjectStore (W : Type) := {
  GetObject : context -> bytes -> W -> W * (stream + error);
  PutObject : context -> PutInput -> W -> W * option error;
  DeleteObject : context -> bytes -> W -> W * option error;
  HeadObject : context -> bytes -> W -> W * (HeadOutput + error);
  ListObjectsV2 : context -> ListInput -> W -> W * (ListOutput + error);
  CopyObject : context -> bytes -> bytes -> W -> W * option error
}.

Record dialect := mkDialect { isNotFound : error -> bool; copySource : bytes -> bytes -> bytes }.

(** *** [url.PathEscape] *)
Definition hexdigit (n : nat) : ascii := ascii_of_nat (if (n <? 10)%nat then 48 + n else 55 + n).
Definition unreserved (a : ascii) : bool :=
  let c := nat_of_ascii a in
  ((97 <=? c) && (c <=? 122))%nat || ((65 <=? c) && (c <=? 90))%nat || ((48 <=? c) && (c <=? 57))%nat ||
  bool_decide (c ∈ [45; 95; 46; 126; 36; 38; 43; 61; 58; 64])%nat.
Definition escape_byte (a : ascii) : bytes :=
  if unreserved a then [a]
  else ["%"%char; hexdigit (nat_of_ascii a / 16); hexdigit (nat_of_ascii a mod 16)].
Definition PathEscape (s : bytes) : bytes := s ≫= escape_byte.

Section Dialects.
(** The error types of the client libraries. *)
Variables (as_NotFound as_NoSuchKey : error -> option unit) (as_APIError : error -> option string)
  (as_ServiceError : error -> option (Z * string)).

Definition S3_isNotFound (err : error) : bool :=
  if errors_As as_NotFound err is Some _ then true
  else if errors_As as_NoSuchKey err is Some _ then true
  else match errors_As as_APIError err with
       | Some code => bool_decide (code ∈ ["NotFound"; "NoSuchKey"; "404"]%string)
       | None => false
       end.
Definition S3_copySource (bucket key : bytes) : bytes := PathEscape (bucket ++ [slash] ++ key).

Definition OSS_isNotFound (err : error) : bool :=
  match errors_As as_ServiceError err with
  | None => false
  | Some (status, code) => (status =? 404) || bool_decide (code ∈ ["NoSuchKey"; "NoSuchObject"; "NotFound"]%string)
  end.

(** The bucket and the key of the source are fields of their own. *)
Definition OSS_copySource (bucket key : bytes) : bytes := key.

Definition S3 : dialect := mkDialect S3_isNotFound S3_copySource.
Definition OSS : dialect := mkDialect OSS_isNotFound OSS_copySource.
End Dialects.

(** ** The driver *)

Record Filesystem_ := mkFilesystem { prefixer : PathPrefixer; bucket : bytes }.

Definition newConfig (opts : list bytes) : bytes := foldl (fun _ root => root) [] opts.
Definition newFilesystem (bucket : bytes) (opts : list bytes) : Filesystem_ :=
  mkFilesystem (NewPathPrefixer (newConfig opts)) bucket.

(** [strings.TrimSuffix(prefix, "/") + "/"] *)
Definition directoryPrefix (prefix : bytes) : bytes :=
  if decide (prefix = []) then []
  else (match last prefix with
        | Some a => if decide (a = slash) then take (length prefix - 1) prefix else prefix
        | None => prefix
        end) ++ [slash].

Definition dereference (value : option string) : string := default ""%string value.

Section Driver.
Context {W : Type} {store : ObjectStore W} (d : dialect) (s : Filesystem_).

Definition ObjWrap (op path : string) (err : error) : error :=
  PathError op path (if isNotFound d err then ErrNotFound else err).

Definition key_of (path : string) : bytes := Prefix (prefixer s) (lit path).

Definition ObjOpen (ctx : context) (path : string) (w : W) : W * (stream + error) :=
  match ValidateFilePath path with
  | Some err => (w, inr err)
  | None =>
      match GetObject ctx (key_of path) w with
      | (w, inr err) => (w, inr (ObjWrap "open" path err))
      | (w, inl body) => (w, inl body)
      end
  end.

Definition ObjPut (ctx : context) (path : string) (src : stream) (options : PutOptions) (w : W) : W * option error :=
  match ValidateFilePath path with
  | Some err => (w, Some err)
  | None =>
      match ResolveContentLength options (sSource src) with
      | inr err => (w, Some (ObjWrap "put" path err))
      | inl contentLength =>
          let input := mkPutInput (key_of path) src contentLength
            (if negb (bool_decide (pContentType options = ""%string)) then Some (pContentType options) else None)
            (pMetadata options) in
          match PutObject ctx input w with
          | (w, Some err) => (w, Some (ObjWrap "put" path err))
          | (w, None) => (w, None)
          end
      end
  end.

Definition ObjDelete (ctx : context) (path : string) (w : W) : W * option error :=
  match ValidateFilePath path with
  | Some err => (w, Some err)
  | None =>
      match DeleteObject ctx (key_of path) w with
      | (w, Some err) => (w, Some (ObjWrap "delete" path err))
      | (w, None) => (w, None)
      end
  end.

Definition hasChildren (ctx : context) (path : string) (w : W) : W * (bool + error) :=
  match ListObjectsV2 ctx (mkListInput (directoryPrefix (key_of path)) None None 1) w with
  | (w, inr err) => (w, inr err)
  | (w, inl output) => (w, inl ((0 <? length (Contents output))%nat || (0 <? length (CommonPrefixes output))%nat))
  end.

Definition directory_entry (path : string) : Entry := mkEntry path EntryKindDirectory 0 zeroTime "" [].

Definition ObjStat (ctx : context) (path : string) (w : W) : W * (Entry + error) :=
  match ValidatePath path with
  | Some err => (w, inr err)
  | None =>
      match ctx_Err ctx 0 with
      | Some err => (w, inr err)
      | None =>
          if bool_decide (path = "."%string) then (w, inl (directory_entry "."))
          else
            match HeadObject ctx (key_of path) w with
            | (w, inr err) =>
                if isNotFound d err then
                  match hasChildren ctx path w with
                  | (w, inr listErr) => (w, inr (ObjWrap "stat" path listErr))
                  | (w, inl true) => (w, inl (directory_entry path))
                  | (w, inl false) => (w, inr (ObjWrap "stat" path err))
                  end
                else (w, inr (ObjWrap "stat" path err))
            | (w, inl output) =>
                (w, inl (mkEntry path EntryKindFile (default 0 (hLength output)) (default zeroTime (hModified output))
                           (dereference (hType output)) (hMetadata output)))
            end
      end
  end.

(** The entry of a listed object, unless it is skipped. *)
Definition file_entry (object : ObjectInfo) : option Entry :=
  let key := default [] (oKey object) in
  if bool_decide (last key = Some slash) then None
  else
    let '(path, ok) := Strip (prefixer s) key in
    if negb ok || bool_decide (path = lit ".") || negb (ValidPath (unlit path)) then None
    else Some (mkEntry (unlit path) EntryKindFile (default 0 (oSize object)) (default zeroTime (oModified object)) "" []).

(** Later objects replace earlier ones with the same path. *)
Definition entries (output : ListOutput) : list Entry :=
  let byPath := foldl (fun (m : gmap string Entry) object =>
                         match file_entry object with Some e => <[Path e := e]> m | None => m end) ∅ (Contents output) in
  sort_entries (map_to_list byPath).*2.

Definition ObjListFiles (ctx : context) (path : string) (options : ListOptions) (w : W) : W * (ListPage + error) :=
  let options := Normalize options in
  match ValidatePath path with
  | Some err => (w, inr err)
  | None =>
      let input := mkListInput (directoryPrefix (key_of path))
        (if negb (Recursive options) then Some [slash] else None)
        (if negb (bool_decide (Cursor options = ""%string)) then Some (Cursor options) else None)
        (Limit options) in
      match ListObjectsV2 ctx input w with
      | (w, inr err) => (w, inr (ObjWrap "list" path err))
      | (w, inl output) => (w, inl (mkListPage (entries output) (dereference (NextToken output))))
      end
  end.

Definition ObjCopy (ctx : context) (src dst : string) (w : W) : W * option error :=
  match ValidateFilePath src with
  | Some err => (w, Some err)
  | None =>
      match ValidateFilePath dst with
      | Some err => (w, Some err)
      | None =>
          match CopyObject ctx (copySource d (bucket s) (key_of src)) (key_of dst) w with
          | (w, Some err) => (w, Some (ObjWrap "copy" src err))
          | (w, None) => (w, None)
          end
      end
  end.

Definition ObjMove (ctx : context) (src dst : string) (w : W) : W * option error :=
  match ObjCopy ctx src dst w with
  | (w, Some err) => (w, Some err)
  | (w, None) => ObjDelete ctx src w
  end.

(** [ReadAll] of a stream; a [bytes.Reader] offers its length. *)
Instance object_driver : Driver W stream := {|
  Open := ObjOpen; Put := ObjPut; Delete := ObjDelete; Stat := ObjStat; ListFiles := ObjListFiles;
  ReadAll r w := (w, sContent r);
  Reader b := mkStream (inl b) (LenSource (Z.of_nat (length b)));
  nativeCopy := Some ObjCopy; nativeMove := Some ObjMove
|}.
End Driver.

(** The driver of Amazon S3 is the one above with its dialect, and that of Alibaba
    Cloud OSS the same text with the other. *)
Section Drivers.
Context {W : Type} {store : ObjectStore W}.
Variables (as_NotFound as_NoSuchKey : error -> option unit) (as_APIError : error -> option string)
  (as_ServiceError : error -> option (Z * string)).
Local Abbreviation s3 := (S3 as_NotFound as_NoSuchKey as_APIError).
Local Abbreviation oss := (OSS as_ServiceError).

Definition S3_driver (s : Filesystem_) : Driver W stream := object_driver s3 s.

Definition OSS_newFilesystem : bytes -> list bytes -> Filesystem_ := newFilesystem.
Definition OSS_wrapPathError := ObjWrap oss.
Definition OSS_directoryPrefix := directoryPrefix.
Definition OSS_entries := entries.
Definition OSS_Open := ObjOpen oss.
Definition OSS_Put := ObjPut oss.
Definition OSS_Delete := ObjDelete oss.
Definition OSS_Stat := ObjStat oss.
Definition OSS_hasChildren (s : Filesystem_) := hasChildren s.
Definition OSS_ListFiles := ObjListFiles oss.
Definition OSS_Copy := ObjCopy oss.
Definition OSS_Move := ObjMove oss.
Definition OSS_driver (s : Filesystem_) : Driver W stream := object_driver oss s.
End Drivers.

(** ** What the service promises *)

Record object := mkObject { body : bytes; ctype : option string; meta : list (string * string); modified : Z }.

(** A listing: the keys that begin with the prefix, in order; with the delimiter, a
    key that has it after the prefix stands for the part up to it. *)
Inductive item := Object_ (key : bytes) | Common (prefix : bytes).
#[export] Instance item_eq_dec : EqDecision item.
Proof. solve_decision. Defined.

Definition key_le (a b : bytes) : Prop := str_lt (unlit b) (unlit a) = false.
#[export] Instance key_le_dec a b : Decision (key_le a b).
Proof. unfold key_le. apply _. Defined.

Definition has_prefix (p k : bytes) : bool := if cut_prefix p k is Some _ then true else false.
Definition sorted_keys (m : gmap bytes object) (p : bytes) : list bytes :=
  merge_sort key_le (filter (fun k => has_prefix p k = true) (map_to_list m).*1).

(** The part up to and with the first slash. *)
Fixpoint up_to_slash (s : bytes) : option bytes :=
  match s with
  | [] => None
  | a :: s => if decide (a = slash) then Some [a] else cons a <$> up_to_slash s
  end.
Definition item_of (p : bytes) (delimited : bool) (k : bytes) : item :=
  if delimited then
    match up_to_slash (drop (length p) k) with Some r => Common (p ++ r) | None => Object_ k end
  else Object_ k.
Fixpoint squash (l : list item) : list item :=
  match l with
  | [] => []
  | a :: t => if decide (head t = Some a) then squash t else a :: squash t
  end.
Definition listing (m : gmap bytes object) (p : bytes) (delimited : bool) : list item :=
  squash (item_of p delimited <$> sorted_keys m p).

Definition item_key (i : item) : option bytes := match i with Object_ k => Some k | Common _ => None end.
Definition item_common (i : item) : option bytes := match i with Object_ _ => None | Common p => Some p end.
Definition info_of (m : gmap bytes object) (k : bytes) : ObjectInfo :=
  mkObjectInfo (Some k) ((fun o => Z.of_nat (length (body o))) <$> m !! k) (modified <$> m !! k).

Class ObjectLaws (W : Type) {store : ObjectStore W} (d : dialect) := {
  objects : W -> gmap bytes object;
  (** the key a copy request names, and where a token continues *)
  source_key : bytes -> option bytes;
  position : gmap bytes object -> ListInput -> nat;
  get_law ctx k w w' r : GetObject ctx k w = (w', r) ->
    objects w' = objects w /\
    match r with
    | inl st => exists o, objects w !! k = Some o /\ (sContent st = inl (body o) \/ exists e, sContent st = inr e)
    | inr e => isNotFound d e = true -> objects w !! k = None
    end;
  put_law ctx i w w' r : PutObject ctx i w = (w', r) ->
    match r with
    | None => exists b t, sContent (pBody i) = inl b /\ Z.of_nat (length b) = pLength i /\
        objects w' = <[pKey i := mkObject b (pType i) (pMeta i) t]> (objects w)
    | Some _ => objects w' = objects w \/ exists o, objects w' = <[pKey i := o]> (objects w)
    end;
  delete_law ctx k w w' r : DeleteObject ctx k w = (w', r) ->
    objects w' = delete k (objects w) \/ (r <> None /\ objects w' = objects w);
  head_law ctx k w w' r : HeadObject ctx k w = (w', r) ->
    objects w' = objects w /\
    match r with
    | inl h => exists o, objects w !! k = Some o /\ hLength h = Some (Z.of_nat (length (body o))) /\
        hType h = ctype o /\ hMetadata h = meta o
    | inr e => isNotFound d e = true -> objects w !! k = None
    end;
  copy_law ctx src dst w w' r : CopyObject ctx src dst w = (w', r) ->
    match r with
    | None => exists k o t, source_key src = Some k /\ objects w !! k = Some o /\
        objects w' = <[dst := mkObject (body o) (ctype o) (meta o) t]> (objects w)
    | Some _ => objects w' = objects w \/
        exists k o t, source_key src = Some k /\ objects w !! k = Some o /\
          objects w' = <[dst := mkObject (body o) (ctype o) (meta o) t]> (objects w)
    end;
  position_first m p dl n : position m (mkListInput p dl None n) = 0%nat;
  list_law ctx i w w' out : 1 <= lMaxKeys i -> ListObjectsV2 ctx i w = (w', inl out) ->
    objects w' = objects w /\
    (let items := drop (position (objects w) i) (listing (objects w) (lPrefix i) (if lDelimiter i is Some _ then true else false)) in
     exists n, (n <= Z.to_nat (lMaxKeys i))%nat /\ (items <> [] -> 0 < n)%nat /\
       Contents out = info_of (objects w) <$> omap item_key (take n items) /\
       CommonPrefixes out = omap item_common (take n items) /\
       match NextToken out with
       | None => drop n items = []
       | Some t => drop n items <> [] /\ t <> ""%string /\
           forall max, position (objects w) (mkListInput (lPrefix i) (lDelimiter i) (Some t) max) = (position (objects w) i + n)%nat
       end);
  list_keeps ctx i w w' e : ListObjectsV2 ctx i w = (w', inr e) -> objects w' = objects w
}.

(** ** Order of keys *)

Lemma str_lt_app (p a b : bytes) : str_lt (unlit (p ++ a)) (unlit (p ++ b)) = str_lt (unlit a) (unlit b).
Proof.
  induction p as [|x p IH]; [done|]. simpl. rewrite Nat.ltb_irrefl, bool_decide_true by done. exact IH.
Qed.

#[export] Instance key_le_total : Total key_le.
Proof.
  intros a b. unfold key_le. destruct (str_lt (unlit b) (unlit a)) eqn:E; [right|by left].
  destruct (str_lt (unlit a) (unlit b)) eqn:E'; [|done].
  pose proof (str_lt_trans _ _ _ E E') as Hbad. by rewrite str_lt_irrefl in Hbad.
Qed.
#[export] Instance key_le_trans : Transitive key_le.
Proof.
  intros a b c. unfold key_le. intros Hab Hbc. destruct (str_lt (unlit c) (unlit a)) eqn:E; [|done].
  destruct (str_lt_total (unlit b) (unlit c)) as [Hlt|[Heq|Hlt]]; [|congruence|congruence].
  rewrite (str_lt_trans _ _ _ Hlt E) in Hab. done.
Qed.

Lemma unlit_inj (a b : bytes) : unlit a = unlit b -> a = b.
Proof.
  intros E. by rewrite <- (String.list_ascii_of_string_of_list_ascii a), <- (String.list_ascii_of_string_of_list_ascii b), E.
Qed.

Local Abbreviation key_lt := (fun a b : bytes => str_lt (unlit a) (unlit b) = true).

Lemma sorted_keys_perm m p : sorted_keys m p ≡ₚ filter (fun k => has_prefix p k = true) (map_to_list m).*1.
Proof. apply merge_sort_Permutation. Qed.

Lemma sorted_keys_NoDup m p : NoDup (sorted_keys m p).
Proof. rewrite sorted_keys_perm. apply NoDup_filter, NoDup_fst_map_to_list. Qed.

Lemma sorted_keys_elem m p k : k ∈ sorted_keys m p <-> has_prefix p k = true /\ is_Some (m !! k).
Proof.
  rewrite sorted_keys_perm, list_elem_of_filter, list_elem_of_fmap. split; (intros [H1 H2]; split; [done|]).
  - destruct H2 as ([k' o] & -> & Hin%elem_of_map_to_list). by exists o.
  - destruct H2 as [o Ho]. exists (k, o). split; [done|]. by apply elem_of_map_to_list.
Qed.

Lemma sorted_keys_sorted m p : StronglySorted key_lt (sorted_keys m p).
Proof.
  pose proof (sorted_keys_NoDup m p) as Hnd. pose proof (StronglySorted_merge_sort key_le (filter (fun k => has_prefix p k = true) (map_to_list m).*1)) as Hs.
  fold (sorted_keys m p) in Hs. induction Hs as [|e l Hs IH Hall]; [constructor|]. apply NoDup_cons in Hnd as [Hx Hnd].
  constructor; [by apply IH|]. rewrite Forall_forall in Hall |- *. intros y Hy. specialize (Hall y Hy).
  destruct (str_lt_total (unlit e) (unlit y)) as [?|[E|E]]; [done| |unfold key_le in Hall; congruence].
  apply unlit_inj in E as ->. done.
Qed.

(** The objects of a listing are its keys, with a delimiter those without one
    after the prefix. *)
Definition shown (p : bytes) (delimited : bool) (k : bytes) : bool :=
  negb delimited || (if up_to_slash (drop (length p) k) is Some _ then false else true).

Lemma squash_keys l : NoDup (omap item_key l) -> omap item_key (squash l) = omap item_key l.
Proof.
  induction l as [|a l IH]; intros Hnd; [done|]. cbn [squash]. destruct (decide (head l = Some a)) as [E|_].
  - destruct l as [|b l]; [done|]. injection E as ->. destruct a as [k|p]; cbn in *.
    + apply NoDup_cons in Hnd as [Hk _]. destruct Hk. by left.
    + by apply IH.
  - destruct a as [k|p]; cbn in *; [|by apply IH]. f_equal. apply IH. by apply NoDup_cons in Hnd as [_ ?].
Qed.

Lemma items_keys p delimited (ks : list bytes) : omap item_key (item_of p delimited <$> ks) = filter (fun k => shown p delimited k = true) ks.
Proof.
  assert (Hk : forall k, item_key (item_of p delimited k) = if shown p delimited k then Some k else None).
  { intros k. unfold item_of, shown. destruct delimited; [|done]. by destruct (up_to_slash (drop (length p) k)). }
  induction ks as [|k ks IH]; [done|]. rewrite fmap_cons, filter_cons. cbn [omap list_omap]. rewrite Hk.
  destruct (shown p delimited k); [rewrite decide_True by done; f_equal|rewrite decide_False by done]; exact IH.
Qed.

Lemma listing_keys m p delimited :
  omap item_key (listing m p delimited) = filter (fun k => shown p delimited k = true) (sorted_keys m p).
Proof.
  unfold listing. rewrite squash_keys, items_keys; [done|]. rewrite items_keys. apply NoDup_filter, sorted_keys_NoDup.
Qed.

(** ** Paths and keys *)

Lemma good_path_last cur s : forallb good_element (elements cur s) = true -> last s <> Some slash.
Proof.
  revert cur. induction s as [|a s IH]; intros cur H; [done|]. cbn in H. destruct s as [|b s].
  - destruct (decide (a = slash)) as [->|Hne]; [|cbn; congruence].
    cbn in H. by rewrite andb_false_r in H.
  - change (last (a :: b :: s)) with (last (b :: s)). destruct (decide (a = slash)).
    + apply andb_true_iff in H as [_ H]. by eapply IH.
    + by eapply IH.
Qed.

Lemma file_path_good path :
  ValidateFilePath path = None ->
  ValidPath path = true /\ path <> "."%string /\ forallb good_element (elements [] (lit path)) = true.
Proof.
  intros Hv. destruct (validate_file_ok _ Hv) as [Hp Hne]. unfold ValidatePath in Hp.
  destruct (ValidPath path) eqn:E; [|done]. split_and!; [done|done|].
  unfold ValidPath, fs_ValidPath in E. rewrite !andb_true_iff, orb_true_iff, bool_decide_eq_true in E.
  by destruct E as [[_ [?|?]] _].
Qed.

Section Keys.
Variables (bkt : bytes) (opts : list bytes).
Local Abbreviation fs := (newFilesystem bkt opts).

(** What stands before a path in its key. *)
Definition key_base : bytes := if decide (prefix (prefixer fs) = []) then [] else prefix (prefixer fs) ++ [slash].

Lemma key_of_base path : path <> "."%string -> key_of fs path = key_base ++ lit path.
Proof.
  intros Hne. unfold key_of, Prefix, key_base. rewrite decide_False.
  - destruct (decide _); [done|]. by rewrite <- (assoc_L (++)).
  - intros E. apply (f_equal unlit) in E. rewrite !String.string_of_list_ascii_of_string in E. done.
Qed.

Lemma strip_base k path :
  head k <> Some slash -> Strip (prefixer fs) k = (path, true) -> path <> lit "." -> k = key_base ++ path.
Proof.
  intros Hh. unfold Strip, key_base. set (q := prefix (prefixer fs)).
  assert (Hk : match k with a :: t => if decide (a = slash) then t else k | [] => [] end = k).
  { destruct k as [|a t]; [done|]. rewrite decide_False; [done|]. intros ->. by apply Hh. }
  rewrite Hk. destruct (decide (q = [])).
  - destruct (decide (k = [])); by intros [= <-].
  - destruct (decide (k = q)); [by intros [= <-]|]. destruct (cut_prefix (q ++ [slash]) k) as [x|] eqn:E; [|done].
    intros [= <-] _. by apply cut_prefix_Some.
Qed.

(** Listed objects that are files, and their keys. *)
Lemma file_entry_key m k e :
  head k <> Some slash -> file_entry fs (info_of m k) = Some e ->
  ValidateFilePath (Path e) = None /\ k = key_of fs (Path e).
Proof.
  intros Hh. unfold file_entry. change (default [] (oKey (info_of m k))) with k. cbv zeta. destruct (bool_decide (last k = Some slash)); [done|].
  destruct (Strip (prefixer fs) k) as [path ok] eqn:Es.
  destruct (negb ok || bool_decide (path = lit ".") || negb (ValidPath (unlit path))) eqn:Eb; [done|].
  apply orb_false_iff in Eb as [[Hok%negb_false_iff Hdot%bool_decide_eq_false]%orb_false_iff Hv%negb_false_iff].
  subst ok. intros [= <-]. cbn [Path]. assert (Hd : unlit path <> "."%string).
  { intros E. apply Hdot. by rewrite <- E, String.list_ascii_of_string_of_list_ascii. }
  split.
  - unfold ValidateFilePath, ValidatePath. rewrite Hv. by rewrite bool_decide_false.
  - rewrite key_of_base by done. rewrite String.list_ascii_of_string_of_list_ascii. by apply strip_base.
Qed.

(** Below a prefix no key starts with a slash. *)
Lemma key_of_head path : ValidPath path = true -> head (key_of fs path) <> Some slash.
Proof.
  intros Hv. unfold key_of, Prefix. cbn [prefixer newFilesystem NewPathPrefixer prefix].
  pose proof (trim_slashes_head (newConfig opts)) as Hh. set (q := trim_slashes _) in *.
  assert (Hq : head q <> Some slash) by (destruct q; [done|]; cbn; congruence).
  destruct (decide (lit path = lit ".")) as [_|Hdot]; [done|].
  destruct (decide (q = [])) as [_|Hne]; [|by destruct q].
  unfold ValidPath, fs_ValidPath in Hv. rewrite !andb_true_iff, orb_true_iff, bool_decide_eq_true in Hv.
  destruct Hv as [[_ [->|Hg]] _]; [done|]. destruct (good_path_head _ Hg) as (a & t & -> & Ha). cbn. congruence.
Qed.

Lemma has_prefix_head p k : p <> [] -> has_prefix p k = true -> head k = head p.
Proof using Type.
  unfold has_prefix. destruct p as [|a p], k as [|b k]; try done. cbn. destruct (decide (a = b)) as [->|]; done.
Qed.

Lemma directory_head path k :
  ValidPath path = true -> directoryPrefix (key_of fs path) <> [] ->
  has_prefix (directoryPrefix (key_of fs path)) k = true -> head k <> Some slash.
Proof.
  intros Hv Hne Hp. rewrite (has_prefix_head _ _ Hne Hp). pose proof (key_of_head path Hv) as Hh. unfold directoryPrefix in *.
  destruct (decide (key_of fs path = [])); [done|]. destruct (key_of fs path) as [|a t]; [done|]. cbn in Hh.
  destruct t as [|b t]; [|cbn -[last length take]; case_match; [case_decide|]; cbn; done].
  cbn. rewrite decide_False by congruence. done.
Qed.

Lemma file_entry_path m path :
  ValidateFilePath path = None ->
  exists e, file_entry fs (info_of m (key_of fs path)) = Some e /\ Path e = path.
Proof.
  intros Hv. destruct (file_path_good path Hv) as (Hp & Hne & Hg). unfold file_entry.
  change (default [] (oKey (info_of m (key_of fs path)))) with (key_of fs path). cbv zeta.
  assert (Hlast : last (key_of fs path) <> Some slash).
  { rewrite key_of_base by done. destruct (good_path_head _ Hg) as (a & t & Et & _).
    rewrite last_app, Et. rewrite <- Et. destruct (last (lit path)) as [b|] eqn:El.
    - rewrite <- El. by eapply good_path_last.
    - apply last_None in El. congruence. }
  rewrite bool_decide_false by done. unfold key_of. cbn [prefixer newFilesystem].
  rewrite (proj1 (prefix_strip_roundtrip (newConfig opts) path [] [] Hp)). cbn [negb orb].
  rewrite String.string_of_list_ascii_of_string, Hp. rewrite bool_decide_false; [by eexists|].
  intros E. apply (f_equal unlit) in E. rewrite !String.string_of_list_ascii_of_string in E. done.
Qed.

(** The files of a page whose keys are sorted, in the order of their keys. *)
Lemma files_sorted m ks :
  StronglySorted key_lt ks -> Forall (fun k => head k <> Some slash) ks ->
  StronglySorted (fun x y => str_lt (Path x) (Path y) = true) (omap (fun k => file_entry fs (info_of m k)) ks).
Proof.
  intros Hs Hh. induction Hs as [|k ks Hs IH Hall]; [constructor|]. apply Forall_cons in Hh as [Hk Hh]. cbn [omap list_omap].
  destruct (file_entry fs (info_of m k)) as [e|] eqn:E; [|by apply IH]. constructor; [by apply IH|].
  apply Forall_forall. intros y (k' & Hin & E')%list_elem_of_omap.
  rewrite Forall_forall in Hall, Hh. specialize (Hall _ Hin). specialize (Hh _ Hin).
  destruct (file_entry_key _ _ _ Hk E) as [V1 ->], (file_entry_key _ _ _ Hh E') as [V2 ->].
  destruct (file_path_good _ V1) as (_ & N1 & _), (file_path_good _ V2) as (_ & N2 & _).
  rewrite !key_of_base, str_lt_app, !String.string_of_list_ascii_of_string in Hall by done. done.
Qed.

(** The map of [entries], and its values sorted. *)
Lemma by_path_fold (os : list ObjectInfo) (m : gmap string Entry) :
  foldl (fun (m : gmap string Entry) o => match file_entry fs o with Some e => <[Path e := e]> m | None => m end) m os =
  foldl (fun (m : gmap string Entry) e => <[Path e := e]> m) m (omap (file_entry fs) os).
Proof.
  revert m. induction os as [|o os IH]; intros m; [done|]. cbn [foldl omap list_omap].
  destruct (file_entry fs o); apply IH.
Qed.

Lemma by_path_values (es : list Entry) :
  NoDup (Path <$> es) ->
  (map_to_list (foldl (fun (m : gmap string Entry) e => <[Path e := e]> m) ∅ es)).*2 ≡ₚ es.
Proof using Type.
  intros Hnd. assert (Hfold : foldl (fun (m : gmap string Entry) e => <[Path e := e]> m) ∅ es =
    list_to_map ((fun e => (Path e, e)) <$> reverse es)).
  { rewrite <- (reverse_involutive es) at 1. generalize (reverse es). clear. intros l.
    induction l as [|e l IH]; [done|]. rewrite reverse_cons, foldl_snoc. cbn. by rewrite IH. }
  rewrite Hfold, map_to_list_to_map.
  - rewrite <- list_fmap_compose. unfold compose. cbn. rewrite list_fmap_id. apply reverse_Permutation.
  - rewrite <- list_fmap_compose. unfold compose. cbn. by rewrite reverse_Permutation.
Qed.

Lemma entries_files m ks cps tok :
  StronglySorted key_lt ks -> Forall (fun k => head k <> Some slash) ks ->
  entries fs (mkListOutput (info_of m <$> ks) cps tok) = omap (fun k => file_entry fs (info_of m k)) ks.
Proof.
  intros Hs Hh. pose proof (files_sorted m ks Hs Hh) as Hf. unfold entries. cbn [Contents]. rewrite by_path_fold.
  assert (Ho : omap (file_entry fs) (info_of m <$> ks) = omap (fun k => file_entry fs (info_of m k)) ks).
  { clear. induction ks as [|k ks IH]; [done|]. cbn. destruct (file_entry fs _); [f_equal|]; exact IH. }
  rewrite Ho. set (es := omap _ ks) in *.
  assert (Hnd : NoDup (Path <$> es)).
  { clear -Hf. induction Hf as [|e l Hl IH Hall]; [constructor|]. rewrite fmap_cons. constructor; [|done].
    intros (y & Ey & Hy)%list_elem_of_fmap. rewrite Forall_forall in Hall. specialize (Hall y Hy). cbn in Hall.
    by rewrite Ey, str_lt_irrefl in Hall. }
  pose proof (by_path_values es Hnd) as Hp. set (vs := (map_to_list _).*2) in *.
  assert (Hanti : AntiSymm (=) (fun x y : Entry => str_lt (Path x) (Path y) = true)).
  { intros x y H1 H2. pose proof (str_lt_trans _ _ _ H1 H2) as H3. by rewrite str_lt_irrefl in H3. }
  apply (StronglySorted_unique (fun x y : Entry => str_lt (Path x) (Path y) = true)).
  - apply sort_entries_sorted. by rewrite Hp.
  - done.
  - by rewrite sort_entries_perm.
Qed.
End Keys.

(** ** Listing page by page *)

Lemma elem_of_take_drop {A} (x : A) n m (l : list A) : x ∈ take n (drop m l) -> x ∈ l.
Proof.
  intros H. rewrite <- (take_drop m l). apply elem_of_app. right. rewrite <- (take_drop n (drop m l)). apply elem_of_app. by left.
Qed.

Section Pages.
Context {W : Type} {store : ObjectStore W} (d : dialect) {L : ObjectLaws W d}.
Variables (bkt : bytes) (opts : list bytes).
Local Abbreviation fs := (newFilesystem bkt opts).

Fixpoint obj_pages (fuel : nat) (ctx : context) (path : string) (recursive : bool) (limit : Z) (cursor : string) (w : W)
    : option (list ListPage + error) :=
  match fuel with
  | O => None
  | S fuel =>
      match ObjListFiles d fs ctx path (mkListOptions recursive limit cursor) w with
      | (_, inr err) => Some (inr err)
      | (w, inl page) =>
          if decide (NextCursor page = ""%string) then Some (inl [page])
          else
            match obj_pages fuel ctx path recursive limit (NextCursor page) w with
            | Some (inl ps) => Some (inl (page :: ps))
            | r => r
            end
      end
  end.

(** The request of a page, and the items it starts from. *)
Definition page_input (path : string) (recursive : bool) (limit : Z) (cursor : string) : ListInput :=
  mkListInput (directoryPrefix (key_of fs path)) (if negb recursive then Some [slash] else None)
    (if negb (bool_decide (cursor = ""%string)) then Some cursor else None) limit.
Definition items_below (m : gmap bytes object) (path : string) (recursive : bool) : list item :=
  listing m (directoryPrefix (key_of fs path)) (negb recursive).

Lemma items_keys_sorted m path recursive :
  StronglySorted key_lt (omap item_key (items_below m path recursive)).
Proof using Type.
  unfold items_below. rewrite listing_keys.
  assert (Hsub : forall (P : bytes -> Prop) `{forall x, Decision (P x)} l, StronglySorted key_lt l -> StronglySorted key_lt (filter P l)).
  { intros P ? l Hs. induction Hs as [|k l Hs IH Hall]; [constructor|]. rewrite filter_cons. case_decide; [|done].
    constructor; [done|]. apply Forall_forall. intros y [_ Hy]%list_elem_of_filter. rewrite Forall_forall in Hall. by apply Hall. }
  apply Hsub, sorted_keys_sorted.
Qed.

Lemma items_in_store m path recursive k :
  k ∈ omap item_key (items_below m path recursive) <->
  is_Some (m !! k) /\ has_prefix (directoryPrefix (key_of fs path)) k = true /\
  shown (directoryPrefix (key_of fs path)) (negb recursive) k = true.
Proof using Type.
  unfold items_below. rewrite listing_keys, list_elem_of_filter, sorted_keys_elem. by intuition.
Qed.

Context (ctx : context) (path : string) (recursive : bool) (limit : Z) (w0 : W).

(** An error of the listing is that of a request on the bucket as it was. *)
Definition refused (err : error) : Prop :=
  exists i w w' e, objects w = objects w0 /\ ListObjectsV2 ctx i w = (w', inr e) /\ err = ObjWrap d "list" path e.

Section Reading.
Hypothesis (Hpath : ValidPath path = true) (Hlimit : 1 <= limit <= MaxListLimit).
Hypothesis (Hslash : forall k, has_prefix (directoryPrefix (key_of fs path)) k = true -> is_Some (objects w0 !! k) ->
  head k <> Some slash).
Local Abbreviation items := (items_below (objects w0) path recursive).
Local Abbreviation files ks := (omap (fun k => file_entry fs (info_of (objects w0) k)) ks).

Lemma items_head k : k ∈ omap item_key items -> head k <> Some slash.
Proof. intros (Hin & Hp & _)%items_in_store. by apply Hslash. Qed.

Lemma obj_page w cursor :
  objects w = objects w0 ->
  let rest := drop (position (objects w0) (page_input path recursive limit cursor)) items in
  (exists w' err, ObjListFiles d fs ctx path (mkListOptions recursive limit cursor) w = (w', inr err) /\ refused err) \/
  exists w' page n, ObjListFiles d fs ctx path (mkListOptions recursive limit cursor) w = (w', inl page) /\
    objects w' = objects w0 /\ Entries page = files (omap item_key (take n rest)) /\
    (n <= Z.to_nat limit)%nat /\ (rest <> [] -> 0 < n)%nat /\
    (NextCursor page = ""%string -> drop n rest = []) /\
    (NextCursor page <> ""%string -> drop n rest <> [] /\
       position (objects w0) (page_input path recursive limit (NextCursor page))
       = (position (objects w0) (page_input path recursive limit cursor) + n)%nat).
Proof.
  intros Hw rest. unfold ObjListFiles, ValidatePath. rewrite Hpath. cbn [Normalize Recursive Limit Cursor].
  assert (Hnorm : (if limit <? 1 then DefaultListLimit else if limit >? MaxListLimit then MaxListLimit else limit) = limit).
  { destruct (Z.ltb_spec limit 1); [lia|]. destruct (Z.gtb_spec limit MaxListLimit); [lia|done]. }
  rewrite Hnorm. fold (page_input path recursive limit cursor).
  destruct (ListObjectsV2 ctx (page_input path recursive limit cursor) w) as [w' [out|e]] eqn:E; [right|left].
  2: { eexists _, _. split; [done|]. by eexists _, _, _, _. }
  destruct (list_law ctx (page_input path recursive limit cursor) w w' out ltac:(cbn; lia) E) as (Hw' & n & Hn & Hpos & Hc & _ & Htok). rewrite Hw in Hw', Hpos, Hc, Htok.
  assert (Hdl : (if lDelimiter (page_input path recursive limit cursor) is Some _ then true else false) = negb recursive)
    by (by destruct recursive).
  rewrite Hdl in Hpos, Hc, Htok. cbn [lPrefix page_input] in Hpos, Hc, Htok. fold (items_below (objects w0) path recursive) in Hpos, Hc, Htok.
  fold rest in Hpos, Hc, Htok.
  exists w', (mkListPage (entries fs out) (dereference (NextToken out))), n. split; [done|]. split; [done|].
  split; [|split; [exact Hn|split; [exact Hpos|]]].
  - destruct out as [cs cps tok]. cbn [Contents] in Hc. subst cs. cbn [Entries]. apply entries_files.
    + pose proof (items_keys_sorted (objects w0) path recursive) as Hs.
      rewrite <- (take_drop (position (objects w0) (page_input path recursive limit cursor)) items), omap_app in Hs.
      apply StronglySorted_app in Hs as (_ & _ & Hs). fold rest in Hs. rewrite <- (take_drop n rest), omap_app in Hs.
      by apply StronglySorted_app in Hs as (_ & Hs & _).
    + apply Forall_forall. intros k Hk. apply items_head, list_elem_of_omap.
      apply list_elem_of_omap in Hk as (it & Hit & Hkey). exists it. split; [|done].
      unfold rest in Hit. apply (elem_of_take_drop _ _ _ _ Hit).
  - cbn [NextCursor]. destruct (NextToken out) as [t|]; cbn [dereference default].
    + destruct Htok as (Hd & Ht & Hp). split; [done|]. intros _. split; [done|]. unfold page_input. cbn [lPrefix lDelimiter] in Hp.
      rewrite bool_decide_false by done. apply Hp.
    + split; [done|done].
Qed.

Lemma obj_pages_from fuel w cursor :
  objects w = objects w0 ->
  let rest := drop (position (objects w0) (page_input path recursive limit cursor)) items in
  (length rest < fuel)%nat ->
  (exists err, obj_pages fuel ctx path recursive limit cursor w = Some (inr err) /\ refused err) \/
  exists ps, obj_pages fuel ctx path recursive limit cursor w = Some (inl ps) /\
    mjoin (Entries <$> ps) = files (omap item_key rest) /\
    Forall (fun p => Z.of_nat (length (Entries p)) <= limit) ps.
Proof.
  revert w cursor. induction fuel as [|fuel IH]; intros w cursor Hw rest Hlen; [lia|]. cbn [obj_pages].
  destruct (obj_page w cursor Hw) as [(w' & err & -> & Hr)|(w' & page & n & E & Hw' & Hes & Hn & Hpos & Hlast & Hnext)]; [left; by exists err|]. fold rest in Hes, Hpos, Hlast, Hnext.
  rewrite E. assert (Hsize : Z.of_nat (length (Entries page)) <= limit).
  { rewrite Hes. assert (Hle : forall (A B : Type) (f : A -> option B) (l : list A), (length (omap f l) <= length l)%nat).
    { intros A B f l. induction l as [|x l IHl]; cbn; [lia|]. destruct (f x); cbn; lia. }
    pose proof (Hle _ _ (fun k => file_entry fs (info_of (objects w0) k)) (omap item_key (take n rest))).
    pose proof (Hle _ _ item_key (take n rest)). rewrite length_take in *. lia. }
  assert (Hsplit : files (omap item_key rest) = Entries page ++ files (omap item_key (drop n rest))).
  { rewrite Hes, <- omap_app, <- omap_app, take_drop. done. }
  destruct (decide (NextCursor page = ""%string)) as [He|He].
  - right. exists [page]. split; [done|]. split; [|by constructor]. cbn. rewrite app_nil_r, Hsplit, (Hlast He). cbn. by rewrite app_nil_r.
  - destruct (Hnext He) as [Hne Hp].
    assert (Hrest : drop (position (objects w0) (page_input path recursive limit (NextCursor page))) items = drop n rest).
    { unfold rest. by rewrite Hp, drop_drop. }
    destruct (IH w' (NextCursor page) Hw') as [(err & -> & Hr)|(ps & Eps & Hj & Hall)]; [|left; by exists err|right].
    { rewrite Hrest, length_drop. assert (rest <> []) by (intros E0; rewrite E0 in Hne; by destruct n).
      specialize (Hpos H). assert (length rest <> 0)%nat by (by destruct rest). lia. }
    rewrite Eps. exists (page :: ps). split; [done|]. split; [|by constructor].
    change (mjoin (Entries <$> page :: ps)) with (Entries page ++ mjoin (Entries <$> ps)). rewrite Hj, Hrest. by rewrite Hsplit.
Qed.

(** What the pages of a complete listing hold. *)
Lemma listed_exactly ps :
  mjoin (Entries <$> ps) = files (omap item_key items) ->
  let es := mjoin (Entries <$> ps) in
  StronglySorted (fun x y => str_lt (Path x) (Path y) = true) es /\
  forall p, p ∈ Path <$> es <->
    ValidateFilePath p = None /\ is_Some (objects w0 !! key_of fs p) /\
    has_prefix (directoryPrefix (key_of fs path)) (key_of fs p) = true /\
    shown (directoryPrefix (key_of fs path)) (negb recursive) (key_of fs p) = true.
Proof.
  intros Hj. cbv zeta. rewrite Hj.
  split; [apply files_sorted; [apply items_keys_sorted|apply Forall_forall, items_head]|].
  intros p. rewrite list_elem_of_fmap. split.
  - intros (e & -> & (k & Hk & Ee)%list_elem_of_omap).
    destruct (file_entry_key bkt opts _ _ _ (items_head _ Hk) Ee) as [Hv ->]. split; [done|]. by apply items_in_store.
  - intros (Hv & Hin). destruct (file_entry_path bkt opts (objects w0) p Hv) as (e & Ee & <-). exists e. split; [done|].
    apply list_elem_of_omap. exists (key_of fs (Path e)). split; [|done]. by apply items_in_store.
Qed.
End Reading.

(** C25: reading the files below a valid path page by page, with a limit within the
    bounds, from a bucket nobody else writes to: it ends; with an error only if a
    request was refused, and then with that error; otherwise with pages of at most
    the limit that hold every stored file below the path exactly once, in order,
    and nothing else; without [Recursive], those whose key has no slash after the
    directory.  A listing of the whole bucket, the one of ["."] without a root,
    assumes that no stored key starts with a slash (this package writes none; a
    key ["/a"] would be listed as ["a"]). *)
Theorem object_pages_complete :
  ValidPath path = true -> 1 <= limit <= MaxListLimit ->
  (directoryPrefix (key_of fs path) = [] -> forall k, is_Some (objects w0 !! k) -> head k <> Some slash) ->
  exists fuel,
    match obj_pages fuel ctx path recursive limit "" w0 with
    | None => False
    | Some (inr err) => refused err
    | Some (inl ps) =>
        let es := mjoin (Entries <$> ps) in
        StronglySorted (fun x y => str_lt (Path x) (Path y) = true) es /\
        Forall (fun p => Z.of_nat (length (Entries p)) <= limit) ps /\
        forall p, p ∈ Path <$> es <->
          ValidateFilePath p = None /\ is_Some (objects w0 !! key_of fs p) /\
          has_prefix (directoryPrefix (key_of fs path)) (key_of fs p) = true /\
          shown (directoryPrefix (key_of fs path)) (negb recursive) (key_of fs p) = true
    end.
Proof.
  intros Hpath Hlimit Hroot.
  assert (Hslash : forall k, has_prefix (directoryPrefix (key_of fs path)) k = true -> is_Some (objects w0 !! k) ->
    head k <> Some slash).
  { intros k Hp Hk. destruct (decide (directoryPrefix (key_of fs path) = [])) as [E|E]; [by apply Hroot|by eapply directory_head]. }
  set (items := items_below (objects w0) path recursive). exists (S (length items)).
  assert (H0 : position (objects w0) (page_input path recursive limit "") = 0%nat) by apply position_first.
  destruct (obj_pages_from Hpath Hlimit Hslash (S (length items)) w0 "" eq_refl) as [(err & -> & Hr)|(ps & -> & Hj & Hall)];
    [rewrite H0; change (drop 0 ?l) with l; fold items; lia|done|].
  rewrite H0 in Hj. destruct (listed_exactly Hpath Hslash ps Hj) as [Hs Hin]. done.
Qed.
End Pages.

(** ** The source of a copy *)

(** [url.PathUnescape], as a server reads the header. *)
Definition unhex (a : ascii) : option nat :=
  let c := nat_of_ascii a in
  if ((48 <=? c) && (c <=? 57))%nat then Some (c - 48)%nat
  else if ((65 <=? c) && (c <=? 70))%nat then Some (c - 55)%nat
  else if ((97 <=? c) && (c <=? 102))%nat then Some (c - 87)%nat
  else None.
Fixpoint PathUnescape (s : bytes) : option bytes :=
  match s with
  | [] => Some []
  | a :: t =>
      if decide (a = "%"%char) then
        match t with
        | x :: y :: t => hi ← unhex x; lo ← unhex y; cons (ascii_of_nat (16 * hi + lo)) <$> PathUnescape t
        | _ => None
        end
      else cons a <$> PathUnescape t
  end.

Lemma unhex_hexdigit n : (n < 16)%nat -> unhex (hexdigit n) = Some n.
Proof. intros Hn. do 16 (destruct n as [|n]; [reflexivity|]). lia. Qed.

Lemma escape_byte_first a s : PathUnescape (escape_byte a ++ s) = cons a <$> PathUnescape s.
Proof.
  unfold escape_byte. destruct (unreserved a) eqn:E.
  - cbn [app PathUnescape]. rewrite decide_False; [done|]. intros ->. by vm_compute in E.
  - cbn [app PathUnescape]. rewrite decide_True by done. pose proof (nat_ascii_bounded a) as Hb.
    assert (nat_of_ascii a / 16 < 16)%nat by (apply Nat.Div0.div_lt_upper_bound; lia).
    pose proof (Nat.mod_upper_bound (nat_of_ascii a) 16).
    rewrite !unhex_hexdigit by lia. cbn [mbind option_bind].
    rewrite <- Nat.div_mod_eq, ascii_nat_embedding. done.
Qed.

Theorem path_escape_roundtrip s : PathUnescape (PathEscape s) = Some s.
Proof.
  unfold PathEscape. induction s as [|a s IH]; [done|]. rewrite bind_cons, escape_byte_first, IH. done.
Qed.

(** What the services read in a copy request: Amazon the escaped bucket and key,
    Alibaba Cloud the key. *)
Definition S3_source_key (bucket src : bytes) : option bytes := s ← PathUnescape src; cut_prefix (bucket ++ [slash]) s.

Lemma S3_source bucket k : S3_source_key bucket (S3_copySource bucket k) = Some k.
Proof.
  unfold S3_source_key, S3_copySource. rewrite path_escape_roundtrip. cbn [mbind option_bind].
  rewrite (assoc_L (++)). apply cut_prefix_app.
Qed.

(** ** Contents *)
Section Contents.
Context {W : Type} {store : ObjectStore W} (d : dialect) {L : ObjectLaws W d}.
Variables (bkt : bytes) (opts : list bytes).
Local Abbreviation fs := (newFilesystem bkt opts).
Local Instance driver : Driver W stream := object_driver d fs.

(** Distinct files have distinct keys. *)
Lemma key_of_inj p q : ValidateFilePath p = None -> ValidateFilePath q = None -> key_of fs p = key_of fs q -> p = q.
Proof using Type.
  intros Hp Hq E. destruct (file_path_good _ Hp) as (_ & N1 & _), (file_path_good _ Hq) as (_ & N2 & _).
  rewrite !key_of_base in E by done. apply app_inv_head in E. apply (f_equal unlit) in E.
  by rewrite !String.string_of_list_ascii_of_string in E.
Qed.

(** A file that was written without an error is read back, and no other file has
    changed. *)
Theorem object_write_read sniff ctx path data options w w' :
  WriteFile sniff ctx path data options w = (w', None) ->
  (forall w2 r, ReadFile ctx path w' = (w2, inl r) -> r = data) /\
  (forall ctx' q w2 r, ValidateFilePath q = None -> q <> path -> ReadFile ctx' q w' = (w2, inl r) ->
     exists o, objects w !! key_of fs q = Some o /\ r = body o).
Proof.
  unfold WriteFile. cbn [Put Reader driver object_driver]. set (options' := if bool_decide _ then _ else _). unfold ObjPut.
  destruct (ValidateFilePath path) eqn:Hv; [done|]. cbn [sSource].
  destruct (ResolveContentLength options' (LenSource (Z.of_nat (length data)))) as [n|err] eqn:Er; [|done].
  destruct (PutObject ctx _ w) as [w1 [e|]] eqn:Ep; [done|]. intros [= <-].
  destruct (put_law _ _ _ _ _ Ep) as (b & t & Hb & _ & Ho). cbn [pBody sContent pKey] in Hb, Ho. injection Hb as <-.
  assert (Hread : forall ctx' q w2 r, ReadFile ctx' q w1 = (w2, inl r) ->
    ValidateFilePath q = None /\ exists o, objects w1 !! key_of fs q = Some o /\ r = body o).
  { intros ctx' q w2 r. unfold ReadFile. cbn [Open ReadAll driver object_driver]. unfold ObjOpen.
    destruct (ValidateFilePath q) eqn:Hq; [done|]. destruct (GetObject ctx' (key_of fs q) w1) as [w3 [st|e]] eqn:Eg; [|done].
    destruct (get_law _ _ _ _ _ Eg) as (_ & o & Hk & Hc). intros [= _ Hr]. split; [done|]. exists o. split; [done|].
    destruct Hc as [Hc|[e Hc]]; rewrite Hc in Hr; congruence. }
  split.
  - intros w2 r (_ & o & Hk & ->)%Hread. rewrite Ho, lookup_insert_eq in Hk. injection Hk as <-. done.
  - intros ctx' q w2 r Hq Hne (_ & o & Hk & ->)%Hread. exists o. split; [|done].
    rewrite Ho, lookup_insert_ne in Hk; [done|]. intros E. apply Hne. symmetry. by apply key_of_inj.
Qed.

(** A copy has the content of its source, and a move leaves no source behind: a
    move of a file onto itself, where the service allows the copy, leaves no file
    at all. *)
Theorem object_move ctx src dst w w' :
  (forall k, source_key (copySource d bkt k) = Some k) ->
  ObjMove d fs ctx src dst w = (w', None) ->
  exists o t, objects w !! key_of fs src = Some o /\
    objects w' = delete (key_of fs src) (<[key_of fs dst := mkObject (body o) (ctype o) (meta o) t]> (objects w)) /\
    (src <> dst -> exists o', objects w' !! key_of fs dst = Some o' /\ body o' = body o) /\
    (src = dst -> objects w' !! key_of fs dst = None).
Proof.
  intros Hsrc. unfold ObjMove, ObjCopy. destruct (ValidateFilePath src) eqn:Hv; [done|].
  destruct (ValidateFilePath dst) eqn:Hd; [done|]. cbn [bucket newFilesystem].
  destruct (CopyObject _ _ _ w) as [w1 [e|]] eqn:Ec; [done|].
  destruct (copy_law _ _ _ _ _ _ Ec) as (k & o & t & Hk & Ho & Hw1). rewrite Hsrc in Hk. injection Hk as <-.
  unfold ObjDelete. rewrite Hv. destruct (DeleteObject ctx (key_of fs src) w1) as [w2 [e|]] eqn:Ed; [done|].
  intros [= <-]. destruct (delete_law _ _ _ _ _ Ed) as [Hw2|[? _]]; [|done].
  exists o, t. rewrite Hw2, Hw1. split_and!; [done|done| |].
  - intros Hne. exists (mkObject (body o) (ctype o) (meta o) t). split; [|done].
    rewrite lookup_delete_ne; [by rewrite lookup_insert_eq|]. intros E. apply Hne. by apply key_of_inj.
  - intros ->. by rewrite lookup_delete_eq.
Qed.

Lemma listing_common m p n : omap item_common (take n (listing m p false)) = [].
Proof using Type.
  assert (Hall : forall ks : list bytes, Forall (fun i => item_common i = None) (squash (item_of p false <$> ks))).
  { induction ks as [|k ks IH]; [constructor|]. cbn. case_decide; [done|]. by constructor. }
  specialize (Hall (sorted_keys m p)). apply (Forall_take _ n) in Hall. unfold listing.
  induction Hall as [|i l Hi _ IH]; [done|]. cbn. by rewrite Hi.
Qed.

Lemma hasChildren_spec ctx path w w' r :
  hasChildren fs ctx path w = (w', r) ->
  objects w' = objects w /\
  (r = inl true -> exists k, is_Some (objects w !! k) /\ has_prefix (directoryPrefix (key_of fs path)) k = true).
Proof.
  unfold hasChildren. destruct (ListObjectsV2 ctx _ w) as [w2 [out|e2]] eqn:El; intros [= <- <-].
  2: { split; [by rewrite (list_keeps _ _ _ _ _ El)|done]. }
  destruct (list_law ctx (mkListInput (directoryPrefix (key_of fs path)) None None 1) _ _ _ ltac:(cbn; lia) El) as (Hw2 & n & _ & _ & Hc & Hcp & _). split; [done|].
  rewrite position_first in Hc, Hcp. cbn [lPrefix lDelimiter] in Hc, Hcp. rewrite drop_0 in Hc, Hcp.
  rewrite listing_common in Hcp. rewrite Hcp, Hc, length_fmap. cbn [length]. rewrite orb_false_r. intros [= Eb%Nat.ltb_lt].
  destruct (omap item_key (take n _)) as [|k ks] eqn:Ek; [cbn in Eb; lia|].
  assert (Hin : k ∈ omap item_key (listing (objects w) (directoryPrefix (key_of fs path)) false)).
  { assert (Hk : k ∈ k :: ks) by left. rewrite <- Ek in Hk. apply list_elem_of_omap in Hk as (i & Hi & Hik).
    apply list_elem_of_omap. exists i. split; [|done]. by apply (elem_of_take_drop _ n 0). }
  rewrite listing_keys in Hin. apply list_elem_of_filter in Hin as [_ Hin]. apply sorted_keys_elem in Hin as [? ?]. by exists k.
Qed.

(** What [Stat] answers: a file that is stored, a directory where no file is but
    keys are below, and otherwise that nothing was found, unless a request
    fails. *)
Theorem object_stat ctx path w w' r :
  ValidateFilePath path = None -> ctx_Err ctx 0 = None ->
  ObjStat d fs ctx path w = (w', r) ->
  objects w' = objects w /\
  match r with
  | inl e => Path e = path /\
      ((Kind e = EntryKindFile /\ exists o, objects w !! key_of fs path = Some o /\
          Size e = Z.of_nat (length (body o)) /\ Metadata e = meta o) \/
       (Kind e = EntryKindDirectory /\ objects w !! key_of fs path = None /\
          exists k, is_Some (objects w !! k) /\ has_prefix (directoryPrefix (key_of fs path)) k = true))
  | inr err => errors_Is err "filesystem: entry not found" = true ->
      (forall e, isNotFound d e = false -> errors_Is e "filesystem: entry not found" = false) ->
      objects w !! key_of fs path = None
  end.
Proof.
  intros Hv Hctx. destruct (file_path_good _ Hv) as (Hp & Hne & _). unfold ObjStat, ValidatePath. rewrite Hp, Hctx.
  rewrite bool_decide_false by done. destruct (HeadObject ctx (key_of fs path) w) as [w1 [h|e]] eqn:Eh;
    destruct (head_law _ _ _ _ _ Eh) as (Hw1 & Hh).
  - intros [= <- <-]. split; [done|]. destruct Hh as (o & Ho & Hl & _ & Hm). split; [done|]. left. split; [done|].
    exists o. cbn [Size Metadata]. by rewrite Hl, Hm.
  - destruct (isNotFound d e) eqn:En.
    + specialize (Hh eq_refl). destruct (hasChildren fs ctx path w1) as [w2 r2] eqn:Ec.
      destruct (hasChildren_spec ctx path w1 w2 r2 Ec) as [Hw2 Hk]. rewrite Hw1 in Hw2, Hk.
      destruct r2 as [[|]|e2]; intros [= <- <-]; (split; [done|]); [|done|done].
      split; [done|]. right. split; [done|]. split; [done|]. by apply Hk.
    + intros [= <- <-]. split; [done|]. unfold ObjWrap. rewrite En. cbn. intros Hi Hall. by rewrite Hall in Hi.
Qed.
End Contents.

(** ** A service that meets the laws

    Tokens are as long as the position they continue from. *)
Local Abbreviation bucket_t := (gmap bytes object).
Definition NoSuchKey : error := ErrNew "NoSuchKey".
Definition demo_dialect : dialect := mkDialect (fun e => errors_Is e "NoSuchKey") OSS_copySource.
Definition token (n : nat) : string := unlit (replicate n "x"%char).
Definition demo_position (m : bucket_t) (i : ListInput) : nat :=
  match lToken i with Some t => String.length t | None => 0%nat end.

#[export] Instance bucket_store : ObjectStore bucket_t := {|
  GetObject _ k m := (m, match m !! k with Some o => inl (mkStream (inl (body o)) OtherSource) | None => inr NoSuchKey end);
  PutObject _ i m :=
    match sContent (pBody i) with
    | inl b => if Z.of_nat (length b) =? pLength i then (<[pKey i := mkObject b (pType i) (pMeta i) 0]> m, None)
               else (m, Some (ErrMsg "IncompleteBody"))
    | inr e => (m, Some e)
    end;
  DeleteObject _ k m := (delete k m, None);
  HeadObject _ k m :=
    (m, match m !! k with
        | Some o => inl (mkHead (Some (Z.of_nat (length (body o)))) (ctype o) (meta o) (Some (modified o)))
        | None => inr NoSuchKey
        end);
  ListObjectsV2 _ i m :=
    let items := drop (demo_position m i) (listing m (lPrefix i) (if lDelimiter i is Some _ then true else false)) in
    let n := Z.to_nat (lMaxKeys i) in
    (m, inl (mkListOutput (info_of m <$> omap item_key (take n items)) (omap item_common (take n items))
               (if decide (drop n items = []) then None else Some (token (demo_position m i + n)))));
  CopyObject _ src dst m :=
    match m !! src with
    | Some o => (<[dst := mkObject (body o) (ctype o) (meta o) 0]> m, None)
    | None => (m, Some NoSuchKey)
    end
|}.

#[export, refine] Instance bucket_laws : ObjectLaws bucket_t demo_dialect := {|
  objects w := w; source_key := Some; position := demo_position
|}.
Proof.
  - intros ctx k w w' r. cbn. intros [= <- <-]. split; [done|]. destruct (w !! k) as [o|]; [|done].
    exists o. split; [done|]. by left.
  - intros ctx i w w' r. cbn. destruct (sContent (pBody i)) as [b|e]; [|intros [= <- <-]; by left].
    destruct (Z.eqb_spec (Z.of_nat (length b)) (pLength i)); intros [= <- <-]; [by exists b, 0|by left].
  - intros ctx k w w' r [= <- <-]. by left.
  - intros ctx k w w' r. cbn. intros [= <- <-]. split; [done|]. destruct (w !! k) as [o|]; [|done].
    exists o. by split_and!.
  - intros ctx src dst w w' r. cbn. destruct (w !! src) as [o|] eqn:E; intros [= <- <-]; [by exists src, o, 0|by left].
  - done.
  - intros ctx i w w' out Hmax [= <- <-]. split; [done|]. cbv zeta. exists (Z.to_nat (lMaxKeys i)). cbn [Contents CommonPrefixes NextToken].
    split_and!; [done|lia|done|done|]. case_decide as Hd; [done|]. split_and!; [done| |].
    + assert (Hn : (0 < demo_position w i + Z.to_nat (lMaxKeys i))%nat) by lia. destruct (_ + _)%nat; [lia|]. done.
    + intros max. unfold demo_position at 1. cbn [lToken]. unfold token.
      assert (Hlen : forall n, String.length (unlit (replicate n "x"%char)) = n) by (induction n as [|n IH]; cbn; congruence).
      apply Hlen.
  - done.
Defined.

Definition demo_bucket : bucket_t :=
  <[lit "root/a.txt" := mkObject (lit "hello") None [] 0]> (<[lit "root/b/c.txt" := mkObject (lit "x") None [] 0]> ∅).

Lemma object_pages_complete_witness :
  exists fuel ps, obj_pages demo_dialect [] [lit "root"] fuel Background "." true 1 "" demo_bucket = Some (inl ps) /\
    "b/c.txt"%string ∈ Path <$> mjoin (Entries <$> ps).
Proof.
  destruct (object_pages_complete demo_dialect [] [lit "root"] Background "." true 1 demo_bucket) as (fuel & H);
    [by vm_compute|done|by vm_compute|].
  destruct (obj_pages demo_dialect [] [lit "root"] fuel Background "." true 1 "" demo_bucket) as [[ps|err]|] eqn:E;
    [|by destruct H as (i & w & w' & e & _ & ? & _)|done].
  exists fuel, ps. split; [done|]. apply H. split_and!; [by vm_compute| |by vm_compute|by vm_compute].
  exists (mkObject (lit "x") None [] 0). vm_compute. reflexivity.
Defined.

(** A key that starts with a slash is listed under a path that names another object. *)
Example slash_key_listed :
  let fs := newFilesystem [] [] in
  let w : bucket_t := <[lit "/a" := mkObject (lit "x") None [] 0]> ∅ in
  match ObjListFiles demo_dialect fs Background "." (mkListOptions true 10 "") w with
  | (_, inl page) => bool_decide (Path <$> Entries page = ["a"%string])
  | _ => false
  end = true /\ key_of fs "a" <> lit "/a".
Proof. split; [vm_compute; reflexivity|done]. Qed.

(** The loss of [object_move], on this service. *)
Example move_onto_itself :
  let '(w, err) := ObjMove demo_dialect (newFilesystem [] [lit "root"]) Background "a.txt" "a.txt" demo_bucket in
  err = None /\ w !! lit "root/a.txt" = None.
Proof. vm_compute. done. Qed.
