(* ===== verification/Parallel.v ===== *)
(** * Groups of concurrent calls: [src/parallel/parallel.go], [collection.go]

    [execute] is a transition system: its loop, the goroutines it starts, the
    cancellation of the caller's context, and the final wait.  The error group it
    uses is the library's: the class [ErrGroup] has its operations, and
    [ErrGroupLaws] what its documentation says of them.  A callback is called at
    most once per index, so what it returns is given per index. *)

From S2P Require Import Prelude GoErrors.
From stdpp Require Import options.
Set Default Proof Using "Type*".

Definition ErrInvalidLimit : error := ErrNew "parallel: concurrency limit must be greater than zero".
Definition ErrNilTask : error := ErrNew "parallel: task must not be nil".
Definition ErrNilFunc : error := ErrNew "parallel: function must not be nil".

(** ** Error groups *)

(** A group made by [errgroup.WithContext] and [SetLimit]: [g_return] is the
    return of a function passed to [Go], [g_cancel] the cancellation of the parent
    context, [g_cause] the cause of the group's context, and [g_err] what [Wait]
    returns once no function is active. *)
Class ErrGroup (G : Type) := {
  g_new : nat -> G;
  g_active : G -> nat;
  g_ready : G -> bool;
  g_go : G -> G;
  g_return : option error -> G -> G;
  g_cancel : error -> G -> G;
  g_cause : G -> option error;
  g_err : G -> option error
}.

(** The first of two errors. *)
Definition first_of (a b : option error) : option error := match a with Some e => Some e | None => b end.

Class ErrGroupLaws (G : Type) `{!ErrGroup G} := {
  g_limit : G -> nat;
  new_law n : g_active (g_new n) = 0 /\ g_cause (g_new n) = None /\ g_err (g_new n) = None /\ g_limit (g_new n) = n;
  ready_law g : g_ready g = (g_active g <? g_limit g);
  go_law g : g_active (g_go g) = S (g_active g) /\ g_cause (g_go g) = g_cause g /\ g_err (g_go g) = g_err g /\
    g_limit (g_go g) = g_limit g;
  return_law e g : g_active (g_return e g) = pred (g_active g) /\ g_cause (g_return e g) = first_of (g_cause g) e /\
    g_err (g_return e g) = first_of (g_err g) e /\ g_limit (g_return e g) = g_limit g;
  cancel_law e g : g_active (g_cancel e g) = g_active g /\ g_cause (g_cancel e g) = first_of (g_cause g) (Some e) /\
    g_err (g_cancel e g) = g_err g /\ g_limit (g_cancel e g) = g_limit g
}.

(** ** [execute] *)

Section Execute.
Context {A G : Type} `{!ErrGroup G}.

Inductive phase :=
| Looping                        (* at the head of the loop *)
| Going                          (* past its check, in [group.Go] *)
| Waiting                        (* in [group.Wait] *)
| Returned (err : option error).

(** A function passed to [Go]: before its check, or in [fn]. *)
Inductive call := Checking | Calling.

(** What such a function returned: the cause it saw, or the error of [fn]. *)
Inductive result := Refused (cause : error) | Body (err : option error).
Definition result_err (r : result) : option error :=
  match r with Refused cause => Some cause | Body err => err end.

Record exec := mkExec {
  index : nat;
  scheduled : nat;
  ph : phase;
  group : G;
  parent : option error;             (* the cause of the caller's context *)
  active : gmap nat call;
  mem : A;                           (* what the callbacks write to *)
  called : list nat;                 (* calls of [fn], in order *)
  results : list (nat * result)      (* returns, in order *)
}.

(** The count, and what the call of [fn] for an index writes and returns. *)
Variables (count : nat) (fn_upd : nat -> A -> A) (fn_err : nat -> option error).

Definition start (limit : nat) (m : A) : exec :=
  mkExec 0 0 Looping (g_new limit) None ∅ m [] [].

Definition set_phase (p : phase) (s : exec) : exec :=
  mkExec (index s) (scheduled s) p (group s) (parent s) (active s) (mem s) (called s) (results s).

(** The loop. *)
Definition loop_check (s : exec) : option exec :=
  match ph s with
  | Looping =>
      Some (if index s <? count then
              match g_cause (group s) with
              | Some _ => set_phase Waiting s
              | None => set_phase Going s
              end
            else set_phase Waiting s)
  | _ => None
  end.

Definition loop_go (s : exec) : option exec :=
  match ph s with
  | Going =>
      if g_ready (group s) then
        Some (mkExec (S (index s)) (S (scheduled s)) Looping (g_go (group s)) (parent s)
                (<[index s := Checking]> (active s)) (mem s) (called s) (results s))
      else None
  | _ => None
  end.

(** A function returns [r]. *)
Definition finish (i : nat) (r : result) (m : A) (s : exec) : exec :=
  mkExec (index s) (scheduled s) (ph s) (g_return (result_err r) (group s)) (parent s) (delete i (active s)) m
    (called s) (results s ++ [(i, r)]).

Definition call_check (i : nat) (s : exec) : option exec :=
  match active s !! i with
  | Some Checking =>
      Some (match g_cause (group s) with
            | Some err => finish i (Refused err) (mem s) s
            | None =>
                mkExec (index s) (scheduled s) (ph s) (group s) (parent s) (<[i := Calling]> (active s)) (mem s)
                  (called s ++ [i]) (results s)
            end)
  | _ => None
  end.

Definition call_return (i : nat) (s : exec) : option exec :=
  match active s !! i with
  | Some Calling => Some (finish i (Body (fn_err i)) (fn_upd i (mem s)) s)
  | _ => None
  end.

(** The caller's context is done. *)
Definition cancel_parent (cause : error) (s : exec) : exec :=
  mkExec (index s) (scheduled s) (ph s) (g_cancel cause (group s)) (first_of (parent s) (Some cause)) (active s)
    (mem s) (called s) (results s).

Definition wait (s : exec) : option exec :=
  match ph s with
  | Waiting =>
      if g_active (group s) =? 0 then
        Some (set_phase (Returned (match g_err (group s) with
                                   | Some err => Some err
                                   | None => if scheduled s <? count then parent s else None
                                   end)) s)
      else None
  | _ => None
  end.

Inductive action := Loop | Go | Check (i : nat) | Return_ (i : nat) | Cancel (cause : error) | Wait.

Definition step (a : action) (s : exec) : option exec :=
  match a with
  | Loop => loop_check s
  | Go => loop_go s
  | Check i => call_check i s
  | Return_ i => call_return i s
  | Cancel cause => Some (cancel_parent cause s)
  | Wait => wait s
  end.

Fixpoint steps (l : list action) (s : exec) : option exec :=
  match l with
  | [] => Some s
  | a :: l => s ← step a s; steps l s
  end.
End Execute.

Arguments exec : clear implicits.

(** [execute] can return [err], its callbacks having left [m]. *)
Definition executes {A} G `{!ErrGroup G} (limit count : nat) (fn_upd : nat -> A -> A)
    (fn_err : nat -> option error) (m0 : A) (s : exec A G) (err : option error) : Prop :=
  exists l, steps count fn_upd fn_err l (start limit m0) = Some s /\ ph s = Returned err.

(** ** [parallel.go] *)

Definition validateLimit (limit : Z) : option error :=
  if (limit <=? 0)%Z then Some (ErrWrapf "got" ErrInvalidLimit) else None.

(** A task is nil, or what it returns. *)
Definition validateTasks (tasks : list (option (option error))) : option error :=
  if forallb (fun t => match t with Some _ => true | None => false end) tasks then None
  else Some (ErrWrapf "index" ErrNilTask).

Section Calls.
Context (G : Type) `{!ErrGroup G}.

Definition task_err (tasks : list (option (option error))) (i : nat) : option error :=
  default None (mjoin (tasks !! i)).

(** The operations as the results they can have. *)
Definition Run (tasks : list (option (option error))) (s : exec unit G) (err : option error) : Prop :=
  match validateTasks tasks with
  | Some e => err = Some e
  | None =>
      if decide (tasks = []) then err = None
      else executes G (length tasks) (length tasks) (fun _ m => m) (task_err tasks) tt s err
  end.

Definition RunLimit (limit : Z) (tasks : list (option (option error))) (s : exec unit G) (err : option error)
    : Prop :=
  match validateLimit limit with
  | Some e => err = Some e
  | None =>
      match validateTasks tasks with
      | Some e => err = Some e
      | None =>
          if decide (tasks = []) then err = None
          else executes G (Z.to_nat limit) (length tasks) (fun _ m => m) (task_err tasks) tt s err
      end
  end.

(** ** [collection.go] *)

Context {T R : Type} (zero : R).

(** What the callback returns for the [i]-th value. *)
Local Abbreviation callback B := (option (nat -> T -> B)).

Definition ForEach (limit : Z) (values : list T) (fn : callback (option error)) (s : exec unit G)
    (err : option error) : Prop :=
  match validateLimit limit, fn with
  | Some e, _ => err = Some e
  | None, None => err = Some (ErrWrapf "ForEach" ErrNilFunc)
  | None, Some fn =>
      if decide (values = []) then err = None
      else executes G (Z.to_nat limit) (length values) (fun _ m => m)
             (fun i => default None (fn i <$> values !! i)) tt s err
  end.

(** The result and the error for an index; a slot is written on success only. *)
Definition out_of {B} (fn : nat -> T -> B * option error) (values : list T) (i : nat) : option error :=
  default None (snd ∘ fn i <$> values !! i).
Definition Map_write {B} (fn : nat -> T -> B * option error) (values : list T) (i : nat) (rs : list B) : list B :=
  match fn i <$> values !! i with
  | Some (r, None) => <[i := r]> rs
  | _ => rs
  end.

Definition Map {B} (zero : B) (limit : Z) (values : list T) (fn : callback (B * option error))
    (s : exec (list B) G) (res : list B + error) : Prop :=
  match validateLimit limit, fn with
  | Some e, _ => res = inr e
  | None, None => res = inr (ErrWrapf "Map" ErrNilFunc)
  | None, Some fn =>
      if decide (values = []) then res = inl []
      else exists err,
        executes G (Z.to_nat limit) (length values) (Map_write fn values) (out_of fn values)
          (replicate (length values) zero) s err /\
        res = match err with Some e => inr e | None => inl (mem s) end
  end.

Record Result := mkResult { Value : R; Err : option error }.

Definition MapResults_write (fn : nat -> T -> R * option error) (values : list T) (i : nat)
    (m : list Result * list bool) : list Result * list bool :=
  match fn i <$> values !! i with
  | Some (r, e) => (<[i := mkResult r e]> m.1, <[i := true]> m.2)
  | None => m
  end.

(** The loop over the results after a cancellation. *)
Definition fill (err : error) (results : list Result) (completed : list bool) : list Result :=
  zip_with (fun r (c : bool) => if c then r else mkResult (Value r) (Some err)) results completed.

Definition MapResults (limit : Z) (values : list T) (fn : callback (R * option error))
    (s : exec (list Result * list bool) G) (res : list Result * option error) : Prop :=
  match validateLimit limit, fn with
  | Some e, _ => res = ([], Some e)
  | None, None => res = ([], Some (ErrWrapf "MapResults" ErrNilFunc))
  | None, Some fn =>
      if decide (values = []) then res = ([], None)
      else exists err,
        executes G (Z.to_nat limit) (length values) (MapResults_write fn values) (fun _ => None)
          (replicate (length values) (mkResult zero None), replicate (length values) false) s err /\
        res = match err with
              | Some e => (fill e (mem s).1 (mem s).2, Some e)
              | None => ((mem s).1, None)
              end
  end.

(** [Filter] appends the values whose match is true. *)
Definition keep (values : list T) (matches : list bool) : list T :=
  omap (fun p => if p.2 : bool then Some p.1 else None) (zip values matches).

Definition Filter (limit : Z) (values : list T) (fn : callback (bool * option error))
    (s : exec (list bool) G) (res : list T + error) : Prop :=
  match validateLimit limit, fn with
  | Some e, _ => res = inr e
  | None, None => res = inr (ErrWrapf "Filter" ErrNilFunc)
  | None, Some f =>
      exists matches, Map false limit values fn s matches /\
        res = match matches with inr e => inr e | inl ms => inl (keep values ms) end
  end.
End Calls.

(** ** The invariant *)

Section Invariant.
Context {A G : Type} `{!ErrGroup G, !ErrGroupLaws G}.
Context (limit count : nat) (fn_upd : nat -> A -> A) (fn_err : nat -> option error) (m0 : A).

(** The indices in [fn], and those whose [fn] has returned. *)
Definition calling (l : list (nat * call)) : list nat :=
  omap (fun p => match p.2 with Calling => Some p.1 | Checking => None end) l.
Definition bodies (l : list (nat * result)) : list nat :=
  omap (fun p => match p.2 with Body _ => Some p.1 | Refused _ => None end) l.
Definition first_err (l : list (nat * result)) : option error := head (omap (fun p => result_err p.2) l).

Definition phase_ok (s : exec A G) : Prop :=
  match ph s with
  | Looping => True
  | Going => index s < count
  | Waiting => count <= index s \/ g_cause (group s) <> None
  | Returned r =>
      active s = ∅ /\ (r = None -> first_err (results s) = None /\ count <= index s) /\
      (forall e, r = Some e -> first_err (results s) = Some e \/ parent s = Some e)
  end.

Record einv (s : exec A G) : Prop := {
  e_limit : g_limit (group s) = limit;
  e_active : g_active (group s) = size (active s);
  e_le : size (active s) <= limit;
  e_sched : scheduled s = index s;
  e_index : index s <= count;
  e_ids : Permutation (seq 0 (index s)) ((map_to_list (active s)).*1 ++ (results s).*1);
  e_called : Permutation (called s) (calling (map_to_list (active s)) ++ bodies (results s));
  e_err : g_err (group s) = first_err (results s);
  e_open : g_cause (group s) = None -> parent s = None /\ first_err (results s) = None;
  e_cause : forall c, g_cause (group s) = Some c -> parent s = Some c \/ first_err (results s) = Some c;
  e_src : forall c, first_err (results s) = Some c ->
    parent s = Some c \/ exists i, i ∈ bodies (results s) /\ fn_err i = Some c;
  e_body : forall i e, (i, Body e) ∈ results s -> e = fn_err i;
  e_mem : mem s = foldl (fun m i => fn_upd i m) m0 (bodies (results s));
  e_phase : phase_ok s
}.

Lemma first_result_snoc l i r : first_err (l ++ [(i, r)]) = first_of (first_err l) (result_err r).
Proof.
  unfold first_err. rewrite omap_app. destruct (omap _ l) as [|x xs]; [|done]. simpl. by destruct (result_err r).
Qed.

Lemma bodies_snoc l i r :
  bodies (l ++ [(i, r)]) = bodies l ++ match r with Body _ => [i] | Refused _ => [] end.
Proof. unfold bodies. rewrite omap_app. by destruct r. Qed.

Lemma start_einv : einv (start limit m0).
Proof.
  destruct (new_law limit) as (H1 & H2 & H3 & H4). constructor; cbn; try done; try lia.
  - rewrite map_size_empty. lia.
  - congruence.
  - by intros i e ?%not_elem_of_nil.
Qed.

(** The call of index [i] returns [r]. *)
Lemma finish_einv s i x r m :
  einv s -> active s !! i = Some x ->
  match x, r with
  | Checking, Refused c => g_cause (group s) = Some c /\ m = mem s
  | Calling, Body e => e = fn_err i /\ m = fn_upd i (mem s)
  | _, _ => False
  end ->
  einv (finish i r m s).
Proof.
  intros H Hi Hr. destruct (return_law (result_err r) (group s)) as (L1 & L2 & L3 & L4).
  pose proof (map_to_list_delete _ _ _ Hi) as Hp. pose proof (map_size_delete_Some i (active s) (mk_is_Some _ _ Hi)) as Hsz.
  assert (Hne : active s <> ∅) by (intros E; by rewrite E in Hi).
  assert (Hret : forall e, ph s <> Returned e).
  { intros e E. pose proof (e_phase _ H) as Hph. unfold phase_ok in Hph. rewrite E in Hph. by destruct Hph. }
  constructor; cbn [finish index scheduled ph group parent active mem called results]; try apply H.
  - rewrite L4. apply H.
  - rewrite L1, (e_active _ H), Hsz. done.
  - pose proof (e_le _ H). rewrite Hsz. lia.
  - rewrite (e_ids _ H), <- Hp, fmap_app. simpl. rewrite (assoc_L (++)). by rewrite <- Permutation_cons_append.
  - rewrite (e_called _ H). unfold calling at 1. rewrite <- Hp, bodies_snoc.
    destruct x, r; try done; cbn [omap list_omap snd fst].
    + by rewrite app_nil_r.
    + rewrite (assoc_L (++)), <- Permutation_cons_append. done.
  - rewrite L3, (e_err _ H), first_result_snoc. done.
  - rewrite L2, first_result_snoc. intros Hc. destruct (g_cause (group s)) eqn:E; [done|]. simpl in Hc.
    destruct (e_open _ H E) as [-> ->]. by rewrite Hc.
  - intros c. rewrite L2, first_result_snoc. destruct (g_cause (group s)) as [c'|] eqn:E; simpl.
    + intros [= <-]. destruct (e_cause _ H _ E) as [?|He]; [by left|]. right. by rewrite He.
    + intros Hc. destruct (e_open _ H E) as [_ ->]. by right.
  - intros c. rewrite first_result_snoc. destruct (first_err (results s)) as [c'|] eqn:E; simpl.
    + intros [= <-]. destruct (e_src _ H _ E) as [?|(j & Hj & He)]; [by left|]. right. exists j. split; [|done].
      rewrite bodies_snoc, elem_of_app. by left.
    + intros Hc. destruct x, r; try done; simpl in Hc.
      * destruct Hr as [Hr _]. injection Hc as ->. destruct (e_cause _ H _ Hr) as [?|?]; [by left|congruence].
      * destruct Hr as [-> _]. right. exists i. split; [|done]. rewrite bodies_snoc, elem_of_app. right. by left.
  - intros j e. rewrite elem_of_app. intros [?|[= -> Hx]%list_elem_of_singleton]; [by apply (e_body _ H)|].
    destruct x, r; try done. injection Hx as ->. by destruct Hr.
  - rewrite bodies_snoc, foldl_app, <- (e_mem _ H). destruct x, r; try done; simpl; by destruct Hr.
  - pose proof (e_phase _ H) as Hph. unfold phase_ok in *. cbn [finish ph index group results parent active].
    destruct (ph s) as [| | |e] eqn:E; [done|done| |by destruct (Hret e)].
    destruct Hph as [?|Hc]; [by left|right]. rewrite L2. by destruct (g_cause (group s)).
Qed.
Lemma set_phase_einv s p : einv s -> phase_ok (set_phase p s) -> einv (set_phase p s).
Proof. intros H Hp. constructor; cbn [set_phase index scheduled ph group parent active mem called results]; try apply H. done. Qed.

Lemma loop_einv s s' : einv s -> loop_check count s = Some s' -> einv s'.
Proof.
  intros H. unfold loop_check. destruct (ph s); try done. intros [= <-].
  destruct (Nat.ltb_spec (index s) count) as [Hlt|Hge].
  - destruct (g_cause (group s)) eqn:E; (apply set_phase_einv; [done|]); cbn; [right; congruence|done].
  - apply set_phase_einv; [done|]. left. done.
Qed.

Lemma go_einv s s' : einv s -> loop_go s = Some s' -> einv s'.
Proof.
  intros H. unfold loop_go. destruct (ph s) eqn:Eph; try done. rewrite ready_law, (e_limit _ H), (e_active _ H).
  destruct (Nat.ltb_spec (size (active s)) limit) as [Hlt|]; [|done]. intros [= <-].
  destruct (go_law (group s)) as (L1 & L2 & L3 & L4).
  pose proof (e_phase _ H) as Hph. unfold phase_ok in Hph. rewrite Eph in Hph.
  assert (Hfresh : active s !! index s = None).
  { destruct (active s !! index s) as [x|] eqn:E; [|done]. exfalso.
    assert (Hin : index s ∈ seq 0 (index s)).
    { rewrite (e_ids _ H), elem_of_app. left. apply list_elem_of_fmap. exists (index s, x). split; [done|].
      by apply elem_of_map_to_list. }
    apply elem_of_seq in Hin. lia. }
  pose proof (map_to_list_insert _ _ Checking Hfresh) as Hp.
  constructor; cbn [index scheduled ph group parent active mem called results]; try apply H.
  - rewrite L4. apply H.
  - rewrite L1, (e_active _ H). by rewrite map_size_insert_None.
  - rewrite map_size_insert_None by done. lia.
  - by rewrite (e_sched _ H).
  - lia.
  - rewrite seq_S, Hp, (e_ids _ H). simpl. by rewrite <- Permutation_cons_append.
  - unfold calling. rewrite Hp. cbn [omap list_omap snd]. apply H.
  - rewrite L3. apply H.
  - rewrite L2. apply H.
  - rewrite L2. apply H.
  - done.
Qed.

Lemma check_einv s i s' : einv s -> call_check i s = Some s' -> einv s'.
Proof.
  intros H. unfold call_check. destruct (active s !! i) as [[]|] eqn:Hi; try done. intros [= <-].
  destruct (g_cause (group s)) as [c|] eqn:Ec; [by eapply finish_einv|].
  pose proof (map_to_list_delete _ _ _ Hi) as Hp.
  assert (Hp' : Permutation (map_to_list (<[i := Calling]> (active s))) ((i, Calling) :: map_to_list (delete i (active s)))).
  { rewrite <- insert_delete_eq. apply map_to_list_insert. by rewrite lookup_delete_eq. }
  assert (Hsz : size (<[i := Calling]> (active s)) = size (active s)) by (apply map_size_insert_Some; by eexists).
  constructor; cbn [index scheduled ph group parent active mem called results]; try apply H.
  - rewrite Hsz. apply H.
  - rewrite Hsz. apply H.
  - rewrite (e_ids _ H), <- Hp, Hp'. done.
  - unfold calling. rewrite Hp'. cbn [omap list_omap snd fst]. rewrite <- Permutation_cons_append, (e_called _ H).
    unfold calling. by rewrite <- Hp.
  - pose proof (e_phase _ H) as Hph. unfold phase_ok in *. cbn [ph index group results parent active].
    destruct (ph s) eqn:E; try done. destruct Hph as [E' _]. by rewrite E' in Hi.
Qed.

Lemma cancel_einv s c : einv s -> einv (cancel_parent c s).
Proof.
  intros H. destruct (cancel_law c (group s)) as (L1 & L2 & L3 & L4).
  constructor; cbn [cancel_parent index scheduled ph group parent active mem called results]; try apply H.
  - rewrite L4. apply H.
  - rewrite L1. apply H.
  - rewrite L3. apply H.
  - rewrite L2. by destruct (g_cause (group s)).
  - intros c'. rewrite L2. destruct (g_cause (group s)) as [d|] eqn:E; simpl.
    + intros [= <-]. destruct (e_cause _ H _ E) as [Hp|?]; [|by right]. left. by rewrite Hp.
    + intros [= <-]. destruct (e_open _ H E) as [-> _]. by left.
  - intros c' Hc. destruct (e_src _ H _ Hc) as [Hp|?]; [|by right]. left. by rewrite Hp.
  - pose proof (e_phase _ H) as Hph. unfold phase_ok in *. cbn [cancel_parent ph index group results parent active].
    destruct (ph s) as [| | |r]; [done|done| |].
    + destruct Hph as [?|Hc]; [by left|right]. rewrite L2. by destruct (g_cause (group s)).
    + destruct Hph as (H1 & H2 & H3). split_and!; [done|done|]. intros e He.
      destruct (H3 e He) as [?|Hp]; [by left|right]. by rewrite Hp.
Qed.

Lemma wait_einv s s' : einv s -> wait count s = Some s' -> einv s'.
Proof.
  intros H. unfold wait. destruct (ph s) eqn:Eph; try done. rewrite (e_active _ H).
  destruct (Nat.eqb_spec (size (active s)) 0) as [Hz|]; [|done]. intros [= <-]. apply set_phase_einv; [done|].
  pose proof (e_phase _ H) as Hph. unfold phase_ok in *. rewrite Eph in Hph. cbn [set_phase ph active results index parent].
  apply map_size_empty_iff in Hz. split; [done|]. rewrite (e_err _ H), (e_sched _ H).
  destruct (first_err (results s)) as [c|] eqn:Ef.
  { split; [done|]. intros e [= <-]. by left. }
  destruct (Nat.ltb_spec (index s) count) as [Hlt|Hge]; [|by split].
  destruct Hph as [?|Hc]; [lia|]. destruct (g_cause (group s)) as [c|] eqn:Ec; [|done].
  destruct (e_cause _ H _ Ec) as [->|?]; [|congruence]. split; [done|]. intros e [= <-]. by right.
Qed.

Lemma step_einv a s s' : einv s -> step count fn_upd fn_err a s = Some s' -> einv s'.
Proof.
  intros H. destruct a; cbn [step].
  - by apply loop_einv.
  - by apply go_einv.
  - by apply check_einv.
  - unfold call_return. destruct (active s !! i) as [[]|] eqn:Hi; try done. intros [= <-]. by eapply finish_einv.
  - intros [= <-]. by apply cancel_einv.
  - by apply wait_einv.
Qed.

Lemma steps_einv l s s' : einv s -> steps count fn_upd fn_err l s = Some s' -> einv s'.
Proof.
  revert s. induction l as [|a l IH]; intros s H; cbn [steps]; [by intros [= <-]|].
  destruct (step _ _ _ a s) as [r|] eqn:E; [|done]. intros Hs. eapply IH; [|exact Hs]. by eapply step_einv.
Qed.
End Invariant.

(** ** Outcomes *)

Section Outcome.
Context {A G : Type} `{!ErrGroup G, !ErrGroupLaws G}.
Context (limit count : nat) (fn_upd : nat -> A -> A) (fn_err : nat -> option error) (m0 : A).

Lemma calling_length l : length (calling l) <= length l.
Proof.
  induction l as [|[i []] l IH]; [done| |]; cbn [calling omap list_omap snd fst length] in *; unfold calling in *; lia.
Qed.

Lemma called_nodup s : einv limit count fn_upd fn_err m0 s -> NoDup (called s) /\ forall i, i ∈ called s -> i < index s.
Proof.
  intros H. assert (Hsub : called s ⊆+ seq 0 (index s)).
  { rewrite (e_called _ _ _ _ _ _ H), (e_ids _ _ _ _ _ _ H). apply submseteq_app.
    - unfold calling. generalize (map_to_list (active s)) as l. clear.
      induction l as [|[i []] l IH]; simpl; [done|by apply submseteq_cons|by apply submseteq_skip].
    - unfold bodies. generalize (results s) as l. clear.
      induction l as [|[i []] l IH]; simpl; [done|by apply submseteq_cons|by apply submseteq_skip]. }
  split.
  { destruct (submseteq_Permutation _ _ Hsub) as [k Hk]. pose proof (NoDup_seq 0 (index s)) as Hnd.
    rewrite Hk in Hnd. by apply NoDup_app in Hnd as [? _]. }
  intros i Hi. eapply elem_of_submseteq in Hi; [|exact Hsub]. apply elem_of_seq in Hi. lia.
Qed.

Lemma no_err_bodies l : first_err l = None -> bodies l = l.*1 /\ forall i r, (i, r) ∈ l -> r = Body None.
Proof.
  induction l as [|[i r] l IH]; intros Hf.
  - split; [done|]. by intros i r ?%not_elem_of_nil.
  - destruct r as [c|[e|]]; [done|done|]. destruct (IH Hf) as [Hb Hall]. split.
    + change (i :: bodies l = i :: l.*1). by rewrite Hb.
    + intros j r [[= -> ->]|?]%elem_of_cons; [done|]. by eapply Hall.
Qed.

(** A return without an error: everything was called, once, and succeeded. *)
Lemma returned_none s :
  einv limit count fn_upd fn_err m0 s -> ph s = Returned None ->
  Permutation (called s) (seq 0 count) /\ Permutation (bodies (results s)) (seq 0 count) /\
  forall i, i < count -> fn_err i = None.
Proof.
  intros H Hr. pose proof (e_phase _ _ _ _ _ _ H) as Hp. unfold phase_ok in Hp. rewrite Hr in Hp.
  destruct Hp as (Ha & Hn & _). destruct (Hn eq_refl) as [Hf Hc]. pose proof (e_index _ _ _ _ _ _ H).
  replace count with (index s) by lia. destruct (no_err_bodies _ Hf) as [Hb Hall].
  pose proof (e_ids _ _ _ _ _ _ H) as Hids. pose proof (e_called _ _ _ _ _ _ H) as Hcall.
  rewrite Ha, map_to_list_empty in Hids, Hcall. simpl in Hids, Hcall. rewrite Hb in Hcall |- *.
  split; [by rewrite Hcall|]. split; [done|]. intros i Hi.
  assert (Hin : i ∈ (results s).*1) by (rewrite <- Hids; apply elem_of_seq; lia).
  apply list_elem_of_fmap in Hin as ([j r] & -> & Hin). pose proof (Hall _ _ Hin). subst r.
  symmetry. by apply (e_body _ _ _ _ _ _ H).
Qed.

Lemma returned_some s e :
  einv limit count fn_upd fn_err m0 s -> ph s = Returned (Some e) ->
  parent s = Some e \/ exists i, i ∈ called s /\ fn_err i = Some e.
Proof.
  intros H Hr. pose proof (e_phase _ _ _ _ _ _ H) as Hp. unfold phase_ok in Hp. rewrite Hr in Hp.
  destruct Hp as (_ & _ & Hs). destruct (Hs e eq_refl) as [Hf|?]; [|by left].
  destruct (e_src _ _ _ _ _ _ H _ Hf) as [?|(i & Hi & He)]; [by left|]. right. exists i. split; [|done].
  rewrite (e_called _ _ _ _ _ _ H), elem_of_app. by right.
Qed.

(** [execute] under every schedule: never more than [limit] callbacks at a
    time, each index called at most once; it returns only when none is running;
    without an error exactly if every index was called and succeeded; an error it
    returns is that of a callback it called, or the cause of the cancellation of
    the caller's context. *)
Theorem execute_outcome l s :
  steps count fn_upd fn_err l (start limit m0) = Some s ->
  length (calling (map_to_list (active s))) <= limit /\ NoDup (called s) /\
  (forall i, i ∈ called s -> i < count) /\
  match ph s with
  | Returned None =>
      active s = ∅ /\ Permutation (called s) (seq 0 count) /\ forall i, i < count -> fn_err i = None
  | Returned (Some e) =>
      active s = ∅ /\ (parent s = Some e \/ exists i, i ∈ called s /\ fn_err i = Some e)
  | _ => True
  end.
Proof.
  intros Hs. assert (H : einv limit count fn_upd fn_err m0 s) by (eapply steps_einv; [apply start_einv|done]).
  destruct (called_nodup _ H) as [Hnd Hlt]. pose proof (e_index _ _ _ _ _ _ H).
  split. { pose proof (calling_length (map_to_list (active s))). pose proof (e_le _ _ _ _ _ _ H).
    rewrite length_map_to_list in *. lia. }
  split; [done|]. split; [intros i Hi; apply Hlt in Hi; lia|].
  pose proof (e_phase _ _ _ _ _ _ H) as Hp. unfold phase_ok in Hp.
  destruct (ph s) as [| | |[e|]] eqn:Eph; try done; destruct Hp as (Ha & _ & _); (split; [done|]).
  - by apply returned_some.
  - destruct (returned_none s H Eph) as (H1 & _ & H2). done.
Qed.

(** ** Termination *)

Definition phase_weight (p : phase) : nat :=
  match p with Looping => 3 | Going => 2 | Waiting => 1 | Returned _ => 0 end.
Definition call_weight (p : nat * call) : nat := match p.2 with Checking => 2 | Calling => 1 end.
Definition measure (s : exec A G) : nat :=
  5 * (count - index s) + phase_weight (ph s) + sum_list_with call_weight (map_to_list (active s)).

Definition internal (a : action) : bool := match a with Cancel _ => false | _ => true end.

Lemma weight_delete (s : exec A G) i x :
  active s !! i = Some x ->
  sum_list_with call_weight (map_to_list (active s))
  = call_weight (i, x) + sum_list_with call_weight (map_to_list (delete i (active s))).
Proof. intros Hi. by rewrite <- (map_to_list_delete _ _ _ Hi). Qed.

Lemma step_decreases a s s' :
  einv limit count fn_upd fn_err m0 s -> internal a = true ->
  step count fn_upd fn_err a s = Some s' -> measure s' < measure s.
Proof.
  intros H. assert (W2 : forall i, call_weight (i, Checking) = 2) by done.
  assert (W1 : forall i, call_weight (i, Calling) = 1) by done.
  assert (Hput : forall i x, sum_list_with call_weight (map_to_list (<[i := x]> (active s)))
                 = call_weight (i, x) + sum_list_with call_weight (map_to_list (delete i (active s)))).
  { intros i x. rewrite <- insert_delete_eq, map_to_list_insert by (by rewrite lookup_delete_eq). done. }
  destruct a; cbn [internal step]; try done; intros _.
  - unfold loop_check, measure. destruct (ph s) eqn:E; try done. intros [= <-].
    destruct (_ <? _); [destruct (g_cause _)|]; cbn [set_phase index ph active phase_weight]; lia.
  - unfold loop_go, measure. destruct (ph s) eqn:E; try done. destruct (g_ready _); [|done]. intros [= <-].
    pose proof (e_phase _ _ _ _ _ _ H) as Hp. unfold phase_ok in Hp. rewrite E in Hp.
    cbn [index ph active phase_weight]. rewrite Hput, W2.
    destruct (active s !! index s) as [x|] eqn:Ex; [rewrite (weight_delete _ _ _ Ex)|rewrite delete_id by done]; lia.
  - unfold call_check, measure. destruct (active s !! i) as [[]|] eqn:Hi; try done. intros [= <-].
    rewrite (weight_delete _ _ _ Hi). destruct (g_cause _); cbn [finish index ph active]; rewrite ?Hput, ?W1, ?W2; lia.
  - unfold call_return, measure. destruct (active s !! i) as [[]|] eqn:Hi; try done. intros [= <-].
    rewrite (weight_delete _ _ _ Hi), W1. cbn [finish index ph active]. lia.
  - unfold wait, measure. destruct (ph s) eqn:E; try done. destruct (_ =? _); [|done]. intros [= <-].
    cbn [set_phase index ph active phase_weight]. lia.
Qed.

Lemma execute_progress s :
  0 < limit -> einv limit count fn_upd fn_err m0 s ->
  (exists r, ph s = Returned r) \/ exists a s', internal a = true /\ step count fn_upd fn_err a s = Some s'.
Proof.
  intros Hl H. assert (Hcall : active s <> ∅ -> exists a s', internal a = true /\ step count fn_upd fn_err a s = Some s').
  { intros [i [x Hi]]%map_choose. destruct x.
    - exists (Check i). simpl. unfold call_check. rewrite Hi. by eauto.
    - exists (Return_ i). simpl. unfold call_return. rewrite Hi. by eauto. }
  destruct (decide (active s = ∅)) as [Ha|]; [|by right; apply Hcall].
  assert (Hz : g_active (group s) = 0) by (rewrite (e_active _ _ _ _ _ _ H), Ha; apply map_size_empty).
  destruct (ph s) as [| | |r] eqn:E; [| | |by left; eauto]; right.
  - exists Loop. simpl. unfold loop_check. rewrite E. by eauto.
  - exists Go. simpl. unfold loop_go. rewrite E, ready_law, (e_limit _ _ _ _ _ _ H), Hz.
    destruct (Nat.ltb_spec 0 limit); [by eauto|lia].
  - exists Wait. simpl. unfold wait. rewrite E, Hz. by eauto.
Qed.

(** [execute] always returns: from every reachable state, whatever is
    scheduled, there are at most [measure] moves of its own, and until it has
    returned one of them is possible (callbacks return in the end). *)
Theorem execute_terminates l s l' s' :
  0 < limit -> steps count fn_upd fn_err l (start limit m0) = Some s ->
  Forall (fun a => internal a = true) l' -> steps count fn_upd fn_err l' s = Some s' ->
  length l' <= measure s /\
  ((exists r, ph s' = Returned r) \/
   exists a s'', internal a = true /\ step count fn_upd fn_err a s' = Some s'').
Proof.
  intros Hl Hs Hi Hs'. assert (H : einv limit count fn_upd fn_err m0 s) by (eapply steps_einv; [apply start_einv|done]).
  split; [|apply execute_progress; [done|by eapply steps_einv]]. clear Hs. revert s H Hs'.
  induction Hi as [|a l' Ha Hi IH]; intros s H; cbn [steps]; [intros _; simpl; lia|].
  destruct (step _ _ _ a s) as [r|] eqn:E; [|done]. intros Hs'.
  pose proof (step_decreases a s r H Ha E). apply IH in Hs'; [|by eapply step_einv]. simpl. lia.
Qed.
End Outcome.

(** ** Collections *)

Section Collections.
Context (G : Type) `{!ErrGroup G, !ErrGroupLaws G} {T : Type}.

Lemma executes_inv {A} limit count fn_upd fn_err (m0 : A) (s : exec A G) err :
  executes G limit count fn_upd fn_err m0 s err -> einv limit count fn_upd fn_err m0 s /\ ph s = Returned err.
Proof. intros (l & Hs & Hr). split; [eapply steps_einv; [apply start_einv|done]|done]. Qed.

(** The slots after the callbacks of [bs]. *)
Lemma map_slots {B} (fn : nat -> T -> B * option error) values (m0 : list B) bs :
  length m0 = length values ->
  let m := foldl (fun m i => Map_write fn values i m) m0 bs in
  length m = length values /\
  forall i v r, i ∈ bs -> values !! i = Some v -> fn i v = (r, None) -> m !! i = Some r.
Proof.
  intros Hlen. induction bs as [|j bs [IHl IH]] using rev_ind; cbn zeta; [split; [done|by intros ??? ?%not_elem_of_nil]|].
  rewrite foldl_app. cbn [foldl]. unfold Map_write at 1 3. cbn zeta in IHl, IH.
  set (m := foldl _ m0 bs) in *. split.
  - destruct (fn j <$> values !! j) as [[r [e|]]|]; [done| |done]. by rewrite length_insert.
  - intros i v r [Hi| ->%list_elem_of_singleton]%elem_of_app Hv Hf.
    + pose proof (IH i v r Hi Hv Hf) as Hm. destruct (fn j <$> values !! j) as [[r' [e|]]|] eqn:E; [done| |done].
      destruct (decide (i = j)) as [->|]; [|by rewrite list_lookup_insert_ne].
      rewrite Hv in E. simpl in E. rewrite Hf in E. injection E as <-.
      apply list_lookup_insert_eq. apply lookup_lt_Some in Hv. lia.
    + rewrite Hv. simpl. rewrite Hf. apply list_lookup_insert_eq. apply lookup_lt_Some in Hv. lia.
Qed.

Lemma out_of_spec {B} (fn : nat -> T -> B * option error) values i v :
  values !! i = Some v -> out_of fn values i = (fn i v).2.
Proof. intros Hv. unfold out_of. by rewrite Hv. Qed.

(** What [Map] returns, for any schedule. *)
Lemma map_results {B} (zero : B) limit values (fn : nat -> T -> B * option error) s res :
  (0 < limit)%Z -> Map G zero limit values (Some fn) s res ->
  match res with
  | inl rs => rs = (imap fn values).*1 /\ Forall (fun r => r.2 = None) (imap fn values)
  | inr e => parent s = Some e \/ exists i v, values !! i = Some v /\ (fn i v).2 = Some e
  end.
Proof.
  intros Hlim. unfold Map, validateLimit. rewrite (proj2 (Z.leb_gt limit 0)) by lia.
  case_decide as Hv; [intros ->; subst; by split; constructor|]. intros (err & [H Hr]%executes_inv & ->).
  destruct err as [e|].
  - destruct (returned_some _ _ _ _ _ s e H Hr) as [?|(i & Hi & He)]; [by left|]. right.
    unfold out_of in He. destruct (values !! i) as [v|] eqn:E; [|done]. by exists i, v.
  - destruct (returned_none _ _ _ _ _ s H Hr) as (_ & Hb & Hn).
    assert (Hall : forall i v, values !! i = Some v -> (fn i v).2 = None).
    { intros i v Hi. rewrite <- (out_of_spec fn values i v Hi). apply Hn. by apply lookup_lt_Some in Hi. }
    rewrite (e_mem _ _ _ _ _ _ H).
    destruct (map_slots fn values (replicate (length values) zero) (bodies (results s))) as [Hlen Hslot];
      [apply length_replicate|]. split.
    + apply list_eq. intros i. rewrite list_lookup_fmap, list_lookup_imap.
      destruct (values !! i) as [v|] eqn:E; simpl.
      * destruct (fn i v) as [r e] eqn:Ef. simpl. apply (Hslot i v r); [|done|].
        -- rewrite Hb. apply elem_of_seq. apply lookup_lt_Some in E. lia.
        -- rewrite Ef. f_equal. specialize (Hall i v E). by rewrite Ef in Hall.
      * apply lookup_ge_None_2. cbn zeta in Hlen. rewrite Hlen. by apply lookup_ge_None_1.
    + apply Forall_lookup. intros i x. rewrite list_lookup_imap. intros (v & Hx & ->)%fmap_Some. by apply Hall.
Qed.

(** The loop of [Filter] keeps the values the callback accepted. *)
Lemma keep_filter (pred : nat -> T -> bool * option error) values :
  keep values (imap pred values).*1 = (filter (fun iv => (pred iv.1 iv.2).1 = true) (imap pair values)).*2.
Proof using Type.
  assert (H : forall g : nat -> nat, keep values (imap (fun i v => pred (g i) v) values).*1
    = (filter (fun iv => (pred iv.1 iv.2).1 = true) (imap (fun i v => (g i, v)) values)).*2); [|exact (H id)].
  induction values as [|v values IH]; intros g; [done|]. rewrite !imap_cons, filter_cons. cbn [fmap list_fmap fst snd].
  specialize (IH (g ∘ S)). unfold keep in *. cbn [zip zip_with omap list_omap fst snd].
  destruct (pred (g 0) v).1; [rewrite decide_True by done; cbn [fmap list_fmap snd]; f_equal|rewrite decide_False by done]; exact IH.
Qed.

(** C17: concurrent [Map] and [Filter] are the sequential ones: whatever the
    schedule, a result of [Map] has the callback's results in the order of the
    values, and every callback succeeded; a result of [Filter] has exactly the
    values the callback accepted, in order; an error is that of some value's
    callback, or the cause of a cancellation. *)
Theorem map_filter_sequential {B} (zero : B) limit values (fn : nat -> T -> B * option error) s res
    (pred : nat -> T -> bool * option error) s' res' :
  (0 < limit)%Z -> Map G zero limit values (Some fn) s res -> Filter G limit values (Some pred) s' res' ->
  match res with
  | inl rs => rs = (imap fn values).*1 /\ Forall (fun r => r.2 = None) (imap fn values)
  | inr e => parent s = Some e \/ exists i v, values !! i = Some v /\ (fn i v).2 = Some e
  end /\
  match res' with
  | inl vs => vs = (filter (fun iv => (pred iv.1 iv.2).1 = true) (imap pair values)).*2 /\ Forall (fun r => r.2 = None) (imap pred values)
  | inr e => parent s' = Some e \/ exists i v, values !! i = Some v /\ (pred i v).2 = Some e
  end.
Proof.
  intros Hlim Hm Hf. split; [by eapply map_results|]. revert Hf. unfold Filter, validateLimit.
  rewrite (proj2 (Z.leb_gt limit 0)) by lia. intros (ms & Hms & ->). apply map_results in Hms; [|done].
  destruct ms as [bs|e]; [|done]. destruct Hms as [-> ?]. by rewrite keep_filter.
Qed.

Lemma elem_of_snoc_ne (l : list nat) i j : i <> j -> i ∈ l ++ [j] <-> i ∈ l.
Proof. intros Hne. rewrite elem_of_app, list_elem_of_singleton. split; [by intros [?|?]|by left]. Qed.

(** The slots and flags of [MapResults]. *)
Lemma map_results_slots {R} (zero : R) (fn : nat -> T -> R * option error) values bs :
  let m := foldl (fun m i => MapResults_write fn values i m)
             (replicate (length values) (mkResult zero None), replicate (length values) false) bs in
  length m.1 = length values /\ length m.2 = length values /\
  forall i v, values !! i = Some v ->
    m.1 !! i = Some (if decide (i ∈ bs) then mkResult (fn i v).1 (fn i v).2 else mkResult zero None) /\
    m.2 !! i = Some (bool_decide (i ∈ bs)).
Proof.
  induction bs as [|j bs (IH1 & IH2 & IH)] using rev_ind; cbn zeta.
  - cbn [foldl fst snd]. rewrite !length_replicate. split_and!; [done|done|]. intros i v Hv%lookup_lt_Some.
    by rewrite !lookup_replicate_2 by done.
  - rewrite foldl_app. cbn [foldl]. unfold MapResults_write at 1 3 5 7. cbn zeta in IH1, IH2, IH.
    set (m := foldl _ _ bs) in *. destruct (values !! j) as [v'|] eqn:Ej; simpl.
    + destruct (fn j v') as [r e] eqn:Ef. cbn [fst snd]. rewrite !length_insert. split_and!; [done|done|].
      intros i v Hv. destruct (decide (i = j)) as [->|Hne].
      * assert (Hj : j ∈ bs ++ [j]) by (apply elem_of_app; right; by left). rewrite decide_True, bool_decide_true by done.
        apply lookup_lt_Some in Ej as Hlt. rewrite !list_lookup_insert_eq by lia.
        rewrite Hv in Ej. injection Ej as <-. by rewrite Ef.
      * rewrite !list_lookup_insert_ne by done. destruct (IH i v Hv) as [-> ->].
        pose proof (elem_of_snoc_ne bs i j Hne) as Hiff.
        split; f_equal; [by apply decide_ext|by apply bool_decide_ext].
    + split_and!; [done|done|]. intros i v Hv. destruct (IH i v Hv) as [-> ->].
      assert (Hne : i <> j) by congruence.
      pose proof (elem_of_snoc_ne bs i j Hne) as Hiff.
      split; f_equal; [by apply decide_ext|by apply bool_decide_ext].
Qed.
(** [MapResults] has one result per value: what the callback returned if it
    was called, and the cause of the cancellation, which is then also returned, if
    it was not; callback errors neither stop other callbacks nor become the
    error. *)
Theorem map_results_complete {R} (zero : R) limit values (fn : nat -> T -> R * option error) s rs err :
  (0 < limit)%Z -> values <> [] -> MapResults G zero limit values (Some fn) s (rs, err) ->
  length rs = length values /\
  (forall i v, values !! i = Some v ->
     rs !! i = Some (if decide (i ∈ called s) then mkResult (fn i v).1 (fn i v).2 else mkResult zero err)) /\
  match err with
  | None => Permutation (called s) (seq 0 (length values))
  | Some e => parent s = Some e
  end.
Proof.
  intros Hlim Hne. unfold MapResults, validateLimit. rewrite (proj2 (Z.leb_gt limit 0)) by lia.
  rewrite decide_False by done. intros (err' & [H Hr]%executes_inv & Hres).
  assert (Hcalled : called s ≡ₚ bodies (results s)).
  { pose proof (e_phase _ _ _ _ _ _ H) as Hp. unfold phase_ok in Hp. rewrite Hr in Hp. destruct Hp as [Ha _].
    pose proof (e_called _ _ _ _ _ _ H) as Hc. rewrite Ha, map_to_list_empty in Hc. done. }
  pose proof (map_results_slots zero fn values (bodies (results s))) as Hslots. cbn zeta in Hslots.
  rewrite <- (e_mem _ _ _ _ _ _ H) in Hslots. destruct Hslots as (Hl1 & Hl2 & Hslot).
  assert (Hin : forall i, i ∈ called s <-> i ∈ bodies (results s)) by (intros i; by rewrite Hcalled).
  destruct err' as [e|]; injection Hres as -> ->.
  - split_and!.
    + unfold fill. rewrite length_zip_with. lia.
    + intros i v Hv. destruct (Hslot i v Hv) as [H1 H2]. unfold fill. rewrite lookup_zip_with, H1, H2. simpl. f_equal.
      destruct (decide (i ∈ bodies (results s))) as [Hi|Hi].
      * rewrite bool_decide_true by done. by rewrite decide_True by (by apply Hin).
      * rewrite bool_decide_false by done. by rewrite decide_False by (by rewrite Hin).
    + by destruct (returned_some _ _ _ _ _ s e H Hr) as [?|(i & _ & ?)].
  - destruct (returned_none _ _ _ _ _ s H Hr) as (Hc & _ & _). split_and!; [done| |done].
    intros i v Hv. destruct (Hslot i v Hv) as [-> _]. f_equal. by apply decide_ext.
Qed.
End Collections.

(** ** A group that meets the laws *)

Record group_state := mkGroup { gs_limit : nat; gs_active : nat; gs_cause : option error; gs_err : option error }.

#[export] Instance simple_group : ErrGroup group_state := {|
  g_new n := mkGroup n 0 None None;
  g_active := gs_active;
  g_ready g := gs_active g <? gs_limit g;
  g_go g := mkGroup (gs_limit g) (S (gs_active g)) (gs_cause g) (gs_err g);
  g_return e g := mkGroup (gs_limit g) (pred (gs_active g)) (first_of (gs_cause g) e) (first_of (gs_err g) e);
  g_cancel e g := mkGroup (gs_limit g) (gs_active g) (first_of (gs_cause g) (Some e)) (gs_err g);
  g_cause := gs_cause;
  g_err := gs_err
|}.

#[export] Instance simple_group_laws : ErrGroupLaws group_state.
Proof. refine {| g_limit := gs_limit |}; intros; by repeat split. Defined.

(** Two at a time over three values. *)
Definition double (i v : nat) : nat * option error := (2 * v, None).
Definition even_pred (i v : nat) : bool * option error := (Nat.even v, None).
Definition schedule : list action :=
  [Loop; Go; Loop; Go; Check 1; Loop; Check 0; Return_ 1; Go; Loop; Return_ 0; Check 2; Return_ 2; Wait].
Definition demo_values : list nat := [5; 6; 8].
Definition map_state : exec (list nat) group_state :=
  default (start 2 []) (steps 3 (Map_write double demo_values) (out_of double demo_values) schedule (start 2 [0; 0; 0])).
Definition filter_state : exec (list bool) group_state :=
  default (start 2 []) (steps 3 (Map_write even_pred demo_values) (out_of even_pred demo_values) schedule (start 2 [false; false; false])).

Lemma map_state_runs : Map group_state 0 2 demo_values (Some double) map_state (inl [10; 12; 16]).
Proof. exists None. split; [|vm_compute; reflexivity]. exists schedule. split; vm_compute; reflexivity. Qed.

Lemma filter_state_runs : Filter group_state 2 demo_values (Some even_pred) filter_state (inl [6; 8]).
Proof.
  exists (inl [false; true; true]). split; [|vm_compute; reflexivity]. exists None. split; [|vm_compute; reflexivity].
  exists schedule. split; vm_compute; reflexivity.
Qed.

Lemma map_filter_sequential_witness :
  [10; 12; 16] = (imap double demo_values).*1 /\ 
  [6; 8] = (filter (fun iv => (even_pred iv.1 iv.2).1 = true) (imap pair demo_values)).*2.
Proof.
  pose proof (map_filter_sequential group_state 0 2 demo_values double map_state (inl [10; 12; 16]) even_pred
    filter_state (inl [6; 8]) ltac:(lia) map_state_runs filter_state_runs) as [[H1 _] [H2 _]].
  split; [exact H1|exact H2].
Defined.

(** The context is canceled while the first callback runs. *)
Definition canceled_schedule : list action :=
  [Loop; Go; Check 0; Loop; Go; Cancel Canceled; Check 1; Return_ 0; Loop; Wait].
Definition results_state : exec (list (Result (R := nat)) * list bool) group_state :=
  default (start 2 ([], [])) (steps 3 (MapResults_write double demo_values) (fun _ => None) canceled_schedule
    (start 2 (replicate 3 (mkResult 0 None), replicate 3 false))).

Lemma map_results_complete_witness :
  [mkResult 10 None; mkResult 0 (Some Canceled); mkResult 0 (Some Canceled)] !! 1
  = Some (if decide (1 ∈ called results_state) then mkResult 12 None else mkResult 0 (Some Canceled)) /\
  parent results_state = Some Canceled.
Proof.
  assert (Hrun : MapResults group_state 0 2 demo_values (Some double) results_state
    ([mkResult 10 None; mkResult 0 (Some Canceled); mkResult 0 (Some Canceled)], Some Canceled)).
  { exists (Some Canceled). split; [|vm_compute; reflexivity]. exists canceled_schedule. split; vm_compute; reflexivity. }
  destruct (map_results_complete group_state 0 2 demo_values double results_state _ _ ltac:(lia) ltac:(done) Hrun)
    as (_ & Hi & Hp). split; [exact (Hi 1 6 eq_refl)|exact Hp].
Defined.

Lemma schedule_runs :
  steps 3 (Map_write double demo_values) (out_of double demo_values) schedule (start 2 [0; 0; 0]) = Some map_state.
Proof. vm_compute. reflexivity. Qed.

Lemma execute_outcome_witness : length (calling (map_to_list (active map_state))) <= 2 /\ NoDup (called map_state).
Proof.
  pose proof (execute_outcome 2 3 _ _ [0; 0; 0] schedule map_state schedule_runs) as H.
  split; [exact (proj1 H)|exact (proj1 (proj2 H))].
Defined.

Lemma execute_terminates_witness :
  length schedule <= measure 3 (start (A := list nat) (G := group_state) 2 [0; 0; 0]).
Proof.
  assert (Hi : Forall (fun a => internal a = true) schedule) by (repeat (apply Forall_cons_2; [reflexivity|]); apply Forall_nil_2).
  exact (proj1 (execute_terminates 2 3 _ _ [0; 0; 0] [] _ schedule map_state ltac:(lia) eq_refl Hi schedule_runs)).
Defined.
