(* ===== verification/ParallelPool.v ===== *)
(** * The worker pool: [src/parallel/pool.go], [src/parallel/value.go]

    The pool is a transition system.  Its actions are the points where its
    goroutines meet: a caller entering and leaving [Submit], a send on the task
    channel, [stop], the closing of the channels by the goroutine [stop] starts,
    and the turns of the workers; a task runs between [Check] and [Finish].  The
    lists of accepted, received and started tasks and of the results of
    submissions are the history the theorems speak of. *)

From S2P Require Import Prelude GoErrors.
From stdpp Require Import options.
Set Default Proof Using "Type*".

Definition ErrNilTask : error := ErrNew "parallel: task must not be nil".
Definition ErrNilFunc : error := ErrNew "parallel: function must not be nil".
Definition ErrPoolClosed : error := ErrNew "parallel: pool is closed".
Definition ErrPoolFull : error := ErrNew "parallel: pool is full".

(** ** Configuration *)

Record poolConfig := mkPoolConfig { queueSize : Z }.

(** The only option of the package. *)
Inductive PoolOption := WithQueueSize (size : Z).

Definition apply (o : PoolOption) (config : poolConfig) : poolConfig :=
  match o with
  | WithQueueSize size => if (size >=? 0)%Z then mkPoolConfig size else config
  end.

Definition newPoolConfig (workers : Z) (options : list PoolOption) : poolConfig :=
  foldl (fun c o => apply o c) (mkPoolConfig workers) options.

Section Pool.
Context {V : Type}.

(** ** Futures *)

(** How a task ended: it ran, or its context was done before it started. *)
Inductive completion := Ran (v : V) (err : option error) | Skipped (cause : error).

(** The fields of a [ValueFuture] and its [Future]. *)
Definition future_err (c : completion) : option error :=
  match c with Ran _ err => err | Skipped cause => Some cause end.
Definition future_value (zero : V) (c : completion) : V :=
  match c with Ran v _ => v | Skipped _ => zero end.

(** [Future.Wait]: [before] and [after] are the future at its first and at its
    last look, [cause] the cause of the wait's context, if that is done; no
    result while neither is. *)
Definition Future_Wait (before after : option completion) (cause : option error)
    : option (option error) :=
  match before with
  | Some c => Some (future_err c)
  | None =>
      match after with
      | Some c => Some (future_err c)
      | None => Some <$> cause
      end
  end.

(** [ValueFuture.Wait] looks once more ([last]). *)
Definition ValueFuture_Wait (zero : V) (before after last : option completion) (cause : option error)
    : option (V * option error) :=
  match Future_Wait before after cause with
  | None => None
  | Some err =>
      Some (match last with
            | Some c => (future_value zero c, future_err c)
            | None => (zero, err)
            end)
  end.

(** ** The pool *)

(** [future] identifies the future, and with it the task. *)
Record poolTask := mkTask { tctx : context; future : nat }.

Inductive worker :=
| Idle                        (* at the receive of its loop *)
| Received (item : poolTask)  (* in [execute], before its check *)
| Running (item : poolTask)   (* in the task *)
| Exited.

Record Pool := mkPool {
  tasks : list poolTask;           (* the buffered channel *)
  tasksClosed : bool;
  closed : bool;                   (* also: [closing] is closed *)
  submitters : gmap nat poolTask;  (* calls inside [Submit], past its check *)
  workers : list worker;
  done : bool;
  completed : list (nat * completion);
  accepted : list nat;             (* tasks sent, in order *)
  received : list nat;             (* tasks taken by workers, in order *)
  ran : list nat;                  (* tasks called, in order *)
  outcomes : list (nat * option error); (* what submissions returned *)
  panicked : bool                  (* a send on or a close of a closed channel *)
}.

Variable size : nat. (* the capacity of [tasks] *)

(** [NewPool]: no pool after a panic. *)
Definition NewPool (n : Z) (options : list PoolOption) : option (Pool * nat) :=
  if (n <=? 0)%Z then None
  else
    Some (mkPool [] false false ∅ (replicate (Z.to_nat n) Idle) false [] [] [] [] [] false,
          Z.to_nat (queueSize (newPoolConfig n options))).

Definition set_worker (w : nat) (st : worker) (p : Pool) : Pool :=
  mkPool (tasks p) (tasksClosed p) (closed p) (submitters p) (<[w := st]> (workers p)) (done p)
    (completed p) (accepted p) (received p) (ran p) (outcomes p) (panicked p).

Definition returns (id : nat) (err : option error) (p : Pool) : Pool :=
  mkPool (tasks p) (tasksClosed p) (closed p) (delete id (submitters p)) (workers p) (done p)
    (completed p) (accepted p) (received p) (ran p) (outcomes p ++ [(id, err)]) (panicked p).

(** [p.tasks <- item]: straight to a waiting worker, or into the buffer. *)
Definition send (direct : option nat) (item : poolTask) (p : Pool) : option Pool :=
  if tasksClosed p then
    Some (mkPool (tasks p) true (closed p) (submitters p) (workers p) (done p) (completed p)
            (accepted p) (received p) (ran p) (outcomes p) true)
  else
    match direct with
    | Some w =>
        match tasks p, workers p !! w with
        | [], Some Idle =>
            Some (mkPool [] false (closed p) (submitters p) (<[w := Received item]> (workers p)) (done p)
                    (completed p) (accepted p ++ [future item]) (received p ++ [future item]) (ran p)
                    (outcomes p) (panicked p))
        | _, _ => None
        end
    | None =>
        if length (tasks p) <? size then
          Some (mkPool (tasks p ++ [item]) false (closed p) (submitters p) (workers p) (done p)
                  (completed p) (accepted p ++ [future item]) (received p) (ran p) (outcomes p) (panicked p))
        else None
    end.

(** [Submit] up to its select, at the [n]-th look at its context. *)
Definition Submit_enter (ctx : context) (n id : nat) (has_task : bool) (p : Pool) : Pool :=
  if negb has_task then returns id (Some ErrNilTask) p
  else
    match Cause ctx n with
    | Some err => returns id (Some err) p
    | None =>
        if closed p then returns id (Some ErrPoolClosed) p
        else mkPool (tasks p) (tasksClosed p) (closed p) (<[id := mkTask ctx id]> (submitters p))
               (workers p) (done p) (completed p) (accepted p) (received p) (ran p) (outcomes p) (panicked p)
    end.

(** The cases of its select. *)
Definition Submit_send (direct : option nat) (id : nat) (p : Pool) : option Pool :=
  item ← submitters p !! id; p ← send direct item p; Some (returns id None p).

Definition Submit_closed (id : nat) (p : Pool) : option Pool :=
  _ ← submitters p !! id; if closed p then Some (returns id (Some ErrPoolClosed) p) else None.

Definition Submit_done (id n : nat) (p : Pool) : option Pool :=
  item ← submitters p !! id; cause ← Cause (tctx item) n; Some (returns id (Some cause) p).

(** [SubmitValue] wraps the task, and is [Submit] otherwise. *)
Definition SubmitValue_enter (ctx : context) (n id : nat) (has_fn : bool) (p : Pool) : Pool :=
  if negb has_fn then returns id (Some (ErrWrapf "SubmitValue" ErrNilFunc)) p
  else Submit_enter ctx n id true p.

(** [TrySubmit] holds the mutex throughout. *)
Definition TrySubmit (ctx : context) (n id : nat) (has_task : bool) (direct : option nat) (p : Pool)
    : option Pool :=
  if negb has_task then Some (returns id (Some ErrNilTask) p)
  else
    match Cause ctx n with
    | Some err => Some (returns id (Some err) p)
    | None =>
        if closed p then Some (returns id (Some ErrPoolClosed) p)
        else
          match direct with
          | Some _ => p ← send direct (mkTask ctx id) p; Some (returns id None p)
          | None =>
              Some (match send None (mkTask ctx id) p with
                    | Some p => returns id None p
                    | None => returns id (Some ErrPoolFull) p
                    end)
          end
    end.

(** [Execute], given what its submission and its wait return. *)
Definition Execute (submitted : option error) (wait : option (option error)) : option (option error) :=
  match submitted with
  | Some err => Some (Some err)
  | None => wait
  end.

Definition stop (p : Pool) : Pool :=
  mkPool (tasks p) (tasksClosed p) true (submitters p) (workers p) (done p) (completed p) (accepted p)
    (received p) (ran p) (outcomes p) (panicked p).

(** What [Shutdown] returns after [stop], from its first and its last look at
    [done]. *)
Definition Shutdown_wait (before after : bool) (cause : option error) : option (option error) :=
  if before || after then Some None else Some <$> cause.

(** The goroutine that [stop] starts. *)
Definition close_tasks (p : Pool) : option Pool :=
  if closed p && negb (tasksClosed p) && bool_decide (submitters p = ∅) then
    Some (mkPool (tasks p) true true (submitters p) (workers p) (done p) (completed p) (accepted p)
            (received p) (ran p) (outcomes p) (panicked p))
  else None.

Definition close_done (p : Pool) : option Pool :=
  if tasksClosed p && negb (done p) && forallb (fun w => match w with Exited => true | _ => false end) (workers p)
  then
    Some (mkPool (tasks p) (tasksClosed p) (closed p) (submitters p) (workers p) true (completed p)
            (accepted p) (received p) (ran p) (outcomes p) (panicked p))
  else None.

(** The turns of [work]. *)
Definition work_receive (w : nat) (p : Pool) : option Pool :=
  match workers p !! w, tasks p with
  | Some Idle, item :: rest =>
      Some (mkPool rest (tasksClosed p) (closed p) (submitters p) (<[w := Received item]> (workers p)) (done p)
              (completed p) (accepted p) (received p ++ [future item]) (ran p) (outcomes p) (panicked p))
  | _, _ => None
  end.

Definition work_exit (w : nat) (p : Pool) : option Pool :=
  match workers p !! w, tasks p with
  | Some Idle, [] => if tasksClosed p then Some (set_worker w Exited p) else None
  | _, _ => None
  end.

(** [future.complete]: closing [done] twice panics. *)
Definition complete (id : nat) (c : completion) (p : Pool) : Pool :=
  mkPool (tasks p) (tasksClosed p) (closed p) (submitters p) (workers p) (done p)
    (completed p ++ [(id, c)]) (accepted p) (received p) (ran p) (outcomes p)
    (panicked p || bool_decide (id ∈ (completed p).*1)).

(** [execute] up to the call of the task, and after it. *)
Definition execute_check (w n : nat) (p : Pool) : option Pool :=
  match workers p !! w with
  | Some (Received item) =>
      Some (match Cause (tctx item) n with
            | Some err => set_worker w Idle (complete (future item) (Skipped err) p)
            | None =>
                mkPool (tasks p) (tasksClosed p) (closed p) (submitters p) (<[w := Running item]> (workers p))
                  (done p) (completed p) (accepted p) (received p) (ran p ++ [future item]) (outcomes p)
                  (panicked p)
            end)
  | _ => None
  end.

Definition execute_finish (w : nat) (v : V) (err : option error) (p : Pool) : option Pool :=
  match workers p !! w with
  | Some (Running item) => Some (set_worker w Idle (complete (future item) (Ran v err) p))
  | _ => None
  end.

Inductive action :=
| CallSubmit (ctx : context) (n id : nat) (has_task : bool)
| CallSubmitValue (ctx : context) (n id : nat) (has_fn : bool)
| CallTry (ctx : context) (n id : nat) (has_task : bool) (direct : option nat)
| Stop
| Send (direct : option nat) (id : nat) | SeesClosed (id : nat) | SeesDone (id n : nat)
| CloseTasks | CloseDone
| Receive (w : nat) | Exit (w : nat) | Check (w n : nat) | Finish (w : nat) (v : V) (err : option error).

(** [id] names a call that has been made already. *)
Definition used (id : nat) (p : Pool) : bool :=
  bool_decide (is_Some (submitters p !! id)) || bool_decide (id ∈ (outcomes p).*1).

Definition step (a : action) (p : Pool) : option Pool :=
  match a with
  | CallSubmit ctx n id t => if used id p then None else Some (Submit_enter ctx n id t p)
  | CallSubmitValue ctx n id t => if used id p then None else Some (SubmitValue_enter ctx n id t p)
  | CallTry ctx n id t direct => if used id p then None else TrySubmit ctx n id t direct p
  | Stop => Some (stop p)
  | Send direct id => Submit_send direct id p
  | SeesClosed id => Submit_closed id p
  | SeesDone id n => Submit_done id n p
  | CloseTasks => close_tasks p
  | CloseDone => close_done p
  | Receive w => work_receive w p
  | Exit w => work_exit w p
  | Check w n => execute_check w n p
  | Finish w v err => execute_finish w v err p
  end.

Fixpoint steps (l : list action) (p : Pool) : option Pool :=
  match l with
  | [] => Some p
  | a :: l => p ← step a p; steps l p
  end.
End Pool.

Arguments completion : clear implicits.
Arguments Pool : clear implicits.
Arguments action : clear implicits.

(** ** The invariant *)

Section Invariant.
Context {V : Type} (size n : nat).

(** The tasks a worker has, and those it is running. *)
Definition hand (w : worker) : list nat :=
  match w with Received it | Running it => [future it] | _ => [] end.
Definition calling (w : worker) : list nat :=
  match w with Running it => [future it] | _ => [] end.

(** The tasks that were called, among the completed ones. *)
Definition ran_ids (l : list (nat * completion V)) : list nat :=
  omap (fun p => match p.2 with Ran _ _ => Some p.1 | Skipped _ => None end) l.

(** The submissions that succeeded. *)
Definition granted (l : list (nat * option error)) : list nat :=
  omap (fun p => match p.2 with None => Some p.1 | Some _ => None end) l.

Record pinv (p : Pool V) : Prop := {
  p_panic : panicked p = false;
  p_acc : accepted p = received p ++ (future <$> tasks p);
  p_hand : Permutation (received p) ((workers p ≫= hand) ++ (completed p).*1);
  p_ran : Permutation (ran p) ((workers p ≫= calling) ++ ran_ids (completed p));
  p_nodup : NoDup (outcomes p).*1;
  p_sub : forall id it, submitters p !! id = Some it -> future it = id /\ id ∉ (outcomes p).*1;
  p_out : accepted p = granted (outcomes p);
  p_closed : tasksClosed p = true -> closed p = true /\ submitters p = ∅;
  p_size : length (tasks p) <= size;
  p_workers : length (workers p) = n;
  p_exit : forall w, workers p !! w = Some Exited -> tasksClosed p = true /\ tasks p = [];
  p_done : done p = true -> tasksClosed p = true /\ forall w st, workers p !! w = Some st -> st = Exited
}.

Lemma granted_snoc l id e :
  granted (l ++ [(id, e)]) = granted l ++ match e with None => [id] | Some _ => [] end.
Proof. unfold granted. rewrite omap_app. by destruct e. Qed.

Lemma granted_sub l : granted l `sublist_of` l.*1.
Proof. induction l as [|[id [e|]] l IH]; simpl; by constructor. Qed.

Lemma accepted_nodup p : pinv p -> NoDup (accepted p).
Proof. intros H. rewrite (p_out _ H). eapply sublist_NoDup; [apply (p_nodup _ H)|apply granted_sub]. Qed.

Lemma unused_id id (p : Pool V) : used id p = false -> submitters p !! id = None /\ id ∉ (outcomes p).*1.
Proof.
  unfold used. rewrite orb_false_iff, !bool_decide_eq_false, <- eq_None_not_Some. done.
Qed.

Lemma outcomes_snoc p id e : pinv p -> id ∉ (outcomes p).*1 -> NoDup (outcomes p ++ [(id, e)]).*1.
Proof.
  intros H Hid. rewrite fmap_app. apply NoDup_app. split; [apply (p_nodup _ H)|]. simpl.
  split; [intros x Hx ->%list_elem_of_singleton; done|apply NoDup_singleton].
Qed.

Lemma sub_after p id id' it e :
  pinv p -> delete id (submitters p) !! id' = Some it -> future it = id' /\ id' ∉ (outcomes p ++ [(id, e)]).*1.
Proof.
  intros H [Hne Hl]%lookup_delete_Some. destruct (p_sub _ H _ _ Hl) as [Hf Hn]. split; [done|].
  rewrite fmap_app, elem_of_app. by intros [?| ->%list_elem_of_singleton].
Qed.

(** A submission that is refused. *)
Lemma returns_pinv p id err : pinv p -> id ∉ (outcomes p).*1 -> pinv (returns id (Some err) p).
Proof.
  intros H Hid. constructor; cbn [returns panicked accepted received tasks workers completed ran outcomes
    submitters tasksClosed closed done]; try apply H.
  - by apply outcomes_snoc.
  - intros id' it. by apply sub_after.
  - rewrite granted_snoc, app_nil_r. apply H.
  - intros Hc. apply H in Hc as [? ->]. by rewrite delete_empty.
Qed.

(** A submission that is accepted. *)
Lemma send_pinv p direct id ctx p' :
  pinv p -> id ∉ (outcomes p).*1 -> tasksClosed p = false -> send size direct (mkTask ctx id) p = Some p' ->
  pinv (returns id None p').
Proof.
  intros H Hid Hopen. unfold send. rewrite Hopen. destruct direct as [w|].
  - destruct (tasks p) as [|t ts] eqn:Et; [|done]. destruct (workers p !! w) as [[]|] eqn:Ew; try done.
    intros [= <-]. pose proof (bind_insert_perm hand _ _ _ (Received (mkTask ctx id)) Ew) as Hh.
    pose proof (bind_insert_perm calling _ _ _ (Received (mkTask ctx id)) Ew) as Hr. simpl in Hh, Hr.
    constructor; cbn; try apply H.
    + rewrite (p_acc _ H), Et, !app_nil_r. done.
    + rewrite (p_hand _ H), Hh. by rewrite <- Permutation_cons_append.
    + rewrite Hr. apply H.
    + by apply outcomes_snoc.
    + intros id' it. by apply sub_after.
    + rewrite granted_snoc. f_equal. apply H.
    + done.
    + lia.
    + rewrite length_insert. apply H.
    + intros w'. rewrite list_lookup_insert_Some. intros [(_ & ? & _)|[_ Hx]]; [done|].
      apply (p_exit _ H) in Hx as [Hx _]. congruence.
    + intros Hd. apply H in Hd as [Hd _]. congruence.
  - destruct (Nat.ltb_spec (length (tasks p)) size); [|done]. intros [= <-]. constructor; cbn; try apply H.
    + rewrite (p_acc _ H), fmap_app, (assoc_L (++)). done.
    + by apply outcomes_snoc.
    + intros id' it. by apply sub_after.
    + rewrite granted_snoc. f_equal. apply H.
    + done.
    + rewrite length_app. simpl. lia.
    + intros w' Hx. apply (p_exit _ H) in Hx as [Hx _]. congruence.
    + intros Hd. apply H in Hd as [Hd _]. congruence.
Qed.

Lemma open_tasks p : pinv p -> closed p = false -> tasksClosed p = false.
Proof. intros H Hc. destruct (tasksClosed p) eqn:E; [|done]. apply H in E as [? _]. congruence. Qed.

Lemma sub_open p id it : pinv p -> submitters p !! id = Some it -> tasksClosed p = false.
Proof.
  intros H Hl. destruct (tasksClosed p) eqn:E; [|done]. apply H in E as [_ E]. rewrite E in Hl. done.
Qed.

(** The calls. *)
Lemma enter_pinv ctx k id t p : pinv p -> used id p = false -> pinv (Submit_enter ctx k id t p).
Proof.
  intros H [Hs Hid]%unused_id. unfold Submit_enter. destruct t; simpl; [|by apply returns_pinv].
  destruct (Cause ctx k); [by apply returns_pinv|]. destruct (closed p) eqn:Ec; [by apply returns_pinv|].
  constructor; cbn; try apply H.
  - intros id' it. rewrite lookup_insert_Some. intros [[<- <-]|[_ Hl]]; [done|]. by apply (p_sub _ H).
  - intros Ht. rewrite (open_tasks _ H Ec) in Ht. done.
Qed.

Lemma try_pinv ctx k id t direct p p' :
  pinv p -> used id p = false -> TrySubmit size ctx k id t direct p = Some p' -> pinv p'.
Proof.
  intros H [Hs Hid]%unused_id. unfold TrySubmit.
  destruct t; simpl; [|intros [= <-]; by apply returns_pinv].
  destruct (Cause ctx k); [intros [= <-]; by apply returns_pinv|].
  destruct (closed p) eqn:Ec; [intros [= <-]; by apply returns_pinv|]. pose proof (open_tasks _ H Ec) as Ho.
  destruct direct as [w|].
  - destruct (send _ _ _ _) as [q|] eqn:E; [|done]. intros [= <-]. by eapply send_pinv.
  - destruct (send _ _ _ _) as [q|] eqn:E; intros [= <-]; [by eapply send_pinv|by apply returns_pinv].
Qed.
(** Other workers are where they were. *)
Lemma worker_not_exited p w st0 st w' :
  pinv p -> workers p !! w = Some st0 -> st <> Exited ->
  <[w := st]> (workers p) !! w' = Some Exited -> tasksClosed p = true /\ tasks p = [].
Proof.
  intros H Hw Hst. rewrite list_lookup_insert_Some. intros [(_ & ? & _)|[_ Hx]]; [done|]. by apply (p_exit _ H w').
Qed.

Lemma not_done p w st : pinv p -> workers p !! w = Some st -> st <> Exited -> done p = false.
Proof.
  intros H Hw Hst. destruct (done p) eqn:E; [|done]. apply H in E as [_ E]. by apply E in Hw.
Qed.

(** The worker [w] completes the task it has. *)
Lemma complete_pinv p w st0 id c :
  pinv p -> workers p !! w = Some st0 -> hand st0 = [id] ->
  calling st0 = ran_ids [(id, c)] ->
  pinv (set_worker w Idle (complete id c p)).
Proof.
  intros H Hw Hh Hc.
  pose proof (bind_insert_perm hand _ _ _ Idle Hw) as Hp1. rewrite Hh in Hp1. simpl in Hp1.
  pose proof (bind_insert_perm calling _ _ _ Idle Hw) as Hp2. rewrite Hc in Hp2. simpl in Hp2.
  assert (Hfresh : id ∉ (completed p).*1).
  { pose proof (accepted_nodup _ H) as Hnd. rewrite (p_acc _ H), (p_hand _ H), <- Hp1 in Hnd.
    simpl in Hnd. apply NoDup_cons in Hnd as [Hn _]. intros Hin. apply Hn. rewrite !elem_of_app. by auto. }
  assert (Hdone : done p = false).
  { apply (not_done _ _ _ H Hw). by intros ->. }
  constructor; cbn; try apply H.
  - rewrite (p_panic _ H). by rewrite bool_decide_false.
  - rewrite (p_hand _ H), <- Hp1, fmap_app. simpl. rewrite (assoc_L (++)), <- Permutation_cons_append.
    done.
  - rewrite (p_ran _ H), <- Hp2. unfold ran_ids. rewrite omap_app, (assoc_L (++)). rewrite (Permutation_app_comm _ (omap _ [_])).
    by rewrite (assoc_L (++)).
  - rewrite length_insert. apply H.
  - intros w'. by eapply worker_not_exited.
  - congruence.
Qed.

Lemma check_pinv p w k p' : pinv p -> execute_check w k p = Some p' -> pinv p'.
Proof.
  intros H. unfold execute_check. destruct (workers p !! w) as [[|it| |]|] eqn:Hw; try done.
  destruct (Cause (tctx it) k) as [err|]; intros [= <-]; [by eapply complete_pinv|].
  pose proof (bind_insert_perm hand _ _ _ (Running it) Hw) as Hp1. apply (Permutation_app_inv_l [future it]) in Hp1.
  pose proof (bind_insert_perm calling _ _ _ (Running it) Hw) as Hp2. simpl in Hp2.
  assert (Hdone : done p = false) by (by apply (not_done _ _ _ H Hw)).
  constructor; cbn; try apply H.
  - rewrite Hp1. apply H.
  - rewrite Hp2, <- Permutation_cons_append. by rewrite (p_ran _ H).
  - rewrite length_insert. apply H.
  - intros w'. by eapply worker_not_exited.
  - congruence.
Qed.

Lemma receive_pinv p w p' : pinv p -> work_receive w p = Some p' -> pinv p'.
Proof.
  intros H. unfold work_receive. destruct (workers p !! w) as [[]|] eqn:Hw; try done.
  destruct (tasks p) as [|it rest] eqn:Et; [done|]. intros [= <-].
  pose proof (bind_insert_perm hand _ _ _ (Received it) Hw) as Hp1. simpl in Hp1.
  pose proof (bind_insert_perm calling _ _ _ (Received it) Hw) as Hp2. simpl in Hp2.
  assert (Hdone : done p = false) by (by apply (not_done _ _ _ H Hw)).
  constructor; cbn; try apply H.
  - rewrite (p_acc _ H), Et, <- (assoc_L (++)). done.
  - rewrite Hp1, <- Permutation_cons_append. by rewrite (p_hand _ H).
  - rewrite Hp2. apply H.
  - pose proof (p_size _ H) as Hs. rewrite Et in Hs. simpl in Hs. lia.
  - rewrite length_insert. apply H.
  - intros w' Hx. eapply worker_not_exited in Hx as [_ Hx]; [|done..]. congruence.
  - congruence.
Qed.

Lemma exit_pinv p w p' : pinv p -> work_exit w p = Some p' -> pinv p'.
Proof.
  intros H. unfold work_exit. destruct (workers p !! w) as [[]|] eqn:Hw; try done.
  destruct (tasks p) as [|it rest] eqn:Et; [|done]. destruct (tasksClosed p) eqn:Ec; [|done]. intros [= <-].
  pose proof (bind_insert_perm hand _ _ _ Exited Hw) as Hp1. simpl in Hp1.
  pose proof (bind_insert_perm calling _ _ _ Exited Hw) as Hp2. simpl in Hp2.
  assert (Hdone : done p = false) by (by apply (not_done _ _ _ H Hw)).
  constructor; cbn; try apply H.
  - rewrite Hp1. apply H.
  - rewrite Hp2. apply H.
  - rewrite length_insert. apply H.
  - done.
  - congruence.
Qed.

Lemma step_pinv a p p' : pinv p -> step size a p = Some p' -> pinv p'.
Proof.
  intros H. destruct a; cbn [step].
  - destruct (used id p) eqn:Eu; [done|]. intros [= <-]. by apply enter_pinv.
  - destruct (used id p) eqn:Eu; [done|]. intros [= <-]. unfold SubmitValue_enter.
    destruct has_fn; simpl; [by apply enter_pinv|]. apply returns_pinv; [done|]. by apply unused_id.
  - destruct (used id p) eqn:Eu; [done|]. by apply try_pinv.
  - intros [= <-]. constructor; cbn; try apply H. intros Ht. by apply H in Ht as [_ ?].
  - unfold Submit_send. destruct (submitters p !! id) as [[ctx f]|] eqn:Es; [|done]. simpl.
    destruct (p_sub _ H _ _ Es) as [Hf Hid]. simpl in Hf. subst f.
    destruct (send _ _ _ _) as [q|] eqn:E; [|done]. intros [= <-]. eapply send_pinv; [done..| |done].
    by eapply sub_open.
  - unfold Submit_closed. destruct (submitters p !! id) as [it|] eqn:Es; [|done]. simpl.
    destruct (closed p); [|done]. intros [= <-]. apply returns_pinv; [done|]. by apply (p_sub _ H _ _ Es).
  - unfold Submit_done. destruct (submitters p !! id) as [it|] eqn:Es; [|done]. simpl.
    destruct (Cause _ _) as [e|]; [|done]. intros [= <-]. apply returns_pinv; [done|]. by apply (p_sub _ H _ _ Es).
  - unfold close_tasks. destruct (closed p) eqn:Ec; [|done]. destruct (tasksClosed p) eqn:Et; [done|]. simpl.
    case_bool_decide as Hs; [|done]. intros [= <-]. constructor; cbn; try apply H; [done| |].
    + intros w Hw. apply (p_exit _ H) in Hw as [Hw _]. congruence.
    + intros Hd. apply H in Hd as [Hd _]. congruence.
  - unfold close_done. destruct (tasksClosed p) eqn:Et; [|done]. destruct (done p) eqn:Ed; [done|]. simpl.
    destruct (forallb _ _) eqn:Ew; [|done]. intros [= <-]. constructor; cbn; try apply H.
    + intros _. by apply H in Et.
    + intros w Hw. by apply (p_exit _ H) in Hw as [_ ?].
    + intros _. split; [done|]. intros w st Hw. rewrite forallb_forall in Ew.
      assert (Hx := Ew st (proj1 (list_elem_of_In _ _) (list_elem_of_lookup_2 _ w _ Hw))). by destruct st.
  - by apply receive_pinv.
  - by apply exit_pinv.
  - by apply check_pinv.
  - unfold execute_finish. destruct (workers p !! w) as [[| |it|]|] eqn:Hw; try done. intros [= <-].
    by eapply complete_pinv.
Qed.

Lemma steps_pinv l p p' : pinv p -> steps size l p = Some p' -> pinv p'.
Proof.
  revert p. induction l as [|a l IH]; intros p H; cbn [steps]; [by intros [= <-]|].
  destruct (step size a p) as [q|] eqn:E; [|done]. intros Hs. eapply IH; [|exact Hs]. by eapply step_pinv.
Qed.
End Invariant.

(** ** Properties *)

Lemma newPoolConfig_nonneg k options : (0 <= k)%Z -> (0 <= queueSize (newPoolConfig k options))%Z.
Proof.
  intros Hk. unfold newPoolConfig. assert (Hc : (0 <= queueSize (mkPoolConfig k))%Z) by done. revert Hc.
  generalize (mkPoolConfig k). induction options as [|[z] options IH]; intros c Hc; simpl; [done|].
  apply IH. bcase; simpl; lia.
Qed.

Lemma new_pinv {V} k options p size :
  NewPool (V := V) k options = Some (p, size) -> pinv size (Z.to_nat k) p.
Proof.
  unfold NewPool. bcase; [done|]. intros [= <- <-].
  assert (Hb : forall f : worker -> list nat, f Idle = [] -> replicate (Z.to_nat k) Idle ≫= f = []).
  { intros f Hf. induction (Z.to_nat k) as [|m IH]; [done|]. simpl. by rewrite Hf. }
  constructor; cbn; try done; try lia.
  - by rewrite Hb.
  - by rewrite Hb.
  - apply NoDup_nil_2.
  - apply length_replicate.
  - intros w Hw. by apply lookup_replicate in Hw as [? _].
Qed.

(** Once [done] is closed, nothing is left to do. *)
Lemma pinv_done {V} size n (p : Pool V) :
  0 < n -> pinv size n p -> done p = true -> Permutation (accepted p) (completed p).*1 /\ submitters p = ∅.
Proof.
  intros Hn H Hd. destruct (p_done _ _ _ H Hd) as [Hc Hw]. destruct (p_closed _ _ _ H Hc) as [_ Hsub]. split; [|done].
  assert (Hall : forall ws, (forall i st, ws !! i = Some st -> st = Exited) -> ws ≫= hand = []).
  { induction ws as [|w ws IH]; intros Hx; [done|]. rewrite bind_cons, (Hx 0 w eq_refl), IH; [done|].
    intros i st Hi. by apply (Hx (S i)). }
  rewrite (p_acc _ _ _ H), (p_hand _ _ _ H), (Hall _ Hw).
  destruct (workers p) as [|w ws] eqn:Ew.
  + pose proof (p_workers _ _ _ H) as Hl. rewrite Ew in Hl. simpl in Hl. lia.
  + destruct (p_exit _ _ _ H 0) as [_ ->]; [|by rewrite app_nil_r]. rewrite Ew. simpl.
    f_equal. by apply (Hw 0).
Qed.

(** C16: the pool under every interleaving of submitters, workers and shutdown.
    It never sends on or closes a closed channel; accepted tasks are taken in the
    order they were accepted, and each is waiting, with a worker, or completed
    once; exactly those with a worker past its check or completed by running were
    called, each once; a task is accepted exactly when its submission returned a
    future; at most the configured number run and wait; and once [done] is
    closed every accepted task is complete. *)
Theorem pool_safety {V} k options (p0 p : Pool V) size l :
  NewPool k options = Some (p0, size) -> steps size l p0 = Some p ->
  panicked p = false /\
  accepted p = received p ++ (future <$> tasks p) /\ NoDup (accepted p) /\
  Permutation (received p) ((workers p ≫= hand) ++ (completed p).*1) /\
  Permutation (ran p) ((workers p ≫= calling) ++ ran_ids (completed p)) /\
  (forall id, id ∈ accepted p <-> (id, None) ∈ outcomes p) /\
  (Z.of_nat (length (workers p ≫= hand)) <= k)%Z /\
  (Z.of_nat (length (tasks p)) <= queueSize (newPoolConfig k options))%Z /\
  (done p = true -> Permutation (accepted p) (completed p).*1 /\ submitters p = ∅).
Proof.
  intros Hnew Hs. assert (Hk : (0 < k)%Z) by (unfold NewPool in Hnew; bcase; [done|lia]).
  assert (Hsize : size = Z.to_nat (queueSize (newPoolConfig k options)))
    by (unfold NewPool in Hnew; bcase; congruence).
  pose proof (newPoolConfig_nonneg k options ltac:(lia)) as Hq.
  assert (H : pinv size (Z.to_nat k) p) by (eapply steps_pinv; [by eapply new_pinv|done]).
  split_and!; try apply H.
  - by apply (accepted_nodup size (Z.to_nat k)).
  - intros id. rewrite (p_out _ _ _ H). unfold granted. rewrite list_elem_of_omap. split.
    + by intros ([id' [e|]] & Hin & [= <-]).
    + intros Hin. by exists (id, None).
  - assert (Hlen : forall ws, length (ws ≫= hand) <= length ws).
    { induction ws as [|w ws IH]; [done|]. rewrite bind_cons, length_app. destruct w; simpl; lia. }
    specialize (Hlen (workers p)). rewrite (p_workers _ _ _ H) in Hlen. lia.
  - pose proof (p_size _ _ _ H). lia.
  - intros Hd. by apply (pinv_done size (Z.to_nat k)); [lia| |].
Qed.

(** ** Shutdown *)

Section Drain.
Context {V : Type} (size n : nat).

(** What goes on by itself: everything but new calls. *)
Definition internal (a : action V) : bool :=
  match a with CallSubmit _ _ _ _ | CallSubmitValue _ _ _ _ | CallTry _ _ _ _ _ | Stop => false | _ => true end.

Definition weight (w : worker) : nat :=
  match w with Received _ => 3 | Running _ => 2 | Idle => 1 | Exited => 0 end.

(** The calls inside [Submit]. *)
Definition pending (p : Pool V) : nat := length (map_to_list (submitters p)).

Definition measure (p : Pool V) : nat :=
  5 * pending p + 4 * length (tasks p) + sum_list_with weight (workers p)
  + (if tasksClosed p then 0 else 1) + (if done p then 0 else 1).

Lemma pending_delete id it (p : Pool V) :
  submitters p !! id = Some it -> pending p = S (length (map_to_list (delete id (submitters p)))).
Proof. intros Hl. unfold pending. by rewrite <- (map_to_list_delete _ _ _ Hl). Qed.

Lemma send_measure p id it direct p' :
  tasksClosed p = false -> submitters p !! id = Some it -> send size direct it p = Some p' ->
  measure (returns id None p') < measure p.
Proof.
  intros Hc Hl. unfold send. rewrite Hc. unfold measure at 2. rewrite (pending_delete _ _ _ Hl), Hc.
  destruct direct as [w|].
  - destruct (tasks p); [|done]. destruct (workers p !! w) as [[]|] eqn:Hw; try done. intros [= <-].
    pose proof (sum_list_with_insert weight _ _ _ (Received it) Hw) as Hsum. simpl in Hsum.
    unfold measure, pending. cbn [returns submitters tasks workers tasksClosed done length]. lia.
  - destruct (_ <? _); [|done]. intros [= <-]. unfold measure, pending.
    cbn [returns submitters tasks workers tasksClosed done]. rewrite length_app. simpl. lia.
Qed.

Lemma returns_measure p id it e :
  submitters p !! id = Some it -> measure (returns id e p) < measure p.
Proof.
  intros Hl. unfold measure at 2. rewrite (pending_delete _ _ _ Hl). unfold measure, pending.
  cbn [returns submitters tasks workers tasksClosed done]. lia.
Qed.

Lemma step_measure a p p' :
  pinv size n p -> internal a = true -> step size a p = Some p' -> measure p' < measure p.
Proof.
  intros H. destruct a; cbn [internal step]; try done; intros _.
  - unfold Submit_send. destruct (submitters p !! id) as [it|] eqn:Es; [|done]. simpl.
    destruct (send _ _ _ _) as [q|] eqn:E; [|done]. intros [= <-]. eapply send_measure; [|done..].
    by eapply sub_open.
  - unfold Submit_closed. destruct (submitters p !! id) as [it|] eqn:Es; [|done]. simpl.
    destruct (closed p); [|done]. intros [= <-]. by eapply returns_measure.
  - unfold Submit_done. destruct (submitters p !! id) as [it|] eqn:Es; [|done]. simpl.
    destruct (Cause _ _); [|done]. intros [= <-]. by eapply returns_measure.
  - unfold close_tasks. destruct (closed p); [|done]. destruct (tasksClosed p) eqn:Et; [done|].
    simpl. case_bool_decide; [|done]. intros [= <-]. unfold measure. rewrite Et. simpl. unfold pending. simpl. lia.
  - unfold close_done. destruct (tasksClosed p) eqn:Et; [|done]. destruct (done p) eqn:Ed; [done|]. simpl.
    destruct (forallb _ _); [|done]. intros [= <-]. unfold measure, pending. simpl. rewrite Et, Ed. lia.
  - unfold work_receive. destruct (workers p !! w) as [[]|] eqn:Hw; try done.
    destruct (tasks p) as [|it rest] eqn:Et; [done|]. intros [= <-].
    pose proof (sum_list_with_insert weight _ _ _ (Received it) Hw) as Hsum. simpl in Hsum.
    unfold measure, pending. rewrite Et. simpl. lia.
  - unfold work_exit. destruct (workers p !! w) as [[]|] eqn:Hw; try done.
    destruct (tasks p) eqn:Et; [|done]. destruct (tasksClosed p); [|done]. intros [= <-].
    pose proof (sum_list_with_insert weight _ _ _ Exited Hw) as Hsum. simpl in Hsum.
    unfold measure, pending. simpl. lia.
  - unfold execute_check. destruct (workers p !! w) as [[|it| |]|] eqn:Hw; try done.
    pose proof (fun st => sum_list_with_insert weight _ _ _ st Hw) as Hsum. simpl in Hsum.
    destruct (Cause _ _); intros [= <-]; unfold measure, pending; simpl.
    + specialize (Hsum Idle). simpl in Hsum. lia.
    + specialize (Hsum (Running it)). simpl in Hsum. lia.
  - unfold execute_finish. destruct (workers p !! w) as [[| |it|]|] eqn:Hw; try done. intros [= <-].
    pose proof (sum_list_with_insert weight _ _ _ Idle Hw) as Hsum. simpl in Hsum. unfold measure, pending. simpl. lia.
Qed.

(** Until [done] is closed, something can go on. *)
Lemma drain_progress (v0 : V) p :
  pinv size n p -> closed p = true ->
  done p = true \/ exists a q, internal a = true /\ step size a p = Some q.
Proof.
  intros H Hc. destruct (done p) eqn:Ed; [by left|]. right.
  destruct (decide (submitters p = ∅)) as [Hs|[id [it Hl]]%map_choose].
  2: { exists (SeesClosed id). simpl. unfold Submit_closed. rewrite Hl, Hc. simpl. by eauto. }
  destruct (tasksClosed p) eqn:Et.
  2: { exists CloseTasks. simpl. unfold close_tasks. rewrite Hc, Et. simpl. rewrite bool_decide_true by done. by eauto. }
  destruct (forallb (fun w => match w with Exited => true | _ => false end) (workers p)) eqn:Ew.
  { exists CloseDone. simpl. unfold close_done. rewrite Et, Ed, Ew. simpl. by eauto. }
  assert (Hex : exists w st, workers p !! w = Some st /\ st <> Exited).
  { clear -Ew. induction (workers p) as [|x ws IH]; [done|]. simpl in Ew.
    destruct x as [| | |]; [by exists 0; eauto..|]. destruct (IH Ew) as (w & st & Hw & Hst). by exists (S w), st. }
  destruct Hex as (w & st & Hw & Hst). destruct st as [|it|it|]; [..|done].
  - destruct (tasks p) as [|it rest] eqn:Ets.
    + exists (Exit w). simpl. unfold work_exit. rewrite Hw, Ets, Et. by eauto.
    + exists (Receive w). simpl. unfold work_receive. rewrite Hw, Ets. by eauto.
  - exists (Check w 0). simpl. unfold execute_check. rewrite Hw. by eauto.
  - exists (Finish w v0 None). simpl. unfold execute_finish. rewrite Hw. by eauto.
Qed.
(** Completed futures never change, and a closed pool stays closed. *)
Definition grows (p q : Pool V) : Prop :=
  accepted p `prefix_of` accepted q /\ completed p `prefix_of` completed q /\
  (closed p = true -> closed q = true).

Lemma grows_returns id e p q : grows p q -> grows p (returns id e q).
Proof. done. Qed.

Lemma grows_refl p : grows p p.
Proof. by split_and!. Qed.

Lemma send_grows direct it p q : send size direct it p = Some q -> grows p q.
Proof.
  unfold send. destruct (tasksClosed p); [intros [= <-]; by split_and!|]. destruct direct as [w|].
  - destruct (tasks p), (workers p !! w) as [[]|]; try done. intros [= <-]. split_and!; [by eexists|done|done].
  - destruct (_ <? _); [|done]. intros [= <-]. split_and!; [by eexists|done|done].
Qed.

Lemma step_grows a p q : step size a p = Some q -> grows p q.
Proof.
  assert (Hs : forall direct it id e r, send size direct it p = Some r -> grows p (returns id e r))
    by (intros; by apply grows_returns, (send_grows direct it)).
  destruct a; cbn [step]; unfold Submit_enter, SubmitValue_enter, TrySubmit, Submit_enter, stop, Submit_send,
    Submit_closed, Submit_done, close_tasks, close_done, work_receive, work_exit, execute_check, execute_finish;
    intros E; repeat (case_match || simplify_option_eq); simplify_eq;
    first [by eauto|split_and!; [done|first [done|by eexists]|simpl; congruence]].
Qed.

Lemma steps_grow l p q : steps size l p = Some q -> grows p q.
Proof.
  revert p. induction l as [|a l IH]; intros p; cbn [steps]; [intros [= <-]; apply grows_refl|].
  destruct (step size a p) as [r|] eqn:E; [|done]. intros Hs. apply step_grows in E as (H1 & H2 & H3).
  apply IH in Hs as (H4 & H5 & H6). split_and!; [by etrans|by etrans|by auto].
Qed.

Lemma drain_steps l p q :
  pinv size n p -> Forall (fun a => internal a = true) l -> steps size l p = Some q ->
  length l + measure q <= measure p.
Proof.
  revert p. induction l as [|a l IH]; intros p H; cbn [steps]; [intros _ [= <-]; simpl; lia|].
  intros [Ha Hl]%Forall_cons. destruct (step size a p) as [r|] eqn:E; [|done]. intros Hs.
  pose proof (step_measure a p r H Ha E). apply IH in Hs; [|by eapply step_pinv|done]. simpl. lia.
Qed.
End Drain.

(** A pool that was shut down drains, however its goroutines are scheduled:
    unless [done] is closed something can go on (a task returns in the end), at
    most [measure] moves are possible without new calls, and when [done] is
    closed every task accepted before the shutdown is complete, with what its
    future had if it was complete already. *)
Theorem pool_drains {V} (v0 : V) k options (p0 p p' : Pool V) size l l' :
  NewPool k options = Some (p0, size) -> steps size l p0 = Some p -> closed p = true ->
  Forall (fun a => internal a = true) l' -> steps size l' p = Some p' ->
  length l' <= measure p /\
  (done p' = true \/ exists a q, internal a = true /\ step size a p' = Some q) /\
  (done p' = true -> forall id, id ∈ accepted p -> id ∈ (completed p').*1) /\
  completed p `prefix_of` completed p'.
Proof.
  intros Hnew Hs Hc Hl Hs'. assert (H : pinv size (Z.to_nat k) p) by (eapply steps_pinv; [by eapply new_pinv|done]).
  assert (H' : pinv size (Z.to_nat k) p') by (by eapply steps_pinv).
  pose proof (drain_steps _ _ _ _ _ H Hl Hs'). destruct (steps_grow _ _ _ _ Hs') as (Ha & Hcomp & Hcl).
  split; [lia|]. split; [by eapply drain_progress; eauto|]. split; [|done]. intros Hd id Hid.
  assert (Hk : (0 < k)%Z) by (unfold NewPool in Hnew; bcase; [done|lia]).
  destruct (pinv_done size (Z.to_nat k) p' ltac:(lia) H' Hd) as [<- _]. destruct Ha as [x ->].
  apply elem_of_app. by left.
Qed.

(** Two workers, a queue of one: a task runs, one waits, one is refused, one is
    canceled in the queue. *)
Definition demo_pool : Pool nat * nat :=
  default (mkPool [] false false ∅ [] false [] [] [] [] [] false, 0) (NewPool 2 [WithQueueSize 1]).
Definition canceled_later : context := fun k => if k =? 0 then None else Some (mkDone Canceled Canceled).
Definition demo_calls : list (action nat) :=
  [CallSubmit Background 0 1 true; Send (Some 0) 1; Check 0 0;
   CallTry Background 0 2 true (Some 1); Check 1 0;
   CallSubmitValue canceled_later 0 3 true; Send None 3; CallTry Background 0 4 true None; Stop].
Definition demo_drain : list (action nat) :=
  [CloseTasks; Finish 0 7 None; Receive 0; Check 0 1; Exit 0; Finish 1 8 (Some Canceled); Exit 1; CloseDone].
Definition demo_mid : Pool nat := default demo_pool.1 (steps 1 demo_calls demo_pool.1).
Definition demo_end : Pool nat := default demo_pool.1 (steps 1 demo_drain demo_mid).

Lemma demo_new : NewPool 2 [WithQueueSize 1] = Some (demo_pool.1, 1).
Proof. vm_compute. reflexivity. Qed.
Lemma demo_calls_run : steps 1 demo_calls demo_pool.1 = Some demo_mid.
Proof. vm_compute. reflexivity. Qed.
Lemma demo_drain_run : steps 1 demo_drain demo_mid = Some demo_end.
Proof. vm_compute. reflexivity. Qed.

Lemma pool_safety_witness : outcomes demo_mid = [(1, None); (2, None); (3, None); (4, Some ErrPoolFull)] /\
  Permutation (ran demo_mid) ((workers demo_mid ≫= calling) ++ ran_ids (completed demo_mid)).
Proof.
  split; [vm_compute; reflexivity|].
  exact (proj1 (proj2 (proj2 (proj2 (proj2 (pool_safety 2 _ _ _ 1 _ demo_new demo_calls_run)))))).
Defined.

Lemma pool_drains_witness : done demo_end = true /\ length demo_drain <= measure demo_mid /\
  completed demo_mid `prefix_of` completed demo_end.
Proof.
  assert (Hi : Forall (fun a => internal a = true) demo_drain) by (repeat (apply Forall_cons_2; [reflexivity|]); apply Forall_nil_2).
  assert (Hc : closed demo_mid = true) by (vm_compute; reflexivity).
  pose proof (pool_drains 0 2 _ _ _ _ 1 _ _ demo_new demo_calls_run Hc Hi demo_drain_run) as Hd.
  split; [vm_compute; reflexivity|]. split; [exact (proj1 Hd)|exact (proj2 (proj2 (proj2 Hd)))].
Defined.
