(* ===== verification/ParallelStream.v ===== *)
(** * Streams of concurrent calls: [src/parallel/stream.go]

    A stream is a transition system: producers send on the input channel and
    close it, workers take turns at the gate to receive a value and its index,
    call the function and deliver, consumers receive, and anyone may cancel.  The
    function is called at most once per input, so what it returns is given per
    index.  The inputs received, the results delivered and the inputs given up
    after a cancellation are the history the theorems speak of. *)

From S2P Require Import Prelude GoErrors.
From S2P Require Import Parallel.
From stdpp Require Import options.
Set Default Proof Using "Type*".

Definition ErrNilInput : error := ErrNew "parallel: input channel must not be nil".

Section Stream.
Context {T R : Type}.

Inductive worker :=
| AtGate                                   (* at the select on the gate *)
| Holding                                  (* has the gate, before its check *)
| Receiving                                (* at the select on the input *)
| Got (i : nat) (v : T)                    (* left [receive], before its check *)
| InFn (i : nat) (v : T)
| Delivering (i : nat) (r : R * option error)
| Exited.

(** [StreamResult] *)
Record StreamResult := mkStreamResult { Index : nat; Value : R; Err : option error }.

Record Stream := mkStream {
  input : list T;              (* sent and not yet received *)
  inputClosed : bool;
  next : nat;
  gate : option nat;           (* the worker that has it *)
  workers : list worker;
  cause : option error;        (* of the stream's context *)
  err : option (option error); (* the terminal error, once [done] is closed *)
  received : list T;           (* inputs, in order of receipt *)
  delivered : list StreamResult;
  lost : list nat              (* inputs without a delivered result *)
}.

Variable fn : nat -> T -> R * option error.

(** [MapStream]: the stream with its workers started, or an error. *)
Definition MapStream (ctx : context) (limit : Z) (has_fn has_input : bool) : Stream + error :=
  match validateLimit limit with
  | Some e => inr e
  | None =>
      if negb has_fn then inr (ErrWrapf "MapStream" ErrNilFunc)
      else if negb has_input then inr ErrNilInput
      else
        match Cause ctx 0 with
        | Some e => inr e
        | None => inl (mkStream [] false 0 None (replicate (Z.to_nat limit) AtGate) None None [] [] [])
        end
  end.

(** A worker moves on: its new state, the gate, and what is delivered or given
    up. *)
Definition move (w : nat) (st : worker) (g : option nat) (dl : list StreamResult) (ls : list nat) (s : Stream)
    : Stream :=
  mkStream (input s) (inputClosed s) (next s) g (<[w := st]> (workers s)) (cause s) (err s) (received s)
    (delivered s ++ dl) (lost s ++ ls).
Definition set_worker (w : nat) (st : worker) (g : option nat) (s : Stream) : Stream := move w st g [] [] s.
Definition leave (w : nat) (g : option nat) (ls : list nat) (s : Stream) : Stream := move w Exited g [] ls s.

(** The environment. *)
Definition produce (v : T) (s : Stream) : option Stream :=
  if inputClosed s then None
  else Some (mkStream (input s ++ [v]) false (next s) (gate s) (workers s) (cause s) (err s) (received s)
               (delivered s) (lost s)).

Definition close_input (s : Stream) : Stream :=
  mkStream (input s) true (next s) (gate s) (workers s) (cause s) (err s) (received s) (delivered s) (lost s).

Definition cancel (c : error) (s : Stream) : Stream :=
  mkStream (input s) (inputClosed s) (next s) (gate s) (workers s) (first_of (cause s) (Some c)) (err s)
    (received s) (delivered s) (lost s).

(** [receive]: the select on the gate, *)
Definition take_gate (w : nat) (s : Stream) : option Stream :=
  match workers s !! w, gate s with
  | Some AtGate, None => Some (set_worker w Holding (Some w) s)
  | _, _ => None
  end.
Definition gate_done (w : nat) (s : Stream) : option Stream :=
  match workers s !! w, cause s with
  | Some AtGate, Some _ => Some (leave w (gate s) [] s)
  | _, _ => None
  end.
(** the check of the context, *)
Definition gate_check (w : nat) (s : Stream) : option Stream :=
  match workers s !! w with
  | Some Holding =>
      Some (match cause s with
            | Some _ => leave w None [] s
            | None => set_worker w Receiving (gate s) s
            end)
  | _ => None
  end.
(** and the select on the input; leaving it gives the gate back. *)
Definition receive (w : nat) (s : Stream) : option Stream :=
  match workers s !! w with
  | Some Receiving =>
      match input s with
      | v :: rest =>
          Some (mkStream rest (inputClosed s) (S (next s)) None (<[w := Got (next s) v]> (workers s)) (cause s)
                  (err s) (received s ++ [v]) (delivered s) (lost s))
      | [] => if inputClosed s then Some (leave w None [] s) else None
      end
  | _ => None
  end.
Definition receive_done (w : nat) (s : Stream) : option Stream :=
  match workers s !! w, cause s with
  | Some Receiving, Some _ => Some (leave w None [] s)
  | _, _ => None
  end.

(** The rest of a worker's turn. *)
Definition call_fn (w : nat) (s : Stream) : option Stream :=
  match workers s !! w with
  | Some (Got i v) =>
      Some (match cause s with
            | Some _ => leave w (gate s) [i] s
            | None => set_worker w (InFn i v) (gate s) s
            end)
  | _ => None
  end.
Definition fn_returns (w : nat) (s : Stream) : option Stream :=
  match workers s !! w with
  | Some (InFn i v) => Some (set_worker w (Delivering i (fn i v)) (gate s) s)
  | _ => None
  end.
Definition deliver (w : nat) (s : Stream) : option Stream :=
  match workers s !! w with
  | Some (Delivering i r) =>
      Some (move w AtGate (gate s) [mkStreamResult i r.1 r.2] [] s)
  | _ => None
  end.
Definition deliver_done (w : nat) (s : Stream) : option Stream :=
  match workers s !! w, cause s with
  | Some (Delivering i _), Some _ => Some (leave w (gate s) [i] s)
  | _, _ => None
  end.

(** The goroutine that waits for the workers. *)
Definition finish (s : Stream) : option Stream :=
  if forallb (fun w => match w with Exited => true | _ => false end) (workers s) then
    match err s with
    | None =>
        Some (mkStream (input s) (inputClosed s) (next s) (gate s) (workers s)
                (first_of (cause s) (Some Canceled)) (Some (cause s)) (received s) (delivered s) (lost s))
    | Some _ => None
    end
  else None.

(** [Stream.Wait], from its first and its last look at the stream; [Close] is
    [cancel Canceled] and the wait for [done]. *)
Definition Stream_Wait (before after : option (option error)) (ctx_cause : option error)
    : option (option error) :=
  match before, after with
  | Some e, _ | None, Some e => Some e
  | None, None => Some <$> ctx_cause
  end.

Inductive action :=
| Produce (v : T) | CloseInput | Cancel_ (c : error)
| TakeGate (w : nat) | GateDone (w : nat) | GateCheck (w : nat) | Receive (w : nat) | ReceiveDone (w : nat)
| CallFn (w : nat) | FnReturns (w : nat) | Deliver (w : nat) | DeliverDone (w : nat) | Finish.

Definition step (a : action) (s : Stream) : option Stream :=
  match a with
  | Produce v => produce v s
  | CloseInput => Some (close_input s)
  | Cancel_ c => Some (cancel c s)
  | TakeGate w => take_gate w s
  | GateDone w => gate_done w s
  | GateCheck w => gate_check w s
  | Receive w => receive w s
  | ReceiveDone w => receive_done w s
  | CallFn w => call_fn w s
  | FnReturns w => fn_returns w s
  | Deliver w => deliver w s
  | DeliverDone w => deliver_done w s
  | Finish => finish s
  end.

Fixpoint steps (l : list action) (s : Stream) : option Stream :=
  match l with
  | [] => Some s
  | a :: l => s ← step a s; steps l s
  end.
End Stream.

Arguments worker : clear implicits.
Arguments Stream : clear implicits.
Arguments action : clear implicits.
Arguments StreamResult : clear implicits.

(** ** The invariant *)

Section Invariant.
Context {T R : Type} (fn : nat -> T -> R * option error) (limit : nat).
Implicit Types s : Stream T R.

(** The input a worker has. *)
Definition flight (w : worker T R) : list nat :=
  match w with Got i _ | InFn i _ | Delivering i _ => [i] | _ => [] end.

(** A worker has the value of its index, or the function's result for it. *)
Definition worker_ok (rs : list T) (w : worker T R) : Prop :=
  match w with
  | Got i v | InFn i v => rs !! i = Some v
  | Delivering i r => exists v, rs !! i = Some v /\ r = fn i v
  | _ => True
  end.
Definition result_ok (rs : list T) (r : StreamResult R) : Prop :=
  exists v, rs !! Index r = Some v /\ (Value r, Err r) = fn (Index r) v.

Definition holds (w : worker T R) : bool := match w with Holding | Receiving => true | _ => false end.

Record sinv s : Prop := {
  s_next : next s = length (received s);
  s_ids : Permutation (seq 0 (next s)) ((workers s ≫= flight) ++ (Index <$> delivered s) ++ lost s);
  s_workers : length (workers s) = limit;
  s_ok : Forall (worker_ok (received s)) (workers s);
  s_results : Forall (result_ok (received s)) (delivered s);
  s_gate : forall w st, workers s !! w = Some st -> holds st = true <-> gate s = Some w;
  s_held : forall w, gate s = Some w -> w < limit;
  s_lost : cause s = None -> lost s = [];
  s_exited : forall w, workers s !! w = Some Exited -> cause s <> None \/ (inputClosed s = true /\ input s = []);
  s_err : err s <> None -> Forall (fun w => w = Exited) (workers s);
  s_clean : err s = Some None -> lost s = [] /\ inputClosed s = true /\ input s = [];
  s_cause : err s <> None -> cause s <> None
}.

Lemma worker_ok_mono rs x w : worker_ok rs w -> worker_ok (rs ++ [x]) w.
Proof.
  destruct w; simpl; try done; try apply lookup_app_l_Some.
  intros (v & Hv & ->). exists v. split; [by apply lookup_app_l_Some|done].
Qed.

Lemma result_ok_mono rs x r : result_ok rs r -> result_ok (rs ++ [x]) r.
Proof. intros (v & Hv & He). exists v. split; [by apply lookup_app_l_Some|done]. Qed.
Lemma err_none s w st : sinv s -> workers s !! w = Some st -> st <> Exited -> err s = None.
Proof.
  intros H Hw Hst. destruct (err s) eqn:E; [|done]. assert (Hall : err s <> None) by congruence.
  apply (s_err _ H) in Hall. rewrite Forall_lookup in Hall. by apply Hall in Hw.
Qed.

Lemma move_sinv s w st0 st g dl ls :
  sinv s -> workers s !! w = Some st0 -> st0 <> Exited ->
  worker_ok (received s) st -> Forall (result_ok (received s)) dl ->
  Permutation (flight st0) (flight st ++ (Index <$> dl) ++ ls) ->
  (g = gate s /\ holds st = holds st0) \/ (g = None /\ holds st0 = true /\ holds st = false) \/
    (g = Some w /\ gate s = None /\ holds st = true) ->
  (ls <> [] -> cause s <> None) ->
  (st = Exited -> cause s <> None \/ (inputClosed s = true /\ input s = [])) ->
  sinv (move w st g dl ls s).
Proof.
  intros H Hw Hne Hok Hdl Hfl Hg Hls Hex. pose proof (err_none s w st0 H Hw Hne) as Herr.
  pose proof (bind_insert_perm flight _ _ _ st Hw) as Hp. pose proof (s_gate _ H w st0 Hw) as Hg0.
  constructor; cbn [move input inputClosed next gate workers cause err received delivered lost]; try apply H.
  - apply (Permutation_app_inv_l (flight st0)). rewrite (assoc_L (++)), Hp, (s_ids _ H), Hfl, fmap_app. solve_Permutation.
  - rewrite length_insert. apply H.
  - apply Forall_insert; [apply H|done].
  - apply Forall_app. split; [apply H|done].
  - intros w' st'. rewrite list_lookup_insert_Some. intros [(<- & <- & Hlt)|[Hw' Hl]].
    + destruct Hg as [[-> ->]|[(-> & _ & ->)|(-> & _ & ->)]]; [done|by split|by split].
    + pose proof (s_gate _ H w' st' Hl) as Hgw. destruct Hg as [[-> _]|[(-> & Hh & _)|(-> & Hn & _)]]; [done| |].
      * apply Hg0 in Hh. rewrite Hgw, Hh. split; [congruence|done].
      * rewrite Hgw, Hn. split; [done|congruence].
  - intros w' Hg'. destruct Hg as [[-> _]|[(-> & _)|(-> & _)]]; [by apply H|done|]. injection Hg' as <-.
    apply lookup_lt_Some in Hw. rewrite (s_workers _ H) in Hw. done.
  - intros Hc. rewrite (s_lost _ H Hc). destruct ls; [done|]. by destruct Hls.
  - intros w'. rewrite list_lookup_insert_Some. intros [(_ & He & _)|[_ Hl]]; [by apply Hex|by apply (s_exited _ H w')].
  - congruence.
  - congruence.
Qed.
Lemma receive_sinv s w s' : sinv s -> receive w s = Some s' -> sinv s'.
Proof.
  intros H. unfold receive. destruct (workers s !! w) as [[]|] eqn:Hw; try done.
  pose proof (s_gate _ H w _ Hw) as Hg0. simpl in Hg0.
  destruct (input s) as [|v rest] eqn:Ein.
  - destruct (inputClosed s) eqn:Ec; [|done]. intros [= <-].
    apply (move_sinv s w Receiving); try done; [right; left; by split_and!|]. intros _. by right.
  - intros [= <-]. pose proof (err_none s w _ H Hw ltac:(done)) as Herr.
    pose proof (bind_insert_perm flight _ _ _ (Got (next s) v) Hw) as Hp. simpl in Hp.
    assert (Hcause : forall w', workers s !! w' = Some Exited -> cause s <> None).
    { intros w' [?|[_ ?]]%(s_exited _ H); [done|congruence]. }
    constructor; cbn [input inputClosed next gate workers cause err received delivered lost].
    + rewrite length_app, (s_next _ H). simpl. lia.
    + rewrite seq_S, Hp, (s_ids _ H). simpl. by rewrite <- Permutation_cons_append.
    + rewrite length_insert. apply H.
    + apply Forall_insert; [eapply Forall_impl; [apply H|intros x; apply worker_ok_mono]|].
      simpl. rewrite (s_next _ H). by apply list_lookup_middle.
    + eapply Forall_impl; [apply H|intros x; apply result_ok_mono].
    + intros w' st'. rewrite list_lookup_insert_Some. intros [(<- & <- & Hlt)|[Hne Hl]]; [by split|].
      rewrite (s_gate _ H w' st' Hl), (proj1 Hg0 eq_refl). split; [congruence|done].
    + done.
    + apply H.
    + intros w'. rewrite list_lookup_insert_Some. intros [(_ & ? & _)|[_ Hl]]; [done|]. left. by eapply Hcause.
    + congruence.
    + congruence.
    + congruence.
Qed.

Lemma step_sinv a s s' : 0 < limit -> sinv s -> step fn a s = Some s' -> sinv s'.
Proof.
  intros Hlim H. destruct a; cbn [step].
  - unfold produce. destruct (inputClosed s) eqn:Ec; [done|]. intros [= <-].
    constructor; cbn [input inputClosed next gate workers cause err received delivered lost]; try apply H.
    + intros w [?|[? _]]%(s_exited _ H); [by left|congruence].
    + intros (_ & Hx & _)%(s_clean _ H). congruence.
  - intros [= <-]. constructor; cbn; try apply H.
    + intros w [?|[_ ?]]%(s_exited _ H); by auto.
    + intros (? & _ & ?)%(s_clean _ H). done.
  - intros [= <-]. constructor; cbn; try apply H.
    + by destruct (cause s).
    + intros w Hw. left. by destruct (cause s).
    + intros _. by destruct (cause s).
  - unfold take_gate. destruct (workers s !! w) as [[]|] eqn:Hw; try done. destruct (gate s) eqn:Hg; [done|].
    intros [= <-]. apply (move_sinv s w AtGate); try done. right; right. done.
  - unfold gate_done. destruct (workers s !! w) as [[]|] eqn:Hw; try done. destruct (cause s) eqn:Hc; [|done].
    intros [= <-]. apply (move_sinv s w AtGate); try done; [by left|]. rewrite Hc. by left.
  - unfold gate_check. destruct (workers s !! w) as [[]|] eqn:Hw; try done.
    destruct (cause s) eqn:Hc; intros [= <-]; apply (move_sinv s w Holding); try done.
    + right; left. done.
    + rewrite Hc. by left.
    + by left.
  - by apply receive_sinv.
  - unfold receive_done. destruct (workers s !! w) as [[]|] eqn:Hw; try done. destruct (cause s) eqn:Hc; [|done].
    intros [= <-]. apply (move_sinv s w Receiving); try done; [by right; left|]. rewrite Hc. by left.
  - unfold call_fn. destruct (workers s !! w) as [[| | |i v| | |]|] eqn:Hw; try done.
    pose proof (Forall_lookup_1 _ _ _ _ (s_ok _ H) Hw) as Hok. simpl in Hok.
    destruct (cause s) eqn:Hc; intros [= <-]; apply (move_sinv s w (Got i v)); try done; try (by left); try (by rewrite Hc); rewrite Hc; by left.
  - unfold fn_returns. destruct (workers s !! w) as [[| | | |i v| |]|] eqn:Hw; try done. intros [= <-].
    pose proof (Forall_lookup_1 _ _ _ _ (s_ok _ H) Hw) as Hok. simpl in Hok.
    apply (move_sinv s w (InFn i v)); try done; [|by left]. exists v. done.
  - unfold deliver. destruct (workers s !! w) as [[| | | | |i r|]|] eqn:Hw; try done. intros [= <-].
    pose proof (Forall_lookup_1 _ _ _ _ (s_ok _ H) Hw) as (v & Hv & Hr).
    apply (move_sinv s w (Delivering i r)); try done; [|by left]. apply Forall_singleton. exists v. simpl.
    rewrite <- surjective_pairing. done.
  - unfold deliver_done. destruct (workers s !! w) as [[| | | | |i r|]|] eqn:Hw; try done.
    destruct (cause s) eqn:Hc; [|done]. intros [= <-].
    apply (move_sinv s w (Delivering i r)); try done; try (by left); try (by rewrite Hc); rewrite Hc; by left.
  - unfold finish. destruct (forallb _ _) eqn:Ef; [|done]. destruct (err s) eqn:Ee; [done|]. intros [= <-].
    assert (Hall : Forall (fun w => w = Exited) (workers s)).
    { apply Forall_forall. intros x Hx. rewrite forallb_forall in Ef. specialize (Ef x (proj1 (list_elem_of_In _ _) Hx)).
      by destruct x. }
    constructor; cbn; try apply H.
    + by destruct (cause s).
    + intros w Hw. left. by destruct (cause s).
    + done.
    + intros [= Hc]. split; [by apply H|]. destruct (workers s) as [|x ws] eqn:Ew.
      { pose proof (s_workers _ H) as Hl. rewrite Ew in Hl. simpl in Hl. lia. }
      apply Forall_cons in Hall as [-> _]. destruct (s_exited _ H 0) as [?|?]; [by rewrite Ew|congruence|done].
    + intros _. by destruct (cause s).
Qed.

Lemma steps_sinv l s s' : 0 < limit -> sinv s -> steps fn l s = Some s' -> sinv s'.
Proof.
  intros Hlim. revert s. induction l as [|a l IH]; intros s H; cbn [steps]; [by intros [= <-]|].
  destruct (step fn a s) as [r|] eqn:E; [|done]. intros Hs. eapply IH; [|exact Hs]. by eapply step_sinv.
Qed.
End Invariant.

(** ** Properties *)

Section Properties.
Context {T R : Type} (fn : nat -> T -> R * option error).

Lemma new_sinv ctx k has_fn has_input s :
  MapStream (T := T) (R := R) ctx k has_fn has_input = inl s -> 0 < Z.to_nat k /\ sinv fn (Z.to_nat k) s.
Proof.
  unfold MapStream, validateLimit. destruct (Z.leb_spec k 0); [done|]. destruct has_fn; [|done]. destruct has_input; [|done].
  destruct (Cause ctx 0); [done|]. intros [= <-]. split; [lia|].
  constructor; cbn; try done.
  - induction (Z.to_nat k) as [|m IH]; [done|]. done.
  - apply length_replicate.
  - by apply Forall_replicate.
  - intros w st Hw. by apply lookup_replicate in Hw as [-> _].
  - intros w Hw. by apply lookup_replicate in Hw as [? _].
Qed.

(** C36: a stream under every interleaving of producers, workers, consumers and
    cancellation.  Each delivered result carries the index of an input and what
    the function returned for exactly that input; no input is delivered twice; at
    most [limit] inputs are in flight, and one worker at a time receives; without
    a cancellation no input is given up; and a stream that ended without an error
    has delivered every input there was. *)
Theorem stream_safety ctx k has_fn has_input s0 l s :
  MapStream ctx k has_fn has_input = inl s0 -> steps fn l s0 = Some s ->
  Forall (result_ok fn (received s)) (delivered s) /\
  Permutation (seq 0 (length (received s))) ((workers s ≫= flight) ++ (Index <$> delivered s) ++ lost s) /\
  (Z.of_nat (length (workers s ≫= flight)) <= k)%Z /\
  (forall w w' st st', workers s !! w = Some st -> workers s !! w' = Some st' ->
     holds st = true -> holds st' = true -> w = w') /\
  (cause s = None -> lost s = []) /\
  (err s = Some None ->
     inputClosed s = true /\ input s = [] /\ Permutation (Index <$> delivered s) (seq 0 (length (received s)))).
Proof.
  intros [Hk H0]%new_sinv Hs. pose proof (steps_sinv _ _ _ _ _ Hk H0 Hs) as H. split_and!.
  - apply H.
  - rewrite <- (s_next _ _ _ H). apply H.
  - assert (Hlen : forall ws : list (worker T R), length (ws ≫= flight) <= length ws).
    { induction ws as [|w ws IH]; [done|]. rewrite bind_cons, length_app. destruct w; simpl; lia. }
    specialize (Hlen (workers s)). rewrite (s_workers _ _ _ H) in Hlen. lia.
  - intros w w' st st' Hw Hw' Hh Hh'. apply (s_gate _ _ _ H w st Hw) in Hh. apply (s_gate _ _ _ H w' st' Hw') in Hh'.
    congruence.
  - apply H.
  - intros He. destruct (s_clean _ _ _ H He) as (Hl & Hc & Hi). split_and!; [done|done|].
    assert (Hne : err s <> None) by congruence. apply (s_err _ _ _ H) in Hne.
    assert (Hfl : workers s ≫= flight = []).
    { clear -Hne. induction Hne as [|w ws -> _ IH]; [done|]. by rewrite bind_cons, IH. }
    rewrite <- (s_next _ _ _ H), (s_ids _ _ _ H), Hfl, Hl. by rewrite app_nil_r.
Qed.

(** ** Termination *)

Definition internal (a : action T) : bool := match a with Produce _ | CloseInput | Cancel_ _ => false | _ => true end.

Definition weight (w : worker T R) : nat :=
  match w with
  | Got _ _ => 6 | InFn _ _ => 5 | Delivering _ _ => 4 | AtGate => 3 | Holding => 2 | Receiving => 1 | Exited => 0
  end.
Definition measure (s : Stream T R) : nat :=
  6 * length (input s) + sum_list_with weight (workers s) + match err s with None => 1 | Some _ => 0 end.

Lemma move_measure (s : Stream T R) w st0 st g dl ls :
  workers s !! w = Some st0 -> weight st < weight st0 -> measure (move w st g dl ls s) < measure s.
Proof.
  intros Hw Hlt. pose proof (sum_list_with_insert weight _ _ _ st Hw). unfold measure, move. simpl. lia.
Qed.

Lemma stream_step_measure a (s s' : Stream T R) : internal a = true -> step fn a s = Some s' -> measure s' < measure s.
Proof.
  destruct a; cbn [internal step]; try done; intros _;
    unfold take_gate, gate_done, gate_check, receive_done, call_fn, fn_returns, deliver, deliver_done.
  - destruct (workers s !! w) as [[]|] eqn:Hw, (gate s); try done. intros [= <-]. eapply move_measure; [done|simpl; lia].
  - destruct (workers s !! w) as [[]|] eqn:Hw, (cause s); try done. intros [= <-]. eapply move_measure; [done|simpl; lia].
  - destruct (workers s !! w) as [[]|] eqn:Hw; try done.
    destruct (cause s); intros [= <-]; (eapply move_measure; [done|simpl; lia]).
  - unfold receive. destruct (workers s !! w) as [[]|] eqn:Hw; try done. destruct (input s) as [|v rest] eqn:Ei.
    + destruct (inputClosed s); [|done]. intros [= <-]. eapply move_measure; [done|simpl; lia].
    + intros [= <-]. pose proof (sum_list_with_insert weight _ _ _ (Got (next s) v) Hw) as Hsum. simpl in Hsum.
      unfold measure. rewrite Ei. simpl. lia.
  - destruct (workers s !! w) as [[]|] eqn:Hw, (cause s); try done. intros [= <-]. eapply move_measure; [done|simpl; lia].
  - destruct (workers s !! w) as [[]|] eqn:Hw; try done.
    destruct (cause s); intros [= <-]; (eapply move_measure; [done|simpl; lia]).
  - destruct (workers s !! w) as [[]|] eqn:Hw; try done. intros [= <-]. eapply move_measure; [done|simpl; lia].
  - destruct (workers s !! w) as [[]|] eqn:Hw; try done. intros [= <-]. eapply move_measure; [done|simpl; lia].
  - destruct (workers s !! w) as [[]|] eqn:Hw, (cause s); try done. intros [= <-]. eapply move_measure; [done|simpl; lia].
  - unfold finish. destruct (forallb _ _); [|done]. destruct (err s) eqn:E; [done|]. intros [= <-].
    unfold measure. simpl. rewrite E. lia.
Qed.

(** A worker that is not blocked by the gate can move. *)
Lemma worker_moves (s : Stream T R) w st :
  workers s !! w = Some st -> st <> Exited -> (st = AtGate -> gate s = None) ->
  inputClosed s = true \/ cause s <> None ->
  exists a s', internal a = true /\ step fn a s = Some s'.
Proof.
  intros Hw Hne Hgate Hend. destruct st as [| | |i v|i v|i r|]; [..|done].
  - exists (TakeGate w). simpl. unfold take_gate. rewrite Hw, (Hgate eq_refl). by eauto.
  - exists (GateCheck w). simpl. unfold gate_check. rewrite Hw. by eauto.
  - destruct (cause s) as [c|] eqn:Hc.
    + exists (ReceiveDone w). simpl. unfold receive_done. rewrite Hw, Hc. by eauto.
    + exists (Receive w). simpl. unfold receive. rewrite Hw. destruct Hend as [->|?]; [|done].
      destruct (input s); by eauto.
  - exists (CallFn w). simpl. unfold call_fn. rewrite Hw. by eauto.
  - exists (FnReturns w). simpl. unfold fn_returns. rewrite Hw. by eauto.
  - exists (Deliver w). simpl. unfold deliver. rewrite Hw. by eauto.
Qed.

Lemma stream_progress k (s : Stream T R) :
  sinv fn k s -> inputClosed s = true \/ cause s <> None ->
  err s <> None \/ exists a s', internal a = true /\ step fn a s = Some s'.
Proof.
  intros H Hend. destruct (err s) eqn:Ee; [by left|]. right.
  destruct (forallb (fun w : worker T R => match w with Exited => true | _ => false end) (workers s)) eqn:Ef.
  { exists Finish. simpl. unfold finish. rewrite Ef, Ee. by eauto. }
  assert (Hex : exists w st, workers s !! w = Some st /\ st <> Exited).
  { clear -Ef. induction (workers s) as [|x ws IH]; [done|]. simpl in Ef.
    destruct x; try (by exists 0; eauto). destruct (IH Ef) as (w & st & Hw & Hst). by exists (S w), st. }
  destruct Hex as (w & st & Hw & Hst). destruct (gate s) as [w'|] eqn:Hg; [|by eapply worker_moves].
  destruct (lookup_lt_is_Some_2 (workers s) w') as [st' Hw']; [rewrite (s_workers _ _ _ H); by apply H|].
  pose proof (proj2 (s_gate _ _ _ H w' st' Hw') Hg) as Hh. by eapply worker_moves; [done|destruct st'..|].
Qed.

(** Closed inputs and done contexts stay so. *)
Lemma step_ends a (s s' : Stream T R) :
  step fn a s = Some s' -> inputClosed s = true \/ cause s <> None -> inputClosed s' = true \/ cause s' <> None.
Proof.
  intros E Hend. destruct a; cbn [step] in E; unfold produce, close_input, cancel, take_gate, gate_done, gate_check,
    receive, receive_done, call_fn, fn_returns, deliver, deliver_done, finish in E;
    repeat case_match; simplify_eq; cbn; try done; try (by left); destruct (cause s); simpl; by auto.
Qed.

(** A stream ends.  Once its input is closed or its context is done, every
    schedule in which functions return and results are received closes it: until
    then some move is possible, and at most [measure] moves are. *)
Theorem stream_ends ctx k has_fn has_input s0 l s l' s' :
  MapStream ctx k has_fn has_input = inl s0 -> steps fn l s0 = Some s ->
  inputClosed s = true \/ cause s <> None ->
  Forall (fun a => internal a = true) l' -> steps fn l' s = Some s' ->
  length l' <= measure s /\
  (err s' <> None \/ exists a s'', internal a = true /\ step fn a s' = Some s'').
Proof.
  intros [Hk H0]%new_sinv Hs Hend Hi Hs'. pose proof (steps_sinv _ _ _ _ _ Hk H0 Hs) as H.
  clear Hs H0 s0. assert (Hall : length l' + measure s' <= measure s /\ (inputClosed s' = true \/ cause s' <> None)
      /\ sinv fn (Z.to_nat k) s').
  { revert s H Hend Hs'. induction Hi as [|a l' Ha Hi IH]; intros s H Hend; cbn [steps].
    - intros [= <-]. by split_and!.
    - destruct (step fn a s) as [r|] eqn:E; [|done]. intros Hs'. pose proof (stream_step_measure a s r Ha E).
      assert (Hend' : inputClosed r = true \/ cause r <> None) by (by eapply step_ends).
      destruct (IH r) as (Hm & ?); [by eapply step_sinv|done|done|]. split; [simpl; lia|done]. }
  destruct Hall as (Hm & Hend' & H'). split; [lia|]. by eapply stream_progress.
Qed.
End Properties.

(** Two workers over three inputs, the second of which fails. *)
Definition demo_fn (i v : nat) : nat * option error := if v =? 6 then (0, Some Canceled) else (2 * v, None).
Definition demo_stream : Stream nat nat :=
  mkStream [] false 0 None (replicate 2 AtGate) None None [] [] [].
Definition demo_start : list (action nat) :=
  [Produce 5; TakeGate 1; GateCheck 1; Receive 1; Produce 6; TakeGate 0; GateCheck 0; Receive 0; CallFn 0;
   CallFn 1; FnReturns 0; Deliver 0; Produce 8; CloseInput].
Definition demo_rest : list (action nat) :=
  [FnReturns 1; TakeGate 0; GateCheck 0; Receive 0; Deliver 1; TakeGate 1; GateCheck 1; CallFn 0; Receive 1;
   FnReturns 0; Deliver 0; TakeGate 0; GateCheck 0; Receive 0; Finish].
Definition demo_mid : Stream nat nat := default demo_stream (steps demo_fn demo_start demo_stream).
Definition demo_end : Stream nat nat := default demo_stream (steps demo_fn demo_rest demo_mid).

Lemma demo_stream_new : MapStream (R := nat) Background 2 true true = inl demo_stream.
Proof. vm_compute. reflexivity. Qed.
Lemma demo_start_run : steps demo_fn demo_start demo_stream = Some demo_mid.
Proof. vm_compute. reflexivity. Qed.
Lemma demo_rest_run : steps demo_fn demo_rest demo_mid = Some demo_end.
Proof. vm_compute. reflexivity. Qed.

Lemma stream_safety_witness : delivered demo_mid = [mkStreamResult 1 0 (Some Canceled)] /\ lost demo_mid = [].
Proof.
  pose proof (stream_safety demo_fn Background 2 true true _ _ _ demo_stream_new demo_start_run) as (_ & _ & _ & _ & Hl & _).
  split; [vm_compute; reflexivity|]. apply Hl. vm_compute. reflexivity.
Defined.

Lemma stream_ends_witness : err demo_end = Some None /\ length demo_rest <= measure demo_mid.
Proof.
  split; [vm_compute; reflexivity|].
  assert (Hi : Forall (fun a => internal a = true) demo_rest) by (repeat (apply Forall_cons_2; [reflexivity|]); apply Forall_nil_2).
  assert (Hc : inputClosed demo_mid = true \/ cause demo_mid <> None) by (left; vm_compute; reflexivity).
  exact (proj1 (stream_ends demo_fn Background 2 true true _ _ _ _ _ demo_stream_new demo_start_run Hc Hi demo_rest_run)).
Defined.
