(* ===== verification/Health.v ===== *)
(** * Health checks: [src/health]

    Registration, the concurrent run of a snapshot of checks as a transition
    system of workers that share a counter and a context, reports, and the HTTP
    handler.  A check is run at most once per report, so what it does is given
    per index.  The cause of the run's context is identified by its name. *)

From S2P Require Import Prelude GoErrors.
From stdpp Require Import options.
Set Default Proof Using "Type*".

(** ** [config.go] *)

Record config := mkConfig { timeout : Z; concurrency : Z }.

Inductive Option_ := WithTimeout (timeout : Z) | WithConcurrency (limit : Z).

Definition apply (o : Option_) (c : config) : config :=
  match o with
  | WithTimeout t => if (t >? 0)%Z then mkConfig t (concurrency c) else c
  | WithConcurrency n => if (n >? 0)%Z then mkConfig (timeout c) n else c
  end.

Definition newConfig (options : list (option Option_)) : config :=
  foldl (fun c o => match o with Some o => apply o c | None => c end) (mkConfig (5 * Second) 4) options.

(** ** [report.go] *)

Record Result := mkResult { Name : string; Duration : Z; Err : option error }.
Record Report := mkReport { StartedAt : Z; rDuration : Z; Results : list Result }.

Definition Healthy (r : Result) : bool := match Err r with None => true | Some _ => false end.
Definition Report_Healthy (r : Report) : bool := forallb Healthy (Results r).

(** ** [registry.go] *)

Section Registry.
Context {C : Type}. (* checkers *)

Record checkEntry := mkEntry { ename : string; checker : C }.

Record Registry := mkRegistry { checks : list checkEntry; names : gset string; rconfig : config }.

Definition New (options : list (option Option_)) : Registry := mkRegistry [] ∅ (newConfig options).

(** [Register]: the registry, or a panic, which leaves it as it was. *)
Definition Register (name : string) (checker : option C) (r : Registry) : Registry + string :=
  if bool_decide (name = "") then inr "health: empty check name"
  else
    match checker with
    | None => inr "health: nil checker"
    | Some c =>
        if decide (name ∈ names r) then inr ("health: duplicate check name: " +:+ name)
        else inl (mkRegistry (checks r ++ [mkEntry name c]) ({[name]} ∪ names r) (rconfig r))
    end.

(** What a checker does: it returns, or it panics with an error or another value. *)
Inductive checked := Returns (err : option error) | Panics (value : option error).

Definition runChecker (c : checked) : option error :=
  match c with
  | Returns err => err
  | Panics (Some err) => Some (ErrWrapf "health: checker panic" err)
  | Panics None => Some (ErrMsg "health: checker panic")
  end.

(** The error of a finished check, given the cause of the context. *)
Definition settle (err : option error) (cause : option string) : option error :=
  match cause with
  | None => err
  | Some c =>
      match err with
      | None => Some (ErrNew c)
      | Some e => if errors_Is e c then Some e else errors_Join [Some e; Some (ErrNew c)]
      end
  end.

Inductive worker := Fetching | Have (index : nat) | Checking (index : nat) | Exited.

Record state := mkState {
  next : nat;               (* how often the counter was increased *)
  workers : list worker;
  cause : option string;
  results : list Result;
  called : list nat;        (* checks run, in order *)
  written : list (nat * bool) (* errors written, in order, and whether the check was run *)
}.

Variable entries : list checkEntry.
Variable out : nat -> checked.

(** The start of [run] on the snapshot, with the results that have their names. *)
Definition start (c : config) : state :=
  mkState 0 (replicate (Z.to_nat (Z.min (concurrency c) (Z.of_nat (length entries)))) Fetching) None
    ((fun e => mkResult (ename e) 0 None) <$> entries) [] [].

Definition set_worker (w : nat) (st : worker) (s : state) : state :=
  mkState (next s) (<[w := st]> (workers s)) (cause s) (results s) (called s) (written s).

Definition fetch (w : nat) (s : state) : option state :=
  match workers s !! w with
  | Some Fetching =>
      let index := next s in
      Some (mkState (S index) (<[w := if length entries <=? index then Exited else Have index]> (workers s))
              (cause s) (results s) (called s) (written s))
  | _ => None
  end.

(** [results[index].Err = err] and [results[index].Duration = d] *)
Definition set_err (err : option error) (r : Result) : Result := mkResult (Name r) (Duration r) err.
Definition set_result (d : Z) (err : option error) (r : Result) : Result := mkResult (Name r) d err.

Definition look (w : nat) (s : state) : option state :=
  match workers s !! w with
  | Some (Have i) =>
      Some (match cause s with
            | Some c =>
                mkState (next s) (<[w := Fetching]> (workers s)) (cause s)
                  (alter (set_err (Some (ErrNew c))) i (results s)) (called s) (written s ++ [(i, false)])
            | None =>
                mkState (next s) (<[w := Checking i]> (workers s)) (cause s) (results s) (called s ++ [i]) (written s)
            end)
  | _ => None
  end.

Definition finish (w : nat) (d : Z) (s : state) : option state :=
  match workers s !! w with
  | Some (Checking i) =>
      Some (mkState (next s) (<[w := Fetching]> (workers s)) (cause s)
              (alter (set_result d (settle (runChecker (out i)) (cause s))) i (results s))
              (called s) (written s ++ [(i, true)]))
  | _ => None
  end.

(** The caller's context is done, or the timeout passes. *)
Definition cancel (c : string) (s : state) : state :=
  mkState (next s) (workers s) (match cause s with Some c' => Some c' | None => Some c end) (results s) (called s)
    (written s).

Inductive action := Fetch (w : nat) | Look (w : nat) | Finish (w : nat) (d : Z) | Cancel (c : string).

Definition step (a : action) (s : state) : option state :=
  match a with
  | Fetch w => fetch w s
  | Look w => look w s
  | Finish w d => finish w d s
  | Cancel c => Some (cancel c s)
  end.

Fixpoint steps (l : list action) (s : state) : option state :=
  match l with
  | [] => Some s
  | a :: l => s ← step a s; steps l s
  end.

(** The workers have returned. *)
Definition finished (s : state) : Prop := Forall (fun w => w = Exited) (workers s).

(** [Check], once [run] has returned. *)
Definition Check (startedAt elapsed : Z) (s : state) : Report := mkReport startedAt elapsed (results s).
End Registry.

Arguments checkEntry : clear implicits.
Arguments Registry : clear implicits.

#[export] Instance worker_eq_dec : EqDecision worker.
Proof. solve_decision. Defined.

(** ** [http.go] *)

Record httpCheckResponse := mkCheckResponse { cName : string; cStatus : string; cDuration : string; cError : string }.
Record httpResponse := mkHTTPResponse { hStatus : string; hDuration : string; hChecks : list httpCheckResponse }.

Definition statusHealthy : string := "healthy".
Definition statusUnhealthy : string := "unhealthy".

(** The status code, the body unless the request was for the head, and whether
    the registry was checked. *)
Record served := mkServed { code : Z; allow : option string; body : option string; ran : bool }.

Section HTTP.
(** Library functions: texts of durations and errors, and the encoder. *)
Context (durString : Z -> string) (errText : error -> string) (marshal : httpResponse -> option string).

Inductive HandlerOption := WithErrorDetails.

Definition newHandlerConfig (options : list (option HandlerOption)) : bool :=
  foldl (fun c o => match o with Some WithErrorDetails => true | None => c end) false options.

Definition response (errorDetails : bool) (report : Report) : httpResponse :=
  mkHTTPResponse (if Report_Healthy report then statusHealthy else statusUnhealthy) (durString (rDuration report))
    ((fun r => mkCheckResponse (Name r) (if Healthy r then statusHealthy else statusUnhealthy)
                 (durString (Duration r))
                 (match Err r with Some e => if errorDetails then errText e else "" | None => "" end))
     <$> Results report).

Definition ServeHTTP (errorDetails : bool) (method : string) (report : Report) : served :=
  if negb (bool_decide (method = "GET")) && negb (bool_decide (method = "HEAD")) then
    mkServed 405 (Some "GET, HEAD") (Some "Method Not Allowed") false
  else
    match marshal (response errorDetails report) with
    | None => mkServed 500 None (Some "Internal Server Error") true
    | Some payload =>
        mkServed (if Report_Healthy report then 200 else 503) None
          (if bool_decide (method = "HEAD") then None
           else Some (payload +:+ String (Ascii.ascii_of_nat 10) EmptyString)) true
    end.
End HTTP.

(** ** Registration *)

Section Register.
Context {C : Type}.

Definition registry_ok (r : Registry C) : Prop :=
  NoDup (ename <$> checks r) /\ (forall x, x ∈ names r <-> x ∈ ename <$> checks r) /\ ""%string ∉ ename <$> checks r.

Fixpoint register_all (l : list (string * option C)) (r : Registry C) : Registry C :=
  match l with
  | [] => r
  | (n, c) :: l => register_all l (match Register n c r with inl r' => r' | inr _ => r end)
  end.

Lemma register_ok n c r r' : registry_ok r -> Register n c r = inl r' -> registry_ok r'.
Proof.
  intros (Hnd & Hn & He). unfold Register. case_bool_decide; [done|]. destruct c as [c|]; [|done].
  case_decide as Hin; [done|]. intros [= <-]. unfold registry_ok. cbn [checks names]. rewrite fmap_app. split_and!.
  - apply NoDup_app. split; [done|]. split; [|apply NoDup_singleton].
    intros x Hx ->%list_elem_of_singleton. by apply Hin, Hn.
  - intros x. rewrite elem_of_app, elem_of_union, elem_of_singleton, Hn. cbn [fmap list_fmap ename].
    rewrite list_elem_of_singleton. tauto.
  - rewrite elem_of_app. intros [?|?%list_elem_of_singleton]; [done|]. simpl in *. congruence.
Qed.

(** Registration keeps the names distinct, non-empty and in the order of the
    calls that succeeded, and a check is refused exactly when its name is empty
    or taken or it is nil. *)
Theorem register_names l options n c :
  let r := register_all l (New options) in
  registry_ok r /\
  (Register n c r = inl (mkRegistry (checks r ++ match c with Some c => [mkEntry n c] | None => [] end)
                           ({[n]} ∪ names r) (rconfig r)) <->
   n <> ""%string /\ c <> None /\ n ∉ ename <$> checks r).
Proof.
  cbv zeta. assert (Hok : registry_ok (register_all l (New options))).
  { assert (H0 : registry_ok (New options : Registry C)).
    { unfold registry_ok, New. simpl. split_and!; [apply NoDup_nil_2|set_solver|set_solver]. }
    revert H0. generalize (New options : Registry C). induction l as [|[m d] l IH]; intros r Hr; [done|]. simpl.
    apply IH. destruct (Register m d r) eqn:E; [|done]. by eapply register_ok. }
  set (r := register_all l (New options)) in *. split; [done|]. destruct Hok as (_ & Hn & _). unfold Register.
  case_bool_decide; [split; [done|by intros []]|]. destruct c as [c|]; [|split; [done|by intros (_ & [] & _)]].
  case_decide as Hin; rewrite Hn in Hin; [split; [done|by intros (_ & _ & [])]|]. by split.
Qed.
End Register.

(** ** Running the checks *)

Section Run.
Context {C : Type} (entries : list (checkEntry C)) (k : nat).
Local Abbreviation n := (length entries).

Definition hand (w : worker) : list nat := match w with Have i | Checking i => [i] | _ => [] end.
Definition checking (w : worker) : list nat := match w with Checking i => [i] | _ => [] end.
Definition ran_ids (l : list (nat * bool)) : list nat := omap (fun p => if p.2 : bool then Some p.1 else None) l.

Record hinv (s : state) : Prop := {
  h_ids : Permutation (seq 0 (Nat.min (next s) n)) ((workers s ≫= hand) ++ (written s).*1);
  h_called : Permutation (called s) ((workers s ≫= checking) ++ ran_ids (written s));
  h_names : Name <$> results s = ename <$> entries;
  h_workers : length (workers s) = k;
  h_exited : Exited ∈ workers s -> n < next s
}.

(** A result is written once. *)
Lemma written_fresh s w st0 i b :
  hinv s -> workers s !! w = Some st0 -> hand st0 = [i] -> (i, b) ∉ written s.
Proof.
  intros H Hw Hh Hin. pose proof (bind_insert_perm hand _ _ _ Fetching Hw) as Hp. rewrite Hh in Hp. simpl in Hp.
  pose proof (NoDup_seq 0 (Nat.min (next s) n)) as Hnd. rewrite (h_ids _ H), <- Hp in Hnd. simpl in Hnd.
  apply NoDup_cons in Hnd as [Hni _]. apply Hni. rewrite elem_of_app. right. by apply (list_elem_of_fmap_2 fst _ (i, b)).
Qed.

Lemma elem_snoc_ne (l : list (nat * bool)) i j b b' : i <> j -> (i, b) ∈ l ++ [(j, b')] -> (i, b) ∈ l.
Proof. intros Hne. rewrite elem_of_app. intros [?|[= ? _]%list_elem_of_singleton]; done. Qed.

(** The worker [w] writes the result of [i]. *)
Lemma write_hinv s w st0 i b f :
  hinv s -> workers s !! w = Some st0 -> hand st0 = [i] -> checking st0 = (if b : bool then [i] else []) ->
  (forall r, Name (f r) = Name r) ->
  hinv (mkState (next s) (<[w := Fetching]> (workers s)) (cause s) (alter f i (results s)) (called s)
          (written s ++ [(i, b)])).
Proof.
  intros H Hw Hh Hc Hname.
  pose proof (bind_insert_perm hand _ _ _ Fetching Hw) as Hp1. rewrite Hh in Hp1. simpl in Hp1.
  pose proof (bind_insert_perm checking _ _ _ Fetching Hw) as Hp2. rewrite Hc in Hp2.
  constructor; cbn [next workers cause results called written].
  - rewrite (h_ids _ H), <- Hp1, fmap_app. simpl. rewrite (assoc_L (++)). by rewrite <- Permutation_cons_append.
  - rewrite (h_called _ H), <- Hp2. unfold ran_ids. rewrite omap_app. destruct b; simpl; [|by rewrite app_nil_r].
    rewrite (assoc_L (++)). by rewrite <- Permutation_cons_append.
  - rewrite <- (h_names _ H). apply list_eq. intros j. rewrite !list_lookup_fmap.
    destruct (decide (j = i)) as [->|]; [|by rewrite list_lookup_alter_ne].
    rewrite list_lookup_alter_eq. destruct (results s !! i); simpl; [by rewrite Hname|done].
  - rewrite length_insert. apply H.
  - intros Hin. apply (h_exited _ H). apply list_elem_of_lookup_1 in Hin as [w' Hin].
    apply list_lookup_insert_Some in Hin as [(_ & ? & _)|[_ Hin]]; [done|]. by apply list_elem_of_lookup_2 in Hin.
Qed.

Lemma step_hinv out a s s' : hinv s -> step entries out a s = Some s' -> hinv s'.
Proof.
  intros H. destruct a as [w|w|w d|c]; cbn [step].
  - unfold fetch. destruct (workers s !! w) as [[]|] eqn:Hw; try done. intros [= <-].
    set (st := if n <=? next s then Exited else Have (next s)).
    pose proof (bind_insert_perm hand _ _ _ st Hw) as Hp1. simpl in Hp1.
    pose proof (bind_insert_perm checking _ _ _ st Hw) as Hp2. simpl in Hp2.
    assert (Hst : (n <= next s /\ st = Exited) \/ (next s < n /\ st = Have (next s))).
    { unfold st. destruct (Nat.leb_spec n (next s)); [by left|by right]. }
    clearbody st. constructor; cbn [next workers cause results called written].
    + rewrite Hp1. destruct Hst as [[Hge ->]|[Hlt ->]]; cbn [hand app].
      * replace (Nat.min (S (next s)) n) with (Nat.min (next s) n) by lia. apply H.
      * replace (Nat.min (S (next s)) n) with (S (Nat.min (next s) n)) by lia. rewrite seq_S, (h_ids _ H).
        replace (0 + Nat.min (next s) n) with (next s) by lia. by rewrite <- Permutation_cons_append.
    + rewrite Hp2. destruct Hst as [[_ ->]|[_ ->]]; apply H.
    + apply H.
    + rewrite length_insert. apply H.
    + intros Hin. apply list_elem_of_lookup_1 in Hin as [w' Hin].
      apply list_lookup_insert_Some in Hin as [(_ & He & _)|[_ Hin]]; [destruct Hst as [[? _]|[_ ->]]; [lia|done]|].
      apply list_elem_of_lookup_2, (h_exited _ H) in Hin. lia.
  - unfold look. destruct (workers s !! w) as [[|i| |]|] eqn:Hw; try done.
    destruct (cause s) as [c|] eqn:Hc; intros [= <-].
    + rewrite <- Hc. by eapply (write_hinv s w (Have i) i false).
    + pose proof (bind_insert_perm hand _ _ _ (Checking i) Hw) as Hp1. apply (Permutation_app_inv_l [i]) in Hp1.
      pose proof (bind_insert_perm checking _ _ _ (Checking i) Hw) as Hp2. simpl in Hp2.
      constructor; cbn [next workers cause results called written].
      * rewrite Hp1. apply H.
      * rewrite Hp2, (h_called _ H). by rewrite <- Permutation_cons_append.
      * apply H.
      * rewrite length_insert. apply H.
      * intros Hin. apply (h_exited _ H). apply list_elem_of_lookup_1 in Hin as [w' Hin].
        apply list_lookup_insert_Some in Hin as [(_ & ? & _)|[_ Hin]]; [done|]. by apply list_elem_of_lookup_2 in Hin.
  - unfold finish. destruct (workers s !! w) as [[| |i|]|] eqn:Hw; try done. intros [= <-].
    by apply (write_hinv s w (Checking i) i true).
  - intros [= <-]. constructor; cbn [cancel next workers cause results called written]; apply H.
Qed.

Lemma steps_hinv out l s s' : hinv s -> steps entries out l s = Some s' -> hinv s'.
Proof.
  revert s. induction l as [|a l IH]; intros s H; cbn [steps]; [by intros [= <-]|].
  destruct (step entries out a s) as [r|] eqn:E; [|done]. intros Hs. eapply IH; [|exact Hs]. by eapply step_hinv.
Qed.
End Run.

Lemma newConfig_positive options : (0 < timeout (newConfig options))%Z /\ (0 < concurrency (newConfig options))%Z.
Proof.
  unfold newConfig. assert (H0 : (0 < timeout (mkConfig (5 * Second) 4))%Z /\ (0 < concurrency (mkConfig (5 * Second) 4))%Z) by done.
  revert H0. generalize (mkConfig (5 * Second) 4). induction options as [|[o|] options IH]; intros c Hc; simpl; [done| |by apply IH].
  apply IH. destruct o; simpl; bcase; simpl; lia.
Qed.

Section Outcome.
Context {C : Type} (entries : list (checkEntry C)) (out : nat -> checked) (options : list (option Option_)).
Local Abbreviation n := (length entries).
Local Abbreviation c := (newConfig options).
Local Abbreviation k := (Z.to_nat (Z.min (concurrency c) (Z.of_nat n))).

Lemma start_hinv : hinv entries k (start entries c).
Proof.
  assert (Hb : forall f : worker -> list nat, f Fetching = [] -> replicate k Fetching ≫= f = []).
  { intros f Hf. induction k as [|m IH]; [done|]. simpl. by rewrite Hf. }
  constructor; cbn [start next workers cause results called written].
  - by rewrite Hb.
  - by rewrite Hb.
  - by rewrite <- list_fmap_compose.
  - apply length_replicate.
  - intros Hin. apply list_elem_of_lookup_1 in Hin as [w Hw]. by apply lookup_replicate in Hw as [? _].
Qed.

Lemma finished_all s : hinv entries k s -> finished s ->
  Permutation (seq 0 n) (written s).*1 /\ Permutation (called s) (ran_ids (written s)).
Proof.
  intros H Hf. assert (Hb : forall f : worker -> list nat, f Exited = [] -> workers s ≫= f = []).
  { intros f Hx. clear -Hf Hx. unfold finished in Hf. induction Hf as [|w ws -> _ IH]; [done|]. by rewrite bind_cons, Hx, IH. }
  pose proof (h_ids _ _ _ H) as Hids. pose proof (h_called _ _ _ H) as Hc. rewrite Hb in Hids, Hc by done.
  split; [|done]. rewrite <- Hids. replace (Nat.min (next s) n) with n; [done|].
  destruct (decide (n = 0)) as [->|Hn]; [lia|]. pose proof (newConfig_positive options) as [_ Hpos].
  assert (Hex : Exited ∈ workers s).
  { pose proof (h_workers _ _ _ H) as Hk. destruct (workers s) as [|w ws] eqn:Ew; [simpl in Hk; lia|].
    unfold finished in Hf. rewrite Ew in Hf. apply Forall_cons in Hf as [-> _]. by left. }
  apply (h_exited _ _ _ H) in Hex. lia.
Qed.

Lemma elem_ran_ids l i : i ∈ ran_ids l <-> (i, true) ∈ l.
Proof.
  unfold ran_ids. rewrite list_elem_of_omap. split.
  - by intros ([j []] & Hin & [= <-]).
  - intros Hin. by exists (i, true).
Qed.

Lemma flag_unique (l : list (nat * bool)) i b b' : NoDup l.*1 -> (i, b) ∈ l -> (i, b') ∈ l -> b = b'.
Proof.
  intros Hnd Hb Hb'. apply list_elem_of_lookup_1 in Hb as [x Hx], Hb' as [y Hy].
  assert (x = y) as ->; [|congruence]. eapply NoDup_lookup; [exact Hnd|..]; by rewrite list_lookup_fmap, ?Hx, ?Hy.
Qed.

Lemma results_length s : hinv entries k s -> length (results s) = n.
Proof. intros H. pose proof (h_names _ _ _ H) as Hn. apply (f_equal length) in Hn. by rewrite !length_fmap in Hn. Qed.

(** The cause the context has after the moves [l]: that of the first cancellation. *)
Definition first_cancel (l : list action) : option string :=
  head (omap (fun a => match a with Cancel c => Some c | _ => None end) l).

Lemma steps_snoc l a s0 s :
  steps entries out (l ++ [a]) s0 = Some s <->
  exists s1, steps entries out l s0 = Some s1 /\ step entries out a s1 = Some s.
Proof.
  revert s0. induction l as [|b l IH]; intros s0; cbn [steps app].
  - destruct (step entries out a s0) as [s1|] eqn:E; cbn [mbind option_bind]; split.
    + intros [= ->]. eauto.
    + intros (s2 & [= <-] & E2). congruence.
    + done.
    + intros (s2 & [= <-] & E2). congruence.
  - destruct (step entries out b s0) as [s1|]; [apply IH|]. by split; [|intros (? & ? & _)].
Qed.

Lemma step_cause a s s' : step entries out a s = Some s' ->
  cause s' = match cause s with Some c => Some c | None => match a with Cancel c => Some c | _ => None end end.
Proof.
  destruct a as [w|w|w d|x]; cbn [step]; unfold fetch, look, finish.
  - destruct (workers s !! w) as [[]|]; try done. intros [= <-]. simpl. by destruct (cause s).
  - destruct (workers s !! w) as [[|i| |]|]; try done. destruct (cause s) eqn:E; intros [= <-]; simpl; done.
  - destruct (workers s !! w) as [[]|]; try done. intros [= <-]. simpl. by destruct (cause s).
  - by intros [= <-].
Qed.

Lemma steps_cause l s : steps entries out l (start entries c) = Some s -> cause s = first_cancel l.
Proof.
  revert s. induction l as [|a l IH] using rev_ind; intros s; [by intros [= <-]|].
  intros (s1 & H1 & Ha)%steps_snoc. rewrite (step_cause _ _ _ Ha), (IH s1 H1). unfold first_cancel.
  rewrite omap_app. destruct (omap _ l); [|done]. simpl. by destruct a.
Qed.

(** What a move writes: the result of the index its worker had in hand. *)
Lemma step_written a s s' i b :
  hinv entries k s -> step entries out a s = Some s' -> (i, b) ∈ written s' ->
  ((i, b) ∈ written s /\ results s' !! i = results s !! i) \/
  (b = true /\ exists w d, a = Finish w d /\ workers s !! w = Some (Checking i) /\
     results s' = alter (set_result d (settle (runChecker (out i)) (cause s))) i (results s)) \/
  (b = false /\ exists w x, a = Look w /\ workers s !! w = Some (Have i) /\ cause s = Some x /\
     results s' = alter (set_err (Some (ErrNew x))) i (results s)).
Proof.
  intros H. destruct a as [w|w|w d|x]; cbn [step]; unfold fetch, look, finish.
  - destruct (workers s !! w) as [[]|]; try done. intros [= <-]. by left.
  - destruct (workers s !! w) as [[|j| |]|] eqn:Hw; try done. destruct (cause s) as [x|] eqn:Hc; intros [= <-]; [|by left].
    cbn [written results]. rewrite elem_of_app, list_elem_of_singleton. intros [Hin|[= -> ->]]; [left|right; right; split; [done|]; by exists w, x].
    rewrite list_lookup_alter_ne; [done|]. intros ->. by eapply (written_fresh entries k s w).
  - destruct (workers s !! w) as [[| |j|]|] eqn:Hw; try done. intros [= <-]. cbn [written results].
    rewrite elem_of_app, list_elem_of_singleton. intros [Hin|[= -> ->]]; [left|right; left; split; [done|]; by exists w, d].
    rewrite list_lookup_alter_ne; [done|]. intros ->. by eapply (written_fresh entries k s w).
  - intros [= <-]. by left.
Qed.

(** Where in a run the result of a check comes from: the move that finished it, or
    the one that skipped it, with the context as it was at that move. *)
Definition outcome (l : list action) (i : nat) (ran : bool) (r : Result) : Prop :=
  if ran then
    exists l1 w d l2 s1, l = l1 ++ Finish w d :: l2 /\ steps entries out l1 (start entries c) = Some s1 /\
      workers s1 !! w = Some (Checking i) /\ Duration r = d /\
      Err r = settle (runChecker (out i)) (first_cancel l1)
  else
    exists l1 w l2 s1 x, l = l1 ++ Look w :: l2 /\ steps entries out l1 (start entries c) = Some s1 /\
      workers s1 !! w = Some (Have i) /\ first_cancel l1 = Some x /\ Err r = Some (ErrNew x).

Lemma outcome_snoc l a i b r : outcome l i b r -> outcome (l ++ [a]) i b r.
Proof.
  destruct b; simpl.
  - intros (l1 & w & d & l2 & s1 & -> & H). exists l1, w, d, (l2 ++ [a]), s1. by rewrite <- app_assoc.
  - intros (l1 & w & l2 & s1 & x & -> & H). exists l1, w, (l2 ++ [a]), s1, x. by rewrite <- app_assoc.
Qed.

Lemma trace_slot l s i b r :
  steps entries out l (start entries c) = Some s -> (i, b) ∈ written s -> results s !! i = Some r -> outcome l i b r.
Proof.
  revert s r. induction l as [|a l IH] using rev_ind; intros s r.
  { intros [= <-]. by intros ?%not_elem_of_nil. }
  intros (s1 & H1 & Ha)%steps_snoc Hin Hr. pose proof (steps_hinv _ _ _ _ _ _ start_hinv H1) as Hi.
  pose proof (steps_cause _ _ H1) as Hc.
  destruct (step_written a s1 s i b Hi Ha Hin) as [[Hin1 E]|[(-> & w & d & -> & Hw & E)|(-> & w & x & -> & Hw & Hx & E)]].
  - apply outcome_snoc. eapply IH; [done|done|congruence].
  - rewrite E, list_lookup_alter_eq, Hc in Hr. destruct (results s1 !! i) as [r0|]; [|done]. injection Hr as <-.
    exists l, w, d, [], s1. done.
  - rewrite E, list_lookup_alter_eq in Hr. destruct (results s1 !! i) as [r0|]; [|done]. injection Hr as <-.
    exists l, w, [], s1, x. split_and!; try done. congruence.
Qed.

(** The result of every check, when the workers have returned. *)
Lemma final_slot l s i r :
  steps entries out l (start entries c) = Some s -> finished s -> results s !! i = Some r ->
  outcome l i (bool_decide (i ∈ called s)) r.
Proof.
  intros Hs Hf Hr. pose proof (steps_hinv _ _ _ _ _ _ start_hinv Hs) as H. destruct (finished_all s H Hf) as [Hw Hc].
  assert (Hin : i ∈ (written s).*1).
  { rewrite <- Hw. apply elem_of_seq. apply lookup_lt_Some in Hr. rewrite (results_length s H) in Hr. lia. }
  apply list_elem_of_fmap in Hin as ([j b] & -> & Hin). simpl in *.
  replace (bool_decide (j ∈ called s)) with b; [by eapply trace_slot|]. symmetry.
  assert (Hnd : NoDup (written s).*1) by (rewrite <- Hw; apply NoDup_seq).
  assert (He : j ∈ called s <-> (j, true) ∈ written s) by (by rewrite Hc, elem_ran_ids).
  destruct b; [by apply bool_decide_eq_true_2, He|]. apply bool_decide_eq_false_2. intros Hj%He.
  by pose proof (flag_unique _ _ _ _ Hnd Hin Hj).
Qed.

(** What the cause adds to the error of a check. *)
Lemma settle_cause err x : exists e, settle err (Some x) = Some e /\ errors_Is e x = true /\
  match err with
  | None => e = ErrNew x
  | Some e0 => if errors_Is e0 x then e = e0 else e = ErrJoin [e0; ErrNew x]
  end.
Proof.
  destruct err as [e0|]; simpl; [|eexists; split; [done|]; split; [by apply bool_decide_eq_true_2|done]].
  destruct (errors_Is e0 x) eqn:E; eexists; (split; [done|]); (split; [|done]); [done|].
  simpl. rewrite E. simpl. by rewrite bool_decide_eq_true_2.
Qed.

Lemma called_once s : hinv entries k s -> NoDup (called s).
Proof.
  intros H. assert (Hsub : called s ⊆+ seq 0 (Nat.min (next s) n)).
  { rewrite (h_called _ _ _ H), (h_ids _ _ _ H). apply submseteq_app.
    - generalize (workers s) as ws. induction ws as [|w ws IH]; [done|]. rewrite !bind_cons. apply submseteq_app; [|done].
      destruct w; simpl; auto using submseteq_nil_l.
    - unfold ran_ids. generalize (written s) as ws.
      induction ws as [|[i []] ws IH]; simpl; [done|by apply submseteq_skip|by apply submseteq_cons]. }
  destruct (submseteq_Permutation _ _ Hsub) as [m Hm]. pose proof (NoDup_seq 0 (Nat.min (next s) n)) as Hnd.
  rewrite Hm in Hnd. by apply NoDup_app in Hnd as [? _].
Qed.

(** A check that is settled without an error, under no cause. *)
Lemma runChecker_None x : runChecker x = None <-> x = Returns None.
Proof. destruct x as [[e|]|[e|]]; simpl; split; congruence. Qed.

(** A run no cancellation met. *)
Lemma report_uncanceled l s t d :
  steps entries out l (start entries c) = Some s -> finished s -> first_cancel l = None ->
  Permutation (called s) (seq 0 n) /\
  (Report_Healthy (Check t d s) = true <-> forall i, i < n -> out i = Returns None).
Proof.
  intros Hs Hf Hn. pose proof (steps_hinv _ _ _ _ _ _ start_hinv Hs) as H.
  assert (Hpre : forall l1 l2, l = l1 ++ l2 -> first_cancel l1 = None).
  { intros l1 l2 ->. unfold first_cancel in *. rewrite omap_app in Hn. by destruct (omap _ l1). }
  assert (Hall : forall i r, results s !! i = Some r -> i ∈ called s /\ Err r = runChecker (out i)).
  { intros i r Hr. pose proof (final_slot l s i r Hs Hf Hr) as Ho. unfold outcome in Ho. case_bool_decide.
    - destruct Ho as (l1 & w & d' & l2 & s1 & E & _ & _ & _ & ->). by rewrite (Hpre _ _ E).
    - destruct Ho as (l1 & w & l2 & s1 & x & E & _ & _ & Hx & _). by rewrite (Hpre _ _ E) in Hx. }
  pose proof (results_length s H) as Hlen. destruct (finished_all s H Hf) as [Hw Hc]. split.
  - apply NoDup_Permutation; [by apply called_once|apply NoDup_seq|]. intros i. rewrite elem_of_seq. split.
    + intros Hi. rewrite Hc, elem_ran_ids in Hi. assert (Hin : i ∈ seq 0 n); [|by apply elem_of_seq in Hin].
      rewrite Hw. by apply (list_elem_of_fmap_2 fst _ (i, true)).
    + intros Hi. destruct (lookup_lt_is_Some_2 (results s) i) as [r Hr]; [lia|]. by apply Hall in Hr as [? _].
  - unfold Report_Healthy. cbn [Check Results]. rewrite forallb_forall. split.
    + intros Hh i Hi. destruct (lookup_lt_is_Some_2 (results s) i) as [r Hr]; [lia|].
      pose proof (Hh r (proj1 (list_elem_of_In _ _) (list_elem_of_lookup_2 _ _ _ Hr))) as Hx.
      apply Hall in Hr as [_ He]. unfold Healthy in Hx. rewrite He in Hx. apply runChecker_None.
      by destruct (runChecker (out i)).
    + intros Ho r Hin. apply list_elem_of_In, list_elem_of_lookup_1 in Hin as [i Hr].
      pose proof (lookup_lt_Some _ _ _ Hr). apply Hall in Hr as [_ He]. unfold Healthy. rewrite He, Ho by lia. done.
Qed.

(** C37: a report under every interleaving of the workers, the timeout and
    cancellation.  At most the configured number of checks run at a time, none
    twice; when the workers have returned, the results are in registration order,
    one per check.  The result of a check that was run has the duration of the
    move that finished it and, if the context was not done by then, exactly the
    check's error or recovered panic; if the context was done by then, an error
    that wraps the cause: the check's own one if it wraps the cause already, that
    joined with the cause otherwise, and the cause alone for a check that
    succeeded.  A check that was not run had the context done when its turn came,
    and has the cause as its error.  Without a cancellation every check was run
    once and the report is healthy exactly if all returned no error. *)
Theorem check_report l s t d :
  steps entries out l (start entries c) = Some s ->
  NoDup (called s) /\ (Z.of_nat (length (workers s ≫= checking)) <= concurrency c)%Z /\
  (finished s ->
   Name <$> Results (Check t d s) = ename <$> entries /\
   (forall i r, Results (Check t d s) !! i = Some r ->
      if bool_decide (i ∈ called s)
      then exists l1 w d l2 s1, l = l1 ++ Finish w d :: l2 /\ steps entries out l1 (start entries c) = Some s1 /\
        workers s1 !! w = Some (Checking i) /\ Duration r = d /\
        match first_cancel l1 with
        | None => Err r = runChecker (out i)
        | Some x => exists e, Err r = Some e /\ errors_Is e x = true /\
            match runChecker (out i) with
            | None => e = ErrNew x
            | Some e0 => if errors_Is e0 x then e = e0 else e = ErrJoin [e0; ErrNew x]
            end
        end
      else exists l1 w l2 s1 x, l = l1 ++ Look w :: l2 /\ steps entries out l1 (start entries c) = Some s1 /\
        workers s1 !! w = Some (Have i) /\ first_cancel l1 = Some x /\ Err r = Some (ErrNew x)) /\
   (first_cancel l = None -> Permutation (called s) (seq 0 n) /\
      (Report_Healthy (Check t d s) = true <-> forall i, i < n -> out i = Returns None))).
Proof.
  intros Hs. pose proof (steps_hinv _ _ _ _ _ _ start_hinv Hs) as H. split; [by apply called_once|]. split.
  { assert (Hlen : forall ws, length (ws ≫= checking) <= length ws).
    { induction ws as [|w ws IH]; [done|]. rewrite bind_cons, length_app. destruct w; simpl; lia. }
    specialize (Hlen (workers s)). rewrite (h_workers _ _ _ H) in Hlen. pose proof (newConfig_positive options). lia. }
  intros Hf. cbn [Check Results]. split; [apply H|]. split; [|by apply report_uncanceled].
  intros i r Hr. pose proof (final_slot l s i r Hs Hf Hr) as Ho. unfold outcome in Ho. case_bool_decide; [|done].
  destruct Ho as (l1 & w & d' & l2 & s1 & E & Hs1 & Hw & Hd & He). exists l1, w, d', l2, s1. split_and!; try done.
  rewrite He. destruct (first_cancel l1) as [x|]; [apply settle_cause|done].
Qed.

(** ** Termination *)

Definition weight (w : worker) : nat := match w with Have _ => 3 | Checking _ => 2 | Fetching => 1 | Exited => 0 end.
Definition measure (s : state) : nat := 3 * (n - next s) + sum_list_with weight (workers s).
Definition internal (a : action) : bool := match a with Cancel _ => false | _ => true end.

Lemma health_step_measure a s s' : internal a = true -> step entries out a s = Some s' -> measure s' < measure s.
Proof.
  destruct a as [w|w|w d|x]; cbn [internal step]; try done; intros _; unfold fetch, look, finish, measure.
  - destruct (workers s !! w) as [[]|] eqn:Hw; try done. intros [= <-]. cbn [next workers].
    destruct (Nat.leb_spec n (next s)).
    + pose proof (sum_list_with_insert weight _ _ _ Exited Hw) as Hsum. simpl in Hsum. lia.
    + pose proof (sum_list_with_insert weight _ _ _ (Have (next s)) Hw) as Hsum. simpl in Hsum. lia.
  - destruct (workers s !! w) as [[|i| |]|] eqn:Hw; try done.
    pose proof (fun st => sum_list_with_insert weight _ _ _ st Hw) as Hsum. simpl in Hsum.
    destruct (cause s); intros [= <-]; cbn [next workers].
    + specialize (Hsum Fetching). simpl in Hsum. lia.
    + specialize (Hsum (Checking i)). simpl in Hsum. lia.
  - destruct (workers s !! w) as [[| |i|]|] eqn:Hw; try done. intros [= <-]. cbn [next workers].
    pose proof (sum_list_with_insert weight _ _ _ Fetching Hw) as Hsum. simpl in Hsum. lia.
Qed.

(** A run of checks ends: until the workers have returned one of them can move (a
    check returns in the end), and at most [measure] moves are possible. *)
Theorem check_terminates l s :
  Forall (fun a => internal a = true) l -> steps entries out l (start entries c) = Some s ->
  length l <= measure (start entries c) /\
  (finished s \/ exists a s', internal a = true /\ step entries out a s = Some s').
Proof.
  intros Hi Hs. split.
  - assert (Hm : length l + measure s <= measure (start entries c)); [|lia]. revert Hs. generalize (start entries c).
    induction Hi as [|a l Ha Hi IH]; intros s0; cbn [steps]; [intros [= <-]; simpl; lia|].
    destruct (step entries out a s0) as [r|] eqn:E; [|done]. intros Hs%IH.
    pose proof (health_step_measure a s0 r Ha E). simpl. lia.
  - unfold finished. destruct (decide (Forall (fun w => w = Exited) (workers s))) as [Hf|Hf]; [by left|right].
    apply not_Forall_Exists, Exists_exists in Hf as (x & Hx & Hne); [|apply _].
    apply list_elem_of_lookup_1 in Hx as [i Hx]. destruct x; [| | |by destruct Hne].
    + exists (Fetch i). simpl. unfold fetch. rewrite Hx. by eauto.
    + exists (Look i). simpl. unfold look. rewrite Hx. by eauto.
    + exists (Finish i 0). simpl. unfold finish. rewrite Hx. by eauto.
Qed.
End Outcome.

(** ** The handler *)

(** What a response may depend on when errors are not shown. *)
Definition public (r : Result) : string * Z * bool := (Name r, Duration r, Healthy r).

(** the HTTP handler runs the checks for GET and HEAD only, and answers 405
    otherwise; when the response can be encoded, the status code is 200 exactly
    for a healthy report and 503 for an unhealthy one, and a HEAD request gets no
    body; and unless error details were asked for, the answer is the same for any
    two reports that agree on the names, durations and health of their results,
    so that no error text reaches a client. *)
Theorem serve_http durString errText marshal options method report report' :
  let details := newHandlerConfig options in
  let serve := ServeHTTP durString errText marshal details method in
  (ran (serve report) = true <-> method = "GET"%string \/ method = "HEAD"%string) /\
  (ran (serve report) = false -> code (serve report) = 405%Z /\ allow (serve report) = Some "GET, HEAD"%string) /\
  (ran (serve report) = true -> marshal (response durString errText details report) <> None ->
     code (serve report) = (if Report_Healthy report then 200 else 503)%Z /\
     (method = "HEAD"%string -> body (serve report) = None)) /\
  (Forall (fun o => o = None) options -> rDuration report = rDuration report' ->
     public <$> Results report = public <$> Results report' -> serve report = serve report').
Proof.
  cbv zeta. set (details := newHandlerConfig options). unfold ServeHTTP.
  assert (Hresp : Forall (fun o => o = None) options -> rDuration report = rDuration report' ->
    public <$> Results report = public <$> Results report' ->
    Report_Healthy report = Report_Healthy report' /\
    response durString errText details report = response durString errText details report').
  { intros Ho Hd Hr. assert (details = false) as ->.
    { unfold details, newHandlerConfig. generalize false. induction Ho as [|o l -> _ IH]; intros b; simpl; [done|apply IH]. }
    assert (Hh : Report_Healthy report = Report_Healthy report').
    { unfold Report_Healthy. revert Hr. generalize (Results report), (Results report').
      induction l as [|x l IH]; intros [|y l']; simpl; try done. intros [= _ _ E Hr]. by rewrite E, (IH l' Hr). }
    split; [done|]. unfold response. rewrite Hh, Hd. f_equal. revert Hr. generalize (Results report), (Results report').
    induction l as [|x l IH]; intros [|y l']; simpl; try done. intros [= E1 E2 E3 Hr]. f_equal; [|by apply IH].
    rewrite E1, E2, E3. f_equal. by destruct (Err x), (Err y). }
  assert (Hm : forall g, (method = "GET"%string \/ method = "HEAD"%string) ->
    ran (match marshal (response durString errText details report) with
         | None => mkServed 500 None (Some "Internal Server Error"%string) true
         | Some p => mkServed (if Report_Healthy report then 200 else 503) None (g p) true end) = true)
    by (intros g _; by destruct (marshal _)).
  destruct (decide (method = "GET"%string \/ method = "HEAD"%string)) as [Hok|Hno].
  - assert (negb (bool_decide (method = "GET"%string)) && negb (bool_decide (method = "HEAD"%string)) = false) as ->.
    { destruct Hok as [->| ->]; reflexivity. }
    rewrite (Hm (fun _ => _)) by done. split_and!; [done|done| |].
    + intros _ Hne. destruct (marshal _); [|done]. cbn [code body]. split; [done|]. intros ->. reflexivity.
    + intros Ho Hd Hr. destruct (Hresp Ho Hd Hr) as [-> ->]. done.
  - rewrite !bool_decide_false by (intros ->; apply Hno; auto). cbn. split_and!; [by split|done|done|done].
Qed.

(** Two workers over three checks; the timeout passes while the second one runs,
    which then panics, and before the third starts. *)
Definition demo_entries : list (checkEntry unit) := [mkEntry "db" tt; mkEntry "cache" tt; mkEntry "mail" tt].
Definition demo_out (i : nat) : checked := if i =? 1 then Panics None else Returns None.
Definition demo_options : list (option Option_) := [Some (WithConcurrency 2)].
Definition demo_schedule : list action :=
  [Fetch 0; Fetch 1; Look 1; Look 0; Finish 0 9; Fetch 0; Cancel "context deadline exceeded"; Finish 1 7; Fetch 1;
   Look 0; Fetch 0].
Definition demo_state : state :=
  default (start demo_entries (newConfig demo_options))
    (steps demo_entries demo_out demo_schedule (start demo_entries (newConfig demo_options))).

Lemma demo_schedule_runs :
  steps demo_entries demo_out demo_schedule (start demo_entries (newConfig demo_options)) = Some demo_state.
Proof. vm_compute. reflexivity. Qed.

Lemma check_report_witness :
  Name <$> Results (Check 0 20 demo_state) = ["db"; "cache"; "mail"]%string /\
  Err <$> results demo_state
  = [None; Some (ErrJoin [ErrMsg "health: checker panic"; DeadlineExceeded]); Some DeadlineExceeded].
Proof.
  pose proof (check_report demo_entries demo_out demo_options demo_schedule demo_state 0 20 demo_schedule_runs)
    as (_ & _ & Hf).
  assert (Hfin : finished demo_state) by (vm_compute; repeat constructor).
  destruct (Hf Hfin) as [Hn _]. split; [exact Hn|vm_compute; reflexivity].
Defined.
