(* ===== verification/Pagination.v ===== *)
(** * Pages of a counted list: [src/x/pagination]

    The arithmetic of a paginator at 64 bits, and that its pages cover the items
    exactly once while the sums fit. *)

From S2P Require Import Prelude.
From stdpp Require Import options.
Set Default Proof Using "Type*".
Local Open Scope Z_scope.
Local Open Scope go_scope.

Definition defaultPerPage : Z := 10.
Definition defaultPage : Z := 1.

Record Paginator := mkPaginator {
  page : Z; prePage : Z; total : Z; lastPage : Z; offset : Z; hasMore : bool; prevPage : Z; nextPage : Z
}.

Definition setPrePage (prePage : Z) : Z := if prePage <? 1 then defaultPerPage else prePage.

Definition setLastPage (total prePage : Z) : Z :=
  Z.max (Z.quot ((total +₆₄ prePage) -₆₄ 1) prePage) 1.

Definition setPage (page lastPage : Z) : Z :=
  let page := if page <? 1 then defaultPage else page in
  if page >? lastPage then lastPage else page.

(** [NewPaginator] with [init]. *)
Definition NewPaginator (page prePage total : Z) : Paginator :=
  let prePage := setPrePage prePage in
  let lastPage := setLastPage total prePage in
  let page := setPage page lastPage in
  let hasMore := (page *₆₄ prePage) <? total in
  mkPaginator page prePage total lastPage ((page -₆₄ 1) *₆₄ prePage) hasMore
    (if page >? 1 then page -₆₄ 1 else page)
    (if hasMore then page +₆₄ 1 else page).

(** The items of a page, counted from zero. *)
Definition on_page (p : Paginator) (i : Z) : Prop := offset p <= i < Z.min (offset p + prePage p) (total p).

(** The last page is the rounded-up quotient, and at least one. *)
Lemma last_page_exact tot per :
  0 <= tot -> 1 <= per -> tot + per <= maxInt64 ->
  setLastPage tot per = Z.max ((tot + per - 1) / per) 1.
Proof.
  intros Ht Hp Hb. unfold setLastPage. rewrite (wrap64_id (tot + per)), wrap64_id by int_lia. by rewrite Z.quot_div_nonneg by lia.
Qed.

(** For an item count, a page size and a page that do not overflow, the paginator
    shows a page that exists, its links lead to existing neighbours, there is more
    exactly if it is not the last, and every item is on exactly one of its pages. *)
Theorem paginator_exact pg per tot :
  0 <= tot -> tot + setPrePage per <= maxInt64 ->
  let p := NewPaginator pg per tot in
  1 <= page p <= lastPage p /\ (1 <= pg <= lastPage p -> page p = pg) /\
  offset p = (page p - 1) * prePage p /\ 0 <= offset p /\
  (hasMore p = true <-> page p < lastPage p) /\
  prevPage p = Z.max 1 (page p - 1) /\ nextPage p = Z.min (lastPage p) (page p + 1) /\
  (forall i, 0 <= i < tot ->
     exists k, 1 <= k <= lastPage p /\
       forall k', 1 <= k' <= lastPage p -> (on_page (NewPaginator k' per tot) i <-> k' = k)).
Proof.
  intros Ht Hb. assert (Hper : 1 <= setPrePage per) by (unfold setPrePage, defaultPerPage; bcase; lia).
  set (s := setPrePage per) in *. pose proof (last_page_exact tot s Ht Hper Hb) as Hlast.
  set (q := (tot + s - 1) / s) in *.
  assert (Hq : (q - 1) * s < tot <= q * s).
  { pose proof (Z.div_mod (tot + s - 1) s ltac:(lia)) as Hdm. pose proof (Z.mod_pos_bound (tot + s - 1) s ltac:(lia)).
    fold q in Hdm. nia. }
  assert (Hq0 : 0 <= q) by (apply Z.div_pos; lia).
  assert (Hfacts : forall k, 1 <= setPage k (setLastPage tot s) <= Z.max q 1).
  { intros k. rewrite Hlast. unfold setPage, defaultPage. bcase; lia. }
  assert (Hsame : forall k, 1 <= k <= Z.max q 1 -> setPage k (setLastPage tot s) = k).
  { intros k Hk. rewrite Hlast. unfold setPage. bcase; lia. }
  assert (Hk : forall k, 1 <= k <= Z.max q 1 ->
    (k *₆₄ s) = k * s /\ ((k -₆₄ 1) *₆₄ s) = (k - 1) * s /\ (k -₆₄ 1) = k - 1 /\ (k +₆₄ 1) = k + 1).
  { intros k Hk. assert (k * s <= tot + s) by nia. assert (0 <= (k - 1) * s) by nia.
    assert (q <= Z.max tot 1) by nia. assert (k <= maxInt64 - 1) by int_lia. rewrite (wrap64_id (k - 1)) by int_lia.
    rewrite !wrap64_id by int_lia. done. }
  cbv zeta. unfold NewPaginator. fold s. cbn [page prePage total lastPage offset hasMore prevPage nextPage].
  pose proof (Hfacts pg) as Hpg. set (k := setPage pg (setLastPage tot s)) in *. destruct (Hk k Hpg) as (-> & -> & -> & ->).
  rewrite Hlast. split; [lia|]. split; [intros Hin; unfold k; by apply Hsame|]. split; [done|]. split; [nia|].
  assert (Hmore : (k * s <? tot) = true <-> k < Z.max q 1).
  { rewrite Z.ltb_lt. split; intros; nia. }
  split; [done|]. split; [bcase; lia|]. split.
  { destruct (k * s <? tot); [pose proof (proj1 Hmore eq_refl); lia|]. assert (~ k < Z.max q 1) by (by rewrite <- Hmore). lia. }
  intros i Hi. assert (Hrange : 1 <= i / s + 1 <= Z.max q 1).
  { pose proof (Z.div_mod i s ltac:(lia)) as Hdm. pose proof (Z.mod_pos_bound i s ltac:(lia)). nia. }
  exists (i / s + 1). split; [done|]. intros k' Hk'. unfold on_page. cbn [offset prePage total]. fold s.
  rewrite <- Hlast, (Hsame k' Hk'). destruct (Hk k' Hk') as (_ & -> & _).
  pose proof (Z.div_mod i s ltac:(lia)) as Hdm. pose proof (Z.mod_pos_bound i s ltac:(lia)). split; intros; nia.
Qed.

Lemma paginator_exact_witness :
  page (NewPaginator 9 10 25) = 3 /\ (hasMore (NewPaginator 9 10 25) = true <-> 3 < 3).
Proof.
  pose proof (paginator_exact 9 10 25 ltac:(lia) ltac:(vm_compute; discriminate)) as (_ & _ & _ & _ & Hm & _).
  split; [reflexivity|exact Hm].
Defined.

(** When the sum of the count and the page size overflows, the last page is
    wrong: a count of the largest integer has one page of ten items. *)
Theorem last_page_overflow : lastPage (NewPaginator 1 10 maxInt64) = 1.
Proof. reflexivity. Qed.
