(* ===== verification/JsonRpc.v ===== *)
(** * The JSON-RPC client: [src/jsonrpc]

    Request IDs with their JSON form, the middleware chain, the client with its
    namespaces, and the HTTP transport.  The text of JSON is [encoding/json]'s
    ([JSONText]); the codec of a client, the ID generator, the HTTP client and the
    middlewares are the caller's.  Clients are written against an interface of
    sequences ([SeqOps]) that has two instances, Go slices over shared arrays
    ([GoSlices]) and immutable lists: the theorems show that no program can tell
    one from the other. *)

From S2P Require Import Prelude GoErrors GoStrconv GoUtf8 GoRunes GoFloat GoSlices.
From Stdlib Require Import SpecFloat Ascii.
From stdpp Require Import options.
Set Default Proof Using "Type*".
Local Open Scope Z_scope.

(** ** [id.go] *)

(** The dynamic types [NewID] distinguishes: the integer types are converted
    alike; [AnyOther] is every other type, named by [%T]. *)
Inductive any :=
| AnyNil
| AnyString (s : string)
| AnyInt (z : Z)
| AnyFloat32 (f : spec_float)
| AnyFloat64 (f : spec_float)
| AnyComplex64 (re im : spec_float)
| AnyComplex128 (re im : spec_float)
| AnyOther (type : string).

Record ID := mkID { str : option string; num : option spec_float; isNil : bool }.

Definition NewID (v : any) : option ID :=
  match v with
  | AnyNil => Some (mkID None None true)
  | AnyString s => Some (mkID (Some s) None false)
  | AnyInt z => Some (mkID None (Some (float64_of_int z)) false)
  | AnyFloat32 f => Some (mkID None (Some (float64_of_float32 f)) false)
  | AnyFloat64 f => Some (mkID None (Some f) false)
  | AnyComplex64 re _ => Some (mkID None (Some (float64_of_float32 re)) false)
  | AnyComplex128 re _ => Some (mkID None (Some re) false)
  | AnyOther _ => None
  end.

(** [encoding/json] on the values of an ID. *)
Class JSONText (bytes : Type) := {
  json_null : bytes;
  json_string : string -> bytes;
  json_float : spec_float -> bytes + error;
  json_any : bytes -> any + error
}.

(** A value that was encoded is decoded to itself, a string with its ill-formed
    bytes replaced by U+FFFD; numbers that are not finite are refused. *)
Class JSONLaws (bytes : Type) {J : JSONText bytes} := {
  json_any_null : json_any json_null = inl AnyNil;
  json_any_string s : json_any (json_string s) = inl (AnyString (coerced s));
  json_any_float f b :
    valid_binary prec64 emax64 f = true -> json_float f = inl b -> json_any b = inl (AnyFloat64 f);
  json_float_finite f : (exists b, json_float f = inl b) <-> is_finite f = true
}.

Section Text.
Context {bytes : Type} {J : JSONText bytes}.
Variable (Sprintf_v : spec_float -> string).

Definition ID_String (i : ID) : string :=
  if isNil i then "null"
  else match str i with
       | Some s => s
       | None => match num i with Some f => Sprintf_v f | None => "null" end
       end.

(** The receiver is assigned only when the value is accepted. *)
Definition UnmarshalJSON (i : ID) (data : bytes) : ID * option error :=
  match json_any data with
  | inr err => (i, Some (ErrWrapf "jsonrpc: unmarshal id" err))
  | inl value =>
      match NewID value with
      | None => (i, Some (ErrMsg "jsonrpc: invalid id type"))
      | Some id => (id, None)
      end
  end.

Definition MarshalJSON (i : ID) : bytes + error :=
  if isNil i then inl json_null
  else match str i with
       | Some s => inl (json_string s)
       | None => match num i with Some f => json_float f | None => inl json_null end
       end.
End Text.

(** ** [types.go] *)

Definition ProtocolVersion : string := "2.0".

Section Messages.
Context {bytes : Type}.

Record Request := mkRequest { JSONRPC : string; Method : string; Params : bytes; reqID : option ID }.

Record Error := mkError { Code : Z; Message : string; Data : option bytes }.

Record Response := mkResponse {
  respJSONRPC : string; Result : bytes; respError : option Error; respID : option ID
}.

(** [fmt.Sprintf("code: %d, message: %s", e.Code, e.Message)] *)
Definition Error_Error (e : Error) : string :=
  ("code: " ++ FormatInt (Code e) ++ ", message: " ++ Message e)%string.

(** Each call makes an error of its own, which no target equals. *)
Definition Error_Unwrap (e : Error) : error := ErrMsg (Message e).

(** The error of a call: any error of Go, or the one of the response. *)
Inductive call_error := GoError (err : error) | RPCError (err : Error).
End Messages.
Arguments Request : clear implicits.
Arguments Error : clear implicits.
Arguments Response : clear implicits.
Arguments call_error : clear implicits.

(** ** [middleware.go] and [client.go]

    [W] is the state of everything outside the package, [V] what the [result] of a
    call may hold; [None] is a panic.  A nil function in the place of a middleware
    panics when it is called. *)
Section Client.
Context {W V bytes : Type}.

Definition Handler :=
  context -> string -> Request bytes -> W -> option (option (Response bytes) * option (call_error bytes)) * W.
Definition Middleware := Handler -> Handler.

(** [for _, mw := range slices.Backward(middlewares) { final = mw(final) }] *)
Definition chain (middlewares : list (option Middleware)) (final : Handler) : option Handler :=
  foldl (fun final mw => next ← final; mw ← mw; Some (mw next)) (Some final) (reverse middlewares).

Definition IDGenerator := W -> option ID * W.

(** [NewUUIDGenerator().Generate()] *)
Definition uuid_Generate (uuid_New : W -> string * W) : IDGenerator :=
  fun w => let '(u, w) := uuid_New w in (NewID (AnyString u), w).

Record Codec := mkCodec {
  Marshal : list V -> bytes + error;
  Unmarshal : bytes -> V -> V * option error
}.

Section Sequences.
Context {H S : Type} {seq : SeqOps (option Middleware) H S}.

(** A context: the value under the package's private key, and the rest, which is
    all that others see of it. *)
Record Ctx := mkCtx { base : context; mwKey : option S }.

Definition ContextWithMiddlewares (ctx : Ctx) (mws : S) (h : H) : H * Ctx :=
  let '(h, v) := seq_clone mws h in (h, mkCtx (base ctx) (Some v)).

Definition middlewaresFromContext (ctx : Ctx) : S :=
  match mwKey ctx with Some mws => mws | None => seq_nil end.

Definition combineMiddlewares (ctx : Ctx) (original : S) (h : H) : H * S :=
  let request := middlewaresFromContext ctx in
  if (seq_len request =? 0)%nat then (h, original) else seq_concat original request h.

Record client := mkClient {
  namespace : string; transport : Handler; middlewares : S; idGenerator : IDGenerator; codec : Codec
}.

(** The options, as the values their constructors capture. *)
Inductive Option := optMiddlewares (mws : S) | optIDGenerator (g : IDGenerator) | optCodec (c : Codec).

Definition WithMiddlewares (mws : S) (h : H) : H * Option :=
  let '(h, mws) := seq_clone mws h in (h, optMiddlewares mws).
Definition WithIDGenerator (g : IDGenerator) : Option := optIDGenerator g.
Definition WithCodec (c : Codec) : Option := optCodec c.

Definition set_middlewares (m : S) (c : client) : client :=
  mkClient (namespace c) (transport c) m (idGenerator c) (codec c).

Definition apply (o : Option) (c : client) (h : H) : H * client :=
  match o with
  | optMiddlewares mws => let '(h, m) := seq_append (middlewares c) mws h in (h, set_middlewares m c)
  | optIDGenerator g => (h, mkClient (namespace c) (transport c) (middlewares c) g (codec c))
  | optCodec co => (h, mkClient (namespace c) (transport c) (middlewares c) (idGenerator c) co)
  end.

Fixpoint apply_all (os : list Option) (c : client) (h : H) : H * client :=
  match os with
  | [] => (h, c)
  | o :: os => let '(h, c) := apply o c h in apply_all os c h
  end.

Definition NewClient (DefaultIDGenerator : IDGenerator) (DefaultCodec : Codec) (transport : Handler)
    (opts : list Option) (h : H) : H * client :=
  let '(h, m) := seq_make [] h in
  apply_all opts (mkClient "" transport m DefaultIDGenerator DefaultCodec) h.

Definition Use (c : client) (mws : S) (h : H) : H * client :=
  let '(h, m) := seq_append (middlewares c) mws h in (h, set_middlewares m c).

Definition Namespace (c : client) (name : string) (h : H) : H * client :=
  let '(h, m) := seq_clone (middlewares c) h in
  (h, mkClient name (transport c) m (idGenerator c) (codec c)).

(** The result after the call, with what the call returns. *)
Definition invoke (c : client) (ctx : Ctx) (result : V) (method : string) (args : list V) (h : H) (w : W)
    : option (V * option (Response bytes) * option (call_error bytes)) * H * W :=
  match Marshal (codec c) args with
  | inr err => (Some (result, None, Some (GoError err)), h, w)
  | inl params =>
      let '(id, w) := idGenerator c w in
      let req := mkRequest ProtocolVersion method params id in
      let '(h, mws) := combineMiddlewares ctx (middlewares c) h in
      match chain (seq_list mws h) (transport c) with
      | None => (None, h, w)
      | Some send =>
          let '(sent, w) := send (base ctx) (namespace c) req w in
          (match sent with
           | None => None
           | Some (resp, Some err) => Some (result, resp, Some err)
           | Some (None, None) => None (* [resp.Error] of a nil response *)
           | Some (Some resp, None) =>
               match respError resp with
               | Some e => Some (result, Some resp, Some (RPCError e))
               | None =>
                   let '(result, err) := Unmarshal (codec c) (Result resp) result in
                   Some (result, Some resp, GoError <$> err)
               end
           end, h, w)
      end
  end.
Definition Invoke := invoke.

(** ** Programs over clients

    The values a caller holds: slices it may build and assign to, options,
    clients and contexts, each addressed by when it was made; [calls] are the
    outcomes of its calls.  An operation on what does not exist is not a program
    and changes nothing. *)
Record system := mkSystem {
  heap : H; world : W; vars : list S; options : list Option; clients : list client; ctxs : list Ctx;
  calls : list (option (V * option (Response bytes) * option (call_error bytes)))
}.

End Sequences.
Arguments client : clear implicits.
Arguments Option : clear implicits.
Arguments Ctx : clear implicits.
Arguments system : clear implicits.

Inductive op :=
| OMake (xs : list (option Middleware))
| OSet (v i : nat) (m : option Middleware)
| OWithMiddlewares (v : nat)
| OWithIDGenerator (g : IDGenerator)
| OWithCodec (c : Codec)
| ONewClient (transport : Handler) (os : list nat)
| OUse (c v : nat)
| ONamespace (c : nat) (name : string)
| OContext (x v : nat)
| OInvoke (c x : nat) (result : V) (method : string) (args : list V).

Section Programs.
Context {H S : Type} {seq : SeqOps (option Middleware) H S}.
Variables (DefaultIDGenerator : IDGenerator) (DefaultCodec : Codec).

Definition exec_opt (o : op) (s : system H S) : option (system H S) :=
  let '(mkSystem h w vs os cs xs ls) := s in
  match o with
  | OMake l => let '(h, v) := seq_make l h in Some (mkSystem h w (vs ++ [v]) os cs xs ls)
  | OSet v i m => sv ← vs !! v; let '(h, sv) := seq_set i m sv h in Some (mkSystem h w (<[v:=sv]> vs) os cs xs ls)
  | OWithMiddlewares v =>
      sv ← vs !! v; let '(h, op) := WithMiddlewares sv h in Some (mkSystem h w vs (os ++ [op]) cs xs ls)
  | OWithIDGenerator g => Some (mkSystem h w vs (os ++ [WithIDGenerator g]) cs xs ls)
  | OWithCodec co => Some (mkSystem h w vs (os ++ [WithCodec co]) cs xs ls)
  | ONewClient tr l =>
      opts ← mapM (fun i => os !! i) l;
      let '(h, c) := NewClient DefaultIDGenerator DefaultCodec tr opts h in
      Some (mkSystem h w vs os (cs ++ [c]) xs ls)
  | OUse c v =>
      cl ← cs !! c; sv ← vs !! v;
      let '(h, cl) := Use cl sv h in Some (mkSystem h w vs os (<[c:=cl]> cs) xs ls)
  | ONamespace c name =>
      cl ← cs !! c; let '(h, cl) := Namespace cl name h in Some (mkSystem h w vs os (cs ++ [cl]) xs ls)
  | OContext x v =>
      cx ← xs !! x; sv ← vs !! v;
      let '(h, cx) := ContextWithMiddlewares cx sv h in Some (mkSystem h w vs os cs (xs ++ [cx]) ls)
  | OInvoke c x result method args =>
      cl ← cs !! c; cx ← xs !! x;
      let '(r, h, w) := Invoke cl cx result method args h w in Some (mkSystem h w vs os cs xs (ls ++ [r]))
  end.
Definition exec (s : system H S) (o : op) : system H S := default s (exec_opt o s).

(** A program starts with one context. *)
Definition start (h : H) (w : W) (ctx : context) : system H S := mkSystem h w [] [] [] [mkCtx ctx None] [].
Definition run (ops : list op) (s : system H S) : system H S := foldl exec s ops.
End Programs.
End Client.

(** ** [transport.go] *)

(** [strings.TrimSuffix(s, "/")] and [strings.TrimPrefix(s, "/")]. *)
Definition slash : ascii := ascii_of_nat 47.
Fixpoint TrimSuffix (s : string) : string :=
  match s with
  | EmptyString => EmptyString
  | String a EmptyString => if Ascii.eqb a slash then EmptyString else s
  | String a s' => String a (TrimSuffix s')
  end.
Definition TrimPrefix (s : string) : string :=
  match s with
  | String a s' => if Ascii.eqb a slash then s' else s
  | EmptyString => s
  end.

Section Transport.
Context {W bytes : Type}.

Record HTTPRequest := mkHTTPRequest {
  httpMethod : string; URL : string; Body : bytes; httpHeader : gmap string string
}.

(** [Do] of an [http.Client]: the body of the response, or an error. *)
Definition HTTPClient := context -> HTTPRequest -> W -> (bytes + error) * W.

(** A nil client panics when it is used. *)
Record HTTPTransport := mkHTTPTransport { addr : string; userAgent : string; httpClient : option HTTPClient }.

Definition WithHTTPTransportUserAgent (ua : string) (h : HTTPTransport) : HTTPTransport :=
  mkHTTPTransport (addr h) ua (httpClient h).
Definition WithHTTPTransportClient (c : option HTTPClient) (h : HTTPTransport) : HTTPTransport :=
  mkHTTPTransport (addr h) (userAgent h) c.

Definition NewHTTPTransport (DefaultClient : HTTPClient) (addr : string)
    (opts : list (HTTPTransport -> HTTPTransport)) : HTTPTransport :=
  foldl (fun h opt => opt h) (mkHTTPTransport (TrimSuffix addr) "" (Some DefaultClient)) opts.

(** [json.Encoder], [json.Decoder] and the parsing of the address. *)
Variables (Encode : Request bytes -> bytes + error) (Decode : bytes -> Response bytes + error)
  (parse_URL : string -> option error).

Definition send_addr (h : HTTPTransport) (namespace : string) : string :=
  if negb (bool_decide (namespace = ""%string)) then (addr h ++ "/" ++ TrimPrefix namespace)%string else addr h.

Definition Send (h : HTTPTransport) : @Handler W bytes := fun ctx namespace request w =>
  let addr := send_addr h namespace in
  match Encode request with
  | inr err => (Some (None, Some (GoError err)), w)
  | inl buf =>
      match parse_URL addr with
      | Some err => (Some (None, Some (GoError err)), w)
      | None =>
          let header := <["Content-Type" := "application/json"]> (∅ : gmap string string) in
          let header :=
            if negb (bool_decide (userAgent h = "")) then <["User-Agent" := userAgent h]> header else header in
          match httpClient h with
          | None => (None, w)
          | Some Do =>
              let '(httpResp, w) := Do ctx (mkHTTPRequest "POST" addr buf header) w in
              match httpResp with
              | inr err => (Some (None, Some (GoError err)), w)
              | inl body =>
                  match Decode body with
                  | inr err => (Some (None, Some (GoError err)), w)
                  | inl resp => (Some (Some resp, None), w)
                  end
              end
          end
      end
  end%string.
End Transport.

(** ** IDs *)

(** An ID as the other side of the wire sees it. *)
Definition on_wire (i : ID) : ID := mkID (coerced <$> str i) (num i) (isNil i).

Lemma on_wire_same i : on_wire i = i <-> forall s, str i = Some s -> ValidString s = true.
Proof.
  destruct i as [[s|] f b]; unfold on_wire; simpl; [|by split]. split.
  - intros [= E] ? [= <-]. by apply coerced_same.
  - intros H. f_equal. f_equal. by apply coerced_same, H.
Qed.

(** C24: Every ID the constructor makes that can be encoded is decoded, whatever the
    receiver was, to that ID with the ill-formed bytes of its string replaced by
    U+FFFD; that is the ID itself exactly when it is not a string that is invalid
    UTF-8.  It cannot be encoded only if it is an infinity or not a number.  A
    number is given as a canonical float64, as every value of the type is. *)
Theorem id_roundtrip {bytes : Type} {J : JSONText bytes} {L : JSONLaws bytes} (v : any) (id old : ID) :
  NewID v = Some id -> (forall f, num id = Some f -> valid_binary prec64 emax64 f = true) ->
  match MarshalJSON id with
  | inl b => UnmarshalJSON old b = (on_wire id, None)
  | inr _ => exists f, num id = Some f /\ is_finite f = false
  end /\
  (on_wire id = id <-> forall s, str id = Some s -> ValidString s = true).
Proof.
  intros Hn Hv. split; [|apply on_wire_same].
  assert (Hnum : forall f, id = mkID None (Some f) false -> match MarshalJSON id with
    | inl b => UnmarshalJSON old b = (on_wire id, None)
    | inr _ => exists f, num id = Some f /\ is_finite f = false
    end).
  { intros f ->. unfold MarshalJSON, UnmarshalJSON. cbn. destruct (json_float f) as [b|e] eqn:E.
    - by rewrite (json_any_float f b (Hv f eq_refl) E).
    - exists f. split; [done|]. destruct (is_finite f) eqn:Ef; [|done].
      apply json_float_finite in Ef as [b Eb]. congruence. }
  destruct v; cbn in Hn; [| |injection Hn as Hn; symmetry in Hn; by apply (Hnum _ Hn)..|done]; injection Hn as <-.
  - unfold MarshalJSON, UnmarshalJSON. cbn. by rewrite json_any_null.
  - unfold MarshalJSON, UnmarshalJSON. cbn. by rewrite json_any_string.
Qed.

(** Distinct integers of at most 53 bits are distinct IDs. *)
Theorem id_int_inj z1 z2 :
  Z.abs z1 < 2 ^ 53 -> Z.abs z2 < 2 ^ 53 -> NewID (AnyInt z1) = NewID (AnyInt z2) -> z1 = z2.
Proof.
  intros H1 H2 E. cbn in E. injection E as E.
  destruct (decide (z1 = 0)) as [->|Hz1], (decide (z2 = 0)) as [->|Hz2]; [done| | |].
  - destruct (float64_exact z2 Hz2 H2) as (m & E2 & _). rewrite E2 in E. done.
  - destruct (float64_exact z1 Hz1 H1) as (m & E1 & _). rewrite E1 in E. done.
  - destruct (float64_exact z1 Hz1 H1) as (m1 & E1 & M1 & _), (float64_exact z2 Hz2 H2) as (m2 & E2 & M2 & _).
    rewrite E1, E2 in E. injection E as Es Em Ee. rewrite Em, M2, Ee in M1.
    assert (Z.log2 (Z.abs z2) < 53) by (apply Z.log2_lt_pow2; lia).
    apply Z.mul_cancel_r in M1; [|apply Z.pow_nonzero; lia].
    destruct (Z.ltb_spec z1 0), (Z.ltb_spec z2 0); try done; lia.
Qed.

(** Beyond, they may collide: the code turns every integer into a double. *)
Example id_collision : NewID (AnyInt (2 ^ 53)) = NewID (AnyInt (2 ^ 53 + 1)).
Proof. reflexivity. Qed.

(** ** Clients over slices are clients over lists

    A state of both worlds at once: every slice with the list it stands for. *)
Section Refinement.
Context {W V bytes : Type} {growth : Growth}.
Variables (DefaultIDGenerator : @IDGenerator W) (DefaultCodec : @Codec V bytes).
Local Abbreviation mw := (option (@Middleware W bytes)).
Local Abbreviation both := (slice * list mw)%type.
Local Abbreviation client_of S := (@client W V bytes S).
Local Abbreviation option_of S := (@Option W V bytes S).
Local Abbreviation ctx_of S := (@Ctx S).
Local Abbreviation conc := (@system W V bytes (arrays mw) slice).
Local Abbreviation abst := (@system W V bytes unit (list mw)).

Definition client_map {S T} (f : S -> T) (c : client_of S) : client_of T :=
  mkClient (namespace c) (transport c) (f (middlewares c)) (idGenerator c) (codec c).
Definition option_map' {S T} (f : S -> T) (o : option_of S) : option_of T :=
  match o with
  | optMiddlewares s => optMiddlewares (f s)
  | optIDGenerator g => optIDGenerator g
  | optCodec c => optCodec c
  end.
Definition ctx_map {S T} (f : S -> T) (x : ctx_of S) : ctx_of T := mkCtx (base x) (f <$> mwKey x).

Definition option_seqs {S} (o : option_of S) : list S := match o with optMiddlewares s => [s] | _ => [] end.
Definition ctx_seqs {S} (x : ctx_of S) : list S := match mwKey x with Some s => [s] | None => [] end.

(** All the slices of a state. *)
Definition seqs (vs : list both) (os : list (option_of both)) (cs : list (client_of both)) (xs : list (ctx_of both))
    : list both :=
  vs ++ (os ≫= option_seqs) ++ (middlewares <$> cs) ++ (xs ≫= ctx_seqs).

(** [s] and [a] agree on all that is not a slice, and each slice of [s] holds the
    list of [a] in an array of its own. *)
Definition refines (s : conc) (a : abst) : Prop :=
  exists vs os cs xs,
    s = mkSystem (heap s) (world s) (fst <$> vs) (option_map' fst <$> os) (client_map fst <$> cs) (ctx_map fst <$> xs)
          (calls s) /\
    a = mkSystem tt (world s) (snd <$> vs) (option_map' snd <$> os) (client_map snd <$> cs) (ctx_map snd <$> xs)
          (calls s) /\
    separate (heap s) (seqs vs os cs xs).

(** The lists that slices of the state stand for. *)
Lemma separate_in h (ps : list both) s xs : separate h ps -> (s, xs) ∈ ps -> contents h s = xs /\ len s = length xs.
Proof using Type.
  intros [Hh _] Hin. rewrite Forall_forall in Hh. specialize (Hh _ Hin). cbn in Hh.
  split; [by apply holds_contents|by destruct Hh].
Qed.

(** Replacing one slice of the state by another. *)
Lemma singleton_bind {X Y} (f : X -> Y) (l : list X) : l ≫= (fun x => [f x]) = f <$> l.
Proof using Type. induction l as [|x l IH]; [done|]. cbn. by f_equal. Qed.

Lemma fmap_insert_perm {X Y} (f : X -> Y) (l : list X) i p q :
  l !! i = Some p -> f q :: (f <$> l) ≡ₚ f p :: (f <$> <[i:=q]> l).
Proof using Type.
  intros E. pose proof (bind_insert_perm (fun x => [f x]) l i p q E) as HP.
  by rewrite !singleton_bind in HP.
Qed.

Lemma seqs_var vs os cs xs v p q : vs !! v = Some p ->
  q :: seqs vs os cs xs ≡ₚ p :: seqs (<[v:=q]> vs) os cs xs.
Proof using Type.
  intros E. unfold seqs. rewrite !app_comm_cons. apply Permutation_app_tail.
  pose proof (fmap_insert_perm id vs v p q E) as HP. by rewrite !list_fmap_id in HP.
Qed.

Lemma seqs_client vs os cs xs c p q : cs !! c = Some p ->
  middlewares q :: seqs vs os cs xs ≡ₚ middlewares p :: seqs vs os (<[c:=q]> cs) xs.
Proof using Type.
  intros E. unfold seqs. pose proof (fmap_insert_perm middlewares cs c p q E) as HP.
  rewrite !(Permutation_middle vs). apply Permutation_app_head.
  rewrite !(Permutation_middle (os ≫= _)). apply Permutation_app_head.
  rewrite !app_comm_cons. by apply Permutation_app_tail.
Qed.

(** Adding one. *)
Lemma seqs_add vs os cs xs :
  (forall p, seqs (vs ++ [p]) os cs xs ≡ₚ p :: seqs vs os cs xs) /\
  (forall o, seqs vs (os ++ [o]) cs xs ≡ₚ option_seqs o ++ seqs vs os cs xs) /\
  (forall c, seqs vs os (cs ++ [c]) xs ≡ₚ middlewares c :: seqs vs os cs xs) /\
  (forall x, seqs vs os cs (xs ++ [x]) ≡ₚ ctx_seqs x ++ seqs vs os cs xs).
Proof using Type.
  unfold seqs. split_and!; intros y; rewrite ?bind_app, ?fmap_app; cbn; rewrite ?app_nil_r.
  - by rewrite <- app_assoc, Permutation_middle.
  - rewrite (Permutation_app_comm (os ≫= _)), <- !app_assoc, !(assoc_L (++) vs).
    by rewrite (Permutation_app_comm vs), <- !app_assoc.
  - by rewrite <- !app_assoc, !Permutation_middle.
  - rewrite (Permutation_app_comm _ (ctx_seqs y)). rewrite !(assoc_L (++)). do 1 f_equiv.
    by rewrite (Permutation_app_comm _ (ctx_seqs y)), !(assoc_L (++)).
Qed.

(** The operations on slices, in both worlds. *)
Lemma append_both h (p q : both) ps :
  separate h (p :: ps) -> q ∈ ps ->
  exists h' s', append p.1 (contents h q.1) h = (h', s') /\ separate h' ((s', p.2 ++ q.2) :: ps).
Proof using Type.
  destruct p as [s xs], q as [t zs]. intros Hs Hin. cbn.
  assert (Ht : contents h t = zs) by (eapply separate_in; [exact Hs|by right]).
  pose proof (separate_append h s xs zs ps Hs) as H. rewrite Ht. destruct (append s zs h) as [h' s']. eauto.
Qed.

Lemma clone_both h (q : both) ps :
  separate h ps -> q ∈ ps ->
  exists h' s', Clone q.1 h = (h', s') /\ separate h' ((s', q.2) :: ps).
Proof using Type.
  destruct q as [t zs]. intros Hs Hin. cbn. unfold Clone.
  rewrite (proj1 (separate_in _ _ _ _ Hs Hin)).
  pose proof (separate_fresh h zs ps Hs) as H. destruct (append nil_slice zs h) as [h' s']. eauto.
Qed.

Lemma concat_both h (p q : both) ps :
  separate h ps -> p ∈ ps -> q ∈ ps ->
  exists h' s', Concat p.1 q.1 h = (h', s') /\ separate h' ((s', p.2 ++ q.2) :: ps).
Proof using Type.
  destruct p as [s xs], q as [t zs]. intros Hs Hp Hq. cbn. unfold Concat.
  rewrite (proj1 (separate_in _ _ _ _ Hs Hp)), (proj1 (separate_in _ _ _ _ Hs Hq)).
  pose proof (separate_fresh h (xs ++ zs) ps Hs) as H. destruct (append nil_slice _ h) as [h' s']. eauto.
Qed.

Lemma apply_both (o : option_of both) (g : client_of both) h ps :
  separate h (middlewares g :: ps) -> option_seqs o ⊆ ps ->
  exists h' g', apply (option_map' fst o) (client_map fst g) h = (h', client_map fst g') /\
    apply (option_map' snd o) (client_map snd g) tt = (tt, client_map snd g') /\
    separate h' (middlewares g' :: ps).
Proof using Type.
  intros Hs Hin. destruct o as [q|i|c]; cbn.
  - destruct (append_both h (middlewares g) q ps Hs) as (h' & s' & E & Hs'); [apply Hin; by left|].
    rewrite E. exists h', (set_middlewares (s', (middlewares g).2 ++ q.2) g). by split_and!.
  - exists h, (mkClient (namespace g) (transport g) (middlewares g) i (codec g)). by split_and!.
  - exists h, (mkClient (namespace g) (transport g) (middlewares g) (idGenerator g) c). by split_and!.
Qed.

Lemma apply_all_both (os : list (option_of both)) (g : client_of both) h ps :
  separate h (middlewares g :: ps) -> (os ≫= option_seqs) ⊆ ps ->
  exists h' g', apply_all (option_map' fst <$> os) (client_map fst g) h = (h', client_map fst g') /\
    apply_all (option_map' snd <$> os) (client_map snd g) tt = (tt, client_map snd g') /\
    separate h' (middlewares g' :: ps).
Proof using Type.
  revert h g. induction os as [|o os IH]; intros h g Hs Hin; [by exists h, g|]. cbn in Hin.
  destruct (apply_both o g h ps Hs) as (h1 & g1 & E1 & E2 & Hs1);
    [intros y Hy; apply Hin, elem_of_app; by left|].
  destruct (IH h1 g1 Hs1) as (h2 & g2 & E3 & E4 & Hs2); [intros y Hy; apply Hin, elem_of_app; by right|].
  exists h2, g2. cbn. by rewrite E1, E2.
Qed.

Lemma combine_both (x : ctx_of both) (p : both) h ps :
  separate h ps -> p ∈ ps -> ctx_seqs x ⊆ ps ->
  exists h' s', combineMiddlewares (ctx_map fst x) p.1 h = (h', s') /\ separate h' ps /\
    combineMiddlewares (ctx_map snd x) p.2 tt = (tt, contents h' s').
Proof using Type.
  intros Hs Hp Hx. unfold combineMiddlewares, middlewaresFromContext. destruct x as [b [q|]]; cbn.
  - assert (Hq : q ∈ ps) by (apply Hx; by left). destruct q as [t zs]. cbn.
    rewrite (proj2 (separate_in _ _ _ _ Hs Hq)). destruct (length zs =? 0)%nat.
    + exists h, p.1. split_and!; [done|done|]. destruct p as [s xs]. cbn.
      by rewrite (proj1 (separate_in _ _ _ _ Hs Hp)).
    + destruct (concat_both h p (t, zs) ps Hs Hp Hq) as (h' & s' & E & Hs'). exists h', s'. cbn in E, Hs'.
      split_and!; [done|by apply separate_cons in Hs' as (_ & _ & ?)|]. f_equal. symmetry.
      eapply separate_in; [exact Hs'|by left].
  - exists h, p.1. split_and!; [done|done|]. destruct p as [s xs]. cbn.
    by rewrite (proj1 (separate_in _ _ _ _ Hs Hp)).
Qed.

Lemma invoke_both (g : client_of both) (x : ctx_of both) result method args h w ps :
  separate h ps -> middlewares g ∈ ps -> ctx_seqs x ⊆ ps ->
  exists r h' w', Invoke (client_map fst g) (ctx_map fst x) result method args h w = (r, h', w') /\
    Invoke (client_map snd g) (ctx_map snd x) result method args tt w = (r, tt, w') /\ separate h' ps.
Proof using Type.
  intros Hs Hp Hx. unfold Invoke, invoke.
  cbn [client_map ctx_map codec idGenerator middlewares transport namespace base]. destruct (Marshal (codec g) args) as [params|err]; [|by do 3 eexists].
  destruct (idGenerator g w) as [id w1].
  destruct (combine_both x (middlewares g) h ps Hs Hp Hx) as (h' & s' & E & Hs' & E'). rewrite E, E'.
  cbn [seq_list slice_seq list_seq].
  destruct (chain (contents h' s') (transport g)) as [send|]; [|by do 3 eexists].
  destruct (send (base x) (namespace g) (mkRequest ProtocolVersion method params id) w1) as [sent w2]. by do 3 eexists.
Qed.

Lemma NewClient_both tr (chosen : list (option_of both)) h ps :
  separate h ps -> (chosen ≫= option_seqs) ⊆ ps ->
  exists h' g,
    NewClient DefaultIDGenerator DefaultCodec tr (option_map' fst <$> chosen) h = (h', client_map fst g) /\
    NewClient DefaultIDGenerator DefaultCodec tr (option_map' snd <$> chosen) tt = (tt, client_map snd g) /\
    separate h' (middlewares g :: ps).
Proof using Type.
  intros Hs Hin. unfold NewClient. cbn [seq_make slice_seq list_seq]. pose proof (separate_literal h [] _ Hs) as Hl.
  destruct (literal [] h) as [h1 s1].
  apply (apply_all_both chosen (mkClient "" tr (s1, []) DefaultIDGenerator DefaultCodec) h1 _ Hl Hin).
Qed.

Lemma Use_both (g : client_of both) t zs h :
  contents h t = zs ->
  exists h' g', Use (client_map fst g) t h = (h', client_map fst g') /\
    Use (client_map snd g) zs tt = (tt, client_map snd g') /\
    (forall ps, separate h (middlewares g :: ps) -> separate h' (middlewares g' :: ps)).
Proof using Type.
  intros Ht. unfold Use. cbn [seq_append slice_seq list_seq client_map middlewares]. rewrite Ht.
  destruct (append (middlewares g).1 zs h) as [h' s'] eqn:Ea.
  exists h', (set_middlewares (s', (middlewares g).2 ++ zs) g). split_and!; [done|done|].
  intros ps Hps. destruct (middlewares g) as [s xs']. pose proof (separate_append h s xs' zs ps Hps) as Hq.
  cbn in Ea. by rewrite Ea in Hq.
Qed.

Lemma lookup_map {X Y} (f : X -> Y) (l : list X) (js : list nat) :
  mapM (fun i => (f <$> l) !! i) js = fmap f <$> mapM (fun i => l !! i) js.
Proof using Type.
  induction js as [|i js IH]; [done|]. simpl. rewrite list_lookup_fmap, IH.
  destruct (l !! i); [|done]. simpl. by destruct (mapM (fun i => l !! i) js).
Qed.

Lemma lookup_seqs (os chosen : list (option_of both)) js :
  mapM (fun i => os !! i) js = Some chosen -> (chosen ≫= option_seqs) ⊆ (os ≫= option_seqs).
Proof using Type.
  rewrite mapM_Some. intros HF p (o & Hp & Ho)%list_elem_of_bind. apply list_elem_of_bind. exists o. split; [done|].
  apply list_elem_of_lookup_1 in Ho as [j Hj]. destruct (Forall2_lookup_r _ _ _ _ _ HF Hj) as (i & _ & Hi).
  by eapply list_elem_of_lookup_2.
Qed.

Lemma refines_intro h w vs os cs xs ls :
  separate h (seqs vs os cs xs) ->
  refines (mkSystem h w (fst <$> vs) (option_map' fst <$> os) (client_map fst <$> cs) (ctx_map fst <$> xs) ls)
          (mkSystem tt w (snd <$> vs) (option_map' snd <$> os) (client_map snd <$> cs) (ctx_map snd <$> xs) ls).
Proof using Type. intros Hs. by exists vs, os, cs, xs. Qed.

(** A step of the state from a step of the two worlds at once. *)
Ltac from_ghost R := pose proof R as Hghost; rewrite ?fmap_app, ?list_fmap_insert in Hghost; apply Hghost.

Lemma seqs_in vs os cs xs :
  vs ⊆ seqs vs os cs xs /\ (os ≫= option_seqs) ⊆ seqs vs os cs xs /\
  (forall i c, cs !! i = Some c -> middlewares c ∈ seqs vs os cs xs) /\
  (forall i x, xs !! i = Some x -> ctx_seqs x ⊆ seqs vs os cs xs).
Proof using Type.
  unfold seqs. split_and!.
  - intros p Hp. apply elem_of_app. by left.
  - intros p Hp. apply elem_of_app. right. apply elem_of_app. by left.
  - intros i c E. rewrite !elem_of_app. right; right; left. apply list_elem_of_fmap. exists c. split; [done|].
    by eapply list_elem_of_lookup_2.
  - intros i x E p Hp. rewrite !elem_of_app. right; right; right. apply list_elem_of_bind. exists x. split; [done|].
    by eapply list_elem_of_lookup_2.
Qed.

Lemma exec_refines o s a :
  refines s a ->
  refines (exec DefaultIDGenerator DefaultCodec s o) (exec DefaultIDGenerator DefaultCodec a o).
Proof using Type.
  intros (vs & os & cs & xs & Es & Ea & Hs). set (h := heap s) in *. set (w := world s) in *. set (ls := calls s) in *.
  rewrite Es, Ea. clearbody h w ls. clear Es Ea s a.
  destruct (seqs_in vs os cs xs) as (Iv & Io & Ic & Ix). destruct (seqs_add vs os cs xs) as (Av & Ao & Ac & Ax).
  assert (Hid : refines
    (mkSystem h w (fst <$> vs) (option_map' fst <$> os) (client_map fst <$> cs) (ctx_map fst <$> xs) ls)
    (mkSystem tt w (snd <$> vs) (option_map' snd <$> os) (client_map snd <$> cs) (ctx_map snd <$> xs) ls))
    by (by apply refines_intro).
  unfold exec. destruct o as [l|v i m|v|g|co|tr l|c v|c name|x v|c x result method args]; cbn [exec_opt].
  - pose proof (separate_literal h l _ Hs) as Hl. cbn [seq_make slice_seq list_seq]. destruct (literal l h) as [h' s'].
    cbn [default]. from_ghost (refines_intro h' w (vs ++ [(s', l)]) os cs xs ls). by rewrite Av.
  - rewrite !list_lookup_fmap. destruct (vs !! v) as [[s' zs]|] eqn:E; [|exact Hid]. cbn.
    from_ghost (refines_intro (set_at i m s' h) w (<[v:=(s', <[i:=m]> zs)]> vs) os cs xs ls). cbn.
    apply (separate_replace h _ (s', zs) (s', <[i:=m]> zs) (seqs vs os cs xs)); [by eapply Iv, list_elem_of_lookup_2|by apply seqs_var|done|].
    intros ps. apply separate_set.
  - rewrite !list_lookup_fmap. destruct (vs !! v) as [p|] eqn:E; [|exact Hid]. cbn.
    destruct (clone_both h p _ Hs) as (h' & s' & Ec & Hs'); [apply Iv; by eapply list_elem_of_lookup_2|].
    unfold WithMiddlewares. cbn [seq_clone slice_seq list_seq]. rewrite Ec. cbn.
    from_ghost (refines_intro h' w vs (os ++ [optMiddlewares (s', p.2)]) cs xs ls). by rewrite Ao.
  - from_ghost (refines_intro h w vs (os ++ [optIDGenerator g]) cs xs ls). by rewrite Ao.
  - from_ghost (refines_intro h w vs (os ++ [optCodec co]) cs xs ls). by rewrite Ao.
  - rewrite !lookup_map. destruct (mapM (fun i => os !! i) l) as [chosen|] eqn:E; [|exact Hid]. cbn [fmap option_fmap option_map mbind option_bind].
    destruct (NewClient_both tr chosen h _ Hs) as (h' & g & E1 & E2 & Hs'); [etrans; [by eapply lookup_seqs|done]|].
    rewrite E1, E2. cbn [default].
    from_ghost (refines_intro h' w vs os (cs ++ [g]) xs ls). by rewrite Ac.
  - rewrite !list_lookup_fmap. destruct (cs !! c) as [g|] eqn:Eg; [|exact Hid].
    destruct (vs !! v) as [p|] eqn:E; [|exact Hid]. cbn [fmap option_fmap option_map mbind option_bind].
    destruct p as [t zs]. cbn [fst snd].
    pose proof (proj1 (separate_in h _ t zs Hs ltac:(by eapply Iv, list_elem_of_lookup_2))) as Ht.
    destruct (Use_both g t zs h Ht) as (h' & g' & E1 & E2 & Hstep). rewrite E1, E2. cbn [default].
    from_ghost (refines_intro h' w vs os (<[c:=g']> cs) xs ls).
    apply (separate_replace h _ (middlewares g) (middlewares g') (seqs vs os cs xs)); [by eapply Ic|by apply seqs_client|done|done].
  - rewrite !list_lookup_fmap. destruct (cs !! c) as [g|] eqn:Eg; [|exact Hid]. cbn.
    destruct (clone_both h (middlewares g) _ Hs) as (h' & s' & Ec & Hs'); [by eapply Ic|].
    unfold Namespace. cbn [seq_clone slice_seq list_seq client_map middlewares]. rewrite Ec. cbn.
    from_ghost (refines_intro h' w vs os
      (cs ++ [mkClient name (transport g) (s', (middlewares g).2) (idGenerator g) (codec g)]) xs ls). by rewrite Ac.
  - rewrite !list_lookup_fmap. destruct (xs !! x) as [g|] eqn:Eg; [|exact Hid].
    destruct (vs !! v) as [p|] eqn:E; [|exact Hid]. cbn.
    destruct (clone_both h p _ Hs) as (h' & s' & Ec & Hs'); [apply Iv; by eapply list_elem_of_lookup_2|].
    unfold ContextWithMiddlewares. cbn [seq_clone slice_seq list_seq]. rewrite Ec. cbn.
    from_ghost (refines_intro h' w vs os cs (xs ++ [mkCtx (base g) (Some (s', p.2))]) ls). by rewrite Ax.
  - rewrite !list_lookup_fmap. destruct (cs !! c) as [g|] eqn:Eg; [|exact Hid].
    destruct (xs !! x) as [y|] eqn:E; [|exact Hid]. cbn [fmap option_fmap option_map mbind option_bind].
    destruct (invoke_both g y result method args h w _ Hs) as (r & h' & w' & E1 & E2 & Hs'); [by eapply Ic|by eapply Ix|].
    rewrite E1, E2. by apply refines_intro.
Qed.

Lemma run_refines ops s a :
  refines s a -> refines (run DefaultIDGenerator DefaultCodec ops s) (run DefaultIDGenerator DefaultCodec ops a).
Proof using Type.
  revert s a. induction ops as [|o ops IH]; intros s a Hr; [done|]. by apply IH, exec_refines.
Qed.

(** What a caller sees of a refined state is the abstract one. *)
Lemma refines_view s a :
  refines s a ->
  world s = world a /\ calls s = calls a /\ client_map (contents (heap s)) <$> clients s = clients a.
Proof using Type.
  intros (vs & os & cs & xs & Es & Ea & Hs). rewrite Ea. split_and!; [done|done|]. rewrite Es at 2. cbn.
  rewrite <- list_fmap_compose. apply list_fmap_ext. intros i g E. unfold compose, client_map. cbn. f_equal.
  eapply separate_in; [exact Hs|]. rewrite <- surjective_pairing.
  by apply (proj1 (proj2 (proj2 (seqs_in vs os cs xs))) i g).
Qed.

(** C22: Whatever a program does with slices, options, clients and contexts, every call
    has the outcome, and every client the middlewares, they have when nothing is
    shared: [Use] on one client, an assignment to a slice once passed, or a call
    with middlewares of its own is never seen through another. *)
Theorem clients_isolated ops w ctx :
  let s := run DefaultIDGenerator DefaultCodec ops (start [] w ctx) : conc in
  let a := run DefaultIDGenerator DefaultCodec ops (start tt w ctx) : abst in
  world s = world a /\ calls s = calls a /\ client_map (contents (heap s)) <$> clients s = clients a.
Proof using Type.
  apply refines_view, run_refines. exists [], [], [], [mkCtx ctx None]. split_and!; [done|done|]. apply separate_nil.
Qed.
End Refinement.

(** ** Calls over HTTP *)

(** The address of a call does not depend on slashes at the end of the base or at
    the start of the namespace. *)
Definition ends_slash (s : string) : bool := negb (bool_decide (TrimSuffix s = s)).
Definition starts_slash (s : string) : bool := negb (bool_decide (TrimPrefix s = s)).

Lemma TrimSuffix_slash s : TrimSuffix (s ++ "/") = s.
Proof.
  induction s as [|a s IH]; [done|]. destruct s as [|b s]; [done|]. exact (f_equal (String a) IH).
Qed.

Theorem address_slashes {W bytes : Type} (cl : @HTTPClient W bytes) base ns :
  ends_slash base = false -> starts_slash ns = false -> ns <> ""%string ->
  forall b n, b ∈ [base; base ++ "/"]%string -> n ∈ [ns; "/" ++ ns]%string ->
  send_addr (NewHTTPTransport cl b []) n = (base ++ "/" ++ ns)%string.
Proof.
  intros Hb Hn Hne b n Hbin Hnin. unfold ends_slash, starts_slash in *.
  apply negb_false_iff, bool_decide_eq_true in Hb, Hn. unfold send_addr, NewHTTPTransport. cbn [foldl addr].
  assert (TrimSuffix b = base) as ->.
  { apply elem_of_cons in Hbin as [->|Hbin]; [done|]. apply list_elem_of_singleton in Hbin as ->. apply TrimSuffix_slash. }
  assert (n <> "" /\ TrimPrefix n = ns)%string as [Hn0 ->].
  { apply elem_of_cons in Hnin as [->|Hnin]; [done|]. by apply list_elem_of_singleton in Hnin as ->. }
  by rewrite bool_decide_false.
Qed.

Section Calls.
Context {W V bytes : Type}.
Variables (Encode : Request bytes -> bytes + error) (Decode : bytes -> Response bytes + error)
  (parse_URL : string -> option error).
Local Abbreviation log := (list (@HTTPRequest bytes)).

(** The world with every request the client is given. *)
Definition logged (Do : @HTTPClient W bytes) : @HTTPClient (W * log) bytes := fun ctx req w =>
  let '(r, w') := Do ctx req w.1 in (r, (w', w.2 ++ [req])).
Definition unlogged (g : @IDGenerator W) : @IDGenerator (W * log) := fun w =>
  let '(id, w') := g w.1 in (id, (w', w.2)).

(** C23: A call of a client without middlewares over HTTP never panics and makes at
    most one request, a POST to the address of the namespace that carries the
    method and the encoded arguments.  It succeeds only if that request was
    answered by a response without an error, whose result it has decoded. *)
Theorem http_call_once (Do : @HTTPClient W bytes) (g : @IDGenerator W) (co : @Codec V bytes) base ns ctx result method args w l :
  let t := NewHTTPTransport (logged Do) base [] in
  let c := mkClient ns (Send Encode Decode parse_URL t) [] (unlogged g) co in
  let '(r, _, w') := Invoke c (mkCtx ctx None) result method args tt (w, l) in
  (exists result' resp err, r = Some (result', resp, err) /\
    (err = None -> exists req body r0, w'.2 = l ++ [req] /\ (Do ctx req (g w).2).1 = inl body /\ resp = Some r0 /\
       Decode body = inl r0 /\ respError r0 = None /\ Unmarshal co (Result r0) result = (result', None))) /\
  (w'.2 = l \/ exists params body, Marshal co args = inl params /\
    Encode (mkRequest ProtocolVersion method params (g w).1) = inl body /\
    w'.2 = l ++ [mkHTTPRequest "POST" (send_addr t ns) body {["Content-Type" := "application/json"]}]).
Proof.
  cbn zeta. unfold Invoke, invoke. cbn [codec]. destruct (Marshal co args) as [params|err]; [|split; [by eexists _, _, _|by left]].
  cbn [idGenerator]. unfold unlogged. cbn [fst snd]. destruct (g w) as [id w1].
  cbn [combineMiddlewares middlewaresFromContext mwKey seq_len seq_list list_seq middlewares transport].
  unfold chain. cbn. unfold Send. destruct (Encode _) as [body|err] eqn:Ee; [|split; [by eexists _, _, _|by left]].
  destruct (parse_URL _) as [err|]; [split; [by eexists _, _, _|by left]|].
  cbn [NewHTTPTransport foldl httpClient userAgent]. unfold logged. cbn [fst snd].
  set (req := mkHTTPRequest _ _ _ _). 
  destruct (Do ctx req w1) as [[data|err] w2] eqn:Ed; [destruct (Decode data) as [r0|err] eqn:Er|].
  - split; [|right; exists params, body; by split_and!].
    destruct (respError r0) as [e|] eqn:Ee0; [by eexists _, _, _|].
    destruct (Unmarshal co (Result r0) result) as [result' [err|]] eqn:Eu; [by eexists _, _, _|].
    eexists _, _, _. split; [done|]. intros _. exists req, data, r0. cbn. by rewrite Ed.
  - split; [by eexists _, _, _|right; exists params, body; by split_and!].
  - split; [by eexists _, _, _|right; exists params, body; by split_and!].
Qed.
End Calls.

(** A text that is the value itself. *)
Definition demo_json : JSONText any := {|
  json_null := AnyNil; json_string s := AnyString (coerced s);
  json_float f := if is_finite f then inl (AnyFloat64 f) else inr (ErrMsg "json: unsupported value");
  json_any := inl
|}.
Definition demo_laws : @JSONLaws any demo_json.
Proof.
  split; [done|done| |].
  - intros f b _. cbn. destruct (is_finite f); [|done]. by intros [= <-].
  - intros f. cbn. destruct (is_finite f); split; [done|by eexists|by intros [? ?]|done].
Defined.

(** A number comes back, and a byte that is not UTF-8 does not. *)
Definition id42 : ID := mkID None (Some (float64_of_int 42)) false.
Definition id_ff : ID := mkID (Some (String "255"%char EmptyString)) None false.
Definition id_fffd : ID :=
  mkID (Some (String "239"%char (String "191"%char (String "189"%char EmptyString)))) None false.

Lemma id_roundtrip_witness :
  @UnmarshalJSON any demo_json (mkID (Some "old"%string) None false) (AnyFloat64 (float64_of_int 42)) = (id42, None) /\
  (on_wire id_ff = id_fffd /\ on_wire id_ff <> id_ff).
Proof.
  split.
  - refine (proj1 (@id_roundtrip any demo_json demo_laws (AnyInt 42) id42 (mkID (Some "old"%string) None false) _ _));
      [vm_compute; reflexivity|]. intros f [= <-]. vm_compute. reflexivity.
  - split; [vm_compute; reflexivity|].
    pose proof (proj2 (@id_roundtrip any demo_json demo_laws (AnyString (String "255"%char EmptyString)) id_ff id42
      eq_refl ltac:(done))) as [H _]. intros E. specialize (H E _ eq_refl). vm_compute in H. discriminate H.
Defined.

Lemma address_slashes_witness :
  send_addr (NewHTTPTransport (fun _ _ w => (inr (ErrMsg "down"), w) : (nat + error) * nat) "http://h/" []) "/ns" = "http://h/ns"%string.
Proof.
  apply (address_slashes _ "http://h" "ns"); [by vm_compute|by vm_compute|done|set_solver|set_solver].
Defined.
