(* ===== verification/Jet.v ===== *)
(** * The Hyperf JSON-RPC client: [src/hyperf/jet]

    The client with its options, middleware chain and calls, the path generators,
    the HTTP transporter, the JSON-RPC formatter, and the retry, timeout and
    recovery middlewares.  Packers, ID generators, transports and the text of JSON
    are parameters.  A call appends its own middlewares to the client's slice, so
    that calls share an array ([GoSlices]). *)

From S2P Require Import Prelude GoErrors GoStrconv GoUtf8 GoSlices Retry.
From Stdlib Require Import Ascii.
From stdpp Require Import options.
Set Default Proof Using "Type*".
Local Open Scope Z_scope.

Local Abbreviation bytes := (list ascii).
Local Abbreviation lit := String.list_ascii_of_string.

(** ** [formatter.go] *)

Record RPCRequest := mkRPCRequest { reqID : string; Path : string; Params : bytes }.
Record RPCResponse := mkRPCResponse { respID : string; Result : bytes }.

(** What the package does with an error value it is given: whether it brings its
    own [MarshalJSON], what [json.Marshal] makes of it, and its text. *)
Record error_value := mkErrorValue { marshaler : bool; marshaled : bytes + error; text : string }.

Record RPCResponseError := mkRPCResponseError {
  errID : string; Code : Z; Message : string; Err : option error_value
}.

(** [fmt.Sprintf("code: %d, message: %s, error: %v", ...)] *)
Definition RPCResponseError_Error (e : RPCResponseError) : string :=
  ("code: " ++ FormatInt (Code e) ++ ", message: " ++ Message e ++ ", error: " ++
   match Err e with Some d => text d | None => "<nil>" end)%string.

Definition JSONRPCVersion : string := "2.0".

Record JSONRPCFormatterRequest := mkFormatterRequest {
  fJsonrpc : string; fMethod : string; fParams : bytes; fID : string
}.
Record JSONRPCFormatterResponseError := mkFormatterError { fCode : Z; fMessage : string; fData : option error_value }.
Record errorWire := mkWire { wCode : Z; wMessage : string; wData : bytes }.

(** [encoding/json] on these types; the error of a response is its text.  A nil
    [RawMessage] is written as null, and an empty one with [omitempty] not at
    all. *)
Class JetJSON := {
  enc_request : JSONRPCFormatterRequest -> bytes + error;
  dec_request : bytes -> JSONRPCFormatterRequest + error;
  enc_response : string -> bytes -> string -> option bytes -> bytes + error;
  dec_response : bytes -> (string * bytes * string * option bytes) + error;
  enc_wire : errorWire -> bytes + error;
  dec_wire : bytes -> errorWire + error;
  enc_string : string -> bytes;
  dec_string : bytes -> option string
}.

(** The text of JSON values that [Marshal] writes unchanged. *)
Class JetJSONLaws {J : JetJSON} (raw : bytes -> Prop) := {
  raw_null : raw (lit "null");
  raw_string s : raw (enc_string s);
  raw_nonblank b : raw b -> b <> [] /\ TrimSpace b = b;
  string_law s : ValidString s = true -> dec_string (enc_string s) = Some s;
  string_not_null s : enc_string s <> lit "null";
  request_law r : raw (fParams r) -> ValidString (fMethod r) = true -> ValidString (fID r) = true -> ValidString (fJsonrpc r) = true ->
    exists b, enc_request r = inl b /\ dec_request b = inl r;
  response_law v result id e :
    ValidString v = true -> ValidString id = true -> (result = [] \/ raw result) ->
    (match e with Some e => raw e /\ e <> lit "null" | None => True end) ->
    exists b, enc_response v result id e = inl b /\
      dec_response b = inl (v, (if decide (result = []) then lit "null" else result), id, e);
  wire_law w : ValidString (wMessage w) = true -> (wData w = [] \/ raw (wData w)) ->
    exists b, enc_wire w = inl b /\ raw b /\ b <> lit "null" /\ dec_wire b = inl w
}.

Section Formatter.
Context {J : JetJSON}.

(** [jsonRPCErrorData{raw}] as an error value. *)
Definition jsonRPCErrorData (raw : bytes) : error_value :=
  mkErrorValue true (inl raw)
    (match dec_string raw with Some message => message | None => String.string_of_list_ascii raw end).

Definition Error_MarshalJSON (e : JSONRPCFormatterResponseError) : bytes + error :=
  let data : bytes + error :=
    match fData e with
    | None => inl []
    | Some d =>
        if marshaler d then marshaled d
        else match marshaled d with
             | inl data => if bool_decide (data = lit "{}") then inl (enc_string (text d)) else inl data
             | inr err => inr err
             end
    end in
  match data with
  | inr err => inr err
  | inl data => enc_wire (mkWire (fCode e) (fMessage e) data)
  end.

Definition Error_UnmarshalJSON (data : bytes) : JSONRPCFormatterResponseError + error :=
  match dec_wire data with
  | inr err => inr err
  | inl decoded =>
      inl (mkFormatterError (wCode decoded) (wMessage decoded)
             (if negb (bool_decide (wData decoded = [])) && negb (bool_decide (TrimSpace (wData decoded) = lit "null"))
              then Some (jsonRPCErrorData (wData decoded)) else None))
  end.

Definition FormatRequest (req : RPCRequest) : bytes + error :=
  enc_request (mkFormatterRequest JSONRPCVersion (Path req) (Params req) (reqID req)).

Definition FormatResponse (resp : RPCResponse) (err : option RPCResponseError) : bytes + error :=
  match err with
  | Some err =>
      match Error_MarshalJSON (mkFormatterError (Code err) (Message err) (Err err)) with
      | inr e => inr e
      | inl e => enc_response JSONRPCVersion [] (errID err) (Some e)
      end
  | None => enc_response JSONRPCVersion (Result resp) (respID resp) None
  end.

Definition ParseRequest (data : bytes) : RPCRequest + error :=
  match dec_request data with
  | inr err => inr err
  | inl req => inl (mkRPCRequest (fID req) (fMethod req) (fParams req))
  end.

(** A response, an error of the remote side, or one of decoding. *)
Definition ParseResponse (data : bytes) : RPCResponse + (RPCResponseError + error) :=
  match dec_response data with
  | inr err => inr (inr err)
  | inl (_, result, id, None) => inl (mkRPCResponse id result)
  | inl (_, result, id, Some e) =>
      match Error_UnmarshalJSON e with
      | inr err => inr (inr err)
      | inl e => inr (inl (mkRPCResponseError id (fCode e) (fMessage e) (fData e)))
      end
  end.
End Formatter.

(** ** [generator.go]

    Strings are sequences of runes.  The tables of Unicode and the title casing of
    [golang.org/x/text] are parameters. *)
Definition rune := Z.
Definition backslash : rune := 92.
Definition slash : rune := 47.
Definition runes (s : string) : list rune := (fun a => Z.of_nat (nat_of_ascii a)) <$> lit s.

Section Paths.
Variables (IsUpper : rune -> bool) (ToLower : list rune -> list rune) (ucwords : list rune -> list rune).

(** [strings.Split(s, "\\")], the last part. *)
Fixpoint last_part (cur s : list rune) : list rune :=
  match s with
  | [] => rev cur
  | r :: s => if r =? backslash then last_part [] s else last_part (r :: cur) s
  end.

(** [regexp.MustCompile(`Service$`).ReplaceAllString(s, "")] *)
Definition drop_Service (s : list rune) : list rune :=
  let n := (length s - 7)%nat in
  if bool_decide (drop n s = runes "Service") then take n s else s.

(** [regexp.MustCompile(`\s+`).ReplaceAllString(s, "")] *)
Definition is_s (r : rune) : bool := (r =? 9) || (r =? 10) || (r =? 12) || (r =? 13) || (r =? 32).
Definition drop_spaces (s : list rune) : list rune := filter (fun r => negb (is_s r) = true) s.

Definition isLower (s : list rune) : bool := forallb (fun r => negb (IsUpper r)) s.

Definition prefixUpperDelimiter (s : list rune) : list rune :=
  match s with
  | [] => []
  | r :: s => r :: (s ≫= fun r => if IsUpper r then [95; r] else [r])
  end.

Definition snake (s : list rune) : list rune := ToLower (prefixUpperDelimiter (drop_spaces (ucwords s))).

Definition add_slash (path : list rune) : list rune :=
  match path with
  | r :: _ => if r =? slash then path else slash :: path
  | [] => path
  end.

Definition General_Generate (service name : list rune) : list rune :=
  let path := drop_Service (last_part [] service) in
  let path := if isLower path then path else snake path in
  add_slash path ++ [slash] ++ name.

Definition Full_Generate (service name : list rune) : list rune :=
  add_slash ((fun r => if r =? backslash then slash else r) <$> service) ++ [slash] ++ name.
End Paths.

(** ** [transporter.go] *)

Definition ErrHTTPTransporterAddrIsRequired : error := ErrNew "jet/transporter: Addr is required".
Definition ErrorHTTPTransporterClientIsRequired : error := ErrNew "jet/transporter: client is required".

Record HTTPResponse := mkHTTPResponse { StatusCode : Z; Status : string; respBody : bytes + error }.

Definition isHTTPTransporterServerFailed (resp : HTTPResponse) : bool := (StatusCode resp <? 200) || (StatusCode resp >=? 400).

Definition HTTPTransporterServerError (code : Z) (message : string) (err : error) : error :=
  ErrStruct "HTTPTransporterServerError" code message err.
Definition as_server_error (e : error) : option Z :=
  match e with
  | ErrStruct type code _ _ => if bool_decide (type = "HTTPTransporterServerError"%string) then Some code else None
  | _ => None
  end.
Definition IsHTTPTransporterServerError (err : error) : bool :=
  if errors_As as_server_error err is Some _ then true else false.

Section Transporter.
Context {W : Type}.

Definition HTTPClient := context -> string -> bytes -> W -> (HTTPResponse + error) * W.
Record HTTPTransporter := mkHTTPTransporter { Addr : string; Client_ : option HTTPClient }.

Definition WithHTTPTransporterAddr (addr : string) (t : HTTPTransporter) := mkHTTPTransporter addr (Client_ t).
Definition WithHTTPTransporterClient (c : option HTTPClient) (t : HTTPTransporter) := mkHTTPTransporter (Addr t) c.

Definition NewHTTPTransporter (DefaultClient : HTTPClient) (opts : list (HTTPTransporter -> HTTPTransporter))
    : HTTPTransporter + error :=
  let t := foldl (fun t opt => opt t) (mkHTTPTransporter "" (Some DefaultClient)) opts in
  if bool_decide (Addr t = ""%string) then inr ErrHTTPTransporterAddrIsRequired
  else match Client_ t with
       | None => inr ErrorHTTPTransporterClientIsRequired
       | Some _ => inl t
       end.

Definition Transporter := context -> bytes -> W -> (bytes + error) * W.

(** [Do] is that of the client; [parse_URL] is the check of the address. *)
Definition Send (parse_URL : string -> option error) (addr : string) (Do : HTTPClient) : Transporter := fun ctx data w =>
  match parse_URL addr with
  | Some err => (inr err, w)
  | None =>
      let '(response, w) := Do ctx addr data w in
      match response with
      | inr err => (inr err, w)
      | inl response =>
          if isHTTPTransporterServerFailed response then
            (inr (HTTPTransporterServerError (StatusCode response) (Status response) (ErrMsg "failed to send request")), w)
          else (respBody response, w)
      end
  end.
End Transporter.

(** ** [middleware.go] and [client.go]

    [W] is the world, the variables that responses point at included, [V] the
    values of [any].  A handler returns or panics with a value. *)
Inductive outcome (V : Type) := Return (response : V) (err : option error) | Panic (value : string).
Arguments Return {V} _ _.
Arguments Panic {V} _.

Section Client.
Context {W V : Type} {J : JetJSON}.

Definition Handler := context -> string -> string -> V -> W -> outcome V * W.
Definition Middleware := Handler -> Handler.

(** [for _, mw := range slices.Backward(m) { next = mw(next) }] *)
Definition Chain (m : list Middleware) (next : Handler) : Handler := foldl (fun next mw => mw next) next (reverse m).

Definition ErrClientServiceIsRequired : error := ErrNew "jet/client: service is required".
Definition ErrClientTransporterIsRequired : error := ErrNew "jet/client: transporter is required".

Record Packer := mkPacker { Pack : V -> bytes + error; Unpack : bytes -> V -> W -> option error * W }.

Record Formatter := mkFormatter { fFormat : RPCRequest -> bytes + error; fParse : bytes -> RPCResponse + error }.

(** [NewJSONRPCFormatter()]; the error of the remote side is a value of its own
    type, which wraps nothing. *)
Definition JSONRPCFormatter : Formatter :=
  mkFormatter FormatRequest
    (fun data => match ParseResponse data with
                 | inl r => inl r
                 | inr (inl e) => inr (ErrMsg (RPCResponseError_Error e))
                 | inr (inr err) => inr err
                 end).

(** The interfaces other than the transporter are taken to be set, and so are the
    middlewares. *)
Record Client (S : Type) := mkClient {
  service : string; middlewares : S; transporter : option (@Transporter W);
  idGenerator : W -> string * W; pathGenerator : string -> string -> string; formatter : Formatter; packer : Packer
}.
Arguments mkClient {S} _ _ _ _ _ _ _.
Arguments service {S} _. Arguments middlewares {S} _. Arguments transporter {S} _.
Arguments idGenerator {S} _. Arguments pathGenerator {S} _. Arguments formatter {S} _. Arguments packer {S} _.

Definition invoke {S} (c : Client S) (send : Transporter) (ctx : context) (service method : string)
    (request response : V) (w : W) : option error * W :=
  match Pack (packer c) request with
  | inr err => (Some err, w)
  | inl params =>
      let '(id, w) := idGenerator c w in
      match fFormat (formatter c) (mkRPCRequest id (pathGenerator c service method) params) with
      | inr err => (Some err, w)
      | inl req =>
          let '(resp, w) := send ctx req w in
          match resp with
          | inr err => (Some err, w)
          | inl resp =>
              match fParse (formatter c) resp with
              | inr err => (Some err, w)
              | inl rpcResp => Unpack (packer c) (Result rpcResp) response w
              end
          end
      end
  end.

(** The innermost handler of a call. *)
Definition base_handler {S} (c : Client S) (send : Transporter) (response : V) : Handler :=
  fun ctx service method request w =>
    let '(err, w) := invoke c send ctx service method request response w in (Return response err, w).

Inductive Option_ (S : Type) :=
| WithMiddleware (m : S) | WithService (service : string) | WithTransporter (t : option (@Transporter W))
| WithIDGenerator (g : W -> string * W) | WithPathGenerator (g : string -> string -> string)
| WithFormatter (f : Formatter) | WithPacker (p : Packer).
Arguments WithMiddleware {S} _. Arguments WithService {S} _. Arguments WithTransporter {S} _.
Arguments WithIDGenerator {S} _. Arguments WithPathGenerator {S} _. Arguments WithFormatter {S} _. Arguments WithPacker {S} _.

Section Sequences.
Context {H S : Type} {seq : SeqOps Middleware H S}.

Definition Use (c : Client S) (m : S) (h : H) : H * Client S :=
  let '(h, ms) := seq_append (middlewares c) m h in
  (h, mkClient (service c) ms (transporter c) (idGenerator c) (pathGenerator c) (formatter c) (packer c)).

Definition apply (o : Option_ S) (c : Client S) (h : H) : H * Client S :=
  match o, c with
  | WithMiddleware m, c => Use c m h
  | WithService s, mkClient _ ms t g p f k => (h, mkClient s ms t g p f k)
  | WithTransporter t, mkClient s ms _ g p f k => (h, mkClient s ms t g p f k)
  | WithIDGenerator g, mkClient s ms t _ p f k => (h, mkClient s ms t g p f k)
  | WithPathGenerator p, mkClient s ms t g _ f k => (h, mkClient s ms t g p f k)
  | WithFormatter f, mkClient s ms t g p _ k => (h, mkClient s ms t g p f k)
  | WithPacker k, mkClient s ms t g p f _ => (h, mkClient s ms t g p f k)
  end.

Fixpoint apply_all (opts : list (Option_ S)) (c : Client S) (h : H) : H * Client S :=
  match opts with
  | [] => (h, c)
  | o :: opts => let '(h, c) := apply o c h in apply_all opts c h
  end.

Definition NewClient (id : W -> string * W) (path : string -> string -> string) (format : Formatter)
    (pack : Packer) (opts : list (Option_ S)) (h : H) : H * (Client S + error) :=
  let '(h, c) := apply_all opts (mkClient "" seq_nil None id path format pack) h in
  if bool_decide (service c = ""%string) then (h, inr ErrClientServiceIsRequired)
  else match transporter c with
       | None => (h, inr ErrClientTransporterIsRequired)
       | Some _ => (h, inl c)
       end.

(** [handler = Chain(append(c.middlewares, middlewares...)...)(handler)] in its two
    parts: the slice, and what the chain reads from it. *)
Definition call_slice (c : Client S) (m : S) (h : H) : H * S := seq_append (middlewares c) m h.
Definition call_handler (c : Client S) (send : Transporter) (response : V) (ms : S) (h : H) : Handler :=
  Chain (seq_list ms h) (base_handler c send response).

(** A call that runs alone.  The response of the handler is dropped. *)
Definition Invoke (c : Client S) (send : Transporter) (ctx : context) (method : string) (request response : V)
    (m : S) (h : H) (w : W) : (option error + string) * H * W :=
  let '(h, ms) := call_slice c m h in
  let '(r, w) := call_handler c send response ms h ctx (service c) method request w in
  match r with
  | Return _ err => (inl err, h, w)
  | Panic v => (inr v, h, w)
  end.

End Sequences.

(** Calls at the same time: each has appended its middlewares, or also read the
    slice back for its chain. *)
Inductive call_state := Ready (m : slice) | Appended (ms : slice) | Chained (ms : list Middleware).

Definition call_step {growth : Growth} (c : Client slice) (st : arrays Middleware * list call_state) (k : nat)
    : arrays Middleware * list call_state :=
  let '(h, calls) := st in
  match calls !! k with
  | Some (Ready m) => let '(h, ms) := call_slice c m h in (h, <[k:=Appended ms]> calls)
  | Some (Appended ms) => (h, <[k:=Chained (seq_list ms h)]> calls)
  | _ => st
  end.
Definition run_calls {growth : Growth} (c : Client slice) (sched : list nat) (st : arrays Middleware * list call_state) :=
  foldl (call_step c) st sched.

(** ** [middleware/recovery], [middleware/timeout] and [middleware/retry] *)

(** [recover()] around the next handler; [nil] is the zero response. *)
Definition recovery_New (nil : V) (handler : context -> string -> string -> V -> string -> option error)
    (next : Handler) : Handler :=
  fun ctx service method request w =>
    let '(r, w) := next ctx service method request w in
    match r with
    | Return response err => (Return response err, w)
    | Panic v => (Return nil (handler ctx service method request v), w)
    end.

Definition ErrTimeout : error := ErrNew "jet/timeout: request timeout".

(** The [select]: [ended] is the error of a context that is done, [finished] what
    the goroutine of the handler has sent; [pick] chooses when both are ready. *)
Definition timeout_select (nil : V) (ended : option error) (finished : option (V * option error)) (pick : bool)
    : option (V * option error) :=
  let expired err :=
    (nil, Some (if errors_Is err "context deadline exceeded" then ErrTimeout else err)) in
  match ended, finished with
  | None, None => None
  | Some err, None => Some (expired err)
  | None, Some r => Some r
  | Some err, Some r => Some (if pick then expired err else r)
  end.

(** [attempt k] is what the [k]-th call of the next handler returns. *)
Definition DefaultRetryIf (err : error) : bool :=
  if errors_Is err "jet/timeout: request timeout" then true
  else
    match errors_As as_server_error err with
    | None => false
    | Some code => (code =? 408) || (code =? 429) || ((code >=? 500) && (code <? 600))
    end.

Definition retry_New (options : list (option Retry.Option_)) (nil : V) (attempt : Z -> V * option error)
    (ctx : context) (timer_first : Z -> bool) : option (V * option error * list action) :=
  DoValue attempt ctx timer_first nil (Some (WithRetryIf (Some DefaultRetryIf)) :: options).
End Client.
Arguments mkClient {W V S} _ _ _ _ _ _ _.
Arguments service {W V S} _.
Arguments middlewares {W V S} _.
Arguments transporter {W V S} _.

(** ** The wire *)
Section Wire.
Context {J : JetJSON} (raw : bytes -> Prop) {L : JetJSONLaws raw}.

(** A request is parsed as it was formatted. *)
Theorem jet_request_roundtrip r :
  raw (Params r) -> ValidString (Path r) = true -> ValidString (reqID r) = true ->
  exists b, FormatRequest r = inl b /\ ParseRequest b = inl r.
Proof.
  intros Hp Hm Hi.
  destruct (request_law (mkFormatterRequest JSONRPCVersion (Path r) (Params r) (reqID r)) Hp Hm Hi eq_refl) as (b & E & D).
  exists b. split; [exact E|]. unfold ParseRequest. rewrite D. by destruct r.
Qed.

(** What an error value becomes on the wire: nothing, its own JSON, or its text
    where the JSON is the empty object. *)
Definition data_wire (d : option error_value) : bytes + error :=
  match d with
  | None => inl []
  | Some d =>
      match marshaled d with
      | inl data => inl (if negb (marshaler d) && bool_decide (data = lit "{}") then enc_string (text d) else data)
      | inr err => inr err
      end
  end.

Lemma Error_MarshalJSON_wire e :
  Error_MarshalJSON e = match data_wire (fData e) with
                        | inr err => inr err
                        | inl data => enc_wire (mkWire (fCode e) (fMessage e) data)
                        end.
Proof using Type.
  unfold Error_MarshalJSON, data_wire. destruct (fData e) as [d|]; [|done].
  destruct (marshaler d), (marshaled d) as [data|err]; try done. cbn. by destruct (bool_decide _).
Qed.

Lemma error_roundtrip id code message d data :
  ValidString id = true -> ValidString message = true -> data_wire d = inl data -> (data = [] \/ raw data) ->
  exists b, FormatResponse (mkRPCResponse "" []) (Some (mkRPCResponseError id code message d)) = inl b /\
    ParseResponse b = inr (inl (mkRPCResponseError id code message
      (if bool_decide (data = []) || bool_decide (data = lit "null") then None else Some (jsonRPCErrorData data)))).
Proof.
  intros Hid Hm Hd Hraw. unfold FormatResponse. cbn [errID Code Message Err].
  rewrite Error_MarshalJSON_wire. cbn [fData fCode fMessage]. rewrite Hd.
  destruct (wire_law (mkWire code message data) Hm Hraw) as (we & Ee & Hr & Hnn & De). rewrite Ee.
  destruct (response_law JSONRPCVersion [] id (Some we) eq_refl Hid (or_introl eq_refl) (conj Hr Hnn)) as (b & Eb & Db).
  exists b. split; [exact Eb|]. unfold ParseResponse. rewrite Db. unfold Error_UnmarshalJSON. rewrite De.
  cbn [wCode wMessage wData fCode fMessage fData]. do 3 f_equal. destruct (decide (data = [])) as [->|Hne]; [done|].
  destruct Hraw as [|Hraw]; [done|]. destruct (raw_nonblank data Hraw) as [_ ->].
  rewrite (bool_decide_false (data = [])) by done. cbn. by destruct (bool_decide _).
Qed.

(** The error of the remote side arrives with its identifier, code and message; an
    error that is plain to JSON (one of [errors.New]) arrives with its text, and
    no error as none.  A response without an error arrives with its result. *)
Theorem jet_response_roundtrip id code message d result :
  ValidString id = true -> ValidString message = true -> raw result ->
  (match d with Some d => marshaler d = false /\ marshaled d = inl (lit "{}") /\ ValidString (text d) = true | None => True end) ->
  (exists b d', FormatResponse (mkRPCResponse "" []) (Some (mkRPCResponseError id code message d)) = inl b /\
     ParseResponse b = inr (inl (mkRPCResponseError id code message d')) /\ text <$> d' = text <$> d) /\
  (exists b, FormatResponse (mkRPCResponse id result) None = inl b /\ ParseResponse b = inl (mkRPCResponse id result)).
Proof.
  intros Hid Hm Hres Hd. split.
  - assert (Hdata : exists data, data_wire d = inl data /\ (data = [] /\ d = None \/ raw data /\ exists d0, d = Some d0 /\ data = enc_string (text d0))).
    { destruct d as [d0|]; [|by exists []; eauto]. destruct Hd as (Hm1 & Hm2 & _). exists (enc_string (text d0)).
      cbn. rewrite Hm1, Hm2. cbn. split; [done|]. right. split; [apply raw_string|]. by exists d0. }
    destruct Hdata as (data & Ew & Hcase). destruct (error_roundtrip id code message d data Hid Hm Ew) as (b & Eb & Pb);
      [destruct Hcase as [[-> _]|[? _]]; auto|].
    eexists b, _. split; [done|]. split; [exact Pb|].
    destruct Hcase as [[-> ->]|[Hr (d0 & -> & ->)]]; [done|]. destruct Hd as (_ & _ & Hv).
    destruct (raw_nonblank _ Hr) as [Hne _]. rewrite !bool_decide_false by (done || apply string_not_null).
    cbn. by rewrite string_law.
  - destruct (response_law JSONRPCVersion result id None eq_refl Hid (or_intror Hres) I) as (b & Eb & Db).
    exists b. split; [exact Eb|]. unfold ParseResponse. rewrite Db.
    destruct (raw_nonblank _ Hres) as [Hne _]. by rewrite decide_False.
Qed.
End Wire.

(** ** Calls and their middlewares *)
Section Calls.
Context {W V : Type} {growth : Growth}.
Local Abbreviation mw := (@Middleware W V).
Local Abbreviation jet := (@Client W V slice).
Implicit Types (c : jet) (h : arrays mw).

(** A call that runs alone runs the client's middlewares around its own, and the
    client is left as it was. *)
Theorem jet_call_alone c send ctx method request response m h w xs ys :
  holds h (middlewares c) xs -> holds h m ys -> apart (middlewares c) m ->
  exists h',
    Invoke c send ctx method request response m h w =
    (let '(r, w) := Chain (xs ++ ys) (base_handler c send response) ctx (service c) method request w in
     match r with Return _ err => (inl err, h', w) | Panic v => (inr v, h', w) end) /\
    holds h' (middlewares c) xs /\ holds h' m ys.
Proof.
  intros Hc Hm Hap. unfold Invoke, call_slice, call_handler. cbn [seq_append seq_list slice_seq].
  rewrite (holds_contents _ _ _ Hm).
  pose proof (append_holds h _ _ ys Hc) as Ha. pose proof (append_frame h _ _ ys _ _ Hc Hc ltac:(by right)) as Hf.
  pose proof (append_frame h _ _ ys _ _ Hc Hm ltac:(by left)) as Hg.
  destruct (append (middlewares c) ys h) as [h' ms]. exists h'. by rewrite (holds_contents _ _ _ Ha).
Qed.

(** With room left in the client's array, two calls at the same time use the same
    element of it: both run the middleware of the one that appended last. *)
Theorem jet_call_race c m1 m2 h xs f1 f2 :
  holds h (middlewares c) xs -> (len (middlewares c) < cap (middlewares c))%nat ->
  holds h m1 [f1] -> holds h m2 [f2] -> apart (middlewares c) m1 -> apart (middlewares c) m2 ->
  (run_calls c [0; 1; 0; 1]%nat (h, [Ready m1; Ready m2])).2 = [Chained (xs ++ [f2]); Chained (xs ++ [f2])].
Proof.
  intros Hc Hroom H1 H2 A1 A2. unfold run_calls. cbn [foldl call_step lookup list_lookup].
  unfold call_slice at 1. cbn [seq_append slice_seq]. rewrite (holds_contents _ _ _ H1).
  pose proof (append_holds h _ _ [f1] Hc) as Ha. pose proof (append_frame h _ _ [f1] _ _ Hc Hc ltac:(by right)) as Hf.
  pose proof (append_frame h _ _ [f1] _ _ Hc H2 ltac:(by left)) as Hg.
  destruct (append (middlewares c) [f1] h) as [h1 s1] eqn:E1. cbn.
  unfold call_slice. cbn [seq_append seq_list slice_seq]. rewrite (holds_contents _ _ _ Hg).
  pose proof (append_holds h1 _ _ [f2] Hf) as Hb.
  assert (Es : forall h' f, (append (middlewares c) [f] h').2 = mkSlice (arr (middlewares c)) (len (middlewares c) + 1) (cap (middlewares c))).
  { intros h' f. unfold append. cbn. by destruct (Nat.leb_spec (len (middlewares c) + 1) (cap (middlewares c))); [|lia]. }
  pose proof (Es h f1) as Es1. rewrite E1 in Es1. pose proof (Es h1 f2) as Es2.
  destruct (append (middlewares c) [f2] h1) as [h2 s2]. cbn in *.
  rewrite Es1, <- Es2, (holds_contents _ _ _ Hb). done.
Qed.

(** Where a call stands, with [ys] its own middlewares. *)
Definition call_ok (s : slice) (xs : list mw) h (st : call_state) (ys : list mw) : Prop :=
  match st with
  | Ready m => holds h m ys /\ apart s m
  | Appended t => holds h t (xs ++ ys) /\ (apart s t \/ len t <= len s)%nat
  | Chained l => l = xs ++ ys
  end.

Lemma call_ok_append s xs h zs st ys :
  holds h s xs -> call_ok s xs h st ys -> call_ok s xs (append s zs h).1 st ys.
Proof.
  intros Hs Hok. destruct st as [m|t|l]; cbn in *; [| |done]; destruct Hok as [Hh Hap]; (split; [|done]).
  - pose proof (append_frame h s xs zs m ys Hs Hh ltac:(by left)) as H. by destruct (append s zs h).
  - pose proof (append_frame h s xs zs t _ Hs Hh Hap) as H. by destruct (append s zs h).
Qed.

Lemma call_ok_new s xs h ys :
  holds h s xs -> cap s = len s -> call_ok s xs (append s ys h).1 (Appended (append s ys h).2) ys.
Proof.
  intros Hs Hfull. pose proof (append_holds h s xs ys Hs) as Ha. unfold append in *. cbn.
  destruct (Nat.leb_spec (len s + length ys) (cap s)); cbn in *; (split; [done|]); [right; lia|].
  left. unfold apart. cbn. destruct (decide (cap s = 0)%nat) as [|Hc]; [by left|]. right; right.
  pose proof (holds_arr h s xs Hs Hc). lia.
Qed.

Lemma calls_ok_step c xs k h calls yss :
  cap (middlewares c) = len (middlewares c) -> holds h (middlewares c) xs ->
  Forall2 (call_ok (middlewares c) xs h) calls yss ->
  let '(h', calls') := call_step c (h, calls) k in
  holds h' (middlewares c) xs /\ Forall2 (call_ok (middlewares c) xs h') calls' yss.
Proof.
  intros Hfull Hs HF. unfold call_step. destruct (calls !! k) as [[m|t|l]|] eqn:E; [| |done..].
  - destruct (Forall2_lookup_l _ _ _ _ _ HF E) as (ys & Ey & Hm & Hap).
    unfold call_slice. cbn [seq_append slice_seq]. rewrite (holds_contents _ _ _ Hm).
    pose proof (append_frame h _ _ ys _ _ Hs Hs ltac:(by right)) as Hs'.
    pose proof (call_ok_new _ xs h ys Hs Hfull) as Hnew.
    assert (HF' : Forall2 (call_ok (middlewares c) xs (append (middlewares c) ys h).1) calls yss)
      by (eapply Forall2_impl; [exact HF|]; intros; by apply call_ok_append).
    destruct (append (middlewares c) ys h) as [h' s']. split; [done|].
    rewrite <- (list_insert_id yss k ys) by done. by apply Forall2_insert.
  - destruct (Forall2_lookup_l _ _ _ _ _ HF E) as (ys & Ey & Ht & _). split; [done|].
    rewrite <- (list_insert_id yss k ys) by done. apply Forall2_insert; [done|]. cbn. by apply holds_contents.
Qed.

(** Without room in the client's array every interleaving of calls gives each of
    them the client's middlewares and its own. *)
Theorem jet_calls_full c h xs ms yss sched :
  holds h (middlewares c) xs -> cap (middlewares c) = len (middlewares c) ->
  Forall2 (fun m ys => holds h m ys /\ apart (middlewares c) m) ms yss ->
  forall k l, (run_calls c sched (h, Ready <$> ms)).2 !! k = Some (Chained l) ->
  exists ys, yss !! k = Some ys /\ l = xs ++ ys.
Proof.
  intros Hs Hfull HF k l.
  assert (HF' : Forall2 (call_ok (middlewares c) xs h) (Ready <$> ms) yss) by by apply Forall2_fmap_l.
  unfold run_calls. clear HF. revert h Hs HF'. generalize (@Ready W V <$> ms) as calls.
  induction sched as [|j sched IH]; intros calls h Hs HF E; cbn [foldl] in E.
  - destruct (Forall2_lookup_l _ _ _ _ _ HF E) as (ys & Ey & ->). eauto.
  - pose proof (calls_ok_step c xs j h calls yss Hfull Hs HF) as Hstep.
    destruct (call_step c (h, calls) j) as [h' calls']. destruct Hstep as [Hs' HF']. by eapply IH.
Qed.
End Calls.

(** ** Retries *)

(** The base retry component with the predicate of the middleware. *)
Lemma retryIf_kept options c :
  Forall (fun o => match o with Some (WithRetryIf (Some _)) => False | _ => True end) options ->
  retryIf (foldl (fun c o => match o with Some o => Retry.apply o c | None => c end) c options) = retryIf c.
Proof.
  revert c. induction options as [|o options IH]; intros c Hall; [done|]. inversion Hall as [|? ? Ho Hall']; subst.
  cbn. rewrite IH by done. destruct o as [[n|b|[p|]|n]|]; try done; cbn; [by destruct (n >=? 1)|by destruct b].
Qed.

Lemma executions_retries {T} (op : Z -> T * option error) c l :
  Forall (fun j => stops op c j = false) l -> executions (concat (retry_actions op c <$> l)) = l.
Proof.
  induction 1 as [|j l Hj _ IH]; [done|]. cbn [fmap list_fmap concat]. by rewrite executions_app, executions_retry, IH.
Qed.

(** With a context that stays open the middleware calls the next handler until it
    succeeds, fails permanently, fails with anything but a timeout, a 408, a 429
    or a 5xx, or has been called as often as allowed; it returns that outcome. *)
Theorem jet_retry_outcome {V} options (nil : V) attempt ctx timer_first :
  (forall n, ctx n = None) ->
  Forall (fun o => match o with Some (WithRetryIf (Some _)) => False | _ => True end) options ->
  let limit := maxAttempts (newConfig (Some (WithRetryIf (Some DefaultRetryIf)) :: options)) in
  exists m acts, 1 <= m <= limit /\
    retry_New options nil attempt ctx timer_first = Some ((attempt m).1, verdict attempt m, acts) /\
    executions acts = seqZ 1 m /\
    (forall j, 1 <= j < m -> exists err, (attempt j).2 = Some err /\ DefaultRetryIf (strip_markers err) = true) /\
    (forall err, (attempt m).2 = Some err ->
       m = limit \/ permanent (inspectError err) = true \/ DefaultRetryIf (strip_markers err) = false).
Proof.
  intros Hopen Hopts limit. unfold limit, retry_New, DoValue. set (opts := _ :: options).
  assert (Hif : retryIf (newConfig opts) = DefaultRetryIf) by (unfold opts, newConfig; cbn [foldl]; by rewrite retryIf_kept).
  pose proof (newConfig_maxAttempts opts).
  destruct (DoValue_loop_open attempt ctx timer_first (newConfig opts) Hopen (Z.to_nat (maxAttempts (newConfig opts))) 1 0 nil)
    as (m & Hm & Hj & Hs & ->); [lia|lia|].
  eexists m, _. split_and!; [lia|lia|done| | |].
  - rewrite executions_app, executions_retries.
    + change (executions [Exec m]) with [m].
      replace (seqZ 1 m) with (seqZ 1 ((m - 1) + 1)) by (f_equal; lia). rewrite seqZ_app by lia. f_equal.
      replace (1 + (m - 1)) with m by lia. by rewrite seqZ_cons, seqZ_nil by lia.
    + apply Forall_forall. intros j Hin%elem_of_seqZ. apply Hj. lia.
  - intros j Hlt. specialize (Hj j Hlt). unfold stops in Hj. destruct (attempt j).2 as [err|]; [|done]. exists err. split; [done|].
    rewrite Hif in Hj. apply orb_false_iff in Hj as [_ Hj%negb_false_iff]. revert Hj. unfold inspectError. by destruct (errors_As as_after err).
  - intros err E. unfold stops in Hs. rewrite E, Hif in Hs. apply orb_true_iff in Hs as [[Hp|Hmax%Z.eqb_eq]%orb_true_iff|Hr%negb_true_iff]; [auto|auto|].
    right; right. revert Hr. unfold inspectError. by destruct (errors_As as_after err).
Qed.

(** What the predicate accepts. *)
Lemma DefaultRetryIf_server err code msg :
  DefaultRetryIf (HTTPTransporterServerError code msg (ErrMsg err)) = (code =? 408) || (code =? 429) || ((code >=? 500) && (code <? 600)).
Proof. done. Qed.

(** An attempt cut off by its deadline is retried, and one whose context was
    canceled is not. *)
Lemma jet_timeout_retry {V} (nil : V) pick err r :
  timeout_select nil (Some err) None pick = Some r ->
  (exists e, r = (nil, Some e) /\
    (errors_Is err "context deadline exceeded" = true -> DefaultRetryIf e = true) /\
    (err = Canceled -> DefaultRetryIf e = false)).
Proof.
  cbn. intros [= <-]. eexists. split; [done|]. split; [intros ->; done|intros ->; done].
Qed.

(** ** Paths *)
Definition ascii_upper (r : rune) : bool := (65 <=? r) && (r <=? 90).
Definition ascii_lower (s : list rune) : list rune := (fun r => if ascii_upper r then r + 32 else r) <$> s.

Example general_path_example :
  General_Generate ascii_upper ascii_lower id (runes "App\Rpc\UserInfoService") (runes "get") = runes "/user_info/get".
Proof. reflexivity. Qed.

Example full_path_example : Full_Generate (runes "App\UserService") (runes "get") = runes "/App/UserService/get".
Proof. reflexivity. Qed.

(** ** A text of JSON that satisfies the laws

    Values are written as the bits of their number, after a letter. *)
Fixpoint bits (p : positive) : bytes :=
  match p with
  | xH => []
  | xO p => ascii_of_nat 48 :: bits p
  | xI p => ascii_of_nat 49 :: bits p
  end.
Fixpoint unbits (l : bytes) : positive :=
  match l with
  | [] => xH
  | a :: l => if Ascii.eqb a (ascii_of_nat 48) then xO (unbits l) else xI (unbits l)
  end.
Lemma unbits_bits p : unbits (bits p) = p.
Proof. induction p as [p IH|p IH|]; cbn; by rewrite ?IH. Qed.

Definition write {A} `{Countable A} (x : A) : bytes := ascii_of_nat 120 :: bits (encode x).
Definition read {A} `{Countable A} (l : bytes) : option A := decode (unbits (tail l)).
Lemma read_write {A} `{Countable A} (x : A) : read (write x) = Some x.
Proof. unfold read, write. cbn [tail]. by rewrite unbits_bits, decode_encode. Qed.

Definition demo_jet_json : JetJSON := {|
  enc_request r := inl (write (fJsonrpc r, fMethod r, String.string_of_list_ascii (fParams r), fID r));
  dec_request b :=
    match read b with
    | Some (v, m, p, i) => inl (mkFormatterRequest v m (lit p) i)
    | None => inr (ErrMsg "syntax")
    end;
  enc_response v r i e :=
    inl (write (v, String.string_of_list_ascii (if decide (r = []) then lit "null" else r), i, String.string_of_list_ascii <$> e));
  dec_response b :=
    match read b with
    | Some (v, r, i, e) => inl (v, lit r, i, lit <$> (e : option string))
    | None => inr (ErrMsg "syntax")
    end;
  enc_wire w := inl (write (wCode w, wMessage w, String.string_of_list_ascii (wData w)));
  dec_wire b :=
    match read b with
    | Some (c, m, d) => inl (mkWire c m (lit d))
    | None => inr (ErrMsg "syntax")
    end;
  enc_string := write;
  dec_string := read
|}.

Definition demo_raw (b : bytes) : Prop := b <> [] /\ forallb printable b = true.

Lemma demo_jet_laws : @JetJSONLaws demo_jet_json demo_raw.
Proof.
  assert (Hw : forall {A} `{Countable A} (x : A), demo_raw (write x)).
  { intros A ? ? x. split; [done|]. unfold write. cbn [forallb]. rewrite andb_true_iff. split; [done|].
    generalize (encode x). induction p as [p IH|p IH|]; [..|done]; cbn [bits forallb]; by rewrite IH. }
  split; cbn.
  - by split.
  - intros s. apply Hw.
  - intros b [Hne Hb]. split; [done|]. by apply TrimSpace_printable.
  - intros s _. apply read_write.
  - done.
  - intros [v m p i] _ _ _ _. eexists. split; [done|]. rewrite read_write. cbn. by rewrite String.list_ascii_of_string_of_list_ascii.
  - intros v r i e _ _ _ _. eexists. split; [done|]. rewrite read_write. rewrite String.list_ascii_of_string_of_list_ascii.
    do 2 f_equal. destruct e; [|done]. cbn. by rewrite String.list_ascii_of_string_of_list_ascii.
  - intros [c m d] _ _. eexists. split; [done|]. split; [apply Hw|]. split; [done|]. rewrite read_write. cbn.
    by rewrite String.list_ascii_of_string_of_list_ascii.
Qed.

Lemma jet_response_roundtrip_witness :
  exists b d', @FormatResponse demo_jet_json (mkRPCResponse "" [])
      (Some (mkRPCResponseError "7" (-32000) "failed" (Some (mkErrorValue false (inl (lit "{}")) "disk full")))) = inl b /\
    @ParseResponse demo_jet_json b = inr (inl (mkRPCResponseError "7" (-32000) "failed" d')) /\
    text <$> d' = Some "disk full"%string.
Proof.
  apply (@jet_response_roundtrip demo_jet_json demo_raw demo_jet_laws "7" (-32000) "failed"
    (Some (mkErrorValue false (inl (lit "{}")) "disk full")) (lit "null")); [done|done|by split|by split_and!].
Defined.

(** A client with three middlewares in an array of four, and two calls. *)
Definition demo_mw (n : nat) : @Middleware nat nat := fun next ctx service method request w =>
  next ctx service method request (w + n)%nat.
Definition demo_client (s : slice) : @Client nat nat slice :=
  mkClient "svc" s None (fun w => ("1"%string, w)) (fun _ _ => "/p"%string) (mkFormatter (fun _ => inl []) (fun _ => inl (mkRPCResponse "1" [])))
    (mkPacker (fun _ => inl []) (fun _ _ w => (None, w))).

Lemma jet_call_race_witness :
  (run_calls (demo_client (mkSlice 0 1 2)) [0; 1; 0; 1]%nat
     ([[Some (demo_mw 1); None]; [Some (demo_mw 2)]; [Some (demo_mw 3)]], [Ready (mkSlice 1 1 1); Ready (mkSlice 2 1 1)])).2
  = [Chained [demo_mw 1; demo_mw 3]; Chained [demo_mw 1; demo_mw 3]].
Proof.
  apply (jet_call_race (demo_client (mkSlice 0 1 2)) (mkSlice 1 1 1) (mkSlice 2 1 1) _ [demo_mw 1] (demo_mw 2) (demo_mw 3));
    [split; [done|]; right; by exists [None]|cbn; lia|split; [done|]; right; by exists []|split; [done|]; right; by exists []
    |by right; right|by right; right].
Defined.

Lemma jet_calls_full_witness :
  (run_calls (demo_client (mkSlice 0 1 1)) [0; 1; 0; 1]%nat
     ([[Some (demo_mw 1)]; [Some (demo_mw 2)]; [Some (demo_mw 3)]], [Ready (mkSlice 1 1 1); Ready (mkSlice 2 1 1)])).2 !! 0%nat
  = Some (Chained [demo_mw 1; demo_mw 2]) /\ exists ys, [[demo_mw 2]; [demo_mw 3]] !! 0%nat = Some ys /\ [demo_mw 1; demo_mw 2] = [demo_mw 1] ++ ys.
Proof.
  split; [reflexivity|].
  apply (jet_calls_full (demo_client (mkSlice 0 1 1)) [[Some (demo_mw 1)]; [Some (demo_mw 2)]; [Some (demo_mw 3)]] [demo_mw 1]
    [mkSlice 1 1 1; mkSlice 2 1 1] [[demo_mw 2]; [demo_mw 3]] [0; 1; 0; 1]%nat);
    [split; [done|]; right; by exists []|done| |reflexivity].
  apply Forall2_cons; split; [split; [split; [done|]; right; by exists []|by right; right]|].
  apply Forall2_cons; split; [split; [split; [done|]; right; by exists []|by right; right]|done].
Defined.

Lemma jet_retry_outcome_witness :
  exists m acts, 1 <= m <= 3 /\
    retry_New [] 0%nat (fun k => (Z.to_nat k, if k <? 2 then Some ErrTimeout else None)) Background (fun _ => true)
    = Some (Z.to_nat m, None, acts) /\ executions acts = seqZ 1 m.
Proof.
  destruct (jet_retry_outcome [] 0%nat (fun k => (Z.to_nat k, if k <? 2 then Some ErrTimeout else None)) Background (fun _ => true))
    as (m & acts & Hm & E & Ex & Hj & Hl); [done|constructor|].
  exists m, acts. split; [exact Hm|]. split; [|exact Ex]. rewrite E. unfold verdict. cbn.
  destruct (Z.ltb_spec m 2) as [Hlt|]; [|done]. exfalso.
  destruct (Hl ErrTimeout) as [H|[H|H]]; [cbn; by destruct (Z.ltb_spec m 2); [|lia]|vm_compute in H; lia|done|done].
Defined.
