(* ===== verification/Errors.v ===== *)
(** * Grouped and timeout errors: [src/errors]

    A group of errors, and an error that wraps another with a timeout.  The HTTP
    errors of the package are those of a framework and are not modelled. *)

From S2P Require Import Prelude GoErrors.
From stdpp Require Import options.

(** ** [group.go] *)

Record Group := mkGroup { errors : list error }.

Definition NewGroup : Group := mkGroup [].

(** Nil errors are skipped. *)
Definition Add (g : Group) (errs : list (option error)) : Group :=
  foldl (fun g err => match err with None => g | Some err => mkGroup (errors g ++ [err]) end) g errs.

Section Text.
(** [err.Error()] *)
Variable text : error -> string.
Definition Error (g : Group) : string :=
  match errors g with
  | [] => ""
  | [e] => text e
  | _ => "multiple errors"
  end.
End Text.

(** A copy, so that the caller cannot change the group. *)
Definition Errors (g : Group) : list error := errors g.
Definition Len (g : Group) : nat := length (errors g).
Definition Has (g : Group) (target : string) : bool := existsb (fun e => errors_Is e target) (errors g).
Definition First (g : Group) : option error := head (errors g).
Definition IsNil (g : Group) : bool := Len g =? 0.

(** ** [timeout.go] *)

Definition NewTimeoutError (timeout : Z) (err : error) : error := ErrStruct "TimeoutError" timeout "timeout" err.
Definition as_timeout (e : error) : option Z :=
  match e with
  | ErrStruct type timeout _ _ => if bool_decide (type = "TimeoutError"%string) then Some timeout else None
  | _ => None
  end.
Definition IsTimeoutError (err : error) : bool := if errors_As as_timeout err is Some _ then true else false.

Lemma Add_errors g errs : errors (Add g errs) = errors g ++ omap id errs.
Proof.
  unfold Add. revert g. induction errs as [|[e|] errs IH]; intros g; cbn; [by rewrite app_nil_r| |by apply IH].
  rewrite IH. cbn. by rewrite <- (assoc_L (++)).
Qed.

(** A group is to its errors what [errors.Join] is: nil together, with the same
    errors below it, whatever the calls of [Add] that built it. *)
Theorem group_join (batches : list (list (option error))) target :
  let g := foldl Add NewGroup batches in
  errors g = omap id (concat batches) /\
  (IsNil g = true <-> errors_Join (concat batches) = None) /\
  (Has g target = true <-> exists e, errors_Join (concat batches) = Some e /\ errors_Is e target = true).
Proof.
  intros g. assert (Hg : errors g = omap id (concat batches)).
  { unfold g. assert (Hall : forall g0, errors (foldl Add g0 batches) = errors g0 ++ omap id (concat batches)).
    { induction batches as [|b batches IH]; intros g0; cbn [foldl concat]; [by rewrite app_nil_r|].
      rewrite IH, Add_errors, omap_app. by rewrite <- (assoc_L (++)). }
    apply (Hall NewGroup). }
  split; [done|]. unfold IsNil, Len, Has, errors_Join. rewrite Hg.
  destruct (omap id (concat batches)) as [|e es]; cbn [length existsb].
  - split; [done|]. split; [done|]. by intros (? & ? & _).
  - split; [done|]. split; [intros H; exists (ErrJoin (e :: es)); by split|]. by intros (? & [= <-] & H).
Qed.

(** A timeout error is recognised through any wrapping, and hides nothing of the
    error it wraps. *)
Theorem timeout_found timeout err e target :
  wraps e (NewTimeoutError timeout err) ->
  IsTimeoutError e = true /\ (errors_Is err target = true -> errors_Is e target = true).
Proof.
  intros Hw. split.
  - unfold IsTimeoutError. destruct (errors_As as_timeout e) eqn:E; [done|].
    by apply (proj1 (errors_As_None as_timeout e) E) in Hw.
  - rewrite !errors_Is_spec. intros Ht.
    assert (Htr : forall a b, wraps a b -> forall c, wraps b c -> wraps a c).
    { clear. induction 1; intros c0 Hc; [done|..]; econstructor; eauto. }
    eapply Htr; [exact Hw|]. by constructor.
Qed.

Lemma timeout_found_witness :
  IsTimeoutError (ErrWrapf "call" (NewTimeoutError 5 Canceled)) = true /\
  errors_Is (ErrWrapf "call" (NewTimeoutError 5 Canceled)) "context canceled" = true.
Proof.
  split; [apply (timeout_found 5 Canceled _ "context canceled")|apply (timeout_found 5 Canceled)];
    first [reflexivity|by repeat constructor].
Defined.
