(* ===== verification/Support.v ===== *)
(** * General helpers: [src/support]

    The helpers on functions and values, [Proxy], contexts, the coordinator,
    collections, maps and sizes in bytes.  [W] is the world that callbacks act on.
    [PipeWithErr] and [ChainWithErr] keep their error in a variable that all calls
    of the function they return share; those calls are a transition system. *)

From S2P Require Import Prelude GoErrors GoStrconv GoFloat GoSlices.
From Stdlib Require Import SpecFloat.
From stdpp Require Import options.
Set Default Proof Using "Type*".

(** ** [helpers.go] *)
Section Helpers.
Context {W T : Type}.

Fixpoint repeat_loop (fn : W -> option error * W) (times : nat) (w : W) : option error * W :=
  match times with
  | O => (None, w)
  | S times => let '(err, w) := fn w in match err with Some e => (Some e, w) | None => repeat_loop fn times w end
  end.
Definition Repeat (fn : W -> option error * W) (times : Z) (w : W) : option error * W := repeat_loop fn (Z.to_nat times) w.

Definition ErrorIf (condition : bool) (msg : string) : option error := if condition then Some (ErrMsg msg) else None.

(** [inr] is a panic. *)
Definition PanicIf (condition : bool) (msg : string) : unit + string := if condition then inr msg else inl tt.

Definition Pipe (fns : list (T -> T)) (v : T) : T := foldl (fun v fn => fn v) v fns.

Definition Chain (fns : list (option (T -> T))) (v : T) : T :=
  foldl (fun v fn => match fn with Some fn => fn v | None => v end) v (reverse fns).

Definition When (condition : bool) (callback : W -> W) (w : W) : W := if condition then callback w else w.
Definition Must (v : T) (err : option error) : T + error := match err with Some e => inr e | None => inl v end.
Definition Ignore (v : T) (err : option error) : T := v.
End Helpers.

(** *** [PipeWithErr]

    One call: its value, the functions that are left, and where it stands.  [err]
    is the shared variable: it is written by the assignment and read by the
    condition and by the [return]. *)
Section PipeWithErr.
Context {T : Type}.

Inductive pipe_pc := Calls | Tests | Fails | Returned (v : T) (err : option error).
Record pipe_call := mkPipe { val : T; rest : list (T -> T * option error); pc : pipe_pc }.

(** The next step of a call on the shared variable. *)
Definition pipe_step (err : option error) (c : pipe_call) : option error * pipe_call :=
  match pc c with
  | Calls =>
      match rest c with
      | [] => (err, mkPipe (val c) [] (Returned (val c) None))
      | fn :: fns => let '(v, e) := fn (val c) in (e, mkPipe v fns Tests)
      end
  | Tests => (err, mkPipe (val c) (rest c) (match err with Some _ => Fails | None => Calls end))
  | Fails => (err, mkPipe (val c) (rest c) (Returned (val c) err))
  | Returned _ _ => (err, c)
  end.

Definition PipeWithErr (fns : list (T -> T * option error)) (v : T) : pipe_call := mkPipe v fns Calls.

(** Nil functions are skipped. *)
Definition ChainWithErr (fns : list (option (T -> T * option error))) (v : T) : pipe_call :=
  mkPipe v (omap id (reverse fns)) Calls.

(** Calls of the same function at the same time; the schedule names who is next. *)
Definition pipes_step (st : option error * list pipe_call) (k : nat) : option error * list pipe_call :=
  match st.2 !! k with
  | None => st
  | Some c => let '(err, c) := pipe_step st.1 c in (err, <[k:=c]> st.2)
  end.
Definition run_pipes (sched : list nat) (st : option error * list pipe_call) := foldl pipes_step st sched.

(** The functions one after the other, up to the first error. *)
Fixpoint pipe_spec (fns : list (T -> T * option error)) (v : T) : T * option error :=
  match fns with
  | [] => (v, None)
  | fn :: fns => match fn v with (v, Some e) => (v, Some e) | (v, None) => pipe_spec fns v end
  end.
End PipeWithErr.
Arguments pipe_pc : clear implicits.
Arguments pipe_call : clear implicits.

(** ** [contexts] *)
Section Contexts.
Context {C : Type}.
Fixpoint contexts_Pipe (ctx : C) (fns : list (option (C -> C * option error))) : C * option error :=
  match fns with
  | [] => (ctx, None)
  | None :: fns => contexts_Pipe ctx fns
  | Some fn :: fns =>
      let '(ctx, err) := fn ctx in
      match err with Some e => (ctx, Some e) | None => contexts_Pipe ctx fns end
  end.
Definition contexts_Chain (ctx : C) (fns : list (option (C -> C * option error))) : C * option error :=
  contexts_Pipe ctx (reverse fns).
End Contexts.

(** ** [values.go] *)
Section Values.
Context {W T : Type}.

Definition If_ (condition : bool) (trueVal falseVal : T) : T := if condition then trueVal else falseVal.
Definition IfFunc (condition : bool) (trueFunc falseFunc : W -> T * W) (w : W) : T * W :=
  if condition then trueFunc w else falseFunc w.
Definition Unless (condition : bool) (falseVal trueVal : T) : T := If_ condition trueVal falseVal.

Fixpoint Tap (value : T) (callbacks : list (option (T -> W -> W))) (w : W) : T * W :=
  match callbacks with
  | [] => (value, w)
  | cb :: cbs => Tap value cbs (match cb with Some f => f value w | None => w end)
  end.
Definition With (value : T) (callbacks : list (option (T -> T))) : T :=
  foldl (fun v cb => match cb with Some f => f v | None => v end) value callbacks.
Definition Transform {R} (value : T) (callback : T -> R) : R := callback value.

Definition ReturnIf (zero : T) (condition : bool) (callback : W -> T * W) (defaults : list T) (w : W) : T * W :=
  if condition then callback w
  else match defaults with d :: _ => (d, w) | [] => (zero, w) end.

Context `{EqDecision T} (zero : T).

Fixpoint Default (values : list T) : T :=
  match values with
  | [] => zero
  | v :: vs => if decide (v = zero) then Default vs else v
  end.

(** The callbacks after the one that answered are not called. *)
Fixpoint DefaultFunc (callbacks : list (option (W -> T * W))) (w : W) : T * W :=
  match callbacks with
  | [] => (zero, w)
  | None :: cbs => DefaultFunc cbs w
  | Some cb :: cbs => let '(v, w) := cb w in if decide (v = zero) then DefaultFunc cbs w else (v, w)
  end.
Definition DefaultWithFunc (value : T) (callbacks : list (option (W -> T * W))) (w : W) : T * W :=
  if decide (value = zero) then DefaultFunc callbacks w else (value, w).

Definition IsZero (value : T) : bool := bool_decide (value = zero).
Definition IsEmpty (value : T) : bool := IsZero value.
End Values.

(** ** [proxy_value.go] *)
Section Proxy.
Context {W T : Type}.
Record Proxy := mkProxy { value : T }.
Definition NewProxy (v : T) : Proxy := mkProxy v.
Definition Proxy_Tap (p : Proxy) (callbacks : list (option (T -> W -> W))) (w : W) : Proxy * W :=
  (p, (Tap (value p) callbacks w).2).
Definition Proxy_With (p : Proxy) (callbacks : list (option (T -> T))) : Proxy :=
  foldl (fun p cb => match cb with Some f => mkProxy (f (value p)) | None => p end) p callbacks.
Definition Proxy_When (p : Proxy) (condition : bool) (callbacks : list (option (T -> T))) : Proxy :=
  if condition then Proxy_With p callbacks else p.
Definition Proxy_Unless (p : Proxy) (condition : bool) (callbacks : list (option (T -> T))) : Proxy :=
  Proxy_When p (negb condition) callbacks.
Definition Proxy_Transform (p : Proxy) (callback : option (T -> T)) : Proxy :=
  match callback with Some f => mkProxy (f (value p)) | None => p end.
End Proxy.

(** ** [coordinator], and [Once] of [helpers.go]

    [sync.Once]: the first caller runs the function, the others wait until it has
    returned.  [closes] counts the calls of [close], the second of which would
    panic. *)
Inductive once_state := OnceNew | OnceRunning | OnceDone.
Inductive close_pc := CEnter | CRun | CReturned.
Record Coordinator := mkCoordinator { once : once_state; closes : nat; closers : list close_pc }.

Definition NewCoordinator (callers : nat) : Coordinator := mkCoordinator OnceNew 0 (replicate callers CEnter).

(** A receive from [Done()] is ready when the channel is closed. *)
Definition Done (c : Coordinator) : bool := 0 <? closes c.

(** One step of caller [k] of [Close]; a caller that must wait does not move. *)
Definition Close (c : Coordinator) (k : nat) : Coordinator :=
  match closers c !! k with
  | Some CEnter =>
      match once c with
      | OnceNew => mkCoordinator OnceRunning (closes c) (<[k:=CRun]> (closers c))
      | OnceRunning => c
      | OnceDone => mkCoordinator OnceDone (closes c) (<[k:=CReturned]> (closers c))
      end
  | Some CRun => mkCoordinator OnceDone (S (closes c)) (<[k:=CReturned]> (closers c))
  | _ => c
  end.

(** ** [collection] *)
Section Collection.
Context {W T : Type} `{EqDecision T} (zero : T).

Definition Map (fn : T -> nat -> T) (items : list T) : list T := imap (fun i x => fn x i) items.
Definition Filter (fn : T -> nat -> bool) (items : list T) : list T :=
  omap id (imap (fun i x => if fn x i then Some x else None) items).
Definition Reduce (fn : T -> T -> T) (items : list T) : T := foldl fn zero items.

Fixpoint find_from (i : nat) (fn : T -> nat -> bool) (items : list T) : option (nat * T) :=
  match items with
  | [] => None
  | x :: xs => if fn x i then Some (i, x) else find_from (S i) fn xs
  end.
Definition Find (fn : T -> nat -> bool) (items : list T) : T * bool :=
  match find_from 0 fn items with Some (_, x) => (x, true) | None => (zero, false) end.
Definition Index (fn : T -> nat -> bool) (items : list T) : Z * bool :=
  match find_from 0 fn items with Some (i, _) => (Z.of_nat i, true) | None => ((-1)%Z, false) end.

Fixpoint each_from (i : nat) (fn : T -> nat -> W -> W) (items : list T) (w : W) : W :=
  match items with [] => w | x :: xs => each_from (S i) fn xs (fn x i w) end.
Definition Each := each_from 0.

Definition First (items : list T) : T * bool := match items with x :: _ => (x, true) | [] => (zero, false) end.
Definition Last (items : list T) : T * bool := match last items with Some x => (x, true) | None => (zero, false) end.
Definition Contains (items : list T) (item : T) : bool := existsb (fun x => bool_decide (x = item)) items.
Definition Missing (items : list T) (item : T) : bool := negb (Contains items item).

(** The loop of [Unique], with the elements it has seen. *)
Fixpoint unique_loop (seen items : list T) : list T :=
  match items with
  | [] => []
  | x :: xs => if bool_decide (x ∈ seen) then unique_loop seen xs else x :: unique_loop (x :: seen) xs
  end.
Definition Unique (items : list T) : list T := unique_loop [] items.

(** [for i := c.Len() - 1; i >= 0; i-- { items = append(items, c.items[i]) }] *)
Fixpoint reverse_loop (n : nat) (items : list T) : list T :=
  match n with
  | O => []
  | S i => match items !! i with Some x => [x] | None => [] end ++ reverse_loop i items
  end.
Definition Reverse (items : list T) : list T := reverse_loop (length items) items.

(** [sort.Slice] on a copy. *)
Definition SortBy (sort_Slice : (T -> T -> bool) -> list T -> list T) (fn : T -> T -> bool) (items : list T) : list T :=
  sort_Slice fn items.

(** The callbacks of [When] may change the collection. *)
Definition Collection_When (condition : bool) (fns : list (option (list T -> list T))) (items : list T) : list T :=
  if condition then foldl (fun c fn => match fn with Some f => f c | None => c end) items fns else items.
Definition Collection_Unless (condition : bool) (fns : list (option (list T -> list T))) (items : list T) : list T :=
  Collection_When (negb condition) fns items.

(** [New] keeps the slice it is given, and [Add] appends to it. *)
Definition New (items : slice) : slice := items.
Definition Add {growth : Growth} (c : slice) (items : list T) (h : arrays T) : arrays T * slice := append c items h.
Definition Items (c : slice) : slice := c.
End Collection.

(** ** [maps]

    A map is a reference: [None] is nil, [Some l] the table at [l].  A panic is
    [None]. *)
Section Maps.
Context {V : Type}.
Local Abbreviation table := (gmap string V).
Local Abbreviation store := (list table).

Definition read (m : option nat) (st : store) : table := match m with Some l => default ∅ (st !! l) | None => ∅ end.

(** [for k, v := range n { m[k] = v }]; assigning to a nil map panics. *)
Definition Merge (m n : option nat) (st : store) : option (store * option nat) :=
  if decide (read n st = ∅) then Some (st, m)
  else l ← m; Some (<[l := read n st ∪ read m st]> st, m).
Definition Clone_ (m : option nat) (st : store) : store * option nat := (st ++ [read m st], Some (length st)).
Definition Get (m : option nat) (k : string) (st : store) : option V := read m st !! k.
Definition Has (m : option nat) (k : string) (st : store) : bool := if Get m k st is Some _ then true else false.
Definition GetX (m : option nat) (k : string) (st : store) : V + string :=
  match Get m k st with Some v => inl v | None => inr ("maps: key " +:+ k +:+ " not exists") end.
Definition Set_ (m : option nat) (k : string) (v : V) (st : store) : option (store * option nat) :=
  l ← m; Some (<[l := <[k:=v]> (read m st)]> st, m).
Definition Delete (m : option nat) (k : string) (st : store) : store * option nat :=
  match m with Some l => (<[l := delete k (read m st)]> st, m) | None => (st, m) end.
Definition Len (m : option nat) (st : store) : nat := size (read m st).

(** A [range] yields the entries in some order. *)
Definition range_order (t : table) (l : list (string * V)) : Prop := l ≡ₚ map_to_list t.
Definition Keys (l : list (string * V)) : list string := l.*1.
Definition Values (l : list (string * V)) : list V := l.*2.
Definition Map_ (fn : string -> V -> string * V) (l : list (string * V)) (st : store) : store * option nat :=
  (st ++ [foldl (fun n kv => let '(k, v) := fn kv.1 kv.2 in <[k:=v]> n) ∅ l], Some (length st)).
Definition M_When (guard : bool) (fn : option nat -> store -> store * option nat) (m : option nat) (st : store) : store * option nat :=
  if guard then fn m st else (st, m).
Definition M_Unless (guard : bool) (fn : option nat -> store -> store * option nat) (m : option nat) (st : store) : store * option nat :=
  if negb guard then fn m st else (st, m).
End Maps.

(** ** [bytes] *)
Section Bytes.
Local Open Scope Z_scope.
Definition KB : Z := Z.shiftl 1 10.
Definition MB : Z := Z.shiftl 1 20.
Definition GB : Z := Z.shiftl 1 30.
Definition TB : Z := Z.shiftl 1 40.
Definition PB : Z := Z.shiftl 1 50.
Definition EB : Z := Z.shiftl 1 60.

Definition Unit (b : Z) : string :=
  if b >=? EB then "EB" else if b >=? PB then "PB" else if b >=? TB then "TB" else if b >=? GB then "GB"
  else if b >=? MB then "MB" else if b >=? KB then "KB" else "B".

(** [float64(b) / float64(unit)] *)
Definition in_unit (b unit : Z) : spec_float := SFdiv prec64 emax64 (float64_of_int b) (float64_of_int unit).

Definition Format (b : Z) : spec_float :=
  if b >=? EB then in_unit b EB else if b >=? PB then in_unit b PB else if b >=? TB then in_unit b TB
  else if b >=? GB then in_unit b GB else if b >=? MB then in_unit b MB else if b >=? KB then in_unit b KB
  else float64_of_int b.

(** [Sprintf_f l x] is the decimal [x] with [l] digits. *)
Definition HumanizeValue (Sprintf_f : Z -> spec_float -> string) (b : Z) (lens : list Z) : string :=
  Sprintf_f (match lens with l :: _ => l | [] => 2 end) (Format b).
Definition Humanize (Sprintf_f : Z -> spec_float -> string) (b : Z) (lens : list Z) : string :=
  HumanizeValue Sprintf_f b lens +:+ Unit b.
End Bytes.

(** ** Pipes with errors *)
Section Pipes.
Context {T : Type}.
Implicit Types (c : pipe_call T) (fns : list (T -> T * option error)).

Lemma run_pipes_cons k sched (st : option error * list (pipe_call T)) :
  run_pipes (k :: sched) st = run_pipes sched (pipes_step st k).
Proof. done. Qed.

Lemma run_alone err c : pipes_step (err, [c]) 0 = let '(err', c') := pipe_step err c in (err', [c']).
Proof. done. Qed.

Lemma run_returned n err c v e : pc c = Returned v e -> run_pipes (replicate n 0) (err, [c]) = (err, [c]).
Proof.
  intros Hc. induction n as [|n IH]; [done|]. cbn [replicate]. rewrite run_pipes_cons, run_alone.
  unfold pipe_step. by rewrite Hc.
Qed.

(** Alone, a call gives what the functions give one after the other, whatever an
    earlier call has left in the variable: two steps for each function. *)
Theorem pipe_alone fns v err :
  exists err' c, run_pipes (replicate (2 * length fns + 2) 0) (err, [PipeWithErr fns v]) = (err', [c]) /\
    pc c = Returned (pipe_spec fns v).1 (pipe_spec fns v).2.
Proof.
  unfold PipeWithErr. revert v err. induction fns as [|fn fns IH]; intros v err; [by eexists _, _|].
  replace (2 * length (fn :: fns) + 2) with (S (S (2 * length fns + 2))) by (cbn; lia).
  cbn [replicate]. rewrite !run_pipes_cons, run_alone. cbn [pipe_step pc rest val pipe_spec].
  destruct (fn v) as [v' [e|]]; cbn [pipe_step pc rest val]; rewrite run_alone; cbn [pipe_step pc rest val].
  - replace (2 * length fns + 2) with (S (2 * length fns + 1)) by lia. cbn [replicate].
    rewrite run_pipes_cons, run_alone. cbn [pipe_step pc rest val]. rewrite (run_returned _ _ _ v' (Some e)) by done. by eexists _, _.
  - apply IH.
Qed.

(** The variable is shared: of two calls at the same time, one whose function
    failed returns no error when the other assigns between its assignment and
    its test. *)
Theorem pipe_error_lost (fail ok : T -> T * option error) v v' e :
  fail v = (v', Some e) ->
  forall w w', ok w = (w', None) ->
  let '(_, calls) := run_pipes [0; 1; 0; 0] (None, [PipeWithErr [fail] v; PipeWithErr [ok] w]) in
  exists c, calls !! 0 = Some c /\ pc c = Returned v' None.
Proof.
  intros Hf w w' Ho. unfold run_pipes, PipeWithErr. cbn. unfold pipes_step. cbn. rewrite Hf. cbn. rewrite Ho. cbn.
  by eexists.
Qed.

(** As long as no function fails, every interleaving of calls is right. *)
Fixpoint never_fails fns v : Prop :=
  match fns with
  | [] => True
  | fn :: fns => (fn v).2 = None /\ never_fails fns (fn v).1
  end.

Lemma never_fails_spec fns v : never_fails fns v -> (pipe_spec fns v).2 = None.
Proof.
  revert v. induction fns as [|fn fns IH]; intros v H; [done|]. cbn in *. destruct H as [E H].
  destruct (fn v) as [v' [e|]]; [done|]. by apply IH.
Qed.

(** Where a call stands that never fails and returns [r]. *)
Definition pipe_ok (err : option error) (r : T) c : Prop :=
  match pc c with
  | Calls => never_fails (rest c) (val c) /\ (pipe_spec (rest c) (val c)).1 = r
  | Tests => err = None /\ never_fails (rest c) (val c) /\ (pipe_spec (rest c) (val c)).1 = r
  | Fails => False
  | Returned v e => v = r /\ e = None
  end.

Lemma pipe_ok_step err r c :
  pipe_ok err r c -> let '(err', c') := pipe_step err c in
  pipe_ok err' r c' /\ (forall r2 c2, pipe_ok err r2 c2 -> pipe_ok err' r2 c2).
Proof.
  intros Hok. unfold pipe_step, pipe_ok in *. destruct c as [v fns p]. cbn in *. destruct p as [| | |v0 e0]; [..|by split].
  - destruct fns as [|fn fns]; cbn; [split; [by destruct Hok|done]|].
    destruct Hok as [[E H] Hr]. cbn in E, H, Hr. destruct (fn v) as [v' e']. cbn in E, H, Hr |- *. subst e'. split; [done|].
    intros r2 [v2 fns2 [| | |]] H2; cbn in *; try done. by destruct H2 as (_ & ? & ?).
  - destruct Hok as (-> & ? & ?). cbn. by split.
  - done.
Qed.

Theorem pipe_interleaved fns vs sched err :
  Forall (never_fails fns) vs ->
  let '(_, calls) := run_pipes sched (err, PipeWithErr fns <$> vs) in
  forall k v c u e, vs !! k = Some v -> calls !! k = Some c -> pc c = Returned u e -> (u, e) = pipe_spec fns v.
Proof.
  intros Hall.
  assert (H0 : Forall2 (fun r c => pipe_ok err r c) ((fun v => (pipe_spec fns v).1) <$> vs) (PipeWithErr fns <$> vs)).
  { apply Forall2_fmap. apply Forall2_same_length_lookup_2; [done|]. intros i x y Hx Hy. simplify_eq.
    split; [|done]. rewrite Forall_lookup in Hall. by eapply Hall. }
  assert (Hinv : forall sched err calls, Forall2 (fun r c => pipe_ok err r c) ((fun v => (pipe_spec fns v).1) <$> vs) calls ->
    let '(err', calls') := run_pipes sched (err, calls) in
    Forall2 (fun r c => pipe_ok err' r c) ((fun v => (pipe_spec fns v).1) <$> vs) calls').
  { clear. induction sched as [|k sched IH]; intros err calls HF; [done|]. unfold run_pipes in *. cbn [foldl].
    unfold pipes_step at 2. cbn. destruct (calls !! k) as [c|] eqn:Ec; [|by apply IH].
    destruct (Forall2_lookup_r _ _ _ _ _ HF Ec) as (r & Er & Hok). pose proof (pipe_ok_step err r c Hok) as Hs.
    destruct (pipe_step err c) as [err' c']. destruct Hs as [Hc Hothers]. apply IH.
    rewrite <- (list_insert_id _ k r) by done. apply Forall2_insert; [|done].
    eapply Forall2_impl; [exact HF|]. intros ? ?. apply Hothers. }
  specialize (Hinv sched err _ H0). destruct (run_pipes _ _) as [err' calls].
  intros k v c u e Ev Ec Hpc. destruct (Forall2_lookup_r _ _ _ _ _ Hinv Ec) as (r & Er & Hok).
  rewrite list_lookup_fmap, Ev in Er. injection Er as <-. unfold pipe_ok in Hok. rewrite Hpc in Hok. destruct Hok as [-> ->].
  rewrite Forall_lookup in Hall. pose proof (never_fails_spec fns v (Hall _ _ Ev)) as Hn. by destruct (pipe_spec fns v); cbn in *; subst.
Qed.
End Pipes.

Lemma pipe_error_lost_witness :
  let '(_, calls) := run_pipes [0; 1; 0; 0]
    (None, [PipeWithErr [fun n => (n, Some Canceled)] 1; PipeWithErr [fun n => (S n, None)] 5]) in
  exists c, calls !! 0 = Some c /\ pc c = Returned 1 None.
Proof.
  apply (pipe_error_lost (fun n => (n, Some Canceled)) (fun n => (S n, None)) 1 1 Canceled eq_refl 5 6 eq_refl).
Defined.

Lemma pipe_interleaved_witness : (4, None) = pipe_spec [fun n => (S n, None)] 3.
Proof.
  pose proof (pipe_interleaved [fun n => (S n, None)] [3; 5] [0; 1; 1; 0; 0; 1] None) as H.
  assert (Hall : Forall (never_fails [fun n => (S n, None)]) [3; 5]) by by repeat constructor.
  exact (H Hall 0 3 _ 4 None eq_refl eq_refl eq_refl).
Defined.

(** ** Closing *)

Definition run_closers (sched : list nat) (c : Coordinator) : Coordinator := foldl Close c sched.

Definition in_run (p : close_pc) : nat := match p with CRun => 1 | _ => 0 end.

(** Exactly one caller is in the function while it runs, and the channel has been
    closed once it has. *)
Record coordinator_ok (c : Coordinator) : Prop := {
  co_run : sum_list_with in_run (closers c) = match once c with OnceRunning => 1 | _ => 0 end;
  co_closed : closes c = match once c with OnceDone => 1 | _ => 0 end;
  co_returned : CReturned ∈ closers c -> once c = OnceDone
}.

Lemma coordinator_ok_new n : coordinator_ok (NewCoordinator n).
Proof.
  split; cbn; [induction n; [done|exact IHn]|done|]. intros Hin%elem_of_replicate. by destruct Hin.
Qed.

Lemma coordinator_ok_step c k : coordinator_ok c -> coordinator_ok (Close c k).
Proof.
  intros [Hr Hc Hd]. unfold Close. destruct (closers c !! k) as [[| |]|] eqn:E; [| |done..].
  - pose proof (fun q => sum_list_with_insert in_run (closers c) k CEnter q E) as Hsum.
    destruct (once c) eqn:Eo; [|by split; rewrite ?Eo|].
    + specialize (Hsum CRun). split; cbn in *; [lia|done|].
      intros [j Hj]%list_elem_of_lookup. apply list_lookup_insert_Some in Hj as [(_ & ? & _)|[_ Hj]]; [done|].
      apply list_elem_of_lookup_2 in Hj. by apply Hd in Hj.
    + specialize (Hsum CReturned). split; cbn in *; [lia|done|done].
  - pose proof (sum_list_with_insert in_run (closers c) k CRun CReturned E) as Hsum.
    destruct (once c) eqn:Eo; split; cbn in *; try done; lia.
Qed.

(** However many callers close the coordinator, the channel is closed once, and
    when a call has returned it is closed. *)
Theorem coordinator_close_once n sched :
  let c := run_closers sched (NewCoordinator n) in
  closes c <= 1 /\ (CReturned ∈ closers c -> Done c = true).
Proof.
  intros c. assert (Hok : coordinator_ok c).
  { unfold c, run_closers. generalize (coordinator_ok_new n). generalize (NewCoordinator n).
    induction sched as [|k sched IH]; intros c0 H0; [done|]. apply IH. by apply coordinator_ok_step. }
  destruct Hok as [_ Hc Hd]. unfold Done. rewrite Hc. split; [destruct (once c); lia|]. intros Hin. by rewrite (Hd Hin).
Qed.

(** ** Collections *)
Section Collections.
Context {T : Type} `{EqDecision T}.
Implicit Types (l : list T).

Lemma find_from_spec i fn l :
  match find_from i fn l with
  | Some (j, x) => exists k, j = i + k /\ l !! k = Some x /\ fn x j = true /\
      (forall k' y, k' < k -> l !! k' = Some y -> fn y (i + k') = false)
  | None => forall k y, l !! k = Some y -> fn y (i + k) = false
  end.
Proof.
  revert i. induction l as [|x l IH]; intros i; cbn; [by intros [|k] y|].
  destruct (fn x i) eqn:E.
  - exists 0. split_and!; [lia|done|done|lia].
  - specialize (IH (S i)). destruct (find_from (S i) fn l) as [[j y]|].
    + destruct IH as (k & -> & Hk & Hf & Hmin). exists (S k). split_and!; [lia|done|done|].
      intros [|k'] z Hlt Hz; [cbn in Hz; simplify_eq; by rewrite Nat.add_0_r|].
      rewrite <- Nat.add_succ_comm. apply Hmin; [lia|done].
    + intros [|k] z Hz; [cbn in Hz; simplify_eq; by rewrite Nat.add_0_r|]. rewrite <- Nat.add_succ_comm. by apply IH.
Qed.

Lemma unique_loop_spec seen l :
  NoDup (unique_loop seen l) /\ (forall x, x ∈ unique_loop seen l <-> x ∈ l /\ x ∉ seen) /\ unique_loop seen l `sublist_of` l.
Proof.
  revert seen. induction l as [|y l IH]; intros seen; cbn [unique_loop].
  - split_and!; [constructor| |done]. intros x. split; [by intros ?%not_elem_of_nil|by intros [? _]].
  - destruct (bool_decide_reflect (y ∈ seen)) as [Hs|Hs].
    + destruct (IH seen) as (H1 & H2 & H3). split_and!; [done| |by constructor]. intros x. rewrite H2, elem_of_cons.
      split; [by intros [? ?]; split; [right|]|]. intros [[->|?] ?]; [done|by split].
    + destruct (IH (y :: seen)) as (H1 & H2 & H3). split_and!; [|intros x|by constructor].
      * constructor; [|done]. rewrite H2. intros [_ Hn]. apply Hn. by left.
      * rewrite !elem_of_cons, H2, not_elem_of_cons. split.
        -- intros [->|(? & ? & ?)]; [by split; [left|]|by split; [right|]].
        -- intros [[->|?] ?]; [by left|]. destruct (decide (x = y)) as [->|]; [by left|by right].
Qed.

Lemma reverse_loop_take n l : n <= length l -> reverse_loop n l = reverse (take n l).
Proof.
  induction n as [|n IH]; intros Hn; [by rewrite take_0|]. cbn.
  destruct (lookup_lt_is_Some_2 l n) as [x Hx]; [lia|]. rewrite Hx, IH by lia.
  by rewrite (take_S_r l n x Hx), reverse_app.
Qed.

Lemma Filter_spec (fn : T -> nat -> bool) l :
  (forall x, x ∈ Filter fn l <-> exists i, l !! i = Some x /\ fn x i = true) /\ Filter fn l `sublist_of` l.
Proof using Type.
  revert fn. induction l as [|y l IH]; intros fn.
  - split; [|done]. intros x. split; [by intros ?%not_elem_of_nil|by intros (i & ? & _)].
  - assert (E : Filter fn (y :: l) = (if fn y 0 then [y] else []) ++ Filter (fun x i => fn x (S i)) l).
    { unfold Filter. rewrite imap_cons. cbn. by destruct (fn y 0). }
    destruct (IH (fun x i => fn x (S i))) as [H1 H2]. rewrite E. split.
    + intros x. rewrite elem_of_app, H1. split.
      * intros [Hin|(i & Hi & Hf)]; [|by exists (S i)]. exists 0. destruct (fn y 0) eqn:Ef; [|by apply not_elem_of_nil in Hin].
        by apply list_elem_of_singleton in Hin as ->.
      * intros ([|i] & Hi & Hf); [|right; by exists i]. cbn in Hi. injection Hi as ->. left. rewrite Hf. by left.
    + destruct (fn y 0); cbn; by constructor.
Qed.

(** What the collection operations compute: the kept elements in their order, the
    first match with its index, each element once in the order of its first
    occurrence, and the reverse. *)
Theorem collection_ops zero (fn : T -> nat -> bool) l :
  (forall x, x ∈ Filter fn l <-> exists i, l !! i = Some x /\ fn x i = true) /\ Filter fn l `sublist_of` l /\
  (forall x, Find zero fn l = (x, true) <-> exists i, Index fn l = (Z.of_nat i, true) /\ l !! i = Some x) /\
  (Find zero fn l = (zero, false) \/ (Find zero fn l).2 = true) /\
  NoDup (Unique l) /\ (forall x, x ∈ Unique l <-> x ∈ l) /\ Unique l `sublist_of` l /\
  Reverse l = reverse l.
Proof.
  destruct (Filter_spec fn l) as [F1 F2]. destruct (unique_loop_spec [] l) as (U1 & U2 & U3).
  split_and!; [done|done| | |done| |done|].
  - intros x. pose proof (find_from_spec 0 fn l) as Hf. unfold Find, Index.
    destruct (find_from 0 fn l) as [[j y]|].
    + destruct Hf as (k & -> & Hk & _). split.
      * intros [= <-]. by exists k.
      * intros (i & [= Hi%(inj Z.of_nat)] & Hx). cbn in Hi. subst i. by simplify_eq.
    + split; [done|]. by intros (i & ? & _).
  - unfold Find. destruct (find_from 0 fn l) as [[j y]|]; [by right|by left].
  - intros x. unfold Unique. rewrite U2. split; [by intros [? _]|]. intros ?. split; [done|apply not_elem_of_nil].
  - unfold Reverse. by rewrite reverse_loop_take, firstn_all.
Qed.
End Collections.

(** ** Maps *)
Section MapLaws.
Context {V : Type}.
Local Abbreviation store := (list (gmap string V)).
Implicit Types (st : store) (m n : option nat).

(** What is stored through one reference is read through every reference to the
    same map, and through no other: copies are independent. *)
Theorem map_references st l l' k v k' :
  l < length st -> l' < length st ->
  exists st', Set_ (Some l) k v st = Some (st', Some l) /\
    Get (Some l') k' st' = (if decide (l' = l /\ k' = k) then Some v else Get (Some l') k' st) /\
    (let '(st2, m2) := Clone_ (Some l) st' in
     forall k2, Get m2 k2 st2 = Get (Some l) k2 st' /\
       exists st3, Set_ m2 k v st2 = Some (st3, m2) /\ Get (Some l') k2 st3 = Get (Some l') k2 st').
Proof.
  intros Hl Hl'. eexists. split; [reflexivity|]. cbn.
  set (st' := <[l:=_]> st). assert (Hlen : length st' = length st) by apply length_insert.
  assert (Hget : forall j, j < length st -> default ∅ ((st' ++ [default ∅ (st' !! l)]) !! j) = default ∅ (st' !! j)).
  { intros j Hj. by rewrite lookup_app_l by lia. }
  split.
  - unfold Get, read, st'. destruct (decide (l' = l)) as [->|Hne].
    + rewrite list_lookup_insert, decide_True by done. cbn. destruct (decide (k' = k)) as [->|Hk].
      * by rewrite lookup_insert_eq, decide_True.
      * by rewrite lookup_insert_ne, decide_False by (done || by intros [_ ?]).
    + by rewrite list_lookup_insert_ne, decide_False by (done || by intros [? _]).
  - intros k2. unfold Get, read. split.
    + by rewrite list_lookup_middle.
    + eexists. split; [reflexivity|]. rewrite list_lookup_insert_ne by lia. by rewrite Hget.
Qed.

(** [Merge] lets the argument win. *)
Theorem map_merge st l n k :
  l < length st ->
  exists st', Merge (Some l) n st = Some (st', Some l) /\
    Get (Some l) k st' = (if Has n k st then Get n k st else Get (Some l) k st).
Proof.
  intros Hl. unfold Merge, Has, Get. destruct (decide (read n st = ∅)) as [E|_].
  - exists st. split; [done|]. rewrite E. by rewrite lookup_empty.
  - eexists. split; [reflexivity|]. cbn. rewrite list_lookup_insert, decide_True by done. cbn.
    rewrite lookup_union. by destruct (read n st !! k), (default ∅ (st !! l) !! k).
Qed.

Lemma range_fold (fn : string -> V -> string * V) (l : list (string * V)) :
  foldl (fun (acc : gmap string V) (kv : string * V) => let '(k, v) := fn kv.1 kv.2 in <[k:=v]> acc) ∅ l =
  list_to_map (reverse ((fun kv : string * V => fn kv.1 kv.2) <$> l)).
Proof.
  rewrite <- (reverse_involutive l) at 1. rewrite <- fmap_reverse. generalize (reverse l). clear l.
  intros l. induction l as [|kv l IH]; [done|]. rewrite reverse_cons, foldl_snoc. cbn. rewrite IH.
  by destruct (fn kv.1 kv.2).
Qed.

(** The order of a range shows only in the order of [Keys] and [Values], unless
    the function of [Map] sends two keys to one. *)
Theorem map_ranges (fn : string -> V -> string * V) m st l1 l2 :
  range_order (read m st) l1 -> range_order (read m st) l2 ->
  NoDup (Keys l1) /\ length (Keys l1) = Len m st /\ (forall k, k ∈ Keys l1 <-> Has m k st = true) /\
  (NoDup ((fun kv => (fn kv.1 kv.2).1) <$> l1) -> Map_ fn l1 st = Map_ fn l2 st).
Proof.
  unfold range_order, Keys. intros H1 H2. split_and!.
  - rewrite H1. apply NoDup_fst_map_to_list.
  - by rewrite length_fmap, H1, length_map_to_list.
  - intros k. rewrite H1, list_elem_of_fmap. unfold Has, Get. split.
    + intros ([k' v] & -> & Hin%elem_of_map_to_list). cbn. by rewrite Hin.
    + destruct (read m st !! k) as [v|] eqn:E; [|done]. intros _. exists (k, v). split; [done|].
      by apply elem_of_map_to_list.
  - intros Hnd. unfold Map_. do 3 f_equal.
    rewrite !range_fold. apply list_to_map_proper.
    + rewrite fmap_reverse. rewrite <- list_fmap_compose, reverse_Permutation. exact Hnd.
    + rewrite !reverse_Permutation. by rewrite H1, H2.
Qed.
End MapLaws.

(** ** Sizes *)
Section Sizes.
Local Open Scope Z_scope.

(** The exponent of a unit. *)
Definition unit_log (u : string) : Z :=
  if String.eqb u "EB" then 60 else if String.eqb u "PB" then 50 else if String.eqb u "TB" then 40
  else if String.eqb u "GB" then 30 else if String.eqb u "MB" then 20 else if String.eqb u "KB" then 10 else 0.

Lemma size_unit b :
  0 <= b < 2 ^ 60 ->
  let u := unit_log (Unit b) in
  0 <= u <= 50 /\ (u = 0 \/ 2 ^ u <= b) /\ b < 2 ^ (u + 10) /\
  Format b = (if u =? 0 then float64_of_int b else in_unit b (2 ^ u)).
Proof.
  intros Hb. unfold Unit, Format, KB, MB, GB, TB, PB, EB. rewrite !Z.shiftl_1_l.
  destruct (Z.geb_spec b (2 ^ 60)); [lia|].
  repeat (match goal with |- context [?x >=? ?y] => destruct (Z.geb_spec x y) end;
    [cbn -[Z.pow in_unit float64_of_int]; split_and!; try lia; reflexivity|]).
  cbn -[Z.pow in_unit float64_of_int]. split_and!; try lia; reflexivity.
Qed.

(** Below [2^53] bytes a size is shown exactly: the number is the size divided by
    its unit, and the unit is the largest that is not larger than the size. *)
Theorem size_exact b :
  0 < b < 2 ^ 53 ->
  let u := unit_log (Unit b) in
  (u = 0 \/ 2 ^ u <= b) /\ b < 2 ^ (u + 10) /\
  exists m e, Format b = S754_finite false m e /\ e <= 0 /\ Zpos m * 2 ^ u = b * 2 ^ (- e).
Proof.
  intros Hb u. assert (2 ^ 53 < 2 ^ 60) by reflexivity.
  destruct (size_unit b ltac:(lia)) as (Hu & Hlo & Hhi & Hf). fold u in Hu, Hlo, Hhi, Hf. split; [done|]. split; [done|].
  destruct (float64_exact b) as (m & E & Hm & Hv); [lia|lia|]. rewrite Z.abs_eq in * by lia.
  destruct (Z.ltb_spec b 0); [lia|].
  assert (Hlog : 0 <= Z.log2 b <= 52) by (split; [apply Z.log2_nonneg|]; assert (Z.log2 b < 53) by (apply Z.log2_lt_pow2; lia); lia).
  set (e := Z.log2 b - 52) in *. exists m. destruct (Z.eqb_spec u 0) as [Hz|Hz].
  - exists e. rewrite Hf, E, Hz. split_and!; [done|lia|]. rewrite Hm. lia.
  - assert (Hd : Zpos (digits2_pos m) = 53).
    { rewrite digits2_log2, Hm, Z.log2_mul_pow2 by lia. lia. }
    exists (e - u). rewrite Hf. unfold in_unit. rewrite E, div_pow2 by lia. split_and!; [done|lia|].
    rewrite Hm, <- Z.mul_assoc, <- Z.pow_add_r by lia. do 2 f_equal. lia.
Qed.

Lemma size_exact_witness :
  exists m e, Format 1536 = S754_finite false m e /\ e <= 0 /\ Zpos m * 2 ^ 10 = 1536 * 2 ^ (- e).
Proof. apply (size_exact 1536). vm_compute. split; reflexivity. Defined.
End Sizes.
