(* ===== verification/RedisTimed.v ===== *)
(** * Requests that take time

    A request reaches the system it is sent to after a delay; the clock is read
    then.  [rsend] sends a command to a Redis server through a client that may
    fail. *)

From S2P Require Import Prelude GoErrors Redis.
From stdpp Require Import options.
Set Default Proof Using "Type*".
Local Open Scope Z_scope.

(** A system, the time, and the delays of the next requests. *)
Record timed (S : Type) := mkTimed { sys : S; clock : Z; delays : list N }.
Arguments mkTimed {S} _ _ _.
Arguments sys {S} _.
Arguments clock {S} _.
Arguments delays {S} _.

Definition elapse {S} (w : timed S) : timed S :=
  mkTimed (sys w) (clock w + Z.of_N (default 0%N (head (delays w)))) (tail (delays w)).
Definition set_sys {S} (x : S) (w : timed S) : timed S := mkTimed x (clock w) (delays w).

Lemma elapse_clock {S} (w : timed S) : clock w <= clock (elapse w).
Proof. simpl. lia. Qed.

Section Send.
Context {R : Type} `{!RedisServer R}.

(** The pauses between the attempts of a call take time too. *)
Definition rsend (k : string) (co : cmd) (w : timed (Client R)) : timed (Client R) * (reply + error) :=
  let w := elapse w in
  let '(cl, r) := command (sys w) (clock w) k co in
  (mkTimed cl (clock w + spent (sys w)) (delays w), r).

(** What a run of the command and the passing of time keep of the server, a request
    keeps; an answer is that of a run on such a server, at the time it ends. *)
Lemma rsend_keep (P : Z -> R -> Prop) k co (w w' : timed (Client R)) r :
  rsend k co w = (w', r) ->
  (forall u v x, clock w <= u <= v -> P u x -> P v x) ->
  (forall u x, clock w <= u -> P u x -> P u (exec u k co x).1) ->
  P (clock w) (server (sys w)) ->
  clock w <= clock w' /\ P (clock w') (server (sys w')) /\
  (forall rep, r = inl rep -> exists x, P (clock w') x /\
     server (sys w') = (exec (clock w') k co x).1 /\ rep = (exec (clock w') k co x).2).
Proof.
  unfold rsend. intros Hs Hmono Hrun Hp. pose proof (elapse_clock w) as Hel.
  assert (Hcall : forall u x, (redis_call k co u x).1 = (exec u k co x).1).
  { intros u x. unfold redis_call. by destruct (exec u k co x) as [x' []]. }
  pose proof (roundtrip_keep (redis_call k co) P (sys (elapse w)) (clock (elapse w))) as K. cbv zeta in K.
  unfold command in Hs. destruct (roundtrip _ _ _) as [cl rep]. injection Hs as <- <-.
  destruct K as [_ K].
  - intros u v x Hu _. apply Hmono. lia.
  - intros u x Hu Hx. rewrite Hcall. apply Hrun; [lia|done].
  - by apply (Hmono (clock w)).
  - pose proof (spent_nonneg (sys (elapse w))) as Hsp. cbn [clock sys elapse] in *. split; [lia|]. destruct K as [[HP [e ->]]|(x & HP & -> & ->)]; [done|].
    rewrite Hcall. split; [apply Hrun; [lia|done]|]. intros rep. unfold redis_call.
    destruct (exec _ k co x) as [x' a] eqn:E. intros Hrep. exists x. rewrite E. split_and!; [done|done|].
    by destruct a; simplify_eq/=.
Qed.

(** No answer of the server is lost. *)
Definition answered (f : fault) : Prop := match f with Unsent _ => True | NoReply _ => False end.
Definition lossless (cl : Client R) : Prop :=
  Forall (fun f => Forall (fun p => answered p.1) (retried f) /\ from_option answered True (final f)) (faults cl).

Lemma lossless_attempts {A} (run : script R A) tries t r :
  Forall (fun p => answered p.1) tries -> (attempts run tries t r).2 = r.
Proof.
  intros H. revert t. induction H as [|[f p] l Hf _ IH]; intros t; [done|]. simpl in *. destruct f; [|done]. apply IH.
Qed.

(** Without losses, a failed request did not run, or the server refused it. *)
Lemma rsend_lossless k co (w w' : timed (Client R)) r : rsend k co w = (w', r) -> lossless (sys w) ->
  lossless (sys w') /\
  (forall e, r = inr e -> server (sys w') = server (sys w) \/
    (exec (clock w') k co (server (sys w))).2 = RErr e).
Proof.
  unfold rsend, lossless, command, roundtrip. intros Hs Hl. cbn [sys elapse] in Hs.
  assert (Hcall : forall u x e, (redis_call k co u x).2 = inr e -> (exec u k co x).2 = RErr e).
  { intros u x e. unfold redis_call. destruct (exec u k co x) as [x' []]; by intros [= <-]. }
  unfold spent in Hs. destruct (faults (sys w)) as [|f fs] eqn:Ef.
  - destruct (redis_call k co _ (server (sys w))) as [r' a] eqn:E. injection Hs as <- <-. cbn [sys clock faults].
    split; [constructor|]. intros e ->. right. rewrite Z.add_0_r. apply Hcall. exact (f_equal snd E).
  - apply Forall_cons in Hl as [[Ht Hf] Hl]. pose proof (lossless_attempts (redis_call k co) (retried f) (clock (elapse w)) (server (sys w)) Ht) as Ha.
    pose proof (attempts_time (redis_call k co) (retried f) (clock (elapse w)) (server (sys w))) as Hti. fold (pauses f) in Hti.
    destruct (attempts _ _ _ _) as [u x]. simpl in Ha, Hti. subst x u.
    destruct (final f) as [[e|e]|]; [|done|].
    + injection Hs as <- <-. split; [done|]. intros ? _. by left.
    + destruct (redis_call k co _ (server (sys w))) as [r' a] eqn:E. injection Hs as <- <-. cbn [sys clock faults].
      split; [done|]. intros e ->. right. apply Hcall. exact (f_equal snd E).
Qed.
End Send.
