(* ===== verification/Embedding.v ===== *)
(** * Cached embeddings: [src/eino/components/embedding/cached]

    An embedder in front of another keeps the vectors it has computed in a
    cacher, under keys that a generator makes of the text and the model.  The
    wrapped embedder is the library's: its state [E] and its call are parameters,
    and a vector is a value of a type [V].  The contract of a cacher is the class
    [CacherLaws]; the cachers on Redis ([cacher/redis]) and on a table
    ([cacher/gorm]) are instances of it. *)

From S2P Require Import Prelude GoErrors GoSHA256 Redis RedisTimed Cache CacheRedis.
From stdpp Require Import gmap strings.
From stdpp Require Import options.
From Stdlib Require Import Ascii.
Set Default Proof Using "Type*".
Local Open Scope string_scope.
Local Open Scope list_scope.
Local Open Scope Z_scope.

(** ** Keys *)

Record GeneratorOptions := mkGeneratorOptions { Model : string }.

(** [fmt.Sprintf("%s-%s", text, opts.Model)] *)
Definition SimpleGenerate (text : string) (opts : GeneratorOptions) : string :=
  text +:+ "-" +:+ Model opts.

(** A [hash.Hash] of the standard library, as far as it is used. *)
Class Hash (H : Type) := {
  h_new : H;
  h_write : list ascii -> H -> H;
  h_sum : H -> list ascii;
  h_reset : H -> H
}.

Class HashLaws (H : Type) `{!Hash H} := {
  digest : list ascii -> list ascii;
  written : H -> list ascii;
  written_new : written h_new = [];
  written_write b h : written (h_write b h) = written h ++ b;
  written_reset h : written (h_reset h) = [];
  sum_digest h : h_sum h = digest (written h)
}.

Section Generators.
Context {H : Type} `{!Hash H}.

(** The pool holds hashers that are not in use; [sync.Pool.Get] may take any of
    them, or make a new one. *)
Definition pool_Get (pick : nat) (pool : list H) : H * list H :=
  match pool !! pick with
  | Some hasher => (hasher, delete pick pool)
  | None => (h_new, pool)
  end.

Definition HashGenerate (pick : nat) (pool : list H) (text : string) (opts : GeneratorOptions)
    : list H * string :=
  let plainText := SimpleGenerate text opts in
  let '(hasher, pool) := pool_Get pick pool in
  let hasher := h_write (String.list_ascii_of_string plainText) hasher in
  let key := hex (h_sum hasher) in
  (h_reset hasher :: pool, key).
End Generators.

(** [sha256.New], of the default generator. *)
#[export] Instance sha256_hash : Hash (list ascii) := {|
  h_new := []; h_write b h := h ++ b; h_sum := Sum256; h_reset _ := []
|}.

#[export, refine] Instance sha256_laws : HashLaws (list ascii) := {| digest := Sum256; written h := h |}.
Proof. all: done. Defined.

(** ** Cachers *)

Definition ErrCacherKeyNotFound : error := ErrNew "embedding/cached: key not found in cacher".
Definition is_key_not_found (err : error) : bool :=
  errors_Is err "embedding/cached: key not found in cacher".

(** A cacher's methods, over its state [C]; both see the text in their context
    ([contextWithText]). *)
Class Cacher (C V : Type) := {
  CacherSet : string -> string -> V -> Z -> C -> C * option error;
  CacherGet : string -> string -> C -> C * (V * option error)
}.

(** What a cacher promises: it returns only what was stored under the key, and no
    operation makes it hold anything else.  It may fail, forget and expire. *)
Class CacherLaws (C V : Type) `{!Cacher C V} := {
  may_hold : C -> string -> V -> Prop;
  get_held text key (c : C) v :
    (CacherGet text key c).2 = (v, None) -> may_hold c key v;
  get_may text key (c : C) k v :
    may_hold (CacherGet text key c).1 k v -> may_hold c k v;
  set_may text key val ttl (c : C) k v :
    may_hold (CacherSet text key val ttl c).1 k v -> may_hold c k v \/ (k = key /\ v = val)
}.

Section NoCacher.
Context {V : Type} (nil : V).

(** [noCacher], the default. *)
Definition noCacher_Set (text key : string) (value : V) (expire : Z) (c : ()) : () * option error := (c, None).
Definition noCacher_Get (text key : string) (c : ()) : () * (V * option error) :=
  (c, (nil, Some ErrCacherKeyNotFound)).
End NoCacher.

(** ** The embedder *)

Section Embedder.
Context {C E V : Type} `{!Cacher C V} (nil : V).

(** The wrapped embedder: its call with the caller's options. *)
Variable embed : list string -> E -> E * (list V * option error).
Variable Generate : string -> GeneratorOptions -> string.

(** The lookups of the first loop: vectors by index, and the indices and texts
    that are not cached. *)
Record lookups := mkLookups {
  embeddingsByKey : gmap nat V; uncached : list nat; uncachedTexts : list string
}.

Fixpoint lookup_loop (opts : GeneratorOptions) (idx : nat) (texts : list string) (l : lookups) (c : C)
    : C * (lookups + error) :=
  match texts with
  | [] => (c, inl l)
  | text :: texts =>
      let key := Generate text opts in
      match CacherGet text key c with
      | (c, (_, Some err)) =>
          if is_key_not_found err
          then lookup_loop opts (S idx) texts
                 (mkLookups (embeddingsByKey l) (uncached l ++ [idx]) (uncachedTexts l ++ [text])) c
          else (c, inr err)
      | (c, (emb, None)) =>
          lookup_loop opts (S idx) texts
            (mkLookups (<[idx := emb]> (embeddingsByKey l)) (uncached l) (uncachedTexts l)) c
      end
  end.

(** The second loop, from the [i]-th uncached text on; an index out of range
    panics. *)
Fixpoint store_loop (opts : GeneratorOptions) (expiration : Z) (texts : list string) (embs : list V) (i : nat)
    (uncached : list nat) (m : gmap nat V) (c : C) : C * option (gmap nat V) :=
  match uncached with
  | [] => (c, Some m)
  | idx :: uncached =>
      match texts !! idx, embs !! i with
      | Some text, Some emb =>
          let '(c, _) := CacherSet text (Generate text opts) emb expiration c in
          store_loop opts expiration texts embs (S i) uncached (<[idx := emb]> m) c
      | _, _ => (c, None)
      end
  end.

(** [EmbedStrings], with the model of the call's options, if they name one.
    [None] is a panic. *)
Definition EmbedStrings (expiration : Z) (model : option string) (texts : list string) (c : C) (e : E)
    : C * E * option (list V * option error) :=
  let generatorOpts := mkGeneratorOptions (default "" model) in
  match lookup_loop generatorOpts 0 texts (mkLookups ∅ [] []) c with
  | (c, inr err) => (c, e, Some ([], Some err))
  | (c, inl l) =>
      let result (m : gmap nat V) := imap (fun i _ => default nil (m !! i)) texts in
      if (0 <? length (uncachedTexts l))%nat then
        match embed (uncachedTexts l) e with
        | (e, (_, Some err)) => (c, e, Some ([], Some err))
        | (e, (embs, None)) =>
            match store_loop generatorOpts expiration texts embs 0 (uncached l) (embeddingsByKey l) c with
            | (c, Some m) => (c, e, Some (result m, None))
            | (c, None) => (c, e, None)
            end
        end
      else (c, e, Some (result (embeddingsByKey l), None))
  end.
End Embedder.

(** ** What the embedder returns *)

Section Transparent.
Context {C E V : Type} `{!Cacher C V, !CacherLaws C V} (nil : V).
Variable embed : string -> list string -> E -> E * (list V * option error).
Variable Generate : string -> GeneratorOptions -> string.

(** The vector of a text under a model, and the pairs of texts and models that
    are in use. *)
Variables (f : string -> string -> V) (used : string -> string -> Prop).

(** The wrapped embedder computes [f] when it succeeds, and keys in use are told
    apart. *)
Hypothesis embed_f : forall model texts e e' embs,
  embed model texts e = (e', (embs, None)) -> embs = f model <$> texts.
Hypothesis keys_apart : forall t m t' m', used t m -> used t' m' ->
  Generate t (mkGeneratorOptions m) = Generate t' (mkGeneratorOptions m') -> t = t' /\ m = m'.

(** Whatever the cacher holds under a key in use is the vector it stands for. *)
Definition coherent (c : C) : Prop := forall t m v,
  used t m -> may_hold c (Generate t (mkGeneratorOptions m)) v -> v = f m t.

Lemma coherent_get text key (c : C) : coherent c -> coherent (CacherGet text key c).1.
Proof using Type. intros Hc t m v Hu Hm. apply (Hc t m v Hu). by eapply get_may. Qed.

Lemma coherent_set text m text' ttl (c : C) : used text m -> coherent c ->
  coherent (CacherSet text' (Generate text (mkGeneratorOptions m)) (f m text) ttl c).1.
Proof using keys_apart.
  intros Hu Hc t m' v Hu' Hm. apply set_may in Hm as [Hm | [Hk ->]]; [by apply (Hc t m' v)|].
  by destruct (keys_apart _ _ _ _ Hu' Hu Hk) as [-> ->].
Qed.

(** [m] has the vectors of all texts but those at the indices [rest]. *)
Definition covers (model : string) (texts : list string) (m : gmap nat V) (rest : list nat) : Prop :=
  forall i t, texts !! i = Some t -> m !! i = Some (f model t) \/ i ∈ rest.

Lemma covers_insert model texts (m : gmap nat V) idx rest t : texts !! idx = Some t ->
  covers model texts m (idx :: rest) -> covers model texts (<[idx := f model t]> m) rest.
Proof using Type.
  intros Ht Hc i t' Hi. destruct (decide (i = idx)) as [->|Hne].
  - left. simplify_eq. by rewrite lookup_insert_eq.
  - rewrite lookup_insert_ne by done. destruct (Hc i t' Hi) as [? | Hin]; [by left|].
    apply elem_of_cons in Hin as [? | ?]; [done|by right].
Qed.

Lemma covers_result model texts (m : gmap nat V) :
  covers model texts m [] -> imap (fun i _ => default nil (m !! i)) texts = f model <$> texts.
Proof using Type.
  intros Hc. apply list_eq. intros i. rewrite list_lookup_imap, list_lookup_fmap.
  destruct (texts !! i) as [t|] eqn:Ht; simpl; [|done].
  destruct (Hc i t Ht) as [-> | Hin]; [done|by apply elem_of_nil in Hin].
Qed.

(** The lookups so far, of the texts [seen]. *)
Definition looked (model : string) (seen : list string) (l : lookups) : Prop :=
  covers model seen (embeddingsByKey l) (uncached l) /\
  Forall2 (fun i t => seen !! i = Some t) (uncached l) (uncachedTexts l) /\
  uncachedTexts l `sublist_of` seen.

Lemma looked_hit model seen text (l : lookups) :
  looked model seen l ->
  looked model (seen ++ [text])
    (mkLookups (<[length seen := f model text]> (embeddingsByKey l)) (uncached l) (uncachedTexts l)).
Proof using Type.
  intros (Hc & Hf & Hs). split_and!; simpl.
  - intros i t [Hi | [Hge Hi]]%lookup_app_Some.
    + rewrite lookup_insert_ne by (apply lookup_lt_Some in Hi; lia). by apply Hc.
    + apply list_lookup_singleton_Some in Hi as [Hi <-]. left.
      replace i with (length seen) by lia. by rewrite lookup_insert_eq.
  - eapply Forall2_impl; [exact Hf|]. intros i t Hi. by apply lookup_app_l_Some.
  - by apply sublist_inserts_r.
Qed.

Lemma looked_miss model seen text (l : lookups) :
  looked model seen l ->
  looked model (seen ++ [text])
    (mkLookups (embeddingsByKey l) (uncached l ++ [length seen]) (uncachedTexts l ++ [text])).
Proof using Type.
  intros (Hc & Hf & Hs). split_and!; simpl.
  - intros i t [Hi | [Hge Hi]]%lookup_app_Some.
    + destruct (Hc i t Hi); [by left|right]. by apply elem_of_app; left.
    + apply list_lookup_singleton_Some in Hi as [Hi <-]. right.
      apply elem_of_app; right. apply list_elem_of_singleton. lia.
  - apply Forall2_app.
    + eapply Forall2_impl; [exact Hf|]. intros i t Hi. by apply lookup_app_l_Some.
    + constructor; [|done]. by rewrite lookup_app_r, Nat.sub_diag by lia.
  - by apply sublist_app.
Qed.

Lemma lookup_loop_ok model texts : forall seen (l : lookups) (c : C),
  Forall (fun t => used t model) texts -> coherent c -> looked model seen l ->
  exists c' r, lookup_loop Generate (mkGeneratorOptions model) (length seen) texts l c = (c', r) /\
    coherent c' /\
    match r with inl l' => looked model (seen ++ texts) l' | inr _ => True end.
Proof using Type.
  induction texts as [|text texts IH]; intros seen l c Hu Hc Hl.
  { exists c, (inl l). by rewrite app_nil_r. }
  apply Forall_cons in Hu as [Ht Hu]. cbn [lookup_loop].
  pose proof (coherent_get text (Generate text (mkGeneratorOptions model)) c Hc) as Hc'.
  pose proof (get_held text (Generate text (mkGeneratorOptions model)) c) as Hget.
  destruct (CacherGet _ _ c) as [c' [emb [err|]]]; simpl in Hc', Hget.
  - destruct (is_key_not_found err); [|by exists c', (inr err)].
    destruct (IH (seen ++ [text]) _ c' Hu Hc' (looked_miss _ _ text _ Hl)) as (c2 & r & E2 & ? & ?).
    rewrite length_app in E2. simpl in E2. rewrite Nat.add_1_r in E2. exists c2, r.
    by rewrite <- app_assoc in *.
  - rewrite (Hc _ _ _ Ht (Hget _ eq_refl)) in *.
    destruct (IH (seen ++ [text]) _ c' Hu Hc' (looked_hit _ _ text _ Hl)) as (c2 & r & E2 & ? & ?).
    rewrite length_app in E2. simpl in E2. rewrite Nat.add_1_r in E2. exists c2, r.
    by rewrite <- app_assoc in *.
Qed.

Lemma store_loop_ok model ttl texts utexts : forall rest i (m : gmap nat V) (c : C),
  Forall (fun t => used t model) texts -> coherent c ->
  Forall2 (fun j t => texts !! j = Some t) rest (drop i utexts) -> covers model texts m rest ->
  exists c' m', store_loop Generate (mkGeneratorOptions model) ttl texts (f model <$> utexts) i rest m c
                = (c', Some m') /\
    coherent c' /\ covers model texts m' [].
Proof using keys_apart.
  intros rest. induction rest as [|idx rest IH]; intros i m c Hu Hc Hf Hm.
  { by exists c, m. }
  apply Forall2_cons_inv_l in Hf as (t & ts & Ht & Hf & Hdrop). cbn [store_loop].
  assert (utexts !! i = Some t) as Hi.
  { rewrite <- (Nat.add_0_r i), <- lookup_drop, Hdrop. done. }
  rewrite Ht, list_lookup_fmap, Hi. cbn [fmap option_fmap option_map].
  assert (used t model) as Hut by exact (Forall_lookup_1 (fun t => used t model) _ _ _ Hu Ht).
  pose proof (coherent_set t model t ttl c Hut Hc) as Hc'.
  destruct (CacherSet _ _ _ ttl c) as [c' err]. simpl in Hc'.
  apply IH; [done|done| |by apply covers_insert].
  replace (S i) with (i + 1)%nat by lia. by rewrite <- drop_drop, Hdrop.
Qed.

End Transparent.

(** ** Keys of different texts *)

(** What follows the last dash of a key is its model, if models have no dash. *)
Fixpoint no_dash (s : string) : bool :=
  match s with
  | EmptyString => true
  | String a s => negb (Ascii.eqb a "-"%char) && no_dash s
  end.

Lemma no_dash_app s t : no_dash (s +:+ t) = no_dash s && no_dash t.
Proof. induction s as [|a s IH]; simpl; [done|]. rewrite IH. by rewrite andb_assoc. Qed.

Lemma last_dash t m t' m' : no_dash m = true -> no_dash m' = true ->
  t +:+ "-" +:+ m = t' +:+ "-" +:+ m' -> t = t' /\ m = m'.
Proof.
  change ("-" +:+ m) with (String "-" m). change ("-" +:+ m') with (String "-" m').
  intros Hm Hm'. revert t'. induction t as [|a t IH]; intros [|b t'] Heq.
  - change (String "-" m = String "-" m') in Heq. by injection Heq.
  - change (String "-" m = String b (t' +:+ String "-" m')) in Heq. injection Heq as _ ->.
    rewrite no_dash_app in Hm. simpl in Hm. by rewrite andb_false_r in Hm.
  - change (String a (t +:+ String "-" m) = String "-" m') in Heq. injection Heq as _ <-.
    rewrite no_dash_app in Hm'. simpl in Hm'. by rewrite andb_false_r in Hm'.
  - change (String a (t +:+ String "-" m) = String b (t' +:+ String "-" m')) in Heq.
    injection Heq as -> Heq. by destruct (IH t' Heq) as [-> ->].
Qed.

(** Under one model, and under all models whose names have no dash, the plain
    generator tells texts apart. *)
Theorem simple_keys_apart t m t' m' :
  SimpleGenerate t (mkGeneratorOptions m) = SimpleGenerate t' (mkGeneratorOptions m') ->
  m = m' \/ (no_dash m = true /\ no_dash m' = true) -> t = t' /\ m = m'.
Proof.
  unfold SimpleGenerate. cbn [Model]. intros Heq [-> | [Hm Hm']]; [|by apply last_dash].
  split; [|done]. by eapply append_inv_r.
Qed.

(** Models whose names have dashes share keys: the second call would be served
    the vector of the first. *)
Theorem simple_keys_collide :
  SimpleGenerate "vitamin-a" (mkGeneratorOptions "small") = SimpleGenerate "vitamin" (mkGeneratorOptions "a-small").
Proof. reflexivity. Qed.

Section Pool.
Context {H : Type} `{!Hash H, !HashLaws H}.

(** Whichever hasher the pool hands out, the key is the digest of the plain key,
    and the hashers in the pool stay ready for use. *)
Theorem hash_generate pick (pool : list H) text opts :
  Forall (fun h => written h = []) pool ->
  (HashGenerate pick pool text opts).2 = hex (digest (String.list_ascii_of_string (SimpleGenerate text opts))) /\
  Forall (fun h => written h = []) (HashGenerate pick pool text opts).1.
Proof.
  intros Hp. unfold HashGenerate, pool_Get.
  assert (forall h, written h = [] -> h_sum (h_write (String.list_ascii_of_string (SimpleGenerate text opts)) h)
    = digest (String.list_ascii_of_string (SimpleGenerate text opts))) as Hsum.
  { intros h Hh. by rewrite sum_digest, written_write, Hh. }
  destruct (pool !! pick) as [h|] eqn:Ep; simpl.
  - rewrite Hsum by by (eapply (Forall_lookup_1 (fun h => written h = []))).
    split; [done|]. constructor; [apply written_reset|by apply Forall_delete].
  - rewrite Hsum by apply written_new. split; [done|]. constructor; [apply written_reset|done].
Qed.
End Pool.

(** ** The cacher on Redis *)

Section RedisCacher.
Context {R V : Type} `{!RedisServer R, !ClientOptions} (nil : V).

Record RedisCacher := mkRedisCacher { rprefix : string; rcodec : Codec V }.

Definition WithPrefix (prefix : string) (c : RedisCacher) : RedisCacher :=
  mkRedisCacher (TrimSuffix prefix +:+ ":") (rcodec c).
Definition WithCodec (codec : Codec V) (c : RedisCacher) : RedisCacher :=
  mkRedisCacher (rprefix c) codec.
Definition NewCacher (sonic : Codec V) (opts : list (RedisCacher -> RedisCacher)) : RedisCacher :=
  foldl (fun c o => o c) (mkRedisCacher "eino:" sonic) opts.

Variable c : RedisCacher.

Definition RedisCacherSet (key : string) (value : V) (expire : Z) (w : timed (Client R))
    : timed (Client R) * option error :=
  match Marshal (rcodec c) value with
  | inr err => (w, Some err)
  | inl data =>
      match rsend (rprefix c +:+ key) (SET data (expiration expire)) w with
      | (w, inr err) => (w, Some err)
      | (w, inl _) => (w, None)
      end
  end.

(** [return value, c.codec.Unmarshal(data, &value)]: whether [value] is read
    before or after the call is left open by the language. *)
Definition RedisCacherGet (read : Cache.order) (key : string) (w : timed (Client R))
    : timed (Client R) * (V * option error) :=
  let '(w, r) := rsend (rprefix c +:+ key) GET w in
  match (match r with inl (RStr v) => inl v | inl _ => inr redis_Nil | inr err => inr err end) with
  | inr err => (w, (nil, Some (if errors_Is err "redis: nil" then ErrCacherKeyNotFound else err)))
  | inl data =>
      let '(value, err) := Unmarshal (rcodec c) data nil in
      (w, (match read with VariableFirst => nil | CallFirst => value end, err))
  end.

#[export] Instance redis_cacher (read : Cache.order) : Cacher (timed (Client R)) V := {|
  CacherSet _ := RedisCacherSet;
  CacherGet _ := RedisCacherGet read
|}.

Context `{!RedisLaws R}.
Hypothesis codec_roundtrip : forall v data, Marshal (rcodec c) v = inl data -> Unmarshal (rcodec c) data nil = (v, None).

(** The server holds, or held a moment ago, data of [v] under [k]. *)
Definition redis_may (w : timed (Client R)) (k : string) (v : V) : Prop :=
  exists t data d, clock w <= t /\
    lookup_at (server (sys w)) t (rprefix c +:+ k) = Some (mkEntry (VStr data) d) /\
    Unmarshal (rcodec c) data nil = (v, None).

(** What a server may hold from [u] on, it may have held before. *)
Definition may_at (x : R) (u : Z) (k : string) (v : V) : Prop :=
  exists t data d, u <= t /\ lookup_at x t (rprefix c +:+ k) = Some (mkEntry (VStr data) d) /\
    Unmarshal (rcodec c) data nil = (v, None).

Lemma may_at_sooner x u u' k v : u <= u' -> may_at x u' k v -> may_at x u k v.
Proof using Type. intros Hu (t & data & d & Ht & Hx). exists t, data, d. split; [lia|done]. Qed.

Lemma get_keeps key x u k v : may_at (exec u (rprefix c +:+ key) GET x).1 u k v -> may_at x u k v.
Proof using RedisLaws0.
  intros (t & data & d & Ht & Hl & Hu). rewrite exec_same in Hl by done. by exists t, data, d.
Qed.

Lemma set_keeps key val data ttl x u k v : Marshal (rcodec c) val = inl data ->
  may_at (exec u (rprefix c +:+ key) (SET data (expiration ttl)) x).1 u k v -> may_at x u k v \/ (k = key /\ v = val).
Proof using RedisLaws0 codec_roundtrip.
  intros Em (t & data' & d & Ht & Hl & Hu). destruct (decide (k = key)) as [->|Hne].
  - right. split; [done|]. rewrite exec_later in Hl by done. apply unexpired_Some in Hl as [Hl _].
    cbn [cmd_spec] in Hl. rewrite expiration_good in Hl.
    simpl in Hl. injection Hl as <- _. by rewrite (codec_roundtrip _ _ Em) in Hu; injection Hu.
  - left. rewrite exec_frame in Hl by (done || by apply prefix_ne). by exists t, data', d.
Qed.

(** A request, over all its attempts. *)
Lemma rsend_may co k v (w w' : timed (Client R)) key r (Q : Prop) :
  rsend (rprefix c +:+ key) co w = (w', r) ->
  (forall x u, may_at (exec u (rprefix c +:+ key) co x).1 u k v -> may_at x u k v \/ Q) ->
  redis_may w' k v -> redis_may w k v \/ Q.
Proof using Type.
  intros Es Hstep Hm.
  pose proof (rsend_keep (fun u x => may_at x u k v -> redis_may w k v \/ Q) _ _ _ _ _ Es) as (_ & Hkeep & _).
  - intros u u' x Hu Hx Hm'. apply Hx. eapply may_at_sooner; [|exact Hm']. lia.
  - intros u x Hu Hx [Hm'|?]%Hstep; [by apply Hx|by right].
  - by left.
  - by apply Hkeep.
Qed.

Lemma redis_get_may key (w : timed (Client R)) k v :
  redis_may (RedisCacherGet CallFirst key w).1 k v -> redis_may w k v.
Proof using RedisLaws0.
  unfold RedisCacherGet. destruct (rsend _ GET w) as [w' r] eqn:Es.
  set (w2 := (match _ with inl data => _ | inr err => _ end).1) in *.
  assert (w2 = w') as ->. { subst w2. by destruct r as [[]|]; try destruct (Unmarshal _ _ _). }
  intros Hm. destruct (rsend_may GET k v w w' key r False Es) as [?|?]; [|done|done|done].
  intros x u Hx. left. by eapply get_keeps.
Qed.

Lemma redis_get_held key (w : timed (Client R)) v :
  (RedisCacherGet CallFirst key w).2 = (v, None) -> redis_may w key v.
Proof using RedisLaws0.
  unfold RedisCacherGet. destruct (rsend _ GET w) as [w' r] eqn:Es.
  pose proof (rsend_keep (fun u x => may_at x u key v -> redis_may w key v) _ _ _ _ _ Es) as (Hck & _ & Hr).
  { intros u u' x Hu Hx Hm. apply Hx. eapply may_at_sooner; [|exact Hm]. lia. }
  { intros u x Hu Hx Hm%get_keeps. by apply Hx. }
  { done. }
  destruct r as [rep|err]; [|by destruct (errors_Is err _)]. destruct (Hr rep eq_refl) as (x & Hx & _ & Hrep).
  rewrite exec_reply in Hrep. destruct rep; try done. destruct (Unmarshal _ s nil) as [v' err] eqn:Eu.
  intros [= -> ->]. simpl in Hrep.
  destruct (lookup_at _ _ _) as [[[data|h] d]|] eqn:El; [|done|done].
  injection Hrep as ->. apply Hx. by exists (clock w'), data, d.
Qed.

Lemma redis_set_may key val ttl (w : timed (Client R)) k v :
  redis_may (RedisCacherSet key val ttl w).1 k v -> redis_may w k v \/ (k = key /\ v = val).
Proof using RedisLaws0 codec_roundtrip.
  unfold RedisCacherSet. destruct (Marshal (rcodec c) val) as [data|err] eqn:Em; [|by left].
  destruct (rsend _ _ w) as [w' r] eqn:Es.
  assert ((match r with inl _ => (w', None) | inr err => (w', Some err) end).1 = w') as -> by (by destruct r).
  eapply rsend_may; [exact Es|]. intros x u. by apply set_keeps.
Qed.

(** The cacher on Redis meets the contract if its [Get] reads the decoded
    value. *)
#[refine] Definition redis_cacher_laws : @CacherLaws _ _ (redis_cacher CallFirst) := {| may_hold := redis_may |}.
Proof using RedisLaws0 codec_roundtrip.
  - intros text. apply redis_get_held.
  - intros text. apply redis_get_may.
  - intros text. apply redis_set_may.
Defined.

(** If it reads the variable first, it returns no vector for data it holds. *)
Lemma redis_get_order key (w : timed (Client R)) : (RedisCacherGet VariableFirst key w).2.1 = nil.
Proof using Type.
  unfold RedisCacherGet. destruct (rsend _ GET w) as [w' r].
  destruct r as [[]|]; try done. by destruct (Unmarshal _ _ _).
Qed.
End RedisCacher.
Arguments RedisCacher : clear implicits.

(** ** The cacher on a table *)

(** A row of the table, and the errors of the database. *)
Record row (V : Type) := mkRow { Vector : V; Expired : Z }.
Arguments mkRow {V} _ _.
Arguments Vector {V} _.
Arguments Expired {V} _.

Definition gorm_ErrRecordNotFound : error := ErrNew "record not found".

(** The statements the cacher sends: an insert that replaces the vector and the
    expiry of a row with the same key, a query for the key and a deletion. *)
Class GormDB (D V : Type) := {
  Create : string -> row V -> D -> D * option error;
  First : string -> D -> D * (row V + error);
  Delete : string -> D -> D * option error
}.

(** What the database documents.  A column of type [datetime] keeps an instant to
    a second ([column]); a statement that fails may or may not have run. *)
Class GormLaws (D V : Type) `{!GormDB D V} := {
  column : Z -> Z;
  column_bounds t : Z.abs (column t - t) <= Second;
  rows : D -> string -> option (row V);
  stored (r : row V) : row V := mkRow (Vector r) (column (Expired r));
  create_row k r d d' err : Create k r d = (d', err) ->
    rows d' k = Some (stored r) \/ (err <> None /\ rows d' k = rows d k);
  create_frame k r d k' : k' <> k -> rows (Create k r d).1 k' = rows d k';
  first_rows k d k' : rows (First k d).1 k' = rows d k';
  first_row k d r : (First k d).2 = inl r -> rows d k = Some r;
  first_none k d : (First k d).2 = inr gorm_ErrRecordNotFound -> rows d k = None;
  delete_row k d d' err : Delete k d = (d', err) ->
    rows d' k = None \/ (err <> None /\ rows d' k = rows d k);
  delete_frame k d k' : k' <> k -> rows (Delete k d).1 k' = rows d k'
}.

Section GormCacher.
Context {D V : Type} `{!GormDB D V} (nil : V).

Definition GormCacherSet (key : string) (value : V) (expire : Z) (w : timed D) : timed D * option error :=
  let w := elapse w in
  let '(d, err) := Create key (mkRow value (clock w + expire)) (sys w) in (set_sys d w, err).

Definition GormCacherDelete (key : string) (w : timed D) : timed D * option error :=
  let w := elapse w in
  let '(d, err) := Delete key (sys w) in (set_sys d w, err).

Definition GormCacherGet (key : string) (w : timed D) : timed D * (V * option error) :=
  let w := elapse w in
  let '(d, r) := First key (sys w) in
  let w := set_sys d w in
  match r with
  | inr err => (w, (nil, Some (if errors_Is err "record not found" then ErrCacherKeyNotFound else err)))
  | inl cacheEntry =>
      let w := elapse w in
      if Expired cacheEntry <? clock w then
        let '(w, _) := GormCacherDelete key w in (w, (nil, Some ErrCacherKeyNotFound))
      else (w, (Vector cacheEntry, None))
  end.

#[export] Instance gorm_cacher : Cacher (timed D) V := {|
  CacherSet _ := GormCacherSet;
  CacherGet _ := GormCacherGet
|}.

Context `{!GormLaws D V}.

Definition gorm_may (w : timed D) (k : string) (v : V) : Prop :=
  exists r, rows (sys w) k = Some r /\ Vector r = v.

Lemma delete_may key d k v :
  (exists r, rows (Delete key d).1 k = Some r /\ Vector r = v) -> exists r, rows d k = Some r /\ Vector r = v.
Proof.
  intros (r & Hr & Hv). exists r. split; [|done]. destruct (decide (k = key)) as [->|Hne].
  - destruct (Delete key d) as [d' err] eqn:E. simpl in Hr.
    apply delete_row in E as [E | [_ E]]; rewrite E in Hr; [done|done].
  - by rewrite delete_frame in Hr.
Qed.

Lemma gorm_get_may key (w : timed D) k v : gorm_may (GormCacherGet key w).1 k v -> gorm_may w k v.
Proof.
  unfold gorm_may, GormCacherGet. pose proof (first_rows key (sys (elapse w)) k) as Hf.
  destruct (First key _) as [d r]. simpl in Hf. destruct r as [r|err]; simpl; [|by rewrite Hf].
  destruct (_ <? _); simpl; [|by rewrite Hf]. unfold GormCacherDelete. rewrite <- Hf. intros Hm.
  apply (delete_may key). simpl in Hm. by destruct (Delete key d).
Qed.

Lemma gorm_set_may key val ttl (w : timed D) k v :
  gorm_may (GormCacherSet key val ttl w).1 k v -> gorm_may w k v \/ (k = key /\ v = val).
Proof.
  unfold gorm_may, GormCacherSet. intros (r & Hr & Hv).
  pose proof (create_frame key (mkRow val (clock (elapse w) + ttl)) (sys (elapse w)) k) as Hf.
  destruct (Create key _ _) as [d err] eqn:E. simpl in *. destruct (decide (k = key)) as [->|Hne].
  - apply create_row in E as [E | [_ E]]; rewrite E in Hr.
    + right. by injection Hr as <-.
    + left. eauto.
  - left. rewrite Hf in Hr by done. eauto.
Qed.

(** A vector the cacher returns is that of a row of the key which had not
    expired when the call began. *)
Theorem gorm_get_fresh key (w : timed D) v :
  (GormCacherGet key w).2 = (v, None) ->
  exists r, rows (sys w) key = Some r /\ Vector r = v /\ clock w <= Expired r.
Proof.
  unfold GormCacherGet. pose proof (first_row key (sys (elapse w))) as Hf.
  destruct (First key _) as [d r]. simpl in Hf. destruct r as [r|err]; [|by destruct (errors_Is err _)].
  destruct (Z.ltb_spec (Expired r) (clock (elapse (set_sys d (elapse w))))) as [Hlt|Hge].
  { by destruct (GormCacherDelete _ _). }
  intros [= <-]. exists r. split_and!; [by apply Hf|done|]. simpl in Hge. lia.
Qed.

#[refine] Definition gorm_cacher_laws : CacherLaws (timed D) V := {| may_hold := gorm_may |}.
Proof.
  - intros text key w v (r & Hr & Hv & _)%gorm_get_fresh. by exists r.
  - intros text. apply gorm_get_may.
  - intros text. apply gorm_set_may.
Defined.

(** What was stored for [ttl] is returned to a query that comes a second before
    its end or earlier, if the statements run. *)
Theorem gorm_set_get key val ttl (w w1 w2 : timed D) :
  GormCacherSet key val ttl w = (w1, None) ->
  sys w2 = sys w1 -> (exists r, (First key (sys w2)).2 = inl r) ->
  clock (elapse (elapse w2)) <= clock w1 + ttl - Second ->
  (GormCacherGet key w2).2 = (val, None).
Proof.
  unfold GormCacherSet, GormCacherGet. intros Hset Hsys [r Hr] Hck.
  destruct (Create key _ _) as [d err] eqn:E. injection Hset as <- ->.
  apply create_row in E as [E | [E _]]; [|done]. cbn [sys set_sys elapse] in *.
  pose proof (first_row key (sys w2) r Hr) as Hrow. destruct (First key (sys w2)) as [d2 r2].
  simpl in Hr. subst r2. rewrite Hsys, E in Hrow. injection Hrow as <-. unfold stored. cbn [Expired Vector].
  pose proof (column_bounds (clock (elapse w) + ttl)) as Hb. unfold elapse, set_sys in *. cbn [clock delays sys] in *.
  match goal with |- context [?a <? ?b] => destruct (Z.ltb_spec a b) end; [lia|done].
Qed.
End GormCacher.

(** A table that meets the laws, with whole seconds in its column. *)
#[export] Instance table_db {V} : GormDB (gmap string (row V)) V := {|
  Create k r d := (<[k := mkRow (Vector r) (Expired r / Second * Second)]> d, None);
  First k d := (d, match d !! k with Some r => inl r | None => inr gorm_ErrRecordNotFound end);
  Delete k d := (delete k d, None)
|}.

#[export, refine] Instance table_laws {V} : GormLaws (gmap string (row V)) V := {|
  column t := t / Second * Second;
  rows d k := d !! k
|}.
Proof.
  - intros t. unfold Second. pose proof (Z.div_mod t 1000000000). pose proof (Z.mod_pos_bound t 1000000000). lia.
  - intros k r d d' err [= <- _]. left. apply lookup_insert_eq.
  - intros k r d k' Hne. by apply lookup_insert_ne.
  - done.
  - intros k d r. simpl. by destruct (d !! k); intros [= ->].
  - intros k d. simpl. by destruct (d !! k).
  - intros k d d' err [= <- _]. left. apply lookup_delete_eq.
  - intros k d k' Hne. by apply lookup_delete_ne.
Defined.

(** ** An embedder on both cachers *)

Module Demo.
Definition vector_of (model text : string) : string := "vector of " +:+ text +:+ " by " +:+ model.
(** The wrapped embedder counts its calls. *)
Definition embed (model : string) (texts : list string) (calls : nat) : nat * (list string * option error) :=
  (S calls, (vector_of model <$> texts, None)).
Definition text_codec : Codec string := mkCodec (fun v => inl v) (fun data _ => (data, None)).
Definition cacher : RedisCacher string := NewCacher text_codec [WithPrefix "vectors:"].

(** Redis, where the second request is lost. *)
Definition world : timed (Client MapServer) :=
  mkTimed (mkClient empty_server [once None; once (Some (NoReply (ErrNew "timeout")))]) 0 [5%N; 7%N].
Definition table_world : timed (gmap string (row string)) := mkTimed ∅ 0 [].
Definition in_use (text model : string) : Prop := model = "small".

Definition run_redis (texts : list string) (w : timed (Client MapServer)) :=
  @EmbedStrings _ nat string (redis_cacher "" cacher CallFirst) "" (embed "small") SimpleGenerate Hour (Some "small")
    texts w 0%nat.
Definition run_table (texts : list string) (w : timed (gmap string (row string))) :=
  @EmbedStrings _ nat string (gorm_cacher "") "" (embed "small") SimpleGenerate Hour (Some "small") texts w 0%nat.

Lemma keys_apart t m t' m' : in_use t m -> in_use t' m' ->
  SimpleGenerate t (mkGeneratorOptions m) = SimpleGenerate t' (mkGeneratorOptions m') -> t = t' /\ m = m'.
Proof. intros -> -> Heq. apply simple_keys_apart; auto. Qed.

Lemma embed_vectors model texts e e' embs :
  embed model texts e = (e', (embs, None)) -> embs = vector_of model <$> texts.
Proof. by intros [= _ <-]. Qed.

(** The second call is served from the cache but for the new text. *)
Example table_twice :
  let '(w, e, r) := run_table ["a"; "b"] table_world in
  let '(w', e', r') := run_table ["b"; "c"; "a"] w in
  r = Some (vector_of "small" <$> ["a"; "b"], None) /\
  r' = Some (vector_of "small" <$> ["b"; "c"; "a"], None) /\ e = 1%nat /\ e' = 1%nat.
Proof. vm_compute. done. Qed.

Lemma text_codec_ok v data : Marshal (rcodec cacher) v = inl data -> Unmarshal (rcodec cacher) data "" = (v, None).
Proof. by intros [= <-]. Qed.

Definition redis_instance := redis_cacher (R := MapServer) "" cacher CallFirst.
Definition redis_instance_laws : @CacherLaws _ _ redis_instance := redis_cacher_laws "" cacher text_codec_ok.

End Demo.
