(* ===== verification/Fanout.v ===== *)
(** * Callbacks in an error group

    The loop that starts every listener of an event in an error group without a
    limit and waits for them, which [src/mysql/canal] and
    [src/cloudevents/eventdispatcher] share: [eg.Go] for each, then [eg.Wait]. *)

From S2P Require Import Prelude GoErrors Parallel.
From stdpp Require Import gmap.
From stdpp Require Import options.
Set Default Proof Using "Type*".

(** [returns l] is what the callback of [l] may return.  The loop, the callbacks,
    which run at the same time, and the final wait are the steps.  The group has no
    limit, so that [Go] never waits: its limit is the number of listeners. *)
Section Dispatch.
Context {L G : Type} `{!ErrGroup G} (listeners : list L) (returns : L -> option error -> Prop).

Record dispatching := mkDispatching {
  next : nat;                             (* the loop's index *)
  eg : G;
  running : gset nat;                     (* callbacks that have not returned *)
  returned : list (nat * option error);   (* returns, in order *)
  outcome : option (option error)
}.

Definition dispatch_start : dispatching := mkDispatching 0 (g_new (length listeners)) ∅ [] None.

Inductive dispatch_step : dispatching -> dispatching -> Prop :=
| step_Go n g run rets : n < length listeners -> g_ready g = true ->
    dispatch_step (mkDispatching n g run rets None) (mkDispatching (S n) (g_go g) ({[n]} ∪ run) rets None)
| step_callback n g run rets i l err : i ∈ run -> listeners !! i = Some l -> returns l err ->
    dispatch_step (mkDispatching n g run rets None)
      (mkDispatching n (g_return err g) (run ∖ {[i]}) (rets ++ [(i, err)]) None)
| step_Wait n g run rets : length listeners <= n -> g_active g = 0 ->
    dispatch_step (mkDispatching n g run rets None) (mkDispatching n g run rets (Some (g_err g))).
End Dispatch.
Arguments dispatching G : clear implicits.

(** ** One dispatch *)

Section DispatchProofs.
Context {L G : Type} `{!ErrGroup G, !ErrGroupLaws G} (listeners : list L) (returns : L -> option error -> Prop).

(** The error of the callback that was first to return one. *)
Definition first_error (rets : list (nat * option error)) : option error :=
  foldl (fun err r => first_of err r.2) None rets.

Lemma first_error_snoc rets i err : first_error (rets ++ [(i, err)]) = first_of (first_error rets) err.
Proof using Type. unfold first_error. by rewrite foldl_app. Qed.

Lemma first_error_None rets : first_error rets = None <-> Forall (fun r => r.2 = None) rets.
Proof using Type.
  induction rets as [|[i err] rets IH] using rev_ind; [by split; [constructor|]|].
  rewrite first_error_snoc, Forall_app, <- IH, Forall_singleton. simpl.
  destruct (first_error rets); simpl; split; [done|by intros [? _]|done|by intros [_ ?]].
Qed.

Record dispatch_inv (s : dispatching G) : Prop := {
  inv_next : next s <= length listeners;
  inv_calls : Permutation (elements (running s) ++ (returned s).*1) (seq 0 (next s));
  inv_active : g_active (eg s) = size (running s);
  inv_limit : g_limit (eg s) = length listeners;
  inv_err : g_err (eg s) = first_error (returned s);
  inv_returns : Forall (fun r => exists l, listeners !! r.1 = Some l /\ returns l r.2) (returned s);
  inv_outcome r : outcome s = Some r -> next s = length listeners /\ running s = ∅ /\ r = g_err (eg s)
}.

Lemma dispatch_inv_start : dispatch_inv (dispatch_start listeners).
Proof.
  destruct (new_law (length listeners)) as (Ha & _ & He & Hl).
  split; simpl; [lia|done|by rewrite Ha|done|by rewrite He|constructor|done].
Qed.

Lemma running_lt s i : dispatch_inv s -> i ∈ running s -> i < next s.
Proof using Type.
  intros Hi Hr. assert (i ∈ seq 0 (next s)) as Hin.
  { rewrite <- (inv_calls s Hi). apply elem_of_app. left. by apply elem_of_elements. }
  apply elem_of_seq in Hin. lia.
Qed.

Lemma dispatch_inv_step s s' : dispatch_step listeners returns s s' -> dispatch_inv s -> dispatch_inv s'.
Proof.
  intros Hs Hi. pose proof (running_lt s) as Hlt.
  specialize (fun i => Hlt i Hi). destruct Hi as [Hn Hc Ha Hl He Hr _]. destruct Hs; simpl in *.
  - destruct (go_law g) as (Hga & _ & Hge & Hgl).
    assert (n ∉ run) as Hnotin by (intros Hin%Hlt; lia).
    split; simpl; [lia| | |by rewrite Hgl|by rewrite Hge|done|done].
    + rewrite elements_union_singleton by done. change (0 :: seq 1 n) with (seq 0 (S n)).
      rewrite seq_S, <- Hc. apply Permutation_cons_append.
    + rewrite size_union by (clear -Hnotin; set_solver). by rewrite size_singleton, Hga, Ha.
  - destruct (return_law err g) as (Hga & _ & Hge & Hgl).
    assert (run = {[i]} ∪ run ∖ {[i]}) as Hrun by (apply union_difference_singleton_L; done).
    split; simpl; [lia| | |by rewrite Hgl|by rewrite Hge, He, first_error_snoc| |done].
    + rewrite <- Hc. rewrite Hrun at 2. rewrite elements_union_singleton by (rewrite elem_of_difference, elem_of_singleton; tauto).
      rewrite fmap_app. simpl. rewrite app_assoc. rewrite Permutation_app_comm. done.
    + rewrite Hga, Ha. rewrite size_difference by (by apply singleton_subseteq_l). rewrite size_singleton. lia.
    + apply Forall_app. split; [done|]. constructor; [|done]. eauto.
  - split; simpl; try done. intros r [= <-]. split_and!; [lia| |done].
    apply leibniz_equiv, size_empty_inv. by rewrite <- Ha.
Qed.

Lemma dispatch_inv_steps s : rtc (dispatch_step listeners returns) (dispatch_start listeners) s -> dispatch_inv s.
Proof.
  intros Hs. pattern s. revert s Hs. apply rtc_ind_r.
  - apply dispatch_inv_start.
  - intros y z _ Hyz Hy. by eapply dispatch_inv_step.
Qed.

Lemma dispatch_returns s r :
  rtc (dispatch_step listeners returns) (dispatch_start listeners) s -> outcome s = Some r ->
  Permutation (returned s).*1 (seq 0 (length listeners)) /\
  Forall (fun x => exists l, listeners !! x.1 = Some l /\ returns l x.2) (returned s) /\
  r = first_error (returned s).
Proof.
  intros Hs%dispatch_inv_steps Ho. destruct (inv_outcome s Hs r Ho) as (Hn & Hrun & ->).
  pose proof (inv_calls s Hs) as Hc. rewrite Hrun, Hn, elements_empty in Hc.
  rewrite (inv_err s Hs). split_and!; [done|by apply inv_returns|done].
Qed.

(** When [dispatch] returns, every listener of the event has been called
    once and has returned, and the result is the error of the one that was first
    to return an error: [nil] exactly when none failed. *)
Theorem dispatch_once s r :
  rtc (dispatch_step listeners returns) (dispatch_start listeners) s -> outcome s = Some r ->
  Permutation (returned s).*1 (seq 0 (length listeners)) /\
  Forall (fun x => exists l, listeners !! x.1 = Some l /\ returns l x.2) (returned s) /\
  r = first_error (returned s) /\ (r = None <-> Forall (fun x => x.2 = None) (returned s)).
Proof.
  intros Hs Ho. destruct (dispatch_returns s r Hs Ho) as (Hp & Hr & ->).
  split_and!; [done|done|done|apply first_error_None].
Qed.

(** Every step brings the end nearer. *)
Definition dispatch_measure (s : dispatching G) : nat :=
  2 * (length listeners - next s) + size (running s) + (if decide (outcome s = None) then 1 else 0).

Lemma dispatch_decreases s s' : dispatch_step listeners returns s s' -> dispatch_measure s' < dispatch_measure s.
Proof using Type.
  unfold dispatch_measure. intros []; simpl; [| |lia].
  - assert (size ({[n]} ∪ run) <= S (size run)); [|lia].
    rewrite size_union_alt, size_singleton. pose proof (subseteq_size (run ∖ {[n]}) run ltac:(apply subseteq_difference_l; done)). lia.
  - rewrite size_difference by (by apply singleton_subseteq_l). rewrite size_singleton.
    assert (size run <> 0); [|lia]. intros ?%size_empty_inv. set_solver.
Qed.

(** While it has not returned, some step is possible, if the callbacks return. *)
Theorem dispatch_progress s :
  (forall l, l ∈ listeners -> exists err, returns l err) ->
  rtc (dispatch_step listeners returns) (dispatch_start listeners) s -> outcome s = None ->
  exists s', dispatch_step listeners returns s s' /\ dispatch_measure s' < dispatch_measure s.
Proof.
  intros Hret Hs%dispatch_inv_steps Ho.
  enough (exists s', dispatch_step listeners returns s s') as [s' Hs'] by (exists s'; eauto using dispatch_decreases).
  destruct s as [n g run rets o]. simpl in Ho. subst o.
  destruct (decide (run = ∅)) as [->|Hne].
  - assert (g_active g = 0) as Ha by exact (inv_active _ Hs).
    destruct (decide (n < length listeners)) as [Hlt|Hge].
    + eexists. constructor; [done|]. rewrite ready_law, Ha.
      pose proof (inv_limit _ Hs) as Hl. simpl in Hl. rewrite Hl. apply Nat.ltb_lt. lia.
    + eexists. apply step_Wait; [lia|done].
  - apply set_choose_L in Hne as [i Hi]. pose proof (running_lt _ i Hs Hi) as Hlt.
    pose proof (inv_next _ Hs) as Hn. simpl in Hlt, Hn.
    destruct (lookup_lt_is_Some_2 listeners i) as [l Hl]; [lia|].
    destruct (Hret l) as [err Herr]; [by eapply list_elem_of_lookup_2|].
    eexists. by eapply step_callback.
Qed.
End DispatchProofs.

