(* ===== verification/Canal.v ===== *)
(** * Binlog events and their listeners: [src/mysql/canal]

    The dispatcher keeps the listeners of each kind of event and calls those of an
    event at the same time, in an error group; the canal reads its start position
    from a positioner and registers a listener that saves positions to it.  The
    replication client is the library's: building one and asking the master for
    its position are parameters, and so are the types of its data. *)

From S2P Require Import Prelude GoErrors Parallel Fanout.
From stdpp Require Import gmap strings.
From stdpp Require Import options.
Set Default Proof Using "Type*".
Local Open Scope string_scope.
Local Open Scope list_scope.

(** [mysql.Position]: a binlog file and a [uint32] offset. *)
Record Position := mkPosition { Name : string; Pos : Z }.
#[export] Instance Position_eq_dec : EqDecision Position.
Proof. solve_decision. Defined.

Definition zeroPosition : Position := mkPosition "" 0.

(** ** Events *)

(** The data of the replication library. *)
Class ReplicationTypes := {
  EventHeader : Type; RotateData : Type; QueryData : Type; RowsData : Type;
  GTIDData : Type; GTIDSet : Type; RowsQueryData : Type
}.

Section Canal.
Context `{!ReplicationTypes}.

Inductive event :=
| RotateEvent (Header : EventHeader) (RotateEvent : RotateData)
| TableChangedEvent (Header : EventHeader) (Schema Table : string)
| DDLEvent (Header : EventHeader) (NextPos : Position) (QueryEvent : QueryData)
| RowEvent (RowsEvent : RowsData)
| XIDEvent (Header : EventHeader) (NextPos : Position)
| GTIDEvent (Header : EventHeader) (GTIDEvent : GTIDData)
| PosSyncedEvent (Header : EventHeader) (Pos : Position) (Set_ : GTIDSet) (Force : bool)
| RowsQueryEvent (RowsQueryEvent : RowsQueryData).

(** The listener interfaces, one a kind of event. *)
Inductive kind := Rotate | TableChanged | DDL | Row | XID | GTID | PosSynced | RowsQuery.
#[export] Instance kind_eq_dec : EqDecision kind.
Proof using Type. solve_decision. Defined.

Definition kind_of (e : event) : kind :=
  match e with
  | RotateEvent _ _ => Rotate
  | TableChangedEvent _ _ _ => TableChanged
  | DDLEvent _ _ _ => DDL
  | RowEvent _ => Row
  | XIDEvent _ _ => XID
  | GTIDEvent _ _ => GTID
  | PosSyncedEvent _ _ _ _ => PosSynced
  | RowsQueryEvent _ => RowsQuery
  end.

(** A value passed as a listener: the interfaces its type implements, and what
    its methods may return for an event. *)
Record Listener := mkListener {
  implements : kind -> bool;
  returns : event -> option error -> Prop
}.

(** ** The dispatcher *)

Record Dispatcher := mkDispatcher {
  rotateListeners : list Listener; tableChangedListeners : list Listener; ddlListeners : list Listener;
  rowListeners : list Listener; xidListeners : list Listener; gtidListeners : list Listener;
  posSyncedListeners : list Listener; rowsQueryListeners : list Listener
}.

Definition NewDispatcher : Dispatcher := mkDispatcher [] [] [] [] [] [] [] [].

(** The checks of one turn of the loop of [Registers]. *)
Definition register (d : Dispatcher) (l : Listener) : Dispatcher :=
  let add k ls := if implements l k then ls ++ [l] else ls in
  mkDispatcher (add Rotate (rotateListeners d)) (add TableChanged (tableChangedListeners d))
    (add DDL (ddlListeners d)) (add Row (rowListeners d)) (add XID (xidListeners d)) (add GTID (gtidListeners d))
    (add PosSynced (posSyncedListeners d)) (add RowsQuery (rowsQueryListeners d)).

Definition Registers (listeners : list Listener) (d : Dispatcher) : Dispatcher := foldl register d listeners.

(** The list [Dispatch] and its methods [DispatchRotate], [DispatchDDL], ... pass
    to [dispatch] for an event. *)
Definition listeners_for (e : event) (d : Dispatcher) : list Listener :=
  match e with
  | RotateEvent _ _ => rotateListeners d
  | TableChangedEvent _ _ _ => tableChangedListeners d
  | DDLEvent _ _ _ => ddlListeners d
  | RowEvent _ => rowListeners d
  | XIDEvent _ _ => xidListeners d
  | GTIDEvent _ _ => gtidListeners d
  | PosSyncedEvent _ _ _ _ => posSyncedListeners d
  | RowsQueryEvent _ => rowsQueryListeners d
  end.

(** [DispatchRotate], [DispatchTableChanged], ...: [dispatch] over the listeners of
    the event. *)
Definition Dispatch {G} `{!ErrGroup G} (d : Dispatcher) (ev : event) : dispatching G -> dispatching G -> Prop :=
  dispatch_step (listeners_for ev d) (fun l => returns l ev).

(** The methods of [eventHandler], which the replication client calls. *)
Section Handler.
Context {G : Type} `{!ErrGroup G} (d : Dispatcher).

Definition eh_OnRotate (header : EventHeader) (rotateEvent : RotateData) : dispatching G -> dispatching G -> Prop :=
  Dispatch d (RotateEvent header rotateEvent).
Definition eh_OnTableChanged (header : EventHeader) (schema table : string) : dispatching G -> dispatching G -> Prop :=
  Dispatch d (TableChangedEvent header schema table).
Definition eh_OnDDL (header : EventHeader) (nextPos : Position) (queryEvent : QueryData)
    : dispatching G -> dispatching G -> Prop :=
  Dispatch d (DDLEvent header nextPos queryEvent).
Definition eh_OnRow (rowsEvent : RowsData) : dispatching G -> dispatching G -> Prop := Dispatch d (RowEvent rowsEvent).
Definition eh_OnXID (header : EventHeader) (nextPos : Position) : dispatching G -> dispatching G -> Prop :=
  Dispatch d (XIDEvent header nextPos).
Definition eh_OnGTID (header : EventHeader) (gtidEvent : GTIDData) : dispatching G -> dispatching G -> Prop :=
  Dispatch d (GTIDEvent header gtidEvent).
Definition eh_OnPosSynced (header : EventHeader) (pos : Position) (set : GTIDSet) (force : bool)
    : dispatching G -> dispatching G -> Prop :=
  Dispatch d (PosSyncedEvent header pos set force).
Definition eh_OnRowsQueryEvent (e : RowsQueryData) : dispatching G -> dispatching G -> Prop :=
  Dispatch d (RowsQueryEvent e).
End Handler.

(** ** Listeners in order *)

(** The listeners of an event are those registered that have its method, in the
    order of registration. *)
Theorem registers_filter listeners d ev :
  listeners_for ev (Registers listeners d)
  = listeners_for ev d ++ filter (fun l => implements l (kind_of ev) = true) listeners.
Proof using Type.
  revert d. induction listeners as [|l ls IH]; intros d; simpl; [by rewrite app_nil_r|].
  rewrite IH. rewrite filter_cons. destruct ev; simpl; destruct (implements l _); simpl;
    by rewrite <- ?app_assoc.
Qed.

(** ** The canal *)

(** The methods of a positioner over the state [W] of the world. *)
Record Positioner (W : Type) := mkPositioner {
  pGet : W -> W * (Position * option error);
  pSet : Position -> W -> W * option error
}.
Arguments mkPositioner {W} _ _.
Arguments pGet {W} _ _.
Arguments pSet {W} _ _ _.

Record Config := mkConfig {
  Addr : string; User : string; Password : string; Charset : string; Flavor : string;
  IncludeTablesRegex : list string; ExcludeTablesRegex : list string
}.

(** The library's configuration, as far as it is set. *)
Record OrgConfig := mkOrgConfig {
  cfgAddr : string; cfgUser : string; cfgPassword : string; cfgCharset : string; cfgFlavor : string;
  cfgInclude : list string; cfgExclude : list string; ExecutionPath : string
}.

Section Client.
Context {W C : Type}.

(** [orgcanal.NewDefaultConfig], [NewCanal] and the methods of its result that are
    called; the event handler is given when it is made. *)
Variable NewDefaultConfig : OrgConfig.
Variable NewCanal : OrgConfig -> Dispatcher -> C + error.
Variable GetMasterPos : C -> W -> W * (Position * option error).
Variable RunFrom : C -> Position -> W -> W * option error.

Record Canal := mkCanal {
  config : Config; canal : option C; positioner : option (Positioner W); dispatcher : Dispatcher
}.

(** [positionListener]: it has the method [OnPosSynced] alone, which saves the
    event's position. *)
Definition OnPosSynced (p : Positioner W) (ev : event) (w : W) : W * option error :=
  match ev with
  | PosSyncedEvent _ pos _ _ => pSet p pos w
  | _ => (w, None)
  end.

Definition newPositionListener (p : Positioner W) : Listener :=
  mkListener (fun k => bool_decide (k = PosSynced)) (fun ev err => exists w, (OnPosSynced p ev w).2 = err).

Definition RegisterListeners (listeners : list Listener) (c : Canal) : Canal :=
  mkCanal (config c) (canal c) (positioner c) (Registers listeners (dispatcher c)).

Inductive Option_ := WithPositioner (p : option (Positioner W)) | WithListeners (listeners : list Listener).

Definition apply_option (o : Option_) (c : Canal) : Canal + error :=
  match o with
  | WithPositioner None => inr (ErrMsg "canal: positioner is nil")
  | WithPositioner (Some p) => inl (mkCanal (config c) (canal c) (Some p) (dispatcher c))
  | WithListeners listeners =>
      inl (if (0 <? length listeners)%nat then RegisterListeners listeners c else c)
  end.

Fixpoint apply_all (opts : list Option_) (c : Canal) : Canal + error :=
  match opts with
  | [] => inl c
  | o :: opts => match apply_option o c with inl c => apply_all opts c | inr err => inr err end
  end.

Definition initPositioner (c : Canal) : Canal :=
  match positioner c with
  | None => c
  | Some p => mkCanal (config c) (canal c) (positioner c) (Registers [newPositionListener p] (dispatcher c))
  end.

Definition New (cfg : Config) (opts : list Option_) : Canal + error :=
  match apply_all opts (mkCanal cfg None None NewDispatcher) with
  | inr err => inr err
  | inl c => inl (initPositioner c)
  end.

Definition empty (s : string) : bool := bool_decide (s = "").

(** The configuration [initCanal] builds. *)
Definition org_config (cfg : Config) : OrgConfig :=
  mkOrgConfig (Addr cfg) (User cfg) (Password cfg)
    (if negb (empty (Charset cfg)) then Charset cfg else cfgCharset NewDefaultConfig)
    (if negb (empty (Flavor cfg)) then Flavor cfg else "mysql")
    (if (0 <? length (IncludeTablesRegex cfg))%nat then IncludeTablesRegex cfg else cfgInclude NewDefaultConfig)
    (if (0 <? length (ExcludeTablesRegex cfg))%nat then ExcludeTablesRegex cfg else cfgExclude NewDefaultConfig)
    "".

Definition initCanal (c : Canal) : Canal * option error :=
  if empty (Addr (config c)) then (c, Some (ErrMsg "canal: addr is empty"))
  else if empty (User (config c)) then (c, Some (ErrMsg "canal: username is empty"))
  else if empty (Password (config c)) then (c, Some (ErrMsg "canal: password is empty"))
  else
    match NewCanal (org_config (config c)) (dispatcher c) with
    | inr err => (c, Some (ErrWrapf "canal: new canal error" err))
    | inl cnl => (mkCanal (config c) (Some cnl) (positioner c) (dispatcher c), None)
    end.

Definition isValid (pos : Position) : bool := negb (empty (Name pos)) && negb (Pos pos =? 0)%Z.

(** [getStartPosition], with the client [cnl] of [c.canal]. *)
Definition getStartPosition (c : Canal) (cnl : C) (w : W) : W * (Position * option error) :=
  match positioner c with
  | Some p =>
      match pGet p w with
      | (w, (pos, None)) => if isValid pos then (w, (pos, None)) else GetMasterPos cnl w
      | (w, (_, Some _)) => GetMasterPos cnl w
      end
  | None => GetMasterPos cnl w
  end.

Definition Start (c : Canal) (w : W) : Canal * (W * option error) :=
  match initCanal c with
  | (c, Some err) => (c, (w, Some err))
  | (c, None) =>
      match canal c with
      | Some cnl =>
          match getStartPosition c cnl w with
          | (w, (_, Some err)) => (c, (w, Some err))
          | (w, (position, None)) => (c, RunFrom cnl position w)
          end
      | None => (c, (w, None))
      end
  end.

(** [Stop]: the results its [select] can choose from when the context has ended
    with an error, and when closing the client has ended. *)
Definition Stop (c : Canal) (ctxErr : option error) (closed : bool) : list (option error) :=
  (match ctxErr with Some err => [Some err] | None => [] end) ++
  (if bool_decide (canal c = None) || closed then [None] else []).

(** *** What [New] registers *)

Definition given_listeners (opts : list Option_) : list Listener :=
  opts ≫= fun o => match o with WithListeners ls => ls | _ => [] end.
Definition given_positioner (opts : list Option_) : option (Positioner W) :=
  foldl (fun p o => match o with WithPositioner (Some q) => Some q | _ => p end) None opts.

Lemma apply_all_spec opts : forall c c', apply_all opts c = inl c' ->
  (forall ev, listeners_for ev (dispatcher c')
    = listeners_for ev (dispatcher c) ++ filter (fun l => implements l (kind_of ev) = true) (given_listeners opts)) /\
  positioner c'
  = foldl (fun p o => match o with WithPositioner (Some q) => Some q | _ => p end) (positioner c) opts.
Proof using Type.
  induction opts as [|o opts IH]; intros c c'; simpl.
  { intros [= ->]. split; [|done]. intros ev. by rewrite app_nil_r. }
  destruct o as [[p|]|ls]; simpl; [|done|]; intros Ha; apply IH in Ha as [Hl Hp].
  - split; [done|by rewrite Hp].
  - split; [|by rewrite Hp; destruct ls]. intros ev. rewrite Hl.
    change (given_listeners (WithListeners ls :: opts)) with (ls ++ given_listeners opts).
    rewrite filter_app, app_assoc. f_equal. destruct ls as [|l ls]; simpl; [by rewrite app_nil_r|].
    exact (registers_filter (l :: ls) (dispatcher c) ev).
Qed.

(** The listeners of a new canal are those given, in order, and after them, for
    synced positions, the one that saves to the positioner given last. *)
Theorem new_listeners cfg opts c ev : New cfg opts = inl c ->
  listeners_for ev (dispatcher c)
  = filter (fun l => implements l (kind_of ev) = true) (given_listeners opts) ++
    match given_positioner opts with
    | Some p => if decide (kind_of ev = PosSynced) then [newPositionListener p] else []
    | None => []
    end.
Proof using Type.
  unfold New. destruct (apply_all opts _) as [c1|err] eqn:E; [|done]. intros [= <-].
  apply apply_all_spec in E as [Hl Hp]. unfold initPositioner, given_positioner. simpl in Hp. rewrite Hp.
  assert (listeners_for ev NewDispatcher = []) as Hn by (by destruct ev).
  destruct (foldl _ None opts) as [p|] eqn:Ep; [|by rewrite Hl, app_nil_r; simpl; rewrite Hn].
  cbn [dispatcher]. rewrite registers_filter, Hl. simpl. rewrite Hn, filter_cons, filter_nil. simpl.
  f_equal. by destruct (decide (kind_of ev = PosSynced)) as [->|Hne];
    [rewrite bool_decide_true|rewrite bool_decide_false].
Qed.

(** With a positioner, dispatching a synced position saves it in one call, after
    which the dispatch succeeds only if that call did. *)
Theorem position_saved {G} `{!ErrGroup G, !ErrGroupLaws G} cfg opts c p h pos set force (s : dispatching G) r :
  New cfg opts = inl c -> given_positioner opts = Some p ->
  let ev := PosSyncedEvent h pos set force in
  rtc (eh_OnPosSynced (dispatcher c) h pos set force) (dispatch_start (listeners_for ev (dispatcher c))) s ->
  outcome s = Some r ->
  exists i err, listeners_for ev (dispatcher c) !! i = Some (newPositionListener p) /\
    (i, err) ∈ returned s /\ (exists w, (pSet p pos w).2 = err) /\ (r = None -> err = None).
Proof using Type.
  intros Hnew Hp ev Hs Ho. pose proof (new_listeners cfg opts c ev Hnew) as Hl. rewrite Hp in Hl.
  rewrite decide_True in Hl by done. destruct (dispatch_returns (listeners_for ev (dispatcher c)) (fun l => returns l ev) s r Hs Ho) as (Hperm & Hret & ->).
  set (ls := filter _ (given_listeners opts)) in Hl. exists (length ls).
  assert (length ls ∈ (returned s).*1) as Hin.
  { rewrite Hperm. apply elem_of_seq. rewrite Hl, length_app. simpl. lia. }
  apply list_elem_of_fmap in Hin as ([i err] & Hi & Hin). simpl in Hi. subst i.
  pose proof (proj1 (Forall_forall _ _) Hret _ Hin) as (l & Hll & Hr). cbn [fst snd] in Hll, Hr.
  rewrite Hl, lookup_app_r, Nat.sub_diag in Hll by lia. injection Hll as <-.
  exists err. split_and!; [by rewrite Hl, lookup_app_r, Nat.sub_diag by lia|done|exact Hr|].
  intros Hnone%first_error_None. exact (proj1 (Forall_forall _ _) Hnone _ Hin).
Qed.

(** [Start] runs from the saved position if it is valid, and otherwise from the
    master's. *)
Theorem start_position c w cnl : initCanal c = (mkCanal (config c) (Some cnl) (positioner c) (dispatcher c), None) ->
  (Start c w).2 =
    match positioner c ≫= fun p => match pGet p w with
                                   | (w, (pos, None)) => if isValid pos then Some (w, pos) else None
                                   | _ => None
                                   end with
    | Some (w, pos) => RunFrom cnl pos w
    | None =>
        match GetMasterPos cnl (match positioner c with Some p => (pGet p w).1 | None => w end) with
        | (w, (pos, None)) => RunFrom cnl pos w
        | (w, (_, Some err)) => (w, Some err)
        end
    end.
Proof using Type.
  intros Hi. unfold Start. rewrite Hi. simpl. unfold getStartPosition. simpl.
  destruct (positioner c) as [p|]; simpl.
  - destruct (pGet p w) as [w1 [pos [err|]]]; simpl; [|destruct (isValid pos); [done|]];
      by destruct (GetMasterPos cnl w1) as [w2 [pos' [err'|]]].
  - by destruct (GetMasterPos cnl w) as [w2 [pos' [err'|]]].
Qed.
End Client.
End Canal.
Arguments mkPositioner {W} _ _.
Arguments pGet {W} _ _.
Arguments pSet {W} _ _ _.

(** ** Two listeners of an event *)

Module CanalDemo.
Definition unit_types : ReplicationTypes := Build_ReplicationTypes () () () () () () ().
#[local] Existing Instance unit_types.

Definition ev : event := XIDEvent () (mkPosition "binlog.000001" 4).
Definition fails : Listener := mkListener (fun _ => true) (fun _ err => err = Some (ErrNew "handler")).
Definition works : Listener := mkListener (fun _ => true) (fun _ err => err = None).
Definition both : list Listener := listeners_for ev (Registers [works; fails] NewDispatcher).

Definition g2 : group_state := g_go (g_go (g_new 2)).
Definition g4 : group_state := g_return None (g_return (Some (ErrNew "handler")) g2).
Definition last_state : dispatching group_state :=
  mkDispatching 2 g4 (({[1%nat]} ∪ ({[0%nat]} ∪ ∅)) ∖ {[1%nat]} ∖ {[0%nat]})
    [(1, Some (ErrNew "handler")); (0, None)] (Some (Some (ErrNew "handler"))).

Lemma dispatch_once_witness :
  Permutation (returned last_state).*1 (seq 0 (length both)) /\
  Forall (fun x => exists l, both !! x.1 = Some l /\ returns l ev x.2) (returned last_state) /\
  Some (ErrNew "handler") = first_error (returned last_state) /\
  (Some (ErrNew "handler") = None <-> Forall (fun x => x.2 = None) (returned last_state)).
Proof.
  apply (dispatch_once both (fun l => returns l ev) last_state (Some (ErrNew "handler"))); [|reflexivity].
  unfold last_state. eapply rtc_l; [apply step_Go; [simpl; lia|reflexivity]|].
  eapply rtc_l; [apply step_Go; [simpl; lia|reflexivity]|].
  eapply rtc_l; [apply (step_callback both (fun l => returns l ev) 2 g2 _ [] 1 fails (Some (ErrNew "handler"))); [set_solver|done|done]|].
  eapply rtc_l; [apply (step_callback both (fun l => returns l ev) 2 _ _ _ 0 works None); [set_solver|done|done]|].
  eapply rtc_l; [apply step_Wait; [simpl; lia|reflexivity]|]. apply rtc_refl.
Defined.
End CanalDemo.
