(* ===== verification/CanalRedis.v ===== *)
(** * Binlog positions in Redis: [src/mysql/canal/positioner/redis]

    [Positioner] keeps a position under one key.  [BufferedPositioner] keeps the
    last position in memory and saves it when it has moved far enough, after a
    number of positions, and on a timer; its methods run at the same time, under a
    mutex, as a transition system. *)

From S2P Require Import Prelude GoErrors Redis RedisTimed CacheRedis Canal.
From stdpp Require Import options.
From Stdlib Require Import Ascii.
Set Default Proof Using "Type*".
Local Open Scope string_scope.
Local Open Scope list_scope.
Local Open Scope Z_scope.

(** ** The positioner *)

Definition name : string := "canal:position".

Record RedisPositioner := mkRedisPositioner { pprefix : string; pcodec : Codec Position }.

(** Options of both positioners. *)
Inductive base_option := PrefixOption (prefix : string) | CodecOption (codec : Codec Position).

Definition apply_base (o : base_option) (p : RedisPositioner) : RedisPositioner :=
  match o with
  | PrefixOption prefix =>
      let prefix := TrimSuffix prefix in
      if negb (bool_decide (prefix = "")) then mkRedisPositioner (prefix +:+ ":") (pcodec p) else p
  | CodecOption codec => mkRedisPositioner (pprefix p) codec
  end.

Definition NewPositioner (json : Codec Position) (opts : list base_option) : RedisPositioner :=
  foldl (fun p o => apply_base o p) (mkRedisPositioner "" json) opts.

(** ** The buffered positioner *)

Record BufferedPositioner := mkBuffered {
  base : RedisPositioner; flushInterval : Z; batchSize : Z
}.

Inductive buffered_option :=
| BaseOption (o : base_option)
| FlushIntervalOption (interval : Z)
| BatchSizeOption (size : Z).

Definition apply_buffered (o : buffered_option) (p : BufferedPositioner) : BufferedPositioner :=
  match o with
  | BaseOption o => mkBuffered (apply_base o (base p)) (flushInterval p) (batchSize p)
  | FlushIntervalOption interval => mkBuffered (base p) interval (batchSize p)
  | BatchSizeOption size => mkBuffered (base p) (flushInterval p) size
  end.

Definition NewBufferedPositioner (json : Codec Position) (opts : list buffered_option) : BufferedPositioner :=
  foldl (fun p o => apply_buffered o p) (mkBuffered (NewPositioner json []) (3 * Second) 100) opts.

(** What the mutex guards. *)
Record buffer := mkBuffer { lastPos : Position; lastSaved : Position; counter : Z }.
Definition empty_buffer : buffer := mkBuffer zeroPosition zeroPosition 0.

Definition isValidPosition (pos : Position) : bool :=
  negb (bool_decide (Name pos = "")) && negb (Pos pos =? 0).

Definition hasSignificantChange (pos : Position) (b : buffer) : bool :=
  negb (bool_decide (Name pos = Name (lastSaved b))) ||
  ((Pos (lastSaved b) <? Pos pos) && (10000 <? (Pos pos - Pos (lastSaved b)) mod 2 ^ 32)).

Section Positioner.
Context {R : Type} `{!RedisServer R, !ClientOptions}.
Local Abbreviation world := (timed (Client R)).

Definition position_key (p : RedisPositioner) : string := pprefix p +:+ name.

Definition PositionerGet (p : RedisPositioner) (w : world) : world * (Position * option error) :=
  let '(w, r) := rsend (position_key p) GET w in
  match (match r with inl (RStr v) => inl v | inl _ => inr redis_Nil | inr err => inr err end) with
  | inr err => (w, if errors_Is err "redis: nil" then (zeroPosition, None) else (zeroPosition, Some err))
  | inl data =>
      match Unmarshal (pcodec p) data zeroPosition with
      | (_, Some err) => (w, (zeroPosition, Some err))
      | (pos, None) => (w, (pos, None))
      end
  end.

Definition PositionerSet (p : RedisPositioner) (pos : Position) (w : world) : world * option error :=
  match Marshal (pcodec p) pos with
  | inr err => (w, Some err)
  | inl data =>
      match rsend (position_key p) (SET data (expiration (-1))) w with
      | (w, inr err) => (w, Some err)
      | (w, inl _) => (w, None)
      end
  end.

Variable p : BufferedPositioner.

Definition doFlush (b : buffer) (w : world) : buffer * world * option error :=
  if bool_decide (Name (lastPos b) = Name (lastSaved b)) && (Pos (lastPos b) =? Pos (lastSaved b)) then (b, w, None)
  else
    match PositionerSet (base p) (lastPos b) w with
    | (w, Some err) => (b, w, Some err)
    | (w, None) => (mkBuffer (lastPos b) (lastPos b) 0, w, None)
    end.

Definition BufferedSet (pos : Position) (b : buffer) (w : world) : buffer * world * option error :=
  let b := mkBuffer pos (lastSaved b) (counter b + 1) in
  if hasSignificantChange pos b || (batchSize p <=? counter b) then doFlush b w else (b, w, None).

Definition Flush (b : buffer) (w : world) : buffer * world * option error := doFlush b w.

(** [Get], when nothing else runs between its two sections. *)
Definition BufferedGet (b : buffer) (w : world) : buffer * world * (Position * option error) :=
  if isValidPosition (lastPos b) then (b, w, (lastPos b, None))
  else
    match PositionerGet (base p) w with
    | (w, (_, Some err)) => (b, w, (zeroPosition, Some err))
    | (w, (pos, None)) => (mkBuffer pos pos (counter b), w, (pos, None))
    end.

(** ** Callers at the same time *)

(** A [Get] past its first section: before its request, or with the answer. *)
Inductive getter := Asking | Answered (pos : Position).

(** The timer of [startFlushTimer]: waiting, in its function before and after the
    flush, or stopped. *)
Inductive timer_state := Armed | Fired | Flushed | Stopped.

Record state := mkState {
  buf : buffer; env : world; timer : timer_state; getters : gmap nat getter;
  history : list Position          (* positions read or set, in order *)
}.

Inductive label :=
| LGet (i : nat) (pos : option Position)     (* the first section: what it returns *)
| LAsk (i : nat) (err : option error)
| LStore (i : nat) (pos : Position)
| LSet (pos : Position) (err : option error)
| LFlush (err : option error)                (* [Flush], or that of [Close] *)
| LFire
| LPeriodic                                  (* [periodicFlush] *)
| LReset
| LStop                                      (* [timer.Stop] of [Close] *)
| LIdle (delay : N).                         (* time passes *)

Inductive step : state -> label -> state -> Prop :=
| step_get_hit i b w tm gs h : gs !! i = None -> isValidPosition (lastPos b) = true ->
    step (mkState b w tm gs h) (LGet i (Some (lastPos b))) (mkState b w tm gs h)
| step_get_miss i b w tm gs h : gs !! i = None -> isValidPosition (lastPos b) = false ->
    step (mkState b w tm gs h) (LGet i None) (mkState b w tm (<[i := Asking]> gs) h)
| step_ask i b w w' tm gs h pos err : gs !! i = Some Asking -> PositionerGet (base p) w = (w', (pos, err)) ->
    step (mkState b w tm gs h) (LAsk i err)
      (mkState b w' tm (match err with None => <[i := Answered pos]> gs | Some _ => delete i gs end) h)
| step_store i b w tm gs h pos : gs !! i = Some (Answered pos) ->
    step (mkState b w tm gs h) (LStore i pos)
      (mkState (mkBuffer pos pos (counter b)) w tm (delete i gs) (h ++ [pos]))
| step_set pos b b' w w' tm gs h err : BufferedSet pos b w = (b', w', err) ->
    step (mkState b w tm gs h) (LSet pos err) (mkState b' w' tm gs (h ++ [pos]))
| step_flush b b' w w' tm gs h err : Flush b w = (b', w', err) ->
    step (mkState b w tm gs h) (LFlush err) (mkState b' w' tm gs h)
| step_fire b w gs h : step (mkState b w Armed gs h) LFire (mkState b w Fired gs h)
| step_periodic b b' w w' gs h err : Flush b w = (b', w', err) ->
    step (mkState b w Fired gs h) LPeriodic (mkState b' w' Flushed gs h)
| step_reset b w gs h : step (mkState b w Flushed gs h) LReset (mkState b w Armed gs h)
| step_stop b w tm gs h :
    step (mkState b w tm gs h) LStop
      (mkState b w (match tm with Armed => Stopped | _ => tm end) gs h)
| step_idle d b w tm gs h :
    step (mkState b w tm gs h) (LIdle d) (mkState b (mkTimed (sys w) (clock w + Z.of_N d) (delays w)) tm gs h).

Inductive steps : state -> list label -> state -> Prop :=
| steps_nil s : steps s [] s
| steps_snoc s ls s1 l s2 : steps s ls s1 -> step s1 l s2 -> steps s (ls ++ [l]) s2.

(** ** What Redis holds *)

Context `{!RedisLaws R}.
Hypothesis codec_roundtrip : forall pos data,
  Marshal (pcodec (base p)) pos = inl data -> Unmarshal (pcodec (base p)) data zeroPosition = (pos, None).

Definition holds (w : world) (pos : Position) : Prop := exists data,
  Marshal (pcodec (base p)) pos = inl data /\
  lookup_at (server (sys w)) (clock w) (position_key (base p)) = Some (mkEntry (VStr data) None).

Lemma holds_later (w w' : world) pos :
  holds w pos -> server (sys w') = server (sys w) -> clock w <= clock w' -> holds w' pos.
Proof using Type.
  intros (data & Hm & Hl) Hs Hc. exists data. split; [done|]. rewrite Hs.
  by rewrite (lookup_later _ (clock w)), Hl.
Qed.

Lemma holds_inj (w : world) pos pos' : holds w pos -> holds w pos' -> pos = pos'.
Proof using codec_roundtrip.
  intros (data & Hm & Hl) (data' & Hm' & Hl'). rewrite Hl in Hl'. injection Hl' as <-.
  apply codec_roundtrip in Hm, Hm'. rewrite Hm in Hm'. by injection Hm'.
Qed.

(** A save leaves the old position or the new one, and the new one if it
    succeeds; if it fails and no answer is lost, the old one. *)
Lemma positioner_set (w w' : world) old pos err :
  PositionerSet (base p) pos w = (w', err) -> holds w old ->
  (holds w' old \/ holds w' pos) /\ (err = None -> holds w' pos) /\
  (lossless (sys w) -> lossless (sys w') /\ (err <> None -> holds w' old)).
Proof using Type.
  unfold PositionerSet. destruct (Marshal _ pos) as [data|e] eqn:Em.
  2: { intros [= <- <-] Ho. split_and!; [by left|done|by split]. }
  destruct (rsend _ _ w) as [w1 r] eqn:Es. intros Hr (d0 & Hm0 & Hl0).
  assert (w' = w1) as -> by (by destruct r; injection Hr).
  pose proof (rsend_keep (fun u x => exists d, (d = d0 \/ d = data) /\
    lookup_at x u (position_key (base p)) = Some (mkEntry (VStr d) None)) _ _ _ _ _ Es) as (Hck & Hsrv & Hans).
  { intros u v x Hu (d & Hd & Hx). exists d. split; [done|]. by rewrite (lookup_later _ u), Hx by lia. }
  { intros u x Hu (d & Hd & Hx). exists data. split; [by right|]. by rewrite exec_lookup, Hx. }
  { exists d0. by split; [left|]. }
  split_and!.
  - destruct Hsrv as (d & [->| ->] & Hd); [left; by exists d0|right; by exists data].
  - intros ->. destruct r as [rep|e]; [|done]. destruct (Hans rep eq_refl) as (x & (d & _ & Hx) & Hs & _).
    exists data. split; [done|]. by rewrite Hs, exec_lookup, Hx.
  - intros Hll. destruct (rsend_lossless _ _ _ _ _ Es Hll) as [Hll' Hfail]. split; [done|]. intros Hne.
    destruct r as [rep|e]; [by injection Hr as <-|]. destruct (Hfail e eq_refl) as [Hsame | Href].
    + apply (holds_later w); [by exists d0|done|done].
    + by rewrite exec_reply in Href.
Qed.

(** Asking a server that holds a position. *)
Lemma positioner_get (w : world) pos : holds w pos -> faults (sys w) = [] ->
  (PositionerGet (base p) w).2 = (pos, None).
Proof.
  intros (data & Hm & Hl) Hf. unfold PositionerGet, rsend, command, roundtrip, redis_call.
  cbn [sys clock elapse]. unfold spent. rewrite Hf.
  set (t := clock w + _). assert (clock w <= t) as Ht by (unfold t; lia).
  pose proof (exec_reply (server (sys w)) t (position_key (base p)) GET) as Hr.
  rewrite (lookup_later _ (clock w)), Hl in Hr by done. simpl in Hr.
  destruct (exec t _ GET _) as [r rep]. simpl in Hr. subst rep. simpl. by rewrite (codec_roundtrip _ _ Hm).
Qed.

(** ** Positions in memory and in Redis *)

(** A position of a file, with a [uint32] offset. *)
Definition good (pos : Position) : Prop := isValidPosition pos = true /\ 0 <= Pos pos < 2 ^ 32.

Section Tracking.
(** No answer is lost. *)
Variable quiet : Prop.

(** Redis holds the position that was saved last or one that was set since, and
    the former if no answer is lost. *)
Definition tracked (b : buffer) (w : world) (h : list Position) : Prop :=
  Forall good h /\ (quiet -> lossless (sys w)) /\
  exists pre post stored,
    h = pre ++ lastSaved b :: post /\ last (lastSaved b :: post) = Some (lastPos b) /\
    Z.of_nat (length post) <= counter b /\ holds w stored /\ stored ∈ lastSaved b :: post /\
    (quiet -> stored = lastSaved b).

Lemma last_good b w h : tracked b w h -> good (lastPos b) /\ good (lastSaved b).
Proof using Type.
  intros (Hg & _ & pre & post & stored & -> & Hl & _). apply Forall_app in Hg as [_ Hg].
  split; [|by inversion Hg]. apply last_Some_elem_of in Hl. by eapply (proj1 (Forall_forall _ _)).
Qed.

Lemma tracked_set b w h pos : good pos -> tracked b w h ->
  tracked (mkBuffer pos (lastSaved b) (counter b + 1)) w (h ++ [pos]).
Proof using Type.
  intros Hp (Hg & Hll & pre & post & stored & -> & Hl & Hc & Hh & Hin & Hq).
  split_and!; [apply Forall_app; auto|done|]. exists pre, (post ++ [pos]), stored. simpl.
  split_and!; [by rewrite <- app_assoc| |rewrite length_app; simpl; lia|done| |done].
  - by rewrite app_comm_cons, last_snoc.
  - rewrite app_comm_cons. by apply elem_of_app; left.
Qed.

Lemma tracked_flush b b' w w' h err : doFlush b w = (b', w', err) -> tracked b w h ->
  tracked b' w' h /\ lastPos b' = lastPos b /\ (err = None -> lastSaved b' = lastPos b').
Proof using codec_roundtrip RedisLaws0.
  unfold doFlush. intros Hf Ht.
  destruct (bool_decide _ && (_ =? _)) eqn:Eq.
  - injection Hf as <- <- <-. split_and!; [done|done|]. intros _.
    apply andb_true_iff in Eq as [En Ep]. apply bool_decide_eq_true in En. apply Z.eqb_eq in Ep.
    by destruct (lastSaved b), (lastPos b); simpl in *; subst.
  - destruct (PositionerSet _ _ w) as [w1 e] eqn:Es.
    destruct Ht as (Hg & Hll & pre & post & stored & -> & Hl & Hc & Hh & Hin & Hq).
    destruct (positioner_set w w1 stored _ e Es Hh) as (Heither & Hok & Hquiet).
    pose proof (last_Some_elem_of _ _ Hl) as Hmem.
    destruct e as [e|]; injection Hf as <- <- <-.
    + split_and!; [|done|done]. split_and!; [done|by intros Hqt; apply Hquiet, Hll|].
      destruct Heither as [Hold | Hnew]; [exists pre, post, stored; by split_and!|].
      exists pre, post, (lastPos b). split_and!; try done. intros Hqt. rewrite <- (Hq Hqt).
      apply (holds_inj w1); [done|]. by apply Hquiet; [apply Hll|].
    + split_and!; [|done|done]. split_and!; [done|by intros Hqt; apply Hquiet, Hll|].
      apply last_Some in Hl as [l' Hl']. exists (pre ++ l'), [], (lastPos b). simpl.
      split_and!; [by rewrite Hl', app_assoc|done|lia|by apply Hok|by left|done].
Qed.

(** The positions set by the steps are good. *)
Definition sets_good (l : label) : Prop := match l with LSet pos _ => good pos | _ => True end.

Definition inv (s : state) : Prop :=
  getters s = ∅ /\ tracked (buf s) (env s) (history s).

Lemma step_inv s l s' : step s l s' -> sets_good l -> inv s -> inv s'.
Proof using codec_roundtrip RedisLaws0.
  intros Hs Hl [Hgs Ht]. destruct Hs; simpl in *; subst gs; try done.
  - destruct (last_good _ _ _ Ht) as [[Hv _] _]. congruence.
  - split; [done|]. unfold BufferedSet in *. apply (tracked_set _ _ _ pos Hl) in Ht.
    destruct (_ || _); [|by simplify_eq]. by eapply tracked_flush.
  - split; [done|]. by eapply tracked_flush.
  - split; [done|]. by eapply tracked_flush.
  - split; [done|]. destruct Ht as (Hg & Hll & pre & post & stored & Hh & Hla & Hc & Hho & Hin & Hq).
    split_and!; [done|done|]. exists pre, post, stored. split_and!; try done.
    apply (holds_later w); simpl; [done|done|lia].
Qed.

Lemma steps_inv s ls s' : steps s ls s' -> Forall sets_good ls -> inv s -> inv s'.
Proof using codec_roundtrip RedisLaws0.
  induction 1 as [|s ls s1 l s2 _ IH Hst]; [done|]. intros [Hls Hl]%Forall_app Hi.
  apply (step_inv s1 l); [done|by inversion Hl|by apply IH].
Qed.

(** A positioner that has loaded [pos0] from Redis. *)
Definition loaded (pos0 : Position) (w0 : world) : state :=
  mkState (mkBuffer pos0 pos0 0) w0 Armed ∅ [pos0].

Lemma loaded_inv pos0 w0 : good pos0 -> holds w0 pos0 -> (quiet -> lossless (sys w0)) -> inv (loaded pos0 w0).
Proof using Type.
  intros Hg Hh Hq. split; [done|]. split_and!; [by constructor|done|].
  exists [], [], pos0. split_and!; try done. by left.
Qed.

End Tracking.

Lemma not_significant pos b : good pos -> good (lastSaved b) -> hasSignificantChange pos b = false ->
  Name pos = Name (lastSaved b) /\ Pos pos <= Pos (lastSaved b) + 10000.
Proof using Type.
  intros [_ Hp] [_ Hs] Hc. unfold hasSignificantChange in Hc. apply orb_false_iff in Hc as [Hn Hd].
  apply negb_false_iff, bool_decide_eq_true in Hn. split; [done|].
  destruct (Z.ltb_spec (Pos (lastSaved b)) (Pos pos)); [|lia]. simpl in Hd.
  rewrite Z.mod_small in Hd by lia. apply Z.ltb_ge in Hd. lia.
Qed.

(** C26: when [Set] of a position returns [nil] after any steps of a positioner
    that had loaded its position, with failing requests among them, then either
    the position is the one saved last, or that one is of the same file, at most
    10000 bytes behind, and fewer than a batch of positions have been set since.
    Redis holds the position saved last, if no answer was lost, and otherwise it or
    one of those set since. *)
Theorem saved_lag pos0 w0 ls s pos s' :
  good pos0 -> holds w0 pos0 -> steps (loaded pos0 w0) ls s -> Forall sets_good ls -> good pos ->
  step s (LSet pos None) s' ->
  let saved := lastSaved (buf s') in
  exists stored pre post,
    holds (env s') stored /\ stored ∈ saved :: post /\ (lossless (sys w0) -> stored = saved) /\
    history s' = pre ++ saved :: post /\ last (saved :: post) = Some pos /\
    (saved = pos \/
     (Name pos = Name saved /\ Pos pos <= Pos saved + 10000 /\ Z.of_nat (length post) < batchSize p)).
Proof.
  intros Hg0 Hh0 Hs Hls Hg Hst saved.
  assert (inv (lossless (sys w0)) s) as Hi by (eapply steps_inv; [done|done|by apply loaded_inv]).
  pose proof (step_inv _ _ _ _ Hst Hg Hi) as [_ Ht'].
  pose proof (last_good _ _ _ _ Ht') as [_ Hgs]. fold saved in Hgs.
  destruct Ht' as (_ & _ & pre & post & stored & Hh & Hl & Hc & Hho & Hin & Hq).
  assert (lastPos (buf s') = pos /\ (saved = pos \/ (hasSignificantChange pos (buf s') = false /\
    counter (buf s') < batchSize p))) as [Hpos Hcase].
  { destruct Hi as [_ Ht]. subst saved. inversion Hst as [| | | |? ? b' ? w' ? ? ? ? Hset| | | | | |]; subst. simpl in *.
    unfold BufferedSet in Hset. apply (tracked_set _ _ _ _ pos Hg) in Ht.
    set (b1 := mkBuffer pos _ _) in *. destruct (_ || _) eqn:Ec.
    - destruct (tracked_flush _ _ _ _ _ _ _ Hset Ht) as (_ & Hp & Hsv). rewrite (Hsv eq_refl), Hp. auto.
    - injection Hset as <- _. apply orb_false_iff in Ec as [Ec1 Ec2]. apply Z.leb_gt in Ec2. auto. }
  exists stored, pre, post. rewrite Hpos in Hl. split_and!; try done.
  destruct Hcase as [|[Hsig Hcnt]]; [by left|right].
  destruct (not_significant pos (buf s') Hg Hgs Hsig). split_and!; [done|done|lia].
Qed.

(** A flush that returns [nil] leaves the last position in Redis, if no answer was
    lost; a positioner made later starts from it. *)
Theorem flush_resumes pos0 w0 ls s s' (w2 : world) :
  good pos0 -> holds w0 pos0 -> lossless (sys w0) -> steps (loaded pos0 w0) ls s -> Forall sets_good ls ->
  step s (LFlush None) s' ->
  server (sys w2) = server (sys (env s')) -> clock (env s') <= clock w2 -> faults (sys w2) = [] ->
  (BufferedGet empty_buffer w2).2 = (lastPos (buf s'), None).
Proof.
  intros Hg0 Hh0 Hll Hs Hls Hst Hsrv Hck Hf.
  assert (inv True s) as Hi by (eapply steps_inv; [done|done|by apply loaded_inv]).
  pose proof (step_inv _ _ _ _ Hst I Hi) as [_ Ht'].
  destruct Hi as [_ Ht]. inversion Hst as [| | | | |b b' ? w' ? ? ? ? Hfl| | | | |]; subst. simpl in *.
  destruct (tracked_flush _ _ _ _ _ _ _ Hfl Ht) as (_ & _ & Hsv). specialize (Hsv eq_refl).
  destruct Ht' as (_ & _ & pre & post & stored & _ & _ & _ & Hho & _ & Hq). rewrite (Hq I), Hsv in Hho.
  unfold BufferedGet. simpl.
  pose proof (positioner_get w2 (lastPos b') (holds_later _ _ _ Hho Hsrv Hck) Hf) as Hget.
  destruct (PositionerGet (base p) w2) as [w3 [pos [err|]]]; simpl in Hget; by injection Hget as ->.
Qed.

(** The positioners as the canal uses them. *)
Definition positioner_of (q : RedisPositioner) : Positioner world := mkPositioner (PositionerGet q) (PositionerSet q).
Definition buffered_of : Positioner (buffer * world) :=
  mkPositioner (fun s => BufferedGet s.1 s.2) (fun pos s => BufferedSet pos s.1 s.2).

(** A canal that is started over the positions another left behind continues at
    the last position of the other, if its last flush returned [nil]. *)
Theorem restart_position `{!ReplicationTypes} {C} defaults (NewCanal : OrgConfig -> Dispatcher -> C + error)
    GetMasterPos RunFrom (c : @Canal _ (buffer * world) C) cnl pos0 w0 ls s s' (w2 : world) :
  positioner c = Some buffered_of ->
  initCanal defaults NewCanal c = (mkCanal (config c) (Some cnl) (positioner c) (dispatcher c), None) ->
  good pos0 -> holds w0 pos0 -> lossless (sys w0) -> steps (loaded pos0 w0) ls s -> Forall sets_good ls ->
  step s (LFlush None) s' ->
  server (sys w2) = server (sys (env s')) -> clock (env s') <= clock w2 -> faults (sys w2) = [] ->
  exists bw, (Start defaults NewCanal GetMasterPos RunFrom c (empty_buffer, w2)).2
             = RunFrom cnl (lastPos (buf s')) bw.
Proof.
  intros Hp Hi Hg0 Hh0 Hll Hs Hls Hst Hsrv Hck Hf.
  pose proof (flush_resumes pos0 w0 ls s s' w2 Hg0 Hh0 Hll Hs Hls Hst Hsrv Hck Hf) as Hget.
  assert (inv True s') as [_ Ht].
  { apply (step_inv _ s (LFlush None)); [done|done|]. eapply steps_inv; [done|done|by apply loaded_inv]. }
  apply last_good in Ht as [[Hv _] _].
  rewrite (start_position defaults NewCanal GetMasterPos RunFrom c (empty_buffer, w2) cnl Hi), Hp.
  cbn [mbind option_bind pGet buffered_of fst snd].
  destruct (BufferedGet empty_buffer w2) as [bw [pos err]]. simpl in Hget. injection Hget as -> ->.
  exists bw. change (isValid (lastPos (buf s')) = true) in Hv. by rewrite Hv.
Qed.

(** [Close], when nothing else runs between stopping the timer and the flush. *)
Definition Close (s : state) : state :=
  let '(b, w, _) := Flush (buf s) (env s) in
  mkState b w (match timer s with Armed => Stopped | _ => timer s end) (getters s) (history s).

Lemma close_steps s : exists err, steps s [LStop; LFlush err] (Close s).
Proof using Type.
  destruct s as [b w tm gs h]. unfold Close. simpl. destruct (Flush b w) as [[b' w'] err] eqn:E. exists err.
  apply (steps_snoc _ [LStop] (mkState b w (match tm with Armed => Stopped | _ => tm end) gs h)).
  - apply (steps_snoc _ [] (mkState b w tm gs h)); constructor.
  - by apply step_flush.
Qed.

(** A timer that [Close] stops while it waits never fires again. *)
Theorem stopped_stays s ls s' : steps s ls s' -> timer s = Stopped -> timer s' = Stopped.
Proof using Type.
  induction 1 as [|s ls s1 l s2 _ IH Hst]; [done|]. intros Ht. specialize (IH Ht).
  by destruct Hst; simpl in *; subst.
Qed.
End Positioner.

(** ** Two limits, on a concrete server *)

Module PositionDemo.

(** A codec: the offset in binary, a mark, and the file. *)
Fixpoint bits (n : positive) (rest : string) : string :=
  match n with
  | xH => "." +:+ rest
  | xO n => "0" +:+ bits n rest
  | xI n => "1" +:+ bits n rest
  end.

Fixpoint unbits (s : string) : option (positive * string) :=
  match s with
  | String "."%char rest => Some (xH, rest)
  | String "0"%char s => prod_map xO id <$> unbits s
  | String "1"%char s => prod_map xI id <$> unbits s
  | _ => None
  end.

Lemma position_unbits n rest : unbits (bits n rest) = Some (n, rest).
Proof.
  induction n as [n IH|n IH|]; [change (prod_map xI id <$> unbits (bits n rest) = Some (xI n, rest)) |
    change (prod_map xO id <$> unbits (bits n rest) = Some (xO n, rest)) | done]; by rewrite IH.
Qed.

Definition encode (pos : Position) : string :=
  match Pos pos with
  | Z0 => "z" +:+ Name pos
  | Zpos n => "p" +:+ bits n (Name pos)
  | Zneg n => "n" +:+ bits n (Name pos)
  end.

Definition decode (s : string) (dest : Position) : Position * option error :=
  match s with
  | String "z"%char file => (mkPosition file 0, None)
  | String "p"%char s =>
      match unbits s with
      | Some (n, file) => (mkPosition file (Zpos n), None)
      | None => (dest, Some (ErrNew "decode"))
      end
  | String "n"%char s =>
      match unbits s with
      | Some (n, file) => (mkPosition file (Zneg n), None)
      | None => (dest, Some (ErrNew "decode"))
      end
  | _ => (dest, Some (ErrNew "decode"))
  end.

Definition codec : Codec Position := mkCodec (fun pos => inl (encode pos)) decode.

Definition buffered : BufferedPositioner :=
  NewBufferedPositioner codec [BaseOption (PrefixOption "app:"); BatchSizeOption 3].

Lemma position_codec_ok pos data :
  Marshal (pcodec (base buffered)) pos = inl data ->
  Unmarshal (pcodec (base buffered)) data zeroPosition = (pos, None).
Proof.
  intros [= <-]. change (decode (encode pos) zeroPosition = (pos, None)).
  destruct pos as [f [|n|n]]; [done| |].
  - change (match unbits (bits n f) with
            | Some (n, file) => (mkPosition file (Zpos n), None)
            | None => (zeroPosition, Some (ErrNew "decode"))
            end = (mkPosition f (Zpos n), None)). by rewrite position_unbits.
  - change (match unbits (bits n f) with
            | Some (n, file) => (mkPosition file (Zneg n), None)
            | None => (zeroPosition, Some (ErrNew "decode"))
            end = (mkPosition f (Zneg n), None)). by rewrite position_unbits.
Qed.

Definition at_ (n : Z) : Position := mkPosition "binlog.000001" n.
Local Abbreviation world := (timed (Client MapServer)).

(** The server holds a position; the second request's answer is lost. *)
Definition start_server : MapServer :=
  mkMapServer {[ "app:canal:position" := mkEntry (VStr (encode (at_ 100))) None ]}.
Definition start : world := mkTimed (mkClient start_server []) 0 [].
Definition faulty : world := mkTimed (mkClient start_server [once (Some (NoReply (ErrNew "timeout")))]) 0 [5%N].

(** One step of a list, computed. *)
Definition set_ (pos : Position) (s : state) : state :=
  let '(b, w, _) := BufferedSet buffered pos (buf s) (env s) in
  mkState b w (timer s) (getters s) (history s ++ [pos]).
Definition set_err (pos : Position) (s : state) : option error := (BufferedSet buffered pos (buf s) (env s)).2.

Lemma set_step pos s : step buffered s (LSet pos (set_err pos s)) (set_ pos s).
Proof.
  destruct s as [b w tm gs h]. unfold set_, set_err. simpl.
  destruct (BufferedSet buffered pos b w) as [[b' w'] err] eqn:E. simpl. by constructor.
Qed.

(** Sets after a lost answer: of the last three positions, one is in Redis. *)
Definition s1 : state := set_ (at_ 20000) (loaded (at_ 100) faulty).
Definition s2 : state := set_ (at_ 20010) s1.

Lemma saved_lag_witness :
  set_err (at_ 20000) (loaded (at_ 100) faulty) = Some (ErrNew "timeout") /\ set_err (at_ 20010) s1 = None /\
  (let saved := lastSaved (buf s2) in
   exists stored pre post,
     holds buffered (env s2) stored /\ stored ∈ saved :: post /\ (lossless (sys faulty) -> stored = saved) /\
     history s2 = pre ++ saved :: post /\ last (saved :: post) = Some (at_ 20010) /\
     (saved = at_ 20010 \/
      (Name (at_ 20010) = Name saved /\ Pos (at_ 20010) <= Pos saved + 10000 /\
       Z.of_nat (length post) < batchSize buffered))).
Proof.
  split; [vm_compute; reflexivity|]. assert (set_err (at_ 20010) s1 = None) as He by (vm_compute; reflexivity).
  split; [exact He|].
  apply (saved_lag buffered position_codec_ok (at_ 100) faulty [LSet (at_ 20000) (set_err (at_ 20000) (loaded (at_ 100) faulty))]
    s1 (at_ 20010) s2).
  - split; [vm_compute; reflexivity|vm_compute; split; [discriminate|reflexivity]].
  - exists (encode (at_ 100)). split; vm_compute; reflexivity.
  - exact (steps_snoc _ _ [] _ _ _ (steps_nil _ _) (set_step _ _)).
  - constructor; [|constructor]. split; [vm_compute; reflexivity|vm_compute; split; [discriminate|reflexivity]].
  - split; [vm_compute; reflexivity|vm_compute; split; [discriminate|reflexivity]].
  - rewrite <- He. apply set_step.
Defined.

(** A [Get] that has read an old position stores it after a [Set] has returned:
    the next [Get] returns the old position, not the one that was set and saved. *)
Theorem get_overwrites :
  exists ls s, steps buffered (mkState empty_buffer start Armed ∅ []) ls s /\
    ls = [LGet 0 None; LAsk 0 None; LSet (at_ 500) None; LStore 0 (at_ 100)] /\
    holds buffered (env s) (at_ 500) /\ (BufferedGet buffered (buf s) (env s)).2 = (at_ 100, None).
Proof.
  set (w1 := (PositionerGet (base buffered) start).1).
  set (r := BufferedSet buffered (at_ 500) empty_buffer w1).
  set (gs1 := <[0%nat := Asking]> (∅ : gmap nat getter)). set (gs2 := <[0%nat := Answered (at_ 100)]> gs1).
  exists ([] ++ [LGet 0 None] ++ [LAsk 0 None] ++ [LSet (at_ 500) None] ++ [LStore 0 (at_ 100)]).
  exists (mkState (mkBuffer (at_ 100) (at_ 100) (counter r.1.1)) r.1.2 Armed (delete 0%nat gs2)
    ([at_ 500] ++ [at_ 100])).
  split_and!; [|done|exists (encode (at_ 500)); split; vm_compute; reflexivity|vm_compute; reflexivity].
  rewrite !app_assoc. apply steps_snoc with (s1 := mkState r.1.1 r.1.2 Armed gs2 [at_ 500]).
  2: { constructor. done. }
  apply steps_snoc with (s1 := mkState empty_buffer w1 Armed gs2 []).
  2: { apply (step_set buffered (at_ 500)). vm_compute. reflexivity. }
  apply steps_snoc with (s1 := mkState empty_buffer start Armed gs1 []).
  2: { apply (step_ask buffered 0 empty_buffer start w1 Armed gs1 [] (at_ 100) None); [done|].
       vm_compute. reflexivity. }
  apply steps_snoc with (s1 := mkState empty_buffer start Armed ∅ []); [constructor|].
  apply (step_get_miss buffered 0); [done|vm_compute; reflexivity].
Qed.

(** A timer that is in its function while [Close] stops it is set again after
    [Close] has returned. *)
Theorem close_timer_again :
  exists ls s, steps buffered (loaded (at_ 100) start) ls s /\
    ls = [LFire; LStop; LFlush None; LPeriodic; LReset] /\ timer s = Armed.
Proof.
  exists ([] ++ [LFire] ++ [LStop] ++ [LFlush None] ++ [LPeriodic] ++ [LReset]), (loaded (at_ 100) start).
  split_and!; [|done|done]. rewrite !app_assoc.
  set (b := mkBuffer (at_ 100) (at_ 100) 0).
  apply steps_snoc with (s1 := mkState b start Flushed ∅ [at_ 100]); [|constructor].
  apply steps_snoc with (s1 := mkState b start Fired ∅ [at_ 100]);
    [|apply (step_periodic buffered b b start start _ _ None); vm_compute; reflexivity].
  apply steps_snoc with (s1 := mkState b start Fired ∅ [at_ 100]); [|constructor; vm_compute; reflexivity].
  apply steps_snoc with (s1 := mkState b start Fired ∅ [at_ 100]);
    [|exact (step_stop buffered b start Fired ∅ [at_ 100])].
  apply steps_snoc with (s1 := loaded (at_ 100) start); constructor.
Qed.
End PositionDemo.
