(* ===== verification/QueueRabbit.v ===== *)
(** * The queue on RabbitMQ: [src/queue/adapter/rabbitmq]

    Tasks are persistent messages of a ready queue; delayed ones wait in a queue
    of their delay, whose messages expire into the ready queue.  An operation is a
    program ([Programs]) of the calls it makes on channels and on its context; the
    broker's answers are not restricted, so that what is shown of a program holds
    for every broker and every failure.  The JSON encoding of tasks is a parameter. *)

From S2P Require Import Prelude GoErrors GoStrconv Programs Queue.
From stdpp Require Import gmap strings.
From stdpp Require Import options.
From Stdlib Require Import Ascii.
Set Default Proof Using "Type*".
Local Open Scope string_scope.
Local Open Scope list_scope.
Local Open Scope Z_scope.

(** ** [config.go] *)

Record config := mkConfig {
  cPrefix : string; cDurable : bool; cDelayQueueTTL : Z; cPrefetch : Z; cPublisherConfirm : bool
}.

Inductive Option_ :=
| WithPrefix (prefix : string) | WithDurable (durable : bool) | WithDelayQueueTTL (ttl : Z)
| WithPrefetch (prefetch : Z) | WithPublisherConfirm (confirm : bool).

(** [strings.TrimSuffix(s, ".")] and [strings.TrimPrefix(s, ".")]. *)
Fixpoint TrimDot (s : string) : string :=
  match s with
  | String "."%char EmptyString => ""
  | String a s => String a (TrimDot s)
  | EmptyString => ""
  end.
Definition TrimPrefixDot (s : string) : string :=
  match s with String "."%char s => s | _ => s end.

Definition apply (o : Option_) (c : config) : config :=
  let 'mkConfig p d ttl pf pc := c in
  match o with
  | WithPrefix prefix => if negb (String.eqb prefix "") then mkConfig (TrimDot prefix) d ttl pf pc else c
  | WithDurable durable => mkConfig p durable ttl pf pc
  | WithDelayQueueTTL t => if t >? 0 then mkConfig p d t pf pc else c
  | WithPrefetch prefetch => if prefetch >=? 0 then mkConfig p d ttl prefetch pc else c
  | WithPublisherConfirm confirm => mkConfig p d ttl pf confirm
  end.

Definition newConfig (opts : list Option_) : config :=
  foldl (fun c o => apply o c) (mkConfig "" true Hour 1 true) opts.

(** ** Requests *)

(** The arguments of a delay queue. *)
Record delay_args := mkArgs {
  x_message_ttl : Z; x_expires : Z; x_dead_letter_exchange : string; x_dead_letter_routing_key : string
}.

(** [amqp.Publishing], as far as it is set; [amqp.Persistent]. *)
Definition Persistent : Z := 2.
Record Publishing := mkPublishing {
  ContentType : string; DeliveryMode : Z; MessageId : string; Timestamp : Z; Headers : option (gmap string string); Body : string
}.

Inductive request :=
| CtxErr                                             (* [ctx.Err()] *)
| OpenChannel                                        (* [connection.Channel()] *)
| QueueDeclare (name : string) (durable : bool) (args : option delay_args)
| Confirm
| PublishMsg (exchange key : string) (msg : Publishing)
| AwaitConfirm                                       (* the [select] of [publish] *)
| Qos (prefetch : Z)
| Consume (queue consumer : string)
| Next                                               (* the [select] of [Receive] *)
| AckTag (tag : Z)
| RejectTag (tag : Z)
| CloseChannel.

(** Answers; the context may end while a [select] waits, and a channel may be
    closed. *)
Inductive answer :=
| AOk | ANil | AErr (err : error) | AClosed | AConfirmation (ack : bool) | ADelivery (tag : Z) (body : string).

Local Abbreviation prog := (Programs.prog request answer).
Local Open Scope prog_scope.

Definition call (rq : request) : prog answer := Call rq (fun a => Ret a).

(** Calls that return an error or [nil]; the other answers do not occur. *)
Definition err_of (a : answer) : option error :=
  match a with AErr err => Some err | _ => None end.
Definition try (rq : request) : prog (option error) := Call rq (fun a => Ret (err_of a)).

Definition errNilConnection : error := ErrNew "queue/adapter/rabbitmq: connection is nil".
Definition errNilChannelOpener : error := ErrNew "queue/adapter/rabbitmq: channel opener is nil".
Definition errNilChannel : error := ErrNew "queue/adapter/rabbitmq: channel is nil".
Definition errPublishNacked : error := ErrNew "queue/adapter/rabbitmq: publish not acknowledged".
Definition errPublishConfirmClosed : error :=
  ErrNew "queue/adapter/rabbitmq: publish confirmation channel closed".

(** ** [queue.go] *)

(** The opener of a queue: none, or that of [NewQueue] with its connection, which
    may be nil. *)
Inductive channelOpener := NilOpener | OfConnection (connection : bool).

Record Queue := mkQueue {
  opener : channelOpener; prefix : string; durable : bool; delayQueueTTL : Z; prefetch : Z; publisherConfirm : bool
}.

Definition newQueue (o : channelOpener) (opts : list Option_) : Queue :=
  let c := newConfig opts in
  mkQueue o (cPrefix c) (cDurable c) (cDelayQueueTTL c) (cPrefetch c) (cPublisherConfirm c).
Definition NewQueue (connection : bool) (opts : list Option_) : Queue := newQueue (OfConnection connection) opts.

Definition queueName (q : Queue) (name : string) : string :=
  let name := if String.eqb name "" then DefaultQueue else name in
  let name := TrimPrefixDot name in
  if String.eqb (prefix q) "" then name else prefix q +:+ "." +:+ name.

(** [durationMillis]: whole milliseconds, rounded down but not to zero. *)
Definition durationMillis (d : Z) : Z :=
  if d <=? 0 then 0 else if d <? Millisecond then 1 else Z.quot d Millisecond.

Definition readyQueueName (q : Queue) (name : string) : string := queueName q name.
Definition delayQueueName (q : Queue) (name : string) (delay : Z) : string :=
  queueName q name +:+ ".delay." +:+ FormatInt (durationMillis delay).
Definition deadLetterQueueName (q : Queue) (name : string) : string := queueName q name +:+ ".dead".

Definition queueDeclareError (name : string) (err : option error) : option error :=
  match err with None => None | Some err => Some (ErrWrapf ("queue/adapter/rabbitmq: declare queue " +:+ name) err) end.

Definition ensureReadyQueue (q : Queue) (name : string) : prog (option error) :=
  do err <- try (QueueDeclare (readyQueueName q name) (durable q) None);
  Ret (queueDeclareError (readyQueueName q name) err).

Definition ensureDeadLetterQueue (q : Queue) (name : string) : prog (option error) :=
  do err <- try (QueueDeclare (deadLetterQueueName q name) (durable q) None);
  Ret (queueDeclareError (deadLetterQueueName q name) err).

(** The arguments of the delay queue; the sum of the two durations wraps. *)
Definition delayArgs (q : Queue) (name : string) (delay : Z) : delay_args :=
  mkArgs (durationMillis delay) (durationMillis (wrap64 (delay + delayQueueTTL q))) "" (readyQueueName q name).

Definition ensureDelayQueue (q : Queue) (name delayName : string) (delay : Z) : prog (option error) :=
  do err <- try (QueueDeclare delayName (durable q) (Some (delayArgs q name delay)));
  Ret (queueDeclareError delayName err).

Definition openChannel (q : Queue) : prog (option error) :=
  do err <- try CtxErr;
  match err with
  | Some err => Ret (Some err)
  | None =>
      match opener q with
      | NilOpener => Ret (Some errNilChannelOpener)
      | OfConnection connection =>
          do err <- try CtxErr;
          match err with
          | Some err => Ret (Some err)
          | None =>
              if negb connection then Ret (Some errNilConnection)
              else
                do a <- call OpenChannel;
                Ret (match a with AErr err => Some err | ANil => Some errNilChannel | _ => None end)
          end
      end
  end.

Definition withChannel (q : Queue) (fn : prog (option error)) : prog (option error) :=
  do err <- openChannel q;
  match err with
  | Some err => Ret (Some err)
  | None =>
      do err <- fn;
      do closeErr <- try CloseChannel;
      Ret (match err with Some err => Some err | None => closeErr end)
  end.

Definition publish (q : Queue) (exchange key : string) (msg : Publishing) : prog (option error) :=
  if negb (publisherConfirm q) then try (PublishMsg exchange key msg)
  else
    do err <- try Confirm;
    match err with
    | Some err => Ret (Some err)
    | None =>
        do err <- try (PublishMsg exchange key msg);
        match err with
        | Some err => Ret (Some err)
        | None =>
            do a <- call AwaitConfirm;
            Ret (match a with
                 | AErr err => Some err
                 | AConfirmation true => None
                 | AConfirmation false => Some errPublishNacked
                 | _ => Some errPublishConfirmClosed
                 end)
        end
    end.

(** ** [message.go] *)

Definition contentTypeJSON : string := "application/json".
Definition deadReasonKey : string := "queue.dead_letter.reason".

Definition nextAttempt (attempt : Z) : Z :=
  if attempt <? 0 then 1 else if attempt =? maxInt64 then maxInt64 else wrap64 (attempt + 1).

Definition delayFromAvailableAt (now availableAt : Z) : Z :=
  if (availableAt =? zeroTime) || negb (availableAt >? now) then 0 else time_sub availableAt now.

Section Adapter.
Variables (Marshal : Task -> string + error) (Unmarshal : string -> Task + error).

Definition publishingFromTask (task : Task) : Publishing + error :=
  match Marshal task with
  | inr err => inr err
  | inl data => inl (mkPublishing contentTypeJSON Persistent (ID task) (CreatedAt task) None data)
  end.

(** A task with the tag of its delivery. *)
Record rabbitDelivery := mkDelivery { dTask : Task; dTag : Z }.

Definition deliveryFromAMQP (tag : Z) (body : string) : rabbitDelivery + error :=
  match Unmarshal body with
  | inr err => inr err
  | inl task =>
      let task := if String.eqb (QueueName task) "" then with_queue DefaultQueue task else task in
      inl (mkDelivery (with_attempt (nextAttempt (Attempt_ task)) task) tag)
  end.

(** Where a task goes, and the queues declared for it. *)
Definition publishTask (q : Queue) (task : Task) (delay : Z) : prog (option error) :=
  match publishingFromTask task with
  | inr err => Ret (Some err)
  | inl msg =>
      withChannel q (
        do err <- ensureReadyQueue q (QueueName task);
        match err with
        | Some err => Ret (Some err)
        | None =>
            if delay >? 0 then
              let target := delayQueueName q (QueueName task) delay in
              do err <- ensureDelayQueue q (QueueName task) target delay;
              match err with
              | Some err => Ret (Some err)
              | None => publish q "" target msg
              end
            else publish q "" (readyQueueName q (QueueName task)) msg
        end)
  end.

Definition Enqueue (q : Queue) (now : Z) (task : option Task) : prog (option error) :=
  do err <- try CtxErr;
  match err with
  | Some err => Ret (Some err)
  | None =>
      match Clone task with
      | None => Ret None
      | Some task =>
          let task := if String.eqb (QueueName task) "" then with_queue DefaultQueue task else task in
          publishTask q task (delayFromAvailableAt now (AvailableAt task))
      end
  end.

Definition NewConsumer (q : Queue) (cfg : ConsumerConfig) : prog (option error) :=
  do err <- try CtxErr;
  match err with
  | Some err => Ret (Some err)
  | None =>
      let cfg := Normalize cfg in
      do err <- openChannel q;
      match err with
      | Some err => Ret (Some err)
      | None =>
          let fail err := do _ <- try CloseChannel; Ret (Some err) in
          do err <- ensureReadyQueue q (ccQueue cfg);
          match err with
          | Some err => fail err
          | None =>
              do err <- try (Qos (prefetch q));
              match err with
              | Some err => fail err
              | None =>
                  do err <- try (Consume (readyQueueName q (ccQueue cfg)) (ccName cfg));
                  match err with
                  | Some err => fail err
                  | None => Ret None
                  end
              end
          end
      end
  end.

(** ** [lease.go] *)

Definition Receive : prog (rabbitDelivery + error) :=
  do a <- call Next;
  match a with
  | AErr err => Ret (inr err)
  | ADelivery tag body =>
      match deliveryFromAMQP tag body with
      | inr err => do _ <- try (RejectTag tag); Ret (inr err)
      | inl leased => Ret (inl leased)
      end
  | _ => Ret (inr ErrConsumerClosed)
  end.

(** [Close] runs once; the error of that run is kept. *)
Definition consumer_Close (closed : option (option error)) : prog (option (option error) * option error) :=
  match closed with
  | Some err => Ret (closed, err)
  | None => do err <- try CloseChannel; Ret (Some err, err)
  end.

Definition Lease_Ack (d : rabbitDelivery) : prog (option error) :=
  do err <- try CtxErr;
  match err with
  | Some err => Ret (Some err)
  | None => try (AckTag (dTag d))
  end.

Definition Lease_Retry (q : Queue) (now delay : Z) (d : rabbitDelivery) : prog (option error) :=
  do err <- try CtxErr;
  match err with
  | Some err => Ret (Some err)
  | None =>
      let task := with_available (now + delay) (dTask d) in
      do err <- publishTask q task delay;
      match err with
      | Some err => Ret (Some err)
      | None => Lease_Ack d
      end
  end.

Definition Lease_DeadLetter (q : Queue) (reason : string) (d : rabbitDelivery) : prog (option error) :=
  do err <- try CtxErr;
  match err with
  | Some err => Ret (Some err)
  | None =>
      let task := with_metadata (<[deadReasonKey := reason]> (Metadata (dTask d))) (dTask d) in
      match publishingFromTask task with
      | inr err => Ret (Some err)
      | inl msg =>
          let msg := mkPublishing (ContentType msg) (DeliveryMode msg) (MessageId msg) (Timestamp msg)
                       (Some {[deadReasonKey := reason]}) (Body msg) in
          do err <- withChannel q (
            do err <- ensureDeadLetterQueue q (QueueName task);
            match err with
            | Some err => Ret (Some err)
            | None => publish q "" (deadLetterQueueName q (QueueName task)) msg
            end);
          match err with
          | Some err => Ret (Some err)
          | None => Lease_Ack d
          end
      end
  end.

(** ** What a program may send *)

Local Abbreviation history := (list (request * answer)).

(** A request that was answered without an error. *)
Definition done_ (h : history) (rq : request) : Prop := exists a, (rq, a) ∈ h /\ err_of a = None.

Definition is_publish (rq : request) : bool := match rq with PublishMsg _ _ _ => true | _ => false end.
Definition is_ack (rq : request) : bool := match rq with AckTag _ => true | _ => false end.

(** A message and where it goes: the queue, and the queues with their arguments
    that must be declared for it. *)
Record publication := mkPublication {
  target : string; declared : list (string * option delay_args); message_ : Publishing
}.

(** The broker has taken over the message, and said so if it is asked to. *)
Definition taken (q : Queue) (p : publication) (h : history) : Prop :=
  Forall (fun d => done_ h (QueueDeclare d.1 (durable q) d.2)) (declared p) /\
  done_ h (PublishMsg "" (target p) (message_ p)) /\
  (publisherConfirm q = true -> (AwaitConfirm, AConfirmation true) ∈ h).

(** A settlement publishes once, after declaring; it acknowledges its delivery
    once, after the broker has taken over the message, and rejects nothing. *)
Definition settles (q : Queue) (p : publication) (tag : Z) (h : history) (rq : request) : Prop :=
  match rq with
  | PublishMsg x k m =>
      x = "" /\ k = target p /\ m = message_ p /\ Forall (fun r => is_publish r.1 = false) h /\
      Forall (fun d => done_ h (QueueDeclare d.1 (durable q) d.2)) (declared p)
  | AckTag t => t = tag /\ taken q p h /\ done_ h CloseChannel /\ Forall (fun r => is_ack r.1 = false) h
  | RejectTag _ => False
  | _ => True
  end.

Lemma done_here h rq a : (rq, a) ∈ h -> err_of a = None -> done_ h rq.
Proof using Type. intros Hin He. by exists a. Qed.

Definition retry_publication (q : Queue) (now delay : Z) (d : rabbitDelivery) (data : string) : publication :=
  let task := with_available (now + delay) (dTask d) in
  let name := QueueName (dTask d) in
  mkPublication (if delay >? 0 then delayQueueName q name delay else readyQueueName q name)
    ((readyQueueName q name, None) ::
     (if delay >? 0 then [(delayQueueName q name delay, Some (delayArgs q name delay))] else []))
    (mkPublishing contentTypeJSON Persistent (ID (dTask d)) (CreatedAt (dTask d)) None data).

Definition dead_publication (q : Queue) (reason : string) (d : rabbitDelivery) (data : string) : publication :=
  mkPublication (deadLetterQueueName q (QueueName (dTask d))) [(deadLetterQueueName q (QueueName (dTask d)), None)]
    (mkPublishing contentTypeJSON Persistent (ID (dTask d)) (CreatedAt (dTask d)) (Some {[deadReasonKey := reason]}) data).

(** The end of a settlement: [nil] only after an acknowledgement that the client
    sent. *)
Definition settled (tag : Z) (h : history) (err : option error) : Prop :=
  err = None -> done_ h (AckTag tag).
End Adapter.

(** Walking through a program: a request is allowed by what is in the history. *)
Ltac in_history := first [apply list_elem_of_here | apply list_elem_of_further; in_history].
Ltac known := cbn; first
  [ done
  | match goal with |- done_ _ _ => eapply done_here; [in_history|first [eassumption|reflexivity]] end
  | match goal with |- _ ∈ _ => in_history end
  | match goal with |- Forall _ [] => constructor end
  | match goal with |- Forall _ (_ :: _) => constructor; [known|known] end
  | match goal with |- taken _ _ _ => unfold taken; known end
  | match goal with |- _ /\ _ => split; known end
  | match goal with |- _ -> _ => intros ?; first [congruence|known] end ].
Ltac walk := repeat (cbn; first
  [ match goal with |- _ /\ forall a, _ => split; [known|intros ?] end
  | match goal with |- settled _ _ _ => intros ?; first [congruence|known] end
  | match goal with |- context [match err_of ?a with _ => _ end] => destruct (err_of a) eqn:? end
  | match goal with |- context [queueDeclareError _ (err_of ?a)] => destruct (err_of a) eqn:? end
  | match goal with |- context [match ?a with AErr _ => _ | _ => _ end] => is_var a; destruct a end
  | match goal with |- context [match ?b with true => _ | false => _ end] => is_var b; destruct b end ]).

Section Settlement.
Variables (Marshal : Task -> string + error) (q : Queue) (d : rabbitDelivery).

Lemma rabbit_retry_obeys now delay data :
  Marshal (with_available (now + delay) (dTask d)) = inl data ->
  obeys (settles q (retry_publication q now delay d data) (dTag d)) (settled (dTag d)) []
    (Lease_Retry Marshal q now delay d).
Proof using Type.
  intros Hm. unfold Lease_Retry, publishTask, publishingFromTask, retry_publication, withChannel, openChannel, publish.
  rewrite Hm. destruct (opener q) as [|[]]; destruct (publisherConfirm q) eqn:Hc; destruct (delay >? 0); walk.
Qed.

Lemma dead_obeys reason data :
  Marshal (with_metadata (<[deadReasonKey := reason]> (Metadata (dTask d))) (dTask d)) = inl data ->
  obeys (settles q (dead_publication q reason d data) (dTag d)) (settled (dTag d)) []
    (Lease_DeadLetter Marshal q reason d).
Proof using Type.
  intros Hm. unfold Lease_DeadLetter, publishingFromTask, dead_publication, withChannel, openChannel, publish.
  rewrite Hm. destruct (opener q) as [|[]]; destruct (publisherConfirm q) eqn:Hc; walk.
Qed.

(** C21: whatever the broker answers, a retry or a dead letter publishes the task
    at most once, to the right queue and after declaring it; the delivery is
    acknowledged at most once, and only after the broker has taken over the
    message (confirming it, unless confirmations are turned off) and the channel
    has closed without an error; [nil] is returned only if the acknowledgement was
    sent. *)
Theorem settle_confirmed now delay reason data dead :
  Marshal (with_available (now + delay) (dTask d)) = inl data ->
  Marshal (with_metadata (<[deadReasonKey := reason]> (Metadata (dTask d))) (dTask d)) = inl dead ->
  (forall h p, follows (Lease_Retry Marshal q now delay d) h p ->
    (forall h1 rq a h2, h = h1 ++ (rq, a) :: h2 -> settles q (retry_publication q now delay d data) (dTag d) h1 rq) /\
    (forall err, p = Ret err -> settled (dTag d) h err)) /\
  (forall h p, follows (Lease_DeadLetter Marshal q reason d) h p ->
    (forall h1 rq a h2, h = h1 ++ (rq, a) :: h2 -> settles q (dead_publication q reason d dead) (dTag d) h1 rq) /\
    (forall err, p = Ret err -> settled (dTag d) h err)).
Proof using Type.
  intros Hr Hd. split; intros h p Hf.
  - destruct (follows_obeys _ _ _ _ _ _ (rabbit_retry_obeys now delay data Hr) Hf) as [Ho Hs]. simpl in *.
    split; [done|]. by intros err ->.
  - destruct (follows_obeys _ _ _ _ _ _ (dead_obeys reason dead Hd) Hf) as [Ho Hs]. simpl in *.
    split; [done|]. by intros err ->.
Qed.

(** Storing a task: [nil] only when the broker has taken over its message. *)
Definition enqueue_publication (now : Z) (task : Task) (data : string) : publication :=
  let name := queue_or_default (QueueName task) in
  let delay := delayFromAvailableAt now (AvailableAt task) in
  mkPublication (if delay >? 0 then delayQueueName q name delay else readyQueueName q name)
    ((readyQueueName q name, None) ::
     (if delay >? 0 then [(delayQueueName q name delay, Some (delayArgs q name delay))] else []))
    (mkPublishing contentTypeJSON Persistent (ID task) (CreatedAt task) None data).

Theorem enqueue_taken now task data h :
  Marshal (with_queue (queue_or_default (QueueName task)) task) = inl data ->
  follows (Enqueue Marshal q now (Some task)) h (Ret None) ->
  taken q (enqueue_publication now task data) h.
Proof using Type.
  intros Hm Hf.
  enough (obeys (fun _ _ => True) (fun h err => err = None -> taken q (enqueue_publication now task data) h) []
    (Enqueue Marshal q now (Some task))) as Ho.
  { destruct (follows_obeys _ _ _ _ _ _ Ho Hf) as [Hq _]. simpl in Hq. by apply Hq. }
  unfold Enqueue, Clone.
  assert ((if String.eqb (QueueName task) "" then with_queue DefaultQueue task else task)
    = with_queue (queue_or_default (QueueName task)) task) as ->.
  { unfold queue_or_default. destruct (String.eqb (QueueName task) ""); [done|]. by destruct task. }
  unfold publishTask, publishingFromTask, enqueue_publication, withChannel, openChannel, publish. rewrite Hm.
  cbn [AvailableAt with_queue QueueName ID CreatedAt].
  destruct (opener q) as [|[]]; destruct (publisherConfirm q) eqn:Hc;
    destruct (delayFromAvailableAt now (AvailableAt task) >? 0); walk; intros ?; first [congruence|known].
Qed.
End Settlement.

(** ** Delays *)

(** A delayed message expires less than a millisecond before the task is due, or
    up to a millisecond after. *)
Theorem delay_bounds now availableAt :
  availableAt <> zeroTime -> now < availableAt -> int64_ok (availableAt - now) ->
  let ttl := durationMillis (delayFromAvailableAt now availableAt) * Millisecond in
  availableAt - Millisecond < now + ttl <= Z.max availableAt (now + Millisecond).
Proof.
  intros Hz Hlt Hok. unfold delayFromAvailableAt, durationMillis, Millisecond.
  assert ((availableAt =? zeroTime) = false) as -> by lia. assert ((availableAt >? now) = true) as -> by lia.
  simpl. rewrite time_sub_small by done. set (dl := availableAt - now).
  assert ((dl <=? 0) = false) as -> by lia. destruct (Z.ltb_spec dl 1000000); [lia|].
  rewrite quot_div_nonneg by lia. pose proof (Z.div_mod dl 1000000). pose proof (Z.mod_pos_bound dl 1000000). lia.
Qed.

(** A task due in a millisecond and a half is in the ready queue half a
    millisecond early. *)
Example delay_early : durationMillis (delayFromAvailableAt 5 (5 + 1500000)) * Millisecond = 1000000.
Proof. reflexivity. Qed.

(** The queue of a delay outlives its messages by the configured time, rounded
    down to milliseconds. *)
Lemma delay_queue_outlives q name delay :
  0 < delay -> Millisecond <= delayQueueTTL q -> delay + delayQueueTTL q <= maxInt64 ->
  x_message_ttl (delayArgs q name delay) + Z.quot (delayQueueTTL q) Millisecond - 1
  <= x_expires (delayArgs q name delay).
Proof.
  intros Hd Ht Hm. unfold delayArgs, durationMillis, Millisecond in *. simpl.
  rewrite wrap64_id by (unfold int64_ok, minInt64, maxInt64 in *; lia).
  assert ((delay <=? 0) = false) as -> by lia. assert ((delay + delayQueueTTL q <=? 0) = false) as -> by lia.
  assert ((delay + delayQueueTTL q <? 1000000) = false) as -> by lia.
  rewrite !quot_div_nonneg by lia.
  pose proof (Z.div_mod (delay + delayQueueTTL q) 1000000). pose proof (Z.mod_pos_bound (delay + delayQueueTTL q) 1000000).
  pose proof (Z.div_mod delay 1000000). pose proof (Z.mod_pos_bound delay 1000000).
  pose proof (Z.div_mod (delayQueueTTL q) 1000000). pose proof (Z.mod_pos_bound (delayQueueTTL q) 1000000).
  destruct (Z.ltb_spec delay 1000000); lia.
Qed.

Lemma millis_ok d : 0 < d <= maxInt64 -> int64_ok (durationMillis d).
Proof.
  unfold int64_ok, minInt64, maxInt64, durationMillis, Millisecond. intros Hd. bcase; try lia.
  rewrite quot_div_nonneg by lia. pose proof (Z.div_mod d 1000000). pose proof (Z.mod_pos_bound d 1000000). lia.
Qed.

(** The delays of one queue that share a delay queue agree on its arguments, if
    the time it is kept is whole milliseconds and not just one of the delays is
    below a millisecond. *)
Theorem delay_args_agree q name d1 d2 :
  0 < d1 -> 0 < d2 -> (d1 < Millisecond <-> d2 < Millisecond) ->
  0 < delayQueueTTL q -> delayQueueTTL q mod Millisecond = 0 ->
  d1 + delayQueueTTL q <= maxInt64 -> d2 + delayQueueTTL q <= maxInt64 ->
  delayQueueName q name d1 = delayQueueName q name d2 -> delayArgs q name d1 = delayArgs q name d2.
Proof.
  intros H1 H2 Hms Ht Hmod Hm1 Hm2 Hn.
  assert (durationMillis d1 = durationMillis d2) as Hd.
  { unfold delayQueueName in Hn. apply (inj (String.append _)), (inj (String.append _)) in Hn.
    apply (f_equal ParseInt) in Hn. rewrite !parse_format in Hn by (apply millis_ok; lia). by injection Hn. }
  unfold delayArgs. rewrite Hd. f_equal. revert Hd. unfold durationMillis, Millisecond in *.
  rewrite !wrap64_id by (unfold int64_ok, minInt64, maxInt64 in *; lia).
  rewrite !quot_div_nonneg by lia. set (k := delayQueueTTL q / 1000000).
  assert (delayQueueTTL q = k * 1000000) as Hk by (unfold k; pose proof (Z.div_mod (delayQueueTTL q) 1000000); lia).
  rewrite Hk, !Z.div_add by lia.
  pose proof (Z.div_mod d1 1000000). pose proof (Z.mod_pos_bound d1 1000000).
  pose proof (Z.div_mod d2 1000000). pose proof (Z.mod_pos_bound d2 1000000).
  bcase; lia.
Qed.

(** Otherwise they may not: a delay of half a millisecond and one of a millisecond
    and a half have one queue and different arguments, so that the broker refuses
    to declare the queue for the second while it is kept for the first. *)
Theorem delay_args_conflict :
  let q := NewQueue true [] in
  delayQueueName q "mail" 500000 = delayQueueName q "mail" 1500000 /\
  delayArgs q "mail" 500000 <> delayArgs q "mail" 1500000.
Proof. split; [reflexivity|discriminate]. Qed.

(** The queues of one name are not those of another, unless a name ends like a
    delay queue or a dead-letter queue. *)
Example names_overlap :
  let q := NewQueue true [WithPrefix "app."] in
  deadLetterQueueName q "mail" = readyQueueName q "mail.dead" /\ readyQueueName q ".mail" = readyQueueName q "mail".
Proof. split; reflexivity. Qed.

(** ** A broker that accepts everything *)

Module RabbitDemo.
Definition task : Task := mkTask "7" "send" "mail" [] ∅ 2 0 0.
Definition delivery : rabbitDelivery := mkDelivery task 41.
Definition marshal (t : Task) : string + error := inl (ID t).
Definition queue : Queue := NewQueue true [].

Definition accept (rq : request) : answer := match rq with AwaitConfirm => AConfirmation true | _ => AOk end.

(** The requests of a program alone with that broker. *)
Fixpoint trace {A} (p : Programs.prog request answer A) : list (request * answer) * A :=
  match p with
  | Ret a => ([], a)
  | Call rq k => let '(h, a) := trace (k (accept rq)) in ((rq, accept rq) :: h, a)
  end.

Lemma trace_follows {A} (p : Programs.prog request answer A) : follows p (trace p).1 (Ret (trace p).2).
Proof.
  induction p as [a|rq k IH]; [done|]. simpl. specialize (IH (accept rq)).
  destruct (trace (k (accept rq))) as [h a]. simpl. eauto.
Qed.

Lemma settle_confirmed_witness :
  let h := (trace (Lease_Retry marshal queue 0 Second delivery)).1 in
  length h = 12%nat /\
  (forall h1 rq a h2, h = h1 ++ (rq, a) :: h2 ->
    settles queue (retry_publication queue 0 Second delivery "7") 41 h1 rq) /\
  settled 41 h None.
Proof.
  split; [reflexivity|].
  destruct (settle_confirmed marshal queue delivery 0 Second "broken" "7" "7" eq_refl eq_refl) as [Hr _].
  destruct (Hr _ _ (trace_follows _)) as [H1 H2]. split; [exact H1|]. exact (H2 _ eq_refl).
Defined.
End RabbitDemo.
