(* ===== verification/Slog.v ===== *)
(** * Log handlers: [src/log/slog]

    Attributes, records and the handler interface are those of the standard
    library.  [enrich] adds attributes of the context to records and keeps groups
    itself, [multi] passes records to several handlers, and [syslog] writes them as
    lines.  Lists are not shared between handlers: the code clones them before it
    appends. *)

From S2P Require Import Prelude GoErrors GoStrconv.
From stdpp Require Import options.
From Stdlib Require Import Ascii.
Set Default Proof Using "Type*".
Local Open Scope string_scope.
Local Open Scope list_scope.

(** ** The standard library *)

(** Values by kind; those of other kinds have the text they are printed as, and a
    [LogValuer] the value it returns. *)
#[warnings="-register-all"]
Inductive value :=
| VNil | VString (s : string) | VInt (z : Z) | VBool (b : bool) | VText (s : string)
| VGroup (attrs : list (string * value))
| VValuer (v : value).

Local Abbreviation attr := (string * value)%type.

Definition isGroup (v : value) : bool := match v with VGroup _ => true | _ => false end.
Definition isEmptyGroup (v : value) : bool := match v with VGroup [] => true | _ => false end.

(** [slog.GroupValue] and [Record.AddAttrs] leave out empty groups. *)
Definition clean (l : list attr) : list attr := filter (fun a => isEmptyGroup a.2 = false) l.
Definition GroupValue (l : list attr) : value := VGroup (clean l).

Record record := mkRecord { Level : Z; Message : string; Attrs : list attr }.
Definition LevelInfo : Z := 0.
Definition LevelWarn : Z := 4.
Definition LevelError : Z := 8.

(** [slog.Handler], over the state [W] of what handlers write to. *)
Class Handler (H W : Type) := {
  Enabled : H -> Z -> bool;
  Handle : H -> record -> W -> W * option error;
  WithAttrs : H -> list attr -> H;
  WithGroup : H -> string -> H
}.

(** The derivation of a handler, as [Logger.With] and [Logger.WithGroup] do it. *)
Inductive derive := DAttrs (attrs : list attr) | DGroup (name : string).
Definition derive1 {H W} `{!Handler H W} (h : H) (o : derive) : H :=
  match o with DAttrs attrs => WithAttrs h attrs | DGroup name => WithGroup h name end.
Definition derived {H W} `{!Handler H W} (h : H) (ops : list derive) : H := foldl derive1 h ops.

(** What the derivation means for the attributes of a record: attributes come
    before those that follow, and a group contains what follows. *)
Fixpoint nest (ops : list derive) (r : list attr) : list attr :=
  match ops with
  | [] => r
  | DAttrs attrs :: ops => attrs ++ nest ops r
  | DGroup name :: ops => if String.eqb name "" then nest ops r else [(name, GroupValue (nest ops r))]
  end.

Lemma clean_app l l' : clean (l ++ l') = clean l ++ clean l'.
Proof. apply filter_app. Qed.

Lemma clean_clean l : clean (clean l) = clean l.
Proof. unfold clean. rewrite list_filter_filter. apply list_filter_iff. intros a. tauto. Qed.

Lemma clean_group name l : clean [(name, GroupValue l)] = if decide (clean l = []) then [] else [(name, GroupValue l)].
Proof. unfold GroupValue. unfold clean at 1. rewrite filter_cons. simpl. by destruct (clean l). Qed.

(** ** [enrich] *)

Section Enrich.
Context {Ctx H W : Type} `{!Handler H W}.

(** A source has a key and a valuer, or an extractor. *)
Inductive source := Value_ (key : string) (value : Ctx -> value) | Extract (extract : Ctx -> list attr).

Record config := mkConfig { sources : list source; currentGroup : bool }.

(** Options; nil callbacks are [None]. *)
Inductive Option_ :=
| WithValue (key : string) (v : option (Ctx -> value))
| WithExtractors (extractors : list (option (Ctx -> list attr)))
| WithCurrentGroup.

Definition apply (o : Option_) (c : config) : config :=
  match o with
  | WithValue key (Some v) => mkConfig (sources c ++ [Value_ key v]) (currentGroup c)
  | WithValue _ None => c
  | WithExtractors extractors =>
      mkConfig (sources c ++ (extractors ≫= fun e => match e with Some e => [Extract e] | None => [] end))
        (currentGroup c)
  | WithCurrentGroup => mkConfig (sources c) true
  end.

Definition newConfig (opts : list Option_) : config := foldl (fun c o => apply o c) (mkConfig [] false) opts.

Record group := mkGroup { gname : string; gattrs : list attr }.
Record EnrichHandler := mkEnrich { next : H; cfg : config; groups : list group }.

(** [NewHandler] panics on a nil handler. *)
Definition NewEnrich (n : option H) (opts : list Option_) : option EnrichHandler :=
  n ← n; Some (mkEnrich n (newConfig opts) []).

(** The attributes of the sources, in order. *)
Definition source_attrs (ctx : Ctx) (s : source) : list attr :=
  match s with
  | Extract extract => extract ctx
  | Value_ key v => if isEmptyGroup (v ctx) then [] else [(key, v ctx)]
  end.
Definition dynamic (c : config) (ctx : Ctx) : list attr := sources c ≫= source_attrs ctx.

(** The loop of [groupAttr], from the innermost group outwards; the zero attribute
    is [None]. *)
Definition group_step (n : nat) (r : list attr) (child : option attr) (ig : nat * group) : option attr :=
  let '(i, g) := ig in
  let size := (length (gattrs g) +
    if (i =? n - 1)%nat then length r else if child is Some _ then 1 else 0)%nat in
  if (size =? 0)%nat then child
  else
    let attrs := gattrs g ++ (if (i =? n - 1)%nat then r else if child is Some a then [a] else []) in
    Some (gname g, GroupValue attrs).

Definition groupAttr (gs : list group) (r : list attr) : option attr :=
  foldl (group_step (length gs) r) None (reverse (imap pair gs)).

Definition EnrichHandle (ctx : Ctx) (h : EnrichHandler) (r : record) (w : W) : W * option error :=
  if bool_decide (sources (cfg h) = []) && bool_decide (groups h = []) then Handle (next h) r w
  else
    let attrs := dynamic (cfg h) ctx in
    let attrs := attrs ++ (if bool_decide (groups h = []) then Attrs r
                           else match groupAttr (groups h) (Attrs r) with Some a => [a] | None => [] end) in
    Handle (next h) (mkRecord (Level r) (Message r) (clean attrs)) w.

(** [last.attrs = slices.Concat(last.attrs, attrs)] *)
Definition add_to_last (attrs : list attr) (gs : list group) : list group :=
  alter (fun g => mkGroup (gname g) (gattrs g ++ attrs)) (length gs - 1) gs.

Definition EnrichWithAttrs (h : EnrichHandler) (attrs : list attr) : EnrichHandler :=
  if bool_decide (attrs = []) then h
  else if bool_decide (groups h = []) then mkEnrich (WithAttrs (next h) attrs) (cfg h) (groups h)
  else mkEnrich (next h) (cfg h) (add_to_last attrs (groups h)).

Definition EnrichWithGroup (h : EnrichHandler) (name : string) : EnrichHandler :=
  if String.eqb name "" then h
  else if currentGroup (cfg h) then mkEnrich (WithGroup (next h) name) (cfg h) (groups h)
  else mkEnrich (next h) (cfg h) (groups h ++ [mkGroup name []]).

Definition EnrichEnabled (h : EnrichHandler) (level : Z) : bool := Enabled (next h) level.

#[export] Instance enrich_handler (ctx : Ctx) : Handler EnrichHandler W := {|
  Enabled := EnrichEnabled; Handle := EnrichHandle ctx; WithAttrs := EnrichWithAttrs; WithGroup := EnrichWithGroup
|}.

(** *** The groups of a handler *)

(** The groups around [x], with the attributes they have so far. *)
Fixpoint tree (gs : list group) (x : list attr) : list attr :=
  match gs with
  | [] => x
  | g :: gs => [(gname g, GroupValue (gattrs g ++ tree gs x))]
  end.

Lemma tree_app gs gs' x : tree (gs ++ gs') x = tree gs (tree gs' x).
Proof using Type. induction gs as [|g gs IH]; [done|]. simpl. by rewrite IH. Qed.

Lemma tree_add_to_last attrs gs x : gs <> [] -> tree (add_to_last attrs gs) x = tree gs (attrs ++ x).
Proof using Type.
  intros Hne. destruct gs as [|g gs _] using rev_ind; [done|]. clear Hne. unfold add_to_last.
  rewrite length_app. simpl. replace (length gs + 1 - 1)%nat with (length gs + 0)%nat by lia.
  rewrite alter_app_r. rewrite !tree_app. simpl. by rewrite <- app_assoc.
Qed.

Lemma tree_derived ctx ops : forall h x, groups h <> [] -> currentGroup (cfg h) = false ->
  let h' := derived (H := EnrichHandler) (Handler0 := enrich_handler ctx) h ops in
  next h' = next h /\ cfg h' = cfg h /\ groups h' <> [] /\ tree (groups h') x = tree (groups h) (nest ops x).
Proof using Type.
  induction ops as [|o ops IH]; intros h x Hne Hc; [done|].
  set (h1 := derive1 (Handler0 := enrich_handler ctx) h o).
  assert (next h1 = next h /\ cfg h1 = cfg h /\ groups h1 <> [] /\
    forall y, tree (groups h1) y = tree (groups h) (nest [o] y)) as (Hn1 & Hc1 & Hg1 & Ht1).
  { subst h1. destruct o as [attrs|name]; simpl.
    - unfold EnrichWithAttrs. case_bool_decide as Ha; [by subst|]. rewrite bool_decide_false by done. simpl.
      split_and!; [done|done| |intros y; by apply tree_add_to_last].
      intros Hnil. apply (f_equal length) in Hnil. unfold add_to_last in Hnil. rewrite length_alter in Hnil.
      by destruct (groups h).
    - unfold EnrichWithGroup. destruct (String.eqb name ""); [done|]. rewrite Hc. simpl.
      split_and!; [done|done|by destruct (groups h)|]. intros y. by rewrite tree_app. }
  destruct (IH h1 x Hg1 (eq_trans (f_equal currentGroup Hc1) Hc)) as (Hn & Hc' & Hg & Ht).
  split_and!; [by rewrite <- Hn1|by rewrite <- Hc1|done|]. etrans; [exact Ht|]. by rewrite Ht1.
Qed.

Lemma group_step_shift n r c i g : n <> 0%nat -> group_step (S n) r c (S i, g) = group_step n r c (i, g).
Proof using Type.
  intros Hn. unfold group_step.
  assert ((S i =? S n - 1) = (i =? n - 1))%nat as -> by (destruct n; [done|]; simpl; by rewrite Nat.sub_0_r).
  done.
Qed.

(** The loop builds that tree. *)
Lemma groupAttr_cons g gs r :
  groupAttr (g :: gs) r
  = group_step (length (g :: gs)) r (if decide (gs = []) then None else groupAttr gs r) (0%nat, g).
Proof using Type.
  unfold groupAttr. cbn [imap]. rewrite reverse_cons, foldl_app. cbn [foldl]. f_equal.
  destruct gs as [|g1 gs]; [done|]. rewrite decide_False by done.
  set (l := g1 :: gs). change (length (g :: l)) with (S (length l)).
  assert (length l <> 0)%nat as Hl by done. clearbody l.
  assert (forall c (k : list group) j, foldl (group_step (S (length l)) r) c (reverse (imap (fun i => pair (S (j + i))) k))
    = foldl (group_step (length l) r) c (reverse (imap (fun i => pair (j + i)) k))) as Hshift.
  { intros c k. revert c. induction k as [|x k IHk] using rev_ind; intros c j; [done|].
    rewrite !imap_app, !reverse_app, !foldl_app. simpl. rewrite IHk. f_equal.
    by apply group_step_shift. }
  exact (Hshift None l 0%nat).
Qed.

Lemma groupAttr_tree gs r : gs <> [] ->
  clean (match groupAttr gs r with Some a => [a] | None => [] end) = clean (tree gs r) /\
  (groupAttr gs r = None -> clean (tree gs r) = []).
Proof using Type.
  induction gs as [|g gs IH]; [done|]. intros _. rewrite groupAttr_cons.
  destruct (decide (gs = [])) as [->|Hne]; cbn [length].
  - unfold group_step. simpl. rewrite <- length_app.
    destruct (Nat.eqb_spec (length (gattrs g ++ r)) 0) as [E|E]; [|done].
    apply nil_length_inv in E. rewrite E. done.
  - destruct (IH Hne) as [IH1 IH2]. clear IH. unfold group_step.
    replace (0 =? S (length gs) - 1)%nat with false by (symmetry; apply Nat.eqb_neq; destruct gs; simpl in *; [done|lia]).
    cbn [tree].
    assert (GroupValue (gattrs g ++ tree gs r)
      = GroupValue (gattrs g ++ match groupAttr gs r with Some a => [a] | None => [] end)) as ->.
    { unfold GroupValue. by rewrite !clean_app, IH1. }
    destruct (groupAttr gs r) as [a|]; cbn iota; rewrite ?app_nil_r.
    + by destruct (Nat.eqb_spec (length (gattrs g) + 1) 0); [lia|].
    + rewrite Nat.add_0_r. destruct (Nat.eqb_spec (length (gattrs g)) 0) as [E|E]; [|done].
      apply nil_length_inv in E. by rewrite E.
Qed.

(** *** What the wrapped handler gets *)

(** The calls before the first group, and those from it on. *)
Fixpoint root_ops (ops : list derive) : list derive :=
  match ops with
  | [] => []
  | DAttrs attrs :: ops => DAttrs attrs :: root_ops ops
  | DGroup name :: ops => if String.eqb name "" then root_ops ops else []
  end.
Fixpoint rest_ops (ops : list derive) : list derive :=
  match ops with
  | [] => []
  | DAttrs _ :: ops => rest_ops ops
  | DGroup name :: ops' => if String.eqb name "" then rest_ops ops' else ops
  end.

(** The wrapped handler after the attributes before the first group. *)
Definition root_next (n : H) (ops : list derive) : H :=
  foldl (fun n o => match o with
                    | DAttrs attrs => if bool_decide (attrs = []) then n else WithAttrs n attrs
                    | DGroup _ => n
                    end) n (root_ops ops).

Lemma derived_root ctx c ops : currentGroup c = false -> forall n,
  derived (Handler0 := enrich_handler ctx) (mkEnrich n c []) ops
  = derived (Handler0 := enrich_handler ctx) (mkEnrich (root_next n ops) c []) (rest_ops ops).
Proof using Type.
  intros Hc. induction ops as [|o ops IH]; intros n; [done|]. destruct o as [attrs|name].
  - etrans; [|apply (IH (if bool_decide (attrs = []) then n else WithAttrs n attrs))].
    unfold derived. cbn [foldl]. f_equal. cbn. unfold EnrichWithAttrs. by case_bool_decide.
  - unfold root_next. cbn [root_ops rest_ops]. destruct (String.eqb name "") eqn:En; [|done].
    etrans; [|apply (IH n)]. unfold derived. cbn [foldl]. f_equal. cbn. unfold EnrichWithGroup. by rewrite En.
Qed.

(** A handler derived by any calls of [WithAttrs] and [WithGroup] passes to
    the wrapped handler, derived by the attributes before the first group, the
    record with the attributes of the sources and then what the remaining calls
    make of the record's attributes, in one tree of groups. *)
Theorem enrich_handle ctx n c ops r w :
  currentGroup c = false ->
  EnrichHandle ctx (derived (Handler0 := enrich_handler ctx) (mkEnrich n c []) ops) r w
  = Handle (root_next n ops)
      (if bool_decide (sources c = []) && bool_decide (rest_ops ops = []) then r
       else mkRecord (Level r) (Message r) (clean (dynamic c ctx ++ nest (rest_ops ops) (Attrs r)))) w.
Proof using Type.
  intros Hc. rewrite derived_root by done. set (n' := root_next n ops).
  destruct (rest_ops ops) as [|o rest] eqn:Er.
  - cbn. unfold EnrichHandle. cbn [groups cfg next]. rewrite (bool_decide_true ([] = [])) by done.
    rewrite andb_true_r. by case_bool_decide.
  - assert (exists name, o = DGroup name /\ String.eqb name "" = false) as (name & -> & En).
    { clear -Er. induction ops as [|[attrs|name] ops IH]; simpl in Er; [done|auto|].
      destruct (String.eqb name "") eqn:En; [auto|]. injection Er as <- <-. eauto. }
    assert (derive1 (Handler0 := enrich_handler ctx) (mkEnrich n' c []) (DGroup name) = mkEnrich n' c [mkGroup name []])
      as Hd.
    { change (EnrichWithGroup (mkEnrich n' c []) name = mkEnrich n' c [mkGroup name []]).
      unfold EnrichWithGroup. rewrite En. cbn [cfg next groups]. by rewrite Hc. }
    unfold derived. cbn [foldl]. rewrite Hd. fold (derived (Handler0 := enrich_handler ctx) (mkEnrich n' c [mkGroup name []]) rest).
    destruct (tree_derived ctx rest (mkEnrich n' c [mkGroup name []]) (Attrs r)) as (Hn & Hc' & Hg & Ht); [done|done|].
    unfold EnrichHandle. rewrite Hn, Hc'. cbn [next cfg]. rewrite (bool_decide_false (groups _ = [])) by done.
    rewrite andb_false_r. rewrite (bool_decide_false (DGroup name :: rest = [])) by done. rewrite andb_false_r.
    f_equal. f_equal. rewrite !clean_app. f_equal.
    rewrite (proj1 (groupAttr_tree _ (Attrs r) Hg)), Ht. cbn. rewrite En. done.
Qed.

(** With [WithCurrentGroup] the wrapped handler is derived by every call. *)
Theorem enrich_current_group ctx n c ops r w :
  currentGroup c = true ->
  EnrichHandle ctx (derived (Handler0 := enrich_handler ctx) (mkEnrich n c []) ops) r w
  = Handle (foldl (fun n o => match o with
                              | DAttrs attrs => if bool_decide (attrs = []) then n else WithAttrs n attrs
                              | DGroup name => if String.eqb name "" then n else WithGroup n name
                              end) n ops)
      (if bool_decide (sources c = []) then r
       else mkRecord (Level r) (Message r) (clean (dynamic c ctx ++ Attrs r))) w.
Proof using Type.
  intros Hc. set (n' := foldl _ n ops).
  assert (derived (Handler0 := enrich_handler ctx) (mkEnrich n c []) ops = mkEnrich n' c []) as ->.
  { subst n'. revert n. induction ops as [|o ops IH]; intros n; [done|]. unfold derived. cbn [foldl].
    etrans; [|apply IH]. unfold derived. f_equal. destruct o as [attrs|name].
    - change (EnrichWithAttrs (mkEnrich n c []) attrs = mkEnrich (if bool_decide (attrs = []) then n else WithAttrs n attrs) c []).
      unfold EnrichWithAttrs. by case_bool_decide.
    - change (EnrichWithGroup (mkEnrich n c []) name = mkEnrich (if String.eqb name "" then n else WithGroup n name) c []).
      unfold EnrichWithGroup. cbn [cfg next groups]. rewrite Hc. by destruct (String.eqb name ""). }
  unfold EnrichHandle. cbn [groups cfg next]. rewrite (bool_decide_true ([] = [])) by done.
  rewrite andb_true_r. by case_bool_decide.
Qed.
End Enrich.

(** ** [syslog] *)

Inductive severity := Debug | Info | Warning | Err.

Section Syslog.
Context {W : Type}.

(** The writer, [strconv.Quote], and the text of other values. *)
Variable write : severity -> string -> W -> W * option error.
Variable Quote : string -> string.

(** [level] is nil or a level; the writer may be nil. *)
Record SyslogHandler := mkSyslog {
  writer : bool; level : option Z; entries : list (list string * attr); sgroups : list string
}.

Definition SyslogEnabled (h : SyslogHandler) (l : Z) : bool :=
  if negb (writer h) then false else match level h with None => true | Some min => (min <=? l)%Z end.

Fixpoint needsQuoting_loop (s : string) : bool :=
  match s with
  | EmptyString => false
  | String c s => (nat_of_ascii c <=? 32)%nat || Ascii.eqb c "="%char || (nat_of_ascii c =? 34)%nat || needsQuoting_loop s
  end.
Definition needsQuoting (s : string) : bool := if String.eqb s "" then true else needsQuoting_loop s.

Definition appendValue (v : value) : string :=
  match v with
  | VString s => if needsQuoting s then Quote s else s
  | VInt z => FormatInt z
  | VBool b => if b then "true" else "false"
  | VText s => s
  | _ => "<nil>"
  end.

Definition writeQualifiedKey (groups : list string) (key : string) : string :=
  foldr (fun g s => g +:+ "." +:+ s) key groups.

(** [appendAttr]: what is written for an attribute; a [LogValuer] is resolved
    first. *)
Fixpoint appendAttr (groups : list string) (key : string) (v : value) {struct v} : string :=
  match v with
  | VValuer v => appendAttr groups key v
  | VGroup attrs =>
      let groups := if negb (String.eqb key "") then groups ++ [key] else groups in
      (fix go (l : list (string * value)) : string :=
         match l with [] => "" | (k, v) :: l => appendAttr groups k v +:+ go l end) attrs
  | _ => if String.eqb key "" then "" else " " +:+ writeQualifiedKey groups key +:+ "=" +:+ appendValue v
  end.

Definition appendAttrs (groups : list string) (l : list attr) : string :=
  foldr (fun a s => appendAttr groups a.1 a.2 +:+ s) "" l.

Definition appendEntries (l : list (list string * attr)) : string :=
  foldr (fun e s => appendAttr e.1 e.2.1 e.2.2 +:+ s) "" l.

Definition formatRecord (h : SyslogHandler) (r : record) : string :=
  Message r +:+ appendEntries (entries h) +:+ appendAttrs (sgroups h) (Attrs r).

Definition priority (l : Z) : severity :=
  if (l <? LevelInfo)%Z then Debug else if (l <? LevelWarn)%Z then Info
  else if (l <? LevelError)%Z then Warning else Err.

Definition SyslogHandle (h : SyslogHandler) (r : record) (w : W) : W * option error :=
  if negb (SyslogEnabled h (Level r)) then (w, None)
  else write (priority (Level r)) (formatRecord h r) w.

Definition SyslogWithAttrs (h : SyslogHandler) (attrs : list attr) : SyslogHandler :=
  if bool_decide (attrs = []) then h
  else mkSyslog (writer h) (level h) (entries h ++ ((fun a => (sgroups h, a)) <$> attrs)) (sgroups h).

Definition SyslogWithGroup (h : SyslogHandler) (name : string) : SyslogHandler :=
  if String.eqb name "" then h else mkSyslog (writer h) (level h) (entries h) (sgroups h ++ [name]).

#[export] Instance syslog_handler : Handler SyslogHandler W := {|
  Enabled := SyslogEnabled; Handle := SyslogHandle; WithAttrs := SyslogWithAttrs; WithGroup := SyslogWithGroup
|}.

(** *** Lines *)

Lemma appendAttr_group groups key l :
  appendAttr groups key (VGroup l) = appendAttrs (if negb (String.eqb key "") then groups ++ [key] else groups) l.
Proof using Type. cbn. induction l as [|[k v] l IH]; [done|]. cbn. by rewrite IH. Qed.

Lemma appendAttrs_cons groups a l : appendAttrs groups (a :: l) = appendAttr groups a.1 a.2 +:+ appendAttrs groups l.
Proof using Type. done. Qed.

Lemma appendAttrs_app groups l l' : appendAttrs groups (l ++ l') = appendAttrs groups l +:+ appendAttrs groups l'.
Proof using Type.
  induction l as [|a l IH]; [done|]. cbn [app]. by rewrite !appendAttrs_cons, IH, append_assoc.
Qed.

Lemma appendAttrs_clean groups l : appendAttrs groups (clean l) = appendAttrs groups l.
Proof using Type.
  induction l as [|[k v] l IH]; [done|]. unfold clean. rewrite filter_cons. cbn [snd].
  destruct (decide (isEmptyGroup v = false)) as [Hv|Hv].
  - rewrite !appendAttrs_cons. f_equal. exact IH.
  - destruct v as [| | | | |[|a l']|]; cbn in Hv; try done.
Qed.

Lemma appendEntries_app es es' : appendEntries (es ++ es') = appendEntries es +:+ appendEntries es'.
Proof using Type.
  induction es as [|e es IH]; [done|].
  change (appendAttr e.1 e.2.1 e.2.2 +:+ appendEntries (es ++ es')
    = (appendAttr e.1 e.2.1 e.2.2 +:+ appendEntries es) +:+ appendEntries es'). by rewrite IH, append_assoc.
Qed.

Lemma appendEntries_attrs g (attrs : list attr) : appendEntries ((fun a => (g, a)) <$> attrs) = appendAttrs g attrs.
Proof using Type.
  induction attrs as [|a attrs IH]; [done|]. rewrite appendAttrs_cons, <- IH. done.
Qed.

(** The calls that derived a handler show in a line as the tree they stand for. *)
Theorem syslog_format ops : forall h r,
  formatRecord (derived h ops) r
  = formatRecord h (mkRecord (Level r) (Message r) (nest ops (Attrs r))) /\
  writer (derived h ops) = writer h /\ level (derived h ops) = level h.
Proof using Type.
  induction ops as [|o ops IH]; intros h r; [by destruct r|].
  destruct (IH (derive1 h o) r) as (Hf & Hw & Hl). unfold derived in *. cbn [foldl]. rewrite Hf, Hw, Hl.
  destruct o as [attrs|name]; cbn [derive1 WithAttrs WithGroup syslog_handler nest].
  - unfold SyslogWithAttrs. case_bool_decide as Ha; [by subst|]. split_and!; [|done|done].
    unfold formatRecord. cbn [Message entries sgroups Attrs].
    by rewrite appendEntries_app, appendEntries_attrs, appendAttrs_app, append_assoc.
  - unfold SyslogWithGroup. destruct (String.eqb name "") eqn:En; [done|]. split_and!; [|done|done].
    unfold formatRecord. cbn [Message entries sgroups Attrs]. do 2 f_equal.
    rewrite appendAttrs_cons. cbn [fst snd]. rewrite append_nil_r. unfold GroupValue.
    by rewrite appendAttr_group, En, appendAttrs_clean.
Qed.

(** *** [enrich] in front of [syslog] *)

Lemma nest_split ops x : nest ops x = nest (root_ops ops) [] ++ nest (rest_ops ops) x.
Proof using Type.
  induction ops as [|[attrs|name] ops IH]; cbn [nest root_ops rest_ops]; [done| |].
  - by rewrite IH, app_assoc.
  - destruct (String.eqb name "") eqn:En; [done|]. cbn [nest app]. by rewrite En.
Qed.

Lemma nest_root ops x : nest (root_ops ops) x = nest (root_ops ops) [] ++ x.
Proof using Type.
  induction ops as [|[attrs|name] ops IH]; cbn [nest root_ops]; [done| |].
  - by rewrite IH, app_assoc.
  - by destruct (String.eqb name "").
Qed.

Lemma root_next_syslog ops : forall h : SyslogHandler, root_next h ops = derived h (root_ops ops).
Proof using Type.
  unfold root_next, derived. induction ops as [|[attrs|name] ops IH]; intros h; [done| |].
  - cbn [root_ops foldl]. rewrite IH. f_equal. cbn. unfold SyslogWithAttrs. by case_bool_decide.
  - cbn [root_ops]. by destruct (String.eqb name "").
Qed.

End Syslog.

(** ** [multi] *)

Section Multi.
Context {H W : Type} `{!Handler H W}.

Record MultiHandler := mkMulti { handlers : list H }.

(** Nil handlers are ignored. *)
Definition NewMulti (hs : list (option H)) : MultiHandler :=
  mkMulti (hs ≫= fun h => match h with Some h => [h] | None => [] end).

Definition MultiEnabled (m : MultiHandler) (l : Z) : bool := existsb (fun h => Enabled h l) (handlers m).

Fixpoint multi_loop (hs : list H) (r : record) (errs : list error) (w : W) : W * list error :=
  match hs with
  | [] => (w, errs)
  | h :: hs =>
      if negb (Enabled h (Level r)) then multi_loop hs r errs w
      else
        match Handle h r w with
        | (w, Some err) => multi_loop hs r (errs ++ [err]) w
        | (w, None) => multi_loop hs r errs w
        end
  end.

Definition MultiHandle (m : MultiHandler) (r : record) (w : W) : W * option error :=
  match handlers m with
  | [] => (w, None)
  | [h] => if negb (Enabled h (Level r)) then (w, None) else Handle h r w
  | hs => let '(w, errs) := multi_loop hs r [] w in (w, errors_Join (Some <$> errs))
  end.

Definition MultiWithAttrs (m : MultiHandler) (attrs : list attr) : MultiHandler :=
  if bool_decide (attrs = []) then m else mkMulti ((fun h => WithAttrs h attrs) <$> handlers m).
Definition MultiWithGroup (m : MultiHandler) (name : string) : MultiHandler :=
  if String.eqb name "" then m else mkMulti ((fun h => WithGroup h name) <$> handlers m).

#[export] Instance multi_handler : Handler MultiHandler W := {|
  Enabled := MultiEnabled; Handle := MultiHandle; WithAttrs := MultiWithAttrs; WithGroup := MultiWithGroup
|}.

(** The enabled handlers get the record one after the other, whatever the others
    return. *)
Fixpoint in_turn (hs : list H) (r : record) (w : W) : W * list (option error) :=
  match hs with
  | [] => (w, [])
  | h :: hs =>
      if Enabled h (Level r) then
        let '(w, err) := Handle h r w in
        let '(w, errs) := in_turn hs r w in (w, err :: errs)
      else in_turn hs r w
  end.

Lemma multi_loop_in_turn hs r : forall errs w,
  multi_loop hs r errs w = ((in_turn hs r w).1, errs ++ omap id (in_turn hs r w).2).
Proof using Type.
  induction hs as [|h hs IH]; intros errs w; [by cbn; rewrite app_nil_r|]. cbn [multi_loop in_turn].
  destruct (Enabled h (Level r)); [|apply IH]. cbn [negb].
  destruct (Handle h r w) as [w1 [err|]]; rewrite IH; destruct (in_turn hs r w1) as [w2 errs2]; cbn [fst snd].
  - by rewrite <- app_assoc.
  - done.
Qed.

(** Every enabled handler gets the record once, in order; a single handler's error
    is returned as it is, those of several are joined. *)
Theorem multi_handle m r w :
  (MultiHandle m r w).1 = (in_turn (handlers m) r w).1 /\
  (MultiHandle m r w).2 = match handlers m with
                          | [_] => mjoin (head (in_turn (handlers m) r w).2)
                          | _ => errors_Join (in_turn (handlers m) r w).2
                          end.
Proof using Type.
  unfold MultiHandle. destruct (handlers m) as [|h [|h' hs]]; [done| |].
  - cbn [in_turn]. destruct (Enabled h (Level r)); [|done]. cbn [negb]. by destruct (Handle h r w) as [w1 err].
  - rewrite multi_loop_in_turn. cbn [app fst snd]. split; [done|]. unfold errors_Join.
    replace (omap id (Some <$> omap id (in_turn (h :: h' :: hs) r w).2)) with (omap id (in_turn (h :: h' :: hs) r w).2);
      [done|].
    induction (omap id _) as [|e l IH]; [done|]. cbn. by rewrite <- IH.
Qed.

(** Deriving derives every handler. *)
Theorem multi_derived m ops :
  handlers (derived m ops)
  = (fun h => foldl (fun h o => match o with
                                | DAttrs attrs => if bool_decide (attrs = []) then h else WithAttrs h attrs
                                | DGroup name => if String.eqb name "" then h else WithGroup h name
                                end) h ops) <$> handlers m.
Proof using Type.
  revert m. induction ops as [|o ops IH]; intros m; unfold derived; cbn [foldl].
  { by rewrite list_fmap_id. }
  etrans; [apply IH|]. destruct o as [attrs|name]; cbn.
  - unfold MultiWithAttrs. case_bool_decide; [done|]. cbn [handlers]. by rewrite <- list_fmap_compose.
  - unfold MultiWithGroup. destruct (String.eqb name ""); [done|]. cbn [handlers]. by rewrite <- list_fmap_compose.
Qed.
End Multi.

(** ** Lines of a handler with groups *)

Module SlogDemo.
Definition write (p : severity) (s : string) (w : list (severity * string)) : list (severity * string) * option error :=
  (w ++ [(p, s)], None).
Definition quote (s : string) : string := "'" +:+ s +:+ "'".
Definition cfg : config :=
  newConfig [WithValue "trace" (Some (fun ctx : string => VString ctx)); WithValue "empty" (Some (fun _ => VGroup []))].
Definition ops : list derive := [DAttrs [("app", VString "mail")]; DGroup "req"; DAttrs [("id", VInt 7)]; DGroup "user"].
Definition rec : record := mkRecord 4 "done" [("name", VString "a b"); ("admin", VBool true)].
Definition line : string := "done app=mail trace=t1 req.id=7 req.user.name='a b' req.user.admin=true".

#[local] Instance demo_handler : Handler SyslogHandler (list (severity * string)) := syslog_handler write quote.

End SlogDemo.
