(* ===== verification/Udp.v ===== *)
(** * The UDP server: [src/udp]

    Calls of [Start] and [Stop], the reading loop and the worker that calls the
    handler run at the same time, as a transition system.  Connections are numbered
    as they are opened; what the network delivers and when it fails is not
    restricted, but a closed connection delivers nothing. *)

From S2P Require Import Prelude GoErrors.
From stdpp Require Import options.
Set Default Proof Using "Type*".
Local Open Scope list_scope.

Definition ErrAlreadyStarted : error := ErrNew "udp: server already started".
Definition ErrClosed : error := ErrNew "use of closed network connection".

(** ** Configuration *)

Record config := mkConfig { bufSize : Z; handler : bool; recoveryHandler : bool; readChanSize : Z }.

(** Options; of the handlers only whether they are set matters here. *)
Inductive Option_ :=
| WithBufSize (size : Z) | WithHandler (set : bool) | WithRecoveryHandler (set : bool) | WithReadChanSize (size : Z).

Definition apply (o : Option_) (c : config) : config :=
  match o with
  | WithBufSize size => if (size >? 0)%Z then mkConfig size (handler c) (recoveryHandler c) (readChanSize c) else c
  | WithHandler set => if set then mkConfig (bufSize c) true (recoveryHandler c) (readChanSize c) else c
  | WithRecoveryHandler set => if set then mkConfig (bufSize c) (handler c) true (readChanSize c) else c
  | WithReadChanSize size => if (size >? 0)%Z then mkConfig (bufSize c) (handler c) (recoveryHandler c) size else c
  end.

Definition NewServer (opts : list Option_) : config :=
  foldl (fun c o => apply o c) (mkConfig 1024 false false 1024) opts.

Lemma NewServer_sizes opts : (0 < bufSize (NewServer opts))%Z /\ (0 < readChanSize (NewServer opts))%Z.
Proof.
  unfold NewServer. assert (0 < bufSize (mkConfig 1024 false false 1024) /\
    0 < readChanSize (mkConfig 1024 false false 1024))%Z as H by (simpl; lia).
  revert H. generalize (mkConfig 1024 false false 1024). induction opts as [|o opts IH]; intros c Hc; [done|].
  apply IH. destruct o as [z|[]|[]|z]; simpl; try done; destruct (Z.gtb_spec z 0); simpl; lia.
Qed.

(** ** The server *)

Section Server.
Context {A : Type} (cfg : config).

(** A message: where it came from and a copy of what was read. *)
Record Message := mkMessage { Addr : A; Body : list Byte.byte }.

(** [newMessage(conn, addr, buf[:n])]: a datagram is cut at the buffer's size. *)
Definition newMessage (addr : A) (datagram : list Byte.byte) : Message :=
  mkMessage addr (take (Z.to_nat (bufSize cfg)) datagram).

(** Where a call of [Start] is. *)
Inductive start_pc :=
| Listening                                (* in [listenPacket] *)
| Listened (r : nat + error)               (* it has returned *)
| Spawning (c : nat)                       (* before [go s.start()] *)
| Reading (c : nat)                        (* in [ReadFrom] *)
| Enqueueing (c : nat) (m : Message)       (* in the [select] of [enqueue] *)
| Deferred (c : nat) (err : error)         (* before the deferred function *)
| Closing (c : nat) (err : error)          (* before its [conn.Close()] *)
| StartDone (err : error).

(** Where a call of [Stop] is. *)
Inductive stop_pc := Stopping | Taken (c : option nat) | StopDone.

(** The goroutine of [start]. *)
Inductive worker_pc := NoWorker | Waiting | Handling (m : Message) | WorkerDone.

Record server := mkServer {
  conn : option nat; starting : bool; stoped : bool; readChan : list Message;
  starts : gmap nat start_pc; stops : gmap nat stop_pc; worker : worker_pc;
  opened : nat; closed : gset nat;
  served : list nat;                       (* connections that were read from *)
  received : list Message; handled : list Message; dropped : list Message
}.

Definition initial : server := mkServer None false false [] ∅ ∅ NoWorker 0 ∅ [] [] [] [].

(** *** [Start] *)

Definition set_start (i : nat) (p : start_pc) (s : server) : server :=
  mkServer (conn s) (starting s) (stoped s) (readChan s) (<[i := p]> (starts s)) (stops s) (worker s)
    (opened s) (closed s) (served s) (received s) (handled s) (dropped s).

(** The first locked section. *)
Definition start_begin (i : nat) (s : server) : server :=
  if stoped s then set_start i (StartDone ErrClosed) s
  else if starting s || bool_decide (conn s <> None) then set_start i (StartDone ErrAlreadyStarted) s
  else
    mkServer (conn s) true (stoped s) (readChan s) (<[i := Listening]> (starts s)) (stops s) (worker s)
      (opened s) (closed s) (served s) (received s) (handled s) (dropped s).

Definition start_listen (i : nat) (err : option error) (s : server) : server :=
  match err with
  | Some err => set_start i (Listened (inr err)) s
  | None =>
      mkServer (conn s) (starting s) (stoped s) (readChan s) (<[i := Listened (inl (opened s))]> (starts s)) (stops s)
        (worker s) (S (opened s)) (closed s) (served s) (received s) (handled s) (dropped s)
  end.

(** The second locked section. *)
Definition start_listened (i : nat) (r : nat + error) (s : server) : server :=
  let put cn cl p sv :=
    mkServer cn false (stoped s) (readChan s) (<[i := p]> (starts s)) (stops s) (worker s)
      (opened s) cl sv (received s) (handled s) (dropped s) in
  if stoped s then
    put (conn s) (match r with inl c => {[c]} ∪ closed s | inr _ => closed s end) (StartDone ErrClosed) (served s)
  else
    match r with
    | inr err => put (conn s) (closed s) (StartDone err) (served s)
    | inl c => put (Some c) (closed s) (Spawning c) (served s ++ [c])
    end.

Definition start_spawn (i c : nat) (s : server) : server :=
  mkServer (conn s) (starting s) (stoped s) (readChan s) (<[i := Reading c]> (starts s)) (stops s) Waiting
    (opened s) (closed s) (served s) (received s) (handled s) (dropped s).

(** [serve]: a datagram, or an error, which stops the server. *)
Definition read_ok (i c : nat) (addr : A) (datagram : list Byte.byte) (s : server) : server :=
  let m := newMessage addr datagram in
  mkServer (conn s) (starting s) (stoped s) (readChan s) (<[i := Enqueueing c m]> (starts s)) (stops s) (worker s)
    (opened s) (closed s) (served s) (received s ++ [m]) (handled s) (dropped s).

Definition read_err (i c : nat) (err : error) (s : server) : server :=
  mkServer (conn s) (starting s) true (readChan s) (<[i := Deferred c err]> (starts s)) (stops s) (worker s)
    (opened s) (closed s) (served s) (received s) (handled s) (dropped s).

Definition enqueue_send (i c : nat) (m : Message) (s : server) : server :=
  mkServer (conn s) (starting s) (stoped s) (readChan s ++ [m]) (<[i := Reading c]> (starts s)) (stops s) (worker s)
    (opened s) (closed s) (served s) (received s) (handled s) (dropped s).

Definition enqueue_stoped (i c : nat) (m : Message) (s : server) : server :=
  mkServer (conn s) (starting s) (stoped s) (readChan s) (<[i := Deferred c ErrClosed]> (starts s)) (stops s) (worker s)
    (opened s) (closed s) (served s) (received s) (handled s) (dropped s ++ [m]).

(** The deferred function. *)
Definition start_deferred (i c : nat) (err : error) (s : server) : server :=
  mkServer (if bool_decide (conn s = Some c) then None else conn s) (starting s) (stoped s) (readChan s)
    (<[i := Closing c err]> (starts s)) (stops s) (worker s)
    (opened s) (closed s) (served s) (received s) (handled s) (dropped s).

Definition start_close (i c : nat) (err : error) (s : server) : server :=
  mkServer (conn s) (starting s) (stoped s) (readChan s) (<[i := StartDone err]> (starts s)) (stops s) (worker s)
    (opened s) ({[c]} ∪ closed s) (served s) (received s) (handled s) (dropped s).

(** *** The worker *)

Definition set_worker (p : worker_pc) (s : server) : server :=
  mkServer (conn s) (starting s) (stoped s) (readChan s) (starts s) (stops s) p
    (opened s) (closed s) (served s) (received s) (handled s) (dropped s).

(** A message is taken; without a handler it is let go. *)
Definition worker_take (m : Message) (rest : list Message) (s : server) : server :=
  mkServer (conn s) (starting s) (stoped s) rest (starts s) (stops s) (if handler cfg then Handling m else Waiting)
    (opened s) (closed s) (served s) (received s) (if handler cfg then handled s else handled s ++ [m]) (dropped s).

(** [handle] returns, after a panic too, if there is a recovery handler. *)
Definition worker_return (m : Message) (s : server) : server :=
  mkServer (conn s) (starting s) (stoped s) (readChan s) (starts s) (stops s) Waiting
    (opened s) (closed s) (served s) (received s) (handled s ++ [m]) (dropped s).

(** *** [Stop] *)

Definition set_stop (j : nat) (p : stop_pc) (s : server) : server :=
  mkServer (conn s) (starting s) (stoped s) (readChan s) (starts s) (<[j := p]> (stops s)) (worker s)
    (opened s) (closed s) (served s) (received s) (handled s) (dropped s).

Definition stop_begin (j : nat) (s : server) : server :=
  mkServer (conn s) (starting s) true (readChan s) (starts s) (<[j := Stopping]> (stops s)) (worker s)
    (opened s) (closed s) (served s) (received s) (handled s) (dropped s).

Definition stop_take (j : nat) (s : server) : server :=
  mkServer None (starting s) (stoped s) (readChan s) (starts s) (<[j := Taken (conn s)]> (stops s)) (worker s)
    (opened s) (closed s) (served s) (received s) (handled s) (dropped s).

Definition stop_close (j : nat) (c : option nat) (s : server) : server :=
  mkServer (conn s) (starting s) (stoped s) (readChan s) (starts s) (<[j := StopDone]> (stops s)) (worker s)
    (opened s) (match c with Some c => {[c]} ∪ closed s | None => closed s end)
    (served s) (received s) (handled s) (dropped s).

(** A call, or a move of a goroutine. *)
Inductive call : server -> server -> Prop :=
| call_start i s : starts s !! i = None -> call s (start_begin i s)
| call_stop j s : stops s !! j = None -> call s (stop_begin j s).

Inductive move : server -> server -> Prop :=
| move_listen i err s : starts s !! i = Some Listening -> move s (start_listen i err s)
| move_listened i r s : starts s !! i = Some (Listened r) -> move s (start_listened i r s)
| move_spawn i c s : starts s !! i = Some (Spawning c) -> move s (start_spawn i c s)
| move_read i c addr d s : starts s !! i = Some (Reading c) -> c ∉ closed s -> move s (read_ok i c addr d s)
| move_read_err i c err s : starts s !! i = Some (Reading c) -> move s (read_err i c err s)
| move_send i c m s : starts s !! i = Some (Enqueueing c m) ->
    (Z.of_nat (length (readChan s)) < readChanSize cfg)%Z -> move s (enqueue_send i c m s)
| move_stoped i c m s : starts s !! i = Some (Enqueueing c m) -> stoped s = true -> move s (enqueue_stoped i c m s)
| move_deferred i c err s : starts s !! i = Some (Deferred c err) -> move s (start_deferred i c err s)
| move_close i c err s : starts s !! i = Some (Closing c err) -> move s (start_close i c err s)
| move_worker_stop s : worker s = Waiting -> stoped s = true -> move s (set_worker WorkerDone s)
| move_take m rest s : worker s = Waiting -> readChan s = m :: rest -> move s (worker_take m rest s)
| move_return m s : worker s = Handling m -> move s (worker_return m s)
| move_stop_take j s : stops s !! j = Some Stopping -> move s (stop_take j s)
| move_stop_close j c s : stops s !! j = Some (Taken c) -> move s (stop_close j c s).

Definition step (s s' : server) : Prop := call s s' \/ move s s'.
Definition reachable (s : server) : Prop := rtc step initial s.

(** ** What holds in every state *)

Definition listening (p : start_pc) : Prop := match p with Listening | Listened _ => True | _ => False end.

(** The connection a call reads from. *)
Definition serving (p : start_pc) : option nat :=
  match p with
  | Spawning c | Reading c | Enqueueing c _ | Deferred c _ | Closing c _ => Some c
  | _ => None
  end.

(** The connection a call has to close. *)
Definition holds (p : start_pc) : option nat :=
  match p with Listened (inl c) => Some c | _ => serving p end.

(** The message a call or the worker has in hand. *)
Definition enqueueing (p : start_pc) : list Message := match p with Enqueueing _ m => [m] | _ => [] end.
Definition handling (p : worker_pc) : list Message := match p with Handling m => [m] | _ => [] end.

Definition ending (p : start_pc) : Prop := match p with Deferred _ _ | Closing _ _ => True | _ => False end.

Record inv (s : server) : Prop := {
  i_listen i p : starts s !! i = Some p -> listening p -> starting s = true;
  i_listen_one i j p q : starts s !! i = Some p -> starts s !! j = Some q -> listening p -> listening q -> i = j;
  i_serve i p c : starts s !! i = Some p -> serving p = Some c -> served s = [c];
  i_serve_one i j p q c d : starts s !! i = Some p -> starts s !! j = Some q ->
    serving p = Some c -> serving q = Some d -> i = j;
  i_starting : stoped s = false -> starting s = true -> served s = [];
  i_served : stoped s = false -> served s <> [] -> conn s <> None;
  i_conn c : conn s = Some c -> served s = [c];
  i_ending i p : starts s !! i = Some p -> ending p -> stoped s = true;
  i_spawning i c : starts s !! i = Some (Spawning c) -> worker s = NoWorker;
  i_worker : served s = [] -> worker s = NoWorker /\ received s = [];
  i_chan : (Z.of_nat (length (readChan s)) <= readChanSize cfg)%Z;
  i_dropped : dropped s <> [] -> stoped s = true;
  i_kept i p c : starts s !! i = Some p -> serving p = Some c -> ~ ending p -> dropped s = [];
  i_stops j p : stops s !! j = Some p -> stoped s = true;
  i_served_one : length (served s) <= 1;
  i_dropped_one : length (dropped s) <= 1
}.

(** Every connection that was opened is closed, or a call has yet to close it. *)
Definition no_leak (s : server) : Prop := forall c, c < opened s ->
  c ∈ closed s \/ exists i p, starts s !! i = Some p /\ holds p = Some c.

(** Messages are handled in the order they were read; those not handled are in the
    handler, in the channel or in the call that enqueues, or the one that call gave
    up. *)
Definition idle (s : server) : Prop := forall i c m, starts s !! i <> Some (Enqueueing c m).
Record fifo (s : server) : Prop := {
  f_enqueueing i c m : starts s !! i = Some (Enqueueing c m) ->
    received s = handled s ++ handling (worker s) ++ readChan s ++ [m];
  f_idle : idle s -> received s = handled s ++ handling (worker s) ++ readChan s ++ dropped s
}.

(** Of an updated table: the new entry, or an old one. *)
Local Ltac upd :=
  repeat match goal with
  | H : <[_ := _]> _ !! _ = Some _ |- _ => apply lookup_insert_Some in H as [[? ?]|[? H]]; subst
  end.
Local Ltac solve_inv I :=
  destruct I as [I1 I2 I3 I4 I5 I6 I7 I8 I9 I10 I11 I12 I13 I14 I15 I16]; split; simpl; intros; upd; simpl in *;
  try done; try (by eauto); try congruence;
  try (exfalso; assert (starting _ = true) by (eapply I1; eassumption); congruence);
  try (exfalso; assert (stoped _ = true) by (eapply I8; eassumption); congruence);
  try (exfalso; assert (stoped _ = true) by (apply I12; assumption); congruence);
  try (exfalso; assert (stoped _ = true) by (eapply I14; eassumption); congruence).

Lemma udp_inv_initial : (0 <= readChanSize cfg)%Z -> inv initial.
Proof using Type. intros Hz. split; simpl; try done; try lia; intros *; rewrite lookup_empty; done. Qed.

Lemma udp_inv_call s s' : call s s' -> inv s -> inv s'.
Proof using Type.
  intros [i s0 Hi|j s0 Hj] I.
  - unfold start_begin. destruct (stoped s0) eqn:Es; [|destruct (starting s0 || _) eqn:Eb].
    + solve_inv I.
    + solve_inv I.
    + apply orb_false_iff in Eb as [Eb Ec]. apply bool_decide_eq_false, dec_stable in Ec. solve_inv I.
      all: try (destruct (served s0) eqn:Ev; [done|]; exfalso; by apply (I6 Es)).
  - solve_inv I.
Qed.

Lemma inv_move s s' : move s s' -> inv s -> inv s'.
Proof using Type.
  intros Hm I. destruct Hm as [i err s Hi|i r s Hi|i c s Hi|i c ad d s Hi Hc|i c err s Hi|i c m s Hi Hl|i c m s Hi Hs
    |i c err s Hi|i c err s Hi|s Hw Hs|m rest s Hw Hr|m s Hw|j s Hj|j c s Hj].
  - destruct err; solve_inv I.
  - assert (forall k p, i <> k -> starts s !! k = Some p -> listening p -> False) as Hl.
    { intros k p Hne Hk Hp. apply Hne. by eapply (i_listen_one _ I i k (Listened r) p). }
    assert (starting s = true) as Hst by by eapply (i_listen _ I i (Listened r)).
    unfold start_listened. destruct (stoped s) eqn:Es; [|pose proof (i_starting _ I Es Hst) as Hsv];
      destruct r as [c|err]; solve_inv I; try (exfalso; by eapply Hl); try (by rewrite Hsv);
      try (exfalso; rewrite (I3 _ _ _ ltac:(eassumption) ltac:(eassumption)) in Hsv; done);
      try (rewrite Hsv; simpl; congruence); try (rewrite Hsv; simpl; lia); try (by apply I10);
      destruct (dropped s) as [|m l] eqn:Ed; [done|exfalso; by rewrite I12 in Es].
  - assert (forall k d, starts s !! k = Some (Spawning d) -> k = i) as Hone
      by (intros k d Hk; by eapply (i_serve_one _ I k i)).
    pose proof (i_serve _ I i _ c Hi eq_refl) as Hsv. solve_inv I. by destruct H0; rewrite (Hone _ _ H).
  - pose proof (i_serve _ I i _ c Hi eq_refl) as Hsv. solve_inv I.
  - solve_inv I.
  - solve_inv I. rewrite length_app. simpl. lia.
  - pose proof (i_kept _ I i _ c Hi eq_refl) as Hd. solve_inv I.
    + exfalso. assert (i = i0) by by eapply I4. done.
    + rewrite Hd by by intros []. simpl. lia.
  - solve_inv I. 
    + assert (stoped s = true) by by eapply I8. congruence.
    + case_bool_decide; [done|auto].
  - solve_inv I.
  - solve_inv I.
    + by rewrite (I9 _ _ H) in Hw.
    + destruct (I10 H). congruence.
  - solve_inv I.
    + by rewrite (I9 _ _ H) in Hw.
    + destruct (I10 H). congruence.
    + rewrite Hr in I11. simpl in I11. lia.
  - solve_inv I.
    + by rewrite (I9 _ _ H) in Hw.
    + destruct (I10 H). congruence.
  - solve_inv I.
  - solve_inv I.
Qed.

(** *** Connections *)

Lemma no_leak_update i q s s' :
  starts s' = <[i := q]> (starts s) -> closed s ⊆ closed s' ->
  (forall c, c < opened s' -> c < opened s \/ holds q = Some c) ->
  (forall p c, starts s !! i = Some p -> holds p = Some c -> holds q = Some c \/ c ∈ closed s') ->
  no_leak s -> no_leak s'.
Proof using Type.
  intros Hs Hcl Hop Hp Hl c Hc. rewrite Hs. destruct (Hop c Hc) as [Hc'|Hq].
  2: { right. exists i, q. by rewrite lookup_insert_eq. }
  destruct (Hl c Hc') as [Hin|(j & p & Hj & Hh)]; [left; by apply Hcl|].
  destruct (decide (i = j)) as [<-|Hne].
  - destruct (Hp p c Hj Hh) as [Hq|Hin]; [|by left]. right. exists i, q. by rewrite lookup_insert_eq.
  - right. exists j, p. by rewrite lookup_insert_ne.
Qed.

Lemma no_leak_same s s' :
  starts s' = starts s -> opened s' = opened s -> closed s ⊆ closed s' -> no_leak s -> no_leak s'.
Proof using Type.
  intros Hs Ho Hc Hl c Hlt. rewrite Ho in Hlt. rewrite Hs. destruct (Hl c Hlt) as [?|?]; [left; by apply Hc|by right].
Qed.

Lemma no_leak_step s s' : step s s' -> no_leak s -> no_leak s'.
Proof using Type.
  intros [Hc|Hm] Hl.
  - destruct Hc as [i s Hi|j s Hj]; [|by apply (no_leak_same s)].
    unfold start_begin. destruct (stoped s); [|destruct (starting s || _)];
      (eapply (no_leak_update i _ s); [done|done|by left|congruence|done]).
  - destruct Hm as [i err s Hi|i r s Hi|i c s Hi|i c ad d s Hi Hc|i c err s Hi|i c m s Hi Hf|i c m s Hi Hs
      |i c err s Hi|i c err s Hi|s Hw Hs|m rest s Hw Hr|m s Hw|j s Hj|j c s Hj].
    10-13: by apply (no_leak_same s).
    10: { apply (no_leak_same s); [done|done| |done]. destruct c; simpl; set_solver. }
    1: destruct err as [err|].
    3: unfold start_listened; destruct (stoped s); destruct r as [c|err].
    all: eapply (no_leak_update i _ s); try done; simpl; try set_solver.
    all: try (intros p c0 Hp Hh; rewrite Hi in Hp; injection Hp as <-; simpl in Hh; simplify_eq; auto; try set_solver).
    all: try (intros c0 Hc0; left; exact Hc0).
    intros c0 Hc0. destruct (decide (c0 = opened s)) as [->|]; [by right|left; lia].
Qed.

(** *** Messages *)

Lemma fifo_update i q s s' :
  starts s' = <[i := q]> (starts s) -> enqueueing q = [] ->
  (forall p, starts s !! i = Some p -> enqueueing p = []) ->
  received s' = received s -> handled s' = handled s -> handling (worker s') = handling (worker s) ->
  readChan s' = readChan s -> dropped s' = dropped s -> fifo s -> fifo s'.
Proof using Type.
  intros Hs Hq Hp Hr Hh Hw Hc Hd [F1 F2]. split.
  - intros j c m Hj. rewrite Hs in Hj. apply lookup_insert_Some in Hj as [[<- ->]|[_ Hj]]; [done|].
    rewrite Hr, Hh, Hw, Hc. by eapply F1.
  - intros Hi. rewrite Hr, Hh, Hw, Hc, Hd. apply F2. intros j c m Hj.
    destruct (decide (i = j)) as [<-|Hne]; [by specialize (Hp _ Hj)|].
    apply (Hi j c m). by rewrite Hs, lookup_insert_ne.
Qed.

Lemma fifo_same s s' :
  starts s' = starts s -> dropped s' = dropped s ->
  (forall x, received s = handled s ++ handling (worker s) ++ readChan s ++ x ->
             received s' = handled s' ++ handling (worker s') ++ readChan s' ++ x) ->
  fifo s -> fifo s'.
Proof using Type.
  intros Hs Hd Hx [F1 F2]. split.
  - intros i c m. rewrite Hs. intros Hi. apply Hx. by eapply F1.
  - unfold idle. rewrite Hs, Hd. intros Hi. by apply Hx, F2.
Qed.

(** Only the call that serves enqueues. *)
Lemma enqueue_one s i j p q c : inv s -> starts s !! i = Some p -> serving p = Some c ->
  starts s !! j = Some q -> enqueueing q <> [] -> i = j.
Proof using Type.
  intros I Hi Hp Hj Hq. destruct q as [| | | |c' m| | |]; try done. by eapply (i_serve_one _ I i j p (Enqueueing c' m)).
Qed.

Lemma fifo_step s s' : step s s' -> inv s -> fifo s -> fifo s'.
Proof using Type.
  intros [Hc|Hm] I F.
  - destruct Hc as [i s Hi|j s Hj]; [|by apply (fifo_same s)].
    unfold start_begin. destruct (stoped s); [|destruct (starting s || _)];
      (eapply (fifo_update i _ s); try done; congruence).
  - destruct Hm as [i err s Hi|i r s Hi|i c s Hi|i c ad d s Hi Hc|i c err s Hi|i c m s Hi Hf|i c m s Hi Hs
      |i c err s Hi|i c err s Hi|s Hw Hs|m rest s Hw Hr|m s Hw|j s Hj|j c s Hj].
    + destruct err; (eapply (fifo_update i _ s); try done; intros p Hp; rewrite Hi in Hp; by injection Hp as <-).
    + unfold start_listened. destruct (stoped s); destruct r;
        (eapply (fifo_update i _ s); try done; intros p Hp; rewrite Hi in Hp; by injection Hp as <-).
    + eapply (fifo_update i _ s); try done; [intros p Hp; rewrite Hi in Hp; by injection Hp as <-|].
      simpl. by rewrite (i_spawning _ I i c Hi).
    + assert (idle s) as Hid.
      { intros j c' m' Hj. assert (i = j) as <- by by eapply (enqueue_one s i j). congruence. }
      pose proof (f_idle _ F Hid) as Hrec. rewrite (i_kept _ I i _ c Hi eq_refl) in Hrec by by intros [].
      split; simpl.
      * intros j c' m' Hj. apply lookup_insert_Some in Hj as [[_ [= _ <-]]|[_ Hj]]; [|by destruct (Hid _ _ _ Hj)].
        rewrite Hrec, app_nil_r. by rewrite <- !app_assoc.
      * intros Hid'. exfalso. apply (Hid' i c (newMessage ad d)). simpl. by rewrite lookup_insert_eq.
    + eapply (fifo_update i _ s); try done. intros p Hp. rewrite Hi in Hp. by injection Hp as <-.
    + split; simpl.
      * intros j c' m' Hj. apply lookup_insert_Some in Hj as [[_ ?]|[Hne Hj]]; [done|].
        destruct Hne. by eapply (enqueue_one s i j).
      * intros _. rewrite (f_enqueueing _ F i c m Hi), (i_kept _ I i _ c Hi eq_refl) by by intros [].
        by rewrite app_nil_r.
    + split; simpl.
      * intros j c' m' Hj. apply lookup_insert_Some in Hj as [[_ ?]|[Hne Hj]]; [done|].
        destruct Hne. by eapply (enqueue_one s i j).
      * intros _. by rewrite (f_enqueueing _ F i c m Hi), (i_kept _ I i _ c Hi eq_refl) by by intros [].
    + eapply (fifo_update i _ s); try done. intros p Hp. rewrite Hi in Hp. by injection Hp as <-.
    + eapply (fifo_update i _ s); try done. intros p Hp. rewrite Hi in Hp. by injection Hp as <-.
    + apply (fifo_same s); try done. intros x Hx. simpl. by rewrite Hw in Hx.
    + apply (fifo_same s); try done. intros x Hx. simpl. rewrite Hw, Hr in Hx. rewrite Hx.
      destruct (handler cfg); simpl; [done|]. by rewrite <- app_assoc.
    + apply (fifo_same s); try done. intros x Hx. simpl. rewrite Hw in Hx. rewrite Hx. simpl. by rewrite <- app_assoc.
    + by apply (fifo_same s).
    + by apply (fifo_same s).
Qed.

Lemma reachable_inv s : (0 <= readChanSize cfg)%Z -> reachable s -> inv s /\ no_leak s /\ fifo s.
Proof using Type.
  intros Hz Hr. unfold reachable in Hr. pattern s. revert s Hr. apply rtc_ind_r.
  - split_and!; [by apply udp_inv_initial|intros c; simpl; lia|].
    split; [intros *; simpl; by rewrite lookup_empty|done].
  - intros s s' _ Hst (Hi & Hl & Hf). split_and!.
    + destruct Hst; [by eapply udp_inv_call|by eapply inv_move].
    + by eapply no_leak_step.
    + by eapply fifo_step.
Qed.

(** A call of [Start] that has returned. *)
Definition finished (s : server) : Prop := forall i p, starts s !! i = Some p -> exists err, p = StartDone err.

(** *** The end of the worker *)

Lemma worker_done_stays s s' : inv s -> step s s' -> worker s = WorkerDone ->
  worker s' = WorkerDone /\ handled s' = handled s.
Proof using Type.
  intros I [Hc|Hm] Hd.
  - destruct Hc as [i s Hi|j s Hj]; [|done]. unfold start_begin. by destruct (stoped s); [|destruct (starting s || _)].
  - destruct Hm as [i err s Hi|i r s Hi|i c s Hi|i c ad d s Hi Hc|i c err s Hi|i c m s Hi Hf|i c m s Hi Hs
      |i c err s Hi|i c err s Hi|s Hw Hs|m rest s Hw Hr|m s Hw|j s Hj|j c s Hj]; try done; try congruence.
    + by destruct err.
    + unfold start_listened. by destruct (stoped s), r.
    + pose proof (i_spawning _ I i c Hi). congruence.
Qed.

Lemma worker_done_forever s s' : (0 <= readChanSize cfg)%Z -> reachable s -> worker s = WorkerDone -> rtc step s s' ->
  handled s' = handled s.
Proof using Type.
  intros Hz Hr Hd Hs. induction Hs as [|s s1 s' Hst Hs IH]; [done|].
  destruct (reachable_inv s Hz Hr) as (I & _). destruct (worker_done_stays _ _ I Hst Hd) as [Hd1 <-].
  apply IH; [|done]. by eapply rtc_r.
Qed.

(** The worker returns only when the server was stopped, and it stays stopped. *)
Lemma worker_done_stoped s : reachable s -> worker s = WorkerDone -> stoped s = true.
Proof using Type.
  intros Hr. unfold reachable in Hr. pattern s. revert s Hr. apply rtc_ind_r; [done|].
  intros s s' _ [Hc|Hm] IH.
  - destruct Hc as [i s Hi|j s Hj]; [|done]. unfold start_begin.
    destruct (stoped s) eqn:E; [|destruct (starting s || _)]; simpl; intros Hd; specialize (IH Hd); congruence.
  - destruct Hm as [i err s Hi|i r s Hi|i c s Hi|i c ad d s Hi Hc|i c err s Hi|i c m s Hi Hf|i c m s Hi Hs
      |i c err s Hi|i c err s Hi|s Hw Hs|m rest s Hw Hr|m s Hw|j s Hj|j c s Hj]; try done.
    + by destruct err.
    + unfold start_listened. destruct (stoped s) eqn:E, r; simpl; intros Hd; specialize (IH Hd); congruence.
    + simpl. by destruct (handler cfg).
Qed.


(** ** A stopped server comes to an end *)

Definition start_weight (p : start_pc) : nat :=
  match p with
  | Listening => 8 | Listened _ => 7 | Spawning _ => 6 | Reading _ => 4 | Enqueueing _ _ => 7
  | Deferred _ _ => 2 | Closing _ _ => 1 | StartDone _ => 0
  end.
Definition stop_weight (p : stop_pc) : nat := match p with Stopping => 2 | Taken _ => 1 | StopDone => 0 end.
Definition worker_weight (p : worker_pc) : nat :=
  match p with Handling _ => 2 | Waiting => 1 | NoWorker | WorkerDone => 0 end.

Definition total {P} (weight : P -> nat) (m : gmap nat P) : nat := sum_list_with (fun x => weight x.2) (map_to_list m).

Lemma total_insert {P} (weight : P -> nat) (m : gmap nat P) i p q : m !! i = Some p ->
  total weight (<[i := q]> m) + weight p = total weight m + weight q.
Proof using Type.
  intros Hi. unfold total. rewrite <- (insert_delete_id m i p Hi) at 2. rewrite <- insert_delete_eq.
  rewrite !map_to_list_insert by apply lookup_delete_eq. simpl. lia.
Qed.

Definition measure (s : server) : nat :=
  total start_weight (starts s) + total stop_weight (stops s) + worker_weight (worker s) + 2 * length (readChan s).

(** It was stopped, and what it serves is closed. *)
Definition stopped (s : server) : Prop := stoped s = true /\ forall c, c ∈ served s -> c ∈ closed s.

Lemma stopped_move s s' : inv s -> stopped s -> move s s' -> stopped s' /\ measure s' < measure s.
Proof using Type.
  intros I [Hst Hcl] Hm. unfold measure, stopped.
  destruct Hm as [i err s Hi|i r s Hi|i c s Hi|i c ad d s Hi Hc|i c err s Hi|i c m s Hi Hf|i c m s Hi Hs
    |i c err s Hi|i c err s Hi|s Hw Hs|m rest s Hw Hr|m s Hw|j s Hj|j c s Hj].
  - pose proof (fun q => total_insert start_weight _ i _ q Hi) as Ht. simpl in Ht.
    destruct err as [err|]; simpl; [specialize (Ht (Listened (inr err)))|specialize (Ht (Listened (inl (opened s))))];
      simpl in Ht; (split; [done|lia]).
  - pose proof (total_insert start_weight _ i _ (StartDone ErrClosed) Hi) as Ht. simpl in Ht.
    unfold start_listened. rewrite Hst. simpl. split; [|lia]. split; [done|]. intros c Hin. apply Hcl in Hin.
    destruct r; set_solver.
  - pose proof (total_insert start_weight _ i _ (Reading c) Hi) as Ht. simpl in *.
    rewrite (i_spawning _ I i c Hi). simpl. split; [done|lia].
  - destruct Hc. apply Hcl. rewrite (i_serve _ I i _ c Hi eq_refl). by left.
  - pose proof (total_insert start_weight _ i _ (Deferred c err) Hi) as Ht. simpl in *. split; [done|lia].
  - pose proof (total_insert start_weight _ i _ (Reading c) Hi) as Ht. simpl in *. rewrite length_app. simpl.
    split; [done|lia].
  - pose proof (total_insert start_weight _ i _ (Deferred c ErrClosed) Hi) as Ht. simpl in *. split; [done|lia].
  - pose proof (total_insert start_weight _ i _ (Closing c err) Hi) as Ht. simpl in *. split; [done|lia].
  - pose proof (total_insert start_weight _ i _ (StartDone err) Hi) as Ht. simpl in *.
    split; [|lia]. split; [done|]. intros c' Hin. apply Hcl in Hin. set_solver.
  - rewrite Hw. simpl. split; [done|lia].
  - rewrite Hw, Hr. simpl. split; [done|]. destruct (handler cfg); simpl; lia.
  - rewrite Hw. simpl. split; [done|lia].
  - pose proof (total_insert stop_weight _ j _ (Taken (conn s)) Hj) as Ht. simpl in *. split; [done|lia].
  - pose proof (total_insert stop_weight _ j _ StopDone Hj) as Ht. simpl in *.
    split; [|lia]. split; [done|]. intros c' Hin. apply Hcl in Hin. destruct c; set_solver.
Qed.

(** All calls have returned and the worker has ended. *)
Definition over (s : server) : Prop :=
  finished s /\ (forall j p, stops s !! j = Some p -> p = StopDone) /\ (worker s = NoWorker \/ worker s = WorkerDone).

Lemma stopped_progress s : stopped s -> ~ over s -> exists s', move s s'.
Proof using Type.
  intros [Hst _] Hno.
  destruct (decide (map_Forall (fun _ p => start_weight p = 0) (starts s))) as [Hs|Hs].
  2: { apply map_not_Forall in Hs as (i & p & Hi & Hp); [|intros; apply _].
       destruct p as [|r|c|c|c m|c err|c err|err]; try done; eexists.
       - by apply (move_listen i None).
       - by eapply move_listened.
       - by eapply move_spawn.
       - by apply (move_read_err i c ErrClosed).
       - by eapply move_stoped.
       - by eapply move_deferred.
       - by eapply move_close. }
  destruct (decide (map_Forall (fun _ p => stop_weight p = 0) (stops s))) as [Ht|Ht].
  2: { apply map_not_Forall in Ht as (j & p & Hj & Hp); [|intros; apply _].
       destruct p as [|c|]; [|..]; try done; eexists; [by eapply move_stop_take|by eapply move_stop_close]. }
  destruct (worker s) as [| |m|] eqn:Hw.
  - destruct Hno. split_and!; [| |by left].
    + intros i p Hi. specialize (Hs i p Hi). destruct p; try done. eauto.
    + intros j p Hj. specialize (Ht j p Hj). by destruct p.
  - eexists. by apply move_worker_stop.
  - eexists. by apply move_return.
  - destruct Hno. split_and!; [| |by right].
    + intros i p Hi. specialize (Hs i p Hi). destruct p; try done. eauto.
    + intros j p Hj. specialize (Ht j p Hj). by destruct p.
Qed.

(** A server that was stopped and whose connection is closed ends: every move
    brings the end nearer, and until then there is one, if handlers return; no
    further datagram is read. *)
Theorem udp_ends s : (0 <= readChanSize cfg)%Z -> reachable s -> stopped s ->
  (forall s', move s s' -> stopped s' /\ measure s' < measure s /\ received s' = received s) /\
  (~ over s -> exists s', move s s').
Proof using Type.
  intros Hz Hr Hst. destruct (reachable_inv s Hz Hr) as (I & _ & _). split; [|by apply stopped_progress].
  intros s' Hm. destruct (stopped_move s s' I Hst Hm) as [H1 H2]. split_and!; [done|done|].
  destruct Hm as [i [] s ?|i r s ?| | i c ad d s Hi Hc| | | | | | | | | |]; try done.
  - unfold start_listened. destruct (stoped s); destruct r; done.
  - destruct Hc. apply Hst. rewrite (i_serve _ I i _ c Hi eq_refl). by left.
Qed.
End Server.

(** ** A server with one datagram *)

Module UdpDemo.
Definition cfg : config := NewServer [WithHandler true; WithReadChanSize 2].
Definition datagram : list Byte.byte := [Byte.x68; Byte.x69].
Definition s1 : server := start_begin 0 (initial (A := nat)).
Definition s2 : server := start_spawn 0 0 (start_listened 0 (inl 0) (start_listen 0 None s1)).
Definition s3 : server := enqueue_send 0 0 (newMessage cfg 7 datagram) (read_ok cfg 0 0 7 datagram s2).
Definition s4 : server := worker_take cfg (newMessage cfg 7 datagram) [] s3.
Definition s5 : server := start_begin 1 (stop_begin 0 s4).

Lemma s5_reachable : reachable cfg s5.
Proof.
  eapply rtc_l; [left; by apply (call_start 0)|]. eapply rtc_l; [right; by apply (move_listen cfg 0 None)|].
  eapply rtc_l; [right; by apply (move_listened cfg 0 (inl 0))|]. eapply rtc_l; [right; by apply (move_spawn cfg 0 0)|].
  eapply rtc_l; [right; by apply (move_read cfg 0 0 7 datagram)|].
  eapply rtc_l; [right; by apply (move_send cfg 0 0 (newMessage cfg 7 datagram))|].
  eapply rtc_l; [right; by apply (move_take cfg (newMessage cfg 7 datagram) [])|].
  eapply rtc_l; [left; by apply (call_stop 0)|]. eapply rtc_l; [left; by apply (call_start 1)|]. apply rtc_refl.
Qed.

End UdpDemo.
