(* ===== verification/CloudEvents.v ===== *)
(** * CloudEvents over AMQP 0.9.1, and their dispatcher: [src/cloudevents]

    [protocol/amqp091] writes an event into the properties, headers and body of a
    message and reads it back, sends and receives such messages; the goroutine that
    passes deliveries on is a transition system.  [eventdispatcher] calls the
    listeners of an event's type in an error group ([Fanout]).  The attributes of
    an event, the validation and formatting of their values and the formats of
    structured events are the CloudEvents library's: a class with laws. *)

From S2P Require Import Prelude GoErrors GoCase Programs Parallel Fanout.
From stdpp Require Import gmap strings.
From stdpp Require Import options.
From Stdlib Require Import Ascii.
Set Default Proof Using "Type*".
Local Open Scope string_scope.
Local Open Scope list_scope.

(** ** The library's types *)

(** Values of attributes and headers, with [nil]; the numbers are at their width,
    [VTimestamp] is [types.Timestamp] and [VTime] a [time.Time]. *)
Inductive any_ (URL : Type) :=
| VNil | VBool (b : bool) | VInt32 (n : Z) | VInt64 (n : Z) | VString (s : string) | VBytes (b : string)
| VURI (u : URL) | VURIRef (u : URL) | VTimestamp (t : Z) | VTime (t : Z).
Arguments VNil {URL}.
Arguments VBool {URL} _.
Arguments VInt32 {URL} _.
Arguments VInt64 {URL} _.
Arguments VString {URL} _.
Arguments VBytes {URL} _.
Arguments VURI {URL} _.
Arguments VURIRef {URL} _.
Arguments VTimestamp {URL} _.
Arguments VTime {URL} _.

(** [types.URI] with its [String], [types.Validate], [types.Format], the attributes
    of version 1.0 of [spec.VS], and [format.Lookup] with [MediaType]. *)
Class Sdk := {
  URL : Type; URL_String : URL -> string;
  Validate : any_ URL -> any_ URL + error;
  Format : any_ URL -> string + error;
  spec_Attribute : Type; spec_Kind : Type;
  Attribute_Name : spec_Attribute -> string;
  PrefixedName : spec_Attribute -> string;
  is_DataContentType : spec_Attribute -> bool;
  version_Attribute : string -> option spec_Attribute;
  AttributeFromKind : spec_Kind -> option spec_Attribute;
  format_Format : Type; MediaType : format_Format -> string;
  format_Lookup : string -> option format_Format
}.

(** [strings.CutPrefix(k, prefix)] for [prefix = "ce-"]; [TrimPrefix] is the same on
    keys that have the prefix. *)
Definition prefix : string := "ce-".
Definition cut_prefix (k : string) : option string :=
  match k with String "c"%char (String "e"%char (String "-"%char after)) => Some after | _ => None end.

(** ** [write_message.go] *)

Section Amqp.
Context `{!Sdk} (lower_unicode : string -> string).
Local Abbreviation any := (any_ URL).
Local Abbreviation ToLower := (ToLower lower_unicode).

Definition is_nil (v : any) : bool := match v with VNil => true | _ => false end.

Definition safeAMQPHeadersUnwrap (value : any) : any + error :=
  match Validate value with
  | inr err => inr err
  | inl v =>
      inl (match v with
           | VURI tv => VString (URL_String tv)
           | VURIRef tv => VString (URL_String tv)
           | VTimestamp tv => VTime tv
           | VInt32 tv => VInt64 tv
           | _ => v
           end)
  end.

(** [amqp.Publishing], as far as it is set; [Headers] may be a nil map. *)
Record Publishing := mkPublishing {
  DeliveryMode : Z; ContentType : string; Headers : option (gmap string any); Body : string
}.

(** What a call on a writer comes to; a failed call leaves what it wrote, and
    writing to a nil map panics. *)
Inductive res (W : Type) := ROk (w : W) | RErr (w : W) (err : error) | RPanic.
Arguments ROk {W} _.
Arguments RErr {W} _ _.
Arguments RPanic {W}.

Definition rbind {W} (r : res W) (f : W -> res W) : res W :=
  match r with ROk w => f w | _ => r end.

Definition with_content_type (s : string) (m : Publishing) : Publishing :=
  mkPublishing (DeliveryMode m) s (Headers m) (Body m).
Definition with_headers (h : gmap string any) (m : Publishing) : Publishing :=
  mkPublishing (DeliveryMode m) (ContentType m) (Some h) (Body m).
Definition with_body (b : string) (m : Publishing) : Publishing :=
  mkPublishing (DeliveryMode m) (ContentType m) (Headers m) b.

Definition SetAttribute (attribute : spec_Attribute) (value : any) (m : Publishing) : res Publishing :=
  if is_DataContentType attribute then
    if is_nil value then ROk (with_content_type "" m)
    else match Format value with
         | inr err => RErr m err
         | inl s => ROk (with_content_type s m)
         end
  else if is_nil value then
    ROk (match Headers m with
         | Some h => with_headers (delete (prefix +:+ Attribute_Name attribute) h) m
         | None => m
         end)
  else match safeAMQPHeadersUnwrap value with
       | inr err => RErr m err
       | inl v =>
           match Headers m with
           | Some h => ROk (with_headers (<[prefix +:+ Attribute_Name attribute := v]> h) m)
           | None => RPanic
           end
       end.

Definition SetExtension (name : string) (value : any) (m : Publishing) : res Publishing :=
  if is_nil value then ROk m
  else
    let h := default ∅ (Headers m) in
    match safeAMQPHeadersUnwrap value with
    | inr err => RErr (with_headers h m) err
    | inl val => ROk (with_headers (<[prefix +:+ name := val]> h) m)
    end.

(** [io.ReadAll] of a reader gives its bytes or an error. *)
Definition SetData (data : string + error) (m : Publishing) : res Publishing :=
  match data with inr err => RErr m err | inl bytes => ROk (with_body bytes m) end.

Definition SetStructuredEvent (fmt : format_Format) (event : option (string + error)) (m : Publishing)
    : res Publishing :=
  match event with
  | None => ROk m
  | Some (inr err) => RErr m err
  | Some (inl bytes) => ROk (with_body bytes (with_content_type (MediaType fmt) m))
  end.

Definition Start (m : Publishing) : res Publishing :=
  ROk (match Headers m with None => with_headers ∅ m | Some _ => m end).
Definition End_ (m : Publishing) : res Publishing := ROk m.

(** *** Calls on writers *)

(** The interfaces [binding.BinaryWriter] and [binding.StructuredWriter] of a writer
    with the state [W]. *)
Record Writer (W : Type) := mkWriter {
  wStart : W -> res W;
  wSetAttribute : spec_Attribute -> any -> W -> res W;
  wSetExtension : string -> any -> W -> res W;
  wSetData : string + error -> W -> res W;
  wEnd : W -> res W;
  wSetStructuredEvent : format_Format -> option (string + error) -> W -> res W
}.
Arguments wStart {W} _ _.
Arguments wSetAttribute {W} _ _ _ _.
Arguments wSetExtension {W} _ _ _ _.
Arguments wSetData {W} _ _ _.
Arguments wEnd {W} _ _.
Arguments wSetStructuredEvent {W} _ _ _ _.

(** [amqpMessageWriter]. *)
Definition amqpMessageWriter : Writer Publishing :=
  mkWriter _ Start SetAttribute SetExtension SetData End_ SetStructuredEvent.

Inductive wcall :=
| CStart | CSetAttribute (a : spec_Attribute) (v : any) | CSetExtension (name : string) (v : any)
| CSetData (data : string + error) | CEnd | CSetStructured (fmt : format_Format) (event : option (string + error)).

Definition perform {W} (enc : Writer W) (c : wcall) : W -> res W :=
  match c with
  | CStart => wStart enc
  | CSetAttribute a v => wSetAttribute enc a v
  | CSetExtension name v => wSetExtension enc name v
  | CSetData data => wSetData enc data
  | CEnd => wEnd enc
  | CSetStructured fmt event => wSetStructuredEvent enc fmt event
  end.

(** The calls in order, up to the first that fails. *)
Fixpoint performs {W} (enc : Writer W) (cs : list wcall) (w : W) : res W :=
  match cs with
  | [] => ROk w
  | c :: cs => rbind (perform enc c w) (performs enc cs)
  end.

(** [writeMessage]: [binding.Write] calls the writers, which share the message, as
    the event asks for, and returns the first error. *)
Section WriteMessage.
Context {In : Type} (Write : In -> list wcall).

Definition writeMessage (in_ : In) (amqpMessage : Publishing) : res Publishing :=
  performs amqpMessageWriter (Write in_) amqpMessage.

(** ** [sender.go] *)

Record Sender := mkSender {
  exchange : string; routingKey : string; mandatory : bool; immediate : bool; persistent : bool
}.

Definition WithMandatory (b : bool) (s : Sender) : Sender + error :=
  inl (mkSender (exchange s) (routingKey s) b (immediate s) (persistent s)).
Definition WithImmediate (b : bool) (s : Sender) : Sender + error :=
  inl (mkSender (exchange s) (routingKey s) (mandatory s) b (persistent s)).
Definition WithPersistent (b : bool) (s : Sender) : Sender + error :=
  inl (mkSender (exchange s) (routingKey s) (mandatory s) (immediate s) b).

(** Options in order, up to the first that fails. *)
Fixpoint apply_opts {S} (opts : list (S -> S + error)) (s : S) : S + error :=
  match opts with
  | [] => inl s
  | opt :: opts => match opt s with inr err => inr err | inl s => apply_opts opts s end
  end.

Definition NewSender (exchange routingKey : string) (opts : list (Sender -> Sender + error)) : Sender + error :=
  apply_opts opts (mkSender exchange routingKey false false true).

(** The calls of [Send] that leave the package: publishing, and finishing the
    message it was given; they answer with an error or [nil]. *)
Inductive send_rq :=
| PublishWithContext (exchange key : string) (mandatory immediate : bool) (msg : Publishing)
| Finish_in (err : option error).

Local Abbreviation sprog := (prog send_rq (option error)).
Local Open Scope prog_scope.

Definition Transient : Z := 1.
Definition Persistent : Z := 2.

(** The deferred [Finish] runs last with the named result, also when writing the
    message panics, where the result is still [nil]; [None] is the panic. *)
Definition Send (s : Sender) (in_ : In) : sprog (option (option error)) :=
  let finish (err : option error) : sprog (option (option error)) :=
    Call (Finish_in err) (fun _ => Ret (Some err)) in
  let msg := mkPublishing (if negb (persistent s) then Transient else Persistent) "" None "" in
  match writeMessage in_ msg with
  | RPanic => Call (Finish_in None) (fun _ => Ret None)
  | RErr _ err => finish (Some err)
  | ROk msg =>
      Call (PublishWithContext (exchange s) (routingKey s) (mandatory s) (immediate s) msg) (fun err => finish err)
  end.
End WriteMessage.

(** ** [message.go] *)

Record Delivery := mkDelivery { dContentType : string; dHeaders : option (gmap string any); dBody : string }.

Record Message := mkMessage { delivery : Delivery; format : option format_Format }.

Definition newMessage (d : Delivery) : Message := mkMessage d (format_Lookup (dContentType d)).

Inductive Encoding := EncodingStructured | EncodingBinary.
Definition ErrNotStructured : error := ErrNew "message is not in structured mode".
Definition ErrNotBinary : error := ErrNew "message is not in binary mode".

Definition ReadEncoding (m : Message) : Encoding :=
  match format m with Some _ => EncodingStructured | None => EncodingBinary end.

Definition ReadStructured {W} (enc : Writer W) (m : Message) (w : W) : res W :=
  match format m with
  | None => RErr w ErrNotStructured
  | Some f => wSetStructuredEvent enc f (Some (inl (dBody (delivery m)))) w
  end.

(** The loop of [ReadBinary] over the headers, in the order [range] takes. *)
Fixpoint read_headers {W} (enc : Writer W) (headers : list (string * any)) (w : W) : res W :=
  match headers with
  | [] => ROk w
  | (k, v) :: headers =>
      rbind
        (match cut_prefix k with
         | Some after =>
             match version_Attribute after with
             | Some attribute => wSetAttribute enc attribute v w
             | None => wSetExtension enc (ToLower after) v w
             end
         | None => ROk w
         end) (read_headers enc headers)
  end.

Definition ReadBinary {W} (enc : Writer W) (m : Message) (order : list (string * any)) (w : W) : res W :=
  match format m with
  | Some _ => RErr w ErrNotBinary
  | None => rbind (read_headers enc order w) (wSetData enc (inl (dBody (delivery m))))
  end.

(** An order in which [range] may visit the headers of a message. *)
Definition range_of (m : Message) (order : list (string * any)) : Prop :=
  order ≡ₚ map_to_list (default ∅ (dHeaders (delivery m))).

Definition header (m : Message) (k : string) : any := default VNil (dHeaders (delivery m) ≫= (.!! k)).

Definition GetAttribute (kind : spec_Kind) (m : Message) : option spec_Attribute * any :=
  match AttributeFromKind kind with
  | Some attribute => (Some attribute, header m (PrefixedName attribute))
  | None => (None, VNil)
  end.

Definition GetExtension (name : string) (m : Message) : any := header m (prefix +:+ ToLower name).

(** [Ack(multiple)] and [Nack(multiple, requeue)]. *)
Inductive settle := Ack (multiple : bool) | Nack (multiple requeue : bool).
Definition Finish (err : option error) : settle :=
  match err with Some _ => Nack false true | None => Ack false end.
End Amqp.

Arguments ROk {W} _.
Arguments RErr {W} _ _.
Arguments RPanic {W}.
Arguments perform {_ W} _ _ _.
Arguments performs {_ W} _ _ _.
Arguments wSetData {_ W} _ _ _.
Arguments wSetAttribute {_ W} _ _ _ _.
Arguments wSetExtension {_ W} _ _ _ _.

(** *** What is documented of the library *)

Definition int32 (n : Z) : Prop := (- 2 ^ 31 <= n < 2 ^ 31)%Z.

(** Validation gives a value of one of the types of CloudEvents, and accepts the
    native values of headers; integers have 32 bits. *)
Class SdkLaws `{!Sdk} := {
  validate_law v u : Validate v = inl u ->
    match u with
    | VNil | VInt64 _ | VTime _ => False
    | VInt32 n => int32 n
    | _ => True
    end;
  validate_bool b : Validate (VBool b) = inl (VBool b);
  validate_int n : int32 n -> Validate (VInt64 n) = inl (VInt32 n);
  validate_string s : Validate (VString s) = inl (VString s);
  validate_bytes b : Validate (VBytes b) = inl (VBytes b);
  validate_time t : Validate (VTime t) = inl (VTimestamp t)
}.

Section AmqpProofs.
Context `{!Sdk, !SdkLaws} (lower_unicode : string -> string).
Local Abbreviation any := (any_ URL).
Local Abbreviation ToLower := (ToLower lower_unicode).
Implicit Types (v : any) (m : Publishing).

(** A header's value is not [nil] and is written again as it is. *)
Lemma unwrap_stable v v' :
  safeAMQPHeadersUnwrap v = inl v' -> is_nil v' = false /\ safeAMQPHeadersUnwrap v' = inl v'.
Proof.
  unfold safeAMQPHeadersUnwrap. destruct (Validate v) as [u|err] eqn:E; [|done]. intros [= <-].
  apply validate_law in E. destruct u; try done; (split; [done|]);
    by rewrite ?validate_bool, ?validate_int, ?validate_string, ?validate_bytes, ?validate_time by done.
Qed.

(** *** What is written *)

Inductive entry := EAttr (a : spec_Attribute) (v : any) | EExt (name : string) (v : any).

Definition call_of (e : entry) : wcall :=
  match e with EAttr a v => CSetAttribute a v | EExt name v => CSetExtension name v end.

Definition key_of (e : entry) : string :=
  match e with EAttr a _ => prefix +:+ Attribute_Name a | EExt name _ => prefix +:+ name end.
Definition value_of (e : entry) : any := match e with EAttr _ v | EExt _ v => v end.
Definition content_type_entry (e : entry) : bool :=
  match e with EAttr a _ => is_DataContentType a | EExt _ _ => false end.

(** The header an entry becomes, if any. *)
Definition header_of (e : entry) : option (string * any) :=
  if content_type_entry e || is_nil (value_of e) then None
  else match safeAMQPHeadersUnwrap (value_of e) with inl v => Some (key_of e, v) | inr _ => None end.

(** The calls of an event in binary mode. *)
Definition binary_calls (entries : list entry) (body : string) : list wcall :=
  CStart :: (call_of <$> entries) ++ [CSetData (inl body); CEnd].

(** One entry adds its header. *)
Lemma perform_entry e m m' h :
  Headers m = Some h -> h !! key_of e = None -> perform amqpMessageWriter (call_of e) m = ROk m' ->
  Headers m' = Some (match header_of e with Some (k, v) => <[k := v]> h | None => h end) /\ Body m' = Body m /\
  (content_type_entry e = false -> ContentType m' = ContentType m).
Proof using Type.
  intros Hh Hk. destruct e as [a v|name v]; cbn [call_of perform amqpMessageWriter wSetAttribute wSetExtension];
    unfold SetAttribute, SetExtension, header_of; simpl.
  - destruct (is_DataContentType a) eqn:Ea; simpl.
    { destruct (is_nil v); [|destruct (Format v)]; by intros [= <-]. }
    destruct (is_nil v) eqn:Ev; simpl.
    { rewrite Hh. intros [= <-]. simpl. rewrite delete_id by done. done. }
    destruct (safeAMQPHeadersUnwrap v); [|done]. rewrite Hh. by intros [= <-].
  - destruct (is_nil v) eqn:Ev; simpl; [by intros [= <-]|].
    rewrite Hh. destruct (safeAMQPHeadersUnwrap v); [|done]. by intros [= <-].
Qed.

Lemma header_of_key e k v : header_of e = Some (k, v) -> k = key_of e.
Proof using Type.
  unfold header_of. destruct (_ || _); [done|]. destruct (safeAMQPHeadersUnwrap _); [|done]. by intros [= <- _].
Qed.

Lemma header_of_elem k entries : k ∈ (omap header_of entries).*1 -> k ∈ key_of <$> entries.
Proof using Type.
  intros Hin. apply list_elem_of_fmap in Hin as ([k' v'] & -> & Hin).
  apply list_elem_of_omap in Hin as (e' & He' & Hk'). apply header_of_key in Hk'. simpl. subst k'.
  apply list_elem_of_fmap. eauto.
Qed.

Lemma header_keys entries : NoDup (key_of <$> entries) -> NoDup (omap header_of entries).*1.
Proof using Type.
  induction entries as [|e es IH]; [constructor|]. intros [Hni Hnd]%NoDup_cons.
  simpl. destruct (header_of e) as [[k v]|] eqn:E; [|auto]. simpl. constructor; [|auto].
  apply header_of_key in E. subst k. intros Hin. by apply Hni, header_of_elem.
Qed.

Lemma performs_entries entries : forall m m' h,
  Headers m = Some h -> NoDup (key_of <$> entries) -> (forall e, e ∈ entries -> h !! key_of e = None) ->
  performs amqpMessageWriter (call_of <$> entries) m = ROk m' ->
  Headers m' = Some (list_to_map (omap header_of entries) ∪ h) /\ Body m' = Body m.
Proof using Type.
  induction entries as [|e entries IH]; intros m m' h Hh Hnd Hfresh; cbn [fmap list_fmap performs].
  { intros [= <-]. split; [|done]. simpl. by rewrite (left_id_L ∅ (∪)). }
  destruct (perform amqpMessageWriter (call_of e) m) as [m1| |] eqn:E; simpl; [|done|done].
  apply NoDup_cons in Hnd as [Hni Hnd].
  apply (perform_entry e m m1 h Hh) in E as (Hh1 & Hb1 & _); [|apply Hfresh; left].
  intros Hrest. apply (IH m1 m' _ Hh1 Hnd) in Hrest as [Hh' Hb']; [|].
  - rewrite Hh', Hb', Hb1. split; [|done]. f_equal. simpl.
    destruct (header_of e) as [[k v]|] eqn:Ehd; [|done]. simpl.
    rewrite <- insert_union_r; [by rewrite insert_union_l|].
    apply not_elem_of_list_to_map_1. intros Hin. apply Hni. apply header_of_key in Ehd. subst k.
    by apply header_of_elem.
  - intros e' He'. assert (key_of e <> key_of e') as Hne.
    { intros Heq. apply Hni. rewrite Heq. apply list_elem_of_fmap. eauto. }
    destruct (header_of e) as [[k v]|] eqn:Ehd; [|apply Hfresh; by right].
    apply header_of_key in Ehd. subst k. rewrite lookup_insert_ne by done. apply Hfresh. by right.
Qed.

Lemma performs_app {W} (enc : Writer W) cs cs' w :
  performs enc (cs ++ cs') w = rbind (performs enc cs w) (performs enc cs').
Proof using Type.
  revert w. induction cs as [|c cs IH]; intros w; [done|]. simpl. destruct (perform enc c w); simpl; auto.
Qed.

(** Writing an event's entries and data succeeds only with these headers. *)
Lemma write_binary entries body dm m :
  NoDup (key_of <$> entries) ->
  performs amqpMessageWriter (binary_calls entries body) (mkPublishing dm "" None "") = ROk m ->
  Headers m = Some (list_to_map (omap header_of entries)) /\ Body m = body.
Proof using Type.
  intros Hnd. unfold binary_calls. cbn [performs perform amqpMessageWriter wStart Start rbind Headers].
  set (m0 := with_headers ∅ _). rewrite performs_app.
  destruct (performs amqpMessageWriter (call_of <$> entries) m0) as [m1| |] eqn:E; simpl; [|done|done].
  intros [= <-]. apply (performs_entries entries m0 m1 ∅ eq_refl Hnd) in E as [Hh _]; [|intros; apply lookup_empty].
  simpl. by rewrite Hh, (right_id_L ∅ (∪)).
Qed.

(** *** What is read *)

(** The call for one header. *)
Definition read_call (kv : string * any) : option wcall :=
  after ← cut_prefix kv.1;
  Some (match version_Attribute after with
        | Some a => CSetAttribute a kv.2
        | None => CSetExtension (ToLower after) kv.2
        end).

(** Reading makes these calls in order, up to the first that fails. *)
Lemma read_headers_calls {W} (enc : Writer W) order w :
  read_headers lower_unicode enc order w = performs enc (omap read_call order) w.
Proof using Type.
  revert w. induction order as [|[k v] order IH]; intros w; [done|].
  cbn [read_headers]. change (omap read_call ((k, v) :: order))
    with (match read_call (k, v) with Some c => c :: omap read_call order | None => omap read_call order end).
  unfold read_call. simpl. destruct (cut_prefix k) as [after|]; simpl; [|apply IH].
  destruct (version_Attribute after) as [a|]; simpl;
    [destruct (wSetAttribute enc a v w)|destruct (wSetExtension enc (ToLower after) v w)]; simpl; auto.
Qed.

Lemma read_binary_calls {W} (enc : Writer W) d order w :
  format_Lookup (dContentType d) = None ->
  ReadBinary lower_unicode enc (newMessage d) order w
  = performs enc (omap read_call order ++ [CSetData (inl (dBody d))]) w.
Proof using Type.
  intros Hf. unfold ReadBinary. simpl. rewrite Hf, read_headers_calls, performs_app.
  destruct (performs enc (omap read_call order) w) as [w1| |]; simpl; [|done|done].
  by destruct (wSetData enc _ w1).
Qed.

(** The attributes are those of version 1.0, and the names of extensions are in
    lower case and no attribute's. *)
Definition entry_ok (e : entry) : Prop :=
  match e with
  | EAttr a _ => version_Attribute (Attribute_Name a) = Some a
  | EExt name _ => version_Attribute name = None /\ ToLower name = name
  end.

(** A header's value after it has travelled: AMQP 0.9.1 has timestamps in whole
    seconds, the [Unix] of a [time.Time] (here in nanoseconds), and its tables keep
    the other values as they are. *)
Definition on_wire v : any :=
  match v with VTime t => VTime (t `div` Second * Second)%Z | _ => v end.

(** An entry as it is read again, and the call with which it is. *)
Definition settled (e : entry) : option entry :=
  if content_type_entry e || is_nil (value_of e) then None
  else match safeAMQPHeadersUnwrap (value_of e) with
       | inl v => Some (match e with EAttr a _ => EAttr a (on_wire v) | EExt name _ => EExt name (on_wire v) end)
       | inr _ => None
       end.
Definition reread (e : entry) : option wcall := call_of <$> settled e.

Lemma cut_prefix_ce s : cut_prefix (prefix +:+ s) = Some s.
Proof using Type. done. Qed.

(** A header as it arrives. *)
Definition arriving (kv : string * any) : string * any := (kv.1, on_wire kv.2).

Lemma read_call_entry e : entry_ok e -> (arriving <$> header_of e) ≫= read_call = reread e.
Proof using Type.
  unfold header_of, reread, settled. intros Hok. destruct (_ || _); [done|].
  destruct (safeAMQPHeadersUnwrap _) as [v|]; [|done]. simpl. unfold read_call, arriving. cbn [fst snd].
  destruct e as [a u|name u]; cbn [key_of entry_ok] in *; rewrite cut_prefix_ce; simpl; [by rewrite Hok|].
  destruct Hok as [-> ->]. done.
Qed.

Lemma reread_header e k v : header_of e = Some (k, v) ->
  reread e = Some (call_of (match e with EAttr a _ => EAttr a (on_wire v) | EExt name _ => EExt name (on_wire v) end)).
Proof using Type.
  unfold header_of, reread, settled. destruct (_ || _); [done|].
  destruct (safeAMQPHeadersUnwrap _) as [u|]; [|done]. intros [= _ <-]. by destruct e.
Qed.

(** Only the fraction of a time is lost. *)
Lemma on_wire_exact v : on_wire v = v <-> forall t, v = VTime t -> (Second | t)%Z.
Proof using Type.
  destruct v as [| | | | | | | | |t]; simpl; try (by split). split.
  - intros [= E] ? [= <-]. exists (t `div` Second)%Z. by symmetry.
  - intros Hdv. f_equal. destruct (Hdv t eq_refl) as [q ->]. by rewrite Z.div_mul.
Qed.

Lemma omap_omap {A B C} (f : A -> option B) (g : B -> option C) (l : list A) : omap g (omap f l) = omap (fun x => f x ≫= g) l.
Proof using Type.
  induction l as [|x l IH]; [done|]. simpl. destruct (f x) as [y|]; simpl; [|done].
  destruct (g y); simpl; [f_equal|]; exact IH.
Qed.

(** A message delivered as AMQP 0.9.1 carries it. *)
Definition delivered (m : Publishing) (d : Delivery) : Prop :=
  dContentType d = ContentType m /\ dHeaders d = (fun h : gmap string any => on_wire <$> h) <$> Headers m /\ dBody d = Body m.

Lemma arriving_headers (l : list (string * any)) :
  on_wire <$> (list_to_map l : gmap string any) = list_to_map (arriving <$> l).
Proof using Type.
  induction l as [|[k v] l IH]; [apply fmap_empty|]. simpl. by rewrite fmap_insert, IH.
Qed.

Lemma arriving_keys (l : list (string * any)) : (arriving <$> l).*1 = l.*1.
Proof using Type. induction l as [|[k v] l IH]; [done|]. exact (f_equal (cons k) IH). Qed.

Lemma read_written entries body dm m d order :
  NoDup (key_of <$> entries) -> Forall entry_ok entries ->
  performs amqpMessageWriter (binary_calls entries body) (mkPublishing dm "" None "") = ROk m ->
  delivered m d -> range_of (newMessage d) order ->
  omap read_call order ≡ₚ omap reread entries /\ dBody d = body.
Proof using Type.
  intros Hnd Hok Hw (_ & Hh & Hb) Hr. apply write_binary in Hw as [HhM HbM]; [|done].
  rewrite Hb, HbM. split; [|done]. unfold range_of in Hr. simpl in Hr. rewrite Hh, HhM in Hr. simpl in Hr.
  rewrite arriving_headers, map_to_list_to_map in Hr; [|rewrite arriving_keys; by apply header_keys].
  rewrite Hr. apply reflexive_eq. clear -Hok. induction Hok as [|e es He _ IH]; [done|].
  simpl. rewrite <- (read_call_entry e He). destruct (header_of e) as [kv|]; simpl; [|exact IH].
  destruct (read_call (arriving kv)); [f_equal|]; exact IH.
Qed.

(** C39: an event written in binary mode and read from its delivery makes, on any
    writer and in any order of the headers, the calls it was written with: each
    attribute and extension that is not [nil] once, with the value of its header,
    then its data.  Two things do not come back.  The attribute of the content
    type is written to the message's properties and never read; and a time is
    read without its fraction of a second, which AMQP 0.9.1 does not carry: values
    other than times, and times in whole seconds, are read as they were written. *)
Theorem amqp_roundtrip {W} (enc : Writer W) entries body dm m d order w :
  NoDup (key_of <$> entries) -> Forall entry_ok entries ->
  performs amqpMessageWriter (binary_calls entries body) (mkPublishing dm "" None "") = ROk m ->
  delivered m d -> format_Lookup (dContentType d) = None -> range_of (newMessage d) order ->
  (exists cs, cs ≡ₚ omap reread entries /\
    ReadBinary lower_unicode enc (newMessage d) order w = performs enc (cs ++ [CSetData (inl body)]) w) /\
  (forall e k v, e ∈ entries -> header_of e = Some (k, v) ->
     reread e = Some (call_of (match e with EAttr a _ => EAttr a (on_wire v) | EExt name _ => EExt name (on_wire v) end)) /\
     (on_wire v = v <-> forall t, v = VTime t -> (Second | t)%Z)).
Proof using Type.
  intros Hnd Hok Hw Hd Hf Hr. destruct (read_written _ _ _ _ _ _ Hnd Hok Hw Hd Hr) as [Hcs <-]. split.
  - exists (omap read_call order). split; [done|]. by apply read_binary_calls.
  - intros e k v _ He. split; [by apply reread_header with k|apply on_wire_exact].
Qed.

(** *** Relaying *)

Lemma on_wire_stable v :
  is_nil v = false /\ safeAMQPHeadersUnwrap v = inl v ->
  is_nil (on_wire v) = false /\ safeAMQPHeadersUnwrap (on_wire v) = inl (on_wire v).
Proof.
  intros [Hn Hv]. destruct v; try done. simpl. unfold safeAMQPHeadersUnwrap. by rewrite validate_time.
Qed.

Lemma settled_again e e' : settled e = Some e' ->
  content_type_entry e' = false /\ is_nil (value_of e') = false /\
  safeAMQPHeadersUnwrap (value_of e') = inl (value_of e') /\ header_of e' = arriving <$> header_of e /\
  key_of e' = key_of e.
Proof.
  unfold settled, header_of. destruct (content_type_entry e) eqn:Ec, (is_nil (value_of e)) eqn:En; simpl; try done.
  destruct (safeAMQPHeadersUnwrap (value_of e)) as [v|] eqn:Ev; [|done]. intros [= <-].
  apply unwrap_stable in Ev as [Hnil Hv]%on_wire_stable.
  destruct e; simpl in *; rewrite ?Ec; simpl; rewrite Hnil, Hv; done.
Qed.

(** Entries that were read are written without an error. *)
Lemma performs_settled es : forall m h,
  Headers m = Some h -> Forall (fun e => exists e0, settled e0 = Some e) es ->
  exists m', performs amqpMessageWriter (call_of <$> es) m = ROk m' /\
    ContentType m' = ContentType m /\ DeliveryMode m' = DeliveryMode m.
Proof.
  induction es as [|e es IH]; intros m h Hh Hes; [by exists m|].
  apply Forall_cons in Hes as [[e0 He] Hes]. apply settled_again in He as (Hc & Hn & Hv & _).
  assert (exists m1 h1, perform amqpMessageWriter (call_of e) m = ROk m1 /\ Headers m1 = Some h1 /\
    ContentType m1 = ContentType m /\ DeliveryMode m1 = DeliveryMode m) as (m1 & h1 & E & Hh1 & <- & <-).
  { destruct e as [a v|name v]; simpl in *; unfold SetAttribute, SetExtension; [rewrite Hc|]; rewrite Hn, Hv, Hh; simpl; eauto 10. }
  cbn [fmap list_fmap performs]. rewrite E. simpl. by apply (IH m1 h1).
Qed.

Lemma settled_headers es entries :
  es ≡ₚ omap settled entries -> omap header_of es ≡ₚ arriving <$> omap header_of entries.
Proof.
  intros ->. rewrite omap_omap. apply reflexive_eq. induction entries as [|e entries IH]; [done|]. simpl.
  assert (settled e ≫= header_of = arriving <$> header_of e) as ->.
  { destruct (settled e) as [e'|] eqn:E; simpl; [by apply settled_again in E as (_ & _ & _ & ? & _)|].
    unfold settled, header_of in *. destruct (_ || _); [done|]. by destruct (safeAMQPHeadersUnwrap _). }
  destruct (header_of e) as [kv|]; simpl; [f_equal|]; exact IH.
Qed.

Lemma settled_keys entries : NoDup (key_of <$> entries) -> NoDup (key_of <$> omap settled entries).
Proof.
  induction entries as [|e es IH]; [done|]. intros [Hni Hnd]%NoDup_cons. simpl.
  destruct (settled e) as [e'|] eqn:E; [|auto]. simpl. constructor; [|auto].
  apply settled_again in E as (_ & _ & _ & _ & ->). intros Hin. apply Hni.
  apply list_elem_of_fmap in Hin as (x & -> & Hin). apply list_elem_of_omap in Hin as (y & Hy & E).
  apply settled_again in E as (_ & _ & _ & _ & ->). apply list_elem_of_fmap. eauto.
Qed.

(** A message that is read and written again, as [Send] does with a received
    message, is written without an error and with the headers and body it was
    delivered with; its content type is lost, whatever it was. *)
Theorem amqp_relay entries body dm m d order :
  NoDup (key_of <$> entries) -> Forall entry_ok entries ->
  performs amqpMessageWriter (binary_calls entries body) (mkPublishing dm "" None "") = ROk m ->
  delivered m d -> format_Lookup (dContentType d) = None -> range_of (newMessage d) order ->
  rbind (Start (mkPublishing dm "" None "")) (ReadBinary lower_unicode amqpMessageWriter (newMessage d) order)
  = ROk (mkPublishing dm "" (dHeaders d) body).
Proof.
  intros Hnd Hok Hw Hd Hf Hr. destruct (read_written _ _ _ _ _ _ Hnd Hok Hw Hd Hr) as [Hcs Hb].
  assert (omap reread entries = call_of <$> omap settled entries) as Hmap.
  { clear. unfold reread. induction entries as [|e es IH]; [done|]. simpl. destruct (settled e); simpl; [f_equal|]; exact IH. }
  rewrite Hmap in Hcs. apply Permutation_map_inv in Hcs as (es & Hes & Hperm).
  cbn [Start rbind Headers]. set (m0 := with_headers ∅ _). rewrite read_binary_calls, Hes, Hb by done.
  assert (Forall (fun e => exists e0, settled e0 = Some e) es) as Hset.
  { apply Forall_forall. intros e He. rewrite <- Hperm in He. apply list_elem_of_omap in He as (e0 & _ & He). eauto. }
  assert (NoDup (key_of <$> es)) as Hnd' by (rewrite <- Hperm; by apply settled_keys).
  destruct (performs_settled es m0 ∅ eq_refl Hset) as (m1 & Hp & Hct & Hdm).
  rewrite performs_app. change (map call_of es) with (call_of <$> es). rewrite Hp. cbn [rbind performs perform amqpMessageWriter].
  apply (performs_entries es m0 m1 ∅ eq_refl Hnd') in Hp as [Hh Hbody]; [|intros; apply lookup_empty].
  destruct Hd as (_ & -> & _). apply write_binary in Hw as [-> _]; [|done]. rewrite (right_id_L ∅ (∪)) in Hh.
  simpl. unfold with_body. rewrite Hct, Hdm, Hh, arriving_headers. do 3 f_equal.
  apply list_to_map_proper; [by apply header_keys|by apply settled_headers].
Qed.

(** *** Lookups *)

Lemma written_header entries body dm m d k :
  NoDup (key_of <$> entries) ->
  performs amqpMessageWriter (binary_calls entries body) (mkPublishing dm "" None "") = ROk m -> delivered m d ->
  header (newMessage d) k
  = default VNil (on_wire <$> (list_to_map (omap header_of entries) : gmap string any) !! k).
Proof using Type.
  intros Hnd Hw (_ & Hh & _). apply write_binary in Hw as [Hm _]; [|done].
  unfold header. simpl. rewrite Hh, Hm. simpl. by rewrite lookup_fmap.
Qed.

(** An extension is found under its name in any case. *)
Theorem get_extension_written entries body dm m d name name' v v' :
  NoDup (key_of <$> entries) ->
  performs amqpMessageWriter (binary_calls entries body) (mkPublishing dm "" None "") = ROk m -> delivered m d ->
  EExt name v ∈ entries -> is_nil v = false -> safeAMQPHeadersUnwrap v = inl v' -> ToLower name' = name ->
  GetExtension lower_unicode name' (newMessage d) = on_wire v'.
Proof using Type.
  intros Hnd Hw Hd Hin Hn Hv Hl. unfold GetExtension. rewrite (written_header entries body dm m d _ Hnd Hw Hd), Hl.
  rewrite (elem_of_list_to_map_1 _ _ v'); [done|by apply header_keys|].
  apply list_elem_of_omap. exists (EExt name v). split; [done|]. unfold header_of. simpl. by rewrite Hn, Hv.
Qed.

(** An attribute is looked up under its name in [spec.VS], whose versions have no
    prefix, and so is not found in any message that was written here: neither
    [GetAttribute] nor a client that asks for the type of an event sees it. *)
Theorem get_attribute_absent entries body dm m d kind :
  NoDup (key_of <$> entries) ->
  performs amqpMessageWriter (binary_calls entries body) (mkPublishing dm "" None "") = ROk m -> delivered m d ->
  (forall a, AttributeFromKind kind = Some a -> PrefixedName a = Attribute_Name a /\ cut_prefix (Attribute_Name a) = None) ->
  GetAttribute kind (newMessage d) = (AttributeFromKind kind, VNil).
Proof using Type.
  intros Hnd Hw Hd Ha. unfold GetAttribute. destruct (AttributeFromKind kind) as [a|]; [|done].
  destruct (Ha a eq_refl) as [-> Hcut]. f_equal. rewrite (written_header entries body dm m d _ Hnd Hw Hd).
  rewrite not_elem_of_list_to_map_1; [done|]. intros Hin%header_of_elem.
  apply list_elem_of_fmap in Hin as (e & He & _). rewrite He in Hcut.
  destruct e; cbn [key_of] in Hcut; by rewrite cut_prefix_ce in Hcut.
Qed.

(** *** Sending *)

(** After [Start] no call writes to a nil map. *)
Lemma performs_no_panic cs : forall m h, Headers m = Some h -> performs amqpMessageWriter cs m <> RPanic.
Proof using Type.
  induction cs as [|c cs IH]; intros m h Hh; [done|]. cbn [performs].
  assert (match perform amqpMessageWriter c m with ROk m1 => exists h1, Headers m1 = Some h1 | RErr _ _ => True | RPanic => False end)
    as Hc; [|destruct (perform amqpMessageWriter c m) as [m1| |]; [|done|done]; destruct Hc as [h1 Hh1]; by apply (IH m1 h1)].
  destruct c as [|a v|name v|[b|err]| |f [[b|err]|]]; cbn [perform amqpMessageWriter wStart wSetAttribute wSetExtension wSetData wEnd
    wSetStructuredEvent]; unfold Start, SetAttribute, SetExtension, SetData, SetStructuredEvent, End_; simpl; rewrite ?Hh; simpl; eauto.
  - destruct (is_DataContentType a), (is_nil v); simpl; eauto.
    + destruct (Format v); simpl; eauto.
    + destruct (safeAMQPHeadersUnwrap v); simpl; eauto.
  - destruct (is_nil v); simpl; eauto. destruct (safeAMQPHeadersUnwrap v); simpl; eauto.
Qed.

(** A run of [Send] finishes the message it was given once and last, with the error
    it returns, and before that publishes at most once: exactly when the message was
    written, and it then returns what publishing answered.  Starting first, it does
    not panic. *)
Theorem send_finishes {In} (Write : In -> list wcall) (s : Sender) (in_ : In) h r :
  follows (Send Write s in_) h (Ret r) ->
  let msg0 := mkPublishing (if persistent s then Persistent else Transient) "" None "" in
  exists h0 a, h = h0 ++ [(Finish_in (default None r), a)] /\
    match writeMessage Write in_ msg0 with
    | ROk msg => exists err,
        h0 = [(PublishWithContext (exchange s) (routingKey s) (mandatory s) (immediate s) msg, err)] /\ r = Some err
    | RErr _ err => h0 = [] /\ r = Some (Some err)
    | RPanic => h0 = [] /\ r = None /\ head (Write in_) <> Some CStart
    end.
Proof using Type.
  intros Hf msg0. unfold Send in Hf. replace (mkPublishing _ "" None "") with msg0 in Hf by (by unfold msg0; destruct (persistent s)).
  destruct (writeMessage Write in_ msg0) as [msg|msg err|] eqn:E.
  - apply follows_Call in Hf as (err & h1 & -> & Hf). apply follows_Call in Hf as (a & h2 & -> & Hf).
    apply follows_Ret in Hf as [-> [= ->]].
    exists [(PublishWithContext (exchange s) (routingKey s) (mandatory s) (immediate s) msg, err)], a. eauto.
  - apply follows_Call in Hf as (a & h1 & -> & Hf). apply follows_Ret in Hf as [-> [= ->]]. by exists [], a.
  - apply follows_Call in Hf as (a & h1 & -> & Hf). apply follows_Ret in Hf as [-> [= ->]].
    exists [], a. split_and!; [done..|].
    intros Hhd. destruct (Write in_) as [|c cs] eqn:Ew; [done|]. injection Hhd as ->.
    unfold writeMessage in E. rewrite Ew in E. cbn [performs perform amqpMessageWriter wStart Start rbind Headers msg0] in E.
    by eapply performs_no_panic in E.
Qed.
End AmqpProofs.

(** ** [receiver.go] *)

Section Receiver.
Context {D : Type}.   (* [amqp.Delivery] *)

Record Receiver := mkReceiver { queue : string; consumer : string }.

Definition errNilChannel : error := ErrMsg "channel cannot be nil".

Definition WithConsumer (c : string) (r : Receiver) : Receiver + error := inl (mkReceiver (queue r) c).

Definition NewReceiver (channel : bool) (queue : string) (opts : list (Receiver -> Receiver + error)) : Receiver + error :=
  if negb channel then inr errNilChannel else apply_opts opts (mkReceiver queue "").

(** The goroutine of one [OpenInbound]: the deliveries waiting in its channel,
    whether the broker has closed that channel, the delivery it is sending, and
    whether it has ended. *)
Record forwarder := mkForwarder { pending : list D; closed : bool; sending : option D; ended : bool }.

(** What a call of [Receive] returned: a message of this delivery, [io.EOF], or the
    context's error. *)
Inductive received := Got (d : D) | EOF | CtxErr.

Record inbound := mkInbound {
  forwarders : list forwarder;
  incoming_closed : bool;              (* [close(r.incoming)] was called *)
  panicked : bool;
  pushed : list D;                     (* deliveries of the broker, in order *)
  results : list received
}.

Definition no_inbound : inbound := mkInbound [] false false [] [].

Definition set_forwarder (i : nat) (f : forwarder) (s : inbound) : inbound :=
  mkInbound (<[i := f]> (forwarders s)) (incoming_closed s) (panicked s) (pushed s) (results s).
Definition log (r : received) (s : inbound) : inbound :=
  mkInbound (forwarders s) (incoming_closed s) (panicked s) (pushed s) (results s ++ [r]).
Definition panic (s : inbound) : inbound :=
  mkInbound (forwarders s) (incoming_closed s) true (pushed s) (results s).

(** Steps of the broker, of the goroutines and of callers of [Receive].  A failed
    [Consume] changes nothing.  Closing a closed channel and sending on one panic. *)
Inductive inbound_step : inbound -> inbound -> Prop :=
| step_OpenInbound s : panicked s = false ->
    inbound_step s (mkInbound (forwarders s ++ [mkForwarder [] false None false]) (incoming_closed s) (panicked s)
                      (pushed s) (results s))
| step_push s i f d : panicked s = false -> forwarders s !! i = Some f -> closed f = false ->
    inbound_step s
      (let s := set_forwarder i (mkForwarder (pending f ++ [d]) false (sending f) (ended f)) s in
       mkInbound (forwarders s) (incoming_closed s) (panicked s) (pushed s ++ [d]) (results s))
| step_close s i f : panicked s = false -> forwarders s !! i = Some f ->
    inbound_step s (set_forwarder i (mkForwarder (pending f) true (sending f) (ended f)) s)
| step_take s i f d ds : panicked s = false -> forwarders s !! i = Some f ->
    ended f = false -> sending f = None -> pending f = d :: ds ->
    inbound_step s (set_forwarder i (mkForwarder ds (closed f) (Some d) false) s)
| step_end s i f : panicked s = false -> forwarders s !! i = Some f ->
    ended f = false -> sending f = None -> pending f = [] -> closed f = true ->
    inbound_step s
      (if incoming_closed s then panic s
       else
         let s := set_forwarder i (mkForwarder [] true None true) s in
         mkInbound (forwarders s) true (panicked s) (pushed s) (results s))
| step_send_closed s i f d : panicked s = false -> forwarders s !! i = Some f -> sending f = Some d ->
    incoming_closed s = true -> inbound_step s (panic s)
| step_Receive s i f d : panicked s = false -> forwarders s !! i = Some f -> sending f = Some d ->
    incoming_closed s = false ->
    inbound_step s (log (Got d) (set_forwarder i (mkForwarder (pending f) (closed f) None (ended f)) s))
| step_Receive_EOF s : panicked s = false -> incoming_closed s = true -> inbound_step s (log EOF s)
| step_Receive_ctx s : panicked s = false -> inbound_step s (log CtxErr s).

(** *** Receiving in order *)

Definition got (rs : list received) : list D := omap (fun r => match r with Got d => Some d | _ => None end) rs.

Lemma got_snoc rs r : got (rs ++ [r]) = got rs ++ match r with Got d => [d] | _ => [] end.
Proof using Type. unfold got. rewrite omap_app. by destruct r. Qed.

(** The receiver of one [OpenInbound]. *)
Record inbound_inv (s : inbound) : Prop := {
  inv_panic : panicked s = false;
  inv_shape : match forwarders s with
    | [] => pushed s = [] /\ got (results s) = [] /\ incoming_closed s = false
    | f :: _ =>
        pushed s = got (results s) ++ option_list (sending f) ++ pending f /\ incoming_closed s = ended f /\
        (ended f = true -> closed f = true /\ sending f = None /\ pending f = [])
    end;
  inv_eof : EOF ∈ results s -> incoming_closed s = true
}.

Lemma inbound_inv_step s s' :
  length (forwarders s') <= 1 -> inbound_step s s' -> inbound_inv s -> inbound_inv s'.
Proof using Type.
  intros Hl Hs [Hp Hsh He].
  assert (forall i f, forwarders s !! i = Some f -> length (forwarders s) <= 1 -> i = 0 /\ forwarders s = [f]) as Hone.
  { intros i f Hi Hle. destruct (forwarders s) as [|f0 [|]]; [done| |simpl in Hle; lia]. by destruct i; [injection Hi as ->|]. }
  destruct Hs; simpl in Hl;
    try (rewrite ?length_insert in Hl; match goal with H : forwarders s !! ?i = Some ?f |- _ =>
      destruct (Hone i f H Hl) as [-> Hf] end).
  - destruct (forwarders s) as [|f fs] eqn:Hf; [|rewrite length_app in Hl; simpl in Hl; lia].
    destruct Hsh as (Hpu & Hg & Hc). split; simpl; [done| |done]. rewrite Hpu, Hg, Hc. done.
  - rewrite Hf in *. destruct Hsh as (Hpu & Hc & Hen). split; simpl; [done| |done]. rewrite Hf. simpl.
    rewrite Hpu, <- !app_assoc. split_and!; [done|done|]. intros Ht. destruct (Hen Ht) as [Hcl _]. congruence.
  - rewrite Hf in *. destruct Hsh as (Hpu & Hc & Hen). split; simpl; [done| |done]. rewrite Hf. simpl.
    split_and!; [done|done|]. intros Ht. by destruct (Hen Ht) as (_ & ? & ?).
  - rewrite Hf in *. destruct Hsh as (Hpu & Hc & Hen). split; simpl; [done| |done]. rewrite Hf. simpl.
    rewrite H2, H3 in Hpu. split_and!; [done|congruence|done].
  - destruct (incoming_closed s) eqn:Hic.
    { simpl in Hl. destruct (Hone i f H0 Hl) as [-> Hf]. rewrite Hf in Hsh. destruct Hsh as (_ & Hc & _). congruence. }
    simpl in Hl. rewrite length_insert in Hl. destruct (Hone i f H0 Hl) as [-> Hf]. rewrite Hf in Hsh.
    destruct Hsh as (Hpu & Hc & Hen). split; simpl; [done| |done]. rewrite Hf. simpl.
    rewrite H2, H3 in Hpu. done.
  - rewrite Hf in Hsh. destruct Hsh as (_ & Hc & Hen). destruct Hen as (_ & ? & _); congruence.
  - rewrite Hf in Hsh. destruct Hsh as (Hpu & Hc & Hen). split; simpl; [done| |].
    + rewrite Hf. simpl. rewrite got_snoc, Hpu, H1. simpl. rewrite <- app_assoc. split_and!; [done|done|].
      intros Ht. by destruct (Hen Ht) as (? & _ & ?).
    + intros [Hin|Hin%list_elem_of_singleton]%elem_of_app; [auto|done].
  - split; simpl; [done| |done]. rewrite got_snoc, app_nil_r. done.
  - split; simpl; [done| |].
    + rewrite got_snoc, app_nil_r. done.
    + intros [Hin|Hin%list_elem_of_singleton]%elem_of_app; [auto|done].
Qed.

Lemma forwarders_grow s s' : inbound_step s s' -> length (forwarders s) <= length (forwarders s').
Proof using Type.
  intros []; simpl; rewrite ?length_insert, ?length_app; simpl; try lia.
  destruct (incoming_closed _); simpl; rewrite ?length_insert; done.
Qed.

Lemma inbound_inv_steps s : rtc inbound_step no_inbound s -> length (forwarders s) <= 1 -> inbound_inv s.
Proof using Type.
  intros Hs. pattern s. revert s Hs. apply rtc_ind_r.
  - intros _. split; simpl; [done|done|]. intros Hin. by apply not_elem_of_nil in Hin.
  - intros y z _ Hyz IH Hz. pose proof (forwarders_grow _ _ Hyz). eapply inbound_inv_step; [done|done|]. apply IH. lia.
Qed.

(** A receiver opened once never panics; the messages received are the deliveries
    of the broker in order, of which none is lost: the rest is in its goroutine, and
    the end of the stream is reported after the last has been received. *)
Theorem receiver_in_order s : rtc inbound_step no_inbound s -> length (forwarders s) <= 1 ->
  panicked s = false /\
  (exists rest, pushed s = got (results s) ++ rest /\ length rest <= length (forwarders s ≫= pending) + 1) /\
  (EOF ∈ results s -> pushed s = got (results s)).
Proof using Type.
  intros Hs Hl. destruct (inbound_inv_steps s Hs Hl) as [Hp Hsh He]. split; [done|].
  destruct (forwarders s) as [|f fs] eqn:Hf.
  - destruct Hsh as (Hpu & Hg & Hc). rewrite Hpu, Hg. split; [by exists []; split; [|simpl; lia]|done].
  - destruct Hsh as (Hpu & Hc & Hen). split.
    + eexists. split; [exact Hpu|]. rewrite length_app. cbn. rewrite length_app. destruct (sending f); simpl; lia.
    + intros Heof%He. rewrite Hc in Heof. destruct (Hen Heof) as (_ & Hse & Hpe). by rewrite Hpu, Hse, Hpe, app_nil_r.
Qed.

(** While deliveries are waiting, the next is taken or received. *)
Theorem receiver_progress s : rtc inbound_step no_inbound s -> length (forwarders s) <= 1 ->
  pushed s <> got (results s) ->
  exists s', inbound_step s s' /\
    (got (results s') <> got (results s) \/ exists f f', forwarders s = [f] /\ forwarders s' = [f'] /\
      sending f = None /\ sending f' <> None).
Proof using Type.
  intros Hs Hl Hne. destruct (inbound_inv_steps s Hs Hl) as [Hp Hsh _].
  destruct (forwarders s) as [|f [|]] eqn:Hf; [destruct Hsh as (E1 & E2 & _); by rewrite E1, E2 in Hne| |simpl in Hl; lia].
  destruct Hsh as (Hpu & Hc & Hen).
  assert (ended f = false) as Hend.
  { destruct (ended f) eqn:E; [|done]. destruct (Hen eq_refl) as (_ & Hse & Hpe).
    rewrite Hse, Hpe, app_nil_r in Hpu. done. }
  destruct (sending f) as [d|] eqn:Hse.
  - eexists. split; [apply (step_Receive s 0 f d); [done|by rewrite Hf|done|congruence]|]. left. simpl.
    rewrite got_snoc. intros E%(f_equal length). rewrite length_app in E. simpl in E. lia.
  - destruct (pending f) as [|d ds] eqn:Hpe; [by rewrite app_nil_r in Hpu|].
    eexists. split; [apply (step_take s 0 f d ds); [done|by rewrite Hf|done..]|]. right.
    simpl. rewrite Hf. simpl. eauto 10.
Qed.
End Receiver.
Arguments forwarder D : clear implicits.
Arguments inbound D : clear implicits.

(** ** [protocol.go] *)

(** The declarations of [NewProtocolFromConfig] on the channel, which is not nil;
    each answers with an error or [nil]. *)
Inductive declare :=
| ExchangeDeclare (name kind : string) (durable autoDelete internal noWait : bool)
| QueueDeclare (name : string) (durable autoDelete exclusive noWait : bool)
| QueueBind (queue key exchange : string) (noWait : bool).

Record Config := mkConfig {
  cExchange : string; cRoutingKey : string; cQueue : string;
  SenderOptions : list (Sender -> Sender + error); ReceiverOptions : list (Receiver -> Receiver + error)
}.

Record Protocol := mkProtocol { sender : Sender; receiver : Receiver }.
Definition NewProtocol (s : Sender) (r : Receiver) : Protocol := mkProtocol s r.

Definition NewProtocolFromConfig (config : Config) : prog declare (option error) (Protocol + error) :=
  Call (ExchangeDeclare (cExchange config) "topic" true false false false) (fun err =>
  match err with Some err => Ret (inr err) | None =>
  Call (QueueDeclare (cQueue config) true false false false) (fun err =>
  match err with Some err => Ret (inr err) | None =>
  Call (QueueBind (cQueue config) (cRoutingKey config) (cExchange config) false) (fun err =>
  match err with Some err => Ret (inr err) | None =>
  Ret (match NewSender (cExchange config) (cRoutingKey config) (SenderOptions config) with
       | inr err => inr err
       | inl sender =>
           match NewReceiver true (cQueue config) (ReceiverOptions config) with
           | inr err => inr err
           | inl receiver => inl (NewProtocol sender receiver)
           end
       end) end) end) end).

(** A protocol is made only after its exchange, queue and binding have been declared,
    in this order. *)
Theorem protocol_declared config h p :
  follows (NewProtocolFromConfig config) h (Ret (inl p)) ->
  h = [(ExchangeDeclare (cExchange config) "topic" true false false false, None);
       (QueueDeclare (cQueue config) true false false false, None);
       (QueueBind (cQueue config) (cRoutingKey config) (cExchange config) false, None)] /\
  NewSender (cExchange config) (cRoutingKey config) (SenderOptions config) = inl (sender p) /\
  NewReceiver true (cQueue config) (ReceiverOptions config) = inl (receiver p).
Proof.
  unfold NewProtocolFromConfig. intros Hf.
  do 3 (apply follows_Call in Hf as ([err|] & ? & -> & Hf); [by apply follows_Ret in Hf as [_ [=]]|]).
  apply follows_Ret in Hf as [-> Hf].
  destruct (NewSender _ _ _) as [s|]; [|done]. destruct (NewReceiver _ _ _) as [r|]; [|done]. by injection Hf as ->.
Qed.

(** ** [eventdispatcher] *)

Definition ErrNoListener : error := ErrNew "no listener registered for the event".
Definition ErrFailedToUnmarshalEvent : error := ErrNew "failed to unmarshal event data".

Section Dispatcher.
Context {Event : Type} (Type_ : Event -> string).

(** What a listener's [Handle] may return for an event. *)
Definition Listener := Event -> option error -> Prop.

(** [ListenerAdapter] and [ListenerFunc]: the event's data as a [T], given to [l]. *)
Definition ListenerAdapter {T} (DataAs : Event -> T + error) (l : T -> option error -> Prop) : Listener :=
  fun event err =>
    match DataAs event with
    | inr _ => err = Some ErrFailedToUnmarshalEvent
    | inl data => l data err
    end.

(** The map of listeners, and the dispatches that hold the read lock: the event and
    the listeners found for it, with the state of their group, or none. *)
Context {G : Type} `{!ErrGroup G}.

Inductive dispatch := NoListener | Handling (event : Event) (ls : list Listener) (st : dispatching G).

Record dispatcher := mkDispatcher {
  listeners : gmap string (list Listener);
  dispatches : gmap nat dispatch;              (* under way, by caller *)
  ended_ : list (nat * option error)            (* results, in order *)
}.

Definition NewDispatcher : dispatcher := mkDispatcher ∅ ∅ [].

(** [AddListener] between its lock and unlock. *)
Definition AddListener (typed : string) (l : Listener) (m : gmap string (list Listener)) : gmap string (list Listener) :=
  let m := match m !! typed with None => <[typed := []]> m | Some _ => m end in
  <[typed := default [] (m !! typed) ++ [l]]> m.

Definition Reset (_ : gmap string (list Listener)) : gmap string (list Listener) := ∅.

(** The loop of [Dispatch] over the map, in the order [range] takes: the listeners
    of the first entry with the event's type. *)
Fixpoint find_listeners (order : list (string * list Listener)) (typed : string) : option (list Listener) :=
  match order with
  | [] => None
  | (t, ls) :: order => if String.eqb typed t then Some ls else find_listeners order typed
  end.

Definition begin_dispatch (order : list (string * list Listener)) (event : Event) : dispatch :=
  match find_listeners order (Type_ event) with
  | Some ls => Handling event ls (dispatch_start ls)
  | None => NoListener
  end.

(** Steps of the callers.  A write section runs only while no dispatch holds the read
    lock; a dispatch holds it until it returns. *)
Inductive dispatcher_step : dispatcher -> dispatcher -> Prop :=
| step_AddListener m done_ typed l :
    dispatcher_step (mkDispatcher m ∅ done_) (mkDispatcher (AddListener typed l m) ∅ done_)
| step_Reset m done_ :
    dispatcher_step (mkDispatcher m ∅ done_) (mkDispatcher (Reset m) ∅ done_)
| step_Dispatch m ds done_ caller event order : ds !! caller = None -> order ≡ₚ map_to_list m ->
    dispatcher_step (mkDispatcher m ds done_) (mkDispatcher m (<[caller := begin_dispatch order event]> ds) done_)
| step_listeners m ds done_ caller event ls st st' : ds !! caller = Some (Handling event ls st) ->
    dispatch_step ls (fun l => l event) st st' ->
    dispatcher_step (mkDispatcher m ds done_) (mkDispatcher m (<[caller := Handling event ls st']> ds) done_)
| step_return m ds done_ caller event ls st err : ds !! caller = Some (Handling event ls st) ->
    outcome st = Some err ->
    dispatcher_step (mkDispatcher m ds done_) (mkDispatcher m (delete caller ds) (done_ ++ [(caller, err)]))
| step_none m ds done_ caller : ds !! caller = Some NoListener ->
    dispatcher_step (mkDispatcher m ds done_)
      (mkDispatcher m (delete caller ds) (done_ ++ [(caller, Some ErrNoListener)])).

(** *** Registered listeners *)

Lemma AddListener_lookup typed l m t :
  AddListener typed l m !! t = if decide (typed = t) then Some (default [] (m !! t) ++ [l]) else m !! t.
Proof using Type.
  unfold AddListener. destruct (decide (typed = t)) as [<-|Hne].
  - rewrite lookup_insert_eq. destruct (m !! typed) eqn:E; [by rewrite E|]. by rewrite lookup_insert_eq.
  - rewrite lookup_insert_ne by done. destruct (m !! typed) eqn:E; [done|]. by rewrite lookup_insert_ne.
Qed.

Lemma find_listeners_lookup m order t : order ≡ₚ map_to_list m -> find_listeners order t = m !! t.
Proof using Type.
  intros Ho. assert (NoDup order.*1) as Hnd by (rewrite Ho; apply NoDup_fst_map_to_list).
  rewrite <- (list_to_map_to_list m), <- (list_to_map_proper order _ Hnd Ho). clear Ho Hnd.
  induction order as [|[k ls] order IH]; [done|]. simpl.
  destruct (String.eqb_spec t k) as [->|Hne]; [by rewrite lookup_insert_eq|]. rewrite IH. by rewrite lookup_insert_ne.
Qed.

(** Whoever dispatches has found the listeners of the event's type as they are
    still registered, and its group has come from its start. *)
Definition dispatch_ok (m : gmap string (list Listener)) (d : dispatch) : Prop :=
  match d with
  | NoListener => True
  | Handling event ls st =>
      m !! Type_ event = Some ls /\ rtc (dispatch_step ls (fun l => l event)) (dispatch_start ls) st
  end.

Lemma dispatcher_inv s : rtc dispatcher_step NewDispatcher s -> map_Forall (fun _ d => dispatch_ok (listeners s) d) (dispatches s).
Proof using Type.
  intros Hs. pattern s. revert s Hs. apply rtc_ind_r; [apply map_Forall_empty|].
  intros y z _ [] IH; simpl in *; try apply map_Forall_empty; try (by apply map_Forall_delete).
  - apply map_Forall_insert_2; [|done]. unfold begin_dispatch. rewrite (find_listeners_lookup m) by done.
    destruct (m !! Type_ event) eqn:E; [|done]. split; [done|apply rtc_refl].
  - apply map_Forall_insert_2; [|done]. destruct (IH _ _ H) as [Hm Hst]. split; [done|]. by eapply rtc_r.
Qed.

(** A dispatch that returns has called each listener that is registered for the
    event's type once, and no other; all of them have returned, and the result is
    the first error returned. *)
Theorem dispatcher_once `{!ErrGroupLaws G} s caller event ls st err :
  rtc dispatcher_step NewDispatcher s -> dispatches s !! caller = Some (Handling event ls st) -> outcome st = Some err ->
  listeners s !! Type_ event = Some ls /\
  (returned st).*1 ≡ₚ seq 0 (length ls) /\
  Forall (fun x => exists l : Listener, ls !! x.1 = Some l /\ l event x.2) (returned st) /\
  err = first_error (returned st).
Proof using Type.
  intros Hs Hd Ho. destruct (dispatcher_inv s Hs caller _ Hd) as [Hm Hst].
  split; [done|]. by apply (dispatch_returns ls (fun l => l event) st err).
Qed.

(** Neither [AddListener] nor [Reset] takes effect while a dispatch is under way; a
    listener that calls one of them waits for the dispatch that waits for it. *)
Theorem no_registration_while_dispatching s s' caller d :
  dispatcher_step s s' -> dispatches s !! caller = Some d -> listeners s' = listeners s.
Proof using Type. by intros []. Qed.
End Dispatcher.

(** ** An event sent and received *)

Module CloudEventsDemo.
Inductive ce_attr := AId | ASource | AType | ADataContentType | ATime.
Definition ce_name (a : ce_attr) : string :=
  match a with AId => "id" | ASource => "source" | AType => "type" | ADataContentType => "datacontenttype" | ATime => "time" end.
Definition ce_lookup (s : string) : option ce_attr :=
  find (fun a => String.eqb (ToLower id s) (ce_name a)) [AId; ASource; AType; ADataContentType; ATime].

Definition ce_validate (v : any_ string) : any_ string + error :=
  match v with
  | VInt64 n => if bool_decide (int32 n) then inl (VInt32 n) else inr (ErrMsg "out of range")
  | VInt32 n => if bool_decide (int32 n) then inl v else inr (ErrMsg "out of range")
  | VTime t => inl (VTimestamp t)
  | VNil => inr (ErrMsg "invalid CloudEvents value")
  | _ => inl v
  end.

Definition demo_sdk : Sdk :=
  Build_Sdk string id ce_validate (fun v => match v with VString s => inl s | _ => inr (ErrMsg "not a string") end)
    ce_attr ce_attr ce_name ce_name (fun a => match a with ADataContentType => true | _ => false end) ce_lookup Some
    () (fun _ => "application/cloudevents+json")
    (fun s => if String.eqb s "application/cloudevents+json" then Some tt else None).
#[local] Existing Instance demo_sdk.

#[local] Instance demo_laws : SdkLaws.
Proof.
  split; try done.
  - intros v u. unfold Validate, demo_sdk, ce_validate. destruct v; simpl; try (by intros [= <-]); try done;
      destruct (bool_decide _) eqn:E; try done; intros [= <-]; by apply bool_decide_eq_true in E.
  - intros n Hn. unfold Validate, demo_sdk, ce_validate. by rewrite bool_decide_true.
Qed.

Definition entries : list (entry (H := demo_sdk)) :=
  [EAttr AId (VString "1"); EAttr AType (VString "order.paid"); EAttr ADataContentType (VString "application/json");
   EAttr ATime (VTimestamp 1700000000500000000); EExt "traceid" (VString "t"); EExt "attempt" (VInt32 2)].
Definition body : string := "{}".
Definition writing : res Publishing := performs amqpMessageWriter (binary_calls entries body) (mkPublishing 2 "" None "").
Definition written : Publishing := match writing with ROk m => m | _ => mkPublishing 0 "" None "" end.
Definition arrived : Delivery := mkDelivery (ContentType written) ((fun h : gmap string _ => on_wire <$> h) <$> Headers written) (Body written).
Definition order : list (string * any_ string) := map_to_list (default ∅ (dHeaders arrived)).

(** A writer that keeps the calls made on it. *)
Definition recorder : Writer (list wcall) :=
  mkWriter _ (fun w => ROk (w ++ [CStart])) (fun a v w => ROk (w ++ [CSetAttribute a v]))
    (fun n v w => ROk (w ++ [CSetExtension n v])) (fun d w => ROk (w ++ [CSetData d])) (fun w => ROk (w ++ [CEnd]))
    (fun f e w => ROk (w ++ [CSetStructured f e])).

Lemma written_ok : writing = ROk written.
Proof.
  assert (match writing with ROk _ => true | _ => false end = true) as Hok by (vm_compute; reflexivity).
  unfold written. by destruct writing.
Qed.

Lemma amqp_roundtrip_witness : exists cs, cs ≡ₚ omap reread entries /\
  ReadBinary id recorder (newMessage arrived) order [] = performs recorder (cs ++ [CSetData (inl body)]) [].
Proof.
  refine (proj1 (amqp_roundtrip id recorder entries body 2 written arrived order [] _ _ _ _ _ _)).
  - apply (bool_decide_unpack _). vm_compute. exact I.
  - repeat constructor.
  - exact written_ok.
  - repeat split.
  - vm_compute. reflexivity.
  - unfold range_of, order. reflexivity.
Defined.

(** Five of the six entries are read, and the data. *)
Example content_type_unread :
  match ReadBinary id recorder (newMessage arrived) order [] with
  | ROk cs =>
      Nat.eqb (length cs) 6 &&
      forallb (fun c => match c with CSetAttribute ADataContentType _ => false | _ => true end) cs
  | _ => false
  end = true.
Proof. vm_compute. reflexivity. Qed.

(** The half second of the event's time is gone. *)
Example fraction_lost : reread (EAttr ATime (VTimestamp 1700000000500000000) : entry (H := demo_sdk))
  = Some (CSetAttribute ATime (VTime 1700000000000000000)).
Proof. reflexivity. Qed.

(** Opening a receiver a second time ends in closing its channel twice. *)
Definition closed_once : inbound nat := mkInbound [mkForwarder [] true None true; mkForwarder [] true None false] true false [] [].

Theorem reopened_panics : exists s : inbound nat, rtc inbound_step no_inbound s /\ panicked s = true.
Proof.
  exists (panic closed_once). split; [|done].
  eapply rtc_l; [by apply step_OpenInbound|]. eapply rtc_l; [by apply step_OpenInbound|]. simpl.
  eapply rtc_l; [by eapply (step_close _ 0)|]. eapply rtc_l; [by eapply (step_close _ 1)|].
  eapply rtc_l; [by eapply (step_end _ 0)|]. eapply rtc_l; [by eapply (step_end _ 1)|]. simpl. apply rtc_refl.
Qed.
End CloudEventsDemo.
