(* ===== verification/Otlp.v ===== *)
(** * An OpenTelemetry client: [src/otel/otlp]

    Options and their defaults, the exporters of the two transports, and the client
    that configures global providers once and shuts them down once.  Its callers are
    a transition system around the client's mutex, which [Configure] holds while its
    hooks run and [Shutdown] releases before it closes providers.  Exporters,
    resources and providers are the SDK's: what making them answers is not
    restricted, and a provider is a number with what it was made of. *)

From S2P Require Import Prelude GoErrors.
From stdpp Require Import gmap strings.
From stdpp Require Import options.
Set Default Proof Using "Type*".
Local Open Scope string_scope.
Local Open Scope list_scope.
Local Open Scope Z_scope.

(** ** [config.go] *)

(** [Signal] is a [uint8] of flags. *)
Definition TraceSignal : Z := 1.
Definition MetricSignal : Z := 2.
Definition LogSignal : Z := 4.
Definition allSignals : Z := Z.lor (Z.lor TraceSignal MetricSignal) LogSignal.

Definition combineSignals (signals : list Z) : Z :=
  foldl (fun enabled signal => Z.lor enabled (Z.land signal allSignals)) 0 signals.

(** [runtime.GOMAXPROCS(0)] is an argument. *)
Definition queueSize (procs : Z) : Z :=
  let n := wrap64 (Z.quot procs 2 * 1000) in
  if n <? 1000 then 1000 else if n >? 16000 then 16000 else n.

(** ** [transport.go] *)

(** Both transports have the same fields and options. *)
Record transport_config := mkTransport { endpoint : string; insecure : bool; headers : option (gmap string string) }.

Inductive TransportOption := WithTransportInsecure (insecure : bool) | WithTransportHeaders (headers : option (gmap string string)).

Definition apply_transport (t : transport_config) (o : TransportOption) : transport_config :=
  match o with
  | WithTransportInsecure b => mkTransport (endpoint t) b (headers t)
  | WithTransportHeaders h => mkTransport (endpoint t) (insecure t) h
  end.

Definition new_transport (endpoint : string) (opts : list TransportOption) : transport_config :=
  foldl apply_transport (mkTransport endpoint false None) opts.

Inductive ExporterOption :=
| WithEndpoint (endpoint : string) | WithGzip | WithInsecure | WithHeaders (headers : gmap string string).

(** The options with which every exporter of a transport is made. *)
Definition exporter_options (t : transport_config) : list ExporterOption :=
  let opts := [WithEndpoint (endpoint t); WithGzip] in
  let opts := if insecure t then opts ++ [WithInsecure] else opts in
  match headers t with Some h => opts ++ [WithHeaders h] | None => opts end.

Inductive protocol := GRPC | HTTP.
Inductive signal_kind := Traces | Metrics | Logs.

(** [New] of the package of a protocol and a signal, with its options. *)
Record exporter_call := mkExporter { ecProtocol : protocol; ecSignal : signal_kind; ecOptions : list ExporterOption }.

Definition NewGRPCTransport (endpoint : string) (opts : list TransportOption) : transport_config :=
  new_transport endpoint opts.
Definition GRPC_GetTraceSpanExporter (t : transport_config) : exporter_call := mkExporter GRPC Traces (exporter_options t).
Definition GRPC_GetMetricExporter (t : transport_config) : exporter_call := mkExporter GRPC Metrics (exporter_options t).
Definition GRPC_GetLogExporter (t : transport_config) : exporter_call := mkExporter GRPC Logs (exporter_options t).

Definition NewHTTPTransport (endpoint : string) (opts : list TransportOption) : transport_config :=
  new_transport endpoint opts.
Definition HTTP_GetTraceSpanExporter (t : transport_config) : exporter_call := mkExporter HTTP Traces (exporter_options t).
Definition HTTP_GetMetricExporter (t : transport_config) : exporter_call := mkExporter HTTP Metrics (exporter_options t).
Definition HTTP_GetLogExporter (t : transport_config) : exporter_call := mkExporter HTTP Logs (exporter_options t).

(** The exporters of a transport differ in the signal only: each is asked for with
    the endpoint and compression, insecure only if the last such option said so, and
    with the headers set last. *)
Theorem exporter_options_spec endpoint opts :
  let last_insecure := foldl (fun b o => match o with WithTransportInsecure b => b | _ => b end) false opts in
  let last_headers := foldl (fun h o => match o with WithTransportHeaders h => h | _ => h end) None opts in
  ecOptions (GRPC_GetLogExporter (NewGRPCTransport endpoint opts)) =
    [WithEndpoint endpoint; WithGzip] ++ (if last_insecure then [WithInsecure] else []) ++
    (match last_headers with Some h => [WithHeaders h] | None => [] end) /\
  ecOptions (HTTP_GetTraceSpanExporter (NewHTTPTransport endpoint opts)) =
    ecOptions (GRPC_GetLogExporter (NewGRPCTransport endpoint opts)).
Proof.
  split; [|done]. simpl. unfold NewGRPCTransport, new_transport.
  assert (forall b h, foldl apply_transport (mkTransport endpoint b h) opts
    = mkTransport endpoint (foldl (fun b o => match o with WithTransportInsecure b => b | _ => b end) b opts)
        (foldl (fun h o => match o with WithTransportHeaders h => h | _ => h end) h opts)) as ->.
  { induction opts as [|[] opts IH]; intros b0 h0; simpl; [done|..]; by rewrite IH. }
  unfold exporter_options. simpl. by destruct (foldl _ false opts), (foldl _ None opts).
Qed.

(** ** [config.go]: options *)

Section Client.
(** Resources, propagators, samplers, exporters, attributes, loggers, hooks and the
    transports of callers. *)
Context {Resource Propagator Sampler Exporter Attribute Logger Hook Tr : Type}.

(** What a provider of the SDK is made of. *)
Inductive provider_spec :=
| TracerOf (exporter : Exporter) (maxQueue maxBatch batchTimeout exportTimeout : Z)
    (resource : option Resource) (sampler : option Sampler)
| MeterOf (exporter : Exporter) (interval : Z) (resource : option Resource)
| LoggerOf (exporter : Exporter) (maxQueue maxBatch exportInterval exportTimeout : Z) (resource : option Resource).

(** A provider given by the caller, which may have a method [Shutdown], or the
    [n]-th one the client has made, which has it. *)
Inductive provider := Given (name : nat) (shuts : bool) | Made (n : nat) (spec : provider_spec).

Definition supports_shutdown (p : provider) : bool := match p with Given _ b => b | Made _ _ => true end.

Record transports := mkTransports {
  traceTransport : option Tr; metricTransport : option Tr; logTransport : option Tr
}.
Record components := mkComponents {
  resource : option Resource; propagator : option Propagator;
  tracerProvider : option provider; meterProvider : option provider; loggerProvider : option provider
}.
Record resource_options := mkResourceOptions {
  serviceName : string; deploymentEnvironmentName : string; attributes : list Attribute
}.
Record timings := mkTimings {
  traceBatchTimeout : Z; traceExportTimeout : Z; metricInterval : Z; logExportInterval : Z; logExportTimeout : Z;
  batchQueueSize : Z
}.

(** [config], its fields in the groups of the source. *)
Record config := mkConfig {
  cTransports : transports; cComponents : components; logger : Logger; cResource : resource_options;
  traceSampler : option Sampler; signals : Z; cTimings : timings; hooks : list Hook
}.

Definition set_transports (t : transports) (c : config) : config :=
  mkConfig t (cComponents c) (logger c) (cResource c) (traceSampler c) (signals c) (cTimings c) (hooks c).
Definition set_components (k : components) (c : config) : config :=
  mkConfig (cTransports c) k (logger c) (cResource c) (traceSampler c) (signals c) (cTimings c) (hooks c).
Definition set_logger (l : Logger) (c : config) : config :=
  mkConfig (cTransports c) (cComponents c) l (cResource c) (traceSampler c) (signals c) (cTimings c) (hooks c).
Definition set_resource_options (r : resource_options) (c : config) : config :=
  mkConfig (cTransports c) (cComponents c) (logger c) r (traceSampler c) (signals c) (cTimings c) (hooks c).
Definition set_sampler (s : option Sampler) (c : config) : config :=
  mkConfig (cTransports c) (cComponents c) (logger c) (cResource c) s (signals c) (cTimings c) (hooks c).
Definition set_signals (s : Z) (c : config) : config :=
  mkConfig (cTransports c) (cComponents c) (logger c) (cResource c) (traceSampler c) s (cTimings c) (hooks c).
Definition set_timings (t : timings) (c : config) : config :=
  mkConfig (cTransports c) (cComponents c) (logger c) (cResource c) (traceSampler c) (signals c) t (hooks c).
Definition set_hooks (h : list Hook) (c : config) : config :=
  mkConfig (cTransports c) (cComponents c) (logger c) (cResource c) (traceSampler c) (signals c) (cTimings c) h.

Definition set_resource (r : option Resource) (k : components) : components :=
  mkComponents r (propagator k) (tracerProvider k) (meterProvider k) (loggerProvider k).
Definition set_propagator (p : option Propagator) (k : components) : components :=
  mkComponents (resource k) p (tracerProvider k) (meterProvider k) (loggerProvider k).
Definition set_tracer (p : option provider) (k : components) : components :=
  mkComponents (resource k) (propagator k) p (meterProvider k) (loggerProvider k).
Definition set_meter (p : option provider) (k : components) : components :=
  mkComponents (resource k) (propagator k) (tracerProvider k) p (loggerProvider k).
Definition set_loggerp (p : option provider) (k : components) : components :=
  mkComponents (resource k) (propagator k) (tracerProvider k) (meterProvider k) p.

Inductive Option_ :=
| WithResource (r : option Resource) | WithPropagator (p : option Propagator)
| WithTracerProvider (p : option provider) | WithMeterProvider (p : option provider)
| WithLoggerProvider (p : option provider) | WithLogger (l : option Logger) | WithSignals (signals : list Z)
| WithServiceName (s : string) | WithDeploymentEnvironmentName (s : string) | WithAttributes (attrs : list Attribute)
| WithTraceSampler (s : option Sampler) | WithBatchQueueSize (size : Z) | WithTraceBatchTimeout (timeout : Z)
| WithTraceExportTimeout (timeout : Z) | WithMetricInterval (interval : Z) | WithLogExportInterval (interval : Z)
| WithLogExportTimeout (timeout : Z) | WithHooks (hs : list Hook).

Definition apply (o : Option_) (c : config) : config :=
  let k := cComponents c in
  let r := cResource c in
  let 'mkTimings tb te mi li le q := cTimings c in
  match o with
  | WithResource v => set_components (set_resource v k) c
  | WithPropagator v => set_components (set_propagator v k) c
  | WithTracerProvider v => set_components (set_tracer v k) c
  | WithMeterProvider v => set_components (set_meter v k) c
  | WithLoggerProvider v => set_components (set_loggerp v k) c
  | WithLogger v => match v with Some l => set_logger l c | None => c end
  | WithSignals l => set_signals (combineSignals l) c
  | WithServiceName s => set_resource_options (mkResourceOptions s (deploymentEnvironmentName r) (attributes r)) c
  | WithDeploymentEnvironmentName s => set_resource_options (mkResourceOptions (serviceName r) s (attributes r)) c
  | WithAttributes l =>
      set_resource_options (mkResourceOptions (serviceName r) (deploymentEnvironmentName r) (attributes r ++ l)) c
  | WithTraceSampler v => set_sampler v c
  | WithBatchQueueSize n => if n >? 0 then set_timings (mkTimings tb te mi li le n) c else c
  | WithTraceBatchTimeout t => if t >? 0 then set_timings (mkTimings t te mi li le q) c else c
  | WithTraceExportTimeout t => if t >? 0 then set_timings (mkTimings tb t mi li le q) c else c
  | WithMetricInterval t => if t >? 0 then set_timings (mkTimings tb te t li le q) c else c
  | WithLogExportInterval t => if t >? 0 then set_timings (mkTimings tb te mi t le q) c else c
  | WithLogExportTimeout t => if t >? 0 then set_timings (mkTimings tb te mi li t q) c else c
  | WithHooks hs => if (0 <? length hs)%nat then set_hooks (hooks c ++ hs) c else c
  end.

Definition newConfig (default_logger : Logger) (procs sigs : Z) (opts : list Option_) : config :=
  foldl (fun c o => apply o c)
    (mkConfig (mkTransports None None None) (mkComponents None None None None None) default_logger
       (mkResourceOptions "" "" []) None sigs
       (mkTimings (10 * Second) (10 * Second) (15 * Second) (10 * Second) (10 * Second) (queueSize procs)) [])
    opts.

Definition signalEnabled (signal : Z) (c : config) : bool := negb (Z.land (signals c) signal =? 0).

(** ** [client.go] *)

Definition ErrTransportRequired : error := ErrNew "otlp transport is required".
Definition ErrTraceTransportRequired : error := ErrNew "otlp trace transport is required".
Definition ErrMetricTransportRequired : error := ErrNew "otlp metric transport is required".
Definition ErrLogTransportRequired : error := ErrNew "otlp log transport is required".
Definition ErrClientConfigured : error := ErrNew "otlp client has already been configured".
Definition ErrClientShutdown : error := ErrNew "otlp client has been shut down".
Definition ErrClientRequired : error := ErrNew "otlp client is required".

Section Constructors.
Context (default_logger : Logger) (procs : Z).
Local Abbreviation new sigs opts := (newConfig default_logger procs sigs opts).

(** The constructors give a client's configuration; its flags are false. *)
Definition NewClient (transport : option Tr) (opts : list Option_) : config + error :=
  match transport with
  | None => inr ErrTransportRequired
  | Some t => inl (set_transports (mkTransports (Some t) (Some t) (Some t)) (new allSignals opts))
  end.
Definition NewTraceClient (transport : option Tr) (opts : list Option_) : config + error :=
  match transport with
  | None => inr ErrTraceTransportRequired
  | Some t =>
      let c := new TraceSignal opts in
      inl (set_transports (mkTransports (Some t) (metricTransport (cTransports c)) (logTransport (cTransports c))) c)
  end.
Definition NewMetricClient (transport : option Tr) (opts : list Option_) : config + error :=
  match transport with
  | None => inr ErrMetricTransportRequired
  | Some t =>
      let c := new MetricSignal opts in
      inl (set_transports (mkTransports (traceTransport (cTransports c)) (Some t) (logTransport (cTransports c))) c)
  end.
Definition NewLogClient (transport : option Tr) (opts : list Option_) : config + error :=
  match transport with
  | None => inr ErrLogTransportRequired
  | Some t =>
      let c := new LogSignal opts in
      inl (set_transports (mkTransports (traceTransport (cTransports c)) (metricTransport (cTransports c)) (Some t)) c)
  end.
End Constructors.

(** What the SDK and the transports answer during one call of [Configure]; the
    context is part of it. *)
Record answers := mkAnswers {
  aResource : list Attribute -> Resource + error;
  aExporter : Tr -> signal_kind -> Exporter + error
}.
Context (ServiceName DeploymentEnvironmentName : string -> Attribute) (defaultPropagator : Propagator).

(** The global providers and propagator. *)
Record globals := mkGlobals {
  gPropagator : option Propagator; gTracer : option provider; gMeter : option provider; gLogger : option provider
}.

(** What [Configure] changes: the configuration, the number of providers made, and
    the globals. *)
Record cstate := mkCState { cfg : config; made : nat; globs : globals }.

(** The methods of the client: the state after, and an error. *)
Definition action := cstate -> cstate * option error.
Definition andthen (f g : action) : action :=
  fun s => match f s with (s, Some err) => (s, Some err) | (s, None) => g s end.
Definition onlyif (b : bool) (f : action) : action := fun s => if b then f s else (s, None).

Definition newResource (a : answers) (c : config) : Resource + error :=
  match resource (cComponents c) with
  | Some r => inl r
  | None =>
      let o := cResource c in
      let attrs := attributes o in
      let attrs := if negb (String.eqb (serviceName o) "") then attrs ++ [ServiceName (serviceName o)] else attrs in
      let attrs := if negb (String.eqb (deploymentEnvironmentName o) "")
                   then attrs ++ [DeploymentEnvironmentName (deploymentEnvironmentName o)] else attrs in
      aResource a attrs
  end.

Definition newTextMapPropagator (c : config) : Propagator := default defaultPropagator (propagator (cComponents c)).

(** The provider, and whether it was made now. *)
Definition new_provider (given : option provider) (transport : option Tr) (required : error)
    (exporter : Tr -> Exporter + error) (spec : Exporter -> provider_spec) (n : nat) : (provider * nat) + error :=
  match given with
  | Some p => inl (p, n)
  | None =>
      match transport with
      | None => inr required
      | Some t =>
          match exporter t with
          | inr err => inr err
          | inl e => inl (Made n (spec e), S n)
          end
      end
  end.

Definition newTracerProvider (a : answers) (c : config) (n : nat) : (provider * nat) + error :=
  let t := cTimings c in
  new_provider (tracerProvider (cComponents c)) (traceTransport (cTransports c)) ErrTraceTransportRequired
    (fun tr => aExporter a tr Traces)
    (fun e => TracerOf e (batchQueueSize t) (batchQueueSize t) (traceBatchTimeout t) (traceExportTimeout t)
                (resource (cComponents c)) (traceSampler c)) n.
Definition newMeterProvider (a : answers) (c : config) (n : nat) : (provider * nat) + error :=
  new_provider (meterProvider (cComponents c)) (metricTransport (cTransports c)) ErrMetricTransportRequired
    (fun tr => aExporter a tr Metrics)
    (fun e => MeterOf e (metricInterval (cTimings c)) (resource (cComponents c))) n.
Definition newLoggerProvider (a : answers) (c : config) (n : nat) : (provider * nat) + error :=
  let t := cTimings c in
  new_provider (loggerProvider (cComponents c)) (logTransport (cTransports c)) ErrLogTransportRequired
    (fun tr => aExporter a tr Logs)
    (fun e => LoggerOf e (batchQueueSize t) (batchQueueSize t) (logExportInterval t) (logExportTimeout t)
                (resource (cComponents c))) n.

Definition configureResource (a : answers) : action := fun s =>
  match resource (cComponents (cfg s)) with
  | Some _ => (s, None)
  | None =>
      match newResource a (cfg s) with
      | inr err => (s, Some err)
      | inl res => (mkCState (set_components (set_resource (Some res) (cComponents (cfg s))) (cfg s)) (made s) (globs s), None)
      end
  end.

Definition configureTextMapPropagator : action := fun s =>
  let g := globs s in
  (mkCState (cfg s) (made s) (mkGlobals (Some (newTextMapPropagator (cfg s))) (gTracer g) (gMeter g) (gLogger g)), None).

Definition configureTraceProvider (a : answers) : action := fun s =>
  match newTracerProvider a (cfg s) (made s) with
  | inr err => (s, Some err)
  | inl (p, n) =>
      let g := globs s in
      (mkCState (set_components (set_tracer (Some p) (cComponents (cfg s))) (cfg s)) n
         (mkGlobals (gPropagator g) (Some p) (gMeter g) (gLogger g)), None)
  end.
Definition configureMeterProvider (a : answers) : action := fun s =>
  match newMeterProvider a (cfg s) (made s) with
  | inr err => (s, Some err)
  | inl (p, n) =>
      let g := globs s in
      (mkCState (set_components (set_meter (Some p) (cComponents (cfg s))) (cfg s)) n
         (mkGlobals (gPropagator g) (gTracer g) (Some p) (gLogger g)), None)
  end.
Definition configureLoggerProvider (a : answers) : action := fun s =>
  match newLoggerProvider a (cfg s) (made s) with
  | inr err => (s, Some err)
  | inl (p, n) =>
      let g := globs s in
      (mkCState (set_components (set_loggerp (Some p) (cComponents (cfg s))) (cfg s)) n
         (mkGlobals (gPropagator g) (gTracer g) (gMeter g) (Some p)), None)
  end.

(** [Configure] from its guards to its hooks. *)
Definition configure (a : answers) : action := fun s =>
  andthen (configureResource a)
    (andthen configureTextMapPropagator
      (andthen (onlyif (signalEnabled TraceSignal (cfg s)) (configureTraceProvider a))
        (andthen (onlyif (signalEnabled MetricSignal (cfg s)) (configureMeterProvider a))
          (onlyif (signalEnabled LogSignal (cfg s)) (configureLoggerProvider a))))) s.

(** *** Callers *)

Inductive result := RConfigure (err : option error) | RShutdown (err : option error).

Record client := mkClient {
  inner : cstate;
  configured : bool;
  shutdown : bool;
  running_hooks : option (list Hook);                   (* [Configure] holds the mutex; hooks still to run *)
  closing : option (list provider * option error);      (* [Shutdown] past its mutex; providers still to close *)
  closed : list (provider * option error);              (* calls of [Shutdown] on providers and their answers *)
  results : list result                                 (* returns of calls, in order *)
}.

Definition new_client (c : config) (g : globals) : client :=
  mkClient (mkCState c 0 g) false false None None [] [].

(** The providers [Shutdown] goes through; nil ones are skipped, and so are those
    without the method. *)
Definition providers_of (k : components) : list provider :=
  omap id [tracerProvider k; meterProvider k; loggerProvider k].

(** [if e != nil { err = errors.Join(err, e) }]. *)
Definition join_next (err e : option error) : option error :=
  match e with None => err | Some _ => errors_Join [err; e] end.

Inductive client_step : client -> client -> Prop :=
| step_refused s conf shut cl cs rs : shut || conf = true ->
    client_step (mkClient s conf shut None cl cs rs)
      (mkClient s conf shut None cl cs
         (rs ++ [RConfigure (Some (if shut then ErrClientShutdown else ErrClientConfigured))]))
| step_configure_fails s a s' err cl cs rs : configure a s = (s', Some err) ->
    client_step (mkClient s false false None cl cs rs) (mkClient s' false false None cl cs (rs ++ [RConfigure (Some err)]))
| step_configure s a s' cl cs rs : configure a s = (s', None) ->
    client_step (mkClient s false false None cl cs rs)
      (mkClient s' false false (Some (hooks (cfg s'))) cl cs rs)
| step_hook s conf shut h hs cl cs rs :
    client_step (mkClient s conf shut (Some (h :: hs)) cl cs rs) (mkClient s conf shut (Some hs) cl cs rs)
| step_hook_fails s conf shut h hs err cl cs rs :
    client_step (mkClient s conf shut (Some (h :: hs)) cl cs rs)
      (mkClient s conf shut None cl cs (rs ++ [RConfigure (Some err)]))
| step_configured s conf shut cl cs rs :
    client_step (mkClient s conf shut (Some []) cl cs rs)
      (if shut then mkClient s conf shut None cl cs (rs ++ [RConfigure (Some ErrClientShutdown)])
       else mkClient s true shut None cl cs (rs ++ [RConfigure None]))
| step_Shutdown_again s conf cl cs rs :
    client_step (mkClient s conf true None cl cs rs) (mkClient s conf true None cl cs (rs ++ [RShutdown None]))
| step_Shutdown s conf cl cs rs :
    client_step (mkClient s conf false None cl cs rs)
      (mkClient s conf true None (Some (providers_of (cComponents (cfg s)), None)) cs rs)
| step_close s conf shut hk p ps err e cs rs :
    client_step (mkClient s conf shut hk (Some (p :: ps, err)) cs rs)
      (if supports_shutdown p
       then mkClient s conf shut hk (Some (ps, join_next err e)) (cs ++ [(p, e)]) rs
       else mkClient s conf shut hk (Some (ps, err)) cs rs)
| step_Shutdown_returns s conf shut hk err cs rs :
    client_step (mkClient s conf shut hk (Some ([], err)) cs rs)
      (mkClient s conf shut hk None cs (rs ++ [RShutdown err])).

(** *** Configurations *)

(** The time limits and sizes of every configuration are positive. *)
Definition positive (t : timings) : Prop :=
  0 < traceBatchTimeout t /\ 0 < traceExportTimeout t /\ 0 < metricInterval t /\ 0 < logExportInterval t /\
  0 < logExportTimeout t /\ 0 < batchQueueSize t.

Lemma queueSize_bounds procs : 1000 <= queueSize procs <= 16000.
Proof using Type. unfold queueSize. destruct (Z.ltb_spec (wrap64 (Z.quot procs 2 * 1000)) 1000), (Z.gtb_spec (wrap64 (Z.quot procs 2 * 1000)) 16000); lia. Qed.

Theorem config_positive l procs sigs opts : positive (cTimings (newConfig l procs sigs opts)).
Proof using Type.
  unfold newConfig. match goal with |- context [foldl _ ?c _] => assert (positive (cTimings c)) as Hc end.
  { unfold positive, Second. simpl. pose proof (queueSize_bounds procs). split_and!; lia. }
  revert Hc. generalize (mkConfig (mkTransports None None None) (mkComponents None None None None None) l
       (mkResourceOptions "" "" []) None sigs
       (mkTimings (10 * Second) (10 * Second) (15 * Second) (10 * Second) (10 * Second) (queueSize procs)) []).
  induction opts as [|o opts IH]; intros c Hc; [done|]. simpl. apply IH. unfold apply.
  destruct c as [tr k lg r sm sg [tb te mi li le q] hk]. unfold positive in *. simpl in *.
  destruct o as [| | | | |[]| | | | | |z|z|z|z|z|z|hs]; simpl; try done;
    try (destruct (Z.gtb_spec z 0); simpl; split_and!; lia).
  by destruct (0 <? length hs)%nat.
Qed.

(** The signals of [WithSignals] are those given, without unknown flags. *)
Theorem combineSignals_spec l i : 0 <= i ->
  Z.testbit (combineSignals l) i = (i <? 3) && existsb (fun s => Z.testbit s i) l.
Proof using Type.
  intros Hi. assert (Z.testbit allSignals i = (i <? 3)) as Hall.
  { change allSignals with (Z.ones 3). rewrite Z.testbit_ones by lia. destruct (Z.ltb_spec i 3), (Z.leb_spec 0 i); lia. }
  assert (forall acc, Z.testbit (foldl (fun enabled signal => Z.lor enabled (Z.land signal allSignals)) acc l) i
    = Z.testbit acc i || ((i <? 3) && existsb (fun s => Z.testbit s i) l)) as Hacc.
  { induction l as [|x l IH]; intros acc; simpl; [by rewrite andb_false_r, orb_false_r|].
    rewrite IH, Z.lor_spec, Z.land_spec, Hall.
    by destruct (Z.testbit acc i), (Z.testbit x i), (i <? 3), (existsb _ l). }
  unfold combineSignals. by rewrite Hacc, Z.testbit_0_l.
Qed.

(** *** Providers *)

(** The numbers of the providers that were made. *)
Definition made_number (p : provider) : option nat := match p with Made n _ => Some n | Given _ _ => None end.
Definition mades (k : components) : list nat := omap made_number (providers_of k).

(** Everything that was made is in the configuration. *)
Definition no_orphan (s : cstate) : Prop := mades (cComponents (cfg s)) ≡ₚ seq 0 (made s).

(** A provider that is there stays. *)
Definition keeps (k k' : components) : Prop :=
  (tracerProvider k = None \/ tracerProvider k = tracerProvider k') /\
  (meterProvider k = None \/ meterProvider k = meterProvider k') /\
  (loggerProvider k = None \/ loggerProvider k = loggerProvider k').

Lemma mades_slots k :
  mades k = option_list (tracerProvider k ≫= made_number) ++ option_list (meterProvider k ≫= made_number) ++
            option_list (loggerProvider k ≫= made_number).
Proof using Type.
  unfold mades, providers_of. destruct (tracerProvider k) as [[]|], (meterProvider k) as [[]|], (loggerProvider k) as [[]|]; done.
Qed.

Lemma new_provider_cases given t req ex sp n p n' :
  new_provider given t req ex sp n = inl (p, n') ->
  (given = Some p /\ n' = n) \/ (given = None /\ made_number p = Some n /\ n' = S n).
Proof using Type.
  unfold new_provider. destruct given as [q|]; [intros [= <- <-]; by left|].
  destruct t as [t|]; [|done]. destruct (ex t); [|done]. intros [= <- <-]. by right.
Qed.

(** What a step of [Configure] respects. *)
Definition sound (f : action) : Prop := forall s s' r, f s = (s', r) ->
  (no_orphan s -> no_orphan s') /\ keeps (cComponents (cfg s)) (cComponents (cfg s')) /\
  signals (cfg s') = signals (cfg s) /\ hooks (cfg s') = hooks (cfg s).

Lemma keeps_refl k : keeps k k.
Proof using Type. unfold keeps. auto. Qed.

Lemma keeps_trans k1 k2 k3 : keeps k1 k2 -> keeps k2 k3 -> keeps k1 k3.
Proof using Type. unfold keeps. intuition congruence. Qed.

Lemma sound_andthen f g : sound f -> sound g -> sound (andthen f g).
Proof using Type.
  intros Hf Hg s s' r. unfold andthen. destruct (f s) as [s1 [err|]] eqn:E; intros H; [injection H as <- <-; by eapply Hf|].
  destruct (Hf _ _ _ E) as (H1 & H2 & H3 & H4). destruct (Hg _ _ _ H) as (G1 & G2 & G3 & G4).
  split_and!; [auto|by eapply keeps_trans|congruence|congruence].
Qed.

Lemma sound_onlyif b f : sound f -> sound (onlyif b f).
Proof using Type.
  intros Hf s s' r. unfold onlyif. destruct b; [apply Hf|]. intros [= <- <-]. split_and!; [done|apply keeps_refl|done|done].
Qed.

(** A step that puts a provider into its place. *)
Lemma sound_provider (made_of : cstate -> (provider * nat) + error) (get : components -> option provider)
    (put : provider -> components -> components) (g : provider -> globals -> globals) :
  (forall s p n, made_of s = inl (p, n) -> (get (cComponents (cfg s)) = Some p /\ n = made s) \/
    (get (cComponents (cfg s)) = None /\ made_number p = Some (made s) /\ n = S (made s))) ->
  (forall k p, get k = Some p -> mades (put p k) = mades k /\ keeps k (put p k)) ->
  (forall k p n, get k = None -> made_number p = Some n -> mades (put p k) ≡ₚ n :: mades k /\ keeps k (put p k)) ->
  sound (fun s => match made_of s with
                  | inr err => (s, Some err)
                  | inl (p, n) => (mkCState (set_components (put p (cComponents (cfg s))) (cfg s)) n (g p (globs s)), None)
                  end).
Proof using Type.
  intros Hof Hsame Hnew s s' r. destruct (made_of s) as [[p n]|err] eqn:E; intros [= <- <-];
    [|split_and!; [done|apply keeps_refl|done|done]].
  unfold no_orphan. cbn [cfg made cComponents set_components]. simpl.
  destruct (Hof _ _ _ E) as [[Hg ->]|(Hg & Hp & ->)].
  - destruct (Hsame _ _ Hg) as [-> Hk]. by split_and!.
  - destruct (Hnew _ _ _ Hg Hp) as [Hm Hk]. split_and!; [|done|done|done].
    intros Ho. change (mades (put p (cComponents (cfg s))) ≡ₚ seq 0 (S (made s))).
    rewrite Hm, Ho, seq_S. apply Permutation_cons_append.
Qed.

Lemma configure_sound a : forall s s' r, configure a s = (s', r) ->
  (no_orphan s -> no_orphan s') /\ keeps (cComponents (cfg s)) (cComponents (cfg s')) /\
  signals (cfg s') = signals (cfg s) /\ hooks (cfg s') = hooks (cfg s).
Proof using Type.
  intros s s' r. unfold configure. set (b1 := signalEnabled _ _). set (b2 := signalEnabled _ _). set (b3 := signalEnabled _ _).
  apply sound_andthen; [|apply sound_andthen; [|apply sound_andthen; [|apply sound_andthen]]];
    try apply sound_onlyif; clear.
  - intros s s' r. unfold configureResource. destruct (resource _) as [q|]; [intros [= <- <-]; split_and!; [done|apply keeps_refl|done|done]|].
    destruct (newResource a (cfg s)); intros [= <- <-]; split_and!; try done; unfold keeps; simpl; auto.
  - intros s s' r [= <- <-]. split_and!; [done|apply keeps_refl|done|done].
  - apply (sound_provider (fun s => newTracerProvider a (cfg s) (made s)) tracerProvider (fun p => set_tracer (Some p))
      (fun p g => mkGlobals (gPropagator g) (Some p) (gMeter g) (gLogger g))).
    + intros s p n. apply new_provider_cases.
    + intros k p Hk. rewrite !mades_slots. simpl. rewrite Hk. split; [done|]. unfold keeps; simpl; auto.
    + intros k p n Hk Hp. rewrite !mades_slots. simpl. rewrite Hk, Hp. split; [done|]. unfold keeps; simpl; auto.
  - apply (sound_provider (fun s => newMeterProvider a (cfg s) (made s)) meterProvider (fun p => set_meter (Some p))
      (fun p g => mkGlobals (gPropagator g) (gTracer g) (Some p) (gLogger g))).
    + intros s p n. apply new_provider_cases.
    + intros k p Hk. rewrite !mades_slots. simpl. rewrite Hk. split; [done|]. unfold keeps; simpl; auto.
    + intros k p n Hk Hp. rewrite !mades_slots. simpl. rewrite Hk, Hp. split; [|unfold keeps; simpl; auto]. simpl. apply (Permutation_app_swap_app _ [n]).
  - apply (sound_provider (fun s => newLoggerProvider a (cfg s) (made s)) loggerProvider (fun p => set_loggerp (Some p))
      (fun p g => mkGlobals (gPropagator g) (gTracer g) (gMeter g) (Some p))).
    + intros s p n. apply new_provider_cases.
    + intros k p Hk. rewrite !mades_slots. simpl. rewrite Hk. split; [done|]. unfold keeps; simpl; auto.
    + intros k p n Hk Hp. rewrite !mades_slots. simpl. rewrite Hk, Hp. split; [|unfold keeps; simpl; auto]. simpl. rewrite app_nil_r, app_assoc. symmetry. apply Permutation_cons_append.
Qed.

(** The global provider of a signal after [Configure]: that of the configuration if
    the signal is enabled, and otherwise what it was. *)
Definition global_set (enabled : bool) (before after : option provider) (configured : option provider) : Prop :=
  if enabled then after = configured /\ after <> None else after = before.

Lemma andthen_ok f g s s' : andthen f g s = (s', None) -> exists s1, f s = (s1, None) /\ g s1 = (s', None).
Proof using Type. unfold andthen. destruct (f s) as [s1 [err|]]; [done|eauto]. Qed.

Lemma configure_ok a s s' : configure a s = (s', None) ->
  resource (cComponents (cfg s')) <> None /\
  gPropagator (globs s') = Some (newTextMapPropagator (cfg s)) /\
  global_set (signalEnabled TraceSignal (cfg s)) (gTracer (globs s)) (gTracer (globs s')) (tracerProvider (cComponents (cfg s'))) /\
  global_set (signalEnabled MetricSignal (cfg s)) (gMeter (globs s)) (gMeter (globs s')) (meterProvider (cComponents (cfg s'))) /\
  global_set (signalEnabled LogSignal (cfg s)) (gLogger (globs s)) (gLogger (globs s')) (loggerProvider (cComponents (cfg s'))).
Proof using Type.
  unfold configure. set (b1 := signalEnabled TraceSignal _). set (b2 := signalEnabled MetricSignal _). set (b3 := signalEnabled LogSignal _).
  intros H. apply andthen_ok in H as (s1 & H1 & H). apply andthen_ok in H as (s2 & H2 & H).
  apply andthen_ok in H as (s3 & H3 & H). apply andthen_ok in H as (s4 & H4 & H5).
  assert (resource (cComponents (cfg s1)) <> None /\ globs s1 = globs s /\ propagator (cComponents (cfg s1)) = propagator (cComponents (cfg s)))
    as (R1 & G1 & P1).
  { unfold configureResource in H1. destruct (resource (cComponents (cfg s))) as [q|] eqn:E; [injection H1 as <-; split_and!; congruence|].
    destruct (newResource a (cfg s)); [|done]. by injection H1 as <-. }
  unfold configureTextMapPropagator in H2. injection H2 as <-.
  unfold onlyif in *. unfold global_set, newTextMapPropagator in *. rewrite <- P1, <- G1.
  destruct b1; [unfold configureTraceProvider in H3; destruct (newTracerProvider _ _ _) as [[p1 n1]|] in H3; [|done]|];
    injection H3 as <-; simpl in *;
    (destruct b2; [unfold configureMeterProvider in H4; destruct (newMeterProvider _ _ _) as [[p2 n2]|] in H4; [|done]|];
     injection H4 as <-; simpl in *;
     (destruct b3; [unfold configureLoggerProvider in H5; destruct (newLoggerProvider _ _ _) as [[p3 n3]|] in H5; [|done]|];
      injection H5 as <-; simpl in *; split_and!; done)).
Qed.

(** *** Callers *)

Definition closable (k : components) : list provider := filter (fun p => supports_shutdown p = true) (providers_of k).

(** Successful calls of [Configure] among the results. *)
Definition configures (rs : list result) : nat :=
  length (omap (fun r => match r with RConfigure None => Some () | _ => None end) rs).

Lemma configures_snoc rs r :
  configures (rs ++ [r]) = (configures rs + match r with RConfigure None => 1 | _ => 0 end)%nat.
Proof using Type. unfold configures. rewrite omap_app, length_app. by destruct r as [[]|]. Qed.

(** The joined errors of the providers that were shut down. *)
Definition close_error (cs : list (provider * option error)) : option error := foldl join_next None cs.*2.

Lemma close_error_snoc cs p e : close_error (cs ++ [(p, e)]) = join_next (close_error cs) e.
Proof using Type. unfold close_error. by rewrite fmap_app, foldl_app. Qed.

Lemma close_error_None cs : close_error cs = None <-> Forall (fun x => x.2 = None) cs.
Proof using Type.
  induction cs as [|[p e] cs IH] using rev_ind; [by split; [constructor|]|].
  rewrite close_error_snoc, Forall_app, Forall_singleton, <- IH. simpl.
  destruct e as [e|]; simpl; [|tauto]. destruct (close_error cs); simpl; intuition done.
Qed.

(** The globals are the providers of the configuration, for the signals enabled. *)
Definition globals_set (s : cstate) : Prop :=
  let k := cComponents (cfg s) in
  (signalEnabled TraceSignal (cfg s) = true -> tracerProvider k <> None /\ gTracer (globs s) = tracerProvider k) /\
  (signalEnabled MetricSignal (cfg s) = true -> meterProvider k <> None /\ gMeter (globs s) = meterProvider k) /\
  (signalEnabled LogSignal (cfg s) = true -> loggerProvider k <> None /\ gLogger (globs s) = loggerProvider k).

Lemma configure_globals a s s' : configure a s = (s', None) -> globals_set s'.
Proof using Type.
  intros H. destruct (configure_ok _ _ _ H) as (_ & _ & Ht & Hm & Hl).
  destruct (configure_sound _ _ _ _ H) as (_ & _ & Hs & _).
  unfold globals_set, signalEnabled in *. rewrite Hs. unfold global_set in *.
  split_and!; intros E; rewrite E in *; intuition congruence.
Qed.

Definition remaining (cl : option (list provider * option error)) : list provider :=
  match cl with Some (ps, _) => filter (fun p => supports_shutdown p = true) ps | None => [] end.

Record client_inv (k0 : components) (s : client) : Prop := {
  ci_made : no_orphan (inner s);
  ci_keeps : keeps k0 (cComponents (cfg (inner s)));
  ci_hooks : running_hooks s <> None -> configured s = false /\ shutdown s = false;
  ci_conf : configures (results s) = if configured s then 1%nat else 0%nat;
  ci_open : shutdown s = false -> closing s = None /\ closed s = [];
  ci_shut : shutdown s = true -> closable (cComponents (cfg (inner s))) = (closed s).*1 ++ remaining (closing s);
  ci_err ps err : closing s = Some (ps, err) -> err = close_error (closed s);
  ci_result : shutdown s = true -> closing s = None -> RShutdown (close_error (closed s)) ∈ results s;
  ci_globals : configured s = true \/ running_hooks s <> None -> globals_set (inner s)
}.

Lemma client_inv_step k0 s s' : client_step s s' -> client_inv k0 s -> client_inv k0 s'.
Proof using Type.
  intros Hs [Hm Hk Hh Hc Ho Hsh He Hr Hg]. destruct Hs; simpl in *.
  - split; simpl; try done.
    + rewrite configures_snoc. simpl. lia.
    + intros E1 E2. apply elem_of_app. left. auto.
  - destruct (configure_sound _ _ _ _ H) as (S1 & S2 & S3 & S4). split; simpl; try done; auto.
    + by eapply keeps_trans.
    + rewrite configures_snoc. simpl. lia.
    + intros [E|E]; done.
  - destruct (configure_sound _ _ _ _ H) as (S1 & S2 & S3 & S4). split; simpl; try done; auto.
    + by eapply keeps_trans.
    + intros _. by eapply configure_globals.
  - split; simpl; try done; auto.
  - destruct Hh as [-> ->]; [done|]. split; simpl; try done.
    + rewrite configures_snoc. simpl. lia.
    + intros [E|E]; done.
  - destruct Hh as [-> ->]; [done|]. simpl. split; simpl; try done; auto.
    rewrite configures_snoc, Hc. simpl. lia.
  - split; simpl; try done.
    + rewrite configures_snoc. simpl. lia.
    + intros E1 E2. apply elem_of_app. left. auto.
  - destruct (Ho eq_refl) as [-> ->]. split; simpl; try done. intros ps err [= <- <-]. done.
  - specialize (He _ _ eq_refl). destruct shut; [|by destruct (Ho eq_refl)]. specialize (Hsh eq_refl).
    rewrite filter_cons in Hsh.
    destruct (supports_shutdown p) eqn:Ep; simpl in Hsh; split; simpl; try done.
    + intros _. rewrite fmap_app, <- app_assoc. done.
    + intros ps' err' [= <- <-]. by rewrite close_error_snoc, He.
    + intros ps' err' [= <- <-]. done.
  - specialize (He _ _ eq_refl). destruct shut; [|by destruct (Ho eq_refl)]. specialize (Hsh eq_refl).
    split; simpl; try done.
    + rewrite configures_snoc. simpl. lia.
    + intros _ _. apply elem_of_app. right. subst err. by left.
Qed.

(** A client as it is made: the providers are given. *)
Definition fresh_config (c : config) : Prop := mades (cComponents c) = [].

Lemma client_inv_steps c g s : fresh_config c -> rtc client_step (new_client c g) s -> client_inv (cComponents c) s.
Proof using Type.
  intros Hf Hs. pattern s. revert s Hs. apply rtc_ind_r; [|intros; by eapply client_inv_step].
  split; simpl; try done; [|apply keeps_refl|by intros [?|?]]. unfold no_orphan. simpl. by rewrite Hf.
Qed.

(** C38: under every interleaving of [Configure], hooks and [Shutdown], also when calls
    fail and are repeated: every provider the client has made is one of its three;
    at most one [Configure] succeeds, after which the globals are the client's
    providers; providers are shut down once, in order and only by [Shutdown], and
    when that has returned all have been, its result being [nil] exactly when none
    of them failed; a failed [Configure] leaks nothing. *)
Theorem otlp_lifecycle c g s : fresh_config c -> rtc client_step (new_client c g) s ->
  let k := cComponents (cfg (inner s)) in
  mades k ≡ₚ seq 0 (made (inner s)) /\ keeps (cComponents c) k /\
  configures (results s) = (if configured s then 1 else 0)%nat /\ (configured s = true -> globals_set (inner s)) /\
  (closed s).*1 `prefix_of` closable k /\ (shutdown s = false -> closed s = []) /\
  (shutdown s = true -> closing s = None -> (closed s).*1 = closable k /\
    exists err, RShutdown err ∈ results s /\ (err = None <-> Forall (fun x => x.2 = None) (closed s))).
Proof using Type.
  intros Hf Hs. destruct (client_inv_steps c g s Hf Hs) as [Hm Hk Hh Hc Ho Hsh He Hr Hg]. simpl.
  split_and!; auto.
  - destruct (shutdown s); [by eexists; apply Hsh|]. destruct (Ho eq_refl) as [_ ->]. apply prefix_nil.
  - intros E. by destruct (Ho E).
  - intros E1 E2. specialize (Hsh E1). rewrite E2, app_nil_r in Hsh. split; [done|].
    exists (close_error (closed s)). split; [by apply Hr|apply close_error_None].
Qed.

(** After [Shutdown] has begun, nothing is configured any more: every later call of
    [Configure] fails, and the providers and globals stay. *)
Theorem shutdown_final s s' : client_step s s' -> shutdown s = true -> running_hooks s = None ->
  shutdown s' = true /\ running_hooks s' = None /\ inner s' = inner s /\ configured s' = configured s /\
  configures (results s') = configures (results s).
Proof using Type.
  intros []; simpl; try done; intros; rewrite ?configures_snoc; split_and!; try done; try lia.
  all: destruct (supports_shutdown p); simpl; done.
Qed.

(** While hooks run, no call of [Shutdown] gets past the mutex: a hook that calls it
    waits for itself. *)
Theorem hook_blocks_shutdown s s' hs : client_step s s' -> running_hooks s = Some hs ->
  shutdown s' = shutdown s /\ (closing s = None -> closing s' = None).
Proof using Type.
  intros []; simpl; try done. - by destruct shut. - intros _. destruct (supports_shutdown p); done.
Qed.
End Client.

(** ** A client whose first call of [Configure] fails *)

Module OtlpDemo.
Definition opts : list (@Option_ () () () () string () () ) := [WithServiceName "api"; WithHooks [tt]; WithMeterProvider (Some (Given 7 false))].
Definition c0 := Eval vm_compute in match NewClient (Tr := ()) tt 8 (Some tt) opts with inl c => c | inr _ => newConfig tt 8 0 [] end.
Definition no_globals : @globals () () () () := mkGlobals None None None None.

Definition fails : @answers () () string () :=
  mkAnswers (fun _ => inl tt) (fun _ s => match s with Logs => inr (ErrMsg "unreachable") | _ => inl tt end).
Definition works : @answers () () string () := mkAnswers (fun _ => inl tt) (fun _ _ => inl tt).

Local Abbreviation run a s := (configure id id tt a s).
Definition s1 := Eval vm_compute in (run fails (mkCState c0 0 no_globals)).1.
Definition s2 := Eval vm_compute in (run works s1).1.
Definition shut_down : client :=
  mkClient s2 true true None None
    [(Made 0 (TracerOf tt 4000 4000 (10 * Second) (10 * Second) (Some tt) None), Some (ErrMsg "flush"));
     (Made 1 (LoggerOf tt 4000 4000 (10 * Second) (10 * Second) (Some tt)), None)]
    [RConfigure (Some (ErrMsg "unreachable")); RConfigure None; RShutdown (Some (ErrJoin [ErrMsg "flush"]))].

Lemma otlp_lifecycle_witness :
  let k := cComponents (cfg (inner shut_down)) in
  mades k ≡ₚ seq 0 (made (inner shut_down)) /\ keeps (cComponents c0) k /\
  configures (results shut_down) = (if configured shut_down then 1 else 0)%nat /\
  (configured shut_down = true -> globals_set (inner shut_down)) /\
  (closed shut_down).*1 `prefix_of` closable k /\ (shutdown shut_down = false -> closed shut_down = []) /\
  (shutdown shut_down = true -> closing shut_down = None -> (closed shut_down).*1 = closable k /\
    exists err, RShutdown err ∈ results shut_down /\ (err = None <-> Forall (fun x => x.2 = None) (closed shut_down))).
Proof.
  apply (otlp_lifecycle id id tt c0 no_globals shut_down); [reflexivity|].
  eapply rtc_l; [apply (step_configure_fails id id tt _ fails s1 (ErrMsg "unreachable")); vm_compute; reflexivity|].
  eapply rtc_l; [apply (step_configure id id tt s1 works s2); vm_compute; reflexivity|].
  eapply rtc_l; [apply step_hook|]. eapply rtc_l; [apply step_configured|]. simpl.
  eapply rtc_l; [apply step_Shutdown|].
  eapply rtc_l; [eapply (step_close id id tt _ _ _ _ _ _ _ (Some (ErrMsg "flush")))|].
  eapply rtc_l; [eapply (step_close id id tt _ _ _ _ _ _ _ None)|].
  eapply rtc_l; [eapply (step_close id id tt _ _ _ _ _ _ _ None)|].
  eapply rtc_l; [apply step_Shutdown_returns|]. apply rtc_refl.
Defined.
End OtlpDemo.
