(* ===== verification/Multidriver.v ===== *)
(** * A database driver over a writer and readers: [src/ent/multidriver]

    Construction, the routing of operations, the policies that choose a reader, and
    [Close], whose callers share one run of [closeDrivers], as a transition system.
    A driver is a value with the number of its identity; values of some types cannot
    be compared. *)

From S2P Require Import Prelude GoErrors.
From stdpp Require Import gmap strings.
From stdpp Require Import options.
Set Default Proof Using "Type*".
Local Open Scope string_scope.
Local Open Scope list_scope.

Definition ErrMissingWriter : error := ErrNew "multi: missing writer driver".
Definition ErrClose : error := ErrNew "multi: close has errors".

(** [Comparable] is [reflect.ValueOf(driver).Comparable()]; comparable drivers are
    equal when their numbers are. *)
Record driver := mkDriver { did : nat; Comparable : bool }.
#[export] Instance driver_eq_dec : EqDecision driver.
Proof. solve_decision. Defined.

(** ** [policy.go]

    A policy keeps a counter; [None] is a panic, for an index out of range or a
    division by zero. *)
Inductive policy := RoundRobinPolicy | StrictRoundRobinPolicy | RandomPolicy.

(** An index expression and a remainder of the language. *)
Definition index (drivers : list driver) (i : Z) : option driver :=
  if (i <? 0)%Z then None else drivers !! Z.to_nat i.
Definition remainder (a b : Z) : option Z := if (b =? 0)%Z then None else Some (Z.rem a b).

(** [Resolve] of one caller at a time, for the counter [i]; [draw] is what
    [rand.IntN] gives. *)
Definition Resolve (p : policy) (draw : Z -> Z) (drivers : list driver) (i : Z) : Z * option driver :=
  let n := Z.of_nat (length drivers) in
  match p with
  | RoundRobinPolicy =>
      match remainder (wrap64 (i + 1)) n with
      | None => (i, None)
      | Some i => (i, index drivers i)
      end
  | StrictRoundRobinPolicy =>
      let i := wrap64 (i + 1) in
      (i, r ← remainder i n; index drivers r)
  | RandomPolicy => (i, if (n <=? 0)%Z then None else index drivers (draw n))
  end.

(** ** [option.go] and [driver.go] *)

Inductive Option_ := WithWriter (w : option driver) | WithReaders (r : list driver) | WithPolicy (p : option policy).

Record settings := mkSettings { sWriter : option driver; sReaders : list driver; sPolicy : option policy }.

Definition apply (s : settings) (o : Option_) : settings :=
  match o with
  | WithWriter w => mkSettings w (sReaders s) (sPolicy s)
  | WithReaders r => mkSettings (sWriter s) r (sPolicy s)
  | WithPolicy p => mkSettings (sWriter s) (sReaders s) p
  end.

(** A driver, with the drivers its [close] was made over. *)
Record Driver := mkMulti { writer : driver; readers : list driver; dPolicy : policy; owned : list driver }.

Definition init (s : settings) : Driver + error :=
  match sWriter s with
  | None => inr ErrMissingWriter
  | Some w =>
      let drivers := [w] ++ sReaders s in
      let readers := if (length (sReaders s) =? 0)%nat then sReaders s ++ [w] else sReaders s in
      inl (mkMulti w readers (default RoundRobinPolicy (sPolicy s)) drivers)
  end.

Definition New (opts : list Option_) : Driver + error := init (foldl apply (mkSettings None [] None) opts).

(** The operations of a driver, and the one each goes to; [query] is whether the
    context has an Ent query. *)
Inductive operation := Exec | Query (query : bool) | Tx | BeginTx | Dialect.

Definition route (d : Driver) (draw : Z -> Z) (op : operation) (i : Z) : Z * option driver :=
  match op with
  | Query true => Resolve (dPolicy d) draw (readers d) i
  | _ => (i, Some (writer d))
  end.

(** *** [Close] *)

(** [closeDrivers] before each driver: those to come, the ones seen, the errors, and
    the calls of [Close] made. *)
Record closing := mkClosing { rest : list driver; seen : gset nat; errs : list error; calls : list driver }.

(** [sync.OnceValue]: not called, in its function, or the value it keeps. *)
Inductive once := Idle | Running (c : closing) | Finished (c : closing) (err : option error).

(** [errors.Join(append([]error{ErrClose}, errs...)...)] if there are errors. *)
Definition close_result (errs : list error) : option error :=
  match errs with [] => None | _ => errors_Join (Some <$> (ErrClose :: errs)) end.

Record multi := mkState { state : once; waiting : gset nat; returned : list (nat * option error) }.
Definition opened : multi := mkState Idle ∅ [].

Section Close.
Variable (d : Driver).

Inductive close_step : multi -> multi -> Prop :=
| step_call s caller : caller ∉ waiting s -> caller ∉ (returned s).*1 ->
    close_step s
      (mkState (match state s with Idle => Running (mkClosing (owned d) ∅ [] []) | st => st end)
         ({[caller]} ∪ waiting s) (returned s))
| step_skip ds dr sn es cs w r : Comparable dr = true -> did dr ∈ sn ->
    close_step (mkState (Running (mkClosing (dr :: ds) sn es cs)) w r) (mkState (Running (mkClosing ds sn es cs)) w r)
| step_close ds dr sn es cs w r err : ~ (Comparable dr = true /\ did dr ∈ sn) ->
    close_step (mkState (Running (mkClosing (dr :: ds) sn es cs)) w r)
      (mkState (Running (mkClosing ds (if Comparable dr then {[did dr]} ∪ sn else sn)
         (es ++ option_list err) (cs ++ [dr]))) w r)
| step_finish sn es cs w r :
    close_step (mkState (Running (mkClosing [] sn es cs)) w r)
      (mkState (Finished (mkClosing [] sn es cs) (close_result es)) w r)
| step_return c err w r caller : caller ∈ w ->
    close_step (mkState (Finished c err) w r) (mkState (Finished c err) (w ∖ {[caller]}) (r ++ [(caller, err)])).
End Close.

(** ** Routing *)

Lemma index_elem l n : n < length l -> exists w, index l (Z.of_nat n) = Some w /\ l !! n = Some w /\ w ∈ l.
Proof.
  intros Hlt. unfold index. destruct (Z.ltb_spec (Z.of_nat n) 0); [lia|]. rewrite Nat2Z.id.
  destruct (lookup_lt_is_Some_2 l n Hlt) as [x Hx]. exists x. split_and!; [done..|]. by eapply list_elem_of_lookup_2.
Qed.

Lemma remainder_index l j : (0 <= j)%Z -> l <> [] ->
  exists x, remainder j (Z.of_nat (length l)) = Some (j mod Z.of_nat (length l))%Z /\
    index l (j mod Z.of_nat (length l)) = Some x /\ l !! Z.to_nat (j mod Z.of_nat (length l)) = Some x /\ x ∈ l.
Proof.
  intros Hj Hl. assert (0 < length l) by (destruct l; [done|simpl; lia]). unfold remainder.
  destruct (Z.eqb_spec (Z.of_nat (length l)) 0); [lia|].
  rewrite Z.rem_mod_nonneg by lia. pose proof (Z.mod_pos_bound j (Z.of_nat (length l)) ltac:(lia)) as Hb.
  destruct (index_elem l (Z.to_nat (j mod Z.of_nat (length l)))) as (x & Hx & Hlk & Hin); [lia|].
  rewrite Z2Nat.id in Hx by lia. eauto.
Qed.

Lemma counter_next i : (0 <= i < maxInt64)%Z -> wrap64 (i + 1) = (i + 1)%Z.
Proof. intros. apply wrap64_id. int64_unfold. lia. Qed.

(** A new driver has a reader, and owns exactly what it was given: reads go to one
    of the readers, or to the writer if none were given, and everything else to the
    writer. *)
Theorem routing opts d draw op i : New opts = inl d ->
  (forall n, 0 < n -> 0 <= draw n < n)%Z -> (0 <= i < maxInt64)%Z ->
  exists j w, route d draw op i = (j, Some w) /\ w ∈ owned d /\
    (match op with Query true => w ∈ readers d | _ => w = writer d end).
Proof.
  intros Hn Hd Hi. unfold New, init in Hn. destruct (sWriter _) as [w|]; [|done]. injection Hn as <-.
  set (rs := sReaders _). set (readers0 := if (length rs =? 0)%nat then rs ++ [w] else rs).
  assert (readers0 <> []) as Hne by (unfold readers0; by destruct rs).
  assert (forall x, x ∈ readers0 -> x ∈ w :: rs) as Hown.
  { intros x. unfold readers0. destruct rs; [done|]. intros Hx. by right. }
  clearbody readers0. pose proof (counter_next i Hi) as Hw.
  destruct op as [|[]| | |]; cbn [route writer readers owned dPolicy]; try (exists i, w; split_and!; [done|left|done]).
  unfold Resolve. rewrite Hw. destruct (remainder_index readers0 (i + 1)) as (x & Hr & Hx & _ & Hin); [lia|done|].
  destruct (default RoundRobinPolicy _); rewrite ?Hr; simpl; [rewrite Hx; eauto 10..|].
  assert (0 < length readers0) by (destruct readers0; [done|simpl; lia]).
  destruct (Z.leb_spec (Z.of_nat (length readers0)) 0); [lia|].
  specialize (Hd (Z.of_nat (length readers0)) ltac:(lia)).
  destruct (index_elem readers0 (Z.to_nat (draw (Z.of_nat (length readers0))))) as (y & Hy & _ & Hiny); [lia|].
  rewrite Z2Nat.id in Hy by lia. rewrite Hy. exists i, y. auto.
Qed.

(** ** Round robin *)

(** The readers that [k] calls in a row choose. *)
Fixpoint resolves (p : policy) (draw : Z -> Z) (drivers : list driver) (i : Z) (k : nat) : list (option driver) :=
  match k with
  | O => []
  | S k => let '(i, d) := Resolve p draw drivers i in d :: resolves p draw drivers i k
  end.

(** The reader of a counter. *)
Definition at_counter (drivers : list driver) (j : Z) : option driver :=
  drivers !! Z.to_nat (j mod Z.of_nat (length drivers)).

Lemma at_counter_mod drivers j : drivers <> [] ->
  at_counter drivers (j mod Z.of_nat (length drivers)) = at_counter drivers j.
Proof. intros. unfold at_counter. rewrite Z.mod_mod; [done|]. destruct drivers; [done|simpl; lia]. Qed.

Lemma at_counter_shift drivers i k : drivers <> [] ->
  at_counter drivers (i mod Z.of_nat (length drivers) + k) = at_counter drivers (i + k).
Proof.
  intros. unfold at_counter. rewrite Zplus_mod_idemp_l. done.
Qed.

Definition in_turn (p : policy) : Prop := p <> RandomPolicy.

(** The two round robins choose the readers in turn, as long as the counter does not
    overflow; the plain one never does. *)
Lemma resolves_spec p draw drivers k : in_turn p -> drivers <> [] -> forall i,
  (0 <= i)%Z -> (p = StrictRoundRobinPolicy -> i + Z.of_nat k <= maxInt64)%Z -> (i < maxInt64 - 1)%Z \/ k = 0 \/ p = StrictRoundRobinPolicy ->
  (Z.of_nat (length drivers) < maxInt64 - 1)%Z ->
  resolves p draw drivers i k = (fun m => at_counter drivers (i + 1 + Z.of_nat m)) <$> seq 0 k.
Proof.
  intros Hp Hne. induction k as [|k IH]; intros i Hi Hs Hlt Hlen; [done|]. cbn [resolves].
  assert (i < maxInt64)%Z as Hmax. { destruct Hlt as [?|[?|?]]; [lia|lia|]. specialize (Hs H). lia. }
  assert (0 < length drivers) by (destruct drivers; [done|simpl; lia]).
  destruct (remainder_index drivers (i + 1)) as (x & Hr & Hx & Hlk & _); [lia|done|].
  unfold Resolve. rewrite (counter_next i) by lia. rewrite <- cons_seq, fmap_cons, <- fmap_S_seq, <- list_fmap_compose.
  pose proof (Z.mod_pos_bound (i + 1) (Z.of_nat (length drivers)) ltac:(lia)) as Hb.
  destruct p; [| |done]; rewrite Hr; simpl.
  - f_equal; [rewrite Hx; unfold at_counter; by rewrite Z.add_0_r|]. rewrite IH by (lia || done || (left; lia)).
    apply list_fmap_ext. intros j m _. simpl. rewrite <- Z.add_assoc, at_counter_shift by done. f_equal. lia.
  - f_equal; [rewrite Hx; unfold at_counter; by rewrite Z.add_0_r|].
    assert (i + 1 + Z.of_nat k <= maxInt64)%Z by (specialize (Hs eq_refl); lia).
    rewrite IH by (lia || auto). apply list_fmap_ext. intros j m _. simpl. f_equal. lia.
Qed.

Lemma turns_rotate drivers c : drivers <> [] -> (0 <= c)%Z ->
  let r := Z.to_nat (c mod Z.of_nat (length drivers)) in
  (fun m => at_counter drivers (c + Z.of_nat m)) <$> seq 0 (length drivers)
  = Some <$> (drop r drivers ++ take r drivers).
Proof.
  intros Hne Hc r. assert (0 < length drivers) as Hn by (destruct drivers; [done|simpl; lia]).
  set (n := Z.of_nat (length drivers)). pose proof (Z.mod_pos_bound c n ltac:(lia)) as Hb.
  assert (Z.of_nat r = c mod n)%Z as Hr by (unfold r; rewrite Z2Nat.id; [done|apply Hb]).
  assert (n = Z.of_nat (length drivers)) as En by done.
  apply list_eq. intros m. rewrite !list_lookup_fmap.
  destruct (decide (m < length drivers)) as [Hm|Hm].
  - rewrite lookup_seq_lt by done. simpl. unfold at_counter. fold n.
    assert ((c + Z.of_nat m) mod n = if decide (r + m < length drivers)%nat then Z.of_nat (r + m) else Z.of_nat (r + m) - n)%Z as ->.
    { rewrite <- Zplus_mod_idemp_l. destruct (decide _) as [Hlt|Hge].
      - rewrite Z.mod_small by lia. lia.
      - rewrite <- (Z_mod_plus_full _ (-1)), Z.mod_small by lia. lia. }
    destruct (decide (r + m < length drivers)) as [Hlt|Hge].
    + rewrite Nat2Z.id. rewrite lookup_app_l by (rewrite length_drop; lia). rewrite lookup_drop.
      destruct (lookup_lt_is_Some_2 drivers (r + m)) as [x Hx]; [lia|]. by rewrite Hx.
    + rewrite lookup_app_r by (rewrite length_drop; lia). rewrite length_drop.
      rewrite lookup_take_lt by lia. replace (Z.to_nat (Z.of_nat (r + m) - n)) with (m - (length drivers - r)) by lia.
      destruct (lookup_lt_is_Some_2 drivers (m - (length drivers - r))) as [x Hx]; [lia|]. by rewrite Hx.
  - rewrite !lookup_ge_None_2; [done| |rewrite length_seq; lia].
    rewrite length_app, length_drop, length_take. lia.
Qed.

(** As many calls in a row as there are readers choose each entry of the
    readers once, from any state of the counter: readers given twice are chosen
    twice as often.  For the strict policy the counter must be below its last
    values, where it overflows. *)
Theorem round_robin_fair p draw drivers i : in_turn p -> drivers <> [] -> (0 <= i)%Z ->
  (i + Z.of_nat (length drivers) < maxInt64 - 1)%Z ->
  resolves p draw drivers i (length drivers) ≡ₚ Some <$> drivers.
Proof.
  intros Hp Hne Hi Hlt. rewrite resolves_spec by (done || lia || (left; lia)).
  rewrite (turns_rotate drivers (i + 1)) by (done || lia). rewrite fmap_app, Permutation_app_comm, <- fmap_app.
  by rewrite take_drop.
Qed.

Definition three : list driver := [mkDriver 1 true; mkDriver 2 true; mkDriver 3 true].

Lemma round_robin_fair_witness :
  resolves StrictRoundRobinPolicy (fun _ => 0%Z) three 4 (length three) ≡ₚ Some <$> three.
Proof. by apply (round_robin_fair StrictRoundRobinPolicy (fun _ => 0%Z) three 4). Defined.

(** After the counter of the strict policy has overflowed, the index is negative and
    the call panics. *)
Theorem strict_overflow : (Resolve StrictRoundRobinPolicy (fun _ => 0%Z) three maxInt64).2 = None.
Proof. vm_compute. reflexivity. Qed.

(** *** Callers at the same time

    The plain round robin reads its counter, writes it, and reads it again, without
    a lock. *)
Inductive rr_call := Entered | ReadCounter (v : Z) | Written | Chosen (i : Z).

Record rr_state := mkRR { counter : Z; rr_calls : gmap nat rr_call }.

Inductive rr_step (n : Z) : rr_state -> rr_state -> Prop :=
| rr_enter c m k : m !! k = None -> rr_step n (mkRR c m) (mkRR c (<[k := Entered]> m))
| rr_read c m k : m !! k = Some Entered -> rr_step n (mkRR c m) (mkRR c (<[k := ReadCounter c]> m))
| rr_write c m k v : m !! k = Some (ReadCounter v) ->
    rr_step n (mkRR c m) (mkRR (Z.rem (wrap64 (v + 1)) n) (<[k := Written]> m))
| rr_choose c m k : m !! k = Some Written -> rr_step n (mkRR c m) (mkRR c (<[k := Chosen c]> m)).

Definition rr_inv (n : Z) (s : rr_state) : Prop :=
  (0 <= counter s < n)%Z /\
  map_Forall (fun _ p => match p with ReadCounter v | Chosen v => (0 <= v < n)%Z | _ => True end) (rr_calls s).

Lemma rr_inv_step n s s' : (0 < n <= maxInt64)%Z -> rr_step n s s' -> rr_inv n s -> rr_inv n s'.
Proof.
  intros Hn Hs [Hc Hm]. destruct Hs; simpl in *.
  - split; [done|]. by apply map_Forall_insert_2.
  - split; [done|]. by apply map_Forall_insert_2.
  - pose proof (Hm _ _ H) as Hv. simpl in Hv. split; [|by apply map_Forall_insert_2]. simpl.
    rewrite wrap64_id by (int64_unfold; lia). rewrite Z.rem_mod_nonneg by lia. apply Z.mod_pos_bound. lia.
  - split; [done|]. by apply map_Forall_insert_2.
Qed.

(** Under every interleaving of callers the index chosen is in range: the races of
    the plain round robin do not make it panic. *)
Theorem round_robin_race_safe n s k i : (0 < n <= maxInt64)%Z -> rtc (rr_step n) (mkRR 0 ∅) s ->
  rr_calls s !! k = Some (Chosen i) -> (0 <= i < n)%Z.
Proof.
  intros Hn Hs Hk. assert (rr_inv n s) as [_ Hm]; [|by apply (Hm _ _ Hk)].
  pattern s. revert s Hs Hk. intros s Hs _. revert s Hs. apply rtc_ind_r.
  - split; [simpl; lia|]. apply map_Forall_empty.
  - intros y z _ Hyz Hy. by eapply rr_inv_step.
Qed.

(** But calls at the same time can choose the same reader, out of turn. *)
Theorem round_robin_race_unfair : exists s, rtc (rr_step 2) (mkRR 0 ∅) s /\
  rr_calls s !! 0 = Some (Chosen 1) /\ rr_calls s !! 1 = Some (Chosen 1).
Proof.
  eexists. split; [|shelve].
  eapply rtc_l; [by apply (rr_enter _ _ _ 0)|]. eapply rtc_l; [by apply (rr_enter _ _ _ 1)|].
  eapply rtc_l; [by apply (rr_read _ _ _ 0)|]. eapply rtc_l; [by apply (rr_read _ _ _ 1)|].
  eapply rtc_l; [by eapply (rr_write _ _ _ 0)|]. eapply rtc_l; [by eapply (rr_write _ _ _ 1)|].
  eapply rtc_l; [by apply (rr_choose _ _ _ 0)|]. eapply rtc_l; [by apply (rr_choose _ _ _ 1)|]. apply rtc_refl.
  Unshelve. by split.
Qed.

(** ** Closing *)

(** The drivers to close: of equal comparable ones the first. *)
Fixpoint firsts (sn : gset nat) (ds : list driver) : list driver :=
  match ds with
  | [] => []
  | d :: ds =>
      if Comparable d && bool_decide (did d ∈ sn) then firsts sn ds
      else d :: firsts (if Comparable d then {[did d]} ∪ sn else sn) ds
  end.

Lemma firsts_spec ds : forall sn,
  NoDup (did <$> filter (fun d => Comparable d = true) (firsts sn ds)) /\
  (forall d, d ∈ firsts sn ds -> d ∈ ds /\ (Comparable d = true -> did d ∉ sn)) /\
  (forall d, d ∈ ds -> Comparable d = true -> did d ∈ sn \/ exists d', d' ∈ firsts sn ds /\ Comparable d' = true /\ did d' = did d) /\
  filter (fun d => Comparable d = false) (firsts sn ds) = filter (fun d => Comparable d = false) ds.
Proof.
  induction ds as [|x ds IH]; intros sn; simpl.
  { split_and!; [constructor|intros ? Hx; by apply not_elem_of_nil in Hx..|done]. }
  destruct (Comparable x) eqn:Ec; simpl; [destruct (bool_decide_reflect (did x ∈ sn)) as [Hin|Hni]|].
  - destruct (IH sn) as (H1 & H2 & H3 & H4). split_and!; [done| | |by rewrite filter_cons_False by congruence].
    + intros d Hd. destruct (H2 d Hd). split; [by right|done].
    + intros d Hd Hc. apply elem_of_cons in Hd as [->|Hd]; [by left|auto].
  - destruct (IH ({[did x]} ∪ sn)) as (H1 & H2 & H3 & H4). split_and!.
    + rewrite filter_cons_True by done. rewrite fmap_cons. apply NoDup_cons. split; [|done].
      intros Hx. apply list_elem_of_fmap in Hx as (d & Hd & Hf). apply list_elem_of_filter in Hf as [Hc Hf].
      destruct (H2 d Hf) as [_ Hnot]. specialize (Hnot Hc). clear -Hd Hnot. set_solver.
    + intros d Hd. apply elem_of_cons in Hd as [->|Hd]; [split; [by left|done]|].
      destruct (H2 d Hd) as [Hin Hnot]. split; [by right|]. intros Hc. specialize (Hnot Hc). clear -Hnot. set_solver.
    + intros d Hd Hc. apply elem_of_cons in Hd as [->|Hd]; [right; exists x; split_and!; [by left|done..]|].
      destruct (H3 d Hd Hc) as [Hin|(d' & Hin & Hd')].
      * apply elem_of_union in Hin as [->%elem_of_singleton|Hin]; [|by left]. right. exists x. split_and!; [by left|done..].
      * right. exists d'. split; [by right|done].
    + by rewrite !filter_cons_False by congruence.
  - destruct (IH sn) as (H1 & H2 & H3 & H4). split_and!.
    + by rewrite filter_cons_False by congruence.
    + intros d Hd. apply elem_of_cons in Hd as [->|Hd]; [split; [by left|congruence]|]. destruct (H2 d Hd). split; [by right|done].
    + intros d Hd Hc. apply elem_of_cons in Hd as [->|Hd]; [congruence|].
      destruct (H3 d Hd Hc) as [Hin|(d' & Hin & Hd')]; [by left|]. right. exists d'. split; [by right|done].
    + rewrite !filter_cons_True by done. by rewrite H4.
Qed.

Section CloseProofs.
Variable (d : Driver).

Definition close_inv (s : multi) : Prop :=
  match state s with
  | Idle => waiting s = ∅ /\ returned s = []
  | Running c => calls c ++ firsts (seen c) (rest c) = firsts ∅ (owned d) /\ returned s = []
  | Finished c err =>
      calls c = firsts ∅ (owned d) /\ err = close_result (errs c) /\ Forall (fun r => r.2 = err) (returned s)
  end.

Lemma close_inv_step s s' : close_step d s s' -> close_inv s -> close_inv s'.
Proof.
  intros Hs. unfold close_inv. destruct Hs; simpl.
  - destruct (state s) as [|c|c err]; [|done|done]. intros [Hw Hr]. done.
  - intros [Hc Hr]. rewrite H, bool_decide_true in Hc by done. done.
  - intros [Hc Hr]. split; [|done]. rewrite <- app_assoc, <- Hc. f_equal.
    destruct (Comparable dr) eqn:Ec; simpl; [|done]. rewrite bool_decide_false; [done|]. intros Hin. by apply H.
  - intros [Hc Hr]. rewrite app_nil_r in Hc. rewrite Hr. by split_and!.
  - intros (Hc & He & Hf). split_and!; [done|done|]. apply Forall_app. split; [done|]. by constructor.
Qed.

Lemma close_inv_steps s : rtc (close_step d) opened s -> close_inv s.
Proof.
  intros Hs. pattern s. revert s Hs. apply rtc_ind_r; [done|]. intros y z _ Hyz Hy. by eapply close_inv_step.
Qed.

(** The calls of [Close] on the drivers made so far. *)
Definition close_calls (s : multi) : list driver :=
  match state s with Idle => [] | Running c | Finished c _ => calls c end.

(** Whatever the callers of [Close] do, drivers are closed in the order
    of configuration, equal comparable ones once and others once an entry; a caller
    returns only after all have been closed, and all callers return the same
    result. *)
Theorem close_once s : rtc (close_step d) opened s ->
  close_calls s `prefix_of` firsts ∅ (owned d) /\
  (returned s <> [] -> close_calls s = firsts ∅ (owned d) /\ exists err, Forall (fun r => r.2 = err) (returned s)) /\
  NoDup (did <$> filter (fun x => Comparable x = true) (close_calls s)).
Proof.
  intros Hs%close_inv_steps. destruct (firsts_spec (owned d) ∅) as (Hnd & _).
  assert (close_calls s `prefix_of` firsts ∅ (owned d)) as Hpre.
  { unfold close_inv, close_calls in *. destruct (state s) as [|c|c err]; [apply prefix_nil| |by destruct Hs as (-> & _)].
    destruct Hs as [<- _]. by eexists. }
  split_and!; [done| |].
  - intros Hr. unfold close_inv, close_calls in *. destruct (state s) as [|c|c err]; [by destruct Hs..|].
    destruct Hs as (Hc & _ & Hf). split; [done|]. by exists err.
  - destruct Hpre as [l Hl]. rewrite Hl, filter_app, fmap_app in Hnd. by apply NoDup_app in Hnd as [? _].
Qed.
End CloseProofs.

(** The error of [Close] is [nil] exactly without failures, and otherwise matches
    [ErrClose] and wraps every failure. *)
Theorem close_result_spec es :
  match close_result es with
  | None => es = []
  | Some err => es <> [] /\ errors_Is err "multi: close has errors" = true /\ forall e, e ∈ es -> wraps err e
  end.
Proof.
  unfold close_result. destruct es as [|e es]; [done|]. unfold errors_Join.
  assert (omap id (Some <$> ErrClose :: e :: es) = ErrClose :: e :: es) as ->.
  { generalize (ErrClose :: e :: es). intros l. induction l as [|x l IH]; [done|]. simpl. f_equal. exact IH. }
  split_and!; [done|done|]. intros x Hx. apply wraps_join with x; [by right|constructor].
Qed.
