(* ===== verification/GormScope.v ===== *)
(** * Query scopes and a logger for GORM: [src/gorm/scope], [src/gorm/logger/multi]

    A scope is a function on queries.  The helpers of [helpers.go] build the queries
    and arguments they give to the methods of the database handle, which is a
    parameter; the methods of [Scopes] derive longer lists of scopes from shared
    ones, over slices and their arrays.  The logger passes calls on to others and
    evaluates the statement of a trace once. *)

From S2P Require Import Prelude GoSlices GoCase.
From stdpp Require Import strings.
From stdpp Require Import options.
From Stdlib Require Import Ascii.
Set Default Proof Using "Type*".
Local Open Scope string_scope.
Local Open Scope list_scope.

(** Arguments of the type [any]: strings, lists of arguments, and other values. *)
#[warnings="-register-all"]
Inductive any (V : Type) := Str (s : string) | Anys (l : list (any V)) | Val (v : V).
Arguments Str {V} _.
Arguments Anys {V} _.
Arguments Val {V} _.

(** [clause.OrderByColumn] of a column, or what a caller passes to [Order]. *)
Inductive order_by (V : Type) := OrderByColumn (name : string) (desc : bool) | OrderByAny (value : any V).
Arguments OrderByColumn {V} _ _.
Arguments OrderByAny {V} _.

(** The methods of [gorm.DB] that are called. *)
Class GormDB (V DB : Type) := {
  db_Order : order_by V -> DB -> DB;
  db_Offset : Z -> DB -> DB;
  db_Limit : Z -> DB -> DB;
  db_Where : any V -> list (any V) -> DB -> DB;
  db_Not : any V -> list (any V) -> DB -> DB
}.

Section Helpers.
Context {V DB : Type} `{!GormDB V DB} (upper_unicode : string -> string).
Local Abbreviation arg := (any V).
Local Abbreviation scope := (DB -> DB).

(** ** [helpers.go] *)

Definition When (condition : bool) (f : scope) : scope := fun db => if condition then f db else db.
Definition Unless (condition : bool) (f : scope) : scope := fun db => if negb condition then f db else db.

Definition reorderIsDesc (reorder : list string) : bool :=
  match reorder with [] => false | r :: _ => String.eqb (ToUpper upper_unicode r) "DESC" end.

Definition OrderBy (field : string) (reorder : list string) : scope :=
  db_Order (OrderByColumn field (reorderIsDesc reorder)).
Definition OrderByDesc (field : string) : scope := OrderBy field ["desc"].
Definition OrderByAsc (field : string) : scope := OrderBy field ["asc"].
Definition OrderByRaw (sql : arg) : scope := db_Order (OrderByAny sql).

Definition Offset (offset : Z) : scope := db_Offset offset.
Definition Skip (offset : Z) : scope := Offset offset.
Definition Limit (limit : Z) : scope := db_Limit limit.
Definition Take (limit : Z) : scope := Limit limit.

(** The product wraps. *)
Definition Page (page prePage : Z) : scope :=
  fun db => db_Limit prePage (db_Offset (wrap64 (wrap64 (page - 1) * prePage)) db).

Definition Where (query : arg) (args : list arg) : scope := db_Where query args.
Definition WhereBetween (field : string) (start end_ : arg) : scope :=
  db_Where (Str (field +:+ " BETWEEN ? AND ?")) [start; end_].
Definition WhereNotBetween (field : string) (start end_ : arg) : scope :=
  db_Where (Str (field +:+ " NOT BETWEEN ? AND ?")) [start; end_].

(** Several values are passed as one argument, a slice. *)
Definition WhereIn (field : string) (values : list arg) : scope :=
  if (1 <? length values)%nat then db_Where (Str (field +:+ " IN (?)")) [Anys values]
  else db_Where (Str (field +:+ " IN ?")) values.
Definition WhereNotIn (field : string) (values : list arg) : scope :=
  if (1 <? length values)%nat then db_Where (Str (field +:+ " NOT IN (?)")) [Anys values]
  else db_Where (Str (field +:+ " NOT IN ?")) values.

Definition WhereLike (field : string) (value : arg) : scope := db_Where (Str (field +:+ " LIKE ?")) [value].
Definition WhereNotLike (field : string) (value : arg) : scope := db_Where (Str (field +:+ " NOT LIKE ?")) [value].
Definition WhereEq (field : string) (value : arg) : scope := db_Where (Str (field +:+ " = ?")) [value].
Definition WhereEgt (field : string) (value : arg) : scope := db_Where (Str (field +:+ " >= ?")) [value].
Definition WhereGt (field : string) (value : arg) : scope := db_Where (Str (field +:+ " > ?")) [value].
Definition WhereElt (field : string) (value : arg) : scope := db_Where (Str (field +:+ " <= ?")) [value].
Definition WhereLt (field : string) (value : arg) : scope := db_Where (Str (field +:+ " < ?")) [value].
Definition WhereNe (field : string) (value : arg) : scope := db_Where (Str (field +:+ " != ?")) [value].
Definition WhereNot (query : arg) (args : list arg) : scope := db_Not query args.
Definition WhereNull (field : string) : scope := db_Where (Str (field +:+ " IS NULL")) [].
Definition WhereNotNull (field : string) : scope := db_Where (Str (field +:+ " IS NOT NULL")) [].

(** ** [scopes.go]

    [Scopes] is a slice of scopes.  [make] with a length and a capacity followed by
    [copy] gives a new array that begins with the elements of the old one. *)
Context {growth : Growth}.
Local Abbreviation heap := (arrays scope).

Definition make_copy (s : slice) (c : nat) (h : heap) : heap * slice :=
  (h ++ [overwrite 0 (contents h s) (replicate c None)], mkSlice (length h) (len s) c).

Definition Add (s : slice) (scopes : list scope) (h : heap) : heap * slice :=
  let '(h, ns) := make_copy s (len s + length scopes) h in append ns scopes h.

Definition ScopesWhen (s : slice) (condition : bool) (fc : scope) := Add s [When condition fc].
Definition ScopesUnless (s : slice) (condition : bool) (fc : scope) := Add s [Unless condition fc].
Definition ScopesOrderBy (s : slice) (column : string) (reorder : list string) := Add s [OrderBy column reorder].
Definition ScopesOrderByDesc (s : slice) (column : string) := ScopesOrderBy s column ["desc"].
Definition ScopesOrderByAsc (s : slice) (column : string) := ScopesOrderBy s column ["asc"].
Definition ScopesOrderByRaw (s : slice) (sql : arg) := Add s [OrderByRaw sql].
Definition ScopesOffset (s : slice) (offset : Z) := Add s [Offset offset].
Definition ScopesSkip (s : slice) (offset : Z) := ScopesOffset s offset.
Definition ScopesLimit (s : slice) (limit : Z) := Add s [Limit limit].
Definition ScopesTake (s : slice) (limit : Z) := ScopesLimit s limit.
Definition ScopesPage (s : slice) (page prePage : Z) := Add s [Page page prePage].
Definition ScopesWhere (s : slice) (query : arg) (args : list arg) := Add s [Where query args].
Definition ScopesWhereBetween (s : slice) (field : string) (start end_ : arg) := Add s [WhereBetween field start end_].
Definition ScopesWhereNotBetween (s : slice) (field : string) (start end_ : arg) :=
  Add s [WhereNotBetween field start end_].
Definition ScopesWhereIn (s : slice) (field : string) (values : list arg) := Add s [WhereIn field values].
Definition ScopesWhereNotIn (s : slice) (field : string) (values : list arg) := Add s [WhereNotIn field values].
Definition ScopesWhereLike (s : slice) (field : string) (value : arg) := Add s [WhereLike field value].
Definition ScopesWhereNotLike (s : slice) (field : string) (value : arg) := Add s [WhereNotLike field value].
Definition ScopesWhereEq (s : slice) (field : string) (value : arg) := Add s [WhereEq field value].
Definition ScopesWhereEgt (s : slice) (field : string) (value : arg) := Add s [WhereEgt field value].
Definition ScopesWhereGt (s : slice) (field : string) (value : arg) := Add s [WhereGt field value].
Definition ScopesWhereElt (s : slice) (field : string) (value : arg) := Add s [WhereElt field value].
Definition ScopesWhereLt (s : slice) (field : string) (value : arg) := Add s [WhereLt field value].
Definition ScopesWhereNe (s : slice) (field : string) (value : arg) := Add s [WhereNe field value].
Definition ScopesWhereNot (s : slice) (query : arg) (args : list arg) := Add s [WhereNot query args].
Definition ScopesWhereNull (s : slice) (field : string) := Add s [WhereNull field].
Definition ScopesWhereNotNull (s : slice) (field : string) := Add s [WhereNotNull field].

(** *** Derived lists are apart *)

Lemma make_copy_separate h s xs c ps : len s <= c -> holds h s xs -> separate h ps ->
  let '(h', s') := make_copy s c h in separate h' ((s', xs) :: ps).
Proof using Type.
  intros Hc Hs [Hp Ho]. unfold make_copy. rewrite (holds_contents _ _ _ Hs). destruct Hs as [Hlen _].
  apply separate_cons. cbn [fst snd]. split_and!.
  - split; [done|]. right. exists (replicate (c - length xs) None). cbn [arr cap len].
    rewrite list_lookup_middle by done. split; [|rewrite length_replicate; lia].
    unfold overwrite. simpl. by rewrite drop_replicate.
  - rewrite Forall_forall in *. intros [t zs] Hin. specialize (Hp _ Hin). cbn in *. unfold apart. cbn.
    destruct (decide (cap t = 0)); [by right; left|]. right; right. pose proof (holds_arr h t zs Hp). lia.
  - split; [|done]. eapply Forall_impl; [exact Hp|]. intros [t zs] H. by apply holds_grow.
Qed.

Lemma Add_separate h s xs ys ps : holds h s xs -> separate h ps ->
  let '(h', s') := Add s ys h in separate h' ((s', xs ++ ys) :: ps).
Proof using Type.
  intros Hs Hps. unfold Add.
  pose proof (make_copy_separate h s xs (len s + length ys) ps ltac:(lia) Hs Hps) as Hm.
  destruct (make_copy s (len s + length ys) h) as [h1 ns]. by apply separate_append.
Qed.

(** Deriving lists of scopes from earlier ones: from the [i]-th, by some scopes. *)
Fixpoint derive (ops : list (nat * list scope)) (st : heap * list slice) : heap * list slice :=
  match ops with
  | [] => st
  | (i, ys) :: ops =>
      let '(h, ss) := st in
      match ss !! i with
      | None => derive ops st
      | Some s => let '(h, s') := Add s ys h in derive ops (h, ss ++ [s'])
      end
  end.

(** The same on values that cannot be shared. *)
Fixpoint derive_lists (ops : list (nat * list scope)) (ls : list (list scope)) : list (list scope) :=
  match ops with
  | [] => ls
  | (i, ys) :: ops =>
      match ls !! i with
      | None => derive_lists ops ls
      | Some xs => derive_lists ops (ls ++ [xs ++ ys])
      end
  end.

Lemma derive_separate ops : forall h ss ls,
  length ss = length ls -> separate h (zip ss ls) ->
  let '(h', ss') := derive ops (h, ss) in
  length ss' = length (derive_lists ops ls) /\ separate h' (zip ss' (derive_lists ops ls)).
Proof using Type.
  induction ops as [|[i ys] ops IH]; intros h ss ls Hl Hsep; cbn [derive derive_lists]; [done|].
  destruct (ss !! i) as [s|] eqn:Es; destruct (ls !! i) as [xs|] eqn:Ex.
  - assert (holds h s xs) as Hs.
    { destruct Hsep as [Hp _]. rewrite Forall_forall in Hp.
      apply (Hp (s, xs)), (list_elem_of_lookup_2 _ i), lookup_zip_Some. done. }
    pose proof (Add_separate h s xs ys _ Hs Hsep) as Ha. destruct (Add s ys h) as [h1 s'].
    apply IH; [rewrite !length_app; simpl; lia|]. rewrite zip_with_app by done. simpl.
    by rewrite <- Permutation_cons_append.
  - apply lookup_lt_Some in Es. apply lookup_ge_None in Ex. lia.
  - apply lookup_lt_Some in Ex. apply lookup_ge_None in Es. lia.
  - by apply IH.
Qed.

Lemma contents_zip (h : heap) ss : forall ls, length ss = length ls ->
  Forall (fun p => holds h p.1 p.2) (zip ss ls) -> contents h <$> ss = ls.
Proof using Type.
  induction ss as [|s ss IH]; intros [|x ls] Hl Hp; try done. apply Forall_cons in Hp as [Hs Hp].
  rewrite fmap_cons, (holds_contents h s x Hs). f_equal. apply IH; [simpl in Hl; lia|done].
Qed.

(** Whatever lists of scopes are derived from whichever others, each holds the scopes
    of the one it came from followed by its own, as if lists were copied: deriving
    never changes a list that was derived before. *)
Theorem scopes_isolated ops h0 s0 :
  separate h0 [(s0, contents h0 s0)] ->
  let '(h, ss) := derive ops (h0, [s0]) in
  contents h <$> ss = derive_lists ops [contents h0 s0].
Proof using Type.
  intros Hs. pose proof (derive_separate ops h0 [s0] [contents h0 s0] eq_refl Hs) as H.
  destruct (derive ops (h0, [s0])) as [h ss]. destruct H as [Hl [Hp _]].
  by apply contents_zip.
Qed.
End Helpers.

(** ** What a scope asks for *)

(** A handle that records the calls. *)
Inductive db_call (V : Type) :=
| COrder (o : order_by V) | COffset (n : Z) | CLimit (n : Z)
| CWhere (query : any V) (args : list (any V)) | CNot (query : any V) (args : list (any V)).
Arguments COrder {V} _.
Arguments COffset {V} _.
Arguments CLimit {V} _.
Arguments CWhere {V} _ _.
Arguments CNot {V} _ _.

#[export] Instance recording V : GormDB V (list (db_call V)) := {|
  db_Order o l := l ++ [COrder o];
  db_Offset n l := l ++ [COffset n];
  db_Limit n l := l ++ [CLimit n];
  db_Where q args l := l ++ [CWhere q args];
  db_Not q args l := l ++ [CNot q args]
|}.

(** The placeholders of a query. *)
Fixpoint placeholders (s : string) : nat :=
  match s with EmptyString => 0 | String a s => (if Ascii.eqb a "?"%char then 1 else 0) + placeholders s end.

Lemma placeholders_app s t : placeholders (s +:+ t) = placeholders s + placeholders t.
Proof. induction s as [|a s IH]; [done|]. change (String a s +:+ t) with (String a (s +:+ t)). simpl. lia. Qed.

Definition matched {V} (c : db_call V) : Prop :=
  match c with CWhere (Str q) args => placeholders q = length args | _ => True end.

(** The conditions of the helpers have as many arguments as placeholders, if the
    column has none; for lists of values, if there are any. *)
Theorem conditions_matched {V} (field : string) (v w : any V) (values : list (any V)) l :
  placeholders field = 0 -> values <> [] -> Forall matched l ->
  Forall (fun s : list (db_call V) -> list (db_call V) => Forall matched (s l))
    [WhereBetween field v w; WhereNotBetween field v w; WhereIn field values; WhereNotIn field values;
     WhereLike field v; WhereNotLike field v; WhereEq field v; WhereEgt field v; WhereGt field v; WhereElt field v;
     WhereLt field v; WhereNe field v; WhereNull field; WhereNotNull field].
Proof.
  intros Hf Hv Hl. assert (forall t args, placeholders t = length args ->
    Forall matched (db_Where (Str (field +:+ t)) args l)) as Hw.
  { intros t args Ht. apply Forall_app. split; [done|]. constructor; [|done]. simpl. by rewrite placeholders_app, Hf. }
  assert (forall t1 t2, placeholders t1 = 1 -> placeholders t2 = 1 -> Forall matched
    ((if (1 <? length values)%nat then db_Where (Str (field +:+ t1)) [Anys values] else db_Where (Str (field +:+ t2)) values) l)) as Hin.
  { intros t1 t2 H1 H2. destruct (Nat.ltb_spec 1 (length values)); apply Hw; [done|].
    destruct values as [|x [|]]; [done|done|simpl in *; lia]. }
  repeat (apply Forall_cons; split); try (by apply Hw); try (by apply Hin). constructor.
Qed.

(** Without values the condition of [WhereIn] has a placeholder and no argument. *)
Theorem where_in_empty {V} (field : string) : placeholders field = 0 ->
  exists q, WhereIn field [] ([] : list (db_call V)) = [CWhere (Str q) []] /\ placeholders q = 1.
Proof. intros Hf. eexists. split; [done|]. by rewrite placeholders_app, Hf. Qed.

(** Pages are consecutive windows: a row is on the page of its number. *)
Theorem page_window {V} page per : (1 <= page)%Z -> (1 <= per)%Z -> int64_ok ((page - 1) * per) -> int64_ok page ->
  exists off, Page page per ([] : list (db_call V)) = [COffset off; CLimit per] /\ (0 <= off)%Z /\
    forall i, (0 <= i)%Z -> (off <= i < off + per)%Z <-> page = (i / per + 1)%Z.
Proof.
  intros Hp Hper Hok Hpok. exists ((page - 1) * per)%Z. unfold Page. simpl. split_and!.
  - rewrite (wrap64_id (page - 1)) by (int64_unfold; lia). by rewrite wrap64_id.
  - nia.
  - intros i Hi. pose proof (Z.div_mod i per ltac:(lia)). pose proof (Z.mod_pos_bound i per ltac:(lia)). split; [|nia].
    intros [H1 H2]. assert (i / per = page - 1)%Z; [|lia]. symmetry. apply (Z.div_unique_pos i per (page - 1) (i - (page - 1) * per)); lia.
Qed.

(** A page number so large that the product overflows asks for another page. *)
Theorem page_overflow {V} : Page (2 ^ 62 + 1) 4 ([] : list (db_call V)) = [COffset 0; CLimit 4].
Proof. vm_compute. reflexivity. Qed.

(** ** [logger/multi] *)

Section MultiLogger.
Context {W Level Msg Param : Type}.

(** A logger of GORM: a change of its level may give nil; [Info], [Warn] and [Error]
    act on the world; [Trace] calls the function it is given some times, each call
    seeing the results before it, and then acts on the world; it may filter
    parameters. *)
Definition statement := (string * Z)%type.
Inductive severity := Info | Warn | Error.

Record logger := mkLogger {
  lLevel : nat;
  lLog : severity -> Msg -> W -> W;
  lCalls : list statement -> bool;         (* whether it calls again *)
  lTrace : list statement -> option string -> W -> W;
  lFilter : option (string -> list Param -> string * list Param)
}.
Context (LogMode_ : Level -> logger -> option logger).

Definition New (loggers : list (option logger)) : list logger := omap id loggers.

Definition LogMode (level : Level) (l : list logger) : list logger :=
  New (Some <$> omap (LogMode_ level) l).

(** [Info], [Warn] and [Error] of the logger. *)
Definition Log (sev : severity) (msg : Msg) (l : list logger) (w : W) : W :=
  foldl (fun w item => lLog item sev msg w) w l.

Definition ParamsFilter (l : list logger) (sql : string) (params : list Param) : string * list Param :=
  foldl (fun '(sql, params) item => match lFilter item with Some f => f sql params | None => (sql, params) end)
    (sql, params) l.

(** A function that is traced: it acts on the world. *)
Definition trace_func := W -> W * statement.

Definition safeTraceFunc (fc : option trace_func) : trace_func :=
  match fc with Some fc => fc | None => fun w => (w, ("", 0%Z)) end.

(** [cacheTraceFunc]: [once] with the variables it fills. *)
Definition cacheTraceFunc (fc : trace_func) (st : W * option statement) : W * option statement * statement :=
  match st with
  | (w, Some r) => (w, Some r, r)
  | (w, None) => let '(w, r) := fc w in (w, Some r, r)
  end.

(** The calls a logger makes of [call], at most [fuel] of them. *)
Fixpoint trace_calls {S} (item : logger) (call : S -> S * statement) (seen : list statement) (fuel : nat) (st : S)
    : S * list statement :=
  match fuel with
  | O => (st, seen)
  | S fuel =>
      if lCalls item seen then let '(st, r) := call st in trace_calls item call (seen ++ [r]) fuel st else (st, seen)
  end.

(** [Trace] of a logger whose calls end within [fuel]. *)
Definition trace_cached (fuel : nat) (fc : trace_func) (err : option string) (st : W * option statement) (item : logger)
    : W * option statement :=
  let '(w, c, seen) := trace_calls item (fun st => let '(w, c, r) := cacheTraceFunc fc st in ((w, c), r)) [] fuel st in
  (lTrace item seen err w, c).

Definition Trace (fuel : nat) (l : list logger) (fc : option trace_func) (err : option string) (w : W) : W :=
  let fc := safeTraceFunc fc in
  match l with
  | [] => w
  | [item] => let '(w, seen) := trace_calls item fc [] fuel w in lTrace item seen err w
  | _ => (foldl (trace_cached fuel fc err) (w, None) l).1
  end.

(** *** One evaluation *)

Local Abbreviation cached fc := (fun st => let '(w, c, r) := cacheTraceFunc fc st in ((w, c), r)).

(** Calls of the cached function see one statement, which is computed by the first
    of them if it was not there. *)
Lemma trace_calls_cached item (fc : trace_func) fuel : forall seen w c w' c' seen',
  trace_calls item (cached fc) seen fuel (w, c) = ((w', c'), seen') -> Forall (fun r => c = Some r) seen ->
  Forall (fun r => c' = Some r) seen' /\
  match c with
  | Some r => w' = w /\ c' = Some r
  | None => w' = w /\ c' = None \/ w' = (fc w).1 /\ c' = Some (fc w).2
  end.
Proof using Type.
  induction fuel as [|fuel IH]; intros seen w c w' c' seen'; cbn [trace_calls].
  { intros [= <- <- <-] Hs. split; [done|]. destruct c; auto. }
  destruct (lCalls item seen); [|intros [= <- <- <-] Hs; split; [done|]; destruct c; auto].
  unfold cacheTraceFunc at 1. destruct c as [r|].
  - intros H Hs. apply IH in H; [done|]. apply Forall_app. split; [done|]. by constructor.
  - destruct (fc w) as [w1 r] eqn:E. intros H Hs. apply IH in H.
    + destruct H as (Hf & -> & ->). split; [done|]. right. done.
    + destruct seen as [|x seen]; [by constructor|]. by apply Forall_cons in Hs as [? _].
Qed.

(** With several loggers the function is evaluated at most once, whatever the loggers
    do: [cnt] counts its evaluations. *)
Theorem trace_once (cnt : W -> nat) fuel (l : list logger) fc err w : 2 <= length l ->
  (forall w, cnt (fc w).1 = S (cnt w)) ->
  (forall item seen e w, item ∈ l -> cnt (lTrace item seen e w) = cnt w) ->
  cnt w <= cnt (Trace fuel l (Some fc) err w) <= S (cnt w).
Proof using Type.
  intros Hl Hfc Htr. destruct l as [|i1 [|i2 l]]; [simpl in Hl; lia..|]. unfold Trace, safeTraceFunc.
  set (ls := i1 :: i2 :: l) in *. clearbody ls. clear Hl.
  assert (forall (w0 : W) c, (c = None /\ cnt w0 = cnt w) \/ (c <> None /\ cnt w <= cnt w0 <= S (cnt w)) ->
    let st := foldl (trace_cached fuel fc err) (w0, c) ls in cnt w <= cnt st.1 <= S (cnt w)) as H; [|by apply H; left].
  induction ls as [|item ls IH]; intros w0 c Hc; simpl; [destruct Hc as [[_ ->]|[_ Hc]]; simpl; lia|].
  destruct (trace_calls item (cached fc) [] fuel (w0, c)) as [[w1 c1] seen] eqn:E.
  assert (trace_cached fuel fc err (w0, c) item = (lTrace item seen err w1, c1)) as -> by (unfold trace_cached; by rewrite E).
  apply trace_calls_cached in E as [_ E]; [|constructor]. apply IH; [by intros; apply Htr; right|].
  rewrite Htr by left. destruct c as [r|].
  - destruct E as [-> ->]. destruct Hc as [[? _]|[_ Hc]]; [done|]. by right.
  - destruct Hc as [[_ Hc]|[? _]]; [|done]. destruct E as [[-> ->]|[-> ->]]; [by left|]. right. split; [done|].
    rewrite Hfc, Hc. lia.
Qed.
End MultiLogger.
