(* ===== verification/Crypto.v ===== *)
(** * Digests and encryption: [src/hashing], [src/encrypter]

    Digests with their hexadecimal and base64 forms, hashing of values, readers and
    files, and encryption in counter mode.  Hash functions and the block cipher are
    parameters; encodings, the comparison and the mode are computed on bytes. *)

From S2P Require Import Prelude GoErrors GoBase64.
From Stdlib Require Import Ascii.
From stdpp Require Import options.
Set Default Proof Using "Type*".
Local Abbreviation bytes := (list ascii).
Local Open Scope nat_scope.

(** ** Hexadecimal: [encoding/hex] *)

Definition hex_char (n : nat) : ascii := ascii_of_nat (if n <? 10 then 48 + n else 87 + n).
Definition hex_value (a : ascii) : option nat :=
  let c := nat_of_ascii a in
  if (48 <=? c) && (c <=? 57) then Some (c - 48)
  else if (97 <=? c) && (c <=? 102) then Some (c - 87)
  else if (65 <=? c) && (c <=? 70) then Some (c - 55) else None.

Definition hex_encode (b : bytes) : bytes :=
  b ≫= fun a => [hex_char (nat_of_ascii a / 16); hex_char (nat_of_ascii a mod 16)].

Fixpoint hex_decode (s : bytes) : option bytes :=
  match s with
  | [] => Some []
  | [_] => None
  | x :: y :: s =>
      hi ← hex_value x; lo ← hex_value y; rest ← hex_decode s; Some (ascii_of_nat (hi * 16 + lo) :: rest)
  end.

(** ** [digest.go] *)

Definition Digest := bytes.
Definition errHex : error := ErrMsg "encoding/hex: invalid".
Definition errBase64 : error := ErrMsg "illegal base64 data".

Definition NewDigest (sum : bytes) : Digest := sum.
Definition ParseHex (value : bytes) : Digest + error :=
  match hex_decode value with Some sum => inl sum | None => inr errHex end.
Definition ParseBase64 (value : bytes) : Digest + error :=
  match DecodeString value with Some sum => inl sum | None => inr errBase64 end.
Definition Bytes (d : Digest) : bytes := d.
Definition Hex (d : Digest) : bytes := hex_encode d.
Definition Base64 (d : Digest) : bytes := EncodeToString d.

Definition bit_xor (a b : ascii) : ascii :=
  match a, b with
  | Ascii a0 a1 a2 a3 a4 a5 a6 a7, Ascii b0 b1 b2 b3 b4 b5 b6 b7 =>
      Ascii (xorb a0 b0) (xorb a1 b1) (xorb a2 b2) (xorb a3 b3) (xorb a4 b4) (xorb a5 b5) (xorb a6 b6) (xorb a7 b7)
  end.
Definition bit_or (a b : ascii) : ascii :=
  match a, b with
  | Ascii a0 a1 a2 a3 a4 a5 a6 a7, Ascii b0 b1 b2 b3 b4 b5 b6 b7 =>
      Ascii (a0 || b0) (a1 || b1) (a2 || b2) (a3 || b3) (a4 || b4) (a5 || b5) (a6 || b6) (a7 || b7)
  end.

(** [subtle.ConstantTimeCompare]: the differences of all bytes are collected. *)
Definition ConstantTimeCompare (x y : bytes) : bool :=
  if length x =? length y then
    bool_decide (foldl (fun v ab => bit_or v (bit_xor ab.1 ab.2)) zero (zip x y) = zero)
  else false.
Definition Equal (d other : Digest) : bool := ConstantTimeCompare d other.

(** *** Round trips *)

Definition hex_ok (n : nat) : bool :=
  bool_decide (hex_value (hex_char (n / 16)) = Some (n / 16)) && bool_decide (hex_value (hex_char (n mod 16)) = Some (n mod 16)).
Lemma hex_all : forallb hex_ok (seq 0 256) = true.
Proof. vm_compute. reflexivity. Qed.

Lemma hex_decode_encode b : hex_decode (hex_encode b) = Some b.
Proof.
  induction b as [|a b IH]; [done|]. change (hex_encode (a :: b)) with
    (hex_char (nat_of_ascii a / 16) :: hex_char (nat_of_ascii a mod 16) :: hex_encode b). cbn [hex_decode].
  pose proof hex_all as Hall. rewrite forallb_forall in Hall.
  specialize (Hall (nat_of_ascii a) ltac:(apply in_seq; pose proof (byte_bound a); lia)).
  unfold hex_ok in Hall. rewrite andb_true_iff, !bool_decide_eq_true in Hall. destruct Hall as [-> ->].
  cbn [mbind option_bind]. rewrite IH. cbn [mbind option_bind]. do 2 f_equal.
  rewrite <- (ascii_nat_embedding a) at 3. f_equal. pose proof (Nat.div_mod_eq (nat_of_ascii a) 16). lia.
Qed.

Lemma bit_or_zero a b : bit_or a b = zero <-> a = zero /\ b = zero.
Proof.
  destruct a as [a0 a1 a2 a3 a4 a5 a6 a7], b as [b0 b1 b2 b3 b4 b5 b6 b7]. simpl. unfold zero. split.
  - intros [= H0 H1 H2 H3 H4 H5 H6 H7].
    apply orb_false_iff in H0 as [-> ->], H1 as [-> ->], H2 as [-> ->], H3 as [-> ->], H4 as [-> ->], H5 as [-> ->],
      H6 as [-> ->], H7 as [-> ->]. done.
  - by intros [[= -> -> -> -> -> -> -> ->] [= -> -> -> -> -> -> -> ->]].
Qed.

Lemma bit_xor_zero a b : bit_xor a b = zero <-> a = b.
Proof.
  destruct a as [a0 a1 a2 a3 a4 a5 a6 a7], b as [b0 b1 b2 b3 b4 b5 b6 b7]. simpl. unfold zero. split.
  - intros [= H0 H1 H2 H3 H4 H5 H6 H7].
    apply xorb_eq in H0, H1, H2, H3, H4, H5, H6, H7. by subst.
  - intros [= -> -> -> -> -> -> -> ->]. by rewrite !xorb_nilpotent.
Qed.

Lemma ConstantTimeCompare_spec x y : ConstantTimeCompare x y = true <-> x = y.
Proof.
  unfold ConstantTimeCompare. destruct (Nat.eqb_spec (length x) (length y)) as [Hl|Hl]; [|split; [done|by intros ->]].
  rewrite bool_decide_eq_true.
  assert (forall v, foldl (fun v ab => bit_or v (bit_xor ab.1 ab.2)) v (zip x y) = zero <-> v = zero /\ x = y) as H.
  { revert y Hl. induction x as [|a x IH]; intros [|b y] Hl v; try done; simpl; [tauto|].
    rewrite IH by (simpl in Hl; lia). rewrite bit_or_zero, bit_xor_zero. split; [by intros [[-> ->] ->]|].
    intros [-> [= -> ->]]. done. }
  rewrite H. tauto.
Qed.

(** Digests survive both text forms, and [Equal] is equality. *)
Theorem digest_roundtrip d other :
  ParseHex (Hex d) = inl d /\ ParseBase64 (Base64 d) = inl d /\ (Equal d other = true <-> d = other).
Proof.
  split_and!; [|unfold ParseBase64, Base64; by rewrite decode_encode|apply ConstantTimeCompare_spec].
  unfold ParseHex, Hex. by rewrite hex_decode_encode.
Qed.

(** ** [hasher.go] *)

(** A hash of the standard library, as its documentation has it: writing adds bytes
    to the running hash, and the sum does not change it. *)
Class Hash (H : Type) := { Write : bytes -> H -> H; Sum_ : H -> bytes }.
Class HashLaws (H : Type) `{!Hash H} := {
  write_app a b h : Write (a ++ b) h = Write b (Write a h);
  write_nil h : Write [] h = h
}.

(** What a reader gives: pieces, and then the end or an error. *)
Record reader := mkReader { pieces : list bytes; failure : option error }.

Definition ErrNilReader : error := ErrNew "hashing: nil reader".

Section Hasher.
Context {H : Type} `{!Hash H}.

(** [newHash], which may return nil: creating a hash then panics. *)
Variable (newHash : option H).

Definition Sum (value : bytes) : option Digest := h ← newHash; Some (Sum_ (Write value h)).
Definition SumString (value : bytes) : option Digest := h ← newHash; Some (Sum_ (Write value h)).

(** [io.Copy] writes every piece as it is read. *)
Definition SumReader (r : option reader) : option (Digest + error) :=
  match r with
  | None => Some (inr ErrNilReader)
  | Some r =>
      h ← newHash;
      let h := foldl (fun h piece => Write piece h) h (pieces r) in
      Some (match failure r with Some err => inr err | None => inl (Sum_ h) end)
  end.

(** Opening the file gives a reader and what closing it will return; the digest is
    kept next to an error. *)
Definition SumFile (open : (reader * option error) + error) : option (Digest * option error) :=
  match open with
  | inr err => Some ([], Some err)
  | inl (r, closeErr) =>
      d ← SumReader (Some r);
      Some (match d with
            | inl digest => (digest, errors_Join [None; closeErr])
            | inr err => ([], errors_Join [Some err; closeErr])
            end)
  end.

(** A stream has the digest of its bytes, however it is cut into pieces, and a file
    has it too unless reading or closing fails. *)
Theorem hash_stream `{!HashLaws H} ps closeErr :
  SumReader (Some (mkReader ps None)) = inl <$> Sum (concat ps) /\
  SumString (concat ps) = Sum (concat ps) /\
  SumFile (inl (mkReader ps None, closeErr)) = (fun d => (d, errors_Join [closeErr])) <$> Sum (concat ps).
Proof.
  assert (forall h, foldl (fun h piece => Write piece h) h ps = Write (concat ps) h) as Hf.
  { induction ps as [|p ps IH]; intros h; simpl; [by rewrite write_nil|]. by rewrite IH, write_app. }
  unfold SumFile, SumReader, SumString, Sum. destruct newHash as [h|]; simpl; [|done]. by rewrite Hf.
Qed.
End Hasher.

(** ** [encrypter.go] *)

(** [base64.URLEncoding]: the standard encoding with two other characters. *)
Definition url_char (a : ascii) : ascii :=
  if decide (a = "+"%char) then "-"%char else if decide (a = "/"%char) then "_"%char else a.
Definition std_char (a : ascii) : ascii :=
  if decide (a = "-"%char) then "+"%char else if decide (a = "_"%char) then "/"%char else a.
Definition url_encode (b : bytes) : bytes := url_char <$> EncodeToString b.
Definition url_decode (s : bytes) : option bytes :=
  if existsb (fun a => bool_decide (a = "+"%char) || bool_decide (a = "/"%char)) s then None
  else DecodeString (std_char <$> s).

Definition BlockSize : nat := 16.

(** The counter of the mode: a big-endian number that wraps. *)
Definition succ_byte (a : ascii) : ascii := ascii_of_nat ((nat_of_ascii a + 1) mod 256).
Fixpoint incr_le (b : bytes) : bytes :=
  match b with
  | [] => []
  | a :: b => if decide (a = ascii_of_nat 255) then ascii_of_nat 0 :: incr_le b else succ_byte a :: b
  end.
Definition incr (b : bytes) : bytes := reverse (incr_le (reverse b)).

Definition xor_bytes (a b : bytes) : bytes := zip_with bit_xor a b.

Section Encrypter.
Context {Key Block : Type}.

(** [aes.NewCipher] and the encryption of one block. *)
Variables (NewCipher : Key -> Block + error) (encrypt_block : Block -> bytes -> bytes).

Fixpoint keystream (block : Block) (counter : bytes) (n : nat) : bytes :=
  match n with O => [] | S n => encrypt_block block counter ++ keystream block (incr counter) n end.

(** [cipher.NewCTR(block, iv).XORKeyStream]. *)
Definition XORKeyStream (block : Block) (iv src : bytes) : bytes :=
  xor_bytes src (keystream block iv (length src)).

Record Encrypter := mkEncrypter { key : Key; cached_cipher : option Block }.
Definition New (key : Key) : Encrypter := mkEncrypter key None.

Definition getBlock (e : Encrypter) : Encrypter * (Block + error) :=
  match cached_cipher e with
  | Some c => (e, inl c)
  | None =>
      match NewCipher (key e) with
      | inr err => (e, inr err)
      | inl c => (mkEncrypter (key e) (Some c), inl c)
      end
  end.

Definition errTooShort : error := ErrMsg "ciphertext too short".

(** [random] is what reading [BlockSize] random bytes gives. *)
Definition Encrypt (random : bytes + error) (value : bytes) (e : Encrypter) : Encrypter * (bytes + error) :=
  match getBlock e with
  | (e, inr err) => (e, inr err)
  | (e, inl block) =>
      match random with
      | inr err => (e, inr err)
      | inl iv => (e, inl (url_encode (iv ++ XORKeyStream block iv value)))
      end
  end.

Definition Decrypt (value : bytes) (e : Encrypter) : Encrypter * (bytes + error) :=
  match url_decode value with
  | None => (e, inr errBase64)
  | Some ciphertext =>
      match getBlock e with
      | (e, inr err) => (e, inr err)
      | (e, inl block) =>
          if (length ciphertext <? BlockSize) then (e, inr errTooShort)
          else (e, inl (XORKeyStream block (take BlockSize ciphertext) (drop BlockSize ciphertext)))
      end
  end.
End Encrypter.

(** *** Round trip *)

Definition url_ok (n : nat) : bool :=
  let c := sextet n in
  bool_decide (std_char (url_char c) = c) && bool_decide (url_char c <> "+"%char) && bool_decide (url_char c <> "/"%char).
Lemma url_all : forallb url_ok (seq 0 64) = true.
Proof. vm_compute. reflexivity. Qed.

Lemma url_sextet n : n < 64 -> std_char (url_char (sextet n)) = sextet n /\
  url_char (sextet n) <> "+"%char /\ url_char (sextet n) <> "/"%char.
Proof.
  intros Hn. pose proof url_all as Hall. rewrite forallb_forall in Hall.
  specialize (Hall n ltac:(apply in_seq; lia)). unfold url_ok in Hall.
  rewrite !andb_true_iff, !bool_decide_eq_true in Hall. tauto.
Qed.

Lemma url_chars b : Forall (fun a => std_char (url_char a) = a /\ url_char a <> "+"%char /\ url_char a <> "/"%char) (EncodeToString b).
Proof.
  assert (std_char (url_char pad) = pad /\ url_char pad <> "+"%char /\ url_char pad <> "/"%char) as Hpad by (vm_compute; split_and!; done).
  induction b as [|x|x y|x y z rest IH] using three_ind; simpl; [constructor|..].
  - pose proof (group_bounds (nat_of_ascii x) 0 0 (byte_bound x)) as B.
    change (0 / 16) with 0 in B. rewrite ?Nat.add_0_r in B. destruct B as (? & ? & _); [lia..|].
    repeat (constructor; [first [exact Hpad | by apply url_sextet]|]). constructor.
  - pose proof (group_bounds (nat_of_ascii x) (nat_of_ascii y) 0 (byte_bound x) (byte_bound y)) as B.
    change (0 / 64) with 0 in B. rewrite ?Nat.add_0_r in B. destruct B as (? & ? & ? & _); [lia..|].
    repeat (constructor; [first [exact Hpad | by apply url_sextet]|]). constructor.
  - pose proof (group_bounds _ _ _ (byte_bound x) (byte_bound y) (byte_bound z)) as (? & ? & ? & ?).
    repeat (constructor; [by apply url_sextet|]). done.
Qed.

Lemma url_decode_encode b : url_decode (url_encode b) = Some b.
Proof.
  unfold url_decode, url_encode. pose proof (url_chars b) as Hc.
  assert (existsb (fun a => bool_decide (a = "+"%char) || bool_decide (a = "/"%char)) (url_char <$> EncodeToString b) = false) as ->.
  { induction Hc as [|a l (_ & H1 & H2) _ IH]; [done|]. cbn [fmap list_fmap existsb].
    rewrite IH, !bool_decide_false by done. done. }
  rewrite <- list_fmap_compose. assert ((std_char ∘ url_char) <$> EncodeToString b = EncodeToString b) as ->.
  { induction Hc as [|a l (H1 & _) _ IH]; [done|]. cbn [fmap list_fmap]. f_equal; [exact H1|exact IH]. }
  apply decode_encode.
Qed.

Lemma bit_xor_involutive a b : bit_xor (bit_xor a b) b = a.
Proof.
  destruct a as [a0 a1 a2 a3 a4 a5 a6 a7], b as [b0 b1 b2 b3 b4 b5 b6 b7]. simpl.
  by rewrite !xorb_assoc, !xorb_nilpotent, !xorb_false_r.
Qed.

Lemma bit_xor_shuffle a b c : bit_xor (bit_xor a b) c = bit_xor (bit_xor a c) b.
Proof.
  destruct a as [a0 a1 a2 a3 a4 a5 a6 a7], b as [b0 b1 b2 b3 b4 b5 b6 b7], c as [c0 c1 c2 c3 c4 c5 c6 c7]. simpl.
  by rewrite !(xorb_assoc _ _ (_ : bool)), (xorb_comm b0), (xorb_comm b1), (xorb_comm b2), (xorb_comm b3), (xorb_comm b4),
    (xorb_comm b5), (xorb_comm b6), (xorb_comm b7).
Qed.

Lemma xor_bytes_involutive a k : length a <= length k -> xor_bytes (xor_bytes a k) k = a.
Proof.
  unfold xor_bytes. revert k. induction a as [|x a IH]; intros [|y k] Hl; simpl in *; try done; [lia|].
  rewrite bit_xor_involutive, IH by lia. done.
Qed.

Lemma xor_bytes_length a k : length a <= length k -> length (xor_bytes a k) = length a.
Proof. intros. unfold xor_bytes. rewrite length_zip_with. lia. Qed.

Section EncrypterProofs.
Context {Key Block : Type} (NewCipher : Key -> Block + error) (encrypt_block : Block -> bytes -> bytes).
Hypothesis block_size : forall b c, length (encrypt_block b c) = BlockSize.

Lemma keystream_length block c n : n <= length (keystream encrypt_block block c n).
Proof.
  revert c. induction n as [|n IH]; intros c; simpl; [lia|]. rewrite length_app, block_size. specialize (IH (incr c)).
  unfold BlockSize. lia.
Qed.

Lemma XORKeyStream_length block iv src : length (XORKeyStream encrypt_block block iv src) = length src.
Proof. apply xor_bytes_length, keystream_length. Qed.

Lemma XORKeyStream_twice block iv src :
  XORKeyStream encrypt_block block iv (XORKeyStream encrypt_block block iv src) = src.
Proof.
  unfold XORKeyStream at 1. rewrite XORKeyStream_length. apply xor_bytes_involutive, keystream_length.
Qed.

(** What an encrypter keeps is the cipher of its key. *)
Definition coherent (e : @Encrypter Key Block) : Prop :=
  forall c, cached_cipher e = Some c -> NewCipher (key e) = inl c.

Lemma getBlock_spec e : coherent e ->
  (getBlock NewCipher e).2 = NewCipher (key e) /\ key (getBlock NewCipher e).1 = key e /\ coherent (getBlock NewCipher e).1.
Proof using Type.
  intros He. unfold getBlock. destruct (cached_cipher e) as [c|] eqn:E; simpl.
  - by rewrite (He c E).
  - destruct (NewCipher (key e)) as [c|err] eqn:En; simpl; split_and!; try done. by intros c' [= <-].
Qed.

Lemma Decrypt_bytes e iv c : coherent e -> length iv = BlockSize ->
  (Decrypt NewCipher encrypt_block (url_encode (iv ++ c)) e).2 =
    match NewCipher (key e) with inl block => inl (XORKeyStream encrypt_block block iv c) | inr err => inr err end.
Proof using Type.
  intros He Hiv. unfold Decrypt. rewrite url_decode_encode. destruct (getBlock_spec e He) as (Hb & _).
  destruct (getBlock NewCipher e) as [e1 [block|err]]; simpl in Hb; rewrite <- Hb; [|done].
  destruct (Nat.ltb_spec (length (iv ++ c)) BlockSize) as [Hlt|_]; [rewrite length_app in Hlt; lia|]. simpl.
  by rewrite take_app_length', drop_app_length' by done.
Qed.

(** C40: for every key that the cipher accepts and every random vector, [Encrypt]
    succeeds and any encrypter of the same key, whatever it has done before,
    decrypts the result to the value; a key that is refused makes both fail with its
    error. *)
Theorem encrypt_roundtrip e e' iv value :
  coherent e -> coherent e' -> key e' = key e -> length iv = BlockSize ->
  match NewCipher (key e) with
  | inl _ => exists c, (Encrypt NewCipher encrypt_block (inl iv) value e).2 = inl c /\
      (Decrypt NewCipher encrypt_block c e').2 = inl value
  | inr err => (Encrypt NewCipher encrypt_block (inl iv) value e).2 = inr err /\
      forall c b, url_decode c = Some b -> (Decrypt NewCipher encrypt_block c e').2 = inr err
  end.
Proof.
  intros He He' Hk Hiv. destruct (getBlock_spec e He) as (Hb & _). unfold Encrypt.
  destruct (getBlock NewCipher e) as [e1 [block|err]]; simpl in Hb; rewrite <- Hb.
  - eexists. split; [done|]. rewrite Decrypt_bytes, Hk, <- Hb by done. by rewrite XORKeyStream_twice.
  - split; [done|]. intros c b Hc. unfold Decrypt. rewrite Hc. destruct (getBlock_spec e' He') as (Hb' & _).
    rewrite Hk, <- Hb in Hb'. destruct (getBlock NewCipher e') as [e2 r]. simpl in Hb'. by subst r.
Qed.

(** The text is not authenticated: whoever changes bits of the encrypted bytes changes
    the same bits of the value, and decryption does not notice. *)
Theorem encrypt_malleable e e' iv value delta :
  coherent e -> coherent e' -> key e' = key e -> length iv = BlockSize -> length delta = length value ->
  forall block, NewCipher (key e) = inl block ->
  exists b, (Encrypt NewCipher encrypt_block (inl iv) value e).2 = inl (url_encode (iv ++ b)) /\
    (Decrypt NewCipher encrypt_block (url_encode (iv ++ xor_bytes b delta)) e').2 = inl (xor_bytes value delta).
Proof.
  intros He He' Hk Hiv Hd block Hblock. destruct (getBlock_spec e He) as (Hb & _). unfold Encrypt.
  destruct (getBlock NewCipher e) as [e1 r]. simpl in Hb. subst r. rewrite Hblock.
  exists (XORKeyStream encrypt_block block iv value). split; [done|].
  rewrite Decrypt_bytes, Hk, Hblock by done. f_equal. unfold XORKeyStream.
  pose proof (keystream_length block iv (length value)) as Hks.
  rewrite !xor_bytes_length by (rewrite ?xor_bytes_length by lia; lia).
  set (ks := keystream encrypt_block block iv (length value)) in *. clearbody ks. clear -Hd Hks. unfold xor_bytes.
  revert delta ks Hd Hks. induction value as [|x value IH]; intros [|d delta] [|k ks] Hd Hks; simpl in *; try done; try lia.
  rewrite IH by lia. f_equal. by rewrite (bit_xor_shuffle _ d k), bit_xor_involutive.
Qed.
End EncrypterProofs.

(** A block cipher for the witness: the block is the key. *)
Module CryptoDemo.
Definition demo_cipher (k : bytes) : bytes + error := if length k =? 16 then inl k else inr (ErrMsg "invalid key size").
Definition demo_block (k c : bytes) : bytes := take BlockSize (xor_bytes c k ++ replicate BlockSize zero).
Definition k16 : bytes := replicate 16 "k"%char.
Definition iv16 : bytes := replicate 16 (ascii_of_nat 255).
Definition hello : bytes := ["h"; "e"; "l"; "l"; "o"]%char.

Lemma encrypt_roundtrip_witness :
  exists c, (Encrypt demo_cipher demo_block (inl iv16) hello (New k16)).2 = inl c /\
    (Decrypt demo_cipher demo_block c (New k16)).2 = inl hello.
Proof.
  refine (encrypt_roundtrip demo_cipher demo_block _ (New k16) (New k16) iv16 hello _ _ _ _).
  - intros b c. unfold demo_block. rewrite length_take, length_app, length_replicate. unfold BlockSize. lia.
  - intros c [=].
  - intros c [=].
  - reflexivity.
  - reflexivity.
Defined.
End CryptoDemo.
