(* ===== verification/StringsText.v ===== *)
(** * Strings as text: the rest of [src/strings/strings.go]

    Functions on the characters of a string, on random draws, and digests.  A
    string is a list of bytes; its characters are those of [GoRunes].  Indexing out
    of range, where the code would panic, is [None].  The random source is an
    argument: what [rand] returns at each turn. *)

From S2P Require Import Prelude GoSHA256 GoUtf8 GoRunes GoDigests GoCase Strings Crypto.
From Stdlib Require Import Ascii.
From stdpp Require Import options.
Set Default Proof Using "Type*".
Local Open Scope nat_scope.

(** ** Digests *)

Definition MD5 (s : bytes) : bytes := hex_encode (md5_Sum s).
Definition SHA1 (s : bytes) : bytes := hex_encode (sha1_Sum s).

(** ** Characters *)

(** [l[i], l[j] = l[j], l[i]] *)
Definition swap {A} (l : list A) (i j : nat) : option (list A) :=
  x ← l !! i; y ← l !! j; Some (<[j := x]> (<[i := y]> l)).

(** The loop of [Reverse], whose turns are at most half the length. *)
Fixpoint reverse_loop {A} (fuel : nat) (runes : list A) (i j : nat) : option (list A) :=
  match fuel with
  | 0 => Some runes
  | S fuel => if i <? j then runes ← swap runes i j; reverse_loop fuel runes (i + 1) (j - 1) else Some runes
  end.
Definition Reverse (s : bytes) : option bytes :=
  let rs := runes s in
  rs ← reverse_loop (length rs) rs 0 (length rs - 1); Some (string_of_runes rs).

Definition Len (s : bytes) : nat := RuneCount s.

(** [rand.Shuffle]: from the last index down to the first but one, with a draw of
    [0..i] each. *)
Fixpoint shuffle_loop {A} (draw : nat -> nat) (i : nat) (ss : list A) : option (list A) :=
  match i with
  | 0 => Some ss
  | S i' => ss ← swap ss i (draw i); shuffle_loop draw i' ss
  end.
Definition Shuffle (draw : nat -> nat) (s : bytes) : option bytes :=
  let ss := chars s in
  ss ← shuffle_loop draw (length ss - 1) ss; Some (concat ss).

Definition randomLetters : bytes := lit "abcdefghijklmnopqrstuvwxyzABCDEFGHIJKLMNOPQRSTUVWXYZ".

(** The draw of turn [i] is an index of [letters]. *)
Definition Random (draw : nat -> nat) (length : Z) : option bytes :=
  if (length <=? 0)%Z then Some []
  else let letters := runes randomLetters in
       b ← mapM (fun i => letters !! draw i) (seq 0 (Z.to_nat length)); Some (string_of_runes b).

(** ** White space *)

Definition space_char (c : bytes) : bool := IsSpace (decode_rune c).1.

(** [strings.FieldsFunc]: [cur] are the characters since the start of the field, none
    when there is no field. *)
Fixpoint fields_loop (cs cur : list bytes) : list (list bytes) :=
  match cs with
  | [] => match cur with [] => [] | _ => [cur] end
  | c :: cs =>
      if space_char c then match cur with [] => fields_loop cs [] | _ => cur :: fields_loop cs [] end
      else fields_loop cs (cur ++ [c])
  end.
Definition Fields (s : bytes) : list bytes := concat (A:=ascii) <$> fields_loop (chars s) [].

(** [strings.Join] *)
Fixpoint join {A} (sep : list A) (l : list (list A)) : list A :=
  match l with
  | [] => []
  | [x] => x
  | x :: l => x ++ sep ++ join sep l
  end.

Definition NormalizeSpace (s : bytes) : bytes := join (lit " ") (Fields s).

(** ** [Replace]

    [strings.NewReplacer] with one pair.  With an empty [from] it writes [to]
    before every byte and at the end. *)
Fixpoint replace_loop (fuel : nat) (s from to : bytes) : bytes :=
  match fuel with
  | 0 => s
  | S fuel =>
      match Index s from with
      | None => s
      | Some i => take i s ++ to ++ replace_loop fuel (drop (i + length from) s) from to
      end
  end.
Definition Replace (s from to : bytes) : bytes :=
  match from with
  | [] => to ++ (s ≫= fun a => a :: to)
  | _ => replace_loop (length s) s from to
  end.

(** ** [IsUUID]

    The regular expression consumes digits and dashes one after the other. *)
Definition is_hex (a : ascii) : bool := between_ascii 48 57 a || between_ascii 97 102 a || between_ascii 65 70 a.

Fixpoint match_hex (n : nat) (s : bytes) : option bytes :=
  match n, s with
  | 0, _ => Some s
  | S n, a :: s => if is_hex a then match_hex n s else None
  | S _, [] => None
  end.
Definition match_dash (s : bytes) : option bytes :=
  match s with a :: s => if bool_decide (a = "-"%char) then Some s else None | [] => None end.

Definition uuidRegex (s : bytes) : option bytes :=
  s ← match_hex 8 s; s ← match_dash s; s ← match_hex 4 s; s ← match_dash s;
  s ← match_hex 4 s; s ← match_dash s; s ← match_hex 4 s; s ← match_dash s; match_hex 12 s.
Definition IsUUID (str : bytes) : bool := match uuidRegex str with Some [] => true | _ => false end.

(** ** Reversing *)

Lemma swap_ends {A} (a b m : list A) x y :
  swap (a ++ x :: m ++ y :: b) (length a) (length a + S (length m)) = Some (a ++ y :: m ++ x :: b).
Proof.
  unfold swap. rewrite lookup_snoc_length. cbn [mbind option_bind].
  replace (a ++ x :: m ++ y :: b) with ((a ++ x :: m) ++ y :: b) by by rewrite <- app_assoc.
  assert (E : length a + S (length m) = length (a ++ x :: m)) by (rewrite length_app; done).
  rewrite E, lookup_snoc_length. cbn [mbind option_bind]. f_equal.
  rewrite <- app_assoc. simpl. rewrite insert_app_snoc.
  replace (a ++ y :: m ++ y :: b) with ((a ++ y :: m) ++ y :: b) by by rewrite <- app_assoc.
  assert (E' : length (a ++ x :: m) = length (a ++ y :: m)) by by rewrite !length_app.
  rewrite E', insert_app_snoc. by rewrite <- app_assoc.
Qed.

(** The loop exchanges what is outside in and leaves the middle to be reversed. *)
Lemma reverse_loop_spec {A} fuel (a m b : list A) : length m <= fuel ->
  reverse_loop fuel (a ++ m ++ b) (length a) (length a + length m - 1) = Some (a ++ reverse m ++ b).
Proof.
  revert a m b. induction fuel as [|fuel IH]; intros a m b Hm; [destruct m; [done|simpl in Hm; lia]|].
  destruct m as [|x m]; simpl.
  { destruct (Nat.ltb_spec (length a) (length a + 0 - 1)); [lia|done]. }
  destruct m as [|y m' _] using rev_ind; simpl in *.
  { destruct (Nat.ltb_spec (length a) (length a + 1 - 1)); [lia|done]. }
  rewrite length_app in *. simpl in *. destruct (Nat.ltb_spec (length a) (length a + S (length m' + 1) - 1)); [|lia].
  replace (length a + S (length m' + 1) - 1) with (length a + S (length m')) by lia.
  rewrite <- app_assoc. simpl. rewrite swap_ends. cbn [mbind option_bind].
  specialize (IH (a ++ [y]) m' (x :: b) ltac:(lia)). rewrite length_app in IH. simpl in IH.
  rewrite <- app_assoc in IH. simpl in IH. replace (length a + S (length m') - 1) with (length a + 1 + length m' - 1) by lia.
  rewrite IH. f_equal. rewrite <- app_assoc. simpl. f_equal.
  rewrite reverse_cons, reverse_app. simpl. by rewrite <- app_assoc.
Qed.

Lemma Reverse_eq s : Reverse s = Some (string_of_runes (reverse (runes s))).
Proof.
  unfold Reverse. pose proof (reverse_loop_spec (length (runes s)) [] (runes s) [] ltac:(done)) as H.
  simpl in H. rewrite !app_nil_r in H. by rewrite H.
Qed.

Lemma RuneCount_runes s : RuneCount s = length (runes s).
Proof. unfold RuneCount, runes. by rewrite length_fmap. Qed.

(** Reversing never panics; the runes of the result are those of the string in reverse
    order, so that their number is kept and a valid string is restored by reversing
    it twice. *)
Theorem Reverse_reverses s : exists t, Reverse s = Some t /\ runes t = reverse (runes s) /\ Len t = Len s /\
  (utf8_valid (S (length s)) (nat_of_ascii <$> s) = true -> Reverse t = Some s).
Proof.
  exists (string_of_runes (reverse (runes s))). rewrite !Reverse_eq. unfold Len. rewrite !RuneCount_runes, runes_string.
  assert (E : shown <$> reverse (runes s) = reverse (runes s)).
  { apply shown_scalars, Forall_reverse, runes_scalar. }
  rewrite E, length_reverse, reverse_involutive. split_and!; [done..|].
  intros Hv. f_equal. apply string_runes. by eapply valid_chars; [|exact Hv]; lia.
Qed.

(** ** Shuffling *)

Lemma swap_Some {A} (l : list A) i j x y : l !! i = Some x -> l !! j = Some y ->
  swap l i j = Some (<[j := x]> (<[i := y]> l)).
Proof. intros Hi Hj. unfold swap. by rewrite Hi, Hj. Qed.

(** Exchanging the element after a prefix with one of the prefix, or with itself. *)
Lemma swap_last {A} (l r : list A) (x y : A) j : (l ++ [x]) !! j = Some y ->
  exists l', swap (l ++ x :: r) (length l) j = Some (l' ++ y :: r) /\ Permutation (l' ++ [y]) (l ++ [x]) /\ length l' = length l.
Proof.
  intros Hj. pose proof (lookup_lt_Some _ _ _ Hj) as Hlt. rewrite length_app in Hlt. simpl in Hlt.
  rewrite (swap_Some _ _ _ x y); [|apply lookup_snoc_length|].
  2:{ replace (l ++ x :: r) with ((l ++ [x]) ++ r) by by rewrite <- app_assoc. by apply lookup_app_l_Some. }
  rewrite insert_app_snoc. destruct (decide (j = length l)) as [->|Hne].
  - rewrite lookup_snoc_length in Hj. injection Hj as ->. exists l. by rewrite insert_app_snoc.
  - rewrite lookup_app_l in Hj by lia. exists (<[j := x]> l). rewrite insert_app_l by lia. split_and!; [done| |by rewrite length_insert].
    rewrite (Permutation_app_comm _ [y]), (Permutation_app_comm l [x]).
    pose proof (bind_insert_perm (fun z => [z]) l j y x Hj) as H. simpl in H.
    assert (Hs : forall k : list A, (k ≫= fun z => [z]) = k) by (induction k as [|z k IH]; [done|]; rewrite bind_cons, IH; done).
    by rewrite !Hs in H.
Qed.

Lemma snoc_split {A} (l : list A) n : length l = S n -> exists l' x, l = l' ++ [x] /\ length l' = n.
Proof.
  intros H. destruct l as [|x l' _] using rev_ind; [done|]. rewrite length_app in H. simpl in H.
  exists l', x. split; [done|lia].
Qed.

(** With draws in range the loop permutes the elements up to its index. *)
Lemma shuffle_turns_perm {A} draw i (l r : list A) : (forall k, k <= i -> draw k <= k) -> length l = S i ->
  exists l', shuffle_loop draw i (l ++ r) = Some (l' ++ r) /\ Permutation l' l.
Proof.
  revert l r. induction i as [|i IH]; intros l r Hd Hl; [by exists l|].
  destruct (snoc_split l (S i) Hl) as (l0 & x & -> & Hl0).
  destruct (lookup_lt_is_Some_2 (l0 ++ [x]) (draw (S i))) as [y Hy].
  { rewrite Hl. specialize (Hd (S i) ltac:(lia)). lia. }
  destruct (swap_last l0 r x y _ Hy) as (l1 & Hs & Hp & Hl1).
  destruct (IH l1 (y :: r)) as (l' & El & Pl); [intros k Hk; apply Hd; lia|by rewrite Hl1|].
  exists (l' ++ [y]). cbn [shuffle_loop]. rewrite <- !app_assoc. cbn [app]. rewrite Hl0 in Hs. rewrite Hs. cbn [mbind option_bind].
  rewrite El. split; [done|]. by rewrite Pl.
Qed.

Lemma shuffle_turns_ext {A} d d' i (l : list A) : (forall k, k <= i -> d k = d' k) -> shuffle_loop d i l = shuffle_loop d' i l.
Proof.
  revert l. induction i as [|i IH]; intros l H; [done|]. cbn [shuffle_loop]. rewrite (H (S i)) by lia.
  destruct (swap _ _ _) as [l'|]; [|done]. cbn [mbind option_bind]. apply IH. intros k Hk. apply H. lia.
Qed.

(** Every permutation is the result of some draws. *)
Lemma shuffle_turns_any {A} i (l r t : list A) : length l = S i -> Permutation t l ->
  exists draw, (forall k, draw k <= k) /\ shuffle_loop draw i (l ++ r) = Some (t ++ r).
Proof.
  revert l r t. induction i as [|i IH]; intros l r t Hl Hp.
  { exists (fun _ => 0). split; [lia|]. destruct l as [|x [|]]; try done. apply Permutation_singleton_r in Hp as ->. done. }
  pose proof (Permutation_length Hp) as Ht. rewrite Hl in Ht.
  destruct (snoc_split l (S i) Hl) as (l0 & x & -> & Hl0). destruct (snoc_split t (S i) Ht) as (t0 & y & -> & Ht0).
  assert (Hy : y ∈ l0 ++ [x]) by (rewrite <- Hp; apply elem_of_app; right; by left).
  apply list_elem_of_lookup in Hy as [j Hj]. pose proof (lookup_lt_Some _ _ _ Hj) as Hlt. rewrite Hl in Hlt.
  destruct (swap_last l0 r x y j Hj) as (l1 & Hs & Hp1 & Hl1).
  assert (Hp2 : Permutation t0 l1). { apply (Permutation_app_inv_r [y]). by rewrite Hp1. }
  destruct (IH l1 (y :: r) t0) as (d & Hd & Ed); [by rewrite Hl1|done|].
  exists (fun k => if decide (k = S i) then j else d k). split.
  { intros k. case_decide; [lia|apply Hd]. }
  cbn [shuffle_loop]. rewrite decide_True by done. rewrite <- !app_assoc. cbn [app]. rewrite Hl0 in Hs. rewrite Hs. cbn [mbind option_bind].
  rewrite <- Ed. apply shuffle_turns_ext. intros k Hk. case_decide; [lia|done].
Qed.

(** Shuffling permutes the characters of a string, and every permutation of them is
    the result of some draws. *)
Theorem Shuffle_permutations s t :
  (exists draw, (forall k, draw k <= k) /\ Shuffle draw s = Some t) <-> exists ss, Permutation ss (chars s) /\ t = concat ss.
Proof.
  unfold Shuffle. destruct (decide (chars s = [])) as [E|Hne].
  { rewrite E. simpl. split.
    - intros (_ & _ & [= <-]). by exists [].
    - intros (ss & ->%Permutation_nil_r & ->). by exists (fun _ => 0); split; [lia|]. }
  assert (Hl : length (chars s) = S (length (chars s) - 1)) by (destruct (chars s); simpl in *; [done|lia]).
  split.
  - intros (draw & Hd & Ht). destruct (shuffle_turns_perm draw _ (chars s) [] (fun k _ => Hd k) Hl) as (ss & Es & Hp).
    rewrite !app_nil_r in Es. rewrite Es in Ht. injection Ht as <-. by exists ss.
  - intros (ss & Hp & ->). destruct (shuffle_turns_any _ (chars s) [] ss Hl Hp) as (draw & Hd & Es).
    rewrite !app_nil_r in Es. exists draw. by rewrite Es.
Qed.

(** With draws in range it does not panic. *)
Theorem Shuffle_total draw s : (forall k, draw k <= k) -> is_Some (Shuffle draw s).
Proof.
  intros Hd. unfold Shuffle. destruct (chars s) as [|c cs] eqn:E; [done|].
  destruct (shuffle_turns_perm draw (length (c :: cs) - 1) (c :: cs) [] (fun k _ => Hd k)) as (ss & Es & _); [simpl; lia|].
  rewrite !app_nil_r in Es. by rewrite Es.
Qed.

(** ** Random letters *)

Lemma letters_runes : runes randomLetters = byte_z <$> randomLetters.
Proof. vm_compute. reflexivity. Qed.

Lemma letters_encode a : a ∈ randomLetters -> encode_rune (byte_z a) = [a].
Proof.
  assert (H : forallb (fun a => bool_decide (encode_rune (byte_z a) = [a])) randomLetters = true) by (vm_compute; reflexivity).
  rewrite forallb_forall in H. intros Ha%list_elem_of_In%H. by apply bool_decide_eq_true in Ha.
Qed.

Lemma encode_letters (l : bytes) : Forall (.∈ randomLetters) l -> string_of_runes (byte_z <$> l) = l.
Proof.
  induction 1 as [|a l Ha _ IH]; [done|]. unfold string_of_runes in *. rewrite fmap_cons, bind_cons, IH, letters_encode by done. done.
Qed.

(** Draws in range give letters... *)
Lemma drawn_letters (draw : nat -> nat) ks b : mapM (fun i => (byte_z <$> randomLetters) !! draw i) ks = Some b ->
  exists l, b = byte_z <$> l /\ Forall (.∈ randomLetters) l /\ length l = length ks.
Proof.
  intros E%mapM_Some. induction E as [|i c ks b Hi _ IH]; [by exists []|].
  destruct IH as (l & -> & Hl & Hlen). rewrite list_lookup_fmap in Hi.
  destruct (randomLetters !! draw i) as [a|] eqn:Ea; [|done]. injection Hi as <-.
  exists (a :: l). split_and!; [done| |simpl; by f_equal]. constructor; [by eapply list_elem_of_lookup_2|done].
Qed.

(** ...and letters are drawn by their indices. *)
Definition index_of (a : ascii) : nat := match list_find (eq a) randomLetters with Some (k, _) => k | None => 0 end.

Lemma index_of_range a : index_of a < 52.
Proof.
  unfold index_of. destruct (list_find _ _) as [[k x]|] eqn:E; [|lia].
  apply list_find_Some in E as (E & _). by apply lookup_lt_Some in E.
Qed.

Lemma index_of_letter a : a ∈ randomLetters -> randomLetters !! index_of a = Some a.
Proof.
  intros Ha. unfold index_of. destruct (list_find_elem_of (eq a) _ a Ha eq_refl) as [[k x] E].
  rewrite E. by apply list_find_Some in E as (E & -> & _).
Qed.

Lemma draw_letters (s : bytes) : Forall (.∈ randomLetters) s ->
  mapM (fun i => (byte_z <$> randomLetters) !! from_option index_of 0 (s !! i)) (seq 0 (length s)) = Some (byte_z <$> s).
Proof.
  intros Hs. apply mapM_Some, Forall2_same_length_lookup_2; [by rewrite length_seq, length_fmap|].
  intros i x y Hx Hy. apply lookup_seq in Hx as [-> _]. rewrite list_lookup_fmap in *. simpl.
  destruct (s !! i) as [a|] eqn:Ea; [|done]. simpl. rewrite index_of_letter; [done|]. rewrite Forall_lookup in Hs. by eapply Hs.
Qed.

(** The strings [Random] can return are those of as many letters as it was asked for. *)
Theorem Random_letters n s :
  (exists draw, (forall i, draw i < 52) /\ Random draw n = Some s) <->
  length s = Z.to_nat n /\ Forall (.∈ randomLetters) s.
Proof.
  unfold Random. rewrite letters_runes. destruct (Z.leb_spec n 0).
  { replace (Z.to_nat n) with 0 by lia. split.
    - intros (_ & _ & [= <-]). by split.
    - intros [?%nil_length_inv _]. subst. exists (fun _ => 0). split; [lia|done]. }
  split.
  - intros (draw & Hd & Hs). destruct (mapM _ _) as [b|] eqn:E; [|done]. injection Hs as <-.
    apply drawn_letters in E as (l & -> & Hl & Hlen). rewrite encode_letters by done. by rewrite Hlen, length_seq.
  - intros [Hlen Hs]. exists (fun i => from_option index_of 0 (s !! i)). split.
    + intros i. destruct (s !! i); simpl; [apply index_of_range|lia].
    + rewrite <- Hlen, draw_letters by done. cbn [mbind option_bind]. by rewrite encode_letters.
Qed.

(** With draws in range it does not panic. *)
Theorem Random_total draw n : (forall i, draw i < 52) -> is_Some (Random draw n).
Proof.
  intros Hd. unfold Random. case_match; [done|]. rewrite letters_runes.
  destruct (mapM_is_Some_2 (fun i => (byte_z <$> randomLetters) !! draw i) (seq 0 (Z.to_nat n))) as [b ->]; [|done].
  apply Forall_forall. intros i _. apply lookup_lt_is_Some_2. rewrite length_fmap. apply Hd.
Qed.

(** ** White space *)

Definition word (g : list bytes) : Prop := g <> [] /\ Forall (fun c => space_char c = false) g.

Lemma fields_loop_word g cs cur : Forall (fun c => space_char c = false) g -> fields_loop (g ++ cs) cur = fields_loop cs (cur ++ g).
Proof.
  intros H. revert cur. induction H as [|c g Hc _ IH]; intros cur; simpl; [by rewrite app_nil_r|].
  by rewrite Hc, IH, <- app_assoc.
Qed.

(** Fields are words, in order, and lose nothing but white space. *)
Lemma fields_loop_words cs cur : Forall (fun c => space_char c = false) cur -> Forall word (fields_loop cs cur).
Proof.
  revert cur. induction cs as [|c cs IH]; intros cur Hc; simpl.
  - destruct cur; [constructor|]. repeat constructor; [done|by inversion Hc|by inversion Hc].
  - destruct (space_char c) eqn:E.
    + destruct cur; [by apply IH|]. constructor; [by split|by apply IH].
    + apply IH, Forall_app_2; [done|by repeat constructor].
Qed.

Lemma fields_loop_concat cs cur : concat (fields_loop cs cur) = cur ++ filter (fun c => space_char c = false) cs.
Proof.
  revert cur. induction cs as [|c cs IH]; intros cur; simpl.
  - destruct cur; simpl; by rewrite ?app_nil_r.
  - rewrite filter_cons. destruct (space_char c) eqn:E.
    + rewrite decide_False by congruence. destruct cur; simpl; rewrite IH; done.
    + rewrite decide_True by done. rewrite IH, <- app_assoc. done.
Qed.

Lemma fields_loop_segment cs cur g : g ∈ fields_loop cs cur -> exists l r, cur ++ cs = l ++ g ++ r.
Proof.
  revert cur. induction cs as [|c cs IH]; intros cur; simpl.
  - destruct cur as [|x cur]; intros H; [by apply not_elem_of_nil in H|].
    apply list_elem_of_singleton in H as ->. by exists [], [].
  - destruct (space_char c); [destruct cur as [|x cur]|].
    + intros (l & r & E)%IH. exists (c :: l), r. simpl in *. by rewrite E.
    + intros [->|(l & r & E)%IH]%elem_of_cons; [by exists [], (c :: cs)|].
      exists ((x :: cur) ++ c :: l), r. simpl in *. by rewrite E, <- app_assoc.
    + intros (l & r & E)%IH. exists l, r. by rewrite <- E, <- app_assoc.
Qed.

Lemma fields_chars s g : g ∈ fields_loop (chars s) [] -> chars (concat g) = g.
Proof.
  intros (l & r & E)%fields_loop_segment. simpl in E. apply chars_app in E as [_ E]. by apply chars_app in E as [E _].
Qed.

Lemma space_is_space : space_char (lit " ") = true.
Proof. reflexivity. Qed.

(** Joining words by spaces, on characters and on bytes. *)
Lemma chars_join (gs : list (list bytes)) : Forall (fun g => chars (concat g) = g) gs ->
  chars (join (lit " ") (concat (A:=ascii) <$> gs)) = join [lit " "] gs.
Proof.
  induction 1 as [|g gs Hg _ IH]; [done|]. destruct gs as [|g' gs]; [done|].
  rewrite fmap_cons. cbn [fmap list_fmap join] in *.
  change (lit " " ++ ?x) with (" "%char :: x). rewrite chars_ascii by done. rewrite Hg. by rewrite IH.
Qed.

Lemma fields_join gs : Forall word gs -> fields_loop (join [lit " "] gs) [] = gs.
Proof.
  induction 1 as [|g gs [Hne Hg] _ IH]; [done|]. destruct gs as [|g' gs].
  - cbn [join]. rewrite <- (app_nil_r g) at 1. rewrite fields_loop_word by done. simpl. by destruct g.
  - cbn [join]. rewrite fields_loop_word by done. cbn [app fields_loop]. rewrite space_is_space.
    destruct g; [done|]. simpl. f_equal. exact IH.
Qed.

Lemma Fields_NormalizeSpace s : Fields (NormalizeSpace s) = Fields s.
Proof.
  unfold Fields, NormalizeSpace. f_equal. unfold Fields. rewrite chars_join.
  - apply fields_join, fields_loop_words. constructor.
  - apply Forall_forall. apply fields_chars.
Qed.

(** A normalized string consists of the words of the string, one space between them
    and none around them; all characters that are no white space are kept, in
    order; and normalizing again changes nothing.  This holds for every string of
    bytes. *)
Theorem NormalizeSpace_words s : exists gs, chars (NormalizeSpace s) = join [lit " "] gs /\ Forall word gs /\
  concat gs = filter (fun c => space_char c = false) (chars s) /\ NormalizeSpace (NormalizeSpace s) = NormalizeSpace s.
Proof.
  exists (fields_loop (chars s) []). split_and!.
  - apply chars_join. apply Forall_forall, fields_chars.
  - apply fields_loop_words. constructor.
  - apply fields_loop_concat.
  - unfold NormalizeSpace at 1. by rewrite Fields_NormalizeSpace.
Qed.

(** ** Replacing *)

(** The pieces between the leftmost occurrences that do not overlap. *)
Inductive split_by (from : bytes) : bytes -> list bytes -> Prop :=
  | split_end s : (forall j, ~ occurs s from j) -> split_by from s [s]
  | split_at p s ps : (forall j, occurs (p ++ from ++ s) from j -> length p <= j) -> split_by from s ps ->
      split_by from (p ++ from ++ s) (p :: ps).

Lemma split_nonempty from s ps : split_by from s ps -> ps <> [].
Proof. by destruct 1. Qed.

Lemma split_join from s ps : split_by from s ps -> s = join from ps.
Proof.
  induction 1 as [s|p s ps _ H IH]; [done|]. rewrite IH at 1. pose proof (split_nonempty _ _ _ H). by destruct ps.
Qed.

Lemma replace_loop_split fuel s from to : from <> [] -> length s <= fuel ->
  exists ps, split_by from s ps /\ replace_loop fuel s from to = join to ps.
Proof.
  intros Hf. revert s. induction fuel as [|fuel IH]; intros s Hs.
  { destruct s; [|simpl in Hs; lia]. exists [[]]. split; [|done]. constructor.
    intros j (b & a & E & _). destruct b; destruct from; done. }
  cbn [replace_loop]. destruct (Index s from) as [i|] eqn:E.
  - apply Index_Some in E as [Ho Hmin]. pose proof (occurs_cut _ _ _ Ho) as Ecut.
    assert (Hlen : length (take i s) = i).
    { destruct Ho as (b & a & -> & <-). by rewrite take_app_length. }
    destruct (IH (drop (i + length from) s)) as (ps & Hps & ->).
    { rewrite length_drop. destruct from; simpl in *; [done|lia]. }
    exists (take i s :: ps). split.
    + rewrite Ecut at 1. constructor; [|done]. rewrite <- Ecut, Hlen. intros j Hj.
      destruct (Nat.le_gt_cases i j) as [|Hlt]; [done|]. by destruct (Hmin j Hlt).
    + pose proof (split_nonempty _ _ _ Hps). by destruct ps.
  - exists [s]. split; [|done]. constructor. by apply Index_None.
Qed.

(** A string is cut at the leftmost occurrences, which do not overlap, and its pieces
    are joined by the replacement. *)
Theorem Replace_pieces s from to : from <> [] ->
  exists ps, split_by from s ps /\ s = join from ps /\ Replace s from to = join to ps.
Proof.
  intros Hf. destruct (replace_loop_split (length s) s from to Hf ltac:(done)) as (ps & Hps & E).
  exists ps. split_and!; [done|by eapply split_join|]. unfold Replace. by destruct from.
Qed.

(** An empty [from] puts the replacement between the bytes of a character: the result
    for a string of one Chinese character is not UTF-8. *)
Definition zhang : bytes := z_byte <$> [229; 188; 160]%Z.
Example replace_splits_runes :
  utf8_valid 9 (nat_of_ascii <$> zhang) = true /\ utf8_valid 9 (nat_of_ascii <$> Replace zhang [] (lit "-")) = false.
Proof. vm_compute. done. Qed.

(** ** UUIDs *)

(** The text of sixteen bytes, in lower case. *)
Definition dash : bytes := lit "-".
Definition uuid_text (b1 b2 b3 b4 b5 : bytes) : bytes :=
  join dash (hex_encode <$> [b1; b2; b3; b4; b5]).

Lemma match_hex_Some n s t : match_hex n s = Some t <-> exists g, s = g ++ t /\ length g = n /\ Forall (fun a => is_hex a = true) g.
Proof.
  revert s. induction n as [|n IH]; intros s; simpl.
  { split; [intros [= ->]; by exists []|]. intros (g & -> & ->%nil_length_inv & _). done. }
  destruct s as [|a s]; [split; [done|intros ([|] & ? & ? & _); done]|].
  destruct (is_hex a) eqn:E; [rewrite IH|]; split.
  - intros (g & -> & <- & Hg). exists (a :: g). split_and!; [done|done|by constructor].
  - intros ([|x g] & Es & Hl & Hg); [done|]. injection Es as -> ->. injection Hl as Hl.
    exists g. split_and!; [done|done|by inversion Hg].
  - done.
  - intros ([|x g] & Es & Hl & Hg); [done|]. injection Es as -> _. inversion Hg. congruence.
Qed.

Lemma match_dash_Some s t : match_dash s = Some t <-> s = dash ++ t.
Proof.
  unfold match_dash. destruct s as [|a s]; [done|]. change (dash ++ t) with ("-"%char :: t).
  case_bool_decide; subst; split; congruence.
Qed.

(** Hexadecimal digits in either case. *)
Definition lower_hex (n : nat) : bool :=
  Bool.eqb (is_hex (ascii_of_nat n))
    (existsb (fun k => bool_decide (lower_ascii (ascii_of_nat n) = hex_char k)) (seq 0 16)).
Lemma lower_hex_all : forallb lower_hex (seq 0 256) = true.
Proof. vm_compute. reflexivity. Qed.

Lemma is_hex_digit a : is_hex a = true <-> exists k, k < 16 /\ lower_ascii a = hex_char k.
Proof.
  pose proof lower_hex_all as H. rewrite forallb_forall in H. specialize (H (nat_of_ascii a)).
  unfold lower_hex in H. rewrite ascii_nat_embedding, eqb_true_iff in H. rewrite H.
  2:{ apply in_seq. pose proof (nat_ascii_bounded a). lia. }
  rewrite existsb_exists. split; intros (k & H1 & H2); exists k.
  - rewrite in_seq in H1. rewrite bool_decide_eq_true in H2. split; [lia|done].
  - rewrite in_seq, bool_decide_eq_true. split; [lia|done].
Qed.

Lemma hex_pair hi lo : hi < 16 -> lo < 16 ->
  hex_encode [ascii_of_nat (hi * 16 + lo)] = [hex_char hi; hex_char lo].
Proof.
  intros Hh Hl. unfold hex_encode. rewrite bind_cons. cbn [mbind list_bind app].
  rewrite nat_ascii_embedding by lia.
  assert ((hi * 16 + lo) / 16 = hi) as -> by (symmetry; apply (Nat.div_unique _ 16 hi lo); lia).
  assert ((hi * 16 + lo) mod 16 = lo) as -> by (symmetry; apply (Nat.mod_unique _ 16 hi lo); lia). done.
Qed.

Lemma list_cons_inv {A} (x y : A) l m : x :: l = y :: m -> x = y /\ l = m.
Proof. by intros [= -> ->]. Qed.

(** An even number of digits is the text of half as many bytes. *)
Lemma hex_group n g : (length g = n * 2 /\ Forall (fun a => is_hex a = true) g) <->
  exists b, length b = n /\ lower_ascii <$> g = hex_encode b.
Proof.
  revert g. induction n as [|n IH]; intros g.
  { split; [intros [->%nil_length_inv _]; by exists []|]. intros (b & ->%nil_length_inv & E%fmap_nil_inv). by subst. }
  destruct g as [|x [|y g]]; [split; [intros [? _]; done|intros ([|] & ? & ?); done]..|].
  simpl. rewrite !Forall_cons, !is_hex_digit. specialize (IH g). split.
  - intros (Hl & (hi & Hhi & Ehi) & (lo & Hlo & Elo) & Hg). destruct (proj1 IH) as (b & Hb & Eb); [split; [lia|done]|].
    exists (ascii_of_nat (hi * 16 + lo) :: b). split; [simpl; lia|].
    change (hex_encode (?c :: b)) with (hex_encode [c] ++ hex_encode b). rewrite hex_pair by done. simpl. by rewrite Ehi, Elo, <- Eb.
  - intros ([|c b] & Hb & E); [done|]. injection Hb as Hb.
    change (hex_encode (c :: b)) with (hex_char (nat_of_ascii c / 16) :: hex_char (nat_of_ascii c mod 16) :: hex_encode b) in E.
    apply list_cons_inv in E as [E1 [E2 E3]%list_cons_inv].
    destruct (proj2 IH) as [Hl Hg]; [by exists b|]. pose proof (nat_ascii_bounded c).
    split_and!; [lia| | |done].
    + exists (nat_of_ascii c / 16). split; [|done]. apply Nat.Div0.div_lt_upper_bound. lia.
    + exists (nat_of_ascii c mod 16). split; [|done]. apply Nat.mod_upper_bound. lia.
Qed.

Definition hex_run (n : nat) (g : bytes) : Prop := length g = n * 2 /\ Forall (fun a => is_hex a = true) g.

Lemma match_group n (k : bytes -> option bytes) s t :
  (s ← match_hex (n * 2) s; s ← match_dash s; k s) = Some t <-> exists g r, s = g ++ dash ++ r /\ hex_run n g /\ k r = Some t.
Proof.
  unfold hex_run. split.
  - intros (s1 & (g & -> & Hl & Hg)%match_hex_Some & (s2 & ->%match_dash_Some & Hk)%bind_Some)%bind_Some. by exists g, s2.
  - intros (g & r & -> & [Hl Hg] & Hk). assert (match_hex (n * 2) (g ++ dash ++ r) = Some (dash ++ r)) as ->; [|done].
    apply match_hex_Some. by exists g.
Qed.

Lemma match_run n s : match_hex (n * 2) s = Some [] <-> hex_run n s.
Proof.
  rewrite match_hex_Some. unfold hex_run. split; [intros (g & -> & ? & ?); by rewrite app_nil_r|].
  intros [? ?]. exists s. by rewrite app_nil_r.
Qed.

Lemma IsUUID_groups s : IsUUID s = true <-> exists g1 g2 g3 g4 g5,
  s = g1 ++ dash ++ g2 ++ dash ++ g3 ++ dash ++ g4 ++ dash ++ g5 /\
  hex_run 4 g1 /\ hex_run 2 g2 /\ hex_run 2 g3 /\ hex_run 2 g4 /\ hex_run 6 g5.
Proof.
  assert (IsUUID s = true <-> uuidRegex s = Some []) as ->.
  { unfold IsUUID. destruct (uuidRegex s) as [[|]|]; split; congruence. }
  unfold uuidRegex. rewrite (match_group 4). setoid_rewrite (match_group 2). setoid_rewrite (match_group 2).
  setoid_rewrite (match_group 2). setoid_rewrite (match_run 6). split.
  - intros (g1 & ? & -> & ? & g2 & ? & -> & ? & g3 & ? & -> & ? & g4 & g5 & -> & ? & ?). by exists g1, g2, g3, g4, g5.
  - intros (g1 & g2 & g3 & g4 & g5 & -> & ? & ? & ? & ? & ?).
    exists g1; eexists; split; [done|]; split; [done|]. exists g2; eexists; split; [done|]; split; [done|].
    exists g3; eexists; split; [done|]; split; [done|]. by exists g4, g5.
Qed.

Lemma lower_dash (d : bytes) : lower_ascii <$> d = dash -> d = dash.
Proof.
  destruct d as [|a [|]]; try done. intros [= E]. unfold dash, lit. simpl. f_equal. revert E. unfold lower_ascii, between_ascii.
  destruct (_ && _) eqn:H; [|done]. rewrite andb_true_iff, !Nat.leb_le in H.
  intros E%(f_equal nat_of_ascii). rewrite nat_ascii_embedding in E by lia.
  change (nat_of_ascii "-"%char) with 45 in E. lia.
Qed.

Lemma lower_app_inv (k1 k2 s : bytes) : k1 ++ k2 = lower_ascii <$> s ->
  exists l1 l2, lower_ascii <$> l1 = k1 /\ k2 = lower_ascii <$> l2 /\ s = l1 ++ l2.
Proof. intros E. symmetry in E. apply fmap_app_inv in E as (l1 & l2 & -> & -> & ->). by exists l1, l2. Qed.

(** The accepted strings are the texts of sixteen bytes in groups of four, two, two,
    two and six, in either case. *)
Theorem IsUUID_text s : IsUUID s = true <-> exists b1 b2 b3 b4 b5,
  length b1 = 4 /\ length b2 = 2 /\ length b3 = 2 /\ length b4 = 2 /\ length b5 = 6 /\
  lower_ascii <$> s = uuid_text b1 b2 b3 b4 b5.
Proof.
  rewrite IsUUID_groups. unfold uuid_text. cbn [fmap list_fmap join]. split.
  - intros (g1 & g2 & g3 & g4 & g5 & -> & (b1 & ? & E1)%hex_group & (b2 & ? & E2)%hex_group & (b3 & ? & E3)%hex_group
      & (b4 & ? & E4)%hex_group & (b5 & ? & E5)%hex_group).
    exists b1, b2, b3, b4, b5. split_and!; [done..|]. by rewrite !fmap_app, E1, E2, E3, E4, E5.
  - intros (b1 & b2 & b3 & b4 & b5 & ? & ? & ? & ? & ? & E).
    symmetry in E. apply lower_app_inv in E as (g1 & s1 & E1 & E & ->). apply lower_app_inv in E as (d1 & s2 & ->%lower_dash & E & ->).
    apply lower_app_inv in E as (g2 & s3 & E2 & E & ->). apply lower_app_inv in E as (d2 & s4 & ->%lower_dash & E & ->).
    apply lower_app_inv in E as (g3 & s5 & E3 & E & ->). apply lower_app_inv in E as (d3 & s6 & ->%lower_dash & E & ->).
    apply lower_app_inv in E as (g4 & s7 & E4 & E & ->). apply lower_app_inv in E as (d4 & g5 & ->%lower_dash & E & ->).
    exists g1, g2, g3, g4, g5. split_and!; [done|..]; apply hex_group; eauto.
Qed.

(** ** Digests *)

Lemma hex_encode_length b : length (hex_encode b) = length b * 2.
Proof. induction b as [|a b IH]; [done|]. unfold hex_encode in *. rewrite bind_cons, length_app, IH. simpl. lia. Qed.

(** Digests are 32 and 40 digits that determine the sum. *)
Theorem digests_text s :
  length (MD5 s) = 32 /\ hex_decode (MD5 s) = Some (md5_Sum s) /\
  length (SHA1 s) = 40 /\ hex_decode (SHA1 s) = Some (sha1_Sum s).
Proof.
  unfold MD5, SHA1. rewrite !hex_encode_length, !hex_decode_encode. destruct (sums_length s) as [-> ->]. done.
Qed.

(** The examples of the documentation. *)
Definition newline : ascii := ascii_of_nat 10.
Example documented :
  MD5 (lit "abc") = lit "900150983cd24fb0d6963f7d28e17f72" /\
  SHA1 (lit "abc") = lit "a9993e364706816aba3e25717850c26c9cd0d89d" /\
  Reverse (lit "abc") = Some (lit "cba") /\ Replace (lit "aabbcc") (lit "a") (lit "b") = lit "bbbbcc" /\
  NormalizeSpace (lit "  hello " ++ newline :: lit " world  ") = lit "hello world" /\
  Len (zhang ++ zhang) = 2.
Proof. vm_compute. done. Qed.
