(* ===== verification/GoNet.v ===== *)
(** * Hosts and ports: [net.SplitHostPort], and the trimming of [strings]

    An address is [host:port], or [[host]:port] where the host has colons.  The
    function is shown to accept exactly these. *)

From S2P Require Import Prelude Strings.
From Stdlib Require Import Ascii.
From stdpp Require Import options.
Set Default Proof Using "Type*".
Local Open Scope nat_scope.

Definition has (a : ascii) (s : bytes) : bool := bool_decide (a ∈ s).

(** [net.SplitHostPort]; its errors are not told apart. *)
Definition SplitHostPort (hostport : bytes) : option (bytes * bytes) :=
  match LastIndex hostport (lit ":") with
  | None => None
  | Some i =>
      if bool_decide (head hostport = Some "["%char) then
        match Index hostport (lit "]") with
        | None => None
        | Some e =>
            if negb (e + 1 =? i) then None
            else if has "[" (drop 1 hostport) || has "]" (drop (e + 1) hostport) then None
            else Some (drop 1 (take e hostport), drop (i + 1) hostport)
        end
      else
        let host := take i hostport in
        if has ":" host then None
        else if has "[" hostport || has "]" hostport then None
        else Some (host, drop (i + 1) hostport)
  end.

(** [strings.TrimLeft] and [strings.Trim] with a set of ASCII characters. *)
Fixpoint TrimLeft (s cutset : bytes) : bytes :=
  match s with
  | a :: s' => if has a cutset then TrimLeft s' cutset else s
  | [] => []
  end.
Definition TrimRight (s cutset : bytes) : bytes := reverse (TrimLeft (reverse s) cutset).
Definition Trim (s cutset : bytes) : bytes := TrimRight (TrimLeft s cutset) cutset.

(** ** What is accepted *)

(** No colon and no bracket. *)
Definition plain_text (s : bytes) : Prop := (":"%char ∉ s) /\ ("["%char ∉ s) /\ ("]"%char ∉ s).

Lemma has_false a s : has a s = false <-> a ∉ s.
Proof. unfold has. apply bool_decide_eq_false. Qed.

Lemma occurs_char a s i : occurs s [a] i <-> s !! i = Some a.
Proof.
  split.
  - intros (b & t & -> & <-). apply lookup_snoc_length.
  - intros H. exists (take i s), (drop (S i) s). split; [symmetry; apply (take_drop_middle _ _ _ H)|].
    apply lookup_lt_Some in H. rewrite length_take. lia.
Qed.

Lemma Index_first a l r : a ∉ l -> Index (l ++ a :: r) [a] = Some (length l).
Proof.
  intros Hl. apply Index_Some. rewrite occurs_char. split; [apply lookup_snoc_length|].
  intros j Hj. rewrite occurs_char, lookup_app_l by done. intros Hj'%list_elem_of_lookup_2. done.
Qed.

Lemma LastIndex_last a l r : a ∉ r -> LastIndex (l ++ a :: r) [a] = Some (length l).
Proof.
  intros Hr. apply LastIndex_Some. rewrite occurs_char. split; [apply lookup_snoc_length|].
  intros j Hj Ho. apply occurs_char in Ho. rewrite lookup_app_r in Ho by lia.
  destruct (j - length l) as [|k] eqn:E; [lia|]. cbn in Ho. apply Hr. by eapply list_elem_of_lookup_2.
Qed.

Lemma Index_inv a s i : Index s [a] = Some i -> exists l r, s = l ++ a :: r /\ length l = i /\ a ∉ l.
Proof.
  intros [(l & r & -> & <-) Hmin]%Index_Some. exists l, r. split_and!; [done|done|].
  intros [j Hj]%list_elem_of_lookup. apply (Hmin j); [by apply lookup_lt_Some in Hj|].
  apply occurs_char. by apply lookup_app_l_Some.
Qed.

Lemma LastIndex_inv a s i : LastIndex s [a] = Some i -> exists l r, s = l ++ a :: r /\ length l = i /\ a ∉ r.
Proof.
  intros [(l & r & -> & <-) Hmax]%LastIndex_Some. exists l, r. split_and!; [done|done|].
  intros [j Hj]%list_elem_of_lookup. apply (Hmax (length l + S j)); [lia|].
  apply occurs_char. simpl. rewrite lookup_app_r by lia. by replace (length l + S j - length l) with (S j) by lia.
Qed.

Lemma drop_snoc {A} (l r : list A) x : drop (length l + 1) (l ++ x :: r) = r.
Proof. by rewrite drop_app_ge, Nat.add_comm, Nat.add_sub by lia. Qed.

Lemma split_plain host port : plain_text host -> plain_text port -> SplitHostPort (host ++ lit ":" ++ port) = Some (host, port).
Proof.
  intros (Hc & Ho & Hx) (Hc' & Ho' & Hx'). unfold SplitHostPort. change (lit ":" ++ port) with (":"%char :: port).
  change (lit ":") with [":"%char]. rewrite LastIndex_last by done.
  rewrite bool_decide_false by (destruct host as [|a host]; [done|]; intros [= ->]; apply Ho; by left).
  cbv zeta. rewrite take_app_length, drop_snoc.
  rewrite (proj2 (has_false _ _)) by done.
  rewrite !(proj2 (has_false _ _)); [done|..]; rewrite elem_of_app, elem_of_cons; intros [?|[?|?]]; done.
Qed.

Lemma split_bracket host port : "["%char ∉ host -> "]"%char ∉ host -> plain_text port ->
  SplitHostPort (lit "[" ++ host ++ lit "]:" ++ port) = Some (host, port).
Proof.
  intros Ho Hx (Hc' & Ho' & Hx'). unfold SplitHostPort.
  replace (lit "[" ++ host ++ lit "]:" ++ port) with ((("["%char :: host) ++ ["]"%char]) ++ ":"%char :: port) by (simpl; by rewrite <- app_assoc).
  change (lit ":") with [":"%char]. rewrite LastIndex_last by done. rewrite bool_decide_true by done.
  rewrite <- (app_assoc ("["%char :: host)). cbn [app]. change (lit "]") with ["]"%char].
  change ("["%char :: host ++ "]"%char :: ":"%char :: port) with (("["%char :: host) ++ "]"%char :: ":"%char :: port).
  rewrite Index_first by (intros [?|?]%elem_of_cons; done).
  assert (El : length ("["%char :: host ++ ["]"%char]) = length ("["%char :: host) + 1) by (simpl; rewrite length_app; simpl; lia).
  rewrite El, Nat.eqb_refl, take_app_length, drop_snoc. cbn [negb].
  rewrite (proj2 (has_false "["%char _)), (proj2 (has_false "]"%char _)).
  - do 2 f_equal. rewrite <- El. change (("["%char :: host) ++ "]"%char :: ":"%char :: port) with
      ("["%char :: host ++ ["]"%char] ++ ":"%char :: port). rewrite (app_assoc host).
    exact (drop_snoc ("["%char :: host ++ ["]"%char]) port ":"%char).
  - intros [?|?]%elem_of_cons; done.
  - simpl. rewrite drop_0, elem_of_app, !elem_of_cons. intros [?|[?|[?|?]]]; done.
Qed.

(** The addresses that are accepted, with the host and port they have. *)
Theorem SplitHostPort_spec s host port : SplitHostPort s = Some (host, port) <->
  plain_text port /\
  (s = host ++ lit ":" ++ port /\ plain_text host \/
   s = lit "[" ++ host ++ lit "]:" ++ port /\ ("["%char ∉ host) /\ ("]"%char ∉ host)).
Proof.
  split; [|intros (Hp & [(-> & Hh)|(-> & Ho & Hx)]); [by apply split_plain|by apply split_bracket]].
  unfold SplitHostPort. destruct (LastIndex s (lit ":")) as [i|] eqn:Ei; [|done].
  apply LastIndex_inv in Ei as (l & r & -> & <- & Hr). rewrite drop_snoc. case_bool_decide as Hh.
  - destruct l as [|a l]; [done|]. injection Hh as ->. destruct (Index _ (lit "]")) as [e|] eqn:Ee; [|done].
    apply Index_inv in Ee as (l' & r' & E & <- & Hl'). destruct (Nat.eqb_spec (length l' + 1) (length ("["%char :: l))) as [He|]; [|done].
    cbn [negb]. destruct (has _ _ || has _ _) eqn:Eh; [done|]. apply orb_false_iff in Eh as [H1%has_false H2%has_false].
    rewrite E in *. rewrite take_app_length, drop_snoc in *. intros [= <- <-].
    assert ("["%char :: l = l' ++ ["]"%char]) as El.
    { apply (f_equal (take (length l' + 1))) in E. rewrite He in E at 1. rewrite take_app_length in E.
      rewrite E, take_app_ge by lia. replace (length l' + 1 - length l') with 1 by lia. done. }
    destruct l' as [|b l']; [done|]. injection El as <- ->.
    simpl in E. rewrite <- app_assoc in E. injection E as E%(inj (app l')). injection E as <-. simpl in *. rewrite drop_0 in *.
    rewrite elem_of_app, !elem_of_cons in H1. rewrite elem_of_cons in H2. rewrite elem_of_cons in Hl'.
    split; [|right; split; [done|]].
    + split_and!; tauto.
    + tauto.
  - cbv zeta. rewrite take_app_length. destruct (has ":" l) eqn:E1; [done|]. destruct (has _ _ || has _ _) eqn:Eh; [done|].
    apply orb_false_iff in Eh as [H1%has_false H2%has_false]. apply has_false in E1. intros [= <- <-].
    rewrite elem_of_app, elem_of_cons in H1, H2. unfold plain_text. split; [|left]; split_and!; try done; tauto.
Qed.
