(* ===== verification/Recovery.v ===== *)
(** * Recovery from panics: [src/recovery], [src/event/middleware/recovery],
    [src/queue/middleware/recovery]

    A call returns or panics; deferred functions that recover turn a panic into an
    error or hand it to a handler, which may panic in turn.  A panic has a value, of
    which the packages look only at whether it is an error and at its text. *)

From S2P Require Import Prelude GoErrors.
From stdpp Require Import strings.
From stdpp Require Import options.
Set Default Proof Using "Type*".
Local Open Scope string_scope.
Local Open Scope Z_scope.

(** The value of a panic, with its text as [%v] prints it.  A panic with nil arrives
    as an error of the runtime. *)
Inductive pvalue := PText (text : string) | PError (text : string) (err : error).
Definition ptext (v : pvalue) : string := match v with PText s | PError s _ => s end.

Inductive call (A : Type) := Returns (a : A) | Panics (v : pvalue).
Arguments Returns {A} _.
Arguments Panics {A} _.

Section Recovery.
Context {W : Type}.

(** A deferred function that recovers: what it makes of a panic. *)
Definition recovered {A} (f : W -> W * call A) (on_panic : pvalue -> W -> W * call A) (w : W) : W * call A :=
  match f w with
  | (w, Returns a) => (w, Returns a)
  | (w, Panics v) => on_panic v w
  end.

(** ** [src/recovery] *)

(** The handler of panics, or nil. *)
Record Recovery := mkRecovery { handler : option (pvalue -> W -> W * call ()) }.

(** [WithHandler]s in order; the default panics again. *)
Definition New (opts : list (option (pvalue -> W -> W * call ()))) : Recovery :=
  foldl (fun _ h => mkRecovery h) (mkRecovery (Some (fun v w => (w, Panics v)))) opts.

Definition Wrap (r : Recovery) (f : W -> W * call ()) : W -> W * call () :=
  match handler r with
  | Some h => recovered f h
  | None => f
  end.

(** ** Stacks *)

(** [runtime.Stack] fills a buffer of the configured size; [trace] is the whole
    stack. *)
Definition stack_of (stackSize : Z) (trace : list Byte.byte) : list Byte.byte := take (Z.to_nat stackSize) trace.

Definition defaultStackSize : Z := 4096.
(** [WithStackSize]; sizes that are not positive are ignored. *)
Definition set_size (c size : Z) : Z := if size >? 0 then size else c.

(** ** [event/middleware/recovery] *)

(** [newConfig] of options that may be nil. *)
Definition event_newConfig (options : list (option Z)) : Z :=
  foldl (fun c o => match o with Some size => set_size c size | None => c end) defaultStackSize options.

Record PanicError := mkPanicError { Value : pvalue; Stack : list Byte.byte }.
Definition PanicError_Error (e : PanicError) : string := "event recovery: panic: " +:+ ptext (Value e).
Definition PanicError_Unwrap (e : PanicError) : option error := match Value e with PError _ err => Some err | PText _ => None end.

(** The error as others see it. *)
Definition panic_error (e : PanicError) : error :=
  match PanicError_Unwrap e with
  | Some err => ErrStruct "recovery.PanicError" 0 (PanicError_Error e) err
  | None => ErrMsg (PanicError_Error e)
  end.

Definition event_New (options : list (option Z)) (trace : W -> list Byte.byte)
    (next : W -> W * call (option error)) : W -> W * call (option error) :=
  let size := event_newConfig options in
  recovered next (fun v w => (w, Returns (Some (panic_error (mkPanicError v (stack_of size (trace w))))))).

(** ** [queue/middleware/recovery] *)

(** The handler of recovered panics, and the stack size. *)
Record queue_config := mkQueueConfig { qHandler : pvalue -> list Byte.byte -> W -> W * call (); qStackSize : Z }.
Inductive queue_option := WithHandler (h : option (pvalue -> list Byte.byte -> W -> W * call ())) | WithStackSize (size : Z).

Definition queue_apply (c : queue_config) (o : queue_option) : queue_config :=
  match o with
  | WithHandler (Some h) => mkQueueConfig h (qStackSize c)
  | WithHandler None => c
  | WithStackSize size => mkQueueConfig (qHandler c) (set_size (qStackSize c) size)
  end.

(** [DefaultHandler] logs. *)
Variable (log : pvalue -> list Byte.byte -> W -> W).
Definition queue_newConfig (opts : list queue_option) : queue_config :=
  foldl queue_apply (mkQueueConfig (fun v stack w => (log v stack w, Returns ())) defaultStackSize) opts.

(** The error has the text of the panic only.  A handler that panics replaces the
    panic. *)
Definition queue_New (opts : list queue_option) (trace : W -> list Byte.byte)
    (next : W -> W * call (option error)) : W -> W * call (option error) :=
  let c := queue_newConfig opts in
  recovered next (fun v w =>
    match qHandler c v (stack_of (qStackSize c) (trace w)) w with
    | (w, Panics v') => (w, Panics v')
    | (w, Returns _) => (w, Returns (Some (ErrMsg ("queue handler panic recovered: " +:+ ptext v))))
    end).

(** ** What the middlewares promise *)

Lemma event_size_positive options : 0 < event_newConfig options.
Proof using Type.
  unfold event_newConfig. assert (0 < defaultStackSize) as H by done. revert H. generalize defaultStackSize.
  induction options as [|[s|] l IH]; intros c Hc; simpl; [done| |by apply IH]. apply IH. unfold set_size.
  destruct (Z.gtb_spec s 0); lia.
Qed.

(** Under the event middleware a handler never panics: it returns what the inner one
    did, or an error whose text names the panic, whose stack has at most the
    configured size, and which wraps the value of the panic if that is an error. *)
Theorem event_recovers options trace next w :
  match next w with
  | (w', Returns r) => event_New options trace next w = (w', Returns r)
  | (w', Panics v) => exists stack,
      event_New options trace next w = (w', Returns (Some (panic_error (mkPanicError v stack)))) /\
      Z.of_nat (length stack) <= event_newConfig options /\
      forall err text, v = PError text err -> wraps (panic_error (mkPanicError v stack)) err
  end.
Proof using Type.
  unfold event_New, recovered. destruct (next w) as [w' [r|v]]; [done|]. eexists. split_and!; [done| |].
  - unfold stack_of. rewrite length_take. pose proof (event_size_positive options). lia.
  - intros err text ->. apply wraps_struct. constructor.
Qed.

(** Under the queue middleware the error of a panic is an ordinary one: it wraps
    nothing, so that a value that would ask for a later retry or for the dead letter
    queue when returned does not when it is a panic. *)
Theorem queue_recovers opts trace next w :
  (forall v stack w, exists w', qHandler (queue_newConfig opts) v stack w = (w', Returns ())) ->
  match next w with
  | (w', Returns r) => queue_New opts trace next w = (w', Returns r)
  | (w', Panics v) => exists w'' err, queue_New opts trace next w = (w'', Returns (Some err)) /\
      (forall e, wraps err e -> e = err) /\ forall A (is_e : error -> option A), is_e err = None -> errors_As is_e err = None
  end.
Proof using Type.
  intros Hh. unfold queue_New, recovered. destruct (next w) as [w' [r|v]]; [done|].
  destruct (Hh v (stack_of (qStackSize (queue_newConfig opts)) (trace w')) w') as [w'' ->].
  eexists _, _. split_and!; [done| |].
  - intros e He. by inversion He.
  - intros A is_e E. simpl. by rewrite E.
Qed.

(** Without options a recovery panics as before; with a handler that returns it never
    panics; with a nil handler nothing is recovered. *)
Theorem wrap_cases h f w :
  Wrap (New []) f w = f w /\ Wrap (New [None]) f w = f w /\
  (forall w' v, f w = (w', Panics v) -> Wrap (New [Some h]) f w = h v w').
Proof using Type.
  unfold Wrap, New, recovered. simpl. split_and!; [by destruct (f w) as [? []]|done|]. intros w' v ->. done.
Qed.
End Recovery.
