(* ===== verification/Tracing.v ===== *)
(** * Tracing middlewares: [src/kratos/middleware/otel], [src/hyperf/jet/middleware/otel]

    What a span is told about a call: the attributes built from requests,
    addresses and messages, the name of the calling service that travels with a
    request, and the calls made on a span before and after the handler.  Texts are
    lists of bytes.  The frameworks, the OpenTelemetry SDK, propagators and URL
    parsing are parameters; what the SDK records of a span is the class
    [OtelLaws]. *)

From S2P Require Import Prelude GoErrors GoStrconv Strings GoNet Recovery.
From Stdlib Require Import Ascii.
From stdpp Require Import options.
Set Default Proof Using "Type*".
Local Open Scope Z_scope.

(** ** [internal/semconv/attribute.go]

    An attribute is the function of the package it comes from, applied to a value. *)
Inductive http_method :=
  | MethodConnect | MethodDelete | MethodGet | MethodHead | MethodOptions | MethodPatch | MethodPost | MethodPut
  | MethodTrace | MethodQuery | MethodOther.
Inductive kind := KindHTTP | KindGRPC | KindOther (name : bytes).
Inductive direction := Send | Recv.

Inductive KeyValue :=
  | ClientAddress (address : bytes) | ServerAddress (address : bytes) | ServerPort (port : Z)
  | RequestMethod (m : http_method) | HTTPRequestMethodOriginal (method : bytes) | HTTPRequestBodySize (size : Z)
  | HTTPRoute (route : bytes) | NetworkPeerAddress (address : bytes) | NetworkPeerPort (port : Z)
  | RPCMethod (method : bytes) | RPCMethodOriginal (method : bytes) | RPCResponseStatusCode (code : bytes)
  | ErrorType (code : bytes) | SystemGRPC | SystemNamed (k : kind) | ServicePeerName (name : bytes)
  | URLPath (path : bytes) | URLFull (full : bytes) | URLQuery (query : bytes) | URLScheme (scheme : bytes)
  | UserAgentOriginal (userAgent : bytes) | MessageSize (d : direction) (size : Z).

Definition known_methods : list (bytes * http_method) :=
  [(lit "CONNECT", MethodConnect); (lit "DELETE", MethodDelete); (lit "GET", MethodGet); (lit "HEAD", MethodHead);
   (lit "OPTIONS", MethodOptions); (lit "PATCH", MethodPatch); (lit "POST", MethodPost); (lit "PUT", MethodPut);
   (lit "TRACE", MethodTrace); (lit "QUERY", MethodQuery); (lit "_OTHER", MethodOther)].

Definition HTTPRequestMethod (method : bytes) : KeyValue :=
  match list_find (fun p => p.1 = method) known_methods with
  | Some (_, (_, m)) => RequestMethod m
  | None => RequestMethod MethodOther
  end.
Definition isKnownHTTPRequestMethod (method : bytes) : bool := bool_decide (method ∈ known_methods.*1).
Definition httpRequestMethodAttributes (method : bytes) : list KeyValue :=
  HTTPRequestMethod method ::
  (if negb (isKnownHTTPRequestMethod method) && negb (bool_decide (method = [])) then [HTTPRequestMethodOriginal method] else []).

Definition RPCErrorAttributes (code : Z) : list KeyValue :=
  let statusCode := lit (FormatInt code) in [RPCResponseStatusCode statusCode; ErrorType statusCode].

Definition RPCSystemName (k : kind) : KeyValue := match k with KindGRPC => SystemGRPC | _ => SystemNamed k end.

(** A value of type [any] as the sizes see it: no message, a nil one, or one of some
    size. *)
Inductive message := NoMessage | NilMessage | Message (size : Z).
Definition messageSize (d : direction) (m : message) : list KeyValue :=
  match m with Message size => [MessageSize d size] | _ => [] end.
Definition SendMessageSize : message -> list KeyValue := messageSize Send.
Definition RecvMessageSize : message -> list KeyValue := messageSize Recv.

(** ** [internal/semconv/builder.go] *)

Definition Atoi (s : bytes) : option Z := ParseInt (String.string_of_list_ascii s).

Definition defaultPort (scheme : bytes) : Z :=
  if bool_decide (scheme = lit "http") then 80 else if bool_decide (scheme = lit "https") then 443 else 0.

(** The address, the port and whether there is an address. *)
Definition splitHostPort (addr : bytes) (fallbackPort : Z) : bytes * Z * bool :=
  match SplitHostPort addr with
  | Some (host, port) => (host, default 0 (Atoi port), negb (bool_decide (host = [])))
  | None =>
      let host := Trim addr (lit "[]") in
      if bool_decide (host = []) then ([], 0, false) else (host, fallbackPort, true)
  end.

Definition remoteAddress (addr : bytes) : bytes * bool :=
  match SplitHostPort addr with
  | Some (host, _) => (host, negb (bool_decide (host = [])))
  | None => if bool_decide (addr = []) then ([], false) else (addr, true)
  end.

(** The attributes of the result of [splitHostPort]. *)
Definition address_attributes (r : bytes * Z * bool) : list KeyValue :=
  let '(address, port, ok) := r in
  if ok then ServerAddress address :: (if 0 <? port then [ServerPort port] else []) else [].

Definition Peer (addr : bytes) : list KeyValue :=
  match SplitHostPort addr with
  | None => []
  | Some (host, port) =>
      let host := if bool_decide (host = []) then lit "127.0.0.1" else host in
      NetworkPeerAddress host :: match Atoi port with Some p => [NetworkPeerPort p] | None => [] end
  end.

Definition methodAttributes (fullMethod : bytes) : list KeyValue :=
  let name := TrimLeft fullMethod (lit "/") in
  match Index name (lit "/") with
  | None =>
      if bool_decide (fullMethod = []) then [] else [RPCMethod (lit "_OTHER"); RPCMethodOriginal fullMethod]
  | Some i =>
      let p0 := take i name in
      let p1 := drop (i + 1) name in
      if bool_decide (p0 = []) || bool_decide (p1 = []) then [RPCMethod (lit "_OTHER"); RPCMethodOriginal fullMethod]
      else [RPCMethod (p0 ++ lit "/" ++ p1)]
  end.

(** What is read of a URL, of a request and of a transport. *)
Record url := mkURL { Scheme : bytes; Opaque : bytes; Host : bytes; Path : bytes; RawQuery : bytes; URLString : bytes }.
Record request := mkRequest {
  Method : bytes; URL : option url; reqHost : bytes; TLS : bool; ContentLength : Z; RemoteAddr : bytes; UserAgent : bytes
}.
Record transporter := mkTransporter {
  Operation : bytes; Kind : kind; Endpoint : bytes;
  http : option (request * bytes)       (* the request and the path template *)
}.

Definition requestScheme (req : request) : bytes :=
  match URL req with
  | Some u => if bool_decide (Scheme u = []) then if TLS req then lit "https" else lit "http" else Scheme u
  | None => if TLS req then lit "https" else lit "http"
  end.

Definition serverAddress (req : request) : bytes * Z * bool :=
  let by_host :=
    if bool_decide (reqHost req = []) then ([], 0, false) else splitHostPort (reqHost req) (defaultPort (requestScheme req)) in
  match URL req with
  | Some u => if bool_decide (Host u = []) then by_host else splitHostPort (Host u) (defaultPort (Scheme u))
  | None => by_host
  end.

Definition httpRequestBodySize (req : request) : list KeyValue :=
  if ContentLength req <? 0 then [] else [HTTPRequestBodySize (ContentLength req)].

Definition if_some (s : bytes) (f : bytes -> KeyValue) : list KeyValue := if bool_decide (s = []) then [] else [f s].

Definition httpClientTransporter (req : request) : list KeyValue :=
  httpRequestMethodAttributes (Method req) ++
  match URL req with Some u => if_some (URLString u) URLFull | None => [] end ++
  httpRequestBodySize req ++ address_attributes (serverAddress req) ++ if_some (UserAgent req) UserAgentOriginal.

(** A request of a server has a URL; without one the code panics. *)
Definition httpServerTransporter (req : request) (PathTemplate : bytes) : option (list KeyValue) :=
  u ← URL req;
  Some (httpRequestMethodAttributes (Method req) ++ [URLPath (Path u); URLScheme (requestScheme req)] ++
        if_some (RawQuery u) URLQuery ++ httpRequestBodySize req ++ if_some PathTemplate HTTPRoute ++
        address_attributes (serverAddress req) ++
        (let '(address, ok) := remoteAddress (RemoteAddr req) in if ok : bool then [ClientAddress address] else []) ++
        if_some (UserAgent req) UserAgentOriginal).

(** Contexts, as far as they are read: the transports, the address of the peer, the
    metadata of the server, and the name of the application. *)
Record ctx (MD : Type) := mkCtx {
  client_tr : option transporter; server_tr : option transporter; peer : option bytes; server_md : option MD;
  app : option bytes
}.
Arguments mkCtx {MD} _ _ _ _ _.
Arguments client_tr {MD} _.
Arguments server_tr {MD} _.
Arguments peer {MD} _.
Arguments server_md {MD} _.
Arguments app {MD} _.

Section Builder.
Context {MD : Type} (url_Parse : bytes -> option url) (md_Get : MD -> bytes -> bytes).
Local Abbreviation Ctx := (ctx MD).

Definition normalizeTarget (target : bytes) : bytes :=
  match Index target (lit "://") with
  | None => target
  | Some _ =>
      match url_Parse target with
      | None => target
      | Some u =>
          let path := TrimLeft (Path u) (lit "/") in
          let opaque := TrimLeft (Opaque u) (lit "/") in
          if negb (bool_decide (path = [])) then path
          else if negb (bool_decide (Host u = [])) then Host u
          else if negb (bool_decide (opaque = [])) then opaque
          else target
      end
  end.

Definition serverTarget (target : bytes) : list KeyValue := address_attributes (splitHostPort (normalizeTarget target) 0).

Definition Builder_Client (c : Ctx) (m : message) : list KeyValue :=
  match client_tr c with
  | None => methodAttributes [] ++ SendMessageSize m
  | Some tr =>
      let '(attrs, remote) :=
        match Kind tr with
        | KindHTTP => (match http tr with Some (req, _) => httpClientTransporter req | None => [] end, [])
        | KindGRPC => (serverTarget (Endpoint tr), default [] (peer c))
        | KindOther _ => ([], [])
        end in
      attrs ++ [RPCSystemName (Kind tr)] ++ methodAttributes (Operation tr) ++
      (if bool_decide (remote = []) then [] else Peer remote) ++ SendMessageSize m
  end.

Definition Builder_Server (serviceHeader : bytes) (c : Ctx) (m : message) : option (list KeyValue) :=
  let last :=
    RecvMessageSize m ++
    match server_md c with Some md => if_some (md_Get md serviceHeader) ServicePeerName | None => [] end in
  match server_tr c with
  | None => Some (methodAttributes [] ++ Peer [] ++ last)
  | Some tr =>
      '(attrs, remote) ←
        match Kind tr with
        | KindHTTP =>
            match http tr with
            | Some (req, template) => attrs ← httpServerTransporter req template; Some (attrs, RemoteAddr req)
            | None => Some ([], [])
            end
        | KindGRPC => Some ([], default [] (peer c))
        | KindOther _ => Some ([], [])
        end;
      Some (attrs ++ [RPCSystemName (Kind tr)] ++ methodAttributes (Operation tr) ++ Peer remote ++ last)
  end.

(** ** [metadata.go] *)

Context {Carrier : Type} (carrier_Get : Carrier -> bytes -> bytes) (carrier_Set : bytes -> bytes -> Carrier -> Carrier)
  (md_New : MD) (md_Set : bytes -> bytes -> MD -> MD).

Definition serviceHeader : bytes := lit "x-md-service-name".

Definition Inject (c : Ctx) (carrier : Carrier) : Carrier :=
  match app c with Some name => carrier_Set serviceHeader name carrier | None => carrier end.

Definition set_server_md (md : MD) (c : Ctx) : Ctx := mkCtx (client_tr c) (server_tr c) (peer c) (Some md) (app c).
Definition Extract (parent : Ctx) (carrier : Carrier) : Ctx :=
  let name := carrier_Get carrier serviceHeader in
  if bool_decide (name = []) then parent
  else set_server_md (md_Set serviceHeader name (default md_New (server_md parent))) parent.
Definition Fields : list bytes := [serviceHeader].

(** ** Keys

    No attribute of a span is given twice. *)
Definition key_of (a : KeyValue) : nat :=
  match a with
  | RequestMethod _ => 0 | HTTPRequestMethodOriginal _ => 1 | URLPath _ => 2 | URLScheme _ => 3 | URLQuery _ => 4
  | URLFull _ => 5 | HTTPRequestBodySize _ => 6 | HTTPRoute _ => 7 | ServerAddress _ => 8 | ServerPort _ => 9
  | ClientAddress _ => 10 | UserAgentOriginal _ => 11 | SystemGRPC | SystemNamed _ => 12 | RPCMethod _ => 13
  | RPCMethodOriginal _ => 14 | NetworkPeerAddress _ => 15 | NetworkPeerPort _ => 16 | MessageSize Send _ => 17
  | MessageSize Recv _ => 18 | ServicePeerName _ => 19 | RPCResponseStatusCode _ => 20 | ErrorType _ => 21
  end%nat.

(** The keys of a list of attributes, in an order. *)
Definition keys_in (ks : list nat) (l : list KeyValue) : Prop := sublist (key_of <$> l) ks.

Lemma keys_app ks1 ks2 l1 l2 : keys_in ks1 l1 -> keys_in ks2 l2 -> keys_in (ks1 ++ ks2) (l1 ++ l2).
Proof using Type. unfold keys_in. rewrite fmap_app. apply sublist_app. Qed.

Lemma keys_nil ks : keys_in ks [].
Proof using Type. apply sublist_nil_l. Qed.

Lemma keys_if_some s f k : (forall x, key_of (f x) = k) -> keys_in [k] (if_some s f).
Proof using Type. intros H. unfold if_some, keys_in. case_bool_decide; simpl; [apply sublist_nil_l|]. by rewrite H. Qed.

Lemma keys_method m : keys_in [0; 1]%nat (httpRequestMethodAttributes m).
Proof using Type.
  unfold httpRequestMethodAttributes, HTTPRequestMethod, keys_in.
  destruct (list_find _ _) as [[? [? ?]]|]; destruct (_ && _); simpl; repeat constructor.
Qed.

Lemma keys_address r : keys_in [8; 9]%nat (address_attributes r).
Proof using Type.
  destruct r as [[a p] []]; [|apply keys_nil]. unfold address_attributes, keys_in. destruct (0 <? p); simpl; repeat constructor.
Qed.

Lemma keys_body r : keys_in [6%nat] (httpRequestBodySize r).
Proof using Type. unfold httpRequestBodySize. destruct (_ <? _); [apply keys_nil|]. unfold keys_in. simpl. repeat constructor. Qed.

Lemma keys_rpc m : keys_in [13; 14]%nat (methodAttributes m).
Proof using Type.
  unfold methodAttributes, keys_in. cbv zeta. destruct (Index _ _); [destruct (_ || _)|case_bool_decide]; simpl; repeat constructor.
Qed.

Lemma keys_peer a : keys_in [15; 16]%nat (Peer a).
Proof using Type.
  unfold Peer, keys_in. destruct (SplitHostPort a) as [[h p]|]; [|apply sublist_nil_l]. destruct (Atoi p); simpl; repeat constructor.
Qed.

Lemma keys_system k : keys_in [12%nat] [RPCSystemName k].
Proof using Type. destruct k; unfold keys_in; simpl; repeat constructor. Qed.

Lemma keys_size d m : keys_in [match d with Send => 17 | Recv => 18 end]%nat (messageSize d m).
Proof using Type. destruct m; [apply keys_nil..|]. destruct d; unfold keys_in; simpl; repeat constructor. Qed.

(** The pieces of a list, one after the other. *)
Ltac keys :=
  repeat first [apply keys_nil | eapply keys_app | apply keys_method | apply keys_address | apply keys_body | apply keys_rpc |
    apply keys_peer | apply keys_system | apply keys_size | (eapply keys_if_some; intros; reflexivity)].

Lemma keys_unique ks l : NoDup ks -> keys_in ks l -> NoDup (key_of <$> l).
Proof using Type. intros Hks Hl. by eapply sublist_NoDup. Qed.

Lemma keys_client req : keys_in [0; 1; 5; 6; 8; 9; 11]%nat (httpClientTransporter req).
Proof using Type.
  unfold httpClientTransporter.
  apply (keys_app [0; 1]%nat); [keys|]. apply (keys_app [5%nat]); [destruct (URL req); keys|].
  apply (keys_app [6%nat]); [keys|]. apply (keys_app [8; 9]%nat); keys.
Qed.

Lemma keys_server req template l : httpServerTransporter req template = Some l -> keys_in [0; 1; 2; 3; 4; 6; 7; 8; 9; 10; 11]%nat l.
Proof using Type.
  unfold httpServerTransporter. destruct (URL req) as [u|]; [|done]. cbn [mbind option_bind]. intros <-%(inj Some).
  apply (keys_app [0; 1]%nat); [keys|]. apply (keys_app [2; 3]%nat [4; 6; 7; 8; 9; 10; 11]%nat [URLPath _; URLScheme _]); [repeat constructor|].
  apply (keys_app [4%nat]); [keys|]. apply (keys_app [6%nat]); [keys|]. apply (keys_app [7%nat]); [keys|].
  apply (keys_app [8; 9]%nat); [keys|]. apply (keys_app [10%nat]); [|keys].
  destruct (remoteAddress _) as [a []]; [repeat constructor|keys].
Qed.

Lemma client_keys c m : NoDup (key_of <$> Builder_Client c m).
Proof using Type.
  unfold Builder_Client. destruct (client_tr c) as [tr|].
  - assert (forall attrs remote ks, keys_in ks attrs -> NoDup (ks ++ [12; 13; 14; 15; 16; 17]%nat) ->
      NoDup (key_of <$> attrs ++ [RPCSystemName (Kind tr)] ++ methodAttributes (Operation tr) ++
        (if bool_decide (remote = []) then [] else Peer remote) ++ SendMessageSize m)) as H.
    { intros attrs remote ks Ha Hks. eapply keys_unique; [exact Hks|]. apply keys_app; [done|].
      apply (keys_app [12%nat]); [keys|]. apply (keys_app [13; 14]%nat); [keys|].
      apply (keys_app [15; 16]%nat); [case_bool_decide; keys|]. apply (keys_size Send). }
    destruct (Kind tr).
    + destruct (http tr) as [[req tpl]|]; [eapply H; [apply keys_client|compute_done]|eapply (H [] [] []); [keys|compute_done]].
    + eapply H; [apply keys_address|compute_done].
    + eapply (H [] [] []); [keys|compute_done].
  - eapply keys_unique; [|apply keys_app; [apply keys_rpc|apply (keys_size Send)]]. compute_done.
Qed.

Lemma server_keys header c m l : Builder_Server header c m = Some l -> NoDup (key_of <$> l).
Proof using Type.
  unfold Builder_Server. cbv zeta.
  assert (Hl : keys_in [18; 19]%nat (RecvMessageSize m ++
    match server_md c with Some md => if_some (md_Get md header) ServicePeerName | None => [] end)).
  { apply (keys_app [18%nat]); [apply (keys_size Recv)|]. destruct (server_md c); keys. }
  set (last := RecvMessageSize m ++ _) in *. clearbody last. destruct (server_tr c) as [tr|].
  - assert (forall attrs remote ks, keys_in ks attrs -> NoDup (ks ++ [12; 13; 14; 15; 16; 18; 19]%nat) ->
      NoDup (key_of <$> attrs ++ [RPCSystemName (Kind tr)] ++ methodAttributes (Operation tr) ++ Peer remote ++ last)) as H.
    { intros attrs remote ks Ha Hks. eapply keys_unique; [exact Hks|]. apply keys_app; [done|].
      apply (keys_app [12%nat]); [keys|]. apply (keys_app [13; 14]%nat); [keys|]. apply (keys_app [15; 16]%nat); [keys|done]. }
    destruct (Kind tr); cbn [mbind option_bind];
      try (intros <-%(inj Some); apply (H [] _ []); [keys|compute_done]).
    destruct (http tr) as [[req tpl]|]; cbn [mbind option_bind];
      [|intros <-%(inj Some); apply (H [] [] []); [keys|compute_done]].
    destruct (httpServerTransporter req tpl) as [attrs|] eqn:E; [|done]. cbn [mbind option_bind]. intros <-%(inj Some).
    eapply H; [by eapply keys_server|compute_done].
  - intros <-%(inj Some). eapply keys_unique; [|apply keys_app; [apply keys_rpc|apply keys_app; [apply keys_peer|exact Hl]]]. compute_done.
Qed.

(** No attribute is given twice, neither to spans of clients nor to those of servers. *)
Theorem builder_keys header c m :
  NoDup (key_of <$> Builder_Client c m) /\ (forall l, Builder_Server header c m = Some l -> NoDup (key_of <$> l)).
Proof using Type. split; [apply client_keys|apply server_keys]. Qed.
End Builder.

(** ** Methods and addresses *)

Lemma TrimLeft_spec s cutset : exists k, s = k ++ TrimLeft s cutset /\ Forall (.∈ cutset) k /\
  (forall a, head (TrimLeft s cutset) = Some a -> a ∉ cutset).
Proof.
  induction s as [|a s IH]; [by exists []|]. cbn [TrimLeft]. unfold has. case_bool_decide as H.
  - destruct IH as (k & E & Hk & Hh). exists (a :: k). split_and!; [by rewrite E at 1|by constructor|done].
  - exists []. split_and!; [done|constructor|]. by intros b [= <-].
Qed.

(** A method with a service and a name, up to slashes before it, is reported as such,
    every other one that is not empty as an unknown one with its original text. *)
Theorem method_attributes m :
  (exists k service name, Forall (.= "/"%char) k /\ m = k ++ service ++ lit "/" ++ name /\ service <> [] /\ ("/"%char ∉ service) /\
    name <> [] /\ methodAttributes m = [RPCMethod (service ++ lit "/" ++ name)]) \/
  (m = [] /\ methodAttributes m = []) \/
  (m <> [] /\ methodAttributes m = [RPCMethod (lit "_OTHER"); RPCMethodOriginal m]).
Proof.
  unfold methodAttributes. cbv zeta. destruct (TrimLeft_spec m (lit "/")) as (k & E & Hk & Hh).
  set (name := TrimLeft m (lit "/")) in *. destruct (Index name (lit "/")) as [i|] eqn:Ei.
  - apply Index_inv in Ei as (l & r & En & <- & Hl). rewrite En, take_app_length, drop_snoc.
    assert (Hm : m <> []) by (rewrite E, En; destruct k; [destruct l|]; done).
    case_bool_decide as H1; [right; right; by split|]. case_bool_decide as H2; [right; right; by split|].
    left. exists k, l, r. cbn [orb]. split_and!; [|by rewrite E at 1; rewrite En|done|done|done|done].
    eapply Forall_impl; [exact Hk|]. intros a Ha. by apply list_elem_of_singleton in Ha.
  - right. case_bool_decide; [by left|by right].
Qed.

(** The port of an address of the host and a decimal number. *)
Lemma Atoi_format p : int64_ok p -> Atoi (lit (FormatInt p)) = Some p.
Proof. intros H. unfold Atoi, lit. rewrite String.string_of_list_ascii_of_string. by apply parse_format. Qed.

Lemma format_plain p : int64_ok p -> plain_text (lit (FormatInt p)).
Proof.
  intros H. pose proof (parse_format p H) as E.
  assert (forall c, (forall d, DecimalString.uint_of_char c (Some d) = None) -> c <> minus -> c <> plus -> c ∉ lit (FormatInt p)) as Hc.
  { intros c H1 H2 H3. by eapply ParseInt_char. }
  split_and!; apply Hc; try done.
Qed.

(** A peer is reported by host and port, with the loopback address for an empty host. *)
Theorem peer_attributes host p : plain_text host -> int64_ok p ->
  Peer (host ++ lit ":" ++ lit (FormatInt p)) =
    [NetworkPeerAddress (if bool_decide (host = []) then lit "127.0.0.1" else host); NetworkPeerPort p].
Proof. intros Hh Hp. unfold Peer. rewrite split_plain by (done || by apply format_plain). by rewrite Atoi_format. Qed.

(** The server of a request: host and port of the URL or of the [Host] header; the
    port of the scheme when there is none. *)
Theorem server_address_port host p fallback : plain_text host -> host <> [] -> 0 < p -> int64_ok p ->
  address_attributes (splitHostPort (host ++ lit ":" ++ lit (FormatInt p)) fallback) = [ServerAddress host; ServerPort p] /\
  (0 < fallback -> address_attributes (splitHostPort host fallback) = [ServerAddress host; ServerPort fallback]) /\
  address_attributes (splitHostPort host 0) = [ServerAddress host].
Proof.
  intros Hh Hne Hp Hok. assert (Hs : SplitHostPort host = None).
  { destruct (SplitHostPort host) as [[h q]|] eqn:E; [|done]. exfalso. destruct Hh as (Hc & _).
    apply SplitHostPort_spec in E as (_ & [(-> & _)|(-> & _)]); apply Hc; rewrite !elem_of_app; simpl;
      rewrite !elem_of_cons; tauto. }
  assert (Ht : Trim host (lit "[]") = host).
  { destruct Hh as (_ & Ho & Hx). unfold Trim, TrimRight.
    assert (Htl : forall l, "["%char ∉ l -> "]"%char ∉ l -> TrimLeft l (lit "[]") = l).
    { intros [|a l] H1 H2; [done|]. cbn [TrimLeft]. rewrite (proj2 (has_false a _)); [done|].
      rewrite elem_of_cons in H1, H2. unfold lit. simpl. rewrite !elem_of_cons, elem_of_nil. intuition congruence. }
    rewrite (Htl host) by done. rewrite Htl by by rewrite elem_of_reverse. apply reverse_involutive. }
  unfold splitHostPort. rewrite split_plain by (done || by apply format_plain). rewrite Hs, Ht, Atoi_format by done.
  simpl. rewrite !(bool_decide_false (host = [])) by done. unfold address_attributes. simpl.
  split_and!; [by rewrite (proj2 (Z.ltb_lt _ _))| |done]. intros. by rewrite (proj2 (Z.ltb_lt _ _)).
Qed.

(** ** The name of the calling service *)

Section Propagation.
Context {MD Carrier : Type} (md_Get : MD -> bytes -> bytes) (carrier_Get : Carrier -> bytes -> bytes)
  (carrier_Set : bytes -> bytes -> Carrier -> Carrier) (md_New : MD) (md_Set : bytes -> bytes -> MD -> MD).
Hypothesis md_Get_Set : forall k v md, md_Get (md_Set k v md) k = v.
Hypothesis carrier_Get_Set : forall k v c, carrier_Get (carrier_Set k v c) k = v.

(** What a client injects a server extracts, and its span names the client. *)
Theorem service_name_travels (client server : ctx MD) carrier name m l :
  app client = Some name -> name <> [] ->
  Builder_Server md_Get serviceHeader (Extract carrier_Get md_New md_Set server (Inject carrier_Set client carrier)) m = Some l ->
  ServicePeerName name ∈ l.
Proof.
  intros Ha Hn. unfold Inject, Extract. rewrite Ha, carrier_Get_Set, bool_decide_false by done. unfold Builder_Server.
  cbn [server_tr server_md set_server_md peer]. rewrite md_Get_Set. unfold if_some. rewrite bool_decide_false by done. cbv zeta.
  destruct (server_tr server) as [tr|].
  - destruct (match Kind tr with KindHTTP => _ | _ => _ end) as [[attrs remote]|]; [|done]. cbn [mbind option_bind].
    intros <-%(inj Some). do 5 (apply elem_of_app; right). by left.
  - intros <-%(inj Some). do 3 (apply elem_of_app; right). by left.
Qed.
End Propagation.

(** ** [config.go]

    The configuration of an instrumentation scope; [P] are tracer providers, [G]
    propagators and [A] attributes.  Nil providers and propagators are [None]. *)
Section Config.
Context {P G A : Type}.

Record config := mkConfig {
  tracerProvider : option P; propagator : G; version : bytes; schemaURL : bytes; attributes : list A
}.

Inductive Option_ :=
  | WithPropagator (g : option G) | WithTracerProvider (p : option P) | WithVersion (v : bytes) | WithSchemaURL (u : bytes)
  | WithAttributes (l : list A).

Definition apply (c : config) (o : Option_) : config :=
  match o with
  | WithPropagator g => mkConfig (tracerProvider c) (default (propagator c) g) (version c) (schemaURL c) (attributes c)
  | WithTracerProvider p =>
      mkConfig (match p with Some _ => p | None => tracerProvider c end) (propagator c) (version c) (schemaURL c) (attributes c)
  | WithVersion v =>
      mkConfig (tracerProvider c) (propagator c) (if bool_decide (v = []) then version c else v) (schemaURL c) (attributes c)
  | WithSchemaURL u =>
      mkConfig (tracerProvider c) (propagator c) (version c) (if bool_decide (u = []) then schemaURL c else u) (attributes c)
  | WithAttributes l => mkConfig (tracerProvider c) (propagator c) (version c) (schemaURL c) (attributes c ++ l)
  end.

(** The default propagator, the version of the package and the global provider. *)
Definition newConfig (composite : G) (Version : bytes) (GetTracerProvider : P) (opts : list Option_) : config :=
  let cfg := foldl apply (mkConfig None composite Version [] []) opts in
  match tracerProvider cfg with
  | Some _ => cfg
  | None => mkConfig (Some GetTracerProvider) (propagator cfg) (version cfg) (schemaURL cfg) (attributes cfg)
  end.

(** The options of the tracer. *)
Inductive tracer_option := InstrumentationVersion (v : bytes) | SchemaURL (u : bytes) | InstrumentationAttributes (l : list A).
Definition newTracer_options (c : config) : list tracer_option :=
  InstrumentationVersion (version c) :: (if bool_decide (schemaURL c = []) then [] else [SchemaURL (schemaURL c)]) ++
  match attributes c with [] => [] | l => [InstrumentationAttributes l] end.

(** Options given later win over earlier ones, nil and empty ones change nothing, and
    attributes add up. *)
Definition set_by {X} (f : Option_ -> option X) (opts : list Option_) (x : X) : X := foldl (fun x o => default x (f o)) x opts.
Definition provider_of (o : Option_) := match o with WithTracerProvider p => p | _ => None end.
Definition propagator_of (o : Option_) := match o with WithPropagator g => g | _ => None end.
Definition version_of (o : Option_) := match o with WithVersion (a :: v) => Some (a :: v) | _ => None end.
Definition schema_of (o : Option_) := match o with WithSchemaURL (a :: v) => Some (a :: v) | _ => None end.
Definition attributes_of (o : Option_) := match o with WithAttributes l => l | _ => [] end.

Lemma apply_all opts c : let c' := foldl apply c opts in
  (forall g, default g (tracerProvider c') = set_by provider_of opts (default g (tracerProvider c))) /\
  propagator c' = set_by propagator_of opts (propagator c) /\ version c' = set_by version_of opts (version c) /\
  schemaURL c' = set_by schema_of opts (schemaURL c) /\ attributes c' = attributes c ++ (opts ≫= attributes_of).
Proof using Type.
  revert c. induction opts as [|o opts IH]; intros c; [simpl; by rewrite app_nil_r|].
  cbn [foldl]. cbv zeta. destruct (IH (apply c o)) as (Hp & Hg & Hv & Hs & Ha). rewrite Hg, Hv, Hs, Ha, bind_cons.
  assert (Hp' : forall g, default g (tracerProvider (foldl apply (apply c o) opts)) =
    set_by provider_of opts (default g (tracerProvider (apply c o)))) by apply Hp.
  split_and!; [intros g; rewrite Hp'|..]; unfold set_by; cbn [foldl].
  - f_equal. by destruct o as [|[p|]| | |].
  - f_equal. by destruct o as [[g|]| | | |].
  - f_equal. by destruct o as [| |[|]| |].
  - f_equal. by destruct o as [| | |[|]|].
  - destruct o; simpl; by rewrite ?app_nil_r, <- ?app_assoc.
Qed.

Theorem config_options composite ver global opts :
  let c := newConfig composite ver global opts in
  tracerProvider c = Some (set_by provider_of opts global) /\ propagator c = set_by propagator_of opts composite /\
  version c = set_by version_of opts ver /\ schemaURL c = set_by schema_of opts [] /\ attributes c = opts ≫= attributes_of.
Proof using Type.
  unfold newConfig. cbv zeta. destruct (apply_all opts (mkConfig None composite ver [] [])) as (Hp & Hg & Hv & Hs & Ha).
  specialize (Hp global). simpl in Hp. destruct (tracerProvider (foldl _ _ _)) as [p|] eqn:E; simpl in *.
  - rewrite E, <- Hp. done.
  - by rewrite <- Hp.
Qed.
End Config.

(** ** [tracer.go], [middleware.go] *)

Inductive span_kind := SpanKindServer | SpanKindClient.
Inductive span_call :=
  | SetAttributes (l : list KeyValue) | RecordError (err : error) | StatusError (err : error) | StatusOK | End.

(** The SDK and the propagator; [W] is the world. *)
Class Otel (Ctx Span W : Type) := {
  tracer_Start : bytes -> span_kind -> Ctx -> W -> Ctx * Span * W;
  span_do : Span -> span_call -> W -> W;
  propagate_in : transporter -> Ctx -> W -> Ctx;
  propagate_out : transporter -> Ctx -> W -> W
}.

Section Middleware.
Context {MD Span W V : Type} `{!Otel (ctx MD) Span W} (url_Parse : bytes -> option url) (md_Get : MD -> bytes -> bytes).
(** Values of type [any], and the code of an error for the framework. *)
Context (nil : V) (as_message : V -> message) (FromError : error -> option Z) (nil_dereference : pvalue).
Local Abbreviation Ctx := (ctx MD).
Local Abbreviation handler := (Ctx -> V -> W -> W * call (V * option error)).

Definition start (k : span_kind) (c : Ctx) (tr : transporter) (w : W) : Ctx * Span * W :=
  let c := match k with SpanKindServer => propagate_in tr c w | SpanKindClient => c end in
  let '(c, span, w) := tracer_Start (Operation tr) k c w in
  (c, span, match k with SpanKindClient => propagate_out tr c w | SpanKindServer => w end).

(** The calls of [end] on the span. *)
Definition end_calls (k : span_kind) (m : V) (err : option error) : list span_call :=
  match err with
  | Some err =>
      RecordError err ::
      match FromError err with Some code => [SetAttributes (RPCErrorAttributes code)] | None => [] end ++ [StatusError err]
  | None => [StatusOK]
  end ++
  [SetAttributes (match k with SpanKindServer => SendMessageSize | SpanKindClient => RecvMessageSize end (as_message m)); End].
Definition end_ (k : span_kind) (span : Span) (m : V) (err : option error) (w : W) : W :=
  foldl (fun w c => span_do span c w) w (end_calls k m err).

(** What both middlewares do with a transport and the attributes of its span: the
    deferred function sees the results of the handler, which are nil when that
    panics. *)
Definition traced (k : span_kind) (attrs : Ctx -> option (list KeyValue)) (tr : transporter) (next : handler) : handler :=
  fun c req w =>
    let '(c, span, w) := start k c tr w in
    match attrs c with
    | None => (w, Panics nil_dereference)
    | Some l =>
        let w := span_do span (SetAttributes l) w in
        match next c req w with
        | (w, Returns (reply, err)) => (end_ k span reply err w, Returns (reply, err))
        | (w, Panics v) => (end_ k span nil None w, Panics v)
        end
    end.

Definition Server (next : handler) : handler := fun c req w =>
  match server_tr c with
  | Some tr => traced SpanKindServer (fun c => Builder_Server md_Get serviceHeader c (as_message req)) tr next c req w
  | None => next c req w
  end.

Definition Client (next : handler) : handler := fun c req w =>
  match client_tr c with
  | Some tr => traced SpanKindClient (fun c => Some (Builder_Client url_Parse c (as_message req))) tr next c req w
  | None => next c req w
  end.

(** ** [statshandler.go]: outgoing headers of a call with a peer and a valid span. *)
Definition HandleRPC (out_header : bool) (SpanFromContext : Ctx -> option Span) (c : Ctx) (w : W) : W :=
  if out_header then
    match peer c, SpanFromContext c with
    | Some addr, Some span => span_do span (SetAttributes (Peer addr)) w
    | _, _ => w
    end
  else w.

(** ** What the SDK promises: spans record the calls made on them until they end. *)
Class OtelLaws (recorded : W -> Span -> list span_call) : Prop := {
  start_fresh op k c w c' s w' : tracer_Start op k c w = (c', s, w') -> recorded w' s = [];
  do_recorded s a w : End ∉ recorded w s -> recorded (span_do s a w) s = recorded w s ++ [a];
  out_unrecorded tr c w s : recorded (propagate_out tr c w) s = recorded w s
}.

Section Laws.
Context (recorded : W -> Span -> list span_call) `{!OtelLaws recorded}.

Lemma start_recorded k c tr w c' s w' : start k c tr w = (c', s, w') -> recorded w' s = [].
Proof using All.
  unfold start. destruct k; destruct (tracer_Start _ _ _ _) as [[c1 s1] w1] eqn:E; intros [= <- <- <-].
  - by eapply start_fresh.
  - rewrite out_unrecorded. by eapply start_fresh.
Qed.

Lemma calls_recorded s (l : list span_call) a w : End ∉ recorded w s -> End ∉ l ->
  recorded (foldl (fun w c => span_do s c w) w (l ++ [a])) s = recorded w s ++ l ++ [a].
Proof using All.
  revert w. induction l as [|b l IH]; intros w Hw Hl; simpl; [by rewrite do_recorded|].
  rewrite elem_of_cons in Hl. rewrite IH; rewrite ?do_recorded by done.
  - by rewrite <- app_assoc.
  - rewrite elem_of_app, list_elem_of_singleton. tauto.
  - tauto.
Qed.

Lemma end_recorded k s m err w : End ∉ recorded w s -> recorded (end_ k s m err w) s = recorded w s ++ end_calls k m err.
Proof using All.
  intros Hw. unfold end_, end_calls.
  set (st := match err with Some _ => _ | None => _ end). set (sz := SetAttributes _).
  replace (st ++ [sz; End]) with ((st ++ [sz]) ++ [End]) by by rewrite <- app_assoc.
  apply calls_recorded; [done|]. subst st sz. rewrite elem_of_app, list_elem_of_singleton.
  destruct err as [e|]; [destruct (FromError e)|]; simpl; rewrite !elem_of_cons, elem_of_nil; intuition congruence.
Qed.

(** A middleware returns or panics as the handler does.  Its span is given the
    attributes of the call, then what the handler adds, and then what [end] does,
    which ends it; nothing follows.  A handler that panics leaves a span with the
    status of success. *)
Theorem span_calls k attrs tr next c req w c' s w1 l w' r during :
  start k c tr w = (c', s, w1) -> attrs c' = Some l ->
  next c' req (span_do s (SetAttributes l) w1) = (w', r) ->
  recorded w' s = recorded (span_do s (SetAttributes l) w1) s ++ during -> End ∉ during ->
  let '(m, err) := match r with Returns p => p | Panics _ => (nil, None) end in
  (traced k attrs tr next c req w).2 = r /\
  recorded (traced k attrs tr next c req w).1 s = SetAttributes l :: during ++ end_calls k m err.
Proof using All.
  intros Hs Ha Hn Hd He. unfold traced. rewrite Hs, Ha. cbv zeta. rewrite Hn.
  assert (E : recorded w' s = SetAttributes l :: during).
  { rewrite Hd, do_recorded; rewrite (start_recorded _ _ _ _ _ _ _ Hs); [done|]. apply not_elem_of_nil. }
  assert (End ∉ recorded w' s) as Hne by (rewrite E, elem_of_cons; intros [?|?]; done).
  destruct r as [[m err]|v]; (split; [done|]); cbn [fst]; by rewrite end_recorded, E.
Qed.
End Laws.
End Middleware.

(** ** An instance: spans are numbers, with a log each. *)
Module TracingDemo.
Local Abbreviation world := (gmap nat (list span_call)).
Definition recorded (w : world) (s : nat) : list span_call := default [] (w !! s).

#[export] Instance demo_otel : Otel (ctx unit) nat world := {
  tracer_Start _ _ c w := (c, fresh (dom w), <[fresh (dom w) := []]> w);
  span_do s a w := <[s := recorded w s ++ [a]]> w;
  propagate_in _ c _ := c;
  propagate_out _ _ w := w
}.

#[export] Instance demo_laws : OtelLaws recorded.
Proof.
  split; unfold recorded.
  - intros op k c w c' s w' [= <- <- <-]. by rewrite lookup_insert_eq.
  - intros s a w _. cbn. by rewrite lookup_insert_eq.
  - done.
Qed.

Definition tr : transporter := mkTransporter (lit "/users.Users/Get") KindGRPC (lit "dns:///users:9000") None.
Definition c0 : ctx unit := mkCtx (Some tr) (Some tr) (Some (lit "10.0.0.7:5000")) None None.

(** A handler that panics is traced with the status of success. *)
Definition panicking : ctx unit -> nat -> world -> world * call (nat * option error) := fun _ _ w => (w, Panics (PText "lost")).
Example panicked_span_ok :
  recorded (Server (fun _ _ => []) 0%nat (fun _ => NoMessage) (fun _ => None) (PText "nil") panicking c0 1%nat ∅).1 0%nat =
    [SetAttributes [SystemGRPC; RPCMethod (lit "users.Users/Get"); NetworkPeerAddress (lit "10.0.0.7"); NetworkPeerPort 5000];
     StatusOK; SetAttributes []; End].
Proof. vm_compute. reflexivity. Qed.
End TracingDemo.
