(* ===== verification/JetTracing.v ===== *)
(** * Tracing of Jet clients: [src/hyperf/jet/middleware/otel]

    The name and attributes of a client span, and the calls made on it.  URL
    parsing, the SDK and what a context knows of the client are parameters. *)

From S2P Require Import Prelude GoErrors GoStrconv Jet.
From Stdlib Require Import Ascii.
From stdpp Require Import strings.
From stdpp Require Import options.
Set Default Proof Using "Type*".
Local Open Scope string_scope.
Local Open Scope list_scope.
Local Open Scope Z_scope.

(** ** [internal/semconv] *)

Inductive KeyValue :=
  | RPCMethod (method : string) | RPCSystemNameJSONRPC | JSONRPCProtocolVersion (version : string)
  | ServerAddress (address : string) | ServerPort (port : Z) | HTTPResponseStatusCode (code : Z)
  | RPCResponseStatusCode (code : string) | ErrorType (code : string).

Definition RPCErrorAttributes (code : Z) : list KeyValue :=
  let statusCode := FormatInt code in [RPCResponseStatusCode statusCode; ErrorType statusCode].

Definition methodName (service method : string) : string :=
  if bool_decide (service = "") then method
  else if bool_decide (method = "") then service
  else service +:+ "/" +:+ method.

Definition defaultPort (scheme : string) : Z :=
  if bool_decide (scheme = "http") then 80 else if bool_decide (scheme = "https") then 443 else 0.

(** A URL with the results of its methods [Hostname] and [Port]. *)
Record url := mkURL { Scheme : string; Host : string; Hostname : string; Port : string }.

(** The kinds of formatters, and transporters: those on HTTP have an address. *)
Inductive formatter_kind := FormatterKindJSONRPC | FormatterKindOther.
Inductive transporter := HTTPTransporter_ (t : option string) | OtherTransporter.
Record jet_client := mkJetClient {
  formatter : option formatter_kind; transport : transporter; pathGenerator : option (string -> string -> string)
}.

Section Builder.
Context (url_Parse : string -> option url).

(** [strings.Contains] *)
Definition Contains (s sub : string) : bool := match String.index 0 sub s with Some _ => true | None => false end.

Definition serverAddress (addr : string) : option (string * Z) :=
  let raw := if Contains addr "://" then addr else "http://" +:+ addr in
  match url_Parse raw with
  | None => None
  | Some u =>
      if bool_decide (Host u = "") then None
      else if bool_decide (Hostname u = "") then None
      else if bool_decide (Port u = "") then Some (Hostname u, defaultPort (Scheme u))
      else Some (Hostname u, default 0 (ParseInt (Port u)))
  end.

Definition httpTransporterAttributes (t : option string) : list KeyValue :=
  match t with
  | None => []
  | Some addr =>
      if bool_decide (addr = "") then []
      else match serverAddress addr with
           | Some (address, port) => ServerAddress address :: (if 0 <? port then [ServerPort port] else [])
           | None => []
           end
  end.

Definition formatterAttributes (f : option formatter_kind) : list KeyValue :=
  match f with
  | Some FormatterKindJSONRPC => [RPCSystemNameJSONRPC; JSONRPCProtocolVersion JSONRPCVersion]
  | _ => []
  end.
Definition transporterAttributes (t : transporter) : list KeyValue :=
  match t with HTTPTransporter_ t => httpTransporterAttributes t | OtherTransporter => [] end.

Definition Operation (client : option jet_client) (service method : string) : string :=
  match client with
  | None => methodName service method
  | Some client => match pathGenerator client with Some g => g service method | None => methodName service method end
  end.

Definition Builder_Client (client : option jet_client) (service method : string) : list KeyValue :=
  RPCMethod (Operation client service method) ::
  match client with
  | None => []
  | Some c => formatterAttributes (formatter c) ++ transporterAttributes (transport c)
  end.

(** The errors of responses and of the transport, found in the error or below it. *)
Context (as_response_error : error -> option Z).
Definition ErrorAttributes (err : error) : list KeyValue :=
  match errors_As as_response_error err with
  | Some code => RPCErrorAttributes code
  | None =>
      match errors_As as_server_error err with
      | Some code => [HTTPResponseStatusCode code; ErrorType (FormatInt code)]
      | None => []
      end
  end.

(** ** [middleware.go] *)

Inductive span_call := StatusError (err : error) | RecordError (err : error) | SetAttributes (l : list KeyValue) | End.

Context {W V Span : Type} (ClientFromContext : context -> option jet_client)
  (tracer_Start : context -> string -> list KeyValue -> W -> context * Span * W) (span_do : Span -> span_call -> W -> W).

(** The calls after the handler; [End] is deferred, so that it is also made when the
    handler panics. *)
Definition after_calls (r : outcome V) : list span_call :=
  match r with
  | Return _ (Some err) => [StatusError err; RecordError err; SetAttributes (ErrorAttributes err); End]
  | Return _ None | Panic _ => [End]
  end.

Definition New (next : @Handler W V) : @Handler W V := fun ctx service method request w =>
  let client := ClientFromContext ctx in
  let attrs := Builder_Client client service method in
  let '(ctx, span, w) := tracer_Start ctx (Operation client service method) attrs w in
  let '(r, w) := next ctx service method request w in
  (r, foldl (fun w c => span_do span c w) w (after_calls r)).

(** ** What spans record *)

(** No key is given twice. *)
Definition key_of (a : KeyValue) : nat :=
  match a with
  | RPCMethod _ => 0 | RPCSystemNameJSONRPC => 1 | JSONRPCProtocolVersion _ => 2 | ServerAddress _ => 3 | ServerPort _ => 4
  | HTTPResponseStatusCode _ => 5 | RPCResponseStatusCode _ => 6 | ErrorType _ => 7
  end%nat.

Theorem jet_keys client service method err :
  NoDup (key_of <$> Builder_Client client service method ++ ErrorAttributes err).
Proof using Type.
  assert (He : sublist (key_of <$> ErrorAttributes err) [5; 6; 7]%nat).
  { unfold ErrorAttributes. destruct (errors_As as_response_error err); [|destruct (errors_As as_server_error err)]; simpl; repeat constructor. }
  assert (Ht : sublist (key_of <$> Builder_Client client service method) [0; 1; 2; 3; 4]%nat).
  { unfold Builder_Client. destruct client as [[f t g]|]; [|simpl; repeat constructor]. rewrite fmap_cons, fmap_app. cbn [key_of].
    constructor. apply (sublist_app _ [1; 2]%nat _ [3; 4]%nat).
    - destruct f as [[]|]; simpl; repeat constructor.
    - destruct t as [[addr|]|]; simpl; try apply sublist_nil_l. unfold httpTransporterAttributes. case_bool_decide; [apply sublist_nil_l|].
      destruct (serverAddress addr) as [[a p]|]; [|apply sublist_nil_l]. destruct (0 <? p); simpl; repeat constructor. }
  rewrite fmap_app. eapply sublist_NoDup; [|by apply (sublist_app _ _ _ _ Ht He)]. compute_done.
Qed.

(** What the SDK promises: a span records the calls made on it until it ends. *)
Context (recorded : W -> Span -> list span_call).
Hypothesis start_fresh : forall ctx name l w c' s w', tracer_Start ctx name l w = (c', s, w') -> recorded w' s = [].
Hypothesis do_recorded : forall s a w, End ∉ recorded w s -> recorded (span_do s a w) s = recorded w s ++ [a].

Lemma jet_calls_recorded s (l : list span_call) w : End ∉ recorded w s -> End ∉ l ->
  recorded (foldl (fun w c => span_do s c w) w (l ++ [End])) s = recorded w s ++ l ++ [End].
Proof using do_recorded.
  revert w. induction l as [|b l IH]; intros w Hw Hl; simpl; [by rewrite do_recorded|].
  rewrite elem_of_cons in Hl. rewrite IH; rewrite ?do_recorded by done.
  - by rewrite <- app_assoc.
  - rewrite elem_of_app, list_elem_of_singleton. tauto.
  - tauto.
Qed.

(** The middleware returns or panics as the handler does, and its span is ended
    after all other calls, with an error exactly if the handler returned one. *)
Theorem jet_span next ctx service method request w c' s w1 r w2 :
  tracer_Start ctx (Operation (ClientFromContext ctx) service method) (Builder_Client (ClientFromContext ctx) service method) w = (c', s, w1) ->
  next c' service method request w1 = (r, w2) -> recorded w2 s = recorded w1 s ->
  (New next ctx service method request w).1 = r /\
  recorded (New next ctx service method request w).2 s = after_calls r.
Proof using do_recorded start_fresh.
  intros Hs Hn Hr. rewrite (start_fresh _ _ _ _ _ _ _ Hs) in Hr. unfold New. rewrite Hs, Hn. cbn [fst snd]. split; [done|].
  assert (exists l, after_calls r = l ++ [End] /\ End ∉ l) as (l & -> & Hl).
  { destruct r as [v [err|]|v]; simpl.
    - exists [StatusError err; RecordError err; SetAttributes (ErrorAttributes err)]. split; [done|].
      rewrite !elem_of_cons, elem_of_nil. intuition congruence.
    - exists []. split; [done|]. apply not_elem_of_nil.
    - exists []. split; [done|]. apply not_elem_of_nil. }
  rewrite jet_calls_recorded; rewrite ?Hr; [done|apply not_elem_of_nil|done].
Qed.
End Builder.
