(* ===== verification/Kratos.v ===== *)
(** * Middlewares of Kratos: [src/kratos/middleware/cors], [src/kratos/middleware/protovalidate]

    Headers added to the replies of matching paths, and validation of requests.
    Regular expressions, transports, reply headers and the validator are
    parameters. *)

From S2P Require Import Prelude GoErrors Strings GoNet.
From Stdlib Require Import Ascii.
From stdpp Require Import options.
Set Default Proof Using "Type*".
Local Open Scope nat_scope.

(** ** [cors.go] *)

Record options := mkOptions {
  paths : list bytes; allowedMethods : list bytes; allowedOrigins : list bytes; allowedHeaders : list bytes
}.
Definition newOptions : options := mkOptions [lit "*"] [lit "*"] [lit "*"] [lit "*"].

Inductive Option_ :=
  | Path (l : list bytes) | AppendPath (l : list bytes) | AllowedMethods (l : list bytes) | AppendAllowedMethods (l : list bytes)
  | AllowedHeaders (l : list bytes) | AppendAllowedHeaders (l : list bytes) | AllowedOrigins (l : list bytes)
  | AppendAllowedOrigins (l : list bytes).

Definition apply (o : options) (opt : Option_) : options :=
  let '(mkOptions p m og h) := o in
  match opt with
  | Path l => mkOptions l m og h
  | AppendPath l => mkOptions (p ++ l) m og h
  | AllowedMethods l => mkOptions p l og h
  | AppendAllowedMethods l => mkOptions p (m ++ l) og h
  | AllowedHeaders l => mkOptions p m og l
  | AppendAllowedHeaders l => mkOptions p m og (h ++ l)
  | AllowedOrigins l => mkOptions p m l h
  | AppendAllowedOrigins l => mkOptions p m (og ++ l) h
  end.

(** [strings.Join] and [strings.ReplaceAll] of stars. *)
Fixpoint Join (l : list bytes) (sep : bytes) : bytes :=
  match l with
  | [] => []
  | [x] => x
  | x :: l => x ++ sep ++ Join l sep
  end.
Definition replace_stars (s : bytes) : bytes := s ≫= fun a => if bool_decide (a = star) then lit ".*" else [a].

Section Cors.
(** [regexp.MatchString]: [None] if the pattern does not compile. *)
Context (MatchString : bytes -> bytes -> option bool).

Definition isPath (pattern value : bytes) : bool :=
  if bool_decide (pattern = lit "*") || bool_decide (pattern = value) then true
  else default false (MatchString (replace_stars (TrimLeft pattern (lit "/"))) (TrimLeft value (lit "/"))).

(** What a server context gives: whether the transport is on HTTP, and the URI of the
    request. *)
Record server_context := mkServerContext { is_http : bool; RequestURI : option bytes }.

Context {Ctx Req Reply W : Type} (FromServerContext : Ctx -> option server_context) (Add : bytes -> bytes -> Ctx -> W -> W).
Local Abbreviation handler := (Ctx -> Req -> W -> W * Reply).

Definition cors_headers (op : options) : list (bytes * bytes) :=
  [(lit "Access-Control-Allow-Credentials", lit "true");
   (lit "Access-Control-Allow-Methods", Join (allowedMethods op) (lit ", "));
   (lit "Access-Control-Allow-Headers", Join (allowedHeaders op) (lit ", "));
   (lit "Access-Control-Allow-Origin", Join (allowedOrigins op) (lit ", "))].

(** The loop over the paths, which ends at the first that matches. *)
Fixpoint path_loop (op : options) (ps : list bytes) (uri : bytes) (c : Ctx) (w : W) : W :=
  match ps with
  | [] => w
  | p :: ps =>
      if negb (isPath p uri) then path_loop op ps uri c w
      else foldl (fun w '(k, v) => Add k v c w) w (cors_headers op)
  end.

Definition Cors (opts : list Option_) (next : handler) : handler :=
  let op := foldl apply newOptions opts in
  fun c req w =>
    match FromServerContext c with
    | Some s =>
        if negb (is_http s) then next c req w
        else match RequestURI s with
             | Some uri => next c req (path_loop op (paths op) uri c w)
             | None => next c req w
             end
    | None => next c req w
    end.

(** The headers are added once if some path matches, however many do, and not
    otherwise; the handler is always called. *)
Theorem cors_once opts next c req w :
  let op := foldl apply newOptions opts in
  Cors opts next c req w =
  match FromServerContext c with
  | Some (mkServerContext true (Some uri)) =>
      next c req (if decide (Exists (fun p => isPath p uri = true) (paths op))
                  then foldl (fun w '(k, v) => Add k v c w) w (cors_headers op) else w)
  | _ => next c req w
  end.
Proof.
  cbv zeta. unfold Cors. destruct (FromServerContext c) as [[[] [uri|]]|]; try done. cbn [is_http RequestURI negb]. f_equal.
  generalize (foldl apply newOptions opts) as op. intros op. generalize (paths op) as ps. intros ps.
  induction ps as [|p ps IH]; [rewrite decide_False; [done|]; rewrite Exists_nil; tauto|]. cbn [path_loop]. destruct (isPath p uri) eqn:E; cbn [negb].
  - by rewrite decide_True by by constructor.
  - rewrite IH. apply decide_ext. rewrite Exists_cons, E. split; [by right|by intros [?|?]].
Qed.

(** Without options every request matches. *)
Theorem cors_default_matches uri : Exists (fun p => isPath p uri = true) (paths newOptions).
Proof. by constructor. Qed.

(** ** [validator.go] *)

(** Requests that are messages are validated; [Validator] is nil or a validator. *)
Context {Msg : Type} (as_message : Req -> option Msg) (default_handler : Ctx -> Req -> error -> W -> W * Reply).
Record voptions := mkVOptions { validator : option (Msg -> option error); vhandler : Ctx -> Req -> error -> W -> W * Reply }.
Inductive VOption := Validator (v : option (Msg -> option error)) | Handler (h : Ctx -> Req -> error -> W -> W * Reply).
Definition vapply (o : voptions) (opt : VOption) : voptions :=
  match opt with Validator v => mkVOptions v (vhandler o) | Handler h => mkVOptions (validator o) h end.

Definition Server (opts : list VOption) (next : handler) : handler :=
  let o := foldl vapply (mkVOptions None default_handler) opts in
  fun c req w =>
    match validator o with
    | Some validate =>
        match as_message req with
        | Some msg => match validate msg with Some err => vhandler o c req err w | None => next c req w end
        | None => next c req w
        end
    | None => next c req w
    end.

(** With a validator the handler is called only with requests that are no messages or
    valid ones; a handler that rejects invalid messages never sees one. *)
Theorem validated opts next next' c req w validate :
  validator (foldl vapply (mkVOptions None default_handler) opts) = Some validate ->
  (forall r, (forall msg, as_message r = Some msg -> validate msg = None) -> next c r w = next' c r w) ->
  Server opts next c req w = Server opts next' c req w.
Proof.
  intros Hv Hn. unfold Server. rewrite Hv. destruct (as_message req) as [msg|] eqn:Em; [|apply Hn; congruence].
  destruct (validate msg) eqn:Ev; [done|]. apply Hn. intros m. rewrite Em. by intros [= <-].
Qed.
End Cors.
