(* ===== verification/GormLogger.v ===== *)
(** * The OpenTelemetry logger for GORM: [src/gorm/logger/otel]

    Options, levels, and the records that [Info], [Warn], [Error] and [Trace] emit.
    The provider, the logger and its [Enabled], the attributes added by functions
    and the clock are parameters; [fmt.Sprintf] is applied by the caller's text. *)

From S2P Require Import Prelude GoErrors GoFloat.
From Stdlib Require Import SpecFloat.
From stdpp Require Import strings.
From stdpp Require Import options.
Set Default Proof Using "Type*".
Local Open Scope string_scope.
Local Open Scope list_scope.
Local Open Scope Z_scope.

(** Levels of GORM are integers, from silent to informational. *)
Definition Silent : Z := 1.
Definition LevelError : Z := 2.
Definition LevelWarn : Z := 3.
Definition LevelInfo : Z := 4.

Inductive severity := SeverityInfo | SeverityWarn | SeverityError.

(** The sentinel [logger.ErrRecordNotFound]. *)
Definition ErrRecordNotFound : string := "record not found".

Section Logger.
Context {Provider Logger_ Ctx A : Type}.

(** ** [config.go] *)

Record config := mkConfig {
  provider : Provider; version : string; schemaURL : string; attributes : list A; logAttributes : list A;
  logAttributeFuncs : list (Ctx -> list A); level : Z; slowThreshold : Z; ignoreRecordNotFoundError : bool;
  parameterizedQueries : bool
}.

Inductive Option_ :=
  | WithLoggerProvider (p : option Provider) | WithVersion (v : string) | WithSchemaURL (u : string)
  | WithAttributes (l : list A) | WithLogAttributes (l : list A) | WithLogAttributeFuncs (l : list (option (Ctx -> list A)))
  | WithLogLevel (l : Z) | WithSlowThreshold (d : Z) | WithIgnoreRecordNotFoundError (b : bool)
  | WithParameterizedQueries (b : bool).

Definition apply (c : config) (o : Option_) : config :=
  let '(mkConfig p v u a la lf l st ig pq) := c in
  match o with
  | WithLoggerProvider p' => mkConfig (default p p') v u a la lf l st ig pq
  | WithVersion v' => mkConfig p (if bool_decide (v' = "") then v else v') u a la lf l st ig pq
  | WithSchemaURL u' => mkConfig p v (if bool_decide (u' = "") then u else u') a la lf l st ig pq
  | WithAttributes a' => mkConfig p v u (a ++ a') la lf l st ig pq
  | WithLogAttributes la' => mkConfig p v u a (la ++ la') lf l st ig pq
  | WithLogAttributeFuncs fs => mkConfig p v u a la (lf ++ omap id fs) l st ig pq
  | WithLogLevel l' => mkConfig p v u a la lf l' st ig pq
  | WithSlowThreshold st' => mkConfig p v u a la lf l st' ig pq
  | WithIgnoreRecordNotFoundError ig' => mkConfig p v u a la lf l st ig' pq
  | WithParameterizedQueries pq' => mkConfig p v u a la lf l st ig pq'
  end.

Definition newConfig (GetLoggerProvider : Provider) (Version : string) (opts : list Option_) : config :=
  foldl apply (mkConfig GetLoggerProvider Version "" [] [] [] LevelWarn (200 * Millisecond) true false) opts.

Inductive logger_option := InstrumentationVersion (v : string) | SchemaURL (u : string) | InstrumentationAttributes (l : list A).
Context (provider_Logger : Provider -> string -> list logger_option -> Logger_).

Definition newLogger (c : config) (name : string) : Logger_ :=
  provider_Logger (provider c) name
    (InstrumentationVersion (version c) :: (if bool_decide (schemaURL c = "") then [] else [SchemaURL (schemaURL c)]) ++
     match attributes c with [] => [] | l => [InstrumentationAttributes l] end).

(** ** [logger.go] *)

Record Logger := mkLogger {
  logger : Logger_; lAttributes : list A; lAttributeFuncs : list (Ctx -> list A); lLevel : Z; lSlow : Z;
  lIgnore : bool; lParameterized : bool
}.

Definition scopeName : string := "github.com/go-fries/fries/gorm/logger/otel/v4".

Definition New (GetLoggerProvider : Provider) (Version : string) (opts : list Option_) : Logger :=
  let cfg := newConfig GetLoggerProvider Version opts in
  mkLogger (newLogger cfg scopeName) (logAttributes cfg) (logAttributeFuncs cfg) (level cfg) (slowThreshold cfg)
    (ignoreRecordNotFoundError cfg) (parameterizedQueries cfg).

Definition LogMode (l : Logger) (lv : Z) : Logger :=
  mkLogger (logger l) (lAttributes l) (lAttributeFuncs l) lv (lSlow l) (lIgnore l) (lParameterized l).

Definition ParamsFilter {P} (l : Logger) (sql : string) (params : list P) : string * list P :=
  if lParameterized l then (sql, []) else (sql, params).

(** Attributes of a trace, and those given by the user. *)
Inductive attr :=
  | QueryText (sql : string) | RowsAffected (rows : Z) | ElapsedMs (ms : spec_float) | EventName (name : string)
  | ErrorTypeOf (err : error) | ErrorMessageOf (err : error) | User (a : A).

Record record := mkRecord {
  rTimestamp : Z; rSeverity : severity; rSeverityText : string; rBody : string; rAttributes : list attr
}.

(** What a call does: it evaluates the statement, or emits a record. *)
Inductive action := EvalStatement | Emit (r : record).

Context (Enabled : Logger_ -> Ctx -> severity -> bool).
Definition enabled (l : Logger) (ctx : Ctx) (s : severity) : bool := Enabled (logger l) ctx s.

Definition emit (l : Logger) (ctx : Ctx) (now : Z) (s : severity) (text body : string) (attrs : list attr) : list action :=
  [Emit (mkRecord now s text body
    (attrs ++ (User <$> lAttributes l) ++ (User <$> (lAttributeFuncs l ≫= fun fn => fn ctx))))].

Definition Info (l : Logger) (ctx : Ctx) (now : Z) (msg : string) : list action :=
  if (LevelInfo <=? lLevel l) && enabled l ctx SeverityInfo then emit l ctx now SeverityInfo "INFO" msg [] else [].
Definition Warn (l : Logger) (ctx : Ctx) (now : Z) (msg : string) : list action :=
  if (LevelWarn <=? lLevel l) && enabled l ctx SeverityWarn then emit l ctx now SeverityWarn "WARN" msg [] else [].
Definition Error (l : Logger) (ctx : Ctx) (now : Z) (msg : string) : list action :=
  if (LevelError <=? lLevel l) && enabled l ctx SeverityError then emit l ctx now SeverityError "ERROR" msg [] else [].

(** [float64(elapsed.Nanoseconds()) / 1e6] *)
Definition elapsed_ms (elapsed : Z) : spec_float :=
  SFdiv prec64 emax64 (float64_of_int elapsed) (float64_of_int 1000000).

Definition emitSQL (l : Logger) (ctx : Ctx) (now : Z) (s : severity) (text eventName sql : string) (rows elapsed : Z)
    (err : option error) : list action :=
  emit l ctx now s text eventName
    ([QueryText sql; RowsAffected rows; ElapsedMs (elapsed_ms elapsed); EventName eventName] ++
     match err with Some e => [ErrorTypeOf e; ErrorMessageOf e] | None => [] end).

(** [now] is the time at the check of the elapsed time and [later] that of the
    record; [fc] is what the statement evaluates to. *)
Definition Trace (l : Logger) (ctx : Ctx) (now later begin : Z) (fc : string * Z) (err : option error) : list action :=
  if lLevel l <=? Silent then []
  else
    let elapsed := time_sub now begin in
    let traced s text event err :=
      if enabled l ctx s then EvalStatement :: emitSQL l ctx later s text event fc.1 fc.2 elapsed err else [] in
    let failed :=
      match err with
      | Some e => (LevelError <=? lLevel l) && (negb (errors_Is e ErrRecordNotFound) || negb (lIgnore l))
      | None => false
      end in
    if failed then traced SeverityError "ERROR" "gorm.sql.error" err
    else if (lSlow l <? elapsed) && negb (lSlow l =? 0) && (LevelWarn <=? lLevel l)
    then traced SeverityWarn "WARN" "gorm.sql.slow" None
    else if lLevel l =? LevelInfo then traced SeverityInfo "INFO" "gorm.sql" None
    else [].

(** ** Records *)

Definition level_of (s : severity) : Z :=
  match s with SeverityInfo => LevelInfo | SeverityWarn => LevelWarn | SeverityError => LevelError end.

(** Records are emitted only at their level and when the logger is enabled for it, with
    the attributes of the user last; a trace evaluates its statement once if it
    emits a record, before that, and not otherwise. *)
Theorem trace_shape l ctx now later begin fc err :
  Trace l ctx now later begin fc err = [] \/
  exists r attrs, Trace l ctx now later begin fc err = [EvalStatement; Emit r] /\
    enabled l ctx (rSeverity r) = true /\ level_of (rSeverity r) <= lLevel l /\
    rAttributes r = attrs ++ (User <$> lAttributes l ++ (lAttributeFuncs l ≫= fun fn => fn ctx)) /\ QueryText fc.1 ∈ attrs.
Proof using Type.
  assert (Hone : forall s text event e, level_of s <= lLevel l ->
    let t := if enabled l ctx s then EvalStatement :: emitSQL l ctx later s text event fc.1 fc.2 (time_sub now begin) e else [] in
    t = [] \/ exists r attrs, t = [EvalStatement; Emit r] /\ enabled l ctx (rSeverity r) = true /\ level_of (rSeverity r) <= lLevel l /\
      rAttributes r = attrs ++ (User <$> lAttributes l ++ (lAttributeFuncs l ≫= fun fn => fn ctx)) /\ QueryText fc.1 ∈ attrs).
  { intros s text event e Hs. cbv zeta. destruct (enabled l ctx s) eqn:E; [|by left]. right.
    unfold emitSQL, emit. do 2 eexists. split_and!; [done|done|done|cbn [rAttributes]; by rewrite fmap_app|]. by left. }
  unfold Trace. destruct (Z.leb_spec (lLevel l) Silent); [by left|]. cbv zeta.
  destruct (match err with Some _ => _ | None => _ end) eqn:Ef.
  { apply Hone. destruct err; [|done]. apply andb_true_iff in Ef as [?%Z.leb_le _]. done. }
  destruct (_ && _ && _) eqn:Es; [apply Hone; apply andb_true_iff in Es as [_ ?%Z.leb_le]; done|].
  destruct (Z.eqb_spec (lLevel l) LevelInfo) as [E|]; [apply Hone; simpl; lia|by left].
Qed.

(** An error is reported as such, with its attributes, at every level but the silent
    one, unless it says that no record was found and these are ignored... *)
Theorem trace_error l ctx now later begin fc e : LevelError <= lLevel l -> enabled l ctx SeverityError = true ->
  errors_Is e ErrRecordNotFound = false \/ lIgnore l = false ->
  exists r, Trace l ctx now later begin fc (Some e) = [EvalStatement; Emit r] /\ rSeverity r = SeverityError /\
    ErrorTypeOf e ∈ rAttributes r /\ ErrorMessageOf e ∈ rAttributes r.
Proof using Type.
  intros Hl He Hi. unfold Trace. rewrite (proj2 (Z.leb_gt (lLevel l) Silent)) by (unfold Silent, LevelError in *; lia). cbv zeta.
  rewrite (proj2 (Z.leb_le LevelError (lLevel l))) by done. rewrite He.
  assert (negb (errors_Is e ErrRecordNotFound) || negb (lIgnore l) = true) as -> by (destruct Hi as [-> | ->]; by rewrite ?orb_true_r).
  unfold emitSQL, emit. cbn [andb]. eexists. split_and!; [done|done|..]; cbn [rAttributes app]; rewrite !elem_of_cons; tauto.
Qed.

(** ...in which case the statement is traced as one without an error. *)
Theorem trace_ignored l ctx now later begin fc e : errors_Is e ErrRecordNotFound = true -> lIgnore l = true ->
  Trace l ctx now later begin fc (Some e) = Trace l ctx now later begin fc None.
Proof using Type. intros He Hi. unfold Trace. rewrite He, Hi. cbn [negb orb]. by rewrite andb_false_r. Qed.

(** Without options slow statements are reported. *)
Theorem default_reports g v ctx now later begin fc :
  (forall s, Enabled (newLogger (newConfig g v []) scopeName) ctx s = true) -> int64_ok (now - begin) ->
  200 * Millisecond < now - begin ->
  exists r, Trace (New g v []) ctx now later begin fc None = [EvalStatement; Emit r] /\ rSeverity r = SeverityWarn.
Proof using Type.
  intros He Hok Hs. unfold Trace. cbn [New lLevel newConfig foldl level lSlow slowThreshold lIgnore]. cbv zeta.
  rewrite time_sub_small by done. rewrite (proj2 (Z.ltb_lt _ _)) by done. cbn.
  unfold enabled. cbn. cbn in He. rewrite He. unfold emitSQL, emit. by eexists.
Qed.
End Logger.
