(* ===== verification/Globals.v ===== *)
(** * Process-wide state: the default dispatcher of [src/event], [src/x/container],
    [src/env]

    The default dispatcher is a pointer into a store of dispatchers, whose
    subscriptions stay with the dispatcher they were made on.  The global container
    is created by whoever asks for it first, in steps that others may come between.
    The environment is a value that is stored and compared. *)

From S2P Require Import Prelude GoErrors Event.
From stdpp Require Import gmap strings.
From stdpp Require Import options.
Set Default Proof Using "Type*".
Local Open Scope string_scope.
Local Open Scope list_scope.

(** ** [event/default.go], [event/context.go], [event/provider.go] *)

Section Default.
Context {V : Type}.

(** The dispatchers of the process by address, and the default one.  A subscription
    keeps the address of its dispatcher. *)
Record process := mkProcess { dispatchers : list (Dispatcher V); defaultDispatcher : nat }.
Record bound := mkBound { on : nat; sub : Subscription V }.

(** The package's [init]. *)
Definition init_process : process := mkProcess [New []] 0.

(** [event.New] in the process: the address of a new dispatcher. *)
Definition new_dispatcher (options : list (option (list (option Middleware)))) (p : process) : process * nat :=
  (mkProcess (dispatchers p ++ [New options]) (defaultDispatcher p), length (dispatchers p)).

Definition Default (p : process) : nat := defaultDispatcher p.

(** [None] is the panic of a nil dispatcher. *)
Definition SetDefault (d : option nat) (p : process) : option process :=
  d ← d; Some (mkProcess (dispatchers p) d).

(** [Subscribe] on the default dispatcher; [None] is the panic of a nil listener. *)
Definition Subscribe (ls : list (option (listenerDefinition V))) (p : process) : option (process * bound) :=
  let a := Default p in
  d ← dispatchers p !! a;
  r ← Event.Subscribe ls d;
  Some (mkProcess (<[a := r.1]> (dispatchers p)) (defaultDispatcher p), mkBound a r.2).

(** [Unsubscribe] of a subscription, on its own dispatcher. *)
Definition Unsubscribe (b : bound) (p : process) : option (process * bound * bool) :=
  d ← dispatchers p !! on b;
  let '(d, s, removed) := Event.Unsubscribe (sub b) d in
  Some (mkProcess (<[on b := d]> (dispatchers p)) (defaultDispatcher p), mkBound (on b) s, removed).

(** [Dispatch] through the default dispatcher. *)
Definition Dispatch (Is : error -> error -> bool) (ctx : option context) (value : option (nat * V))
    (options : list (option DispatchOption)) (p : process) : option dispatch :=
  d ← dispatchers p !! Default p; Some (Event.Dispatch Is ctx value options d).

(** Contexts carry the address of a dispatcher; a nil context panics. *)
Record vctx := mkCtx { carried : option nat }.
Definition NewContext (ctx : option vctx) (d : option nat) : option vctx := _ ← ctx; d ← d; Some (mkCtx (Some d)).
Definition FromContext (ctx : option vctx) : option (option nat) := c ← ctx; Some (carried c).

(** [Provider], made with a dispatcher that is not nil. *)
Definition NewProvider (d : option nat) : option nat := d.
Definition Bootstrap (provider : nat) (ctx : option vctx) (p : process) : option (process * vctx) :=
  p ← SetDefault (Some provider) p; c ← NewContext ctx (Some provider); Some (p, c).
Definition Shutdown (ctx : option vctx) : option vctx * option error := (ctx, None).

(** Operations on the default dispatcher touch no other; after the default has
    changed, a subscription is still removed from the dispatcher it was made on, and
    the new default does not see it. *)
Theorem default_isolated ls p p1 b p2 d :
  Subscribe ls p = Some (p1, b) -> SetDefault (Some d) p1 = Some p2 ->
  on b = Default p /\
  (forall a, a <> Default p -> dispatchers p2 !! a = dispatchers p !! a) /\
  (forall p3 b' removed, Unsubscribe b p2 = Some (p3, b', removed) ->
     Default p3 = d /\ on b' = on b /\ forall a, a <> Default p -> dispatchers p3 !! a = dispatchers p !! a).
Proof using Type.
  unfold Subscribe, SetDefault. intros Hs [= <-].
  destruct (dispatchers p !! Default p) as [dd|] eqn:Ed; [|done]. simpl in Hs.
  destruct (Event.Subscribe ls dd) as [[d' s]|]; [|done]. simpl in Hs. injection Hs as <- <-. simpl.
  split_and!; [done|intros a Ha; by apply list_lookup_insert_ne|].
  intros p3 b' removed. unfold Unsubscribe. simpl.
  destruct (<[Default p := d']> (dispatchers p) !! Default p) as [x|]; [|done]. simpl.
  destruct (Event.Unsubscribe s x) as [[y t] r]. intros [= <- <- <-]. simpl. split_and!; [done..|].
  intros a Ha. by rewrite !list_lookup_insert_ne.
Qed.

(** A provider makes its dispatcher the default and hands it on in the context. *)
Theorem provider_bootstrap d ctx p p' c : Bootstrap d ctx p = Some (p', c) ->
  Default p' = d /\ FromContext (Some c) = Some (Some d) /\ dispatchers p' = dispatchers p.
Proof using Type. unfold Bootstrap, NewContext. destruct ctx; [|done]. by intros [= <- <-]. Qed.
End Default.

(** ** [x/container] *)

Section Container.
(** Keys, and values with the type each has at run time. *)
Context {K T V : Type} `{Countable K, EqDecision T} (type_of : V -> T).

Definition ErrKeyNotFound : error := ErrNew "the key is not found".
Definition ErrTypeMismatch : error := ErrNew "type mismatch".

Abbreviation container := (gmap K V).
Definition container_New : container := ∅.
Definition container_Set (key : K) (value : V) (c : container) : container := <[key := value]> c.
Definition container_Get (key : K) (c : container) : V + error :=
  match c !! key with Some v => inl v | None => inr ErrKeyNotFound end.

(** [Get] at a type, from the global container, and [MustGet], whose panic is
    [None]. *)
Definition typed_Get (t : T) (key : K) (c : container) : V + error :=
  match container_Get key c with
  | inr err => inr err
  | inl v => if decide (type_of v = t) then inl v else inr ErrTypeMismatch
  end.
Definition MustGet (t : T) (key : K) (c : container) : option V :=
  match typed_Get t key c with inl v => Some v | inr _ => None end.

Theorem container_get_set t k k' v c :
  typed_Get t k (container_Set k' v c) =
    if decide (k = k') then (if decide (type_of v = t) then inl v else inr ErrTypeMismatch) else typed_Get t k c.
Proof.
  unfold typed_Get, container_Get, container_Set. destruct (decide (k = k')) as [->|Hne].
  - by rewrite lookup_insert_eq.
  - by rewrite lookup_insert_ne.
Qed.

(** *** The global container

    [GetContainer] loads the global, stores a new container if there was none, and
    loads again; [Set] then writes to what it got. *)
Inductive caller :=
| Loading (key : K) (value : V)                  (* before the first load *)
| Storing (key : K) (value : V)                  (* it saw nil *)
| Reloading (key : K) (value : V)
| Writing (key : K) (value : V) (c : nat)        (* holds the container [c] *)
| Finished.

Record global := mkGlobal {
  containers : list container;                   (* by address *)
  current : option nat;                          (* [global] *)
  callers : gmap nat caller
}.

Inductive global_step : global -> global -> Prop :=
| step_Set cs g m k key value : m !! k = None ->
    global_step (mkGlobal cs g m) (mkGlobal cs g (<[k := Loading key value]> m))
| step_load cs g m k key value : m !! k = Some (Loading key value) ->
    global_step (mkGlobal cs g m)
      (mkGlobal cs g (<[k := match g with None => Storing key value | Some _ => Reloading key value end]> m))
| step_store cs g m k key value : m !! k = Some (Storing key value) ->
    global_step (mkGlobal cs g m)
      (mkGlobal (cs ++ [container_New]) (Some (length cs)) (<[k := Reloading key value]> m))
| step_reload cs g m k key value c : m !! k = Some (Reloading key value) -> g = Some c ->
    global_step (mkGlobal cs g m) (mkGlobal cs g (<[k := Writing key value c]> m))
| step_write cs g m k key value c cont : m !! k = Some (Writing key value c) -> cs !! c = Some cont ->
    global_step (mkGlobal cs g m) (mkGlobal (<[c := container_Set key value cont]> cs) g (<[k := Finished]> m)).

(** What [GetContainer] would return is a container, and no caller is stuck: whoever
    reloads finds one, and whoever writes holds one. *)
Definition global_inv (s : global) : Prop :=
  (forall c, current s = Some c -> c < length (containers s)) /\
  map_Forall (fun _ p => match p with
    | Reloading _ _ => current s <> None
    | Writing _ _ c => c < length (containers s)
    | _ => True end) (callers s).

Lemma global_inv_step s s' : global_step s s' -> global_inv s -> global_inv s'.
Proof.
  intros Hs [Hc Hm]. unfold global_inv. destruct Hs; simpl in *.
  - split; [done|]. by apply map_Forall_insert_2.
  - split; [done|]. apply map_Forall_insert_2; [by destruct g|done].
  - split; [intros c [= <-]; rewrite length_app; simpl; lia|]. apply map_Forall_insert_2; [done|].
    eapply map_Forall_impl; [exact Hm|]. intros i []; simpl; try done. rewrite length_app. lia.
  - split; [done|]. apply map_Forall_insert_2; [by apply Hc|done].
  - rewrite length_insert. split; [done|]. by apply map_Forall_insert_2.
Qed.

Theorem global_never_stuck s k p : rtc global_step (mkGlobal [] None ∅) s -> callers s !! k = Some p ->
  p = Finished \/ exists s', global_step s s' /\ callers s' !! k <> Some p.
Proof.
  intros Hs Hk. assert (global_inv s) as [Hc Hm].
  { clear Hk. pattern s. revert s Hs. apply rtc_ind_r; [|intros y z _ Hyz; by apply global_inv_step].
    split; [done|apply map_Forall_empty]. }
  specialize (Hm _ _ Hk). destruct s as [cs g m]. simpl in *. destruct p as [key value|key value|key value|key value c|]; [right..|by left].
  - eexists. split; [by eapply step_load|]. simpl. rewrite lookup_insert_eq. by destruct g.
  - eexists. split; [by eapply step_store|]. simpl. by rewrite lookup_insert_eq.
  - destruct g as [c|]; [|done]. eexists. split; [by eapply step_reload|]. simpl. by rewrite lookup_insert_eq.
  - destruct (lookup_lt_is_Some_2 cs c Hm) as [cont Hcont]. eexists. split; [by eapply step_write|]. simpl.
    by rewrite lookup_insert_eq.
Qed.

(** Two first uses at the same time: both create a container, and what the first has
    set is not in the one that stays. *)
Theorem global_set_lost (k1 k2 : K) (v1 v2 : V) : k1 <> k2 ->
  exists s c cont, rtc global_step (mkGlobal [] None ∅) s /\
    callers s !! 0 = Some Finished /\ callers s !! 1 = Some Finished /\
    current s = Some c /\ containers s !! c = Some cont /\ container_Get k1 cont = inr ErrKeyNotFound.
Proof.
  intros Hne. eexists _, 1, (container_Set k2 v2 container_New). split.
  { eapply rtc_l; [by apply (step_Set [] None ∅ 0 k1 v1)|]. eapply rtc_l; [by apply (step_Set [] None _ 1 k2 v2)|].
    eapply rtc_l; [by apply (step_load _ _ _ 0 k1 v1)|]. eapply rtc_l; [by apply (step_load _ _ _ 1 k2 v2)|].
    eapply rtc_l; [by apply (step_store _ _ _ 0 k1 v1)|]. eapply rtc_l; [by apply (step_reload _ _ _ 0 k1 v1 0)|].
    eapply rtc_l; [by apply (step_store _ _ _ 1 k2 v2)|]. eapply rtc_l; [by apply (step_reload _ _ _ 1 k2 v2 1)|].
    eapply rtc_l; [by apply (step_write _ _ _ 0 k1 v1 0 ∅)|]. eapply rtc_l; [by apply (step_write _ _ _ 1 k2 v2 1 ∅)|].
    apply rtc_refl. }
  split_and!; [done..|]. unfold container_Get, container_Set. by rewrite lookup_insert_ne.
Qed.
End Container.

(** ** [env] *)

Definition Dev : string := "dev".
Definition Prod : string := "prod".
Definition Debug : string := "debug".
Definition Stage : string := "stage".

Definition Env_Is (e : string) (envs : list string) : bool := bool_decide (e ∈ envs).
Definition SetEnv (env _ : string) : string := env.
Definition init_env : string := Prod.
Definition env_Is (current : string) (envs : list string) : bool := Env_Is current envs.
Definition IsDev (current : string) : bool := env_Is current [Dev].
Definition IsProd (current : string) : bool := env_Is current [Prod].
Definition IsDebug (current : string) : bool := env_Is current [Debug].
Definition IsStage (current : string) : bool := env_Is current [Stage].

(** The loop of [IsUseString]. *)
Fixpoint IsUseString (current : string) (envs : list string) : bool :=
  match envs with
  | [] => false
  | env :: envs => if bool_decide (current = env) then true else IsUseString current envs
  end.

(** The two ways to ask agree, and at most one of the four predicates holds. *)
Theorem env_agree current envs :
  IsUseString current envs = env_Is current envs /\
  (length (filter (fun b => b = true) [IsDev current; IsProd current; IsDebug current; IsStage current]) <= 1)%nat.
Proof.
  split.
  - unfold env_Is, Env_Is. induction envs as [|e envs IH]; [done|]. cbn [IsUseString].
    rewrite IH. destruct (bool_decide_reflect (current = e)) as [->|Hne]; [by rewrite bool_decide_true by left|].
    apply bool_decide_ext. rewrite elem_of_cons. tauto.
  - assert (forall x, env_Is current [x] = bool_decide (current = x)) as Hx.
    { intros x. apply bool_decide_ext. apply list_elem_of_singleton. }
    unfold IsDev, IsProd, IsDebug, IsStage. rewrite !Hx.
    repeat match goal with |- context [bool_decide ?P] => destruct (bool_decide_reflect P) end; subst; try done; simpl; lia.
Qed.
